(* ===== verification/_CoqProject ===== *)
-Q . S2P
Prelude.v
JsMap.v
RwLock.v
Ids.v
Scheduler.v
HashRing.v
Directory.v
TxStorage.v
TxState.v
TxAgent.v
ValueCodec.v
Activation.v
Catalog.v
Dispatch.v
Heap.v
Frequent.v
Durable.v
Journal.v
CustomLog.v
JournaledGrain.v
Repartition.v
JobModel.v
JobExecutor.v
JobManager.v
JobCluster.v
StreamDelivery.v
StreamAgent.v
StreamProvider.v
MemoryStream.v
Reminders.v
Membership.v
EndpointWatch.v
RangeRecovery.v
Messaging.v
Client.v
Persistence.v
BatchWorker.v
ObserverManager.v
LeaseProvider.v
CancelWalk.v
Cancellation.v
GrainTimer.v
ClientGateway.v
KafkaQueue.v
Host.v
