(* ===== verification/Prelude.v ===== *)
(** * Thresh: a verified model of the virtual-actor runtime

    Thresh is a port of the Orleans actor runtime to TypeScript. A silo hosts
    grains; a grain is an identity whose activation, at most one in the cluster,
    runs the turns of its methods one after the other. A distributed directory
    says where the activation lives, transactions tie the states of several
    grains together, and journals and storages make states durable. This
    development translates the parts that decide whether all that is correct into
    executable definitions, and proves what they promise. Sources are named
    relative to [packages/].

    ** The files, in dependency order

    - [Prelude], [JsMap]: the order and the stable sort of the language, runs of a
      component over a sequence of operations, maps in insertion order.
    - [RwLock]: the wait-die lock, [transactions/src/reader-writer-lock.ts].
    - [Ids]: keys, grain ids, silo and grain addresses, guids, durations and the
      32-bit hashes, [core/src].
    - [Scheduler]: the turns of one activation, [runtime/src/turn-scheduler.ts].
    - [HashRing]: the consistent-hash ring, [directory/src/consistent-hash-ring.ts]
      and [core/src/hash-ring.ts].
    - [Directory]: a silo's partition with its handoff (Module [Partition]), the
      location cache ([Cache]) and the routing of an operation to the owner
      ([Distributed]), [directory/src].
    - [TxStorage]: the storage contract of transactions as a type class, the effect
      of one store call and the in-memory instance.
    - [TxState]: a transactional state over that lock and any such storage,
      [transactions/src/transactional-state-impl.ts].
    - [TxAgent]: the two phases over the participants of a transaction and the
      boundary of a root call, [runtime/src/transaction-agent.ts].
    - [ValueCodec]: encoding of runtime values for the wire and for storages,
      [core/src/value-codec.ts].
    - [Activation]: the life cycle of an activation around its scheduler,
      [runtime/src/activation.ts].
    - [Catalog]: the activations of a silo, [runtime/src/catalog.ts].
    - [Dispatch]: the way of a call through the cluster,
      [runtime/src/distributed-dispatcher.ts] and [local-dispatcher.ts].
    - [Heap], [Frequent], [Repartition]: the heap and the frequent-item sketch of the
      repartitioner, and the exchange of activations between two silos,
      [runtime/src/placement/repartitioning].
    - [Durable]: the journalled structures behind a type class with its laws,
      [journaling/src/durable-*-impl.ts]. [Journal]: the manager that journals them,
      over any storage that satisfies the contract of [core/src/journal-storage.ts],
      and the in-memory storage.
    - [CustomLog], [JournaledGrain]: event-sourced grains, their confirmed log and
      tentative views over log storages, [journaling/src] and [core/src/journaled-grain.ts].
    - [JobModel], [JobExecutor], [JobManager], [JobCluster]: durable jobs: shards and
      their store, the executor of one shard, the manager of a silo, and the silos of
      a cluster over one store, [durable-jobs/src].
    - [StreamDelivery], [StreamAgent], [StreamProvider], [MemoryStream]: the fan-out of
      an event, the agent that pulls a queue, the agents of a silo by the ring, and
      streams in memory; [KafkaQueue]: the queues of a Kafka topic and the owner of
      its partitions, [streams/src].
    - [Reminders]: tables, the local service and its timers, [reminders/src].
    - [Membership], [EndpointWatch]: views of the cluster from Kubernetes slices or
      fixed, and the watch of the slices, [clustering-k8s/src],
      [runtime/src/static-membership.ts].
    - [RangeRecovery]: what a silo does to its partition when the view changes,
      [runtime/src/cluster-node.ts].
    - [Messaging]: the correlation of answers to calls and the pool of connections,
      [messaging/src]; [Client]: the calls of a client, [client/src/client-node.ts];
      [ClientGateway]: the clients of a silo and the gossip about them,
      [runtime/src/client-directory.ts] and [cluster-node.ts].
    - [Persistence]: states of grains and the in-memory store, [persistence/src].
    - [BatchWorker], [ObserverManager], [LeaseProvider]: helpers of grains, [core/src].
    - [CancelWalk], [Cancellation]: the walk over arguments that rewrites tokens and
      signals, and the cancellation that goes about the activations holding them,
      [core/src] and [runtime/src/cancellation-extension.ts].
    - [GrainTimer]: a grain's timer, [runtime/src/grain-timer-impl.ts].
    - [Host]: health, self-probe, shutdown and membership loop, [hosting/src].

    [TxState] uses [RwLock] and the class of [TxStorage]; [Directory] uses
    [HashRing] and [Ids]; [Activation] contains a [Scheduler]; [Catalog] creates
    activations by identity and drives their life cycle; [Dispatch] calls
    directory, catalog and activation, whose answers are arbitrary in it;
    [Frequent] sifts with the loops of [Heap], [Repartition] with the heap of its
    candidates; [Journal] writes its frames with [ValueCodec] and rebuilds the
    machines of [Durable]; [JournaledGrain] runs over the logs of [CustomLog];
    [JobCluster] is any number of managers of [JobManager], each with executors of
    [JobExecutor], over the store of [JobModel]; [StreamAgent] pulls any queue with the
    laws of its type class and leaves the fan-out to [StreamDelivery]; [StreamProvider]
    and [Reminders] own what [HashRing] gives them; [KafkaQueue] feeds agents;
    [EndpointWatch] publishes to [Membership], whose views make the ring of
    [RangeRecovery], which recovers the partitions of [Directory]; [ClientGateway] takes
    up the same views; [Host] runs the loop over the updates of [Membership].

    ** How code becomes definitions

    A class is a [Record] of its fields, a method a function that takes and
    returns it, and what others see of a call - a promise settled, a timer armed, a
    log line - an event of its result. JavaScript never preempts a turn, so an
    operation is what runs between two awaits, and an execution is any sequence
    of operations: that covers every interleaving. Where a method awaits, the
    rest of it is an operation of its own, or its call and its continuation are
    one step that is given a fault, which says whether the call fails before or
    after it takes effect; the file's header says which. A promise is a number,
    handed out in order. A thrown error is a value of a sum or the none of an
    option. Numbers that the code keeps at 32 bits wrap around explicitly, other
    numbers are integers. Clocks, random choices, grain code and third-party
    code are parameters or arbitrary inputs of the operations.

    ** What the theorems show

    - Locks, schedulers, activations: every promise is settled exactly once
      ([lock_promises_settle_once], [scheduler_promises_settle_once],
      [calls_settle_once]), nothing that could run is left waiting
      ([lock_no_lost_wakeup], [scheduler_no_stranded_turn],
      [held_calls_watched]), the scheduler starts turns in the order of a full search
      of its queue ([scheduler_equals_full_rescan]), and what must exclude each other does
      ([lock_mutual_exclusion], [one_exclusive_turn]).
    - Single activation: [single_activation] and [worker_ceiling] in the catalog;
      the directory agrees on one owner and one winner ([ring_owner_agreed],
      [registration_agreed], [handoff_keeps_registrations]), also while ranges move
      ([partition_owned_by_ring], [inherited_range_found]); a call runs at most
      once ([rerouted_call_never_ran], [dispatch_runs_once]), and its way is
      bounded and ends ([dispatch_hops_bounded], [dispatch_terminates]).
    - Views: silos that watch one API server hold its slices and come to one ring
      ([watch_mirrors_server], [watching_silos_agree], [same_slices_same_owner]).
    - Calls over the wire: [correlation_contract], [request_sent_once],
      [attempts_fit_budget]; clients are found at their gateways
      ([clients_are_found], [gateway_holds_clients]).
    - Transactions: storage is compare-and-set and memory agrees with it
      ([apply_store_contract], [memory_agrees_with_storage]); records in doubt are
      never abandoned; a root transaction is all or nothing
      ([root_all_or_nothing]).
    - Durability: [codec_roundtrip], [snapshot_rebuilds], [journal_recovers],
      [append_all_or_nothing], [retired_until_grace], [view_is_prefix_of_log],
      [write_is_conditional].
    - Work handed out by the ring or by claims: one runner for each shard
      ([shard_single_runner]), each queue pulled by one silo and its entries served at
      least once and to the end ([queue_pulled_by_one], [at_least_once],
      [agent_catches_up], [fan_out_contract]), each reminder scheduled once
      ([reminder_scheduled_once]), partitions of Kafka owned as wanted and read
      without a gap ([owned_follows_wanted], [kafka_partition_served]).
    - Cancellation: [walk_rewrites], [cancel_reaches_holders], [cancellations_end].
    - Data structures and helpers: [max_heap_contract], [frequent_items_wellformed],
      [exchange_contract], [work_is_serviced], [notify_over_snapshot],
      [lease_exclusive], [ticks_one_chain]; [wedged_silo_leaves_service].

    Each theorem states its conditions, and its comment says what they leave out: what
    the code does not promise, such as journalling [NaN], or gets wrong. The [Runs]
    modules evaluate concrete executions: the witnesses of the theorems, behaviours the
    code has against its own documentation, and what happens beyond the conditions.

    ** Fuel and bounds

    The loops of the heap take the index, or the size, as fuel, and the theorems
    that depend on the end of the loop hold with exactly that fuel. The pump of
    the lock runs as often as there are waiters and is proved to reach its
    fixpoint. A dispatched call is given fuel [2 * T + 6], where [T] bounds the
    moments at which the directory still answers with stale entries;
    [dispatch_terminates] shows that it does not run out. The exchange of activations
    is given [exchange_fuel], one more than the candidates of both sides, each of which is
    moved once; a fan-out the time budget of an event plus two, as every failed attempt
    takes time; the walk over arguments the number of objects, each of which it enters
    once; a chain of signals the number of signals; an append to a log the attempts
    the code makes. In each case the theorem of the component says that the result is
    that of the code, not of the fuel.

    ** Not modelled

    Sockets and the clients of third-party stores (Redis, Postgres, Kafka, Kubernetes):
    what the code relies on of them is a parameter or an arbitrary step; metrics, traces
    and logs; the wiring of silos, clients and hosts ([silo-builder.ts], the start of
    [silo-host.ts], and of [cluster-node.ts] what only forwards); decorators and builders
    that only record metadata; proxies of grain interfaces; placement and rebalancing
    decisions that compare floating-point scores, and load shedding by floating-point
    thresholds; regular expressions of channel namespaces. *)
From Stdlib Require Import String OrderedTypeEx.
From stdpp Require Import prelude gmap strings list sorting.

(** ** Hint databases and tactics of the development *)

Create HintDb thresh.

(** Split every conjunction and existential of the context. *)
Ltac split_hyps :=
  repeat match goal with
  | H : _ ∧ _ |- _ => destruct H
  | H : ∃ _, _ |- _ => destruct H
  end.

(** Case analysis on every boolean test and every match of the goal. *)
Ltac cases :=
  repeat (case_match || case_decide || case_bool_decide); simplify_eq/=.

(** ** JavaScript string order

    [a < b] on strings compares code units lexicographically. *)

Definition str_ltb (a b : string) : bool :=
  match String.compare a b with Lt => true | _ => false end.

Lemma str_compare_cmp a b : String.compare a b = String_as_OT.cmp a b.
Proof.
  revert b; induction a as [|c a IH]; intros [|d b]; simpl; try done.
Qed.

Lemma str_ltb_lt a b : str_ltb a b = true ↔ String_as_OT.lt a b.
Proof.
  unfold str_ltb. rewrite str_compare_cmp, <- String_as_OT.cmp_lt.
  destruct (String_as_OT.cmp a b); naive_solver.
Qed.

Lemma str_ltb_irrefl a : str_ltb a a = false.
Proof.
  destruct (str_ltb a a) eqn:E; [|done].
  apply str_ltb_lt in E. by apply String_as_OT.lt_not_eq in E.
Qed.

Lemma str_ltb_trans a b c :
  str_ltb a b = true → str_ltb b c = true → str_ltb a c = true.
Proof. rewrite !str_ltb_lt. apply String_as_OT.lt_trans. Qed.

Lemma str_ltb_total a b : a ≠ b → str_ltb a b = true ∨ str_ltb b a = true.
Proof.
  intros Hne. unfold str_ltb.
  rewrite (compare_antisym b a).
  destruct (String.compare a b) eqn:E; [|by left|by right].
  by apply compare_eq_iff in E.
Qed.

Lemma str_ltb_asym a b : str_ltb a b = true → str_ltb b a = false.
Proof.
  intros H. destruct (str_ltb b a) eqn:E; [|done].
  pose proof (str_ltb_irrefl a) as Hi. by rewrite (str_ltb_trans _ _ _ H E) in Hi.
Qed.

Lemma str_ltb_negb a b : a ≠ b → str_ltb a b = negb (str_ltb b a).
Proof.
  intros Hne. destruct (str_ltb_total a b Hne) as [H|H]; rewrite H;
    by rewrite (str_ltb_asym _ _ H).
Qed.

#[export] Hint Resolve str_ltb_trans str_ltb_irrefl : thresh.

(** ** A stable sort, as [Array.prototype.sort] is

    [sort_by ltb l] sorts by the strict order [ltb]; elements neither of which
    is below the other keep their order. *)

Fixpoint insert_by {A} (ltb : A → A → bool) (x : A) (l : list A) : list A :=
  match l with
  | [] => [x]
  | y :: l' => if ltb y x then y :: insert_by ltb x l' else x :: l
  end.

Fixpoint sort_by {A} (ltb : A → A → bool) (l : list A) : list A :=
  match l with
  | [] => []
  | x :: l' => insert_by ltb x (sort_by ltb l')
  end.

Section sort_by.
Context {A : Type} (ltb : A → A → bool).

Lemma insert_by_perm x l : insert_by ltb x l ≡ₚ x :: l.
Proof.
  induction l as [|y l IH]; simpl; [done|].
  destruct (ltb y x); [|done]. rewrite IH. constructor.
Qed.

Lemma sort_by_perm l : sort_by ltb l ≡ₚ l.
Proof. induction l as [|x l IH]; simpl; [done|]. by rewrite insert_by_perm, IH. Qed.

Hypothesis ltb_cotrans : ∀ x y z, ltb x z = true → ltb x y = true ∨ ltb y z = true.
Hypothesis ltb_asym : ∀ x y, ltb x y = true → ltb y x = false.

Lemma insert_by_sorted x l :
  StronglySorted (λ x y, ltb y x = false) l →
  StronglySorted (λ x y, ltb y x = false) (insert_by ltb x l).
Proof using ltb_asym ltb_cotrans.
  induction 1 as [|y l Hl IH Hy]; simpl; [repeat constructor|].
  destruct (ltb y x) eqn:Hyx.
  - constructor; [done|]. rewrite insert_by_perm. constructor; auto.
  - constructor; [by constructor|]. constructor; [done|].
    eapply Forall_impl; [exact Hy|]. simpl. intros z Hzy.
    destruct (ltb z x) eqn:Hzx; [|done].
    destruct (ltb_cotrans z y x Hzx); congruence.
Qed.

Lemma sort_by_sorted l : StronglySorted (λ x y, ltb y x = false) (sort_by ltb l).
Proof using ltb_asym ltb_cotrans.
  induction l as [|x l IH]; simpl; [constructor|by apply insert_by_sorted].
Qed.
End sort_by.

(** ** Runs of a deterministic component

    A component is a state, a type of operations and a function that executes
    one operation and reports the externally visible events. [run] folds it
    over a sequence of operations: any interleaving of callers is such a
    sequence, because a JavaScript turn is never preempted. *)

Section runs.
Context {S O E : Type} (exec : S → O → S * list E).

Fixpoint run (s : S) (ops : list O) : S * list E :=
  match ops with
  | [] => (s, [])
  | o :: ops' =>
      let '(s1, ev1) := exec s o in
      let '(s2, ev2) := run s1 ops' in
      (s2, ev1 ++ ev2)
  end.

Lemma run_app s ops1 ops2 :
  run s (ops1 ++ ops2) =
    let '(s1, ev1) := run s ops1 in
    let '(s2, ev2) := run s1 ops2 in (s2, ev1 ++ ev2).
Proof.
  revert s; induction ops1 as [|o ops1 IH]; intros s; simpl.
  - by destruct (run s ops2).
  - destruct (exec s o) as [s1 ev1]. rewrite IH.
    destruct (run s1 ops1) as [s2 ev2]. destruct (run s2 ops2) as [s3 ev3].
    by rewrite ?app_assoc.
Qed.

(** An invariant of every operation is an invariant of every run. *)
Lemma run_invariant (Inv : S → Prop) :
  (∀ s o, Inv s → Inv (exec s o).1) →
  ∀ ops s, Inv s → Inv (run s ops).1.
Proof.
  intros Hstep ops. induction ops as [|o ops IH]; intros s Hs; simpl; [done|].
  specialize (Hstep s o Hs). destruct (exec s o) as [s1 ev1].
  simpl in Hstep. specialize (IH s1 Hstep). revert IH. by destruct (run s1 ops).
Qed.

(** The same for an invariant that also speaks of the events emitted so far. *)
Lemma run_trace_invariant (Inv : list E → S → Prop) :
  (∀ tr s o, Inv tr s → Inv (tr ++ (exec s o).2) (exec s o).1) →
  ∀ ops tr s, Inv tr s → Inv (tr ++ (run s ops).2) (run s ops).1.
Proof.
  intros Hstep ops. induction ops as [|o ops IH]; intros tr s Hs; simpl.
  - by rewrite app_nil_r.
  - specialize (Hstep tr s o Hs). destruct (exec s o) as [s1 ev1].
    simpl in Hstep. specialize (IH _ _ Hstep). revert IH. destruct (run s1 ops) as [s2 ev2].
    simpl. by rewrite app_assoc.
Qed.
End runs.
