(* ===== verification/JsMap.v ===== *)
(** * JavaScript maps

    A [Map] as the code sees it: an association list in insertion order.
    [set] of a present key replaces the value in place, of a new key appends;
    [delete] removes the entry. Deleting entries while iterating, as several
    loops do, visits every entry once, so those loops are filters and folds. *)
From stdpp Require Import prelude list.
From S2P Require Import Prelude.

Section jsmap.
Context {K V : Type} `{EqDecision K}.

Fixpoint jm_get (k : K) (m : list (K * V)) : option V :=
  match m with
  | [] => None
  | (k', v) :: m' => if decide (k' = k) then Some v else jm_get k m'
  end.

Definition jm_has (k : K) (m : list (K * V)) : bool := bool_decide (is_Some (jm_get k m)).

Fixpoint jm_set (k : K) (v : V) (m : list (K * V)) : list (K * V) :=
  match m with
  | [] => [(k, v)]
  | (k', v') :: m' => if decide (k' = k) then (k', v) :: m' else (k', v') :: jm_set k v m'
  end.

Definition jm_delete (k : K) (m : list (K * V)) : list (K * V) :=
  filter (λ kv, kv.1 ≠ k) m.

Definition jm_keys (m : list (K * V)) : list K := m.*1.
Definition jm_values (m : list (K * V)) : list V := m.*2.

(** Maps as the code builds them: no key twice. *)
Definition jm_ok (m : list (K * V)) : Prop := NoDup (jm_keys m).

Lemma jm_get_set_eq k v m : jm_get k (jm_set k v m) = Some v.
Proof.
  induction m as [|[k' v'] m IH]; simpl; [by rewrite decide_True|].
  destruct (decide (k' = k)) as [->|Hne]; simpl; [by rewrite decide_True|by rewrite decide_False].
Qed.

Lemma jm_get_set_ne k k' v m : k ≠ k' → jm_get k' (jm_set k v m) = jm_get k' m.
Proof.
  intros Hne. induction m as [|[k0 v0] m IH]; simpl; [by rewrite decide_False|].
  destruct (decide (k0 = k)) as [->|]; simpl; [by rewrite !decide_False|].
  by destruct (decide (k0 = k')).
Qed.

Lemma jm_get_set k k' v m :
  jm_get k' (jm_set k v m) = if decide (k = k') then Some v else jm_get k' m.
Proof.
  destruct (decide (k = k')) as [->|]; [apply jm_get_set_eq|by apply jm_get_set_ne].
Qed.

Lemma jm_get_filter (P : K * V → Prop) `{∀ x, Decision (P x)} k m :
  jm_ok m → jm_get k (filter P m) = jm_get k m ≫= λ v, if decide (P (k, v)) then Some v else None.
Proof.
  unfold jm_ok. induction m as [|[k' v] m IH]; simpl; [done|].
  intros [Hk Hm]%NoDup_cons. rewrite filter_cons. destruct (decide (k' = k)) as [->|Hne]; simpl.
  - destruct (decide (P (k, v))); simpl; [by rewrite decide_True|].
    rewrite IH by done. destruct (jm_get k m) as [v'|] eqn:E; [|done]. exfalso. apply Hk.
    clear -E. induction m as [|[k0 v0] m IH]; simpl in *; [done|].
    destruct (decide (k0 = k)) as [->|]; [by left|right; auto].
  - case_decide; simpl; [rewrite decide_False by done|]; by apply IH.
Qed.

Lemma jm_get_delete_eq k m : jm_get k (jm_delete k m) = None.
Proof.
  unfold jm_delete. induction m as [|[k' v] m IH]; [done|]. rewrite filter_cons. simpl.
  case_decide; simpl; [by rewrite decide_False|done].
Qed.

Lemma jm_get_delete_ne k k' m : k ≠ k' → jm_get k' (jm_delete k m) = jm_get k' m.
Proof.
  intros Hne. unfold jm_delete. induction m as [|[k0 v] m IH]; [done|]. rewrite filter_cons. simpl.
  case_decide as Hk; simpl.
  - by destruct (decide (k0 = k')).
  - assert (k0 = k) as -> by tauto. by rewrite decide_False.
Qed.

Lemma jm_get_delete k k' m :
  jm_get k' (jm_delete k m) = if decide (k = k') then None else jm_get k' m.
Proof.
  destruct (decide (k = k')) as [->|]; [apply jm_get_delete_eq|by apply jm_get_delete_ne].
Qed.

Lemma jm_get_Some_elem k v m : jm_get k m = Some v → (k, v) ∈ m.
Proof.
  induction m as [|[k' v'] m IH]; simpl; [done|].
  destruct (decide (k' = k)) as [->|]; [intros [= ->]; left|intros ?; right; auto].
Qed.

Lemma jm_elem_get k v m : jm_ok m → (k, v) ∈ m → jm_get k m = Some v.
Proof.
  unfold jm_ok. induction m as [|[k' v'] m IH]; simpl; [by intros _ ?%not_elem_of_nil|].
  intros [Hk Hm]%NoDup_cons [Heq|Hin]%elem_of_cons; [simplify_eq; by rewrite decide_True|].
  rewrite decide_False; [by apply IH|]. intros ->. apply Hk.
  apply list_elem_of_fmap. by exists (k, v).
Qed.

Lemma jm_get_None k m : jm_get k m = None ↔ k ∉ jm_keys m.
Proof.
  induction m as [|[k' v'] m IH]; simpl; [by split; [intros _ ?%not_elem_of_nil|]|].
  rewrite not_elem_of_cons. destruct (decide (k' = k)) as [->|]; [split; [done|tauto]|].
  rewrite IH. split; [intros ?; split; [by intros ->|done]|tauto].
Qed.

Lemma jm_set_keys k v m :
  jm_keys (jm_set k v m) = if decide (k ∈ jm_keys m) then jm_keys m else jm_keys m ++ [k].
Proof.
  induction m as [|[k' v'] m IH]; [done|].
  change (jm_keys ((k', v') :: m)) with (k' :: jm_keys m). cbn [jm_set].
  destruct (decide (k' = k)) as [->|Hne]; [by rewrite decide_True by left|].
  change (jm_keys ((k', v') :: jm_set k v m)) with (k' :: jm_keys (jm_set k v m)).
  rewrite IH. case_decide.
  - by rewrite decide_True by by right.
  - rewrite decide_False; [done|]. by intros [?|?]%elem_of_cons.
Qed.

Lemma jm_elem_values_set k v w m : w ∈ jm_values (jm_set k v m) → w = v ∨ w ∈ jm_values m.
Proof.
  induction m as [|[k' v'] m IH]; [by intros ->%list_elem_of_singleton; left|].
  cbn [jm_set]. case_decide; unfold jm_values in *; rewrite !fmap_cons, !elem_of_cons; simpl; tauto.
Qed.

Lemma jm_elem_values_delete k w m : w ∈ jm_values (jm_delete k m) → w ∈ jm_values m.
Proof.
  unfold jm_values, jm_delete. intros ([k' v] & -> & [_ Hin]%list_elem_of_filter)%list_elem_of_fmap.
  by apply (list_elem_of_fmap_2 snd) in Hin.
Qed.

Lemma jm_ok_set k v m : jm_ok m → jm_ok (jm_set k v m).
Proof.
  unfold jm_ok. rewrite jm_set_keys. intros Hm. case_decide as Hk; [done|].
  apply NoDup_app. split_and!; [done| |apply NoDup_singleton].
  by intros x Hx ->%list_elem_of_singleton.
Qed.

Lemma jm_ok_filter (P : K * V → Prop) `{∀ x, Decision (P x)} m : jm_ok m → jm_ok (filter P m).
Proof.
  intros Hm. eapply sublist_NoDup; [exact Hm|]. apply fmap_sublist, sublist_filter.
Qed.

Lemma jm_ok_delete k m : jm_ok m → jm_ok (jm_delete k m).
Proof. apply jm_ok_filter. Qed.

Lemma jm_ok_nil : jm_ok [].
Proof. constructor. Qed.
End jsmap.

#[export] Hint Resolve jm_ok_set jm_ok_delete jm_ok_nil jm_ok_filter : thresh.
Create Rewrite HintDb jsmap.
#[export] Hint Rewrite @jm_get_set @jm_get_delete : jsmap.
