(* ===== verification/RwLock.v ===== *)
(** * The wait-die reader-writer lock of the transactions package

    Models [packages/transactions/src/reader-writer-lock.ts]: the class
    [ReaderWriterLock] with its holders (a JavaScript Map keyed by transaction
    id), its queue of waiters and the promises it hands out. A promise is its
    number; settling it and arming or clearing its timer are events. *)
From Stdlib Require Import String.
From stdpp Require Import prelude gmap strings list sorting.
From S2P Require Import Prelude.
Open Scope Z_scope.

(** ** Data *)

Inductive LockMode := Read | Write.
#[export] Instance LockMode_eq_dec : EqDecision LockMode.
Proof. solve_decision. Defined.

Record Holder := mkHolder {
  h_transactionId : string;
  h_priority : Z;
  h_mode : LockMode }.

(** [isOlder]: strict wait-die priority, lower timestamp first, ties broken by id. *)
Definition isOlder (pa : Z) (ta : string) (pb : Z) (tb : string) : bool :=
  if decide (pa ≠ pb) then bool_decide (pa < pb) else str_ltb ta tb.

(** A queued request. [w_promise] is the promise of its [resolve]/[reject]
    pair; [w_timer] is the delay of its armed deadline timer, if any. *)
Record Waiter := mkWaiter {
  w_transactionId : string;
  w_priority : Z;
  w_mode : LockMode;
  w_promise : nat;
  w_timer : option Z }.

#[export] Instance Waiter_eq_dec : EqDecision Waiter.
Proof. solve_decision. Defined.

Definition waiter_older (a b : Waiter) : bool :=
  isOlder (w_priority a) (w_transactionId a) (w_priority b) (w_transactionId b).

Inductive LockError :=
  | TransactionAbortedError (transactionId : string) (reason : string)
  | TransactionLockUpgradeError (transactionId : string).

Inductive Event :=
  | EResolve (promise : nat)
  | EReject (promise : nat) (err : LockError)
  | ESetTimer (promise : nat) (ms : Z)
  | EClearTimer (promise : nat).

(** The lock. [next_promise] numbers the promises created so far. *)
Record ReaderWriterLock := mkLock {
  holders : gmap string Holder;
  waiters : list Waiter;
  next_promise : nat }.

Definition new_lock : ReaderWriterLock := mkLock ∅ [] 0%nat.

(** ** Operations *)

(** [conflictingHolders]: the holders, the requester's own hold apart, that a
    request of this mode conflicts with. *)
Definition conflicts (transactionId : string) (mode : LockMode) (kv : string * Holder) : Prop :=
  kv.1 ≠ transactionId ∧ (mode = Write ∨ h_mode kv.2 = Write).
#[export] Instance conflicts_dec t m kv : Decision (conflicts t m kv).
Proof. unfold conflicts. apply _. Defined.

Definition conflictingHolders (hs : gmap string Holder) (transactionId : string)
    (mode : LockMode) : list Holder :=
  snd <$> filter (conflicts transactionId mode) (map_to_list hs).

(** [blockOrDie]: wait iff older than every conflicting holder. The promise
    [next_promise] is the one the call returns. *)
Definition blockOrDie (s : ReaderWriterLock) (transactionId : string) (priority : Z)
    (mode : LockMode) (deadline : option Z) (isUpgrade : bool)
    : ReaderWriterLock * list Event :=
  let conflicting := conflictingHolders (holders s) transactionId mode in
  let p := next_promise s in
  if forallb (λ h, isOlder priority transactionId (h_priority h) (h_transactionId h)) conflicting
  then
    (mkLock (holders s)
       (waiters s ++ [mkWaiter transactionId priority mode p deadline]) (S p),
     match deadline with Some ms => [ESetTimer p ms] | None => [] end)
  else
    (mkLock (holders s) (waiters s) (S p),
     [EReject p (if isUpgrade then TransactionLockUpgradeError transactionId
                 else TransactionAbortedError transactionId
                        "wait-die: younger than a lock holder")]).

Definition grant_now (s : ReaderWriterLock) (hs : gmap string Holder)
    : ReaderWriterLock * list Event :=
  (mkLock hs (waiters s) (S (next_promise s)), [EResolve (next_promise s)]).

(** [enter]: acquire, re-enter or upgrade. *)
Definition enter (s : ReaderWriterLock) (transactionId : string) (priority : Z)
    (mode : LockMode) (deadline : option Z) : ReaderWriterLock * list Event :=
  match holders s !! transactionId with
  | Some held =>
      if decide (mode = Write ∧ h_mode held = Read) then
        if decide (conflictingHolders (holders s) transactionId Write = []) then
          grant_now s (<[transactionId :=
            mkHolder (h_transactionId held) (h_priority held) Write]> (holders s))
        else blockOrDie s transactionId priority Write deadline true
      else grant_now s (holders s)
  | None =>
      if decide (conflictingHolders (holders s) transactionId mode = []) then
        grant_now s (<[transactionId := mkHolder transactionId priority mode]> (holders s))
      else blockOrDie s transactionId priority mode deadline false
  end.

(** [waiters.splice(waiters.indexOf(w), 1)]. [indexOf] compares object
    identity, which the promise number is; on a miss the index is -1 and
    [splice] removes the last element. *)
Definition splice_waiter (w : Waiter) (ws : list Waiter) : list Waiter :=
  match list_find (λ w', w_promise w' = w_promise w) ws with
  | Some (i, _) => delete i ws
  | None => delete (pred (length ws)) ws
  end.

Definition clear_timer (w : Waiter) : list Event :=
  match w_timer w with Some _ => [EClearTimer (w_promise w)] | None => [] end.

(** One pass of [pump] over the sorted snapshot [queued]; the last component
    is the flag [progressed]. *)
Fixpoint pump_pass (queued : list Waiter) (hs : gmap string Holder) (ws : list Waiter)
    : gmap string Holder * list Waiter * list Event * bool :=
  match queued with
  | [] => (hs, ws, [], false)
  | w :: rest =>
      if decide (conflictingHolders hs (w_transactionId w) (w_mode w) = []) then
        let '(hs', ws', ev, _) :=
          pump_pass rest
            (<[w_transactionId w :=
               mkHolder (w_transactionId w) (w_priority w) (w_mode w)]> hs)
            (splice_waiter w ws) in
        (hs', ws', clear_timer w ++ EResolve (w_promise w) :: ev, true)
      else pump_pass rest hs ws
  end.

(** The [while (progressed)] loop of [pump], on fuel. A pass that progresses
    grants at least one waiter, so [S (length waiters)] passes are enough
    ([pump_loop_quiescent]). *)
Fixpoint pump_loop (fuel : nat) (hs : gmap string Holder) (ws : list Waiter)
    : gmap string Holder * list Waiter * list Event :=
  match fuel with
  | O => (hs, ws, [])
  | S fuel' =>
      let '(hs1, ws1, ev1, progressed) := pump_pass (sort_by waiter_older ws) hs ws in
      if progressed : bool then
        let '(hs2, ws2, ev2) := pump_loop fuel' hs1 ws1 in (hs2, ws2, ev1 ++ ev2)
      else (hs1, ws1, ev1)
  end.

Definition pump (s : ReaderWriterLock) : ReaderWriterLock * list Event :=
  let '(hs, ws, ev) := pump_loop (S (length (waiters s))) (holders s) (waiters s) in
  (mkLock hs ws (next_promise s), ev).

(** The loop of [release] over the queue, from the last index down. *)
Fixpoint release_scan (transactionId : string) (i : nat) (ws : list Waiter)
    : list Waiter * list Event :=
  match i with
  | O => (ws, [])
  | S j =>
      match ws !! j with
      | Some w =>
          if decide (w_transactionId w = transactionId) then
            let '(ws', ev) := release_scan transactionId j (delete j ws) in
            (ws', clear_timer w ++
                  EReject (w_promise w)
                    (TransactionAbortedError transactionId "lock released while waiting") :: ev)
          else release_scan transactionId j ws
      | None => release_scan transactionId j ws
      end
  end.

(** [release]: drop the hold and the queued requests, then grant waiters. *)
Definition release (s : ReaderWriterLock) (transactionId : string)
    : ReaderWriterLock * list Event :=
  let '(ws, ev1) := release_scan transactionId (length (waiters s)) (waiters s) in
  let '(s', ev2) :=
    pump (mkLock (delete transactionId (holders s)) ws (next_promise s)) in
  (s', ev1 ++ ev2).

(** The deadline timer's callback for the waiter of promise [p]. *)
Definition deadline_elapsed (s : ReaderWriterLock) (p : nat) : ReaderWriterLock * list Event :=
  match list_find (λ w, w_promise w = p) (waiters s) with
  | None => (s, [])
  | Some (i, w) =>
      (mkLock (holders s) (delete i (waiters s)) (next_promise s),
       [EReject p (TransactionAbortedError (w_transactionId w)
                     "lock acquisition deadline exceeded")])
  end.

(** One call into the lock, or one firing of a deadline timer. *)
Inductive Op :=
  | OpEnter (transactionId : string) (priority : Z) (mode : LockMode) (deadline : option Z)
  | OpRelease (transactionId : string)
  | OpDeadline (promise : nat).

Definition exec (s : ReaderWriterLock) (o : Op) : ReaderWriterLock * list Event :=
  match o with
  | OpEnter t p m d => enter s t p m d
  | OpRelease t => release s t
  | OpDeadline p => deadline_elapsed s p
  end.

(** ** The order of the wait-die rule *)

Lemma isOlder_irrefl p t : isOlder p t p t = false.
Proof. unfold isOlder. case_decide; [done|apply str_ltb_irrefl]. Qed.

Lemma isOlder_trans p1 t1 p2 t2 p3 t3 :
  isOlder p1 t1 p2 t2 = true → isOlder p2 t2 p3 t3 = true → isOlder p1 t1 p3 t3 = true.
Proof.
  unfold isOlder. repeat case_decide; rewrite ?bool_decide_eq_true; try lia.
  apply str_ltb_trans.
Qed.

Lemma isOlder_total p1 t1 p2 t2 :
  (p1, t1) ≠ (p2, t2) → isOlder p1 t1 p2 t2 = true ∨ isOlder p2 t2 p1 t1 = true.
Proof.
  intros Hne. unfold isOlder. repeat case_decide; rewrite ?bool_decide_eq_true; try lia.
  apply str_ltb_total. naive_solver lia.
Qed.

(** ** Conflicts *)

Lemma conflictingHolders_nil hs t m :
  conflictingHolders hs t m = [] ↔
  ∀ i h, hs !! i = Some h → i ≠ t → m = Read ∧ h_mode h = Read.
Proof.
  unfold conflictingHolders. split.
  - intros Hnil%fmap_nil_inv i h Hi Hne.
    destruct (decide (conflicts t m (i, h))) as [Hc|Hc].
    + assert (Hin : (i, h) ∈ filter (conflicts t m) (map_to_list hs))
        by (apply list_elem_of_filter; split; [done|by apply elem_of_map_to_list]).
      rewrite Hnil in Hin. by apply not_elem_of_nil in Hin.
    + unfold conflicts in Hc; simpl in Hc. destruct m, (h_mode h); naive_solver.
  - intros Hall. destruct (filter _ _) as [|[i h] l] eqn:E; [done|exfalso].
    assert (Hin : (i, h) ∈ filter (conflicts t m) (map_to_list hs)) by (rewrite E; left).
    apply list_elem_of_filter in Hin as [[Hne Hm] Hin%elem_of_map_to_list].
    simpl in *. destruct (Hall i h Hin Hne) as [-> Hr]. destruct Hm; congruence.
Qed.

Lemma elem_of_conflictingHolders hs t m h :
  h ∈ conflictingHolders hs t m ↔
  ∃ i, hs !! i = Some h ∧ i ≠ t ∧ (m = Write ∨ h_mode h = Write).
Proof.
  unfold conflictingHolders. rewrite list_elem_of_fmap. split.
  - intros ([i h'] & -> & [[? ?] ?%elem_of_map_to_list]%list_elem_of_filter). eauto.
  - intros (i & ? & ? & ?). exists (i, h). split; [done|].
    apply list_elem_of_filter. by rewrite elem_of_map_to_list.
Qed.

(** ** The invariant *)

(** Two distinct holders share the lock only as readers. *)
Definition exclusive (hs : gmap string Holder) : Prop :=
  ∀ i j hi hj, hs !! i = Some hi → hs !! j = Some hj → i ≠ j →
    h_mode hi = Read ∧ h_mode hj = Read.

Definition keyed (hs : gmap string Holder) : Prop :=
  map_Forall (λ k h, h_transactionId h = k) hs.

Definition blocked (hs : gmap string Holder) (w : Waiter) : Prop :=
  conflictingHolders hs (w_transactionId w) (w_mode w) ≠ [].

Definition holders_ok (hs : gmap string Holder) : Prop := exclusive hs ∧ keyed hs.

(** Promises settled by a list of events, in order. *)
Definition settled : list Event → list nat :=
  omap (λ e, match e with EResolve p | EReject p _ => Some p | _ => None end).

Lemma lock_settled_app e1 e2 : settled (e1 ++ e2) = settled e1 ++ settled e2.
Proof. apply omap_app. Qed.

Lemma settled_clear_timer w : settled (clear_timer w) = [].
Proof. unfold clear_timer. by destruct (w_timer w). Qed.

Record lock_inv (tr : list Event) (s : ReaderWriterLock) : Prop := {
  inv_holders : holders_ok (holders s);
  inv_blocked : Forall (blocked (holders s)) (waiters s);
  inv_promises : settled tr ++ (w_promise <$> waiters s) ≡ₚ seq 0 (next_promise s) }.

Lemma holders_ok_insert hs t p m :
  holders_ok hs → conflictingHolders hs t m = [] →
  holders_ok (<[t := mkHolder t p m]> hs).
Proof.
  intros [Hex Hk] Hc. rewrite conflictingHolders_nil in Hc. split.
  - intros i j hi hj Hi Hj Hne.
    apply lookup_insert_Some in Hi as [[<- <-]|[Hti Hi]];
      apply lookup_insert_Some in Hj as [[<- <-]|[Htj Hj]]; simpl; [done|..].
    + by apply (Hc j hj).
    + destruct (Hc i hi Hi); [done|]. done.
    + by eapply Hex.
  - by apply map_Forall_insert_2.
Qed.

Lemma holders_ok_delete hs t : holders_ok hs → holders_ok (delete t hs).
Proof.
  intros [Hex Hk]. split.
  - intros i j hi hj Hi Hj. apply lookup_delete_Some in Hi as [_ Hi].
    apply lookup_delete_Some in Hj as [_ Hj]. by eapply Hex.
  - by apply map_Forall_delete.
Qed.

(** A granted request only adds conflicts, for everybody else and for other
    requests of the same transaction. *)
Lemma blocked_mono hs t h w :
  blocked hs w →
  (∀ h0, hs !! t = Some h0 → h_mode h0 = Write → h_mode h = Write) →
  blocked (<[t := h]> hs) w.
Proof.
  unfold blocked. rewrite !conflictingHolders_nil. intros Hb Hm Hall. apply Hb.
  intros i hi Hi Hne. destruct (decide (i = t)) as [->|Hit].
  - destruct (Hall t h) as [Hmw Hh]; [by simplify_map_eq|done|]. split; [done|].
    destruct (h_mode hi) eqn:E; [done|]. by rewrite (Hm hi Hi E) in Hh.
  - apply (Hall i hi); [by simplify_map_eq|done].
Qed.

(** ** The pump *)

Definition promises (ws : list Waiter) : list nat := w_promise <$> ws.

Lemma splice_waiter_spec w ws :
  w ∈ ws → NoDup (promises ws) → ws ≡ₚ w :: splice_waiter w ws.
Proof.
  intros Hin Hnd. unfold splice_waiter.
  destruct (list_find _ ws) as [[i w']|] eqn:E.
  - apply list_find_Some in E as (Hi & Hp & _).
    assert (w' = w) as ->.
    { apply list_elem_of_lookup in Hin as [j Hj].
      assert (i = j) as ->; [|congruence].
      eapply NoDup_lookup; [exact Hnd| |]; unfold promises; rewrite list_lookup_fmap.
      - by rewrite Hi.
      - by rewrite Hj, Hp. }
    by apply delete_Permutation.
  - apply list_find_None in E. rewrite Forall_forall in E. by destruct (E w Hin).
Qed.

(** One pass grants a part [g] of the snapshot and settles exactly the
    promises of [g]; if it does not progress nothing changed and every waiter
    of the snapshot is blocked. *)
Lemma pump_pass_spec queued : ∀ hs ws hs' ws' ev pr,
  pump_pass queued hs ws = (hs', ws', ev, pr) →
  holders_ok hs → queued ⊆+ ws → NoDup (promises ws) →
  holders_ok hs' ∧
  (∃ g, ws ≡ₚ g ++ ws' ∧ settled ev = promises g ∧ (pr = true → g ≠ [])) ∧
  (pr = false → hs' = hs ∧ ws' = ws ∧ Forall (blocked hs) queued).
Proof.
  induction queued as [|w rest IH]; intros hs ws hs' ws' ev pr Hp Hok Hsub Hnd; simpl in Hp.
  { simplify_eq. split; [done|]. split; [|done]. by exists []. }
  case_decide as Hc.
  - destruct (pump_pass rest _ _) as [[[hs1 ws1] ev1] pr1] eqn:E. simplify_eq.
    assert (Hw : ws ≡ₚ w :: splice_waiter w ws).
    { apply splice_waiter_spec; [|done].
      eapply elem_of_submseteq; [left|exact Hsub]. }
    assert (Hnd' : NoDup (promises (splice_waiter w ws))).
    { unfold promises in *. rewrite Hw in Hnd. by apply NoDup_cons in Hnd as [_ ?]. }
    destruct (IH _ _ _ _ _ _ E) as (Hok' & (g & Hg & Hs & _) & _).
    + by apply holders_ok_insert.
    + rewrite Hw in Hsub. by apply (submseteq_app_inv_l _ _ [w]) in Hsub.
    + done.
    + split; [done|]. split; [|done]. exists (w :: g). split_and!.
      * by rewrite Hw, Hg at 1.
      * rewrite lock_settled_app, settled_clear_timer. simpl. by rewrite Hs.
      * done.
  - destruct (IH _ _ _ _ _ _ Hp) as (Hok' & Hg & Hpr); [done| |done|].
    { etrans; [|exact Hsub]. by apply submseteq_cons. }
    split; [done|]. split; [done|]. intros ->. destruct (Hpr eq_refl) as (-> & -> & Hb).
    split_and!; [done..|]. by constructor.
Qed.

(** The loop stops with every remaining waiter blocked: its fuel is enough. *)
Lemma pump_loop_quiescent fuel : ∀ hs ws hs' ws' ev,
  pump_loop fuel hs ws = (hs', ws', ev) → (length ws < fuel)%nat →
  holders_ok hs → NoDup (promises ws) →
  holders_ok hs' ∧ Forall (blocked hs') ws' ∧
  ∃ g, ws ≡ₚ g ++ ws' ∧ settled ev = promises g.
Proof.
  induction fuel as [|fuel IH]; intros hs ws hs' ws' ev Hp Hlen Hok Hnd; [lia|].
  simpl in Hp.
  destruct (pump_pass _ hs ws) as [[[hs1 ws1] ev1] pr] eqn:E.
  destruct (pump_pass_spec _ _ _ _ _ _ _ E) as (Hok1 & (g & Hg & Hs & Hpr) & Hstop);
    [done|by rewrite sort_by_perm|done|].
  destruct pr.
  - destruct (pump_loop fuel hs1 ws1) as [[hs2 ws2] ev2] eqn:E2. simplify_eq.
    unfold promises in Hnd. rewrite Hg, fmap_app in Hnd.
    apply NoDup_app in Hnd as (_ & _ & Hnd).
    destruct (IH _ _ _ _ _ E2) as (Hok2 & Hb & g2 & Hg2 & Hs2); [|done|done|].
    { rewrite Hg, length_app in Hlen. destruct g; [by destruct (Hpr eq_refl)|simpl in *; lia]. }
    split_and!; [done..|]. exists (g ++ g2). split.
    + by rewrite Hg, Hg2, app_assoc.
    + unfold promises in *. by rewrite lock_settled_app, Hs, Hs2, fmap_app.
  - simplify_eq. destruct (Hstop eq_refl) as (-> & -> & Hb).
    split_and!; [done| |by exists g].
    by rewrite <- (sort_by_perm waiter_older).
Qed.

Lemma pump_spec tr s s' ev :
  pump s = (s', ev) → holders_ok (holders s) →
  settled tr ++ promises (waiters s) ≡ₚ seq 0 (next_promise s) →
  lock_inv (tr ++ ev) s'.
Proof.
  unfold pump. destruct (pump_loop _ _ _) as [[hs ws] ev'] eqn:E.
  intros ? Hok Hp. simplify_eq.
  destruct (pump_loop_quiescent _ _ _ _ _ _ E) as (Hok' & Hb & g & Hg & Hs); [lia|done| |].
  { assert (Hnd : NoDup (seq 0 (next_promise s))) by apply NoDup_seq.
    rewrite <- Hp in Hnd. by apply NoDup_app in Hnd as (_ & _ & ?). }
  split; simpl; [done|done|].
  rewrite lock_settled_app, Hs, <- Hp. unfold promises. by rewrite Hg, fmap_app, !app_assoc.
Qed.

(** What the pump leaves alone: holds are only added, for queued
    transactions, and every waiter is kept or resolved. *)
Record pump_frames (hs : gmap string Holder) (ws : list Waiter)
    (hs' : gmap string Holder) (ws' : list Waiter) (ev : list Event) : Prop := {
  pf_keep : ∀ i, is_Some (hs !! i) → is_Some (hs' !! i);
  pf_new : ∀ i, is_Some (hs' !! i) → is_Some (hs !! i) ∨ ∃ w, w ∈ ws ∧ w_transactionId w = i;
  pf_sub : ws' ⊆ ws;
  pf_case : ∀ w, w ∈ ws →
    w ∈ ws' ∨ (EResolve (w_promise w) ∈ ev ∧ is_Some (hs' !! w_transactionId w)) }.

Lemma pump_frames_refl hs ws : pump_frames hs ws hs ws [].
Proof. split; eauto. Qed.

Lemma pump_frames_trans hs1 ws1 hs2 ws2 hs3 ws3 ev1 ev2 :
  pump_frames hs1 ws1 hs2 ws2 ev1 → pump_frames hs2 ws2 hs3 ws3 ev2 →
  pump_frames hs1 ws1 hs3 ws3 (ev1 ++ ev2).
Proof.
  intros [K1 N1 S1 C1] [K2 N2 S2 C2]. split; [eauto| |set_solver|].
  - intros i [?|(w & ? & ?)]%N2; [eauto|]. right. exists w. split; [by apply S1|done].
  - intros w [?|[? ?]]%C1.
    + destruct (C2 w) as [?|[? ?]]; [done|by left|]. right. by rewrite elem_of_app; eauto.
    + right. rewrite elem_of_app. eauto.
Qed.

Lemma pump_frames_grant hs ws w m ev :
  w ∈ ws → NoDup (promises ws) → EResolve (w_promise w) ∈ ev →
  pump_frames hs ws (<[w_transactionId w := m]> hs) (splice_waiter w ws) ev.
Proof.
  intros Hin Hnd Hev. pose proof (splice_waiter_spec w ws Hin Hnd) as Hp. split.
  - intros i Hi. rewrite lookup_insert. by case_decide.
  - intros i. rewrite lookup_insert. case_decide; eauto.
  - intros w' Hw'. rewrite Hp. by right.
  - intros w' Hw'. rewrite Hp in Hw'. apply elem_of_cons in Hw' as [->|?]; [right|by left].
    by rewrite lookup_insert_eq.
Qed.

Lemma pump_pass_frame queued : ∀ hs ws hs' ws' ev pr,
  pump_pass queued hs ws = (hs', ws', ev, pr) → queued ⊆+ ws → NoDup (promises ws) →
  pump_frames hs ws hs' ws' ev.
Proof.
  induction queued as [|w rest IH]; intros hs ws hs' ws' ev pr Hp Hsub Hnd; simpl in Hp.
  { simplify_eq. apply pump_frames_refl. }
  case_decide as Hc.
  - destruct (pump_pass rest _ _) as [[[hs1 ws1] ev1] pr1] eqn:E. simplify_eq.
    assert (Hin : w ∈ ws) by (eapply elem_of_submseteq; [left|exact Hsub]).
    pose proof (splice_waiter_spec w ws Hin Hnd) as Hw.
    change (EResolve (w_promise w) :: ev1) with ([EResolve (w_promise w)] ++ ev1).
    rewrite app_assoc. eapply pump_frames_trans; [apply pump_frames_grant|eapply IH; [exact E|..]].
    + done.
    + done.
    + rewrite elem_of_app, list_elem_of_singleton. by right.
    + rewrite Hw in Hsub. by apply (submseteq_app_inv_l _ _ [w]) in Hsub.
    + unfold promises in *. rewrite Hw in Hnd. by apply NoDup_cons in Hnd as [_ ?].
  - eapply IH; [exact Hp| |done]. etrans; [|exact Hsub]. by apply submseteq_cons.
Qed.

Lemma pump_loop_frame fuel : ∀ hs ws hs' ws' ev,
  pump_loop fuel hs ws = (hs', ws', ev) → holders_ok hs → NoDup (promises ws) →
  pump_frames hs ws hs' ws' ev.
Proof.
  induction fuel as [|fuel IH]; intros hs ws hs' ws' ev Hp Hok Hnd; simpl in Hp.
  { simplify_eq. apply pump_frames_refl. }
  destruct (pump_pass _ hs ws) as [[[hs1 ws1] ev1] pr] eqn:E.
  assert (Hsub : sort_by waiter_older ws ⊆+ ws) by by rewrite sort_by_perm.
  pose proof (pump_pass_frame _ _ _ _ _ _ _ E Hsub Hnd) as Hf.
  destruct (pump_pass_spec _ _ _ _ _ _ _ E Hok Hsub Hnd) as (Hok1 & (g & Hg & _) & _).
  destruct pr; [|by simplify_eq].
  destruct (pump_loop fuel hs1 ws1) as [[hs2 ws2] ev2] eqn:E2. simplify_eq.
  eapply pump_frames_trans; [exact Hf|]. eapply IH; [exact E2|done|].
  unfold promises in *. rewrite Hg, fmap_app in Hnd. by apply NoDup_app in Hnd as (_ & _ & ?).
Qed.

Lemma pump_frame s s' ev :
  pump s = (s', ev) → holders_ok (holders s) → NoDup (promises (waiters s)) →
  pump_frames (holders s) (waiters s) (holders s') (waiters s') ev.
Proof.
  unfold pump. destruct (pump_loop _ _ _) as [[hs ws] ev'] eqn:E. intros ? Hok Hnd.
  simplify_eq. by eapply pump_loop_frame.
Qed.

(** ** The queue scan of [release] *)

Definition release_events (t : string) (w : Waiter) : list Event :=
  clear_timer w ++
  [EReject (w_promise w) (TransactionAbortedError t "lock released while waiting")].

Lemma release_scan_eq t i : ∀ ws, (i ≤ length ws)%nat →
  release_scan t i ws =
    (filter (λ w, w_transactionId w ≠ t) (take i ws) ++ drop i ws,
     mbind (release_events t) (reverse (filter (λ w, w_transactionId w = t) (take i ws)))).
Proof.
  induction i as [|j IH]; intros ws Hi; simpl; [by rewrite drop_0|].
  destruct (lookup_lt_is_Some_2 ws j) as [w Hw]; [lia|].
  rewrite Hw, (take_S_r _ _ _ Hw), !filter_app, reverse_app, bind_app.
  assert (Hlen : (j ≤ length (take j ws))%nat) by (rewrite length_take; lia).
  case_decide as Ht.
  - assert (Hd : take j (delete j ws) = take j ws ∧ drop j (delete j ws) = drop (S j) ws).
    { rewrite delete_take_drop. split.
      - by rewrite take_app_le, take_take, Nat.min_id by lia.
      - apply drop_app_length'. rewrite length_take. lia. }
    destruct Hd as [Htake Hdrop].
    rewrite IH, Htake, Hdrop by (rewrite length_delete; [lia|eauto]).
    rewrite !filter_cons, !filter_nil, decide_False, decide_True by naive_solver.
    simpl. rewrite !app_nil_r. unfold release_events.
    by rewrite <- app_assoc.
  - rewrite IH by lia.
    rewrite !filter_cons, !filter_nil, decide_True, decide_False by naive_solver.
    simpl. by rewrite (drop_S _ _ _ Hw), <- app_assoc.
Qed.

Lemma settled_release_events t l :
  settled (mbind (release_events t) l) = promises l.
Proof.
  induction l as [|w l IH]; [done|].
  rewrite bind_cons, lock_settled_app, IH. unfold release_events.
  by rewrite lock_settled_app, settled_clear_timer.
Qed.

Lemma filter_split_perm {A} (P : A → Prop) `{!∀ x, Decision (P x)} (l : list A) :
  filter P l ++ filter (λ x, ¬ P x) l ≡ₚ l.
Proof.
  induction l as [|x l IH]; [done|]. rewrite !filter_cons.
  destruct (decide (P x)); [rewrite decide_False by tauto|rewrite decide_True by tauto];
    simpl; rewrite <- ?Permutation_middle; by rewrite IH.
Qed.

(** ** Every operation preserves the invariant *)

#[local] Arguments seq : simpl never.

Lemma seq_snoc n : seq 0 (S n) ≡ₚ n :: seq 0 n.
Proof. rewrite seq_S, Nat.add_0_l. by rewrite Permutation_app_comm. Qed.

Lemma grant_now_inv tr s hs :
  lock_inv tr s → holders_ok hs → Forall (blocked hs) (waiters s) →
  lock_inv (tr ++ (grant_now s hs).2) (grant_now s hs).1.
Proof.
  intros [_ _ Hp] Hok Hb. split; simpl; [done|done|].
  rewrite lock_settled_app, seq_snoc, <- Hp. simpl. rewrite <- app_assoc. simpl.
  by rewrite <- Permutation_middle.
Qed.

Lemma blockOrDie_inv tr s t p m d u :
  lock_inv tr s → conflictingHolders (holders s) t m ≠ [] →
  lock_inv (tr ++ (blockOrDie s t p m d u).2) (blockOrDie s t p m d u).1.
Proof.
  intros [Hok Hb Hp] Hc. unfold blockOrDie. destruct (forallb _ _); split; simpl; try done.
  - apply Forall_app. split; [done|]. by repeat constructor.
  - rewrite seq_snoc, <- Hp, fmap_app, lock_settled_app. destruct d; simpl;
      rewrite app_nil_r, app_assoc; by rewrite Permutation_app_comm.
  - rewrite lock_settled_app, seq_snoc, <- Hp. simpl. rewrite <- app_assoc. simpl.
    by rewrite <- Permutation_middle.
Qed.

Lemma enter_inv tr s t p m d :
  lock_inv tr s → lock_inv (tr ++ (enter s t p m d).2) (enter s t p m d).1.
Proof.
  intros Hinv. pose proof Hinv as [Hok Hb _]. unfold enter.
  assert (Hmono : ∀ p' m', (∀ h, holders s !! t = Some h → h_mode h = Write → m' = Write) →
    Forall (blocked (<[t := mkHolder t p' m']> (holders s))) (waiters s)).
  { intros p' m' Hm. eapply Forall_impl; [exact Hb|]. intros w Hw. by apply blocked_mono. }
  destruct (holders s !! t) as [held|] eqn:Ht.
  - case_decide as Hup.
    + destruct Hup as [-> Hr]. case_decide as Hc; [|by apply blockOrDie_inv].
      destruct Hok as [Hex Hk]. rewrite (Hk t held Ht).
      apply grant_now_inv; [done|by apply holders_ok_insert|by apply Hmono].
    + by apply grant_now_inv.
  - case_decide as Hc; [|by apply blockOrDie_inv].
    apply grant_now_inv; [done|by apply holders_ok_insert|]. by apply Hmono.
Qed.

Lemma release_inv tr s t :
  lock_inv tr s → lock_inv (tr ++ (release s t).2) (release s t).1.
Proof.
  intros [Hok Hb Hp]. unfold release.
  rewrite release_scan_eq, take_ge, drop_ge, app_nil_r by lia.
  destruct (pump _) as [s' ev2] eqn:E. simpl. rewrite app_assoc.
  eapply pump_spec; [exact E|by apply holders_ok_delete|]. simpl.
  rewrite lock_settled_app, settled_release_events, <- Hp, <- app_assoc.
  f_equiv. unfold promises. rewrite reverse_Permutation, <- fmap_app.
  by rewrite filter_split_perm.
Qed.

Lemma deadline_inv tr s p :
  lock_inv tr s → lock_inv (tr ++ (deadline_elapsed s p).2) (deadline_elapsed s p).1.
Proof.
  intros [Hok Hb Hp]. unfold deadline_elapsed.
  destruct (list_find _ _) as [[i w]|] eqn:E; simpl.
  - apply list_find_Some in E as (Hi & <- & _). split; simpl; [done| |].
    + by apply Forall_delete.
    + rewrite lock_settled_app, <- Hp, <- app_assoc. simpl. f_equiv.
      pose proof (delete_Permutation _ _ _ Hi) as Hd.
      apply (fmap_Permutation w_promise) in Hd. by rewrite Hd.
  - rewrite app_nil_r. by split.
Qed.

Lemma lock_exec_inv tr s o : lock_inv tr s → lock_inv (tr ++ (exec s o).2) (exec s o).1.
Proof.
  destruct o; simpl; [apply enter_inv|apply release_inv|apply deadline_inv].
Qed.

Lemma new_lock_inv : lock_inv [] new_lock.
Proof. split; [split; [done|apply map_Forall_empty]|constructor|done]. Qed.

Lemma run_lock_inv ops :
  lock_inv (run exec new_lock ops).2 (run exec new_lock ops).1.
Proof. apply (run_trace_invariant exec lock_inv lock_exec_inv ops [] _ new_lock_inv). Qed.

(** ** Properties *)

(** C1: mutual exclusion. After any interleaving of [enter], [release] and
    deadline firings, two transactions hold the lock together only as readers:
    a writer is alone. *)
Theorem lock_mutual_exclusion ops i j hi hj :
  holders (run exec new_lock ops).1 !! i = Some hi →
  holders (run exec new_lock ops).1 !! j = Some hj →
  i ≠ j → h_mode hi = Read ∧ h_mode hj = Read.
Proof. destruct (run_lock_inv ops) as [[Hex _] _ _]. apply Hex. Qed.

Lemma lock_mutual_exclusion_witness :
  let s := (run exec new_lock [OpEnter "a" 1 Read None; OpEnter "b" 2 Read None]).1 in
  holders s !! "a" = Some (mkHolder "a" 1 Read) ∧ h_mode (mkHolder "a" 1 Read) = Read.
Proof.
  split; [reflexivity|].
  eapply (lock_mutual_exclusion
    [OpEnter "a" 1 Read None; OpEnter "b" 2 Read None] "a" "b" _ (mkHolder "b" 2 Read));
    [reflexivity|reflexivity|discriminate].
Defined.

(** C2: no lost wake-up. At every reachable state each queued request
    conflicts with some current holder other than itself, so a request is
    never left waiting for nothing; in particular the queue of a lock without
    holders is empty. The loop of [pump] therefore reaches its fixpoint within
    its fuel. *)
Theorem lock_no_lost_wakeup ops :
  let s := (run exec new_lock ops).1 in
  (∀ w, w ∈ waiters s → ∃ h, h ∈ conflictingHolders (holders s) (w_transactionId w) (w_mode w)) ∧
  (holders s = ∅ → waiters s = []).
Proof.
  destruct (run_lock_inv ops) as [_ Hb _]. simpl. rewrite Forall_forall in Hb.
  assert (Hw : ∀ w, w ∈ waiters (run exec new_lock ops).1 →
    ∃ h, h ∈ conflictingHolders (holders (run exec new_lock ops).1) (w_transactionId w) (w_mode w)).
  { intros w Hw. specialize (Hb w Hw). unfold blocked in Hb.
    destruct (conflictingHolders _ _ _) as [|h l]; [done|]. exists h. left. }
  split; [done|]. intros Hh. destruct (waiters _) as [|w ws]; [done|].
  destruct (Hw w) as [h Hin]; [left|]. rewrite Hh in Hin.
  by apply elem_of_conflictingHolders in Hin as (i & Hi & _).
Qed.

(** Every promise settles exactly once. At every reachable state the
    promises handed out are split between those settled, each by exactly one
    [resolve] or [reject], and those of the queued waiters, which are not
    settled yet. *)
Theorem lock_promises_settle_once ops p :
  let s := (run exec new_lock ops).1 in
  let tr := (run exec new_lock ops).2 in
  (p < next_promise s)%nat →
  (count_occ Nat.eq_dec (settled tr) p +
   count_occ Nat.eq_dec (promises (waiters s)) p = 1)%nat.
Proof.
  pose proof (run_lock_inv ops) as [_ _ Hp]. intros s tr Hlt. fold s tr in Hp.
  rewrite <- count_occ_app. unfold promises.
  rewrite (Permutation_count_occ Nat.eq_dec) in Hp. rewrite Hp.
  apply NoDup_count_occ'; [apply NoDup_ListNoDup, NoDup_seq|].
  apply in_seq. lia.
Qed.

(** A write waits for another, which is then released. *)
Definition handover : list Op :=
  [OpEnter "b" 2 Write None; OpEnter "a" 1 Write None; OpRelease "b"].

Lemma lock_promises_settle_once_witness :
  let s := (run exec new_lock handover).1 in
  let tr := (run exec new_lock handover).2 in
  (1 < next_promise s)%nat ∧
  (count_occ Nat.eq_dec (settled tr) 1 +
   count_occ Nat.eq_dec (promises (waiters s)) 1 = 1)%nat.
Proof.
  assert (H : (1 < next_promise (run exec new_lock handover).1)%nat) by (vm_compute; lia).
  split; [exact H|]. exact (lock_promises_settle_once handover 1 H).
Defined.

Lemma blockOrDie_spec s t p m d u s' ev :
  blockOrDie s t p m d u = (s', ev) →
  let older h := isOlder p t (h_priority h) (h_transactionId h) = true in
  let conflicting := conflictingHolders (holders s) t m in
  holders s' = holders s ∧
  ((Forall older conflicting ∧ settled ev = [] ∧
      waiters s' = waiters s ++ [mkWaiter t p m (next_promise s) d]) ∨
   (¬ Forall older conflicting ∧ waiters s' = waiters s ∧
      ev = [EReject (next_promise s)
             (if u : bool then TransactionLockUpgradeError t
              else TransactionAbortedError t "wait-die: younger than a lock holder")])).
Proof.
  unfold blockOrDie. destruct (forallb _ _) eqn:E; intros ?; simplify_eq; simpl; split; try done.
  - left. rewrite forallb_forall in E. rewrite Forall_forall.
    split_and!; [|by destruct d|done]. intros h Hh. by apply E, list_elem_of_In.
  - right. split_and!; [|done|done]. intros Hall. rewrite Forall_forall in Hall.
    apply not_true_iff_false in E. apply E, forallb_forall.
    intros h Hh. by apply Hall, list_elem_of_In.
Qed.

(** Wait-die, on every branch of [enter]. A request is granted at once
    iff its transaction already holds the lock in a sufficient mode or no
    other holder conflicts, and then it holds the lock in the requested mode
    (or a stronger one) and nobody else's hold changed; otherwise it waits iff
    it is older, by timestamp and then by id, than every conflicting holder;
    otherwise it dies, leaving holders and queue as they were, with the
    upgrade error iff it was a read-to-write upgrade. *)
Theorem enter_wait_die s t p m d :
  let '(s', ev) := enter s t p m d in
  let conflicting := conflictingHolders (holders s) t m in
  let sufficient := ∃ h, holders s !! t = Some h ∧ (m = Read ∨ h_mode h = Write) in
  let older h := isOlder p t (h_priority h) (h_transactionId h) = true in
  ((sufficient ∨ conflicting = []) ∧
     ev = [EResolve (next_promise s)] ∧ waiters s' = waiters s ∧
     (∃ h, holders s' !! t = Some h ∧ (m = Write → h_mode h = Write)) ∧
     ∀ i, i ≠ t → holders s' !! i = holders s !! i) ∨
  (¬ sufficient ∧ conflicting ≠ [] ∧ holders s' = holders s ∧
     ((Forall older conflicting ∧ settled ev = [] ∧
         waiters s' = waiters s ++ [mkWaiter t p m (next_promise s) d]) ∨
      (¬ Forall older conflicting ∧ waiters s' = waiters s ∧
         ev = [EReject (next_promise s)
                (if decide (is_Some (holders s !! t)) then TransactionLockUpgradeError t
                 else TransactionAbortedError t "wait-die: younger than a lock holder")]))).
Proof.
  destruct (enter s t p m d) as [s' ev] eqn:E. unfold enter in E.
  destruct (holders s !! t) as [held|] eqn:Ht.
  - case_decide as Hup.
    + destruct Hup as [-> Hr]. case_decide as Hc.
      * left. unfold grant_now in E. simplify_eq/=. split_and!; [by right|done|done| |].
        { eexists. by rewrite lookup_insert_eq. }
        { intros i Hi. by rewrite lookup_insert_ne. }
      * right. apply blockOrDie_spec in E as [Hh Hcase]. split_and!; [|done|done|].
        { intros (h & ? & [?|?]); congruence. }
        { by rewrite decide_True by eauto. }
    + left. unfold grant_now in E. simplify_eq/=. rewrite Ht. split_and!; try done.
      { left. exists held. destruct m, (h_mode held); tauto. }
      { exists held. destruct m, (h_mode held); tauto. }
  - case_decide as Hc.
    + left. unfold grant_now in E. simplify_eq/=. split_and!; [by right|done|done| |].
      { eexists. by rewrite lookup_insert_eq. }
      { intros i Hi. by rewrite lookup_insert_ne. }
    + right. apply blockOrDie_spec in E as [Hh Hcase]. split_and!; [|done|done|].
      { intros (h & ? & ?); congruence. }
      { rewrite decide_False; [done|]. intros [? ?]; congruence. }
Qed.

(** A released transaction is no holder, whatever the pump grants. *)
Lemma release_not_held tr s t : lock_inv tr s → holders (release s t).1 !! t = None.
Proof.
  intros [Hok _ Hp]. unfold release. rewrite release_scan_eq, take_ge, drop_ge, app_nil_r by lia.
  destruct (pump _) as [s' ev] eqn:E. simpl. apply pump_frame in E as [_ Hnew _ _]; simpl in *.
  - apply eq_None_not_Some. intros [Hs|(w & Hw & Ht)]%Hnew.
    + rewrite lookup_delete_eq in Hs. by destruct Hs.
    + by apply list_elem_of_filter in Hw as [? _].
  - by apply holders_ok_delete.
  - eapply sublist_NoDup; [|apply fmap_sublist, sublist_filter].
    assert (Hnd : NoDup (seq 0 (next_promise s))) by apply NoDup_seq.
    rewrite <- Hp in Hnd. by apply NoDup_app in Hnd as (_ & _ & ?).
Qed.

(** [release] forgets the transaction and nothing else. Afterwards it
    neither holds nor waits for the lock and every promise it had queued is
    rejected; every other transaction keeps a hold if it had one, and every
    other queued request is still queued, or was granted: its promise is
    resolved and its transaction holds the lock. *)
Theorem release_forgets ops t :
  let s := (run exec new_lock ops).1 in
  let '(s', ev) := release s t in
  holders s' !! t = None ∧ Forall (λ w, w_transactionId w ≠ t) (waiters s') ∧
  (∀ i h, i ≠ t → holders s !! i = Some h → is_Some (holders s' !! i)) ∧
  (∀ w, w ∈ waiters s →
    if decide (w_transactionId w = t)
    then EReject (w_promise w) (TransactionAbortedError t "lock released while waiting") ∈ ev
    else w ∈ waiters s' ∨ (EResolve (w_promise w) ∈ ev ∧ is_Some (holders s' !! w_transactionId w))).
Proof.
  intros s. pose proof (run_lock_inv ops) as [Hok _ Hp]. unfold release.
  rewrite release_scan_eq, take_ge, drop_ge, app_nil_r by lia.
  fold s in Hok, Hp |- *.
  set (ws := filter _ (waiters s)). set (ev1 := mbind _ _).
  assert (Hnd : NoDup (promises ws)).
  { eapply sublist_NoDup; [|apply fmap_sublist, sublist_filter].
    assert (Hnd : NoDup (seq 0 (next_promise s))) by apply NoDup_seq.
    rewrite <- Hp in Hnd. by apply NoDup_app in Hnd as (_ & _ & ?). }
  destruct (pump _) as [s' ev2] eqn:E. simpl.
  apply pump_frame in E as [Hdom Hnew Hsub Hcase]; simpl in *;
    [|by apply holders_ok_delete|done].
  split_and!.
  - apply eq_None_not_Some. intros Hs. apply Hnew in Hs as [Hs|(w & Hw & Ht)].
    + rewrite lookup_delete_eq in Hs. by destruct Hs.
    + apply list_elem_of_filter in Hw as [? _]. done.
  - apply Forall_forall. intros w Hw. apply Hsub, list_elem_of_filter in Hw as [? _]. done.
  - intros i h Hi Hh. apply Hdom. rewrite lookup_delete_ne by done. eauto.
  - intros w Hw. case_decide as Ht.
    + apply elem_of_app. left. unfold ev1. apply list_elem_of_bind.
      exists w. split; [|by rewrite elem_of_reverse, list_elem_of_filter].
      unfold release_events. rewrite elem_of_app, list_elem_of_singleton. by right.
    + destruct (Hcase w) as [?|[? ?]]; [by apply list_elem_of_filter|by left|right].
      split; [|done]. apply elem_of_app. by right.
Qed.

(** ** What the lock does not ensure *)

(** The transactions a queued transaction currently waits for. *)
Definition waits_for (s : ReaderWriterLock) (t : string) : list string :=
  mbind (λ w, if decide (w_transactionId w = t)
              then h_transactionId <$> conflictingHolders (holders s) t (w_mode w) else [])
        (waiters s).

(** A wait cycle across two locks. On the first lock [c] reads, [b], older
    than [c], waits to write, and then [a], the oldest, is granted a read past
    the waiting writer, so the younger [b] now waits for the older [a]. On the
    second lock [b] holds the write and [a] waits for it. *)
Lemma wait_cycle :
  let l1 := (run exec new_lock
    [OpEnter "c" 3 Read None; OpEnter "b" 2 Write None; OpEnter "a" 1 Read None]).1 in
  let l2 := (run exec new_lock [OpEnter "b" 2 Write None; OpEnter "a" 1 Write None]).1 in
  "a" ∈ waits_for l1 "b" ∧ "b" ∈ waits_for l2 "a".
Proof. by vm_compute; split; repeat constructor. Qed.

(** A granted write downgraded to a read. Transaction [a] queues a write and
    a read behind [b]; when [b] releases, the pump grants the write and then
    the read, whose [holders.set] overwrites the mode, and the younger reader
    [c] shares the lock with the transaction that was granted the write. *)
Lemma granted_write_downgraded :
  let '(s, ev) := run exec new_lock
    [OpEnter "b" 2 Write None; OpEnter "a" 1 Write None; OpEnter "a" 1 Read None;
     OpRelease "b"; OpEnter "c" 3 Read None] in
  EResolve 1 ∈ ev ∧ (h_mode <$> holders s !! "a") = Some Read ∧ is_Some (holders s !! "c").
Proof. vm_compute. split_and!; [repeat constructor|done|eauto]. Qed.
