(* ===== verification/Ids.v ===== *)
(** * Identities: grain keys, grain ids, silo addresses, hashes

    Models [packages/core/src/grain-key.ts], [guid.ts], [grain-id.ts],
    [client-grain-id.ts], [silo-address.ts], [grain-address.ts], [hash.ts] and
    [duration.ts]. A JavaScript string is a [string] of code units below 256;
    a thrown [Error] is the [None] of an option. *)
From Stdlib Require Import String Ascii DecimalString DecimalZ.
From stdpp Require Import prelude gmap strings list.
From S2P Require Import Prelude.
Open Scope Z_scope.

#[local] Arguments String.append !s1 s2 : simpl nomatch.

(** ** The string functions the code uses *)

Definition charCode (c : ascii) : Z := Z.of_N (N_of_ascii c).

(** [s.slice(0, i)] and [s.slice(i + 1)] for [i = s.indexOf(c)], if any. *)
Fixpoint split_first (c : ascii) (s : string) : option (string * string) :=
  match s with
  | EmptyString => None
  | String d s' =>
      if decide (d = c) then Some (EmptyString, s')
      else match split_first c s' with
           | Some (a, b) => Some (String d a, b)
           | None => None
           end
  end.

Definition is_whitespace (c : ascii) : bool :=
  bool_decide (charCode c ∈ [9; 10; 11; 12; 13; 32; 160]).

Fixpoint forall_chars (f : ascii → bool) (s : string) : bool :=
  match s with EmptyString => true | String c s' => f c && forall_chars f s' end.

Fixpoint trim_start (s : string) : string :=
  match s with
  | String c s' => if is_whitespace c then trim_start s' else s
  | EmptyString => s
  end.

Fixpoint string_rev_onto (s acc : string) : string :=
  match s with EmptyString => acc | String c s' => string_rev_onto s' (String c acc) end.

Definition trim (s : string) : string :=
  string_rev_onto (trim_start (string_rev_onto (trim_start s) EmptyString)) EmptyString.

Definition to_lower_char (c : ascii) : ascii :=
  let n := N_of_ascii c in
  if bool_decide (65 ≤ n ∧ n ≤ 90)%N then ascii_of_N (n + 32) else c.

Fixpoint toLowerCase (s : string) : string :=
  match s with EmptyString => EmptyString | String c s' => String (to_lower_char c) (toLowerCase s') end.

(** ** [BigInt(s)] and [bigint.toString()] *)

Definition digit_value (c : ascii) : option Z :=
  let n := charCode c in
  if bool_decide (48 ≤ n ∧ n ≤ 57) then Some (n - 48)
  else if bool_decide (97 ≤ n ∧ n ≤ 122) then Some (n - 87)
  else if bool_decide (65 ≤ n ∧ n ≤ 90) then Some (n - 55)
  else None.

Fixpoint digits (base acc : Z) (s : string) : option Z :=
  match s with
  | EmptyString => Some acc
  | String c s' =>
      match digit_value c with
      | Some d => if bool_decide (d < base) then digits base (acc * base + d) s' else None
      | None => None
      end
  end.

Definition nonempty_digits (base : Z) (s : string) : option Z :=
  match s with EmptyString => None | _ => digits base 0 s end.

(** Decimal literals, with an optional sign. *)
Definition starts_with (c : ascii) (s : string) : bool :=
  match s with String d _ => bool_decide (d = c) | EmptyString => false end.

Definition decimal_literal (s : string) : option Z :=
  match s with
  | String c s' =>
      if bool_decide (c = "+"%char) then
        if starts_with "-" s' then None else Z.of_int <$> NilZero.int_of_string s'
      else Z.of_int <$> NilZero.int_of_string s
  | EmptyString => None
  end.

(** The base and digits of a binary, octal or hexadecimal literal. *)
Definition radix_prefix (s : string) : option (Z * string) :=
  match s with
  | String z (String x s') =>
      if negb (bool_decide (z = "0"%char)) then None
      else if bool_decide (x = "x"%char ∨ x = "X"%char) then Some (16, s')
      else if bool_decide (x = "o"%char ∨ x = "O"%char) then Some (8, s')
      else if bool_decide (x = "b"%char ∨ x = "B"%char) then Some (2, s')
      else None
  | _ => None
  end.

(** [BigInt] of a string: surrounding blanks are ignored, the empty string is
    zero, and binary, octal and hexadecimal prefixes are understood. *)
Definition BigInt (s0 : string) : option Z :=
  let s := trim s0 in
  if bool_decide (s = EmptyString) then Some 0
  else match radix_prefix s with
       | Some (base, rest) => nonempty_digits base rest
       | None => decimal_literal s
       end.

Definition bigint_toString (z : Z) : string := NilZero.string_of_int (Z.to_int z).

(** ** Guids *)

Definition is_hex (c : ascii) : bool :=
  match digit_value c with Some d => bool_decide (d < 16) | None => false end.

(** The regular expression [UUID_RE]: groups of 8, 4, 4, 4 and 12 hex digits. *)
Fixpoint match_uuid (shape : list bool) (s : string) : bool :=
  match shape, s with
  | [], EmptyString => true
  | hex :: shape', String c s' =>
      (if hex : bool then is_hex c else bool_decide (c = "-"%char)) && match_uuid shape' s'
  | _, _ => false
  end.

Definition uuid_shape : list bool :=
  let hexes n := replicate n true in
  hexes 8%nat ++ [false] ++ hexes 4%nat ++ [false] ++ hexes 4%nat ++ [false] ++
  hexes 4%nat ++ [false] ++ hexes 12%nat.

Record Guid := mkGuid { guid_value : string }.
#[export] Instance Guid_eq_dec : EqDecision Guid.
Proof. solve_decision. Defined.

Definition Guid_parse (s : string) : option Guid :=
  if match_uuid uuid_shape s then Some (mkGuid (toLowerCase s)) else None.

(** ** Grain keys *)

Inductive Primary := PGuid (g : Guid) | PInt (z : Z).
#[export] Instance Primary_eq_dec : EqDecision Primary.
Proof. solve_decision. Defined.

Inductive GrainKey :=
  | KString (s : string)
  | KInt (z : Z)
  | KGuid (g : Guid)
  | KCompound (primary : Primary) (extension : string).
#[export] Instance GrainKey_eq_dec : EqDecision GrainKey.
Proof. solve_decision. Defined.

Inductive GrainKeyKind := kString | kInteger | kGuid | kGuidCompound | kIntegerCompound.
#[export] Instance GrainKeyKind_eq_dec : EqDecision GrainKeyKind.
Proof. solve_decision. Defined.

(** [new CompoundKey(primary, extension)]. *)
Definition CompoundKey (primary : Primary) (extension : string) : option GrainKey :=
  if bool_decide (trim extension = EmptyString) then None
  else Some (KCompound primary extension).

Definition primary_toString (p : Primary) : string :=
  match p with PGuid g => guid_value g | PInt z => bigint_toString z end.

Definition keyKindOf (key : GrainKey) : GrainKeyKind :=
  match key with
  | KString _ => kString
  | KInt _ => kInteger
  | KCompound (PGuid _) _ => kGuidCompound
  | KCompound (PInt _) _ => kIntegerCompound
  | KGuid _ => kGuid
  end.

Definition keyToString (key : GrainKey) : string :=
  match key with
  | KString s => s
  | KInt z => bigint_toString z
  | KGuid g => guid_value g
  | KCompound p ext => (primary_toString p +:+ "+" +:+ ext)%string
  end.

Definition parseKey (kind : GrainKeyKind) (s : string) : option GrainKey :=
  match kind with
  | kString => Some (KString s)
  | kInteger => KInt <$> BigInt s
  | kGuid => KGuid <$> Guid_parse s
  | kGuidCompound =>
      '(primary, extension) ← split_first "+" s;
      g ← Guid_parse primary;
      CompoundKey (PGuid g) extension
  | kIntegerCompound =>
      '(primary, extension) ← split_first "+" s;
      z ← BigInt primary;
      CompoundKey (PInt z) extension
  end.

(** ** Grain ids *)

Record GrainId := mkGrainId { grain_type : string; grain_key : GrainKey }.
#[export] Instance GrainId_eq_dec : EqDecision GrainId.
Proof. solve_decision. Defined.

Definition keyKind (id : GrainId) : GrainKeyKind := keyKindOf (grain_key id).

Definition GrainId_toString (id : GrainId) : string :=
  (grain_type id +:+ "/" +:+ keyToString (grain_key id))%string.

Definition GrainId_parse (s : string) (kind : GrainKeyKind) : option GrainId :=
  '(type, key) ← split_first "/" s;
  k ← parseKey kind key;
  Some (mkGrainId type k).

Definition GrainId_equals (a b : GrainId) : bool :=
  bool_decide (keyKind a = keyKind b) &&
  bool_decide (GrainId_toString a = GrainId_toString b).

(** ** The 32-bit hash *)

Definition w32 (x : Z) : Z := x mod 2 ^ 32.
Definition imul (a b : Z) : Z := w32 (a * b).

Fixpoint fnv1a (h : Z) (s : string) : Z :=
  match s with
  | EmptyString => h
  | String c s' => fnv1a (imul (Z.lxor h (charCode c)) 0x01000193) s'
  end.

(** [fmix32]; every intermediate value is the unsigned reading of its bits. *)
Definition fmix32 (h0 : Z) : Z :=
  let h := Z.lxor h0 (Z.shiftr h0 16) in
  let h := imul h 0x85ebca6b in
  let h := Z.lxor h (Z.shiftr h 13) in
  let h := imul h 0xc2b2ae35 in
  Z.lxor h (Z.shiftr h 16).

Definition stableHash32 (s : string) : Z := w32 (fmix32 (fnv1a 0x811c9dc5 s)).

Definition getUniformHashCode (id : GrainId) : Z := stableHash32 (GrainId_toString id).

(** ** Silo addresses *)

Record SiloAddress := mkSilo { podName : string; podUid : string; endpoint : string }.
#[export] Instance SiloAddress_eq_dec : EqDecision SiloAddress.
Proof. solve_decision. Defined.

Definition ringKey (s : SiloAddress) : string := podName s.

Definition SiloAddress_toString (s : SiloAddress) : string :=
  (podName s +:+ "#" +:+ podUid s +:+ "@" +:+ endpoint s)%string.

Definition SiloAddress_compare (a b : SiloAddress) : Z :=
  if decide (podName a ≠ podName b) then (if str_ltb (podName a) (podName b) then -1 else 1)
  else if decide (podUid a ≠ podUid b) then (if str_ltb (podUid a) (podUid b) then -1 else 1)
  else if decide (endpoint a ≠ endpoint b) then
    (if str_ltb (endpoint a) (endpoint b) then -1 else 1)
  else 0.

Definition SiloAddress_equals (a b : SiloAddress) : bool :=
  bool_decide (podName a = podName b) && bool_decide (podUid a = podUid b) &&
  bool_decide (endpoint a = endpoint b).

(** ** Grain addresses *)

Record GrainAddress := mkAddress {
  addr_grainId : GrainId; addr_silo : SiloAddress; addr_activationId : string }.
#[export] Instance GrainAddress_eq_dec : EqDecision GrainAddress.
Proof. solve_decision. Defined.

Definition grainAddressEquals (a b : GrainAddress) : bool :=
  GrainId_equals (addr_grainId a) (addr_grainId b) &&
  SiloAddress_equals (addr_silo a) (addr_silo b) &&
  bool_decide (addr_activationId a = addr_activationId b).

(** ** Client and observer ids *)

Definition CLIENT_GRAIN_TYPE : string := "$client".

Definition isClientGrainType (type : string) : bool :=
  bool_decide (type = CLIENT_GRAIN_TYPE) || String.prefix CLIENT_GRAIN_TYPE type.

Definition isClient (id : GrainId) : bool := isClientGrainType (grain_type id).

Definition clientId (key : string) : GrainId := mkGrainId CLIENT_GRAIN_TYPE (KString key).

Definition clientKeyOf (client : GrainId) : option string :=
  match grain_key client with KString s => Some s | _ => None end.

Definition requireClient (client : GrainId) : option () :=
  if isClient client then Some () else None.

Definition observerId (client : GrainId) (scope : string) : option GrainId :=
  requireClient client;;
  key ← clientKeyOf client;
  Some (mkGrainId (grain_type client) (KString (key +:+ "+" +:+ scope)%string)).

Definition isObserverGrainId (id : GrainId) : bool :=
  isClient id &&
  match grain_key id with
  | KString s => bool_decide (is_Some (split_first "+" s))
  | _ => false
  end.

Definition clientIdOf (observer : GrainId) : option GrainId :=
  requireClient observer;;
  key ← clientKeyOf observer;
  match split_first "+" key with
  | None => Some observer
  | Some (client, _) => Some (mkGrainId (grain_type observer) (KString client))
  end.

Definition scopeOf (observer : GrainId) : option string :=
  key ← clientKeyOf observer;
  '(_, scope) ← split_first "+" key;
  Some scope.

(** ** Durations *)

Record Duration := mkDuration {
  d_ms : option Z; d_seconds : option Z; d_minutes : option Z;
  d_hours : option Z; d_days : option Z }.

Definition durationToMs (d : Duration) : Z :=
  default 0 (d_ms d) + default 0 (d_seconds d) * 1000 + default 0 (d_minutes d) * 60000 +
  default 0 (d_hours d) * 3600000 + default 0 (d_days d) * 86400000.

(** ** Lemmas on strings *)

Lemma split_first_app c a b :
  forall_chars (λ d, negb (bool_decide (d = c))) a = true →
  split_first c (a +:+ String c b) = Some (a, b).
Proof.
  induction a as [|d a IH]; simpl; [by rewrite decide_True|].
  intros [Hd%negb_true_iff%bool_decide_eq_false Ha]%andb_true_iff.
  by rewrite decide_False, IH.
Qed.

Lemma split_first_Some c s a b :
  split_first c s = Some (a, b) →
  s = (a +:+ String c b)%string ∧ forall_chars (λ d, negb (bool_decide (d = c))) a = true.
Proof.
  revert a; induction s as [|d s IH]; simpl; intros a; [done|].
  case_decide as Hd; [intros [= <- <-]; by subst|].
  destruct (split_first c s) as [[a' b']|]; [|done]. intros [= <- <-].
  destruct (IH a' eq_refl) as [-> Hf]. split; [done|]. simpl.
  by rewrite Hf, bool_decide_eq_false_2.
Qed.

Lemma string_rev_onto_app s a b :
  string_rev_onto (string_rev_onto s a) b = string_rev_onto a (s +:+ b).
Proof. revert a b; induction s as [|c s IH]; intros a b; simpl; [done|]. by rewrite IH. Qed.

Lemma string_app_nil_r s : (s +:+ "" = s)%string.
Proof. induction s as [|c s IH]; simpl; [done|]. by rewrite IH. Qed.

Lemma forall_chars_rev f s a :
  forall_chars f s = true → forall_chars f a = true →
  forall_chars f (string_rev_onto s a) = true.
Proof.
  revert a; induction s as [|c s IH]; simpl; intros a; [done|].
  intros [Hc Hs]%andb_true_iff Ha. apply IH; [done|]. simpl. by rewrite Hc.
Qed.

Lemma forall_chars_app f a b :
  forall_chars f (a +:+ b) = forall_chars f a && forall_chars f b.
Proof. induction a as [|c a IH]; simpl; [done|]. by rewrite IH, andb_assoc. Qed.

Lemma forall_chars_impl (f g : ascii → bool) s :
  (∀ c, f c = true → g c = true) → forall_chars f s = true → forall_chars g s = true.
Proof.
  intros Hfg. induction s as [|c s IH]; simpl; [done|].
  intros [Hc Hs]%andb_true_iff. by rewrite (Hfg c Hc), IH.
Qed.

Lemma trim_no_blank s : forall_chars (λ c, negb (is_whitespace c)) s = true → trim s = s.
Proof.
  assert (Hstart : ∀ t, forall_chars (λ c, negb (is_whitespace c)) t = true → trim_start t = t).
  { intros [|c t]; simpl; [done|]. intros [->%negb_true_iff _]%andb_true_iff. done. }
  intros Hs. unfold trim. rewrite (Hstart s Hs), Hstart by by apply forall_chars_rev.
  by rewrite string_rev_onto_app, string_app_nil_r.
Qed.

(** ** Integers print and parse *)

Definition is_decimal_char (c : ascii) : bool :=
  bool_decide (c = "-"%char) || bool_decide (48 ≤ charCode c ∧ charCode c ≤ 57).

Lemma string_of_uint_chars d :
  forall_chars (λ c, bool_decide (48 ≤ charCode c ∧ charCode c ≤ 57))
    (NilEmpty.string_of_uint d) = true.
Proof. induction d; simpl; [done|..]; by rewrite IHd. Qed.

Lemma nilzero_uint_chars d :
  forall_chars (λ c, bool_decide (48 ≤ charCode c ∧ charCode c ≤ 57))
    (NilZero.string_of_uint d) = true ∧ NilZero.string_of_uint d ≠ ""%string.
Proof. destruct d; simpl; (split; [|done]); try done; by rewrite string_of_uint_chars. Qed.

Lemma bigint_toString_cases z :
  ∃ u, (u ≠ ""%string ∧ forall_chars (λ c, bool_decide (48 ≤ charCode c ∧ charCode c ≤ 57)) u = true) ∧
    (bigint_toString z = u ∨ bigint_toString z = String "-" u).
Proof.
  unfold bigint_toString. destruct (Z.to_int z) as [d|d]; simpl;
    destruct (nilzero_uint_chars d) as [? ?]; exists (NilZero.string_of_uint d); auto.
Qed.

Lemma bigint_toString_chars z : forall_chars is_decimal_char (bigint_toString z) = true.
Proof.
  destruct (bigint_toString_cases z) as (u & [_ Hu] & [-> | ->]); simpl;
    (eapply forall_chars_impl; [|exact Hu]); intros c Hc; unfold is_decimal_char;
    by rewrite Hc, orb_true_r.
Qed.

Lemma to_int_not_nil z : Z.to_int z ≠ Decimal.Pos Decimal.Nil ∧ Z.to_int z ≠ Decimal.Neg Decimal.Nil.
Proof.
  split; intros H; (assert (z = 0) as -> by (by rewrite <- (of_to z), H)); discriminate H.
Qed.

Lemma int_of_bigint_toString z : Z.of_int <$> NilZero.int_of_string (bigint_toString z) = Some z.
Proof.
  destruct (to_int_not_nil z). unfold bigint_toString.
  rewrite NilZero.isi by done. simpl. by rewrite of_to.
Qed.

Lemma BigInt_toString z : BigInt (bigint_toString z) = Some z.
Proof.
  unfold BigInt. rewrite trim_no_blank.
  2: { eapply forall_chars_impl; [|apply bigint_toString_chars]. intros c. unfold is_decimal_char.
       intros [->%bool_decide_eq_true|Hc%bool_decide_eq_true]%orb_true_iff; [done|].
       unfold is_whitespace. rewrite bool_decide_eq_false_2; [done|].
       rewrite !elem_of_cons, elem_of_nil. lia. }
  destruct (bigint_toString_cases z) as (u & [Hne Hu] & Hz).
  assert (Hdigit : ∀ c, bool_decide (48 ≤ charCode c ∧ charCode c ≤ 57) = true →
    c ≠ "x"%char ∧ c ≠ "X"%char ∧ c ≠ "o"%char ∧ c ≠ "O"%char ∧ c ≠ "b"%char ∧ c ≠ "B"%char ∧ c ≠ "+"%char).
  { intros c Hc. split_and!; intros ->; vm_compute in Hc; discriminate Hc. }
  rewrite bool_decide_eq_false_2 by (intros H; destruct Hz as [Hz|Hz]; rewrite Hz in H; done).
  assert (radix_prefix (bigint_toString z) = None) as ->.
  { destruct u as [|c u]; [done|]. simpl in Hu. apply andb_true_iff in Hu as [Hc Hu].
    destruct Hz as [-> | ->]; [|done]. destruct u as [|x u]; [done|]. simpl in *.
    apply andb_true_iff in Hu as [Hx _]. destruct (Hdigit x Hx) as (?&?&?&?&?&?&?).
    destruct (negb _); [done|].
    by rewrite !bool_decide_eq_false_2 by (intros [?|?]; done). }
  rewrite <- int_of_bigint_toString. unfold decimal_literal.
  destruct Hz as [Hz|Hz]; rewrite !Hz; [|done].
  destruct u as [|c u]; [done|]. simpl in Hu. apply andb_true_iff in Hu as [Hc _].
  destruct (Hdigit c Hc) as (_&_&_&_&_&_&?). by rewrite bool_decide_eq_false_2.
Qed.
Lemma bigint_toString_inj i j : bigint_toString i = bigint_toString j → i = j.
Proof.
  intros Heq. pose proof (BigInt_toString i) as Hi. rewrite Heq, BigInt_toString in Hi. congruence.
Qed.

(** ** Guids *)

Lemma match_uuid_chars shape s :
  match_uuid shape s = true → forall_chars (λ c, is_hex c || bool_decide (c = "-"%char)) s = true.
Proof.
  revert shape; induction s as [|c s IH]; intros [|hex shape]; simpl; try done.
  intros [Hc Hs]%andb_true_iff. rewrite (IH _ Hs), andb_true_r.
  destruct hex; rewrite Hc; [done|by rewrite orb_true_r].
Qed.

(** A fact about every character, by evaluation on the 256 of them. *)
Lemma all_ascii (P : ascii → bool) :
  forallb (λ n, P (ascii_of_nat n)) (seq 0 256) = true → ∀ c, P c = true.
Proof.
  rewrite forallb_forall. intros H c. rewrite <- (ascii_nat_embedding c). apply H.
  apply in_seq. pose proof (nat_ascii_bounded c). lia.
Qed.

Lemma to_lower_char_uuid c :
  to_lower_char (to_lower_char c) = to_lower_char c ∧
  is_hex (to_lower_char c) = is_hex c ∧
  bool_decide (to_lower_char c = "-"%char) = bool_decide (c = "-"%char).
Proof.
  assert (H := all_ascii (λ c, bool_decide (to_lower_char (to_lower_char c) = to_lower_char c) &&
    (eqb (is_hex (to_lower_char c)) (is_hex c) &&
     eqb (bool_decide (to_lower_char c = "-"%char)) (bool_decide (c = "-"%char)))) eq_refl c).
  simpl in H. apply andb_true_iff in H as [H1 [H2 H3]%andb_true_iff].
  apply bool_decide_eq_true in H1. by apply eqb_prop in H2, H3.
Qed.

Lemma match_uuid_lower shape s : match_uuid shape (toLowerCase s) = match_uuid shape s.
Proof.
  revert shape; induction s as [|c s IH]; intros [|hex shape]; simpl; try done.
  destruct (to_lower_char_uuid c) as (_ & -> & ->). by rewrite IH.
Qed.

Lemma toLowerCase_idemp s : toLowerCase (toLowerCase s) = toLowerCase s.
Proof.
  induction s as [|c s IH]; simpl; [done|].
  destruct (to_lower_char_uuid c) as (-> & _). by rewrite IH.
Qed.

(** Guids the code can construct: [parse] and [randomUUID] give lower case. *)
Definition wf_guid (g : Guid) : Prop := Guid_parse (guid_value g) = Some g.

Lemma Guid_parse_wf s g : Guid_parse s = Some g → wf_guid g.
Proof.
  unfold wf_guid, Guid_parse. destruct (match_uuid uuid_shape s) eqn:E; [|done].
  intros [= <-]. cbn [guid_value]. by rewrite match_uuid_lower, E, toLowerCase_idemp.
Qed.

Lemma wf_guid_no_plus g :
  wf_guid g → forall_chars (λ d, negb (bool_decide (d = "+"%char))) (guid_value g) = true.
Proof.
  unfold wf_guid, Guid_parse. destruct (match_uuid _ _) eqn:E; [|done]. intros _.
  eapply forall_chars_impl; [|by eapply match_uuid_chars]. simpl.
  intros c Hc. apply negb_true_iff, bool_decide_eq_false. intros ->. by vm_compute in Hc.
Qed.

Lemma bigint_no_plus z :
  forall_chars (λ d, negb (bool_decide (d = "+"%char))) (bigint_toString z) = true.
Proof.
  eapply forall_chars_impl; [|apply bigint_toString_chars].
  intros c Hc. apply negb_true_iff, bool_decide_eq_false. intros ->. by vm_compute in Hc.
Qed.

(** ** Round trips of keys and grain ids *)

Definition wf_primary (p : Primary) : Prop :=
  match p with PGuid g => wf_guid g | PInt _ => True end.

(** Keys the code can construct. *)
Definition wf_key (k : GrainKey) : Prop :=
  match k with
  | KString _ | KInt _ => True
  | KGuid g => wf_guid g
  | KCompound p ext => wf_primary p ∧ trim ext ≠ ""%string
  end.

(** Ids whose type holds no slash. *)
Definition wf_id (id : GrainId) : Prop :=
  wf_key (grain_key id) ∧
  forall_chars (λ d, negb (bool_decide (d = "/"%char))) (grain_type id) = true.

Lemma parseKey_keyToString k : wf_key k → parseKey (keyKindOf k) (keyToString k) = Some k.
Proof.
  destruct k as [s|z|g|[g|z] ext]; simpl; intros Hk.
  - done.
  - by rewrite BigInt_toString.
  - by rewrite Hk.
  - destruct Hk as [Hg He]. rewrite split_first_app by by apply wf_guid_no_plus. simpl.
    rewrite Hg. simpl. unfold CompoundKey. by rewrite bool_decide_eq_false_2.
  - destruct Hk as [_ He]. rewrite split_first_app by apply bigint_no_plus. simpl.
    rewrite BigInt_toString. simpl. unfold CompoundKey. by rewrite bool_decide_eq_false_2.
Qed.

Lemma parseKey_wf kind s k : parseKey kind s = Some k → wf_key k ∧ keyKindOf k = kind.
Proof.
  destruct kind; simpl; intros H.
  - by simplify_eq.
  - destruct (BigInt s); simplify_eq/=; done.
  - destruct (Guid_parse s) eqn:E; simplify_eq/=. split; [by eapply Guid_parse_wf|done].
  - destruct (split_first _ s) as [[p ext]|]; simplify_eq/=.
    destruct (Guid_parse p) eqn:E; simplify_eq/=. unfold CompoundKey in H.
    case_bool_decide; simplify_eq. split; [|done]. split; [by eapply Guid_parse_wf|done].
  - destruct (split_first _ s) as [[p ext]|]; simplify_eq/=.
    destruct (BigInt p) eqn:E; simplify_eq/=. unfold CompoundKey in H.
    case_bool_decide; simplify_eq. done.
Qed.

Lemma GrainId_roundtrip id :
  wf_id id → GrainId_parse (GrainId_toString id) (keyKind id) = Some id.
Proof.
  destruct id as [type key]. intros [Hk Ht]. simpl in *. unfold GrainId_parse, GrainId_toString.
  simpl. rewrite split_first_app by done. simpl. unfold keyKind. simpl.
  by rewrite parseKey_keyToString.
Qed.

Lemma GrainId_equals_iff a b : wf_id a → wf_id b → GrainId_equals a b = true ↔ a = b.
Proof.
  intros Ha Hb. unfold GrainId_equals. rewrite andb_true_iff, !bool_decide_eq_true. split.
  - intros [Hk Hs]. apply GrainId_roundtrip in Ha, Hb. rewrite Hk, Hs in Ha. congruence.
  - by intros ->.
Qed.

Lemma SiloAddress_equals_iff a b : SiloAddress_equals a b = true ↔ a = b.
Proof.
  unfold SiloAddress_equals. rewrite !andb_true_iff, !bool_decide_eq_true.
  destruct a, b; simpl. split; [by intros [[-> ->] ->]|by intros [= -> -> ->]].
Qed.

Lemma SiloAddress_compare_lt_iff a b :
  SiloAddress_compare a b < 0 ↔
    str_ltb (podName a) (podName b) = true ∨
    (podName a = podName b ∧ (str_ltb (podUid a) (podUid b) = true ∨
     (podUid a = podUid b ∧ str_ltb (endpoint a) (endpoint b) = true))).
Proof.
  unfold SiloAddress_compare. destruct a as [a1 a2 a3], b as [b1 b2 b3]; simpl.
  assert (Hsign : ∀ x : bool, (if x then -1 else 1) < 0 ↔ x = true) by (intros []; lia).
  destruct (decide (a1 = b1)) as [->|H1];
    [rewrite decide_False by tauto|rewrite decide_True, Hsign by done; tauto].
  destruct (decide (a2 = b2)) as [->|H2];
    [rewrite decide_False by tauto|rewrite decide_True, Hsign, str_ltb_irrefl by done;
     intuition congruence].
  rewrite !str_ltb_irrefl. destruct (decide (a3 = b3)) as [->|H3];
    [rewrite decide_False by tauto|rewrite decide_True, Hsign by done; intuition congruence].
  rewrite str_ltb_irrefl. intuition (congruence || lia).
Qed.

Lemma SiloAddress_compare_opp a b : SiloAddress_compare a b = - SiloAddress_compare b a.
Proof.
  unfold SiloAddress_compare.
  repeat case_decide; try congruence; try done;
    try (rewrite str_ltb_negb by done; by destruct (str_ltb _ _)).
Qed.

Lemma SiloAddress_compare_zero a b : SiloAddress_compare a b = 0 ↔ a = b.
Proof.
  unfold SiloAddress_compare. destruct a, b; simpl.
  repeat case_decide; repeat case_match; naive_solver.
Qed.

Lemma SiloAddress_compare_trans a b c :
  SiloAddress_compare a b < 0 → SiloAddress_compare b c < 0 → SiloAddress_compare a c < 0.
Proof.
  rewrite !SiloAddress_compare_lt_iff.
  destruct a as [a1 a2 a3], b as [b1 b2 b3], c as [c1 c2 c3]; simpl.
  intros [?|(-> & [?|(-> & ?)])] [?|(-> & [?|(-> & ?)])]; eauto 6 using str_ltb_trans.
Qed.

(** ** Properties *)

(** C5: grain identities survive the wire. For every id whose type has no
    slash and whose key the code can construct, parsing the printed form with
    the id's key kind gives the id back; and whatever [parse] accepts is such
    an id of the requested kind. *)
Theorem grain_id_roundtrip :
  (∀ id, wf_id id → GrainId_parse (GrainId_toString id) (keyKind id) = Some id) ∧
  (∀ s kind id, GrainId_parse s kind = Some id → wf_id id ∧ keyKind id = kind).
Proof.
  split; [apply GrainId_roundtrip|]. intros s kind id. unfold GrainId_parse.
  destruct (split_first _ s) as [[type key]|] eqn:Es; simpl; [|done].
  destruct (parseKey kind key) as [k|] eqn:Ek; simpl; [|done]. intros [= <-].
  apply parseKey_wf in Ek as [Hk Hkind]. apply split_first_Some in Es as [_ Ht]. done.
Qed.

(** [GrainId.equals] decides identity. Comparing key kinds and printed
    forms identifies exactly the equal ids, and equal ids hash alike. *)
Theorem grain_id_equals_decides a b :
  wf_id a → wf_id b →
  (GrainId_equals a b = true ↔ a = b) ∧
  (GrainId_equals a b = true → getUniformHashCode a = getUniformHashCode b).
Proof.
  intros Ha Hb. split; [by apply GrainId_equals_iff|].
  intros H. apply GrainId_equals_iff in H; [by subst|done..].
Qed.

Definition id_a : GrainId := mkGrainId "Counter" (KCompound (PInt (-7)) "a+b").
Lemma grain_id_equals_decides_witness :
  wf_id id_a ∧ (GrainId_equals id_a id_a = true ↔ id_a = id_a) ∧
  (GrainId_equals id_a id_a = true → getUniformHashCode id_a = getUniformHashCode id_a).
Proof.
  assert (H : wf_id id_a) by (by vm_compute).
  split; [exact H|]. exact (grain_id_equals_decides id_a id_a H H).
Defined.

(** [SiloAddress.compare] is a total order compatible with [equals]: it
    is antisymmetric in sign, transitive, and zero exactly on equal addresses. *)
Theorem silo_compare_total_order a b c :
  SiloAddress_compare a b = - SiloAddress_compare b a ∧
  (SiloAddress_compare a b = 0 ↔ SiloAddress_equals a b = true) ∧
  (SiloAddress_compare a b < 0 → SiloAddress_compare b c < 0 → SiloAddress_compare a c < 0).
Proof.
  rewrite SiloAddress_equals_iff.
  split_and!; [apply SiloAddress_compare_opp|apply SiloAddress_compare_zero|].
  apply SiloAddress_compare_trans.
Qed.

(** An observer id leads back to its client. For a client id with a
    string key without a plus sign, the observer id is a client and observer
    id, [clientIdOf] recovers the client and [scopeOf] the scope, whatever the
    scope contains. *)
Theorem observer_id_roundtrip key scope :
  forall_chars (λ d, negb (bool_decide (d = "+"%char))) key = true →
  ∃ o, observerId (clientId key) scope = Some o ∧
    isClient o = true ∧ isObserverGrainId o = true ∧
    isObserverGrainId (clientId key) = false ∧
    clientIdOf o = Some (clientId key) ∧ scopeOf o = Some scope.
Proof.
  intros Hkey. eexists. split; [reflexivity|].
  assert (Hs := split_first_app "+" key scope Hkey).
  assert (Hno : split_first "+" key = None).
  { clear scope Hs. induction key as [|c key IH]; simpl in *; [done|].
    apply andb_true_iff in Hkey as [Hc%negb_true_iff%bool_decide_eq_false Hk].
    by rewrite decide_False, IH. }
  unfold isObserverGrainId, clientIdOf, scopeOf, clientKeyOf, clientId. simpl.
  change (key +:+ "+" +:+ scope)%string with (key +:+ String "+" scope)%string.
  rewrite Hs, Hno. by split_and!.
Qed.

Lemma observer_id_roundtrip_witness :
  ∃ o, observerId (clientId "c1") "s+t" = Some o ∧
    isClient o = true ∧ isObserverGrainId o = true ∧
    isObserverGrainId (clientId "c1") = false ∧
    clientIdOf o = Some (clientId "c1") ∧ scopeOf o = Some "s+t".
Proof. exact (observer_id_roundtrip "c1" "s+t" eq_refl). Defined.

Lemma stableHash32_bound s : 0 ≤ stableHash32 s < 2 ^ 32.
Proof. unfold stableHash32, w32. apply Z.mod_pos_bound. lia. Qed.

(** A type with a slash makes distinct ids print alike. *)
Lemma slash_in_type_collides :
  GrainId_equals (mkGrainId "a/b" (KString "c")) (mkGrainId "a" (KString "b/c")) = true.
Proof. reflexivity. Qed.

Example stableHash32_sample : stableHash32 "silo-0#1" = 2019737202.
Proof. vm_compute. reflexivity. Qed.
