(* ===== verification/Scheduler.v ===== *)
(** * The per-activation turn scheduler

    Models [packages/runtime/src/turn-scheduler.ts]: the class [TurnScheduler]
    admits, queues, starts and completes turns. A turn's promise is its number,
    handed out in arrival order. The scheduler runs on one JavaScript thread:
    every operation below is one synchronous call or one callback, and any
    interleaving of callers is a sequence of operations. *)
From Stdlib Require Import String.
From stdpp Require Import prelude gmap strings list sorting.
From S2P Require Import Prelude.

Section scheduler.
(** Arguments and results of grain methods and rejection reasons are opaque. *)
Context {Arg Value Reason : Type}.

(** ** Data *)

Record InvokeMethodOptions := mkOptions {
  readOnly : bool;
  alwaysInterleave : bool }.

(** A unit of work; [signal] names an abort signal, [method] and [args] are
    absent for system turns. *)
Record Turn := mkTurn {
  options : InvokeMethodOptions;
  reentrancyId : option string;
  method : option string;
  args : option (list Arg);
  signal : option nat }.

Definition MayInterleavePredicate : Type := string → list Arg → bool.

Inductive Rejection :=
  | GrainCallAbortedError
  | LimitExceeded (current limit : nat)
  | StuckRejection (r : Reason)
  | RunError (r : Reason).

Record TurnSchedulerOptions := mkSchedulerOptions {
  reentrant : bool;
  barrierFirstTurn : bool;
  softLimit : option nat;
  hardLimit : option nat;
  maxRequestProcessingTimeMs : option nat;
  onStuck : option (Turn → Reason) }.

Record QueuedTurn := mkQueued { q_turn : Turn; q_promise : nat }.

(** A running turn. [r_promise] is its identity, [r_first] the closure variable
    [isFirstTurn]. Its mutable [overdue] flag is kept in the scheduler. *)
Record RunningTurn := mkRunning { r_turn : Turn; r_promise : nat; r_first : bool }.

(** The scheduler. [watchdogs] are the armed stuck-turn timers, [overdue] the
    running turns whose flag is set, [finished] those whose [run()] settled
    and whose [finally] callback is still to come, [aborted] the fired signals. *)
Record TurnScheduler := mkScheduler {
  queue : list QueuedTurn;
  queuedAlwaysInterleave : Z;
  queuedReadOnly : Z;
  running : list RunningTurn;
  blockingTurn : option RunningTurn;
  reentrantSections : gmap string Z;
  mayInterleavePredicate : option MayInterleavePredicate;
  firstTurnSeen : bool;
  firstTurnSettled : bool;
  stuck : option Reason;
  overdue : gset nat;
  watchdogs : gset nat;
  finished : gset nat;
  aborted : gset nat;
  next_promise : nat }.

Inductive Event :=
  | ERun (promise : nat) (t : Turn)
  | EResolve (promise : nat) (v : Value)
  | EReject (promise : nat) (e : Rejection)
  | EWarnSoftLimit (queueLength : nat)
  | EWarnStuckTurn (promise : nat).

Context (opts : TurnSchedulerOptions).

Definition new_scheduler (p : option MayInterleavePredicate) : TurnScheduler :=
  mkScheduler [] 0 0 [] None ∅ p false false None ∅ ∅ ∅ ∅ 0.

(** ** Admission *)

Definition matchesMayInterleave (p : MayInterleavePredicate) (t : Turn) : bool :=
  match method t with
  | Some m => p m (default [] (args t))
  | None => false
  end.

Definition mayAdmit (s : TurnScheduler) (t : Turn) : bool :=
  if bool_decide (running s = []) then true
  else if barrierFirstTurn opts && negb (firstTurnSettled s) then false
  else if reentrant opts then true
  else if alwaysInterleave (options t) then true
  else match blockingTurn s with
  | None => true
  | Some b =>
      (readOnly (options t) && readOnly (options (r_turn b))) ||
      match reentrancyId t with
      | Some id => bool_decide (is_Some (reentrantSections s !! id))
      | None => false
      end ||
      match mayInterleavePredicate s with
      | Some p => matchesMayInterleave p t || matchesMayInterleave p (r_turn b)
      | None => false
      end
  end.

(** The cheap test [pump] stops on. *)
Definition noQueuedTurnAdmissible (s : TurnScheduler) : bool :=
  if bool_decide (running s = []) then false
  else if barrierFirstTurn opts && negb (firstTurnSettled s) then true
  else match blockingTurn s with
  | None => false
  | Some b =>
      if reentrant opts then false
      else if bool_decide (0 < queuedAlwaysInterleave s)%Z then false
      else if readOnly (options (r_turn b)) && bool_decide (0 < queuedReadOnly s)%Z then false
      else bool_decide (reentrantSections s = ∅) &&
           bool_decide (mayInterleavePredicate s = None)
  end.

(** ** Queue *)

Definition count1 (b : bool) : Z := if b then 1 else 0.

Definition with_queue (s : TurnScheduler) q nAI nRO : TurnScheduler :=
  mkScheduler q nAI nRO (running s) (blockingTurn s) (reentrantSections s)
    (mayInterleavePredicate s) (firstTurnSeen s) (firstTurnSettled s) (stuck s)
    (overdue s) (watchdogs s) (finished s) (aborted s) (next_promise s).

Definition enqueue (s : TurnScheduler) (item : QueuedTurn) : TurnScheduler :=
  with_queue s (queue s ++ [item])
    (queuedAlwaysInterleave s + count1 (alwaysInterleave (options (q_turn item))))%Z
    (queuedReadOnly s + count1 (readOnly (options (q_turn item))))%Z.

Definition dequeueAt (s : TurnScheduler) (i : nat) (item : QueuedTurn) : TurnScheduler :=
  with_queue s (delete i (queue s))
    (queuedAlwaysInterleave s - count1 (alwaysInterleave (options (q_turn item))))%Z
    (queuedReadOnly s - count1 (readOnly (options (q_turn item))))%Z.

(** ** Starting a turn *)

Definition is_aborted (s : TurnScheduler) (t : Turn) : bool :=
  match signal t with
  | Some sig => bool_decide (sig ∈ aborted s)
  | None => false
  end.

Definition start (s : TurnScheduler) (item : QueuedTurn) : TurnScheduler * list Event :=
  let t := q_turn item in
  let p := q_promise item in
  if is_aborted s t then (s, [EReject p GrainCallAbortedError])
  else
    let r := mkRunning t p (negb (firstTurnSeen s)) in
    let blocking :=
      match blockingTurn s with
      | None => if alwaysInterleave (options t) then None else Some r
      | Some b => Some b
      end in
    (mkScheduler (queue s) (queuedAlwaysInterleave s) (queuedReadOnly s)
       (running s ++ [r]) blocking (reentrantSections s) (mayInterleavePredicate s)
       true (firstTurnSettled s) (stuck s) (overdue s)
       (match maxRequestProcessingTimeMs opts with
        | Some _ => {[p]} ∪ watchdogs s
        | None => watchdogs s
        end)
       (finished s) (aborted s) (next_promise s),
     [ERun p t]).

(** [pump]: the scan from index [i]; each iteration admits the turn at [i],
    which shortens the queue, or moves on, so [length (queue s) - i]
    iterations remain. *)
Fixpoint pump_from (n i : nat) (s : TurnScheduler) : TurnScheduler * list Event :=
  match n with
  | O => (s, [])
  | S n' =>
      if noQueuedTurnAdmissible s then (s, [])
      else match queue s !! i with
      | None => (s, [])
      | Some item =>
          if mayAdmit s (q_turn item) then
            let '(s1, ev1) := start (dequeueAt s i item) item in
            let '(s2, ev2) := pump_from n' i s1 in
            (s2, ev1 ++ ev2)
          else pump_from n' (S i) s
      end
  end.

Definition pump (s : TurnScheduler) : TurnScheduler * list Event :=
  pump_from (length (queue s)) 0 s.

(** ** Stuck turns *)

Definition deactivateIfStuck (s : TurnScheduler) : TurnScheduler * list Event :=
  match onStuck opts, stuck s, blockingTurn s with
  | Some f, None, Some b =>
      if bool_decide (r_promise b ∈ overdue s) && negb (bool_decide (queue s = [])) then
        let rejection := f (r_turn b) in
        (mkScheduler [] 0 0 (running s) (blockingTurn s) (reentrantSections s)
           (mayInterleavePredicate s) (firstTurnSeen s) (firstTurnSettled s)
           (Some rejection) (overdue s) (watchdogs s) (finished s) (aborted s)
           (next_promise s),
         (λ item, EReject (q_promise item) (StuckRejection rejection)) <$> queue s)
      else (s, [])
  | _, _, _ => (s, [])
  end.

(** The state after the timer of [p] fired, its turn marked overdue or not. *)
Definition watchdog_state (s : TurnScheduler) (p : nat) (isOverdue : bool) : TurnScheduler :=
  mkScheduler (queue s) (queuedAlwaysInterleave s) (queuedReadOnly s) (running s)
    (blockingTurn s) (reentrantSections s) (mayInterleavePredicate s)
    (firstTurnSeen s) (firstTurnSettled s) (stuck s)
    (if isOverdue then {[p]} ∪ overdue s else overdue s)
    (watchdogs s ∖ {[p]}) (finished s) (aborted s) (next_promise s).

(** The callback of the watchdog timer armed for promise [p]; a timer that is
    not armed (cleared or already fired) does nothing. *)
Definition watchdog_fires (s : TurnScheduler) (p : nat) : TurnScheduler * list Event :=
  if decide (p ∈ watchdogs s) then
    match blockingTurn s with
    | Some b =>
        if decide (r_promise b = p) then
          let '(s2, ev) :=
            if bool_decide (queue s = []) then (watchdog_state s p true, [])
            else deactivateIfStuck (watchdog_state s p true) in
          (s2, EWarnStuckTurn p :: ev)
        else (watchdog_state s p false, [EWarnStuckTurn p])
    | None => (watchdog_state s p false, [EWarnStuckTurn p])
    end
  else (s, []).

(** ** Operations *)

Definition fresh_promise (s : TurnScheduler) : TurnScheduler :=
  mkScheduler (queue s) (queuedAlwaysInterleave s) (queuedReadOnly s) (running s)
    (blockingTurn s) (reentrantSections s) (mayInterleavePredicate s)
    (firstTurnSeen s) (firstTurnSettled s) (stuck s) (overdue s) (watchdogs s)
    (finished s) (aborted s) (S (next_promise s)).

Definition schedule (s0 : TurnScheduler) (t : Turn) : TurnScheduler * list Event :=
  let p := next_promise s0 in
  let s := fresh_promise s0 in
  match stuck s with
  | Some r => (s, [EReject p (StuckRejection r)])
  | None =>
      let len := length (queue s) in
      if match hardLimit opts with Some l => bool_decide (l ≤ len) | None => false end
      then (s, [EReject p (LimitExceeded len (default 0 (hardLimit opts)))])
      else
        let warn :=
          match softLimit opts with
          | Some l => if bool_decide (l ≤ len) then [EWarnSoftLimit len] else []
          | None => []
          end in
        let item := mkQueued t p in
        if mayAdmit s t then
          let '(s1, ev) := start s item in (s1, warn ++ ev)
        else
          let '(s1, ev) := deactivateIfStuck (enqueue s item) in (s1, warn ++ ev)
  end.

(** [run()] of the running turn [p] settles: the caller's promise settles. *)
Definition run_settles (s : TurnScheduler) (p : nat) (result : Value + Reason)
    : TurnScheduler * list Event :=
  if decide (p ∈ (r_promise <$> running s) ∧ p ∉ finished s) then
    (mkScheduler (queue s) (queuedAlwaysInterleave s) (queuedReadOnly s) (running s)
       (blockingTurn s) (reentrantSections s) (mayInterleavePredicate s)
       (firstTurnSeen s) (firstTurnSettled s) (stuck s) (overdue s) (watchdogs s)
       ({[p]} ∪ finished s) (aborted s) (next_promise s),
     [match result with
      | inl v => EResolve p v
      | inr e => EReject p (RunError e)
      end])
  else (s, []).

(** The [finally] callback of [start], for the running turn [r]. *)
Definition on_finally (s : TurnScheduler) (p : nat) : TurnScheduler * list Event :=
  match list_find (λ r, r_promise r = p) (running s) with
  | Some (i, r) =>
      if decide (p ∈ finished s) then
        pump (mkScheduler (queue s) (queuedAlwaysInterleave s) (queuedReadOnly s)
          (delete i (running s))
          (match blockingTurn s with
           | Some b => if decide (r_promise b = p) then None else Some b
           | None => None
           end)
          (reentrantSections s) (mayInterleavePredicate s) (firstTurnSeen s)
          (firstTurnSettled s || r_first r) (stuck s) (overdue s)
          (watchdogs s ∖ {[p]}) (finished s) (aborted s) (next_promise s))
      else (s, [])
  | None => (s, [])
  end.

Definition with_sections (s : TurnScheduler) m : TurnScheduler :=
  mkScheduler (queue s) (queuedAlwaysInterleave s) (queuedReadOnly s) (running s)
    (blockingTurn s) m (mayInterleavePredicate s) (firstTurnSeen s) (firstTurnSettled s)
    (stuck s) (overdue s) (watchdogs s) (finished s) (aborted s) (next_promise s).

Definition enterReentrantSection (s : TurnScheduler) (id : string)
    : TurnScheduler * list Event :=
  pump (with_sections s
          (<[id := (default 0 (reentrantSections s !! id) + 1)%Z]> (reentrantSections s))).

Definition exitReentrantSection (s : TurnScheduler) (id : string)
    : TurnScheduler * list Event :=
  let next := (default 0 (reentrantSections s !! id) - 1)%Z in
  (with_sections s
     (if decide (next ≤ 0)%Z then delete id (reentrantSections s)
      else <[id := next]> (reentrantSections s)), []).

Definition setMayInterleave (s : TurnScheduler) (p : option MayInterleavePredicate)
    : TurnScheduler * list Event :=
  pump (mkScheduler (queue s) (queuedAlwaysInterleave s) (queuedReadOnly s) (running s)
    (blockingTurn s) (reentrantSections s) p (firstTurnSeen s) (firstTurnSettled s)
    (stuck s) (overdue s) (watchdogs s) (finished s) (aborted s) (next_promise s)).

(** An [AbortSignal] fires. *)
Definition signal_fires (s : TurnScheduler) (sig : nat) : TurnScheduler * list Event :=
  (mkScheduler (queue s) (queuedAlwaysInterleave s) (queuedReadOnly s) (running s)
    (blockingTurn s) (reentrantSections s) (mayInterleavePredicate s) (firstTurnSeen s)
    (firstTurnSettled s) (stuck s) (overdue s) (watchdogs s) (finished s)
    ({[sig]} ∪ aborted s) (next_promise s), []).

(** Getters. *)
Definition busy (s : TurnScheduler) : bool :=
  bool_decide (0 < length (running s)) || bool_decide (0 < length (queue s)).
Definition load (s : TurnScheduler) : nat := length (running s) + length (queue s).

Inductive Op :=
  | OpSchedule (t : Turn)
  | OpRunSettles (promise : nat) (result : Value + Reason)
  | OpFinally (promise : nat)
  | OpWatchdog (promise : nat)
  | OpEnterSection (id : string)
  | OpExitSection (id : string)
  | OpSetMayInterleave (p : option MayInterleavePredicate)
  | OpSignal (sig : nat).

Definition exec (s : TurnScheduler) (o : Op) : TurnScheduler * list Event :=
  match o with
  | OpSchedule t => schedule s t
  | OpRunSettles p r => run_settles s p r
  | OpFinally p => on_finally s p
  | OpWatchdog p => watchdog_fires s p
  | OpEnterSection id => enterReentrantSection s id
  | OpExitSection id => exitReentrantSection s id
  | OpSetMayInterleave p => setMayInterleave s p
  | OpSignal sig => signal_fires s sig
  end.

(** ** The counters of queued interleavers *)

Definition count_queue (f : InvokeMethodOptions → bool) (q : list QueuedTurn) : Z :=
  foldr (λ item n, count1 (f (options (q_turn item))) + n)%Z 0%Z q.

Definition counters_ok (s : TurnScheduler) : Prop :=
  queuedAlwaysInterleave s = count_queue alwaysInterleave (queue s) ∧
  queuedReadOnly s = count_queue readOnly (queue s).

Lemma count_queue_app f q1 q2 :
  count_queue f (q1 ++ q2) = (count_queue f q1 + count_queue f q2)%Z.
Proof. induction q1 as [|x q1 IH]; simpl; [done|]. rewrite IH. lia. Qed.

Lemma count1_nonneg b : (0 ≤ count1 b)%Z.
Proof. by destruct b. Qed.

Lemma count_queue_nonneg f q : (0 ≤ count_queue f q)%Z.
Proof.
  induction q as [|x q IH]; simpl; [done|]. pose proof (count1_nonneg (f (options (q_turn x)))). lia.
Qed.

Lemma count_queue_delete f q i item :
  q !! i = Some item →
  count_queue f (delete i q) = (count_queue f q - count1 (f (options (q_turn item))))%Z.
Proof.
  intros Hi. rewrite <- (take_drop_middle q i item Hi) at 2.
  rewrite delete_take_drop, !count_queue_app. simpl. lia.
Qed.

Lemma count_queue_zero f q item :
  item ∈ q → count_queue f q = 0%Z → f (options (q_turn item)) = false.
Proof.
  induction q as [|x q IH]; [by intros ?%not_elem_of_nil|].
  simpl. intros Hin Hz.
  pose proof (count_queue_nonneg f q). pose proof (count1_nonneg (f (options (q_turn x)))).
  apply elem_of_cons in Hin as [->|Hin]; [|apply IH; [done|lia]].
  destruct (f (options (q_turn x))); simpl in *; [lia|done].
Qed.

(** Nothing queued is admissible. *)
Definition quiescent (s : TurnScheduler) : Prop :=
  Forall (λ item, mayAdmit s (q_turn item) = false) (queue s).

(** The shortcut of [pump] is sound. *)
Lemma noQueuedTurnAdmissible_sound s :
  counters_ok s → noQueuedTurnAdmissible s = true → quiescent s.
Proof.
  intros [Hai Hro] Hno. apply Forall_forall. intros item Hin.
  unfold noQueuedTurnAdmissible in Hno. unfold mayAdmit.
  repeat (case_bool_decide; [done|]). case_match; [done|].
  destruct (blockingTurn s) as [b|]; [|done].
  destruct (reentrant opts); [done|].
  case_bool_decide as HAI; [done|].
  pose proof (count_queue_nonneg alwaysInterleave (queue s)).
  rewrite (count_queue_zero alwaysInterleave (queue s)) by (done || lia).
  destruct (readOnly (options (r_turn b))); simpl in Hno.
  - case_bool_decide as HRO; [done|].
    pose proof (count_queue_nonneg readOnly (queue s)).
    rewrite (count_queue_zero readOnly (queue s)) by (done || lia). simpl.
    apply andb_true_iff in Hno as [->%bool_decide_eq_true Hp%bool_decide_eq_true].
    rewrite Hp, orb_false_r. destruct (reentrancyId _); [|done].
    by rewrite lookup_empty.
  - apply andb_true_iff in Hno as [Hs%bool_decide_eq_true Hp%bool_decide_eq_true].
    rewrite Hs, Hp, andb_false_r, orb_false_r. destruct (reentrancyId _); [|done].
    by rewrite lookup_empty.
Qed.

(** ** Admission never widens by starting a turn *)

Lemma mayAdmit_with_queue s q a r t : mayAdmit (with_queue s q a r) t = mayAdmit s t.
Proof. done. Qed.

Lemma start_queue s item s' ev :
  start s item = (s', ev) →
  queue s' = queue s ∧ queuedAlwaysInterleave s' = queuedAlwaysInterleave s ∧
  queuedReadOnly s' = queuedReadOnly s ∧ stuck s' = stuck s ∧
  next_promise s' = next_promise s ∧ finished s' = finished s ∧
  reentrantSections s' = reentrantSections s ∧
  mayInterleavePredicate s' = mayInterleavePredicate s.
Proof. unfold start. destruct (is_aborted _ _); intros; by simplify_eq. Qed.

Lemma start_no_widen s item t s' ev :
  start s item = (s', ev) → mayAdmit s (q_turn item) = true →
  mayAdmit s t = false → mayAdmit s' t = false.
Proof.
  unfold start. destruct (is_aborted _ _); intros ? Had Ht; simplify_eq; [done|].
  unfold mayAdmit in *. simpl.
  destruct (bool_decide (running s = [])) eqn:Hr; [done|].
  rewrite bool_decide_eq_false_2 by (by destruct (running s)).
  destruct (barrierFirstTurn opts && negb (firstTurnSettled s)); [done|].
  destruct (reentrant opts); [done|]. destruct (alwaysInterleave (options t)); [done|].
  by destruct (blockingTurn s).
Qed.

Lemma counters_ok_dequeueAt s i item :
  queue s !! i = Some item → counters_ok s → counters_ok (dequeueAt s i item).
Proof.
  intros Hi [H1 H2]. split; simpl; rewrite (count_queue_delete _ _ _ _ Hi); lia.
Qed.

Lemma counters_ok_enqueue s item : counters_ok s → counters_ok (enqueue s item).
Proof. intros [H1 H2]. split; simpl; rewrite count_queue_app; simpl; lia. Qed.

Lemma counters_ok_ext s s' :
  queue s' = queue s → queuedAlwaysInterleave s' = queuedAlwaysInterleave s →
  queuedReadOnly s' = queuedReadOnly s → counters_ok s → counters_ok s'.
Proof. unfold counters_ok. by intros -> -> ->. Qed.

Lemma take_delete {A} (l : list A) i : take i (delete i l) = take i l.
Proof.
  revert i; induction l as [|x l IH]; intros [|i]; simpl; [done..|]. by rewrite IH.
Qed.

(** The scan keeps the counters and ends with nothing admissible queued. *)
Lemma pump_from_quiescent n : ∀ i s s' ev,
  pump_from n i s = (s', ev) → counters_ok s → length (queue s) = (i + n)%nat →
  Forall (λ item, mayAdmit s (q_turn item) = false) (take i (queue s)) →
  quiescent s' ∧ counters_ok s'.
Proof.
  induction n as [|n IH]; intros i s s' ev Hp Hc Hlen Hpre; simpl in Hp.
  { simplify_eq. split; [|done]. unfold quiescent. by rewrite take_ge in Hpre by lia. }
  destruct (noQueuedTurnAdmissible s) eqn:Hno.
  { simplify_eq. split; [by apply noQueuedTurnAdmissible_sound|done]. }
  destruct (lookup_lt_is_Some_2 (queue s) i) as [item Hi]; [lia|]. rewrite Hi in Hp.
  destruct (mayAdmit s (q_turn item)) eqn:Had.
  - destruct (start _ item) as [s1 ev1] eqn:Es.
    destruct (pump_from n i s1) as [s2 ev2] eqn:Ep. simplify_eq.
    pose proof (start_queue _ _ _ _ Es) as (Hq & Ha & Hr & _).
    eapply IH; [exact Ep|..].
    + eapply counters_ok_ext; [exact Hq|exact Ha|exact Hr|by apply counters_ok_dequeueAt].
    + rewrite Hq. simpl. rewrite length_delete by eauto. lia.
    + rewrite Hq. simpl. rewrite take_delete. eapply Forall_impl; [exact Hpre|].
      intros x Hx. eapply start_no_widen; [exact Es|done|done].
  - eapply IH; [exact Hp|done|lia|]. rewrite (take_S_r _ _ _ Hi). apply Forall_app.
    split; [done|]. by repeat constructor.
Qed.

Lemma pump_quiescent s s' ev :
  pump s = (s', ev) → counters_ok s → quiescent s' ∧ counters_ok s'.
Proof.
  intros Hp Hc. eapply pump_from_quiescent; [exact Hp|done|lia|]. rewrite take_0. constructor.
Qed.

(** Induction over the turns a pump admits: what holds before and is kept by
    starting an admissible turn, everything queued before it being refused,
    holds after the pump. *)
Lemma pump_from_ind (P : list Event → TurnScheduler → Prop) :
  (∀ tr s i item s' ev, P tr s → queue s !! i = Some item →
     Forall (λ item, mayAdmit s (q_turn item) = false) (take i (queue s)) →
     mayAdmit s (q_turn item) = true → start (dequeueAt s i item) item = (s', ev) →
     P (tr ++ ev) s') →
  ∀ n i tr s, P tr s → Forall (λ item, mayAdmit s (q_turn item) = false) (take i (queue s)) →
    P (tr ++ (pump_from n i s).2) (pump_from n i s).1.
Proof.
  intros Hstep n. induction n as [|n IH]; intros i tr s HP Hpre; simpl.
  { by rewrite app_nil_r. }
  destruct (noQueuedTurnAdmissible s); [by rewrite app_nil_r|].
  destruct (queue s !! i) as [item|] eqn:Hi; [|by rewrite app_nil_r].
  destruct (mayAdmit s (q_turn item)) eqn:Had.
  - destruct (start _ item) as [s1 ev1] eqn:Es.
    pose proof (Hstep _ _ _ _ _ _ HP Hi Hpre Had Es) as HP1.
    assert (Hpre1 : Forall (λ x, mayAdmit s1 (q_turn x) = false) (take i (queue s1))).
    { pose proof (start_queue _ _ _ _ Es) as [-> _]. simpl. rewrite take_delete.
      eapply Forall_impl; [exact Hpre|]. intros x Hx.
      eapply start_no_widen; [exact Es|done|done]. }
    specialize (IH i _ _ HP1 Hpre1). revert IH.
    destruct (pump_from n i s1) as [s2 ev2]. simpl. by rewrite app_assoc.
  - apply IH; [done|]. rewrite (take_S_r _ _ _ Hi). apply Forall_app.
    split; [done|]. by repeat constructor.
Qed.

Lemma pump_ind (P : list Event → TurnScheduler → Prop) :
  (∀ tr s i item s' ev, P tr s → queue s !! i = Some item →
     Forall (λ item, mayAdmit s (q_turn item) = false) (take i (queue s)) →
     mayAdmit s (q_turn item) = true → start (dequeueAt s i item) item = (s', ev) →
     P (tr ++ ev) s') →
  ∀ tr s, P tr s → P (tr ++ (pump s).2) (pump s).1.
Proof. intros Hstep tr s HP. apply (pump_from_ind P Hstep); [done|]. rewrite take_0. constructor. Qed.

(** ** The rules without the shortcuts

    The reference starts the first queued turn that the rules admit, asking every
    turn from the head of the queue again after each start, until they admit none;
    and it does so on every operation that could admit one, an arrival included,
    which takes its place at the end of the queue first. It never reads the
    counters and has no early exit. *)
Fixpoint drain (n : nat) (s : TurnScheduler) : TurnScheduler * list Event :=
  match n with
  | O => (s, [])
  | S n' =>
      match list_find (λ item, mayAdmit s (q_turn item) = true) (queue s) with
      | None => (s, [])
      | Some (i, item) =>
          let '(s1, ev1) := start (dequeueAt s i item) item in
          let '(s2, ev2) := drain n' s1 in
          (s2, ev1 ++ ev2)
      end
  end.
Definition rescan (s : TurnScheduler) : TurnScheduler * list Event := drain (length (queue s)) s.

Definition schedule_reference (s0 : TurnScheduler) (t : Turn) : TurnScheduler * list Event :=
  let p := next_promise s0 in
  let s := fresh_promise s0 in
  match stuck s with
  | Some r => (s, [EReject p (StuckRejection r)])
  | None =>
      let len := length (queue s) in
      if match hardLimit opts with Some l => bool_decide (l ≤ len) | None => false end
      then (s, [EReject p (LimitExceeded len (default 0 (hardLimit opts)))])
      else
        let warn :=
          match softLimit opts with
          | Some l => if bool_decide (l ≤ len) then [EWarnSoftLimit len] else []
          | None => []
          end in
        let '(s1, ev1) := rescan (enqueue s (mkQueued t p)) in
        let '(s2, ev2) :=
          if bool_decide (p ∈ q_promise <$> queue s1) then deactivateIfStuck s1 else (s1, []) in
        (s2, warn ++ ev1 ++ ev2)
  end.

(** What [on_finally], [enterReentrantSection] and [setMayInterleave] do before
    they pump; none where they return without pumping. *)
Definition before_pump (s : TurnScheduler) (o : Op) : option TurnScheduler :=
  match o with
  | OpFinally p =>
      match list_find (λ r, r_promise r = p) (running s) with
      | Some (i, r) =>
          if decide (p ∈ finished s) then
            Some (mkScheduler (queue s) (queuedAlwaysInterleave s) (queuedReadOnly s)
              (delete i (running s))
              (match blockingTurn s with
               | Some b => if decide (r_promise b = p) then None else Some b
               | None => None
               end)
              (reentrantSections s) (mayInterleavePredicate s) (firstTurnSeen s)
              (firstTurnSettled s || r_first r) (stuck s) (overdue s)
              (watchdogs s ∖ {[p]}) (finished s) (aborted s) (next_promise s))
          else None
      | None => None
      end
  | OpEnterSection id =>
      Some (with_sections s
        (<[id := (default 0 (reentrantSections s !! id) + 1)%Z]> (reentrantSections s)))
  | OpSetMayInterleave p =>
      Some (mkScheduler (queue s) (queuedAlwaysInterleave s) (queuedReadOnly s) (running s)
        (blockingTurn s) (reentrantSections s) p (firstTurnSeen s) (firstTurnSettled s)
        (stuck s) (overdue s) (watchdogs s) (finished s) (aborted s) (next_promise s))
  | _ => None
  end.

Definition exec_reference (s : TurnScheduler) (o : Op) : TurnScheduler * list Event :=
  match o with
  | OpSchedule t => schedule_reference s t
  | OpFinally _ | OpEnterSection _ | OpSetMayInterleave _ =>
      match before_pump s o with Some s' => rescan s' | None => (s, []) end
  | OpRunSettles p r => run_settles s p r
  | OpWatchdog p => watchdog_fires s p
  | OpExitSection id => exitReentrantSection s id
  | OpSignal sig => signal_fires s sig
  end.

Lemma drain_quiescent n s : quiescent s → drain n s = (s, []).
Proof.
  intros Hq. destruct n as [|n]; [done|]. simpl.
  destruct (list_find _ _) as [[i item]|] eqn:Ef; [|done].
  apply list_find_Some in Ef as (Hi & Had & _).
  unfold quiescent in Hq. rewrite Forall_lookup in Hq. by rewrite (Hq _ _ Hi) in Had.
Qed.

(** The single pass is the repeated search: what it passed stays refused. *)
Lemma pump_from_drain n : ∀ m i s,
  counters_ok s → length (queue s) = (i + n)%nat → (n ≤ m)%nat →
  Forall (λ item, mayAdmit s (q_turn item) = false) (take i (queue s)) →
  pump_from n i s = drain m s.
Proof.
  induction n as [|n IH]; intros m i s Hc Hlen Hm Hpre; simpl.
  { rewrite drain_quiescent; [done|]. unfold quiescent. by rewrite take_ge in Hpre by lia. }
  destruct (noQueuedTurnAdmissible s) eqn:Hno.
  { rewrite drain_quiescent; [done|]. by apply noQueuedTurnAdmissible_sound. }
  destruct (lookup_lt_is_Some_2 (queue s) i) as [item Hi]; [lia|]. rewrite Hi.
  destruct (mayAdmit s (q_turn item)) eqn:Had.
  - destruct m as [|m]; [lia|]. simpl.
    assert (Hf : list_find (λ item, mayAdmit s (q_turn item) = true) (queue s) = Some (i, item)).
    { apply list_find_Some. split_and!; [done|done|]. intros j y Hj Hlt.
      rewrite Forall_lookup in Hpre. rewrite (Hpre j y); [done|]. by rewrite lookup_take_lt. }
    rewrite Hf. destruct (start _ item) as [s1 ev1] eqn:Es.
    pose proof (start_queue _ _ _ _ Es) as (Hq & Ha & Hr & _).
    rewrite (IH m); [done|..].
    + eapply counters_ok_ext; [exact Hq|exact Ha|exact Hr|by apply counters_ok_dequeueAt].
    + rewrite Hq. simpl. rewrite length_delete by eauto. lia.
    + lia.
    + rewrite Hq. simpl. rewrite take_delete. eapply Forall_impl; [exact Hpre|].
      intros x Hx. eapply start_no_widen; [exact Es|done|done].
  - apply IH; [done|lia|lia|]. rewrite (take_S_r _ _ _ Hi). apply Forall_app.
    split; [done|]. by repeat constructor.
Qed.

Lemma pump_rescan s : counters_ok s → pump s = rescan s.
Proof. intros Hc. apply pump_from_drain; [done|lia|lia|]. rewrite take_0. constructor. Qed.

Lemma dequeue_enqueued s item : dequeueAt (enqueue s item) (length (queue s)) item = s.
Proof.
  destruct s. unfold dequeueAt, enqueue, with_queue. simpl. f_equal; [|lia..].
  rewrite delete_take_drop, take_app_length, drop_ge, app_nil_r; [done|]. rewrite length_app. simpl. lia.
Qed.

(** An arrival at a queue where nothing is admissible: only it can start. *)
Lemma rescan_arrival s item :
  quiescent s →
  rescan (enqueue s item) =
    if mayAdmit s (q_turn item) then start s item else (enqueue s item, []).
Proof.
  intros Hq. unfold rescan. simpl. rewrite length_app, Nat.add_1_r. simpl.
  assert (Hpre : Forall (λ x, ¬ mayAdmit (enqueue s item) (q_turn x) = true) (queue s)).
  { eapply Forall_impl; [exact Hq|]. intros x Hx. simpl. unfold enqueue.
    by rewrite mayAdmit_with_queue, Hx. }
  rewrite list_find_app_r by (by apply list_find_None). simpl.
  change (mayAdmit (enqueue s item) (q_turn item)) with (mayAdmit s (q_turn item)).
  destruct (mayAdmit s (q_turn item)) eqn:Had; simpl; [|done].
  rewrite dequeue_enqueued. destruct (start s item) as [s1 ev1] eqn:Es.
  pose proof (start_queue _ _ _ _ Es) as (Hqs & _).
  rewrite drain_quiescent; [by rewrite app_nil_r|]. unfold quiescent. rewrite Hqs.
  eapply Forall_impl; [exact Hq|]. intros x Hx. by eapply start_no_widen.
Qed.

(** ** The ledger of promises *)

Definition settled : list Event → list nat :=
  omap (λ e, match e with EResolve p _ | EReject p _ => Some p | _ => None end).

Lemma sched_settled_app e1 e2 : settled (e1 ++ e2) = settled e1 ++ settled e2.
Proof. apply omap_app. Qed.

(** Promises of the running turns whose [run()] has not settled. *)
Definition in_flight (fin : gset nat) (rs : list RunningTurn) : list nat :=
  filter (λ p, p ∉ fin) (r_promise <$> rs).

(** Every promise made so far is settled, pending in the current call
    ([pend]), queued or in flight, and only one of these. *)
Record ledger (pend : list nat) (tr : list Event) (s : TurnScheduler) : Prop := {
  led_perm : settled tr ++ pend ++ (q_promise <$> queue s) ++ in_flight (finished s) (running s)
             ≡ₚ seq 0 (next_promise s);
  led_running : NoDup (r_promise <$> running s);
  led_finished : ∀ p, p ∈ finished s → p ∈ settled tr }.

Lemma ledger_enqueue p t tr s :
  ledger [p] tr s → ledger [] tr (enqueue s (mkQueued t p)).
Proof.
  intros [Hp Hr Hf]. split; simpl; [|done|done].
  rewrite <- Hp, fmap_app. simpl. f_equiv. rewrite <- app_assoc. simpl.
  by rewrite <- Permutation_middle.
Qed.

Lemma ledger_dequeue i item tr s :
  queue s !! i = Some item → ledger [] tr s → ledger [q_promise item] tr (dequeueAt s i item).
Proof.
  intros Hi [Hp Hr Hf]. split; simpl; [|done|done].
  rewrite <- Hp. f_equiv. simpl. apply delete_Permutation in Hi.
  apply (fmap_Permutation q_promise) in Hi. by rewrite Hi.
Qed.

Lemma ledger_reject p e tr s : ledger [p] tr s → ledger [] (tr ++ [EReject p e]) s.
Proof.
  intros [Hp Hr Hf]. split; simpl; [|done|].
  - rewrite <- Hp, sched_settled_app, <- app_assoc. done.
  - intros q Hq. rewrite sched_settled_app, elem_of_app. left. by apply Hf.
Qed.

(** Events that settle nothing. *)
Lemma ledger_silent pend tr ev s :
  settled ev = [] → ledger pend tr s → ledger pend (tr ++ ev) s.
Proof.
  intros He [Hp Hr Hf]. by split; rewrite ?sched_settled_app, ?He, ?app_nil_r.
Qed.


Lemma ledger_pending_not_running p tr s :
  ledger [p] tr s → (p ∉ (r_promise <$> running s)) ∧ (p ∉ finished s).
Proof.
  intros [Hp Hr Hf].
  assert (Hnd : NoDup (seq 0 (next_promise s))) by apply NoDup_seq.
  rewrite <- Hp in Hnd. apply NoDup_app in Hnd as (_ & Hdis & Hnd).
  assert (Hfin : p ∉ finished s).
  { intros Hin%Hf. apply (Hdis p Hin). rewrite elem_of_app. left. left. }
  split; [|done]. intros Hin. simpl in Hnd. apply NoDup_cons in Hnd as [Hnin _].
  apply Hnin. rewrite elem_of_app. right. by apply list_elem_of_filter.
Qed.

Lemma ledger_start item tr s s' ev :
  start s item = (s', ev) → ledger [q_promise item] tr s → ledger [] (tr ++ ev) s'.
Proof.
  unfold start. destruct (is_aborted _ _); intros ? Hl; simplify_eq.
  { by apply ledger_reject. }
  apply ledger_silent; [done|].
  destruct (ledger_pending_not_running _ _ _ Hl) as [Hnr Hnf].
  destruct Hl as [Hp Hr Hf]. split; simpl; [| |done].
  - rewrite <- Hp. f_equiv. simpl. unfold in_flight.
    rewrite fmap_app, filter_app. simpl. rewrite filter_cons, decide_True, filter_nil by done.
    rewrite app_assoc, Permutation_app_comm. done.
  - rewrite fmap_app. apply NoDup_app. split_and!; [done| |apply NoDup_singleton].
    intros q Hq ->%list_elem_of_singleton. done.
Qed.

Lemma ledger_pump tr s : ledger [] tr s → ledger [] (tr ++ (pump s).2) (pump s).1.
Proof.
  apply (pump_ind (ledger [])). intros tr' s' i item s'' ev Hl Hi _ _ Es.
  eapply ledger_start; [exact Es|]. by apply ledger_dequeue.
Qed.

Lemma ledger_deactivate tr s s' ev :
  deactivateIfStuck s = (s', ev) → ledger [] tr s → ledger [] (tr ++ ev) s'.
Proof.
  unfold deactivateIfStuck. intros Hd [Hp Hr Hf].
  destruct (onStuck opts) as [f|]; [|simplify_eq; by apply ledger_silent].
  destruct (stuck s); [simplify_eq; by apply ledger_silent|].
  destruct (blockingTurn s) as [b|]; [|simplify_eq; by apply ledger_silent].
  destruct (_ && _); [|simplify_eq; by apply ledger_silent]. simplify_eq.
  assert (He : settled ((λ item, EReject (q_promise item) (StuckRejection (f (r_turn b)))) <$>
                        queue s) = q_promise <$> queue s).
  { clear. induction (queue s) as [|x q IH]; [done|]. rewrite !fmap_cons. simpl. by rewrite IH. }
  split; simpl; [|done|].
  - by rewrite sched_settled_app, He, <- Hp, <- app_assoc.
  - intros q Hq. rewrite sched_settled_app, elem_of_app. left. by apply Hf.
Qed.

(** The fields the ledger reads. *)
Lemma ledger_ext pend tr s s' :
  queue s' = queue s → running s' = running s → finished s' = finished s →
  next_promise s' = next_promise s → ledger pend tr s → ledger pend tr s'.
Proof. intros Hq Hr Hf Hn [? ? ?]. split; rewrite ?Hq, ?Hr, ?Hf, ?Hn; done. Qed.

(** ** Every operation preserves the invariant *)

(** The blocking turn is running, a stuck scheduler queues nothing, and the
    queue respects its hard limit. *)
Record shape (s : TurnScheduler) : Prop := {
  sh_blocking : ∀ b, blockingTurn s = Some b → b ∈ running s;
  sh_stuck : is_Some (stuck s) → queue s = [];
  sh_limit : ∀ l, hardLimit opts = Some l → (length (queue s) ≤ l)%nat }.

Record sched_inv (tr : list Event) (s : TurnScheduler) : Prop := {
  si_counters : counters_ok s;
  si_quiescent : quiescent s;
  si_ledger : ledger [] tr s;
  si_shape : shape s }.

Lemma shape_start s item s' ev : start s item = (s', ev) → shape s → shape s'.
Proof.
  unfold start. destruct (is_aborted _ _); intros ? [Hb Hs Hl]; simplify_eq; [done|].
  split; simpl; [|done|done]. intros b. destruct (blockingTurn s) as [b'|] eqn:E.
  - intros [= ->]. rewrite elem_of_app. left. by apply Hb.
  - destruct (alwaysInterleave _); intros ?; simplify_eq.
    rewrite elem_of_app, list_elem_of_singleton. by right.
Qed.

Lemma shape_dequeueAt s i item : queue s !! i = Some item → shape s → shape (dequeueAt s i item).
Proof.
  intros Hi [Hb Hs Hl]. split; simpl; [done| |].
  - intros Hst. by rewrite (Hs Hst) in Hi.
  - intros l Hlim. rewrite length_delete by eauto. specialize (Hl l Hlim). lia.
Qed.

Lemma shape_pump s : shape s → shape (pump s).1.
Proof.
  apply (pump_ind (λ _, shape)); [|exact []]. intros _ s' i item s'' ev Hs Hi _ _ Es.
  eapply shape_start; [exact Es|]. by apply shape_dequeueAt.
Qed.

Lemma pump_inv tr s :
  counters_ok s → ledger [] tr s → shape s → sched_inv (tr ++ (pump s).2) (pump s).1.
Proof.
  intros Hc Hl Hs. destruct (pump s) as [s' ev] eqn:E.
  destruct (pump_quiescent _ _ _ E Hc) as [Hq Hc'].
  pose proof (ledger_pump tr s Hl) as Hl'. pose proof (shape_pump s Hs) as Hs'.
  rewrite E in Hl', Hs'. by split.
Qed.

Lemma deactivate_inv tr s s' ev :
  deactivateIfStuck s = (s', ev) → sched_inv tr s → sched_inv (tr ++ ev) s'.
Proof.
  intros Hd [Hc Hq Hl Hs]. pose proof (ledger_deactivate _ _ _ _ Hd Hl) as Hl'.
  assert (counters_ok s' ∧ quiescent s' ∧ shape s') as (? & ? & ?); [|by split].
  unfold deactivateIfStuck in Hd.
  destruct (onStuck opts) as [f|]; [|by simplify_eq].
  destruct (stuck s); [by simplify_eq|].
  destruct (blockingTurn s) as [b|] eqn:Eb; [|by simplify_eq].
  destruct (_ && _); [|by simplify_eq]. simplify_eq.
  split_and!; [done|constructor|]. destruct Hs as [Hb _ _]. split; simpl; [|done|lia].
  intros b' ?; simplify_eq. by apply Hb.
Qed.

Lemma fresh_ledger tr s :
  ledger [] tr s → ledger [next_promise s] tr (fresh_promise s).
Proof.
  intros [Hp Hr Hf]. split; [|done|done].
  cbn [fresh_promise queue running finished next_promise].
  rewrite seq_S, Nat.add_0_l, <- Hp. simpl.
  rewrite <- Permutation_middle, <- Permutation_cons_append. done.
Qed.

Lemma schedule_inv tr s t :
  sched_inv tr s → sched_inv (tr ++ (schedule s t).2) (schedule s t).1.
Proof.
  intros [Hc Hq Hl Hs]. pose proof (fresh_ledger _ _ Hl) as Hlf. unfold schedule.
  set (sf := fresh_promise s) in *. set (p := next_promise s) in *.
  assert (Hcf : counters_ok sf) by exact Hc.
  assert (Hqf : quiescent sf) by exact Hq.
  assert (Hsf : shape sf) by (destruct Hs; by split).
  assert (Hrej : ∀ e, sched_inv (tr ++ [EReject p e]) sf).
  { intros e. split; [done|done|by apply ledger_reject|done]. }
  destruct (stuck sf) as [r|] eqn:Est; [apply Hrej|].
  destruct (match hardLimit opts with Some l => bool_decide (l ≤ length (queue sf)) | None => false end)
    eqn:Hlim; [apply Hrej|].
  match goal with |- context [if _ then _ else (let '(s1, ev) := deactivateIfStuck _ in (s1, ?w ++ ev))] =>
    set (warn := w); assert (Hw : settled warn = []) by (unfold warn; repeat case_match; done) end.
  destruct (mayAdmit sf t) eqn:Had.
  - destruct (start sf (mkQueued t p)) as [s1 ev] eqn:Es. simpl. rewrite app_assoc.
    pose proof (start_queue _ _ _ _ Es) as (Hq1 & Ha1 & Hr1 & _).
    split.
    + by eapply counters_ok_ext.
    + unfold quiescent. rewrite Hq1. eapply Forall_impl; [exact Hqf|]. intros x Hx.
      by eapply start_no_widen.
    + eapply ledger_start; [exact Es|]. by apply ledger_silent.
    + by eapply shape_start.
  - destruct (deactivateIfStuck _) as [s1 ev] eqn:Ed. simpl. rewrite app_assoc.
    eapply deactivate_inv; [exact Ed|]. split.
    + by apply counters_ok_enqueue.
    + unfold quiescent. simpl. apply Forall_app. split; [done|]. by repeat constructor.
    + apply ledger_silent; [done|]. by apply ledger_enqueue.
    + destruct Hsf as [Hb Hst Hlm]. split; simpl; [done| |].
      * intros [? ?]. change (stuck s) with (stuck sf) in *. congruence.
      * intros l Hl'. rewrite Hl' in Hlim. apply bool_decide_eq_false in Hlim.
        rewrite length_app. simpl in *. lia.
Qed.

Lemma in_flight_settle p fin rs :
  NoDup (r_promise <$> rs) → p ∈ (r_promise <$> rs) → p ∉ fin →
  in_flight fin rs ≡ₚ p :: in_flight ({[p]} ∪ fin) rs.
Proof.
  unfold in_flight. generalize (r_promise <$> rs) as l. induction l as [|q l IH].
  { by intros _ ?%not_elem_of_nil. }
  intros [Hq Hnd]%NoDup_cons Hin Hfin. rewrite !filter_cons.
  apply elem_of_cons in Hin as [->|Hin].
  - rewrite decide_True, decide_False by set_solver. f_equiv.
    assert (Heq : ∀ k : list nat, q ∉ k → filter (λ p, p ∉ fin) k = filter (λ p, p ∉ {[q]} ∪ fin) k).
    { clear. induction k as [|x k IH]; [done|]. intros [? ?]%not_elem_of_cons.
      rewrite !filter_cons, IH by done.
      case_decide; [rewrite decide_True by set_solver|rewrite decide_False by set_solver];
        done. }
    by rewrite (Heq l Hq).
  - assert (p ≠ q) by (by intros ->).
    case_decide; [rewrite (decide_True (P:=(q ∉ {[p]} ∪ fin))) by set_solver|
      rewrite (decide_False (P:=(q ∉ {[p]} ∪ fin))) by set_solver].
    + rewrite IH by done. apply perm_swap.
    + by apply IH.
Qed.

Lemma in_flight_delete i r p fin rs :
  rs !! i = Some r → r_promise r = p → p ∈ fin →
  in_flight fin (delete i rs) ≡ₚ in_flight fin rs.
Proof.
  intros Hi <- Hp. unfold in_flight. apply delete_Permutation in Hi. rewrite Hi at 2.
  rewrite fmap_cons, filter_cons, decide_False; [done|]. by intros ?.
Qed.

Lemma run_settles_inv tr s p res :
  sched_inv tr s → sched_inv (tr ++ (run_settles s p res).2) (run_settles s p res).1.
Proof.
  intros [Hc Hq Hl Hs]. unfold run_settles.
  case_decide as Hd; simpl; [|rewrite app_nil_r; by split].
  destruct Hd as [Hrun Hfin]. destruct Hl as [Hp Hr Hf].
  set (ev := match res with inl v => _ | inr e => _ end).
  assert (He : settled [ev] = [p]) by (unfold ev; by destruct res).
  split; [done|done| |by destruct Hs].
  split; simpl; [|done|].
  - rewrite <- Hp, sched_settled_app, He, <- app_assoc, (in_flight_settle p (finished s)) by done.
    f_equiv. simpl. by rewrite <- Permutation_middle.
  - intros q. rewrite sched_settled_app, He, elem_of_app, list_elem_of_singleton.
    intros [->%elem_of_singleton|?%Hf]%elem_of_union; auto.
Qed.

Lemma on_finally_inv tr s p :
  sched_inv tr s → sched_inv (tr ++ (on_finally s p).2) (on_finally s p).1.
Proof.
  intros [Hc Hq Hl Hs]. unfold on_finally.
  destruct (list_find _ _) as [[i r]|] eqn:Ef; [|simpl; rewrite app_nil_r; by split].
  case_decide as Hfin; [|simpl; rewrite app_nil_r; by split].
  apply list_find_Some in Ef as (Hi & Hrp & _).
  apply pump_inv; [done| |].
  - destruct Hl as [Hp Hr Hf]. split; simpl; [|eapply sublist_NoDup; [exact Hr|apply fmap_sublist, sublist_delete]|done].
    by rewrite <- Hp, in_flight_delete by done.
  - destruct Hs as [Hb Hst Hlm]. split; simpl; [|done|done].
    intros b. destruct (blockingTurn s) as [b'|]; [|done].
    case_decide as Hne; [done|]. intros [= ->].
    specialize (Hb b eq_refl). apply delete_Permutation in Hi. rewrite Hi in Hb.
    apply elem_of_cons in Hb as [->|?]; [by destruct Hne|done].
Qed.

Lemma watchdog_inv tr s p :
  sched_inv tr s → sched_inv (tr ++ (watchdog_fires s p).2) (watchdog_fires s p).1.
Proof.
  intros Hinv. unfold watchdog_fires.
  case_decide; [|simpl; rewrite app_nil_r; exact Hinv].
  assert (Hs1 : ∀ b, sched_inv (tr ++ [EWarnStuckTurn p]) (watchdog_state s p b)).
  { intros b. destruct Hinv as [Hc Hq Hl Hs]. split; [done|done| |by destruct Hs].
    apply ledger_silent; [done|]. by eapply ledger_ext; [..|exact Hl]. }
  destruct (blockingTurn s) as [b|]; [|apply Hs1]. case_decide; [|apply Hs1].
  case_bool_decide; [apply Hs1|].
  destruct (deactivateIfStuck (watchdog_state s p true)) as [s2 ev] eqn:Ed. simpl.
  change (EWarnStuckTurn p :: ev) with ([EWarnStuckTurn p] ++ ev). rewrite app_assoc.
  by eapply deactivate_inv.
Qed.

(** Closing a section never widens admission. *)
Lemma mayAdmit_sections_mono s m t :
  (∀ id, is_Some (m !! id) → is_Some (reentrantSections s !! id)) →
  mayAdmit s t = false → mayAdmit (with_sections s m) t = false.
Proof.
  intros Hm. unfold mayAdmit. simpl.
  destruct (bool_decide _); [done|]. destruct (_ && _); [done|].
  destruct (reentrant opts); [done|]. destruct (alwaysInterleave _); [done|].
  destruct (blockingTurn s) as [b|]; [|done].
  intros [[-> H2]%orb_false_iff ->]%orb_false_iff.
  destruct (reentrancyId t) as [id|]; [|done]. simpl. rewrite orb_false_r.
  apply bool_decide_eq_false in H2. apply bool_decide_eq_false. naive_solver.
Qed.

Lemma sched_exec_inv tr s o : sched_inv tr s → sched_inv (tr ++ (exec s o).2) (exec s o).1.
Proof.
  intros Hinv. pose proof Hinv as [Hc Hq Hl Hs].
  destruct o as [t|p r|p|p|id|id|p|sig]; simpl.
  - by apply schedule_inv.
  - by apply run_settles_inv.
  - by apply on_finally_inv.
  - by apply watchdog_inv.
  - apply pump_inv; [done|by eapply ledger_ext; [..|exact Hl]|by destruct Hs].
  - rewrite app_nil_r. split; [done| |by eapply ledger_ext; [..|exact Hl]|by destruct Hs].
    eapply Forall_impl; [exact Hq|]. intros x Hx. apply mayAdmit_sections_mono; [|done].
    intros id' Hid. case_decide.
    + apply lookup_delete_is_Some in Hid. tauto.
    + destruct (decide (id' = id)) as [->|]; [|by rewrite lookup_insert_ne in Hid].
      destruct (reentrantSections s !! id); [eauto|simpl in *; lia].
  - apply pump_inv; [done|by eapply ledger_ext; [..|exact Hl]|by destruct Hs].
  - rewrite app_nil_r. split; [done|done|by eapply ledger_ext; [..|exact Hl]|by destruct Hs].
Qed.

(** A promise not handed out yet waits nowhere. *)
Lemma fresh_not_queued tr s : sched_inv tr s → next_promise s ∉ q_promise <$> queue s.
Proof.
  intros [_ _ [Hp _ _] _] Hin. simpl in Hp.
  assert (H : next_promise s ∈ seq 0 (next_promise s)) by (rewrite <- Hp; set_solver).
  apply elem_of_seq in H. lia.
Qed.

Lemma schedule_equals_reference tr s t :
  sched_inv tr s → schedule s t = schedule_reference s t.
Proof.
  intros Hinv. pose proof (fresh_not_queued _ _ Hinv) as Hnew. destruct Hinv as [_ Hq _ _].
  unfold schedule, schedule_reference. cbv zeta.
  destruct (stuck _); [done|]. destruct (match hardLimit opts with Some _ => _ | None => _ end); [done|].
  rewrite rescan_arrival by exact Hq. cbn [q_turn].
  destruct (mayAdmit _ t) eqn:Had.
  - destruct (start _ _) as [s1 ev1] eqn:Es.
    pose proof (start_queue _ _ _ _ Es) as [Hqs _].
    rewrite bool_decide_eq_false_2 by (by rewrite Hqs). by rewrite app_nil_r.
  - rewrite bool_decide_eq_true_2; [by destruct (deactivateIfStuck _)|].
    simpl. rewrite fmap_app. set_solver.
Qed.

Lemma exec_equals_reference tr s o : sched_inv tr s → exec s o = exec_reference s o.
Proof.
  intros Hinv. destruct o as [t|p r|p|p|id|id|p|sig]; simpl; try done.
  - by eapply schedule_equals_reference.
  - destruct Hinv as [Hc _ _ _]. unfold on_finally. destruct (list_find _ _) as [[i r]|]; [|done].
    case_decide; [|done]. by apply pump_rescan.
  - destruct Hinv as [Hc _ _ _]. by apply pump_rescan.
  - destruct Hinv as [Hc _ _ _]. by apply pump_rescan.
Qed.

Lemma new_scheduler_inv p : sched_inv [] (new_scheduler p).
Proof.
  split; [done|constructor| |].
  - split; simpl; [done|constructor|set_solver].
  - split; simpl; [done|done|lia].
Qed.

Lemma run_sched_inv p ops :
  sched_inv (run exec (new_scheduler p) ops).2 (run exec (new_scheduler p) ops).1.
Proof. apply (run_trace_invariant exec sched_inv sched_exec_inv ops [] _ (new_scheduler_inv p)). Qed.

(** ** What one operation reports

    Promises neither settled nor handed to a caller twice, and where every
    event comes from. *)

Definition pend (s : TurnScheduler) : list nat :=
  (q_promise <$> queue s) ++ in_flight (finished s) (running s).

Definition new_promises (s : TurnScheduler) (o : Op) : list nat :=
  match o with OpSchedule _ => [next_promise s] | _ => [] end.

Lemma pump_next s : next_promise (pump s).1 = next_promise s.
Proof.
  refine (pump_ind (λ _ s', next_promise s' = next_promise s) _ [] s eq_refl).
  intros _ s' i item s'' ev Hs _ _ _ Es. unfold start in Es.
  destruct (is_aborted _ _); by simplify_eq.
Qed.

Lemma deactivateIfStuck_next s : next_promise (deactivateIfStuck s).1 = next_promise s.
Proof.
  unfold deactivateIfStuck. destruct (onStuck opts); [|done]. destruct (stuck s); [done|].
  destruct (blockingTurn s); [|done]. by destruct (_ && _).
Qed.

Lemma exec_next s o : next_promise (exec s o).1 = next_promise s + length (new_promises s o).
Proof.
  destruct o as [t|p r|p|p|id|id|p|sig]; simpl; rewrite ?Nat.add_0_r; try done.
  - rewrite Nat.add_1_r. unfold schedule. cbv zeta.
    destruct (stuck _); [done|].
    match goal with |- context [if ?b then (_, [EReject _ _]) else _] => destruct b; [done|] end.
    destruct (mayAdmit _ _).
    + unfold start. by destruct (is_aborted _ _).
    + pose proof (deactivateIfStuck_next (enqueue (fresh_promise s) (mkQueued t (next_promise s)))) as H.
      by destruct (deactivateIfStuck _).
  - unfold run_settles. by case_decide.
  - unfold on_finally. destruct (list_find _ _) as [[? ?]|]; [|done]. case_decide; [|done].
    by rewrite pump_next.
  - unfold watchdog_fires. case_decide; [|done]. destruct (blockingTurn s); [|done].
    case_decide; [|done]. case_bool_decide; [done|].
    pose proof (deactivateIfStuck_next (watchdog_state s p true)) as Hnext.
    by destruct (deactivateIfStuck _).
  - unfold enterReentrantSection. by rewrite pump_next.
  - unfold setMayInterleave. by rewrite pump_next.
Qed.

Lemma exec_pend tr s o :
  sched_inv tr s →
  settled (exec s o).2 ++ pend (exec s o).1 ≡ₚ pend s ++ new_promises s o.
Proof.
  intros Hinv. pose proof (sched_exec_inv _ _ o Hinv) as [_ _ [Hp' _ _] _].
  destruct Hinv as [_ _ [Hp _ _] _]. simpl in Hp, Hp'. rewrite exec_next in Hp'.
  apply (Permutation_app_inv_l (settled tr)). unfold pend.
  rewrite sched_settled_app, <- app_assoc in Hp'. rewrite Hp', app_assoc, Hp, seq_app. simpl.
  by destruct o.
Qed.

(** Where the queue and the running turns come from. *)
Definition known (s0 s : TurnScheduler) : Prop :=
  (∀ item, item ∈ queue s → q_promise item ∈ q_promise <$> queue s0) ∧
  (∀ r, r ∈ running s → r ∈ running s0 ∨ r_promise r ∈ q_promise <$> queue s0).

(** What an event may speak of. *)
Definition event_from (s0 : TurnScheduler) (e : Event) : Prop :=
  match e with
  | EResolve _ _ | EReject _ (RunError _) => False
  | EReject p _ | ERun p _ => p ∈ q_promise <$> queue s0
  | _ => True
  end.

Lemma pump_known s : known s (pump s).1 ∧ Forall (event_from s) (pump s).2.
Proof.
  refine (pump_ind (λ tr s', known s s' ∧ Forall (event_from s) tr) _ [] s _).
  - intros tr s' i item s'' ev [[Hq Hr] Ht] Hi _ _ Es.
    assert (Hin : q_promise item ∈ q_promise <$> queue s)
      by (apply Hq; by eapply list_elem_of_lookup_2).
    unfold start in Es. destruct (is_aborted _ _); simplify_eq.
    + split; [split|].
      * simpl. intros it Hit. apply Hq. by apply list_elem_of_delete_inv in Hit.
      * done.
      * apply Forall_app. split; [done|by repeat constructor].
    + split; [split|]; simpl.
      * intros it Hit. apply Hq. by apply list_elem_of_delete_inv in Hit.
      * intros r [Hr'| ->%list_elem_of_singleton]%elem_of_app; [by apply Hr|by right].
      * apply Forall_app. split; [done|by repeat constructor].
  - split; [|constructor]. split; [intros; by apply list_elem_of_fmap_2|by left].
Qed.

Lemma deactivateIfStuck_known s :
  known s (deactivateIfStuck s).1 ∧ Forall (event_from s) (deactivateIfStuck s).2.
Proof.
  assert (Hs : known s s) by (split; [intros; by apply list_elem_of_fmap_2|by left]).
  unfold deactivateIfStuck. destruct (onStuck opts); [|by split; [|constructor]].
  destruct (stuck s); [by split; [|constructor]|].
  destruct (blockingTurn s); [|by split; [|constructor]].
  destruct (_ && _); [|by split; [|constructor]]. simpl. split.
  - split; [by intros ? ?%not_elem_of_nil|by left].
  - apply Forall_fmap, Forall_forall. intros item Hin. by apply list_elem_of_fmap_2.
Qed.

(** An event of an operation: the promise it names is the operation's own,
    was queued, or is the new one. *)
Definition event_of (s0 : TurnScheduler) (o : Op) (e : Event) : Prop :=
  match e with
  | EResolve p v => o = OpRunSettles p (inl v)
  | EReject p (RunError r) => o = OpRunSettles p (inr r)
  | EReject p _ | ERun p _ => p ∈ q_promise <$> queue s0 ∨ p ∈ new_promises s0 o
  | _ => True
  end.

Definition grown (s0 : TurnScheduler) (o : Op) (s : TurnScheduler) : Prop :=
  (∀ item, item ∈ queue s → q_promise item ∈ (q_promise <$> queue s0) ++ new_promises s0 o) ∧
  (∀ r, r ∈ running s → r ∈ running s0 ∨
     r_promise r ∈ (q_promise <$> queue s0) ++ new_promises s0 o).

Lemma event_from_of s0 s o ev :
  (q_promise <$> queue s0 ⊆ (q_promise <$> queue s) ++ new_promises s o) →
  Forall (event_from s0) ev → Forall (event_of s o) ev.
Proof.
  intros Hq Hev. eapply Forall_impl; [exact Hev|]. intros e He.
  destruct e as [p t|p v|p [| | |r]| |]; simpl in *; try done.
  all: by apply elem_of_app, Hq.
Qed.

Lemma known_grown s0 s o s' :
  (q_promise <$> queue s0 ⊆ (q_promise <$> queue s) ++ new_promises s o) →
  (∀ r, r ∈ running s0 → r ∈ running s) → known s0 s' → grown s o s'.
Proof.
  intros Hq Hr [Hq' Hr']. split; [by intros item ?%Hq'%Hq|].
  intros r [?%Hr|?%Hq]%Hr'; [by left|by right].
Qed.

Lemma pump_grown s0 s o :
  (q_promise <$> queue s0 ⊆ (q_promise <$> queue s) ++ new_promises s o) →
  (∀ r, r ∈ running s0 → r ∈ running s) →
  grown s o (pump s0).1 ∧ Forall (event_of s o) (pump s0).2.
Proof.
  intros Hq Hr. destruct (pump_known s0) as [Hk He].
  split; [by eapply known_grown|by eapply event_from_of].
Qed.

Lemma exec_grown s o : grown s o (exec s o).1 ∧ Forall (event_of s o) (exec s o).2.
Proof.
  assert (Hself : grown s o s).
  { split; [|by left]. intros item Hin. apply elem_of_app. left. by apply list_elem_of_fmap_2. }
  assert (Hsub : q_promise <$> queue s ⊆ (q_promise <$> queue s) ++ new_promises s o)
    by (intros ? ?; apply elem_of_app; by left).
  destruct o as [t|p r|p|p|id|id|p|sig]; simpl.
  - unfold schedule. cbv zeta. assert (Hnew : next_promise s ∈ new_promises s (OpSchedule t)) by left.
    destruct (stuck _); [split; [exact Hself|by repeat constructor; right]|].
    match goal with |- context [if ?b then (_, [EReject _ _]) else _] =>
      destruct b; [split; [exact Hself|by repeat constructor; right]|] end.
    match goal with |- context [(_, ?w ++ _)] =>
      assert (Hw : Forall (event_of s (OpSchedule t)) w) by (repeat case_match; by repeat constructor);
      revert Hw; generalize w; intros warn Hw end.
    destruct (mayAdmit _ _).
    + unfold start. destruct (is_aborted _ _); simpl.
      * split; [exact Hself|]. apply Forall_app. split; [done|by repeat constructor; right].
      * split; [split; [apply Hself|]; simpl|apply Forall_app; split; [done|by repeat constructor; right]].
        intros r [?| ->%list_elem_of_singleton]%elem_of_app; [by left|right].
        apply elem_of_app. by right.
    + set (e := enqueue (fresh_promise s) (mkQueued t (next_promise s))).
      destruct (deactivateIfStuck_known e) as [Hk He]. destruct (deactivateIfStuck e) as [s1 ev].
      assert (Hq : q_promise <$> queue e ⊆ (q_promise <$> queue s) ++ new_promises s (OpSchedule t))
        by (unfold e; simpl; by rewrite fmap_app).
      split; [exact (known_grown e _ _ _ Hq (λ _ H, H) Hk)|].
      apply Forall_app. split; [done|exact (event_from_of e _ _ _ Hq He)].
  - unfold run_settles. case_decide; [|by split]. split; [apply Hself|].
    destruct r; by repeat constructor.
  - unfold on_finally. destruct (list_find _ _) as [[i r]|]; [|by split]. case_decide; [|by split].
    apply pump_grown; [done|]. simpl. intros r' Hr'. by apply list_elem_of_delete_inv in Hr'.
  - unfold watchdog_fires. case_decide; [|by split].
    assert (Hw : ∀ b, grown s (OpWatchdog p) (watchdog_state s p b)) by (intros b; apply Hself).
    destruct (blockingTurn s); [|split; [apply Hw|by repeat constructor]].
    case_decide; [|split; [apply Hw|by repeat constructor]].
    case_bool_decide; [split; [apply Hw|by repeat constructor]|].
    destruct (deactivateIfStuck_known (watchdog_state s p true)) as [Hk He].
    destruct (deactivateIfStuck _) as [s1 ev]. simpl in *. split; [by eapply known_grown|].
    constructor; [done|by eapply event_from_of].
  - apply pump_grown; [done|by intros].
  - by split.
  - apply pump_grown; [done|by intros].
  - by split.
Qed.

(** A finished turn stays finished; only [run_settles] finishes one. *)
Lemma pump_finished s : finished (pump s).1 = finished s.
Proof.
  refine (pump_ind (λ _ s', finished s' = finished s) _ [] s eq_refl).
  intros _ s' i item s'' ev Hs _ _ _ Es. unfold start in Es.
  destruct (is_aborted _ _); by simplify_eq.
Qed.

Lemma exec_finished s o :
  finished (exec s o).1 = finished s ∨
  ∃ p r, o = OpRunSettles p r ∧ p ∈ r_promise <$> running s ∧ finished (exec s o).1 = {[p]} ∪ finished s.
Proof.
  destruct o as [t|p r|p|p|id|id|p|sig]; simpl; try (left; done).
  - left. unfold schedule, deactivateIfStuck, start. cbv zeta. repeat (case_match; simplify_eq); done.
  - unfold run_settles. case_decide as H; [|by left]. right. exists p, r. split_and!; [done|apply H|done].
  - left. unfold on_finally. destruct (list_find _ _) as [[i r]|]; [|done]. case_decide; [|done].
    by rewrite pump_finished.
  - left. unfold watchdog_fires, deactivateIfStuck. repeat (case_match; simplify_eq); done.
  - left. unfold enterReentrantSection. by rewrite pump_finished.
  - left. unfold setMayInterleave. by rewrite pump_finished.
Qed.

(** ** The barrier

    While the first turn, of promise 0, has not settled, it is the only one
    that runs. *)
Record barrier (s : TurnScheduler) : Prop := {
  ba_seen : firstTurnSeen s = true;
  ba_first : ∀ r, r ∈ running s → r_first r = true → r_promise r = 0;
  ba_alone : firstTurnSettled s = false → ∃ r, running s = [r] ∧ r_promise r = 0 ∧ r_first r = true;
  ba_settled : firstTurnSettled s = true → 0 ∈ finished s }.

Lemma barrier_ext s s' :
  running s' = running s → firstTurnSeen s' = firstTurnSeen s → firstTurnSettled s' = firstTurnSettled s →
  finished s' = finished s → barrier s → barrier s'.
Proof. intros Hr Hs Hst Hf [? ? ? ?]. split; rewrite ?Hr, ?Hs, ?Hst, ?Hf; done. Qed.

Lemma barrier_start s item s' ev :
  barrierFirstTurn opts = true → mayAdmit s (q_turn item) = true →
  start s item = (s', ev) → barrier s → barrier s'.
Proof.
  unfold start. intros Hb Had Es [Hseen Hf Hal Hse]. destruct (is_aborted _ _); simplify_eq; [done|].
  split; simpl; [done| |intros Hns|done].
  - intros r [Hr| ->%list_elem_of_singleton]%elem_of_app; [by apply Hf|]. simpl. by rewrite Hseen.
  - destruct (Hal Hns) as (r & Hr & _). unfold mayAdmit in Had.
    rewrite Hr, Hb, Hns, bool_decide_false in Had; done.
Qed.

Lemma barrier_pump s : barrierFirstTurn opts = true → barrier s → barrier (pump s).1.
Proof.
  intros Hb Hs. refine (pump_ind (λ _, barrier) _ [] s Hs).
  intros _ s' i item s'' ev Hs' _ _ Had Es. eapply barrier_start; [done| |exact Es|].
  - by rewrite <- Had.
  - by eapply barrier_ext; [..|exact Hs'].
Qed.

Lemma barrier_deactivate s : barrier s → barrier (deactivateIfStuck s).1.
Proof.
  intros Hs. unfold deactivateIfStuck. destruct (onStuck opts); [|done]. destruct (stuck s); [done|].
  destruct (blockingTurn s); [|done]. destruct (_ && _); [|done]. by eapply barrier_ext; [..|exact Hs].
Qed.

Lemma barrier_exec s o : barrierFirstTurn opts = true → barrier s → barrier (exec s o).1.
Proof.
  intros Hb Hs. destruct o as [t|p r|p|p|id|id|p|sig]; simpl.
  - unfold schedule. cbv zeta. assert (Hf : barrier (fresh_promise s)) by (by eapply barrier_ext; [..|exact Hs]).
    destruct (stuck _); [done|].
    match goal with |- context [if ?b then (_, [EReject _ _]) else _] => destruct b; [done|] end.
    destruct (mayAdmit _ _) eqn:Had.
    + destruct (start _ _) as [s1 ev] eqn:Es. by eapply barrier_start; [..|exact Es|].
    + pose proof (barrier_deactivate (enqueue (fresh_promise s) (mkQueued t (next_promise s)))) as Hd.
      destruct (deactivateIfStuck _). apply Hd. by eapply barrier_ext; [..|exact Hs].
  - unfold run_settles. case_decide; [|done]. destruct Hs as [? ? ? Hse]. split; simpl; [done..|].
    intros ?%Hse. set_solver.
  - unfold on_finally. destruct (list_find _ _) as [[i r]|] eqn:Ef; [|done]. case_decide as Hfin; [|done].
    apply list_find_Some in Ef as (Hi & Hrp & _). apply barrier_pump; [done|].
    destruct Hs as [Hseen Hf Hal Hse]. split; simpl; [done| | |].
    + intros r' Hr'. apply Hf. by apply list_elem_of_delete_inv in Hr'.
    + intros [Hns Hrf]%orb_false_iff. destruct (Hal Hns) as (r' & Hr & _ & Hr').
      rewrite Hr in Hi. destruct i; simplify_eq/=. congruence.
    + intros [?%Hse|Hrf]%orb_true_iff; [done|].
      rewrite <- (Hf r) by (done || by eapply list_elem_of_lookup_2). by subst.
  - unfold watchdog_fires. case_decide; [|done].
    assert (Hw : ∀ b, barrier (watchdog_state s p b)) by (intros b; by eapply barrier_ext; [..|exact Hs]).
    destruct (blockingTurn s); [|apply Hw]. case_decide; [|apply Hw]. case_bool_decide; [apply Hw|].
    pose proof (barrier_deactivate (watchdog_state s p true) (Hw true)) as Hd.
    by destruct (deactivateIfStuck _).
  - apply barrier_pump; [done|]. by eapply barrier_ext; [..|exact Hs].
  - by eapply barrier_ext; [..|exact Hs].
  - apply barrier_pump; [done|]. by eapply barrier_ext; [..|exact Hs].
  - by eapply barrier_ext; [..|exact Hs].
Qed.

(** ** Grains that declare nothing

    A grain that is not reentrant, never opens a reentrant section and has no
    [mayInterleave] predicate. *)

Definition plain_op (o : Op) : Prop :=
  match o with
  | OpEnterSection _ => False
  | OpSetMayInterleave (Some _) => False
  | _ => True
  end.

(** Neither [alwaysInterleave] nor [readOnly]. *)
Definition exclusive (t : Turn) : bool :=
  negb (alwaysInterleave (options t)) && negb (readOnly (options t)).

Definition exclusive_starts : list Event → list nat :=
  omap (λ e, match e with ERun p t => if exclusive t then Some p else None | _ => None end).

Definition exclusive_queue (q : list QueuedTurn) : list nat :=
  q_promise <$> filter (λ item, exclusive (q_turn item) = true) q.

Record plain_inv (tr : list Event) (s : TurnScheduler) : Prop := {
  pl_sections : reentrantSections s = ∅;
  pl_predicate : mayInterleavePredicate s = None;
  pl_exclusive : ∀ r, r ∈ running s → exclusive (r_turn r) = true → blockingTurn s = Some r;
  pl_sorted : StronglySorted lt (exclusive_starts tr ++ exclusive_queue (queue s));
  pl_bound : Forall (λ p, p < next_promise s)%nat
               (exclusive_starts tr ++ exclusive_queue (queue s)) }.

Lemma exclusive_starts_app e1 e2 :
  exclusive_starts (e1 ++ e2) = exclusive_starts e1 ++ exclusive_starts e2.
Proof. apply omap_app. Qed.

Lemma exclusive_queue_delete_other q i item :
  q !! i = Some item → exclusive (q_turn item) = false →
  exclusive_queue (delete i q) = exclusive_queue q.
Proof.
  intros Hi Hx. unfold exclusive_queue. rewrite <- (take_drop_middle q i item Hi) at 2.
  rewrite delete_take_drop, !filter_app, filter_cons, decide_False by congruence. done.
Qed.

Context (Hnot_reentrant : reentrant opts = false).

(** When an exclusive turn may start, any turn may. *)
Lemma exclusive_admits_all tr s t t' :
  plain_inv tr s → exclusive t = true → mayAdmit s t = true → mayAdmit s t' = true.
Proof.
  intros [Hsec Hpred _ _ _] Hx. apply andb_true_iff in Hx as [Hai%negb_true_iff Hro%negb_true_iff].
  unfold mayAdmit. rewrite Hnot_reentrant, Hai, Hro, Hsec, Hpred.
  destruct (bool_decide _); [done|]. destruct (_ && _); [done|].
  destruct (blockingTurn s) as [b|]; simpl; [|by case_match].
  destruct (reentrancyId t); [by rewrite lookup_empty|done].
Qed.

Lemma start_exclusive s item s' ev :
  reentrantSections s = ∅ → mayInterleavePredicate s = None →
  (∀ r, r ∈ running s → exclusive (r_turn r) = true → blockingTurn s = Some r) →
  shape s → mayAdmit s (q_turn item) = true → start s item = (s', ev) →
  ∀ r, r ∈ running s' → exclusive (r_turn r) = true → blockingTurn s' = Some r.
Proof.
  intros Hsec Hpred Hex Hsh Had Es r. unfold start in Es.
  destruct (is_aborted _ _); simplify_eq; [apply Hex|]. simpl.
  rewrite elem_of_app, list_elem_of_singleton. intros [Hr| ->] Hx.
  - by rewrite (Hex r Hr Hx).
  - simpl in Hx.
    assert (blockingTurn s = None) as ->.
    { apply andb_true_iff in Hx as [Hai%negb_true_iff Hro%negb_true_iff].
      destruct (blockingTurn s) as [b|] eqn:Hb; [exfalso|done].
      pose proof (sh_blocking _ Hsh b Hb) as Hin. unfold mayAdmit in Had.
      rewrite Hnot_reentrant, Hai, Hro, Hsec, Hpred, Hb in Had.
      rewrite bool_decide_eq_false_2 in Had by (by intros Hnil; rewrite Hnil in Hin; apply not_elem_of_nil in Hin).
      destruct (_ && _); [done|]. simpl in Had.
      destruct (reentrancyId _); [by rewrite lookup_empty in Had|done]. }
    apply andb_true_iff in Hx as [->%negb_true_iff _]. done.
Qed.

Lemma exclusive_starts_start s item s' ev :
  start s item = (s', ev) →
  exclusive_starts ev = if exclusive (q_turn item) && negb (is_aborted s (q_turn item))
                        then [q_promise item] else [].
Proof.
  unfold start. destruct (is_aborted _ _); intros ?; simplify_eq; simpl.
  - by rewrite andb_false_r.
  - rewrite andb_true_r. by destruct (exclusive _).
Qed.

Lemma sublist_sorted_bounded (l1 l2 : list nat) (n : nat) :
  sublist l1 l2 → StronglySorted lt l2 → Forall (λ p, p < n)%nat l2 →
  StronglySorted lt l1 ∧ Forall (λ p, p < n)%nat l1.
Proof.
  induction 1 as [|x l1 l2 Hsub IH|x l1 l2 Hsub IH]; [done|..];
    rewrite StronglySorted_cons, !Forall_cons; intros [Hx Hs] [Hn Hf];
    destruct (IH Hs Hf); [|done].
  rewrite StronglySorted_cons. split_and!; try done.
  rewrite Forall_forall in Hx. rewrite Forall_forall. intros y Hy.
  apply Hx. by eapply sublist_subseteq.
Qed.

(** Admitting the queued turn at [i], all before it being refused. *)
Lemma plain_start tr s i item s' ev :
  plain_inv tr s ∧ shape s → queue s !! i = Some item →
  Forall (λ x, mayAdmit s (q_turn x) = false) (take i (queue s)) →
  mayAdmit s (q_turn item) = true → start (dequeueAt s i item) item = (s', ev) →
  plain_inv (tr ++ ev) s' ∧ shape s'.
Proof.
  intros [Hpl Hsh] Hi Hpre Had Es.
  assert (Hsh' : shape (dequeueAt s i item)) by by apply shape_dequeueAt.
  split; [|by eapply shape_start].
  pose proof (start_queue _ _ _ _ Es) as (Hq & _ & _ & _ & Hn & _ & Hsec & Hpred).
  pose proof Hpl as [Hs Hp _ Hsort Hbound].
  assert (Hsub : sublist (exclusive_starts (tr ++ ev) ++ exclusive_queue (queue s'))
                         (exclusive_starts tr ++ exclusive_queue (queue s))).
  { rewrite exclusive_starts_app, (exclusive_starts_start _ _ _ _ Es), Hq, <- app_assoc. simpl.
    apply sublist_app; [done|]. destruct (exclusive (q_turn item)) eqn:Hx; simpl.
    - assert (i = 0%nat) as ->.
      { destruct i as [|i]; [done|exfalso].
        destruct (queue s) as [|x q] eqn:Eq; [done|]. simpl in Hpre.
        apply Forall_cons in Hpre as [Hf _].
        by rewrite (exclusive_admits_all _ _ _ _ Hpl Hx Had) in Hf. }
      destruct (queue s) as [|x q] eqn:Eq; [done|]. simplify_eq/=.
      unfold exclusive_queue. rewrite filter_cons, decide_True by done. simpl.
      destruct (is_aborted _ _); simpl; [by apply sublist_cons|done].
    - by rewrite (exclusive_queue_delete_other _ _ _ Hi Hx). }
  destruct (sublist_sorted_bounded _ _ (next_promise s) Hsub) as [? ?]; [done..|].
  split; [by rewrite Hsec|by rewrite Hpred| |done|by rewrite Hn].
  destruct Hpl as [? ? Hx _ _]. by eapply (start_exclusive (dequeueAt s i item)).
Qed.

Lemma plain_pump tr s :
  plain_inv tr s → shape s → plain_inv (tr ++ (pump s).2) (pump s).1.
Proof.
  intros Hpl Hsh. apply (pump_ind (λ tr s, plain_inv tr s ∧ shape s)); [|done].
  intros tr' s' i item s'' ev HP Hi Hpre Had Es. by eapply plain_start.
Qed.

(** Events that start nothing. *)
Lemma plain_silent tr ev s : exclusive_starts ev = [] → plain_inv tr s → plain_inv (tr ++ ev) s.
Proof.
  intros He [? ? ? ? ?]. by split; rewrite ?exclusive_starts_app, ?He, ?app_nil_r.
Qed.

Lemma plain_deactivate tr s s' ev :
  deactivateIfStuck s = (s', ev) → plain_inv tr s → plain_inv (tr ++ ev) s'.
Proof.
  unfold deactivateIfStuck. intros Hd Hpl.
  destruct (onStuck opts) as [f|]; [|simplify_eq; by apply plain_silent].
  destruct (stuck s); [simplify_eq; by apply plain_silent|].
  destruct (blockingTurn s) as [b|] eqn:Hb; [|simplify_eq; by apply plain_silent].
  destruct (_ && _); [|simplify_eq; by apply plain_silent]. simplify_eq.
  assert (He : exclusive_starts ((λ item, EReject (q_promise item)
    (StuckRejection (f (r_turn b)))) <$> queue s) = []).
  { clear. by induction (queue s). }
  apply plain_silent; [done|]. destruct Hpl as [Hs Hp Hx Hsort Hbd].
  rewrite Hb in Hx.
  destruct (sublist_sorted_bounded (exclusive_starts tr ++ []) _ (next_promise s)
    (sublist_app _ _ _ _ (reflexivity _) (sublist_nil_l (exclusive_queue (queue s))))
    Hsort Hbd). by split.
Qed.

(** A new exclusive turn, the latest promise, started or queued. *)
Lemma plain_snoc l n :
  StronglySorted lt l → Forall (λ p, p < n)%nat l →
  StronglySorted lt (l ++ [n]) ∧ Forall (λ p, p < S n)%nat (l ++ [n]).
Proof.
  intros Hs Hb. rewrite StronglySorted_app, Forall_app. split_and!.
  - intros x y Hx ->%list_elem_of_singleton. rewrite Forall_forall in Hb. by apply Hb.
  - done.
  - repeat constructor.
  - eapply Forall_impl; [exact Hb|]. simpl. lia.
  - repeat constructor.
Qed.

Lemma plain_schedule tr s t :
  sched_inv tr s → plain_inv tr s →
  plain_inv (tr ++ (schedule s t).2) (schedule s t).1.
Proof.
  intros [Hc Hq Hl Hs] Hpl. unfold schedule.
  set (sf := fresh_promise s) in *. set (p := next_promise s) in *.
  assert (Hweak : Forall (λ q, q < S p)%nat (exclusive_starts tr ++ exclusive_queue (queue s))).
  { eapply Forall_impl; [exact (pl_bound _ _ Hpl)|]. simpl. unfold p. lia. }
  assert (Hplf : plain_inv tr sf) by (by destruct Hpl; split).
  assert (Hqf : quiescent sf) by exact Hq.
  assert (Hsf : shape sf) by (destruct Hs; by split).
  destruct (stuck sf) as [r|]; [by apply plain_silent|].
  destruct (match hardLimit opts with Some l => bool_decide (l ≤ length (queue sf)) | None => false end);
    [by apply plain_silent|].
  match goal with |- context [if _ then _ else (let '(s1, ev) := deactivateIfStuck _ in (s1, ?w ++ ev))] =>
    set (warn := w); assert (Hw : exclusive_starts warn = []) by (unfold warn; repeat case_match; done) end.
  destruct (mayAdmit sf t) eqn:Had.
  - destruct (start sf (mkQueued t p)) as [s1 ev] eqn:Es. simpl. rewrite app_assoc.
    pose proof (start_queue _ _ _ _ Es) as (Hq1 & _ & _ & _ & Hn & _ & Hsec & Hpred).
    assert (Hev := exclusive_starts_start _ _ _ _ Es). simpl in Hev.
    destruct Hpl as [Hs0 Hp0 Hx0 Hsort Hbd].
    assert (Hsb : StronglySorted lt (exclusive_starts ((tr ++ warn) ++ ev) ++ exclusive_queue (queue s1))
      ∧ Forall (λ q, q < S p)%nat (exclusive_starts ((tr ++ warn) ++ ev) ++ exclusive_queue (queue s1))).
    { rewrite !exclusive_starts_app, Hw, Hev, app_nil_r, Hq1. simpl.
      destruct (exclusive t) eqn:Hx; simpl; [|by rewrite app_nil_r].
      destruct (is_aborted _ _); simpl; [by rewrite app_nil_r|].
      assert (queue s = []) as Hnil.
      { destruct (queue s) as [|x q] eqn:Eq; [done|]. exfalso.
        unfold quiescent in Hqf. simpl in Hqf. rewrite Eq in Hqf.
        apply Forall_cons in Hqf as [Hf _].
        by rewrite (exclusive_admits_all _ _ _ _ Hplf Hx Had) in Hf. }
      rewrite Hnil in *. unfold exclusive_queue in *. rewrite filter_nil, app_nil_r in *.
      by apply plain_snoc. }
    destruct Hsb. split; [by rewrite Hsec|by rewrite Hpred| |done|by rewrite Hn].
    exact (start_exclusive sf (mkQueued t p) s1 ev Hs0 Hp0 Hx0 Hsf Had Es).
  - destruct (deactivateIfStuck _) as [s1 ev] eqn:Ed. simpl. rewrite app_assoc.
    eapply plain_deactivate; [exact Ed|]. apply plain_silent; [done|].
    destruct Hpl as [Hs0 Hp0 Hx0 Hsort Hbd].
    assert (Hsb : StronglySorted lt (exclusive_starts tr ++ exclusive_queue (queue s ++ [mkQueued t p]))
      ∧ Forall (λ q, q < S p)%nat (exclusive_starts tr ++ exclusive_queue (queue s ++ [mkQueued t p]))).
    { unfold exclusive_queue. rewrite filter_app, fmap_app, filter_cons, filter_nil, app_assoc.
      simpl. case_decide; simpl; [by apply plain_snoc|by rewrite app_nil_r]. }
    destruct Hsb. by split.
Qed.

Lemma plain_exec tr s o :
  plain_op o → sched_inv tr s → plain_inv tr s →
  plain_inv (tr ++ (exec s o).2) (exec s o).1.
Proof.
  intros Ho Hinv Hpl. pose proof Hpl as [Hs Hp Hx Hsort Hbd].
  destruct o as [t|p r|p|p|id|id|[?|]|sig]; simpl in *; try done.
  - by apply plain_schedule.
  - unfold run_settles. case_decide; [|by apply plain_silent].
    apply plain_silent; [by destruct r|by split].
  - unfold on_finally. destruct (list_find _ _) as [[i r]|] eqn:Ef; [|by apply plain_silent].
    case_decide; [|by apply plain_silent].
    apply list_find_Some in Ef as (Hi & Hrp & _).
    destruct Hinv as [_ _ [_ Hnd _] [Hb Hst Hlm]].
    apply delete_Permutation in Hi as Hd. rewrite Hd, fmap_cons in Hnd.
    apply NoDup_cons in Hnd as [Hnin _].
    assert (Hother : ∀ r', r' ∈ delete i (running s) → r_promise r' ≠ p).
    { intros r' Hr' Heq. apply Hnin. rewrite Hrp, <- Heq. by apply list_elem_of_fmap_2. }
    apply plain_pump; split; simpl; try done.
    + intros r' Hr' Hxr. rewrite (Hx r'), decide_False; [done|by apply Hother| |done].
      rewrite Hd. by right.
    + intros b. destruct (blockingTurn s) as [b'|]; [|done]. case_decide as Hne; [done|].
      intros [= ->]. specialize (Hb b eq_refl). rewrite Hd in Hb.
      apply elem_of_cons in Hb as [->|?]; [by destruct Hne|done].
  - unfold watchdog_fires. case_decide; [|by apply plain_silent].
    assert (Hw : ∀ b, plain_inv (tr ++ [EWarnStuckTurn p]) (watchdog_state s p b)).
    { intros b. apply plain_silent; [done|]. by split. }
    destruct (blockingTurn s) as [b|]; [|apply Hw]. case_decide; [|apply Hw].
    case_bool_decide; [apply Hw|].
    destruct (deactivateIfStuck (watchdog_state s p true)) as [s2 ev] eqn:Ed. simpl.
    change (EWarnStuckTurn p :: ev) with ([EWarnStuckTurn p] ++ ev). rewrite app_assoc.
    by eapply plain_deactivate.
  - rewrite app_nil_r. split; simpl; try done. rewrite Hs.
    case_decide; [by rewrite delete_empty|]. rewrite lookup_empty in *. simpl in *. lia.
  - apply plain_pump; [by split|]. by destruct Hinv as [_ _ _ []].
  - rewrite app_nil_r. by split.
Qed.

Lemma plain_new : plain_inv [] (new_scheduler None).
Proof. split; simpl; [done|done|by intros r ?%not_elem_of_nil|constructor|constructor]. Qed.

Lemma plain_run ops :
  Forall plain_op ops →
  plain_inv (run exec (new_scheduler None) ops).2 (run exec (new_scheduler None) ops).1.
Proof.
  intros Hops.
  assert (H : ∀ ops tr s, Forall plain_op ops → sched_inv tr s → plain_inv tr s →
    plain_inv (tr ++ (run exec s ops).2) (run exec s ops).1).
  { clear ops Hops. intros ops. induction ops as [|o ops IH]; intros tr s Hops Hinv Hpl; simpl.
    - by rewrite app_nil_r.
    - apply Forall_cons in Hops as [Ho Hops].
      pose proof (sched_exec_inv tr s o Hinv) as Hinv1. pose proof (plain_exec tr s o Ho Hinv Hpl) as Hpl1.
      destruct (exec s o) as [s1 ev1]. simpl in *. specialize (IH _ _ Hops Hinv1 Hpl1).
      revert IH. destruct (run exec s1 ops) as [s2 ev2]. simpl. by rewrite app_assoc. }
  apply (H ops [] _ Hops (new_scheduler_inv None) plain_new).
Qed.
End scheduler.

(** ** Properties *)

Section claims.
Context {Arg Value Reason : Type} (opts : TurnSchedulerOptions (Arg:=Arg) (Reason:=Reason)).

Definition reached (p : option (MayInterleavePredicate (Arg:=Arg)))
    (ops : list (Op (Arg:=Arg) (Value:=Value) (Reason:=Reason))) :=
  run (exec opts) (new_scheduler p) ops.

(** C3: no stranded turn. At every reachable state, whatever the options and
    the interleaving of arrivals, completions, timers and sections, no queued
    turn is admissible; so an idle activation has an empty queue, and a turn
    waits only while the rules really refuse it. *)
Theorem scheduler_no_stranded_turn p ops :
  let s := (reached p ops).1 in
  Forall (λ item, mayAdmit opts s (q_turn item) = false) (queue s) ∧
  (running s = [] → queue s = []).
Proof.
  destruct (run_sched_inv (Value:=Value) opts p ops) as [_ Hq _ _]. simpl. split; [exact Hq|].
  unfold quiescent in Hq. fold (reached p ops) in Hq. destruct (queue _) as [|x q]; [done|].
  intros Hr. apply Forall_cons in Hq as [Hf _]. unfold mayAdmit in Hf.
  by rewrite bool_decide_eq_true_2 in Hf.
Qed.

(** C4: the optimised scheduler is the plain one. From the start, over every
    sequence of operations, it makes the same calls of [run()], rejections and
    warnings in the same order, and comes to the same state, as the reference that on
    every arrival, completion, opened section and new predicate searches the whole
    queue from its head for a turn that [mayAdmit] accepts, again after each
    start, until there is none: judging only the new turn on its arrival, the
    single pass of [pump], its counters and its early exit lose and reorder
    nothing. *)
Theorem scheduler_equals_full_rescan p ops :
  run (exec opts) (new_scheduler p) ops = run (exec_reference (Value:=Value) opts) (new_scheduler p) ops.
Proof.
  cut (∀ ops tr s, sched_inv (Value:=Value) opts tr s → run (exec opts) s ops = run (exec_reference (Value:=Value) opts) s ops).
  { intros H. apply (H ops [] _ (new_scheduler_inv opts p)). }
  clear ops. intros ops. induction ops as [|o ops IH]; intros tr s Hs; simpl; [done|].
  rewrite <- (exec_equals_reference opts tr s o Hs).
  pose proof (sched_exec_inv opts tr s o Hs) as Hs1.
  destruct (exec opts s o) as [s1 ev]. simpl in Hs1. by rewrite (IH _ _ Hs1).
Qed.

(** Every call's promise settles exactly once or is still owed. Each
    promise handed out by [schedule] is either settled by exactly one
    [resolve]/[reject], or belongs to exactly one queued turn or one running
    turn whose [run()] has not settled. *)
Theorem scheduler_promises_settle_once p ops n :
  let s := (reached p ops).1 in
  let tr := (reached p ops).2 in
  (n < next_promise s)%nat →
  (count_occ Nat.eq_dec (settled tr) n +
   count_occ Nat.eq_dec (q_promise <$> queue s) n +
   count_occ Nat.eq_dec (in_flight (finished s) (running s)) n = 1)%nat.
Proof.
  pose proof (run_sched_inv (Value:=Value) opts p ops) as [_ _ [Hp _ _] _].
  intros s tr Hlt. fold (reached p ops) in Hp. fold s tr in Hp. simpl in Hp.
  rewrite <- Nat.add_assoc, <- !count_occ_app.
  rewrite (Permutation_count_occ Nat.eq_dec) in Hp. rewrite Hp.
  apply NoDup_count_occ'; [apply NoDup_ListNoDup, NoDup_seq|]. apply in_seq. lia.
Qed.

(** Single-threaded turns. On a grain that is not reentrant and declares
    no predicate or section, at most one exclusive turn (neither [readOnly]
    nor [alwaysInterleave]) runs at any time, and it is the blocking turn. *)
Theorem one_exclusive_turn ops :
  reentrant opts = false → Forall plain_op ops →
  let s := (reached None ops).1 in
  (length (filter (λ r, exclusive (r_turn r) = true) (running s)) ≤ 1)%nat ∧
  ∀ r, r ∈ running s → exclusive (r_turn r) = true → blockingTurn s = Some r.
Proof.
  intros Hre Hops s. destruct (plain_run opts Hre ops Hops) as [_ _ Hx _ _].
  split; [|exact Hx].
  destruct (run_sched_inv (Value:=Value) opts None ops) as [_ _ [_ Hnd _] _].
  fold (reached None ops) in Hx, Hnd. fold s in Hx, Hnd.
  apply NoDup_fmap_1 in Hnd. apply (NoDup_filter (λ r, exclusive (r_turn r) = true)) in Hnd.
  destruct (filter _ (running s)) as [|r1 [|r2 rs]] eqn:E; simpl; try lia.
  assert (Hin : ∀ r, r ∈ [r1; r2] → blockingTurn s = Some r).
  { intros r Hr. assert (Hr' : r ∈ filter (λ r, exclusive (r_turn r) = true) (running s))
      by (rewrite E; set_solver).
    apply list_elem_of_filter in Hr' as [? ?]. by apply Hx. }
  pose proof (Hin r1 ltac:(set_solver)) as H1. rewrite (Hin r2 ltac:(set_solver)) in H1.
  apply NoDup_cons in Hnd as [Hne%not_elem_of_cons _]. destruct Hne; congruence.
Qed.

(** Arrival order. On such a grain exclusive turns start in the order in
    which they were scheduled: the promises of the exclusive turns started so
    far, followed by those of the queued ones, are strictly increasing. *)
Theorem exclusive_turns_fifo ops :
  reentrant opts = false → Forall plain_op ops →
  let s := (reached None ops).1 in
  let tr := (reached None ops).2 in
  StronglySorted lt (exclusive_starts tr ++ exclusive_queue (queue s)).
Proof. intros Hre Hops. by destruct (plain_run opts Hre ops Hops). Qed.

(** A stuck activation refuses everything and the mailbox is bounded.
    Once the activation was declared stuck its queue is empty and every later
    [schedule] is rejected with the same reason; with a hard limit the queue
    never exceeds it. *)
Theorem stuck_and_limits p ops t :
  let s := (reached p ops).1 in
  (∀ r, stuck s = Some r → queue s = [] ∧
     (schedule (Value:=Value) opts s t).2 = [EReject (next_promise s) (StuckRejection r)]) ∧
  (∀ l, hardLimit opts = Some l →
     (length (queue s) ≤ l)%nat ∧
     (length (queue s) = l → stuck s = None →
      (schedule (Value:=Value) opts s t).2 = [EReject (next_promise s) (LimitExceeded l l)])).
Proof.
  destruct (run_sched_inv (Value:=Value) opts p ops) as [_ _ _ [_ Hst Hlm]].
  fold (reached p ops) in Hst, Hlm. simpl. split.
  - intros r Hr. split; [apply Hst; eauto|]. unfold schedule. simpl. by rewrite Hr.
  - intros l Hl. split; [by apply Hlm|]. intros Hlen Hno. unfold schedule. simpl.
    by rewrite Hno, Hl, Hlen, bool_decide_eq_true_2.
Qed.
End claims.

(** ** Concrete runs *)

Definition turn (ro ai : bool) : Turn (Arg:=unit) :=
  mkTurn (mkOptions ro ai) None (Some "m") None None.
Definition default_options : TurnSchedulerOptions (Arg:=unit) (Reason:=string) :=
  mkSchedulerOptions false false None (Some 2) (Some 10) (Some (λ _, "stuck")).

(** Two writes queue behind each other; the first completes. *)
Definition two_writes : list (Op (Arg:=unit) (Value:=unit) (Reason:=string)) :=
  [OpSchedule (turn false false); OpSchedule (turn false false);
   OpRunSettles 0 (inl tt); OpFinally 0].

Lemma two_writes_plain : Forall plain_op two_writes.
Proof. by repeat constructor. Qed.

Lemma scheduler_promises_settle_once_witness :
  let s := (reached default_options None two_writes).1 in
  let tr := (reached default_options None two_writes).2 in
  (1 < next_promise s)%nat ∧
  (count_occ Nat.eq_dec (settled tr) 1 +
   count_occ Nat.eq_dec (q_promise <$> queue s) 1 +
   count_occ Nat.eq_dec (in_flight (finished s) (running s)) 1 = 1)%nat.
Proof.
  assert (H : (1 < next_promise (reached default_options None two_writes).1)%nat)
    by (vm_compute; lia).
  split; [exact H|]. exact (scheduler_promises_settle_once default_options None two_writes 1 H).
Defined.

Lemma one_exclusive_turn_witness :
  let s := (reached default_options None two_writes).1 in
  blockingTurn s = Some (mkRunning (turn false false) 1 false) ∧
  (length (filter (λ r, exclusive (r_turn r) = true) (running s)) ≤ 1)%nat.
Proof.
  destruct (one_exclusive_turn default_options two_writes eq_refl two_writes_plain) as [H1 H2].
  split; [|exact H1]. apply H2; [|reflexivity]. vm_compute. left.
Defined.

Lemma exclusive_turns_fifo_witness :
  let s := (reached default_options None two_writes).1 in
  let tr := (reached default_options None two_writes).2 in
  exclusive_starts tr = [0; 1]%nat ∧
  StronglySorted lt (exclusive_starts tr ++ exclusive_queue (queue s)).
Proof.
  split; [reflexivity|].
  exact (exclusive_turns_fifo default_options two_writes eq_refl two_writes_plain).
Defined.

(** ** What the admission rules do not ensure

    A read-only turn admitted beside a read-only blocking turn is not itself
    the blocking turn. When the blocking one completes first, [blockingTurn]
    is unset while the other still runs, and an exclusive turn is started
    beside it. *)
Lemma exclusive_beside_read_only :
  let s := (reached default_options None
    [OpSchedule (turn true false); OpSchedule (turn true false);
     OpRunSettles 0 (inl tt); OpFinally 0; OpSchedule (turn false false)]).1 in
  r_promise <$> running s = [1; 2]%nat ∧
  blockingTurn s = Some (mkRunning (turn false false) 2 false).
Proof. vm_compute. by split. Qed.
