(* ===== verification/HashRing.v ===== *)
(** * The consistent-hash ring

    Models [packages/directory/src/consistent-hash-ring.ts] (the class
    [ConsistentHashRing]) and [packages/core/src/hash-ring.ts]. The ring is
    the sorted list of its virtual nodes; a hash is an unsigned 32-bit [Z]. *)
From Stdlib Require Import String.
From stdpp Require Import prelude gmap strings list sorting.
From S2P Require Import Prelude Ids.
Open Scope Z_scope.

(** ** Data and construction *)

Record RingNode := mkNode { node_hash : Z; node_silo : SiloAddress }.
#[export] Instance RingNode_eq_dec : EqDecision RingNode.
Proof. solve_decision. Defined.

Definition DEFAULT_VNODES : nat := 100.

(** The virtual nodes of one silo: the hash of [ringKey#v] for each [v]. *)
Definition vnodes_of (vnodes : nat) (silo : SiloAddress) : list RingNode :=
  (λ v, mkNode (stableHash32 (ringKey silo +:+ "#" +:+ bigint_toString (Z.of_nat v))) silo)
  <$> seq 0 vnodes.

(** The sort order of the constructor: hash, then the full silo address. *)
Definition node_ltb (a b : RingNode) : bool :=
  let d := node_hash a - node_hash b in
  bool_decide ((if decide (d = 0) then SiloAddress_compare (node_silo a) (node_silo b) else d) < 0).

Record ConsistentHashRing := mkRing { nodes : list RingNode; members : list SiloAddress }.

Definition new_ring (silos : list SiloAddress) (vnodes : nat) : ConsistentHashRing :=
  mkRing (sort_by node_ltb (silos ≫= vnodes_of vnodes)) silos.

Definition isEmpty (r : ConsistentHashRing) : bool := bool_decide (length (nodes r) = 0%nat).
Definition silos (r : ConsistentHashRing) : list SiloAddress := members r.

(** ** Lookup *)

(** The binary search of [firstAtOrAfter]; [hi - lo] iterations are enough
    since each one shrinks the interval. *)
Fixpoint binary_search (fuel : nat) (ns : list RingNode) (hash : Z) (lo hi : nat) : nat :=
  match fuel with
  | O => lo
  | S fuel' =>
      if decide (lo < hi)%nat then
        let mid := Nat.div2 (lo + hi) in
        match ns !! mid with
        | Some n =>
            if decide (node_hash n < hash) then binary_search fuel' ns hash (S mid) hi
            else binary_search fuel' ns hash lo mid
        | None => lo
        end
      else lo
  end.

Definition firstAtOrAfter (r : ConsistentHashRing) (hash : Z) : nat :=
  binary_search (length (nodes r)) (nodes r) hash 0 (length (nodes r)).

(** [owner]: [None] is the error thrown on an empty ring. *)
Definition owner (r : ConsistentHashRing) (hash : Z) : option SiloAddress :=
  if decide (length (nodes r) = 0%nat) then None
  else node_silo <$> nodes r !! (firstAtOrAfter r hash mod length (nodes r))%nat.

Definition ownerOf (r : ConsistentHashRing) (id : GrainId) : option SiloAddress :=
  owner r (getUniformHashCode id).

(** ** Ranges *)

Definition HashRange : Type := Z * Z.

(** The arc of the node at index [i]: from its hash to the next node's. *)
Definition arc (ns : list RingNode) (i : nat) : option HashRange :=
  n ← ns !! i;
  n' ← ns !! ((S i) mod length ns)%nat;
  Some (node_hash n, node_hash n').

Definition rangesFor (r : ConsistentHashRing) (silo : SiloAddress) : list HashRange :=
  omap (λ i, n ← nodes r !! i;
             if SiloAddress_equals (node_silo n) silo then arc (nodes r) i else None)
       (seq 0 (length (nodes r))).

Definition isHashInRange (hash begin end_ : Z) : bool :=
  if decide (begin ≤ end_) then bool_decide (begin ≤ hash) && bool_decide (hash < end_)
  else bool_decide (begin ≤ hash) || bool_decide (hash < end_).

Definition isHashInRanges (hash : Z) (ranges : list HashRange) : bool :=
  existsb (λ '(b, e), isHashInRange hash b e) ranges.

(** ** The order of the nodes *)

Definition node_le (a b : RingNode) : Prop := node_ltb b a = false.

Lemma node_ltb_lt a b :
  node_ltb a b = true ↔
  node_hash a < node_hash b ∨
  (node_hash a = node_hash b ∧ SiloAddress_compare (node_silo a) (node_silo b) < 0).
Proof. unfold node_ltb. rewrite bool_decide_eq_true. case_decide; lia. Qed.

Lemma node_ltb_false a b :
  node_ltb a b = false ↔
  node_hash b < node_hash a ∨
  (node_hash a = node_hash b ∧ SiloAddress_compare (node_silo b) (node_silo a) ≤ 0).
Proof.
  rewrite <- not_true_iff_false, node_ltb_lt, (SiloAddress_compare_opp (node_silo b)). lia.
Qed.

Lemma node_ltb_asym a b : node_ltb a b = true → node_ltb b a = false.
Proof. rewrite node_ltb_lt, node_ltb_false. lia. Qed.

Lemma node_ltb_cotrans a b c : node_ltb a c = true → node_ltb a b = true ∨ node_ltb b c = true.
Proof.
  rewrite !node_ltb_lt. intros H.
  pose proof (SiloAddress_compare_trans (node_silo b) (node_silo c) (node_silo a)) as Ht.
  pose proof (SiloAddress_compare_opp (node_silo a) (node_silo b)).
  pose proof (SiloAddress_compare_opp (node_silo b) (node_silo c)).
  pose proof (SiloAddress_compare_opp (node_silo c) (node_silo a)).
  destruct (decide (SiloAddress_compare (node_silo a) (node_silo b) = 0)) as [Ez|Ez].
  { apply SiloAddress_compare_zero in Ez. rewrite Ez in *. lia. }
  destruct (decide (SiloAddress_compare (node_silo b) (node_silo c) = 0)) as [Ez'|Ez'].
  { apply SiloAddress_compare_zero in Ez'. rewrite Ez' in *. lia. }
  pose proof (SiloAddress_compare_trans (node_silo c) (node_silo b) (node_silo a)). lia.
Qed.

#[export] Instance node_le_antisym : AntiSymm (=) node_le.
Proof.
  intros a b. unfold node_le. rewrite !node_ltb_false. intros H1 H2.
  pose proof (SiloAddress_compare_opp (node_silo a) (node_silo b)).
  assert (SiloAddress_compare (node_silo a) (node_silo b) = 0) as Hz%SiloAddress_compare_zero by lia.
  destruct a, b; simpl in *. f_equal; [lia|done].
Qed.

#[export] Instance node_le_refl : Reflexive node_le.
Proof.
  intros a. apply node_ltb_false.
  pose proof (SiloAddress_compare_opp (node_silo a) (node_silo a)). lia.
Qed.

#[export] Instance node_le_trans : Transitive node_le.
Proof.
  intros a b c. unfold node_le. intros H1 H2. destruct (node_ltb c a) eqn:E; [|done].
  destruct (node_ltb_cotrans _ b _ E); congruence.
Qed.

Lemma ring_sorted l : StronglySorted node_le (sort_by node_ltb l).
Proof. apply sort_by_sorted; [apply node_ltb_cotrans|apply node_ltb_asym]. Qed.

(** The sorted ring is a function of the multiset of nodes. *)
Lemma sort_nodes_perm l1 l2 : l1 ≡ₚ l2 → sort_by node_ltb l1 = sort_by node_ltb l2.
Proof.
  intros Hp. apply (StronglySorted_unique node_le); try apply ring_sorted.
  by rewrite !sort_by_perm.
Qed.

(** ** The binary search finds the first node at or after the hash *)

Definition first_at_or_after (ns : list RingNode) (hash : Z) (i : nat) : Prop :=
  (∀ j n, (j < i)%nat → ns !! j = Some n → node_hash n < hash) ∧
  (∀ j n, (i ≤ j)%nat → ns !! j = Some n → hash ≤ node_hash n).

Lemma node_le_hash a b : node_le a b → node_hash a ≤ node_hash b.
Proof. unfold node_le. rewrite node_ltb_false. lia. Qed.

Lemma sorted_lookup_le ns i j a b :
  StronglySorted node_le ns → ns !! i = Some a → ns !! j = Some b → (i ≤ j)%nat →
  node_hash a ≤ node_hash b.
Proof.
  intros Hs. revert i j. induction Hs as [|x ns Hs IH Hx]; intros i j Hi Hj Hij; [done|].
  destruct i as [|i], j as [|j]; simpl in *; try lia.
  - by simplify_eq.
  - simplify_eq. apply node_le_hash. rewrite Forall_forall in Hx.
    apply Hx. by eapply list_elem_of_lookup_2.
  - eapply IH; [done|done|lia].
Qed.

Lemma binary_search_spec fuel : ∀ ns hash lo hi,
  StronglySorted node_le ns → (lo ≤ hi ≤ length ns)%nat → (hi - lo ≤ fuel)%nat →
  (∀ j n, (j < lo)%nat → ns !! j = Some n → node_hash n < hash) →
  (∀ j n, (hi ≤ j)%nat → ns !! j = Some n → hash ≤ node_hash n) →
  (binary_search fuel ns hash lo hi ≤ length ns)%nat ∧
  first_at_or_after ns hash (binary_search fuel ns hash lo hi).
Proof.
  induction fuel as [|fuel IH]; intros ns hash lo hi Hs Hlen Hf Hlo Hhi; simpl.
  { assert (lo = hi) as -> by lia. split; [lia|by split]. }
  case_decide as Hlt; [|assert (lo = hi) as -> by lia; split; [lia|by split]].
  assert (Hmid : (lo ≤ Nat.div2 (lo + hi) < hi)%nat).
  { rewrite Nat.div2_div. split; [apply Nat.div_le_lower_bound|apply Nat.Div0.div_lt_upper_bound]; lia. }
  destruct (lookup_lt_is_Some_2 ns (Nat.div2 (lo + hi))) as [n Hn]; [lia|]. rewrite Hn.
  case_decide as Hh.
  - apply IH; [done|lia|lia| |done]. intros j n' Hj Hn'.
    assert (node_hash n' ≤ node_hash n) by (eapply sorted_lookup_le; [done|exact Hn'|exact Hn|lia]).
    lia.
  - apply IH; [done|lia|lia|done|]. intros j n' Hj Hn'.
    assert (node_hash n ≤ node_hash n') by (eapply sorted_lookup_le; [done|exact Hn|exact Hn'|lia]).
    lia.
Qed.

(** ** What [owner] picks, as a fact about the set of nodes *)

(** The least node at or after the hash, or the least node overall when there
    is none. *)
Definition picks (l : list RingNode) (hash : Z) (m : RingNode) : Prop :=
  m ∈ l ∧
  ((hash ≤ node_hash m ∧ ∀ x, x ∈ l → hash ≤ node_hash x → node_le m x) ∨
   ((∀ x, x ∈ l → node_hash x < hash) ∧ ∀ x, x ∈ l → node_le m x)).

Lemma picks_unique l hash m1 m2 : picks l hash m1 → picks l hash m2 → m1 = m2.
Proof.
  intros [H1 [[Hh1 Hm1]|[Hn1 Hm1]]] [H2 [[Hh2 Hm2]|[Hn2 Hm2]]]; apply (anti_symm node_le); auto;
    try (specialize (Hn2 _ H1); lia); try (specialize (Hn1 _ H2); lia).
Qed.

Lemma picks_ext l1 l2 hash m : (∀ x, x ∈ l1 ↔ x ∈ l2) → picks l1 hash m → picks l2 hash m.
Proof. intros Hl. unfold picks. setoid_rewrite Hl. done. Qed.

(** Dropping nodes other than the picked one does not change the pick. *)
Lemma picks_subset l1 l2 hash m :
  (∀ x, x ∈ l2 → x ∈ l1) → m ∈ l2 → picks l1 hash m → picks l2 hash m.
Proof. intros Hl Hm [_ [[? ?]|[? ?]]]; split; auto. Qed.

Lemma sorted_head_le ns i a b :
  StronglySorted node_le ns → ns !! i = Some a → b ∈ drop i ns → node_le a b.
Proof.
  intros Hs. revert i. induction Hs as [|x ns Hs IH Hx]; intros i; [done|].
  destruct i as [|i]; simpl; [|apply IH].
  intros [= <-] [->|Hb]%elem_of_cons; [done|]. rewrite Forall_forall in Hx. by apply Hx.
Qed.

Lemma firstAtOrAfter_spec r hash :
  StronglySorted node_le (nodes r) →
  (firstAtOrAfter r hash ≤ length (nodes r))%nat ∧
  first_at_or_after (nodes r) hash (firstAtOrAfter r hash).
Proof.
  intros Hs. apply binary_search_spec; [done|lia|lia|intros; lia|].
  intros j n Hj Hn. apply lookup_lt_Some in Hn. lia.
Qed.

Lemma owner_nonempty r hash : isEmpty r = false → is_Some (owner r hash).
Proof.
  unfold isEmpty, owner. rewrite bool_decide_eq_false. intros Hne. rewrite decide_False by done.
  apply fmap_is_Some, lookup_lt_is_Some_2, Nat.mod_upper_bound, Hne.
Qed.

Lemma owner_picks r hash :
  StronglySorted node_le (nodes r) → nodes r ≠ [] →
  ∃ m, picks (nodes r) hash m ∧ owner r hash = Some (node_silo m).
Proof.
  intros Hs Hne. destruct (firstAtOrAfter_spec r hash Hs) as [Hle [Hbefore Hafter]].
  unfold owner. destruct (nodes r) as [|n0 ns0] eqn:E; [done|]. rewrite <- E in *.
  rewrite decide_False by (rewrite E; simpl; lia).
  assert (Hin : ∀ x, x ∈ nodes r → ∃ j, nodes r !! j = Some x) by (intros x; apply list_elem_of_lookup_1).
  destruct (decide (firstAtOrAfter r hash = length (nodes r))) as [Heq|Hneq].
  - assert (Hn0 : nodes r !! 0%nat = Some n0) by (by rewrite E).
    rewrite Heq, Nat.Div0.mod_same, Hn0. exists n0. split; [|done].
    split; [rewrite E; left|right]. split.
    + intros x [j Hj]%Hin. eapply Hbefore; [|exact Hj]. apply lookup_lt_Some in Hj. lia.
    + intros x Hx. eapply (sorted_head_le _ 0); [exact Hs|by rewrite E|done].
  - rewrite Nat.mod_small by lia.
    destruct (lookup_lt_is_Some_2 (nodes r) (firstAtOrAfter r hash)) as [m Hm]; [lia|].
    exists m. rewrite Hm. split; [|done]. split; [by eapply list_elem_of_lookup_2|left]. split.
    + eapply Hafter; [|exact Hm]. lia.
    + intros x [j Hj]%Hin Hx. eapply sorted_head_le; [exact Hs|exact Hm|].
      destruct (decide (j < firstAtOrAfter r hash)%nat) as [Hlt|Hge].
      { specialize (Hbefore j x Hlt Hj). lia. }
      apply list_elem_of_lookup. exists (j - firstAtOrAfter r hash)%nat.
      rewrite lookup_drop. by replace (_ + _)%nat with j by lia.
Qed.

Lemma new_ring_sorted S v : StronglySorted node_le (nodes (new_ring S v)).
Proof. apply ring_sorted. Qed.

Lemma elem_of_new_ring S v n : n ∈ nodes (new_ring S v) ↔ n ∈ (S ≫= vnodes_of v).
Proof. simpl. by rewrite (sort_by_perm node_ltb). Qed.

Lemma vnodes_of_silo v s n : n ∈ vnodes_of v s → node_silo n = s.
Proof. unfold vnodes_of. by intros (? & -> & _)%list_elem_of_fmap. Qed.

Lemma nodes_nonempty S v : S ≠ [] → (0 < v)%nat → nodes (new_ring S v) ≠ [].
Proof.
  intros HS Hv Hnil. destruct S as [|s S]; [done|]. destruct v as [|v]; [lia|].
  assert (Hin : mkNode (stableHash32 (ringKey s +:+ "#" +:+ bigint_toString (Z.of_nat 0))) s
    ∈ nodes (new_ring (s :: S) (Datatypes.S v))).
  { apply elem_of_new_ring. rewrite bind_cons, elem_of_app. left. left. }
  rewrite Hnil in Hin. by apply not_elem_of_nil in Hin.
Qed.

(** ** The arcs *)

Section arcs.
Context (ns : list RingNode) (hash : Z) (k : nat) (first last : RingNode).
Context (Hs : StronglySorted node_le ns) (Hk : (k ≤ length ns)%nat)
  (Hfaa : first_at_or_after ns (hash + 1) k)
  (Hfirst : ns !! 0%nat = Some first) (Hlast : ns !! (length ns - 1)%nat = Some last)
  (Hfl : node_hash first < node_hash last).

Lemma arcs_nonempty : (0 < length ns)%nat.
Proof using All. apply lookup_lt_Some in Hfirst. lia. Qed.

Lemma last_arc : arc ns (length ns - 1) = Some (node_hash last, node_hash first).
Proof using All.
  pose proof arcs_nonempty. unfold arc. rewrite Hlast. simpl.
  replace (S (length ns - 1)) with (length ns) by lia. by rewrite Nat.Div0.mod_same, Hfirst.
Qed.

Lemma inner_arc j x y :
  ns !! j = Some x → ns !! S j = Some y → arc ns j = Some (node_hash x, node_hash y).
Proof.
  intros Hx Hy. unfold arc. rewrite Hx. simpl. apply lookup_lt_Some in Hy as Hlt.
  by rewrite Nat.mod_small, Hy.
Qed.

(** An arc that holds [hash] ends at the first node strictly after it. *)
Lemma arc_holds j b e :
  arc ns j = Some (b, e) → isHashInRange hash b e = true →
  (S j < length ns ∧ k = S j)%nat ∨ (S j = length ns ∧ (k = 0 ∨ k = length ns))%nat.
Proof using All.
  destruct Hfaa as [Hbef Haft]. intros Harc Hin.
  destruct (decide (S j = length ns)) as [Hj|Hj].
  - right. split; [done|]. replace j with (length ns - 1)%nat in Harc by lia.
    rewrite last_arc in Harc. simplify_eq. unfold isHashInRange in Hin.
    rewrite decide_False, orb_true_iff, !bool_decide_eq_true in Hin by lia. destruct Hin as [Hin|Hin].
    + right. destruct (decide (k < length ns)%nat) as [Hlt|]; [|lia].
      specialize (Haft (length ns - 1)%nat last ltac:(lia) Hlast). lia.
    + left. destruct (decide (0 < k)%nat) as [Hlt|]; [|lia].
      specialize (Hbef 0%nat first Hlt Hfirst). lia.
  - left. assert (Hxj : (j < length ns)%nat).
    { unfold arc in Harc. destruct (ns !! j) eqn:E; [|done]. by apply lookup_lt_Some in E. }
    destruct (lookup_lt_is_Some_2 ns j) as [x Hx]; [lia|].
    destruct (lookup_lt_is_Some_2 ns (S j)) as [y Hy]; [lia|].
    rewrite (inner_arc j x y Hx Hy) in Harc. simplify_eq.
    assert (node_hash x ≤ node_hash y) by (eapply sorted_lookup_le; [done|exact Hx|exact Hy|lia]).
    unfold isHashInRange in Hin.
    rewrite decide_True, andb_true_iff, !bool_decide_eq_true in Hin by lia. split; [lia|].
    destruct (decide (k ≤ j)%nat) as [Hkj|]; [specialize (Haft j x Hkj Hx); lia|].
    destruct (decide (S j < k)%nat) as [Hkj|]; [specialize (Hbef (S j) y Hkj Hy); lia|]. lia.
Qed.

Lemma arc_exists :
  ∃ i, (i < length ns)%nat ∧ ∃ b e, arc ns i = Some (b, e) ∧ isHashInRange hash b e = true.
Proof using All.
  pose proof arcs_nonempty. destruct Hfaa as [Hbef Haft].
  destruct (decide (k = 0 ∨ k = length ns)%nat) as [Hend|Hmid].
  - exists (length ns - 1)%nat. split; [lia|]. eexists _, _. split; [exact last_arc|].
    unfold isHashInRange. rewrite decide_False, orb_true_iff, !bool_decide_eq_true by lia.
    destruct Hend as [Hk0|Hkn].
    + right. specialize (Haft 0%nat first ltac:(lia) Hfirst). lia.
    + left. specialize (Hbef (length ns - 1)%nat last ltac:(lia) Hlast). lia.
  - destruct (lookup_lt_is_Some_2 ns (k - 1)) as [x Hx]; [lia|].
    destruct (lookup_lt_is_Some_2 ns k) as [y Hy]; [lia|].
    exists (k - 1)%nat. split; [lia|]. exists (node_hash x), (node_hash y). split.
    { apply inner_arc; [done|]. by replace (S (k - 1)) with k by lia. }
    specialize (Hbef (k - 1)%nat x ltac:(lia) Hx). specialize (Haft k y ltac:(lia) Hy).
    unfold isHashInRange. rewrite decide_True, andb_true_iff, !bool_decide_eq_true by lia. lia.
Qed.
End arcs.

(** Exactly one arc holds [hash], when the ring has two distinct hashes. *)
Lemma arc_index ns hash :
  StronglySorted node_le ns →
  (∃ a b, a ∈ ns ∧ b ∈ ns ∧ node_hash a < node_hash b) →
  ∃ i, (i < length ns)%nat ∧
    (∃ b e, arc ns i = Some (b, e) ∧ isHashInRange hash b e = true) ∧
    ∀ j b e, arc ns j = Some (b, e) → isHashInRange hash b e = true → j = i.
Proof.
  intros Hs (a & b & [ia Ha]%list_elem_of_lookup_1 & [ib Hb]%list_elem_of_lookup_1 & Hab).
  apply lookup_lt_Some in Ha as Hia. apply lookup_lt_Some in Hb as Hib.
  destruct (firstAtOrAfter_spec (mkRing ns []) (hash + 1) Hs) as [Hk Hfaa]. simpl in *.
  destruct (lookup_lt_is_Some_2 ns 0) as [first Hfirst]; [lia|].
  destruct (lookup_lt_is_Some_2 ns (length ns - 1)) as [last Hlast]; [lia|].
  assert (Hfl : node_hash first < node_hash last).
  { assert (node_hash first ≤ node_hash a) by (eapply sorted_lookup_le; [done|exact Hfirst|exact Ha|lia]).
    assert (node_hash b ≤ node_hash last) by (eapply sorted_lookup_le; [done|exact Hb|exact Hlast|lia]). lia. }
  destruct (arc_exists ns hash _ first last Hs Hk Hfaa Hfirst Hlast Hfl) as (i & Hi & b' & e' & H1 & H2).
  exists i. split; [done|]. split; [eauto|]. intros j bj ej Hj1 Hj2.
  destruct (arc_holds ns hash _ first last Hs Hk Hfaa Hfirst Hlast Hfl i b' e' H1 H2),
    (arc_holds ns hash _ first last Hs Hk Hfaa Hfirst Hlast Hfl j bj ej Hj1 Hj2); lia.
Qed.

Lemma elem_of_rangesFor r s hash :
  isHashInRanges hash (rangesFor r s) = true ↔
  ∃ i n b e, nodes r !! i = Some n ∧ node_silo n = s ∧
    arc (nodes r) i = Some (b, e) ∧ isHashInRange hash b e = true.
Proof.
  unfold isHashInRanges, rangesFor. rewrite existsb_exists. split.
  - intros ([b e] & Hin & Hr). apply list_elem_of_In, list_elem_of_omap in Hin as (i & _ & Hi).
    destruct (nodes r !! i) as [n|] eqn:Hn; simpl in Hi; [|done].
    destruct (SiloAddress_equals _ _) eqn:Heq; [|done]. apply SiloAddress_equals_iff in Heq.
    eauto 10.
  - intros (i & n & b & e & Hn & Hs & Harc & Hr). exists (b, e). split; [|done].
    apply list_elem_of_In, list_elem_of_omap. exists i. split.
    + apply elem_of_seq. apply lookup_lt_Some in Hn. lia.
    + rewrite Hn. simpl. apply SiloAddress_equals_iff in Hs. by rewrite Hs.
Qed.

(** ** Properties *)

(** One owner per hash, agreed on by every silo. On a ring of at least
    one silo and one virtual node every hash has an owner, a member; and two
    rings built from the same silos in any order agree on the owner of every
    hash and on the arcs of every silo. *)
Theorem ring_owner_agreed S1 S2 v hash :
  S1 ≡ₚ S2 → S1 ≠ [] → (0 < v)%nat →
  (∃ s, owner (new_ring S1 v) hash = Some s ∧ s ∈ S1) ∧
  owner (new_ring S1 v) hash = owner (new_ring S2 v) hash ∧
  (∀ s, rangesFor (new_ring S1 v) s = rangesFor (new_ring S2 v) s).
Proof.
  intros Hp HS Hv.
  assert (Hn : nodes (new_ring S1 v) = nodes (new_ring S2 v)).
  { simpl. apply sort_nodes_perm. by rewrite Hp. }
  split; [|by unfold owner, firstAtOrAfter, rangesFor; rewrite Hn].
  destruct (owner_picks (new_ring S1 v) hash) as (m & [Hm _] & Ho);
    [apply new_ring_sorted|by apply nodes_nonempty|].
  exists (node_silo m). split; [done|].
  apply elem_of_new_ring, list_elem_of_bind in Hm as (s & Hs & Hin).
  by rewrite (vnodes_of_silo _ _ _ Hs).
Qed.

(** Minimal reshuffle. When a silo joins, every hash keeps its owner or
    moves to the newcomer; seen the other way, when a silo leaves only the
    hashes it owned move. *)
Theorem ring_minimal_reshuffle S s v hash o :
  S ≠ [] → owner (new_ring (s :: S) v) hash = Some o →
  o = s ∨ owner (new_ring S v) hash = Some o.
Proof.
  intros HS Ho. destruct (decide (v = 0%nat)) as [->|Hv].
  { unfold owner in Ho. simpl in Ho.
    assert (Hnil : ∀ l, l ≫= vnodes_of 0 = []) by (by intros l; induction l).
    by rewrite Hnil in Ho. }
  destruct (owner_picks (new_ring (s :: S) v) hash) as (m & Hm & Ho');
    [apply new_ring_sorted|apply nodes_nonempty; [done|lia]|].
  destruct (owner_picks (new_ring S v) hash) as (m' & Hm' & Ho'');
    [apply new_ring_sorted|apply nodes_nonempty; [done|lia]|].
  rewrite Ho in Ho'. simplify_eq. pose proof Hm as [Hin _].
  apply elem_of_new_ring in Hin. rewrite bind_cons, elem_of_app in Hin.
  destruct Hin as [Hin|Hin]; [left; by eapply vnodes_of_silo|right].
  assert (Hold : picks (nodes (new_ring S v)) hash m).
  { eapply picks_subset; [| |exact Hm].
    - intros x. rewrite !elem_of_new_ring, bind_cons, elem_of_app. by right.
    - by apply elem_of_new_ring. }
  by rewrite Ho'', (picks_unique _ _ _ _ Hold Hm').
Qed.

(** The arcs tile the hash space. On a ring with two distinct node
    hashes every hash lies in the arcs of exactly one silo. *)
Theorem ring_arcs_tile S v hash :
  (∃ a b, a ∈ nodes (new_ring S v) ∧ b ∈ nodes (new_ring S v) ∧ node_hash a < node_hash b) →
  ∃ s, s ∈ S ∧ isHashInRanges hash (rangesFor (new_ring S v) s) = true ∧
    ∀ s', isHashInRanges hash (rangesFor (new_ring S v) s') = true → s' = s.
Proof.
  intros Hab. destruct (arc_index _ hash (new_ring_sorted S v) Hab) as (i & Hi & (b & e & H1 & H2) & Hu).
  destruct (lookup_lt_is_Some_2 _ _ Hi) as [n Hn]. exists (node_silo n). split_and!.
  - apply list_elem_of_lookup_2, elem_of_new_ring, list_elem_of_bind in Hn as (s & Hs & Hin).
    by rewrite (vnodes_of_silo _ _ _ Hs).
  - apply elem_of_rangesFor. eauto 10.
  - intros s' (j & n' & b' & e' & Hn' & <- & Hj1 & Hj2)%elem_of_rangesFor.
    rewrite (Hu _ _ _ Hj1 Hj2) in Hn'. by simplify_eq.
Qed.

(** ** Concrete rings *)

Definition silo_a : SiloAddress := mkSilo "silo-0" "u0" "10.0.0.1:1".
Definition silo_b : SiloAddress := mkSilo "silo-1" "u1" "10.0.0.2:1".

Lemma ring_owner_agreed_witness :
  (∃ s, owner (new_ring [silo_a; silo_b] 2) 77 = Some s ∧ s ∈ [silo_a; silo_b]) ∧
  owner (new_ring [silo_a; silo_b] 2) 77 = owner (new_ring [silo_b; silo_a] 2) 77 ∧
  (∀ s, rangesFor (new_ring [silo_a; silo_b] 2) s = rangesFor (new_ring [silo_b; silo_a] 2) s).
Proof.
  apply (ring_owner_agreed [silo_a; silo_b] [silo_b; silo_a] 2 77);
    [constructor|discriminate|lia].
Defined.

Lemma ring_minimal_reshuffle_witness :
  owner (new_ring [silo_a; silo_b] 2) 0 = Some silo_b ∧
  (silo_b = silo_a ∨ owner (new_ring [silo_b] 2) 0 = Some silo_b).
Proof.
  assert (H : owner (new_ring [silo_a; silo_b] 2) 0 = Some silo_b) by (vm_compute; reflexivity).
  split; [exact H|]. apply (ring_minimal_reshuffle [silo_b] silo_a 2 0 silo_b); [discriminate|exact H].
Defined.

Lemma ring_arcs_tile_witness :
  ∃ s, s ∈ [silo_a; silo_b] ∧ isHashInRanges 77 (rangesFor (new_ring [silo_a; silo_b] 1) s) = true ∧
    ∀ s', isHashInRanges 77 (rangesFor (new_ring [silo_a; silo_b] 1) s') = true → s' = s.
Proof.
  apply (ring_arcs_tile [silo_a; silo_b] 1 77).
  exists (mkNode (stableHash32 "silo-0#0") silo_a), (mkNode (stableHash32 "silo-1#0") silo_b).
  split_and!; [| |vm_compute; reflexivity].
  - apply elem_of_new_ring. left.
  - apply elem_of_new_ring. right. left.
Defined.

(** The arcs of [rangesFor] start at a silo's nodes, while [owner] assigns the
    hashes up to and including a node to it: between two nodes the two
    disagree. *)
Lemma owner_and_ranges_differ :
  let r := new_ring [silo_a; silo_b] 1 in
  owner r 0 ≠ None ∧
  ∃ s, owner r 0 = Some s ∧ isHashInRanges 0 (rangesFor r s) = false.
Proof. vm_compute. split; [discriminate|]. eexists. split; reflexivity. Qed.

(** A ring with a single node owns every hash, but its only arc is empty. *)
Lemma single_node_arc_empty :
  owner (new_ring [silo_a] 1) 5 = Some silo_a ∧
  isHashInRanges 5 (rangesFor (new_ring [silo_a] 1) silo_a) = false.
Proof. vm_compute. split; reflexivity. Qed.
