(* ===== verification/Directory.v ===== *)
(** * The grain directory

    Models [packages/directory/src/local-directory-partition.ts]
    (LocalDirectoryPartition), [location-cache.ts] (LocationCache) and
    [distributed-grain-directory.ts] (DistributedGrainDirectory), over the
    ring of [HashRing]. *)
From Stdlib Require Import String.
From stdpp Require Import prelude gmap strings list.
From S2P Require Import Prelude JsMap Ids HashRing.
Open Scope Z_scope.

(** ** The local partition *)

Module Partition.
(** The entries, keyed by the printed grain id, in insertion order. *)
Abbreviation t := (list (string * GrainAddress)) (only parsing).

Section partition.
(** The current membership view. *)
Context (isSiloLive : SiloAddress → bool).

Definition size (p : t) : nat := length p.

Definition lookup (p : t) (id : GrainId) : option GrainAddress :=
  match jm_get (GrainId_toString id) p with
  | Some existing => if isSiloLive (addr_silo existing) then Some existing else None
  | None => None
  end.

Definition register (p : t) (addr : GrainAddress) (previous : option GrainAddress)
    : t * GrainAddress :=
  let key := GrainId_toString (addr_grainId addr) in
  match jm_get key p with
  | None => (jm_set key addr p, addr)
  | Some existing =>
      if negb (isSiloLive (addr_silo existing)) then (jm_set key addr p, addr)
      else match previous with
           | Some prev =>
               if grainAddressEquals existing prev then (jm_set key addr p, addr)
               else (p, existing)
           | None => (p, existing)
           end
  end.

Definition unregister (p : t) (addr : GrainAddress) : t :=
  let key := GrainId_toString (addr_grainId addr) in
  match jm_get key p with
  | Some existing => if grainAddressEquals existing addr then jm_delete key p else p
  | None => p
  end.

Definition unregisterSilo (p : t) (silo : SiloAddress) : t :=
  filter (λ kv, SiloAddress_equals (addr_silo kv.2) silo = false) p.

Inductive Decision3 := Keep | Drop | Handoff.

#[export] Instance Decision3_eq_dec : EqDecision Decision3.
Proof. solve_decision. Defined.

(** [drain]: one pass, the entries kept and those handed off, in order. *)
Fixpoint drain (p : t) (classify : GrainAddress → Decision3) : t * list GrainAddress :=
  match p with
  | [] => ([], [])
  | (key, entry) :: p' =>
      let '(kept, handoff) := drain p' classify in
      match classify entry with
      | Keep => ((key, entry) :: kept, handoff)
      | Drop => (kept, handoff)
      | Handoff => (kept, entry :: handoff)
      end
  end.

Fixpoint acceptHandoff (p : t) (entries : list GrainAddress) (isOwnedHere : GrainAddress → bool) : t :=
  match entries with
  | [] => p
  | e :: rest => acceptHandoff (if isOwnedHere e then (register p e None).1 else p) rest isOwnedHere
  end.

Definition entriesIn (p : t) (predicate : GrainAddress → bool) : list GrainAddress :=
  filter (λ e, predicate e = true) (jm_values p).

(** ** Invariant: keys are distinct and each entry sits under its own id. *)
Definition wf (p : t) : Prop :=
  jm_ok p ∧ ∀ k a, jm_get k p = Some a → k = GrainId_toString (addr_grainId a).

Lemma wf_set p a : wf p → wf (jm_set (GrainId_toString (addr_grainId a)) a p).
Proof.
  intros [Hok Hk]. split; [by apply jm_ok_set|]. intros k b. rewrite jm_get_set.
  case_decide; [by intros [= <-]|apply Hk].
Qed.

Lemma wf_register p a prev : wf p → wf (register p a prev).1.
Proof.
  intros Hwf. pose proof (wf_set p a Hwf). unfold register. repeat case_match; done.
Qed.

Lemma wf_filter (P : string * GrainAddress → Prop) `{∀ x, Decision (P x)} p :
  wf p → wf (filter P p).
Proof.
  intros [Hok Hk]. split; [by apply jm_ok_filter|]. intros k a. rewrite jm_get_filter by done.
  destruct (jm_get k p) as [b|] eqn:E; simpl; [|done]. case_decide; [|done].
  intros [= <-]. by apply Hk.
Qed.

Lemma wf_unregister p a : wf p → wf (unregister p a).
Proof.
  intros Hwf. unfold unregister. repeat case_match; try done. by apply wf_filter.
Qed.

Lemma drain_filter p classify :
  drain p classify =
    (filter (λ kv, classify kv.2 = Keep) p,
     filter (λ e, classify e = Handoff) (jm_values p)).
Proof.
  induction p as [|[k e] p IH]; [done|]. cbn [drain]. rewrite IH.
  change (jm_values ((k, e) :: p)) with (e :: jm_values p). rewrite !filter_cons. simpl.
  destruct (classify e); repeat (rewrite decide_True by done || rewrite decide_False by done); done.
Qed.

Lemma wf_drain p classify : wf p → wf (drain p classify).1.
Proof. intros Hwf. rewrite drain_filter. by apply wf_filter. Qed.

Lemma register_get_ne p a prev k :
  k ≠ GrainId_toString (addr_grainId a) → jm_get k (register p a prev).1 = jm_get k p.
Proof. intros Hk. unfold register. repeat case_match; simpl; try done; by rewrite jm_get_set_ne. Qed.

(** A live entry is never overwritten by a plain registration. *)
Lemma register_live p a e :
  jm_get (GrainId_toString (addr_grainId a)) p = Some e → isSiloLive (addr_silo e) = true →
  register p a None = (p, e).
Proof. intros He Hl. unfold register. by rewrite He, Hl. Qed.

Lemma accept_get_other p entries own k :
  (∀ e, e ∈ entries → GrainId_toString (addr_grainId e) ≠ k) →
  jm_get k (acceptHandoff p entries own) = jm_get k p.
Proof.
  revert p; induction entries as [|e rest IH]; intros p Hne; simpl; [done|].
  rewrite IH by (intros; apply Hne; by right).
  destruct (own e); [|done]. apply register_get_ne. intros ->. by apply (Hne e); [left|].
Qed.

Lemma accept_keeps_live p entries own k e :
  jm_get k p = Some e → isSiloLive (addr_silo e) = true →
  jm_get k (acceptHandoff p entries own) = Some e.
Proof.
  revert p; induction entries as [|e' rest IH]; intros p He Hl; simpl; [done|].
  apply IH; [|done]. destruct (own e'); [|done].
  destruct (decide (k = GrainId_toString (addr_grainId e'))) as [->|Hk].
  - by rewrite (register_live _ _ _ He Hl).
  - by rewrite register_get_ne.
Qed.

Lemma register_get p a prev :
  jm_get (GrainId_toString (addr_grainId a)) (register p a prev).1 = Some (register p a prev).2.
Proof.
  unfold register. destruct (jm_get _ p) as [e|] eqn:E; simpl; [|by rewrite jm_get_set_eq].
  repeat case_match; simpl; rewrite ?jm_get_set_eq; done.
Qed.

(** Plain registrations, one after the other, with the winner each is told. *)
Fixpoint register_all (p : t) (addrs : list GrainAddress) : t * list GrainAddress :=
  match addrs with
  | [] => (p, [])
  | a :: rest =>
      let '(p1, win) := register p a None in
      let '(p2, wins) := register_all p1 rest in
      (p2, win :: wins)
  end.

Lemma register_all_live id addrs : ∀ p e,
  jm_get (GrainId_toString id) p = Some e → isSiloLive (addr_silo e) = true →
  Forall (λ a, addr_grainId a = id) addrs →
  register_all p addrs = (p, (λ _, e) <$> addrs).
Proof.
  induction addrs as [|a rest IH]; intros p e He Hl Hids; [done|].
  apply Forall_cons in Hids as [<- Hids]. cbn [register_all].
  rewrite (register_live _ _ _ He Hl), (IH _ _ He Hl Hids). done.
Qed.

Lemma wf_accept p entries own : wf p → wf (acceptHandoff p entries own).
Proof.
  revert p; induction entries as [|e rest IH]; intros p Hp; simpl; [done|].
  apply IH. destruct (own e); [by apply wf_register|done].
Qed.

Lemma accept_adds p entries own e :
  (∀ a b, a ∈ entries → b ∈ entries →
    GrainId_toString (addr_grainId a) = GrainId_toString (addr_grainId b) → a = b) →
  e ∈ entries → own e = true → lookup p (addr_grainId e) = None →
  jm_get (GrainId_toString (addr_grainId e)) (acceptHandoff p entries own) = Some e.
Proof.
  revert p; induction entries as [|e' rest IH]; intros p Hu Hin Hown Hno;
    [by apply not_elem_of_nil in Hin|]. simpl.
  assert (Hstored : ∀ q, jm_get (GrainId_toString (addr_grainId e)) q = Some e →
    jm_get (GrainId_toString (addr_grainId e)) (acceptHandoff q rest own) = Some e).
  { assert (Hu' : ∀ b, b ∈ rest →
      GrainId_toString (addr_grainId e) = GrainId_toString (addr_grainId b) → e = b).
    { intros b Hb. apply Hu; [done|by right]. }
    clear -Hu'. induction rest as [|b rest IH]; intros q Hq; simpl; [done|].
    apply IH; [intros; apply Hu'; [by right|done]|]. destruct (own b); [|done].
    destruct (decide (GrainId_toString (addr_grainId e) = GrainId_toString (addr_grainId b)))
      as [Heq|Hne]; [|by rewrite register_get_ne].
    assert (e = b) as <- by (apply Hu'; [by left|done]).
    unfold register. rewrite Hq. repeat case_match; simpl; rewrite ?jm_get_set_eq; done. }
  destruct (decide (GrainId_toString (addr_grainId e) = GrainId_toString (addr_grainId e')))
    as [Heq|Hne].
  - assert (e = e') as <- by (apply Hu; [done|by left|done]). rewrite Hown. apply Hstored.
    rewrite register_get. unfold register, lookup in *. revert Hno. repeat case_match; done.
  - apply IH; [intros a b Ha Hb; apply Hu; by right| |done|].
    + apply elem_of_cons in Hin as [->|]; done.
    + destruct (own e'); [|done]. unfold lookup. by rewrite register_get_ne.
Qed.

(** C6: Registration is a compare-and-set that all callers agree on. The
    winner returned is the entry now stored; it is the caller's address
    exactly when the grain had no entry, its entry was on a dead silo, or the
    caller named the stored entry as [previous]; otherwise the partition is
    unchanged. No other grain is affected. When the grain has no live entry,
    of any sequence of plain registrations the first one wins and every caller
    is told so. *)
Theorem registration_agreed p a prev id a0 rest :
  wf p → addr_grainId a0 = id → isSiloLive (addr_silo a0) = true →
  lookup p id = None → Forall (λ b, addr_grainId b = id) rest →
  let key := GrainId_toString (addr_grainId a) in
  let '(p', winner) := register p a prev in
  wf p' ∧ jm_get key p' = Some winner ∧
  (∀ k, k ≠ key → jm_get k p' = jm_get k p) ∧
  match lookup p (addr_grainId a) with
  | Some existing =>
      if match prev with Some q => grainAddressEquals existing q | None => false end
      then winner = a else p' = p ∧ winner = existing
  | None => winner = a
  end ∧
  let '(q, winners) := register_all p (a0 :: rest) in
  winners = (λ _, a0) <$> (a0 :: rest) ∧ lookup q id = Some a0.
Proof.
  intros Hwf Hid Hl Hno Hids. cbn zeta.
  pose proof (wf_register p a prev Hwf) as H1. pose proof (register_get p a prev) as H2.
  pose proof (fun k => register_get_ne p a prev k) as H3.
  destruct (register p a prev) as [p' w] eqn:E. split_and!; try done.
  { unfold lookup. unfold register in E. revert E.
    repeat (case_match; simplify_eq/=); intros; simplify_eq; done. }
  cbn [register_all].
  assert (Hr : register p a0 None = (jm_set (GrainId_toString id) a0 p, a0)).
  { subst id. unfold register, lookup in *. revert Hno. repeat case_match; done. }
  rewrite Hr, (register_all_live id rest _ a0); [|apply jm_get_set_eq|done|done].
  split; [done|]. unfold lookup. by rewrite jm_get_set_eq, Hl.
Qed.

(** Handing a range over loses no registration. Of the entries of the old
    owner, those classified as kept stay and the others leave; a handed-off
    entry is found at the new owner afterwards when the new owner owns it and
    had no live entry for the grain, and a live entry of the new owner is
    never overwritten, whatever is handed to it. *)
Theorem handoff_keeps_registrations p1 p2 classify own k e :
  wf p1 → wf p2 → jm_get k p1 = Some e →
  let '(kept, handed) := drain p1 classify in
  let p2' := acceptHandoff p2 handed own in
  wf kept ∧ wf p2' ∧
  jm_get k kept = (if decide (classify e = Keep) then Some e else None) ∧
  match lookup p2 (addr_grainId e) with
  | Some e' => jm_get k p2' = Some e'
  | None => classify e = Handoff → own e = true → jm_get k p2' = Some e
  end.
Proof.
  intros Hw1 Hw2 He. pose proof (wf_drain p1 classify Hw1) as Hkept.
  assert (k = GrainId_toString (addr_grainId e)) as -> by by apply Hw1.
  rewrite drain_filter in *. cbn zeta. split_and!; [done|by apply wf_accept| |].
  - rewrite jm_get_filter by apply Hw1. by rewrite He.
  - destruct (lookup p2 (addr_grainId e)) as [e'|] eqn:Hl.
    + unfold lookup in Hl. repeat case_match; simplify_eq. by apply accept_keeps_live.
    + intros Hc Ho. apply accept_adds; [|by apply list_elem_of_filter; split; [|
        apply (list_elem_of_fmap_2 snd _ _ (jm_get_Some_elem _ _ _ He))]|done|done].
      intros a b Ha Hb Hk. apply list_elem_of_filter in Ha as [_ Ha], Hb as [_ Hb].
      apply list_elem_of_fmap in Ha as [[ka a'] [-> Ha]], Hb as [[kb b'] [-> Hb]]. simpl in *.
      destruct Hw1 as [Hok Hkeys]. apply (jm_elem_get _ _ _ Hok) in Ha, Hb.
      apply Hkeys in Ha as Ha', Hb as Hb'. subst. rewrite Hk in Ha. congruence.
Qed.
End partition.
End Partition.


(** ** The location cache *)

Module Cache.
Record LocationCache := mkCache { entries : list (string * GrainAddress); hits : Z; misses : Z }.

Definition empty_cache : LocationCache := mkCache [] 0 0.

(** The [stats] getter: hits, misses, size. *)
Definition stats (c : LocationCache) : Z * Z * nat := (hits c, misses c, length (entries c)).

Definition get (c : LocationCache) (id : GrainId) : LocationCache * option GrainAddress :=
  match jm_get (GrainId_toString id) (entries c) with
  | None => (mkCache (entries c) (hits c) (misses c + 1), None)
  | Some e => (mkCache (entries c) (hits c + 1) (misses c), Some e)
  end.

Definition put (c : LocationCache) (a : GrainAddress) : LocationCache :=
  mkCache (jm_set (GrainId_toString (addr_grainId a)) a (entries c)) (hits c) (misses c).

Definition invalidate (c : LocationCache) (id : GrainId) (staleSilo : option SiloAddress) : LocationCache :=
  let key := GrainId_toString id in
  let deleted := mkCache (jm_delete key (entries c)) (hits c) (misses c) in
  match staleSilo with
  | None => deleted
  | Some s =>
      match jm_get key (entries c) with
      | Some e => if SiloAddress_equals (addr_silo e) s then deleted else c
      | None => c
      end
  end.

Definition invalidateSilo (c : LocationCache) (silo : SiloAddress) : LocationCache :=
  mkCache (filter (λ kv, SiloAddress_equals (addr_silo kv.2) silo = false) (entries c))
    (hits c) (misses c).

Definition clear (c : LocationCache) : LocationCache := mkCache [] (hits c) (misses c).

Inductive op :=
  | Get (id : GrainId)
  | Put (a : GrainAddress)
  | Invalidate (id : GrainId) (staleSilo : option SiloAddress)
  | InvalidateSilo (s : SiloAddress)
  | Clear.

Definition exec (c : LocationCache) (o : op) : LocationCache * list (option GrainAddress) :=
  match o with
  | Get id => let '(c', r) := get c id in (c', [r])
  | Put a => (put c a, [])
  | Invalidate id s => (invalidate c id s, [])
  | InvalidateSilo s => (invalidateSilo c s, [])
  | Clear => (clear c, [])
  end.

(** What the cache promises, as a partial function from printed ids and no
    counters: the last address put and not invalidated since. *)
Definition abstract_step (f : string → option GrainAddress) (o : op) : string → option GrainAddress :=
  match o with
  | Get _ => f
  | Put a => λ k, if decide (GrainId_toString (addr_grainId a) = k) then Some a else f k
  | Invalidate id None => λ k, if decide (GrainId_toString id = k) then None else f k
  | Invalidate id (Some s) => λ k,
      if decide (GrainId_toString id = k)
      then e ← f k; if SiloAddress_equals (addr_silo e) s then None else Some e
      else f k
  | InvalidateSilo s => λ k,
      e ← f k; if SiloAddress_equals (addr_silo e) s then None else Some e
  | Clear => λ _, None
  end.

Definition abstract_out (f : string → option GrainAddress) (o : op) : list (option GrainAddress) :=
  match o with Get id => [f (GrainId_toString id)] | _ => [] end.

Fixpoint abstract_run (f : string → option GrainAddress) (ops : list op) : list (option GrainAddress) :=
  match ops with
  | [] => []
  | o :: ops' => abstract_out f o ++ abstract_run (abstract_step f o) ops'
  end.

Definition cache_rel (c : LocationCache) (f : string → option GrainAddress) : Prop :=
  jm_ok (entries c) ∧ ∀ k, jm_get k (entries c) = f k.

Lemma exec_refines c f o :
  cache_rel c f → cache_rel (exec c o).1 (abstract_step f o) ∧ (exec c o).2 = abstract_out f o.
Proof.
  intros [Hok Hf]. destruct o as [id|a|id [s|]|s|]; simpl.
  - unfold get. rewrite Hf. by destruct (f (GrainId_toString id)).
  - split; [|done]. split; [by apply jm_ok_set|]. intros k. simpl. rewrite jm_get_set. by case_decide.
  - split; [|done]. unfold invalidate. destruct (jm_get (GrainId_toString id) (entries c)) as [e|] eqn:He.
    + destruct (SiloAddress_equals (addr_silo e) s) eqn:Hs.
      * split; [by apply jm_ok_delete|]. intros k. simpl. rewrite jm_get_delete.
        case_decide as Hk; [|done]. subst k. rewrite <- Hf, He. simpl. by rewrite Hs.
      * split; [done|]. intros k. case_decide as Hk; [|done]. subst k. rewrite <- Hf, He. simpl.
        by rewrite Hs.
    + split; [done|]. intros k. case_decide as Hk; [|done]. subst k. by rewrite <- Hf, He.
  - split; [|done]. split; [by apply jm_ok_delete|]. intros k. simpl. rewrite jm_get_delete.
    by case_decide.
  - split; [|done]. split; [by apply jm_ok_filter|]. intros k. simpl. rewrite jm_get_filter by done.
    rewrite Hf. destruct (f k) as [e|]; [|done]. simpl.
    by destruct (SiloAddress_equals (addr_silo e) s).
  - split; [|done]. split; [apply jm_ok_nil|done].
Qed.

Lemma run_refines ops : ∀ c f, cache_rel c f → (run exec c ops).2 = abstract_run f ops.
Proof.
  induction ops as [|o ops IH]; intros c f Hc; [done|]. cbn [run abstract_run].
  destruct (exec_refines c f o Hc) as [Hc' Hout]. destruct (exec c o) as [c1 e1]. simpl in *.
  specialize (IH c1 _ Hc'). destruct (run exec c1 ops) as [c2 e2]. simpl in *. by rewrite Hout, IH.
Qed.

Lemma counters c o :
  hits (exec c o).1 + misses (exec c o).1 = hits c + misses c + Z.of_nat (length (exec c o).2) ∧
  hits (exec c o).1 = hits c + Z.of_nat (length (filter (λ r, is_Some r) (exec c o).2)).
Proof.
  destruct o; simpl; try lia; unfold get, invalidate; repeat case_match; simpl; simplify_eq;
    rewrite ?decide_False by (by intros []); rewrite ?decide_True by done; simpl; lia.
Qed.

(** From the empty cache every sequence of operations answers each [get]
    exactly as the specification does, which remembers the last address put
    for a grain and not invalidated since (by id, by id and stale silo, or by
    silo); hits and misses count those answers. *)
Theorem cache_refines ops :
  let c := (run exec empty_cache ops).1 in
  let answers := (run exec empty_cache ops).2 in
  answers = abstract_run (λ _, None) ops ∧
  hits c + misses c = Z.of_nat (length answers) ∧
  hits c = Z.of_nat (length (filter (λ r, is_Some r) answers)).
Proof.
  cbn zeta. split; [apply run_refines; by split; [apply jm_ok_nil|]|].
  apply (run_trace_invariant exec (λ tr c,
    hits c + misses c = Z.of_nat (length tr) ∧
    hits c = Z.of_nat (length (filter (λ r : option GrainAddress, is_Some r) tr)))) with (tr := []);
    [|done].
  intros tr c o [H1 H2]. pose proof (counters c o) as [H3 H4].
  rewrite filter_app, !length_app. lia.
Qed.
End Cache.

(** ** The distributed directory

    One silo's view. [World] is everything its operations can see between two
    awaits: its ring, its partition and the rest of the cluster [E], of which
    only the code's own calls are known: the peer (a remote silo), the view
    refresh and the wait for a range recovery. Each of them may change the
    whole world, which covers every interleaving at an await. *)

Module Distributed.

Inductive DirError :=
  | RejectionError (message kind : string)
  | OtherError (message : string).

Definition isStaleView (err : DirError) : bool :=
  match err with RejectionError _ kind => String.eqb kind "staleView" | OtherError _ => false end.

Definition MAX_STALE_RETRIES : nat := 5.

Section distributed.
Context {E : Type}.

Record World := mkWorld { w_ring : ConsistentHashRing; w_part : list (string * GrainAddress); w_rest : E }.

Context (local : SiloAddress) (isSiloLive : World → SiloAddress → bool).

(** The collaborators handed to the constructor. *)
Context (refresh : World → World) (onOwnedAccess : GrainId → World → World).
Context (peer_lookup : SiloAddress → GrainId → World → World * (DirError + option GrainAddress)).
Context (peer_register : SiloAddress → GrainAddress → option GrainAddress → World → World * (DirError + GrainAddress)).
Context (peer_unregister : SiloAddress → GrainAddress → World → World * (DirError + unit)).

(** [ownsHere]: the range is this silo's under the current ring. *)
Definition ownsHere (w : World) (id : GrainId) : bool :=
  negb (isEmpty (w_ring w)) &&
  match ownerOf (w_ring w) id with Some o => SiloAddress_equals o local | None => false end.

(** The accesses an operation makes, each with the world it is made in. *)
Inductive Access :=
  | AtLocal (w : World)
  | AtRemote (owner : SiloAddress) (w : World).

Section route.
Context {T : Type} (id : GrainId).
Context (onOwned : World → World * T) (onRemote : SiloAddress → World → World * (DirError + T)).

(** One pass of [route]'s loop; [left] is [MAX_STALE_RETRIES - attempt], so
    the recursion is the loop itself. *)
Fixpoint route (left : nat) (w : World) : World * (DirError + T) * list Access :=
  if isEmpty (w_ring w)
  then (w, inl (RejectionError "no active silos to resolve a directory owner" "staleView"), [])
  else
    match ownerOf (w_ring w) id with
    | None => (w, inl (OtherError "cannot resolve owner on an empty ring"), [])
    | Some owner =>
        if SiloAddress_equals owner local then
          let w1 := onOwnedAccess id w in
          if ownsHere w1 id
          then let '(w2, v) := onOwned w1 in (w2, inr v, [AtLocal w1])
          else
            match left with
            | O => (w1, inl (RejectionError "directory ownership moved during the wait" "staleView"), [])
            | S left' => route left' (refresh w1)
            end
        else
          let '(w1, res) := onRemote owner w in
          match res with
          | inr v => (w1, inr v, [AtRemote owner w])
          | inl err =>
              match left with
              | O => (w1, inl err, [AtRemote owner w])
              | S left' =>
                  if negb (isStaleView err) then (w1, inl err, [AtRemote owner w])
                  else
                    let '(w2, r, tr) := route left' (refresh w1) in
                    (w2, r, AtRemote owner w :: tr)
              end
          end
    end.

(** What an operation promises of its accesses: each goes to the silo that
    owns the grain under the ring in force at that moment. *)
Definition access_owned (a : Access) : Prop :=
  match a with
  | AtLocal w => ownerOf (w_ring w) id = Some local
  | AtRemote owner w => ownerOf (w_ring w) id = Some owner ∧ owner ≠ local
  end.

(** Earlier accesses were remote and answered that the view is stale. *)
Definition stale_access (a : Access) : Prop :=
  ∃ owner w err, a = AtRemote owner w ∧ (onRemote owner w).2 = inl err ∧ isStaleView err = true.

(** The answer is the last access's; with no access, or after a move during
    the wait, it is a [staleView] rejection. *)
Definition answered (r : DirError + T) (tr : list Access) : Prop :=
  match r with
  | inr v => ∃ a, last tr = Some a ∧
      match a with
      | AtLocal w => v = (onOwned w).2
      | AtRemote owner w => (onRemote owner w).2 = inr v
      end
  | inl err => (∃ owner w, last tr = Some (AtRemote owner w) ∧ (onRemote owner w).2 = inl err) ∨
      (isStaleView err = true ∧ Forall stale_access tr)
  end.

Definition route_correct (res : World * (DirError + T) * list Access) : Prop :=
  let '(_, r, tr) := res in
  Forall access_owned tr ∧ (length tr ≤ S MAX_STALE_RETRIES)%nat ∧
  Forall stale_access (removelast tr) ∧ answered r tr.
End route.

(** The three operations. *)
Definition dir_lookup (id : GrainId) (w : World) :=
  route id (λ w, (w, Partition.lookup (isSiloLive w) (w_part w) id))
    (λ owner w, peer_lookup owner id w) MAX_STALE_RETRIES w.

Definition dir_register (addr : GrainAddress) (previous : option GrainAddress) (w : World) :=
  route (addr_grainId addr)
    (λ w, let '(p, winner) := Partition.register (isSiloLive w) (w_part w) addr previous in
          (mkWorld (w_ring w) p (w_rest w), winner))
    (λ owner w, peer_register owner addr previous w) MAX_STALE_RETRIES w.

Definition dir_unregister (addr : GrainAddress) (w : World) :=
  route (addr_grainId addr)
    (λ w, (mkWorld (w_ring w) (Partition.unregister (w_part w) addr) (w_rest w), tt))
    (λ owner w, peer_unregister owner addr w) MAX_STALE_RETRIES w.

Definition dir_unregisterSilo (silo : SiloAddress) (w : World) : World :=
  mkWorld (w_ring w) (Partition.unregisterSilo (w_part w) silo) (w_rest w).

Lemma ownsHere_owner w id : ownsHere w id = true → ownerOf (w_ring w) id = Some local.
Proof.
  unfold ownsHere. rewrite andb_true_iff. intros [_ H].
  destruct (ownerOf (w_ring w) id) as [o|]; [|done]. by apply SiloAddress_equals_iff in H as ->.
Qed.

Lemma answered_cons {T} (onOwned : World → World * T) onRemote r a tr :
  stale_access onRemote a → answered onOwned onRemote r tr → answered onOwned onRemote r (a :: tr).
Proof.
  intros Hs. destruct r as [err|v]; simpl.
  - intros [(owner & w & Hl & Hr)|[He Hf]].
    + left. exists owner, w. by destruct tr.
    + right. by split; [|constructor].
  - intros (b & Hl & Hb). exists b. by destruct tr.
Qed.

(** The accesses of one route: owned, bounded, and local at most once, last. *)
Lemma route_spec {T} id (onOwned : World → World * T) onRemote left : ∀ w,
  let '(_, r, tr) := route id onOwned onRemote left w in
  Forall (access_owned id) tr ∧ (length tr ≤ S left)%nat ∧
  Forall (stale_access onRemote) (removelast tr) ∧ answered onOwned onRemote r tr.
Proof.
  assert (Hremote : ∀ owner w, ownerOf (w_ring w) id = Some owner → owner ≠ local → ∀ r n,
    (onRemote owner w).2 = r →
    Forall (access_owned id) [AtRemote owner w] ∧ (1 ≤ S n)%nat ∧
    Forall (stale_access onRemote) (removelast [AtRemote owner w]) ∧
    answered onOwned onRemote r [AtRemote owner w]).
  { intros owner w Ho Hl r n Hr. split_and!; [by repeat constructor|lia|constructor|].
    destruct r; [left; by exists owner, w|by exists (AtRemote owner w)]. }
  induction left as [|left IH]; intros w; cbn [route];
    (destruct (isEmpty (w_ring w)) eqn:He; [split_and!; [constructor|simpl; lia|constructor|by right]|]);
    (destruct (owner_nonempty _ (getUniformHashCode id) He) as [owner Ho]; fold (ownerOf (w_ring w) id) in Ho);
    rewrite Ho; (destruct (SiloAddress_equals owner local) eqn:Hl;
      [destruct (ownsHere (onOwnedAccess id w) id) eqn:Hh|]).
  all: try (rewrite <- not_true_iff_false, SiloAddress_equals_iff in Hl).
  1,4: destruct (onOwned (onOwnedAccess id w)) as [w2 v] eqn:Hv; split_and!;
    [repeat constructor; by apply ownsHere_owner|simpl; lia|constructor|].
  1,2: by eexists; split; [done|]; simpl; rewrite Hv.
  - split_and!; [constructor|simpl; lia|constructor|by right].
  - specialize (Hremote owner w Ho Hl).
    by destruct (onRemote owner w) as [w1 [err|v]] eqn:Hr; apply Hremote.
  - specialize (IH (refresh (onOwnedAccess id w))).
    destruct (route id onOwned onRemote left _) as [[w2 r] tr]. destruct IH as (?&?&?&?).
    split_and!; try done. lia.
  - destruct (onRemote owner w) as [w1 [err|v]] eqn:Hr.
    + destruct (isStaleView err) eqn:Hs; simpl.
      * specialize (IH (refresh w1)).
        destruct (route id onOwned onRemote left _) as [[w2 r] tr]. destruct IH as (H1&H2&H3&H4).
        assert (Hst : stale_access onRemote (AtRemote owner w)) by (exists owner, w, err; by rewrite Hr).
        split_and!; [by constructor|simpl; lia|destruct tr; by constructor|].
        by apply answered_cons.
      * exact (Hremote owner w Ho Hl (inl err) (S left) (f_equal snd Hr)).
    + exact (Hremote owner w Ho Hl (inr v) (S left) (f_equal snd Hr)).
Qed.

(** Every lookup, registration and unregistration, whatever view changes
    happen at its awaits, accesses the entry only at the silo that owns the
    grain under the ring in force at that moment, makes at most six accesses,
    repeats only after a stale-view answer, and reports the answer of the last
    access, or a stale-view rejection when every access it made was stale. *)
Theorem directory_accesses_owned id addr previous w :
  route_correct id (λ w, (w, Partition.lookup (isSiloLive w) (w_part w) id))
    (λ owner w, peer_lookup owner id w) (dir_lookup id w) ∧
  route_correct (addr_grainId addr)
    (λ w, let '(p, winner) := Partition.register (isSiloLive w) (w_part w) addr previous in
          (mkWorld (w_ring w) p (w_rest w), winner))
    (λ owner w, peer_register owner addr previous w) (dir_register addr previous w) ∧
  route_correct (addr_grainId addr)
    (λ w, (mkWorld (w_ring w) (Partition.unregister (w_part w) addr) (w_rest w), tt))
    (λ owner w, peer_unregister owner addr w) (dir_unregister addr w).
Proof. split_and!; apply route_spec. Qed.
End distributed.
End Distributed.

(** ** Concrete runs *)

Definition gid (key : string) : GrainId := mkGrainId "counter" (KString key).
Definition pod (name : string) : SiloAddress := mkSilo name "uid" "10.0.0.1:11111".
Definition on_pod (key name act : string) : GrainAddress := mkAddress (gid key) (pod name) act.

Definition entry_of (a : GrainAddress) : string * GrainAddress :=
  (GrainId_toString (addr_grainId a), a).

Lemma wf_singleton a : Partition.wf [entry_of a].
Proof.
  split; [apply NoDup_singleton|]. intros k b. simpl. case_decide; [|done]. by intros [= <-].
Qed.

Lemma registration_agreed_witness :
  let p := [entry_of (on_pod "x" "a" "1")] in
  let live := (λ _, true) : SiloAddress → bool in
  let '(p', winner) := Partition.register live p (on_pod "x" "b" "2") None in
  p' = p ∧ winner = on_pod "x" "a" "1" ∧
  let '(q, winners) :=
    Partition.register_all live p [on_pod "y" "a" "3"; on_pod "y" "b" "4"] in
  winners = [on_pod "y" "a" "3"; on_pod "y" "a" "3"] ∧
  Partition.lookup live q (gid "y") = Some (on_pod "y" "a" "3").
Proof.
  pose proof (Partition.registration_agreed (λ _, true) [entry_of (on_pod "x" "a" "1")]
    (on_pod "x" "b" "2") None (gid "y") (on_pod "y" "a" "3") [on_pod "y" "b" "4"]
    (wf_singleton _) eq_refl eq_refl eq_refl ltac:(by repeat constructor)) as H.
  cbn zeta in *. split; [reflexivity|]. split; [reflexivity|].
  exact (proj2 (proj2 (proj2 (proj2 H)))).
Defined.

Lemma handoff_keeps_registrations_witness :
  let p1 := [entry_of (on_pod "x" "a" "1")] in
  let '(kept, handed) := Partition.drain p1 (λ _, Partition.Handoff) in
  kept = [] ∧ jm_get (GrainId_toString (gid "x"))
    (Partition.acceptHandoff (λ _, true) [] handed (λ _, true)) = Some (on_pod "x" "a" "1").
Proof.
  pose proof (Partition.handoff_keeps_registrations (λ _, true) [entry_of (on_pod "x" "a" "1")] []
    (λ _, Partition.Handoff) (λ _, true) (GrainId_toString (gid "x")) (on_pod "x" "a" "1")
    (wf_singleton _) ltac:(by split; [apply jm_ok_nil|]) eq_refl) as H.
  split; [reflexivity|]. exact (proj2 (proj2 (proj2 H)) eq_refl eq_refl).
Defined.
