(* ===== verification/TxStorage.v ===== *)
(** * Transactional storage

    Models [packages/core/src/transactional-storage.ts] (the records and the
    storage contract, here a type class with its laws),
    [packages/transactions/src/transactional-storage-apply.ts] (the effect of
    one [store] call, shared by all providers) and
    [memory-transactional-storage.ts] (the in-memory provider, an instance). *)
From Stdlib Require Import String.
From stdpp Require Import prelude gmap strings list sorting.
From S2P Require Import Prelude Ids.
Open Scope Z_scope.

(** ** Data *)

Record ParticipantId := mkParticipant { pt_grainId : GrainId; pt_stateName : string }.
#[export] Instance ParticipantId_eq_dec : EqDecision ParticipantId.
Proof. solve_decision. Defined.

Definition participantKey (id : ParticipantId) : string :=
  (GrainId_toString (pt_grainId id) ++ "/" ++ pt_stateName id)%string.

Record PendingTransactionState (T : Type) := mkPending {
  sequenceId : Z;
  transactionId : string;
  timeStamp : Z;
  transactionManager : option ParticipantId;
  state : T }.
Arguments mkPending {T}.
Arguments sequenceId {T}.
Arguments transactionId {T}.
Arguments timeStamp {T}.
Arguments transactionManager {T}.
Arguments state {T}.

Record CommitRecord := mkCommitRecord { cr_timeStamp : Z; writeParticipants : list string }.

Record TransactionalStateMetadata := mkMetadata {
  md_timeStamp : Z;
  commitRecords : gmap string CommitRecord }.

Definition EMPTY_METADATA : TransactionalStateMetadata := mkMetadata 0 ∅.

(** [committedState] is [undefined] ([None]) until a first commit. *)
Record StoredRecord (T : Type) := mkRecord {
  committedState : option T;
  committedSequenceId : Z;
  metadata : TransactionalStateMetadata;
  pendingStates : list (PendingTransactionState T) }.
Arguments mkRecord {T}.
Arguments committedState {T}.
Arguments committedSequenceId {T}.
Arguments metadata {T}.
Arguments pendingStates {T}.

Definition emptyRecord {T} : StoredRecord T := mkRecord None 0 EMPTY_METADATA [].

(** ** applyStore *)

Section apply.
Context {T : Type}.
Implicit Types p q : PendingTransactionState T.
Implicit Types l ps : list (PendingTransactionState T).

(** Replace the pending state with this sequence id, or append it. *)
Definition upsert l p : list (PendingTransactionState T) :=
  match list_find (λ q, sequenceId q = sequenceId p) l with
  | Some (at_, _) => <[at_ := p]> l
  | None => l ++ [p]
  end.

Definition seq_ltb p q : bool := bool_decide (sequenceId p < sequenceId q).

(** The body of the promotion loop. *)
Definition promote (commitUpTo : Z) (acc : option T * Z) p : option T * Z :=
  if decide (sequenceId p ≤ commitUpTo) then (Some (state p), sequenceId p) else acc.

Definition applyStore (record : StoredRecord T) (md : TransactionalStateMetadata)
    (statesToPrepare : list (PendingTransactionState T)) (commitUpTo abortAfter : option Z)
    : StoredRecord T :=
  let pending := sort_by seq_ltb (foldl upsert (pendingStates record) statesToPrepare) in
  let '(cs, cid, pending) :=
    match commitUpTo with
    | Some c =>
        (foldl (promote c) (committedState record, committedSequenceId record) pending,
         filter (λ p, c < sequenceId p) pending)
    | None => (committedState record, committedSequenceId record, pending)
    end in
  let pending :=
    match abortAfter with
    | Some a => filter (λ p, sequenceId p ≤ a) pending
    | None => pending
    end in
  mkRecord cs cid md pending.

(** ** What [store] promises

    The pending states are a finite map by sequence id. *)
Definition sorted_ids l : Prop := StronglySorted (λ p q, sequenceId p < sequenceId q) l.

Definition staged (record : StoredRecord T) ps : gmap Z (PendingTransactionState T) :=
  foldl (λ m p, <[sequenceId p := p]> m)
    (list_to_map ((λ p, (sequenceId p, p)) <$> pendingStates record)) ps.

Definition survives (commitUpTo abortAfter : option Z) (id : Z) : Prop :=
  (∀ c, commitUpTo = Some c → c < id) ∧ (∀ a, abortAfter = Some a → id ≤ a).

Definition ids l : list Z := sequenceId <$> l.

Lemma sorted_ids_NoDup l : sorted_ids l → NoDup (ids l).
Proof.
  induction 1 as [|p l Hl IH Hp]; [constructor|]. apply NoDup_cons. split; [|done].
  intros (q & Hq & Hin)%list_elem_of_fmap. rewrite Forall_forall in Hp. specialize (Hp q Hin). lia.
Qed.

Lemma NoDup_ids_inj l p q : NoDup (ids l) → p ∈ l → q ∈ l → sequenceId p = sequenceId q → p = q.
Proof.
  intros Hnd [i Hi]%list_elem_of_lookup_1 [j Hj]%list_elem_of_lookup_1 Heq.
  assert (i = j) as ->; [|congruence].
  eapply (NoDup_lookup (ids l)); [done|..]; unfold ids; rewrite list_lookup_fmap;
    [by rewrite Hi|by rewrite Hj, Heq].
Qed.

Lemma upsert_NoDup l p : NoDup (ids l) → NoDup (ids (upsert l p)).
Proof.
  intros Hnd. unfold upsert. destruct (list_find _ l) as [[i q]|] eqn:E.
  - apply list_find_Some in E as (Hi & Hq & _). unfold ids in *.
    rewrite list_fmap_insert, <- Hq, list_insert_id; [done|]. by rewrite list_lookup_fmap, Hi.
  - apply list_find_None in E. unfold ids. rewrite fmap_app. apply NoDup_app.
    split_and!; [done| |apply NoDup_singleton].
    intros x (q & -> & Hq)%list_elem_of_fmap Hx%list_elem_of_singleton.
    rewrite Forall_forall in E. by apply (E q Hq).
Qed.

Lemma elem_of_upsert l p q :
  NoDup (ids l) → q ∈ upsert l p ↔ q = p ∨ (q ∈ l ∧ sequenceId q ≠ sequenceId p).
Proof.
  intros Hnd. unfold upsert. destruct (list_find _ l) as [[i r]|] eqn:E.
  - apply list_find_Some in E as (Hi & Hr & _). pose proof (lookup_lt_Some _ _ _ Hi) as Hlt. split.
    + intros [j Hj]%list_elem_of_lookup_1. destruct (decide (i = j)) as [<-|Hne].
      * rewrite list_lookup_insert_eq in Hj by done. left. congruence.
      * rewrite list_lookup_insert_ne in Hj by done. right.
        split; [by eapply list_elem_of_lookup_2|]. intros Heq. apply Hne.
        eapply (NoDup_lookup (ids l)); [done|..]; unfold ids; rewrite list_lookup_fmap;
          [by rewrite Hi|rewrite Hj; simpl; congruence].
    + intros [->|[Hin Hne]]; [eapply list_elem_of_lookup_2, list_lookup_insert_eq, Hlt|].
      apply list_elem_of_lookup_1 in Hin as [j Hj]. apply (list_elem_of_lookup_2 _ j).
      rewrite list_lookup_insert_ne; [done|]. intros ->. congruence.
  - apply list_find_None in E. rewrite Forall_forall in E.
    rewrite elem_of_app, list_elem_of_singleton. specialize (E q). naive_solver.
Qed.

Lemma upserts_spec ps : ∀ l (m : gmap Z (PendingTransactionState T)),
  NoDup (ids l) → (∀ p, p ∈ l ↔ m !! sequenceId p = Some p) →
  (∀ i p, m !! i = Some p → i = sequenceId p) →
  let m' := foldl (λ m p, <[sequenceId p := p]> m) m ps in
  NoDup (ids (foldl upsert l ps)) ∧ (∀ p, p ∈ foldl upsert l ps ↔ m' !! sequenceId p = Some p) ∧
  (∀ i p, m' !! i = Some p → i = sequenceId p).
Proof.
  induction ps as [|p0 ps IH]; intros l m Hnd Hl Hm; [done|]. apply IH.
  - by apply upsert_NoDup.
  - intros p. rewrite elem_of_upsert by done. rewrite Hl, lookup_insert_Some. naive_solver.
  - intros i p. rewrite lookup_insert_Some. naive_solver.
Qed.

Lemma seq_ltb_asym p q : seq_ltb p q = true → seq_ltb q p = false.
Proof. unfold seq_ltb. rewrite bool_decide_eq_true, bool_decide_eq_false. lia. Qed.

Lemma seq_ltb_cotrans p q r : seq_ltb p r = true → seq_ltb p q = true ∨ seq_ltb q r = true.
Proof. unfold seq_ltb. rewrite !bool_decide_eq_true. lia. Qed.

Lemma sort_sorted_ids l : NoDup (ids l) → sorted_ids (sort_by seq_ltb l).
Proof.
  intros Hnd. assert (Hs := sort_by_sorted seq_ltb seq_ltb_cotrans seq_ltb_asym l).
  assert (Hnd' : NoDup (ids (sort_by seq_ltb l))).
  { unfold ids in *. by rewrite (sort_by_perm seq_ltb l). }
  induction Hs as [|p l' Hl' IH Hp]; [constructor|]. cbn in Hnd'.
  apply NoDup_cons in Hnd' as [Hni Hnd']. constructor; [by apply IH|].
  rewrite Forall_forall in Hp |- *. intros q Hq. specialize (Hp q Hq).
  unfold seq_ltb in Hp. rewrite bool_decide_eq_false in Hp.
  assert (sequenceId p ≠ sequenceId q); [|lia].
  intros Heq. apply Hni. rewrite Heq. by apply list_elem_of_fmap_2.
Qed.

Lemma sorted_ids_filter (P : PendingTransactionState T → Prop) `{∀ p, Decision (P p)} l :
  sorted_ids l → sorted_ids (filter P l).
Proof.
  induction 1 as [|p l Hl IH Hp]; [constructor|]. rewrite filter_cons. case_decide; [|done].
  constructor; [done|]. rewrite Forall_forall in *. intros q [_ Hq]%list_elem_of_filter. by apply Hp.
Qed.

(** The promotion loop ends on the highest pending id up to the bound. *)
Lemma promote_spec c l : ∀ acc, sorted_ids l →
  (foldl (promote c) acc l = acc ∧ ∀ p, p ∈ l → c < sequenceId p) ∨
  (∃ p, p ∈ l ∧ sequenceId p ≤ c ∧ (∀ q, q ∈ l → sequenceId q ≤ c → sequenceId q ≤ sequenceId p) ∧
    foldl (promote c) acc l = (Some (state p), sequenceId p)).
Proof.
  induction l as [|p l IH]; intros acc Hs.
  { left. split; [done|]. by intros p ?%not_elem_of_nil. }
  inversion Hs as [|? ? Hl Hp]; subst. rewrite Forall_forall in Hp. simpl.
  destruct (IH (promote c acc p) Hl) as [[He Hall]|(q & Hq & Hle & Hmax & He)]; rewrite He.
  - unfold promote. case_decide as Hc.
    + right. exists p. split_and!; [by left|done| |done].
      intros q [->|Hq]%elem_of_cons Hqc; [done|]. specialize (Hall q Hq). lia.
    + left. split; [done|]. intros q [->|Hq]%elem_of_cons; [lia|by apply Hall].
  - right. exists q. split_and!; [by right|done| |done].
    intros r [->|Hr]%elem_of_cons Hrc; [specialize (Hp q Hq); lia|by apply Hmax].
Qed.

Definition apply_pending (record : StoredRecord T) ps : list (PendingTransactionState T) :=
  sort_by seq_ltb (foldl upsert (pendingStates record) ps).

Lemma apply_pending_spec record ps :
  sorted_ids (pendingStates record) →
  sorted_ids (apply_pending record ps) ∧
  ∀ p, p ∈ apply_pending record ps ↔ staged record ps !! sequenceId p = Some p.
Proof.
  intros Hs. pose proof (sorted_ids_NoDup _ Hs) as Hnd.
  assert (Hkeys : NoDup ((λ p, (sequenceId p, p)) <$> pendingStates record).*1)
    by (rewrite <- list_fmap_compose; exact Hnd).
  destruct (upserts_spec ps (pendingStates record)
    (list_to_map ((λ p, (sequenceId p, p)) <$> pendingStates record))) as (Hnd' & Hin & _).
  - done.
  - intros p. rewrite <- elem_of_list_to_map by done. rewrite list_elem_of_fmap. naive_solver.
  - intros i p Hi. apply elem_of_list_to_map_2, list_elem_of_fmap in Hi. naive_solver.
  - split; [by apply sort_sorted_ids|]. intros p. unfold apply_pending.
    rewrite (sort_by_perm seq_ltb _). apply Hin.
Qed.

Lemma apply_store_spec record md ps commitUpTo abortAfter :
  sorted_ids (pendingStates record) →
  let record' := applyStore record md ps commitUpTo abortAfter in
  let m := staged record ps in
  sorted_ids (pendingStates record') ∧ metadata record' = md ∧
  (∀ p, p ∈ pendingStates record' ↔
    m !! sequenceId p = Some p ∧ survives commitUpTo abortAfter (sequenceId p)) ∧
  ((committedState record' = committedState record ∧
    committedSequenceId record' = committedSequenceId record ∧
    ∀ c p, commitUpTo = Some c → m !! sequenceId p = Some p → c < sequenceId p) ∨
   (∃ c p, commitUpTo = Some c ∧ m !! sequenceId p = Some p ∧ sequenceId p ≤ c ∧
     (∀ q, m !! sequenceId q = Some q → sequenceId q ≤ c → sequenceId q ≤ sequenceId p) ∧
     committedState record' = Some (state p) ∧ committedSequenceId record' = sequenceId p)).
Proof.
  intros Hs. cbn zeta. destruct (apply_pending_spec record ps Hs) as [Hsort Hin].
  unfold applyStore. fold (apply_pending record ps).
  set (l := apply_pending record ps) in *. unfold survives.
  destruct commitUpTo as [c|].
  - destruct (promote_spec c l (committedState record, committedSequenceId record) Hsort)
      as [[He Hall]|(p & Hp & Hle & Hmax & He)]; rewrite He;
      (destruct abortAfter as [a|];
       (cbn [pendingStates metadata committedState committedSequenceId];
        split_and!; [repeat apply sorted_ids_filter; done|done| |])).
    1,3,5,7: intros q; rewrite ?list_elem_of_filter, Hin; naive_solver.
    1,2: left; split_and!; [done..|]; intros ? q [= <-] Hq%Hin; by apply Hall.
    all: right; exists c, p; split_and!; [done|by apply Hin|done| |done|done];
      intros q Hq%Hin; by apply Hmax.
  - destruct abortAfter as [a|]; cbn [pendingStates metadata committedState committedSequenceId];
      split_and!; try done; try (by apply sorted_ids_filter); try (by left; split_and!);
      intros q; rewrite ?list_elem_of_filter, Hin; naive_solver.
Qed.

Lemma staged_nil record p :
  sorted_ids (pendingStates record) → staged record [] !! sequenceId p = Some p ↔ p ∈ pendingStates record.
Proof.
  intros Hs. destruct (apply_pending_spec record [] Hs) as [_ <-]. unfold apply_pending. simpl.
  by rewrite (sort_by_perm seq_ltb _).
Qed.

(** [store] with no prepared states, to commit a staged state ... *)
Lemma apply_commit record md p :
  sorted_ids (pendingStates record) → p ∈ pendingStates record →
  let record' := applyStore record md [] (Some (sequenceId p)) None in
  sorted_ids (pendingStates record') ∧ metadata record' = md ∧
  committedState record' = Some (state p) ∧ committedSequenceId record' = sequenceId p ∧
  ∀ q, q ∈ pendingStates record' ↔ q ∈ pendingStates record ∧ sequenceId p < sequenceId q.
Proof.
  intros Hs Hp. destruct (apply_store_spec record md [] (Some (sequenceId p)) None Hs)
    as (H1 & H2 & H3 & H4). split_and!; try done.
  1,2: destruct H4 as [(_ & _ & H4)|(c & q & [= <-] & Hq & Hle & Hmax & Hst & Hid)];
    [specialize (H4 _ p eq_refl); rewrite staged_nil in H4 by done; specialize (H4 Hp); lia|].
  1,2: rewrite staged_nil in Hq by done; specialize (Hmax p); rewrite staged_nil in Hmax by done;
    specialize (Hmax Hp); assert (q = p) as -> by
      (apply (NoDup_ids_inj _ _ _ (sorted_ids_NoDup _ Hs)); [done|done|lia]); done.
  intros q. rewrite H3, staged_nil by done. unfold survives. naive_solver.
Qed.

(** ... to drop the states above an id ... *)
Lemma apply_abort record md a :
  sorted_ids (pendingStates record) →
  let record' := applyStore record md [] None (Some a) in
  sorted_ids (pendingStates record') ∧ metadata record' = md ∧
  committedState record' = committedState record ∧
  committedSequenceId record' = committedSequenceId record ∧
  ∀ q, q ∈ pendingStates record' ↔ q ∈ pendingStates record ∧ sequenceId q ≤ a.
Proof.
  intros Hs. destruct (apply_store_spec record md [] None (Some a) Hs) as (H1 & H2 & H3 & H4).
  destruct H4 as [(? & ? & _)|(? & ? & ? & _)]; [|done]. split_and!; try done.
  intros q. rewrite H3, staged_nil by done. unfold survives. naive_solver.
Qed.

(** ... to stage one state, or to write metadata only. *)
Lemma apply_prepare record md p :
  sorted_ids (pendingStates record) →
  let record' := applyStore record md [p] None None in
  sorted_ids (pendingStates record') ∧ metadata record' = md ∧
  committedState record' = committedState record ∧
  committedSequenceId record' = committedSequenceId record ∧
  ∀ q, q ∈ pendingStates record' ↔
    q = p ∨ (q ∈ pendingStates record ∧ sequenceId q ≠ sequenceId p).
Proof.
  intros Hs. destruct (apply_store_spec record md [p] None None Hs) as (H1 & H2 & H3 & H4).
  destruct H4 as [(? & ? & _)|(? & ? & ? & _)]; [|done]. split_and!; try done.
  intros q. rewrite H3. change (staged record [p]) with (<[sequenceId p := p]> (staged record [])).
  rewrite lookup_insert_Some, staged_nil by done. unfold survives. naive_solver.
Qed.

Lemma apply_metadata record md :
  sorted_ids (pendingStates record) →
  let record' := applyStore record md [] None None in
  sorted_ids (pendingStates record') ∧ metadata record' = md ∧
  committedState record' = committedState record ∧
  committedSequenceId record' = committedSequenceId record ∧
  ∀ q, q ∈ pendingStates record' ↔ q ∈ pendingStates record.
Proof.
  intros Hs. destruct (apply_store_spec record md [] None None Hs) as (H1 & H2 & H3 & H4).
  destruct H4 as [(? & ? & _)|(? & ? & ? & _)]; [|done]. split_and!; try done.
  intros q. rewrite H3, staged_nil by done. unfold survives. naive_solver.
Qed.
End apply.

(** ** The storage contract *)

(** [TransactionalStorageLoadResponse]: the etag and the record's fields. *)
Record LoadResponse (T : Type) := mkLoad { etag : option string; loaded : StoredRecord T }.
Arguments mkLoad {T}.
Arguments etag {T}.
Arguments loaded {T}.

Inductive StoreError :=
  InconsistentStateError (message : string) (storedEtag currentEtag : option string).

(** [TransactionalStateStorage]: a provider over its state [S]. *)
Class TransactionalStateStorage (S T : Type) := {
  ts_load : S → string → GrainId → LoadResponse T;
  ts_store : S → string → GrainId → option string → TransactionalStateMetadata →
    list (PendingTransactionState T) → option Z → option Z → S * (StoreError + string) }.

(** What its clients rely on: a store is a compare-and-set on the etag whose
    effect is [applyStore], it fails without effect on a mismatch, it leaves
    other keys alone, and no etag is handed out twice. [ts_used] is the
    history of etags, which only the laws mention. *)
Class TransactionalStorageLaws (S T : Type) `{TransactionalStateStorage S T} := {
  ts_used : S → string → Prop;
  ts_valid : S → Prop;
  ts_etag_used s n g e : ts_valid s → etag (ts_load s n g) = Some e → ts_used s e;
  ts_absent s n g : etag (ts_load s n g) = None → loaded (ts_load s n g) = emptyRecord;
  ts_store_ok s n g expected md ps c a :
    ts_valid s → expected = etag (ts_load s n g) →
    ∃ s' e, ts_store s n g expected md ps c a = (s', inr e) ∧ ts_valid s' ∧
      ts_load s' n g = mkLoad (Some e) (applyStore (loaded (ts_load s n g)) md ps c a) ∧
      ¬ ts_used s e ∧ (∀ x, ts_used s' x ↔ x = e ∨ ts_used s x) ∧
      ∀ n' g', participantKey (mkParticipant g' n') ≠ participantKey (mkParticipant g n) →
        ts_load s' n' g' = ts_load s n' g';
  ts_store_conflict s n g expected md ps c a :
    expected ≠ etag (ts_load s n g) →
    ∃ err, ts_store s n g expected md ps c a = (s, inl err) }.

(** ** The in-memory provider *)

Record Entry (T : Type) := mkEntry { e_etag : string; e_record : StoredRecord T }.
Arguments mkEntry {T}.
Arguments e_etag {T}.
Arguments e_record {T}.

Record MemoryTransactionalStorage (T : Type) := mkMemory {
  entries : gmap string (Entry T);
  etagCounter : Z }.
Arguments mkMemory {T}.
Arguments entries {T}.
Arguments etagCounter {T}.

Definition new_memory {T} : MemoryTransactionalStorage T := mkMemory ∅ 0.

Definition storage_key (stateName : string) (grainId : GrainId) : string :=
  (GrainId_toString grainId ++ "/" ++ stateName)%string.

Definition mem_load {T} (m : MemoryTransactionalStorage T) (stateName : string) (grainId : GrainId)
    : LoadResponse T :=
  match entries m !! storage_key stateName grainId with
  | None => mkLoad None emptyRecord
  | Some e => mkLoad (Some (e_etag e)) (e_record e)
  end.

Definition mem_store {T} (m : MemoryTransactionalStorage T) (stateName : string) (grainId : GrainId)
    (expectedETag : option string) (md : TransactionalStateMetadata)
    (statesToPrepare : list (PendingTransactionState T)) (commitUpTo abortAfter : option Z)
    : MemoryTransactionalStorage T * (StoreError + string) :=
  let key := storage_key stateName grainId in
  let entry := entries m !! key in
  if decide (e_etag <$> entry = expectedETag) then
    let record := match entry with Some e => e_record e | None => emptyRecord end in
    let record := applyStore record md statesToPrepare commitUpTo abortAfter in
    let counter := etagCounter m + 1 in
    (mkMemory (<[key := mkEntry (bigint_toString counter) record]> (entries m)) counter,
     inr (bigint_toString counter))
  else
    (m, inl (InconsistentStateError ("transactional store etag conflict for " ++ key)
               expectedETag (e_etag <$> entry))).

#[export] Instance memory_storage T : TransactionalStateStorage (MemoryTransactionalStorage T) T :=
  { ts_load := mem_load; ts_store := mem_store }.

(** The etags handed out are the printed numbers up to the counter. *)
Definition mem_used {T} (m : MemoryTransactionalStorage T) (x : string) : Prop :=
  ∃ i, 0 < i ≤ etagCounter m ∧ x = bigint_toString i.

Definition mem_valid {T} (m : MemoryTransactionalStorage T) : Prop :=
  0 ≤ etagCounter m ∧
  map_Forall (λ _ e, mem_used m (e_etag e) ∧ sorted_ids (pendingStates (e_record e))) (entries m).

Lemma mem_fresh {T} (m : MemoryTransactionalStorage T) :
  ¬ mem_used m (bigint_toString (etagCounter m + 1)).
Proof. intros (i & Hi & Heq%bigint_toString_inj). lia. Qed.

Lemma mem_store_ok {T} (m : MemoryTransactionalStorage T) n g expected md ps c a :
  mem_valid m → expected = etag (mem_load m n g) →
  ∃ m' e, mem_store m n g expected md ps c a = (m', inr e) ∧ mem_valid m' ∧
    mem_load m' n g = mkLoad (Some e) (applyStore (loaded (mem_load m n g)) md ps c a) ∧
    ¬ mem_used m e ∧ (∀ x, mem_used m' x ↔ x = e ∨ mem_used m x) ∧
    ∀ n' g', storage_key n' g' ≠ storage_key n g → mem_load m' n' g' = mem_load m n' g'.
Proof.
  intros [Hc Hm] ->. unfold mem_store.
  rewrite decide_True by (unfold mem_load; by destruct (entries m !! storage_key n g)).
  eexists _, _. split; [done|].
  assert (Hused : ∀ x, mem_used (mkMemory
      (<[storage_key n g := mkEntry (bigint_toString (etagCounter m + 1))
        (applyStore match entries m !! storage_key n g with Some e => e_record e | None => emptyRecord end md ps c a)]>
        (entries m)) (etagCounter m + 1)) x ↔ x = bigint_toString (etagCounter m + 1) ∨ mem_used m x).
  { intros x. unfold mem_used. simpl. split.
    - intros (i & Hi & ->). destruct (decide (i = etagCounter m + 1)) as [->|]; [by left|].
      right. exists i. split; [lia|done].
    - intros [->|(i & Hi & ->)]; eexists; (split; [|done]); lia. }
  split_and!.
  - split; [simpl; lia|]. intros k e. simpl. rewrite lookup_insert_Some.
    intros [[<- <-]|[Hk He]]; simpl; (split; [apply Hused|]).
    + by left.
    + apply apply_store_spec. destruct (entries m !! storage_key n g) as [e|] eqn:E; [|constructor].
      by apply (Hm _ _ E).
    + right. by apply (Hm _ _ He).
    + by apply (Hm _ _ He).
  - unfold mem_load. simpl. rewrite lookup_insert_eq. by destruct (entries m !! storage_key n g).
  - apply mem_fresh.
  - done.
  - intros n' g' Hne. unfold mem_load. simpl. by rewrite lookup_insert_ne.
Qed.

Lemma mem_store_conflict {T} (m : MemoryTransactionalStorage T) n g expected md ps c a :
  expected ≠ etag (mem_load m n g) → ∃ err, mem_store m n g expected md ps c a = (m, inl err).
Proof.
  intros Hne. unfold mem_store. rewrite decide_False; [by eexists|].
  intros Heq. apply Hne. unfold mem_load. by destruct (entries m !! storage_key n g).
Qed.

#[export] Instance memory_laws T :
  TransactionalStorageLaws (MemoryTransactionalStorage T) T.
Proof.
  unshelve refine {| ts_used := mem_used; ts_valid := mem_valid |}.
  - intros m n g e [_ Hm]. simpl. unfold mem_load.
    destruct (entries m !! storage_key n g) as [en|] eqn:E; [|done]. intros [= <-]. by apply (Hm _ _ E).
  - intros m n g. simpl. unfold mem_load. by destruct (entries m !! storage_key n g).
  - apply mem_store_ok.
  - apply mem_store_conflict.
Defined.

(** A sequence of [store] calls, whatever their outcomes. *)
Definition StoreCall (T : Type) : Type :=
  string * GrainId * option string * TransactionalStateMetadata *
  list (PendingTransactionState T) * option Z * option Z.

Definition mem_call {T} (m : MemoryTransactionalStorage T) (call : StoreCall T) :=
  let '(n, g, e, md, ps, c, a) := call in (mem_store m n g e md ps c a).1.

Definition mem_calls {T} (calls : list (StoreCall T)) : MemoryTransactionalStorage T :=
  foldl mem_call new_memory calls.

Lemma mem_calls_valid {T} (calls : list (StoreCall T)) : mem_valid (mem_calls calls).
Proof.
  unfold mem_calls. assert (H0 : mem_valid (@new_memory T)) by (split; [done|apply map_Forall_empty]).
  revert H0. generalize (@new_memory T).
  induction calls as [|[[[[[[n g] e] md] ps] c] a] calls IH]; intros m Hm; [done|]. apply IH. simpl.
  destruct (decide (e = etag (mem_load m n g))) as [He|He].
  - by destruct (mem_store_ok m n g e md ps c a Hm He) as (m' & e' & -> & Hv & _).
  - by destruct (mem_store_conflict m n g e md ps c a He) as [err ->].
Qed.

(** ** Properties *)

(** C7: One [store] call is a function of finite maps. On a record whose
    pending states are sorted by sequence id, the new pending states are
    sorted and are exactly those staged before or by this call, the later
    staging of an id replacing the earlier, whose id lies strictly above
    [commitUpTo] and not above [abortAfter]; the committed version is that of
    the highest staged id up to [commitUpTo], or the old one when none is. *)
Theorem apply_store_contract {T} (record : StoredRecord T) md ps commitUpTo abortAfter :
  sorted_ids (pendingStates record) →
  let record' := applyStore record md ps commitUpTo abortAfter in
  let m := staged record ps in
  sorted_ids (pendingStates record') ∧ metadata record' = md ∧
  (∀ p, p ∈ pendingStates record' ↔
    m !! sequenceId p = Some p ∧ survives commitUpTo abortAfter (sequenceId p)) ∧
  ((committedState record' = committedState record ∧
    committedSequenceId record' = committedSequenceId record ∧
    ∀ c p, commitUpTo = Some c → m !! sequenceId p = Some p → c < sequenceId p) ∨
   (∃ c p, commitUpTo = Some c ∧ m !! sequenceId p = Some p ∧ sequenceId p ≤ c ∧
     (∀ q, m !! sequenceId q = Some q → sequenceId q ≤ c → sequenceId q ≤ sequenceId p) ∧
     committedState record' = Some (state p) ∧ committedSequenceId record' = sequenceId p)).
Proof. apply apply_store_spec. Qed.

(** The in-memory provider is a compare-and-set on the etag. After any
    sequence of stores a store with the current etag succeeds, applies its
    deltas to that key only and returns an etag never returned before; a store
    with any other etag changes nothing. *)
Theorem memory_store_cas {T} (calls : list (StoreCall T)) n g expected md ps c a :
  let m := mem_calls calls in
  let '(m', result) := mem_store m n g expected md ps c a in
  match result with
  | inr e =>
      expected = etag (mem_load m n g) ∧ ¬ mem_used m e ∧ mem_used m' e ∧
      mem_load m' n g = mkLoad (Some e) (applyStore (loaded (mem_load m n g)) md ps c a) ∧
      (∀ n' g', storage_key n' g' ≠ storage_key n g → mem_load m' n' g' = mem_load m n' g')
  | inl _ => expected ≠ etag (mem_load m n g) ∧ m' = m
  end.
Proof.
  cbn zeta. pose proof (mem_calls_valid calls) as Hm. revert Hm. generalize (mem_calls calls).
  intros m Hm. destruct (decide (expected = etag (mem_load m n g))) as [He|He].
  - destruct (mem_store_ok m n g expected md ps c a Hm He) as (m' & e & Hs & Hv & Hl & Hf & Hu & Ho).
    rewrite Hs. split_and!; try done. apply Hu. by left.
  - by destruct (mem_store_conflict m n g expected md ps c a He) as [err ->].
Qed.

(** ** Concrete runs *)

Definition staged_at (id : Z) (tx : string) (v : Z) : PendingTransactionState Z :=
  mkPending id tx 10 None v.

Lemma apply_store_contract_witness :
  let record := mkRecord (Some 0) 0 EMPTY_METADATA [staged_at 1 "a" 10; staged_at 3 "c" 30] in
  let record' := applyStore record EMPTY_METADATA [staged_at 2 "b" 20] (Some 2) None in
  committedState record' = Some 20 ∧ sorted_ids (pendingStates record').
Proof.
  split; [vm_compute; reflexivity|].
  refine (proj1 (apply_store_contract (mkRecord (Some 0) 0 EMPTY_METADATA
    [staged_at 1 "a" 10; staged_at 3 "c" 30]) EMPTY_METADATA [staged_at 2 "b" 20] (Some 2) None _)).
  repeat constructor.
Defined.
