(* ===== verification/TxState.v ===== *)
(** * A transactional state of a grain

    Models [packages/transactions/src/transactional-state-impl.ts]
    (TransactionalStateImpl) over the lock of [RwLock] and any storage
    provider that satisfies the contract of [TxStorage].

    An operation runs from one await to the next. The wait for the lock and the
    resolution of each in-doubt record are separate steps; a call to [store]
    and its continuation are one step, and the fault that step is given says
    whether the call fails before or after it takes effect, which covers a
    store that loses the etag race to an overlapping one. *)
From Stdlib Require Import String.
From stdpp Require Import prelude gmap strings list sorting.
From S2P Require Import Prelude JsMap Ids RwLock TxStorage.
Open Scope Z_scope.

(** [TransactionsOptions]. *)
Record TransactionsOptions := mkOptions {
  lockTimeoutMs : Z;
  confirmationIntervalMs : Z;
  confirmationMaxIntervalMs : Z }.

Definition defaultTransactionsOptions : TransactionsOptions := mkOptions 30000 1000 60000.

(** How a call to the storage goes. *)
Inductive Fault := NoFault | FailBefore | FailAfter.

Section txstate.
Context {T S : Type} `{TransactionalStorageLaws S T}.
Context (stateName : string) (grainId : GrainId) (initial : T).
Context (hasResolver : bool) (options : TransactionsOptions).

Abbreviation Pending := (PendingTransactionState T).

Record Tentative := mkTentative {
  t_transactionId : string;
  t_value : T;
  t_sequenceId : Z;
  t_timeStamp : Z;
  t_prepared : bool }.

(** The continuation of a call that waits for the lock. *)
Inductive Call :=
  | CallRead (tx : string)
  | CallUpdate (tx : string) (ts : Z) (update : T → T).

(** A recovery in progress: of [load] or of the confirmation worker, with the
    records it still has to resolve. *)
Inductive Pass :=
  | Loading (rest : list Pending)
  | Confirming (rest : list Pending).

Definition pass_rest (p : option Pass) : list Pending :=
  match p with Some (Loading l) | Some (Confirming l) => l | None => [] end.

(** The fields of the class. [committed] is [None] where it is [undefined]; [timer]
    is the delay of the armed confirmation timer. [calls] holds the calls
    that wait for a lock promise, [ready] the promises granted so far. *)
Record TransactionalStateImpl := mkImpl {
  committed : option T;
  s_committedSequenceId : Z;
  pendingSequenceIdHighWater : Z;
  s_etag : option string;
  s_metadata : TransactionalStateMetadata;
  tentative : option Tentative;
  inDoubt : list (string * Pending);
  timer : option Z;
  confirmationDelayMs : Z;
  lock : ReaderWriterLock;
  calls : list (nat * Call);
  ready : list nat;
  pass : option Pass }.

Inductive TxEvent :=
  | EvEnlist (tx : string) (reads writes : Z)
  | EvRead (tx : string) (v : option T)
  | EvMint (id : Z)
  | EvLockRejected (promise : nat) (err : LockError)
  | EvThrow
  | EvReadOnlyViolated (tx : string)
  | EvLoadFailed.

Implicit Types x : TransactionalStateImpl.
Implicit Types d : S.
Implicit Types p q : Pending.

Definition new_impl : TransactionalStateImpl :=
  mkImpl None 0 0 None EMPTY_METADATA None [] None 0 new_lock [] [] None.

(** Field updates. *)
Definition with_committed x (v : option T) (id : Z) :=
  mkImpl v id (pendingSequenceIdHighWater x) (s_etag x) (s_metadata x) (tentative x) (inDoubt x)
    (timer x) (confirmationDelayMs x) (lock x) (calls x) (ready x) (pass x).
Definition with_etag x (e : option string) :=
  mkImpl (committed x) (s_committedSequenceId x) (pendingSequenceIdHighWater x) e (s_metadata x)
    (tentative x) (inDoubt x) (timer x) (confirmationDelayMs x) (lock x) (calls x) (ready x) (pass x).
Definition with_metadata x (md : TransactionalStateMetadata) :=
  mkImpl (committed x) (s_committedSequenceId x) (pendingSequenceIdHighWater x) (s_etag x) md
    (tentative x) (inDoubt x) (timer x) (confirmationDelayMs x) (lock x) (calls x) (ready x) (pass x).
Definition with_tentative x (t : option Tentative) (highWater : Z) :=
  mkImpl (committed x) (s_committedSequenceId x) highWater (s_etag x) (s_metadata x)
    t (inDoubt x) (timer x) (confirmationDelayMs x) (lock x) (calls x) (ready x) (pass x).
Definition with_inDoubt x (m : list (string * Pending)) :=
  mkImpl (committed x) (s_committedSequenceId x) (pendingSequenceIdHighWater x) (s_etag x)
    (s_metadata x) (tentative x) m (timer x) (confirmationDelayMs x) (lock x) (calls x) (ready x) (pass x).
Definition with_timer x (t : option Z) (delay : Z) :=
  mkImpl (committed x) (s_committedSequenceId x) (pendingSequenceIdHighWater x) (s_etag x)
    (s_metadata x) (tentative x) (inDoubt x) t delay (lock x) (calls x) (ready x) (pass x).
Definition with_lock x (l : ReaderWriterLock) (c : list (nat * Call)) (r : list nat) :=
  mkImpl (committed x) (s_committedSequenceId x) (pendingSequenceIdHighWater x) (s_etag x)
    (s_metadata x) (tentative x) (inDoubt x) (timer x) (confirmationDelayMs x) l c r (pass x).
Definition with_pass x (ps : option Pass) :=
  mkImpl (committed x) (s_committedSequenceId x) (pendingSequenceIdHighWater x) (s_etag x)
    (s_metadata x) (tentative x) (inDoubt x) (timer x) (confirmationDelayMs x) (lock x) (calls x)
    (ready x) ps.

(** ** The lock *)

(** What the lock's events do to the calls that wait on its promises. *)
Fixpoint on_lock_events (c : list (nat * Call)) (r : list nat) (evs : list Event)
    : list (nat * Call) * list nat * list TxEvent :=
  match evs with
  | [] => (c, r, [])
  | EResolve p :: evs' => on_lock_events c (r ++ [p]) evs'
  | EReject p err :: evs' =>
      let '(c', r', out) := on_lock_events (jm_delete p c) r evs' in
      (c', r', EvLockRejected p err :: out)
  | _ :: evs' => on_lock_events c r evs'
  end.

Definition locked x (res : ReaderWriterLock * list Event) (c : list (nat * Call))
    : TransactionalStateImpl * list TxEvent :=
  let '(l, evs) := res in
  let '(c', r', out) := on_lock_events c (ready x) evs in
  (with_lock x l c' r', out).

Definition await_lock x (tx : string) (ts : Z) (mode : LockMode) (call : Call) :=
  locked x (enter (lock x) tx ts mode (Some (lockTimeoutMs options)))
    (calls x ++ [(next_promise (lock x), call)]).

Definition release_lock x (tx : string) := locked x (release (lock x) tx) (calls x).

(** ** Storage *)

Definition storeState x d (fault : Fault) (statesToPrepare : list Pending)
    (commitUpTo abortAfter : option Z) (md : TransactionalStateMetadata)
    : TransactionalStateImpl * S * bool :=
  match fault with
  | FailBefore => (x, d, false)
  | _ =>
      match ts_store d stateName grainId (s_etag x) md statesToPrepare commitUpTo abortAfter with
      | (d', inl _) => (x, d', false)
      | (d', inr e) =>
          match fault with
          | FailAfter => (x, d', false)
          | _ => (with_etag x (Some e), d', true)
          end
      end
  end.

(** ** Recovery *)

Definition scheduleConfirmationWorker x : TransactionalStateImpl :=
  match timer x with
  | Some _ => x
  | None =>
      let delay := Z.min (confirmationMaxIntervalMs options)
        (if decide (confirmationDelayMs x = 0) then confirmationIntervalMs options
         else confirmationDelayMs x * 2) in
      with_timer x (Some delay) delay
  end.

Definition status x (tx : string) : bool := bool_decide (is_Some (commitRecords (s_metadata x) !! tx)).

Definition isSelf (manager : option ParticipantId) : bool :=
  match manager with
  | Some m => GrainId_equals (pt_grainId m) grainId && String.eqb (pt_stateName m) stateName
  | None => false
  end.

(** The TM's answer to [resolveStatus]; [None] is a rejected query. *)
Definition ask x (answer : option bool) p : option bool :=
  match transactionManager p with
  | Some _ => if isSelf (transactionManager p) then Some (status x (transactionId p)) else answer
  | None => Some false
  end.

(** [resolveOne]; the result is [None] when the store threw. *)
Definition resolveOne x d (fault : Fault) (answer : option bool) p
    : TransactionalStateImpl * S * option bool :=
  match ask x answer p with
  | None => (with_inDoubt x (jm_set (transactionId p) p (inDoubt x)), d, Some false)
  | Some true =>
      if decide (s_committedSequenceId x < sequenceId p) then
        let '(x1, d1, ok) := storeState x d fault [] (Some (sequenceId p)) None (s_metadata x) in
        if ok : bool then
          let x2 := with_committed x1 (Some (state p)) (sequenceId p) in
          (with_inDoubt x2 (jm_delete (transactionId p) (inDoubt x2)), d1, Some true)
        else (x1, d1, None)
      else (with_inDoubt x (jm_delete (transactionId p) (inDoubt x)), d, Some true)
  | Some false =>
      let '(x1, d1, ok) := storeState x d fault [] None (Some (sequenceId p - 1)) (s_metadata x) in
      if ok : bool then (with_inDoubt x1 (jm_delete (transactionId p) (inDoubt x1)), d1, Some true)
      else (x1, d1, None)
  end.

(** The end of [runConfirmationPass]. *)
Definition finish_confirming x : TransactionalStateImpl :=
  let x := with_pass x None in
  if decide (inDoubt x = []) then with_timer x (timer x) 0 else scheduleConfirmationWorker x.

(** The end of [recover]. *)
Definition finish_loading x : TransactionalStateImpl :=
  let x := with_pass x None in
  if decide (inDoubt x = []) then x else scheduleConfirmationWorker x.

(** One iteration of the loops of [recover] and [runConfirmationPass]. *)
Definition pass_step x d (fault : Fault) (answer : option bool)
    : TransactionalStateImpl * S * list TxEvent :=
  match pass x with
  | Some (Loading (p :: rest)) =>
      let '(x1, d1, res) := resolveOne x d fault answer p in
      match res with
      | None => (with_pass x1 None, d1, [EvLoadFailed])
      | Some _ =>
          (match rest with [] => finish_loading x1 | _ => with_pass x1 (Some (Loading rest)) end, d1, [])
      end
  | Some (Confirming (p :: rest)) =>
      let '(x1, d1, res) := resolveOne x d fault answer p in
      match res with
      | None => (finish_confirming x1, d1, [])
      | Some _ =>
          (match rest with [] => finish_confirming x1 | _ => with_pass x1 (Some (Confirming rest)) end,
           d1, [])
      end
  | _ => (x, d, [])
  end.

(** The confirmation timer's callback, up to its first await. *)
Definition timer_fires x : TransactionalStateImpl :=
  match timer x with
  | None => x
  | Some _ =>
      let x := with_timer x None (confirmationDelayMs x) in
      match jm_values (inDoubt x) with
      | [] => finish_confirming x
      | l => with_pass x (Some (Confirming l))
      end
  end.

(** [load], on a fresh instance, up to the first record it has to resolve. *)
Definition load d : TransactionalStateImpl :=
  let response := ts_load d stateName grainId in
  let r := loaded response in
  let x := mkImpl
    (if decide (committedSequenceId r = 0) then Some initial else committedState r)
    (committedSequenceId r)
    (foldl (λ hw p, Z.max hw (sequenceId p)) 0 (pendingStates r))
    (etag response) (metadata r) None [] None 0 new_lock [] [] None in
  match pendingStates r with
  | [] => x
  | l => if hasResolver then with_pass x (Some (Loading l)) else x
  end.

Definition unload x : TransactionalStateImpl := with_timer x None 0.

(** ** Reads and updates *)

Definition performRead x (tx : string) (ts : Z) (exclusive : bool) :=
  await_lock x tx ts (if exclusive then Write else Read) (CallRead tx).

Definition performUpdate x (tx : string) (ts : Z) (readOnly : bool) (update : T → T) :=
  if readOnly then (x, [EvReadOnlyViolated tx])
  else await_lock x tx ts Write (CallUpdate tx ts update).

Definition nextSequenceId x : Z := Z.max (s_committedSequenceId x) (pendingSequenceIdHighWater x) + 1.

Definition owns_tentative x (tx : string) : bool :=
  match tentative x with Some t => String.eqb (t_transactionId t) tx | None => false end.

(** The rest of [performRead] and [performUpdate] once the lock is granted.
    The committed value is defined after [load]; were it [undefined], [clone]
    would be of [undefined], which is the [None] branch. *)
Definition continue_call x (call : Call) : TransactionalStateImpl * list TxEvent :=
  match call with
  | CallRead tx =>
      (x, [EvEnlist tx 1 0;
           EvRead tx (match tentative x with
                      | Some t => if String.eqb (t_transactionId t) tx then Some (t_value t) else committed x
                      | None => committed x
                      end)])
  | CallUpdate tx ts update =>
      let own := match tentative x with
                 | Some t => if String.eqb (t_transactionId t) tx then Some t else None
                 | None => None
                 end in
      match own with
      | Some t =>
          (with_tentative x (Some (mkTentative tx (update (t_value t)) (t_sequenceId t) (t_timeStamp t) (t_prepared t)))
             (pendingSequenceIdHighWater x), [EvEnlist tx 0 1])
      | None =>
          let id := nextSequenceId x in
          match committed x with
          | Some v =>
              (with_tentative x (Some (mkTentative tx (update v) id ts false)) id,
               [EvEnlist tx 0 1; EvMint id])
          | None => (x, [EvEnlist tx 0 1; EvThrow])
          end
      end
  end.

Definition continue_ready x (promise : nat) : TransactionalStateImpl * list TxEvent :=
  if decide (promise ∈ ready x) then
    let x1 := with_lock x (lock x) (jm_delete promise (calls x)) (filter (λ n, n ≠ promise) (ready x)) in
    match jm_get promise (calls x) with
    | Some call => continue_call x1 call
    | None => (x1, [])
    end
  else (x, []).

(** ** Two-phase commit *)

Definition prepare x d (fault : Fault) (tx : string) (ts : Z) (manager : ParticipantId)
    : TransactionalStateImpl * S * list TxEvent :=
  match tentative x with
  | Some t =>
      if String.eqb (t_transactionId t) tx then
        let pending := mkPending (t_sequenceId t) tx ts (Some manager) (t_value t) in
        let '(x1, d1, ok) := storeState x d fault [pending] None None (s_metadata x) in
        if ok : bool then
          (with_tentative x1 (Some (mkTentative (t_transactionId t) (t_value t) (t_sequenceId t) (t_timeStamp t) true))
             (pendingSequenceIdHighWater x1), d1, [])
        else (x1, d1, [EvThrow])
      else (x, d, [])
  | None => (x, d, [])
  end.

Definition recordCommit x d (fault : Fault) (tx : string) (ts : Z) (writers : list ParticipantId)
    : TransactionalStateImpl * S * list TxEvent :=
  let md := mkMetadata (Z.max (md_timeStamp (s_metadata x)) ts)
    (<[tx := mkCommitRecord ts (participantKey <$> writers)]> (commitRecords (s_metadata x))) in
  let '(x1, d1, ok) := storeState x d fault [] None None md in
  if ok : bool then (with_metadata x1 md, d1, []) else (x1, d1, [EvThrow]).

(** The [finally] of [commit] and [abort]. *)
Definition finally_release (r : TransactionalStateImpl * S * list TxEvent) (tx : string)
    : TransactionalStateImpl * S * list TxEvent :=
  let '(x, d, out) := r in
  let '(x', out') := release_lock x tx in (x', d, out ++ out').

Definition commit_body x d (fault : Fault) (tx : string) : TransactionalStateImpl * S * list TxEvent :=
  match tentative x with
  | Some t =>
      if String.eqb (t_transactionId t) tx then
        let '(x1, d1, ok) := storeState x d fault [] (Some (t_sequenceId t)) None (s_metadata x) in
        if ok : bool then
          let x2 := with_committed x1 (Some (t_value t)) (t_sequenceId t) in
          (with_tentative x2 None (pendingSequenceIdHighWater x2), d1, [])
        else (x1, d1, [EvThrow])
      else (x, d, [])
  | None => (x, d, [])
  end.

Definition commit x d (fault : Fault) (tx : string) := finally_release (commit_body x d fault tx) tx.

Definition abort_body x d (fault : Fault) (tx : string) : TransactionalStateImpl * S * list TxEvent :=
  match tentative x with
  | Some t =>
      if String.eqb (t_transactionId t) tx then
        if t_prepared t then
          let '(x1, d1, ok) := storeState x d fault [] None (Some (t_sequenceId t - 1)) (s_metadata x) in
          if ok : bool then (with_tentative x1 None (pendingSequenceIdHighWater x1), d1, [])
          else (x1, d1, [EvThrow])
        else (with_tentative x None (pendingSequenceIdHighWater x), d, [])
      else (x, d, [])
  | None => (x, d, [])
  end.

Definition abort x d (fault : Fault) (tx : string) := finally_release (abort_body x d fault tx) tx.

(** ** Executions *)

Inductive TxOp :=
  | PerformRead (tx : string) (ts : Z) (exclusive : bool)
  | PerformUpdate (tx : string) (ts : Z) (readOnly : bool) (update : T → T)
  | Continue (promise : nat)
  | LockDeadline (promise : nat)
  | Prepare (fault : Fault) (tx : string) (ts : Z) (manager : ParticipantId)
  | RecordCommit (fault : Fault) (tx : string) (ts : Z) (writers : list ParticipantId)
  | Commit (fault : Fault) (tx : string)
  | Abort_ (fault : Fault) (tx : string)
  | PassStep (fault : Fault) (answer : option bool)
  | TimerFires
  | Unload
  | OtherStore (expected : option string) (md : TransactionalStateMetadata)
      (ps : list Pending) (commitUpTo abortAfter : option Z).

Definition exec_tx (w : TransactionalStateImpl * S) (o : TxOp)
    : (TransactionalStateImpl * S) * list TxEvent :=
  let '(x, d) := w in
  let keep (r : TransactionalStateImpl * list TxEvent) := ((r.1, d), r.2) in
  match o with
  | PerformRead tx ts exclusive => keep (performRead x tx ts exclusive)
  | PerformUpdate tx ts readOnly update => keep (performUpdate x tx ts readOnly update)
  | Continue promise => keep (continue_ready x promise)
  | LockDeadline promise => keep (locked x (deadline_elapsed (lock x) promise) (calls x))
  | Prepare fault tx ts manager => prepare x d fault tx ts manager
  | RecordCommit fault tx ts writers => recordCommit x d fault tx ts writers
  | Commit fault tx => commit x d fault tx
  | Abort_ fault tx => abort x d fault tx
  | PassStep fault answer => pass_step x d fault answer
  | TimerFires => ((timer_fires x, d), [])
  | Unload => ((unload x, d), [])
  | OtherStore expected md ps c a =>
      ((x, (ts_store d stateName grainId expected md ps c a).1), [])
  end.

(** ** The invariant

    The records whose fate is still open, and the fields a record in the
    storage is compared with. *)
Definition to_resolve x : list Pending := jm_values (inDoubt x) ++ pass_rest (pass x).

Definition core x :=
  (committed x, s_committedSequenceId x, pendingSequenceIdHighWater x, s_etag x, s_metadata x, tentative x).

(** Sequence ids: the tentative version's is above the committed one and above
    every record in doubt, and all of them are below the high-water mark. *)
Record wf_ids x : Prop := {
  wi_tentative t : tentative x = Some t →
    s_committedSequenceId x < t_sequenceId t ≤ pendingSequenceIdHighWater x;
  wi_resolve p : p ∈ to_resolve x →
    sequenceId p ≤ pendingSequenceIdHighWater x ∧
    ∀ t, tentative x = Some t → sequenceId p < t_sequenceId t }.

(** The committed version a durable record stands for. *)
Definition committed_view (r : StoredRecord T) : option T :=
  if decide (committedSequenceId r = 0) then Some initial else committedState r.

(** The activation's view of the durable record. *)
Record agrees x (r : StoredRecord T) : Prop := {
  ag_sorted : sorted_ids (pendingStates r);
  ag_id : s_committedSequenceId x = committedSequenceId r;
  ag_nonneg : 0 ≤ committedSequenceId r;
  ag_metadata : s_metadata x = metadata r;
  ag_value : committed x = committed_view r;
  ag_highWater p : p ∈ pendingStates r → sequenceId p ≤ pendingSequenceIdHighWater x;
  ag_top t p : tentative x = Some t → p ∈ pendingStates r → sequenceId p ≤ t_sequenceId t;
  ag_prepared t : tentative x = Some t → t_prepared t = true →
    ∃ p, p ∈ pendingStates r ∧ sequenceId p = t_sequenceId t ∧ state p = t_value t;
  ag_resolve p : p ∈ to_resolve x → s_committedSequenceId x < sequenceId p → p ∈ pendingStates r }.

Definition etag_known x d : Prop := ∀ e, s_etag x = Some e → ts_used d e.
Definition current x d : Prop := s_etag x = etag (ts_load d stateName grainId).
#[local] Instance current_dec x d : Decision (current x d).
Proof. unfold current. apply _. Defined.

Definition durable d : StoredRecord T := loaded (ts_load d stateName grainId).

Record inv (w : TransactionalStateImpl * S) : Prop := {
  inv_valid : ts_valid w.2;
  inv_etag : etag_known w.1 w.2;
  inv_ids : wf_ids w.1;
  inv_agrees : current w.1 w.2 → agrees w.1 (durable w.2) }.

(** Equal fields and no new open records keep the invariant. *)
Lemma inv_core x x' d :
  core x' = core x → (∀ p, p ∈ to_resolve x' → p ∈ to_resolve x) → inv (x, d) → inv (x', d).
Proof.
  intros Hc Hr [Hv He [Hi1 Hi2] Ha]. unfold core in Hc. simpl in *.
  injection Hc as E1 E2 E3 E4 E5 E6.
  split; simpl; [done|intros e Hx; apply He; congruence| |].
  - split; [intros t; rewrite E2, E3, E6; apply Hi1|].
    intros p Hp. rewrite E3, E6. by apply Hi2, Hr.
  - unfold current in *. rewrite E4. intros [A1 A2 A3 A4 A5 A6 A7 A8 A9]%Ha.
    split; rewrite ?E1, ?E2, ?E3, ?E5, ?E6; try done. intros p Hp. by apply A9, Hr.
Qed.

Lemma locked_core x res c : core (locked x res c).1 = core x.
Proof. unfold locked. destruct res as [l evs]. by destruct (on_lock_events _ _ _) as [[c' r'] out]. Qed.

Lemma locked_resolve x res c : to_resolve (locked x res c).1 = to_resolve x.
Proof. unfold locked. destruct res as [l evs]. by destruct (on_lock_events _ _ _) as [[c' r'] out]. Qed.

Lemma inv_locked x d res c : inv (x, d) → inv ((locked x res c).1, d).
Proof. apply inv_core; [apply locked_core|by rewrite locked_resolve]. Qed.

(** A call to the storage: the activation's etag was current and now is again,
    or its fields are unchanged, and so is the record unless the etag is stale
    from now on. *)
Lemma storeState_cases x d fault ps cu aa md :
  ts_valid d → etag_known x d →
  let '(x', d', ok) := storeState x d fault ps cu aa md in
  ts_valid d' ∧ etag_known x' d' ∧
  if ok : bool
  then current x d ∧ (∃ e, x' = with_etag x (Some e)) ∧ current x' d' ∧
       durable d' = applyStore (durable d) md ps cu aa
  else x' = x ∧ (d' = d ∨ ¬ current x d').
Proof.
  intros Hv He. unfold storeState. destruct fault; [|by split_and!; [..|left]|].
  all: destruct (decide (current x d)) as [Hc|Hc].
  2,4: destruct (ts_store_conflict d stateName grainId (s_etag x) md ps cu aa Hc) as [err ->];
    by split_and!; [..|left].
  all: destruct (ts_store_ok d stateName grainId (s_etag x) md ps cu aa Hv Hc)
    as (d' & e & -> & Hv' & Hl & Hf & Hu & _).
  - split_and!; [done| |done|by exists e|unfold current; by rewrite Hl|unfold durable; by rewrite Hl].
    intros e' [= <-]. apply Hu. by left.
  - split_and!; [done|intros e' He'; apply Hu; right; by apply He|done|].
    right. unfold current. rewrite Hl. simpl. intros Heq. by apply Hf, He.
Qed.

Lemma inv_store_failed x d d' :
  inv (x, d) → ts_valid d' → etag_known x d' → d' = d ∨ ¬ current x d' → inv (x, d').
Proof.
  intros [Hv He Hi Ha] Hv' He' [->|Hn]; [done|]. by split.
Qed.

(** The lemma every storing operation uses: what it does with its fields after
    a successful store must agree with the new record. *)
Lemma inv_storeState x d fault ps cu aa md
    (k : TransactionalStateImpl → TransactionalStateImpl) :
  inv (x, d) →
  (∀ e, s_etag (k (with_etag x e)) = e) →
  (current x d → ∀ e, wf_ids (k (with_etag x e)) ∧
     agrees (k (with_etag x e)) (applyStore (durable d) md ps cu aa)) →
  let '(x', d', ok) := storeState x d fault ps cu aa md in
  inv (if ok : bool then k x' else x', d').
Proof.
  intros Hinv Hetag Hk. destruct Hinv as [Hv He Hi Ha] eqn:Heq. simpl in *.
  pose proof (storeState_cases x d fault ps cu aa md Hv He) as Hs.
  destruct (storeState x d fault ps cu aa md) as [[x' d'] ok]. destruct Hs as (Hv' & He' & Hs).
  destruct ok.
  - destruct Hs as (Hc & [e ->] & Hc' & Hd). destruct (Hk Hc (Some e)) as [Hi' Ha'].
    split; simpl; [done| |done|by rewrite Hd].
    unfold etag_known in *. rewrite Hetag. apply He'.
  - destruct Hs as [-> Hs]. by eapply inv_store_failed.
Qed.

(** ** Every step keeps the invariant *)

(** The records that stay open once [p] is resolved and [rest] remain. *)
Definition open_after x p (rest : list Pending) : list Pending :=
  jm_values (jm_delete (transactionId p) (inDoubt x)) ++ rest.

(** Dropping [p] spares every other open record: it is the highest staged. *)
Definition highest x p (rest : list Pending) : Prop :=
  (∀ t, tentative x = Some t → t_prepared t = false) ∧
  ∀ q, q ∈ open_after x p rest → sequenceId q < sequenceId p.

Lemma open_after_resolve x p rest q :
  (∀ r, r ∈ rest → r ∈ pass_rest (pass x)) → q ∈ open_after x p rest → q ∈ to_resolve x.
Proof.
  intros Hr. unfold open_after, to_resolve. rewrite !elem_of_app.
  intros [Hq|Hq]; [left; by eapply jm_elem_values_delete|right; auto].
Qed.

(** A successful promotion of the staged record [p]. *)
Lemma promote_agrees x r p x' :
  agrees x r → wf_ids x → p ∈ pendingStates r → s_committedSequenceId x < sequenceId p →
  (∀ t, tentative x' = Some t → tentative x = Some t ∧ sequenceId p < t_sequenceId t) →
  committed x' = Some (state p) → s_committedSequenceId x' = sequenceId p →
  s_metadata x' = s_metadata x → pendingSequenceIdHighWater x' = pendingSequenceIdHighWater x →
  (∀ q, q ∈ to_resolve x' → q ∈ to_resolve x) →
  wf_ids x' ∧ agrees x' (applyStore r (s_metadata x) [] (Some (sequenceId p)) None).
Proof.
  intros [A1 A2 A3 A4 A5 A6 A7 A8 A9] [I1 I2] Hp Hlt Ht Hc Hid Hmd Hhw Hr.
  destruct (apply_commit r (s_metadata x) p A1 Hp) as (B1 & B2 & B3 & B4 & B5). split.
  - split; [|intros q Hq; destruct (I2 q (Hr q Hq)) as [? Hq']; split; [lia|]].
    + intros t [Htx ?]%Ht. destruct (I1 t Htx). lia.
    + intros t [Htx ?]%Ht. by apply Hq'.
  - split; try done.
    + by rewrite B4.
    + rewrite B4. lia.
    + by rewrite B2.
    + unfold committed_view. rewrite B3, B4, decide_False by lia. done.
    + intros q [Hq _]%B5. rewrite Hhw. by apply A6.
    + intros t q [Htx _]%Ht [Hq _]%B5. by eapply A7.
    + intros t [Htx Hpt]%Ht Hprep. destruct (A8 t Htx Hprep) as (q & Hq & Hqt & Hv).
      exists q. split_and!; [|done..]. apply B5. split; [done|lia].
    + intros q Hq%Hr Hlt'. rewrite Hid in Hlt'. apply B5. split; [apply A9; [done|lia]|done].
Qed.

(** A successful drop of the records from [a + 1] on. *)
Lemma drop_agrees x r a x' :
  agrees x r → wf_ids x →
  (∀ t, tentative x' = Some t → tentative x = Some t ∧ t_prepared t = false) →
  committed x' = committed x → s_committedSequenceId x' = s_committedSequenceId x →
  s_metadata x' = s_metadata x → pendingSequenceIdHighWater x' = pendingSequenceIdHighWater x →
  (∀ q, q ∈ to_resolve x' → q ∈ to_resolve x ∧ sequenceId q ≤ a) →
  wf_ids x' ∧ agrees x' (applyStore r (s_metadata x) [] None (Some a)).
Proof.
  intros [A1 A2 A3 A4 A5 A6 A7 A8 A9] [I1 I2] Ht Hc Hid Hmd Hhw Hr.
  destruct (apply_abort r (s_metadata x) a A1) as (B1 & B2 & B3 & B4 & B5). split.
  - split; [|intros q Hq; destruct (I2 q (proj1 (Hr q Hq))) as [? Hq']; split; [lia|]].
    + intros t [Htx ?]%Ht. destruct (I1 t Htx). lia.
    + intros t [Htx ?]%Ht. by apply Hq'.
  - split; try done.
    + by rewrite B4, Hid.
    + unfold committed_view in *. by rewrite B3, B4, Hc.
    + intros q [Hq _]%B5. rewrite Hhw. by apply A6.
    + intros t q [Htx _]%Ht [Hq _]%B5. by eapply A7.
    + intros t [_ Hf]%Ht. congruence.
    + intros q [Hq Hle]%Hr Hlt. rewrite Hid in Hlt. apply B5. split; [by apply A9|done].
Qed.

Lemma resolveOne_inv x d fault answer p (ps : option Pass) :
  inv (x, d) → p ∈ to_resolve x → (∀ r, r ∈ pass_rest ps → r ∈ pass_rest (pass x)) →
  (ask x answer p = Some false → highest x p (pass_rest ps)) →
  let '(x1, d1, res) := resolveOne x d fault answer p in
  inv (with_pass x1 (match res with Some _ => ps | None => None end), d1).
Proof.
  intros Hinv Hp Hps Hhigh. pose proof Hinv as [_ _ Hi Ha]. simpl in Hi, Ha. unfold resolveOne.
  destruct (ask x answer p) as [[]|] eqn:Hask.
  - case_decide as Hlt.
    + pose proof (inv_storeState x d fault [] (Some (sequenceId p)) None (s_metadata x)
        (λ y, with_pass (with_inDoubt (with_committed y (Some (state p)) (sequenceId p))
           (jm_delete (transactionId p) (inDoubt y))) ps) Hinv) as Hk.
      destruct (storeState x d fault _ _ _ _) as [[x1 d1] []]; [apply Hk|eapply inv_core; [| |apply Hk]]; try done.
      2: by intros q; unfold to_resolve; rewrite app_nil_r; intros Hq; apply elem_of_app; left.
      all: intros Hc e; specialize (Ha Hc).
      all: apply (promote_agrees x (durable d) p); try done.
      1,4: by eapply ag_resolve.
      1,3: intros t Ht; split; [done|]; by apply (wi_resolve _ Hi p Hp).
      all: intros q Hq; exact (open_after_resolve x p (pass_rest ps) q Hps Hq).
    + eapply inv_core; [| |exact Hinv]; [done|]. intros q Hq.
      exact (open_after_resolve x p (pass_rest ps) q Hps Hq).
  - destruct (Hhigh eq_refl) as [Hprep Hmax].
    pose proof (inv_storeState x d fault [] None (Some (sequenceId p - 1)) (s_metadata x)
      (λ y, with_pass (with_inDoubt y (jm_delete (transactionId p) (inDoubt y))) ps) Hinv) as Hk.
    destruct (storeState x d fault _ _ _ _) as [[x1 d1] []]; [apply Hk|eapply inv_core; [| |apply Hk]]; try done.
    2: by intros q; unfold to_resolve; rewrite app_nil_r; intros Hq; apply elem_of_app; left.
    all: intros Hc e; specialize (Ha Hc); apply (drop_agrees x (durable d)); try done.
    1,3: intros t Ht; split; [done|by apply Hprep].
    all: intros q Hq; (split; [exact (open_after_resolve x p (pass_rest ps) q Hps Hq)|]); specialize (Hmax q Hq); lia.
  - eapply inv_core; [| |exact Hinv]; [done|]. intros q. unfold to_resolve in *. simpl.
    rewrite !elem_of_app. intros [[->|Hq]%jm_elem_values_set|Hq]; [by apply elem_of_app|by left|].
    right. by apply Hps.
Qed.

Lemma inv_pass_end x d : inv (x, d) → inv (finish_confirming x, d) ∧ inv (finish_loading x, d).
Proof.
  intros Hinv.
  assert (Hr : ∀ q, q ∈ to_resolve (with_pass x None) → q ∈ to_resolve x).
  { intros q. unfold to_resolve. rewrite app_nil_r. intros Hq. apply elem_of_app. by left. }
  unfold finish_confirming, finish_loading, scheduleConfirmationWorker.
  split; cbn zeta; case_decide; try case_match; (eapply inv_core; [| |exact Hinv]; [done|exact Hr]).
Qed.

(** The protocol the transaction agent follows, and the one condition on
    recovery: no update after the prepare of its transaction, a commit only
    after the prepare, and a record resolved as aborted has no staged record
    above it. *)
Definition op_ok x (o : TxOp) : Prop :=
  match o with
  | Continue promise =>
      ∀ tx ts u t, jm_get promise (calls x) = Some (CallUpdate tx ts u) →
        tentative x = Some t → t_transactionId t = tx → t_prepared t = false
  | Commit _ tx =>
      ∀ t, tentative x = Some t → t_transactionId t = tx → t_prepared t = true
  | PassStep _ answer =>
      match pass_rest (pass x) with
      | p :: rest => ask x answer p = Some false → highest x p rest
      | [] => True
      end
  | _ => True
  end.

Lemma pass_step_inv x d fault answer :
  inv (x, d) → op_ok x (PassStep fault answer) → inv (pass_step x d fault answer).1.
Proof.
  intros Hinv Hok. unfold pass_step, op_ok in *.
  destruct (pass x) as [[[|p rest]|[|p rest]]|] eqn:Hpass; try done; simpl in Hok;
    (assert (Hp : p ∈ to_resolve x)
      by (unfold to_resolve; rewrite Hpass; apply elem_of_app; right; left));
    (assert (Hrest : ∀ r, r ∈ rest → r ∈ pass_rest (pass x)) by (rewrite Hpass; by right)).
  - pose proof (resolveOne_inv x d fault answer p (Some (Loading rest)) Hinv Hp Hrest Hok) as Hr.
    destruct (resolveOne x d fault answer p) as [[x1 d1] [b|]]; [|exact Hr].
    destruct rest; [|exact Hr]. exact (proj2 (inv_pass_end _ _ Hr)).
  - pose proof (resolveOne_inv x d fault answer p (Some (Confirming rest)) Hinv Hp Hrest Hok) as Hr.
    destruct (resolveOne x d fault answer p) as [[x1 d1] [b|]];
      [|exact (proj1 (inv_pass_end _ _ Hr))].
    destruct rest; [|exact Hr]. exact (proj1 (inv_pass_end _ _ Hr)).
Qed.

Lemma timer_fires_inv x d : inv (x, d) → inv (timer_fires x, d).
Proof.
  intros Hinv. unfold timer_fires. destruct (timer x); [|done]. cbn zeta.
  assert (H1 : inv (with_timer x None (confirmationDelayMs x), d)).
  { by eapply inv_core; [| |exact Hinv]. }
  destruct (jm_values _) as [|p l] eqn:E; [exact (proj1 (inv_pass_end _ _ H1))|].
  eapply inv_core; [| |exact Hinv]; [done|]. intros q. unfold to_resolve. cbn [inDoubt with_pass with_timer] in *.
  simpl in E. simpl. rewrite E. rewrite !elem_of_app. tauto.
Qed.

(** A transaction's tentative version is minted above every id in use. *)
Lemma nextSequenceId_above x :
  s_committedSequenceId x < nextSequenceId x ∧ pendingSequenceIdHighWater x < nextSequenceId x.
Proof. unfold nextSequenceId. lia. Qed.

Lemma mint_inv x d t :
  inv (x, d) → t_sequenceId t = nextSequenceId x → t_prepared t = false →
  inv (with_tentative x (Some t) (nextSequenceId x), d).
Proof.
  intros [Hv He [I1 I2] Ha] Hid Hp. pose proof (nextSequenceId_above x) as [Hn1 Hn2]. simpl in *.
  split; simpl; [done..| |].
  - split; simpl; [intros ? [= <-]; lia|]. intros p [Hle _]%I2. split; [lia|]. intros ? [= <-]. lia.
  - intros [A1 A2 A3 A4 A5 A6 A7 A8 A9]%Ha. split; simpl; try done.
    + intros p Hin%A6. lia.
    + intros ? p [= <-] Hin%A6. lia.
    + intros ? [= <-]. congruence.
Qed.

Lemma update_inv x d t t' :
  inv (x, d) → tentative x = Some t → t_prepared t' = false → t_sequenceId t' = t_sequenceId t →
  inv (with_tentative x (Some t') (pendingSequenceIdHighWater x), d).
Proof.
  intros [Hv He [I1 I2] Ha] Ht Hp Hid. simpl in *. split; simpl; [done..| |].
  - split; simpl; [intros ? [= <-]; rewrite Hid; by apply I1|].
    intros p Hin. destruct (I2 p Hin) as [? Hq]. split; [done|]. intros ? [= <-]. rewrite Hid. by apply Hq.
  - intros [A1 A2 A3 A4 A5 A6 A7 A8 A9]%Ha. split; simpl; try done.
    + intros ? p [= <-] Hin. rewrite Hid. by eapply A7.
    + intros ? [= <-]. congruence.
Qed.

Lemma continue_inv x d promise :
  inv (x, d) → op_ok x (Continue promise) → inv ((continue_ready x promise).1, d).
Proof.
  intros Hinv Hok. unfold continue_ready. case_decide; [|done]. cbn zeta.
  set (x1 := with_lock _ _ _ _).
  assert (Hx1 : inv (x1, d)) by (by eapply inv_core; [| |exact Hinv]).
  destruct (jm_get promise (calls x)) as [[tx|tx ts u]|] eqn:Hcall; [done| |done].
  unfold continue_call. cbn zeta.
  assert (Hmint : inv ((match committed x1 with
      | Some v => (with_tentative x1 (Some (mkTentative tx (u v) (nextSequenceId x1) ts false)) (nextSequenceId x1),
                   [EvEnlist tx 0 1; EvMint (nextSequenceId x1)])
      | None => (x1, [EvEnlist tx 0 1; EvThrow]) end).1, d)).
  { destruct (committed x1); [by apply mint_inv|done]. }
  destruct (tentative x1) as [t|] eqn:Ht; [|exact Hmint].
  destruct (String.eqb (t_transactionId t) tx) eqn:Htx; [|exact Hmint].
  apply String.eqb_eq in Htx. eapply update_inv; [done|done| |done]. simpl.
  eapply Hok; [done|exact Ht|done].
Qed.

Lemma prepare_inv x d fault tx ts m : inv (x, d) → inv (prepare x d fault tx ts m).1.
Proof.
  intros Hinv. unfold prepare. destruct (tentative x) as [t|] eqn:Ht; [|done].
  destruct (String.eqb (t_transactionId t) tx); [|done]. cbn zeta.
  set (p := mkPending _ _ _ _ _).
  pose proof (inv_storeState x d fault [p] None None (s_metadata x)
    (λ y, with_tentative y (Some (mkTentative (t_transactionId t) (t_value t) (t_sequenceId t) (t_timeStamp t) true))
             (pendingSequenceIdHighWater y)) Hinv) as Hk.
  destruct (storeState x d fault _ _ _ _) as [[x1 d1] []]; apply Hk; try done.
  all: intros Hc e; destruct Hinv as [_ _ [I1 I2] Ha]; simpl in *;
    destruct (Ha Hc) as [A1 A2 A3 A4 A5 A6 A7 A8 A9];
    destruct (apply_prepare (durable d) (s_metadata x) p A1) as (B1 & B2 & B3 & B4 & B5); split.
  1,3: split; simpl; [intros ? [= <-]; exact (I1 t Ht)|]; intros q Hq; destruct (I2 q Hq) as [? Hq'];
    (split; [done|]); intros ? [= <-]; exact (Hq' t Ht).
  all: split; simpl; try done.
  1,5: intros q [->|[Hq _]]%B5; [exact (proj2 (I1 t Ht))|by apply A6].
  1,4: intros ? q [= <-] [->|[Hq _]]%B5; [simpl; lia|exact (A7 t q Ht Hq)].
  1,3: intros ? [= <-] _; exists p; split_and!; [apply B5; by left|done..].
  all: intros q Hq Hlt; apply B5; right; split; [by apply A9|];
    pose proof (proj2 (I2 q Hq) t Ht); simpl; lia.
Qed.

Lemma recordCommit_inv x d fault tx ts ws : inv (x, d) → inv (recordCommit x d fault tx ts ws).1.
Proof.
  intros Hinv. unfold recordCommit. cbn zeta. set (md := mkMetadata _ _).
  pose proof (inv_storeState x d fault [] None None md (λ y, with_metadata y md) Hinv) as Hk.
  destruct (storeState x d fault _ _ _ _) as [[x1 d1] []]; apply Hk; try done.
  all: intros Hc e; destruct Hinv as [_ _ [I1 I2] Ha]; simpl in *;
    destruct (Ha Hc) as [A1 A2 A3 A4 A5 A6 A7 A8 A9];
    destruct (apply_metadata (durable d) md A1) as (B1 & B2 & B3 & B4 & B5); split; [by split|].
  all: split; simpl; try done.
  1,5: intros q Hq%B5; by apply A6.
  1,4: intros t q Ht Hq%B5; by eapply A7.
  1,3: intros t Ht Hp; destruct (A8 t Ht Hp) as (q & Hq & ?); exists q; by rewrite B5.
  all: intros q Hq Hlt; apply B5; by apply A9.
Qed.

Lemma finally_release_inv r tx : inv r.1 → inv (finally_release r tx).1.
Proof.
  destruct r as [[x d] out]. intros Hinv. unfold finally_release, release_lock.
  pose proof (inv_locked x d (release (lock x) tx) (calls x) Hinv) as Hl.
  by destruct (locked _ _ _).
Qed.

Lemma commit_inv x d fault tx : inv (x, d) → op_ok x (Commit fault tx) → inv (commit x d fault tx).1.
Proof.
  intros Hinv Hok. apply finally_release_inv. unfold commit_body. destruct (tentative x) as [t|] eqn:Ht; [|done].
  destruct (String.eqb (t_transactionId t) tx) eqn:Htx; [|done]. apply String.eqb_eq in Htx.
  pose proof (Hok t Ht Htx) as Hprep. cbn zeta.
  pose proof (inv_storeState x d fault [] (Some (t_sequenceId t)) None (s_metadata x)
    (λ y, with_tentative (with_committed y (Some (t_value t)) (t_sequenceId t)) None
            (pendingSequenceIdHighWater y)) Hinv) as Hk.
  destruct (storeState x d fault _ _ _ _) as [[x1 d1] []]; apply Hk; try done.
  all: intros Hc e; destruct Hinv as [_ _ Hi Ha]; simpl in *; specialize (Ha Hc);
    destruct (ag_prepared _ _ Ha t Ht Hprep) as (p & Hp & Hid & Hv); rewrite <- Hid, <- Hv;
    apply (promote_agrees x (durable d) p); try done;
    rewrite Hid; by apply (wi_tentative _ Hi t Ht).
Qed.

Lemma abort_inv x d fault tx : inv (x, d) → inv (abort x d fault tx).1.
Proof.
  intros Hinv. apply finally_release_inv. unfold abort_body. destruct (tentative x) as [t|] eqn:Ht; [|done].
  destruct (String.eqb (t_transactionId t) tx) eqn:Htx; [|done]. destruct (t_prepared t) eqn:Hp.
  - pose proof (inv_storeState x d fault [] None (Some (t_sequenceId t - 1)) (s_metadata x)
      (λ y, with_tentative y None (pendingSequenceIdHighWater y)) Hinv) as Hk.
    destruct (storeState x d fault _ _ _ _) as [[x1 d1] []]; apply Hk; try done.
    all: intros Hc e; destruct Hinv as [_ _ Hi Ha]; simpl in *; specialize (Ha Hc);
      apply (drop_agrees x (durable d)); try done.
    all: intros q Hq; split; [exact Hq|]; pose proof (proj2 (wi_resolve _ Hi q Hq) t Ht); lia.
  - destruct Hinv as [Hv He [I1 I2] Ha]; simpl in *. split; simpl; [done..| |].
    + split; simpl; [done|]. intros q Hq. split; [by apply I2|done].
    + intros [A1 A2 A3 A4 A5 A6 A7 A8 A9]%Ha. by split.
Qed.

Lemma other_store_inv x d expected md ps c a :
  inv (x, d) → inv (x, (ts_store d stateName grainId expected md ps c a).1).
Proof.
  intros Hinv. destruct (decide (expected = etag (ts_load d stateName grainId))) as [He|He].
  - destruct Hinv as [Hv Hk Hi Ha]. simpl in *.
    destruct (ts_store_ok d stateName grainId expected md ps c a Hv He)
      as (d' & e & -> & Hv' & Hl & Hf & Hu & _).
    split; simpl; [done| |done|].
    + intros e' He'. apply Hu. right. by apply Hk.
    + unfold current. rewrite Hl. simpl. intros Heq. by destruct (Hf (Hk _ Heq)).
  - by destruct (ts_store_conflict d stateName grainId expected md ps c a He) as [err ->].
Qed.

Lemma exec_tx_inv w o : inv w → op_ok w.1 o → inv (exec_tx w o).1.
Proof.
  destruct w as [x d]. intros Hinv Hok. destruct o; simpl.
  - by apply inv_locked.
  - unfold performUpdate. destruct readOnly; [done|by apply inv_locked].
  - by apply continue_inv.
  - by apply inv_locked.
  - by apply prepare_inv.
  - by apply recordCommit_inv.
  - by apply commit_inv.
  - by apply abort_inv.
  - by apply pass_step_inv.
  - by apply timer_fires_inv.
  - by eapply inv_core; [| |exact Hinv].
  - by apply other_store_inv.
Qed.

(** ** Reachable states

    From a storage whose record is well formed, [load] and then operations
    within the protocol. *)
Definition loadable d : Prop :=
  ts_valid d ∧ sorted_ids (pendingStates (durable d)) ∧ 0 ≤ committedSequenceId (durable d).

Inductive reachable (d0 : S) : TransactionalStateImpl * S → Prop :=
  | reach_load : reachable d0 (load d0, d0)
  | reach_step w o : reachable d0 w → op_ok w.1 o → reachable d0 (exec_tx w o).1.

Lemma highWater_ge l : ∀ hw,
  hw ≤ foldl (λ hw p, Z.max hw (sequenceId p)) hw l ∧
  ∀ p, p ∈ l → sequenceId p ≤ foldl (λ hw p, Z.max hw (sequenceId p)) hw l.
Proof.
  induction l as [|p l IH]; intros hw; simpl; [split; [lia|by intros p ?%not_elem_of_nil]|].
  destruct (IH (Z.max hw (sequenceId p))) as [H1 H2]. split; [lia|].
  intros q [->|Hq]%elem_of_cons; [lia|by apply H2].
Qed.

Lemma load_fields d :
  ∃ ps, load d = with_pass (mkImpl (committed_view (durable d)) (committedSequenceId (durable d))
    (foldl (λ hw p, Z.max hw (sequenceId p)) 0 (pendingStates (durable d)))
    (etag (ts_load d stateName grainId)) (metadata (durable d)) None [] None 0 new_lock [] [] None) ps ∧
    (∀ q, q ∈ pass_rest ps → q ∈ pendingStates (durable d)).
Proof.
  unfold load, durable. cbn zeta. destruct (pendingStates _) as [|p l] eqn:E; simpl.
  - exists None. split; [done|]. by intros q ?%not_elem_of_nil.
  - destruct hasResolver; [by exists (Some (Loading (p :: l)))|].
    exists None. split; [done|]. by intros q ?%not_elem_of_nil.
Qed.

Lemma load_inv d : loadable d → inv (load d, d).
Proof.
  intros (Hv & Hs & Hn). destruct (load_fields d) as (ps & -> & Hps).
  pose proof (highWater_ge (pendingStates (durable d)) 0) as [_ Hhw].
  split; simpl; [done| | |].
  - intros e He. simpl in He. by eapply ts_etag_used.
  - split; simpl; [done|]. intros q Hq%Hps. split; [by apply Hhw|done].
  - intros _. split; simpl; try done. intros q Hq%Hps. done.
Qed.

Lemma reachable_inv d0 w : loadable d0 → reachable d0 w → inv w.
Proof. intros Hd. induction 1; [by apply load_inv|by apply exec_tx_inv]. Qed.

(** The lock of a reachable state is a reachable lock. *)
Definition lock_ok x : Prop := ∃ tr, lock_inv tr (lock x).

Lemma locked_lock x res c : lock (locked x res c).1 = res.1.
Proof. unfold locked. destruct res as [l evs]. by destruct (on_lock_events _ _ _) as [[c' r'] out]. Qed.

Lemma locked_lock_ok x res c tr : lock_inv tr res.1 → lock_ok (locked x res c).1.
Proof. intros Hl. exists tr. by rewrite locked_lock. Qed.

Lemma release_lock_ok x tx : lock_ok x → lock_ok (release_lock x tx).1.
Proof. intros [tr Hl]. eapply locked_lock_ok. by apply release_inv. Qed.

Lemma release_lock_not_held x tx : lock_ok x → holders (lock (release_lock x tx).1) !! tx = None.
Proof. intros [tr Hl]. unfold release_lock. rewrite locked_lock. by eapply release_not_held. Qed.

Lemma storeState_fields x d fault ps cu aa md :
  ∃ e, (storeState x d fault ps cu aa md).1.1 = with_etag x e.
Proof.
  unfold storeState. destruct (ts_store d stateName grainId (s_etag x) md ps cu aa) as [d' [err|e]];
    destruct fault; try (by exists (s_etag x); destruct x); by exists (Some e).
Qed.

Ltac store_fields :=
  match goal with |- context [storeState ?x ?d ?f ?ps ?cu ?aa ?md] =>
    let e := fresh "e" in let He := fresh "He" in
    destruct (storeState_fields x d f ps cu aa md) as [e He];
    destruct (storeState x d f ps cu aa md) as [[? ?] []]; simpl in He; subst
  end.

Lemma resolveOne_lock x d fault answer p :
  lock (resolveOne x d fault answer p).1.1 = lock x.
Proof.
  unfold resolveOne. destruct (ask x answer p) as [[]|]; [case_decide| |]; try done.
  all: by store_fields.
Qed.

Lemma pass_step_lock x d fault answer : lock (pass_step x d fault answer).1.1 = lock x.
Proof.
  unfold pass_step.
  destruct (pass x) as [[[|p rest]|[|p rest]]|]; try done;
    pose proof (resolveOne_lock x d fault answer p) as Hl;
    destruct (resolveOne x d fault answer p) as [[x1 d1] [b|]]; simpl in *; rewrite <- Hl;
    try destruct rest; unfold finish_loading, finish_confirming, scheduleConfirmationWorker;
    simpl; repeat (case_decide || case_match); done.
Qed.

Lemma finally_lock_ok r tx : lock_ok r.1.1 → lock_ok (finally_release r tx).1.1.
Proof.
  destruct r as [[x d] out]. intros Hl. unfold finally_release.
  pose proof (release_lock_ok x tx Hl) as H1. by destruct (release_lock x tx).
Qed.

Lemma finally_not_held r tx : lock_ok r.1.1 → holders (lock (finally_release r tx).1.1) !! tx = None.
Proof.
  destruct r as [[x d] out]. intros Hl. unfold finally_release.
  pose proof (release_lock_not_held x tx Hl) as H1. by destruct (release_lock x tx).
Qed.

Lemma exec_lock_ok w o : lock_ok w.1 → lock_ok (exec_tx w o).1.1.
Proof.
  destruct w as [x d]. intros Hl. pose proof Hl as [tr Htr]. destruct o; simpl.
  - eapply locked_lock_ok. by apply enter_inv.
  - unfold performUpdate. destruct readOnly; [done|]. eapply locked_lock_ok. by apply enter_inv.
  - unfold continue_ready, continue_call. case_decide; [|done]. simpl.
    repeat case_match; exists tr; done.
  - eapply locked_lock_ok. by apply deadline_inv.
  - unfold prepare. repeat (case_match; [|done]). store_fields; by exists tr.
  - unfold recordCommit. store_fields; by exists tr.
  - apply finally_lock_ok. unfold commit_body. repeat (case_match; [|done]). store_fields; by exists tr.
  - apply finally_lock_ok. unfold abort_body. repeat (case_match; [|done]).
    store_fields; by exists tr.
  - exists tr. by rewrite pass_step_lock.
  - unfold timer_fires, finish_confirming, scheduleConfirmationWorker. simpl.
    repeat (case_match || case_decide); by exists tr.
  - by exists tr.
  - done.
Qed.

Lemma reachable_lock_ok d0 w : reachable d0 w → lock_ok w.1.
Proof.
  induction 1; [|by apply exec_lock_ok]. exists []. simpl.
  destruct (load_fields d0) as (ps & -> & _). apply new_lock_inv.
Qed.

(** ** The confirmation worker *)

(** While a record is in doubt a retry is armed or running; a running pass
    always has a record left, and the delay stays within its bounds. *)
Record confirming x : Prop := {
  cf_armed : inDoubt x = [] ∨ is_Some (timer x) ∨ is_Some (pass x);
  cf_pass : is_Some (pass x) → pass_rest (pass x) ≠ [];
  cf_delay : confirmationDelayMs x = 0 ∨
    confirmationIntervalMs options ≤ confirmationDelayMs x ≤ confirmationMaxIntervalMs options;
  cf_timer t : timer x = Some t →
    confirmationIntervalMs options ≤ t ≤ confirmationMaxIntervalMs options }.

Definition same_worker x x' : Prop :=
  inDoubt x' = inDoubt x ∧ timer x' = timer x ∧ pass x' = pass x ∧
  confirmationDelayMs x' = confirmationDelayMs x.

Lemma confirming_same x x' : same_worker x x' → confirming x → confirming x'.
Proof. intros (H1 & H2 & H3 & H4) []. split; by rewrite ?H1, ?H2, ?H3, ?H4. Qed.

Section worker.
Hypothesis interval_pos : 0 < confirmationIntervalMs options ≤ confirmationMaxIntervalMs options.

Lemma schedule_confirming x :
  (confirmationDelayMs x = 0 ∨
    confirmationIntervalMs options ≤ confirmationDelayMs x ≤ confirmationMaxIntervalMs options) →
  (∀ t, timer x = Some t → confirmationIntervalMs options ≤ t ≤ confirmationMaxIntervalMs options) →
  pass x = None → confirming (scheduleConfirmationWorker x).
Proof using interval_pos.
  intros Hd Ht Hp. unfold scheduleConfirmationWorker. destruct (timer x) as [t|] eqn:E.
  - split; [right; left; by rewrite E|rewrite Hp; by intros []|done|intros t0 Ht0; apply Ht; congruence].
  - split; simpl; [right; left; eauto|rewrite Hp; by intros []|right; case_decide; lia|].
    intros ? [= <-]. case_decide; lia.
Qed.

Lemma finish_confirming_ok x :
  (confirmationDelayMs x = 0 ∨
    confirmationIntervalMs options ≤ confirmationDelayMs x ≤ confirmationMaxIntervalMs options) →
  (∀ t, timer x = Some t → confirmationIntervalMs options ≤ t ≤ confirmationMaxIntervalMs options) →
  confirming (finish_confirming x) ∧ confirming (finish_loading x).
Proof using interval_pos.
  intros Hd Ht. unfold finish_confirming, finish_loading. cbn zeta.
  split; case_decide; try by apply schedule_confirming.
  all: split; simpl; [by left|by intros []|auto|done].
Qed.

Lemma resolveOne_worker x d fault answer p :
  let x1 := (resolveOne x d fault answer p).1.1 in
  timer x1 = timer x ∧ pass x1 = pass x ∧ confirmationDelayMs x1 = confirmationDelayMs x.
Proof.
  cbn zeta. unfold resolveOne.
  destruct (ask x answer p) as [[]|]; [case_decide| |]; try done; by store_fields.
Qed.

Lemma pass_step_confirming x d fault answer :
  confirming x → let '(w, out) := pass_step x d fault answer in
  EvLoadFailed ∉ out → confirming w.1.
Proof using interval_pos.
  intros Hc. pose proof Hc as [C1 C2 C3 C4]. unfold pass_step.
  destruct (pass x) as [[[|p rest]|[|p rest]]|] eqn:Hpass; try (intros _; exact Hc);
    pose proof (resolveOne_worker x d fault answer p) as (W1 & W2 & W3);
    destruct (resolveOne x d fault answer p) as [[x1 d1] [b|]]; simpl in *; intros Hout;
    rewrite <- W1 in C4; rewrite <- W3 in C3.
  - destruct rest; [by apply finish_confirming_ok|].
    split; simpl; [right; right; eauto|done|done|done].
  - exfalso. apply Hout. by left.
  - destruct rest; [by apply finish_confirming_ok|].
    split; simpl; [right; right; eauto|done|done|done].
  - by apply finish_confirming_ok.
Qed.

Lemma timer_fires_confirming x : confirming x → confirming (timer_fires x).
Proof using interval_pos.
  intros Hc. pose proof Hc as [C1 C2 C3 C4]. unfold timer_fires.
  destruct (timer x) as [t|] eqn:Ht; [|exact Hc].
  cbn zeta. destruct (jm_values _) as [|p l] eqn:Hv.
  - by apply finish_confirming_ok.
  - split; simpl; [right; right; eauto|done|done|done].
Qed.

Lemma locked_worker x res c : same_worker x (locked x res c).1.
Proof. unfold locked. destruct res as [l evs]. by destruct (on_lock_events _ _ _) as [[c' r'] out]. Qed.

Lemma finally_worker r x tx : same_worker x r.1.1 → same_worker x (finally_release r tx).1.1.
Proof.
  destruct r as [[y d] out]. intros (H1 & H2 & H3 & H4). unfold finally_release, release_lock.
  pose proof (locked_worker y (release (lock y) tx) (calls y)) as (L1 & L2 & L3 & L4).
  destruct (locked _ _ _). simpl in *. repeat split; congruence.
Qed.

Lemma exec_worker w o :
  match o with PassStep _ _ | TimerFires | Unload => True | _ => same_worker w.1 (exec_tx w o).1.1 end.
Proof.
  destruct w as [x d], o; simpl; try done.
  - apply locked_worker.
  - unfold performUpdate. destruct readOnly; [done|apply locked_worker].
  - unfold continue_ready, continue_call. case_decide; [|done]. simpl. by repeat case_match.
  - apply locked_worker.
  - unfold prepare. repeat (case_match; [|done]). by store_fields.
  - unfold recordCommit. by store_fields.
  - apply finally_worker. unfold commit_body. repeat (case_match; [|done]). by store_fields.
  - apply finally_worker. unfold abort_body. repeat (case_match; [|done]). by store_fields.
Qed.

Lemma exec_confirming w o :
  o ≠ Unload → confirming w.1 →
  EvLoadFailed ∉ (exec_tx w o).2 → confirming (exec_tx w o).1.1.
Proof using interval_pos.
  intros Ho Hc Hout. pose proof (exec_worker w o) as Hw.
  destruct o; try (by eapply confirming_same); destruct w as [x d]; simpl in *.
  - pose proof (pass_step_confirming x d fault answer Hc) as Hp.
    destruct (pass_step x d fault answer) as [[x1 d1] out]. by apply Hp.
  - by apply timer_fires_confirming.
Qed.

Lemma run_confirming ops : ∀ w,
  Unload ∉ ops → confirming w.1 →
  EvLoadFailed ∉ (run exec_tx w ops).2 → confirming (run exec_tx w ops).1.1.
Proof using interval_pos.
  induction ops as [|o ops IH]; intros w Hops Hc; [done|]. cbn [run].
  apply not_elem_of_cons in Hops as [Ho Hops].
  pose proof (exec_confirming w o (not_eq_sym Ho) Hc) as H1. destruct (exec_tx w o) as [w1 e1].
  specialize (IH w1 Hops). destruct (run exec_tx w1 ops) as [w2 e2]. simpl in *.
  rewrite not_elem_of_app. intros [He1 He2]. auto.
Qed.
End worker.

(** ** Minted ids *)

Definition mints (tr : list TxEvent) : list Z :=
  omap (λ e, match e with EvMint i => Some i | _ => None end) tr.

Definition quiet x (r : TransactionalStateImpl * list TxEvent) : Prop :=
  mints r.2 = [] ∧ pendingSequenceIdHighWater r.1 = pendingSequenceIdHighWater x.

Lemma locked_quiet x res c : quiet x (locked x res c).
Proof.
  assert (Hlock : ∀ evs c r, mints (on_lock_events c r evs).2 = []).
  { induction evs as [|e evs IH]; intros c' r; [done|]. destruct e; simpl; auto.
    specialize (IH (jm_delete promise c') r). by destruct (on_lock_events _ _ _) as [[? ?] ?]. }
  unfold locked. destruct res as [l evs]. specialize (Hlock evs c (ready x)).
  destruct (on_lock_events _ _ _) as [[c' r'] out]. by split.
Qed.

Lemma finally_quiet x r tx :
  quiet x (r.1.1, r.2) →
  quiet x ((finally_release r tx).1.1, (finally_release r tx).2).
Proof.
  destruct r as [[y d] out]. intros [H1 H2]. unfold finally_release, release_lock.
  pose proof (locked_quiet y (release (lock y) tx) (calls y)) as [H3 H4].
  destruct (locked _ _ _) as [y' out']. unfold quiet, mints in *. simpl in *.
  rewrite omap_app, H1, H3. split; [done|congruence].
Qed.

Lemma pass_step_quiet x d fault answer :
  quiet x ((pass_step x d fault answer).1.1, (pass_step x d fault answer).2).
Proof.
  unfold pass_step.
  assert (Hr : ∀ p, pendingSequenceIdHighWater (resolveOne x d fault answer p).1.1 =
      pendingSequenceIdHighWater x).
  { intros p. unfold resolveOne.
    destruct (ask x answer p) as [[]|]; [case_decide| |]; try done; by store_fields. }
  destruct (pass x) as [[[|p rest]|[|p rest]]|]; try done; specialize (Hr p);
    destruct (resolveOne x d fault answer p) as [[x1 d1] [b|]]; simpl in *; (split; [done|]);
    rewrite <- Hr; try destruct rest;
    unfold finish_loading, finish_confirming, scheduleConfirmationWorker;
    simpl; repeat (case_decide || case_match); done.
Qed.

(** A step mints at most one id, and that one is above the high-water mark. *)
Lemma exec_mints w o :
  let w' := (exec_tx w o).1 in
  (mints (exec_tx w o).2 = [] ∧ pendingSequenceIdHighWater w'.1 = pendingSequenceIdHighWater w.1) ∨
  (mints (exec_tx w o).2 = [pendingSequenceIdHighWater w'.1] ∧
   pendingSequenceIdHighWater w.1 < pendingSequenceIdHighWater w'.1).
Proof.
  destruct w as [x d], o; cbn zeta; simpl; try (left; done).
  - left. apply locked_quiet.
  - left. unfold performUpdate. destruct readOnly; [done|]. apply locked_quiet.
  - unfold continue_ready, continue_call. case_decide; [|by left]. cbn zeta.
    repeat case_match; simpl; try (by left); right; (split; [done|]);
      apply (nextSequenceId_above x).
  - left. apply locked_quiet.
  - left. unfold prepare. repeat (case_match; [|done]). by store_fields.
  - left. unfold recordCommit. by store_fields.
  - left. apply (finally_quiet x (commit_body x d fault tx)). unfold commit_body, quiet.
    repeat (case_match; [|done]). by store_fields.
  - left. apply (finally_quiet x (abort_body x d fault tx)). unfold abort_body, quiet.
    repeat (case_match; [|done]). by store_fields.
  - left. apply pass_step_quiet.
  - left. split; [done|]. unfold timer_fires, finish_confirming, scheduleConfirmationWorker. simpl.
    by repeat (case_match || case_decide).
Qed.

Lemma run_mints ops : ∀ w,
  let '(w', tr) := run exec_tx w ops in
  StronglySorted Z.lt (mints tr) ∧
  Forall (λ i, pendingSequenceIdHighWater w.1 < i ≤ pendingSequenceIdHighWater w'.1) (mints tr) ∧
  pendingSequenceIdHighWater w.1 ≤ pendingSequenceIdHighWater w'.1.
Proof.
  induction ops as [|o ops IH]; intros w; cbn [run].
  { split_and!; [constructor|constructor|lia]. }
  pose proof (exec_mints w o) as Hm. destruct (exec_tx w o) as [w1 e1]. specialize (IH w1).
  destruct (run exec_tx w1 ops) as [w2 e2]. destruct IH as (S1 & F1 & L1). cbn zeta in Hm. simpl in Hm.
  unfold mints in *. rewrite omap_app. destruct Hm as [[-> Hw]|[-> Hw]]; simpl.
  - split_and!; [done| |lia]. eapply Forall_impl; [exact F1|]. simpl. lia.
  - split_and!; [| |lia].
    + constructor; [done|]. eapply Forall_impl; [exact F1|]. simpl. lia.
    + constructor; [lia|]. eapply Forall_impl; [exact F1|]. simpl. lia.
Qed.

(** ** The effect of a commit and of an abort *)

Lemma storeState_ok x d ps cu aa md :
  ts_valid d → current x d →
  ∃ e d', storeState x d NoFault ps cu aa md = (with_etag x (Some e), d', true) ∧
    current (with_etag x (Some e)) d' ∧ durable d' = applyStore (durable d) md ps cu aa.
Proof.
  intros Hv Hc.
  destruct (ts_store_ok d stateName grainId (s_etag x) md ps cu aa Hv Hc) as (d' & e & Hs & _ & Hl & _).
  exists e, d'. unfold storeState, current, durable. rewrite Hs, Hl. by simpl.
Qed.

Lemma finally_core x d out tx : ∃ x' out',
  finally_release (x, d, out) tx = (x', d, out') ∧ core x' = core x.
Proof.
  unfold finally_release, release_lock. pose proof (locked_core x (release (lock x) tx) (calls x)) as Hc.
  destruct (locked _ _ _) as [x' out']. by exists x', (out ++ out').
Qed.

Ltac finally_fields x' out' Hcore :=
  match goal with |- context [finally_release (?a, ?b, ?c) ?tx] =>
    destruct (finally_core a b c tx) as (x' & out' & -> & Hcore) end.

Lemma core_current x x' d : core x' = core x → current x d → current x' d.
Proof. unfold core, current. congruence. Qed.

Lemma commit_effect x d t :
  ts_valid d → agrees x (durable d) → current x d → tentative x = Some t → t_prepared t = true →
  ∃ x' d' out, commit x d NoFault (t_transactionId t) = (x', d', out) ∧
    tentative x' = None ∧ committed x' = Some (t_value t) ∧ current x' d' ∧
    committedState (durable d') = Some (t_value t) ∧ committedSequenceId (durable d') = t_sequenceId t.
Proof.
  intros Hv Ha Hc Ht Hp. unfold commit, commit_body. rewrite Ht, String.eqb_refl.
  destruct (ag_prepared _ _ Ha t Ht Hp) as (p & Hin & Hid & Hval). rewrite <- Hid.
  destruct (storeState_ok x d [] (Some (sequenceId p)) None (s_metadata x) Hv Hc) as (e & d' & -> & Hc' & Hd).
  destruct (apply_commit (durable d) (s_metadata x) p (ag_sorted _ _ Ha) Hin) as (_ & _ & H3 & H4 & _).
  cbn zeta beta iota.
  finally_fields x' out' Hcore. exists x', d', out'.
  split; [done|]. injection Hcore as E1 E2 E3 E4 E5 E6. simpl in *.
  split_and!; [done|done| |by rewrite Hd, H3, Hval|by rewrite Hd, H4].
  unfold current in *. by rewrite E4.
Qed.

Lemma abort_effect x d t :
  ts_valid d → agrees x (durable d) → current x d → tentative x = Some t → t_prepared t = true →
  ∃ x' d' out, abort x d NoFault (t_transactionId t) = (x', d', out) ∧
    tentative x' = None ∧ committed x' = committed x ∧ current x' d' ∧
    committedState (durable d') = committedState (durable d) ∧
    ∀ q, q ∈ pendingStates (durable d') ↔
      q ∈ pendingStates (durable d) ∧ sequenceId q ≠ t_sequenceId t.
Proof.
  intros Hv Ha Hc Ht Hp. unfold abort, abort_body. rewrite Ht, String.eqb_refl, Hp.
  destruct (storeState_ok x d [] None (Some (t_sequenceId t - 1)) (s_metadata x) Hv Hc) as (e & d' & -> & Hc' & Hd).
  destruct (apply_abort (durable d) (s_metadata x) (t_sequenceId t - 1) (ag_sorted _ _ Ha))
    as (_ & _ & H3 & _ & H5).
  cbn zeta beta iota.
  finally_fields x' out' Hcore. exists x', d', out'.
  split; [done|]. injection Hcore as E1 E2 E3 E4 E5 E6. simpl in *.
  split_and!; [done|done| |by rewrite Hd|].
  - unfold current in *. by rewrite E4.
  - intros q. rewrite Hd, H5. split; intros [Hq ?]; (split; [done|]); [lia|].
    pose proof (ag_top _ _ Ha t q Ht Hq). lia.
Qed.

Lemma failed_keeps_tentative x d t fault :
  tentative x = Some t → t_prepared t = true → fault ≠ NoFault →
  tentative (commit x d fault (t_transactionId t)).1.1 = Some t ∧
  tentative (abort x d fault (t_transactionId t)).1.1 = Some t.
Proof.
  intros Ht Hp Hf. unfold commit, commit_body, abort, abort_body. rewrite Ht, String.eqb_refl, Hp.
  unfold storeState. destruct fault; [done| |];
    [|destruct (ts_store _ _ _ _ _ _ _ _) as [d1 [err|e]], (ts_store d stateName grainId (s_etag x)
      (s_metadata x) [] None _) as [d2 [err'|e']]];
    (split; finally_fields x' out' Hcore; injection Hcore; simpl; congruence).
Qed.

(** ** Properties *)

(** C8: Optimistic concurrency keeps the activation honest. Let an activation
    load a record whose pending states are in order ([loadable]) and run the
    operations [op_ok] admits: the transaction agent does not let a transaction
    update after its own prepare nor commit it before, and recovery resolves a
    record as aborted only while no record above it is staged or in doubt, since
    the drop of the lower one takes the higher ones with it
    ([Runs.lower_abort_drops_higher] evaluates the code without that condition).
    At every state reached so, whatever stores fail before or after taking effect
    and whatever other activations write, an activation whose etag is the durable
    one has exactly the durable committed version, sequence id and metadata in
    memory, and its prepared tentative version is staged durably with the value it
    holds. *)
Theorem memory_agrees_with_storage d0 w :
  loadable d0 → reachable d0 w → current w.1 w.2 →
  committed w.1 = committed_view (durable w.2) ∧
  s_committedSequenceId w.1 = committedSequenceId (durable w.2) ∧
  s_metadata w.1 = metadata (durable w.2) ∧
  ∀ t, tentative w.1 = Some t → t_prepared t = true →
    ∃ p, p ∈ pendingStates (durable w.2) ∧ sequenceId p = t_sequenceId t ∧ state p = t_value t.
Proof.
  intros Hd Hr Hc. destruct (reachable_inv d0 w Hd Hr) as [_ _ _ Ha].
  destruct (Ha Hc). split_and!; done.
Qed.

(** Commit and abort of a prepared transaction at such a state. A commit
    whose store succeeds makes exactly its own value the committed version,
    durably and in memory; an abort drops exactly its own staged record and
    leaves the committed version alone. Both release the transaction's lock
    even when the store fails, and then keep the tentative version. *)
Theorem commit_abort_effects d0 w t fault :
  loadable d0 → reachable d0 w → current w.1 w.2 →
  tentative w.1 = Some t → t_prepared t = true →
  let tx := t_transactionId t in
  let '(x', d', _) := commit w.1 w.2 NoFault tx in
  let '(y', e', _) := abort w.1 w.2 NoFault tx in
  tentative x' = None ∧ committed x' = Some (t_value t) ∧ current x' d' ∧
  committedState (durable d') = Some (t_value t) ∧ committedSequenceId (durable d') = t_sequenceId t ∧
  tentative y' = None ∧ committed y' = committed w.1 ∧ current y' e' ∧
  committedState (durable e') = committedState (durable w.2) ∧
  (∀ q, q ∈ pendingStates (durable e') ↔
    q ∈ pendingStates (durable w.2) ∧ sequenceId q ≠ t_sequenceId t) ∧
  holders (lock (commit w.1 w.2 fault tx).1.1) !! tx = None ∧
  holders (lock (abort w.1 w.2 fault tx).1.1) !! tx = None ∧
  (fault ≠ NoFault → tentative (commit w.1 w.2 fault tx).1.1 = Some t ∧
                     tentative (abort w.1 w.2 fault tx).1.1 = Some t).
Proof.
  intros Hd Hr Hc Ht Hp. cbn zeta.
  pose proof (reachable_inv d0 w Hd Hr) as [Hv _ _ Ha]. specialize (Ha Hc).
  pose proof (reachable_lock_ok d0 w Hr) as Hl. destruct w as [x d]; simpl in *.
  destruct (commit_effect x d t Hv Ha Hc Ht Hp) as (x1 & d1 & out1 & -> & C1 & C2 & C3 & C4 & C5).
  destruct (abort_effect x d t Hv Ha Hc Ht Hp) as (y1 & e1 & out2 & -> & A1 & A2 & A3 & A4 & A5).
  split_and!; try done.
  - apply finally_not_held. unfold commit_body. rewrite Ht, String.eqb_refl. store_fields; done.
  - apply finally_not_held. unfold abort_body. rewrite Ht, String.eqb_refl, Hp. store_fields; done.
  - intros Hf. by apply failed_keeps_tentative.
Qed.

(** A sequence id is never handed out twice. Over any operations after
    [load], faults, other activations and protocol violations included, the
    ids minted are strictly increasing and above every record the load found
    pending. *)
Theorem sequence_ids_never_reused d0 ops :
  let tr := (run exec_tx (load d0, d0) ops).2 in
  StronglySorted Z.lt (mints tr) ∧
  ∀ i p, i ∈ mints tr → p ∈ pendingStates (durable d0) → sequenceId p < i.
Proof.
  cbn zeta. pose proof (run_mints ops (load d0, d0)) as Hm.
  destruct (run exec_tx (load d0, d0) ops) as [w tr]. destruct Hm as (Hs & Hf & _). split; [done|].
  intros i p Hi Hp. rewrite Forall_forall in Hf. specialize (Hf i Hi). simpl in Hf.
  destruct (load_fields d0) as (ps & Hl & _). rewrite Hl in Hf. simpl in Hf.
  pose proof (proj2 (highWater_ge (pendingStates (durable d0)) 0) p Hp). lia.
Qed.

(** C9: No in-doubt record is abandoned while the activation lives. After a
    successful [load] and any operations except [unload], a record in doubt
    has a confirmation timer armed or a pass running with a record left to
    resolve, and the armed delay lies between the configured interval and its
    cap, however often the manager cannot be reached or the store fails. *)
Theorem in_doubt_never_abandoned d0 ops :
  0 < confirmationIntervalMs options ≤ confirmationMaxIntervalMs options →
  Unload ∉ ops → EvLoadFailed ∉ (run exec_tx (load d0, d0) ops).2 →
  let x := (run exec_tx (load d0, d0) ops).1.1 in
  (inDoubt x = [] ∨ is_Some (timer x) ∨ pass_rest (pass x) ≠ []) ∧
  ∀ t, timer x = Some t → confirmationIntervalMs options ≤ t ≤ confirmationMaxIntervalMs options.
Proof.
  intros Hint Hops Htr. cbn zeta.
  assert (Hload : confirming (load d0)).
  { unfold load. cbn zeta. destruct (pendingStates _); [|destruct hasResolver];
      (split; simpl; [by left|by intros []|by left|done]). }
  destruct (run_confirming Hint ops (load d0, d0) Hops Hload Htr) as [C1 C2 _ C4].
  split; [|done]. destruct C1 as [?|[?|Hp]]; [by left|by right; left|right; right; by apply C2].
Qed.
End txstate.

(** ** Concrete runs, over the in-memory storage with integer states *)

Module Runs.
Definition store0 : MemoryTransactionalStorage Z := new_memory.
Definition me : GrainId := mkGrainId "account" (KString "a").
Definition other : ParticipantId := mkParticipant (mkGrainId "account" (KString "b")) "balance".

Abbreviation exec1 := (exec_tx "balance" me defaultTransactionsOptions).
Abbreviation load1 := (load "balance" me 0 true).
Definition activation (d : MemoryTransactionalStorage Z) := (load1 d, d).
Definition run_all (d : MemoryTransactionalStorage Z) (ops : list TxOp) := (run exec1 (activation d) ops).1.

(** One transaction adds [n] and prepares. *)
Definition add_and_prepare (tx : string) (ts n : Z) (promise : nat) : list TxOp :=
  [PerformUpdate tx ts false (λ v, v + n); Continue promise; Prepare NoFault tx ts other].

Lemma loadable0 : loadable "balance" me store0.
Proof. split; [split; [done|apply map_Forall_empty]|]. split; [constructor|done]. Qed.

Definition prepared_state := run_all store0 (add_and_prepare "t1" 5 7 0).

Lemma prepared_reachable : reachable "balance" me 0 true defaultTransactionsOptions store0 prepared_state.
Proof.
  change prepared_state with (exec1 (exec1 (exec1 (activation store0)
    (PerformUpdate "t1" 5 false (λ v, v + 7))).1 (Continue 0)).1 (Prepare NoFault "t1" 5 other)).1.
  apply reach_step; [|exact I]. apply reach_step; [|by intros].
  apply reach_step; [|exact I]. apply reach_load.
Qed.

Definition the_tentative : Tentative := mkTentative "t1" 7 1 5 true.

Lemma memory_agrees_with_storage_witness :
  committed prepared_state.1 = Some 0 ∧ s_etag prepared_state.1 = Some "1"%string ∧
  ∃ p, p ∈ pendingStates (durable "balance" me prepared_state.2) ∧ sequenceId p = 1 ∧ state p = 7.
Proof.
  pose proof (memory_agrees_with_storage "balance" me 0 true defaultTransactionsOptions store0
    prepared_state loadable0 prepared_reachable eq_refl) as (_ & _ & _ & H).
  split; [vm_compute; reflexivity|]. split; [vm_compute; reflexivity|].
  exact (H the_tentative eq_refl eq_refl).
Defined.

Lemma commit_abort_effects_witness :
  committedState (durable "balance" me (commit "balance" me prepared_state.1 prepared_state.2 NoFault "t1").1.2)
    = Some 7 ∧
  holders (lock (commit "balance" me prepared_state.1 prepared_state.2 FailAfter "t1").1.1) !! "t1"%string = None.
Proof.
  pose proof (commit_abort_effects "balance" me 0 true defaultTransactionsOptions store0
    prepared_state the_tentative FailAfter loadable0 prepared_reachable eq_refl eq_refl eq_refl) as H.
  split; [vm_compute; reflexivity|]. cbn zeta in H.
  destruct (commit "balance" me prepared_state.1 prepared_state.2 NoFault (t_transactionId the_tentative))
    as [[x' d'] o1].
  destruct (abort "balance" me prepared_state.1 prepared_state.2 NoFault (t_transactionId the_tentative))
    as [[y' e'] o2].
  exact (proj1 (proj2 (proj2 (proj2 (proj2 (proj2 (proj2 (proj2 (proj2 (proj2 (proj2 H))))))))))).
Defined.

(** A storage with records left prepared by a crash. *)
Definition left_prepared (ps : list (PendingTransactionState Z)) : MemoryTransactionalStorage Z :=
  (mem_store store0 "balance" me None EMPTY_METADATA ps None None).1.
Definition pending_of (id : Z) (tx : string) (v : Z) : PendingTransactionState Z :=
  mkPending id tx id (Some other) v.

Lemma in_doubt_never_abandoned_witness :
  let d := left_prepared [pending_of 1 "a" 10] in
  let x := (run exec1 (activation d) [PassStep NoFault None]).1.1 in
  inDoubt x ≠ [] ∧ (inDoubt x = [] ∨ is_Some (timer x) ∨ pass_rest (pass x) ≠ []).
Proof.
  cbn zeta. split; [vm_compute; discriminate|].
  refine (proj1 (in_doubt_never_abandoned "balance" me 0 true defaultTransactionsOptions
    (left_prepared [pending_of 1 "a" 10]) [PassStep NoFault None] _ _ _)).
  - split; [reflexivity|discriminate].
  - intros Hin%list_elem_of_singleton. discriminate.
  - vm_compute. intros Hin%elem_of_nil. done.
Defined.

(** ** What the code does beyond its comments

    Two records are in doubt; the lower one is resolved as aborted. Its drop
    also drops the higher one, which its manager then reports committed: the
    activation shows a committed value that the storage does not hold, and
    the next activation loses it. *)
Lemma lower_abort_drops_higher :
  let '(x, d) := run_all (left_prepared [pending_of 1 "a" 10; pending_of 2 "b" 20])
                   [PassStep NoFault (Some false); PassStep NoFault (Some true)] in
  committed x = Some 20 ∧ s_etag x = etag (ts_load d "balance" me) ∧
  committedSequenceId (durable "balance" me d) = 0 ∧ pendingStates (durable "balance" me d) = [] ∧
  committed (load1 d) = Some 0.
Proof. vm_compute. auto. Qed.

(** The store of a commit fails, so the transaction, committed by its manager,
    stays staged and the lock is released. The next transaction reads the old
    value, and its commit replaces the staged write: the first one is lost. *)
Lemma failed_commit_is_overwritten :
  let '(x, d) := run_all store0
    (add_and_prepare "t1" 5 7 0 ++ [Commit FailBefore "t1"] ++
     add_and_prepare "t2" 6 1 1 ++ [Commit NoFault "t2"]) in
  committed x = Some 1 ∧ committedState (durable "balance" me d) = Some 1 ∧
  pendingStates (durable "balance" me d) = [].
Proof. vm_compute. auto. Qed.

(** [unload] while a pass is running: the pass arms the timer again. *)
Lemma unload_does_not_stop_a_pass :
  let '(x, d) := run_all (left_prepared [pending_of 1 "a" 10])
    [PassStep NoFault None; TimerFires; Unload; PassStep NoFault None] in
  timer x = Some 1000.
Proof. vm_compute. auto. Qed.
End Runs.
