(* ===== verification/TxAgent.v ===== *)
(** * Transactions across grains: the agent and its boundary

    Models [packages/core/src/transaction-info.ts] (TransactionInfo and its
    participants), [packages/runtime/src/causal-clock.ts] (CausalClock),
    [transaction-agent.ts] (TransactionAgent), the transaction boundary of
    [grain-factory.ts] (resolveTransaction, runRootTransaction), the merge of
    [cluster-node.ts] (mergeParticipants) and
    [packages/transactions/src/transaction-committer.ts]. *)
From Stdlib Require Import String.
From stdpp Require Import prelude gmap strings list sorting.
From S2P Require Import Prelude JsMap Ids TxStorage.
Open Scope Z_scope.

(** ** Errors

    [TransactionAbortedError] and its subclasses, and the rest. *)
#[warnings="-register-all"]
Inductive TxError :=
  | TransactionAborted (id reason : string)
  | TransactionOrphanCall (id : string) (pending : Z)
  | TransactionAlreadyResolved (id : string)
  | TransactionReadOnlyViolated (id : string)
  | TransactionInDoubt (id : string)
  | TransactionsDisabled
  | AggregateErr (errors : list TxError)
  | PlainError (message : string).

Definition isTransactionAborted (e : TxError) : bool :=
  match e with
  | TransactionAborted _ _ | TransactionOrphanCall _ _ | TransactionAlreadyResolved _
  | TransactionReadOnlyViolated _ => true
  | _ => false
  end.

Fixpoint singleRootCause (e : TxError) : TxError :=
  match e with
  | AggregateErr (e' :: _) => singleRootCause e'
  | _ => e
  end.

(** ** The causal clock *)

Definition CausalClock : Type := Z.

Definition utcNow (previous now : Z) : Z := Z.max (previous + 1) now.
Definition merge (previous timestamp : Z) : Z := Z.max previous timestamp.
Definition mergeUtcNow (previous timestamp now : Z) : Z :=
  Z.max (Z.max (previous + 1) (timestamp + 1)) now.

(** A use of the clock, with the wall-clock reading it sees. *)
Inductive ClockOp :=
  | UtcNow (now : Z)
  | Merge (timestamp : Z)
  | MergeUtcNow (timestamp now : Z).

(** The timestamps issued. *)
Definition clock_step (c : CausalClock) (o : ClockOp) : CausalClock * list Z :=
  match o with
  | UtcNow now => let c' := utcNow c now in (c', [c'])
  | Merge t => (merge c t, [])
  | MergeUtcNow t now => let c' := mergeUtcNow c t now in (c', [c'])
  end.

(** ** The transaction and its participants *)

Record AccessCounter := mkAccess { reads : Z; writes : Z }.

(** [participant] is the live object of a local participant: the flag says
    whether it implements the manager's methods too ([isTransactionManager]). *)
Record EnlistedParticipant := mkEnlisted {
  e_id : ParticipantId;
  participant : option bool;
  access : AccessCounter }.

Inductive TransactionStatus := Active | Resolving | CommittedStatus | AbortedStatus.
#[export] Instance TransactionStatus_eq_dec : EqDecision TransactionStatus.
Proof. solve_decision. Defined.

Record TransactionInfo := mkInfo {
  tx_id : string;
  tx_timeStamp : Z;
  tx_readOnly : bool;
  participants : list (string * EnlistedParticipant);
  tx_status : option TransactionStatus;
  pendingCalls : Z }.

Definition with_status (info : TransactionInfo) (s : TransactionStatus) : TransactionInfo :=
  mkInfo (tx_id info) (tx_timeStamp info) (tx_readOnly info) (participants info) (Some s) (pendingCalls info).
Definition with_participants (info : TransactionInfo) ps : TransactionInfo :=
  mkInfo (tx_id info) (tx_timeStamp info) (tx_readOnly info) ps (tx_status info) (pendingCalls info).

Definition isTransactionManager (local : bool) : bool := local.

Definition isResolved (info : TransactionInfo) : bool :=
  match tx_status info with None | Some Active => false | Some _ => true end.

Definition forkTransaction (info : TransactionInfo) : TransactionInfo :=
  mkInfo (tx_id info) (tx_timeStamp info) (tx_readOnly info) (participants info) (tx_status info)
    (pendingCalls info + 1).

Definition requireTransaction (ambient : option TransactionInfo) : TxError + TransactionInfo :=
  match ambient with
  | None => inl (PlainError "operation requires a transaction but none is in scope")
  | Some tx => if isResolved tx then inl (TransactionAlreadyResolved (tx_id tx)) else inr tx
  end.

(** A local resource's [enlist]: [isManager] tells what it implements. *)
Definition add_access (key : string) (fresh : EnlistedParticipant) (a : AccessCounter)
    (info : TransactionInfo) : TransactionInfo :=
  with_participants info
    match jm_get key (participants info) with
    | None => jm_set key fresh (participants info)
    | Some e => jm_set key (mkEnlisted (e_id e) (participant e)
        (mkAccess (reads (access e) + reads a) (writes (access e) + writes a))) (participants info)
    end.

Definition enlist (info : TransactionInfo) (id : ParticipantId) (isManager : bool) (a : AccessCounter)
    : TransactionInfo :=
  add_access (participantKey id) (mkEnlisted id (Some isManager) a) a info.

(** [mergeParticipants]: fold a reply's participants into the transaction. *)
Definition mergeParticipants (tx : option TransactionInfo)
    (reply : option (list (ParticipantId * AccessCounter))) : option TransactionInfo :=
  match tx, reply with
  | Some info, Some ps =>
      Some (foldl (λ info '(id, a), add_access (participantKey id) (mkEnlisted id None a) a info) info ps)
  | _, _ => tx
  end.

(** ** The agent *)

(** How the participants and the manager answer. A prepare yields a vote or
    throws ([None]); the commit record may be refused, or persist although its
    acknowledgement is lost. *)
Inductive RecordAnswer := Recorded | RecordLost | RecordPersistedUnacked.

Record Answers := mkAnswers {
  on_prepare : ParticipantId → option bool;
  on_record : RecordAnswer;
  on_commit : ParticipantId → bool;
  on_abort : ParticipantId → bool }.

(** The messages the agent sends, in order. *)
Inductive AgentEvent :=
  | SendPrepare (to manager : ParticipantId)
  | SendRecord (manager : ParticipantId) (writers : list ParticipantId)
  | SendCommit (to : ParticipantId)
  | SendAbort (to : ParticipantId).
#[export] Instance AgentEvent_eq_dec : EqDecision AgentEvent.
Proof. solve_decision. Defined.

Inductive Outcome := Done | Threw (e : TxError).

Section agent.
Context (ans : Answers) (hasDispatcher : bool).

(** A remote participant is reached through the dispatcher only. *)
Definition reachable_participant (e : EnlistedParticipant) : bool :=
  match participant e with Some _ => true | None => hasDispatcher end.

Definition prepare (e : EnlistedParticipant) : bool :=
  reachable_participant e && default false (on_prepare ans (e_id e)).
Definition commit_ok (e : EnlistedParticipant) : bool :=
  reachable_participant e && on_commit ans (e_id e).
Definition abort_ok (e : EnlistedParticipant) : bool :=
  reachable_participant e && on_abort ans (e_id e).

(** A message leaves the agent when its receiver is local or there is a dispatcher. *)
Definition sent (e : EnlistedParticipant) (ev : AgentEvent) : list AgentEvent :=
  if reachable_participant e then [ev] else [].

Fixpoint electManager (enlisted : list EnlistedParticipant) : option EnlistedParticipant :=
  match enlisted with
  | [] => None
  | e :: rest =>
      if decide (writes (access e) = 0) then electManager rest
      else match participant e with
           | None => Some e
           | Some m => if isTransactionManager m then Some e else electManager rest
           end
  end.

Definition startTransaction (clock : CausalClock) (now : Z) (freshId : string) (readOnly : bool)
    : CausalClock * TransactionInfo :=
  let c := utcNow clock now in (c, mkInfo freshId c readOnly [] (Some Active) 0).

(** [abort]: close the set, then one round over the participants. *)
Definition abort (info : TransactionInfo) : TransactionInfo * list AgentEvent * Outcome :=
  let enlisted := jm_values (participants info) in
  (with_status info AbortedStatus,
   enlisted ≫= (λ e, sent e (SendAbort (e_id e))),
   if forallb abort_ok enlisted then Done else Threw (PlainError "abort failed")).

Definition recordCommit (m : EnlistedParticipant) (writers : list ParticipantId) : list AgentEvent * bool :=
  (sent m (SendRecord (e_id m) writers),
   reachable_participant m && match on_record ans with Recorded => true | _ => false end).

(** The commit round, once the commit is decided. *)
Definition commit_round (info : TransactionInfo) (enlisted : list EnlistedParticipant)
    : TransactionInfo * list AgentEvent * Outcome :=
  (with_status info CommittedStatus,
   enlisted ≫= (λ e, sent e (SendCommit (e_id e))),
   if forallb commit_ok enlisted then Done else Threw (TransactionInDoubt (tx_id info))).

Definition resolve (info0 : TransactionInfo) : TransactionInfo * list AgentEvent * Outcome :=
  let info := with_status info0 Resolving in
  if decide (pendingCalls info ≠ 0) then
    let '(info', evs, out) := abort info in
    (info', evs, match out with
                 | Done => Threw (TransactionOrphanCall (tx_id info) (pendingCalls info))
                 | t => t end)
  else
    let enlisted := jm_values (participants info) in
    match enlisted with
    | [] => (with_status info CommittedStatus, [], Done)
    | _ =>
        let manager := electManager enlisted in
        let writers := e_id <$> filter (λ e, 0 < writes (access e)) enlisted in
        let prepares := enlisted ≫= (λ e, sent e (SendPrepare (e_id e)
          (match manager with Some m => e_id m | None => e_id e end))) in
        if forallb prepare enlisted then
          match manager with
          | Some m =>
              let '(evs, ok) := recordCommit m writers in
              if ok : bool then
                let '(info', evs', out) := commit_round info enlisted in
                (info', prepares ++ evs ++ evs', out)
              else (info, prepares ++ evs, Threw (TransactionInDoubt (tx_id info)))
          | None =>
              let '(info', evs', out) := commit_round info enlisted in (info', prepares ++ evs', out)
          end
        else
          let '(info', evs, out) := abort info in
          (info', prepares ++ evs,
           match out with
           | Done => Threw (TransactionAborted (tx_id info) "a participant failed to prepare")
           | t => t end)
    end.

(** [runRootTransaction]: the call, which enlists participants and returns or
    throws, then the resolution. *)
Definition error_message (e : TxError) : string :=
  match e with PlainError m | TransactionAborted _ m => m | _ => "" end.

Definition runRootTransaction (info : TransactionInfo) (call : TransactionInfo * Outcome)
    : TransactionInfo * list AgentEvent * Outcome :=
  let '(info1, evs1, out1) :=
    match call with
    | (i, Done) => resolve i
    | (i, Threw e) => (i, [], Threw e)
    end in
  match out1 with
  | Done => (info1, evs1, Done)
  | Threw (TransactionInDoubt id) => (info1, evs1, Threw (TransactionInDoubt id))
  | Threw e =>
      let '(info2, evs2, out2) := abort info1 in
      (info2, evs1 ++ evs2,
       match out2 with
       | Threw e2 => Threw e2
       | Done =>
           if isTransactionAborted e then Threw e
           else Threw (TransactionAborted (tx_id info) (error_message (singleRootCause e)))
       end)
  end.
End agent.

(** ** The boundary of a method call *)

Inductive TransactionOption := Create | CreateOrJoin | Join | Supported | NotAllowed | Suppress.
#[export] Instance TransactionOption_eq_dec : EqDecision TransactionOption.
Proof. solve_decision. Defined.

(** The transaction a call runs in: none, the ambient one, or a new one that
    this call must resolve. *)
Inductive Boundary := NoTransaction | JoinAmbient (tx : TransactionInfo) | BeginHere (readOnly : bool).

Definition resolveTransaction (agentWired oneWay readOnly : bool) (option_ : option TransactionOption)
    (ambient : option TransactionInfo) : TxError + Boundary :=
  if oneWay && bool_decide (option_ = Some Create ∨ option_ = Some CreateOrJoin ∨ option_ = Some Join)
  then inl (PlainError "a oneWay method cannot take part in a transaction")
  else
    let begin := if agentWired then inr (BeginHere readOnly) else inl TransactionsDisabled in
    match option_ with
    | Some Create => begin
    | Some CreateOrJoin => match ambient with Some tx => inr (JoinAmbient tx) | None => begin end
    | Some Join =>
        match ambient with
        | Some tx => inr (JoinAmbient tx)
        | None => inl (PlainError "requires an ambient transaction (join)")
        end
    | Some NotAllowed =>
        match ambient with
        | Some _ => inl (PlainError "must not run in a transaction (notAllowed)")
        | None => inr NoTransaction
        end
    | Some Suppress | None => inr NoTransaction
    | Some Supported => match ambient with Some tx => inr (JoinAmbient tx) | None => inr NoTransaction end
    end.

(** ** The transaction committer

    A service resource: the operation staged for each transaction id, run once
    by its commit. *)
Section committer.
Context {Operation : Type} (run_operation : Operation → string → option bool).

Definition Committer : Type := list (string * Operation).

Definition onCommit (c : Committer) (ambient : option TransactionInfo) (id : ParticipantId) (op : Operation)
    : TxError + (Committer * TransactionInfo) :=
  match requireTransaction ambient with
  | inl e => inl e
  | inr tx =>
      if tx_readOnly tx then inl (TransactionReadOnlyViolated (tx_id tx))
      else inr (jm_set (tx_id tx) op c,
                add_access (participantKey id) (mkEnlisted id (Some false) (mkAccess 0 1)) (mkAccess 0 1) tx)
  end.

Definition committer_prepare : bool := true.

(** The operations run, and the error when one reports failure or throws. *)
Definition committer_commit (c : Committer) (transactionId : string)
    : Committer * list Operation * option TxError :=
  match jm_get transactionId c with
  | None => (jm_delete transactionId c, [], None)
  | Some op =>
      (jm_delete transactionId c, [op],
       match run_operation op transactionId with
       | Some true => None
       | _ => Some (PlainError "commit operation reported failure")
       end)
  end.

Definition committer_abort (c : Committer) (transactionId : string) : Committer :=
  jm_delete transactionId c.

(** A staged operation runs at most once: a second commit finds nothing. *)
Lemma committer_runs_once c id :
  let '(c', ran, _) := committer_commit c id in
  ran = option_list (jm_get id c) ∧ (committer_commit c' id).1.2 = [] ∧
  (committer_commit (committer_abort c id) id).1.2 = [].
Proof.
  unfold committer_commit, committer_abort.
  destruct (jm_get id c) eqn:E; rewrite !jm_get_delete_eq; by split_and!.
Qed.
End committer.

(** ** The events of a resolution *)

Section events.
Context (ans : Answers) (hasDispatcher : bool).













End events.



(** ** Properties *)


(** Timestamps are unique and causal. Whatever the wall clock does and
    whatever is merged, the timestamps a clock issues are strictly increasing,
    and each is at least the wall-clock reading it was issued at and strictly
    above everything issued or merged before it. *)
Theorem clock_issues_increasing ops :
  let c := (run clock_step 0 ops).1 in
  let issued := (run clock_step 0 ops).2 in
  StronglySorted Z.lt issued ∧
  ∀ now, now ≤ utcNow c now ∧ (∀ t, t ∈ issued → t < utcNow c now) ∧
    (∀ t, Merge t ∈ ops → t < utcNow c now) ∧ ∀ t, t < mergeUtcNow c t now ∧ c < mergeUtcNow c t now.
Proof.
  cbn zeta.
  assert (Hgen : ∀ c0, let '(c, issued) := run clock_step c0 ops in
    StronglySorted Z.lt issued ∧ c0 ≤ c ∧ Forall (λ t, c0 < t ≤ c) issued ∧
    ∀ t, Merge t ∈ ops → t ≤ c).
  { induction ops as [|o ops IH]; intros c0; cbn [run].
    { split_and!; [constructor|lia|constructor|]. by intros t ?%not_elem_of_nil. }
    destruct (clock_step c0 o) as [c1 e1] eqn:E. specialize (IH c1).
    destruct (run clock_step c1 ops) as [c2 e2]. destruct IH as (S1 & L1 & F1 & M1).
    assert (Hstep : c0 ≤ c1 ∧ (e1 = [] ∨ (e1 = [c1] ∧ c0 < c1)) ∧ ∀ t, o = Merge t → t ≤ c1).
    { destruct o; simpl in E; unfold utcNow, merge, mergeUtcNow in E; injection E as <- <-.
      - split_and!; [lia|right; split; [done|lia]|done].
      - split_and!; [lia|by left|]. intros t [= <-]. lia.
      - split_and!; [lia|right; split; [done|lia]|done]. }
    destruct Hstep as (L0 & He & Hm). rewrite Forall_forall in F1. split_and!.
    - destruct He as [->|[-> _]]; [done|]. constructor; [done|]. apply Forall_forall.
      intros t Ht. by apply F1.
    - lia.
    - apply Forall_app. split; [|apply Forall_forall; intros t Ht; specialize (F1 t Ht); lia].
      destruct He as [->|[-> ?]]; constructor; [lia|constructor].
    - intros t [Ht|Ht]%elem_of_cons; [specialize (Hm t (eq_sym Ht)); lia|by apply M1]. }
  specialize (Hgen 0). destruct (run clock_step 0 ops) as [c issued]. simpl.
  destruct Hgen as (S1 & L1 & F1 & M1). rewrite Forall_forall in F1. split; [done|].
  intros now. unfold utcNow, mergeUtcNow. split_and!; [lia| | |lia].
  - intros t Ht. specialize (F1 t Ht). lia.
  - intros t Ht. specialize (M1 t Ht). lia.
Qed.

(** ** Concrete runs *)

Module Runs.
Definition pid (key : string) : ParticipantId := mkParticipant (mkGrainId "account" (KString key)) "balance".
Definition fresh : TransactionInfo := mkInfo "t1" 5 false [] (Some Active) 0.

(** Two writers, the second one merged back from another silo. *)
Definition two_writers : TransactionInfo :=
  default fresh (mergeParticipants (Some (enlist fresh (pid "a") true (mkAccess 0 1)))
    (Some [(pid "b", mkAccess 0 1)])).



Definition all_yes : Answers := mkAnswers (λ _, Some true) Recorded (λ _, true) (λ _, true).

(** An in-doubt error of a nested transaction, thrown by the call, is taken for
    the outer transaction's own: its participants get neither a commit nor an
    abort, and it stays active. *)
Lemma inner_in_doubt_leaves_outer_open :
  let '(info, evs, res) := runRootTransaction all_yes true fresh
    (two_writers, Threw (TransactionInDoubt "inner")) in
  evs = [] ∧ tx_status info = Some Active ∧ res = Threw (TransactionInDoubt "inner").
Proof. vm_compute. auto. Qed.

(** A reply that is merged after the abort enlists a participant nobody aborts. *)
Lemma late_reply_is_never_aborted :
  let '(info, evs, _) := abort all_yes true two_writers in
  let info' := mergeParticipants (Some info) (Some [(pid "c", mkAccess 0 1)]) in
  (∃ i, info' = Some i ∧ isResolved i = true ∧ is_Some (jm_get (participantKey (pid "c")) (participants i))) ∧
  SendAbort (pid "c") ∉ evs.
Proof.
  vm_compute. split; [eexists; split; [reflexivity|]; split; [reflexivity|by eexists]|].
  intros Hin. repeat (apply elem_of_cons in Hin as [Hin|Hin]; [discriminate|]). by apply not_elem_of_nil in Hin.
Qed.
End Runs.
