(* ===== verification/ValueCodec.v ===== *)
(** * The value codec

    Models [packages/core/src/value-codec.ts]: the transformation of runtime
    values to the plain form the transports and the durable providers carry,
    and back. A [value] is what grain code holds, a [wire] what crosses. No
    surrogate is registered, and values are trees: the cycle check, which
    needs an object that contains itself, never fires on them. A number is an
    integer, the negative zero, or any other double by its printed form. *)
From Stdlib Require Import String Ascii.
From stdpp Require Import prelude strings list.
From S2P Require Import Prelude JsMap Ids.
Open Scope Z_scope.

(** ** Data *)

Inductive num := NInt (z : Z) | NegZero | NOther (repr : string).
#[export] Instance num_eq_dec : EqDecision num.
Proof. solve_decision. Defined.

(** An element of a typed array. *)
Inductive elem := ENum (n : num) | EBig (z : Z).

#[warnings="-register-all"]
Inductive value :=
  | Undef
  | Null
  | Bool (b : bool)
  | Num (n : num)
  | Str (s : string)
  | BigInt_ (z : Z)
  | Bytes (bs : list Z)
  | TypedArray (kind : string) (elems : list elem)
  | DateV (ms : num)
  | GuidV (g : Guid)
  | GrainIdV (id : GrainId)
  | Token (tokenId : string) (cancelled asSignal : bool)
  | Placeholder (tokenId : string) (cancelled asSignal : bool)
  | DomException (name message : string)
  | CallAborted (message : string)
  | TaskCanceled (message : string)
  | Silo (s : SiloAddress)
  | GrainRef (interfaceId : Z) (id : GrainId)
  | MapV (entries : list (value * value))
  | SetV (values : list value)
  | Arr (l : list value)
  (** [classes]: the error classes the value is an instance of; [props]: its
      other own enumerable properties; [stack] its stack where that is a
      string. The stack a constructor takes from the running process is left
      out: a rebuilt error with no carried stack has [None]. *)
  | ErrV (classes : list string) (name message : string) (stack : option string)
      (props : list (string * value)) (cause : option value) (errors : option (list value))
  | Obj (members : list (string * value))
  (** A hole of a sparse array, and a value with no faithful form. *)
  | Hole
  | Exotic (reason : string).

#[warnings="-register-all"]
Inductive wire :=
  | WUndef
  | WNull
  | WBool (b : bool)
  | WNum (n : num)
  | WStr (s : string)
  | WBytes (bs : list Z)
  | WArr (l : list wire)
  | WObj (members : list (string * wire)).

Inductive CodecError :=
  | UnsupportedValueError (path reason : string)
  | UnsupportedSchemaVersionError (tag : string) (version supported : Z)
  | Malformed (tag : string).

(** Results, with the error first to fail. *)
Definition bind {E A B} (m : E + A) (f : A → E + B) : E + B :=
  match m with inl e => inl e | inr a => f a end.
#[local] Notation "'let?' x ':=' m 'in' k" := (bind m (λ x, k)) (at level 200, x binder, m at level 100, k at level 200).

Definition T : string := "$thresh".
Definition V : string := "$tsvv".
Definition CURRENT_VERSION : Z := 1.

Definition builtInTags : list string :=
  ["bigint"; "date"; "bytes"; "guid"; "grainId"; "cancellationToken"; "undefined"; "domException";
   "callAborted"; "taskCanceled"; "error"; "silo"; "map"; "set"; "grainRef"; "typedArray"; "negZero"].

Definition TYPED_ARRAY_CTORS : list string :=
  ["Int8Array"; "Uint8Array"; "Uint8ClampedArray"; "Int16Array"; "Uint16Array"; "Int32Array";
   "Uint32Array"; "Float32Array"; "Float64Array"; "BigInt64Array"; "BigUint64Array"].

Definition DANGEROUS_KEYS : list string := ["__proto__"; "constructor"; "prototype"].
Definition isDangerousKey (key : string) : bool := bool_decide (key ∈ DANGEROUS_KEYS).

Definition tagged (tag : string) (fields : list (string * wire)) : wire :=
  WObj ((T, WStr tag) :: (V, WNum (NInt CURRENT_VERSION)) :: fields).

(** [versionOf]: the stamped version, or 1. *)
Definition versionOf (envelope : list (string * wire)) : Z :=
  match jm_get V envelope with
  | Some (WNum (NInt z)) => if decide (1 ≤ z) then z else 1
  | _ => 1
  end.

(** ** Base 64 *)

Definition BASE64_ALPHABET : list ascii :=
  list_ascii_of_string "ABCDEFGHIJKLMNOPQRSTUVWXYZabcdefghijklmnopqrstuvwxyz0123456789+/".

Definition digit_char (d : Z) : ascii := default "?"%char (BASE64_ALPHABET !! Z.to_nat d).
Definition digit_of (c : ascii) : option Z :=
  '(i, _) ← list_find (λ c', c' = c) BASE64_ALPHABET; Some (Z.of_nat i).

(** Three bytes at a time; a missing byte is read as 0 and its digit is a pad. *)
Fixpoint bytesToBase64 (bytes : list Z) : list ascii :=
  match bytes with
  | [] => []
  | [b0] =>
      [digit_char (Z.shiftr b0 2); digit_char (Z.shiftl (Z.land b0 3) 4); "="%char; "="%char]
  | [b0; b1] =>
      [digit_char (Z.shiftr b0 2); digit_char (Z.lor (Z.shiftl (Z.land b0 3) 4) (Z.shiftr b1 4));
       digit_char (Z.shiftl (Z.land b1 15) 2); "="%char]
  | b0 :: b1 :: b2 :: rest =>
      digit_char (Z.shiftr b0 2) ::
      digit_char (Z.lor (Z.shiftl (Z.land b0 3) 4) (Z.shiftr b1 4)) ::
      digit_char (Z.lor (Z.shiftl (Z.land b1 15) 2) (Z.shiftr b2 6)) ::
      digit_char (Z.land b2 63) :: bytesToBase64 rest
  end.

(** 32-bit wrap-around of JavaScript's bitwise operators. *)
Definition to_int32 (z : Z) : Z := (z + 2 ^ 31) mod 2 ^ 32 - 2 ^ 31.

(** The accumulator loop of [base64ToBytes] over the unpadded text; characters
    outside the alphabet are skipped. *)
Fixpoint base64_loop (acc bits : Z) (body : list ascii) : list Z :=
  match body with
  | [] => []
  | c :: rest =>
      match digit_of c with
      | None => base64_loop acc bits rest
      | Some digit =>
          let acc := Z.lor (to_int32 (Z.shiftl acc 6)) digit in
          let bits := bits + 6 in
          if decide (8 ≤ bits)
          then Z.land (Z.shiftr acc (bits - 8)) 255 :: base64_loop acc (bits - 8) rest
          else base64_loop acc bits rest
      end
  end.

Definition strip_padding (text : list ascii) : list ascii :=
  match reverse text with
  | c1 :: rest =>
      if decide (c1 = "="%char) then
        match rest with
        | c2 :: body => if decide (c2 = "="%char) then reverse body else reverse rest
        | [] => []
        end
      else text
  | [] => text
  end.

(** The result array has [(body.length * 3) >> 2] cells, zero where the loop
    writes nothing. *)
Definition base64ToBytes (text : list ascii) : list Z :=
  let body := strip_padding text in
  let size := Z.to_nat (Z.shiftr (Z.of_nat (length body) * 3) 2) in
  let out := base64_loop 0 0 body in
  take size out ++ replicate (size - length out) 0.

(** ** Base 64: the round trip *)

(** Linear arithmetic with division and remainder by constants. *)
Ltac dlia := Z.to_euclidean_division_equations; lia.

Lemma lor_add k a b : 0 ≤ k → a mod 2 ^ k = 0 → 0 ≤ b < 2 ^ k → Z.lor a b = a + b.
Proof.
  intros Hk Ha Hb. rewrite <- Z.lxor_lor, Z.add_nocarry_lxor; try done.
  all: apply Z.bits_inj'; intros n Hn; rewrite Z.land_spec, Z.bits_0; apply andb_false_iff.
  all: destruct (decide (n < k)) as [Hlt|Hge];
    [left; apply (Z.mod_pow2_bits_low a k n) in Hlt; by rewrite <- Hlt, Ha, Z.bits_0|right].
  all: rewrite <- (Z.mod_small b (2 ^ k)) by done; apply Z.mod_pow2_bits_high; lia.
Qed.

Lemma digit_char_of d : 0 ≤ d < 64 → digit_of (digit_char d) = Some d.
Proof.
  intros Hd. assert (Hall : Forall (λ n, digit_of (digit_char (Z.of_nat n)) = Some (Z.of_nat n)) (seq 0 64))
    by (vm_compute; repeat constructor).
  rewrite Forall_forall in Hall. specialize (Hall (Z.to_nat d)). rewrite Z2Nat.id in Hall by lia.
  apply Hall, elem_of_seq. lia.
Qed.

Lemma to_int32_spec z : ∃ q, to_int32 z = z + 2 ^ 32 * q.
Proof.
  unfold to_int32. exists (- ((z + 2 ^ 31) / 2 ^ 32)). pose proof (Z.div_mod (z + 2 ^ 31) (2 ^ 32)). lia.
Qed.

(** One digit: only the last [bits] bits of the accumulator matter. *)
Lemma base64_step acc bits r d c rest :
  0 ≤ bits < 8 → acc mod 2 ^ bits = r → digit_of c = Some d → 0 ≤ d < 64 →
  ∃ acc',
    (if decide (8 ≤ bits + 6)
     then base64_loop acc bits (c :: rest) =
            ((r * 64 + d) / 2 ^ (bits - 2)) :: base64_loop acc' (bits - 2) rest ∧
          acc' mod 2 ^ (bits - 2) = (r * 64 + d) mod 2 ^ (bits - 2)
     else base64_loop acc bits (c :: rest) = base64_loop acc' (bits + 6) rest ∧
          acc' mod 2 ^ (bits + 6) = r * 64 + d).
Proof.
  intros Hb Hr Hc Hd. cbn [base64_loop]. rewrite Hc.
  destruct (to_int32_spec (Z.shiftl acc 6)) as [q Hq]. rewrite Z.shiftl_mul_pow2 in Hq by lia.
  assert (Hlor : Z.lor (to_int32 (Z.shiftl acc 6)) d = acc * 64 + 2 ^ 32 * q + d).
  { rewrite Z.shiftl_mul_pow2 by lia. rewrite Hq. apply (lor_add 6); [lia| |done].
    replace (acc * 64 + 2 ^ 32 * q) with ((acc + 2 ^ 26 * q) * 2 ^ 6) by lia. apply Z.mod_mul. lia. }
  rewrite Hlor. set (acc' := acc * 64 + 2 ^ 32 * q + d) in *.
  assert (Hmod : acc' mod 2 ^ (bits + 6) = r * 64 + d).
  { unfold acc'. rewrite Z.pow_add_r by lia. change (2 ^ 6) with 64.
    assert (H32 : 2 ^ 32 = 2 ^ bits * 64 * 2 ^ (26 - bits)).
    { change 64 with (2 ^ 6). rewrite <- !Z.pow_add_r by lia. f_equal. lia. }
    rewrite H32. pose proof (Z.div_mod acc (2 ^ bits)) as Hdm. rewrite Hr in Hdm.
    replace (acc * 64 + 2 ^ bits * 64 * 2 ^ (26 - bits) * q + d)
      with ((r * 64 + d) + (acc / 2 ^ bits + 2 ^ (26 - bits) * q) * (2 ^ bits * 64)) by nia.
    rewrite Z.mod_add by nia. apply Z.mod_small.
    assert (0 ≤ r < 2 ^ bits) by (subst r; apply Z.mod_pos_bound; nia). nia. }
  exists acc'. case_decide as H8; [|by split].
  assert (Hsplit : 2 ^ (bits + 6) = 2 ^ (bits - 2) * 256).
  { change 256 with (2 ^ 8). rewrite <- Z.pow_add_r by lia. f_equal. lia. }
  assert (0 < 2 ^ (bits - 2)) by lia.
  replace (bits + 6 - 8) with (bits - 2) by lia. split.
  - f_equal. change 255 with (Z.ones 8). rewrite Z.land_ones, Z.shiftr_div_pow2 by lia.
    rewrite <- Hmod, Hsplit, Z.rem_mul_r, (Z.add_comm (acc' mod _)), (Z.mul_comm (2 ^ (bits - 2))) by lia.
    rewrite Z.div_add_l by lia. rewrite (Z.div_small (acc' mod _)); [change (2 ^ 8) with 256; lia|].
    by apply Z.mod_pos_bound.
  - rewrite <- Hmod, Hsplit, Z.rem_mul_r by lia.
    rewrite Z.mul_comm, Z.mod_add by lia. symmetry. apply Z.mod_mod. lia.
Qed.

Definition is_byte (b : Z) : Prop := 0 ≤ b < 256.

(** The digits of three bytes, as arithmetic. *)
Lemma first_digit b0 : is_byte b0 → Z.shiftr b0 2 = b0 / 4 ∧ 0 ≤ b0 / 4 < 64.
Proof. unfold is_byte. intros. rewrite Z.shiftr_div_pow2 by lia. change (2 ^ 2) with 4. dlia. Qed.

Lemma land_mod b k n : 0 ≤ k → n = Z.ones k → Z.land b n = b mod 2 ^ k.
Proof. intros ? ->. by apply Z.land_ones. Qed.

Lemma second_digit b0 b1 :
  is_byte b0 → is_byte b1 →
  Z.lor (Z.shiftl (Z.land b0 3) 4) (Z.shiftr b1 4) = b0 mod 4 * 16 + b1 / 16 ∧
  0 ≤ b0 mod 4 * 16 + b1 / 16 < 64.
Proof.
  unfold is_byte. intros H0 H1. rewrite (land_mod b0 2 3), Z.shiftl_mul_pow2, Z.shiftr_div_pow2 by (lia || done).
  change (2 ^ 2) with 4. change (2 ^ 4) with 16. split; [|dlia].
  apply (lor_add 4); [lia|apply Z.mod_mul; lia|]. change (2 ^ 4) with 16. dlia.
Qed.

Lemma third_digit b1 b2 :
  is_byte b1 → is_byte b2 →
  Z.lor (Z.shiftl (Z.land b1 15) 2) (Z.shiftr b2 6) = b1 mod 16 * 4 + b2 / 64 ∧
  0 ≤ b1 mod 16 * 4 + b2 / 64 < 64.
Proof.
  unfold is_byte. intros H1 H2. rewrite (land_mod b1 4 15), Z.shiftl_mul_pow2, Z.shiftr_div_pow2 by (lia || done).
  change (2 ^ 2) with 4. change (2 ^ 4) with 16. change (2 ^ 6) with 64. split; [|dlia].
  apply (lor_add 2); [lia|apply Z.mod_mul; lia|]. change (2 ^ 2) with 4. dlia.
Qed.

Lemma fourth_digit b2 : is_byte b2 → Z.land b2 63 = b2 mod 64 ∧ 0 ≤ b2 mod 64 < 64.
Proof. unfold is_byte. intros. rewrite (land_mod b2 6 63) by (lia || done). change (2 ^ 6) with 64. dlia. Qed.

(** Two, three and four digits of the loop. *)
Lemma loop_two acc b0 r1 c0 c1 rest :
  is_byte b0 → 0 ≤ r1 < 16 → c0 = digit_char (b0 / 4) → c1 = digit_char (b0 mod 4 * 16 + r1) →
  ∃ acc', base64_loop acc 0 (c0 :: c1 :: rest) = b0 :: base64_loop acc' 4 rest ∧ acc' mod 2 ^ 4 = r1.
Proof.
  unfold is_byte. intros H0 Hr -> ->.
  destruct (base64_step acc 0 0 (b0 / 4) (digit_char (b0 / 4)) (digit_char (b0 mod 4 * 16 + r1) :: rest))
    as (a1 & E1 & M1); [lia|apply Z.mod_1_r|apply digit_char_of; dlia|dlia|].
  change (0 + 6) with 6 in *.
  destruct (base64_step a1 6 (b0 / 4) (b0 mod 4 * 16 + r1) (digit_char (b0 mod 4 * 16 + r1)) rest)
    as (a2 & E2 & M2); [lia|rewrite M1; lia|apply digit_char_of; dlia|dlia|].
  exists a2. rewrite E1, E2. change (6 - 2) with 4 in *. change (2 ^ 4) with 16 in *. split; [f_equal; dlia|].
  rewrite M2. dlia.
Qed.

Lemma loop_three acc b1 r2 c2 rest :
  is_byte b1 → 0 ≤ r2 < 4 → acc mod 2 ^ 4 = b1 / 16 → c2 = digit_char (b1 mod 16 * 4 + r2) →
  ∃ acc', base64_loop acc 4 (c2 :: rest) = b1 :: base64_loop acc' 2 rest ∧ acc' mod 2 ^ 2 = r2.
Proof.
  unfold is_byte. intros H1 Hr Hacc ->.
  destruct (base64_step acc 4 (b1 / 16) (b1 mod 16 * 4 + r2) (digit_char (b1 mod 16 * 4 + r2)) rest)
    as (a & E & M); [lia|done|apply digit_char_of; dlia|dlia|].
  exists a. rewrite E. change (4 - 2) with 2 in *. change (2 ^ 2) with 4 in *. split; [f_equal; dlia|].
  rewrite M. dlia.
Qed.

Lemma loop_four acc b2 c3 rest :
  is_byte b2 → acc mod 2 ^ 2 = b2 / 64 → c3 = digit_char (b2 mod 64) →
  ∃ acc', base64_loop acc 2 (c3 :: rest) = b2 :: base64_loop acc' 0 rest.
Proof.
  unfold is_byte. intros H2 Hacc ->.
  destruct (base64_step acc 2 (b2 / 64) (b2 mod 64) (digit_char (b2 mod 64)) rest)
    as (a & E & M); [lia|done|apply digit_char_of; dlia|dlia|].
  exists a. rewrite E. change (2 - 2) with 0 in *. f_equal. change (2 ^ 0) with 1. dlia.
Qed.

(** The text is a body of digits and at most two pads. *)
Lemma bytes_text bytes : Forall is_byte bytes →
  ∃ body pads, bytesToBase64 bytes = body ++ replicate pads "="%char ∧
    Forall (λ c, is_Some (digit_of c)) body ∧ (pads ≤ 2)%nat ∧
    Z.shiftr (Z.of_nat (length body) * 3) 2 = Z.of_nat (length bytes) ∧
    ∀ acc, base64_loop acc 0 body = bytes.
Proof.
  assert (Hd : ∀ d, 0 ≤ d < 64 → is_Some (digit_of (digit_char d)))
    by (intros d Hd; by rewrite digit_char_of).
  assert (Hind : ∀ n bs, (length bs < n)%nat → Forall is_byte bs →
    ∃ body pads, bytesToBase64 bs = body ++ replicate pads "="%char ∧
    Forall (λ c, is_Some (digit_of c)) body ∧ (pads ≤ 2)%nat ∧
    Z.shiftr (Z.of_nat (length body) * 3) 2 = Z.of_nat (length bs) ∧
    ∀ acc, base64_loop acc 0 body = bs); [|apply (Hind (S (length bytes))); lia].
  induction n as [|n IH]; intros bs Hlen Hbs; [lia|].
  destruct bs as [|b0 [|b1 [|b2 rest]]].
  - exists [], 0%nat. split_and!; [done|constructor|lia|done|done].
  - apply Forall_cons in Hbs as [H0 _]. cbn [bytesToBase64].
    destruct (first_digit b0 H0) as [-> Hb]. rewrite <- (Z.lor_0_r (Z.shiftl _ 4)).
    change 0 with (Z.shiftr 0 4). destruct (second_digit b0 0 H0) as [-> Hc]; [done|].
    eexists [_; _], 2%nat. split_and!; [done|by repeat constructor; apply Hd|done|done|].
    intros acc. destruct (loop_two acc b0 0 _ _ [] H0 ltac:(lia) eq_refl eq_refl) as (a & E & _). exact E.
  - apply Forall_cons in Hbs as [H0 [H1 _]%Forall_cons]. cbn [bytesToBase64].
    destruct (first_digit b0 H0) as [-> Hb]. destruct (second_digit b0 b1 H0 H1) as [-> Hc].
    rewrite <- (Z.lor_0_r (Z.shiftl _ 2)). change 0 with (Z.shiftr 0 6) at 1.
    destruct (third_digit b1 0 H1) as [-> Hc2]; [done|].
    eexists [_; _; _], 1%nat. split_and!; [done|by repeat constructor; apply Hd|lia|done|]. intros acc.
    destruct (loop_two acc b0 (b1 / 16) _ _ [digit_char (b1 mod 16 * 4 + 0 / 64)] H0
      ltac:(unfold is_byte in *; dlia) eq_refl eq_refl) as (a & E & M).
    rewrite E. f_equal. by destruct (loop_three a b1 0 _ [] H1 ltac:(lia) M eq_refl) as (a' & E' & _).
  - apply Forall_cons in Hbs as [H0 [H1 [H2 Hrest]%Forall_cons]%Forall_cons].
    destruct (IH rest) as (body & pads & E & Hbody & Hp & Hs & Hl); [simpl in Hlen; lia|done|].
    cbn [bytesToBase64]. rewrite E.
    destruct (first_digit b0 H0) as [-> Hb]. destruct (second_digit b0 b1 H0 H1) as [-> Hc].
    destruct (third_digit b1 b2 H1 H2) as [-> Hc2]. destruct (fourth_digit b2 H2) as [-> Hc3].
    eexists (_ :: _ :: _ :: _ :: body), pads. split_and!; [done|by repeat constructor; auto|done| |].
    + rewrite Z.shiftr_div_pow2 in * by lia. change (2 ^ 2) with 4 in *. cbn [length]. dlia.
    + intros acc.
      destruct (loop_two acc b0 (b1 / 16) _ _ (digit_char (b1 mod 16 * 4 + b2 / 64) :: digit_char (b2 mod 64) :: body) H0
        ltac:(unfold is_byte in *; dlia) eq_refl eq_refl) as (a1 & -> & M1). f_equal.
      destruct (loop_three a1 b1 (b2 / 64) _ (digit_char (b2 mod 64) :: body) H1
        ltac:(unfold is_byte in *; dlia) M1 eq_refl) as (a2 & -> & M2). f_equal.
      destruct (loop_four a2 b2 _ body H2 M2 eq_refl) as (a3 & ->). f_equal. apply Hl.
Qed.

Lemma strip_padding_text body pads :
  Forall (λ c, is_Some (digit_of c)) body → (pads ≤ 2)%nat →
  strip_padding (body ++ replicate pads "="%char) = body.
Proof.
  intros Hb Hp. unfold strip_padding. rewrite reverse_app.
  assert (Hne : ∀ c l, reverse body = c :: l → c ≠ "="%char).
  { intros c l Hr ->. assert (Hin : "="%char ∈ body) by (apply elem_of_reverse; rewrite Hr; left).
    rewrite Forall_forall in Hb. destruct (Hb _ Hin) as [d Hd]. vm_compute in Hd. done. }
  destruct pads as [|[|[|?]]]; [| | |lia]; simpl.
  - rewrite app_nil_r. destruct (reverse body) as [|c l] eqn:E; [done|].
    rewrite decide_False; [done|by eapply Hne].
  - destruct (reverse body) as [|c l] eqn:E.
    + apply (f_equal reverse) in E. by rewrite reverse_involutive in E.
    + rewrite decide_False by (by eapply Hne). rewrite <- E. apply reverse_involutive.
  - apply reverse_involutive.
Qed.

Lemma base64_back bytes : Forall is_byte bytes → base64ToBytes (bytesToBase64 bytes) = bytes.
Proof.
  intros Hb. destruct (bytes_text bytes Hb) as (body & pads & -> & Hbody & Hp & Hs & Hl).
  unfold base64ToBytes. rewrite strip_padding_text by done. rewrite Hs, Nat2Z.id, Hl.
  by rewrite take_ge, Nat.sub_diag, app_nil_r by done.
Qed.

(** ** Error classes

    [knownErrors] with [knownErrorClasses]: for each registered name the
    classes its constructor's instances belong to, and the own properties the
    constructor gives them. *)
Definition runtime_chain (name : string) : list string := [name; "ThreshRuntimeError"].
Definition abort_chain (name : string) : list string := [name; "TransactionAbortedError"].

Definition knownErrors : list (string * (list string * list string)) :=
  [("ThreshRuntimeError", (["ThreshRuntimeError"], []));
   ("GrainCallError", (runtime_chain "GrainCallError", []));
   ("GrainCallTimeoutError", (runtime_chain "GrainCallTimeoutError", []));
   ("GrainExtensionNotInstalledException", (runtime_chain "GrainExtensionNotInstalledException", []));
   ("GatewayTooBusyException", (runtime_chain "GatewayTooBusyException", []));
   ("RejectionError", (runtime_chain "RejectionError", ["kind"]));
   ("LimitExceededException", (runtime_chain "LimitExceededException", ["limitName"; "currentValue"; "maxValue"]));
   ("ThreshCancellationError", (["ThreshCancellationError"], []));
   ("ReadOnlyStateViolationError", (["ReadOnlyStateViolationError"], []));
   ("TransactionsDisabledError", (["TransactionsDisabledError"], []));
   ("InconsistentStateError", (["InconsistentStateError"], ["isSourceActivation"; "expectedEtag"; "storedEtag"]));
   ("TransactionAbortedError", (["TransactionAbortedError"], ["transactionId"]));
   ("TransactionReadOnlyViolatedError", (abort_chain "TransactionReadOnlyViolatedError", ["transactionId"]));
   ("TransactionLockUpgradeError", (abort_chain "TransactionLockUpgradeError", ["transactionId"]));
   ("TransactionOrphanCallError", (abort_chain "TransactionOrphanCallError", ["transactionId"; "pendingCalls"]));
   ("TransactionCascadingAbortError", (abort_chain "TransactionCascadingAbortError", ["transactionId"]));
   ("TransactionInDoubtError", (["TransactionInDoubtError"], ["transactionId"]));
   ("CircularReferenceError", (["CircularReferenceError"], ["path"]));
   ("UnsupportedValueError", (["UnsupportedValueError"], ["path"; "reason"]));
   ("TypeError", (["TypeError"], []));
   ("RangeError", (["RangeError"], []));
   ("ReferenceError", (["ReferenceError"], []));
   ("SyntaxError", (["SyntaxError"], []));
   ("URIError", (["URIError"], []));
   ("EvalError", (["EvalError"], []));
   ("AggregateError", (["AggregateError"], []))].

Definition isKnownThreshError (classes : list string) (name : string) : bool :=
  bool_decide (is_Some (jm_get name knownErrors)) && bool_decide (name ∈ classes).

Definition STACK_TRACE_CAP : Z := 8192.
Definition STACK_TRUNCATION_MARKER : string := "... (truncated)".
Definition REMOTE_STACK_MARKER : string := "--- End of remote stack trace from grain call ---".

Definition capStack (stack : string) : string :=
  if decide (STACK_TRACE_CAP < Z.of_nat (String.length stack))
  then (substring 0 (Z.to_nat STACK_TRACE_CAP) stack ++ STACK_TRUNCATION_MARKER)%string else stack.

Definition quote : string := String (ascii_of_nat 34) EmptyString.
Definition newline : string := String (ascii_of_nat 10) EmptyString.
Definition setRemoteStackTrace (remoteStack : string) : string :=
  (remoteStack ++ newline ++ REMOTE_STACK_MARKER)%string.

(** A value where a constructor interpolates it into a message. *)
Definition interpolate (v : option value) : string :=
  match v with
  | Some (Str s) => s
  | Some Null => "null"
  | Some Undef | None => "undefined"
  | _ => "[object Object]"
  end.

(** The own property a known constructor sets from the carried ones. *)
Definition built_property (props : list (string * value)) (key : string) : string * value :=
  (key,
   if String.eqb key "isSourceActivation"
   then match jm_get key props with Some (Bool false) => Bool false | _ => Bool true end
   else default Undef (jm_get key props)).

Definition RESERVED_FALLBACK_KEYS : list string := ["name"; "message"; "stack"; "errorType"; "properties"].

(** The instance of [UnavailableExceptionFallbackException]. *)
Definition fallback_props (name : string) (properties : list (string * value))
    (errors : option (list value)) : list (string * value) :=
  foldl (λ own kv, if decide (kv.1 ∈ RESERVED_FALLBACK_KEYS) then own else jm_set kv.1 kv.2 own)
    [("errorType", Str name); ("properties", Obj properties);
     ("errors", match errors with Some l => Arr l | None => Undef end)] properties.

(** Rebuild an error from its decoded parts: by its class when the sender
    marked it and the name is known, as the fallback otherwise. *)
Definition rebuild (name message : string) (marked : bool) (properties : list (string * value))
    (errors : option (list value)) (cause : option value) (stack : option string) : value :=
  let stack := setRemoteStackTrace <$> stack in
  let properties := match errors with Some l => jm_set "errors" (Arr l) properties | None => properties end in
  match (if marked then jm_get name knownErrors else None) with
  | Some (classes, keys) =>
      ErrV classes name
        (if String.eqb name "UnsupportedValueError"
         then ("encodeValue: cannot represent " ++ interpolate (jm_get "reason" properties) ++ " at " ++ quote ++
               interpolate (jm_get "path" properties) ++ quote ++
               " (register a surrogate if it must cross the wire)")%string
         else message)
        stack (built_property properties <$> keys)
        (match cause with
         | None => if String.eqb name "TransactionCascadingAbortError" then Some Undef else None
         | c => c end)
        (if String.eqb name "AggregateError"
         then Some (match jm_get "errors" properties with Some (Arr l) => l | _ => [] end) else None)
  | None =>
      ErrV ["UnavailableExceptionFallbackException"] name message stack
        (fallback_props name properties errors) cause None
  end.

(** ** Encoding *)

Definition index_path (path : string) (i : nat) : string :=
  (path ++ "[" ++ bigint_toString (Z.of_nat i) ++ "]")%string.
Definition member_path (path k : string) : string := (path ++ "." ++ k)%string.

Definition kind_name (k : GrainKeyKind) : string :=
  match k with
  | kString => "string" | kInteger => "integer" | kGuid => "guid"
  | kGuidCompound => "guid-compound" | kIntegerCompound => "integer-compound"
  end.
Definition kind_of_name (s : string) : option GrainKeyKind :=
  if String.eqb s "string" then Some kString else if String.eqb s "integer" then Some kInteger
  else if String.eqb s "guid" then Some kGuid else if String.eqb s "guid-compound" then Some kGuidCompound
  else if String.eqb s "integer-compound" then Some kIntegerCompound else None.

Definition grainIdFields (id : GrainId) : list (string * wire) :=
  [("grainType", WStr (grain_type id)); ("keyKind", WStr (kind_name (keyKind id)));
   ("key", WStr (keyToString (grain_key id)))].

Definition encode_num (n : num) : wire := match n with NegZero => tagged "negZero" [] | _ => WNum n end.
Definition encode_elem (e : elem) : wire :=
  match e with
  | ENum n => encode_num n
  | EBig z => tagged "bigint" [("value", WStr (bigint_toString z))]
  end.

(** The iterations of the encoder, over what it does with a member. *)
Section encoders.
Context (enc : value → string → CodecError + wire).

(** [encodeElement]: a positional slot tags an [undefined]. *)
Definition encodeElement (v : value) (path : string) : CodecError + wire :=
  match v with Undef => inr (tagged "undefined" []) | _ => enc v path end.

Fixpoint encode_elements (path : string) (i : nat) (l : list value) : CodecError + list wire :=
  match l with
  | [] => inr []
  | v :: l' =>
      let? w := encodeElement v (index_path path i) in
      let? ws := encode_elements path (S i) l' in inr (w :: ws)
  end.

Fixpoint encode_entries (path : string) (i : nat) (l : list (value * value)) : CodecError + list wire :=
  match l with
  | [] => inr []
  | (k, v) :: l' =>
      let? wk := encodeElement k (index_path path i ++ ".key") in
      let? wv := encodeElement v (index_path path i ++ ".value") in
      let? ws := encode_entries path (S i) l' in inr (WArr [wk; wv] :: ws)
  end.

(** Members, those [skip] names left out. *)
Fixpoint encode_members (skip : string → bool) (path : string) (l : list (string * value))
    : CodecError + list (string * wire) :=
  match l with
  | [] => inr []
  | (k, v) :: l' =>
      if skip k then encode_members skip path l'
      else
        let? w := enc v (member_path path k) in
        let? ws := encode_members skip path l' in inr ((k, w) :: ws)
  end.
End encoders.

Fixpoint hole_index (i : nat) (l : list value) : option nat :=
  match l with [] => None | Hole :: _ => Some i | _ :: l' => hole_index (S i) l' end.

(** The own properties of an error that travel as properties. *)
Definition skip_error_key (classes : list string) (k : string) : bool :=
  bool_decide (k ∈ ["name"; "message"; "stack"; "cause"]) ||
  (String.eqb k "errors" && bool_decide ("AggregateError" ∈ classes)) || isDangerousKey k.

(** The fields of an error's envelope, from its parts already encoded. *)
Definition encode_error (classes : list string) (name message : string)
    (properties wcause : list (string * wire)) (stack : option string)
    (werrors : list (string * wire)) : list (string * wire) :=
  [("name", WStr name); ("message", WStr message)] ++
  (if isKnownThreshError classes name then [("thresh", WBool true)] else []) ++
  (match properties with [] => [] | _ => [("properties", WObj properties)] end) ++
  wcause ++
  (match stack with Some s => [("stack", WStr (capStack s))] | None => [] end) ++
  werrors.

Fixpoint encodeInner (binaryAsBase64 : bool) (v : value) (path : string) : CodecError + wire :=
  match v with
  | Bytes bs =>
      inr (if binaryAsBase64
           then tagged "bytes" [("value", WStr (string_of_list_ascii (bytesToBase64 bs)))] else WBytes bs)
  | TypedArray kind elems =>
      inr (tagged "typedArray" [("kind", WStr kind); ("values", WArr (encode_elem <$> elems))])
  | Num n => inr (encode_num n)
  | DateV ms => inr (tagged "date" [("value", WNum ms)])
  | BigInt_ z => inr (tagged "bigint" [("value", WStr (bigint_toString z))])
  | GuidV g => inr (tagged "guid" [("value", WStr (guid_value g))])
  | GrainIdV id => inr (tagged "grainId" (grainIdFields id))
  | Token t c s | Placeholder t c s =>
      inr (tagged "cancellationToken" [("tokenId", WStr t); ("cancelled", WBool c); ("asSignal", WBool s)])
  | DomException n m => inr (tagged "domException" [("name", WStr n); ("message", WStr m)])
  | CallAborted m => inr (tagged "callAborted" [("message", WStr m)])
  | TaskCanceled m => inr (tagged "taskCanceled" [("message", WStr m)])
  | Silo s =>
      inr (tagged "silo" [("podName", WStr (podName s)); ("podUid", WStr (podUid s)); ("endpoint", WStr (endpoint s))])
  | GrainRef iface id => inr (tagged "grainRef" (("interfaceId", WNum (NInt iface)) :: grainIdFields id))
  | Exotic reason => inl (UnsupportedValueError path reason)
  | MapV entries =>
      let? ws := encode_entries (encodeInner binaryAsBase64) path 0 entries in
      inr (tagged "map" [("entries", WArr ws)])
  | SetV values =>
      let? ws := encode_elements (encodeInner binaryAsBase64) path 0 values in
      inr (tagged "set" [("values", WArr ws)])
  | Arr l =>
      match hole_index 0 l with
      | Some i => inl (UnsupportedValueError path
          ("a sparse array (index " ++ bigint_toString (Z.of_nat i) ++ " is a hole)"))
      | None => let? ws := encode_elements (encodeInner binaryAsBase64) path 0 l in inr (WArr ws)
      end
  | ErrV classes name message stack props cause errors =>
      let? properties := encode_members (encodeInner binaryAsBase64) (skip_error_key classes) path props in
      let? wcause :=
        match cause with
        | Some c =>
            let? w := encodeElement (encodeInner binaryAsBase64) c (member_path path "cause") in
            inr [("cause", w)]
        | None => inr []
        end in
      let? werrors :=
        match errors with
        | Some l =>
            let? ws := encode_elements (encodeInner binaryAsBase64) (member_path path "errors") 0 l in
            inr [("errors", WArr ws)]
        | None => inr []
        end in
      inr (tagged "error" (encode_error classes name message properties wcause stack werrors))
  | Obj members =>
      let? ws := encode_members (encodeInner binaryAsBase64) isDangerousKey path members in inr (WObj ws)
  | Undef => inr WUndef
  | Null => inr WNull
  | Bool b => inr (WBool b)
  | Str s => inr (WStr s)
  | Hole => inl (UnsupportedValueError path "a hole")
  end.

Definition encodeValue (binaryAsBase64 : bool) (v : value) : CodecError + wire :=
  match v with
  | Undef => inr (tagged "undefined" [])
  | _ => encodeInner binaryAsBase64 v "$"
  end.

(** ** Decoding

    Of the envelopes no encoder writes, those with a field of an unexpected
    type are [Malformed], duplicate entries of a map or set are kept, and
    elements of a typed array are taken as they are. *)

Definition wire_string (w : option wire) : option string :=
  match w with Some (WStr s) => Some s | _ => None end.

(** A field the decoder reads as a string, a number or a boolean. Where the
    code trusts a field of another type, the result is [Malformed]. *)
Definition str_field (tag : string) (obj : list (string * wire)) (k : string) : CodecError + string :=
  match jm_get k obj with Some (WStr s) => inr s | _ => inl (Malformed tag) end.
Definition of_option {A} (tag : string) (o : option A) : CodecError + A :=
  match o with Some a => inr a | None => inl (Malformed tag) end.

Definition grainIdFrom (tag : string) (obj : list (string * wire)) : CodecError + GrainId :=
  let? type := str_field tag obj "grainType" in
  let? key := str_field tag obj "key" in
  let? kind := str_field tag obj "keyKind" in
  let? k := of_option tag (kind_of_name kind) in
  of_option tag (GrainId_parse (type ++ "/" ++ key)%string k).

Definition decode_elem (w : wire) : option elem :=
  match w with
  | WNum n => Some (ENum n)
  | WObj obj =>
      match jm_get T obj with
      | Some (WStr tag) =>
          if String.eqb tag "negZero" then Some (ENum NegZero)
          else if String.eqb tag "bigint" then EBig <$> (wire_string (jm_get "value" obj) ≫= BigInt)
          else None
      | _ => None
      end
  | _ => None
  end.

Section decoders.
Context (dec : wire → CodecError + value).

Fixpoint decode_elements (l : list wire) : CodecError + list value :=
  match l with
  | [] => inr []
  | w :: l' => let? v := dec w in let? vs := decode_elements l' in inr (v :: vs)
  end.

Fixpoint decode_entries (l : list wire) : CodecError + list (value * value) :=
  match l with
  | [] => inr []
  | WArr [wk; wv] :: l' =>
      let? k := dec wk in let? v := dec wv in let? vs := decode_entries l' in inr ((k, v) :: vs)
  | _ => inl (Malformed "map")
  end.

(** A copy of the members, the dangerous keys left out. *)
Fixpoint decode_members (l : list (string * wire)) : CodecError + list (string * value) :=
  match l with
  | [] => inr []
  | (k, w) :: l' =>
      if isDangerousKey k then decode_members l'
      else let? v := dec w in let? vs := decode_members l' in inr ((k, v) :: vs)
  end.

(** The members of the field [key], decoded where they sit in the envelope. *)
Fixpoint decode_sub {A} (key : string) (f : wire → CodecError + A) (none : CodecError + A)
    (l : list (string * wire)) : CodecError + A :=
  match l with
  | [] => none
  | (k, w) :: l' => if decide (k = key) then f w else decode_sub key f none l'
  end.
End decoders.

Section decode.
Context (resolveGrainReference : option (GrainId → Z → value)).

Fixpoint decodeValue (w : wire) : CodecError + value :=
  match w with
  | WUndef => inr Undef
  | WNull => inr Null
  | WBool b => inr (Bool b)
  | WNum n => inr (Num n)
  | WStr s => inr (Str s)
  | WBytes bs => inr (Bytes bs)
  | WArr l => let? vs := decode_elements decodeValue l in inr (Arr vs)
  | WObj obj =>
      let plain := let? ms := decode_members decodeValue obj in inr (Obj ms) in
      match jm_get T obj with
      | Some (WStr tag) =>
          let version := versionOf obj in
          if decide (CURRENT_VERSION < version ∧ tag ∈ builtInTags)
          then inl (UnsupportedSchemaVersionError tag version CURRENT_VERSION)
          else
            let str k := str_field tag obj k in
            if String.eqb tag "bigint" then
              let? s := str "value" in let? z := of_option tag (BigInt s) in inr (BigInt_ z)
            else if String.eqb tag "date" then
              match jm_get "value" obj with Some (WNum n) => inr (DateV n) | _ => inl (Malformed tag) end
            else if String.eqb tag "bytes" then
              let? s := str "value" in inr (Bytes (base64ToBytes (list_ascii_of_string s)))
            else if String.eqb tag "guid" then
              let? s := str "value" in let? g := of_option tag (Guid_parse s) in inr (GuidV g)
            else if String.eqb tag "grainId" then let? id := grainIdFrom tag obj in inr (GrainIdV id)
            else if String.eqb tag "cancellationToken" then
              let? t := str "tokenId" in
              match jm_get "cancelled" obj with
              | Some (WBool c) =>
                  inr (Placeholder t c (match jm_get "asSignal" obj with Some (WBool true) => true | _ => false end))
              | _ => inl (Malformed tag)
              end
            else if String.eqb tag "undefined" then inr Undef
            else if String.eqb tag "negZero" then inr (Num NegZero)
            else if String.eqb tag "typedArray" then
              let? kind := str "kind" in
              if bool_decide (kind ∈ TYPED_ARRAY_CTORS) then
                match jm_get "values" obj with
                | Some (WArr ws) => let? es := of_option tag (mapM decode_elem ws) in inr (TypedArray kind es)
                | _ => inl (Malformed tag)
                end
              else inl (Malformed tag)
            else if String.eqb tag "domException" then
              let? m := str "message" in let? n := str "name" in inr (DomException n m)
            else if String.eqb tag "callAborted" then let? m := str "message" in inr (CallAborted m)
            else if String.eqb tag "taskCanceled" then let? m := str "message" in inr (TaskCanceled m)
            else if String.eqb tag "error" then
              let name := default "Error"%string (wire_string (jm_get "name" obj)) in
              let message := default EmptyString (wire_string (jm_get "message" obj)) in
              let? properties := decode_sub "properties"
                (λ w, match w with WObj ms => decode_members decodeValue ms | _ => inr [] end) (inr []) obj in
              let? errors := decode_sub "errors"
                (λ w, match w with
                      | WArr ws => let? vs := decode_elements decodeValue ws in inr (Some vs)
                      | _ => inr None end) (inr None) obj in
              let marked := match jm_get "thresh" obj with Some (WBool true) => true | _ => false end in
              let? cause := decode_sub "cause" (λ w, let? v := decodeValue w in inr (Some v)) (inr None) obj in
              inr (rebuild name message marked properties errors cause (wire_string (jm_get "stack" obj)))
            else if String.eqb tag "silo" then
              let? a := str "podName" in let? b := str "podUid" in let? c := str "endpoint" in
              inr (Silo (mkSilo a b c))
            else if String.eqb tag "map" then
              decode_sub "entries"
                (λ w, match w with
                      | WArr ws => let? es := decode_entries decodeValue ws in inr (MapV es)
                      | _ => inl (Malformed tag) end) (inl (Malformed tag)) obj
            else if String.eqb tag "set" then
              decode_sub "values"
                (λ w, match w with
                      | WArr ws => let? vs := decode_elements decodeValue ws in inr (SetV vs)
                      | _ => inl (Malformed tag) end) (inl (Malformed tag)) obj
            else if String.eqb tag "grainRef" then
              let? id := grainIdFrom tag obj in
              match jm_get "interfaceId" obj with
              | Some (WNum (NInt iface)) =>
                  inr (match resolveGrainReference with
                       | Some f => f id iface
                       | None => Obj [("grainId", GrainIdV id); ("interfaceId", Num (NInt iface))]
                       end)
              | _ => inl (Malformed tag)
              end
            else plain
      | _ => plain
      end
  end.
End decode.

(** ** What the receiver gets *)

Section revive.
Context (resolveGrainReference : option (GrainId → Z → value)).

(** A token arrives as its placeholder, a reference as what the context makes
    of it, an error rebuilt from its parts; the rest arrives as it is. *)
Fixpoint revive (v : value) : value :=
  match v with
  | Token t c s => Placeholder t c s
  | GrainRef iface id =>
      match resolveGrainReference with
      | Some f => f id iface
      | None => Obj [("grainId", GrainIdV id); ("interfaceId", Num (NInt iface))]
      end
  | MapV entries => MapV ((λ '(k, v), (revive k, revive v)) <$> entries)
  | SetV values => SetV (revive <$> values)
  | Arr l => Arr (revive <$> l)
  | Obj members =>
      Obj (omap (λ '(k, v), if isDangerousKey k then None else Some (k, revive v)) members)
  | ErrV classes name message stack props cause errors =>
      rebuild name message (isKnownThreshError classes name)
        (omap (λ '(k, v), if skip_error_key classes k then None else Some (k, revive v)) props)
        (match errors with Some l => Some (revive <$> l) | None => None end)
        (match cause with Some c => Some (revive c) | None => None end)
        (match stack with Some s => Some (capStack s) | None => None end)
  | _ => v
  end.

(** The values the codec can carry: no hole, no exotic built-in, the identities
    well formed, and no plain object that poses as an envelope. *)
Fixpoint sendable (v : value) : Prop :=
  match v with
  | Bytes bs => Forall is_byte bs
  | TypedArray kind _ => kind ∈ TYPED_ARRAY_CTORS
  | GuidV g => wf_guid g
  | GrainIdV id | GrainRef _ id => wf_id id
  | MapV entries => foldr (λ '(k, v) P, sendable k ∧ sendable v ∧ P) True entries
  | SetV l | Arr l => foldr (λ v P, sendable v ∧ P) True l
  | Obj members =>
      (∀ s, jm_get T members ≠ Some (Str s)) ∧ foldr (λ '(_, v) P, sendable v ∧ P) True members
  | ErrV _ _ _ _ props cause errors =>
      foldr (λ '(_, v) P, sendable v ∧ P) True props ∧
      match cause with Some c => sendable c | None => True end ∧
      match errors with Some l => foldr (λ v P, sendable v ∧ P) True l | None => True end
  | Hole | Exotic _ => False
  | _ => True
  end.
End revive.

(** Induction over values with the members of every container. *)
Section value_induction.
Context (P : value → Prop).
Hypothesis Pleaf : ∀ v, match v with MapV _ | SetV _ | Arr _ | Obj _ | ErrV _ _ _ _ _ _ _ => True | _ => P v end.
Hypothesis Pmap : ∀ entries, Forall (λ kv, P kv.1 ∧ P kv.2) entries → P (MapV entries).
Hypothesis Pset : ∀ l, Forall P l → P (SetV l).
Hypothesis Parr : ∀ l, Forall P l → P (Arr l).
Hypothesis Pobj : ∀ ms, Forall (λ kv, P kv.2) ms → P (Obj ms).
Hypothesis Perr : ∀ classes name message stack props cause errors,
  Forall (λ kv, P kv.2) props → (∀ c, cause = Some c → P c) → (∀ l, errors = Some l → Forall P l) →
  P (ErrV classes name message stack props cause errors).

Lemma value_nested_ind : ∀ v, P v.
Proof using Pleaf Pmap Pset Parr Pobj Perr.
  fix IH 1. intros v. destruct v as [| | | | | | | | | | | | | | | | | |entries|l|l|classes name message stack props cause errors|ms| |];
    try exact (Pleaf _).
  all: try match goal with |- P ?v => exact (Pleaf v) end.
  - apply Pmap. induction entries as [|[k v] entries IHl]; constructor; [split; apply IH|exact IHl].
  - apply Pset. induction l as [|v l IHl]; constructor; [apply IH|exact IHl].
  - apply Parr. induction l as [|v l IHl]; constructor; [apply IH|exact IHl].
  - apply Perr.
    + induction props as [|[k v] props IHl]; constructor; [apply IH|exact IHl].
    + intros c Hc. destruct cause as [c'|]; [|discriminate]. injection Hc as <-. apply IH.
    + intros l Hl. destruct errors as [l'|]; [|discriminate]. injection Hl as <-.
      induction l' as [|v l' IHl]; constructor; [apply IH|exact IHl].
  - apply Pobj. induction ms as [|[k v] ms IHl]; constructor; [apply IH|exact IHl].
Qed.
End value_induction.

(** ** The round trip *)

Section roundtrip.
Context (b64 : bool) (resolveGrainReference : option (GrainId → Z → value)).
#[local] Notation enc := (encodeInner b64).
#[local] Notation dec := (decodeValue resolveGrainReference).
#[local] Notation rev := (revive resolveGrainReference).

(** [v] encodes at every path to something that decodes to what the receiver
    gets, and only a string encodes to a string. *)
Definition carries (v : value) : Prop :=
  sendable v → ∀ path, ∃ w, enc v path = inr w ∧ dec w = inr (rev v) ∧
    ∀ s, w = WStr s → v = Str s.

Lemma dec_undefined : dec (tagged "undefined" []) = inr Undef.
Proof. reflexivity. Qed.

Lemma carries_element v path :
  carries v → sendable v → ∃ w, encodeElement enc v path = inr w ∧ dec w = inr (rev v).
Proof.
  intros Hc Hs. destruct (Hc Hs path) as (w & He & Hd & _).
  destruct v; try (exists w; split; [exact He|exact Hd]). by exists (tagged "undefined" []).
Qed.

Lemma carries_elements l : Forall carries l → foldr (λ v P, sendable v ∧ P) True l →
  ∀ path i, ∃ ws, encode_elements enc path i l = inr ws ∧ decode_elements dec ws = inr (rev <$> l).
Proof.
  induction 1 as [|v l Hv Hl IH]; intros Hs path i; [by exists []|]. destruct Hs as [Hsv Hs].
  destruct (carries_element v (index_path path i) Hv Hsv) as (w & He & Hd).
  destruct (IH Hs path (S i)) as (ws & Hes & Hds). exists (w :: ws). simpl. by rewrite He, Hd, Hes, Hds.
Qed.

Lemma carries_entries l :
  Forall (λ kv, carries kv.1 ∧ carries kv.2) l → foldr (λ '(k, v) P, sendable k ∧ sendable v ∧ P) True l →
  ∀ path i, ∃ ws, encode_entries enc path i l = inr ws ∧
    decode_entries dec ws = inr ((λ '(k, v), (rev k, rev v)) <$> l).
Proof.
  induction 1 as [|[k v] l [Hk Hv] Hl IH]; intros Hs path i; [by exists []|].
  destruct Hs as (Hsk & Hsv & Hs). simpl in Hk, Hv.
  destruct (carries_element k (index_path path i ++ ".key") Hk Hsk) as (wk & Hek & Hdk).
  destruct (carries_element v (index_path path i ++ ".value") Hv Hsv) as (wv & Hev & Hdv).
  destruct (IH Hs path (S i)) as (ws & Hes & Hds). exists (WArr [wk; wv] :: ws). simpl.
  by rewrite Hek, Hev, Hes, Hdk, Hdv, Hds.
Qed.

Lemma carries_members skip l :
  (∀ k, isDangerousKey k = true → skip k = true) →
  Forall (λ kv, carries kv.2) l → foldr (λ '(_, v) P, sendable v ∧ P) True l →
  ∀ path, ∃ ws, encode_members enc skip path l = inr ws ∧
    decode_members dec ws = inr (omap (λ '(k, v), if skip k then None else Some (k, rev v)) l) ∧
    ∀ key s, skip key = false → jm_get key ws = Some (WStr s) → jm_get key l = Some (Str s).
Proof.
  intros Hskip. induction 1 as [|[k v] l Hv Hl IH]; intros Hs path; [by exists []|].
  destruct Hs as [Hsv Hs]. destruct (IH Hs path) as (ws & Hes & Hds & Hk). simpl in Hv |- *.
  destruct (skip k) eqn:Hsk.
  - exists ws. split_and!; [done|done|]. intros key s Hkey Hget.
    rewrite decide_False by congruence. by apply Hk.
  - destruct (Hv Hsv (member_path path k)) as (w & He & Hd & Hstr).
    exists ((k, w) :: ws). rewrite He, Hes. simpl.
    assert (isDangerousKey k = false) as -> by (destruct (isDangerousKey k) eqn:E; [apply Hskip in E; congruence|done]).
    rewrite Hd, Hds. split_and!; [done|done|]. intros key s Hkey.
    case_decide; [|by apply Hk]. intros [= ->]. by rewrite (Hstr s eq_refl).
Qed.

(** What the decoder does with the envelopes of the encoder. *)
Lemma dec_bigint s : dec (tagged "bigint" [("value", WStr s)]) =
  (let? z := of_option "bigint" (BigInt s) in inr (BigInt_ z)).
Proof. reflexivity. Qed.
Lemma dec_bytes s : dec (tagged "bytes" [("value", WStr s)]) =
  inr (Bytes (base64ToBytes (list_ascii_of_string s))).
Proof. reflexivity. Qed.
Lemma dec_guid s : dec (tagged "guid" [("value", WStr s)]) =
  (let? g := of_option "guid" (Guid_parse s) in inr (GuidV g)).
Proof. reflexivity. Qed.
Lemma dec_typed kind ws : dec (tagged "typedArray" [("kind", WStr kind); ("values", WArr ws)]) =
  (if bool_decide (kind ∈ TYPED_ARRAY_CTORS)
   then let? es := of_option "typedArray" (mapM decode_elem ws) in inr (TypedArray kind es)
   else inl (Malformed "typedArray")).
Proof. reflexivity. Qed.
Lemma dec_grainId t k key : dec (tagged "grainId" [("grainType", WStr t); ("keyKind", WStr k); ("key", WStr key)]) =
  (let? id :=
     let? kd := of_option "grainId" (kind_of_name k) in
     of_option "grainId" (GrainId_parse (t ++ "/" ++ key)%string kd) in
   inr (GrainIdV id)).
Proof. reflexivity. Qed.
Lemma dec_grainRef i t k key :
  dec (tagged "grainRef" [("interfaceId", WNum (NInt i)); ("grainType", WStr t); ("keyKind", WStr k); ("key", WStr key)]) =
  (let? id :=
     let? kd := of_option "grainRef" (kind_of_name k) in
     of_option "grainRef" (GrainId_parse (t ++ "/" ++ key)%string kd) in
   inr (match resolveGrainReference with
        | Some f => f id i
        | None => Obj [("grainId", GrainIdV id); ("interfaceId", Num (NInt i))] end)).
Proof. reflexivity. Qed.
Lemma dec_map ws : dec (tagged "map" [("entries", WArr ws)]) =
  (let? es := decode_entries dec ws in inr (MapV es)).
Proof. reflexivity. Qed.
Lemma dec_set ws : dec (tagged "set" [("values", WArr ws)]) =
  (let? vs := decode_elements dec ws in inr (SetV vs)).
Proof. reflexivity. Qed.

Lemma kind_name_inv k : kind_of_name (kind_name k) = Some k.
Proof. by destruct k. Qed.

Lemma grain_id_back id : wf_id id →
  GrainId_parse (grain_type id ++ "/" ++ keyToString (grain_key id))%string (keyKind id) = Some id.
Proof. apply GrainId_roundtrip. Qed.

Lemma decode_elems es : mapM decode_elem (encode_elem <$> es) = Some es.
Proof.
  assert (He : ∀ e, decode_elem (encode_elem e) = Some e).
  { intros [[| |]|z]; try done.
    change (EBig <$> BigInt (bigint_toString z) = Some (EBig z)). by rewrite BigInt_toString. }
  induction es as [|e es IH]; [done|].
  change ((x ← decode_elem (encode_elem e); ys ← mapM decode_elem (encode_elem <$> es); Some (x :: ys))
    = Some (e :: es)). by rewrite He, IH.
Qed.

Lemma carries_leaf v :
  match v with MapV _ | SetV _ | Arr _ | Obj _ | ErrV _ _ _ _ _ _ _ => True | _ => carries v end.
Proof.
  destruct v as [| |b|n|s|z|bs|kind es|ms|g|id|t c s|t c s|n m|m|m|s|i id|l|l|l|cl n m st ps c er|ms| |r];
    try exact I; intros Hs path; try (by destruct Hs); simpl encodeInner;
    try (eexists; split_and!; [reflexivity|reflexivity|by intros ? [= ->] || done]).
  - destruct n; eexists; split_and!; try reflexivity; done.
  - eexists. split_and!; [reflexivity| |done]. by rewrite dec_bigint, BigInt_toString.
  - destruct b64; eexists; split_and!; try reflexivity; try done.
    rewrite dec_bytes, list_ascii_of_string_of_list_ascii, base64_back by done. done.
  - eexists. split_and!; [reflexivity| |done]. rewrite dec_typed, decode_elems.
    by rewrite bool_decide_eq_true_2 by done.
  - eexists. split_and!; [reflexivity| |done]. rewrite dec_guid. simpl in Hs. unfold wf_guid in Hs. by rewrite Hs.
  - eexists. split_and!; [reflexivity| |done]. unfold grainIdFields.
    by rewrite dec_grainId, kind_name_inv; simpl; rewrite grain_id_back.
  - eexists. split_and!; [reflexivity|by destruct s|done].
  - eexists. split_and!; [reflexivity|by destruct s|done].
  - eexists. split_and!; [reflexivity|by destruct s|done].
  - eexists. split_and!; [reflexivity| |done]. unfold grainIdFields.
    by rewrite dec_grainRef, kind_name_inv; simpl; rewrite grain_id_back.
Qed.

Lemma carries_map entries : Forall (λ kv, carries kv.1 ∧ carries kv.2) entries → carries (MapV entries).
Proof.
  intros Hl Hs path. destruct (carries_entries entries Hl Hs path 0) as (ws & He & Hd).
  exists (tagged "map" [("entries", WArr ws)]). simpl encodeInner. rewrite He.
  split_and!; [done| |done]. by rewrite dec_map, Hd.
Qed.

Lemma carries_set l : Forall carries l → carries (SetV l).
Proof.
  intros Hl Hs path. destruct (carries_elements l Hl Hs path 0) as (ws & He & Hd).
  exists (tagged "set" [("values", WArr ws)]). simpl encodeInner. rewrite He.
  split_and!; [done| |done]. by rewrite dec_set, Hd.
Qed.

Lemma no_hole l : foldr (λ v P, sendable v ∧ P) True l → ∀ i, hole_index i l = None.
Proof.
  induction l as [|v l IH]; intros Hs i; [done|]. destruct Hs as [Hv Hs]. destruct v; try done; by apply IH.
Qed.

Lemma carries_arr l : Forall carries l → carries (Arr l).
Proof.
  intros Hl Hs path. destruct (carries_elements l Hl Hs path 0) as (ws & He & Hd).
  exists (WArr ws). simpl encodeInner. rewrite (no_hole l Hs 0), He.
  split_and!; [done| |done]. change (dec (WArr ws)) with (let? vs := decode_elements dec ws in inr (Arr vs)).
  by rewrite Hd.
Qed.

Lemma carries_obj ms : Forall (λ kv, carries kv.2) ms → carries (Obj ms).
Proof.
  intros Hl [Hno Hs] path.
  destruct (carries_members isDangerousKey ms (λ k H, H) Hl Hs path) as (ws & He & Hd & Hk).
  exists (WObj ws). simpl encodeInner. rewrite He. split_and!; [done| |done].
  assert (Hplain : dec (WObj ws) = (let? m := decode_members dec ws in inr (Obj m))).
  { cbn [decodeValue]. destruct (jm_get T ws) as [[| | | |s| | |]|] eqn:ET; try done.
    exfalso. by apply (Hno s), Hk. }
  by rewrite Hplain, Hd.
Qed.

(** The envelope of an error, with its optional fields. *)
Lemma dec_error name message marked ps cause stack errors :
  dec (tagged "error"
        ([("name", WStr name); ("message", WStr message)] ++
         (if marked : bool then [("thresh", WBool true)] else []) ++
         (match ps with [] => [] | _ => [("properties", WObj ps)] end) ++
         (match cause with Some w => [("cause", w)] | None => [] end) ++
         (match stack with Some s => [("stack", WStr s)] | None => [] end) ++
         (match errors with Some ws => [("errors", WArr ws)] | None => [] end))) =
  (let? properties := decode_members dec ps in
   let? es := (match errors with Some ws => let? vs := decode_elements dec ws in inr (Some vs) | None => inr None end) in
   let? c := (match cause with Some w => let? v := dec w in inr (Some v) | None => inr None end) in
   inr (rebuild name message marked properties es c stack)).
Proof. destruct marked, ps, cause, stack, errors; reflexivity. Qed.

Lemma skip_dangerous classes k : isDangerousKey k = true → skip_error_key classes k = true.
Proof. unfold skip_error_key. intros ->. by rewrite orb_true_r. Qed.

Lemma carries_err classes name message stack props cause errors :
  Forall (λ kv, carries kv.2) props → (∀ c, cause = Some c → carries c) →
  (∀ l, errors = Some l → Forall carries l) →
  carries (ErrV classes name message stack props cause errors).
Proof.
  intros Hp Hc He (Hsp & Hsc & Hse) path.
  destruct (carries_members (skip_error_key classes) props (skip_dangerous classes) Hp Hsp path)
    as (ps & Hps & Hdp & _).
  assert (Hcause : ∃ wc, match cause with
      | Some c => let? w := encodeElement enc c (member_path path "cause") in inr [("cause"%string, w)]
      | None => inr [] end =
      inr (match wc with Some w => [("cause"%string, w)] | None => [] end) ∧
    (match wc with Some w => let? v := dec w in inr (Some v) | None => inr None end) =
      inr (match cause with Some c => Some (rev c) | None => None end)).
  { destruct cause as [c|]; [|by exists None].
    destruct (carries_element c (member_path path "cause") (Hc c eq_refl) Hsc) as (w & E & D).
    exists (Some w). by rewrite E, D. }
  assert (Herrors : ∃ we, match errors with
      | Some l => let? ws := encode_elements enc (member_path path "errors") 0 l in inr [("errors"%string, WArr ws)]
      | None => inr [] end =
      inr (match we with Some ws => [("errors"%string, WArr ws)] | None => [] end) ∧
    (match we with Some ws => let? vs := decode_elements dec ws in inr (Some vs) | None => inr None end) =
      inr (match errors with Some l => Some (rev <$> l) | None => None end)).
  { destruct errors as [l|]; [|by exists None].
    destruct (carries_elements l (He l eq_refl) Hse (member_path path "errors") 0) as (ws & E & D).
    exists (Some ws). by rewrite E, D. }
  destruct Hcause as (wc & Ec & Dc), Herrors as (we & Ee & De).
  eexists. simpl encodeInner. rewrite Hps. cbn [bind]. rewrite Ec. cbn [bind]. rewrite Ee. cbn [bind].
  split_and!; [reflexivity| |done]. unfold encode_error.
  destruct stack as [s|]; [pose proof (dec_error name message (isKnownThreshError classes name) ps wc (Some (capStack s)) we) as Hdec
    |pose proof (dec_error name message (isKnownThreshError classes name) ps wc None we) as Hdec];
    rewrite Hdp in Hdec; cbn [bind] in Hdec; rewrite De in Hdec; cbn [bind] in Hdec; rewrite Dc in Hdec;
    exact Hdec.
Qed.

Lemma all_carry v : carries v.
Proof.
  apply value_nested_ind; [apply carries_leaf|apply carries_map|apply carries_set|apply carries_arr
    |apply carries_obj|apply carries_err].
Qed.
End roundtrip.

(** ** No dangerous key is ever copied *)

Section clean.
Fixpoint clean (v : value) : Prop :=
  match v with
  | Obj members => foldr (λ '(k, v) P, isDangerousKey k = false ∧ clean v ∧ P) True members
  | MapV entries => foldr (λ '(k, v) P, clean k ∧ clean v ∧ P) True entries
  | SetV l | Arr l => foldr (λ v P, clean v ∧ P) True l
  | ErrV _ _ _ _ props cause errors =>
      foldr (λ '(k, v) P, isDangerousKey k = false ∧ clean v ∧ P) True props ∧
      match cause with Some c => clean c | None => True end ∧
      match errors with Some l => foldr (λ v P, clean v ∧ P) True l | None => True end
  | _ => True
  end.

Definition clean_members (l : list (string * value)) : Prop :=
  foldr (λ '(k, v) P, isDangerousKey k = false ∧ clean v ∧ P) True l.

Lemma clean_jm_set k v l :
  isDangerousKey k = false → clean v → clean_members l → clean_members (jm_set k v l).
Proof.
  intros Hk Hv. induction l as [|[k' v'] l IH]; [by split|]. intros (H1 & H2 & H3). simpl.
  case_decide; split_and!; try done. by apply IH.
Qed.

Lemma clean_jm_get k l v : clean_members l → jm_get k l = Some v → clean v.
Proof.
  induction l as [|[k' v'] l IH]; [done|]. intros (H1 & H2 & H3). simpl.
  case_decide; [by intros [= <-]|by apply IH].
Qed.

Lemma clean_fallback name ps errors :
  clean_members ps → match errors with Some l => foldr (λ v P, clean v ∧ P) True l | None => True end →
  clean_members (fallback_props name ps errors).
Proof.
  intros Hps He. unfold fallback_props.
  assert (H0 : clean_members [("errorType"%string, Str name); ("properties"%string, Obj ps);
    ("errors"%string, match errors with Some l => Arr l | None => Undef end)]).
  { split_and!; try done. by destruct errors. }
  revert H0. generalize [("errorType"%string, Str name); ("properties"%string, Obj ps);
    ("errors"%string, match errors with Some l => Arr l | None => Undef end)]. clear He.
  revert Hps. generalize ps. clear ps. intros ps. induction ps as [|[k v] ps IH]; intros Hps own Hown; [done|].
  destruct Hps as (Hk & Hv & Hps). simpl. apply IH; [done|]. case_decide; [done|]. by apply clean_jm_set.
Qed.

Lemma clean_built ps name classes keys : clean_members ps →
  jm_get name knownErrors = Some (classes, keys) → clean_members (built_property ps <$> keys).
Proof.
  intros Hps Hname.
  assert (Hkeys : Forall (λ e : string * (list string * list string),
    Forall (λ k, isDangerousKey k = false) e.2.2) knownErrors) by (repeat constructor).
  apply jm_get_Some_elem in Hname. rewrite Forall_forall in Hkeys. specialize (Hkeys _ Hname). simpl in Hkeys.
  clear Hname. induction Hkeys as [|k keys Hk Hkeys IH]; [done|].
  split; [exact Hk|]. split; [|exact IH].
  unfold built_property. simpl. destruct (String.eqb k "isSourceActivation").
  - by repeat case_match.
  - destruct (jm_get k ps) as [v|] eqn:E; [exact (clean_jm_get k ps v Hps E)|done].
Qed.

Lemma clean_rebuild name message marked ps errors cause stack :
  clean_members ps → match errors with Some l => foldr (λ v P, clean v ∧ P) True l | None => True end →
  match cause with Some c => clean c | None => True end →
  clean (rebuild name message marked ps errors cause stack).
Proof.
  intros Hps He Hc. unfold rebuild.
  set (ps' := match errors with Some l => jm_set "errors" (Arr l) ps | None => ps end).
  assert (Hps' : clean_members ps') by (unfold ps'; destruct errors; [by apply clean_jm_set|done]).
  destruct (if marked then jm_get name knownErrors else None) as [[classes keys]|] eqn:Hk.
  - destruct marked; [|done]. split; [exact (clean_built ps' name classes keys Hps' Hk)|split].
    + destruct cause; [done|]. by destruct (String.eqb name "TransactionCascadingAbortError").
    + destruct (String.eqb name "AggregateError"); [|done]. destruct (jm_get "errors" ps') as [v|] eqn:Ee; [|done].
      pose proof (clean_jm_get _ _ _ Hps' Ee) as Hv. by destruct v.
  - split; [by apply clean_fallback|by split].
Qed.
End clean.

Section wire_induction.
Context (P : wire → Prop).
Hypothesis Pleaf : ∀ w, match w with WArr _ | WObj _ => True | _ => P w end.
Hypothesis Parr : ∀ l, Forall P l → P (WArr l).
Hypothesis Pobj : ∀ ms, Forall (λ kv, P kv.2) ms → P (WObj ms).

Lemma wire_nested_ind : ∀ w, P w.
Proof using Pleaf Parr Pobj.
  fix IH 1. intros w. destruct w as [| | | | | |l|ms]; try match goal with |- P ?w => exact (Pleaf w) end.
  - apply Parr. induction l as [|w l IHl]; constructor; [apply IH|exact IHl].
  - apply Pobj. induction ms as [|[k w] ms IHl]; constructor; [apply IH|exact IHl].
Qed.
End wire_induction.

Section decode_clean.
Context (resolveGrainReference : option (GrainId → Z → value)).
Hypothesis resolve_clean : ∀ f id i, resolveGrainReference = Some f → clean (f id i).
#[local] Notation dec := (decodeValue resolveGrainReference).

Definition decodes_clean (w : wire) : Prop := ∀ v, dec w = inr v → clean v.

(** The decoder reads the parts of an envelope in place, so the induction
    speaks of every part at every depth. *)
#[warnings="-register-all"]
Inductive parts_clean : wire → Prop :=
  parts_intro w : decodes_clean w →
    (∀ l, w = WArr l → Forall parts_clean l) →
    (∀ ms, w = WObj ms → Forall (λ kv, parts_clean kv.2) ms) → parts_clean w.

Lemma bind_inr {E A B} (m : E + A) (f : A → E + B) b :
  bind m f = inr b ↔ ∃ a, m = inr a ∧ f a = inr b.
Proof. destruct m; simpl; naive_solver. Qed.

Lemma elements_clean l vs : Forall parts_clean l → decode_elements dec l = inr vs →
  foldr (λ v P, clean v ∧ P) True vs.
Proof.
  intros Hl. revert vs. induction Hl as [|w l [w' Hw _ _] Hl IH]; intros vs; simpl; [by intros [= <-]|].
  intros (v & Hv & (vs' & Hvs & [= <-])%bind_inr)%bind_inr. split; [by apply Hw|by apply IH].
Qed.

Lemma members_clean l ms : Forall (λ kv, parts_clean kv.2) l → decode_members dec l = inr ms → clean_members ms.
Proof.
  intros Hl. revert ms. induction Hl as [|[k w] l Hw Hl IH]; intros ms; simpl; [by intros [= <-]|].
  destruct (isDangerousKey k) eqn:Hk; [by apply IH|].
  intros (v & Hv & (vs' & Hvs & [= <-])%bind_inr)%bind_inr.
  inversion Hw as [? Hw' _ _]; subst. split_and!; [done|by apply Hw'|by apply IH].
Qed.

Lemma parts_arr l : parts_clean (WArr l) → Forall parts_clean l.
Proof. intros Hp. inversion Hp as [? _ Ha _]. by apply Ha. Qed.
Lemma parts_obj ms : parts_clean (WObj ms) → Forall (λ kv, parts_clean kv.2) ms.
Proof. intros Hp. inversion Hp as [? _ _ Ho]. by apply Ho. Qed.
Lemma parts_self w v : parts_clean w → dec w = inr v → clean v.
Proof. intros Hp. inversion Hp as [? Hs _ _]. apply Hs. Qed.

Lemma entries_clean l es : Forall parts_clean l →
  decode_entries dec l = inr es → foldr (λ '(k, v) P, clean k ∧ clean v ∧ P) True es.
Proof.
  intros Hl. revert es. induction Hl as [|w l Hw Hl IH]; intros es; simpl; [by intros [= <-]|].
  destruct w as [| | | | | |[|wk [|wv [|]]]|]; try done.
  apply parts_arr in Hw. apply Forall_cons in Hw as [Hwk [Hwv _]%Forall_cons].
  intros (k & Hk & (v & Hv & (es' & Hes & [= <-])%bind_inr)%bind_inr)%bind_inr.
  split; [exact (parts_self wk k Hwk Hk)|]. split; [exact (parts_self wv v Hwv Hv)|by apply IH].
Qed.

(** The part of an envelope a sub-decoder reads. *)
Lemma sub_elem {A} key (f : wire → CodecError + A) none l a :
  decode_sub key f none l = inr a → none = inr a ∨ ∃ w, (key, w) ∈ l ∧ f w = inr a.
Proof.
  induction l as [|[k w] l IH]; simpl; [by left|]. case_decide as Hk; [subst k|].
  - intros Hf. right. exists w. split; [by left|done].
  - intros [?|(w' & Hin & Hf)]%IH; [by left|right; exists w'; split; [by right|done]].
Qed.

Lemma part_of (ms : list (string * wire)) (key : string) (w : wire) : Forall (λ kv, parts_clean kv.2) ms → (key, w) ∈ ms → parts_clean w.
Proof. rewrite Forall_forall. intros Hms Hin. by apply (Hms (key, w)). Qed.

Lemma plain_clean ms v : Forall (λ kv, parts_clean kv.2) ms →
  (let? m := decode_members dec ms in inr (Obj m)) = inr v → clean v.
Proof. intros Hms (m & Hm & [= <-])%bind_inr. by apply (members_clean ms). Qed.

(** The error envelope. *)
Lemma error_clean ms name message marked stack v : Forall (λ kv, parts_clean kv.2) ms →
  (let? properties := decode_sub "properties"
     (λ w, match w with WObj ms => decode_members dec ms | _ => inr [] end) (inr []) ms in
   let? errors := decode_sub "errors"
     (λ w, match w with
           | WArr ws => let? vs := decode_elements dec ws in inr (Some vs)
           | _ => inr None end) (inr None) ms in
   let? cause := decode_sub "cause" (λ w, let? v := dec w in inr (Some v)) (inr None) ms in
   inr (rebuild name message marked properties errors cause stack)) = inr v → clean v.
Proof.
  intros Hms (ps & Hps & (es & Hes & (c & Hc & [= <-])%bind_inr)%bind_inr)%bind_inr. apply clean_rebuild.
  - apply sub_elem in Hps as [[= <-]|(w & Hin & Hw)]; [done|]. pose proof (part_of _ _ _ Hms Hin) as Hp.
    destruct w; simplify_eq; try done. eapply members_clean; [by apply parts_obj|done].
  - apply sub_elem in Hes as [[= <-]|(w & Hin & Hw)]; [done|]. pose proof (part_of _ _ _ Hms Hin) as Hp.
    destruct w; simplify_eq; try done. apply bind_inr in Hw as (vs & Hvs & [= <-]).
    eapply elements_clean; [by apply parts_arr|done].
  - apply sub_elem in Hc as [[= <-]|(w & Hin & Hw)]; [done|]. pose proof (part_of _ _ _ Hms Hin) as Hp.
    apply bind_inr in Hw as (v & Hv & [= <-]). exact (parts_self w v Hp Hv).
Qed.

Lemma obj_clean ms : Forall (λ kv, parts_clean kv.2) ms → decodes_clean (WObj ms).
Proof.
  intros Hms v. cbn [decodeValue]. cbv zeta.
  destruct (jm_get T ms) as [[| | | |tag| | |]|]; try (by apply plain_clean).
  destruct (decide _); [done|].
  repeat match goal with
  | |- (if String.eqb tag "error" then _ else _) = _ → _ =>
      destruct (String.eqb tag "error"); [by apply error_clean|]
  | |- (if String.eqb tag "map" then _ else _) = _ → _ =>
      destruct (String.eqb tag "map");
      [intros [?|(w & Hin & Hw)]%sub_elem; [done|]; pose proof (part_of _ _ _ Hms Hin) as Hp;
       destruct w; simplify_eq; try done; apply bind_inr in Hw as (es & Hes & [= <-]);
       eapply entries_clean; [by apply parts_arr|done]|]
  | |- (if String.eqb tag "set" then _ else _) = _ → _ =>
      destruct (String.eqb tag "set");
      [intros [?|(w & Hin & Hw)]%sub_elem; [done|]; pose proof (part_of _ _ _ Hms Hin) as Hp;
       destruct w; simplify_eq; try done; apply bind_inr in Hw as (es & Hes & [= <-]);
       eapply elements_clean; [by apply parts_arr|done]|]
  | |- (if String.eqb tag "grainRef" then _ else _) = _ → _ =>
      destruct (String.eqb tag "grainRef");
      [intros (id & _ & Hi)%bind_inr; repeat case_match; simplify_eq; try done; by eapply resolve_clean|]
  | |- (if String.eqb tag ?s then _ else _) = _ → _ =>
      destruct (String.eqb tag s);
      [intros Hv; repeat (apply bind_inr in Hv as (? & _ & Hv)); repeat case_match; simplify_eq;
       repeat (apply bind_inr in Hv as (? & _ & Hv)); by simplify_eq|]
  end.
  by apply plain_clean.
Qed.

Lemma all_parts_clean w : parts_clean w.
Proof.
  apply wire_nested_ind.
  - intros w0. destruct w0; try exact I; (constructor; [by intros v [= <-]|done|done]).
  - intros l Hl. constructor; [|by intros ? [= <-]|done].
    intros v. change (dec (WArr l)) with (let? vs := decode_elements dec l in inr (Arr vs)).
    intros (vs & Hvs & [= <-])%bind_inr. by eapply elements_clean.
  - intros ms Hms. constructor; [by apply obj_clean|done|by intros ? [= <-]].
Qed.
End decode_clean.

(** ** Properties *)

(** Values that arrive as themselves: no token, reference or error inside, and
    no dangerous key. *)
Fixpoint plain_data (v : value) : Prop :=
  match v with
  | Token _ _ _ | GrainRef _ _ | ErrV _ _ _ _ _ _ _ => False
  | MapV entries => foldr (λ '(k, v) P, plain_data k ∧ plain_data v ∧ P) True entries
  | SetV l | Arr l => foldr (λ v P, plain_data v ∧ P) True l
  | Obj members => foldr (λ '(k, v) P, isDangerousKey k = false ∧ plain_data v ∧ P) True members
  | _ => True
  end.

Lemma revive_plain resolve v : plain_data v → revive resolve v = v.
Proof.
  apply (value_nested_ind (λ v, plain_data v → revive resolve v = v)).
  - intros v0. by destruct v0.
  - intros entries Hl Hp. simpl. f_equal. induction Hl as [|[k w] l [Hk Hw] Hl IH]; [done|].
    destruct Hp as (Hpk & Hpw & Hp). rewrite fmap_cons, (IH Hp). simpl in Hk, Hw |- *. by rewrite Hk, Hw.
  - intros l Hl Hp. simpl. f_equal. induction Hl as [|w l Hw Hl IH]; [done|].
    destruct Hp as (Hpw & Hp). rewrite fmap_cons, (IH Hp). by rewrite Hw.
  - intros l Hl Hp. simpl. f_equal. induction Hl as [|w l Hw Hl IH]; [done|].
    destruct Hp as (Hpw & Hp). rewrite fmap_cons, (IH Hp). by rewrite Hw.
  - intros ms Hl Hp. simpl. f_equal. induction Hl as [|[k w] l Hw Hl IH]; [done|].
    destruct Hp as (Hk & Hpw & Hp). specialize (IH Hp). cbn in IH, Hw |- *. rewrite Hk, (Hw Hpw).
    f_equal. exact IH.
  - done.
Qed.

(** C11: The codec loses nothing but what it says. Every sendable value, of
    any nesting, encodes in both binary modes, and decodes to [revive] of it:
    a token to its placeholder, a reference to what the context resolves it
    to, an error to its class, message, properties, cause and stack as far as
    its class is known, everything else to itself. Values without tokens,
    references, errors and dangerous keys arrive exactly as sent. *)
Theorem codec_roundtrip binaryAsBase64 resolve v :
  sendable v →
  (∃ w, encodeValue binaryAsBase64 v = inr w ∧ decodeValue resolve w = inr (revive resolve v)) ∧
  (plain_data v → revive resolve v = v).
Proof.
  intros Hs. split; [|apply revive_plain].
  destruct (carries_element binaryAsBase64 resolve v "$" (all_carry binaryAsBase64 resolve v) Hs)
    as (w & He & Hd). by exists w.
Qed.

(** Decoding never pollutes a prototype: whatever a payload holds, at any
    depth, no object and no error the decoder builds has a member named
    [__proto__], [constructor] or [prototype], as long as references resolve
    to such objects only. *)
Theorem decode_never_pollutes resolve w v :
  (∀ f id i, resolve = Some f → clean (f id i)) →
  decodeValue resolve w = inr v → clean v.
Proof. intros Hr. by apply parts_self, all_parts_clean. Qed.

(** Every byte string survives the tagged base 64 form, of every length
    and with every padding, through the 32-bit accumulator of the decoder. *)
Theorem base64_roundtrip bytes :
  Forall is_byte bytes → base64ToBytes (bytesToBase64 bytes) = bytes.
Proof. apply base64_back. Qed.

(** The version gate: a newer envelope of a known tag is refused, one of an
    unknown tag is read as a plain object. *)
Lemma newer_version_refused resolve tag z fields :
  tag ∈ builtInTags → 1 < z →
  decodeValue resolve (WObj ((T, WStr tag) :: (V, WNum (NInt z)) :: fields)) =
    inl (UnsupportedSchemaVersionError tag z CURRENT_VERSION).
Proof.
  intros Ht Hz. cbn [decodeValue]. cbv zeta.
  change (jm_get T ((T, WStr tag) :: _)) with (Some (WStr tag)). cbv iota.
  assert (Hv : versionOf ((T, WStr tag) :: (V, WNum (NInt z)) :: fields) = z).
  { change (versionOf _) with (if decide (1 ≤ z) then z else 1). by rewrite decide_True by lia. }
  rewrite Hv, decide_True; [done|]. split; [unfold CURRENT_VERSION; lia|done].
Qed.

(** ** Concrete values *)

(** A record with a map, binary, a grain id, a negative zero and an optional field. *)
Definition sample : value :=
  Obj [("m", MapV [(Str "k", Arr [Num NegZero; Undef; BigInt_ (-12)])]);
       ("b", Bytes [0; 255; 128; 7]); ("id", GrainIdV (mkGrainId "counter" (KInt 5)));
       ("opt", Undef); ("e", SetV [Null; Bool true])].

Lemma codec_roundtrip_witness :
  ∃ w, encodeValue true sample = inr w ∧ decodeValue None w = inr sample.
Proof.
  assert (Hs : sendable sample).
  { split; [intros s; vm_compute; discriminate|]. cbn. split_and!; try done.
    repeat constructor; unfold is_byte; lia. }
  assert (Hp : plain_data sample) by (cbn; split_and!; done).
  destruct (codec_roundtrip true None sample Hs) as [(w & He & Hd) Hr].
  exists w. split; [exact He|]. rewrite (Hr Hp) in Hd. exact Hd.
Defined.

Definition polluted : wire :=
  WObj [("a", WObj [("__proto__", WObj [("admin", WBool true)]); ("x", WNull)])].

Lemma decode_never_pollutes_witness :
  decodeValue None polluted = inr (Obj [("a", Obj [("x", Null)])]) ∧ clean (Obj [("a", Obj [("x", Null)])]).
Proof.
  split; [vm_compute; reflexivity|].
  refine (decode_never_pollutes None polluted _ _ _); [intros f id i; discriminate|vm_compute; reflexivity].
Defined.

Lemma base64_roundtrip_witness : base64ToBytes (bytesToBase64 [0; 255; 128; 7]) = [0; 255; 128; 7].
Proof. apply base64_roundtrip. repeat constructor; unfold is_byte; discriminate || lia. Defined.

(** ** What the codec does not carry

    [TransactionAlreadyResolvedError] is no registered class: its receiver
    gets the fallback, which is no [TransactionAbortedError]. *)
Lemma already_resolved_is_not_rebuilt :
  revive None (ErrV ["TransactionAlreadyResolvedError"; "TransactionAbortedError"]
    "TransactionAlreadyResolvedError" "m" None [("transactionId", Str "t")] None None) =
  ErrV ["UnavailableExceptionFallbackException"] "TransactionAlreadyResolvedError" "m" None
    [("errorType", Str "TransactionAlreadyResolvedError"); ("properties", Obj [("transactionId", Str "t")]);
     ("errors", Undef); ("transactionId", Str "t")] None None.
Proof. vm_compute. reflexivity. Qed.

(** A plain object whose member [$thresh] is a string is taken for an envelope. *)
Lemma plain_object_taken_for_envelope :
  (let? w := encodeValue false (Obj [("$thresh", Str "undefined"); ("x", Bool true)]) in
   decodeValue None w) = inr Undef.
Proof. vm_compute. reflexivity. Qed.
