(* ===== verification/Activation.v ===== *)
(** * One grain activation

    Models the life cycle of [packages/runtime/src/activation.ts]: the class
    [ActivationData] over its [TurnScheduler]. An operation is one synchronous
    slice of the class, a continuation of one of its promises, a timer, or a
    call that grain code makes on its own activation; any sequence of them is
    an execution. A call is a number, handed out in arrival order. The grain's
    method, hooks and filters are opaque: they begin, and settle with a result
    of their own. *)
From Stdlib Require Import String.
From stdpp Require Import prelude gmap strings list sorting.
From S2P Require Import Prelude Scheduler.
Open Scope Z_scope.

Section activation.
Context {Arg Value Err : Type}.

(** ** Data *)

Inductive ActivationState := creating | activating | valid | deactivating | invalid.
#[export] Instance ActivationState_eq_dec : EqDecision ActivationState.
Proof. solve_decision. Defined.

Record DeactivationReason := mkReason { code : string; description : string }.

(** What grain code can throw: an error of its own, or an
    [InconsistentStateError] with its [isSourceActivation] mark. *)
Inductive BodyError :=
  | Thrown (e : Err)
  | InconsistentStateError (isSourceActivation : bool) (message : string).

(** What a turn can be rejected with. [NoActivation] is the rejection
    [rerouteOrReject] builds for a held call, [Stuck] the one [handleStuckTurn]
    builds; [HOLD_FOR_REROUTE] never leaves the class. *)
Inductive CallError :=
  | FromBody (e : BodyError)
  | Unavailable
  | RequestExpired
  | HOLD_FOR_REROUTE
  | NoActivation
  | Stuck.

Record InvocationRequest := mkRequest {
  req_method : string;
  req_args : list Arg;
  req_options : InvokeMethodOptions;
  req_reentrancyId : option string;
  req_signal : option nat;
  expiresAt : option Z }.

Record TimerOptions := mkTimer { interleave : bool; keepAlive : bool }.

(** The closures handed to the scheduler. *)
Inductive TurnKind :=
  | ActivateTurn
  | CallTurn (call : nat) (req : InvocationRequest)
  | HookTurn (reason : DeactivationReason)
  | DehydrateTurn
  | TimerTurn (id : nat) (o : TimerOptions)
  | StreamTurn.

(** How far the closure of [beginActivate] got: running [preActivate] and
    [onActivate], running the inline [onDeactivate], or over. *)
Inductive ActivatePhase := OnActivate | InlineDeactivate | ActivateOver.

(** A promise reaction of [invoke] still to run: the [.catch] and [.finally]
    after the turn settled, or the [.then] of [rerouteOrReject]; the flag says
    whether the [.finally] that touches the idle clock follows. *)
Inductive Cont :=
  | TurnSettled (r : option Value + @Rejection CallError)
  | Released (viaTurn : bool).

Record ActivationOptions := mkActivationOptions {
  collectionAgeMs : Z;
  isReentrant : bool;
  maxEnqueuedRequestsSoftLimit : option nat;
  maxEnqueuedRequestsHardLimit : option nat;
  maxProcessingMs : option nat;
  onStuckHook : bool }.

(** The class, with the closures of its turns, those that began, the settled
    deactivation hooks, the promise reactions still to run, and the clock. *)
Record ActivationData := mkActivation {
  scheduler : @TurnScheduler Arg CallError;
  turns : gmap nat TurnKind;
  begun : gset nat;
  phase : ActivatePhase;
  state : ActivationState;
  activationFailure : option CallError;
  neverActivated : bool;
  finalizationWaiters : list (nat * bool);
  dehydrated : bool;
  migrationRequested : bool;
  lastActiveMs : Z;
  keepAliveUntilMs : Z;
  deactivateRequested : bool;
  pendingDeactivationReason : option DeactivationReason;
  deactivateRequestedDuringActivation : bool;
  timers : gmap nat TimerOptions;
  abandonedAsStuck : bool;
  deactivationStartedAtMs : option Z;
  stuckDeactivationTimer : option Z;
  conts : list (nat * Cont);
  next_call : nat;
  now : Z }.

Inductive Event :=
  | ESched (e : @Scheduler.Event Arg (option Value) CallError)
  | EOnActivate
  | EMethod (call : nat)
  | EOnDeactivate (r : DeactivationReason)
  | ETick (id : nat)
  | EStreamCallback
  | ESettled (call : nat) (r : option Value + @Rejection CallError)
  (** [onStuckHook] runs. *)
  | EOnStuck
  (** The promise of a turn that is not a call settles. *)
  | ETurnSettled (promise : nat).

(** ** Assignments *)

Definition set_scheduler s (a : ActivationData) : ActivationData :=
  mkActivation s (turns a) (begun a) (phase a) (state a) (activationFailure a) (neverActivated a)
    (finalizationWaiters a) (dehydrated a) (migrationRequested a) (lastActiveMs a) (keepAliveUntilMs
    a) (deactivateRequested a) (pendingDeactivationReason a) (deactivateRequestedDuringActivation a)
    (timers a) (abandonedAsStuck a) (deactivationStartedAtMs a) (stuckDeactivationTimer a) (conts a)
    (next_call a) (now a).
Definition set_turns m (a : ActivationData) : ActivationData :=
  mkActivation (scheduler a) m (begun a) (phase a) (state a) (activationFailure a) (neverActivated
    a) (finalizationWaiters a) (dehydrated a) (migrationRequested a) (lastActiveMs a)
    (keepAliveUntilMs a) (deactivateRequested a) (pendingDeactivationReason a)
    (deactivateRequestedDuringActivation a) (timers a) (abandonedAsStuck a) (deactivationStartedAtMs
    a) (stuckDeactivationTimer a) (conts a) (next_call a) (now a).
Definition set_begun m (a : ActivationData) : ActivationData :=
  mkActivation (scheduler a) (turns a) m (phase a) (state a) (activationFailure a) (neverActivated
    a) (finalizationWaiters a) (dehydrated a) (migrationRequested a) (lastActiveMs a)
    (keepAliveUntilMs a) (deactivateRequested a) (pendingDeactivationReason a)
    (deactivateRequestedDuringActivation a) (timers a) (abandonedAsStuck a) (deactivationStartedAtMs
    a) (stuckDeactivationTimer a) (conts a) (next_call a) (now a).
Definition set_phase p (a : ActivationData) : ActivationData :=
  mkActivation (scheduler a) (turns a) (begun a) p (state a) (activationFailure a) (neverActivated
    a) (finalizationWaiters a) (dehydrated a) (migrationRequested a) (lastActiveMs a)
    (keepAliveUntilMs a) (deactivateRequested a) (pendingDeactivationReason a)
    (deactivateRequestedDuringActivation a) (timers a) (abandonedAsStuck a) (deactivationStartedAtMs
    a) (stuckDeactivationTimer a) (conts a) (next_call a) (now a).
Definition set_state st (a : ActivationData) : ActivationData :=
  mkActivation (scheduler a) (turns a) (begun a) (phase a) st (activationFailure a) (neverActivated
    a) (finalizationWaiters a) (dehydrated a) (migrationRequested a) (lastActiveMs a)
    (keepAliveUntilMs a) (deactivateRequested a) (pendingDeactivationReason a)
    (deactivateRequestedDuringActivation a) (timers a) (abandonedAsStuck a) (deactivationStartedAtMs
    a) (stuckDeactivationTimer a) (conts a) (next_call a) (now a).
Definition set_activationFailure f (a : ActivationData) : ActivationData :=
  mkActivation (scheduler a) (turns a) (begun a) (phase a) (state a) f (neverActivated a)
    (finalizationWaiters a) (dehydrated a) (migrationRequested a) (lastActiveMs a) (keepAliveUntilMs
    a) (deactivateRequested a) (pendingDeactivationReason a) (deactivateRequestedDuringActivation a)
    (timers a) (abandonedAsStuck a) (deactivationStartedAtMs a) (stuckDeactivationTimer a) (conts a)
    (next_call a) (now a).
Definition set_neverActivated b (a : ActivationData) : ActivationData :=
  mkActivation (scheduler a) (turns a) (begun a) (phase a) (state a) (activationFailure a) b
    (finalizationWaiters a) (dehydrated a) (migrationRequested a) (lastActiveMs a) (keepAliveUntilMs
    a) (deactivateRequested a) (pendingDeactivationReason a) (deactivateRequestedDuringActivation a)
    (timers a) (abandonedAsStuck a) (deactivationStartedAtMs a) (stuckDeactivationTimer a) (conts a)
    (next_call a) (now a).
Definition set_finalizationWaiters w (a : ActivationData) : ActivationData :=
  mkActivation (scheduler a) (turns a) (begun a) (phase a) (state a) (activationFailure a)
    (neverActivated a) w (dehydrated a) (migrationRequested a) (lastActiveMs a) (keepAliveUntilMs a)
    (deactivateRequested a) (pendingDeactivationReason a) (deactivateRequestedDuringActivation a)
    (timers a) (abandonedAsStuck a) (deactivationStartedAtMs a) (stuckDeactivationTimer a) (conts a)
    (next_call a) (now a).
Definition set_dehydrated b (a : ActivationData) : ActivationData :=
  mkActivation (scheduler a) (turns a) (begun a) (phase a) (state a) (activationFailure a)
    (neverActivated a) (finalizationWaiters a) b (migrationRequested a) (lastActiveMs a)
    (keepAliveUntilMs a) (deactivateRequested a) (pendingDeactivationReason a)
    (deactivateRequestedDuringActivation a) (timers a) (abandonedAsStuck a) (deactivationStartedAtMs
    a) (stuckDeactivationTimer a) (conts a) (next_call a) (now a).
Definition set_migrationRequested b (a : ActivationData) : ActivationData :=
  mkActivation (scheduler a) (turns a) (begun a) (phase a) (state a) (activationFailure a)
    (neverActivated a) (finalizationWaiters a) (dehydrated a) b (lastActiveMs a) (keepAliveUntilMs
    a) (deactivateRequested a) (pendingDeactivationReason a) (deactivateRequestedDuringActivation a)
    (timers a) (abandonedAsStuck a) (deactivationStartedAtMs a) (stuckDeactivationTimer a) (conts a)
    (next_call a) (now a).
Definition set_lastActiveMs t (a : ActivationData) : ActivationData :=
  mkActivation (scheduler a) (turns a) (begun a) (phase a) (state a) (activationFailure a)
    (neverActivated a) (finalizationWaiters a) (dehydrated a) (migrationRequested a) t
    (keepAliveUntilMs a) (deactivateRequested a) (pendingDeactivationReason a)
    (deactivateRequestedDuringActivation a) (timers a) (abandonedAsStuck a) (deactivationStartedAtMs
    a) (stuckDeactivationTimer a) (conts a) (next_call a) (now a).
Definition set_keepAliveUntilMs t (a : ActivationData) : ActivationData :=
  mkActivation (scheduler a) (turns a) (begun a) (phase a) (state a) (activationFailure a)
    (neverActivated a) (finalizationWaiters a) (dehydrated a) (migrationRequested a) (lastActiveMs
    a) t (deactivateRequested a) (pendingDeactivationReason a) (deactivateRequestedDuringActivation
    a) (timers a) (abandonedAsStuck a) (deactivationStartedAtMs a) (stuckDeactivationTimer a) (conts
    a) (next_call a) (now a).
Definition set_deactivateRequested b (a : ActivationData) : ActivationData :=
  mkActivation (scheduler a) (turns a) (begun a) (phase a) (state a) (activationFailure a)
    (neverActivated a) (finalizationWaiters a) (dehydrated a) (migrationRequested a) (lastActiveMs
    a) (keepAliveUntilMs a) b (pendingDeactivationReason a) (deactivateRequestedDuringActivation a)
    (timers a) (abandonedAsStuck a) (deactivationStartedAtMs a) (stuckDeactivationTimer a) (conts a)
    (next_call a) (now a).
Definition set_pendingDeactivationReason r (a : ActivationData) : ActivationData :=
  mkActivation (scheduler a) (turns a) (begun a) (phase a) (state a) (activationFailure a)
    (neverActivated a) (finalizationWaiters a) (dehydrated a) (migrationRequested a) (lastActiveMs
    a) (keepAliveUntilMs a) (deactivateRequested a) r (deactivateRequestedDuringActivation a)
    (timers a) (abandonedAsStuck a) (deactivationStartedAtMs a) (stuckDeactivationTimer a) (conts a)
    (next_call a) (now a).
Definition set_deactivateRequestedDuringActivation b (a : ActivationData) : ActivationData :=
  mkActivation (scheduler a) (turns a) (begun a) (phase a) (state a) (activationFailure a)
    (neverActivated a) (finalizationWaiters a) (dehydrated a) (migrationRequested a) (lastActiveMs
    a) (keepAliveUntilMs a) (deactivateRequested a) (pendingDeactivationReason a) b (timers a)
    (abandonedAsStuck a) (deactivationStartedAtMs a) (stuckDeactivationTimer a) (conts a) (next_call
    a) (now a).
Definition set_timers m (a : ActivationData) : ActivationData :=
  mkActivation (scheduler a) (turns a) (begun a) (phase a) (state a) (activationFailure a)
    (neverActivated a) (finalizationWaiters a) (dehydrated a) (migrationRequested a) (lastActiveMs
    a) (keepAliveUntilMs a) (deactivateRequested a) (pendingDeactivationReason a)
    (deactivateRequestedDuringActivation a) m (abandonedAsStuck a) (deactivationStartedAtMs a)
    (stuckDeactivationTimer a) (conts a) (next_call a) (now a).
Definition set_abandonedAsStuck b (a : ActivationData) : ActivationData :=
  mkActivation (scheduler a) (turns a) (begun a) (phase a) (state a) (activationFailure a)
    (neverActivated a) (finalizationWaiters a) (dehydrated a) (migrationRequested a) (lastActiveMs
    a) (keepAliveUntilMs a) (deactivateRequested a) (pendingDeactivationReason a)
    (deactivateRequestedDuringActivation a) (timers a) b (deactivationStartedAtMs a)
    (stuckDeactivationTimer a) (conts a) (next_call a) (now a).
Definition set_deactivationStartedAtMs t (a : ActivationData) : ActivationData :=
  mkActivation (scheduler a) (turns a) (begun a) (phase a) (state a) (activationFailure a)
    (neverActivated a) (finalizationWaiters a) (dehydrated a) (migrationRequested a) (lastActiveMs
    a) (keepAliveUntilMs a) (deactivateRequested a) (pendingDeactivationReason a)
    (deactivateRequestedDuringActivation a) (timers a) (abandonedAsStuck a) t
    (stuckDeactivationTimer a) (conts a) (next_call a) (now a).
Definition set_stuckDeactivationTimer t (a : ActivationData) : ActivationData :=
  mkActivation (scheduler a) (turns a) (begun a) (phase a) (state a) (activationFailure a)
    (neverActivated a) (finalizationWaiters a) (dehydrated a) (migrationRequested a) (lastActiveMs
    a) (keepAliveUntilMs a) (deactivateRequested a) (pendingDeactivationReason a)
    (deactivateRequestedDuringActivation a) (timers a) (abandonedAsStuck a) (deactivationStartedAtMs
    a) t (conts a) (next_call a) (now a).
Definition set_conts l (a : ActivationData) : ActivationData :=
  mkActivation (scheduler a) (turns a) (begun a) (phase a) (state a) (activationFailure a)
    (neverActivated a) (finalizationWaiters a) (dehydrated a) (migrationRequested a) (lastActiveMs
    a) (keepAliveUntilMs a) (deactivateRequested a) (pendingDeactivationReason a)
    (deactivateRequestedDuringActivation a) (timers a) (abandonedAsStuck a) (deactivationStartedAtMs
    a) (stuckDeactivationTimer a) l (next_call a) (now a).
Definition set_next_call n (a : ActivationData) : ActivationData :=
  mkActivation (scheduler a) (turns a) (begun a) (phase a) (state a) (activationFailure a)
    (neverActivated a) (finalizationWaiters a) (dehydrated a) (migrationRequested a) (lastActiveMs
    a) (keepAliveUntilMs a) (deactivateRequested a) (pendingDeactivationReason a)
    (deactivateRequestedDuringActivation a) (timers a) (abandonedAsStuck a) (deactivationStartedAtMs
    a) (stuckDeactivationTimer a) (conts a) n (now a).
Definition set_now t (a : ActivationData) : ActivationData :=
  mkActivation (scheduler a) (turns a) (begun a) (phase a) (state a) (activationFailure a)
    (neverActivated a) (finalizationWaiters a) (dehydrated a) (migrationRequested a) (lastActiveMs
    a) (keepAliveUntilMs a) (deactivateRequested a) (pendingDeactivationReason a)
    (deactivateRequestedDuringActivation a) (timers a) (abandonedAsStuck a) (deactivationStartedAtMs
    a) (stuckDeactivationTimer a) (conts a) (next_call a) t.

(** ** The scheduler of an activation *)

Context (opts : ActivationOptions).

Definition scheduler_options : @TurnSchedulerOptions Arg CallError :=
  mkSchedulerOptions (isReentrant opts) true (maxEnqueuedRequestsSoftLimit opts)
    (maxEnqueuedRequestsHardLimit opts) (maxProcessingMs opts)
    (match maxProcessingMs opts with Some _ => Some (λ _, Stuck) | None => None end).

(** [touch] *)
Definition touch (a : ActivationData) : ActivationData := set_lastActiveMs (now a) a.

(** [releaseFinalizationWaiters]: every held call's [.then] becomes due. *)
Definition releaseFinalizationWaiters (a : ActivationData) : ActivationData :=
  set_conts (conts a ++ ((λ w, (w.1, Released w.2)) <$> finalizationWaiters a))
    (set_finalizationWaiters [] a).

Definition disposeTimers (a : ActivationData) : ActivationData := set_timers ∅ a.

Definition clearStuckDeactivationTimer (a : ActivationData) : ActivationData :=
  set_stuckDeactivationTimer None a.

Definition stuck_event : list Event := if onStuckHook opts then [EOnStuck] else [].

(** [handleStuckTurn] *)
Definition handleStuckTurn (a : ActivationData) : ActivationData * list Event :=
  let a := set_state invalid a in
  let a := disposeTimers a in
  let a := set_abandonedAsStuck true a in
  let a := clearStuckDeactivationTimer a in
  (releaseFinalizationWaiters a, stuck_event).

(** What a scheduler event settles: the promise of a call, whose reaction
    becomes due, or of a turn of the class itself. *)
Definition call_of (k : TurnKind) : option nat :=
  match k with CallTurn c _ => Some c | _ => None end.

Definition settle (a : ActivationData) (p : nat) (r : option Value + @Rejection CallError)
    : ActivationData * list Event :=
  match turns a !! p ≫= call_of with
  | Some c => (set_conts (conts a ++ [(c, TurnSettled r)]) a, [])
  | None => (a, [ETurnSettled p])
  end.

Definition on_event (acc : ActivationData * list Event)
    (e : @Scheduler.Event Arg (option Value) CallError) : ActivationData * list Event :=
  let '(a, ev) := acc in
  match e with
  | EResolve p v => let '(a1, ev1) := settle a p (inl v) in (a1, ev ++ ev1)
  | EReject p r => let '(a1, ev1) := settle a p (inr r) in (a1, ev ++ ev1)
  | _ => (a, ev)
  end.

(** One operation of the scheduler. When it declares its blocking turn stuck it
    calls [onStuck] before it rejects what is queued. *)
Definition sched (o : @Op Arg (option Value) CallError) (a : ActivationData)
    : ActivationData * list Event :=
  let '(s', ev) := exec scheduler_options (scheduler a) o in
  let a1 := set_scheduler s' a in
  let '(a2, ev2) :=
    if bool_decide (Scheduler.stuck (scheduler a) = None ∧ is_Some (Scheduler.stuck s'))
    then handleStuckTurn a1 else (a1, []) in
  foldl on_event (a2, (ESched <$> ev) ++ ev2) ev.

(** [schedule] with its closure. *)
Definition schedule_turn (t : @Turn Arg) (k : TurnKind) (a : ActivationData)
    : ActivationData * list Event :=
  sched (OpSchedule t) (set_turns (<[next_promise (scheduler a) := k]> (turns a)) a).

Definition system_turn (o : InvokeMethodOptions) : @Turn Arg := mkTurn o None None None None.
Definition no_options : InvokeMethodOptions := mkOptions false false.

(** ** Construction and activation *)

(** The constructor. *)
Definition new_activation (t : Z) : ActivationData :=
  mkActivation (new_scheduler None) ∅ ∅ OnActivate creating None false [] false false t 0 false
    None false ∅ false None None [] 0 t.

(** [beginActivate] *)
Definition beginActivate (a : ActivationData) : ActivationData * list Event :=
  schedule_turn (system_turn no_options) ActivateTurn (set_state activating a).

(** [preActivate] and [onActivate] are over, or one of them threw. *)
Definition onActivate_settles (r : unit + BodyError) (a : ActivationData)
    : ActivationData * list Event :=
  match phase a, r with
  | OnActivate, inl _ =>
      if deactivateRequestedDuringActivation a then
        let a := set_neverActivated true a in
        let a := set_state deactivating a in
        let a := disposeTimers a in
        (set_phase InlineDeactivate a,
         [EOnDeactivate (mkReason "application-requested"
            "deactivateOnIdle requested during activation")])
      else sched (OpRunSettles 0 (inl None)) (set_phase ActivateOver (set_state valid a))
  | OnActivate, inr e =>
      let a := set_state invalid a in
      let a := set_activationFailure (Some (FromBody e)) a in
      sched (OpRunSettles 0 (inr (FromBody e))) (set_phase ActivateOver a)
  | _, _ => (a, [])
  end.

(** The [onDeactivate] that runs inside the activation turn settles. *)
Definition inlineDeactivate_settles (a : ActivationData) : ActivationData * list Event :=
  match phase a with
  | InlineDeactivate =>
      sched (OpRunSettles 0 (inl None)) (set_phase ActivateOver (set_state invalid a))
  | _ => (a, [])
  end.

(** ** Holding and rerouting calls *)

(** [abandonStuckDeactivation] *)
Definition abandonStuckDeactivation (a : ActivationData) : ActivationData * list Event :=
  let a := set_state invalid a in
  let a := set_abandonedAsStuck true a in
  let a := clearStuckDeactivationTimer a in
  (releaseFinalizationWaiters a, stuck_event).

(** [watchForStuckDeactivation] *)
Definition watchForStuckDeactivation (a : ActivationData) : ActivationData * list Event :=
  match maxProcessingMs opts, onStuckHook opts, deactivationStartedAtMs a with
  | Some m, true, Some t0 =>
      if bool_decide (state a = deactivating) then
        match stuckDeactivationTimer a with
        | Some _ => (a, [])
        | None =>
            let remainingMs := t0 + Z.of_nat m - now a in
            if bool_decide (remainingMs <= 0) then abandonStuckDeactivation a
            else (set_stuckDeactivationTimer (Some (now a + remainingMs)) a, [])
        end
      else (a, [])
  | _, _, _ => (a, [])
  end.

(** The callback of that timer. *)
Definition stuck_timer_fires (a : ActivationData) : ActivationData * list Event :=
  match stuckDeactivationTimer a with
  | Some due =>
      if bool_decide (due <= now a) then
        let a := clearStuckDeactivationTimer a in
        if bool_decide (state a = deactivating ∧ finalizationWaiters a ≠ [])
        then abandonStuckDeactivation a else (a, [])
      else (a, [])
  | None => (a, [])
  end.

(** [rerouteOrReject] with [awaitFinalized], for the call [c]. *)
Definition awaitFinalized (c : nat) (viaTurn : bool) (a : ActivationData)
    : ActivationData * list Event :=
  if bool_decide (state a = invalid) then (set_conts (conts a ++ [(c, Released viaTurn)]) a, [])
  else watchForStuckDeactivation
         (set_finalizationWaiters (finalizationWaiters a ++ [(c, viaTurn)]) a).

Definition rerouteOrReject (c : nat) (viaTurn : bool) (a : ActivationData)
    : ActivationData * list Event :=
  match activationFailure a with
  | Some f =>
      (if viaTurn then touch a else a, [ESettled c (inr (RunError f))])
  | None =>
      if neverActivated a
      then (if viaTurn then touch a else a, [ESettled c (inr (RunError Unavailable))])
      else awaitFinalized c viaTurn a
  end.

(** ** Calls *)

Definition gone (a : ActivationData) : bool :=
  bool_decide (state a = invalid ∨ state a = deactivating) || dehydrated a.

(** [invoke], up to its first [await]. *)
Definition invoke (req : InvocationRequest) (a : ActivationData) : ActivationData * list Event :=
  let c := next_call a in
  let a := set_next_call (S c) (touch a) in
  if gone a then rerouteOrReject c false a
  else schedule_turn
         (mkTurn (req_options req) (req_reentrancyId req) (Some (req_method req))
            (Some (req_args req)) (req_signal req))
         (CallTurn c req) a.

(** The closure of [invoke] begins: it throws, or calls the method. *)
Definition call_begins (p c : nat) (req : InvocationRequest) (a : ActivationData)
    : ActivationData * list Event :=
  if match expiresAt req with Some t => bool_decide (t <= now a) | None => false end
  then sched (OpRunSettles p (inr RequestExpired)) a
  else if gone a then
    match activationFailure a with
    | Some f => sched (OpRunSettles p (inr f)) a
    | None =>
        sched (OpRunSettles p (inr (if neverActivated a then Unavailable else HOLD_FOR_REROUTE))) a
    end
  else (a, [EMethod c]).

(** The reactions of [invoke] to its settled turn, and of a held call to its release. *)
Definition continue_call (c : nat) (a : ActivationData) : ActivationData * list Event :=
  match list_find (λ kv, kv.1 = c) (conts a) with
  | None => (a, [])
  | Some (i, (_, k)) =>
      let a := set_conts (delete i (conts a)) a in
      match k with
      | TurnSettled (inr (RunError HOLD_FOR_REROUTE)) => rerouteOrReject c true a
      | TurnSettled r => (touch a, [ESettled c r])
      | Released viaTurn =>
          (if viaTurn then touch a else a, [ESettled c (inr (RunError NoActivation))])
      end
  end.

(** ** Requests to go away *)

(** [requestDeactivation] *)
Definition requestDeactivation (reason : option DeactivationReason) (a : ActivationData)
    : ActivationData :=
  let a :=
    match reason, pendingDeactivationReason a with
    | Some r, None => set_pendingDeactivationReason (Some r) a
    | _, _ => a
    end in
  let a := set_deactivateRequested true a in
  if bool_decide (state a = activating) then set_deactivateRequestedDuringActivation true a else a.

(** [delayDeactivation] *)
Definition delayDeactivation (byMs : Z) (a : ActivationData) : ActivationData :=
  set_keepAliveUntilMs (if bool_decide (byMs <= 0) then 0 else now a + byMs) a.

(** [requestMigration]; the target and the captured context are not kept. *)
Definition requestMigration (a : ActivationData) : ActivationData := set_migrationRequested true a.

(** [deactivateOnInconsistentState]: the activation it escaped from asks to go,
    and the error travels on unmarked. *)
Definition deactivateOnInconsistentState (e : BodyError) (a : ActivationData)
    : ActivationData * BodyError :=
  match e with
  | InconsistentStateError true m =>
      (requestDeactivation (Some (mkReason "application-error" m)) a, InconsistentStateError false m)
  | _ => (a, e)
  end.

(** [isStale] *)
Definition isStale (ageLimitOverrideMs : option Z) (a : ActivationData) : bool :=
  if negb (bool_decide (state a = valid)) then false
  else if busy (scheduler a) then false
  else if bool_decide (now a < keepAliveUntilMs a) then false
  else if deactivateRequested a then true
  else bool_decide (default (collectionAgeMs opts) ageLimitOverrideMs <= now a - lastActiveMs a).

(** [deactivationRequestedAndIdle] *)
Definition deactivationRequestedAndIdle (a : ActivationData) : bool :=
  bool_decide (state a = valid) && negb (busy (scheduler a)) && deactivateRequested a.

(** ** Deactivation *)

(** [runDeactivateHook], up to its first [await]. *)
Definition runDeactivateHook (reason : DeactivationReason) (a : ActivationData)
    : ActivationData * list Event :=
  if bool_decide (state a = invalid ∨ state a = deactivating) then (a, [])
  else
    let a := set_state deactivating a in
    let a := set_deactivationStartedAtMs (Some (now a)) a in
    let '(a, ev1) :=
      if bool_decide (finalizationWaiters a = []) then (a, []) else watchForStuckDeactivation a in
    let a := disposeTimers a in
    let '(a, ev2) := schedule_turn (system_turn no_options) (HookTurn reason) a in
    (a, ev1 ++ ev2).

(** [finalizeDeactivation] *)
Definition finalizeDeactivation (a : ActivationData) : ActivationData :=
  let a := set_state invalid a in
  let a := clearStuckDeactivationTimer a in
  releaseFinalizationWaiters a.

(** [dehydrate], up to its first [await]. *)
Definition dehydrate (a : ActivationData) : ActivationData * list Event :=
  schedule_turn (system_turn no_options) DehydrateTurn a.

(** ** Timers and streams *)

(** [registerTimer] *)
Definition registerTimer (id : nat) (o : TimerOptions) (a : ActivationData) : ActivationData :=
  set_timers (<[id := o]> (timers a)) a.

(** A tick of a timer that is still armed. *)
Definition timer_fires (id : nat) (a : ActivationData) : ActivationData * list Event :=
  match timers a !! id with
  | Some o => schedule_turn (system_turn (mkOptions false (interleave o))) (TimerTurn id o) a
  | None => (a, [])
  end.

(** [runStreamTurn]; the rejection is [None]'s. *)
Definition runStreamTurn (a : ActivationData) : option (ActivationData * list Event) :=
  if bool_decide (state a = invalid ∨ state a = deactivating) then None
  else Some (schedule_turn (system_turn no_options) StreamTurn a).

(** ** Turns *)

(** The scheduler calls [run] of a started turn. *)
Definition turn_begins (p : nat) (a : ActivationData) : ActivationData * list Event :=
  if decide (p ∈ r_promise <$> running (scheduler a) ∧ p ∉ begun a) then
    let a := set_begun ({[p]} ∪ begun a) a in
    match turns a !! p with
    | Some ActivateTurn => (a, [EOnActivate])
    | Some (CallTurn c req) => call_begins p c req a
    | Some (HookTurn reason) => (a, [EOnDeactivate reason])
    | Some DehydrateTurn => sched (OpRunSettles p (inl None)) (set_dehydrated true a)
    | Some (TimerTurn id _) => (a, [ETick id])
    | Some StreamTurn => (a, [EStreamCallback])
    | None => (a, [])
    end
  else (a, []).

(** The reactions inside the closure of a call or a timer tick: an escaped
    [InconsistentStateError], then the idle clock of a keep-alive tick. *)
Definition settle_body (p : nat) (r : option Value + BodyError) (touches : bool)
    (a : ActivationData) : ActivationData * list Event :=
  let '(a, r') :=
    match r with
    | inl v => (a, inl v)
    | inr e => let '(a, e') := deactivateOnInconsistentState e a in (a, inr (FromBody e'))
    end in
  sched (OpRunSettles p r') (if touches then touch a else a).

(** The asynchronous body of a begun turn settles. *)
Definition body_settles (p : nat) (r : option Value + BodyError) (a : ActivationData)
    : ActivationData * list Event :=
  if decide (p ∈ begun a ∧ p ∉ finished (scheduler a)) then
    match turns a !! p with
    | Some (CallTurn _ _) => settle_body p r false a
    | Some (TimerTurn _ o) => settle_body p r (keepAlive o) a
    | Some (HookTurn _) | Some StreamTurn =>
        sched (OpRunSettles p (match r with inl v => inl v | inr e => inr (FromBody e) end)) a
    | _ => (a, [])
    end
  else (a, []).

(** ** Executions *)

Inductive AOp :=
  | Invoke (req : InvocationRequest)
  | TurnBegins (promise : nat)
  | OnActivateSettles (r : unit + BodyError)
  | InlineDeactivateSettles
  | BodySettles (promise : nat) (r : option Value + BodyError)
  | TurnFinally (promise : nat)
  | CallContinues (call : nat)
  | RunDeactivateHook (reason : DeactivationReason)
  | FinalizeDeactivation
  | Dehydrate
  | RequestDeactivation (reason : option DeactivationReason)
  | DelayDeactivation (byMs : Z)
  | RequestMigration
  | RegisterTimer (id : nat) (o : TimerOptions)
  | TimerFires (id : nat)
  | RunStreamTurn
  | StuckTimerFires
  | Watchdog (promise : nat)
  | EnterSection (id : string)
  | ExitSection (id : string)
  | SignalFires (sig : nat)
  | Elapse (ms : nat).

Definition astep (a : ActivationData) (o : AOp) : ActivationData * list Event :=
  match o with
  | Invoke req => invoke req a
  | TurnBegins p => turn_begins p a
  | OnActivateSettles r =>
      if decide (0%nat ∈ begun a) then onActivate_settles r a else (a, [])
  | InlineDeactivateSettles => inlineDeactivate_settles a
  | BodySettles p r => body_settles p r a
  | TurnFinally p => sched (OpFinally p) a
  | CallContinues c => continue_call c a
  | RunDeactivateHook r => runDeactivateHook r a
  | FinalizeDeactivation => (finalizeDeactivation a, [])
  | Dehydrate => dehydrate a
  | RequestDeactivation r => (requestDeactivation r a, [])
  | DelayDeactivation ms => (delayDeactivation ms a, [])
  | RequestMigration => (requestMigration a, [])
  | RegisterTimer id o => (registerTimer id o a, [])
  | TimerFires id => timer_fires id a
  | RunStreamTurn => default (a, []) (runStreamTurn a)
  | StuckTimerFires => stuck_timer_fires a
  | Watchdog p => sched (OpWatchdog p) a
  | EnterSection id => sched (OpEnterSection id) a
  | ExitSection id => sched (OpExitSection id) a
  | SignalFires sig => sched (OpSignal sig) a
  | Elapse ms => (set_now (now a + Z.of_nat ms) a, [])
  end.

(** An activation is constructed and begins to activate in one slice. *)
Definition activated (t : Z) : ActivationData * list Event := beginActivate (new_activation t).

Definition arun (t : Z) (ops : list AOp) : ActivationData * list Event :=
  let '(a, ev) := activated t in
  let '(a', ev') := run astep a ops in (a', ev ++ ev').

(** ** One scheduler operation, seen from the activation *)

Definition sched_events : list Event → list (@Scheduler.Event Arg (option Value) CallError) :=
  omap (λ e, match e with ESched e => Some e | _ => None end).
Definition settled_calls : list Event → list nat :=
  omap (λ e, match e with ESettled c _ => Some c | _ => None end).
Definition methods : list Event → list nat :=
  omap (λ e, match e with EMethod c => Some c | _ => None end).

(** The reactions and the other settlements a list of scheduler events causes. *)
Definition conts_of (m : gmap nat TurnKind)
    : list (@Scheduler.Event Arg (option Value) CallError) → list (nat * Cont) :=
  omap (λ e, match e with
    | EResolve p v => (λ c, (c, TurnSettled (inl v))) <$> (m !! p ≫= call_of)
    | EReject p r => (λ c, (c, TurnSettled (inr r))) <$> (m !! p ≫= call_of)
    | _ => None end).
Definition others_of (m : gmap nat TurnKind)
    : list (@Scheduler.Event Arg (option Value) CallError) → list Event :=
  omap (λ e, match e with
    | EResolve p _ | EReject p _ =>
        match m !! p ≫= call_of with Some _ => None | None => Some (ETurnSettled p) end
    | _ => None end).

Lemma set_conts_id a : set_conts (conts a) a = a.
Proof. by destruct a. Qed.

Lemma on_event_eq a out e :
  on_event (a, out) e =
  (set_conts (conts a ++ conts_of (turns a) [e]) a, out ++ others_of (turns a) [e]).
Proof.
  destruct e as [p t|p v|p r|n|p]; unfold on_event, settle, conts_of, others_of; cbn [omap list_omap];
    try (by rewrite !app_nil_r, set_conts_id).
  all: destruct (turns a !! p ≫= call_of) as [c|]; cbn; by rewrite ?app_nil_r, ?set_conts_id.
Qed.

Lemma conts_of_app m e1 e2 : conts_of m (e1 ++ e2) = conts_of m e1 ++ conts_of m e2.
Proof. apply omap_app. Qed.
Lemma others_of_app m e1 e2 : others_of m (e1 ++ e2) = others_of m e1 ++ others_of m e2.
Proof. apply omap_app. Qed.

Lemma fold_events ev : ∀ a out,
  foldl on_event (a, out) ev =
  (set_conts (conts a ++ conts_of (turns a) ev) a, out ++ others_of (turns a) ev).
Proof.
  induction ev as [|e ev IH]; intros a out.
  { simpl. by rewrite !app_nil_r, set_conts_id. }
  change (e :: ev) with ([e] ++ ev). rewrite conts_of_app, others_of_app, foldl_app.
  cbn [foldl]. rewrite on_event_eq, IH. simpl. by rewrite <- !app_assoc.
Qed.

Definition becomes_stuck (s s' : @TurnScheduler Arg CallError) : bool :=
  bool_decide (Scheduler.stuck s = None ∧ is_Some (Scheduler.stuck s')).

(** The activation after the scheduler moved to [s'], before its events are settled. *)
Definition moved (a : ActivationData) (s' : TurnScheduler) : ActivationData :=
  if becomes_stuck (scheduler a) s' then (handleStuckTurn (set_scheduler s' a)).1
  else set_scheduler s' a.

Lemma sched_eq o a s' ev :
  exec scheduler_options (scheduler a) o = (s', ev) →
  sched o a =
  (set_conts (conts (moved a s') ++ conts_of (turns a) ev) (moved a s'),
   (ESched <$> ev) ++ (if becomes_stuck (scheduler a) s' then stuck_event else []) ++
   others_of (turns a) ev).
Proof.
  intros He. unfold sched, moved, becomes_stuck, handleStuckTurn. rewrite He. cbv zeta.
  case_bool_decide; rewrite fold_events; simpl; by rewrite ?app_nil_r, <- ?app_assoc.
Qed.

(** The fields a scheduler operation leaves alone. *)
Lemma sched_frame o a :
  let a' := (sched o a).1 in
  scheduler a' = (exec scheduler_options (scheduler a) o).1 ∧
  turns a' = turns a ∧ begun a' = begun a ∧ phase a' = phase a ∧
  activationFailure a' = activationFailure a ∧ neverActivated a' = neverActivated a ∧
  next_call a' = next_call a ∧ dehydrated a' = dehydrated a ∧
  deactivationStartedAtMs a' = deactivationStartedAtMs a ∧ now a' = now a.
Proof.
  destruct (exec scheduler_options (scheduler a) o) as [s' ev] eqn:He.
  rewrite (sched_eq _ _ _ _ He). unfold moved. by destruct (becomes_stuck _ _).
Qed.

(** The state stays, or the activation was declared stuck: invalid, nobody held. *)
Lemma sched_state o a :
  let a' := (sched o a).1 in
  (state a' = state a ∧ finalizationWaiters a' = finalizationWaiters a ∧
   stuckDeactivationTimer a' = stuckDeactivationTimer a) ∨
  (state a' = invalid ∧ finalizationWaiters a' = [] ∧ stuckDeactivationTimer a' = None).
Proof.
  destruct (exec scheduler_options (scheduler a) o) as [s' ev] eqn:He.
  rewrite (sched_eq _ _ _ _ He). unfold moved. destruct (becomes_stuck _ _); [by right|by left].
Qed.

Lemma no_others m ev : settled_calls (others_of m ev) = [] ∧ methods (others_of m ev) = [] ∧
  sched_events (others_of m ev) = [].
Proof.
  induction ev as [|e ev (IH1 & IH2 & IH3)]; [done|]. destruct e as [p t|p v|p r|n|p]; simpl; try done.
  all: destruct (m !! p ≫= call_of); done.
Qed.

Lemma no_sched ev : settled_calls (ESched <$> ev) = [] ∧ methods (ESched <$> ev) = [] ∧
  sched_events (ESched <$> ev) = ev.
Proof. induction ev as [|e ev (IH1 & IH2 & IH3)]; [done|]. simpl. split_and!; [done..|]. by f_equal. Qed.

Lemma settled_calls_app e1 e2 : settled_calls (e1 ++ e2) = settled_calls e1 ++ settled_calls e2.
Proof. apply omap_app. Qed.
Lemma methods_app e1 e2 : methods (e1 ++ e2) = methods e1 ++ methods e2.
Proof. apply omap_app. Qed.
Lemma sched_events_app e1 e2 : sched_events (e1 ++ e2) = sched_events e1 ++ sched_events e2.
Proof. apply omap_app. Qed.

Lemma sched_trace o a :
  let ev := (sched o a).2 in
  settled_calls ev = [] ∧ methods ev = [] ∧
  sched_events ev = (exec scheduler_options (scheduler a) o).2.
Proof.
  destruct (exec scheduler_options (scheduler a) o) as [s' ev] eqn:He.
  rewrite (sched_eq _ _ _ _ He). simpl.
  destruct (no_others (turns a) ev) as (O1 & O2 & O3), (no_sched ev) as (S1 & S2 & S3).
  assert (Hst : settled_calls (if becomes_stuck (scheduler a) s' then stuck_event else []) = [] ∧
    methods (if becomes_stuck (scheduler a) s' then stuck_event else []) = [] ∧
    sched_events (if becomes_stuck (scheduler a) s' then stuck_event else []) = []).
  { unfold stuck_event. by destruct (becomes_stuck _ _), (onStuckHook opts). }
  destruct Hst as (T1 & T2 & T3).
  rewrite !settled_calls_app, !methods_app, !sched_events_app, O1, O2, O3, S1, S2, S3, T1, T2, T3.
  by rewrite !app_nil_r.
Qed.

(** ** The invariant of the bookkeeping *)

Definition pend_calls (m : gmap nat TurnKind) : list nat → list nat := omap (λ p, m !! p ≫= call_of).

(** [isRerouteRejection]: the rejections of a call that never ran here. *)
Definition isRerouteRejection (r : @Rejection CallError) : bool :=
  match r with RunError NoActivation | StuckRejection _ => true | _ => false end.

(** A reaction that can only end in such a rejection. *)
Definition rerouted (k : Cont) : Prop :=
  match k with
  | Released _ => True
  | TurnSettled (inr (RunError HOLD_FOR_REROUTE)) => True
  | TurnSettled (inr r) => isRerouteRejection r = true
  | TurnSettled (inl _) => False
  end.

(** The call [c] is held, about to be rerouted, or was. *)
Definition not_run (tr : list Event) (a : ActivationData) (c : nat) : Prop :=
  c ∈ (finalizationWaiters a).*1 ∨ (∃ k, (c, k) ∈ conts a ∧ rerouted k) ∨
  (∃ r, ESettled c (inr r) ∈ tr ∧ isRerouteRejection r = true).

(** [hand] are calls being handled right now, [news] the promises the scheduler
    is about to make. *)
Record ainv (hand news : list nat) (tr : list Event) (a : ActivationData) : Prop := {
  ai_sched : sched_inv scheduler_options (sched_events tr) (scheduler a);
  ai_barrier : barrier (scheduler a);
  ai_turns : ∀ p, is_Some (turns a !! p) ↔ (p < next_promise (scheduler a) + length news)%nat;
  ai_zero : ∀ p, turns a !! p = Some ActivateTurn ↔ p = 0%nat;
  ai_begun : ∀ p, p ∈ begun a → (p < next_promise (scheduler a))%nat ∧ p ∉ q_promise <$> queue (scheduler a);
  ai_finished : finished (scheduler a) ⊆ begun a;
  ai_calls : ∀ p c r, turns a !! p = Some (CallTurn c r) → (c < next_call a)%nat;
  ai_unique : ∀ p q c r r', turns a !! p = Some (CallTurn c r) → turns a !! q = Some (CallTurn c r') → p = q;
  ai_ledger : hand ++ settled_calls tr ++ (conts a).*1 ++ (finalizationWaiters a).*1 ++
    pend_calls (turns a) (pend (scheduler a) ++ news) ≡ₚ seq 0 (next_call a);
  ai_method : ∀ c, c ∈ methods tr →
    (c < next_call a)%nat ∧ ∀ p r, turns a !! p = Some (CallTurn c r) → p ∈ begun a;
  ai_clean : ∀ c, not_run tr a c → c ∉ methods tr }.

Lemma pend_calls_app m l1 l2 : pend_calls m (l1 ++ l2) = pend_calls m l1 ++ pend_calls m l2.
Proof. apply omap_app. Qed.

Lemma conts_of_calls m ev : (conts_of m ev).*1 = pend_calls m (settled ev).
Proof.
  induction ev as [|e ev IH]; [done|]. change (e :: ev) with ([e] ++ ev).
  rewrite conts_of_app, sched_settled_app, pend_calls_app, fmap_app, IH. f_equal.
  destruct e as [p t|p v|p r|n|p]; cbn; try done; by destruct (m !! p ≫= call_of).
Qed.

Lemma elem_of_conts_of m ev c k :
  (c, k) ∈ conts_of m ev →
  ∃ p r, m !! p ≫= call_of = Some c ∧ k = TurnSettled r ∧
    (match r with inl v => EResolve p v | inr e => EReject p e end) ∈ ev.
Proof.
  unfold conts_of. intros (e & He & Hk)%list_elem_of_omap.
  destruct e as [p t|p v|p r|n|p]; try done; apply fmap_Some in Hk as (c' & Hc & [= -> ->]);
    [exists p, (inl v)|exists p, (inr r)]; done.
Qed.

Lemma call_of_turn (m : gmap nat TurnKind) p c : m !! p ≫= call_of = Some c → ∃ req, m !! p = Some (CallTurn c req).
Proof. destruct (m !! p) as [[]|] eqn:E; simpl; try done. intros [= ->]. eauto. Qed.

(** The bookkeeping reads these fields only. *)
Lemma ainv_ext hand news tr a a' :
  scheduler a' = scheduler a → turns a' = turns a → begun a' = begun a → conts a' = conts a →
  finalizationWaiters a' = finalizationWaiters a → next_call a' = next_call a →
  ainv hand news tr a → ainv hand news tr a'.
Proof.
  intros Hs Ht Hb Hc Hw Hn [? ? ? ? ? ? ? ? ? ? Hcl].
  split; rewrite ?Hs, ?Ht, ?Hb, ?Hc, ?Hw, ?Hn; try done.
  intros c Hnr. apply Hcl. unfold not_run in *. by rewrite Hc, Hw in Hnr.
Qed.

(** Events that neither settle a call nor run a method. *)
Lemma ainv_silent hand news tr ev a :
  settled_calls ev = [] → methods ev = [] → sched_events ev = [] →
  ainv hand news tr a → ainv hand news (tr ++ ev) a.
Proof.
  intros Hsc Hm Hse [? ? ? ? ? ? ? ? ? Hme Hcl].
  split; rewrite ?sched_events_app, ?Hse, ?settled_calls_app, ?Hsc, ?app_nil_r; try done.
  - intros c. rewrite methods_app, Hm, app_nil_r. apply Hme.
  - intros c Hnr. rewrite methods_app, Hm, app_nil_r. apply Hcl. destruct Hnr as [?|[?|(r & Hr & ?)]].
    + by left.
    + right. by left.
    + right. right. exists r. split; [|done]. apply elem_of_app in Hr as [?|Hr]; [done|].
      assert (Hin : c ∈ settled_calls ev) by (apply list_elem_of_omap; by eexists).
      rewrite Hsc in Hin. by apply not_elem_of_nil in Hin.
Qed.

(** A settlement of a turn may be reported only for a turn that began, and as a
    reroute only if its method did not run. *)
Definition may_settle (tr : list Event) (a : ActivationData)
    (o : @Op Arg (option Value) CallError) : Prop :=
  match o with
  | OpRunSettles p r =>
      p ∈ begun a ∧
      (rerouted (TurnSettled (match r with inl v => inl v | inr e => inr (RunError e) end)) →
       ∀ c req, turns a !! p = Some (CallTurn c req) → c ∉ methods tr)
  | _ => True
  end.

Lemma moved_calls a s' :
  (conts (moved a s')).*1 ++ (finalizationWaiters (moved a s')).*1 =
  (conts a).*1 ++ (finalizationWaiters a).*1.
Proof.
  unfold moved. destruct (becomes_stuck _ _); [|done]. simpl. rewrite app_nil_r, fmap_app, <- list_fmap_compose.
  done.
Qed.

Lemma sched_ainv o tr a :
  ainv [] (new_promises (scheduler a) o) tr a → may_settle tr a o →
  ainv [] [] (tr ++ (sched o a).2) (sched o a).1.
Proof.
  intros Hinv Hms. destruct Hinv as [Hs Hba Ht Hz Hb Hf Hc Hu Hl Hme Hcl].
  destruct (sched_trace o a) as (Tsc & Tm & Tse).
  destruct (sched_frame o a) as (Fs & Ft & Fb & _ & _ & _ & Fn & _).
  pose proof (exec_pend _ _ _ o Hs) as Hpend.
  pose proof (sched_exec_inv _ _ _ o Hs) as Hs'. pose proof (exec_next scheduler_options (scheduler a) o) as Hn.
  destruct (exec_grown scheduler_options (scheduler a) o) as [[Hgq Hgr] Hev].
  destruct (exec scheduler_options (scheduler a) o) as [s' ev] eqn:He. simpl in *.
  pose proof (sched_eq _ _ _ _ He) as Heq.
  assert (Hbe : ∀ p, p ∈ begun a → p ∉ (q_promise <$> queue (scheduler a)) ++ new_promises (scheduler a) o).
  { intros p Hp. destruct (Hb p Hp) as [Hlt Hnq]. intros [?|Hnew]%elem_of_app; [done|].
    destruct o; try by apply not_elem_of_nil in Hnew. apply list_elem_of_singleton in Hnew. lia. }
  split; rewrite ?sched_events_app, ?settled_calls_app, ?Tse, ?Tsc, ?Fs, ?Ft, ?Fb, ?Fn, ?app_nil_r; simpl.
  - exact Hs'.
  - change s' with (s', ev).1. rewrite <- He. by apply barrier_exec.
  - intros p. rewrite Hn, Nat.add_0_r. apply Ht.
  - done.
  - intros p Hp. split; [destruct (Hb p Hp); lia|].
    intros (item & -> & Hit)%list_elem_of_fmap. by apply (Hbe _ Hp), Hgq.
  - pose proof (exec_finished scheduler_options (scheduler a) o) as Hfin. rewrite He in Hfin. simpl in Hfin.
    destruct Hfin as [->|(p & r & -> & _ & ->)]; [done|]. simpl in Hms. set_solver.
  - done.
  - done.
  - rewrite Heq. simpl. rewrite <- Hl, fmap_app, conts_of_calls.
    assert (Hpc : pend_calls (turns a) (settled ev ++ pend s') ≡ₚ
                  pend_calls (turns a) (pend (scheduler a) ++ new_promises (scheduler a) o))
      by (unfold pend_calls; by rewrite Hpend).
    rewrite <- Hpc, pend_calls_app.
    pose proof (moved_calls a s') as Hmv. rewrite (app_assoc (conts a).*1), <- Hmv.
    rewrite <- !app_assoc. do 2 f_equiv. rewrite !app_assoc. f_equiv. apply Permutation_app_comm.
  - intros c. rewrite methods_app, Tm, app_nil_r. apply Hme.
  - intros c Hnr. rewrite methods_app, Tm, app_nil_r.
    destruct Hnr as [Hw|[(k & Hk & Hrr)|(r & Hr & Hrr)]].
    + apply Hcl. left. rewrite Heq in Hw. simpl in Hw. unfold moved in Hw.
      destruct (becomes_stuck _ _); [by apply not_elem_of_nil in Hw|done].
    + rewrite Heq in Hk. simpl in Hk. apply elem_of_app in Hk as [Hk|Hk].
      * unfold moved in Hk. destruct (becomes_stuck _ _); simpl in Hk.
        -- apply elem_of_app in Hk as [Hk|Hk]; [apply Hcl; right; left; by exists k|].
           apply list_elem_of_fmap in Hk as ([c' b] & [= -> ->] & Hin). apply Hcl. left.
           apply list_elem_of_fmap. by exists (c', b).
        -- apply Hcl. right. left. by exists k.
      * apply elem_of_conts_of in Hk as (p & r & Hp & -> & Hin).
        apply call_of_turn in Hp as [req Hp]. rewrite Forall_forall in Hev. specialize (Hev _ Hin).
        assert (Hunborn : p ∉ begun a → c ∉ methods tr).
        { intros Hnb Hcm. apply Hnb. destruct (Hme c Hcm) as [_ Hbeg]. by eapply Hbeg. }
        destruct r as [v|[| |r|r]]; try done.
        -- simpl in Hev. apply Hunborn. intros Hpb. apply (Hbe p Hpb). by apply elem_of_app.
        -- simpl in Hev. subst o. destruct Hms as [_ Hms]. by eapply Hms.
    + apply Hcl. right. right. exists r. split; [|done]. apply elem_of_app in Hr as [?|Hr]; [done|].
      assert (Hin : c ∈ settled_calls (sched o a).2) by (apply list_elem_of_omap; by eexists).
      rewrite Tsc in Hin. by apply not_elem_of_nil in Hin.
Qed.

(** Settling, holding and releasing the call at hand. *)
Lemma settle_ainv c r tr a :
  ainv [c] [] tr a → (∀ e, r = inr e → isRerouteRejection e = true → c ∉ methods tr) →
  ainv [] [] (tr ++ [ESettled c r]) a.
Proof.
  intros [Hs Hba Ht Hz Hb Hf Hc Hu Hl Hme Hcl] Hr.
  split; rewrite ?sched_events_app, ?settled_calls_app, ?app_nil_r; try done.
  - simpl. rewrite <- Hl, app_nil_r, <- !app_assoc. simpl. by rewrite <- Permutation_middle.
  - intros c'. rewrite methods_app, app_nil_r. apply Hme.
  - intros c' Hnr. rewrite methods_app, app_nil_r. destruct Hnr as [?|[?|(e & He & ?)]].
    + apply Hcl. by left.
    + apply Hcl. right. by left.
    + apply elem_of_app in He as [He|[= -> <-]%list_elem_of_singleton]; [|by eapply Hr].
      apply Hcl. right. right. by exists e.
Qed.

Lemma add_cont_ainv c k tr a :
  ainv [c] [] tr a → (rerouted k → c ∉ methods tr) →
  ainv [] [] tr (set_conts (conts a ++ [(c, k)]) a).
Proof.
  intros [Hs Hba Ht Hz Hb Hf Hc Hu Hl Hme Hcl] Hk. split; simpl; try done.
  - rewrite <- Hl, fmap_app. simpl. rewrite <- !app_assoc. simpl. rewrite <- Permutation_middle.
    by rewrite <- Permutation_middle.
  - intros c' [?|[(k' & Hin & Hr)|?]].
    + apply Hcl. by left.
    + simpl in Hin. apply elem_of_app in Hin as [Hin|[= -> ->]%list_elem_of_singleton]; [|by apply Hk].
      apply Hcl. right. left. by exists k'.
    + apply Hcl. right. by right.
Qed.

Lemma add_waiter_ainv c b tr a :
  ainv [c] [] tr a → c ∉ methods tr →
  ainv [] [] tr (set_finalizationWaiters (finalizationWaiters a ++ [(c, b)]) a).
Proof.
  intros [Hs Hba Ht Hz Hb Hf Hc Hu Hl Hme Hcl] Hk. split; simpl; try done.
  - rewrite <- Hl, fmap_app. simpl. rewrite <- !app_assoc. simpl.
    rewrite !(app_assoc (settled_calls tr)). rewrite (app_assoc _ (finalizationWaiters a).*1).
    by rewrite <- Permutation_middle, <- app_assoc.
  - intros c' [Hin|[?|?]].
    + simpl in Hin. rewrite fmap_app in Hin. apply elem_of_app in Hin as [Hin| ->%list_elem_of_singleton]; [|done].
      apply Hcl. by left.
    + apply Hcl. right. by left.
    + apply Hcl. right. by right.
Qed.

Lemma release_ainv hand news tr a : ainv hand news tr a → ainv hand news tr (releaseFinalizationWaiters a).
Proof.
  intros [Hs Hba Ht Hz Hb Hf Hc Hu Hl Hme Hcl]. split; simpl; try done.
  - rewrite <- Hl, fmap_app, <- list_fmap_compose, <- !app_assoc. done.
  - intros c [?%not_elem_of_nil|[(k & Hin & Hr)|?]]; [done| |].
    + simpl in Hin. apply elem_of_app in Hin as [Hin|Hin].
      * apply Hcl. right. left. by exists k.
      * apply list_elem_of_fmap in Hin as ([c' b] & [= -> ->] & Hin). apply Hcl. left.
        apply list_elem_of_fmap. by exists (c', b).
    + apply Hcl. right. by right.
Qed.

Lemma take_cont_ainv i c k tr a :
  conts a !! i = Some (c, k) → ainv [] [] tr a →
  ainv [c] [] tr (set_conts (delete i (conts a)) a) ∧ (rerouted k → c ∉ methods tr).
Proof.
  intros Hi [Hs Hba Ht Hz Hb Hf Hc Hu Hl Hme Hcl]. pose proof (list_elem_of_lookup_2 _ _ _ Hi) as Hin.
  split; [split; simpl; try done|].
  - rewrite <- Hl. apply delete_Permutation in Hi. apply (fmap_Permutation fst) in Hi. rewrite Hi. simpl.
    by rewrite Permutation_middle.
  - intros c' [?|[(k' & Hin' & Hr)|?]].
    + apply Hcl. by left.
    + simpl in Hin'. apply list_elem_of_delete_inv in Hin'. apply Hcl. right. left. by exists k'.
    + apply Hcl. right. by right.
  - intros Hr. apply Hcl. right. left. by exists k.
Qed.

Lemma stuck_event_silent :
  settled_calls stuck_event = [] ∧ methods stuck_event = [] ∧ sched_events stuck_event = [].
Proof. unfold stuck_event. by destruct (onStuckHook opts). Qed.

Lemma abandon_ainv tr a :
  ainv [] [] tr a →
  ainv [] [] (tr ++ (abandonStuckDeactivation a).2) (abandonStuckDeactivation a).1.
Proof.
  intros Hi. destruct stuck_event_silent as (? & ? & ?). apply ainv_silent; [done..|].
  apply release_ainv. by eapply ainv_ext; [..|exact Hi].
Qed.

Lemma nothing_ainv hand news tr a : ainv hand news tr a → ainv hand news (tr ++ []) a.
Proof. by rewrite app_nil_r. Qed.

Lemma watch_ainv tr a :
  ainv [] [] tr a →
  ainv [] [] (tr ++ (watchForStuckDeactivation a).2) (watchForStuckDeactivation a).1.
Proof.
  intros Hi. unfold watchForStuckDeactivation.
  destruct (maxProcessingMs opts); [|by apply nothing_ainv].
  destruct (onStuckHook opts); [|by apply nothing_ainv].
  destruct (deactivationStartedAtMs a); [|by apply nothing_ainv].
  case_bool_decide; [|by apply nothing_ainv].
  destruct (stuckDeactivationTimer a); [by apply nothing_ainv|]. cbv zeta.
  case_bool_decide; [by apply abandon_ainv|]. apply nothing_ainv. by eapply ainv_ext; [..|exact Hi].
Qed.

Lemma reroute_ainv c b tr a :
  (∀ f, activationFailure a = Some f → ∃ e, f = FromBody e) →
  ainv [c] [] tr a → c ∉ methods tr →
  ainv [] [] (tr ++ (rerouteOrReject c b a).2) (rerouteOrReject c b a).1.
Proof.
  intros Hfail Hi Hc. assert (Ht : ainv [c] [] tr (if b then touch a else a)).
  { destruct b; [|done]. by eapply ainv_ext; [..|exact Hi]. }
  unfold rerouteOrReject. destruct (activationFailure a) as [f|].
  { destruct (Hfail f eq_refl) as [e ->]. apply settle_ainv; [done|]. by intros ? [= <-]. }
  destruct (neverActivated a); [apply settle_ainv; [done|by intros ? [= <-]]|].
  unfold awaitFinalized. case_bool_decide.
  - apply nothing_ainv. by apply add_cont_ainv.
  - apply watch_ainv. by apply add_waiter_ainv.
Qed.

Lemma schedule_ainv t k hand tr a :
  ainv hand [] tr a →
  match k with
  | ActivateTurn => False
  | CallTurn c _ => hand = [c] ∧ (c < next_call a)%nat ∧ c ∉ methods tr ∧
      ∀ p r, turns a !! p ≠ Some (CallTurn c r)
  | _ => hand = []
  end →
  ainv [] [] (tr ++ (schedule_turn t k a).2) (schedule_turn t k a).1.
Proof.
  intros [Hs Hba Ht Hz Hb Hf Hc Hu Hl Hme Hcl] Hk. apply sched_ainv; [|done].
  set (n := next_promise (scheduler a)) in *.
  assert (Hfresh : turns a !! n = None).
  { apply eq_None_not_Some. rewrite Ht. simpl. unfold n. lia. }
  assert (Hpend : ∀ p, p ∈ pend (scheduler a) → p ≠ n).
  { intros p Hp ->. destruct Hs as [_ _ [Hperm _ _] _]. simpl in Hperm.
    assert (Hin : n ∈ seq 0 n).
    { unfold n at 2. rewrite <- Hperm. apply elem_of_app. by right. }
    apply elem_of_seq in Hin. lia. }
  split; simpl; try done.
  - intros p. fold n. destruct (decide (p = n)) as [->|Hne].
    + rewrite lookup_insert_eq. split; [intros _; lia|by eexists].
    + rewrite lookup_insert_ne by done. rewrite Ht. simpl. fold n. lia.
  - intros p. fold n. destruct (decide (p = n)) as [->|Hne].
    + rewrite lookup_insert_eq. split.
      * intros [= ->]. done.
      * intros Hn. assert (H0 : turns a !! 0%nat = Some ActivateTurn) by (by apply Hz).
        rewrite <- Hn, Hfresh in H0. done.
    + rewrite lookup_insert_ne by done. apply Hz.
  - intros p c r. fold n. destruct (decide (p = n)) as [->|Hne].
    + rewrite lookup_insert_eq. intros [= ->]. apply Hk.
    + rewrite lookup_insert_ne by done. apply Hc.
  - intros p q c r r'. fold n. destruct (decide (p = n)) as [->|Hp], (decide (q = n)) as [->|Hq]; try done.
    + rewrite lookup_insert_eq, lookup_insert_ne by done. intros [= ->] Hq'. destruct Hk as (_ & _ & _ & Hk).
      by destruct (Hk q r').
    + rewrite lookup_insert_eq, lookup_insert_ne by done. intros Hp' [= ->]. destruct Hk as (_ & _ & _ & Hk).
      by destruct (Hk p r).
    + rewrite !lookup_insert_ne by done. apply Hu.
  - rewrite <- Hl. fold n. rewrite app_nil_r, pend_calls_app.
    assert (Hpc : pend_calls (<[n:=k]> (turns a)) (pend (scheduler a)) = pend_calls (turns a) (pend (scheduler a))).
    { clear -Hpend. unfold pend_calls. induction (pend (scheduler a)) as [|p l IH]; [done|]. cbn.
      rewrite lookup_insert_ne by (symmetry; apply Hpend; left).
      rewrite IH; [done|]. intros q Hq. apply Hpend. by right. }
    rewrite Hpc. unfold pend_calls at 2. cbn. rewrite lookup_insert_eq. simpl.
    destruct k; simpl; try (rewrite Hk, app_nil_r; done); [done|].
    destruct Hk as (-> & _). by rewrite (Permutation_app_comm [_]), <- !app_assoc.
  - intros c Hcm. destruct (Hme c Hcm) as [? Hbeg]. split; [done|]. intros p r. fold n.
    destruct (decide (p = n)) as [->|Hne].
    + rewrite lookup_insert_eq. intros [= ->]. by destruct Hk as (_ & _ & Hk & _).
    + rewrite lookup_insert_ne by done. apply Hbeg.
Qed.

(** ** The invariant of the life cycle *)

Record life (a : ActivationData) : Prop := {
  li_created : state a ≠ creating;
  li_failure : ∀ f, activationFailure a = Some f → ∃ e, f = FromBody e;
  li_phase :
    match phase a with
    | OnActivate => state a ≠ valid ∧ activationFailure a = None ∧ neverActivated a = false ∧
        0%nat ∉ finished (scheduler a)
    | InlineDeactivate => (state a = deactivating ∨ state a = invalid) ∧
        activationFailure a = None ∧ neverActivated a = true ∧ 0%nat ∈ begun a ∧
        0%nat ∉ finished (scheduler a)
    | ActivateOver => state a ≠ activating ∧
        (state a = valid → activationFailure a = None ∧ neverActivated a = false)
    end }.

(** [a'] is [a], or [a] made invalid, as far as its life is concerned. *)
Definition outlives (a a' : ActivationData) : Prop :=
  phase a' = phase a ∧ activationFailure a' = activationFailure a ∧
  neverActivated a' = neverActivated a ∧ (0%nat ∈ begun a → 0%nat ∈ begun a') ∧
  (phase a ≠ ActivateOver → 0%nat ∉ finished (scheduler a) → 0%nat ∉ finished (scheduler a')) ∧
  (state a' = state a ∨ state a' = invalid).

Lemma outlives_life a a' : outlives a a' → life a → life a'.
Proof.
  intros (Hp & Hf & Hn & Hb & Hfin & Hst) [Hc Hfail Hph]. split.
  - by destruct Hst as [->| ->].
  - rewrite Hf. done.
  - rewrite Hp, Hf, Hn. destruct (phase a).
    + destruct Hph as (? & ? & ? & H0). split_and!; [by destruct Hst as [->| ->]|done|done|by apply Hfin].
    + destruct Hph as (? & ? & ? & ? & H0).
      split_and!; [by destruct Hst as [->| ->]; auto|done|done|by apply Hb|by apply Hfin].
    + destruct Hph as [? Hv]. destruct Hst as [->| ->]; by split.
Qed.

Lemma outlives_refl a : outlives a a.
Proof. unfold outlives. split_and!; auto. Qed.

Lemma outlives_trans a b c : outlives a b → outlives b c → outlives a c.
Proof.
  intros (P1 & F1 & N1 & B1 & D1 & S1) (P2 & F2 & N2 & B2 & D2 & S2).
  split_and!; [congruence..|by auto| |].
  - intros Hp H0. apply D2; [by rewrite P1|by apply D1].
  - destruct S2 as [->| ->]; [done|by right].
Qed.

Lemma outlives_sched o a :
  (∀ r, o = OpRunSettles 0 r → phase a = ActivateOver) → outlives a (sched o a).1.
Proof.
  intros Ho. destruct (sched_frame o a) as (Fs & _ & Fb & Fp & Ff & Fn & _).
  split_and!; [done|done|done|by rewrite Fb| |].
  - intros Hph H0. rewrite Fs. destruct (exec_finished scheduler_options (scheduler a) o)
      as [->|(p & r & -> & _ & ->)]; [done|].
    intros [<-%elem_of_singleton|?]%elem_of_union; [|done]. by apply Hph, (Ho r).
  - destruct (sched_state o a) as [(-> & _)|(-> & _)]; [by left|by right].
Qed.

Lemma outlives_watch a : outlives a (watchForStuckDeactivation a).1.
Proof.
  unfold watchForStuckDeactivation. pose proof (outlives_refl a) as Hr.
  destruct (maxProcessingMs opts); [|done]. destruct (onStuckHook opts); [|done].
  destruct (deactivationStartedAtMs a); [|done]. case_bool_decide; [|done].
  destruct (stuckDeactivationTimer a); [done|]. cbv zeta.
  unfold outlives. case_bool_decide; simpl; split_and!; auto.
Qed.

Lemma outlives_reroute c b a : outlives a (rerouteOrReject c b a).1.
Proof.
  assert (Ht : outlives a (if b then touch a else a)) by (destruct b; exact (outlives_refl a)).
  unfold rerouteOrReject. destruct (activationFailure a) as [f|]; [done|].
  destruct (neverActivated a); [done|]. unfold awaitFinalized. case_bool_decide; [exact (outlives_refl a)|].
  eapply outlives_trans; [|apply outlives_watch]. exact (outlives_refl a).
Qed.

(** ** Held calls on a deactivating activation are watched *)

Record wat0 (a : ActivationData) : Prop := {
  w_started : ∀ t0, deactivationStartedAtMs a = Some t0 → t0 <= now a;
  w_due : ∀ due m, stuckDeactivationTimer a = Some due → maxProcessingMs opts = Some m →
    ∃ t0, deactivationStartedAtMs a = Some t0 ∧ due <= t0 + Z.of_nat m;
  w_invalid : phase a = OnActivate → state a = invalid → finalizationWaiters a = [];
  w_activating : state a = activating → deactivationStartedAtMs a = None }.

Definition armed (a : ActivationData) : Prop :=
  ∀ t0, is_Some (maxProcessingMs opts) → onStuckHook opts = true →
    deactivationStartedAtMs a = Some t0 → state a = deactivating → finalizationWaiters a ≠ [] →
    is_Some (stuckDeactivationTimer a).

Definition wat (a : ActivationData) : Prop := wat0 a ∧ armed a.

(** A step that only adds to what the watch does not read, or makes the
    activation invalid and releases everyone. *)
Definition unwatched (a a' : ActivationData) : Prop :=
  deactivationStartedAtMs a' = deactivationStartedAtMs a ∧ now a <= now a' ∧ phase a' = phase a ∧
  ((state a' = state a ∧ finalizationWaiters a' = finalizationWaiters a ∧
    stuckDeactivationTimer a' = stuckDeactivationTimer a) ∨
   (state a' = invalid ∧ finalizationWaiters a' = [] ∧ stuckDeactivationTimer a' = None)).

Lemma unwatched_wat0 a a' : unwatched a a' → wat0 a → wat0 a'.
Proof.
  intros (Hd & Hn & Hp & Hor) [H1 H2 H3 H4]. destruct Hor as [(Hs & Hw & Ht)|(Hs & Hw & Ht)];
    split; rewrite ?Hd, ?Hp, ?Hs, ?Hw, ?Ht; try done.
  all: intros t0 H0; specialize (H1 t0 H0); lia.
Qed.

Lemma unwatched_wat a a' : unwatched a a' → wat a → wat a'.
Proof.
  intros Hu [H0 Ha]. split; [by eapply unwatched_wat0|].
  destruct Hu as (Hd & Hn & Hp & [(Hs & Hw & Ht)|(Hs & Hw & Ht)]); intros t0; rewrite ?Hd, ?Hs, ?Hw, ?Ht; [apply Ha|done].
Qed.

Lemma unwatched_sched o a : unwatched a (sched o a).1.
Proof.
  destruct (sched_frame o a) as (_ & _ & _ & Fp & _ & _ & _ & _ & Fd & Fnow).
  split_and!; [done|lia|done|apply sched_state].
Qed.

Lemma unwatched_trans a b c : unwatched a b → unwatched b c → unwatched a c.
Proof.
  intros (D1 & N1 & P1 & O1) (D2 & N2 & P2 & O2).
  split_and!; [congruence|lia|congruence|]. destruct O2 as [(-> & -> & ->)|?]; [done|by right].
Qed.

Lemma unwatched_refl a : unwatched a a.
Proof. split_and!; [done|lia|done|by left]. Qed.

Lemma watch_wat a : wat0 a → wat (watchForStuckDeactivation a).1.
Proof.
  intros H0. unfold watchForStuckDeactivation.
  destruct (maxProcessingMs opts) as [m|] eqn:Em; [|split; [done|intros t0 [? ?]; congruence]].
  destruct (onStuckHook opts) eqn:Eh; [|split; [done|intros ? _ ?; congruence]].
  destruct (deactivationStartedAtMs a) as [t0|] eqn:Ed; [|split; [done|intros ? _ _ ?; simpl in *; congruence]].
  case_bool_decide as Hst; [|split; [done|by intros ? _ _ _ ?]].
  destruct (stuckDeactivationTimer a) as [due|] eqn:Et; [split; [done|intros ? _ _ _ _ _; simpl; rewrite Et; by eexists]|].
  cbv zeta. case_bool_decide; simpl.
  - split; [|by intros ? _ _ _ ?]. eapply unwatched_wat0; [|exact H0].
    split_and!; [done|simpl; lia|done|by right].
  - split; [|by intros ? _ _ _ _ _; eexists]. destruct H0 as [H1 H2 H3 H4].
    split; simpl; [done| |done|done]. intros due m' [= <-] Hm. simplify_eq. exists t0. split; [done|lia].
Qed.

(** The two parts for a state that differs in fields they do not read. *)
#[local] Ltac same_wat Hw a := refine (unwatched_wat a _ _ Hw); exact (unwatched_refl a).
#[local] Ltac same_life Hl a := refine (outlives_life a _ _ Hl); exact (outlives_refl a).

Lemma reroute_wat c b a : wat a → wat (rerouteOrReject c b a).1.
Proof.
  intros Hw. assert (Ht : wat (if b then touch a else a)).
  { destruct b; [|done]. same_wat Hw a. }
  unfold rerouteOrReject. destruct (activationFailure a); [done|]. destruct (neverActivated a); [done|].
  unfold awaitFinalized. case_bool_decide as Hst.
  - same_wat Hw a.
  - apply watch_wat. destruct Hw as [[H1 H2 H3 H4] _]. by split.
Qed.

(** ** Every operation keeps the invariant *)

Definition inv (tr : list Event) (a : ActivationData) : Prop := ainv [] [] tr a ∧ life a ∧ wat a.

Lemma inv_ext tr a a' :
  scheduler a' = scheduler a → turns a' = turns a → begun a' = begun a → conts a' = conts a →
  finalizationWaiters a' = finalizationWaiters a → next_call a' = next_call a →
  phase a' = phase a → activationFailure a' = activationFailure a →
  neverActivated a' = neverActivated a → state a' = state a →
  deactivationStartedAtMs a' = deactivationStartedAtMs a → now a <= now a' →
  stuckDeactivationTimer a' = stuckDeactivationTimer a →
  inv tr a → inv tr a'.
Proof.
  intros Hs Ht Hb Hc Hw Hn Hp Hf Hnv Hst Hd Hnow Htm (Ha & Hl & Hwt). split_and!.
  - by eapply ainv_ext; [..|exact Ha].
  - eapply outlives_life; [|exact Hl]. split_and!; rewrite ?Hb, ?Hs; auto.
  - eapply unwatched_wat; [|exact Hwt]. split_and!; auto.
Qed.

Lemma inv_nothing tr a : inv tr a → inv (tr ++ []) a.
Proof. by rewrite app_nil_r. Qed.

(** A scheduler operation that makes no promise. *)
Lemma inv_sched o tr a :
  inv tr a → new_promises (scheduler a) o = [] → may_settle tr a o →
  (∀ r, o = OpRunSettles 0 r → phase a = ActivateOver) →
  inv (tr ++ (sched o a).2) (sched o a).1.
Proof.
  intros (Ha & Hl & Hw) Hn Hms H0. split_and!.
  - apply sched_ainv; [by rewrite Hn|done].
  - eapply outlives_life; [by apply outlives_sched|done].
  - eapply unwatched_wat; [apply unwatched_sched|done].
Qed.

Lemma inv_schedule t k tr a :
  inv tr a → match k with ActivateTurn | CallTurn _ _ => False | _ => True end →
  inv (tr ++ (schedule_turn t k a).2) (schedule_turn t k a).1.
Proof.
  intros (Ha & Hl & Hw) Hk. split_and!.
  - apply (schedule_ainv t k []); [done|]. by destruct k.
  - eapply outlives_life; [by apply outlives_sched|]. same_life Hl a.
  - eapply unwatched_wat; [apply unwatched_sched|]. same_wat Hw a.
Qed.

Lemma invoke_inv req tr a : inv tr a → inv (tr ++ (invoke req a).2) (invoke req a).1.
Proof.
  intros (Ha & Hl & Hw). set (a0 := set_next_call (S (next_call a)) (touch a)).
  assert (Hnew : next_call a ∉ methods tr).
  { intros Hin. destruct (ai_method _ _ _ _ Ha _ Hin). lia. }
  assert (Ha0 : ainv [next_call a] [] tr a0).
  { destruct Ha as [? ? ? ? ? ? Hc ? Hled Hme Hcl]. split; simpl; try done.
    - intros p c r Hp. specialize (Hc p c r Hp). lia.
    - change (0%nat :: seq 1 (next_call a)) with (seq 0 (S (next_call a))).
      rewrite seq_S, <- Permutation_cons_append. by constructor.
    - intros c Hin. destruct (Hme c Hin). split; [lia|done]. }
  assert (Hl0 : life a0) by same_life Hl a.
  assert (Hw0 : wat a0) by same_wat Hw a.
  unfold invoke. cbv zeta. fold a0. destruct (gone a0).
  - split_and!.
    + by apply reroute_ainv; [apply Hl0|..].
    + eapply outlives_life; [apply outlives_reroute|done].
    + by apply reroute_wat.
  - split_and!.
    + eapply schedule_ainv; [exact Ha0|]. split_and!; [done|simpl; lia|done|].
      intros p r Hp. pose proof (ai_calls _ _ _ _ Ha p _ _ Hp). lia.
    + eapply outlives_life; [by apply outlives_sched|]. same_life Hl0 a0.
    + eapply unwatched_wat; [apply unwatched_sched|]. same_wat Hw0 a0.
Qed.

Lemma continue_call_inv c tr a : inv tr a → inv (tr ++ (continue_call c a).2) (continue_call c a).1.
Proof.
  intros (Ha & Hl & Hw). unfold continue_call.
  destruct (list_find _ _) as [[i [c' k]]|] eqn:Ef; [|by apply inv_nothing].
  apply list_find_Some in Ef as (Hi & Hc & _). simpl in Hc. subst c'.
  destruct (take_cont_ainv _ _ _ _ _ Hi Ha) as [Ht Hk].
  set (a0 := set_conts (delete i (conts a)) a) in *.
  assert (Hl0 : life a0) by same_life Hl a. assert (Hw0 : wat a0) by same_wat Hw a.
  assert (Hsettle : ∀ b r, (∀ e, r = inr e → isRerouteRejection e = true → c ∉ methods tr) →
    inv (tr ++ [ESettled c r]) (if b : bool then touch a0 else a0)).
  { intros b r Hr. split_and!.
    - apply settle_ainv; [|done]. destruct b; [|done]. by eapply ainv_ext; [..|exact Ht].
    - destruct b; [|done]. same_life Hl0 a0.
    - destruct b; [|done]. same_wat Hw0 a0. }
  destruct k as [r|b]; [|apply (Hsettle b); intros; by apply Hk].
  destruct r as [v|[|n l|e|[]]]; cbv zeta; fold a0;
    try (apply (Hsettle true); by intros);
    try (apply (Hsettle true); intros ? [= <-]; first [done|intros _; by apply Hk]).
  split_and!.
  - apply reroute_ainv; [apply Hl0|done|by apply Hk].
  - eapply outlives_life; [apply outlives_reroute|done].
  - by apply reroute_wat.
Qed.

(** A turn in flight that has not begun: its call settled nothing yet. *)
Lemma fresh_turn tr a p c req :
  ainv [] [] tr a → p ∉ begun a → turns a !! p = Some (CallTurn c req) → c ∉ methods tr.
Proof.
  intros Ha Hp Ht Hc. destruct (ai_method _ _ _ _ Ha c Hc) as [_ Hb]. by eapply Hp, Hb.
Qed.

Lemma begin_inv tr a p :
  p ∈ r_promise <$> running (scheduler a) → inv tr a → inv tr (set_begun ({[p]} ∪ begun a) a).
Proof.
  intros Hr (Ha & Hl & Hw). split_and!.
  - destruct Ha as [Hs ? ? ? Hb ? ? ? ? Hme Hcl]. split; simpl; try done.
    + intros q [->%elem_of_singleton|Hq]%elem_of_union; [|by apply Hb].
      destruct Hs as [_ _ [Hp Hnd Hf] _]. simpl in Hp.
      assert (Hpq : p ∈ settled (sched_events tr) ∨ p ∈ in_flight (finished (scheduler a)) (running (scheduler a))).
      { destruct (decide (p ∈ finished (scheduler a))); [left; by apply Hf|right].
        unfold in_flight. by apply list_elem_of_filter. }
      assert (Hall : NoDup (seq 0 (next_promise (scheduler a)))) by apply NoDup_seq.
      split.
      * assert (Hin : p ∈ seq 0 (next_promise (scheduler a))) by (rewrite <- Hp; set_solver).
        apply elem_of_seq in Hin. lia.
      * rewrite <- Hp in Hall. apply NoDup_app in Hall as (_ & Hd1 & (_ & Hd2 & _)%NoDup_app).
        intros Hq. destruct Hpq as [Hs'|Hs']; [apply (Hd1 p Hs'); set_solver|by apply (Hd2 p Hq)].
    + set_solver.
    + intros c Hc. destruct (Hme c Hc) as [? Hbeg]. split; [done|]. intros q r Hq.
      apply elem_of_union. right. by eapply Hbeg.
  - refine (outlives_life a _ _ Hl). split_and!; simpl; auto. set_solver.
  - same_wat Hw a.
Qed.

Lemma call_begins_inv p c req tr a :
  p ∈ begun a → p ∉ finished (scheduler a) → p ∈ r_promise <$> running (scheduler a) →
  turns a !! p = Some (CallTurn c req) → c ∉ methods tr → inv tr a →
  inv (tr ++ (call_begins p c req a).2) (call_begins p c req a).1.
Proof.
  intros Hb Hf Hr Ht Hc Hi. pose proof Hi as (Ha & Hl & Hw).
  assert (Hp0 : p ≠ 0%nat) by (intros ->; rewrite (proj2 (ai_zero _ _ _ _ Ha 0%nat) eq_refl) in Ht; done).
  assert (Hset : ∀ r, inv (tr ++ (sched (OpRunSettles p r) a).2) (sched (OpRunSettles p r) a).1).
  { intros r. apply inv_sched; [done|done| |by intros r' [= ? _]].
    split; [done|]. intros _ c' req' Ht'. rewrite Ht in Ht'. by simplify_eq. }
  unfold call_begins. destruct (match expiresAt req with Some t => _ | None => _ end); [apply Hset|].
  destruct (gone a); [destruct (activationFailure a); apply Hset|].
  split_and!; [|done|done]. destruct Ha as [? ? ? ? ? ? Hcalls Hu Hled Hme Hcl].
  split; rewrite ?sched_events_app, ?settled_calls_app; simpl; rewrite ?app_nil_r; try done.
  - by rewrite <- Hled, app_nil_r.
  - intros c'. rewrite methods_app, elem_of_app. intros [Hc'|Hc'].
    + by apply Hme.
    + simpl in Hc'. apply list_elem_of_singleton in Hc' as ->. split; [by eapply Hcalls|].
      intros q r Hq. by rewrite (Hu q p c r req Hq Ht).
  - intros c' Hnr. rewrite methods_app, not_elem_of_app. simpl.
    assert (Hnr' : not_run tr a c').
    { destruct Hnr as [?|[?|(r & Hrr & ?)]]; [by left|right; by left|right; right].
      exists r. split; [|done]. apply elem_of_app in Hrr as [?|Hrr]; [done|].
      by apply list_elem_of_singleton in Hrr. }
    split; [by apply Hcl|]. intros ->%list_elem_of_singleton. revert Hnr'.
    assert (Hp : p ∈ pend (scheduler a)).
    { unfold pend, in_flight. apply elem_of_app. right. by apply list_elem_of_filter. }
    assert (Hin : c ∈ pend_calls (turns a) (pend (scheduler a) ++ [])).
    { rewrite app_nil_r. unfold pend_calls. apply list_elem_of_omap. exists p. split; [done|]. by rewrite Ht. }
    assert (Hnd : NoDup (seq 0 (next_call a))) by apply NoDup_seq. simpl in Hled. rewrite <- Hled in Hnd.
    apply NoDup_app in Hnd as (_ & Hd1 & (_ & Hd2 & (_ & Hd3 & _)%NoDup_app)%NoDup_app).
    intros [Hw'|[(k & Hk & _)|(r & Hr' & _)]].
    + by apply (Hd3 c Hw').
    + apply (Hd2 c); [apply list_elem_of_fmap; by exists (c, k)|]. apply elem_of_app. by right.
    + apply (Hd1 c); [apply list_elem_of_omap; by eexists|]. rewrite !elem_of_app. auto.
Qed.

Lemma turn_begins_inv p tr a : inv tr a → inv (tr ++ (turn_begins p a).2) (turn_begins p a).1.
Proof.
  intros Hi. unfold turn_begins. case_decide as Hd; [|by apply inv_nothing]. destruct Hd as [Hr Hb].
  pose proof (begin_inv _ _ _ Hr Hi) as Hi0. set (a0 := set_begun _ a) in *.
  assert (Hf : p ∉ finished (scheduler a0)) by (intros ?; by apply Hb, (ai_finished _ _ _ _ (proj1 Hi))).
  assert (Hb0 : p ∈ begun a0) by set_solver.
  assert (Hsil : ∀ e, settled_calls [e] = [] → methods [e] = [] → sched_events [e] = [] → inv (tr ++ [e]) a0).
  { intros e ? ? ?. destruct Hi0 as (Ha0 & Hl0 & Hw0). split_and!; [by apply ainv_silent|done|done]. }
  cbv zeta. change (turns a0 !! p) with (turns a !! p).
  destruct (turns a !! p) as [[|c req|r| |id o|]|] eqn:Et; try (by apply Hsil).
  - apply call_begins_inv; try done. eapply fresh_turn; [apply Hi|exact Hb|exact Et].
  - assert (Hp0 : p ≠ 0%nat)
      by (intros ->; rewrite (proj2 (ai_zero _ _ _ _ (proj1 Hi) 0%nat) eq_refl) in Et; done).
    apply inv_sched; [|done| |by intros r' [= ? _]].
    + by eapply inv_ext; [..|exact Hi0].
    + split; [done|]. by intros [].
  - by apply inv_nothing.
Qed.

Lemma requestDeactivation_inv r tr a : inv tr a → inv tr (requestDeactivation r a).
Proof.
  intros Hi. unfold requestDeactivation. cbv zeta.
  destruct r, (pendingDeactivationReason a); case_bool_decide; by eapply inv_ext; [..|exact Hi].
Qed.

Lemma body_settles_inv p r tr a : inv tr a → inv (tr ++ (body_settles p r a).2) (body_settles p r a).1.
Proof.
  intros Hi. unfold body_settles. case_decide as Hd; [|by apply inv_nothing]. destruct Hd as [Hb _].
  assert (Hset : ∀ a' r', inv tr a' → begun a' = begun a → turns a' = turns a →
    (∀ k, turns a !! p = Some k → k ≠ ActivateTurn) →
    (match r' with inr (FromBody _) | inl _ => True | _ => False end) →
    inv (tr ++ (sched (OpRunSettles p r') a').2) (sched (OpRunSettles p r') a').1).
  { intros a' r' Hi' Hb' Ht' Hk Hr'. apply inv_sched; [done|done| |].
    - split; [by rewrite Hb'|]. by destruct r' as [|[]].
    - intros r0 [= -> _]. exfalso. eapply Hk; [|done]. by apply (ai_zero _ _ _ _ (proj1 Hi)). }
  assert (Hbody : ∀ b, (∀ k, turns a !! p = Some k → k ≠ ActivateTurn) →
    inv (tr ++ (settle_body p r b a).2) (settle_body p r b a).1).
  { intros b Hk. unfold settle_body.
    assert (Htouch : ∀ a', inv tr a' → inv tr (if b then touch a' else a')).
    { intros a' Hi'. destruct b; [|done]. by eapply inv_ext; [..|exact Hi']. }
    destruct r as [v|e]; [by destruct b; apply Hset; try done; apply (Htouch a)|].
    assert (Hdoi : inv tr (deactivateOnInconsistentState e a).1 ∧
      begun (deactivateOnInconsistentState e a).1 = begun a ∧
      turns (deactivateOnInconsistentState e a).1 = turns a).
    { destruct e as [e|[|] m]; simpl; try done. split; [by apply requestDeactivation_inv|].
      unfold requestDeactivation. cbv zeta. destruct (pendingDeactivationReason a); by case_bool_decide. }
    destruct Hdoi as (? & ? & ?), (deactivateOnInconsistentState e a) as [a' e'].
    by destruct b; apply Hset; try done; apply (Htouch a'). }
  destruct (turns a !! p) as [[|c req|rs| |id o|]|] eqn:Et; try (by apply inv_nothing).
  - by apply Hbody; intros ? [= <-].
  - apply Hset; [done|done|done|by intros ? [= <-]|by destruct r].
  - by apply Hbody; intros ? [= <-].
  - apply Hset; [done|done|done|by intros ? [= <-]|by destruct r].
Qed.

(** Recording how [onActivate] ended, before the activation turn settles. *)
Lemma activate_settled tr a a' r :
  inv tr a → 0%nat ∈ begun a → wat a' → life a' → phase a' = ActivateOver →
  scheduler a' = scheduler a → turns a' = turns a → begun a' = begun a → conts a' = conts a →
  finalizationWaiters a' = finalizationWaiters a → next_call a' = next_call a →
  inv (tr ++ (sched (OpRunSettles 0 r) a').2) (sched (OpRunSettles 0 r) a').1.
Proof.
  intros (Ha & _ & _) H0 Hw Hl Hp Hs Ht Hb Hc Hwt Hn. apply inv_sched.
  - split_and!; [|done|done]. by eapply ainv_ext; [..|exact Ha].
  - done.
  - split; [by rewrite Hb|]. intros _ c req. rewrite Ht, (proj2 (ai_zero _ _ _ _ Ha 0%nat) eq_refl). done.
  - done.
Qed.

Lemma onActivate_inv r tr a :
  0%nat ∈ begun a → inv tr a → inv (tr ++ (onActivate_settles r a).2) (onActivate_settles r a).1.
Proof.
  intros H0 Hi. pose proof Hi as (Ha & [Hcr Hfl Hph] & [[W1 W2 W3 W4] Hw]). unfold onActivate_settles.
  destruct (phase a) eqn:Ep; [|by apply inv_nothing..]. destruct Hph as (Hnv & Hf & Hn & Hfin).
  destruct r as [[]|e].
  - destruct (deactivateRequestedDuringActivation a).
    + split_and!.
      * apply ainv_silent; [done..|]. by eapply ainv_ext; [..|exact Ha].
      * split; simpl; [done|done|]. split_and!; auto.
      * split; [split; simpl; try done|].
        intros t0 Hm Hh Hd _ Hne. simpl in *. destruct (decide (state a = deactivating)) as [?|Hnd]; [by eapply Hw|].
        exfalso. destruct (state a) eqn:Est; try done; [by rewrite W4 in Hd|]. by apply Hne, W3.
    + by apply (activate_settled tr a).
  - apply (activate_settled tr a); try done.
    split; simpl; [done|intros f [= <-]; by eexists|by split].
Qed.

Lemma inline_inv tr a :
  inv tr a → inv (tr ++ (inlineDeactivate_settles a).2) (inlineDeactivate_settles a).1.
Proof.
  intros Hi. pose proof Hi as (Ha & [Hcr Hfl Hph] & [[W1 W2 W3 W4] Hw]). unfold inlineDeactivate_settles.
  destruct (phase a) eqn:Ep; [by apply inv_nothing| |by apply inv_nothing]. destruct Hph as (Hst & Hf & Hn & H0 & Hfin).
  by apply (activate_settled tr a).
Qed.

Lemma finalize_inv tr a : inv tr a → inv tr (finalizeDeactivation a).
Proof.
  intros (Ha & Hl & Hw). split_and!.
  - apply release_ainv. by eapply ainv_ext; [..|exact Ha].
  - eapply outlives_life; [|exact Hl]. split_and!; auto.
  - eapply unwatched_wat; [|exact Hw]. split_and!; [done|simpl; lia|done|by right].
Qed.

Lemma abandon_inv tr a :
  inv tr a → inv (tr ++ (abandonStuckDeactivation a).2) (abandonStuckDeactivation a).1.
Proof.
  intros (Ha & Hl & Hw). split_and!; [by apply abandon_ainv| |].
  - eapply outlives_life; [|exact Hl]. split_and!; auto.
  - eapply unwatched_wat; [|exact Hw]. split_and!; [done|simpl; lia|done|by right].
Qed.

Lemma stuck_timer_inv tr a : inv tr a → inv (tr ++ (stuck_timer_fires a).2) (stuck_timer_fires a).1.
Proof.
  intros Hi. unfold stuck_timer_fires. destruct (stuckDeactivationTimer a) as [due|] eqn:Et; [|by apply inv_nothing].
  case_bool_decide; [|by apply inv_nothing]. cbv zeta. case_bool_decide as Hd.
  - change (abandonStuckDeactivation (clearStuckDeactivationTimer a)) with (abandonStuckDeactivation a).
    by apply abandon_inv.
  - rewrite app_nil_r. destruct Hi as (Ha & Hl & [[W1 W2 W3 W4] Hw]). split_and!.
    + by eapply ainv_ext; [..|exact Ha].
    + same_life Hl a.
    + split; [split; simpl; done|]. intros t0 _ _ _ Hs Hne. by destruct Hd.
Qed.

(** [runDeactivateHook] up to the hook's turn. *)
Lemma hook_start_inv tr a :
  inv tr a → state a ≠ invalid → state a ≠ deactivating →
  let a1 := set_deactivationStartedAtMs (Some (now a)) (set_state deactivating a) in
  let '(a2, ev) := if bool_decide (finalizationWaiters a1 = []) then (a1, []) else watchForStuckDeactivation a1 in
  inv (tr ++ ev) (disposeTimers a2).
Proof.
  intros (Ha & Hl & [[W1 W2 W3 W4] Hw]) Hni Hnd a1.
  assert (Ha1 : ainv [] [] tr a1) by (by eapply ainv_ext; [..|exact Ha]).
  assert (Hl1 : life a1).
  { destruct Hl as [Hcr Hfl Hph]. split; simpl; [done|done|].
    destruct (phase a); [split_and!; naive_solver|split_and!; naive_solver|by split]. }
  assert (Hw1 : wat0 a1).
  { split; simpl; [intros ? [= <-]; lia| |done|done]. intros due m Ht Hm.
    destruct (W2 due m Ht Hm) as (t0 & Ht0 & ?). exists (now a). split; [done|]. specialize (W1 _ Ht0). lia. }
  case_bool_decide as Hwt.
  - rewrite app_nil_r. split_and!.
    + by eapply ainv_ext; [..|exact Ha1].
    + same_life Hl1 a1.
    + split; [destruct Hw1; by split|]. intros ? _ _ _ _ Hne. by destruct Hne.
  - pose proof (watch_ainv _ _ Ha1) as Hwa. pose proof (watch_wat _ Hw1) as Hww.
    pose proof (outlives_life _ _ (outlives_watch a1) Hl1) as Hwl.
    destruct (watchForStuckDeactivation a1) as [a2 ev]. simpl in *. split_and!.
    + by eapply ainv_ext; [..|exact Hwa].
    + same_life Hwl a2.
    + same_wat Hww a2.
Qed.

Lemma hook_inv r tr a : inv tr a → inv (tr ++ (runDeactivateHook r a).2) (runDeactivateHook r a).1.
Proof.
  intros Hi. unfold runDeactivateHook. case_bool_decide as Hst; [by apply inv_nothing|].
  pose proof (hook_start_inv tr a Hi ltac:(tauto) ltac:(tauto)) as Hs. cbv zeta in Hs |- *.
  destruct (if bool_decide _ then _ else watchForStuckDeactivation _) as [a2 ev1].
  pose proof (inv_schedule (system_turn no_options) (HookTurn r) _ _ Hs I) as Hsch.
  destruct (schedule_turn _ _ _) as [a3 ev2]. simpl in *. by rewrite app_assoc.
Qed.

Lemma astep_inv tr a o : inv tr a → inv (tr ++ (astep a o).2) (astep a o).1.
Proof.
  intros Hi. assert (Hsame : ∀ a', inv tr a' → inv (tr ++ []) a') by (intros; by apply inv_nothing).
  destruct o as [req|p|r| |p r|p|c|r| | |r|ms| |id o|id| | |p|id|id|sg|ms]; simpl.
  - by apply invoke_inv.
  - by apply turn_begins_inv.
  - case_decide; [by apply onActivate_inv|by apply inv_nothing].
  - by apply inline_inv.
  - by apply body_settles_inv.
  - by apply inv_sched.
  - by apply continue_call_inv.
  - by apply hook_inv.
  - by apply Hsame, finalize_inv.
  - by apply inv_schedule.
  - by apply Hsame, requestDeactivation_inv.
  - apply Hsame. by eapply inv_ext; [..|exact Hi].
  - apply Hsame. by eapply inv_ext; [..|exact Hi].
  - apply Hsame. by eapply inv_ext; [..|exact Hi].
  - unfold timer_fires. destruct (timers a !! id); [by apply inv_schedule|by apply Hsame].
  - unfold runStreamTurn. case_bool_decide; [by apply Hsame|by apply inv_schedule].
  - by apply stuck_timer_inv.
  - by apply inv_sched.
  - by apply inv_sched.
  - by apply inv_sched.
  - by apply inv_sched.
  - apply Hsame. eapply inv_ext; [..|exact Hi]; try done. simpl. lia.
Qed.

(** The activation turn is the first turn, and starts at once. *)
Lemma activated_inv t :
  maxEnqueuedRequestsHardLimit opts ≠ Some 0%nat → inv (activated t).2 (activated t).1.
Proof.
  intros Hh.
  assert (Hinit : sched_inv (Value:=option Value) scheduler_options [] (new_scheduler None))
    by apply new_scheduler_inv.
  pose proof (sched_exec_inv _ _ _ (OpSchedule (system_turn no_options)) Hinit) as Hs.
  assert (He : exec (Value:=option Value) scheduler_options (new_scheduler None)
    (OpSchedule (system_turn no_options)) =
    (mkScheduler [] 0 0 [mkRunning (system_turn no_options) 0 true]
       (Some (mkRunning (system_turn no_options) 0 true)) ∅ None true false None ∅
       (match maxProcessingMs opts with Some _ => {[0%nat]} ∪ ∅ | None => ∅ end) ∅ ∅ 1,
     match maxEnqueuedRequestsSoftLimit opts with
     | Some l => if bool_decide (l ≤ 0)%nat then [EWarnSoftLimit 0] else []
     | None => [] end ++ [ERun 0 (system_turn no_options)])).
  { simpl. unfold schedule. cbn. destruct (maxEnqueuedRequestsHardLimit opts) as [[|l]|]; done. }
  rewrite He in Hs. simpl in Hs. unfold activated, beginActivate, schedule_turn.
  set (a0 := set_turns _ _). assert (He0 : exec scheduler_options (scheduler a0) (OpSchedule (system_turn no_options)) = _) by exact He.
  destruct (sched_trace (OpSchedule (system_turn no_options)) a0) as (T1 & T2 & T3).
  rewrite He0 in T3. simpl in T3. pose proof (sched_eq _ _ _ _ He0) as Heq.
  assert (Hev : conts_of (turns a0) (match maxEnqueuedRequestsSoftLimit opts with
     | Some l => if bool_decide (l ≤ 0)%nat then [EWarnSoftLimit 0] else []
     | None => [] end ++ [ERun 0 (system_turn no_options)]) = []).
  { destruct (maxEnqueuedRequestsSoftLimit opts); [|done]. by case_bool_decide. }
  assert (Hst : (sched (OpSchedule (system_turn no_options)) a0).1 = set_scheduler (mkScheduler [] 0 0 [mkRunning (system_turn no_options) 0 true]
       (Some (mkRunning (system_turn no_options) 0 true)) ∅ None true false None ∅
       (match maxProcessingMs opts with Some _ => {[0%nat]} ∪ ∅ | None => ∅ end) ∅ ∅ 1) a0).
  { rewrite Heq, Hev. simpl. done. }
  rewrite Hst. split_and!.
  - split; rewrite ?T1, ?T2, ?T3; simpl; try done.
    + split; simpl; [done| | |done].
      * by intros r ->%list_elem_of_singleton.
      * intros _. by eexists.
    + intros p. destruct p as [|p].
      * rewrite lookup_insert_eq. split; [intros; lia|by eexists].
      * rewrite lookup_insert_ne, lookup_empty by done. split; [by intros [? ?]|lia].
    + intros p. destruct p as [|p]; [by rewrite lookup_insert_eq|].
      by rewrite lookup_insert_ne, lookup_empty by done.
    + intros p c r. destruct p as [|p]; [by rewrite lookup_insert_eq|].
      by rewrite lookup_insert_ne, lookup_empty by done.
    + intros p q c r r'. destruct p as [|p]; [by rewrite lookup_insert_eq|].
      by rewrite lookup_insert_ne, lookup_empty by done.
    + by intros ? ?%not_elem_of_nil.
    + intros c _. apply not_elem_of_nil.
  - split; simpl; [done|done|]. split_and!; try done.
  - done.
Qed.

Lemma arun_inv t ops :
  maxEnqueuedRequestsHardLimit opts ≠ Some 0%nat → inv (arun t ops).2 (arun t ops).1.
Proof.
  intros Hh. unfold arun. pose proof (activated_inv t Hh) as Hi. destruct (activated t) as [a ev]. simpl in Hi.
  pose proof (run_trace_invariant astep inv astep_inv ops ev a Hi) as Hr.
  by destruct (run astep a ops).
Qed.

(** ** The stuck hook runs on an invalid activation *)

Definition is_on_stuck (e : Event) : bool := match e with EOnStuck => true | _ => false end.

Lemma existsb_app_false (l1 l2 : list Event) :
  existsb is_on_stuck l1 = false → existsb is_on_stuck (l1 ++ l2) = existsb is_on_stuck l2.
Proof. by rewrite existsb_app; intros ->. Qed.

Lemma sched_on_stuck o a : existsb is_on_stuck (sched o a).2 = true → state (sched o a).1 = invalid.
Proof.
  destruct (exec scheduler_options (scheduler a) o) as [s' ev] eqn:He.
  rewrite (sched_eq _ _ _ _ He). simpl.
  assert (H1 : ∀ l, existsb is_on_stuck (ESched <$> l) = false) by (by induction l).
  assert (H2 : ∀ l, existsb is_on_stuck (others_of (turns a) l) = false).
  { induction l as [|e l IH]; [done|]. change (e :: l) with ([e] ++ l). rewrite others_of_app, existsb_app, IH.
    destruct e; cbn; try done; by destruct (turns a !! _ ≫= call_of). }
  rewrite !existsb_app, H1, H2, orb_false_r. simpl. unfold moved.
  destruct (becomes_stuck _ _); [done|]. done.
Qed.

Lemma sched_stays_invalid o a : state a = invalid → state (sched o a).1 = invalid.
Proof. intros Hs. by destruct (sched_state o a) as [(-> & _)|(? & _)]. Qed.

Lemma watch_on_stuck a :
  existsb is_on_stuck (watchForStuckDeactivation a).2 = true → state (watchForStuckDeactivation a).1 = invalid.
Proof.
  unfold watchForStuckDeactivation. destruct (maxProcessingMs opts); [|done].
  destruct (onStuckHook opts) eqn:Eh; [|done]. destruct (deactivationStartedAtMs a); [|done].
  case_bool_decide; [|done]. destruct (stuckDeactivationTimer a); [done|]. cbv zeta. by case_bool_decide.
Qed.

Lemma reroute_on_stuck c b a :
  existsb is_on_stuck (rerouteOrReject c b a).2 = true → state (rerouteOrReject c b a).1 = invalid.
Proof.
  unfold rerouteOrReject. destruct (activationFailure a); [done|]. destruct (neverActivated a); [done|].
  unfold awaitFinalized. case_bool_decide; [done|apply watch_on_stuck].
Qed.

Lemma hook_on_stuck r a :
  existsb is_on_stuck (runDeactivateHook r a).2 = true → state (runDeactivateHook r a).1 = invalid.
Proof.
  unfold runDeactivateHook. case_bool_decide; [done|]. cbv zeta.
  set (a1 := set_deactivationStartedAtMs _ _).
  assert (Hw : existsb is_on_stuck (if bool_decide (finalizationWaiters a1 = []) then (a1, []) else watchForStuckDeactivation a1).2 = true →
    state (if bool_decide (finalizationWaiters a1 = []) then (a1, []) else watchForStuckDeactivation a1).1 = invalid)
    by (case_bool_decide; [done|apply watch_on_stuck]).
  destruct (if bool_decide _ then _ else _) as [a2 ev1]. unfold schedule_turn.
  match goal with |- context [sched ?o ?a] =>
    pose proof (sched_on_stuck o a) as H1; pose proof (sched_stays_invalid o a) as H2;
    destruct (sched o a) as [a3 ev2] end.
  simpl in *. rewrite existsb_app. intros [?|?]%orb_true_iff; [apply H2; by apply Hw|by apply H1].
Qed.

Lemma watch_state a :
  state (watchForStuckDeactivation a).1 = state a ∨ state (watchForStuckDeactivation a).1 = invalid.
Proof.
  unfold watchForStuckDeactivation. cbv zeta.
  destruct (maxProcessingMs opts); [|by left]. destruct (onStuckHook opts); [|by left].
  destruct (deactivationStartedAtMs a); [|by left]. case_bool_decide; [|by left].
  destruct (stuckDeactivationTimer a); [by left|]. case_bool_decide; [by right|by left].
Qed.

(** An activation whose hook was asked for serves no call any more. *)
Lemma hook_leaves r a :
  state (runDeactivateHook r a).1 = deactivating ∨ state (runDeactivateHook r a).1 = invalid.
Proof.
  unfold runDeactivateHook. case_bool_decide as Hs; [simpl; tauto|]. cbv zeta.
  set (a1 := set_deactivationStartedAtMs _ _).
  assert (Hw : let a2 := (if bool_decide (finalizationWaiters a1 = []) then (a1, [])
      else watchForStuckDeactivation a1).1 in state a2 = deactivating ∨ state a2 = invalid).
  { case_bool_decide; [by left|]. apply (watch_state a1). }
  destruct (if bool_decide _ then _ else _) as [a2 ev1]. unfold schedule_turn. simpl in Hw.
  match goal with |- context [sched ?o ?a] =>
    destruct (sched_state o a) as [(H1 & _)|(H1 & _)]; destruct (sched o a) as [a3 ev2] end; simpl in *; [|by right].
  rewrite H1. exact Hw.
Qed.

Lemma astep_on_stuck a o : existsb is_on_stuck (astep a o).2 = true → state (astep a o).1 = invalid.
Proof.
  destruct o as [req|p|r| |p r|p|c'|r| | |r|ms| |id o|id| | |p|id|id|sg|ms]; simpl; try done;
    try apply sched_on_stuck.
  - unfold invoke. cbv zeta. destruct (gone _); [apply reroute_on_stuck|apply sched_on_stuck].
  - unfold turn_begins. case_decide; [|done]. cbv zeta. unfold call_begins.
    repeat case_match; try done; apply sched_on_stuck.
  - case_decide; [|done]. unfold onActivate_settles. repeat case_match; try done; apply sched_on_stuck.
  - unfold inlineDeactivate_settles. case_match; try done; apply sched_on_stuck.
  - unfold body_settles, settle_body. case_decide; [|done]. repeat (case_match; simplify_eq); try done; apply sched_on_stuck.
  - unfold continue_call. repeat case_match; try done; apply reroute_on_stuck.
  - apply hook_on_stuck.
  - unfold timer_fires. case_match; [apply sched_on_stuck|done].
  - unfold runStreamTurn. case_bool_decide; [done|apply sched_on_stuck].
  - unfold stuck_timer_fires. repeat case_match; try done. 
Qed.

(** ** Where a method can run *)

Lemma methods_stuck : methods stuck_event = [].
Proof. by destruct stuck_event_silent as (_ & ? & _). Qed.

Lemma methods_watch a : methods (watchForStuckDeactivation a).2 = [].
Proof.
  unfold watchForStuckDeactivation. destruct (maxProcessingMs opts); [|done].
  destruct (onStuckHook opts) eqn:Eh; [|done]. destruct (deactivationStartedAtMs a); [|done].
  case_bool_decide; [|done]. destruct (stuckDeactivationTimer a); [done|]. cbv zeta.
  case_bool_decide; [apply methods_stuck|done].
Qed.

Lemma methods_reroute c b a : methods (rerouteOrReject c b a).2 = [].
Proof.
  unfold rerouteOrReject. destruct (activationFailure a); [done|]. destruct (neverActivated a); [done|].
  unfold awaitFinalized. case_bool_decide; [done|apply methods_watch].
Qed.

Lemma methods_sched o a : methods (sched o a).2 = [].
Proof. apply sched_trace. Qed.

Lemma methods_hook r a : methods (runDeactivateHook r a).2 = [].
Proof.
  unfold runDeactivateHook. case_bool_decide; [done|]. cbv zeta.
  set (a1 := set_deactivationStartedAtMs _ _).
  assert (Hw : methods (if bool_decide (finalizationWaiters a1 = []) then (a1, []) else watchForStuckDeactivation a1).2 = [])
    by (case_bool_decide; [done|apply methods_watch]).
  destruct (if bool_decide _ then _ else _) as [a2 ev1].
  pose proof (methods_sched (OpSchedule (system_turn no_options))
    (set_turns (<[next_promise (scheduler (disposeTimers a2)) := HookTurn r]> (turns (disposeTimers a2))) (disposeTimers a2))) as Hm.
  unfold schedule_turn. destruct (sched _ _) as [a3 ev2]. simpl in *. by rewrite methods_app, Hw, Hm.
Qed.

Lemma methods_body p r b a : methods (settle_body p r b a).2 = [].
Proof.
  unfold settle_body. destruct r as [v|e]; [|destruct (deactivateOnInconsistentState e a)];
    apply methods_sched.
Qed.

Lemma method_step a o c :
  EMethod c ∈ (astep a o).2 →
  ∃ p req, p ∈ r_promise <$> running (scheduler a) ∧ turns a !! p = Some (CallTurn c req) ∧ gone a = false.
Proof.
  intros Hin. assert (Hm : c ∈ methods (astep a o).2) by (apply list_elem_of_omap; by eexists).
  clear Hin. revert Hm. assert (Hno : ∀ l : list nat, l = [] → c ∈ l → False) by (by intros ? -> ?%not_elem_of_nil).
  destruct o as [req|p|r| |p r|p|c'|r| | |r|ms| |id o|id| | |p|id|id|sg|ms]; simpl;
    try (by intros ?%not_elem_of_nil); try (by intros ?%(Hno _ (methods_sched _ _))).
  - unfold invoke. cbv zeta. destruct (gone _).
    + by intros ?%(Hno _ (methods_reroute _ _ _)).
    + unfold schedule_turn. by intros ?%(Hno _ (methods_sched _ _)).
  - unfold turn_begins. case_decide as Hd; [|by intros ?%not_elem_of_nil]. cbv zeta.
    change (turns (set_begun _ a)) with (turns a).
    destruct (turns a !! p) as [[|c' req|r| |id o|]|] eqn:Et; simpl; try (by intros ?%not_elem_of_nil);
      try (by intros ?%(Hno _ (methods_sched _ _))).
    unfold call_begins. destruct (match expiresAt req with Some t => _ | None => _ end);
      [by intros ?%(Hno _ (methods_sched _ _))|].
    destruct (gone _) eqn:Eg; [destruct (activationFailure _); by intros ?%(Hno _ (methods_sched _ _))|].
    simpl. intros ->%list_elem_of_singleton. exists p, req. by destruct Hd.
  - case_decide; [|by intros ?%not_elem_of_nil]. unfold onActivate_settles.
    destruct (phase a), r; simpl; try (by intros ?%not_elem_of_nil); try (by intros ?%(Hno _ (methods_sched _ _))).
    destruct (deactivateRequestedDuringActivation a); [by intros ?%not_elem_of_nil|by intros ?%(Hno _ (methods_sched _ _))].
  - unfold inlineDeactivate_settles. destruct (phase a); try (by intros ?%not_elem_of_nil).
    by intros ?%(Hno _ (methods_sched _ _)).
  - unfold body_settles. case_decide; [|by intros ?%not_elem_of_nil].
    destruct (turns a !! p) as [[]|]; try (by intros ?%not_elem_of_nil);
      try (by intros ?%(Hno _ (methods_sched _ _))); by intros ?%(Hno _ (methods_body _ _ _ _)).
  - unfold continue_call. destruct (list_find _ _) as [[i [c0 k]]|]; [|by intros ?%not_elem_of_nil]. cbv zeta.
    destruct k as [[v|[| | |[]]]|b]; simpl; try (by intros ?%not_elem_of_nil).
    by intros ?%(Hno _ (methods_reroute _ _ _)).
  - by intros ?%(Hno _ (methods_hook _ _)).
  - unfold timer_fires, schedule_turn. destruct (timers a !! id); [|by intros ?%not_elem_of_nil].
    by intros ?%(Hno _ (methods_sched _ _)).
  - unfold runStreamTurn, schedule_turn. case_bool_decide; [by intros ?%not_elem_of_nil|].
    by intros ?%(Hno _ (methods_sched _ _)).
  - unfold stuck_timer_fires. destruct (stuckDeactivationTimer a); [|by intros ?%not_elem_of_nil].
    case_bool_decide; [|by intros ?%not_elem_of_nil]. cbv zeta.
    case_bool_decide; [by intros ?%(Hno _ methods_stuck)|by intros ?%not_elem_of_nil].
Qed.

(** The activation turn runs alone while it has not settled. *)
Lemma activating_alone tr a p c req :
  inv tr a → state a = activating → p ∈ r_promise <$> running (scheduler a) →
  turns a !! p ≠ Some (CallTurn c req).
Proof.
  intros (Ha & [_ _ Hph] & _) Hst Hp Ht. rewrite Hst in Hph.
  destruct (phase a); [|by destruct Hph as ([?|?] & _)|by destruct Hph].
  destruct Hph as (_ & _ & _ & Hfin). destruct (ai_barrier _ _ _ _ Ha) as [_ _ Hal Hse].
  destruct (firstTurnSettled (scheduler a)); [by apply Hfin, Hse|].
  destruct (Hal eq_refl) as (r & Hr & Hr0 & _). rewrite Hr in Hp. simpl in Hp.
  apply list_elem_of_singleton in Hp as ->. rewrite Hr0, (proj2 (ai_zero _ _ _ _ Ha 0%nat) eq_refl) in Ht. done.
Qed.
End activation.

(** ** Properties *)

Section claims.
Context {Arg Value Err : Type} (opts : ActivationOptions) (t : Z) (ops : list (@AOp Arg Value Err)).
Hypothesis Hlimit : maxEnqueuedRequestsHardLimit opts ≠ Some 0%nat.

(** C12: A grain method only ever runs on a valid activation: whatever callers,
    timers, deactivations and migrations do, when a call's method begins the
    state is valid, activation succeeded, and the state of the grain has not
    been handed to another silo. *)
Theorem method_runs_on_valid_activation o c :
  let a := (arun opts t ops).1 in
  EMethod c ∈ (astep opts a o).2 →
  state a = valid ∧ dehydrated a = false ∧ activationFailure a = None ∧ neverActivated a = false.
Proof using Hlimit.
  intros a Hin. pose proof (arun_inv opts t ops Hlimit) as Hi. fold a in Hi.
  destruct (method_step _ _ _ _ Hin) as (p & req & Hp & Ht & Hg).
  apply orb_false_iff in Hg as [Hst Hd]. apply bool_decide_eq_false in Hst.
  assert (Hv : state a = valid).
  { pose proof (li_created _ (proj1 (proj2 Hi))). destruct (state a) eqn:Est; try done; [|tauto..].
    by destruct (activating_alone opts _ _ _ c req Hi Est Hp). }
  destruct Hi as (_ & [_ _ Hph] & _). rewrite Hv in Hph.
  destruct (phase a); [by destruct Hph|by destruct Hph as ([?|?] & _)|]. destruct Hph as [_ Hph].
  split_and!; [done|done|by apply Hph..].
Qed.

(** No call is lost and none is answered twice: every call made on the
    activation is answered, about to be, held until the activation is gone, or
    in the hands of the scheduler, and only one of these. *)
Theorem calls_settle_once :
  let a := (arun opts t ops).1 in
  settled_calls (arun opts t ops).2 ++ (conts a).*1 ++ (finalizationWaiters a).*1 ++
    pend_calls (turns a) (pend (scheduler a)) ≡ₚ seq 0 (next_call a).
Proof using Hlimit.
  pose proof (ai_ledger _ _ _ _ _ (proj1 (arun_inv opts t ops Hlimit))) as Hl.
  by rewrite app_nil_r in Hl.
Qed.

(** A rerouted call never ran: when the activation answers a call with a
    rejection the dispatcher answers by delivering the call again, the method
    has not begun here, so delivering it again never runs it twice. *)
Theorem rerouted_call_never_ran c r :
  ESettled c (inr r) ∈ (arun opts t ops).2 → isRerouteRejection r = true →
  EMethod c ∉ (arun opts t ops).2.
Proof using Hlimit.
  intros Hr Hrr Hm. apply (ai_clean _ _ _ _ _ (proj1 (arun_inv opts t ops Hlimit)) c).
  - right. right. by exists r.
  - apply list_elem_of_omap. by eexists.
Qed.

(** A call is never held forever by a wedged [onDeactivate]: while calls
    are held on a deactivating activation the watch is armed, no later than
    [maxRequestProcessingTimeMs] after the deactivation began, and when it
    fires it releases every one of them for a reroute. *)
Theorem held_calls_watched m t0 :
  let a := (arun opts t ops).1 in
  maxProcessingMs opts = Some m → onStuckHook opts = true → deactivationStartedAtMs a = Some t0 →
  state a = deactivating → finalizationWaiters a ≠ [] →
  ∃ due, stuckDeactivationTimer a = Some due ∧ due <= t0 + Z.of_nat m ∧
    (due <= now a →
     let a' := (astep opts a StuckTimerFires).1 in
     state a' = invalid ∧ finalizationWaiters a' = [] ∧
     ∀ c b, (c, b) ∈ finalizationWaiters a → (c, Released b) ∈ conts a').
Proof using Hlimit.
  intros a Hm Hh Hd Hs Hw. pose proof (arun_inv opts t ops Hlimit) as (_ & _ & [Hw0 Harm]). fold a in Hw0, Harm.
  destruct (Harm t0) as [due Hdue]; [by eexists|done..|].
  destruct (w_due _ _ Hw0 due m Hdue Hm) as (t1 & Ht1 & Hle). rewrite Hd in Ht1. simplify_eq.
  exists due. split_and!; [done|done|]. intros Hnow. simpl. unfold stuck_timer_fires.
  rewrite Hdue, bool_decide_true by done. cbv zeta. rewrite bool_decide_true by done.
  split_and!; [done|done|]. intros c b Hin. simpl. apply elem_of_app. right.
  apply list_elem_of_fmap. by exists (c, b).
Qed.
End claims.

(** ** Concrete executions *)

Module Runs.
Definition options : ActivationOptions := mkActivationOptions 60000 false None None (Some 100%nat) true.
Definition call : @InvocationRequest nat := mkRequest "work" [] no_options None None None.
Definition shutdown : DeactivationReason := mkReason "shutting-down" "silo stopping".
Abbreviation op := (@AOp nat nat nat).

Definition active : list op := [TurnBegins 0; OnActivateSettles (inl ()); TurnFinally 0].
Definition serving : list op := active ++ [Invoke call].

Lemma method_runs_on_valid_activation_witness :
  state (arun options 0 serving).1 = valid.
Proof.
  assert (Hin : EMethod 0 ∈ (astep options (arun options 0 serving).1 (TurnBegins 1 : op)).2).
  { vm_compute. left. }
  exact (proj1 (method_runs_on_valid_activation options 0 serving ltac:(discriminate) (TurnBegins 1) 0 Hin)).
Defined.

Lemma calls_settle_once_witness :
  let a := (arun options 0 serving).1 in
  settled_calls (arun options 0 serving).2 ++ (conts a).*1 ++ (finalizationWaiters a).*1 ++
    pend_calls (turns a) (pend (scheduler a)) ≡ₚ seq 0 (next_call a).
Proof. exact (calls_settle_once options 0 serving ltac:(discriminate)). Defined.

(** A call that arrives while the activation deactivates is held, and rerouted
    once the deactivation is final. *)
Definition rerouting : list op :=
  active ++ [RunDeactivateHook shutdown; Invoke call; FinalizeDeactivation; CallContinues 0].

Lemma rerouted_call_never_ran_witness : EMethod 0 ∉ (arun options 0 rerouting).2.
Proof.
  assert (Hin : ESettled 0 (inr (RunError NoActivation)) ∈ (arun options 0 rerouting).2).
  { vm_compute. repeat (first [left|right]). }
  exact (rerouted_call_never_ran options 0 rerouting ltac:(discriminate) 0 _ Hin eq_refl).
Defined.

Definition held : list op := active ++ [RunDeactivateHook shutdown; Elapse 40; Invoke call; Elapse 60].

Lemma held_calls_watched_witness :
  ∃ due, stuckDeactivationTimer (arun options 0 held).1 = Some due ∧ due <= 0 + 100.
Proof.
  destruct (held_calls_watched options 0 held ltac:(discriminate) 100 0 eq_refl eq_refl eq_refl eq_refl
    ltac:(vm_compute; discriminate)) as (due & Hd & Hle & _).
  exists due. split; [exact Hd|exact Hle].
Defined.

(** A deactivation that begins while [onActivate] still runs is forgotten when
    it completes: the state becomes valid again. *)
Definition deactivated_while_activating : list op :=
  [TurnBegins 0; RunDeactivateHook shutdown; OnActivateSettles (inl ())].

Lemma deactivating_becomes_valid :
  state (arun options 0 (take 2 deactivated_while_activating)).1 = deactivating ∧
  state (arun options 0 deactivated_while_activating).1 = valid.
Proof. by vm_compute. Qed.

(** A call made then runs after [onDeactivate] has completed, before the
    deactivation is final. *)
Lemma method_after_onDeactivate :
  ∃ tr1 tr2, (arun options 0 (deactivated_while_activating ++
      [Invoke call; TurnFinally 0; TurnBegins 1; BodySettles 1 (inl None); TurnFinally 1; TurnBegins 2])).2
    = tr1 ++ EOnDeactivate shutdown :: tr2 ∧ EMethod 0 ∈ tr2.
Proof.
  eexists [_; _; _; _; _], _. split; [vm_compute; reflexivity|]. repeat (first [left|right]).
Qed.

(** An activation declared stuck while activating becomes valid again too. *)
Lemma stuck_becomes_valid :
  let before : list op := [TurnBegins 0; Invoke call; Watchdog 0] in
  let s := (arun options 0 before).1 in
  let s' := (arun options 0 (before ++ [OnActivateSettles (inl ())])).1 in
  state s = invalid ∧ abandonedAsStuck s = true ∧ state s' = valid.
Proof. by vm_compute. Qed.

(** Two concurrent deactivations: the second is final before [onDeactivate] ran. *)
Lemma second_deactivation_is_immediate :
  let s := (arun options 0 (active ++ [RunDeactivateHook shutdown; RunDeactivateHook shutdown; FinalizeDeactivation] : list op)) in
  state s.1 = invalid ∧ omap (λ e, match e with EOnDeactivate r => Some r | _ => None end) s.2 = [].
Proof. by vm_compute. Qed.
End Runs.
