(* ===== verification/Catalog.v ===== *)
(** * The catalog of live activations

    Models [packages/runtime/src/catalog.ts]: the registry that creates, finds,
    collects and removes the activations of a silo. Activations live in a heap
    and the two maps hold references to them, as in the code. An operation is
    one synchronous slice: a call of the class up to its first [await], the
    continuation of one of its pending procedures, or a step of an activation.
    The grain activator is the default one, and the hooks into the hosting
    layer are events. *)
From Stdlib Require Import Ascii String.
From stdpp Require Import prelude gmap strings list sorting.
From S2P Require Import Prelude Ids Scheduler Activation.
Open Scope Z_scope.

Section catalog.
Context {Arg Value Err : Type}.

(** ** Data *)

(** What the catalog reads of a registered grain type. *)
Record RegisteredGrain := mkRegistered {
  rg_reentrant : bool;
  stateless : bool;
  maxLocalWorkers : option nat;
  collectionAgeSeconds : option Z }.

Record CatalogOptions := mkCatalogOptions {
  grainTypes : gmap string RegisteredGrain;
  classSpecificCollectionAgeSeconds : gmap string Z;
  defaultCollectionAgeSeconds : Z;
  DEFAULT_MAX_LOCAL_WORKERS : nat;
  softLimit : option nat;
  hardLimit : option nat;
  maxRequestProcessingTimeMs : option nat;
  deactivationTimeoutMs : option nat;
  (** Whether the [migrate] hook is provided. *)
  migrates : bool }.

(** The key of both maps is the printed id. *)
Abbreviation id_string := GrainId_toString.

(** An activation on the heap. [was_invalid] records whether its state has ever
    been invalid; the code does not keep it. *)
Record Cell := mkCell {
  c_id : GrainId;
  c_opts : ActivationOptions;
  c_activationId : option string;
  c_worker : bool;
  c_act : @ActivationData Arg Value Err;
  was_invalid : bool }.

(** What a caller of the catalog gets. *)
Inductive Answer :=
  | Handed (i : nat)
  | Nothing
  | SiloDraining
  | NoGrainType
  | NotAStatelessWorker.

Record Caller := mkCaller { for_id : GrainId; with_activationId : option string; creates : bool }.

(** Where [collectIdle] is: at an ordinary activation, or at an index of the
    array of workers it iterates for a key. *)
Inductive Position :=
  | AtOrdinary
  | AtWorker (key : string) (array : nat) (index : nat).
Record Sweep := mkSweep { ageLimitOverrideMs : option Z; position : Position }.

(** A procedure of the class waiting for a deactivation hook (the promise of
    its turn and the time [awaitWithDeactivationTimeout] gives up), for a
    migration, or for the whole sweep of [deactivateAll]. *)
Inductive Task :=
  | StaleTask (i : nat) (caller : Caller)
  | CollectTask (i : nat) (migrating : bool) (sweep : Sweep)
  | MigrateTask (i : nat) (sweep : Sweep)
  | FinalizeTask (i : nat)
  | AllTask (all : list nat) (deadline : option Z).

Record Await := mkAwait { a_hook : option nat; a_timeout : option Z }.

(** The class. The arrays of [workerActivations] are shared between the map and
    the sweeps that iterate them, so the map holds references to them. *)
Record Catalog := mkCatalog {
  heap : list Cell;
  activations : gmap string nat;
  arrays : list (list nat);
  workerActivations : gmap string nat;
  stopping : bool;
  tasks : gmap nat (Task * Await);
  next_task : nat;
  clock : Z }.

Inductive CEvent :=
  | EAnswer (caller : Caller) (a : Answer)
  | EWorker (id : GrainId) (a : Answer)
  (** [deactivateState], then [onDeactivated]; the latter alone for a stuck one. *)
  | EDisposed (i : nat)
  | EOnDeactivated (i : nat)
  | EMigrate (i : nat).

Definition set_heap h (c : Catalog) : Catalog :=
  mkCatalog h (activations c) (arrays c) (workerActivations c) (stopping c) (tasks c) (next_task c) (clock c).
Definition set_activations m (c : Catalog) : Catalog :=
  mkCatalog (heap c) m (arrays c) (workerActivations c) (stopping c) (tasks c) (next_task c) (clock c).
Definition set_arrays l (c : Catalog) : Catalog :=
  mkCatalog (heap c) (activations c) l (workerActivations c) (stopping c) (tasks c) (next_task c) (clock c).
Definition set_workers m (c : Catalog) : Catalog :=
  mkCatalog (heap c) (activations c) (arrays c) m (stopping c) (tasks c) (next_task c) (clock c).
Definition set_stopping b (c : Catalog) : Catalog :=
  mkCatalog (heap c) (activations c) (arrays c) (workerActivations c) b (tasks c) (next_task c) (clock c).
Definition set_tasks m n (c : Catalog) : Catalog :=
  mkCatalog (heap c) (activations c) (arrays c) (workerActivations c) (stopping c) m n (clock c).

Definition empty_catalog (t : Z) : Catalog := mkCatalog [] ∅ [] ∅ false ∅ 0 t.

(** ** Activations on the heap *)

Definition act (c : Catalog) (i : nat) : option (@ActivationData Arg Value Err) := c_act <$> heap c !! i.
Definition state_of (c : Catalog) (i : nat) : ActivationState :=
  match act c i with Some a => state a | None => invalid end.
Definition busy_of (c : Catalog) (i : nat) : bool :=
  match act c i with Some a => busy (scheduler a) | None => false end.
Definition load_of (c : Catalog) (i : nat) : nat :=
  match act c i with Some a => load (scheduler a) | None => 0 end.
Definition stuck_of (c : Catalog) (i : nat) : bool :=
  match act c i with Some a => abandonedAsStuck a | None => false end.

Definition update_cell (a : @ActivationData Arg Value Err) (x : Cell) : Cell :=
  mkCell (c_id x) (c_opts x) (c_activationId x) (c_worker x) a
    (was_invalid x || bool_decide (state a = invalid)).

(** [workerActivations.get(key)], and the assignment of a new array. *)
Definition array_of (c : Catalog) (key : string) : option (list nat) :=
  workerActivations c !! key ≫= λ r, arrays c !! r.
Definition assign_workers (key : string) (l : list nat) (c : Catalog) : Catalog :=
  match l with
  | [] => set_workers (delete key (workerActivations c)) c
  | _ => set_workers (<[key := length (arrays c)]> (workerActivations c)) (set_arrays (arrays c ++ [l]) c)
  end.

(** [handleStuckActivation] *)
Definition handleStuckActivation (i : nat) (c : Catalog) : Catalog * list CEvent :=
  match heap c !! i with
  | None => (c, [])
  | Some x =>
      let key := id_string (c_id x) in
      (if decide (activations c !! key = Some i) then set_activations (delete key (activations c)) c
       else match array_of c key with
            | Some list => assign_workers key (filter (λ j, j ≠ i) list) c
            | None => c
            end,
       [EOnDeactivated i])
  end.

(** One step of an activation, with the catalog's [onStuck]. *)
Definition act_step (i : nat) (o : @AOp Arg Value Err) (c : Catalog) : Catalog * list CEvent :=
  match heap c !! i with
  | None => (c, [])
  | Some x =>
      let '(a, ev) := astep (c_opts x) (c_act x) o in
      let c := set_heap (<[i := update_cell a x]> (heap c)) c in
      if existsb is_on_stuck ev then handleStuckActivation i c else (c, [])
  end.

Context (opts : CatalogOptions).

(** ** Creation *)

Definition collection_age (reg : RegisteredGrain) (type : string) : Z :=
  match collectionAgeSeconds reg with
  | Some s => s
  | None => default (defaultCollectionAgeSeconds opts) (classSpecificCollectionAgeSeconds opts !! type)
  end.

(** [create]: the new activation begins to activate at once. *)
Definition create (id : GrainId) (activationId : option string) (worker : bool) (c : Catalog)
    : option (Catalog * nat) :=
  match grainTypes opts !! grain_type id with
  | None => None
  | Some reg =>
      let aopts := mkActivationOptions (collection_age reg (grain_type id) * 1000) (rg_reentrant reg)
        (softLimit opts) (hardLimit opts) (maxRequestProcessingTimeMs opts) true in
      let a := (activated aopts (clock c)).1 in
      let x := mkCell id aopts activationId worker a (bool_decide (state a = invalid)) in
      Some (set_heap (heap c ++ [x]) c, length (heap c))
  end.

(** [createAndStore] *)
Definition createAndStore (id : GrainId) (activationId : option string) (c : Catalog)
    : Catalog * Answer :=
  if stopping c then (c, SiloDraining)
  else match create id activationId false c with
  | None => (c, NoGrainType)
  | Some (c, i) => (set_activations (<[id_string id := i]> (activations c)) c, Handed i)
  end.

(** ** Waiting for a deactivation hook *)

Definition add_task (t : Task) (w : Await) (c : Catalog) : Catalog :=
  set_tasks (<[next_task c := (t, w)]> (tasks c)) (S (next_task c)) c.

(** [runDeactivateHook] on an activation, and what its caller then awaits. *)
Definition run_hook (i : nat) (r : DeactivationReason) (c : Catalog) : Catalog * Await * list CEvent :=
  match act c i with
  | None => (c, mkAwait None None, [])
  | Some a =>
      let w := if bool_decide (state a = invalid ∨ state a = deactivating) then mkAwait None None
               else mkAwait (Some (next_promise (scheduler a)))
                      (match deactivationTimeoutMs opts with
                       | Some ms => Some (now a + Z.of_nat ms) | None => None end) in
      let '(c, ev) := act_step i (RunDeactivateHook r) c in (c, w, ev)
  end.

(** The promise of the hook's turn settled, or the timeout passed. *)
Definition hook_over (c : Catalog) (i : nat) (w : Await) : bool :=
  match a_hook w with
  | None => true
  | Some p =>
      match act c i with
      | Some a => bool_decide (p ∉ pend (scheduler a))
      | None => true
      end || match a_timeout w with Some t => bool_decide (t <= clock c) | None => false end
  end.

Definition finalize (i : nat) (c : Catalog) : Catalog := (act_step i FinalizeDeactivation c).1.

Definition reason_of (c : Catalog) (i : nat) (d : DeactivationReason) : DeactivationReason :=
  match act c i with Some a => default d (pendingDeactivationReason a) | None => d end.

(** ** Lookup *)

(** The rest of [getOrActivate] once the stale activation is finalized, or of
    [resolveLive], which creates nothing. *)
Definition after_stale (caller : Caller) (c : Catalog) : Catalog * list CEvent :=
  if creates caller then
    let create_one :=
      let '(c, r) := createAndStore (for_id caller) (with_activationId caller) c in
      (c, [EAnswer caller r]) in
    match activations c !! id_string (for_id caller) with
    | Some j => if bool_decide (state_of c j = invalid) then create_one else (c, [EAnswer caller (Handed j)])
    | None => create_one
    end
  else (c, [EAnswer caller Nothing]).

(** [getOrActivate] and [resolveLive], up to their first [await]. *)
Definition lookup_or (caller : Caller) (c : Catalog) : Catalog * list CEvent :=
  let absent :=
    if creates caller then
      let '(c, r) := createAndStore (for_id caller) (with_activationId caller) c in (c, [EAnswer caller r])
    else (c, [EAnswer caller Nothing]) in
  match activations c !! id_string (for_id caller) with
  | None => absent
  | Some i =>
      if bool_decide (state_of c i = invalid) then absent
      else if match act c i with Some a => deactivationRequestedAndIdle a | None => false end then
        let r := reason_of c i (mkReason "application-requested" "deactivateOnIdle requested") in
        let '(c, w, ev) := run_hook i r c in
        (add_task (StaleTask i caller) w c, ev)
      else (c, [EAnswer caller (Handed i)])
  end.

(** [finalizeStale] after its hook. *)
Definition stale_continues (i : nat) (caller : Caller) (c : Catalog) : Catalog * list CEvent :=
  let c := finalize i c in
  let key := id_string (for_id caller) in
  if decide (activations c !! key = Some i) then
    let c := set_activations (delete key (activations c)) c in
    let '(c, ev) := after_stale caller c in (c, EDisposed i :: ev)
  else after_stale caller c.

(** ** Idle collection *)

(** The bookkeeping of [collectIdle] after [collectOne] returned for the
    ordinary activation [i]. *)
Definition collected (i : nat) (c : Catalog) : Catalog * list CEvent :=
  if bool_decide (state_of c i = invalid) then
    match heap c !! i with
    | None => (c, [])
    | Some x =>
        let key := id_string (c_id x) in
        (if decide (activations c !! key = Some i) then set_activations (delete key (activations c)) c else c,
         if stuck_of c i then [] else [EDisposed i])
    end
  else (c, []).

(** The same for the workers of [key], once the last of them was visited. *)
Definition workers_collected (key : string) (c : Catalog) : Catalog * list CEvent :=
  let current := default [] (array_of c key) in
  (assign_workers key (filter (λ i, state_of c i ≠ invalid) current) c,
   EDisposed <$> filter (λ i, state_of c i = invalid) current).

(** [collectOne] up to its first [await]; [None] when it returned at once. *)
Definition collectOne (i : nat) (sweep : Sweep) (c : Catalog) : option (Catalog * list CEvent) :=
  match heap c !! i with
  | None => None
  | Some x =>
      if isStale (c_opts x) (ageLimitOverrideMs sweep) (c_act x) then
        let migrating := migrationRequested (c_act x) && migrates opts in
        let r := if migrating then mkReason "migrating" "migrating to another silo"
                 else reason_of c i (mkReason "idle" "idle collection") in
        let '(c, w, ev) := run_hook i r c in
        Some (add_task (CollectTask i migrating sweep) w c, ev)
      else None
  end.

(** [collectIdle] over the ordinary activation [i]. *)
Definition visit_ordinary (age : option Z) (i : nat) (c : Catalog) : Catalog * list CEvent :=
  match collectOne i (mkSweep age AtOrdinary) c with
  | Some r => r
  | None => collected i c
  end.

(** [collectIdle] over the array [r] of [key] from [index]: it stops at the
    first worker it must wait for; [n] indices remain. *)
Fixpoint visit_workers (n : nat) (age : option Z) (key : string) (r index : nat) (c : Catalog)
    : Catalog * list CEvent :=
  match n with
  | O => workers_collected key c
  | S n' =>
      match arrays c !! r ≫= λ l, l !! index with
      | None => workers_collected key c
      | Some i =>
          match collectOne i (mkSweep age (AtWorker key r (S index))) c with
          | Some res => res
          | None => visit_workers n' age key r (S index) c
          end
      end
  end.

Definition visit_array (age : option Z) (key : string) (r index : nat) (c : Catalog)
    : Catalog * list CEvent :=
  visit_workers (length (default [] (arrays c !! r)) - index) age key r index c.

Definition collect_ends (i : nat) (sweep : Sweep) (c : Catalog) : Catalog * list CEvent :=
  let c := finalize i c in
  match position sweep with
  | AtOrdinary => collected i c
  | AtWorker key r index => visit_array (ageLimitOverrideMs sweep) key r index c
  end.

(** [collectOne] after its hook: a migration requested before or during it. *)
Definition collect_continues (i : nat) (migrating : bool) (sweep : Sweep) (c : Catalog)
    : Catalog * list CEvent :=
  let wants := match act c i with Some a => migrationRequested a && migrates opts | None => false end in
  if migrating || wants
  then (add_task (MigrateTask i sweep) (mkAwait None None) c, [EMigrate i])
  else collect_ends i sweep c.

(** ** Stateless workers *)

Definition maxLocalWorkersFor (type : string) : option nat :=
  reg ← grainTypes opts !! type;
  if stateless reg then Some (default (DEFAULT_MAX_LOCAL_WORKERS opts) (maxLocalWorkers reg)) else None.

(** The least loaded of a list, the first of equals. *)
Definition least_loaded (c : Catalog) (best : nat) (l : list nat) : nat :=
  foldl (λ b i, if bool_decide (load_of c i < load_of c b)%nat then i else b) best l.

(** The array of [key] with its invalid workers spliced out, in place. *)
Definition pruned_workers (key : string) (c : Catalog) : Catalog * nat * list nat :=
  match workerActivations c !! key with
  | Some r =>
      let l := filter (λ i, state_of c i ≠ invalid) (default [] (arrays c !! r)) in
      (set_arrays (<[r := l]> (arrays c)) c, r, l)
  | None =>
      let r := length (arrays c) in
      (set_workers (<[key := r]> (workerActivations c)) (set_arrays (arrays c ++ [[]]) c), r, [])
  end.

(** [pickOrScaleWorker] *)
Definition pickOrScaleWorker (id : GrainId) (c : Catalog) : Catalog * Answer :=
  match maxLocalWorkersFor (grain_type id) with
  | None => (c, NotAStatelessWorker)
  | Some limit =>
      let '(c, r, list) := pruned_workers (id_string id) c in
      match filter (λ i, busy_of c i = false) list with
      | i :: _ => (c, Handed i)
      | [] =>
          if bool_decide (length list < limit)%nat then
            if stopping c then (c, SiloDraining)
            else match create id None true c with
            | None => (c, NoGrainType)
            | Some (c, i) => (set_arrays (<[r := list ++ [i]]> (arrays c)) c, Handed i)
            end
          else match list with
          | best :: rest => (c, Handed (least_loaded c best rest))
          | [] => (c, Nothing)
          end
      end
  end.

(** ** Queries *)

Definition live_worker (c : Catalog) (key : string) : list nat :=
  filter (λ i, state_of c i ≠ invalid) (default [] (array_of c key)).

(** [get] *)
Definition get (id : GrainId) (c : Catalog) : option nat :=
  match activations c !! id_string id with
  | Some i => Some i
  | None => head (live_worker c (id_string id))
  end.

(** [isActive] *)
Definition isActive (id : GrainId) (c : Catalog) : bool :=
  match activations c !! id_string id with Some i => bool_decide (state_of c i = valid) | None => false end ||
  existsb (λ i, bool_decide (state_of c i = valid)) (default [] (array_of c (id_string id))).

(** [countFor] *)
Definition countFor (id : GrainId) (c : Catalog) : nat :=
  match activations c !! id_string id with
  | Some i => if bool_decide (state_of c i = invalid) then 0 else 1
  | None => length (live_worker c (id_string id))
  end.

(** [isStatelessWorkerType] *)
Definition isStatelessWorkerType (type : string) : bool :=
  match grainTypes opts !! type with Some reg => stateless reg | None => false end.

(** [this.activations.values()], then the workers of every key. *)
Definition all_activations (c : Catalog) : list nat :=
  (map_to_list (activations c)).*2 ++
  concat ((λ r, default [] (arrays c !! r)) <$> (map_to_list (workerActivations c)).*2).

(** [count], [grainTypeCounts] and [liveActivations] *)
Definition count (c : Catalog) : nat :=
  length (filter (λ i, state_of c i ≠ invalid) (all_activations c)).
Definition grainTypeCounts (c : Catalog) : gmap string nat :=
  foldl (λ m i, match heap c !! i with
                | Some x => if bool_decide (state (c_act x) = invalid) then m
                            else <[grain_type (c_id x) := S (default 0%nat (m !! grain_type (c_id x)))]> m
                | None => m
                end) ∅ (all_activations c).
Definition liveActivations (c : Catalog) : list nat :=
  filter (λ i, state_of c i = valid) (all_activations c).

(** ** Shutdown *)

(** [deactivate], as an external caller or [deactivateAll] calls it. *)
Definition deactivate (i : nat) (r : DeactivationReason) (c : Catalog) : Catalog * list CEvent :=
  let '(c, w, ev) := run_hook i r c in (add_task (FinalizeTask i) w c, ev).

Fixpoint deactivate_each (l : list nat) (r : DeactivationReason) (c : Catalog) : Catalog * list CEvent :=
  match l with
  | [] => (c, [])
  | i :: l' =>
      let '(c, ev1) := deactivate i r c in
      let '(c, ev2) := deactivate_each l' r c in (c, ev1 ++ ev2)
  end.

(** [deactivateAll] up to its first [await]. *)
Definition deactivateAll (r : DeactivationReason) (deadlineMs : option nat) (c : Catalog)
    : Catalog * list CEvent :=
  let c := set_stopping true c in
  let all := all_activations c in
  let '(c, ev) := deactivate_each all r c in
  (add_task (AllTask all ((λ ms, clock c + Z.of_nat ms) <$> deadlineMs)) (mkAwait None None) c, ev).

(** No deactivation of [all] is pending any more, or the deadline passed. *)
Definition all_over (all : list nat) (deadline : option Z) (c : Catalog) : bool :=
  forallb (λ kv, match kv.2.1 with FinalizeTask i => negb (bool_decide (i ∈ all)) | _ => true end)
    (map_to_list (tasks c)) ||
  match deadline with Some t => bool_decide (t <= clock c) | None => false end.

Definition all_ends (all : list nat) (c : Catalog) : Catalog * list CEvent :=
  let c := set_workers ∅ (set_activations ∅ c) in
  (c, omap (λ i, if bool_decide (state_of c i ≠ invalid) then None
                 else if stuck_of c i then None else Some (EDisposed i)) all).

(** ** Executions *)

Inductive COp :=
  | GetOrActivate (id : GrainId) (activationId : option string)
  | ResolveLive (id : GrainId)
  | PickOrScaleWorker (id : GrainId)
  | CollectOrdinary (key : string) (age : option Z)
  | CollectWorkers (key : string) (age : option Z)
  | Deactivate (i : nat) (r : DeactivationReason)
  | DeactivateAll (r : DeactivationReason) (deadlineMs : option nat)
  | TaskContinues (n : nat)
  | ActivationStep (i : nat) (o : @AOp Arg Value Err)
  | ElapseAll (ms : nat).

(** Steps an activation takes by itself; its deactivation goes through the catalog. *)
Definition own_step (o : @AOp Arg Value Err) : bool :=
  match o with RunDeactivateHook _ | FinalizeDeactivation | Elapse _ => false | _ => true end.

Definition task_continues (t : Task) (w : Await) (c : Catalog) : option (Catalog * list CEvent) :=
  match t with
  | StaleTask i caller => if hook_over c i w then Some (stale_continues i caller c) else None
  | CollectTask i m sweep => if hook_over c i w then Some (collect_continues i m sweep c) else None
  | MigrateTask i sweep => Some (collect_ends i sweep c)
  | FinalizeTask i => if hook_over c i w then Some (finalize i c, []) else None
  | AllTask all d => if all_over all d c then Some (all_ends all c) else None
  end.

Definition cstep (c : Catalog) (o : COp) : Catalog * list CEvent :=
  match o with
  | GetOrActivate id a => lookup_or (mkCaller id a true) c
  | ResolveLive id => lookup_or (mkCaller id None false) c
  | PickOrScaleWorker id => let '(c, r) := pickOrScaleWorker id c in (c, [EWorker id r])
  | CollectOrdinary key age =>
      match activations c !! key with Some i => visit_ordinary age i c | None => (c, []) end
  | CollectWorkers key age =>
      match workerActivations c !! key with Some r => visit_array age key r 0 c | None => (c, []) end
  | Deactivate i r => deactivate i r c
  | DeactivateAll r d => deactivateAll r d c
  | TaskContinues n =>
      match tasks c !! n with
      | Some (t, w) =>
          match task_continues t w (set_tasks (delete n (tasks c)) (next_task c) c) with
          | Some r => r
          | None => (c, [])
          end
      | None => (c, [])
      end
  | ActivationStep i o => if own_step o then act_step i o c else (c, [])
  | ElapseAll ms =>
      (mkCatalog ((λ x, update_cell (set_now (now (c_act x) + Z.of_nat ms) (c_act x)) x) <$> heap c)
         (activations c) (arrays c) (workerActivations c) (stopping c) (tasks c) (next_task c)
         (clock c + Z.of_nat ms), [])
  end.

(** ** The invariant *)

Definition key_of (x : Cell) : string := id_string (c_id x).

(** A cell of the given kind under [key] that has never been invalid. *)
Definition live_in (h : list Cell) (worker : bool) (key : string) (i : nat) : Prop :=
  ∃ x, h !! i = Some x ∧ key_of x = key ∧ c_worker x = worker ∧ was_invalid x = false.

Definition is_all (t : Task) : bool := match t with AllTask _ _ => true | _ => false end.

Definition type_free (type : string) : Prop := ∀ s s', type ≠ (s ++ "/" ++ s')%string.

Record cinv (c : Catalog) : Prop := {
  ci_state : ∀ i x, heap c !! i = Some x → state (c_act x) = invalid → was_invalid x = true;
  ci_ref : ∀ k i, activations c !! k = Some i →
    ∃ x, heap c !! i = Some x ∧ key_of x = k ∧ c_worker x = false;
  ci_reg : stopping c = false → ∀ k i, live_in (heap c) false k i → activations c !! k = Some i;
  ci_unique : ∀ k i j, live_in (heap c) false k i → live_in (heap c) false k j → i = j;
  ci_arr : ∀ k r, workerActivations c !! k = Some r →
    ∃ l, arrays c !! r = Some l ∧ ∀ i, i ∈ l → ∃ x, heap c !! i = Some x ∧ key_of x = k ∧ c_worker x = true;
  ci_own : ∀ k k' r, workerActivations c !! k = Some r → workerActivations c !! k' = Some r → k = k';
  ci_work : stopping c = false → ∀ k i, live_in (heap c) true k i → ∃ l, array_of c k = Some l ∧ i ∈ l;
  ci_bound : ∀ id limit l, maxLocalWorkersFor (grain_type id) = Some limit →
    array_of c (id_string id) = Some l → (length l ≤ limit)%nat;
  ci_live : ∀ id limit l, maxLocalWorkersFor (grain_type id) = Some limit → NoDup l →
    (∀ i, i ∈ l → live_in (heap c) true (id_string id) i) → (length l ≤ limit)%nat;
  ci_all : stopping c = false → ∀ n t w, tasks c !! n = Some (t, w) → is_all t = false }.

Lemma array_of_Some c k l :
  array_of c k = Some l ↔ ∃ r, workerActivations c !! k = Some r ∧ arrays c !! r = Some l.
Proof.
  unfold array_of. split.
  - intros (r & Hr & Hl)%bind_Some. by exists r.
  - intros (r & Hr & Hl). by rewrite Hr.
Qed.

Lemma state_of_live c i x : heap c !! i = Some x → state_of c i = state (c_act x).
Proof. intros Hx. unfold state_of, act. by rewrite Hx. Qed.

(** *** Tasks *)

Lemma add_task_cinv t w c : (is_all t = true → stopping c = true) → cinv c → cinv (add_task t w c).
Proof.
  intros Ht [H1 H2 H3 H4 H5 H6 H7 H8 H9 H10]. split; try done. simpl.
  intros Hs n t' w' [[_ [= <- <-]]|[_ Hn]]%lookup_insert_Some; [|by eapply H10].
  destruct (is_all t); [by rewrite Ht in Hs|done].
Qed.

Lemma delete_task_cinv n c : cinv c → cinv (set_tasks (delete n (tasks c)) (next_task c) c).
Proof.
  intros [H1 H2 H3 H4 H5 H6 H7 H8 H9 H10]. split; try done. simpl.
  intros Hs m t w [_ Hm]%lookup_delete_Some. by eapply H10.
Qed.

(** *** Steps of activations *)

Lemma live_in_update (h : list Cell) i x a worker k j :
  h !! i = Some x → live_in (<[i := update_cell a x]> h) worker k j → live_in h worker k j.
Proof.
  intros Hx (y & Hy & Hk & Hw & Hi). destruct (decide (i = j)) as [<-|Hne].
  - rewrite list_lookup_insert_eq in Hy by (by eapply lookup_lt_Some). injection Hy as <-.
    simpl in Hi. apply orb_false_iff in Hi as [? _]. by exists x.
  - rewrite list_lookup_insert_ne in Hy by done. by exists y.
Qed.

Lemma lookup_update (h : list Cell) i x a j :
  h !! i = Some x → (∃ y, h !! j = Some y) →
  ∃ y y', h !! j = Some y ∧ <[i := update_cell a x]> h !! j = Some y' ∧ key_of y' = key_of y ∧ c_worker y' = c_worker y.
Proof.
  intros Hx [y Hy]. destruct (decide (i = j)) as [<-|Hne].
  - exists x. eexists. rewrite list_lookup_insert_eq by (by eapply lookup_lt_Some). done.
  - exists y, y. by rewrite list_lookup_insert_ne.
Qed.

Lemma update_cinv i x a c :
  heap c !! i = Some x → cinv c → cinv (set_heap (<[i := update_cell a x]> (heap c)) c).
Proof.
  intros Hx [H1 H2 H3 H4 H5 H6 H7 H8 H9 H10]. split; simpl.
  - intros j y Hy Hs. destruct (decide (i = j)) as [<-|Hne].
    + rewrite list_lookup_insert_eq in Hy by (by eapply lookup_lt_Some). injection Hy as <-.
      simpl in Hs |- *. by rewrite Hs, bool_decide_true, orb_true_r.
    + rewrite list_lookup_insert_ne in Hy by done. by eapply H1.
  - intros k j (y & Hy & Hk & Hw)%H2. destruct (lookup_update _ _ _ a j Hx) as (z & z' & Hz & Hz' & ? & ?); [by exists y|].
    simplify_eq. exists z'. split_and!; congruence.
  - intros Hs k j Hl. by eapply H3, live_in_update.
  - intros k j j' Hj Hj'. eapply H4; by eapply live_in_update.
  - intros k r Hr. destruct (H5 k r Hr) as (l & Hl & Hall). exists l. split; [done|]. intros j Hj.
    destruct (Hall j Hj) as (y & Hy & ? & ?).
    destruct (lookup_update _ _ _ a j Hx) as (z & z' & Hz & Hz' & ? & ?); [by exists y|].
    simplify_eq. exists z'. split_and!; congruence.
  - done.
  - intros Hs k j Hl. by eapply H7, live_in_update.
  - done.
  - intros id limit l Hlim Hnd Hall. eapply H9; [done..|]. intros j Hj. by eapply live_in_update, Hall.
  - done.
Qed.

(** *** Removal *)

Definition dead (c : Catalog) (i : nat) : Prop :=
  ∀ x, heap c !! i = Some x → was_invalid x = true.

Lemma dead_state c i : cinv c → state_of c i = invalid → dead c i.
Proof. intros Hc Hs x Hx. eapply (ci_state _ Hc); [done|]. by rewrite <- (state_of_live _ _ _ Hx). Qed.

Lemma dead_not_live c i worker k : dead c i → ¬ live_in (heap c) worker k i.
Proof. intros Hd (x & Hx & _ & _ & Hi). by rewrite (Hd x Hx) in Hi. Qed.

Lemma remove_cinv key i c :
  activations c !! key = Some i → dead c i → cinv c → cinv (set_activations (delete key (activations c)) c).
Proof.
  intros Ha Hd [H1 H2 H3 H4 H5 H6 H7 H8 H9 H10]. split; simpl; try done.
  - intros k j Hj. apply lookup_delete_Some in Hj as [_ Hj]. by apply H2.
  - intros Hs k j Hl. destruct (decide (k = key)) as [->|Hne].
    + specialize (H3 Hs _ _ Hl). simplify_eq. by destruct (dead_not_live _ _ _ _ Hd Hl).
    + rewrite lookup_delete_ne by done. by apply H3.
Qed.

(** *** Arrays of workers *)

(** [assign_workers] may drop dead workers only. *)
Lemma assign_cinv key l l0 c :
  array_of c key = Some l0 → sublist l l0 → (∀ i, i ∈ l0 → i ∉ l → dead c i) → cinv c →
  cinv (assign_workers key l c).
Proof.
  intros Hl0 Hsub Hdrop [H1 H2 H3 H4 H5 H6 H7 H8 H9 H10].
  apply array_of_Some in Hl0 as (r0 & Hr0 & Hr0l).
  assert (Hin : ∀ i, i ∈ l → i ∈ l0) by (intros; by eapply elem_of_sublist).
  assert (Hkeep : stopping c = false → ∀ i, live_in (heap c) true key i → i ∈ l).
  { intros Hs i Hl. destruct (H7 Hs _ _ Hl) as (l' & Hl' & Hi). apply array_of_Some in Hl' as (r' & ? & ?).
    simplify_eq. destruct (decide (i ∈ l)); [done|]. by destruct (dead_not_live _ _ _ _ (Hdrop i Hi n) Hl). }
  assert (Hne : ∀ k r, workerActivations c !! k = Some r → (r < length (arrays c))%nat).
  { intros k r Hr. destruct (H5 k r Hr) as (l' & Hl' & _). by eapply lookup_lt_Some. }
  unfold assign_workers. destruct l as [|i0 l].
  - split; simpl; try done.
    + intros k r Hr. apply lookup_delete_Some in Hr as [_ Hr]. by apply H5.
    + intros k k' r Hk Hk'. apply lookup_delete_Some in Hk as [_ Hk]. apply lookup_delete_Some in Hk' as [_ Hk'].
      by eapply H6.
    + intros Hs k i Hl. destruct (decide (k = key)) as [->|Hk]; [by apply Hkeep, not_elem_of_nil in Hl|].
      unfold array_of. simpl. rewrite lookup_delete_ne by done. by apply H7.
    + intros id limit l Hlim Hl. unfold array_of in Hl. simpl in Hl.
      destruct (decide (id_string id = key)) as [He|Hk]; [by rewrite He, lookup_delete_eq in Hl|].
      rewrite lookup_delete_ne in Hl by done. by eapply H8.
  - set (l' := i0 :: l) in *. split; simpl; try done.
    + intros k r Hr. destruct (decide (k = key)) as [->|Hk].
      * rewrite lookup_insert_eq in Hr. injection Hr as <-. exists l'.
        rewrite lookup_app_r, Nat.sub_diag by done. split; [done|]. intros i Hi.
        destruct (H5 key r0 Hr0) as (l1 & Hl1 & Hall). simplify_eq. by apply Hall, Hin.
      * rewrite lookup_insert_ne in Hr by done. destruct (H5 k r Hr) as (l1 & Hl1 & Hall).
        exists l1. rewrite lookup_app_l by (by eapply Hne). done.
    + intros k k' r. destruct (decide (k = key)) as [->|Hk], (decide (k' = key)) as [->|Hk'];
        rewrite ?lookup_insert_eq, ?lookup_insert_ne by done; [done| | |by apply H6].
      * intros [= <-] Hr. specialize (Hne _ _ Hr). lia.
      * intros Hr [= <-]. specialize (Hne _ _ Hr). lia.
    + intros Hs k i Hl. destruct (decide (k = key)) as [->|Hk].
      * exists l'. split; [|by apply Hkeep]. unfold array_of. simpl. rewrite lookup_insert_eq. simpl.
        by rewrite lookup_app_r, Nat.sub_diag.
      * destruct (H7 Hs _ _ Hl) as (l1 & Hl1 & Hi). exists l1. split; [|done].
        apply array_of_Some in Hl1 as (r1 & Hr1 & Hl1). unfold array_of. simpl.
        rewrite lookup_insert_ne by done. rewrite Hr1. simpl. by rewrite lookup_app_l by (by eapply Hne).
    + intros id limit l1 Hlim Hl1. unfold array_of in Hl1. simpl in Hl1.
      destruct (decide (id_string id = key)) as [He|Hk].
      * rewrite He, lookup_insert_eq in Hl1. simpl in Hl1. rewrite lookup_app_r, Nat.sub_diag in Hl1 by done.
        injection Hl1 as <-. transitivity (length l0); [by apply sublist_length|].
        eapply H8; [exact Hlim|]. apply array_of_Some. rewrite He. by exists r0.
      * rewrite lookup_insert_ne in Hl1 by done. destruct (workerActivations c !! id_string id) as [r1|] eqn:Hr1; [|done].
        simpl in Hl1. rewrite lookup_app_l in Hl1 by (by eapply Hne).
        eapply H8; [exact Hlim|]. apply array_of_Some. by exists r1.
Qed.

(** Splicing dead workers out of the array of a key, in place. *)
Lemma prune_cinv key r l0 l c :
  workerActivations c !! key = Some r → arrays c !! r = Some l0 → sublist l l0 →
  (∀ i, i ∈ l0 → i ∉ l → dead c i) → cinv c → cinv (set_arrays (<[r := l]> (arrays c)) c).
Proof.
  intros Hr Hr0 Hsub Hdrop [H1 H2 H3 H4 H5 H6 H7 H8 H9 H10].
  assert (Hlt : (r < length (arrays c))%nat) by (by eapply lookup_lt_Some).
  assert (Hin : ∀ i, i ∈ l → i ∈ l0) by (intros; by eapply elem_of_sublist).
  assert (Hother : ∀ k r', workerActivations c !! k = Some r' → k ≠ key → r ≠ r').
  { intros k r' Hk Hne ->. by apply Hne, (H6 k key r'). }
  split; simpl; try done.
  - intros k r' Hk. destruct (decide (k = key)) as [->|Hne].
    + simplify_eq. exists l. rewrite list_lookup_insert_eq by done. split; [done|]. intros i Hi.
      destruct (H5 _ _ Hr) as (l1 & ? & Hall). simplify_eq. by apply Hall, Hin.
    + destruct (H5 _ _ Hk) as (l1 & ? & Hall). exists l1. by rewrite list_lookup_insert_ne by (by eapply Hother).
  - intros Hs k i Hl. destruct (H7 Hs _ _ Hl) as (l1 & Hl1 & Hi). apply array_of_Some in Hl1 as (r1 & Hr1 & Hl1).
    destruct (decide (k = key)) as [->|Hne].
    + simplify_eq. exists l. split; [apply array_of_Some; exists r; simpl; by rewrite list_lookup_insert_eq|].
      destruct (decide (i ∈ l)); [done|]. by destruct (dead_not_live _ _ _ _ (Hdrop i Hi n) Hl).
    + exists l1. split; [|done]. apply array_of_Some. exists r1. simpl.
      by rewrite list_lookup_insert_ne by (by eapply Hother).
  - intros id limit l1 Hlim Hl1. apply array_of_Some in Hl1 as (r1 & Hr1 & Hl1). simpl in Hr1, Hl1.
    destruct (decide (id_string id = key)) as [He|Hne].
    + rewrite He in Hr1. simplify_eq. rewrite list_lookup_insert_eq in Hl1 by done. simplify_eq.
      transitivity (length l0); [by apply sublist_length|]. eapply H8; [exact Hlim|].
      apply array_of_Some. by exists r.
    + rewrite list_lookup_insert_ne in Hl1 by (by eapply Hother).
      eapply H8; [exact Hlim|]. apply array_of_Some. by exists r1.
Qed.

(** Giving a key without workers an empty array. *)
Lemma new_array_cinv key c :
  workerActivations c !! key = None → cinv c →
  cinv (set_workers (<[key := length (arrays c)]> (workerActivations c)) (set_arrays (arrays c ++ [[]]) c)).
Proof.
  intros Hk [H1 H2 H3 H4 H5 H6 H7 H8 H9 H10].
  assert (Hlt : ∀ k r, workerActivations c !! k = Some r → (r < length (arrays c))%nat).
  { intros k r Hr. destruct (H5 k r Hr) as (l' & Hl' & _). by eapply lookup_lt_Some. }
  split; simpl; try done.
  - intros k r [[<- <-]|[Hne Hr]]%lookup_insert_Some.
    + exists []. rewrite lookup_app_r, Nat.sub_diag by done. split; [done|]. by intros i ?%not_elem_of_nil.
    + destruct (H5 k r Hr) as (l & Hl & Hall). exists l. by rewrite lookup_app_l by (by eapply Hlt).
  - intros k k' r [[<- <-]|[Hne Hr]]%lookup_insert_Some [[<- Hr']|[Hne' Hr']]%lookup_insert_Some; [done| | |by eapply H6].
    + specialize (Hlt _ _ Hr'). lia.
    + specialize (Hlt _ _ Hr). lia.
  - intros Hs k i Hl. destruct (H7 Hs _ _ Hl) as (l & Hl' & Hi). exists l. split; [|done].
    apply array_of_Some in Hl' as (r & Hr & Hl'). apply array_of_Some. exists r. simpl.
    rewrite lookup_insert_ne by congruence. by rewrite lookup_app_l by (by eapply Hlt).
  - intros id limit l Hlim (r & Hr & Hl)%array_of_Some. simpl in Hr, Hl.
    apply lookup_insert_Some in Hr as [[_ <-]|[Hne Hr]].
    + rewrite lookup_app_r, Nat.sub_diag in Hl by done. injection Hl as <-. simpl. lia.
    + rewrite lookup_app_l in Hl by (by eapply Hlt). eapply H8; [exact Hlim|]. apply array_of_Some. by exists r.
Qed.

(** *** Creation *)

Lemma live_in_push (h : list Cell) x worker k i :
  live_in (h ++ [x]) worker k i →
  live_in h worker k i ∨ (i = length h ∧ key_of x = k ∧ c_worker x = worker).
Proof.
  intros (y & Hy & ? & ? & ?). apply lookup_snoc_Some in Hy as [[_ Hy]|[-> ->]]; [left; by exists y|by right].
Qed.

Lemma push_lookup (h : list Cell) x i : is_Some (h !! i) → (h ++ [x]) !! i = h !! i.
Proof. intros [y Hy]. rewrite Hy. by apply lookup_app_l_Some. Qed.

Lemma store_cinv x c :
  stopping c = false → (∀ i, ¬ live_in (heap c) false (key_of x) i) → c_worker x = false →
  (state (c_act x) = invalid → was_invalid x = true) → cinv c →
  cinv (set_activations (<[key_of x := length (heap c)]> (activations c)) (set_heap (heap c ++ [x]) c)).
Proof.
  intros Hs Hno Hw Hi [H1 H2 H3 H4 H5 H6 H7 H8 H9 H10]. split; simpl; try done.
  - intros i y [[_ Hy]|[_ ->]]%lookup_snoc_Some; [by eapply H1|done].
  - intros k i [[<- <-]|[Hne Hk]]%lookup_insert_Some.
    + exists x. split_and!; [|done..]. apply lookup_snoc_Some. by right.
    + destruct (H2 k i Hk) as (y & Hy & ? & ?). exists y. by rewrite push_lookup.
  - intros _ k i [Hl|(-> & <- & _)]%live_in_push.
    + rewrite lookup_insert_ne by (intros <-; by eapply Hno). by apply H3.
    + by rewrite lookup_insert_eq.
  - intros k i j [Hl|(-> & <- & _)]%live_in_push [Hl'|(-> & He & _)]%live_in_push; subst; try done.
    + by eapply H4.
    + by destruct (Hno _ Hl).
    + by destruct (Hno _ Hl').
  - intros k r Hr. destruct (H5 k r Hr) as (l & Hl & Hall). exists l. split; [done|]. intros i Hx.
    destruct (Hall i Hx) as (y & Hy & ? & ?). exists y. by rewrite push_lookup.
  - intros _ k i [Hl|(_ & _ & Hw')]%live_in_push; [by apply H7|congruence].
  - intros id limit l Hlim Hnd Hall. eapply H9; [done..|]. intros i Hx.
    destruct (live_in_push _ _ _ _ _ (Hall i Hx)) as [?|(_ & _ & Hw')]; [done|congruence].
Qed.

(** Registered type names hold no slash, so that the string of a grain id, the
    key of both maps, determines the id. *)
Context (Htypes : ∀ type, is_Some (grainTypes opts !! type) → type_free type).

Lemma slash_free_inj t t' k k' :
  type_free t → type_free t' → (t ++ "/" ++ k = t' ++ "/" ++ k')%string → t = t'.
Proof using.
  clear. revert t'. induction t as [|c t IH]; intros [|c' t'] Ht Ht' H; try done.
  - injection H as <- _. by destruct (Ht' "" t')%string.
  - injection H as -> _. by destruct (Ht "" t)%string.
  - injection H as <- H. f_equal. apply IH; [| |done].
    + intros s s' ->. by destruct (Ht (String c s) s').
    + intros s s' ->. by destruct (Ht' (String c s) s').
Qed.

Lemma limit_free type limit : maxLocalWorkersFor type = Some limit → type_free type.
Proof using Htypes. intros (reg & Hreg & _)%bind_Some. by apply Htypes; exists reg. Qed.

Lemma limit_same id id' n n' :
  maxLocalWorkersFor (grain_type id) = Some n → maxLocalWorkersFor (grain_type id') = Some n' →
  id_string id = id_string id' → n = n'.
Proof using Htypes.
  intros Hn Hn' Hs.
  assert (He : grain_type id = grain_type id') by (eapply slash_free_inj; [by eapply limit_free..|exact Hs]).
  rewrite He in Hn. congruence.
Qed.

Lemma worker_cinv id x r l limit c :
  stopping c = false → maxLocalWorkersFor (grain_type id) = Some limit → (length l < limit)%nat →
  workerActivations c !! key_of x = Some r → arrays c !! r = Some l →
  key_of x = id_string id → c_worker x = true →
  (state (c_act x) = invalid → was_invalid x = true) → cinv c →
  cinv (set_arrays (<[r := l ++ [length (heap c)]]> (arrays c)) (set_heap (heap c ++ [x]) c)).
Proof using Htypes.
  intros Hs Hlim Hlt Hr Hl Hid Hw Hi [H1 H2 H3 H4 H5 H6 H7 H8 H9 H10].
  assert (Hrlt : (r < length (arrays c))%nat) by (by eapply lookup_lt_Some).
  assert (Hother : ∀ k r', workerActivations c !! k = Some r' → k ≠ key_of x → r ≠ r').
  { intros k r' Hk Hne ->. by apply Hne, (H6 k (key_of x) r'). }
  assert (Hall : ∀ i, live_in (heap c) true (key_of x) i → i ∈ l).
  { intros i Hx. destruct (H7 Hs _ _ Hx) as (l' & (r' & ? & ?)%array_of_Some & ?). by simplify_eq. }
  split; simpl; try done.
  - intros i y [[_ Hy]|[_ ->]]%lookup_snoc_Some; [by eapply H1|done].
  - intros k i Hk. destruct (H2 k i Hk) as (y & Hy & ? & ?). exists y. by rewrite push_lookup.
  - intros _ k i [Hx|(_ & _ & Hw')]%live_in_push; [by apply H3|congruence].
  - intros k i j [Hx|(_ & _ & Hw')]%live_in_push [Hx'|(_ & _ & Hw'')]%live_in_push; try congruence. by eapply H4.
  - intros k r' Hk. destruct (decide (k = key_of x)) as [->|Hne].
    + simplify_eq. eexists. rewrite list_lookup_insert_eq by done. split; [done|].
      intros i [Hx| ->%list_elem_of_singleton]%elem_of_app.
      * destruct (H5 _ _ Hr) as (l1 & ? & Hall1). simplify_eq. destruct (Hall1 i Hx) as (y & Hy & ? & ?).
        exists y. by rewrite push_lookup.
      * exists x. split_and!; [|done..]. apply lookup_snoc_Some. by right.
    + destruct (H5 _ _ Hk) as (l1 & ? & Hall1). exists l1. rewrite list_lookup_insert_ne by (by eapply Hother).
      split; [done|]. intros i Hx. destruct (Hall1 i Hx) as (y & Hy & ? & ?). exists y. by rewrite push_lookup.
  - intros _ k i Hx. destruct (decide (k = key_of x)) as [->|Hne].
    + eexists. split; [apply array_of_Some; exists r; simpl; by rewrite list_lookup_insert_eq|].
      apply elem_of_app. destruct (live_in_push _ _ _ _ _ Hx) as [?|(-> & _)]; [left; by apply Hall|right; by apply list_elem_of_singleton].
    + destruct (live_in_push _ _ _ _ _ Hx) as [Hx'|(_ & <- & _)]; [|done].
      destruct (H7 Hs _ _ Hx') as (l1 & (r1 & Hr1 & Hl1)%array_of_Some & Hi1). exists l1. split; [|done].
      apply array_of_Some. exists r1. simpl. by rewrite list_lookup_insert_ne by (by eapply Hother).
  - intros id' limit' l1 Hlim' (r1 & Hr1 & Hl1)%array_of_Some. simpl in Hr1, Hl1.
    destruct (decide (id_string id' = key_of x)) as [He|Hne].
    + rewrite He in Hr1. simplify_eq. rewrite list_lookup_insert_eq in Hl1 by done. simplify_eq.
      rewrite length_app. simpl. rewrite (limit_same id' id limit' limit); [lia|done..|congruence].
    + rewrite list_lookup_insert_ne in Hl1 by (by eapply Hother).
      eapply H8; [exact Hlim'|]. apply array_of_Some. by exists r1.
  - intros id' limit' l1 Hlim' Hnd Hall1. destruct (decide (id_string id' = key_of x)) as [He|Hne].
    + rewrite (limit_same id' id limit' limit); [|done..|congruence].
      transitivity (length (l ++ [length (heap c)])); [|rewrite length_app; simpl; lia].
      apply submseteq_length, NoDup_submseteq; [done|]. intros i Hx. apply elem_of_app.
      destruct (live_in_push _ _ _ _ _ (Hall1 i Hx)) as [Hx'|(-> & _)];
        [left; apply Hall; by rewrite <- He|right; by apply list_elem_of_singleton].
    + eapply H9; [done..|]. intros i Hx. by destruct (live_in_push _ _ _ _ _ (Hall1 i Hx)) as [?|(_ & ? & _)].
Qed.

(** *** Operations *)

Lemma handleStuck_cinv i c : dead c i → cinv c → cinv (handleStuckActivation i c).1.
Proof using.
  intros Hd Hc. unfold handleStuckActivation. destruct (heap c !! i) as [x|] eqn:Hx; [|done]. simpl.
  case_decide as Ha; [by eapply remove_cinv|].
  destruct (array_of c (id_string (c_id x))) as [l|] eqn:Hl; [|done].
  eapply assign_cinv; [done|apply sublist_filter| |done].
  intros j Hj Hn. destruct (decide (j = i)) as [->|Hne]; [done|].
  exfalso. apply Hn. by apply list_elem_of_filter.
Qed.

Lemma act_step_cinv i o c : cinv c → cinv (act_step i o c).1.
Proof using.
  intros Hc. unfold act_step. destruct (heap c !! i) as [x|] eqn:Hx; [|done].
  destruct (astep (c_opts x) (c_act x) o) as [a ev] eqn:Ho.
  assert (Hu := update_cinv i x a c Hx Hc). destruct (existsb is_on_stuck ev) eqn:He; [|done].
  apply handleStuck_cinv; [|done]. apply dead_state; [done|]. rewrite (state_of_live _ i (update_cell a x)).
  - pose proof (astep_on_stuck (c_opts x) (c_act x) o) as Hs. rewrite Ho in Hs. by apply Hs.
  - apply list_lookup_insert_eq. by eapply lookup_lt_Some.
Qed.

Lemma run_hook_cinv i r c : cinv c → cinv (run_hook i r c).1.1.
Proof using.
  intros Hc. unfold run_hook. destruct (act c i) as [a|]; [|done]. cbv zeta.
  pose proof (act_step_cinv i (RunDeactivateHook r) c Hc). by destruct (act_step _ _ _).
Qed.

Lemma finalize_cinv i c : cinv c → cinv (finalize i c).
Proof using. apply act_step_cinv. Qed.

Lemma create_spec id a w c c' i :
  create id a w c = Some (c', i) →
  ∃ x, c' = set_heap (heap c ++ [x]) c ∧ i = length (heap c) ∧ c_id x = id ∧ c_worker x = w ∧
       (state (c_act x) = invalid → was_invalid x = true).
Proof using.
  unfold create. destruct (grainTypes opts !! grain_type id) as [reg|]; [|done]. intros [= <- <-].
  eexists. split_and!; [done..|]. simpl. intros ->. done.
Qed.

Lemma createAndStore_cinv id a c :
  (∀ i, activations c !! id_string id = Some i → dead c i) → cinv c → cinv (createAndStore id a c).1.
Proof using.
  intros Hd Hc. unfold createAndStore. destruct (stopping c) eqn:Hs; [done|].
  destruct (create id a false c) as [[c' i]|] eqn:Hcr; [|done].
  apply create_spec in Hcr as (x & -> & -> & <- & Hw & Hi). simpl.
  apply (store_cinv x); try done. intros i Hl. by eapply dead_not_live, Hl; apply Hd, (ci_reg _ Hc Hs).
Qed.

Lemma after_stale_cinv caller c : cinv c → cinv (after_stale caller c).1.
Proof using.
  intros Hc. unfold after_stale. destruct (creates caller); [|done]. cbv zeta.
  assert (Hcr : (∀ i, activations c !! id_string (for_id caller) = Some i → dead c i) →
    cinv (let '(c0, r) := createAndStore (for_id caller) (with_activationId caller) c in
      (c0, [EAnswer caller r])).1).
  { intros Hd. pose proof (createAndStore_cinv _ (with_activationId caller) c Hd Hc).
    by destruct (createAndStore _ _ _). }
  destruct (activations c !! _) as [j|] eqn:Hj; [|by apply Hcr].
  case_bool_decide; [|done]. apply Hcr. intros i [= <-]. by apply dead_state.
Qed.

Lemma lookup_or_cinv caller c : cinv c → cinv (lookup_or caller c).1.
Proof using.
  intros Hc. unfold lookup_or. cbv zeta.
  assert (Hcr : (∀ i, activations c !! id_string (for_id caller) = Some i → dead c i) →
    cinv (if creates caller then let '(c0, r) := createAndStore (for_id caller) (with_activationId caller) c in
      (c0, [EAnswer caller r]) else (c, [EAnswer caller Nothing])).1).
  { intros Hd. destruct (creates caller); [|done].
    pose proof (createAndStore_cinv _ (with_activationId caller) c Hd Hc). by destruct (createAndStore _ _ _). }
  destruct (activations c !! _) as [j|] eqn:Hj; [|by apply Hcr].
  case_bool_decide; [apply Hcr; intros i [= <-]; by apply dead_state|].
  destruct (match act c j with Some a => _ | None => _ end); [|done].
  set (r := reason_of _ _ _). pose proof (run_hook_cinv j r c Hc).
  destruct (run_hook j r c) as [[c' w] ev]. by apply add_task_cinv.
Qed.

Lemma finalize_dead i c : dead (finalize i c) i.
Proof using.
  intros x. unfold finalize, act_step. destruct (heap c !! i) as [y|] eqn:Hy; simpl; [|by rewrite Hy].
  rewrite list_lookup_insert_eq by (by eapply lookup_lt_Some). intros [= <-]. simpl.
  by rewrite orb_true_r.
Qed.

Lemma stale_continues_cinv i caller c : cinv c → cinv (stale_continues i caller c).1.
Proof using.
  intros Hc. unfold stale_continues. pose proof (finalize_cinv i c Hc) as Hf. cbv zeta.
  case_decide as Ha; [|by apply after_stale_cinv].
  pose proof (remove_cinv _ _ _ Ha (finalize_dead i c) Hf) as Hr.
  pose proof (after_stale_cinv caller _ Hr). by destruct (after_stale caller _).
Qed.

Lemma collected_cinv i c : cinv c → cinv (collected i c).1.
Proof using.
  intros Hc. unfold collected. case_bool_decide; [|done]. destruct (heap c !! i) as [x|]; [|done]. simpl.
  case_decide; [|done]. eapply remove_cinv; [done|by apply dead_state|done].
Qed.

Lemma workers_collected_cinv key c : cinv c → cinv (workers_collected key c).1.
Proof using.
  intros Hc. unfold workers_collected. cbv zeta. simpl.
  destruct (array_of c key) as [l|] eqn:Hl.
  - eapply assign_cinv; [done|apply sublist_filter| |done]. intros i Hi Hn. apply dead_state; [done|].
    destruct (decide (state_of c i = invalid)); [done|]. exfalso. apply Hn. by apply list_elem_of_filter.
  - cbn [default]. rewrite filter_nil. unfold assign_workers.
    enough (delete key (workerActivations c) = workerActivations c) as -> by (by destruct c).
    apply delete_id. destruct (workerActivations c !! key) as [r|] eqn:Hr; [|done].
    destruct (ci_arr _ Hc _ _ Hr) as (l & Hl' & _). unfold array_of in Hl. rewrite Hr in Hl. simpl in Hl. congruence.
Qed.

Lemma collectOne_cinv i sweep c r : collectOne i sweep c = Some r → cinv c → cinv r.1.
Proof using.
  unfold collectOne. destruct (heap c !! i) as [x|]; [|done]. destruct (isStale _ _ _); [|done]. cbv zeta.
  intros Hr Hc.
  match type of Hr with context [run_hook i ?d c] => pose proof (run_hook_cinv i d c Hc) as Hh;
    destruct (run_hook i d c) as [[c' w] ev] end.
  injection Hr as <-. by apply add_task_cinv.
Qed.

Lemma visit_ordinary_cinv age i c : cinv c → cinv (visit_ordinary age i c).1.
Proof using.
  intros Hc. unfold visit_ordinary. destruct (collectOne _ _ _) as [r|] eqn:Hr; [by eapply collectOne_cinv|].
  by apply collected_cinv.
Qed.

Lemma visit_workers_cinv n age key r index c : cinv c → cinv (visit_workers n age key r index c).1.
Proof using.
  intros Hc. revert index. induction n as [|n IH]; intros index; simpl; [by apply workers_collected_cinv|].
  destruct (arrays c !! r ≫= _) as [i|]; [|by apply workers_collected_cinv].
  destruct (collectOne _ _ _) as [res|] eqn:Hr; [by eapply collectOne_cinv|apply IH].
Qed.

Lemma collect_ends_cinv i sweep c : cinv c → cinv (collect_ends i sweep c).1.
Proof using.
  intros Hc. unfold collect_ends. pose proof (finalize_cinv i c Hc). cbv zeta.
  destruct (position sweep); [by apply collected_cinv|by apply visit_workers_cinv].
Qed.

Lemma collect_continues_cinv i m sweep c : cinv c → cinv (collect_continues i m sweep c).1.
Proof using.
  intros Hc. unfold collect_continues. cbv zeta. destruct (m || _); [by apply add_task_cinv|by apply collect_ends_cinv].
Qed.

Lemma pruned_cinv key c c' r l :
  pruned_workers key c = (c', r, l) → cinv c →
  cinv c' ∧ heap c' = heap c ∧ stopping c' = stopping c ∧
  workerActivations c' !! key = Some r ∧ arrays c' !! r = Some l.
Proof using.
  unfold pruned_workers. destruct (workerActivations c !! key) as [r0|] eqn:Hr; intros [= <- <- <-] Hc; simpl.
  - destruct (ci_arr _ Hc _ _ Hr) as (l0 & Hl0 & _). rewrite Hl0. simpl. split_and!; try done.
    + eapply prune_cinv; [done..|apply sublist_filter| |done]. intros i Hi Hn. apply dead_state; [done|].
      destruct (decide (state_of c i = invalid)); [done|]. exfalso. apply Hn. by apply list_elem_of_filter.
    + apply list_lookup_insert_eq. by eapply lookup_lt_Some.
  - split_and!; [by apply new_array_cinv|done|done|by rewrite lookup_insert_eq|].
    by rewrite lookup_app_r, Nat.sub_diag.
Qed.

Lemma pickOrScaleWorker_cinv id c : cinv c → cinv (pickOrScaleWorker id c).1.
Proof using Htypes.
  intros Hc. unfold pickOrScaleWorker. destruct (maxLocalWorkersFor (grain_type id)) as [limit|] eqn:Hlim; [|done].
  destruct (pruned_workers (id_string id) c) as [[c' r] l] eqn:Hp.
  destruct (pruned_cinv _ _ _ _ _ Hp Hc) as (Hc' & _ & _ & Hr & Hl).
  destruct (filter _ l); [|done]. case_bool_decide as Hlt; [|by destruct l].
  destruct (stopping c') eqn:Hs; [done|].
  destruct (create id None true c') as [[c'' i]|] eqn:Hcr; [|done].
  apply create_spec in Hcr as (x & -> & -> & <- & Hw & Hi). simpl. by eapply worker_cinv.
Qed.

Lemma deactivate_cinv i r c : cinv c → cinv (deactivate i r c).1.
Proof using.
  intros Hc. unfold deactivate. pose proof (run_hook_cinv i r c Hc).
  destruct (run_hook i r c) as [[c' w] ev]. by apply add_task_cinv.
Qed.

Lemma stopping_cinv c : cinv c → cinv (set_stopping true c).
Proof using. intros [H1 H2 H3 H4 H5 H6 H7 H8 H9 H10]. by split. Qed.


Lemma act_step_stopping i o c : stopping (act_step i o c).1 = stopping c.
Proof using.
  unfold act_step. destruct (heap c !! i) as [x|]; [|done]. destruct (astep _ _ _) as [a ev].
  destruct (existsb _ ev); [|done]. unfold handleStuckActivation. simpl.
  destruct (_ !! i); [|done]. simpl. case_decide; [done|]. destruct (array_of _ _) as [l|]; [|done].
  by destruct (filter _ l).
Qed.

Lemma deactivate_stopping i r c : stopping (deactivate i r c).1 = stopping c.
Proof using.
  unfold deactivate, run_hook. destruct (act c i); [|done]. cbv zeta.
  pose proof (act_step_stopping i (RunDeactivateHook r) c). by destruct (act_step _ _ _).
Qed.

Lemma deactivate_each_cinv l r c :
  cinv c → cinv (deactivate_each l r c).1 ∧ stopping (deactivate_each l r c).1 = stopping c.
Proof using.
  revert c. induction l as [|i l IH]; intros c Hc; simpl; [done|].
  pose proof (deactivate_cinv i r c Hc) as Hd. pose proof (deactivate_stopping i r c) as Hs.
  destruct (deactivate i r c) as [c1 ev1]. destruct (IH c1 Hd) as [H1 H2].
  destruct (deactivate_each l r c1) as [c2 ev2]. simpl in *. split; [done|congruence].
Qed.

Lemma deactivateAll_cinv r d c : cinv c → cinv (deactivateAll r d c).1.
Proof using.
  intros Hc. unfold deactivateAll. cbv zeta.
  destruct (deactivate_each_cinv (all_activations (set_stopping true c)) r _ (stopping_cinv c Hc)) as [H1 H2].
  destruct (deactivate_each _ r _) as [c' ev]. by apply add_task_cinv.
Qed.

Lemma all_ends_cinv all c : stopping c = true → cinv c → cinv (all_ends all c).1.
Proof using.
  intros Hs [H1 H2 H3 H4 H5 H6 H7 H8 H9 H10]. unfold all_ends. simpl. split; simpl; try done; congruence.
Qed.

Lemma elapse_cinv ms c : cinv c → cinv (cstep c (ElapseAll ms)).1.
Proof using.
  intros [H1 H2 H3 H4 H5 H6 H7 H8 H9 H10]. simpl.
  set (f := λ x : Cell, update_cell (set_now (now (c_act x) + Z.of_nat ms) (c_act x)) x).
  assert (Hlive : ∀ w k i, live_in (f <$> heap c) w k i → live_in (heap c) w k i).
  { intros w k i (y & (x & -> & Hx)%list_lookup_fmap_Some & ? & ? & Hi). exists x. split_and!; try done.
    simpl in Hi. by apply orb_false_iff in Hi as [? _]. }
  assert (Hsome : ∀ i x, heap c !! i = Some x → ∃ y, (f <$> heap c) !! i = Some y ∧ key_of y = key_of x ∧ c_worker y = c_worker x).
  { intros i x Hx. exists (f x). by rewrite list_lookup_fmap, Hx. }
  split; simpl; try done.
  - intros i y (x & -> & Hx)%list_lookup_fmap_Some Hi. simpl in *. by rewrite Hi, orb_true_r.
  - intros k i Hk. destruct (H2 k i Hk) as (x & Hx & <- & <-). by destruct (Hsome i x Hx) as (y & ? & ? & ?); exists y.
  - intros Hs k i Hl. by apply H3, Hlive.
  - intros k i j Hi Hj. by eapply H4; apply Hlive.
  - intros k r Hr. destruct (H5 k r Hr) as (l & Hl & Hall). exists l. split; [done|]. intros i Hi.
    destruct (Hall i Hi) as (x & Hx & <- & <-). by destruct (Hsome i x Hx) as (y & ? & ? & ?); exists y.
  - intros Hs k i Hl. by apply H7, Hlive.
  - intros id limit l Hlim Hnd Hall. eapply H9; [done..|]. intros i Hi. by apply Hlive, Hall.
Qed.

Lemma task_continues_cinv t w c r :
  (stopping c = false → is_all t = false) → task_continues t w c = Some r → cinv c → cinv r.1.
Proof using.
  intros Ha Hr Hc. destruct t as [i caller|i m sweep|i sweep|i|all d]; simpl in Hr;
    repeat case_match; simplify_eq; simpl in *.
  - by apply stale_continues_cinv.
  - by apply collect_continues_cinv.
  - by apply collect_ends_cinv.
  - by apply finalize_cinv.
  - apply (all_ends_cinv all c); [|done]. by destruct (stopping c); [|specialize (Ha eq_refl)].
Qed.

Lemma cstep_cinv c o : cinv c → cinv (cstep c o).1.
Proof using Htypes.
  intros Hc. destruct o as [id a|id|id|key age|key age|i r|r d|n|i o|ms]; [..|by apply elapse_cinv]; simpl.
  - by apply lookup_or_cinv.
  - by apply lookup_or_cinv.
  - pose proof (pickOrScaleWorker_cinv id c Hc). by destruct (pickOrScaleWorker id c).
  - destruct (_ !! key); [by apply visit_ordinary_cinv|done].
  - destruct (_ !! key); [by apply visit_workers_cinv|done].
  - by apply deactivate_cinv.
  - by apply deactivateAll_cinv.
  - destruct (tasks c !! n) as [[t w]|] eqn:Ht; [|done].
    destruct (task_continues t w _) as [r|] eqn:Hr; [|done].
    eapply task_continues_cinv; [|done|by apply delete_task_cinv]. intros Hs. by eapply (ci_all _ Hc).
  - destruct (own_step o); [by apply act_step_cinv|done].
Qed.

(** The catalog after a sequence of operations. *)
Fixpoint crun (c : Catalog) (l : list COp) : Catalog :=
  match l with [] => c | o :: l' => crun (cstep c o).1 l' end.

Lemma empty_cinv t : cinv (empty_catalog t).
Proof using.
  assert (Hno : ∀ w k i, ¬ live_in [] w k i) by (by intros w k i (x & Hx & _)).
  split; simpl; try done; try (intros; exfalso; by eapply Hno).
  intros id limit [|i l] _ _ Hall; [simpl; lia|]. destruct (Hno _ _ _ (Hall i ltac:(by left))).
Qed.

Lemma crun_cinv l c : cinv c → cinv (crun c l).
Proof using Htypes. revert c. induction l as [|o l IH]; intros c Hc; [done|]. by apply IH, cstep_cinv. Qed.

(** ** A draining silo *)

(** Once stopping, a catalog stays so, makes no cell and registers nothing. *)
Definition kept (c c' : Catalog) : Prop :=
  stopping c = true →
  stopping c' = true ∧ length (heap c') = length (heap c) ∧ activations c' ⊆ activations c.

#[local] Instance kept_preorder : PreOrder kept.
Proof using.
  split; [by intros c Hs|]. intros c c' c'' H1 H2 Hs. destruct (H1 Hs) as (Hs' & Hl & Ha).
  destruct (H2 Hs') as (Hs'' & Hl' & Ha'). split_and!; [done|congruence|by etrans].
Qed.

(** Events without an answer to a lookup, and answers that hand out what is
    registered. *)
Definition quiet (ev : list CEvent) : Prop :=
  Forall (λ e, match e with EAnswer _ _ => False | _ => True end) ev.
Definition registered_answers (c : Catalog) (ev : list CEvent) : Prop :=
  ∀ caller i, EAnswer caller (Handed i) ∈ ev → activations c !! id_string (for_id caller) = Some i.

Lemma quiet_registered c ev : quiet ev → registered_answers c ev.
Proof using. intros Hq caller i Hin. unfold quiet in Hq. rewrite Forall_forall in Hq. by apply Hq in Hin. Qed.

(** What every operation does: [step_ok c r] for its result [r]. *)
Definition step_ok (c : Catalog) (r : Catalog * list CEvent) : Prop :=
  kept c r.1 ∧ registered_answers r.1 r.2.
Definition quiet_ok (c : Catalog) (r : Catalog * list CEvent) : Prop := kept c r.1 ∧ quiet r.2.

Lemma quiet_step_ok c r : quiet_ok c r → step_ok c r.
Proof using. intros [Hk Hq]. split; [done|by apply quiet_registered]. Qed.

Lemma quiet_refl c : quiet_ok c (c, []).
Proof using. split; [by intros ?|constructor]. Qed.

Lemma kept_ext c c' :
  stopping c' = stopping c → length (heap c') = length (heap c) → activations c' ⊆ activations c → kept c c'.
Proof using. intros Hs Hl Ha ?. split_and!; [congruence|done..]. Qed.

Lemma assign_workers_kept key l c : kept c (assign_workers key l c).
Proof using. by destruct l; apply kept_ext. Qed.

Lemma handleStuck_quiet i c : quiet_ok c (handleStuckActivation i c).
Proof using.
  unfold handleStuckActivation. destruct (heap c !! i); [|apply quiet_refl].
  split; [|by repeat constructor]. simpl. case_decide; [apply kept_ext; try done; apply delete_subseteq|].
  destruct (array_of _ _); [apply assign_workers_kept|reflexivity].
Qed.

Lemma act_step_quiet i o c : quiet_ok c (act_step i o c).
Proof using.
  unfold act_step. destruct (heap c !! i); [|apply quiet_refl]. destruct (astep _ _ _) as [a ev].
  assert (Hk : kept c (set_heap (<[i := update_cell a c0]> (heap c)) c)).
  { apply kept_ext; try done. apply length_insert. }
  destruct (existsb _ ev); [|by split; [|constructor]].
  destruct (handleStuck_quiet i (set_heap (<[i := update_cell a c0]> (heap c)) c)) as [H1 H2].
  split; [by etrans|done].
Qed.

Lemma run_hook_quiet i r c : quiet_ok c ((run_hook i r c).1.1, (run_hook i r c).2).
Proof using.
  unfold run_hook. destruct (act c i); [|apply quiet_refl]. cbv zeta.
  pose proof (act_step_quiet i (RunDeactivateHook r) c). by destruct (act_step _ _ _).
Qed.

Lemma add_task_kept t w c : kept c (add_task t w c).
Proof using. by apply kept_ext. Qed.

Lemma hook_task_quiet i r t c :
  quiet_ok c (let '(c', w, ev) := run_hook i r c in (add_task t w c', ev)).
Proof using.
  destruct (run_hook_quiet i r c) as [H1 H2]. destruct (run_hook i r c) as [[c' w] ev].
  split; [|done]. simpl in *. etrans; [done|apply add_task_kept].
Qed.

Lemma createAndStore_ok caller c :
  step_ok c (let '(c', r) := createAndStore (for_id caller) (with_activationId caller) c in (c', [EAnswer caller r])).
Proof using.
  unfold createAndStore. destruct (stopping c) eqn:Hs.
  - split; [done|]. by intros ? ? [[= -> ]|?%not_elem_of_nil]%elem_of_cons.
  - split; [intros ?; congruence|].
    destruct (create _ _ false c) as [[c' i]|]; intros caller' j [Heq|Hin]%elem_of_cons;
      simplify_eq; try by apply not_elem_of_nil in Hin.
    simpl. by rewrite lookup_insert_eq.
Qed.

Lemma nothing_ok c caller r : (∀ i, r = Handed i → activations c !! id_string (for_id caller) = Some i) →
  step_ok c (c, [EAnswer caller r]).
Proof using.
  intros Hr. split; [reflexivity|]. intros caller' i [[= -> <-]|?%not_elem_of_nil]%elem_of_cons; [by apply Hr|done].
Qed.

Lemma step_ok_trans c c' r : kept c c' → step_ok c' r → step_ok c r.
Proof using. intros Hk [H1 H2]. split; [by etrans|done]. Qed.

Lemma after_stale_ok caller c : step_ok c (after_stale caller c).
Proof using.
  unfold after_stale. destruct (creates caller); [|by apply nothing_ok]. cbv zeta.
  destruct (activations c !! _) as [j|] eqn:Hj; [|apply createAndStore_ok].
  case_bool_decide; [apply createAndStore_ok|]. apply nothing_ok. by intros i [= <-].
Qed.

Lemma lookup_or_ok caller c : step_ok c (lookup_or caller c).
Proof using.
  unfold lookup_or. cbv zeta.
  assert (Hcr : step_ok c (if creates caller then
      let '(c0, r) := createAndStore (for_id caller) (with_activationId caller) c in
      (c0, [EAnswer caller r]) else (c, [EAnswer caller Nothing]))).
  { destruct (creates caller); [apply createAndStore_ok|by apply nothing_ok]. }
  destruct (activations c !! _) as [j|] eqn:Hj; [|done]. case_bool_decide; [done|].
  destruct (match act c j with Some a => _ | None => _ end); [|apply nothing_ok; by intros i [= <-]].
  apply quiet_step_ok, (hook_task_quiet j _ (StaleTask j caller)).
Qed.

Lemma finalize_kept i c : kept c (finalize i c).
Proof using. apply (act_step_quiet i FinalizeDeactivation c). Qed.

Lemma stale_continues_ok i caller c : step_ok c (stale_continues i caller c).
Proof using.
  unfold stale_continues. pose proof (finalize_kept i c) as Hf. cbv zeta.
  case_decide; [|eapply step_ok_trans; [done|apply after_stale_ok]].
  set (c1 := set_activations _ _).
  assert (H1 : kept c c1) by (etrans; [done|]; apply kept_ext; try done; apply delete_subseteq).
  destruct (after_stale_ok caller c1) as [H2 H3]. destruct (after_stale caller c1) as [c2 ev].
  split; [by etrans|]. intros caller' j [?|Hin]%elem_of_cons; [done|by apply H3].
Qed.

Lemma collected_quiet i c : quiet_ok c (collected i c).
Proof using.
  unfold collected. case_bool_decide; [|apply quiet_refl]. destruct (heap c !! i); [|apply quiet_refl].
  split; simpl; [|destruct (stuck_of c i); repeat constructor].
  case_decide; [apply kept_ext; try done; apply delete_subseteq|reflexivity].
Qed.

Lemma workers_collected_quiet key c : quiet_ok c (workers_collected key c).
Proof using. split; simpl; [apply assign_workers_kept|]. by apply Forall_fmap, Forall_true. Qed.

Lemma collectOne_quiet i sweep c r : collectOne i sweep c = Some r → quiet_ok c r.
Proof using.
  unfold collectOne. destruct (heap c !! i); [|done]. destruct (isStale _ _ _); [|done]. cbv zeta.
  intros Hr.
  match type of Hr with context [run_hook i ?d c] =>
    match type of Hr with context [CollectTask i ?m sweep] =>
      pose proof (hook_task_quiet i d (CollectTask i m sweep) c) as Hq end;
    destruct (run_hook i d c) as [[c' w] ev] end.
  by injection Hr as <-.
Qed.

Lemma visit_workers_quiet n age key r index c : quiet_ok c (visit_workers n age key r index c).
Proof using.
  revert index. induction n as [|n IH]; intros index; simpl; [by apply workers_collected_quiet|].
  destruct (arrays c !! r ≫= _) as [i|]; [|by apply workers_collected_quiet].
  destruct (collectOne _ _ _) as [res|] eqn:Hr; [by eapply collectOne_quiet|apply IH].
Qed.

Lemma visit_ordinary_quiet age i c : quiet_ok c (visit_ordinary age i c).
Proof using.
  unfold visit_ordinary. destruct (collectOne _ _ _) as [r|] eqn:Hr; [by eapply collectOne_quiet|apply collected_quiet].
Qed.

Lemma quiet_ok_trans c c' r : kept c c' → quiet_ok c' r → quiet_ok c r.
Proof using. intros Hk [H1 H2]. split; [by etrans|done]. Qed.

Lemma collect_ends_quiet i sweep c : quiet_ok c (collect_ends i sweep c).
Proof using.
  unfold collect_ends. cbv zeta. eapply quiet_ok_trans; [apply (finalize_kept i)|].
  destruct (position sweep); [apply collected_quiet|apply visit_workers_quiet].
Qed.

Lemma task_continues_ok t w c r : task_continues t w c = Some r → step_ok c r.
Proof using.
  destruct t as [i caller|i m sweep|i sweep|i|all d]; simpl;
    [destruct (hook_over c i w)|destruct (hook_over c i w)| |destruct (hook_over c i w)|destruct (all_over all d c)];
    try done; intros [= <-].
  - apply stale_continues_ok.
  - apply quiet_step_ok. unfold collect_continues. cbv zeta. destruct (m || _); [|apply collect_ends_quiet].
    split; [apply add_task_kept|by repeat constructor].
  - apply quiet_step_ok, collect_ends_quiet.
  - split; [apply finalize_kept|]. by intros ? ? ?%not_elem_of_nil.
  - apply quiet_step_ok. split; simpl.
    + apply kept_ext; try done. apply map_empty_subseteq.
    + apply Forall_forall. intros e (j & _ & Hj)%list_elem_of_omap. by repeat case_match; simplify_eq.
Qed.

Lemma pruned_kept key c c' r l : pruned_workers key c = (c', r, l) → kept c c' ∧ heap c' = heap c ∧ stopping c' = stopping c.
Proof using. unfold pruned_workers. destruct (_ !! key); intros [= <- _ _]; split_and!; try done; by apply kept_ext. Qed.

Lemma pickOrScaleWorker_kept id c : kept c (pickOrScaleWorker id c).1.
Proof using.
  unfold pickOrScaleWorker. destruct (maxLocalWorkersFor _); [|reflexivity].
  destruct (pruned_workers _ c) as [[c' r] l] eqn:Hp. apply pruned_kept in Hp as (Hk & _ & Hs).
  destruct (filter _ l); [|done]. case_bool_decide; [|by destruct l].
  destruct (stopping c') eqn:Hs'; [done|]. intros ?. congruence.
Qed.

Lemma deactivate_each_quiet l r c : quiet_ok c (deactivate_each l r c).
Proof using.
  revert c. induction l as [|i l IH]; intros c; simpl; [apply quiet_refl|].
  destruct (hook_task_quiet i r (FinalizeTask i) c) as [H1 H2].
  change (run_hook i r c) with (run_hook i r c) in *. fold (deactivate i r c) in H1, H2.
  destruct (deactivate i r c) as [c1 ev1]. destruct (IH c1) as [H3 H4].
  destruct (deactivate_each l r c1) as [c2 ev2]. split; [by etrans|by apply Forall_app].
Qed.

Lemma deactivateAll_quiet r d c : quiet_ok c (deactivateAll r d c).
Proof using.
  unfold deactivateAll. cbv zeta.
  destruct (deactivate_each_quiet (all_activations (set_stopping true c)) r (set_stopping true c)) as [H1 H2].
  destruct (deactivate_each _ r _) as [c' ev]. split; [|done]. simpl in *.
  etrans; [|apply add_task_kept]. etrans; [|done]. by intros ?.
Qed.

Lemma cstep_ok c o : step_ok c (cstep c o).
Proof using.
  destruct o as [id a|id|id|key age|key age|i r|r d|n|i o|ms]; simpl.
  - apply lookup_or_ok.
  - apply lookup_or_ok.
  - pose proof (pickOrScaleWorker_kept id c). destruct (pickOrScaleWorker id c). split; [done|].
    intros ? ? [?| ?%not_elem_of_nil]%elem_of_cons; done.
  - apply quiet_step_ok. destruct (_ !! key); [apply visit_ordinary_quiet|apply quiet_refl].
  - apply quiet_step_ok. destruct (_ !! key); [apply visit_workers_quiet|apply quiet_refl].
  - apply quiet_step_ok, (hook_task_quiet i r (FinalizeTask i)).
  - apply quiet_step_ok, deactivateAll_quiet.
  - destruct (tasks c !! n) as [[t w]|]; [|apply quiet_step_ok, quiet_refl].
    destruct (task_continues t w _) as [r|] eqn:Hr; [|apply quiet_step_ok, quiet_refl].
    apply task_continues_ok in Hr. eapply step_ok_trans; [|done]. by apply kept_ext.
  - apply quiet_step_ok. destruct (own_step o); [apply act_step_quiet|apply quiet_refl].
  - apply quiet_step_ok. split; [|constructor]. apply kept_ext; try done. simpl. apply length_fmap.
Qed.

Lemma crun_kept l c : kept c (crun c l).
Proof using.
  revert c. induction l as [|o l IH]; intros c; [reflexivity|]. etrans; [apply (cstep_ok c o)|apply IH].
Qed.

(** Activations that serve no call any more. *)
Definition ending (c : Catalog) (i : nat) : Prop := state_of c i = deactivating ∨ state_of c i = invalid.

Lemma handleStuck_heap i c : heap (handleStuckActivation i c).1 = heap c.
Proof using.
  unfold handleStuckActivation. destruct (heap c !! i); [|done]. simpl. case_decide; [done|].
  destruct (array_of _ _) as [l|]; [|done]. by destruct (filter _ l).
Qed.

Lemma act_step_heap i o c x :
  heap c !! i = Some x →
  heap (act_step i o c).1 = <[i := update_cell (astep (c_opts x) (c_act x) o).1 x]> (heap c).
Proof using.
  intros Hx. unfold act_step. rewrite Hx. destruct (astep _ _ _) as [a ev].
  destruct (existsb _ ev); [by rewrite handleStuck_heap|done].
Qed.

Lemma hook_ending i j r c :
  i = j ∨ ending c j → ending (act_step i (RunDeactivateHook r) c).1 j.
Proof using.
  unfold ending, state_of, act. destruct (heap c !! i) as [x|] eqn:Hx.
  - rewrite (act_step_heap _ _ _ _ Hx). destruct (decide (i = j)) as [<-|Hne].
    + intros _. rewrite list_lookup_insert_eq by (by eapply lookup_lt_Some). simpl. apply hook_leaves.
    + intros [?|H]; [done|]. by rewrite list_lookup_insert_ne.
  - unfold act_step. rewrite Hx. simpl. intros [<-|H]; [|done]. rewrite Hx. by right.
Qed.

Lemma deactivate_ending i j r c : i = j ∨ ending c j → ending (deactivate i r c).1 j.
Proof using.
  intros H. unfold deactivate, run_hook. destruct (act c i) as [a|] eqn:Ha.
  - cbv zeta. pose proof (hook_ending i j r c H) as He. by destruct (act_step _ _ _).
  - destruct H as [<-|H]; [|done]. right. unfold state_of. simpl. unfold act in *. simpl. by rewrite Ha.
Qed.

Lemma deactivate_each_ending l r c j : j ∈ l ∨ ending c j → ending (deactivate_each l r c).1 j.
Proof using.
  revert c. induction l as [|i l IH]; intros c H; simpl; [by destruct H as [?%not_elem_of_nil|]|].
  pose proof (deactivate_ending i j r c) as Hd. destruct (deactivate i r c) as [c1 ev1].
  specialize (IH c1). destruct (deactivate_each l r c1) as [c2 ev2]. apply IH.
  destruct H as [[-> |Hin]%elem_of_cons|He]; [right; apply Hd; by left|by left|right; apply Hd; by right].
Qed.

(** ** The theorems *)

(** C13: However lookups, steps of activations, collection, deactivations and
    shutdown interleave, at most one of the ordinary activations of a grain id
    has never been invalid; unless the silo is stopping, it is the one
    registered under the id. *)
Theorem single_activation t ops i j x y :
  let c := crun (empty_catalog t) ops in
  heap c !! i = Some x → heap c !! j = Some y → id_string (c_id x) = id_string (c_id y) →
  c_worker x = false → c_worker y = false → was_invalid x = false → was_invalid y = false →
  i = j ∧ (stopping c = false → activations c !! id_string (c_id x) = Some i).
Proof using Htypes.
  intros c Hx Hy Hid Hwx Hwy Hix Hiy. pose proof (crun_cinv ops _ (empty_cinv t)) as Hc. fold c in Hc.
  assert (Hl : live_in (heap c) false (id_string (c_id x)) i) by (by exists x).
  split; [|intros Hs; by apply (ci_reg _ Hc)].
  apply (ci_unique _ Hc (id_string (c_id x)) i j Hl). exists y. by rewrite Hid.
Qed.

(** The workers of an id that have never been invalid. *)
Definition worker_alive (id : GrainId) (c : Catalog) (i : nat) : bool :=
  match heap c !! i with
  | Some x => bool_decide (c_id x = id) && c_worker x && negb (was_invalid x)
  | None => false
  end.
Definition workers_alive (id : GrainId) (c : Catalog) : list nat :=
  filter (λ i, worker_alive id c i = true) (seq 0 (length (heap c))).

(** At every reachable state a stateless worker type has at most
    [maxLocalWorkers] workers of an id that have never been invalid, and never
    more in the array of the id. *)
Theorem worker_ceiling t ops id limit :
  let c := crun (empty_catalog t) ops in
  maxLocalWorkersFor (grain_type id) = Some limit →
  (length (workers_alive id c) ≤ limit)%nat ∧
  ∀ l, array_of c (id_string id) = Some l → (length l ≤ limit)%nat.
Proof using Htypes.
  intros c Hlim. pose proof (crun_cinv ops _ (empty_cinv t)) as Hc. fold c in Hc.
  split; [|intros l; by apply (ci_bound _ Hc)].
  apply (ci_live _ Hc id); [done|apply NoDup_filter, NoDup_seq|].
  intros i [Hi _]%list_elem_of_filter. unfold worker_alive in Hi.
  destruct (heap c !! i) as [x|] eqn:Hx; [|done]. exists x.
  apply andb_true_iff in Hi as [[Hi%bool_decide_eq_true Hw]%andb_true_iff Hn%negb_true_iff].
  split_and!; [done|by subst id|done|done].
Qed.

(** *** The choice of a worker *)

Lemma least_loaded_spec c best l :
  least_loaded c best l ∈ best :: l ∧ ∀ j, j ∈ best :: l → (load_of c (least_loaded c best l) ≤ load_of c j)%nat.
Proof using.
  revert best. induction l as [|i l IH]; intros best; unfold least_loaded; simpl.
  - split; [by left|]. intros j [-> |?%not_elem_of_nil]%elem_of_cons; done.
  - set (b := if bool_decide _ then i else best).
    destruct (IH b) as [H1 H2]. fold (least_loaded c b l). 
    assert (Hb : b = i ∨ b = best) by (subst b; case_bool_decide; auto).
    assert (Hle : (load_of c b ≤ load_of c i)%nat ∧ (load_of c b ≤ load_of c best)%nat)
      by (subst b; case_bool_decide; lia).
    assert (Hlb := H2 b ltac:(by left)). split.
    + apply elem_of_cons in H1 as [H1|H1]; [|by right; right].
      rewrite H1. destruct Hb as [->| ->]; [right; left|left].
    + intros j [-> |[-> |Hj]%elem_of_cons]%elem_of_cons; [lia|lia|apply H2; by right].
Qed.

Lemma live_worker_array c key r l :
  cinv c → pruned_workers key c = (r.1, r.2, l) → l = live_worker c key.
Proof using.
  intros Hc. unfold pruned_workers, live_worker, array_of.
  destruct (workerActivations c !! key) as [r0|]; intros [= _ _ <-]; done.
Qed.

Lemma busy_of_heap c c' i : heap c' = heap c → busy_of c' i = busy_of c i.
Proof using. intros Hh. unfold busy_of, act. by rewrite Hh. Qed.
Lemma load_of_heap c c' i : heap c' = heap c → load_of c' i = load_of c i.
Proof using. intros Hh. unfold load_of, act. by rewrite Hh. Qed.

(** [pickOrScaleWorker], in any reachable state, hands out a live worker that
    is not busy when there is one; otherwise, below the ceiling, a new worker
    (unless the silo is stopping); at the ceiling, a worker of least load. *)
Theorem pickOrScaleWorker_spec t ops id limit :
  let c := crun (empty_catalog t) ops in
  let c' := (pickOrScaleWorker id c).1 in
  let answer := (pickOrScaleWorker id c).2 in
  let live := live_worker c (id_string id) in
  maxLocalWorkersFor (grain_type id) = Some limit → (0 < limit)%nat →
  (∃ i, answer = Handed i ∧ i ∈ live ∧ busy_of c i = false ∧ heap c' = heap c) ∨
  ((∀ i, i ∈ live → busy_of c i = true) ∧ (length live < limit)%nat ∧
   if stopping c then answer = SiloDraining ∧ heap c' = heap c
   else answer = Handed (length (heap c)) ∧
        ∃ x, heap c' = heap c ++ [x] ∧ c_id x = id ∧ c_worker x = true) ∨
  ((∀ i, i ∈ live → busy_of c i = true) ∧ length live = limit ∧
   ∃ i, answer = Handed i ∧ i ∈ live ∧ heap c' = heap c ∧
        ∀ j, j ∈ live → (load_of c i ≤ load_of c j)%nat).
Proof using Htypes.
  intros c c' answer live Hlim Hpos. pose proof (crun_cinv ops _ (empty_cinv t)) as Hc. fold c in Hc.
  subst c' answer. unfold pickOrScaleWorker. rewrite Hlim.
  destruct (pruned_workers (id_string id) c) as [[c1 r] l] eqn:Hp.
  destruct (pruned_cinv _ _ _ _ _ Hp Hc) as (Hc1 & Hh & Hs & Hr & Hl).
  assert (l = live) as -> by (by apply (live_worker_array _ _ (c1, r))). clearbody live.
  assert (Hbusy : ∀ i, busy_of c1 i = busy_of c i) by (intros; by apply busy_of_heap).
  assert (Hfree := λ i, list_elem_of_filter (λ j, busy_of c1 j = false) live i).
  destruct (filter _ live) as [|i0 rest]; [right|left].
  2:{ exists i0. destruct (Hfree i0) as [H1 _]. destruct (H1 ltac:(by left)). by rewrite <- Hbusy. }
  assert (Hall : ∀ i, i ∈ live → busy_of c i = true).
  { intros i Hi. rewrite <- Hbusy. destruct (busy_of c1 i) eqn:Hb; [done|].
    destruct (not_elem_of_nil i). by apply Hfree. }
  case_bool_decide as Hlt; [left|right]; (split; [done|]).
  - split; [done|]. rewrite Hs. destruct (stopping c); [done|].
    destruct (create id None true c1) as [[c2 i]|] eqn:Hcr.
    + apply create_spec in Hcr as (x & -> & -> & <- & Hw & _). simpl. rewrite Hh. split; [done|by exists x].
    + unfold create in Hcr. unfold maxLocalWorkersFor in Hlim. by destruct (grainTypes opts !! grain_type id).
  - assert (Hle := ci_bound _ Hc1 id limit live Hlim). 
    specialize (Hle ltac:(apply array_of_Some; by exists r)). split; [lia|].
    destruct live as [|best rest]; [simpl in *; lia|]. simpl.
    destruct (least_loaded_spec c1 best rest) as [H1 H2]. eexists. split_and!; [done..|].
    intros j Hj. rewrite <- !(load_of_heap c c1) by done. by apply H2.
Qed.

(** [deactivateAll] leaves every activation it finds deactivating or invalid,
    and from then on no activation is made and no lookup is handed one that was
    not registered before. *)
Theorem deactivateAll_drains c r d ops o :
  let c0 := (deactivateAll r d c).1 in
  let c1 := crun c0 ops in
  (∀ i, i ∈ all_activations c → ending c0 i) ∧
  stopping c1 = true ∧ length (heap c1) = length (heap c) ∧
  ∀ caller i, EAnswer caller (Handed i) ∈ (cstep c1 o).2 → activations c !! id_string (for_id caller) = Some i.
Proof using.
  intros c0 c1.
  assert (Hk : kept (set_stopping true c) c0).
  { subst c0. unfold deactivateAll. cbv zeta.
    destruct (deactivate_each_quiet (all_activations (set_stopping true c)) r (set_stopping true c)) as [H1 H2].
    destruct (deactivate_each _ r _) as [c' ev]. simpl in *. etrans; [done|apply add_task_kept]. }
  destruct (Hk eq_refl) as (Hs & Hl & Ha).
  destruct (crun_kept ops c0 Hs) as (Hs1 & Hl1 & Ha1). fold c1 in Hs1, Hl1, Ha1.
  split_and!; [|done|etrans; [exact Hl1|exact Hl]|].
  - intros i Hi. subst c0. unfold deactivateAll. cbv zeta.
    pose proof (deactivate_each_ending (all_activations (set_stopping true c)) r (set_stopping true c) i (or_introl Hi)) as He.
    by destruct (deactivate_each _ r _) as [c' ev].
  - intros caller i Hin. destruct (cstep_ok c1 o) as [Hk1 Hreg]. destruct (Hk1 Hs1) as (_ & _ & Ha2).
    specialize (Hreg _ _ Hin).
    eapply lookup_weaken in Hreg; [|exact Ha2]. eapply lookup_weaken in Hreg; [|exact Ha1].
    by eapply lookup_weaken in Hreg; [|exact Ha].
Qed.
(** A type name without a slash, decided. *)
Fixpoint no_slash (s : string) : bool :=
  match s with
  | EmptyString => true
  | String a s' => negb (Ascii.eqb a "/"%char) && no_slash s'
  end.

Lemma no_slash_free type : no_slash type = true → type_free type.
Proof using.
  intros Hn s s' ->. induction s as [|a s IH]; simpl in Hn; [done|].
  apply andb_true_iff in Hn as [_ Hn]. by apply IH.
Qed.
End catalog.

(** ** Runs *)
Module Runs.
Open Scope string_scope.

Definition echo : GrainId := mkGrainId "echo" (KString "1").
Definition resize : GrainId := mkGrainId "resize" (KString "1").
Definition options : CatalogOptions :=
  mkCatalogOptions
    (<["echo" := mkRegistered false false None None]> {["resize" := mkRegistered false true (Some 2%nat) None]})
    ∅ 60 4 None None None (Some 1000%nat) false.
Abbreviation op := (@COp nat nat nat).
Abbreviation start := (@empty_catalog nat nat nat 0).

Lemma options_types type : is_Some (grainTypes options !! type) → type_free type.
Proof.
  intros [reg Hr]. apply no_slash_free. simpl in Hr.
  apply lookup_insert_Some in Hr as [[<- _]|[_ Hr]]; [done|].
  by apply lookup_singleton_Some in Hr as [<- _].
Qed.

Definition activates (i : nat) : list op :=
  [ActivationStep i (TurnBegins 0); ActivationStep i (OnActivateSettles (inl ())); ActivationStep i (TurnFinally 0)].
Definition hook_runs (i : nat) : list op :=
  [ActivationStep i (TurnBegins 1); ActivationStep i (BodySettles 1 (inl None)); ActivationStep i (TurnFinally 1)].

(** An activation is collected and the grain activated again. *)
Definition again : list op :=
  GetOrActivate echo None :: activates 0 ++ CollectOrdinary "echo/1" (Some 0) :: hook_runs 0 ++
  [TaskContinues 0; GetOrActivate echo None].

Lemma single_activation_witness :
  activations (crun options start again) !! "echo/1" = Some 1%nat.
Proof.
  assert (Hf : (λ x, (c_id x, c_worker x, was_invalid x)) <$> heap (crun options start again) !! 1%nat
    = Some (echo, false, false)) by (vm_compute; reflexivity).
  destruct (heap (crun options start again) !! 1%nat) as [x|] eqn:Hx; [|discriminate Hf].
  injection Hf as Hid Hw Hi.
  pose proof (proj2 (single_activation options options_types 0 again 1 1 x x Hx Hx eq_refl Hw Hw Hi Hi)) as H.
  rewrite Hid in H. exact (H ltac:(vm_compute; reflexivity)).
Defined.

Definition two_workers : list op :=
  [PickOrScaleWorker resize; PickOrScaleWorker resize] ++ activates 0 ++ activates 1.

Lemma worker_ceiling_witness :
  workers_alive resize (crun options start two_workers) = [0; 1]%nat ∧
  (length (workers_alive resize (crun options start two_workers)) <= 2)%nat.
Proof.
  split; [vm_compute; reflexivity|].
  exact (proj1 (worker_ceiling options options_types 0 two_workers resize 2 ltac:(vm_compute; reflexivity))).
Defined.

(** With both workers idle a pick hands out one that is not busy. *)
Lemma pickOrScaleWorker_spec_witness :
  ∃ i, (pickOrScaleWorker options resize (crun options start two_workers)).2 = Handed i ∧
    busy_of (crun options start two_workers) i = false.
Proof.
  destruct (pickOrScaleWorker_spec options options_types 0 two_workers resize 2
      ltac:(vm_compute; reflexivity) ltac:(lia)) as [(i & Ha & _ & Hb & _)|[(Hb & _)|(Hb & _)]].
  - exists i. split; [exact Ha|exact Hb].
  - specialize (Hb 0%nat ltac:(vm_compute; left)). vm_compute in Hb. discriminate Hb.
  - specialize (Hb 0%nat ltac:(vm_compute; left)). vm_compute in Hb. discriminate Hb.
Defined.

(** A sweep collects the two workers; between the two hooks a pick splices the
    first out of the array the sweep reads at its end. *)
Fixpoint trace (c : @Catalog nat nat nat) (l : list op) : list CEvent :=
  match l with [] => [] | o :: l' => let '(c', ev) := cstep options c o in ev ++ trace c' l' end.
Definition swept (between : list op) : list op :=
  two_workers ++ ElapseAll 1 :: CollectWorkers "resize/1" (Some 0) :: hook_runs 0 ++ [TaskContinues 0] ++
  between ++ hook_runs 1 ++ [TaskContinues 1].

Definition disposed (i : nat) (ev : list CEvent) : bool :=
  existsb (λ e, match e with EDisposed j => Nat.eqb i j | _ => false end) ev.

Lemma pruned_worker_not_disposed :
  disposed 0 (trace start (swept [])) = true ∧
  disposed 0 (trace start (swept [PickOrScaleWorker resize])) = false ∧
  state_of (crun options start (swept [PickOrScaleWorker resize])) 0 = invalid.
Proof. by vm_compute. Qed.
End Runs.
