(* ===== verification/Dispatch.v ===== *)
(** * Dispatch of a call across the cluster

    Models [packages/runtime/src/distributed-dispatcher.ts], the wire hop of
    [cluster-node.ts] it sends through ([sendRemote], [receiveRequest]) and
    [local-dispatcher.ts]. A call is a program over the silos: each [await]
    reads what the directory, the cache, the catalog, the activation or the wire
    of a silo answer at that moment, and those answers are arbitrary, so that
    every interleaving with other calls is covered. The gates between the claims
    of one silo are part of the answers. *)
From Stdlib Require Import String.
From stdpp Require Import prelude strings list.
From S2P Require Import Prelude Ids.

Section dispatch.
Context {Value Body : Type}.

(** ** Errors and outcomes *)

Inductive RejectionKind :=
  | siloDraining | unknownTarget | overloaded | deserialization | noActivation
  | noCandidates | staleView | siloUnavailable.
#[local] Instance RejectionKind_eq : EqDecision RejectionKind.
Proof. solve_decision. Defined.

(** A rejection, a timeout, a refusal by an overloaded gateway, or any other
    error: those of grain code are of any class. *)
Inductive Error := Rejection (k : RejectionKind) | CallTimeout | GatewayTooBusy | OtherError (e : Body).

Definition isStaleActivationRejection (e : Error) : bool :=
  match e with
  | Rejection k => bool_decide (k = noActivation) || bool_decide (k = unknownTarget) || bool_decide (k = staleView)
  | _ => false
  end.

(** How [invoke] of an activation ends: the method ran, or the call was refused
    before it did; [reroute] is [isRerouteRejection]. *)
Inductive Outcome := Ran (r : Value + Error) | Refused (reroute : bool) (e : Error).

(** Failures of the connection, before or after the request was delivered. *)
Inductive WireError := ConnectionLost | ReplyTimeout | SendThrew (e : Body).
Definition wire_error (e : WireError) : Error :=
  match e with
  | ConnectionLost => Rejection siloUnavailable
  | ReplyTimeout => CallTimeout
  | SendThrew b => OtherError b
  end.

(** What the dispatcher reads of a request. *)
Record Request := mkReq { target : GrainId; oneWay : bool; forwardCount : option nat }.
Definition with_forwardCount (n : nat) (req : Request) : Request :=
  mkReq (target req) (oneWay req) (Some n).

(** What a silo answers at one moment. *)
Record View := mkView {
  (** [clientRouter], [isStatelessWorkerType] and [pickOrScaleWorker] *)
  clientTarget : option (Value + Error);
  statelessWorker : option (Outcome + Error);
  (** [cache.get] and [directory.lookup] *)
  cached : option GrainAddress;
  found : option GrainAddress + Error;
  (** the activation id of [resolveLive], and how a call on it ends *)
  live : option string + Error;
  outcome : Outcome;
  (** the claim in flight, a fresh activation id, and [directory.register] *)
  claimInFlight : bool;
  newId : string;
  register : string → GrainAddress + Error;
  unregisterError : option Error;
  (** [catalog.get]: its activation id, and whether it is not invalid *)
  gotten : option (string * bool);
  comingUp : bool;
  (** an error of [activateLocal] or [getOrCreate], and [activationFailed] *)
  activateError : option Error;
  activationFailed : bool;
  (** placement, and what a filter or the strategy throws *)
  activeSilos : list SiloAddress;
  filters : list (list SiloAddress → list SiloAddress);
  versionFilter : option (list SiloAddress → list SiloAddress);
  hint : option string;
  choose : list SiloAddress → SiloAddress;
  placementError : option Error;
  (** the wire *)
  connectError : option WireError;
  requestLost : option WireError;
  replyLost : option WireError;
  sheds : bool }.

Context (env : SiloAddress → nat → View).

Inductive Event :=
  | Sent (from to : SiloAddress) (forwardCount : option nat)
  | Began (at_silo : SiloAddress)
  | CachePut (at_silo : SiloAddress) (a : GrainAddress)
  | CacheInvalidate (at_silo : SiloAddress)
  | Unregistered (at_silo : SiloAddress) (a : GrainAddress).

(** ** Programs *)

(** A program started at a moment: when it ends, what it did, whether it called
    [onForward], and its result; none when it still runs. *)
Record Res (A : Type) := mkRes {
  r_time : nat; r_events : list Event; r_notice : bool; r_value : option (A + Error) }.
Arguments mkRes {A}.
Arguments r_time {A}.
Arguments r_events {A}.
Arguments r_notice {A}.
Arguments r_value {A}.
Definition M (A : Type) := nat → Res A.

Definition ret {A} (a : A) : M A := λ t, mkRes t [] false (Some (inl a)).
Definition throw {A} (e : Error) : M A := λ t, mkRes t [] false (Some (inr e)).
Definition running {A} : M A := λ t, mkRes t [] false None.
Definition lift {A} (r : A + Error) : M A := λ t, mkRes t [] false (Some r).
Definition emit (e : Event) : M () := λ t, mkRes t [e] false (Some (inl ())).
Definition notify : M () := λ t, mkRes t [] true (Some (inl ())).
Definition see (s : SiloAddress) : M View := λ t, mkRes (S t) [] false (Some (inl (env s t))).

(** What [m] did, followed by [k] of its result. *)
Definition after {A B} (m : M A) (k : A + Error → M B) : M B := λ t,
  let r := m t in
  match r_value r with
  | None => mkRes (r_time r) (r_events r) (r_notice r) None
  | Some v =>
      let r' := k v (r_time r) in
      mkRes (r_time r') (r_events r ++ r_events r') (r_notice r || r_notice r') (r_value r')
  end.
Definition bind {A B} (m : M A) (k : A → M B) : M B :=
  after m (λ v, match v with inl a => k a | inr e => throw e end).
Definition catch {A} (m : M A) (h : Error → M A) : M A :=
  after m (λ v, match v with inl a => ret a | inr e => h e end).
(** The result of [m] as a value, with its notice; the caller gets no notice. *)
Definition hop {A} (m : M A) : M ((A + Error) * bool) := λ t,
  let r := m t in
  mkRes (r_time r) (r_events r) false ((λ v, inl (v, r_notice r)) <$> r_value r).

#[local] Instance M_bind : MBind M := λ A B k m, bind m k.

Definition MAX_FORWARD_COUNT : nat := 2.

(** ** Delivery *)

(** [invoke] of an activation. *)
Definition settle (s : SiloAddress) (o : Outcome) : M (option Value) :=
  match o with
  | Ran r => emit (Began s) ;; lift (match r with inl v => inl (Some v) | inr e => inr e end)
  | Refused _ e => throw e
  end.

(** [pickOrScaleWorker] and [invoke]. *)
Definition settle_worker (s : SiloAddress) (w : Outcome + Error) : M (option Value) :=
  match w with inl o => settle s o | inr e => throw e end.

Section hops.
(** [deliverLocal], which the operations below call back. *)
Context (deliverLocal : SiloAddress → Request → M (option Value)).

(** [receiveRequest] up to the reply. *)
Definition receiveRequest (s : SiloAddress) (req : Request) : M (option Value) :=
  v ← see s;
  if sheds v then throw GatewayTooBusy else deliverLocal s req.

(** [sendRemote]. A one-way request is not awaited: what it does is recorded,
    its result is dropped. *)
Definition sendRemote (s to : SiloAddress) (req : Request) : M (option Value) :=
  v ← see s;
  match connectError v with
  | Some e => throw (wire_error e)
  | None =>
      emit (Sent s to (forwardCount req)) ;;
      match requestLost v with
      | Some e => if oneWay req then ret None else throw (wire_error e)
      | None =>
          answer ← hop (receiveRequest to req);
          if oneWay req then ret None
          else
            v ← see s;
            match replyLost v with
            | Some e => throw (wire_error e)
            | None =>
                (if (answer.2 : bool) then emit (CacheInvalidate s) else ret ()) ;;
                lift answer.1
            end
      end
  end.

(** [forwardTo] *)
Definition forwardTo (s to : SiloAddress) (req : Request) : M (option Value) :=
  let n := S (default 0%nat (forwardCount req)) in
  if bool_decide (MAX_FORWARD_COUNT < n)%nat then throw (Rejection noActivation)
  else notify ;; sendRemote s to (with_forwardCount n req).

(** The cleanup of a failed activation. *)
Definition unregister (s : SiloAddress) (a : GrainAddress) : M () :=
  emit (Unregistered s a) ;;
  v ← see s;
  match unregisterError v with Some e => throw e | None => emit (CacheInvalidate s) end.

(** [activateLocalAndInvoke] *)
Definition activateLocalAndInvoke (s : SiloAddress) (req : Request) (activationId : string)
    : M (option Value) :=
  let mine := mkAddress (target req) s activationId in
  v ← see s;
  match activateError v with
  | Some e => unregister s mine ;; throw e
  | None =>
      catch (settle s (outcome v)) (λ e,
        v ← see s;
        if activationFailed v then unregister s mine ;; throw e else throw e)
  end.

(** [claimLocalActivation] *)
Definition claimLocalActivation (s : SiloAddress) (req : Request) : M (option Value) :=
  v ← see s;
  let activationId := newId v in
  winner ← lift (register v activationId);
  emit (CachePut s winner) ;;
  if SiloAddress_equals (addr_silo winner) s && bool_decide (addr_activationId winner = activationId)
  then activateLocalAndInvoke s req activationId
  else if SiloAddress_equals (addr_silo winner) s then
    v ← see s;
    if match gotten v with Some (id, here) => here && bool_decide (id = addr_activationId winner) | None => false end
    then settle s (outcome v)
    else if comingUp v then see s ;; deliverLocal s req
    else unregister s winner ;; deliverLocal s req
  else forwardTo s (addr_silo winner) req.
End hops.

(** [deliverLocal] and [claimAndActivateLocally]; [fuel] counts how deep they
    call each other. *)
Fixpoint deliverLocal (fuel : nat) (s : SiloAddress) (req : Request) : M (option Value) :=
  match fuel with
  | O => running
  | S n =>
      v ← see s;
      match statelessWorker v with
      | Some w => settle_worker s w
      | None =>
          existing ← lift (live v);
          match (existing : option string) with
          | Some _ => settle s (outcome v)
          | None => claimAndActivateLocally n s req
          end
      end
  end
with claimAndActivateLocally (fuel : nat) (s : SiloAddress) (req : Request) : M (option Value) :=
  match fuel with
  | O => running
  | S n =>
      v ← see s;
      if oneWay req && claimInFlight v then
        v ← see s;
        act ← lift (live v);
        match (act : option string) with
        | Some _ => settle s (outcome v)
        | None => claimAndActivateLocally n s req
        end
      else claimLocalActivation (deliverLocal n) s req
  end.

(** [deliverLocalWithinPlacementSpan] *)
Definition deliverLocalWithinPlacementSpan (fuel : nat) (s : SiloAddress) (req : Request)
    : M (option Value) :=
  v ← see s;
  existing ← lift (live v);
  match (existing : option string) with
  | Some _ => settle s (outcome v)
  | None => claimAndActivateLocally fuel s req
  end.

(** [routeTo] *)
Definition routeTo (fuel : nat) (s : SiloAddress) (addr : GrainAddress) (req : Request)
    : M (option Value) :=
  if negb (SiloAddress_equals (addr_silo addr) s)
  then sendRemote (deliverLocal fuel) s (addr_silo addr) req
  else
    v ← see s;
    act ← lift (live v);
    match act with
    | Some id =>
        if bool_decide (id = addr_activationId addr) then settle s (outcome v)
        else deliverLocal fuel s req
    | None => deliverLocal fuel s req
    end.

(** [resolvePlacementHintValue] *)
Definition resolvePlacementHintValue (h : option string) (candidates : list SiloAddress) : option SiloAddress :=
  h ≫= λ hint, snd <$> list_find (λ c, SiloAddress_toString c = hint) candidates.

(** [placeAndInvoke] *)
Definition placeAndInvoke (fuel : nat) (s : SiloAddress) (req : Request) : M (option Value) :=
  v ← see s;
  match placementError v with Some e => throw e | None =>
  match foldl (λ candidates filter, filter candidates) (activeSilos v) (filters v) with
  | [] => throw (Rejection noCandidates)
  | candidates =>
      candidates ← match versionFilter v with
                    | Some f => see s ;; ret (match f candidates with [] => candidates | l => l end)
                    | None => ret candidates
                    end;
      let targetSilo := default (choose v candidates) (resolvePlacementHintValue (hint v) candidates) in
      if SiloAddress_equals targetSilo s then deliverLocalWithinPlacementSpan fuel s req
      else sendRemote (deliverLocal fuel) s targetSilo req
  end end.

(** [lookupAndInvoke], with what it does on a stale rejection. *)
Definition lookup_then (on_stale : Error → M (option Value)) (fuel : nat) (s : SiloAddress) (req : Request)
    : M (option Value) :=
  v ← see s;
  found_at ← lift (found v);
  match (found_at : option GrainAddress) with
  | None => placeAndInvoke fuel s req
  | Some a =>
      emit (CachePut s a) ;;
      catch (routeTo fuel s a req) (λ e, if isStaleActivationRejection e then on_stale e else throw e)
  end.

Definition lookupAndInvoke (fuel : nat) (s : SiloAddress) (req : Request) : M (option Value) :=
  lookup_then (λ _, emit (CacheInvalidate s) ;; lookup_then throw fuel s req) fuel s req.

(** [deliver] *)
Definition deliver (fuel : nat) (s : SiloAddress) (req : Request) : M (option Value) :=
  v ← see s;
  match clientTarget v, statelessWorker v, cached v with
  | Some r, _, _ => lift (match r with inl a => inl (Some a) | inr e => inr e end)
  | None, Some w, _ => settle_worker s w
  | None, None, Some a =>
      catch (routeTo fuel s a req) (λ e,
        if isStaleActivationRejection e then emit (CacheInvalidate s) ;; lookupAndInvoke fuel s req
        else throw e)
  | None, None, None => lookupAndInvoke fuel s req
  end.

(** [invoke] through [dispatchDetachingOneWay]: a one-way caller gets nothing,
    whatever the delivery does. *)
Definition invoke (fuel : nat) (s : SiloAddress) (req : Request) : M (option Value) :=
  if oneWay req then hop (deliver fuel s req) ;; ret None else deliver fuel s req.

(** ** The single-silo dispatcher *)

(** [LocalDispatcher.deliver]: [activateError] is that of [getOrCreate]. *)
Fixpoint local_deliver (fuel : nat) (s : SiloAddress) : M (option Value) :=
  match fuel with
  | O => running
  | S n =>
      v ← see s;
      match statelessWorker v with
      | Some w => settle_worker s w
      | None =>
          match activateError v with
          | Some e => throw e
          | None =>
              match outcome v with
              | Refused true _ => local_deliver n s
              | o => settle s o
              end
          end
      end
  end.

(** ** What a program does *)

Definition is_sent (e : Event) : bool := match e with Sent _ _ _ => true | _ => false end.
Definition is_began (e : Event) : bool := match e with Began _ => true | _ => false end.
Definition hops (l : list Event) : nat := length (filter (λ e, is_sent e = true) l).
Definition runs (l : list Event) : nat := length (filter (λ e, is_began e = true) l).
Definition capped (e : Event) : Prop :=
  match e with Sent _ _ fc => (default 0%nat fc <= MAX_FORWARD_COUNT)%nat | _ => True end.

Lemma hops_app l l' : hops (l ++ l') = (hops l + hops l')%nat.
Proof. unfold hops. by rewrite filter_app, length_app. Qed.
Lemma runs_app l l' : runs (l ++ l') = (runs l + runs l')%nat.
Proof. unfold runs. by rewrite filter_app, length_app. Qed.

(** The errors grain code throws itself are not stale rejections, and a call on
    an activation that failed to activate did not run. *)
Record sound_bodies : Prop := {
  sb_outcome : ∀ s t e, outcome (env s t) = Ran (inr e) → isStaleActivationRejection e = false;
  sb_worker : ∀ s t e, statelessWorker (env s t) = Some (inl (Ran (inr e))) → isStaleActivationRejection e = false;
  sb_failed : ∀ s t r, outcome (env s t) = Ran r → activationFailed (env s (S t)) = false }.

(** An attempt to deliver: at most [b] hops, none above the cap, at most [n]
    runs of the method; with sound bodies at most one, none before a stale
    rejection, and exactly one before an awaited success. *)
Record attempted (ow : bool) (b n : nat) (r : Res (option Value)) : Prop := {
  at_hops : (hops (r_events r) <= b)%nat;
  at_capped : Forall capped (r_events r);
  at_runs : (runs (r_events r) <= n)%nat;
  at_once : sound_bodies → (runs (r_events r) <= 1)%nat;
  at_stale : sound_bodies → ∀ e, r_value r = Some (inr e) → isStaleActivationRejection e = true →
    runs (r_events r) = 0%nat;
  at_success : sound_bodies → ow = false → ∀ v, r_value r = Some (inl v) → runs (r_events r) = 1%nat }.
Definition attempt (ow : bool) (b n : nat) (m : M (option Value)) : Prop := ∀ t, attempted ow b n (m t).

(** Programs without hops and runs. *)
Definition silent {A} (m : M A) : Prop := ∀ t,
  hops (r_events (m t)) = 0%nat ∧ runs (r_events (m t)) = 0%nat ∧ Forall capped (r_events (m t)).

Lemma silent_lift {A} (r : A + Error) : silent (lift r).
Proof. by intros t. Qed.
Lemma silent_see s : silent (see s).
Proof. by intros t. Qed.
Lemma silent_emit e : is_sent e = false → is_began e = false → silent (emit e).
Proof.
  intros Hs Hb t. unfold hops, runs. simpl. rewrite !filter_cons, Hs, Hb. split_and!; [done..|].
  repeat constructor. by destruct e.
Qed.
Lemma silent_notify : silent notify.
Proof. by intros t. Qed.

Lemma silent_bind {A B} (m : M A) (k : A → M B) : silent m → (∀ a, silent (k a)) → silent (mbind k m).
Proof.
  intros Hm Hk t. unfold mbind, M_bind, bind, after. destruct (Hm t) as (H1 & H2 & H3).
  destruct (m t) as [t' ev no [[a|e]|]]; simpl in *.
  - destruct (Hk a t') as (H4 & H5 & H6). rewrite hops_app, runs_app. split_and!; [lia|lia|by apply Forall_app].
  - rewrite hops_app, runs_app. split_and!; [unfold hops at 2; simpl; lia|unfold runs at 2; simpl; lia|].
    apply Forall_app. by split; [|constructor].
  - done.
Qed.

Lemma silent_unregister s a : silent (unregister s a).
Proof.
  unfold unregister. apply silent_bind; [by apply silent_emit|]. intros _.
  apply silent_bind; [apply silent_see|]. intros v. destruct (unregisterError v); [by intros t|by apply silent_emit].
Qed.

Lemma attempt_mono ow b b' n n' m : attempt ow b n m → (b <= b')%nat → (n <= n')%nat → attempt ow b' n' m.
Proof. intros Hm Hb Hn t. destruct (Hm t). split; try done; lia. Qed.

Lemma attempt_throw ow e : attempt ow 0 0 (throw e).
Proof. intros t. by split; simpl; try (unfold hops, runs; simpl; lia). Qed.

Lemma attempt_running ow : attempt ow 0 0 running.
Proof. intros t. by split; simpl; try (unfold hops, runs; simpl; lia). Qed.

(** Doing something silent first. *)
Lemma attempt_silent {A} ow b n (m : M A) (k : A → M (option Value)) :
  silent m → (∀ a, attempt ow b n (k a)) → attempt ow b n (mbind k m).
Proof.
  intros Hm Hk t. unfold mbind, M_bind, bind, after. destruct (Hm t) as (H1 & H2 & H3).
  destruct (m t) as [t' ev no [[a|e]|]]; simpl in *.
  - destruct (Hk a t') as [G1 G2 G3 G4 G5 G6].
    split; simpl; rewrite ?hops_app, ?runs_app, ?H1, ?H2; try done. by apply Forall_app.
  - rewrite app_nil_r. split; simpl; rewrite ?H1, ?H2; try done; lia.
  - split; simpl; rewrite ?H1, ?H2; try done; lia.
Qed.

Lemma attempt_see ow b n s (k : View → M (option Value)) :
  (∀ t, attempt ow b n (k (env s t))) → attempt ow b n (mbind k (see s)).
Proof.
  intros Hk t. destruct (Hk t (S t)) as [G1 G2 G3 G4 G5 G6]. by split.
Qed.

Lemma attempt_settle ow s o :
  (sound_bodies → ∀ e, o = Ran (inr e) → isStaleActivationRejection e = false) → attempt ow 0 1 (settle s o).
Proof.
  intros Ho t. destruct o as [[v|e]|b e]; simpl.
  - split; try done. by repeat constructor.
  - split; try done; simpl; [by repeat constructor|]. intros Hs e' [= <-] He. by rewrite (Ho Hs e) in He.
  - split; try done; simpl; unfold runs, hops; simpl; try lia; done.
Qed.

Lemma attempt_outcome ow s t : attempt ow 0 1 (settle s (outcome (env s t))).
Proof. apply attempt_settle. intros Hs e. by apply (sb_outcome Hs). Qed.

Lemma attempt_worker ow s t w : statelessWorker (env s t) = Some w → attempt ow 0 1 (settle_worker s w).
Proof.
  intros Hw. destruct w as [o|e]; [|eapply attempt_mono; [apply attempt_throw|lia..]].
  apply attempt_settle. intros Hs e ->. by apply (sb_worker Hs s t).
Qed.

(** *** Delivery at a silo *)

Lemma attempt_sent ow b n s to fc (m : M (option Value)) :
  (default 0%nat fc <= MAX_FORWARD_COUNT)%nat → attempt ow b n m → attempt ow (S b) n (emit (Sent s to fc) ;; m).
Proof.
  intros Hfc Hm t. destruct (Hm t) as [G1 G2 G3 G4 G5 G6]. unfold mbind, M_bind, bind, after. simpl.
  destruct (m t) as [t' ev no v]; simpl in *. split; simpl; try done; [|by constructor].
  unfold hops. rewrite filter_cons. simpl. by apply le_n_S.
Qed.

(** The answer of a silo comes back, or is lost. *)
Lemma attempt_answer ow b s m :
  attempt ow b 1 m →
  attempt ow b 1 (answer ← hop m;
    if ow then ret None
    else
      v ← see s;
      match replyLost v with
      | Some e => throw (wire_error e)
      | None => (if (answer.2 : bool) then emit (CacheInvalidate s) else ret ()) ;; lift answer.1
      end).
Proof.
  intros Hm t. destruct (Hm t) as [G1 G2 G3 G4 G5 G6].
  unfold mbind, M_bind, bind, after, hop. destruct (m t) as [t' ev no [v|]]; simpl in *; [|by split].
  destruct ow; [simpl; rewrite app_nil_r; by split|]. simpl.
  destruct (replyLost (env s t')) as [e|]; simpl.
  - rewrite app_nil_r. split; simpl; try done. intros _ e' [= <-] He. by destruct e.
  - destruct no; simpl; [|rewrite app_nil_r; by split].
    assert (Hh : hops (ev ++ [CacheInvalidate s]) = hops ev) by (rewrite hops_app; unfold hops; simpl; lia).
    assert (Hr : runs (ev ++ [CacheInvalidate s]) = runs ev) by (rewrite runs_app; unfold runs; simpl; lia).
    split; simpl; rewrite ?Hh, ?Hr; try done. apply Forall_app. split; [done|by repeat constructor].
Qed.

Lemma attempt_send dl ow b s to req :
  (default 0%nat (forwardCount req) <= MAX_FORWARD_COUNT)%nat → oneWay req = ow →
  attempt ow b 1 (dl to req) → attempt ow (S b) 1 (sendRemote dl s to req).
Proof.
  intros Hfc How Hdl. unfold sendRemote. apply attempt_see. intros t.
  destruct (connectError (env s t)) as [e|]; [eapply attempt_mono; [apply attempt_throw|lia..]|].
  apply attempt_sent; [done|]. rewrite How. destruct (requestLost (env s t)) as [e|].
  - eapply (attempt_mono _ 0 _ 0); [|lia..]. destruct ow; [|apply attempt_throw].
    intros t'. split; simpl; try done; unfold hops, runs; simpl; lia.
  - apply attempt_answer. apply attempt_see. intros t'.
    destruct (sheds (env to t')); [eapply attempt_mono; [apply attempt_throw|lia..]|done].
Qed.

Lemma attempt_forward dl s to req :
  (∀ req', default 0%nat (forwardCount req') <= MAX_FORWARD_COUNT →
     attempt (oneWay req') (MAX_FORWARD_COUNT - default 0 (forwardCount req')) 1 (dl to req'))%nat →
  attempt (oneWay req) (MAX_FORWARD_COUNT - default 0 (forwardCount req))%nat 1 (forwardTo dl s to req).
Proof.
  intros Hdl. unfold forwardTo. cbv zeta. set (n := default 0%nat (forwardCount req)).
  case_bool_decide as Hn; [eapply attempt_mono; [apply attempt_throw|lia..]|].
  apply attempt_silent; [apply silent_notify|]. intros _.
  replace (MAX_FORWARD_COUNT - n)%nat with (S (MAX_FORWARD_COUNT - S n)) by lia.
  apply attempt_send; [simpl; lia|done|]. apply (Hdl (with_forwardCount (S n) req)). simpl. lia.
Qed.

Lemma attempt_cleanup ow s a e :
  attempt ow 0 0 (unregister s a ;; throw e).
Proof. apply attempt_silent; [apply silent_unregister|]. intros _. apply attempt_throw. Qed.

(** A program that throws without running the method. *)
Lemma attempted_quiet ow r :
  hops (r_events r) = 0%nat → runs (r_events r) = 0%nat → Forall capped (r_events r) →
  (∀ v, r_value r ≠ Some (inl v)) → attempted ow 0 1 r.
Proof. intros Hh Hr Hc Hv. split; rewrite ?Hh, ?Hr; try done; try lia. intros _ _ v Hw. by destruct (Hv v). Qed.

(** A method that ran and failed: its error comes back, or what the cleanup threw. *)
Lemma attempted_failed ow s r :
  hops (r_events r) = 0%nat → runs (r_events r) = 0%nat → Forall capped (r_events r) →
  (∀ v, r_value r ≠ Some (inl v)) →
  (sound_bodies → ∀ e, r_value r = Some (inr e) → isStaleActivationRejection e = false) →
  attempted ow 0 1 (mkRes (r_time r) (Began s :: r_events r) (r_notice r) (r_value r)).
Proof.
  intros Hh Hr Hc Hv He.
  assert (Hr1 : runs (Began s :: r_events r) = 1%nat).
  { change (Began s :: r_events r) with ([Began s] ++ r_events r). by rewrite runs_app, Hr. }
  split; simpl; rewrite ?Hr1; try done.
  - change (Began s :: r_events r) with ([Began s] ++ r_events r). by rewrite hops_app, Hh.
  - by constructor.
  - intros Hso e Hm Hst. by rewrite (He Hso e Hm) in Hst.
Qed.

Lemma unregister_throw s a e t :
  let r := (unregister s a ;; throw e : M (option Value)) t in
  hops (r_events r) = 0%nat ∧ runs (r_events r) = 0%nat ∧ Forall capped (r_events r) ∧
  ∀ v, r_value r ≠ Some (inl v).
Proof.
  unfold unregister, mbind, M_bind, bind, after. simpl.
  destruct (unregisterError (env s t)); simpl; split_and!; try done; by repeat constructor.
Qed.

(** [m] throws: its error is handled by [h], which throws again. *)
Lemma attempted_caught ow s t (h : Error → M (option Value)) :
  (∀ e t, let r := h e t in hops (r_events r) = 0%nat ∧ runs (r_events r) = 0%nat ∧
     Forall capped (r_events r) ∧ ∀ v, r_value r ≠ Some (inl v)) →
  (sound_bodies → ∀ e, outcome (env s t) = Ran (inr e) → r_value (h e (S t)) = Some (inr e)) →
  attempted ow 0 1 (catch (settle s (outcome (env s t))) h (S t)).
Proof.
  intros Hh He. pose proof (attempt_outcome ow s t (S t)) as Ho. pose proof (λ H, sb_outcome H s t) as Hb.
  unfold catch, after. destruct (outcome (env s t)) as [[v|e]|b e]; simpl in *.
  - destruct Ho. by split.
  - destruct (Hh e (S t)) as (H1 & H2 & H3 & H4).
    apply (attempted_failed ow s (h e (S t))); [done..|].
    intros Hs e' He'. rewrite (He Hs e eq_refl) in He'. injection He' as <-. by apply (Hb Hs).
  - destruct (Hh e (S t)) as (H1 & H2 & H3 & H4). by apply attempted_quiet.
Qed.

Lemma attempt_activate ow s req id : attempt ow 0 1 (activateLocalAndInvoke s req id).
Proof.
  intros t. unfold activateLocalAndInvoke. cbv zeta. set (mine := mkAddress _ _ _).
  assert (Hclean := unregister_throw s mine).
  unfold mbind at 1, M_bind at 1, bind at 1, after at 1. simpl.
  destruct (activateError (env s t)) as [e|].
  { destruct (Hclean e (S t)) as (H1 & H2 & H3 & H4). by apply attempted_quiet. }
  match goal with |- context [catch _ ?h] => pose proof (attempted_caught ow s t h) as Hc;
    assert (He : ∀ e t', h e t' = let r := (if activationFailed (env s t') then unregister s mine ;; throw e else throw e) (S t')
      in mkRes (r_time r) (r_events r) (r_notice r) (r_value r)) by done end.
  destruct Hc as [H1 H2 H3 H4 H5 H6]; [..|by split].
  - intros e t'. rewrite He. cbv zeta. simpl. destruct (activationFailed _); [apply Hclean|by split_and!].
  - intros Hs e Ho. rewrite He. cbv zeta. simpl. by rewrite (sb_failed Hs _ _ _ Ho).
Qed.

Definition budget (req : Request) : nat := MAX_FORWARD_COUNT - default 0%nat (forwardCount req).

Lemma attempt_claim dl s req :
  (∀ s req, attempt (oneWay req) (budget req) 1 (dl s req)) →
  attempt (oneWay req) (budget req) 1 (claimLocalActivation dl s req).
Proof.
  intros Hdl. unfold claimLocalActivation. apply attempt_see. intros t. cbv zeta.
  apply attempt_silent; [apply silent_lift|]. intros w.
  apply attempt_silent; [by apply silent_emit|]. intros _.
  destruct (_ && _); [eapply attempt_mono; [apply attempt_activate|lia..]|].
  destruct (SiloAddress_equals _ _); [|apply attempt_forward; intros req' _; apply Hdl].
  apply attempt_see. intros t'. destruct (match gotten _ with Some _ => _ | None => _ end).
  { eapply attempt_mono; [apply attempt_outcome|lia..]. }
  destruct (comingUp _); (apply attempt_silent; [|intros _; apply Hdl]); [apply silent_see|apply silent_unregister].
Qed.

Lemma attempt_local n s req :
  attempt (oneWay req) (budget req) 1 (deliverLocal n s req) ∧
  attempt (oneWay req) (budget req) 1 (claimAndActivateLocally n s req).
Proof.
  revert s req. induction n as [|n IH]; intros s req; simpl.
  { split; eapply attempt_mono; (apply attempt_running || lia). }
  split; apply attempt_see; intros t.
  - destruct (statelessWorker (env s t)) as [w|] eqn:Hw.
    { eapply attempt_mono; [by eapply attempt_worker|lia..]. }
    apply attempt_silent; [apply silent_lift|]. intros [id|]; [|apply IH].
    eapply attempt_mono; [apply attempt_outcome|lia..].
  - destruct (_ && _); [|apply attempt_claim; intros; apply IH].
    apply attempt_see. intros t'. apply attempt_silent; [apply silent_lift|]. intros [id|]; [|apply IH].
    eapply attempt_mono; [apply attempt_outcome|lia..].
Qed.

Lemma attempt_route n s a req :
  (default 0%nat (forwardCount req) <= MAX_FORWARD_COUNT)%nat →
  attempt (oneWay req) (S (budget req)) 1 (routeTo n s a req).
Proof.
  intros Hfc. unfold routeTo. destruct (negb _); [apply attempt_send; [done..|apply attempt_local]|].
  assert (Hl : attempt (oneWay req) (S (budget req)) 1 (deliverLocal n s req))
    by (eapply attempt_mono; [apply attempt_local|lia..]).
  apply attempt_see. intros t. apply attempt_silent; [apply silent_lift|]. intros [id|]; [|done].
  case_bool_decide; [eapply attempt_mono; [apply attempt_outcome|lia..]|done].
Qed.

Lemma attempt_place n s req :
  (default 0%nat (forwardCount req) <= MAX_FORWARD_COUNT)%nat →
  attempt (oneWay req) (S (budget req)) 1 (placeAndInvoke n s req).
Proof.
  intros Hfc. unfold placeAndInvoke. apply attempt_see. intros t.
  assert (Ht : ∀ e, attempt (oneWay req) (S (budget req)) 1 (throw e))
    by (intros e; eapply attempt_mono; [apply attempt_throw|lia..]).
  destruct (placementError _); [done|]. destruct (foldl _ _ _); [done|].
  apply attempt_silent.
  { destruct (versionFilter _); [|by intros t']. apply silent_bind; [apply silent_see|]. by intros _ t'. }
  intros candidates. cbv zeta. destruct (SiloAddress_equals _ _); [|apply attempt_send; [done..|apply attempt_local]].
  eapply (attempt_mono _ (budget req) _ 1); [|lia..]. unfold deliverLocalWithinPlacementSpan.
  apply attempt_see. intros t'. apply attempt_silent; [apply silent_lift|]. intros [id|]; [|apply attempt_local].
  eapply attempt_mono; [apply attempt_outcome|lia..].
Qed.

(** A second attempt after a stale rejection of the first. *)
Lemma attempt_again ow b1 b2 n1 n2 m h :
  attempt ow b1 n1 m → (∀ e, attempt ow b2 n2 (h e)) →
  attempt ow (b1 + b2) (n1 + n2) (catch m (λ e, if isStaleActivationRejection e then h e else throw e)).
Proof.
  intros Hm Hh t. destruct (Hm t) as [G1 G2 G3 G4 G5 G6]. unfold catch, after.
  destruct (m t) as [t' ev no [[v|e]|]]; simpl in *.
  - rewrite app_nil_r. split; simpl; try done; lia.
  - destruct (isStaleActivationRejection e) eqn:He; simpl.
    + destruct (Hh e t') as [K1 K2 K3 K4 K5 K6]. specialize (λ Hs, G5 Hs e eq_refl He) as G7.
      split; simpl; rewrite ?hops_app, ?runs_app; try lia; [by apply Forall_app|..].
      * intros Hs. rewrite (G7 Hs). by apply K4.
      * intros Hs e' Hv Hst. rewrite (G7 Hs). by eapply K5.
      * intros Hs How v Hv. rewrite (G7 Hs). by eapply K6.
    + rewrite app_nil_r. split; simpl; try done; lia.
  - split; simpl; try done; lia.
Qed.

Lemma attempt_lookup on_stale n b k s req :
  (default 0%nat (forwardCount req) <= MAX_FORWARD_COUNT)%nat →
  (∀ e, attempt (oneWay req) b k (on_stale e)) →
  attempt (oneWay req) (S (budget req) + b) (1 + k) (lookup_then on_stale n s req).
Proof.
  intros Hfc Hon. unfold lookup_then. apply attempt_see. intros t.
  apply attempt_silent; [apply silent_lift|]. intros [a|].
  - apply attempt_silent; [by apply silent_emit|]. intros _. by apply attempt_again; [apply attempt_route|].
  - eapply attempt_mono; [by apply attempt_place|lia..].
Qed.

Lemma attempt_deliver n s req :
  (default 0%nat (forwardCount req) <= MAX_FORWARD_COUNT)%nat → (∀ t, clientTarget (env s t) = None) →
  attempt (oneWay req) (3 * S (budget req)) 3 (deliver n s req).
Proof.
  intros Hfc Hcl. unfold deliver. apply attempt_see. intros t. rewrite Hcl.
  destruct (statelessWorker (env s t)) as [w|] eqn:Hw.
  { eapply attempt_mono; [by eapply attempt_worker|lia..]. }
  assert (Hl : attempt (oneWay req) (2 * S (budget req)) 2 (lookupAndInvoke n s req)).
  { unfold lookupAndInvoke. eapply attempt_mono; [apply attempt_lookup; [done|]|..]; try reflexivity.
    - intros e. apply attempt_silent; [by apply silent_emit|]. intros _.
      apply (attempt_lookup throw n 0 0); [done|]. apply attempt_throw.
    - lia. }
  destruct (cached _) as [a|]; [|eapply attempt_mono; [exact Hl|lia..]].
  eapply attempt_mono; [apply attempt_again; [by apply attempt_route|]|..].
  - intros e. apply attempt_silent; [by apply silent_emit|]. intros _. exact Hl.
  - lia.
  - lia.
Qed.

(** ** Termination *)

(** From [T] on, no claim of another one-way call is in flight and the directory
    names no activation of the asking silo that is neither the claimed one nor
    live there. *)
Definition settled (T : nat) : Prop := ∀ s t, (T <= t)%nat →
  claimInFlight (env s t) = false ∧
  ∀ w, register (env s t) (newId (env s t)) = inl w → addr_silo w = s →
    addr_activationId w = newId (env s t) ∨ gotten (env s (S t)) = Some (addr_activationId w, true).

Definition ends {A} (m : M A) (t : nat) : Prop := r_value (m t) ≠ None.

Lemma ends_after {A B} (m : M A) (k : A + Error → M B) t :
  ends m t → (∀ v t', ends (k v) t') → ends (after m k) t.
Proof. unfold ends, after. intros Hm Hk. by destruct (r_value (m t)); [apply Hk|]. Qed.
Lemma ends_bind {A B} (m : M A) (k : A → M B) t :
  ends m t → (∀ v t', ends (k v) t') → ends (mbind k m) t.
Proof. intros Hm Hk. apply ends_after; [done|]. by intros [a|e] t'; [apply Hk|]. Qed.
Lemma ends_hop {A} (m : M A) t : ends m t → ends (hop m) t.
Proof. unfold ends, hop. simpl. by destruct (r_value (m t)). Qed.
Lemma ends_see {B} s (k : View → M B) t : ends (k (env s t)) (S t) → ends (mbind k (see s)) t.
Proof. done. Qed.
Lemma ends_lift {A B} (r : A + Error) (k : A → M B) t : (∀ v, r = inl v → ends (k v) t) → ends (mbind k (lift r)) t.
Proof. unfold ends, mbind, M_bind, bind, after. simpl. destruct r; [|done]. intros H. by apply H. Qed.
Lemma ends_now {A B} (m : M A) (k : A → M B) t t' ev no a :
  m t = mkRes t' ev no (Some (inl a)) → ends (k a) t' → ends (mbind k m) t.
Proof. unfold ends, mbind, M_bind, bind, after. by intros ->. Qed.
Lemma ends_settle s o t : ends (settle s o) t.
Proof. by destruct o as [[v|e]|b e]. Qed.
Lemma ends_worker s w t : ends (settle_worker s w) t.
Proof. destruct w; [apply ends_settle|done]. Qed.
Lemma ends_unregister s a t : ends (unregister s a) t.
Proof. unfold unregister. by repeat (apply ends_bind; [done|]; intros ? ?); case_match. Qed.

Lemma ends_send dl s to req t : (∀ t', (t <= t')%nat → ends (dl to req) t') → ends (sendRemote dl s to req) t.
Proof.
  intros Hdl. unfold sendRemote. apply ends_see. destruct (connectError _); [done|].
  unfold ends. unfold mbind at 1, M_bind, bind, after at 1. simpl.
  destruct (requestLost _); [by destruct (oneWay req)|].
  change (ends (answer ← hop (receiveRequest dl to req); if oneWay req then ret None else
    v ← see s; match replyLost v with Some e => throw (wire_error e)
      | None => (if (answer.2 : bool) then emit (CacheInvalidate s) else ret ()) ;; lift answer.1 end) (S t)).
  apply ends_bind.
  - apply ends_hop, ends_see. destruct (sheds _); [done|]. apply Hdl. lia.
  - intros [r no] t'. destruct (oneWay req); [done|]. apply ends_see. destruct (replyLost _); [done|].
    destruct no; simpl; [|destruct r; done]. by destruct r.
Qed.

Lemma ends_forward dl s to req t :
  (∀ t', (t <= t')%nat → default 0%nat (forwardCount req) < MAX_FORWARD_COUNT →
     ends (dl to (with_forwardCount (S (default 0 (forwardCount req))) req)) t')%nat →
  ends (forwardTo dl s to req) t.
Proof.
  intros Hdl. unfold forwardTo. cbv zeta. case_bool_decide; [done|].
  eapply ends_now; [done|]. apply ends_send. intros t' Ht. apply Hdl; [done|lia].
Qed.

Lemma ends_activate s req id t : ends (activateLocalAndInvoke s req id) t.
Proof.
  unfold activateLocalAndInvoke. cbv zeta. apply ends_see. destruct (activateError _).
  - apply ends_bind; [apply ends_unregister|done].
  - apply ends_after; [apply ends_settle|]. intros [v|e] t'; [done|]. apply ends_see.
    destruct (activationFailed _); [|done]. apply ends_bind; [apply ends_unregister|done].
Qed.

(** How deep the calls of [deliverLocal] go from the moment [t]. *)
Definition depth (T t : nat) (req : Request) : nat := 2 * (T - t) + 2 * budget req.

Lemma ends_claim T dl s req t :
  settled T →
  (∀ t', (t < T)%nat → (t + 2 <= t')%nat → ends (dl s req) t') →
  (∀ to t', (t <= t')%nat → (default 0 (forwardCount req) < MAX_FORWARD_COUNT)%nat →
     ends (dl to (with_forwardCount (S (default 0%nat (forwardCount req))) req)) t') →
  ends (claimLocalActivation dl s req) t.
Proof.
  intros HT Hself Hforward. unfold claimLocalActivation. apply ends_see. cbv zeta. apply ends_lift. intros w Hw.
  eapply ends_now; [done|].
  destruct (SiloAddress_equals (addr_silo w) s) eqn:Hs; simpl.
  2:{ apply ends_forward. intros t' Ht. apply Hforward. lia. }
  case_bool_decide as Hid; [apply ends_activate|]. apply ends_see.
  apply SiloAddress_equals_iff in Hs.
  destruct (decide (T <= t)%nat) as [Ht|Ht].
  - destruct (HT s t Ht) as [_ Hreg]. destruct (Hreg w Hw Hs) as [?| ->]; [done|].
    rewrite bool_decide_true by done. apply ends_settle.
  - destruct (match gotten _ with Some _ => _ | None => _ end); [apply ends_settle|].
    destruct (comingUp _); [apply ends_see, Hself; lia|].
    unfold unregister. unfold mbind at 1, M_bind, bind at 1, ends, after. simpl.
    destruct (unregisterError _); simpl; [done|]. apply Hself; lia.
Qed.

Lemma ends_local T n s req t :
  settled T →
  ((depth T t req + 2 <= n)%nat → ends (deliverLocal n s req) t) ∧
  ((depth T t req + 1 <= n)%nat → ends (claimAndActivateLocally n s req) t).
Proof.
  intros HT. revert s req t. induction n as [|n IH]; intros s req t; [unfold depth; lia|].
  split; intros Hn; simpl; apply ends_see.
  - destruct (statelessWorker _); [apply ends_worker|]. apply ends_lift. intros [id|] _; [apply ends_settle|].
    apply IH. unfold depth in *. lia.
  - destruct (oneWay req && _) eqn:Hg.
    + assert (t < T)%nat.
      { destruct (decide (T <= t)%nat) as [Ht|]; [|lia]. destruct (HT s t Ht) as [Hf _].
        by rewrite Hf, andb_false_r in Hg. }
      apply ends_see, ends_lift. intros [id|] _; [apply ends_settle|]. apply IH. unfold depth in *. lia.
    + apply (ends_claim T); [done|..].
      * intros t' H1 H2. apply IH. unfold depth in *. lia.
      * intros to t' H1 H2. apply IH. unfold depth, budget, MAX_FORWARD_COUNT in *. simpl. lia.
Qed.

Lemma ends_route T n s a req t :
  settled T → (2 * T + 6 <= n)%nat → ends (routeTo n s a req) t.
Proof.
  intros HT Hn.
  assert (Hl : ∀ s t, ends (deliverLocal n s req) t).
  { intros s' t'. apply (ends_local T); [done|]. unfold depth, budget, MAX_FORWARD_COUNT. lia. }
  unfold routeTo. destruct (negb _); [by apply ends_send|]. apply ends_see, ends_lift. intros [id|] _; [|done].
  case_bool_decide; [apply ends_settle|done].
Qed.

Lemma ends_place T n s req t : settled T → (2 * T + 6 <= n)%nat → ends (placeAndInvoke n s req) t.
Proof.
  intros HT Hn. unfold placeAndInvoke. apply ends_see. destruct (placementError _); [done|].
  destruct (foldl _ _ _); [done|]. apply ends_bind; [by destruct (versionFilter _)|].
  intros candidates t'. cbv zeta. destruct (SiloAddress_equals _ _).
  - unfold deliverLocalWithinPlacementSpan. apply ends_see, ends_lift. intros [id|] _; [apply ends_settle|].
    apply (ends_local T); [done|]. unfold depth, budget, MAX_FORWARD_COUNT. lia.
  - apply ends_send. intros t'' _. apply (ends_local T); [done|]. unfold depth, budget, MAX_FORWARD_COUNT. lia.
Qed.

Lemma ends_lookup T n s req on_stale t :
  settled T → (2 * T + 6 <= n)%nat → (∀ e t, ends (on_stale e) t) → ends (lookup_then on_stale n s req) t.
Proof.
  intros HT Hn Hon. unfold lookup_then. apply ends_see, ends_lift. intros [a|] _; [|by apply (ends_place T)].
  apply ends_bind; [done|]. intros _ t'. apply ends_after; [by apply (ends_route T)|].
  intros [v|e] t''; [done|]. by destruct (isStaleActivationRejection e).
Qed.

Lemma ends_deliver T n s req t : settled T → (2 * T + 6 <= n)%nat → ends (deliver n s req) t.
Proof.
  intros HT Hn. unfold deliver. apply ends_see.
  assert (Hl : ∀ t, ends (lookupAndInvoke n s req) t).
  { intros t'. apply (ends_lookup T); [done..|]. intros e t''. apply ends_bind; [done|]. intros _ t3.
    by apply (ends_lookup T). }
  destruct (clientTarget _) as [r|]; [by destruct r|]. destruct (statelessWorker _); [apply ends_worker|].
  destruct (cached _); [|done]. apply ends_after; [by apply (ends_route T)|].
  intros [v|e] t'; [done|]. destruct (isStaleActivationRejection e); [|done]. apply ends_bind; [done|]. by intros _ t''.
Qed.

(** *** The single-silo dispatcher *)

Lemma local_runs n s t :
  let r := local_deliver n s t in
  (runs (r_events r) <= 1)%nat ∧ ∀ v, r_value r = Some (inl v) → runs (r_events r) = 1%nat.
Proof.
  revert t. induction n as [|n IH]; intros t; [by split; [unfold runs; simpl; lia|]|].
  simpl. unfold mbind, M_bind, bind, after. simpl.
  destruct (statelessWorker _) as [[[[v|e]|b e]|e]|]; try (by split; unfold runs; simpl; try lia).
  destruct (activateError _); [by split; unfold runs; simpl; try lia|].
  destruct (outcome _) as [[v|e]|[] e]; try (by split; unfold runs; simpl; try lia). apply IH.
Qed.

Lemma detach_events (m : M (option Value)) t : r_events ((hop m ;; ret None : M (option Value)) t) = r_events (m t).
Proof.
  unfold mbind, M_bind, bind, after, hop. destruct (m t) as [t' l no [v|]]; simpl; [by rewrite app_nil_r|done].
Qed.

(** ** The theorems *)

(** Whatever the caches, directories, catalogs and wires of all silos answer,
    a call that begins here crosses the wire at most nine times, never with a
    forward count above the cap, and begins the method at most three times. *)
Theorem dispatch_hops_bounded fuel s req t :
  forwardCount req = None → (∀ s t, clientTarget (env s t) = None) →
  let ev := r_events (invoke fuel s req t) in
  (hops ev <= 9)%nat ∧ (runs ev <= 3)%nat ∧
  ∀ from to fc, Sent from to fc ∈ ev → (default 0%nat fc <= MAX_FORWARD_COUNT)%nat.
Proof.
  intros Hfc Hcl ev. assert (Hd : attempted (oneWay req) 9 3 (deliver fuel s req t)).
  { pose proof (attempt_deliver fuel s req) as Hd. unfold budget in Hd. rewrite Hfc in Hd.
    apply Hd; [unfold MAX_FORWARD_COUNT; simpl; lia|done]. }
  assert (Hev : ev = r_events (deliver fuel s req t)).
  { subst ev. unfold invoke. destruct (oneWay req); [apply detach_events|done]. }
  rewrite Hev. destruct Hd as [H1 H2 H3 _ _ _]. split_and!; [done..|].
  intros from to fc Hin. rewrite Forall_forall in H2. exact (H2 _ Hin).
Qed.

(** C14: As long as no method fails with a stale rejection of its own, a call
    begins its method at most once, and exactly once when an awaited call
    succeeds. The dispatcher of a single silo needs no such condition. *)
Theorem dispatch_runs_once fuel s req t :
  forwardCount req = None → (∀ s t, clientTarget (env s t) = None) → sound_bodies →
  let r := invoke fuel s req t in
  (runs (r_events r) <= 1)%nat ∧
  (oneWay req = false → ∀ v, r_value r = Some (inl v) → runs (r_events r) = 1%nat) ∧
  (runs (r_events (local_deliver fuel s t)) <= 1)%nat.
Proof.
  intros Hfc Hcl Hsound r. assert (Hd : attempted (oneWay req) 9 3 (deliver fuel s req t)).
  { pose proof (attempt_deliver fuel s req) as Hd. unfold budget in Hd. rewrite Hfc in Hd.
    apply Hd; [unfold MAX_FORWARD_COUNT; simpl; lia|done]. }
  destruct Hd as [_ _ _ H4 _ H6]. split_and!; [..|apply local_runs].
  - subst r. unfold invoke. destruct (oneWay req); [rewrite detach_events|]; by apply H4.
  - intros How. subst r. unfold invoke. rewrite How in *. by apply H6.
Qed.

(** C15: Every call terminates once the answers settle: if from some moment [T] on
    no one-way claim is left in flight and no directory names a local activation
    that is not there, then whatever happened before, [2 * T + 6] levels of calls
    are enough to end it. *)
Theorem dispatch_terminates T fuel s req t :
  settled T → (2 * T + 6 <= fuel)%nat → r_value (invoke fuel s req t) ≠ None.
Proof.
  intros HT Hf. pose proof (ends_deliver T fuel s req t HT Hf) as He. unfold invoke.
  destruct (oneWay req); [|done]. apply ends_bind; [by apply ends_hop|done].
Qed.
End dispatch.
Arguments r_events {Body A}.
Arguments r_value {Body A}.

(** ** Runs *)
Module Runs.
Open Scope string_scope.
Open Scope nat_scope.
Definition silo_a : SiloAddress := mkSilo "a" "1" "a:1".
Definition silo_b : SiloAddress := mkSilo "b" "1" "b:1".
Definition grain : GrainId := mkGrainId "Counter" (KString "1").
Definition req : Request := mkReq grain false None.
Definition here (s : SiloAddress) : GrainAddress := mkAddress grain s "x".

(** A silo that wins every claim; [f] says where the directory finds the grain,
    [l] what is live here, [o] how a call on it ends. *)
Definition view (s : SiloAddress) (f : option GrainAddress) (l : option string) (o : @Outcome nat string)
    : @View nat string :=
  mkView None None None (inl f) (inl l) o false "n" (λ id, inl (mkAddress grain s id)) None None false
    None false [s] [] None None (λ _, s) None None None None false.

(** The grain lives on the second silo. *)
Definition on_b (s : SiloAddress) (t : nat) : View :=
  view s (Some (here silo_b)) (if bool_decide (s = silo_b) then Some "x" else None) (Ran (inl 7%nat)).

Lemma dispatch_hops_bounded_witness :
  hops (r_events (invoke on_b 6 silo_a req 0)) = 1%nat ∧
  (hops (r_events (invoke on_b 6 silo_a req 0)) <= 9)%nat.
Proof.
  split; [vm_compute; reflexivity|].
  exact (proj1 (dispatch_hops_bounded on_b 6 silo_a req 0 eq_refl (λ _ _, eq_refl))).
Defined.

Lemma on_b_sound : sound_bodies on_b.
Proof. by split. Qed.

Lemma dispatch_runs_once_witness :
  r_value (invoke on_b 6 silo_a req 0) = Some (inl (Some 7%nat)) ∧
  runs (r_events (invoke on_b 6 silo_a req 0)) = 1%nat.
Proof.
  assert (Hv : r_value (invoke on_b 6 silo_a req 0) = Some (inl (Some 7%nat))) by (vm_compute; reflexivity).
  split; [exact Hv|].
  exact (proj1 (proj2 (dispatch_runs_once on_b 6 silo_a req 0 eq_refl (λ _ _, eq_refl) on_b_sound)) eq_refl _ Hv).
Defined.

(** Until moment 7 the directory of the first silo names an activation of it that
    is gone; each time the entry is removed and the claim made again. *)
Definition stale_until_7 (s : SiloAddress) (t : nat) : @View nat string :=
  mkView None None None (inl None) (inl None) (Ran (inl 7%nat)) false "n"
    (λ id, inl (mkAddress grain s (if bool_decide (t < 7)%nat then "gone" else id))) None None false
    None false [s] [] None None (λ _, s) None None None None false.

Lemma stale_until_7_settled : settled stale_until_7 7.
Proof.
  intros s t Ht. split; [done|]. intros w [= <-] _. left. simpl. by rewrite bool_decide_false by lia.
Qed.

Lemma dispatch_terminates_witness :
  r_value (invoke stale_until_7 20 silo_a req 0) ≠ None.
Proof. exact (dispatch_terminates stale_until_7 7 20 silo_a req 0 stale_until_7_settled ltac:(lia)). Defined.

(** A method that fails with a rejection of the same kind, from a nested call: the
    dispatcher takes it for a stale address and begins the method three times. *)
Definition nested_rejection (s : SiloAddress) (t : nat) : @View nat string :=
  mkView None None (Some (here s)) (inl (Some (here s))) (inl (Some "x")) (Ran (inr (Rejection noActivation)))
    false "n" (λ id, inl (mkAddress grain s id)) None None false
    None false [s] [] None None (λ _, s) None None None None false.

Lemma nested_rejection_runs_three_times :
  runs (r_events (invoke nested_rejection 6 silo_a req 0)) = 3%nat ∧
  runs (r_events (local_deliver nested_rejection 6 silo_a 0)) = 1%nat.
Proof. by vm_compute. Qed.
End Runs.
