(* ===== verification/Heap.v ===== *)
(** * The four-ary heaps of the repartitioner

    Models [packages/runtime/src/placement/repartitioning/max-heap.ts], and the
    two sifting loops it shares, up to the direction of the comparison, with
    [frequent-item-collection.ts]. A heap is an array of nodes and the index each
    node is stored at; the loops keep a hole and write the node at the end. *)
From stdpp Require Import prelude gmap list sorting.
From S2P Require Import Prelude.
Open Scope nat_scope.

(** ** Arrays *)

Lemma delete_insert_list {A} (l : list A) i x : delete i (<[i := x]> l) = delete i l.
Proof. revert i. induction l as [|y l IH]; intros [|i]; simpl; [done..|]. by f_equal; apply IH. Qed.

(** Moving [y] from [p] to the hole at [i]. *)
Lemma move_perm {A} (l : list A) i p x y :
  l !! p = Some y → i < length l → p ≠ i → <[p := x]> (<[i := y]> l) ≡ₚ <[i := x]> l.
Proof.
  intros Hp Hi Hne.
  assert (Hplt : p < length l) by (by eapply lookup_lt_Some).
  assert (Hset : ∀ z (l' : list A) j, j < length l' → <[j := z]> l' ≡ₚ z :: delete j l').
  { intros z l' j Hj. rewrite (delete_Permutation (<[j := z]> l') j z) by (by apply list_lookup_insert_eq).
    by rewrite delete_insert_list. }
  rewrite (Hset x (<[i := y]> l) p) by (by rewrite length_insert). rewrite (Hset x l i) by done.
  constructor. apply (Permutation_cons_inv (a := y)).
  rewrite <- (Hset y l i Hi). symmetry. apply delete_Permutation. by rewrite list_lookup_insert_ne.
Qed.

Definition ARITY : nat := 4.
Definition getParentIndex (index : nat) : nat := (index - 1) / ARITY.
Definition getFirstChildIndex (index : nat) : nat := ARITY * index + 1.

Lemma parent_lt i : 0 < i → getParentIndex i < i.
Proof. unfold getParentIndex, ARITY. intros Hi. pose proof (Nat.div_le_upper_bound (i - 1) 4 (i - 1)). lia. Qed.

(** The children of a node are four consecutive indices. *)
Lemma child_iff i j : 0 < j → getParentIndex j = i ↔ getFirstChildIndex i ≤ j < getFirstChildIndex i + ARITY.
Proof.
  intros Hj. unfold getParentIndex, getFirstChildIndex, ARITY.
  pose proof (Nat.div_mod_eq (j - 1) 4). pose proof (Nat.mod_upper_bound (j - 1) 4). lia.
Qed.

Section sift.
Context {A K : Type} `{Countable K} (key : A → K) (ahead : A → A → bool).

(** ** The loops *)

(** [moveUp]; a hole at [i] needs at most [i] rounds. *)
Fixpoint move_up (fuel : nat) (node : A) (i : nat) (nodes : list A) (index : gmap K nat)
    : list A * gmap K nat :=
  let stop := (<[i := node]> nodes, <[key node := i]> index) in
  match fuel with
  | O => stop
  | S n =>
      match nodes !! getParentIndex i with
      | Some parent =>
          if bool_decide (0 < i) && ahead node parent
          then move_up n node (getParentIndex i) (<[i := parent]> nodes) (<[key parent := i]> index)
          else stop
      | None => stop
      end
  end.

(** The first child that no later child is ahead of. *)
Definition best_child (nodes : list A) (first size : nat) (child : A) : nat * A :=
  foldl (λ b j, match nodes !! j with
                | Some next => if ahead next b.2 then (j, next) else b
                | None => b
                end) (first, child) (seq (S first) (min (first + ARITY) size - S first)).

(** [moveDown] *)
Fixpoint move_down (fuel size : nat) (node : A) (i : nat) (nodes : list A) (index : gmap K nat)
    : list A * gmap K nat :=
  let stop := (<[i := node]> nodes, <[key node := i]> index) in
  match fuel with
  | O => stop
  | S n =>
      match nodes !! getFirstChildIndex i with
      | Some child =>
          if bool_decide (getFirstChildIndex i < size) then
            let '(j, best) := best_child nodes (getFirstChildIndex i) size child in
            if ahead best node
            then move_down n size node j (<[i := best]> nodes) (<[key best := i]> index)
            else stop
          else stop
      | None => stop
      end
  end.

(** ** Order and index *)

(** [ahead] is a strict weak order. *)
Class StrictWeak : Prop := {
  ahead_asym : ∀ x y, ahead x y = true → ahead y x = false;
  ahead_neg_trans : ∀ x y z, ahead x y = false → ahead y z = false → ahead x z = false }.

(** Below the index [r], up to [size], no node is ahead of its parent; the pairs
    [skip] says are exempt. *)
Definition ordered_from (r size : nat) (skip : nat → bool) (l : list A) : Prop :=
  ∀ j x y, 0 < j < size → r ≤ getParentIndex j → skip j = false →
    l !! j = Some x → l !! getParentIndex j = Some y → ahead x y = false.
Definition ordered (size : nat) (l : list A) : Prop := ordered_from 0 size (λ _, false) l.

(** The index of every node is where it is. *)
Definition indexed (size : nat) (l : list A) (index : gmap K nat) : Prop :=
  ∀ k j, index !! k = Some j ↔ j < size ∧ ∃ x, l !! j = Some x ∧ key x = k.

(** The same while the node [key] stands for is in the hole [i]. *)
Definition indexed_but (i : nat) (node : A) (size : nat) (l : list A) (index : gmap K nat) : Prop :=
  ∀ k j, k ≠ key node →
    index !! k = Some j ↔ j < size ∧ ∃ x, <[i := node]> l !! j = Some x ∧ key x = k.

Lemma indexed_stop i node size l index :
  i < size → i < length l → NoDup (key <$> <[i := node]> l) → indexed_but i node size l index →
  indexed size (<[i := node]> l) (<[key node := i]> index).
Proof.
  intros Hi Hl Hnd Hb k j. destruct (decide (k = key node)) as [->|Hne].
  - rewrite lookup_insert_eq. split.
    + intros [= <-]. split; [done|]. exists node. by rewrite list_lookup_insert_eq.
    + intros (Hj & x & Hx & Hk). f_equal. eapply (NoDup_lookup _ _ _ (key node)); [exact Hnd|..].
      * by rewrite list_lookup_fmap, list_lookup_insert_eq.
      * by rewrite list_lookup_fmap, Hx, <- Hk.
  - rewrite lookup_insert_ne by done. by apply Hb.
Qed.

(** One round of a loop: the node at [p] moves into the hole. *)
Lemma indexed_round i p node y size l index :
  i < size → p < size → i < length l → p ≠ i → l !! p = Some y →
  NoDup (key <$> <[i := node]> l) → indexed_but i node size l index →
  indexed_but p node size (<[i := y]> l) (<[key y := i]> index).
Proof.
  intros Hi Hps Hl Hne Hp Hnd Hb k j Hk.
  assert (Hplt : p < length l) by (by eapply lookup_lt_Some).
  assert (Hy : <[i := node]> l !! p = Some y) by (by rewrite list_lookup_insert_ne).
  assert (Hm : ∀ j x, j ≠ i → j ≠ p → <[p := node]> (<[i := y]> l) !! j = Some x ↔ <[i := node]> l !! j = Some x).
  { intros j' x ? ?. by rewrite !list_lookup_insert_ne. }
  assert (Hmi : <[p := node]> (<[i := y]> l) !! i = Some y)
    by (rewrite list_lookup_insert_ne by done; by apply list_lookup_insert_eq).
  assert (Hmp : <[p := node]> (<[i := y]> l) !! p = Some node)
    by (apply list_lookup_insert_eq; by rewrite length_insert).
  destruct (decide (k = key y)) as [->|Hky].
  - rewrite lookup_insert_eq. split; [intros [= <-]; split; [done|by exists y]|].
    intros (Hj & x & Hx & Hkx). f_equal. destruct (decide (j = i)) as [->|Hji]; [done|].
    destruct (decide (j = p)) as [->|Hjp]; [rewrite Hmp in Hx; congruence|].
    apply Hm in Hx; [|done..]. exfalso. apply Hjp.
    eapply (NoDup_lookup _ _ _ (key y)); [exact Hnd|..]; rewrite list_lookup_fmap; [by rewrite Hx, <- Hkx|by rewrite Hy].
  - rewrite lookup_insert_ne by done. rewrite (Hb k j Hk). split; intros (Hj & x & Hx & Hkx); (split; [done|]).
    + destruct (decide (j = i)) as [->|Hji]; [rewrite list_lookup_insert_eq in Hx by done; congruence|].
      destruct (decide (j = p)) as [->|Hjp]; [congruence|]. exists x. by rewrite Hm.
    + destruct (decide (j = i)) as [->|Hji]; [congruence|].
      destruct (decide (j = p)) as [->|Hjp]; [congruence|]. exists x. by rewrite <- Hm.
Qed.

(** What a loop leaves, whatever the order: the same nodes and an exact index. *)
Record shaped (size : nat) (l0 : list A) (res : list A * gmap K nat) : Prop := {
  sh_perm : res.1 ≡ₚ l0;
  sh_index : indexed size res.1 res.2;
  sh_beyond : ∀ j, size ≤ j → res.1 !! j = l0 !! j }.

Lemma stop_shaped i node size l index :
  i < size → size ≤ length l → NoDup (key <$> <[i := node]> l) → indexed_but i node size l index →
  shaped size (<[i := node]> l) (<[i := node]> l, <[key node := i]> index).
Proof. intros Hi Hsz Hnd Hix. split; simpl; [done|apply indexed_stop; try done; lia|done]. Qed.

(** A round leads from a hole to the next. *)
Lemma round_shaped i p node y size l index res :
  i < size → p < size → size ≤ length l → p ≠ i → l !! p = Some y →
  NoDup (key <$> <[i := node]> l) → indexed_but i node size l index →
  (size ≤ length (<[i := y]> l) → NoDup (key <$> <[p := node]> (<[i := y]> l)) →
   indexed_but p node size (<[i := y]> l) (<[key y := i]> index) →
   shaped size (<[p := node]> (<[i := y]> l)) res) →
  shaped size (<[i := node]> l) res.
Proof.
  intros Hi Hp Hsz Hne Hy Hnd Hix Hres. assert (Hperm := move_perm l i p node y Hy ltac:(lia) Hne).
  destruct Hres as [G1 G2 G3].
  - by rewrite length_insert.
  - by rewrite Hperm.
  - by apply indexed_round; try lia.
  - split; [by rewrite G1|done|]. intros j Hj. rewrite G3 by done. by rewrite !list_lookup_insert_ne by lia.
Qed.

Lemma move_up_shaped fuel node i size l index :
  i < size → size ≤ length l → NoDup (key <$> <[i := node]> l) → indexed_but i node size l index →
  shaped size (<[i := node]> l) (move_up fuel node i l index).
Proof.
  revert i l index. induction fuel as [|fuel IH]; intros i l index Hi Hsz Hnd Hix; simpl; [by apply stop_shaped|].
  destruct (l !! getParentIndex i) as [y|] eqn:Hy; [|by apply stop_shaped].
  destruct (bool_decide (0 < i) && ahead node y) eqn:Hgo; [|by apply stop_shaped].
  apply andb_true_iff in Hgo as [H0%bool_decide_eq_true _]. pose proof (parent_lt i H0).
  eapply round_shaped; [done| |done| |done..|]; [lia|lia|]. intros Hsz' Hnd' Hix'. by apply IH; try lia.
Qed.

Lemma best_child_at l first size child :
  l !! first = Some child → first < size →
  let b := best_child l first size child in
  first ≤ b.1 < min (first + ARITY) size ∧ l !! b.1 = Some b.2.
Proof.
  intros Hc Hlt. cbv zeta. unfold best_child.
  assert (Hjs : ∀ j, j ∈ seq (S first) (min (first + ARITY) size - S first) → first ≤ j < min (first + ARITY) size)
    by (intros j Hj; apply elem_of_seq in Hj; lia).
  assert (H0 : first ≤ (first, child).1 < min (first + ARITY) size) by (simpl; unfold ARITY; lia).
  assert (H1 : l !! (first, child).1 = Some (first, child).2) by done.
  revert Hjs H0 H1. generalize (first, child). generalize (seq (S first) (min (first + ARITY) size - S first)) as js.
  induction js as [|j js IH]; intros b Hjs H0 H1; [done|]. simpl. apply IH; [intros; apply Hjs; by right|..];
    destruct (l !! j) as [next|] eqn:Hn; try done; destruct (ahead next b.2); simpl; try done.
  apply Hjs. by left.
Qed.

Lemma move_down_shaped fuel size node i l index :
  i < size → size ≤ length l → NoDup (key <$> <[i := node]> l) → indexed_but i node size l index →
  shaped size (<[i := node]> l) (move_down fuel size node i l index).
Proof.
  revert i l index. induction fuel as [|fuel IH]; intros i l index Hi Hsz Hnd Hix; simpl; [by apply stop_shaped|].
  destruct (l !! getFirstChildIndex i) as [child|] eqn:Hc; [|by apply stop_shaped].
  case_bool_decide as Hfc; [|by apply stop_shaped].
  destruct (best_child_at l _ size child Hc Hfc) as (Hj & Hlj).
  destruct (best_child l (getFirstChildIndex i) size child) as [j best]. simpl in *.
  destruct (ahead best node); [|by apply stop_shaped].
  assert (i < j) by (unfold getFirstChildIndex, ARITY in *; lia).
  eapply round_shaped; [done| |done| |done..|]; [lia|lia|]. intros Hsz' Hnd' Hix'. by apply IH; try lia.
Qed.

(** ** Sifting up *)

Context {Hahead : StrictWeak}.

Lemma ahead_irrefl x : ahead x x = false.
Proof using Hahead. destruct (ahead x x) eqn:He; [|done]. by rewrite (ahead_asym _ _ He) in He. Qed.

(** [node] in the hole [i] may be ahead of its parent only. *)
Definition up_inv (i size : nat) (l : list A) : Prop :=
  ordered_from 0 size (λ j, bool_decide (j = i)) l ∧
  ∀ c x y, 0 < i → 0 < c < size → getParentIndex c = i →
    l !! c = Some x → l !! getParentIndex i = Some y → ahead x y = false.

Lemma up_round i size l node y :
  0 < i < size → size ≤ length l → l !! getParentIndex i = Some y → ahead node y = true →
  up_inv i size (<[i := node]> l) →
  up_inv (getParentIndex i) size (<[getParentIndex i := node]> (<[i := y]> l)).
Proof using Hahead.
  intros Hi Hsz Hp Hah [Ha Hb]. pose proof (parent_lt i ltac:(lia)) as Hpi. set (p := getParentIndex i) in *.
  assert (Hm : ∀ j, j ≠ i → j ≠ p → <[p := node]> (<[i := y]> l) !! j = <[i := node]> l !! j)
    by (intros; by rewrite !list_lookup_insert_ne).
  assert (Hmi : <[p := node]> (<[i := y]> l) !! i = Some y)
    by (rewrite list_lookup_insert_ne by lia; apply list_lookup_insert_eq; lia).
  assert (Hmp : <[p := node]> (<[i := y]> l) !! p = Some node)
    by (apply list_lookup_insert_eq; rewrite length_insert; lia).
  assert (Hly : <[i := node]> l !! p = Some y) by (by rewrite list_lookup_insert_ne by lia).
  assert (Hyn := ahead_asym _ _ Hah).
  assert (Hold : ∀ j x z, 0 < j < size → j ≠ i → <[i := node]> l !! j = Some x →
    <[i := node]> l !! getParentIndex j = Some z → ahead x z = false).
  { intros j x z Hj Hne Hx Hz. eapply (Ha j); [done|lia|by rewrite bool_decide_false|done|done]. }
  split.
  - intros j x z Hj _ Hskip Hx Hz. apply bool_decide_eq_false in Hskip.
    pose proof (parent_lt j ltac:(lia)) as Hpj.
    destruct (decide (j = i)) as [->|Hji]; [fold p in Hz; congruence|]. rewrite Hm in Hx by done.
    destruct (decide (getParentIndex j = i)) as [Hpe|Hpe].
    + rewrite Hpe, Hmi in Hz. injection Hz as <-. by eapply Hb; [lia|exact Hj| | |].
    + destruct (decide (getParentIndex j = p)) as [Hpe'|Hpe'].
      * rewrite Hpe', Hmp in Hz. injection Hz as <-. eapply ahead_neg_trans; [|exact Hyn].
        eapply (Hold j); [done..|]. by rewrite Hpe'.
      * rewrite Hm in Hz by done. by eapply (Hold j).
  - intros c x z Hp0 Hc Hcp Hx Hz. pose proof (parent_lt p Hp0) as Hgp.
    rewrite Hm in Hz by lia.
    assert (Hyz : ahead y z = false) by (eapply (Hold p); [lia|lia|done|done]).
    destruct (decide (c = i)) as [->|Hci]; [congruence|].
    pose proof (parent_lt c ltac:(lia)). rewrite Hm in Hx by lia.
    eapply ahead_neg_trans; [|exact Hyz]. eapply (Hold c); [done..|]. by rewrite Hcp.
Qed.

Lemma move_up_order fuel node i size l index :
  i ≤ fuel → i < size → size ≤ length l → up_inv i size (<[i := node]> l) →
  ordered size (move_up fuel node i l index).1.
Proof using Hahead.
  revert i l index. induction fuel as [|fuel IH]; intros i l index Hf Hi Hsz Hinv.
  - assert (i = 0) as -> by lia. intros j x y Hj _ _ Hx Hy.
    eapply (proj1 Hinv j); [done|lia|rewrite bool_decide_false by lia; done|done|done].
  - simpl. assert (Hp : getParentIndex i < length l).
    { destruct (decide (i = 0)) as [->|]; [unfold getParentIndex, ARITY; simpl; lia|]. pose proof (parent_lt i). lia. }
    apply lookup_lt_is_Some in Hp as [y Hy]. rewrite Hy.
    destruct (bool_decide (0 < i) && ahead node y) eqn:Hgo.
    + apply andb_true_iff in Hgo as [H0%bool_decide_eq_true Hah]. pose proof (parent_lt i H0) as Hlt.
      apply IH; [lia|lia|by rewrite length_insert|]. by apply up_round.
    + simpl. intros j x z Hj _ _ Hx Hz. destruct (decide (j = i)) as [->|Hne].
      * apply andb_false_iff in Hgo as [Hgo%bool_decide_eq_false|Hgo]; [lia|].
        pose proof (parent_lt i ltac:(lia)).
        rewrite list_lookup_insert_eq in Hx by lia. rewrite list_lookup_insert_ne in Hz by lia. congruence.
      * eapply (proj1 Hinv j); [done|lia|by rewrite bool_decide_false|done|done].
Qed.

(** ** Sifting down *)

Lemma best_child_first l first size child :
  l !! first = Some child → first < size → size ≤ length l →
  ∀ c x, first ≤ c < min (first + ARITY) size → l !! c = Some x →
    ahead x (best_child l first size child).2 = false.
Proof using Hahead.
  intros Hc Hlt Hsz. unfold best_child. set (step := λ b j, _).
  assert (Hgen : ∀ n b a, a + n ≤ size → (∀ c x, first ≤ c < a → l !! c = Some x → ahead x b.2 = false) →
    ∀ c x, first ≤ c < a + n → l !! c = Some x → ahead x (foldl step b (seq a n)).2 = false).
  { induction n as [|n IH]; intros b a Han Hall; simpl; [by replace (a + 0) with a by lia|].
    destruct (lookup_lt_is_Some_2 l a ltac:(lia)) as [next Hn].
    replace (a + S n) with (S a + n) by lia.
    assert (Hs : step b a = if ahead next b.2 then (a, next) else b) by (unfold step; by rewrite Hn).
    rewrite Hs. apply IH; [lia|]. intros c x Hcr Hx.
    destruct (ahead next b.2) eqn:Hah; simpl; destruct (decide (c = a)) as [->|Hne].
    - replace x with next by congruence. apply ahead_irrefl.
    - eapply ahead_neg_trans; [by eapply (Hall c); [lia|]|by apply ahead_asym].
    - congruence.
    - eapply (Hall c); [lia|done]. }
  pose proof (Hgen (min (first + ARITY) size - S first) (first, child) (S first)) as Hg.
  unfold ARITY in *. replace (S first + (min (first + 4) size - S first)) with (min (first + 4) size) in Hg by lia.
  apply Hg; simpl; [lia|]. intros c x Hcr Hx. assert (c = first) as -> by lia.
  replace x with child by congruence. apply ahead_irrefl.
Qed.

(** A child of [node] in the hole [i] may be ahead of it. *)
Definition down_inv (r i size : nat) (l : list A) : Prop :=
  (∀ j x y, 0 < j < size → r ≤ getParentIndex j → getParentIndex j ≠ i →
     l !! j = Some x → l !! getParentIndex j = Some y → ahead x y = false) ∧
  ∀ c x y, 0 < i → r ≤ getParentIndex i → 0 < c < size → getParentIndex c = i →
    l !! c = Some x → l !! getParentIndex i = Some y → ahead x y = false.

Lemma down_round r i j0 size l node best :
  i < size → size ≤ length l → r ≤ i → 0 < j0 < size → getParentIndex j0 = i →
  l !! j0 = Some best → ahead best node = true →
  (∀ c x, 0 < c < size → getParentIndex c = i → l !! c = Some x → ahead x best = false) →
  down_inv r i size (<[i := node]> l) → down_inv r j0 size (<[j0 := node]> (<[i := best]> l)).
Proof using Hahead.
  intros Hi Hsz Hr Hj0 Hpj0 Hbest Hah Hmax [Ha Hb].
  pose proof (parent_lt j0 ltac:(lia)) as Hlt. rewrite Hpj0 in Hlt.
  assert (Hm : ∀ j, j ≠ i → j ≠ j0 → <[j0 := node]> (<[i := best]> l) !! j = l !! j)
    by (intros; by rewrite !list_lookup_insert_ne).
  assert (Hmi : <[j0 := node]> (<[i := best]> l) !! i = Some best)
    by (rewrite list_lookup_insert_ne by lia; apply list_lookup_insert_eq; lia).
  assert (Hmj : <[j0 := node]> (<[i := best]> l) !! j0 = Some node)
    by (apply list_lookup_insert_eq; rewrite length_insert; lia).
  assert (Hl : ∀ j, j ≠ i → <[i := node]> l !! j = l !! j) by (intros; by rewrite list_lookup_insert_ne).
  split.
  - intros j x y Hj Hrj Hpj Hx Hy. pose proof (parent_lt j ltac:(lia)) as Hlj.
    destruct (decide (getParentIndex j = i)) as [Hpi|Hpi].
    + rewrite Hpi, Hmi in Hy. injection Hy as <-. destruct (decide (j = j0)) as [->|Hne].
      * rewrite Hmj in Hx. injection Hx as <-. by apply ahead_asym.
      * rewrite Hm in Hx by lia. by eapply (Hmax j).
    + rewrite Hm in Hy by done. destruct (decide (j = i)) as [->|Hji].
      * rewrite Hmi in Hx. injection Hx as <-. eapply (Hb j0); [lia|done|done|done| |].
        -- by rewrite Hl by lia.
        -- by rewrite Hl by lia.
      * destruct (decide (j = j0)) as [->|Hne]; [done|]. rewrite Hm in Hx by done.
        eapply (Ha j); [done..| |]; by rewrite Hl.
  - intros c x y _ _ Hc Hpc Hx Hy. pose proof (parent_lt c ltac:(lia)).
    rewrite Hpj0, Hmi in Hy. injection Hy as <-. rewrite Hm in Hx by lia.
    eapply (Ha c); [done|rewrite Hpc; lia|lia|by rewrite Hl by lia|]. rewrite Hpc. by rewrite Hl by lia.
Qed.

Lemma move_down_order fuel r node i size l index :
  size ≤ i + fuel → i < size → size ≤ length l → r ≤ i → down_inv r i size (<[i := node]> l) →
  ordered_from r size (λ _, false) (move_down fuel size node i l index).1.
Proof using Hahead.
  revert i l index. induction fuel as [|fuel IH]; intros i l index Hf Hi Hsz Hr Hinv; [lia|].
  assert (Hstop : (∀ c x, 0 < c < size → getParentIndex c = i → l !! c = Some x → ahead x node = false) →
    ordered_from r size (λ _, false) (<[i := node]> l)).
  { intros Hch j x y Hj Hrj _ Hx Hy. destruct (decide (getParentIndex j = i)) as [Hp|Hp]; [|by eapply (proj1 Hinv j)].
    pose proof (parent_lt j ltac:(lia)). rewrite Hp, list_lookup_insert_eq in Hy by lia. injection Hy as <-.
    rewrite list_lookup_insert_ne in Hx by lia. by eapply Hch. }
  simpl. destruct (l !! getFirstChildIndex i) as [child|] eqn:Hc.
  2:{ apply Hstop. intros c x Hcs Hp _. apply child_iff in Hp; [|lia]. apply lookup_ge_None in Hc. lia. }
  case_bool_decide as Hfc.
  2:{ apply Hstop. intros c x Hcs Hp _. apply child_iff in Hp; lia. }
  destruct (best_child_at l _ size child Hc Hfc) as (Hj & Hlj).
  pose proof (best_child_first l _ size child Hc Hfc Hsz) as Hmax.
  destruct (best_child l (getFirstChildIndex i) size child) as [j best]. simpl in *.
  assert (Hi1 : 0 < getFirstChildIndex i) by (unfold getFirstChildIndex; lia).
  assert (Hpj : getParentIndex j = i) by (apply child_iff; lia).
  pose proof (parent_lt j ltac:(lia)) as Hlt.
  assert (Hmax' : ∀ c x, 0 < c < size → getParentIndex c = i → l !! c = Some x → ahead x best = false).
  { intros c x Hcs Hp Hx. apply child_iff in Hp; [|lia]. eapply Hmax; [|done]. lia. }
  destruct (ahead best node) eqn:Hah.
  - apply IH; [lia|lia|by rewrite length_insert|lia|]. by apply (down_round r i); try lia.
  - apply Hstop. intros c x Hcs Hp Hx. eapply ahead_neg_trans; [by eapply Hmax'|done].
Qed.

(** The root of a heap is at least as far ahead as every other node. *)
Lemma root_first size l x : ordered size l → l !! 0 = Some x → size ≤ length l →
  ∀ j y, j < size → l !! j = Some y → ahead y x = false.
Proof using Hahead.
  intros Ho Hx Hsz j. induction (lt_wf j) as [j _ IH]. intros y Hj Hy.
  destruct (decide (j = 0)) as [->|Hj0]; [replace y with x by congruence; apply ahead_irrefl|].
  pose proof (parent_lt j ltac:(lia)) as Hp.
  destruct (lookup_lt_is_Some_2 l (getParentIndex j) ltac:(lia)) as [z Hz].
  eapply ahead_neg_trans; [eapply (Ho j); [lia|lia|done|done|exact Hz]|apply (IH _ Hp); [lia|done]].
Qed.

(** ** The loops and what they do not touch *)

Lemma best_child_app l t first size child : size ≤ length l →
  best_child (l ++ t) first size child = best_child l first size child.
Proof using.
  intros Hsz. unfold best_child.
  assert (Hall : ∀ j, j ∈ seq (S first) (min (first + ARITY) size - S first) → (l ++ t) !! j = l !! j).
  { intros j Hj. apply elem_of_seq in Hj. apply lookup_app_l. lia. }
  revert Hall. generalize (first, child). generalize (seq (S first) (min (first + ARITY) size - S first)) as js.
  induction js as [|j js IH]; intros b Hall; [done|]. simpl. rewrite Hall by (by left).
  apply IH. intros j' Hj'. apply Hall. by right.
Qed.

Lemma move_down_app fuel size node i l t index : i < size → size ≤ length l →
  move_down fuel size node i (l ++ t) index =
    ((move_down fuel size node i l index).1 ++ t, (move_down fuel size node i l index).2).
Proof using.
  revert i l index. induction fuel as [|fuel IH]; intros i l index Hi Hsz; simpl.
  { by rewrite insert_app_l by lia. }
  destruct (decide (getFirstChildIndex i < size)) as [Hc|Hc].
  - rewrite lookup_app_l by lia. destruct (l !! getFirstChildIndex i) as [child|] eqn:Hl.
    2:{ apply lookup_ge_None in Hl. lia. }
    rewrite best_child_app by done. rewrite bool_decide_true by done.
    destruct (best_child l (getFirstChildIndex i) size child) as [j best] eqn:Hb.
    destruct (ahead best node); [|by rewrite insert_app_l by lia].
    rewrite insert_app_l by lia.
    destruct (decide (j < size)) as [Hj|Hj]; [apply IH; [done|by rewrite length_insert]|].
    exfalso. assert (Hr : (best_child l (getFirstChildIndex i) size child).1 < size); [|rewrite Hb in Hr; done].
    unfold best_child. clear -Hc.
    assert (Hall : ∀ j', j' ∈ seq (S (getFirstChildIndex i)) (min (getFirstChildIndex i + ARITY) size - S (getFirstChildIndex i)) → j' < size)
      by (intros j' Hj'; apply elem_of_seq in Hj'; lia).
    assert (H0 : (getFirstChildIndex i, child).1 < size) by done. revert H0 Hall.
    generalize (getFirstChildIndex i, child).
    generalize (seq (S (getFirstChildIndex i)) (min (getFirstChildIndex i + ARITY) size - S (getFirstChildIndex i))) as js.
    induction js as [|j' js IH]; intros b Hb Hall; [done|]. simpl. apply IH; [|intros; apply Hall; by right].
    specialize (Hall j' ltac:(by left)). destruct (l !! j'); [|done]. by case_match.
  - rewrite (bool_decide_false (getFirstChildIndex i < size)) by done.
    destruct (_ !! _), (l !! _); by rewrite insert_app_l by lia.
Qed.

Lemma move_up_app fuel node i l t index : i < length l →
  move_up fuel node i (l ++ t) index =
    ((move_up fuel node i l index).1 ++ t, (move_up fuel node i l index).2).
Proof using.
  revert i l index. induction fuel as [|fuel IH]; intros i l index Hi; simpl.
  { by rewrite insert_app_l by lia. }
  assert (Hp : getParentIndex i < length l).
  { destruct (decide (i = 0)) as [->|]; [unfold getParentIndex, ARITY; simpl; lia|]. pose proof (parent_lt i). lia. }
  rewrite lookup_app_l by done. destruct (l !! getParentIndex i) as [y|]; [|by rewrite insert_app_l].
  destruct (_ && _); rewrite insert_app_l by lia; [|done]. apply IH. by rewrite length_insert.
Qed.

(** A loop writes entries of the index without reading it. *)
Lemma move_down_writes fuel size node i l :
  ∃ l' W, ∀ index, move_down fuel size node i l index = (l', W ∪ index).
Proof using.
  revert i l. induction fuel as [|fuel IH]; intros i l; simpl.
  { exists (<[i := node]> l), {[key node := i]}. intros index. by rewrite insert_union_singleton_l. }
  assert (Hstop : ∃ l' W, ∀ index : gmap K nat, (<[i := node]> l, <[key node := i]> index) = (l', W ∪ index)).
  { exists (<[i := node]> l), {[key node := i]}. intros index. by rewrite insert_union_singleton_l. }
  destruct (l !! _) as [child|]; [|done]. case_bool_decide; [|done].
  destruct (best_child _ _ _ _) as [j best]. destruct (ahead best node); [|done].
  destruct (IH j (<[i := best]> l)) as (l' & W & HW). exists l', (W ∪ {[key best := i]}). intros index.
  rewrite HW. by rewrite insert_union_singleton_l, (assoc_L (∪)).
Qed.

Lemma indexed_delete_after fuel size node i l index k :
  let res := move_down fuel size node i l (delete k index) in
  indexed size res.1 res.2 → (∀ j x, j < size → res.1 !! j = Some x → key x ≠ k) →
  move_down fuel size node i l (delete k index) =
    (((move_down fuel size node i l index).1), delete k (move_down fuel size node i l index).2).
Proof using.
  destruct (move_down_writes fuel size node i l) as (l' & W & HW). cbv zeta. rewrite !HW. simpl.
  intros Hix Hno. f_equal. apply map_eq. intros k'. destruct (decide (k' = k)) as [->|Hne].
  - rewrite lookup_delete_eq. destruct ((W ∪ delete k index) !! k) as [j|] eqn:Hk; [|done].
    apply Hix in Hk as (Hj & x & Hx & Hkx). by destruct (Hno j x).
  - by rewrite lookup_delete_ne, !lookup_union, lookup_delete_ne.
Qed.
End sift.

(** ** [MaxHeap] *)

Section max_heap.
Context {A : Type} `{Countable A}.

(** [compareTo], with what its callers rely on. *)
Definition ahead_by (compareTo : A → A → Z) (x y : A) : bool := bool_decide (0 < compareTo x y)%Z.
Class Comparison (compareTo : A → A → Z) : Prop := {
  cmp_anti : ∀ x y, (0 < compareTo x y → compareTo y x < 0)%Z;
  cmp_trans : ∀ x y z, (compareTo x y <= 0 → compareTo y z <= 0 → compareTo x z <= 0)%Z }.

#[export] Instance ahead_by_weak compareTo : Comparison compareTo → StrictWeak (ahead_by compareTo).
Proof.
  intros Hc. unfold ahead_by. split.
  - intros x y Hxy%bool_decide_eq_true. apply bool_decide_eq_false. pose proof (cmp_anti x y Hxy). lia.
  - intros x y z Hxy%bool_decide_eq_false Hyz%bool_decide_eq_false. apply bool_decide_eq_false.
    pose proof (cmp_trans x y z). lia.
Qed.

(** Elements are identified by themselves; a negative [heapIndex] is an absent one.
    Behind the first [heap_size] nodes the array keeps what was popped. *)
Record MaxHeap := mkHeap { nodes : list A; heap_size : nat; heapIndex : gmap A nat }.

Definition moveDown (compareTo : A → A → Z) (node : A) (i : nat) (h : MaxHeap) : MaxHeap :=
  let '(l, ix) := move_down id (ahead_by compareTo) (heap_size h) (heap_size h) node i (nodes h) (heapIndex h) in
  mkHeap l (heap_size h) ix.

Definition moveUp (compareTo : A → A → Z) (node : A) (i : nat) (h : MaxHeap) : MaxHeap :=
  let '(l, ix) := move_up id (ahead_by compareTo) i node i (nodes h) (heapIndex h) in
  mkHeap l (heap_size h) ix.

(** The indices [n - 1] down to 0. *)
Fixpoint heapify_from (compareTo : A → A → Z) (n : nat) (h : MaxHeap) : MaxHeap :=
  match n with
  | O => h
  | S index =>
      heapify_from compareTo index
        match nodes h !! index with Some node => moveDown compareTo node index h | None => h end
  end.
Definition heapify (compareTo : A → A → Z) (h : MaxHeap) : MaxHeap :=
  heapify_from compareTo (S (getParentIndex (heap_size h - 1))) h.

(** The constructor. *)
Definition new_heap (compareTo : A → A → Z) (items : list A) : MaxHeap :=
  let h := mkHeap items (length items) (list_to_map (imap (λ i x, (x, i)) items)) in
  if bool_decide (1 < heap_size h) then heapify compareTo h else h.

Definition unorderedElements (h : MaxHeap) : list A := take (heap_size h) (nodes h).
Definition firstOrDefault (h : MaxHeap) : option A :=
  if bool_decide (0 < heap_size h) then nodes h !! 0 else None.

(** [pop]; none when it throws. *)
Definition pop (compareTo : A → A → Z) (h : MaxHeap) : option (A * MaxHeap) :=
  match firstOrDefault h with
  | None => None
  | Some element =>
      let lastNodeIndex := heap_size h - 1 in
      let h := mkHeap (nodes h) lastNodeIndex (heapIndex h) in
      let h := match nodes h !! lastNodeIndex with
               | Some lastNode =>
                   if bool_decide (0 < lastNodeIndex) then moveDown compareTo lastNode 0 h else h
               | None => h
               end in
      Some (element, mkHeap (nodes h) (heap_size h) (delete element (heapIndex h)))
  end.

Definition onDecreaseElementPriority (compareTo : A → A → Z) (element : A) (h : MaxHeap) : MaxHeap :=
  match heapIndex h !! element with
  | None => h
  | Some i => moveDown compareTo element i h
  end.
Definition onIncreaseElementPriority (compareTo : A → A → Z) (element : A) (h : MaxHeap) : MaxHeap :=
  match heapIndex h !! element with
  | None => h
  | Some i => if bool_decide (i ≤ 0) then h else moveUp compareTo element i h
  end.

(** ** The invariant *)

(** Distinct elements, whose indices are where they are. *)
Record heap_wf (h : MaxHeap) : Prop := {
  hw_size : heap_size h ≤ length (nodes h);
  hw_nodup : NoDup (unorderedElements h);
  hw_index : indexed id (heap_size h) (nodes h) (heapIndex h) }.
Definition heap_good (compareTo : A → A → Z) (h : MaxHeap) : Prop :=
  heap_wf h ∧ ordered (ahead_by compareTo) (heap_size h) (nodes h).

Lemma take_split h : heap_size h ≤ length (nodes h) →
  nodes h = unorderedElements h ++ drop (heap_size h) (nodes h) ∧ length (unorderedElements h) = heap_size h.
Proof. intros Hs. unfold unorderedElements. rewrite take_drop, length_take. split; [done|lia]. Qed.

Lemma indexed_take size (l : list A) ix : indexed id size l ix ↔ indexed id size (take size l) ix.
Proof.
  assert (Ht : ∀ j, j < size → take size l !! j = l !! j) by (intros j Hj; by apply lookup_take_lt).
  unfold indexed. split; intros Hi k j; rewrite (Hi k j); split; intros (Hj & x & Hx & Hk); (split; [done|]);
    exists x; (split; [|done]); by rewrite Ht in *.
Qed.

Lemma ordered_take compareTo r size skip (l : list A) :
  ordered_from (ahead_by compareTo) r size skip l ↔ ordered_from (ahead_by compareTo) r size skip (take size l).
Proof.
  split; intros Ho j x y Hj Hr Hs Hx Hy; eapply (Ho j); try done; pose proof (parent_lt j ltac:(lia));
    rewrite lookup_take_lt in *; (done || lia).
Qed.

(** A node put into the hole [i] and sifted down. *)
Lemma moveDown_spec compareTo node i r h l t :
  Comparison compareTo → nodes h = l ++ t → length l = heap_size h → i < heap_size h → r ≤ i →
  NoDup (<[i := node]> l) → down_inv (ahead_by compareTo) r i (heap_size h) (<[i := node]> l) →
  indexed_but id i node (heap_size h) l (heapIndex h) →
  let h' := moveDown compareTo node i h in
  heap_wf h' ∧ ordered_from (ahead_by compareTo) r (heap_size h') (λ _, false) (nodes h') ∧
  unorderedElements h' ≡ₚ <[i := node]> l ∧ heap_size h' = heap_size h.
Proof.
  intros Hc Hn Hl Hi Hr Hnd Hinv Hix. unfold moveDown. rewrite Hn.
  rewrite move_down_app by lia. cbv zeta.
  pose proof (move_down_order id (ahead_by compareTo) (heap_size h) r node i (heap_size h) l (heapIndex h)) as G1.
  specialize (G1 ltac:(lia) ltac:(lia) ltac:(lia) Hr Hinv).
  destruct (move_down_shaped id (ahead_by compareTo) (heap_size h) (heap_size h) node i l (heapIndex h))
    as [G2 G3 _]; try done; try lia; [by rewrite list_fmap_id|].
  destruct (move_down id _ _ _ _ _ _ _) as [l' ix]. simpl in *.
  assert (Hl' : length l' = heap_size h) by (rewrite G2, length_insert; done).
  assert (Ht : take (heap_size h) (l' ++ t) = l') by (by rewrite <- Hl', take_app_length).
  split_and!; [|apply ordered_take; by rewrite Ht|unfold unorderedElements; simpl; by rewrite Ht|done].
  split; simpl; [rewrite length_app; lia|unfold unorderedElements; simpl; rewrite Ht; by rewrite G2|].
  apply indexed_take. by rewrite Ht.
Qed.

Lemma indexed_hole size (l : list A) ix i node : i < size → l !! i = Some node → indexed id size l ix →
  indexed_but id i node size l ix.
Proof. intros Hi Hl Hix k j _. by rewrite list_insert_id. Qed.

(** Sifting down the node at [i] itself. *)
Lemma moveDown_good compareTo node i r h :
  Comparison compareTo → heap_wf h → nodes h !! i = Some node → i < heap_size h → r ≤ i →
  down_inv (ahead_by compareTo) r i (heap_size h) (nodes h) →
  let h' := moveDown compareTo node i h in
  heap_wf h' ∧ ordered_from (ahead_by compareTo) r (heap_size h') (λ _, false) (nodes h') ∧
  unorderedElements h' ≡ₚ unorderedElements h ∧ heap_size h' = heap_size h.
Proof.
  intros Hc [Hs Hnd Hix] Hn Hi Hr Hinv. destruct (take_split h Hs) as [Hsp Hl].
  set (l := unorderedElements h) in *.
  assert (Hni : l !! i = Some node) by (unfold l, unorderedElements; by rewrite lookup_take_lt).
  assert (Hid : <[i := node]> l = l) by (by apply list_insert_id).
  pose proof (moveDown_spec compareTo node i r h l (drop (heap_size h) (nodes h)) Hc Hsp Hl Hi Hr) as Hm.
  rewrite Hid in Hm. apply Hm; [done| |apply indexed_hole; [done..|by apply (proj1 (indexed_take _ _ _))]].
  destruct Hinv as [Ha Hb]. unfold l, unorderedElements. split.
  - intros j x y Hj Hrj Hp Hx Hy. pose proof (parent_lt j ltac:(lia)).
    rewrite lookup_take_lt in Hx by lia. rewrite lookup_take_lt in Hy by lia. by eapply (Ha j).
  - intros c x y H0 Hri Hc' Hp Hx Hy. pose proof (parent_lt i H0).
    rewrite lookup_take_lt in Hx by lia. rewrite lookup_take_lt in Hy by lia. by eapply (Hb c).
Qed.

(** ** Construction *)

Lemma parent_mono i j : i ≤ j → getParentIndex i ≤ getParentIndex j.
Proof. intros Hij. unfold getParentIndex. apply Nat.Div0.div_le_mono. lia. Qed.

Lemma heapify_from_spec compareTo n h :
  Comparison compareTo → heap_wf h → n ≤ heap_size h →
  ordered_from (ahead_by compareTo) n (heap_size h) (λ _, false) (nodes h) →
  let h' := heapify_from compareTo n h in
  heap_good compareTo h' ∧ unorderedElements h' ≡ₚ unorderedElements h.
Proof.
  intros Hc. revert h. induction n as [|n IH]; intros h Hw Hn Ho; simpl; [by split|].
  assert (Hs := hw_size _ Hw). destruct (lookup_lt_is_Some_2 (nodes h) n ltac:(lia)) as [node Hnode]. rewrite Hnode.
  destruct (moveDown_good compareTo node n n h Hc Hw Hnode) as (Hw' & Ho' & Hp & Hsz); [lia|lia|..].
  - split.
    + intros j x y Hj Hr Hne. apply (Ho j); [done|lia|done].
    + intros c x y H0 Hr. pose proof (parent_lt n H0). lia.
  - destruct (IH (moveDown compareTo node n h)) as [Hg Hp']; [done|lia|done|]. split; [done|]. by rewrite Hp'.
Qed.

Lemma new_heap_index (items : list A) : NoDup items →
  indexed id (length items) items (list_to_map (imap (λ i x, (x, i)) items)).
Proof.
  intros Hnd k j.
  assert (Hf : (imap (λ i x, (x, i)) items).*1 = items).
  { rewrite fmap_imap. simpl. clear Hnd. induction items as [|x items IH]; [done|]. simpl. by f_equal. }
  rewrite <- elem_of_list_to_map by (by rewrite Hf). rewrite elem_of_lookup_imap. split.
  - intros (i & y & [= -> ->] & Hy). split; [by eapply lookup_lt_Some|by exists y].
  - intros (Hj & x & Hx & <-). by exists j, x.
Qed.

Lemma new_heap_spec compareTo items : Comparison compareTo → NoDup items →
  heap_good compareTo (new_heap compareTo items) ∧ unorderedElements (new_heap compareTo items) ≡ₚ items.
Proof.
  intros Hc Hnd. unfold new_heap. cbv zeta. simpl. set (h := mkHeap _ _ _).
  assert (Hel : unorderedElements h = items) by (unfold h, unorderedElements; simpl; by rewrite take_ge).
  assert (Hw : heap_wf h) by (split; [done|by rewrite Hel|by apply new_heap_index]).
  case_bool_decide as H1.
  - unfold heapify. destruct (heapify_from_spec compareTo (S (getParentIndex (heap_size h - 1))) h)
      as [Hg Hp]; try done; [|..|by rewrite Hp, Hel].
    + simpl in *. pose proof (parent_lt (length items - 1)). lia.
    + intros j x y Hj Hr _ _ _. simpl in *. pose proof (parent_mono j (length items - 1)). lia.
  - rewrite Hel. split; [|done]. split; [done|]. intros j x y Hj. simpl in Hj. lia.
Qed.

(** ** Removal of the root *)

(** The array once the root has left: the last node in its place. *)
Lemma pop_perm h x last :
  heap_wf h → nodes h !! 0 = Some x → nodes h !! (heap_size h - 1) = Some last → 1 < heap_size h →
  unorderedElements h ≡ₚ x :: <[0 := last]> (take (heap_size h - 1) (nodes h)).
Proof.
  intros [Hs _ _] Hx Hlast H1. unfold unorderedElements.
  replace (heap_size h) with (S (heap_size h - 1)) at 1 by lia. rewrite (take_S_r _ _ _ Hlast).
  destruct (nodes h) as [|x' l]; [done|]. injection Hx as ->.
  destruct (heap_size h - 1) as [|n] eqn:Hn; [lia|]. simpl. constructor. by rewrite (Permutation_app_comm _ [last]).
Qed.

(** Its index, the popped element forgotten. *)
Lemma pop_hole h x last :
  heap_wf h → nodes h !! 0 = Some x → nodes h !! (heap_size h - 1) = Some last → 1 < heap_size h →
  indexed_but id 0 last (heap_size h - 1) (take (heap_size h - 1) (nodes h)) (delete x (heapIndex h)).
Proof.
  intros Hw Hx Hlast H1 k j Hk. pose proof (pop_perm h x last Hw Hx Hlast H1) as Hperm.
  destruct Hw as [Hs Hnd Hix]. rewrite Hperm in Hnd. apply NoDup_cons in Hnd as [Hxn _].
  set (n := heap_size h - 1) in *. set (l := take n (nodes h)) in *.
  assert (Hl : length l = n) by (unfold l; rewrite length_take; lia).
  assert (Hst : ∀ j, j < n → j ≠ 0 → <[0 := last]> l !! j = nodes h !! j).
  { intros j' Hj' Hne. rewrite list_lookup_insert_ne by done. by apply lookup_take_lt. }
  simpl in Hk. destruct (decide (k = x)) as [->|Hkx].
  - rewrite lookup_delete_eq. split; [done|]. intros (_ & y & Hy & Hyx). simpl in Hyx. subst y.
    destruct Hxn. by eapply list_elem_of_lookup_2.
  - rewrite lookup_delete_ne by done. rewrite (Hix k j). split; intros (Hj & y & Hy & Hyk); simpl in Hyk; subst y.
    + destruct (decide (j = 0)) as [->|Hj0]; [congruence|].
      destruct (decide (j = n)) as [->|Hjn]; [congruence|].
      split; [lia|]. exists k. by rewrite Hst by lia.
    + split; [lia|]. exists k. split; [|done]. destruct (decide (j = 0)) as [->|Hj0].
      * rewrite list_lookup_insert_eq in Hy by lia. congruence.
      * by rewrite <- Hst by lia.
Qed.

Lemma pop_down compareTo h x last :
  heap_good compareTo h → nodes h !! 0 = Some x → nodes h !! (heap_size h - 1) = Some last → 1 < heap_size h →
  down_inv (ahead_by compareTo) 0 0 (heap_size h - 1) (<[0 := last]> (take (heap_size h - 1) (nodes h))).
Proof.
  intros [[Hs _ _] Ho] Hx Hlast H1. split; [|intros; lia]. intros j y z Hj _ Hne Hy Hz.
  pose proof (parent_lt j ltac:(lia)).
  rewrite list_lookup_insert_ne, lookup_take_lt in Hy by lia. rewrite list_lookup_insert_ne, lookup_take_lt in Hz by lia.
  by eapply (Ho j); [lia|lia| | |].
Qed.

(** What [pop] leaves of a heap of two or more nodes. *)
Definition popped (compareTo : A → A → Z) (x last : A) (h : MaxHeap) : MaxHeap :=
  let h' := moveDown compareTo last 0 (mkHeap (nodes h) (heap_size h - 1) (heapIndex h)) in
  mkHeap (nodes h') (heap_size h') (delete x (heapIndex h')).

Lemma popped_good compareTo h x last :
  Comparison compareTo → heap_good compareTo h → nodes h !! 0 = Some x →
  nodes h !! (heap_size h - 1) = Some last → 1 < heap_size h →
  heap_good compareTo (popped compareTo x last h) ∧
  unorderedElements h ≡ₚ x :: unorderedElements (popped compareTo x last h).
Proof.
  intros Hc Hg Hx Hlast H1. assert (Hw := proj1 Hg). pose proof (hw_size _ Hw) as Hs.
  assert (Hperm := pop_perm h x last Hw Hx Hlast H1).
  assert (Hnd : NoDup (x :: <[0 := last]> (take (heap_size h - 1) (nodes h)))) by (rewrite <- Hperm; apply Hw).
  apply NoDup_cons in Hnd as [Hxn Hnd].
  destruct (moveDown_spec compareTo last 0 0 (mkHeap (nodes h) (heap_size h - 1) (delete x (heapIndex h)))
    (take (heap_size h - 1) (nodes h)) (drop (heap_size h - 1) (nodes h))) as (Hw' & Ho' & Hp & Hsz); simpl; try done; try lia.
  - by rewrite take_drop.
  - rewrite length_take. lia.
  - by apply (pop_down _ _ x).
  - by apply pop_hole.
  - set (h1 := moveDown _ _ _ _) in *. simpl in Hsz.
    assert (popped compareTo x last h = h1) as ->.
    { unfold popped, h1, moveDown. simpl. pose proof (indexed_delete_after id (ahead_by compareTo) (heap_size h - 1)
        (heap_size h - 1) last 0 (nodes h) (heapIndex h) x) as Hd. cbv zeta in Hd.
      rewrite Hd; [by destruct (move_down id (ahead_by compareTo) (heap_size h - 1) (heap_size h - 1) last 0 (nodes h) (heapIndex h))|..].
      - pose proof (hw_index _ Hw') as Hi. unfold h1, moveDown in Hi, Hsz. simpl in Hi, Hsz.
        by destruct (move_down id _ _ _ _ _ _ _).
      - intros j y Hj Hy Hyx. simpl in Hyx. subst y. apply Hxn. rewrite <- Hp. unfold unorderedElements.
        rewrite Hsz. apply (list_elem_of_lookup_2 _ j). rewrite lookup_take_lt by done.
        unfold h1, moveDown. simpl. by destruct (move_down id _ _ _ _ _ _ _). }
    split; [done|]. by rewrite Hperm, Hp.
Qed.

Lemma pop_spec compareTo h :
  Comparison compareTo → heap_good compareTo h →
  match pop compareTo h with
  | None => unorderedElements h = []
  | Some (x, h') =>
      unorderedElements h ≡ₚ x :: unorderedElements h' ∧ heap_good compareTo h' ∧
      ∀ y, y ∈ unorderedElements h → (compareTo y x <= 0)%Z
  end.
Proof.
  intros Hc Hg. assert (Hs := hw_size _ (proj1 Hg)). unfold pop, firstOrDefault.
  case_bool_decide as H0; [|unfold unorderedElements; by replace (heap_size h) with 0 by lia].
  destruct (lookup_lt_is_Some_2 (nodes h) 0 ltac:(lia)) as [x Hx]. rewrite Hx. cbv zeta. simpl.
  destruct (lookup_lt_is_Some_2 (nodes h) (heap_size h - 1) ltac:(lia)) as [last Hlast]. rewrite Hlast.
  assert (Htop : ∀ y, y ∈ unorderedElements h → (compareTo y x <= 0)%Z).
  { intros y (j & Hj)%list_elem_of_lookup. unfold unorderedElements in Hj. apply lookup_take_Some in Hj as [Hj Hlt].
    pose proof (root_first (ahead_by compareTo) _ _ x (proj2 Hg) Hx Hs j y Hlt Hj) as Hr.
    apply bool_decide_eq_false in Hr. lia. }
  case_bool_decide as Hn.
  - destruct (popped_good compareTo h x last Hc Hg Hx Hlast ltac:(lia)) as [Hg' Hp]. unfold popped in Hg', Hp.
    split_and!; done.
  - simpl. assert (Hone : unorderedElements h = [x]).
    { unfold unorderedElements. replace (heap_size h) with 1 by lia. by destruct (nodes h); simpl in *; simplify_eq. }
    split; [|split; [split; [split|]|done]].
    + rewrite Hone. unfold unorderedElements. simpl. by replace (heap_size h - 1) with 0 by lia.
    + simpl. lia.
    + unfold unorderedElements. simpl. replace (heap_size h - 1) with 0 by lia. constructor.
    + intros k j. simpl. replace (heap_size h - 1) with 0 by lia. split; [|lia].
      intros [Hne Hkj]%lookup_delete_Some. exfalso. apply (hw_index _ (proj1 Hg)) in Hkj as (Hj & y & Hy & Hyk).
      simpl in Hyk. subst y. assert (j = 0) as -> by lia. congruence.
    + intros j y z Hj. simpl in Hj. lia.
Qed.

(** ** Changes of priority *)

Lemma moveUp_good compareTo node i h :
  Comparison compareTo → heap_wf h → nodes h !! i = Some node → i < heap_size h →
  up_inv (ahead_by compareTo) i (heap_size h) (nodes h) →
  let h' := moveUp compareTo node i h in
  heap_good compareTo h' ∧ unorderedElements h' ≡ₚ unorderedElements h.
Proof.
  intros Hc [Hs Hnd Hix] Hn Hi [Ha Hb]. destruct (take_split h Hs) as [Hsp Hl].
  set (l := unorderedElements h) in *. set (t := drop (heap_size h) (nodes h)) in *.
  assert (Hni : l !! i = Some node) by (unfold l, unorderedElements; by rewrite lookup_take_lt).
  assert (Hid : <[i := node]> l = l) by (by apply list_insert_id).
  assert (Hll : ∀ j, j < heap_size h → l !! j = nodes h !! j)
    by (intros j Hj; unfold l, unorderedElements; by apply lookup_take_lt).
  unfold moveUp. rewrite Hsp. rewrite move_up_app by lia. cbv zeta.
  assert (Hinv : up_inv (ahead_by compareTo) i (heap_size h) l).
  { split.
    - intros j x y Hj Hr Hskip Hx Hy. pose proof (parent_lt j ltac:(lia)).
      rewrite Hll in Hx by lia. rewrite Hll in Hy by lia. by eapply (Ha j).
    - intros c x y H0 Hcs Hp Hx Hy. pose proof (parent_lt i H0).
      rewrite Hll in Hx by lia. rewrite Hll in Hy by lia. by eapply (Hb c). }
  pose proof (move_up_order id (ahead_by compareTo) i node i (heap_size h) l (heapIndex h)) as G1.
  rewrite Hid in G1. specialize (G1 ltac:(lia) ltac:(lia) ltac:(lia) Hinv).
  destruct (move_up_shaped id (ahead_by compareTo) i node i (heap_size h) l (heapIndex h)) as [G2 G3 _];
    try done; try lia; [by rewrite list_fmap_id, Hid| |].
  { apply indexed_hole; [done..|]. by apply (proj1 (indexed_take _ _ _)). }
  destruct (move_up id _ _ _ _ _ _) as [l' ix]. simpl in *. rewrite Hid in G2.
  assert (Hl' : length l' = heap_size h) by (by rewrite G2).
  assert (Ht : take (heap_size h) (l' ++ t) = l') by (by rewrite <- Hl', take_app_length).
  split; [split; [split|]|]; unfold unorderedElements; simpl; rewrite ?Ht; try done.
  - rewrite length_app. lia.
  - by rewrite G2.
  - apply indexed_take. by rewrite Ht.
  - apply ordered_take. by rewrite Ht.
Qed.

(** Only the priority of [e] differs between two comparisons. *)
Definition same_but (e : A) (c c' : A → A → Z) : Prop :=
  ∀ x y, x ≠ e → y ≠ e → ahead_by c' x y = ahead_by c x y.
Definition lowered (e : A) (c c' : A → A → Z) : Prop :=
  same_but e c c' ∧ ∀ y, ahead_by c e y = false → ahead_by c' e y = false.
Definition raised (e : A) (c c' : A → A → Z) : Prop :=
  same_but e c c' ∧ ∀ y, ahead_by c y e = false → ahead_by c' y e = false.

(** Two indices of a heap hold distinct elements. *)
Lemma wf_distinct h i j x : heap_wf h → i < heap_size h → j < heap_size h →
  nodes h !! i = Some x → nodes h !! j = Some x → i = j.
Proof.
  intros [Hs Hnd _] Hi Hj Hx Hy. eapply NoDup_lookup; [exact Hnd|..]; unfold unorderedElements; by rewrite lookup_take_lt.
Qed.

Lemma absent_ordered h e c c' :
  heap_good c h → heapIndex h !! e = None → same_but e c c' → heap_good c' h.
Proof.
  intros [Hw Ho] He Hs. split; [done|]. intros j x y Hj Hr Hk Hx Hy. pose proof (parent_lt j ltac:(lia)).
  assert (Hno : ∀ i z, i < heap_size h → nodes h !! i = Some z → z ≠ e).
  { intros i z Hi Hz ->. assert (heapIndex h !! e = Some i) by (apply (hw_index _ Hw); eauto). congruence. }
  rewrite Hs; [by eapply (Ho j)|eapply (Hno j); [lia|done]|eapply (Hno (getParentIndex j)); [lia|done]].
Qed.

Lemma onDecrease_good e c c' h :
  Comparison c → Comparison c' → lowered e c c' → heap_good c h →
  heap_good c' (onDecreaseElementPriority c' e h) ∧
  unorderedElements (onDecreaseElementPriority c' e h) ≡ₚ unorderedElements h.
Proof.
  intros Hc Hc' [Hsame Hlow] [Hw Ho]. unfold onDecreaseElementPriority.
  destruct (heapIndex h !! e) as [i|] eqn:Hi; [|split; [by eapply absent_ordered|done]].
  apply (hw_index _ Hw) in Hi as (Hi & x & Hx & Hxe). simpl in Hxe. subst x.
  assert (Hne : ∀ j z, j < heap_size h → j ≠ i → nodes h !! j = Some z → z ≠ e).
  { intros j z Hj Hji Hz ->. by apply Hji, (wf_distinct h j i e). }
  destruct (moveDown_good c' e i 0 h) as (Hw' & Ho' & Hp & _); [done..|lia| |done].
  split.
  - intros j x y Hj _ Hpi Hxj Hy. pose proof (parent_lt j ltac:(lia)).
    assert (Hy' : y ≠ e) by (eapply (Hne (getParentIndex j)); [lia|done|done]).
    assert (Hold : ahead_by c x y = false) by (eapply (Ho j); [done|lia|done..]).
    destruct (decide (x = e)) as [->|Hxe]; [by apply Hlow|by rewrite Hsame].
  - intros k x y H0 _ Hk Hpk Hxk Hy. pose proof (parent_lt i H0). pose proof (parent_lt k ltac:(lia)).
    rewrite Hsame; [|eapply (Hne k); [lia|lia|done]|eapply (Hne (getParentIndex i)); [lia|lia|done]].
    eapply (ahead_neg_trans (ahead_by c)).
    + eapply (Ho k); [done|lia|done|done|by rewrite Hpk].
    + eapply (Ho i); [lia|lia|done..].
Qed.

Lemma onIncrease_good e c c' h :
  Comparison c → Comparison c' → raised e c c' → heap_good c h →
  heap_good c' (onIncreaseElementPriority c' e h) ∧
  unorderedElements (onIncreaseElementPriority c' e h) ≡ₚ unorderedElements h.
Proof.
  intros Hc Hc' [Hsame Hup] [Hw Ho]. unfold onIncreaseElementPriority.
  destruct (heapIndex h !! e) as [i|] eqn:Hi; [|split; [by eapply absent_ordered|done]].
  apply (hw_index _ Hw) in Hi as (Hi & x & Hx & Hxe). simpl in Hxe. subst x.
  assert (Hne : ∀ j z, j < heap_size h → j ≠ i → nodes h !! j = Some z → z ≠ e).
  { intros j z Hj Hji Hz ->. by apply Hji, (wf_distinct h j i e). }
  assert (Hpair : ∀ j x y, 0 < j < heap_size h → j ≠ i → nodes h !! j = Some x →
    nodes h !! getParentIndex j = Some y → ahead_by c' x y = false).
  { intros j x y Hj Hji Hxj Hy. assert (Hold : ahead_by c x y = false) by (eapply (Ho j); [done|lia|done..]).
    assert (Hx' : x ≠ e) by (eapply (Hne j); [lia|done|done]).
    destruct (decide (y = e)) as [->|Hye]; [by apply Hup|by rewrite Hsame]. }
  case_bool_decide as H0.
  - split; [|done]. split; [done|]. intros j x y Hj _ _ Hxj Hy. eapply (Hpair j); [done|lia|done..].
  - apply moveUp_good; [done..|]. split.
    + intros j x y Hj _ Hji%bool_decide_eq_false Hxj Hy. by eapply (Hpair j).
    + intros k x y _ Hk Hpk Hxk Hy. pose proof (parent_lt i ltac:(lia)). pose proof (parent_lt k ltac:(lia)).
      rewrite Hsame; [|eapply (Hne k); [lia|lia|done]|eapply (Hne (getParentIndex i)); [lia|lia|done]].
      eapply (ahead_neg_trans (ahead_by c)).
      * eapply (Ho k); [done|lia|done|done|by rewrite Hpk].
      * eapply (Ho i); [lia|lia|done..].
Qed.

(** ** The theorems *)

(** A [MaxHeap] stays a heap of distinct elements whose [heapIndex] is exact:
    the constructor makes one of any distinct items; [pop] takes a greatest
    element and nothing else; after the priority of one element fell or rose, the
    notification restores the order for the new priorities. *)
Theorem max_heap_contract c c' items h e :
  Comparison c → Comparison c' → NoDup items → heap_good c h →
  (heap_good c (new_heap c items) ∧ unorderedElements (new_heap c items) ≡ₚ items) ∧
  match pop c h with
  | None => unorderedElements h = []
  | Some (x, h') =>
      unorderedElements h ≡ₚ x :: unorderedElements h' ∧ heap_good c h' ∧
      ∀ y, y ∈ unorderedElements h → (c y x <= 0)%Z
  end ∧
  (lowered e c c' → heap_good c' (onDecreaseElementPriority c' e h) ∧
     unorderedElements (onDecreaseElementPriority c' e h) ≡ₚ unorderedElements h) ∧
  (raised e c c' → heap_good c' (onIncreaseElementPriority c' e h) ∧
     unorderedElements (onIncreaseElementPriority c' e h) ≡ₚ unorderedElements h).
Proof.
  intros Hc Hc' Hnd Hg. split_and!.
  - by apply new_heap_spec.
  - by apply new_heap_spec.
  - by apply pop_spec.
  - intros Hl. by apply (onDecrease_good e c c').
  - intros Hr. by apply (onIncrease_good e c c').
Qed.

(** Popping until the heap is empty. *)
Fixpoint drain (c : A → A → Z) (fuel : nat) (h : MaxHeap) : list A :=
  match fuel with
  | O => []
  | S n => match pop c h with Some (x, h') => x :: drain c n h' | None => [] end
  end.

(** Draining a new heap sorts its items, greatest first. *)
Lemma heap_sorts c items : Comparison c → NoDup items →
  drain c (length items) (new_heap c items) ≡ₚ items ∧
  StronglySorted (λ x y, c y x <= 0)%Z (drain c (length items) (new_heap c items)).
Proof.
  intros Hc Hnd. destruct (new_heap_spec c items Hc Hnd) as [Hg Hp].
  assert (Hgen : ∀ n h, heap_good c h → length (unorderedElements h) = n →
    drain c n h ≡ₚ unorderedElements h ∧ StronglySorted (λ x y, c y x <= 0)%Z (drain c n h)).
  { induction n as [|n IH]; intros h Hh Hn; simpl.
    { apply nil_length_inv in Hn. rewrite Hn. split; [done|constructor]. }
    pose proof (pop_spec c h Hc Hh) as Hpop. destruct (pop c h) as [[x h']|].
    - destruct Hpop as (Hpe & Hg' & Hmax). destruct (IH h' Hg') as [H1 H2].
      { rewrite Hpe in Hn. simpl in Hn. lia. }
      rewrite Hpe. split; [by rewrite H1|]. constructor; [done|]. rewrite H1.
      apply Forall_forall. intros y Hy. apply Hmax. rewrite Hpe. by right.
    - by rewrite Hpop in Hn. }
  destruct (Hgen (length items) _ Hg) as [H1 H2]; [by rewrite Hp|]. split; [by rewrite H1|done].
Qed.
End max_heap.

(** ** Runs *)
Module Runs.
(** Numbers by their value, then with 3 worth only 0. *)
Definition by_value (x y : nat) : Z := (Z.of_nat x - Z.of_nat y)%Z.
Definition worth (x : nat) : nat := if decide (x = 3) then 0 else x.
Definition by_worth (x y : nat) : Z := (Z.of_nat (worth x) - Z.of_nat (worth y))%Z.
Definition items : list nat := [1; 7; 3; 5; 2; 9; 4].

Lemma by_value_comparison : Comparison by_value.
Proof. split; unfold by_value; lia. Qed.
Lemma by_worth_comparison : Comparison by_worth.
Proof. split; unfold by_worth; lia. Qed.
Lemma three_lowered : lowered 3 by_value by_worth.
Proof.
  unfold lowered, same_but, ahead_by, by_value, by_worth, worth. split.
  - intros x y Hx Hy. by rewrite !decide_False.
  - intros y Hy%bool_decide_eq_false. apply bool_decide_eq_false. rewrite decide_True by done. case_decide; lia.
Qed.

Lemma max_heap_contract_witness :
  drain by_value 7 (new_heap by_value items) = [9; 7; 5; 4; 3; 2; 1] ∧
  heap_good by_worth (onDecreaseElementPriority by_worth 3 (new_heap by_value items)).
Proof.
  split; [vm_compute; reflexivity|].
  assert (Hnd : NoDup items) by (apply (bool_decide_unpack _); vm_compute; exact I).
  destruct (max_heap_contract by_value by_worth items (new_heap by_value items) 3
    by_value_comparison by_worth_comparison Hnd (proj1 (new_heap_spec _ _ by_value_comparison Hnd)))
    as (_ & _ & Hl & _).
  exact (proj1 (Hl three_lowered)).
Defined.
End Runs.
