(* ===== verification/Frequent.v ===== *)
(** * The frequent-item sketch of the repartitioner

    Models [packages/runtime/src/placement/repartitioning/frequent-item-collection.ts]
    with the key of [frequent-edge-counter.ts]: a bounded four-ary heap of
    counters, an index from keys to heap positions and a sketch of 32-bit cells. *)
From stdpp Require Import prelude gmap list.
From S2P Require Import Prelude Ids Heap.
Open Scope Z_scope.

(** Under a mask a number lies between 0 and the mask. *)
Lemma land_mask a m : 0 <= m → 0 <= Z.land a m <= m.
Proof.
  intros Hm. apply Z.ldiff_le; [done|]. apply Z.bits_inj'. intros n _.
  rewrite Z.ldiff_spec, Z.land_spec, Z.bits_0. by destruct (Z.testbit a n), (Z.testbit m n).
Qed.

Section frequent.
Context {E : Type} (getKey : E → Z) (capacity : nat).

Record Counter := mkCounter { element : E; count : Z; error : Z }.
Definition counter_key (c : Counter) : Z := getKey (element c).

(** [compareCounters(a, b) < 0]: the 32 low bits order equal counts by error. *)
Definition order_key (c : Counter) : Z := Z.lor (Z.shiftl (count c) 32) (0xffffffff - error c).
Definition counter_before (a b : Counter) : bool := bool_decide (order_key a < order_key b).

(** The two halves combined, as a signed 32-bit integer. *)
Definition bigintHashCode (key : Z) : Z :=
  let x := Z.lxor (key mod 2 ^ 32) (Z.shiftr key 32 mod 2 ^ 32) in (x + 2 ^ 31) mod 2 ^ 32 - 2 ^ 31.

Definition SKETCH_ENTRIES_PER_HEAP_ENTRY : Z := 6.
(** [1 << (32 - clz32(entries))], for entries of at most 30 bits. *)
Definition getSketchSize (capacity : Z) : Z :=
  let entries := capacity * SKETCH_ENTRIES_PER_HEAP_ENTRY in
  let bits := if decide (entries <= 0) then 0 else Z.log2 entries + 1 in
  Z.shiftl 1 bits.

Record FrequentItems := mkItems {
  heap : list Counter;
  key_index : gmap Z nat;
  sketch : list Z }.

Definition new_items : FrequentItems :=
  mkItems [] ∅ (replicate (Z.to_nat (getSketchSize (Z.of_nat capacity))) 0).

(** The cell of a key: the hash under the mask of the sketch. *)
Definition cell_of (key : Z) (s : FrequentItems) : nat :=
  Z.to_nat (Z.land (bigintHashCode key) (Z.of_nat (length (sketch s)) - 1)).
(** Cells are unsigned 32-bit integers. *)
Definition set_cell (key v : Z) (s : FrequentItems) : FrequentItems :=
  mkItems (heap s) (key_index s) (<[cell_of key s := v mod 2 ^ 32]> (sketch s)).

Definition moveUpHeap (node : Counter) (i : nat) (s : FrequentItems) : FrequentItems :=
  let '(l, ix) := move_up counter_key counter_before i node i (heap s) (key_index s) in
  mkItems l ix (sketch s).

Definition moveDownHeap (node : Counter) (i : nat) (s : FrequentItems) : FrequentItems :=
  let n := length (heap s) in
  let '(l, ix) := move_down counter_key counter_before n n node i (heap s) (key_index s) in
  mkItems l ix (sketch s).

Definition insertHeap (c : Counter) (s : FrequentItems) : FrequentItems :=
  moveUpHeap c (length (heap s)) (mkItems (heap s ++ [c]) (key_index s) (sketch s)).

(** [add]; none where it throws. *)
Definition add (e : E) (s : FrequentItems) : option FrequentItems :=
  let key := getKey e in
  match key_index s !! key with
  | Some existingIndex =>
      counter ← heap s !! existingIndex;
      let counter := mkCounter (element counter) (count counter + 1) (error counter) in
      Some (moveUpHeap counter existingIndex
              (mkItems (<[existingIndex := counter]> (heap s)) (key_index s) (sketch s)))
  | None =>
      if bool_decide (length (heap s) < capacity)%nat then Some (insertHeap (mkCounter e 1 0) s)
      else
        min ← heap s !! 0%nat;
        countEstimate ← sketch s !! cell_of key s;
        if bool_decide (countEstimate + 1 < count min) then Some (set_cell key (countEstimate + 1) s)
        else
          let s := mkItems (heap s) (delete (counter_key min) (key_index s)) (sketch s) in
          let s := set_cell (counter_key min) (count min) s in
          Some (moveDownHeap (mkCounter e (countEstimate + 1) countEstimate) 0 s)
  end.

(** [removeCore] *)
Definition removeCore (key : Z) (s : FrequentItems) : FrequentItems * bool :=
  let s := set_cell key 0 s in
  match key_index s !! key with
  | None => (s, false)
  | Some i =>
      let newSize := (length (heap s) - 1)%nat in
      match heap s !! newSize with
      | None => (s, false)
      | Some lastNode =>
          let s := mkItems (take newSize (heap s)) (delete key (key_index s)) (sketch s) in
          (if bool_decide (i < newSize)%nat then moveDownHeap lastNode i s else s, true)
      end
  end.

(** [clearCore] *)
Definition clearCore (s : FrequentItems) : FrequentItems :=
  mkItems [] ∅ (replicate (length (sketch s)) 0).

(** ** Executions *)

Inductive FOp := Add (e : E) | Remove (key : Z) | Clear.
Definition fstep (s : FrequentItems) (o : FOp) : option FrequentItems :=
  match o with
  | Add e => add e s
  | Remove key => Some (removeCore key s).1
  | Clear => Some (clearCore s)
  end.
Fixpoint frun (s : FrequentItems) (l : list FOp) : option FrequentItems :=
  match l with [] => Some s | o :: l' => s' ← fstep s o; frun s' l' end.

(** How often a key was added. *)
Definition adds_key (key : Z) (o : FOp) : bool :=
  match o with Add e => bool_decide (getKey e = key) | _ => false end.
Definition added (l : list FOp) (key : Z) : Z :=
  Z.of_nat (length (filter (λ o, adds_key key o = true) l)).

Lemma added_app l l' key : added (l ++ l') key = added l key + added l' key.
Proof. unfold added. rewrite filter_app, length_app. lia. Qed.
Lemma added_nonneg l key : 0 <= added l key.
Proof. unfold added. lia. Qed.
Lemma added_one e key : added [Add e] key = if decide (getKey e = key) then 1 else 0.
Proof.
  unfold added. rewrite filter_cons. simpl.
  destruct (decide (bool_decide (getKey e = key) = true)) as [Hb|Hb]; rewrite bool_decide_eq_true in Hb.
  - by rewrite decide_True by done.
  - by rewrite decide_False by done.
Qed.

(** ** Well-formedness *)

(** At most [capacity] counters of distinct keys, an exact index, 32-bit cells,
    and of every counter no more certain occurrences than there were. *)
Record items_wf (hist : Z → Z) (s : FrequentItems) : Prop := {
  iw_capacity : (length (heap s) <= capacity)%nat;
  iw_nodup : NoDup (counter_key <$> heap s);
  iw_index : indexed counter_key (length (heap s)) (heap s) (key_index s);
  iw_sketch : sketch s ≠ [] ∧ ∀ v, v ∈ sketch s → 0 <= v < 2 ^ 32;
  iw_counts : ∀ c, c ∈ heap s → 0 <= error c ∧ 0 < count c - error c <= hist (counter_key c) }.

Lemma items_wf_mono hist hist' s : (∀ k, hist k <= hist' k) → items_wf hist s → items_wf hist' s.
Proof.
  intros Hh [H1 H2 H3 H4 H5]. split; try done. intros c Hc. specialize (H5 c Hc). specialize (Hh (counter_key c)). lia.
Qed.

Lemma cell_lt key s : sketch s ≠ [] → (cell_of key s < length (sketch s))%nat.
Proof.
  intros Hne. unfold cell_of. assert (0 < length (sketch s))%nat by (destruct (sketch s); [done|simpl; lia]).
  pose proof (land_mask (bigintHashCode key) (Z.of_nat (length (sketch s)) - 1)). lia.
Qed.

Lemma set_cell_wf hist key v s : items_wf hist s → items_wf hist (set_cell key v s).
Proof.
  intros [H1 H2 H3 [H4 H6] H5]. split; simpl; try done. split.
  - intros Hn. apply (f_equal length) in Hn. rewrite length_insert in Hn. by apply nil_length_inv in Hn.
  - intros w (j & Hj)%list_elem_of_lookup. apply list_lookup_insert_Some in Hj as [(_ & <- & _)|[_ Hj]].
    + apply Z.mod_pos_bound. lia.
    + by eapply H6, list_elem_of_lookup_2.
Qed.

(** A counter put into the hole [i] and sifted. *)
Lemma moveUp_items node i s :
  (i < length (heap s))%nat → NoDup (counter_key <$> <[i := node]> (heap s)) →
  indexed_but counter_key i node (length (heap s)) (heap s) (key_index s) →
  let s' := moveUpHeap node i s in
  heap s' ≡ₚ <[i := node]> (heap s) ∧ indexed counter_key (length (heap s')) (heap s') (key_index s') ∧
  sketch s' = sketch s.
Proof.
  intros Hi Hnd Hix. unfold moveUpHeap.
  destruct (move_up_shaped counter_key counter_before i node i (length (heap s)) (heap s) (key_index s)) as [G1 G2 _]; try done.
  destruct (move_up _ _ _ _ _ _ _) as [l ix]. simpl in *. split_and!; [done| |done].
  by rewrite (Permutation_length G1), length_insert.
Qed.

Lemma moveDown_items node i s :
  (i < length (heap s))%nat → NoDup (counter_key <$> <[i := node]> (heap s)) →
  indexed_but counter_key i node (length (heap s)) (heap s) (key_index s) →
  let s' := moveDownHeap node i s in
  heap s' ≡ₚ <[i := node]> (heap s) ∧ indexed counter_key (length (heap s')) (heap s') (key_index s') ∧
  sketch s' = sketch s.
Proof.
  intros Hi Hnd Hix. unfold moveDownHeap. cbv zeta.
  destruct (move_down_shaped counter_key counter_before (length (heap s)) (length (heap s)) node i (heap s) (key_index s))
    as [G1 G2 _]; try done.
  destruct (move_down _ _ _ _ _ _ _ _) as [l ix]. simpl in *. split_and!; [done| |done].
  by rewrite (Permutation_length G1), length_insert.
Qed.

(** A permuted heap with the counters of a well-formed one but one. *)
Lemma replaced_wf hist s s' i c :
  items_wf hist s → (i < length (heap s))%nat → NoDup (counter_key <$> <[i := c]> (heap s)) →
  heap s' ≡ₚ <[i := c]> (heap s) → indexed counter_key (length (heap s')) (heap s') (key_index s') →
  (sketch s' ≠ [] ∧ ∀ v, v ∈ sketch s' → 0 <= v < 2 ^ 32) →
  0 <= error c ∧ 0 < count c - error c <= hist (counter_key c) → items_wf hist s'.
Proof.
  intros [H1 H2 H3 H4 H5] Hi Hnd Hp Hix Hsk Hc. split; try done.
  - rewrite Hp, length_insert. done.
  - by rewrite Hp.
  - intros c'. rewrite Hp. intros (j & Hj)%list_elem_of_lookup.
    apply list_lookup_insert_Some in Hj as [(_ & <- & _)|[_ Hj]]; [done|]. by eapply H5, list_elem_of_lookup_2.
Qed.

(** ** The operations *)

Lemma indexed_hole_at i c node s :
  heap s !! i = Some c → counter_key node = counter_key c →
  indexed counter_key (length (heap s)) (heap s) (key_index s) →
  indexed_but counter_key i node (length (heap s)) (heap s) (key_index s).
Proof.
  intros Hi Hk Hix k j Hne. rewrite (Hix k j). assert (Hlt := lookup_lt_Some _ _ _ Hi).
  split; intros (Hj & x & Hx & Hxk); (split; [done|]); exists x; (split; [|done]).
  - by rewrite list_lookup_insert_ne by (intros ->; congruence).
  - destruct (decide (j = i)) as [->|Hji]; [rewrite list_lookup_insert_eq in Hx by done; congruence|].
    by rewrite list_lookup_insert_ne in Hx.
Qed.

Lemma indexed_absent key l (ix : gmap Z nat) :
  indexed counter_key (length l) l ix → ix !! key = None → ∀ c, c ∈ l → counter_key c ≠ key.
Proof.
  intros Hix Hn c (j & Hj)%list_elem_of_lookup Hk.
  assert (ix !! key = Some j) by (apply Hix; split; [by eapply lookup_lt_Some|by exists c]). congruence.
Qed.

Lemma nodup_replace i c node l :
  l !! i = Some c → NoDup (counter_key <$> l) →
  (counter_key node = counter_key c ∨ ∀ x, x ∈ l → counter_key x ≠ counter_key node) →
  NoDup (counter_key <$> <[i := node]> l).
Proof.
  intros Hi Hnd Hk. rewrite list_fmap_insert.
  assert (Hci : (counter_key <$> l) !! i = Some (counter_key c)) by (by rewrite list_lookup_fmap, Hi).
  destruct (decide (counter_key node = counter_key c)) as [He|Hne].
  - by rewrite He, list_insert_id.
  - destruct Hk as [?|Hk]; [done|]. apply NoDup_alt. intros j j' k Hj Hj'.
    apply list_lookup_insert_Some in Hj as [(<- & <- & _)|[Hj1 Hj]];
      apply list_lookup_insert_Some in Hj' as [(<- & Hk' & _)|[Hj2 Hj']]; try done.
    + apply list_lookup_fmap_Some in Hj' as (x & Hx & Hlx). destruct (Hk x); [by eapply list_elem_of_lookup_2|done].
    + apply list_lookup_fmap_Some in Hj as (x & Hx & Hlx). destruct (Hk x); [by eapply list_elem_of_lookup_2|congruence].
    + by eapply NoDup_lookup.
Qed.

Lemma insert_wf hist e s :
  items_wf hist s → key_index s !! getKey e = None → (length (heap s) < capacity)%nat → 1 <= hist (getKey e) →
  items_wf hist (insertHeap (mkCounter e 1 0) s) ∧
  heap (insertHeap (mkCounter e 1 0) s) ≡ₚ mkCounter e 1 0 :: heap s.
Proof.
  intros [H1 H2 H3 H4 H5] Hn Hlt Hh. set (c := mkCounter e 1 0).
  assert (Hno := indexed_absent _ _ _ H3 Hn).
  set (s1 := mkItems (heap s ++ [c]) (key_index s) (sketch s)).
  assert (Hid : <[length (heap s) := c]> (heap s1) = heap s1).
  { apply list_insert_id. simpl. by rewrite lookup_app_r, Nat.sub_diag. }
  assert (Hnd : NoDup (counter_key <$> heap s ++ [c])).
  { rewrite fmap_app. apply NoDup_app. split_and!; [done| |apply NoDup_singleton].
    intros k (x & -> & Hx)%list_elem_of_fmap. simpl. rewrite list_elem_of_singleton. by apply Hno. }
  destruct (moveUp_items c (length (heap s)) s1) as (G1 & G2 & G3).
  - simpl. rewrite length_app. simpl. lia.
  - by rewrite Hid.
  - intros k j Hk. rewrite Hid. simpl. rewrite length_app. simpl. rewrite (H3 k j).
    split; intros (Hj & x & Hx & Hxk).
    + split; [lia|]. exists x. by rewrite lookup_app_l.
    + apply lookup_snoc_Some in Hx as [[? Hx]|[-> ->]]; [split; [done|by exists x]|congruence].
  - fold (insertHeap c s) in *. change (moveUpHeap c (length (heap s)) s1) with (insertHeap c s) in *.
    rewrite Hid in G1. simpl in G1.
    assert (Hp : heap (insertHeap c s) ≡ₚ c :: heap s) by (by rewrite G1, Permutation_app_comm).
    split; [|done]. split; [rewrite Hp; simpl; lia|by rewrite G1|done|by rewrite G3|].
    intros c'. rewrite Hp. intros [->|Hc']%elem_of_cons; [|by apply H5]. simpl. unfold counter_key. simpl. lia.
Qed.

(** The root gives its place to a counter of a key that is not tracked. *)
Lemma evict_wf hist min c v s :
  items_wf hist s → heap s !! 0%nat = Some min → (∀ x, x ∈ heap s → counter_key x ≠ counter_key c) →
  0 <= error c ∧ 0 < count c - error c <= hist (counter_key c) →
  let s1 := set_cell (counter_key min) v (mkItems (heap s) (delete (counter_key min) (key_index s)) (sketch s)) in
  items_wf hist (moveDownHeap c 0 s1).
Proof.
  intros Hw Hmin Hno Hc s1. assert (Hw0 := Hw). destruct Hw0 as [H1 H2 H3 H4 H5].
  assert (Hlt := lookup_lt_Some _ _ _ Hmin).
  assert (Hnd : NoDup (counter_key <$> <[0%nat := c]> (heap s))) by (eapply nodup_replace; [done|done|by right]).
  destruct (moveDown_items c 0 s1) as (G1 & G2 & G3); [done|done| |].
  - intros k j Hk. simpl. destruct (decide (k = counter_key min)) as [->|Hkm].
    + rewrite lookup_delete_eq. split; [done|]. intros (_ & x & Hx & Hxk).
      apply list_lookup_insert_Some in Hx as [(_ & <- & _)|[Hj Hx]]; [done|]. destruct Hj.
      eapply (NoDup_lookup _ _ _ (counter_key min)); [exact H2|..]; rewrite list_lookup_fmap;
        [by rewrite Hmin|by rewrite Hx; simpl; f_equal].
    + rewrite lookup_delete_ne by done. rewrite (H3 k j). split; intros (Hj & x & Hx & Hxk); (split; [done|]); exists x; (split; [|done]).
      * rewrite list_lookup_insert_ne; [done|]. intros <-. congruence.
      * apply list_lookup_insert_Some in Hx as [(_ & <- & _)|[_ Hx]]; [done|done].
  - eapply (replaced_wf hist s); try done. rewrite G3.
    change (sketch s1) with (sketch (set_cell (counter_key min) v s)). by eapply iw_sketch, set_cell_wf.
Qed.

Lemma add_wf hist e s :
  items_wf hist s → (0 < capacity)%nat → 0 <= hist (getKey e) →
  ∃ s', add e s = Some s' ∧ items_wf (λ k, hist k + if decide (getKey e = k) then 1 else 0) s'.
Proof.
  intros Hw Hcap Hh0. set (hist' := λ k, hist k + if decide (getKey e = k) then 1 else 0).
  assert (Hmono : ∀ k, hist k <= hist' k) by (intros k; unfold hist'; case_decide; lia).
  assert (He : hist' (getKey e) = hist (getKey e) + 1) by (unfold hist'; by rewrite decide_True).
  pose proof (items_wf_mono hist hist' s Hmono Hw) as Hw'. assert (Hw0 := Hw). destruct Hw0 as [H1 H2 H3 H4 H5].
  unfold add. cbv zeta. destruct (key_index s !! getKey e) as [i|] eqn:Hi.
  - apply H3 in Hi as (Hlt & c & Hc & Hck). rewrite Hc. simpl. eexists. split; [done|].
    set (c' := mkCounter _ _ _). assert (Hkey : counter_key c' = counter_key c) by done.
    set (s1 := mkItems _ _ _).
    assert (Hnd : NoDup (counter_key <$> <[i := c']> (heap s))) by (eapply nodup_replace; [done|done|by left]).
    assert (Hii : <[i := c']> (heap s1) = <[i := c']> (heap s)) by (simpl; by rewrite list_insert_insert_eq).
    destruct (moveUp_items c' i s1) as (G1 & G2 & G3).
    + simpl. by rewrite length_insert.
    + by rewrite Hii.
    + intros k j Hne. rewrite Hii. simpl. rewrite length_insert.
      by apply (indexed_hole_at i c c' s).
    + rewrite Hii in G1. eapply (replaced_wf hist' s _ i c'); try done; [by rewrite G3|].
      specialize (H5 c ltac:(by eapply list_elem_of_lookup_2)). rewrite Hkey, Hck, He. simpl. rewrite Hck in H5. lia.
  - case_bool_decide as Hlt.
    { eexists. split; [done|]. apply insert_wf; try done. lia. }
    assert (Hno := indexed_absent _ _ _ H3 Hi). cbv zeta.
    destruct (heap s) as [|min rest] eqn:Hheap; [simpl in Hlt; lia|]. cbn [lookup list_lookup option_bind mbind].
    destruct (lookup_lt_is_Some_2 (sketch s) (cell_of (getKey e) s)) as [est Hest]; [by apply cell_lt, H4|].
    rewrite Hest. cbn [option_bind mbind]. case_bool_decide as Hf.
    { eexists. split; [done|]. by apply set_cell_wf. }
    eexists. split; [done|]. rewrite <- Hheap. apply evict_wf; [done|by rewrite Hheap|by rewrite Hheap|].
    assert (Hest0 : 0 <= est) by (apply (proj2 H4); by eapply list_elem_of_lookup_2).
    change (counter_key (mkCounter e (est + 1) est)) with (getKey e). simpl. lia.
Qed.

(** The last counter put in the place of another: that one is gone. *)
Lemma swap_last_perm n i (l : list Counter) c last :
  (n = length l - 1)%nat → l !! n = Some last → (i < n)%nat → l !! i = Some c → l ≡ₚ c :: <[i := last]> (take n l).
Proof.
  intros -> Hlast Hi Hc.
  assert (Hl : l = take (length l - 1) l ++ [last]).
  { rewrite <- (take_drop (length l - 1) l) at 1. f_equal. rewrite (drop_S _ last) by done.
    by rewrite drop_ge by lia. }
  assert (Hct : take (length l - 1) l !! i = Some c) by (by rewrite lookup_take_lt).
  rewrite Hl at 1. rewrite Permutation_app_comm. simpl.
  rewrite <- (take_drop_middle _ _ _ Hct) at 1. rewrite insert_take_drop by (by eapply lookup_lt_Some).
  rewrite <- !Permutation_middle. constructor.
Qed.

(** Removing a key drops its counter, if there is one, and no other. *)
Lemma remove_spec hist key s : items_wf hist s →
  items_wf hist (removeCore key s).1 ∧
  match key_index s !! key with
  | Some _ => ∃ c, counter_key c = key ∧ heap s ≡ₚ c :: heap (removeCore key s).1
  | None => heap (removeCore key s).1 = heap s
  end.
Proof.
  intros Hw0. unfold removeCore. cbv zeta. pose proof (set_cell_wf hist key 0 s Hw0) as Hw.
  change (key_index s) with (key_index (set_cell key 0 s)). change (heap s) with (heap (set_cell key 0 s)).
  set (s0 := set_cell key 0 s) in *. clearbody s0. clear Hw0 s. rename s0 into s.
  assert (Hw0 := Hw). destruct Hw0 as [H1 H2 H3 H4 H5].
  destruct (key_index s !! key) as [i|] eqn:Hi; [|done].
  apply H3 in Hi as (Hlt & c & Hc & Hck).
  destruct (lookup_lt_is_Some_2 (heap s) (length (heap s) - 1)) as [last Hlast]; [lia|].
  rewrite Hlast. cbn [fst]. set (n := (length (heap s) - 1)%nat) in *.
  set (s1 := mkItems (take n (heap s)) (delete key (key_index s)) (sketch s)).
  assert (Hlen : length (heap s1) = n) by (simpl; rewrite length_take; lia).
  assert (Hat : ∀ j, (j < n)%nat → heap s1 !! j = heap s !! j) by (intros j Hj; simpl; by apply lookup_take_lt).
  assert (Hdist : ∀ j j' x x', heap s !! j = Some x → heap s !! j' = Some x' → counter_key x = counter_key x' → j = j').
  { intros j j' x x' Hx Hx' Hk. eapply (NoDup_lookup _ _ _ (counter_key x)); [exact H2|..]; rewrite list_lookup_fmap;
      [by rewrite Hx|by rewrite Hx'; simpl; f_equal]. }
  assert (Hsub : ∀ x, x ∈ heap s1 → x ∈ heap s).
  { intros x Hx. simpl in Hx. rewrite <- (take_drop n (heap s)). apply elem_of_app. by left. }
  assert (Hnd1 : NoDup (counter_key <$> heap s1)).
  { rewrite <- (take_drop n (heap s)), fmap_app in H2. by apply NoDup_app in H2 as [? _]. }
  case_bool_decide as Hin.
  - assert (Hcn : heap s1 !! i = Some c) by (by rewrite Hat).
    assert (Hne : ∀ x, x ∈ heap s1 → counter_key x ≠ counter_key last).
    { intros x (j & Hj)%list_elem_of_lookup Hk. assert (Hjn := lookup_lt_Some _ _ _ Hj). rewrite Hlen in Hjn.
      rewrite Hat in Hj by done. assert (j = n) by (by eapply Hdist). lia. }
    assert (Hnd : NoDup (counter_key <$> <[i := last]> (heap s1))) by (eapply nodup_replace; [done|done|by right]).
    destruct (moveDown_items last i s1) as (G1 & G2 & G3); [lia|done| |].
    + intros k j Hk. rewrite Hlen. simpl. destruct (decide (k = key)) as [->|Hkk].
      * rewrite lookup_delete_eq. split; [done|]. intros (Hj & x & Hx & Hxk).
        apply list_lookup_insert_Some in Hx as [(_ & <- & _)|[Hji Hx]]; [congruence|].
        change (take n (heap s)) with (heap s1) in Hx. rewrite Hat in Hx by done. destruct Hji. eapply Hdist; [done..|congruence].
      * rewrite lookup_delete_ne by done. rewrite (H3 k j). split; intros (Hj & x & Hx & Hxk).
        -- destruct (decide (j = n)) as [->|Hjn]; [congruence|]. split; [lia|]. exists x. split; [|done].
           rewrite list_lookup_insert_ne by (intros <-; congruence). change (take n (heap s)) with (heap s1). by rewrite Hat by lia.
        -- split; [lia|]. exists x. split; [|done].
           apply list_lookup_insert_Some in Hx as [(_ & <- & _)|[_ Hx]]; [congruence|].
           change (take n (heap s)) with (heap s1) in Hx. by rewrite Hat in Hx.
    + assert (Hsz : heap (moveDownHeap last i s1) ≡ₚ <[i := last]> (heap s1)) by done.
      split; [|exists c; split; [done|rewrite Hsz; by apply swap_last_perm]].
      split; [rewrite Hsz, length_insert; lia|by rewrite Hsz|done|by rewrite G3|].
      intros c'. rewrite Hsz. intros (j & Hj)%list_elem_of_lookup.
      apply list_lookup_insert_Some in Hj as [(_ & <- & _)|[_ Hj]]; [apply H5; by eapply list_elem_of_lookup_2|].
      apply H5, Hsub. by eapply list_elem_of_lookup_2.
  - assert (i = n) as -> by lia. split; [|exists last; split; [congruence|]]; last first.
    { simpl. rewrite <- (take_drop n (heap s)) at 1. rewrite (drop_S _ last) by done.
      rewrite drop_ge by lia. by rewrite Permutation_app_comm. }
    split; [lia|done| |done|intros c' Hc'; by apply H5, Hsub].
    intros k j. rewrite Hlen. simpl. rewrite lookup_delete_Some. rewrite (H3 k j).
    split.
    + intros (Hk & Hj & x & Hx & Hxk). assert (j ≠ n) by (intros ->; congruence). split; [lia|]. exists x.
      change (take n (heap s)) with (heap s1). by rewrite Hat by lia.
    + intros (Hj & x & Hx & Hxk). change (take n (heap s)) with (heap s1) in Hx. rewrite Hat in Hx by done.
      split; [|split; [lia|by exists x]]. intros ->. assert (j = n) by (eapply Hdist; [done..|congruence]). lia.
Qed.

Lemma remove_wf hist key s : items_wf hist s → items_wf hist (removeCore key s).1.
Proof. apply remove_spec. Qed.

Lemma remove_elements hist key s c : items_wf hist s →
  c ∈ heap (removeCore key s).1 ↔ c ∈ heap s ∧ counter_key c ≠ key.
Proof.
  intros Hw. destruct (remove_spec hist key s Hw) as [Hw' Hr]. destruct Hw as [_ Hnd Hix _ _].
  destruct (key_index s !! key) as [i|] eqn:Hi.
  - destruct Hr as (c0 & Hk & Hp). rewrite Hp in Hnd. apply NoDup_cons in Hnd as [Hc0 _].
    rewrite Hp, elem_of_cons. split; [|by intros [[->|?] ?]]. intros Hc. split; [by right|].
    rewrite <- Hk. intros He. apply Hc0. apply list_elem_of_fmap. by exists c.
  - rewrite Hr. split; [|by intros [? _]]. intros Hc. split; [done|]. by eapply indexed_absent.
Qed.

Lemma clear_wf hist hist' s : items_wf hist s → items_wf hist' (clearCore s).
Proof.
  intros [_ _ _ [H4 _] _]. split; simpl; [lia|constructor| | |by intros c ?%not_elem_of_nil].
  - intros k j. simpl. rewrite lookup_empty. split; [done|lia].
  - split; [by destruct (sketch s)|]. intros v [-> _]%elem_of_replicate. lia.
Qed.

Lemma new_wf hist : items_wf hist new_items.
Proof.
  split; simpl; [lia|constructor| | |by intros c ?%not_elem_of_nil].
  - intros k j. simpl. rewrite lookup_empty. split; [done|lia].
  - split; [|intros v [-> _]%elem_of_replicate; lia].
    assert (0 < getSketchSize (Z.of_nat capacity)).
    { unfold getSketchSize. cbv zeta. rewrite Z.shiftl_1_l. apply Z.pow_pos_nonneg; [lia|].
      case_decide; [lia|]. pose proof (Z.log2_nonneg (Z.of_nat capacity * SKETCH_ENTRIES_PER_HEAP_ENTRY)). lia. }
    destruct (Z.to_nat _) eqn:Hz; [lia|done].
Qed.

Lemma fstep_wf hist s o : items_wf hist s → (0 < capacity)%nat → (∀ k, 0 <= hist k) →
  ∃ s', fstep s o = Some s' ∧ items_wf (λ k, hist k + added [o] k) s'.
Proof.
  intros Hw Hcap Hh. destruct o as [e|key|]; simpl.
  - destruct (add_wf hist e s Hw Hcap (Hh _)) as (s' & Ha & Hw'). exists s'. split; [done|].
    eapply items_wf_mono, Hw'. intros k. simpl. rewrite added_one. lia.
  - eexists. split; [done|]. eapply items_wf_mono, (remove_wf hist key s Hw). intros k. change (added [Remove key] k) with 0. lia.
  - eexists. split; [done|]. by eapply clear_wf.
Qed.

Lemma frun_wf ops : (0 < capacity)%nat → ∀ hist s, items_wf hist s → (∀ k, 0 <= hist k) →
  ∃ s', frun s ops = Some s' ∧ items_wf (λ k, hist k + added ops k) s'.
Proof.
  intros Hcap. induction ops as [|o l IH]; intros hist s Hw Hh; simpl.
  { exists s. split; [done|]. eapply items_wf_mono, Hw. intros k. change (added [] k) with 0. lia. }
  destruct (fstep_wf hist s o Hw Hcap Hh) as (s1 & -> & Hw1). simpl.
  destruct (IH (λ k, hist k + added [o] k) s1 Hw1) as (s' & Hr & Hw').
  { intros k. pose proof (Hh k). pose proof (added_nonneg [o] k). lia. }
  exists s'. split; [done|]. eapply items_wf_mono, Hw'. intros k. simpl.
  change (o :: l) with ([o] ++ l). rewrite added_app. lia.
Qed.

(** C16: With room for a counter, additions, removals and clearings in any order
    never throw and leave a well-formed sketch: no more counters than the
    capacity, of distinct keys, with an exact index and 32-bit cells; and what a
    counter holds for certain, its count less its error, is at least one and at
    most the number of additions of its key. *)
Theorem frequent_items_wellformed ops :
  (0 < capacity)%nat → ∃ s, frun new_items ops = Some s ∧ items_wf (added ops) s.
Proof.
  intros Hcap. destruct (frun_wf ops Hcap (λ _, 0) new_items (new_wf _)) as (s' & Hr & Hw); [lia|].
  exists s'. split; [done|]. eapply items_wf_mono, Hw. intros k. simpl. lia.
Qed.
End frequent.

(** ** The key of an edge *)

(** [FrequentEdgeCounter.getKey], of the hash codes of the two grain ids. *)
Definition edge_key (e : GrainId * GrainId) : Z :=
  Z.lor (Z.shiftl (w32 (getUniformHashCode e.1)) 32) (w32 (getUniformHashCode e.2)).

(** ** Runs *)
Module Runs.
Abbreviation op := (@FOp Z).
Definition stream : list op := [Add 1; Add 2; Add 1; Add 3; Add 3].

Lemma frequent_items_wellformed_witness :
  ∃ s, frun id 2 (new_items 2) stream = Some s ∧ (length (heap s) <= 2)%nat.
Proof.
  destruct (frequent_items_wellformed id 2 stream ltac:(lia)) as (s & Hr & Hw).
  exists s. split; [exact Hr|exact (iw_capacity _ _ _ _ Hw)].
Defined.

(** Counting a tracked key moves its counter towards the root, where the least
    count is expected, and never away from it: here key 1, added twice, is evicted
    while key 2, added once, stays. *)
Lemma most_frequent_evicted :
  (λ s, element <$> heap s) <$> frun id 2 (new_items 2) stream = Some [2; 3] ∧
  added id stream 1 = 2 ∧ added id stream 2 = 1.
Proof. by vm_compute. Qed.
End Runs.
