(* ===== verification/Durable.v ===== *)
(** * Journalled data types

    Models the durable structures of [packages/journaling/src]:
    [durable-value-impl.ts], [durable-dictionary-impl.ts], [durable-list-impl.ts],
    [durable-queue-impl.ts] and [durable-set-impl.ts], the interface of
    [packages/core/src/durable-state-machine.ts] they implement, here a type
    class with its laws, and the text form their payloads take
    ([serializeValue], [deserializeValue] of [value-codec.ts]). *)
From Stdlib Require Import String Ascii.
From stdpp Require Import prelude strings list.
From S2P Require Import Prelude JsMap Ids ValueCodec.
Open Scope Z_scope.

(** ** The text form of a value

    JSON text stands for the wire it is read back as: a number that is not
    finite becomes null, the negative zero loses its sign, and a member that is
    undefined is left out. *)

Definition nonfinite (repr : string) : bool := bool_decide (repr ∈ ["NaN"; "Infinity"; "-Infinity"]).

Fixpoint json (w : wire) : wire :=
  match w with
  | WUndef => WNull
  | WNum NegZero => WNum (NInt 0)
  | WNum (NOther r) => if nonfinite r then WNull else w
  | WArr l => WArr (json <$> l)
  | WObj ms => WObj (omap (λ '(k, w), match w with WUndef => None | _ => Some (k, json w) end) ms)
  | _ => w
  end.

Definition serializeValue (v : value) : CodecError + wire :=
  match encodeValue true v with inl e => inl e | inr w => inr (json w) end.
Definition deserializeValue (w : wire) : CodecError + value := decodeValue None w.

(** Values the text keeps as they are. *)
Definition finite_num (n : num) : Prop := match n with NOther r => nonfinite r = false | _ => True end.
Definition finite_elem (e : elem) : Prop := match e with ENum n => finite_num n | EBig _ => True end.
Fixpoint json_exact (v : value) : Prop :=
  match v with
  | Num n => finite_num n
  | DateV ms => finite_num ms ∧ ms ≠ NegZero
  | TypedArray _ elems => Forall finite_elem elems
  | MapV entries => foldr (λ '(k, v) P, json_exact k ∧ json_exact v ∧ P) True entries
  | SetV l | Arr l => foldr (λ v P, json_exact v ∧ P) True l
  | Obj members => foldr (λ '(_, v) P, v ≠ Undef ∧ json_exact v ∧ P) True members
  | ErrV _ _ _ _ _ _ _ => False
  | _ => True
  end.

Definition exact_wire (w : wire) : Prop := json w = w.

Lemma exact_num n : finite_num n → exact_wire (encode_num n).
Proof. destruct n as [z| |r]; simpl; [done|done|]. intros Hf. unfold exact_wire. simpl. by rewrite Hf. Qed.

Lemma exact_elem e : finite_elem e → exact_wire (encode_elem e).
Proof. destruct e as [n|z]; simpl; [apply exact_num|done]. Qed.

Lemma exact_arr l : Forall exact_wire l → exact_wire (WArr l).
Proof.
  intros Hl. unfold exact_wire. change (WArr (json <$> l) = WArr l). f_equal.
  induction Hl as [|w l Hw Hl IH]; [done|]. rewrite fmap_cons. by f_equal.
Qed.

Lemma exact_obj ms : Forall (λ kv, kv.2 ≠ WUndef ∧ exact_wire kv.2) ms → exact_wire (WObj ms).
Proof.
  intros Hl. unfold exact_wire. simpl. f_equal. induction Hl as [|[k w] l [Hu Hw] Hl IH]; [done|].
  simpl in *. rewrite Hw. destruct w; try done; by f_equal.
Qed.

Lemma exact_tagged tag fields :
  Forall (λ kv, kv.2 ≠ WUndef ∧ exact_wire kv.2) fields → exact_wire (tagged tag fields).
Proof. intros Hf. apply exact_obj. repeat (constructor; [by split|]). done. Qed.

(** What the encoder makes of an exact value. *)
Definition enc_exact (v : value) : Prop :=
  json_exact v → v ≠ Undef → ∀ path w, encodeInner true v path = inr w → exact_wire w ∧ w ≠ WUndef.

Lemma enc_exact_element v path w : enc_exact v → json_exact v →
  encodeElement (encodeInner true) v path = inr w → exact_wire w ∧ w ≠ WUndef.
Proof.
  intros Hv Hj He. destruct v; try (by apply (Hv Hj ltac:(done) path)).
  injection He as <-. done.
Qed.

Lemma bind_inv {E A B} (m : E + A) (f : A → E + B) b :
  bind m f = inr b → ∃ a, m = inr a ∧ f a = inr b.
Proof. destruct m as [e|a]; simpl; [done|]. eauto. Qed.

Lemma enc_exact_elements l path i ws : Forall enc_exact l → foldr (λ v P, json_exact v ∧ P) True l →
  encode_elements (encodeInner true) path i l = inr ws → Forall exact_wire ws.
Proof.
  intros Hl. revert i ws. induction Hl as [|v l Hv Hl IH]; intros i ws Hj He; simpl in *; [by injection He as <-|].
  destruct Hj as [Hjv Hj]. apply bind_inv in He as (w & Hw & He). apply bind_inv in He as (ws' & Hws & He).
  injection He as <-. constructor; [|by eapply IH]. by eapply enc_exact_element in Hw as [? _].
Qed.

Lemma enc_exact_entries l path i ws : Forall (λ kv, enc_exact kv.1 ∧ enc_exact kv.2) l →
  foldr (λ '(k, v) P, json_exact k ∧ json_exact v ∧ P) True l →
  encode_entries (encodeInner true) path i l = inr ws → Forall exact_wire ws.
Proof.
  intros Hl. revert i ws. induction Hl as [|[k v] l [Hk Hv] Hl IH]; intros i ws Hj He; simpl in *; [by injection He as <-|].
  destruct Hj as (Hjk & Hjv & Hj). apply bind_inv in He as (wk & Hwk & He). apply bind_inv in He as (wv & Hwv & He).
  apply bind_inv in He as (ws' & Hws & He). injection He as <-. constructor; [|by eapply IH].
  eapply enc_exact_element in Hwk as [? _]; [|done..]. eapply enc_exact_element in Hwv as [? _]; [|done..].
  apply exact_arr. by repeat constructor.
Qed.

Lemma enc_exact_members l skip path ws : Forall (λ kv, enc_exact kv.2) l →
  foldr (λ '(_, v) P, v ≠ Undef ∧ json_exact v ∧ P) True l →
  encode_members (encodeInner true) skip path l = inr ws → Forall (λ kv, kv.2 ≠ WUndef ∧ exact_wire kv.2) ws.
Proof.
  intros Hl. revert ws. induction Hl as [|[k v] l Hv Hl IH]; intros ws Hj He; simpl in *; [by injection He as <-|].
  destruct Hj as (Hu & Hjv & Hj). destruct (skip k); [by eapply IH|].
  apply bind_inv in He as (w & Hw & He). apply bind_inv in He as (ws' & Hws & He). injection He as <-.
  constructor; [|by eapply IH]. destruct (Hv Hjv Hu _ _ Hw). by split.
Qed.

Lemma exact_elems es : Forall finite_elem es → exact_wire (WArr (encode_elem <$> es)).
Proof. intros He. apply exact_arr. apply Forall_fmap. eapply Forall_impl; [exact He|]. apply exact_elem. Qed.

Lemma enc_exact_leaf v :
  match v with MapV _ | SetV _ | Arr _ | Obj _ | ErrV _ _ _ _ _ _ _ => False | _ => True end → enc_exact v.
Proof.
  intros Hleaf Hj Hu path w He. destruct v; try done; simpl in *; try (injection He as <-); try done;
    try (split; [apply exact_tagged; by repeat constructor|done]).
  - split; [by apply exact_num|by destruct n].
  - split; [|done]. apply exact_tagged. repeat constructor; try done. by apply exact_elems.
  - split; [|done]. apply exact_tagged. repeat constructor; simpl; [done|].
    destruct Hj as [Hf Hz]. destruct ms as [z| |r]; [done|done|]. unfold exact_wire. simpl in *. by rewrite Hf.
Qed.

Lemma all_enc_exact v : enc_exact v.
Proof.
  apply (value_nested_ind enc_exact).
  - intros v0. destruct v0; try done; by apply enc_exact_leaf.
  - intros entries Hl Hj _ path w He. simpl in He. apply bind_inv in He as (ws & Hws & He). injection He as <-.
    split; [|done]. apply exact_tagged. repeat constructor; simpl; [done|]. by eapply exact_arr, enc_exact_entries.
  - intros l Hl Hj _ path w He. simpl in He. apply bind_inv in He as (ws & Hws & He). injection He as <-.
    split; [|done]. apply exact_tagged. repeat constructor; simpl; [done|]. by eapply exact_arr, enc_exact_elements.
  - intros l Hl Hj _ path w He. simpl in He. destruct (hole_index 0 l); [done|].
    apply bind_inv in He as (ws & Hws & He). injection He as <-. split; [|done]. by eapply exact_arr, enc_exact_elements.
  - intros ms Hl Hj _ path w He. simpl in He. apply bind_inv in He as (ws & Hws & He). injection He as <-.
    split; [|done]. by eapply exact_obj, enc_exact_members.
  - done.
Qed.

(** ** Payloads *)

(** What the journal keeps exactly: values the codec can send, of which the
    text loses nothing. *)
Definition carried (v : value) : Prop := sendable v ∧ plain_data v ∧ json_exact v ∧ v ≠ Undef.

Lemma carried_back v : carried v → ∃ w, serializeValue v = inr w ∧ deserializeValue w = inr v.
Proof.
  intros (Hs & Hp & Hj & Hu). unfold serializeValue, deserializeValue.
  destruct (all_carry true None v Hs "$") as (w & He & Hd & _).
  rewrite (revive_plain None v Hp) in Hd.
  assert (encodeValue true v = inr w) as ->
    by (by destruct v).
  exists (json w). split; [done|]. by destruct (all_enc_exact v Hj Hu _ _ He) as [-> _].
Qed.

(** A positional slot may be undefined. *)
Definition slot_ok (v : value) : Prop := sendable v ∧ plain_data v ∧ json_exact v.

Lemma carried_slot v : carried v → slot_ok v.
Proof. by intros (? & ? & ? & _). Qed.

Lemma carried_arr l : carried (Arr l) ↔ Forall slot_ok l.
Proof.
  unfold carried, slot_ok. split.
  - intros (Hs & Hp & Hj & _). simpl in *. induction l as [|v l IH]; constructor; simpl in *; naive_solver.
  - intros Hl. split_and!; [..|done]; induction Hl as [|v l Hv Hl IH]; simpl in *; naive_solver.
Qed.

Lemma carried_obj ms : (∀ s, jm_get T ms ≠ Some (Str s)) →
  carried (Obj ms) ↔ Forall (λ kv, isDangerousKey kv.1 = false ∧ carried kv.2) ms.
Proof.
  intros HT. unfold carried. split.
  - intros ((_ & Hs) & Hp & Hj & _). clear HT. simpl in *.
    induction ms as [|[k v] ms IH]; constructor; simpl in *; naive_solver.
  - intros Hl. assert (Hall : foldr (λ '(_, v) P, sendable v ∧ P) True ms ∧ plain_data (Obj ms) ∧ json_exact (Obj ms)).
    { clear HT. induction Hl as [|[k v] ms Hv Hl IH]; simpl in *; naive_solver. }
    by destruct Hall as (? & ? & ?).
Qed.

(** The member of an object, undefined when it has none. *)
Definition member (k : string) (v : value) : value :=
  match v with Obj ms => default Undef (jm_get k ms) | _ => Undef end.

Lemma carried_member k v : carried v → member k v = Undef ∨ carried (member k v).
Proof.
  intros Hc. destruct v as [| | | | | | | | | | | | | | | | | | | | | |ms| |]; try by left. simpl.
  destruct (jm_get k ms) as [v|] eqn:Hk; [|by left]. right. simpl.
  destruct Hc as ((HT & Hs) & Hp & Hj & Hu).
  assert (Hc : carried (Obj ms)) by (by split_and!). apply carried_obj in Hc; [|done].
  rewrite Forall_forall in Hc. by apply jm_get_Some_elem in Hk; apply Hc in Hk as [_ ?].
Qed.

Lemma slot_member k v : carried v → slot_ok (member k v).
Proof. intros Hc. destruct (carried_member k v Hc) as [->|?]; [done|by apply carried_slot]. Qed.

(** The elements of an array. *)
Definition elements (v : value) : list value := match v with Arr l => l | _ => [] end.

Lemma carried_elements v : slot_ok v → Forall slot_ok (elements v).
Proof.
  intros Hc. destruct v; try by constructor. by apply carried_arr; destruct Hc as (? & ? & ?).
Qed.

(** ** The interface of a durable structure *)

Class DurableStateMachine (M : Type) := {
  reset : M → M;
  apply : value → M → M;
  snapshot : M → value }.

(** What the journal relies on: a payload is applied alike to machines that no
    reader tells apart, and the snapshot of a machine its own payloads made
    survives the journal and rebuilds it from scratch. *)
Class DurableStateMachineLaws (M : Type) `{DurableStateMachine M, Equiv M} := {
  accepts : value → Prop;
  consistent : M → Prop;
  dsm_equivalence :: Equivalence (≡@{M});
  dsm_apply_proper :: Proper ((=) ==> (≡) ==> (≡)) (apply (M := M));
  dsm_reset_equiv s s' : s ≡ s' → reset s = reset s';
  dsm_reset_apply p s : reset (apply p s) = reset s;
  dsm_reset_reset s : reset (reset s) = reset s;
  dsm_accepts_carried p : accepts p → carried p;
  dsm_consistent_reset s : consistent (reset s);
  dsm_consistent_apply p s : accepts p → consistent s → consistent (apply p s);
  dsm_snapshot s : consistent s → accepts (snapshot s) ∧ apply (snapshot s) (reset s) ≡ s }.

(** A method either returns at once or journals a payload first. *)
Inductive Journalled (R : Type) := Done (r : R) | Append (payload : value) (r : R).
Arguments Done {R}.
Arguments Append {R}.

Definition op (t : string) (fields : list (string * value)) : value := Obj (("t", Str t) :: fields).
(** [switch (op.t)] *)
Definition op_is (t : string) (payload : value) : bool :=
  match member "t" payload with Str t' => String.eqb t' t | _ => false end.

(** The payloads of the methods below: carried, with the value a setter sets,
    and no assignment to an index that is none of an array. *)
Definition MAX_INDEX : Z := 2 ^ 32 - 1.
Definition index_of (v : value) : option Z :=
  match v with Num (NInt z) => Some z | Num NegZero => Some 0 | _ => None end.
Definition well_formed (p : value) : Prop :=
  carried p ∧
  (op_is "set" p = true → carried (member "v" p) ∧
     ∀ i, index_of (member "i" p) = Some i → 0 <= i < MAX_INDEX).

(** ** A single value *)
Module DurableValue.
Record t := mk { current : value; present : bool }.

Definition set (v : value) : Journalled () := Append (op "set" [("v", v)]) ().
Definition clear : Journalled () := Append (op "clear" []) ().

#[global] Instance machine : DurableStateMachine t := {
  reset _ := mk Undef false;
  apply p s := if op_is "set" p then mk (member "v" p) true else mk Undef false;
  snapshot s := if present s then op "set" [("v", current s)] else op "clear" [] }.
#[global] Instance equiv : Equiv t := (=).

Definition consistent (s : t) : Prop :=
  if present s then carried (current s) else current s = Undef.
End DurableValue.

(** ** A dictionary *)

(** Keys are strings and numbers, as the class demands; a map does not tell the
    zeros apart. *)
Inductive scalar := SStr (s : string) | SNum (n : num).
#[export] Instance scalar_eq_dec : EqDecision scalar.
Proof. solve_decision. Defined.
Definition scalar_of (v : value) : option scalar :=
  match v with
  | Str s => Some (SStr s)
  | Num NegZero => Some (SNum (NInt 0))
  | Num n => Some (SNum n)
  | _ => None
  end.
Definition scalar_value (k : scalar) : value := match k with SStr s => Str s | SNum n => Num n end.

Module DurableDictionary.
Definition t := list (scalar * value).

Definition has (key : scalar) (s : t) : bool := jm_has key s.
Definition get (key : scalar) (s : t) : option value := jm_get key s.
Definition set (key : value) (v : value) : Journalled () := Append (op "set" [("k", key); ("v", v)]) ().
Definition delete (key : scalar) (s : t) : Journalled bool :=
  if has key s then Append (op "del" [("k", scalar_value key)]) true else Done false.
Definition clear : Journalled () := Append (op "clear" []) ().

(** [for (const [k, v] of op.entries)] *)
Definition load_entry (s : t) (entry : value) : t :=
  match scalar_of (default Undef (elements entry !! 0%nat)) with
  | Some k => jm_set k (default Undef (elements entry !! 1%nat)) s
  | None => s
  end.

#[global] Instance machine : DurableStateMachine t := {
  reset _ := [];
  apply p s :=
    if op_is "set" p then
      match scalar_of (member "k" p) with Some k => jm_set k (member "v" p) s | None => s end
    else if op_is "del" p then
      match scalar_of (member "k" p) with Some k => jm_delete k s | None => s end
    else if op_is "clear" p then []
    else if op_is "load" p then foldl load_entry [] (elements (member "entries" p))
    else s;
  snapshot s := op "load" [("entries", Arr ((λ kv, Arr [scalar_value kv.1; kv.2]) <$> s))] }.
#[global] Instance equiv : Equiv t := (=).

Definition key_ok (k : scalar) : Prop := scalar_of (scalar_value k) = Some k ∧ slot_ok (scalar_value k).
Definition consistent (s : t) : Prop := jm_ok s ∧ Forall (λ kv, key_ok kv.1 ∧ slot_ok kv.2) s.
End DurableDictionary.

(** ** A list

    An element assigned past the end leaves holes; one assigned to an index that
    is none of an array is a property of the object. *)
Module DurableList.
Record t := mk { items : list (option value); props : list (Z * value) }.

Definition length (s : t) : nat := List.length (items s).
Definition get (index : Z) (s : t) : value :=
  if decide (0 <= index < MAX_INDEX) then default Undef (default None (items s !! Z.to_nat index))
  else default Undef (jm_get index (props s)).
Definition toArray (s : t) : list value := default Undef <$> items s.

Definition add (v : value) : Journalled () := Append (op "add" [("v", v)]) ().
Definition set (index : Z) (v : value) : Journalled () := Append (op "set" [("i", Num (NInt index)); ("v", v)]) ().
Definition removeAt (index : Z) : Journalled () := Append (op "removeAt" [("i", Num (NInt index))]) ().
Definition insert (index : Z) (v : value) : Journalled () := Append (op "insert" [("i", Num (NInt index)); ("v", v)]) ().
(** [===] is a parameter: of objects it compares the references. *)
Definition remove (strictEquals : value → value → bool) (v : value) (s : t) : Journalled bool :=
  match list_find (λ o, (match o with Some w => strictEquals w v | None => false end) = true) (items s) with
  | Some (index, _) => Append (op "removeAt" [("i", Num (NInt (Z.of_nat index)))]) true
  | None => Done false
  end.
Definition clear : Journalled () := Append (op "clear" []) ().

(** Where [splice] starts. *)
Definition splice_start (i : Z) (l : list (option value)) : nat :=
  let n := Z.of_nat (List.length l) in
  Z.to_nat (if decide (i < 0) then Z.max (n + i) 0 else Z.min i n).
(** [items[i] = v] *)
Definition assign (i : Z) (v : value) (s : t) : t :=
  if decide (0 <= i < MAX_INDEX) then
    let i := Z.to_nat i in
    mk (if decide (i < List.length (items s))%nat then <[i := Some v]> (items s)
        else items s ++ replicate (i - List.length (items s)) None ++ [Some v]) (props s)
  else mk (items s) (jm_set i v (props s)).

#[global] Instance machine : DurableStateMachine t := {
  reset _ := mk [] [];
  apply p s :=
    let v := member "v" p in
    if op_is "add" p then mk (items s ++ [Some v]) (props s)
    else if op_is "set" p then
      match index_of (member "i" p) with Some i => assign i v s | None => s end
    else if op_is "removeAt" p then
      match index_of (member "i" p) with
      | Some i => let k := splice_start i (items s) in mk (take k (items s) ++ drop (S k) (items s)) (props s)
      | None => s end
    else if op_is "insert" p then
      match index_of (member "i" p) with
      | Some i => let k := splice_start i (items s) in mk (take k (items s) ++ Some v :: drop k (items s)) (props s)
      | None => s end
    else if op_is "clear" p then mk [] []
    else if op_is "load" p then mk (Some <$> elements (member "items" p)) []
    else s;
  snapshot s := op "load" [("items", Arr (toArray s))] }.

(** A reader sees a hole as undefined. *)
#[global] Instance equiv : Equiv t := λ s s', toArray s = toArray s' ∧ props s = props s'.
Definition consistent (s : t) : Prop :=
  props s = [] ∧ Forall slot_ok (toArray s).
End DurableList.

(** ** A queue *)
Module DurableQueue.
Definition t := list value.

Definition peek (s : t) : value := default Undef (s !! 0%nat).
(** None when it throws. *)
Definition peekOrThrow (s : t) : option value := s !! 0%nat.
Definition enqueue (v : value) : Journalled () := Append (op "enq" [("v", v)]) ().
Definition dequeue (s : t) : Journalled value :=
  match s with [] => Done Undef | head :: _ => Append (op "deq" []) head end.
Definition dequeueOrThrow (s : t) : option (Journalled value) :=
  match s with [] => None | _ => Some (dequeue s) end.
Definition clear : Journalled () := Append (op "clear" []) ().

#[global] Instance machine : DurableStateMachine t := {
  reset _ := [];
  apply p s :=
    if op_is "enq" p then s ++ [member "v" p]
    else if op_is "deq" p then tail s
    else if op_is "clear" p then []
    else if op_is "load" p then elements (member "items" p)
    else s;
  snapshot s := op "load" [("items", Arr s)] }.
#[global] Instance equiv : Equiv t := (=).
Definition consistent (s : t) : Prop := Forall slot_ok s.
End DurableQueue.

(** ** A set *)

(** [JSON.stringify] of a string, of code units below 256. *)
Definition hex_digit (n : nat) : string :=
  String (default "?"%char (list_ascii_of_string "0123456789abcdef" !! n)) EmptyString.
Definition json_char (c : ascii) : string :=
  let n := nat_of_ascii c in
  if decide (n = 34)%nat then String (ascii_of_nat 92) (String c EmptyString)
  else if decide (n = 92)%nat then String c (String c EmptyString)
  else if decide (n = 8)%nat then String (ascii_of_nat 92) "b"
  else if decide (n = 9)%nat then String (ascii_of_nat 92) "t"
  else if decide (n = 10)%nat then String (ascii_of_nat 92) "n"
  else if decide (n = 12)%nat then String (ascii_of_nat 92) "f"
  else if decide (n = 13)%nat then String (ascii_of_nat 92) "r"
  else if decide (n < 32)%nat then
    (String (ascii_of_nat 92) "u00" ++ hex_digit (n / 16) ++ hex_digit (n mod 16))%string
  else String c EmptyString.
Fixpoint json_chars (s : string) : string :=
  match s with EmptyString => EmptyString | String c s' => (json_char c ++ json_chars s')%string end.
Definition json_string (s : string) : string := (quote ++ json_chars s ++ quote)%string.

(** [String(n)] and the JSON text of a number. *)
Definition num_text (n : num) : string :=
  match n with NInt z => bigint_toString z | NegZero => "0" | NOther r => r end.
Definition num_json (n : num) : string :=
  match n with NOther r => if nonfinite r then "null" else r | _ => num_text n end.

(** Names that are array indices come first, in numeric order. *)
Definition array_index (k : string) : option Z :=
  z ← BigInt k;
  if decide (bigint_toString z = k ∧ 0 <= z < MAX_INDEX) then Some z else None.
Definition key_before (a b : string) : bool :=
  match array_index a, array_index b with
  | Some i, Some j => bool_decide (i < j)
  | Some _, None => true
  | None, Some _ => false
  | None, None => str_ltb a b
  end.

Definition braces (fields : list (string * string)) : string :=
  ("{" ++ String.concat "," ((λ '(k, t), (json_string k ++ ":" ++ t)%string) <$> fields) ++ "}")%string.

(** [JSON.stringify(canonicalize(value))]: none where it throws, and no text for
    undefined. The copy of a map, a set or a date has no members, and that of a
    byte array has its indices. Of other classes the model has no canonical form. *)
Fixpoint canonical_text (v : value) : option (option string) :=
  match v with
  | Undef | Hole => Some None
  | Null => Some (Some "null")
  | Bool b => Some (Some (if b then "true" else "false"))
  | Num n => Some (Some (num_json n))
  | Str s => Some (Some (json_string s))
  | MapV _ | SetV _ | DateV _ => Some (Some "{}")
  | Bytes bs => Some (Some (braces (imap (λ i b, (bigint_toString (Z.of_nat i), bigint_toString b)) bs)))
  | Arr l =>
      texts ← mapM canonical_text l;
      Some (Some ("[" ++ String.concat "," (default "null" <$> texts) ++ "]")%string)
  | Obj ms =>
      fields ← mapM (λ '(k, v), text ← canonical_text v; Some (k, text)) ms;
      let fields := omap (λ '(k, text), if String.eqb k "__proto__" then None else (λ t, (k, t)) <$> text) fields in
      Some (Some (braces (sort_by (λ a b, key_before a.1 b.1) fields)))
  | _ => None
  end.

Definition structuralKey (v : value) : option string :=
  match v with
  | Null => Some "null:null"
  | Undef => Some "undefined:undefined"
  | Bool b => Some (if b then "boolean:true" else "boolean:false")
  | Num n => Some ("number:" ++ num_text n)%string
  | Str s => Some ("string:" ++ s)%string
  | BigInt_ z => Some ("bigint:" ++ bigint_toString z)%string
  | _ => text ← canonical_text v; (λ t, "object:" ++ t)%string <$> text
  end.

Module DurableSet.
Definition t := list (string * value).

(** None where the key throws. *)
Definition has (v : value) (s : t) : option bool := (λ key, jm_has key s) <$> structuralKey v.
Definition values (s : t) : list value := jm_values s.
Definition add (v : value) (s : t) : option (Journalled bool) :=
  (λ present : bool, if present then Done false else Append (op "add" [("v", v)]) true) <$> has v s.
Definition delete (v : value) (s : t) : option (Journalled bool) :=
  (λ present : bool, if present then Append (op "del" [("v", v)]) true else Done false) <$> has v s.
Definition clear : Journalled () := Append (op "clear" []) ().

Definition put (s : t) (v : value) : t :=
  match structuralKey v with Some key => jm_set key v s | None => s end.

#[global] Instance machine : DurableStateMachine t := {
  reset _ := [];
  apply p s :=
    let v := member "v" p in
    if op_is "add" p then put s v
    else if op_is "del" p then match structuralKey v with Some key => jm_delete key s | None => s end
    else if op_is "clear" p then []
    else if op_is "load" p then foldl put [] (elements (member "values" p))
    else s;
  snapshot s := op "load" [("values", Arr (values s))] }.
#[global] Instance equiv : Equiv t := (=).
Definition consistent (s : t) : Prop :=
  jm_ok s ∧ Forall (λ kv, structuralKey kv.2 = Some kv.1 ∧ slot_ok kv.2) s.
End DurableSet.

(** ** The laws *)

Lemma carried_str s : carried (Str s).
Proof. done. Qed.

Lemma carried_op t fields : jm_get T fields = None →
  Forall (λ kv, isDangerousKey kv.1 = false ∧ carried kv.2) fields → carried (op t fields).
Proof.
  intros HT Hf. apply carried_obj.
  - intros s. simpl. by rewrite HT.
  - constructor; [split; [done|apply carried_str]|done].
Qed.

(** Payloads without an assignment. *)
Lemma well_formed_op t fields : t ≠ "set" → jm_get T fields = None →
  Forall (λ kv, isDangerousKey kv.1 = false ∧ carried kv.2) fields → well_formed (op t fields).
Proof.
  intros Ht HT Hf. split; [by apply carried_op|]. unfold op_is. simpl.
  intros Hs%String.eqb_eq. congruence.
Qed.
#[local] Ltac carry := repeat first [apply Forall_nil_2|apply Forall_cons_2]; simpl; split; [done|].

#[export] Instance value_laws : DurableStateMachineLaws DurableValue.t.
Proof.
  apply (Build_DurableStateMachineLaws _ _ _ well_formed DurableValue.consistent); try done.
  - by split; [intros ?|intros ? ? ->|intros ? ? ? -> ->].
  - by intros p _ <- s s' ->.
  - by intros p [? _].
  - intros p s [Hc Hs] Hok. simpl. destruct (op_is "set" p) eqn:He; [|done]. by apply Hs.
  - intros [c [] ] Hok; simpl in *.
    + split; [|done]. split; [apply carried_op; [done|carry; done]|]. intros _. by split.
    + split; [by apply well_formed_op|]. unfold DurableValue.consistent in Hok. simpl in Hok. by subst c.
Defined.

(** Setting the entries of a map one by one rebuilds it. *)
Lemma jm_set_new {K V} `{EqDecision K} (k : K) (v : V) m : jm_get k m = None → jm_set k v m = m ++ [(k, v)].
Proof.
  induction m as [|[k' v'] m IH]; simpl; [done|]. destruct (decide (k' = k)); [done|]. intros Hk. by rewrite IH.
Qed.

Lemma jm_rebuild {K V} `{EqDecision K} (m : list (K * V)) :
  jm_ok m → foldl (λ acc (kv : K * V), jm_set kv.1 kv.2 acc) [] m = m.
Proof.
  assert (Hgen : ∀ m acc, jm_ok (acc ++ m) → foldl (λ acc (kv : K * V), jm_set kv.1 kv.2 acc) acc m = acc ++ m).
  { clear m. induction m as [|[k v] m IH]; intros acc Hok; simpl; [by rewrite app_nil_r|].
    rewrite jm_set_new.
    - rewrite IH; by rewrite <- (assoc_L (++)).
    - apply jm_get_None. unfold jm_ok, jm_keys in *. rewrite fmap_app in Hok. apply NoDup_app in Hok as (_ & Hd & _).
      intros Hk. apply (Hd k Hk). by left. }
  intros Hok. by rewrite Hgen.
Qed.

(** Maps whose entries satisfy a predicate. *)
Lemma jm_set_Forall {K V} `{EqDecision K} (P : K * V → Prop) k v m :
  P (k, v) → Forall P m → Forall P (jm_set k v m).
Proof.
  intros Hkv. induction 1 as [|[k' v'] m Hp Hm IH]; simpl; [by repeat constructor|].
  destruct (decide (k' = k)) as [->|]; by constructor.
Qed.
Lemma jm_delete_Forall {K V} `{EqDecision K} (P : K * V → Prop) k m : Forall P m → Forall P (jm_delete k m).
Proof. intros Hm. apply Forall_forall. intros kv [_ Hin]%list_elem_of_filter. by apply (Forall_forall P m). Qed.

Lemma slot_elements_at v i : slot_ok v → slot_ok (default Undef (elements v !! i)).
Proof.
  intros Hv%carried_elements. destruct (elements v !! i) as [x|] eqn:Hx; [|done]. simpl.
  rewrite Forall_forall in Hv. by eapply Hv, list_elem_of_lookup_2.
Qed.

Lemma scalar_of_ok v k : scalar_of v = Some k → slot_ok v → DurableDictionary.key_ok k.
Proof.
  destruct v; simpl; try done; [destruct n as [z| |r]|]; intros [= <-] Hv; split; try done; simpl; by destruct Hv.
Qed.

Lemma dict_put k v (s : DurableDictionary.t) : DurableDictionary.key_ok k → slot_ok v →
  DurableDictionary.consistent s → DurableDictionary.consistent (jm_set k v s).
Proof. intros Hk Hv [Hok Hs]. split; [by apply jm_ok_set|by apply jm_set_Forall]. Qed.

Lemma dict_load l s : Forall slot_ok l → DurableDictionary.consistent s →
  DurableDictionary.consistent (foldl DurableDictionary.load_entry s l).
Proof.
  intros Hl. revert s. induction Hl as [|e l He Hl IH]; intros s Hs; simpl; [done|]. apply IH.
  unfold DurableDictionary.load_entry. destruct (scalar_of _) as [k|] eqn:Hk; [|done].
  apply dict_put; [by eapply scalar_of_ok, slot_elements_at|by apply slot_elements_at|done].
Qed.

#[export] Instance dictionary_laws : DurableStateMachineLaws DurableDictionary.t.
Proof.
  apply (Build_DurableStateMachineLaws _ _ _ well_formed DurableDictionary.consistent); try done.
  - by split; [intros ?|intros ? ? ->|intros ? ? ? -> ->].
  - by intros p _ <- s s' ->.
  - by intros p [? _].
  - intros s. by split; [apply jm_ok_nil|constructor].
  - intros p s [Hc Hset] Hs. simpl. destruct (op_is "set" p) eqn:He.
    { destruct (scalar_of (member "k" p)) as [k|] eqn:Hk; [|done].
      apply dict_put; [by eapply scalar_of_ok, slot_member|by apply carried_slot, Hset|done]. }
    destruct (op_is "del" p); [|destruct (op_is "clear" p); [|destruct (op_is "load" p)]].
    + destruct (scalar_of (member "k" p)); [|done]. destruct Hs. split; [by apply jm_ok_delete|by apply jm_delete_Forall].
    + by split; [apply jm_ok_nil|constructor].
    + apply dict_load; [by apply carried_elements, slot_member|by split; [apply jm_ok_nil|constructor]].
    + done.
  - intros s [Hok Hs]. split.
    + apply well_formed_op; [done..|]. carry. apply carried_arr, Forall_fmap. eapply Forall_impl; [exact Hs|].
      intros [k v] [[_ Hk] Hv]. simpl in *. by apply carried_slot, carried_arr; repeat constructor; apply Hk || apply Hv.
    + simpl. rewrite <- (jm_rebuild s) at 2 by done. clear Hok. generalize (@nil (scalar * value)) as acc.
      induction Hs as [|[k v] s [[Hk _] Hv] Hs IH]; intros acc; [done|]. simpl. rewrite <- IH. f_equal.
      unfold DurableDictionary.load_entry. simpl in *. by rewrite Hk.
Defined.

(** *** Lists *)
Module ListLaws.
Import DurableList.

Lemma view_length (s s' : t) : s ≡ s' → List.length (items s) = List.length (items s').
Proof. intros [Hv _]. apply (f_equal List.length) in Hv. unfold toArray in Hv. by rewrite !length_fmap in Hv. Qed.

Lemma assign_proper i v (s s' : t) : s ≡ s' → assign i v s ≡ assign i v s'.
Proof.
  intros Heq. pose proof (view_length s s' Heq) as Hlen. destruct Heq as [Hv Hp]. unfold assign, toArray in *.
  rewrite Hlen. case_decide; split; simpl; try congruence; unfold toArray; simpl; [|done].
  case_decide; by rewrite ?list_fmap_insert, ?fmap_app, ?Hv.
Qed.

Lemma apply_equiv p (s s' : t) : s ≡ s' → apply p s ≡ apply p s'.
Proof.
  intros Heq. pose proof (view_length s s' Heq) as Hlen. assert (Heq' := Heq). destruct Heq' as [Hv Hp].
  unfold toArray in Hv. simpl. unfold splice_start. rewrite Hlen.
  destruct (op_is "add" p); [split; unfold toArray; simpl; by rewrite ?fmap_app, ?Hv|].
  destruct (op_is "set" p); [destruct (index_of _); [by apply assign_proper|done]|].
  destruct (op_is "removeAt" p).
  { destruct (index_of _); [|done]. split; unfold toArray; simpl; by rewrite ?fmap_app, ?fmap_take, ?fmap_drop, ?Hv. }
  destruct (op_is "insert" p).
  { destruct (index_of _); [|done]. split; unfold toArray; simpl;
      by rewrite ?fmap_app, ?fmap_cons, ?fmap_take, ?fmap_drop, ?Hv. }
  by destruct (op_is "clear" p), (op_is "load" p).
Qed.

Lemma toArray_some l props : toArray (mk (Some <$> l) props) = l.
Proof. unfold toArray. simpl. rewrite <- list_fmap_compose. apply list_fmap_id. Qed.

Lemma assign_consistent i v s : 0 <= i < MAX_INDEX → slot_ok v → consistent s → consistent (assign i v s).
Proof.
  intros Hi Hv [Hp Hs]. unfold assign. rewrite decide_True by done. split; [done|]. unfold toArray in *. simpl.
  case_decide.
  - rewrite list_fmap_insert. by apply Forall_insert.
  - rewrite !fmap_app, fmap_replicate. apply Forall_app. split; [done|]. apply Forall_app. split.
    + by apply Forall_replicate.
    + by apply Forall_singleton.
Qed.

Lemma splice_consistent k j (s : t) new :
  Forall slot_ok (default Undef <$> new) → consistent s →
  consistent (mk (take k (items s) ++ new ++ drop j (items s)) (props s)).
Proof.
  intros Hn [Hp Hs]. split; [done|]. unfold toArray in *. simpl. rewrite !fmap_app, fmap_take, fmap_drop.
  repeat apply Forall_app_2; [by apply Forall_take|done|by apply Forall_drop].
Qed.

Lemma apply_consistent p (s : t) : well_formed p → consistent s → consistent (apply p s).
Proof.
  intros [Hc Hset] Hs. simpl. assert (Hv := slot_member "v" p Hc).
  assert (Hone : Forall slot_ok (default Undef <$> [Some (member "v" p)])) by (by apply Forall_singleton).
  destruct (op_is "add" p).
  { destruct Hs as [Hp Hs]. split; [done|]. unfold toArray. simpl. rewrite fmap_app. by apply Forall_app_2. }
  destruct (op_is "set" p).
  { destruct (index_of _) as [i|] eqn:Hi; [|done]. destruct Hset as [_ Hix]; [done|]. apply assign_consistent; eauto. }
  destruct (op_is "removeAt" p).
  { destruct (index_of _) as [z|]; [|done].
    apply (splice_consistent (splice_start z (items s)) (S (splice_start z (items s))) s []); [constructor|done]. }
  destruct (op_is "insert" p).
  { destruct (index_of _) as [z|]; [|done].
    by apply (splice_consistent (splice_start z (items s)) (splice_start z (items s)) s [Some (member "v" p)]). }
  destruct (op_is "clear" p); [by split; [|constructor]|]. destruct (op_is "load" p); [|done].
  split; [done|]. rewrite toArray_some. by apply carried_elements, slot_member.
Qed.
End ListLaws.

#[export] Instance list_laws : DurableStateMachineLaws DurableList.t.
Proof.
  apply (Build_DurableStateMachineLaws _ _ _ well_formed DurableList.consistent); try done.
  - split; [by intros s|by intros s t []|]. intros s s' s'' [H1 H2] [H3 H4]. split; congruence.
  - intros p _ <- s s'. apply ListLaws.apply_equiv.
  - by intros p [? _].
  - apply ListLaws.apply_consistent.
  - intros s [Hp Hs]. split; [apply well_formed_op; [done..|]; carry; by apply carried_arr|].
    split; [apply ListLaws.toArray_some|done].
Defined.

#[export] Instance queue_laws : DurableStateMachineLaws DurableQueue.t.
Proof.
  apply (Build_DurableStateMachineLaws _ _ _ well_formed DurableQueue.consistent); try done.
  - by split; [intros ?|intros ? ? ->|intros ? ? ? -> ->].
  - by intros p _ <- s s' ->.
  - by intros p [? _].
  - by intros s; constructor.
  - intros p s [Hc _] Hs. simpl. unfold DurableQueue.consistent in *. assert (Hv := slot_member "v" p Hc).
    destruct (op_is "enq" p); [by apply Forall_app_2, Forall_singleton|].
    destruct (op_is "deq" p); [by destruct Hs; [constructor|]|].
    destruct (op_is "clear" p); [by constructor|]. destruct (op_is "load" p); [|done].
    by apply carried_elements, slot_member.
  - intros s Hs. split; [apply well_formed_op; [done..|]; carry; by apply carried_arr|done].
Defined.

Lemma set_put v s : slot_ok v → DurableSet.consistent s → DurableSet.consistent (DurableSet.put s v).
Proof.
  intros Hv [Hok Hs]. unfold DurableSet.put. destruct (structuralKey v) as [key|] eqn:Hk; [|done].
  split; [by apply jm_ok_set|by apply jm_set_Forall].
Qed.
Lemma set_load l s : Forall slot_ok l → DurableSet.consistent s → DurableSet.consistent (foldl DurableSet.put s l).
Proof. intros Hl. revert s. induction Hl as [|v l Hv Hl IH]; intros s Hs; simpl; [done|]. by apply IH, set_put. Qed.

#[export] Instance set_laws : DurableStateMachineLaws DurableSet.t.
Proof.
  apply (Build_DurableStateMachineLaws _ _ _ well_formed DurableSet.consistent); try done.
  - by split; [intros ?|intros ? ? ->|intros ? ? ? -> ->].
  - by intros p _ <- s s' ->.
  - by intros p [? _].
  - by intros s; split; [apply jm_ok_nil|constructor].
  - intros p s [Hc _] Hs. simpl. assert (Hv := slot_member "v" p Hc).
    destruct (op_is "add" p); [by apply set_put|].
    destruct (op_is "del" p); [|destruct (op_is "clear" p); [|destruct (op_is "load" p)]].
    + destruct (structuralKey _); [|done]. destruct Hs. split; [by apply jm_ok_delete|by apply jm_delete_Forall].
    + by split; [apply jm_ok_nil|constructor].
    + apply set_load; [by apply carried_elements, slot_member|by split; [apply jm_ok_nil|constructor]].
    + done.
  - intros s [Hok Hs]. split.
    + apply well_formed_op; [done..|]. carry. apply carried_arr. unfold DurableSet.values, jm_values.
      apply Forall_fmap. eapply Forall_impl; [exact Hs|]. by intros kv [_ Hv].
    + simpl. rewrite <- (jm_rebuild s) at 2 by done. clear Hok. unfold DurableSet.values, jm_values.
      generalize (@nil (string * value)) as acc. induction Hs as [|[k v] s [Hk _] Hs IH]; intros acc; [done|].
      simpl. rewrite <- IH. f_equal. unfold DurableSet.put. simpl in Hk. by rewrite Hk.
Defined.

(** ** Any of the five *)

Inductive Machine :=
  | MValue (s : DurableValue.t)
  | MDictionary (s : DurableDictionary.t)
  | MList (s : DurableList.t)
  | MQueue (s : DurableQueue.t)
  | MSet (s : DurableSet.t).

#[export] Instance any_machine : DurableStateMachine Machine := {
  reset m :=
    match m with
    | MValue s => MValue (reset s) | MDictionary s => MDictionary (reset s) | MList s => MList (reset s)
    | MQueue s => MQueue (reset s) | MSet s => MSet (reset s)
    end;
  apply p m :=
    match m with
    | MValue s => MValue (apply p s) | MDictionary s => MDictionary (apply p s) | MList s => MList (apply p s)
    | MQueue s => MQueue (apply p s) | MSet s => MSet (apply p s)
    end;
  snapshot m :=
    match m with
    | MValue s => snapshot s | MDictionary s => snapshot s | MList s => snapshot s
    | MQueue s => snapshot s | MSet s => snapshot s
    end }.
#[export] Instance any_equiv : Equiv Machine := λ m m',
  match m, m' with
  | MValue s, MValue s' => s ≡ s' | MDictionary s, MDictionary s' => s ≡ s' | MList s, MList s' => s ≡ s'
  | MQueue s, MQueue s' => s ≡ s' | MSet s, MSet s' => s ≡ s'
  | _, _ => False
  end.
Definition any_consistent (m : Machine) : Prop :=
  match m with
  | MValue s => DurableValue.consistent s | MDictionary s => DurableDictionary.consistent s
  | MList s => DurableList.consistent s | MQueue s => DurableQueue.consistent s
  | MSet s => DurableSet.consistent s
  end.

#[export] Instance any_laws : DurableStateMachineLaws Machine.
Proof.
  apply (Build_DurableStateMachineLaws _ _ _ well_formed any_consistent).
  - split.
    + intros []; unfold equiv; simpl; reflexivity.
    + intros [] [] H1; unfold equiv in *; simpl in *; try done; by symmetry.
    + intros [] [] [] H1 H2; unfold equiv in *; simpl in *; try done; by etrans.
  - intros p _ <- [s|s|s|s|s] [s'|s'|s'|s'|s'] Heq; try done;
      exact (dsm_apply_proper p p eq_refl s s' Heq).
  - intros [s|s|s|s|s] [s'|s'|s'|s'|s'] Heq; try done; apply (f_equal _ (dsm_reset_equiv s s' Heq)).
  - intros p [s|s|s|s|s]; apply (f_equal _ (dsm_reset_apply p s)).
  - by intros [].
  - by intros p [? _].
  - intros [s|s|s|s|s]; exact (dsm_consistent_reset s).
  - intros p [s|s|s|s|s]; exact (dsm_consistent_apply p s).
  - intros [s|s|s|s|s]; exact (dsm_snapshot s).
Defined.

(** What the methods journal is well formed for values the journal carries, and
    for list indices of an array. *)
Definition journals {R} (r : Journalled R) (P : value → Prop) : Prop :=
  match r with Done _ => True | Append p _ => P p end.

Lemma op_set_ok fields v : jm_get T fields = None → jm_get "v" fields = Some v → jm_get "i" fields = None →
  carried v → Forall (λ kv, isDangerousKey kv.1 = false ∧ carried kv.2) fields → well_formed (op "set" fields).
Proof.
  intros HT Hv Hi Hc Hf. split; [by apply carried_op|]. intros _. simpl. rewrite Hv, Hi. by split.
Qed.

Lemma methods_well_formed v k sc i s d q st :
  carried v → carried k → carried (scalar_value sc) →
  journals (DurableValue.set v) well_formed ∧ journals DurableValue.clear well_formed ∧
  journals (DurableDictionary.set k v) well_formed ∧ journals (DurableDictionary.delete sc d) well_formed ∧
  journals (DurableList.add v) well_formed ∧
  (0 <= i < MAX_INDEX → journals (DurableList.set i v) well_formed) ∧
  journals (DurableList.removeAt i) well_formed ∧ journals (DurableList.insert i v) well_formed ∧
  (∀ eq, journals (DurableList.remove eq v s) well_formed) ∧
  journals (DurableQueue.enqueue v) well_formed ∧ journals (DurableQueue.dequeue q) well_formed ∧
  (∀ r, DurableSet.add v st = Some r → journals r well_formed) ∧
  (∀ r, DurableSet.delete v st = Some r → journals r well_formed).
Proof.
  intros Hv Hk Hsc. split_and!; unfold journals; simpl.
  - apply (op_set_ok _ v); try done. by carry.
  - by apply well_formed_op.
  - apply (op_set_ok _ v); try done. repeat first [apply Forall_nil_2|apply Forall_cons_2]; done.
  - unfold DurableDictionary.delete. destruct (DurableDictionary.has sc d); [|done].
    apply well_formed_op; [done..|]. by carry.
  - apply well_formed_op; [done..|]. by carry.
  - intros Hi. split; [apply carried_op; [done|]; repeat first [apply Forall_nil_2|apply Forall_cons_2]; done|].
    intros _. split; [done|]. by intros j [= <-].
  - apply well_formed_op; [done..|]. by carry.
  - apply well_formed_op; [done..|]. repeat first [apply Forall_nil_2|apply Forall_cons_2]; done.
  - intros eq. unfold DurableList.remove. destruct (list_find _ _) as [[j o]|]; [|done].
    apply well_formed_op; [done..|]. by carry.
  - apply well_formed_op; [done..|]. by carry.
  - unfold DurableQueue.dequeue. destruct q; [done|]. by apply well_formed_op.
  - intros r. unfold DurableSet.add. destruct (DurableSet.has v st) as [[]|]; intros [= <-]; [done|].
    apply well_formed_op; [done..|]. by carry.
  - intros r. unfold DurableSet.delete. destruct (DurableSet.has v st) as [[]|]; intros [= <-]; [|done].
    apply well_formed_op; [done..|]. by carry.
Qed.

Section machine_runs.
Context {M : Type} `{DurableStateMachineLaws M}.

(** A machine to which payloads are applied in order. *)
Definition replayed (s : M) (payloads : list value) : M := foldl (λ s p, apply p s) s payloads.

Lemma replayed_app s l l' : replayed s (l ++ l') = replayed (replayed s l) l'.
Proof. apply foldl_app. Qed.

Lemma replayed_reset s l : reset (replayed s l) = reset s.
Proof. revert s. induction l as [|p l IH]; intros s; [done|]. simpl. rewrite IH. apply dsm_reset_apply. Qed.

Lemma replayed_consistent s l : consistent s → Forall accepts l → consistent (replayed s l).
Proof.
  intros Hs Hl. revert s Hs. induction Hl as [|p l Hp Hl IH]; intros s Hs; [done|].
  by apply IH, dsm_consistent_apply.
Qed.

#[export] Instance replayed_proper : Proper ((≡) ==> (=) ==> (≡)) replayed.
Proof.
  intros s s' Hs l _ <-. revert s s' Hs. induction l as [|p l IH]; intros s s' Hs; [done|].
  apply IH. by apply (dsm_apply_proper p p eq_refl).
Qed.
End machine_runs.

(** C17: A structure survives compaction, if its journalled payloads are well
    formed: values that the text of the codec gives back as they are ([carried]: no
    NaN, infinity, undefined member, error, token or reference in them), and no
    assignment outside the indices of an array. [methods_well_formed] shows that
    the methods journal such payloads when they are called with such values and
    indices; [Runs.nan_replays_as_null] and [Runs.negative_index_forgotten]
    evaluate what becomes of others. Then the snapshot of the structure is a value
    the codec writes to text and reads back, and applied to a fresh structure it
    rebuilds one that no reader tells from the original: the same value, the same
    entries in the same order, the same elements. *)
Theorem snapshot_rebuilds (m : Machine) payloads :
  Forall well_formed payloads →
  ∃ w p, serializeValue (snapshot (replayed (reset m) payloads)) = inr w ∧ deserializeValue w = inr p ∧
         apply p (reset m) ≡ replayed (reset m) payloads.
Proof.
  intros Hl. set (s := replayed (reset m) payloads).
  assert (Hc : consistent s) by (apply replayed_consistent; [apply dsm_consistent_reset|done]).
  destruct (dsm_snapshot s Hc) as [Hacc Hap].
  destruct (carried_back (snapshot s) (dsm_accepts_carried _ Hacc)) as (w & Hw & Hd).
  exists w, (snapshot s). split_and!; [done..|].
  assert (reset s = reset m) as Hr by (unfold s; by rewrite replayed_reset, dsm_reset_reset).
  by rewrite Hr in Hap.
Qed.

(** ** Runs *)
Module Runs.
Definition list_payloads : list value :=
  [op "add" [("v", Str "a")]; op "set" [("i", Num (NInt 3)); ("v", Str "b")];
   op "insert" [("i", Num (NInt (-1))); ("v", Null)]; op "removeAt" [("i", Num (NInt 0))]].

Lemma list_payloads_well_formed : Forall well_formed list_payloads.
Proof.
  repeat first [apply Forall_nil_2|apply Forall_cons_2];
    try (apply well_formed_op; [done..|]; repeat first [apply Forall_nil_2|apply Forall_cons_2]; done).
  split; [apply carried_op; [done|]; repeat first [apply Forall_nil_2|apply Forall_cons_2]; done|].
  intros _. split; [done|]. intros i [= <-]. unfold MAX_INDEX. lia.
Qed.

Lemma list_run : replayed (MList (reset (DurableList.mk [] []))) list_payloads =
  MList (DurableList.mk [None; None; Some Null; Some (Str "b")] []).
Proof. by vm_compute. Qed.

Lemma snapshot_rebuilds_witness :
  ∃ w p, serializeValue (snapshot (MList (DurableList.mk [None; None; Some Null; Some (Str "b")] []))) = inr w ∧
    deserializeValue w = inr p ∧
    apply p (reset (MList (DurableList.mk [] []))) ≡ MList (DurableList.mk [None; None; Some Null; Some (Str "b")] []).
Proof.
  pose proof (snapshot_rebuilds (MList (DurableList.mk [] [])) list_payloads list_payloads_well_formed) as Hs.
  assert (He : replayed (reset (MList (DurableList.mk [] []))) list_payloads =
    MList (DurableList.mk [None; None; Some Null; Some (Str "b")] [])) by (vm_compute; reflexivity).
  rewrite He in Hs. exact Hs.
Defined.

(** All dates have one structural key, as have all maps and all sets. *)
Lemma dates_collide :
  structuralKey (DateV (NInt 1)) = structuralKey (DateV (NInt 2)) ∧
  DurableSet.add (DateV (NInt 2)) (apply (op "add" [("v", DateV (NInt 1))]) []) = Some (Done false).
Proof. by vm_compute. Qed.

(** A number that is not finite is journalled as null. *)
Lemma nan_replays_as_null :
  (let p := op "set" [("v", Num (NOther "NaN"))] in
   (DurableValue.current (apply p (DurableValue.mk Undef false)),
    match serializeValue p with
    | inr w => match deserializeValue w with
               | inr p' => Some (DurableValue.current (apply p' (DurableValue.mk Undef false)))
               | inl _ => None end
    | inl _ => None end)) = (Num (NOther "NaN"), Some Null).
Proof. by vm_compute. Qed.

(** An assignment to a negative index is read back until the next compaction. *)
Lemma negative_index_forgotten :
  let s := apply (op "set" [("i", Num (NInt (-1))); ("v", Str "x")]) (DurableList.mk [] []) in
  DurableList.get (-1) s = Str "x" ∧ DurableList.get (-1) (apply (snapshot s) (reset s)) = Undef.
Proof. by vm_compute. Qed.
End Runs.
