(* ===== verification/Journal.v ===== *)
(** * The journal of a grain

    Models [packages/journaling/src/state-machine-manager-impl.ts]
    (StateMachineManagerImpl), the storage contract of
    [packages/core/src/journal-storage.ts], here a type class with its laws, and
    [memory-journal-storage.ts], an instance. The structures the journal
    rebuilds are the machines of [Durable].

    An activation handles its calls in serialized turns, as the class demands, so
    that a call of the manager is one step; each of its storage calls is given a
    fault, which says whether it fails before or after it takes effect. *)
From Stdlib Require Import String.
From stdpp Require Import prelude gmap strings list.
From S2P Require Import Prelude JsMap Ids ValueCodec Durable.
Open Scope Z_scope.

(** ** Storage *)

(** A record is the text of a frame. *)
Definition JournalEntry : Type := wire.
Record JournalSegment := mkSegment { entries : list JournalEntry; seg_version : option Z }.

(** A write whose expected version is not the stored one is refused: none. *)
Class JournalStorage (ST : Type) := {
  js_read : string → GrainId → ST → JournalSegment;
  js_append : string → GrainId → list JournalEntry → option Z → ST → option (ST * Z);
  js_replace : string → GrainId → list JournalEntry → option Z → ST → option (ST * Z);
  js_clear : string → GrainId → ST → ST }.

(** What a write that was let through has done. *)
Definition wrote {ST} `{JournalStorage ST} (log : string) (id : GrainId) (new : list JournalEntry)
    (expected : option Z) (st : ST) (res : option (ST * Z)) : Prop :=
  match res with
  | Some (st', v) =>
      seg_version (js_read log id st) = expected ∧ js_read log id st' = mkSegment new (Some v) ∧
      (∀ u, expected = Some u → u < v)
  | None => seg_version (js_read log id st) ≠ expected
  end.

Class JournalStorageLaws (ST : Type) `{JournalStorage ST} := {
  js_append_law log id es v st :
    wrote log id (entries (js_read log id st) ++ es) v st (js_append log id es v st);
  js_replace_law log id es v st : wrote log id es v st (js_replace log id es v st);
  js_clear_law log id st : js_read log id (js_clear log id st) = mkSegment [] None;
  js_absent_law log id st : seg_version (js_read log id st) = None → entries (js_read log id st) = [] }.

Module MemoryJournalStorage.
Record Log := mkLog { log_entries : list JournalEntry; log_version : Z }.
Abbreviation t := (gmap string Log).

Definition key (log : string) (id : GrainId) : string := (GrainId_toString id ++ "/" ++ log)%string.
Definition read (log : string) (id : GrainId) (logs : t) : JournalSegment :=
  match logs !! key log id with
  | None => mkSegment [] None
  | Some l => mkSegment (log_entries l) (Some (log_version l))
  end.
(** False when it throws. *)
Definition checkVersion (stored expected : option Z) : bool := bool_decide (stored = expected).
Definition append (log : string) (id : GrainId) (es : list JournalEntry) (expectedVersion : option Z) (logs : t)
    : option (t * Z) :=
  let l := logs !! key log id in
  if checkVersion (log_version <$> l) expectedVersion then
    let next := default (mkLog [] 0) l in
    let next := mkLog (log_entries next ++ es) (log_version next + 1) in
    Some (<[key log id := next]> logs, log_version next)
  else None.
Definition replace (log : string) (id : GrainId) (es : list JournalEntry) (expectedVersion : option Z) (logs : t)
    : option (t * Z) :=
  let l := logs !! key log id in
  if checkVersion (log_version <$> l) expectedVersion then
    let version := default 0 (log_version <$> l) + 1 in
    Some (<[key log id := mkLog es version]> logs, version)
  else None.
Definition clear (log : string) (id : GrainId) (logs : t) : t := delete (key log id) logs.

#[global] Instance storage : JournalStorage t := {
  js_read := read; js_append := append; js_replace := replace; js_clear := clear }.

#[global] Instance laws : JournalStorageLaws t.
Proof.
  split; intros; unfold wrote; simpl; unfold append, replace, clear, read, checkVersion.
  - destruct (st !! key log id) as [l|] eqn:Hl; simpl; case_bool_decide as Hv; simpl; try done.
    + rewrite lookup_insert_eq. split_and!; [done..|]. intros u Hu. simplify_eq. lia.
    + rewrite lookup_insert_eq. split_and!; [done..|]. intros u Hu. by simplify_eq.
  - destruct (st !! key log id) as [l|] eqn:Hl; simpl; case_bool_decide as Hv; simpl; try done.
    + rewrite lookup_insert_eq. split_and!; [done..|]. intros u Hu. simplify_eq. lia.
    + rewrite lookup_insert_eq. split_and!; [done..|]. intros u Hu. by simplify_eq.
  - by rewrite lookup_delete_eq.
  - revert H. simpl. unfold read. by destruct (st !! key log id).
Qed.
End MemoryJournalStorage.

(** ** Frames *)

Inductive Frame :=
  | FOp (m : string) (p : value)
  | FSnap (m : string) (p : value)
  | FVessel (m : string) (count : Z) (ops : list value).

Definition frame_name (f : Frame) : string := match f with FOp m _ | FSnap m _ | FVessel m _ _ => m end.
(** What a frame holds for its machine. *)
Definition frame_ops (f : Frame) : list value := match f with FOp _ p | FSnap _ p => [p] | FVessel _ _ ops => ops end.

(** [LogEnvelope], and how [replay] reads one back. *)
Definition LogEnvelope (f : Frame) : value :=
  match f with
  | FOp m p => Obj [("m", Str m); ("k", Str "op"); ("p", p)]
  | FSnap m p => Obj [("m", Str m); ("k", Str "snap"); ("p", p)]
  | FVessel m count ops =>
      Obj [("m", Str m); ("k", Str "vessel"); ("p", Obj [("count", Num (NInt count)); ("ops", Arr ops)])]
  end.
Definition text_of (v : value) : string := match v with Str s => s | _ => EmptyString end.
Definition frame_of (env : value) : Frame :=
  let m := text_of (member "m" env) in
  let k := text_of (member "k" env) in
  let p := member "p" env in
  if String.eqb k "vessel" then
    FVessel m (match member "count" p with Num (NInt c) => c | _ => 0 end) (elements (member "ops" p))
  else if String.eqb k "snap" then FSnap m p else FOp m p.

Definition frame_entry (f : Frame) : CodecError + JournalEntry := serializeValue (LogEnvelope f).

(** The first error of a sequence, or all the results. *)
Fixpoint all_or_error {A B E} (f : A → E + B) (l : list A) : E + list B :=
  match l with
  | [] => inr []
  | x :: l' => bind (f x) (λ y, bind (all_or_error f l') (λ ys, inr (y :: ys)))
  end.

(** ** The manager *)

Record RetirementRecord := mkRetired { ret_ops : list value; compactionsSinceOrphaned : Z }.

Section manager.
Context {M : Type} `{DurableStateMachine M} {ST : Type} `{JournalStorage ST}.
Context (logName : string) (grainId : GrainId).

Record Manager := mkManager {
  machines : list (string * M);
  snapshotThreshold : Z;
  retirementGraceCompactions : Z;
  retiring : list (string * RetirementRecord);
  version : option Z;
  liveEntryCount : Z }.

Definition set_machines f (g : Manager) : Manager :=
  mkManager (f (machines g)) (snapshotThreshold g) (retirementGraceCompactions g) (retiring g) (version g) (liveEntryCount g).
Definition set_retiring f (g : Manager) : Manager :=
  mkManager (machines g) (snapshotThreshold g) (retirementGraceCompactions g) (f (retiring g)) (version g) (liveEntryCount g).
Definition set_log (v : option Z) (n : Z) (g : Manager) : Manager :=
  mkManager (machines g) (snapshotThreshold g) (retirementGraceCompactions g) (retiring g) v n.

(** The constructor, with its defaults. *)
Definition new_manager (threshold grace : option Z) : Manager :=
  mkManager [] (default 100 threshold) (default 2 grace) [] None 0.

Inductive JournalError :=
  | DuplicateMachine (name : string)
  | UnknownMachine (name : string)
  | Unrepresentable (e : CodecError)
  | InconsistentState
  | StoreFailed.

Definition register (name : string) (m : M) (g : Manager) : JournalError + Manager :=
  if jm_has name (machines g) then inl (DuplicateMachine name)
  else inr (set_machines (jm_set name m) g).

(** [machine.apply] for each payload *)
Definition apply_all (payloads : list value) (m : M) : M := foldl (λ m p, apply p m) m payloads.

(** The record of a machine that is not registered, given the one there is. *)
Definition retired (f : Frame) (old : option RetirementRecord) : RetirementRecord :=
  match f with
  | FVessel _ count ops => mkRetired ops count
  | _ =>
      let record := default (mkRetired [] 0) old in
      mkRetired (ret_ops record ++ frame_ops f) (compactionsSinceOrphaned record)
  end.

(** One round of the loop of [replay]. *)
Definition replay_frame (g : Manager) (f : Frame) : Manager :=
  let name := frame_name f in
  match jm_get name (machines g) with
  | Some m => set_machines (jm_set name (apply_all (frame_ops f) m)) g
  | None =>
      set_retiring (λ r, jm_set name (retired f (jm_get name r)) r) g
  end.
(** It throws at an entry that does not decode. *)
Fixpoint replay_entries (es : list JournalEntry) (g : Manager) : Manager * option JournalError :=
  match es with
  | [] => (g, None)
  | raw :: es' =>
      match deserializeValue raw with
      | inl e => (g, Some (Unrepresentable e))
      | inr env => replay_entries es' (replay_frame g (frame_of env))
      end
  end.
Definition replay (st : ST) (g : Manager) : Manager * option JournalError :=
  let segment := js_read logName grainId st in
  let g := set_log (seg_version segment) (Z.of_nat (length (entries segment))) g in
  let g := set_retiring (λ _, []) g in
  let g := set_machines (fmap (λ '(name, m), (name, reset m))) g in
  replay_entries (entries segment) g.

(** A conditional write under a fault: the store it leaves and what its caller
    is told. *)
Inductive Fault := NoFault | FailBefore | FailAfter.
Definition faulty (fault : Fault) (write : ST → option (ST * Z)) (st : ST) : ST * (JournalError + Z) :=
  match fault with
  | FailBefore => (st, inl StoreFailed)
  | _ =>
      match write st with
      | None => (st, inl InconsistentState)
      | Some (st', v) => (st', match fault with FailAfter => inl StoreFailed | _ => inr v end)
      end
  end.

(** The retirement bookkeeping a compaction implies. *)
Definition nextRetiring (g : Manager) : list (string * RetirementRecord) :=
  omap (λ '(name, record),
    let count := compactionsSinceOrphaned record + 1 in
    if bool_decide (retirementGraceCompactions g <= count) then None
    else Some (name, mkRetired (ret_ops record) count)) (retiring g).

Definition compaction_frames (g : Manager) : list Frame :=
  ((λ '(name, m), FSnap name (snapshot m)) <$> machines g) ++
  ((λ '(name, record), FVessel name (compactionsSinceOrphaned record) (ret_ops record)) <$> nextRetiring g).

Definition compact (fault : Fault) (st : ST) (g : Manager) : ST * Manager * option JournalError :=
  match all_or_error frame_entry (compaction_frames g) with
  | inl e => (st, g, Some (Unrepresentable e))
  | inr frames =>
      let '(st, res) := faulty fault (js_replace logName grainId frames (version g)) st in
      match res with
      | inl e => (st, g, Some e)
      | inr v =>
          let g := set_log (Some v) (Z.of_nat (length frames)) g in
          (st, set_retiring (λ _, nextRetiring g) g, None)
      end
  end.

(** [appendRange], given the faults of its append and of the compaction that
    may follow. *)
Definition appendRange (name : string) (payloads : list value) (fault fault' : Fault) (st : ST) (g : Manager)
    : ST * Manager * option JournalError :=
  match jm_get name (machines g) with
  | None => (st, g, Some (UnknownMachine name))
  | Some m =>
      if bool_decide (payloads = []) then (st, g, None)
      else
        match all_or_error (λ p, frame_entry (FOp name p)) payloads with
        | inl e => (st, g, Some (Unrepresentable e))
        | inr es =>
            let '(st, res) := faulty fault (js_append logName grainId es (version g)) st in
            match res with
            | inl e => (st, g, Some e)
            | inr v =>
                let g := set_log (Some v) (liveEntryCount g + Z.of_nat (length payloads)) g in
                let g := set_machines (jm_set name (apply_all payloads m)) g in
                if bool_decide (Z.max (snapshotThreshold g) (Z.of_nat (length (machines g)) + 1) <= liveEntryCount g)
                then let '(st, g, _) := compact fault' st g in (st, g, None)
                else (st, g, None)
            end
        end
  end.
Definition append (name : string) (payload : value) := appendRange name [payload].

(** [clear]; a failure is one before or after the deletion. *)
Definition clear (fault : Fault) (st : ST) (g : Manager) : ST * Manager * option JournalError :=
  match fault with
  | FailBefore => (st, g, Some StoreFailed)
  | FailAfter => (js_clear logName grainId st, g, Some StoreFailed)
  | NoFault =>
      let g := set_retiring (λ _, []) (set_log None 0 g) in
      (js_clear logName grainId st, set_machines (fmap (λ '(name, m), (name, reset m))) g, None)
  end.
End manager.

(** ** Executions

    One activation is followed; others may write to its log at any time. *)

Section executions.
Context {M : Type} `{DurableStateMachine M} {ST : Type} `{JournalStorage ST}.
Context (logName : string) (grainId : GrainId) (fresh : string → M).

Fixpoint register_all (names : list string) (g : @Manager M) : JournalError + @Manager M :=
  match names with
  | [] => inr g
  | n :: names' => bind (register n (fresh n) g) (register_all names')
  end.
(** A new activation: its structures are registered, then the log is replayed. *)
Definition activate (threshold grace : option Z) (names : list string) (st : ST)
    : @Manager M * option JournalError :=
  match register_all names (new_manager threshold grace) with
  | inl e => (new_manager threshold grace, Some e)
  | inr g => replay logName grainId st g
  end.

Inductive JOp :=
  | OActivate (threshold grace : option Z) (names : list string)
  | OAppend (name : string) (payloads : list value) (fault fault' : Fault)
  | OCompact (fault : Fault)
  | OClear (fault : Fault)
  | OForeignAppend (frames : list Frame) (expected : option Z)
  | OForeignReplace (frames : list Frame) (expected : option Z).

(** A write of another activation. *)
Definition foreign (write : list JournalEntry → option (ST * Z)) (frames : list Frame) (st : ST) : ST :=
  match all_or_error frame_entry frames with
  | inl _ => st
  | inr es => match write es with Some (st', _) => st' | None => st end
  end.

Definition jstep (s : ST * @Manager M) (o : JOp) : ST * @Manager M :=
  let '(st, g) := s in
  match o with
  | OActivate threshold grace names => (st, (activate threshold grace names st).1)
  | OAppend name ps f f' => (appendRange logName grainId name ps f f' st g).1
  | OCompact f => (compact logName grainId f st g).1
  | OClear f => (clear logName grainId f st g).1
  | OForeignAppend fs v => (foreign (λ es, js_append logName grainId es v st) fs st, g)
  | OForeignReplace fs v => (foreign (λ es, js_replace logName grainId es v st) fs st, g)
  end.
Definition jrun (s : ST * @Manager M) (ops : list JOp) : ST * @Manager M := foldl jstep s ops.
End executions.

(** ** What a log says

    The payloads of a machine, in the order its frames hold them, and the record
    they leave with a manager that does not know the machine. *)

Definition frames_of (n : string) (fs : list Frame) : list Frame := filter (λ f, frame_name f = n) fs.
Definition payloads (n : string) (fs : list Frame) : list value := mjoin (frame_ops <$> frames_of n fs).

Definition retire_step (r : option RetirementRecord) (f : Frame) : option RetirementRecord := Some (retired f r).
Definition buffered (n : string) (fs : list Frame) : option RetirementRecord :=
  foldl retire_step None (frames_of n fs).

Definition is_vessel (f : Frame) : bool := match f with FVessel _ _ _ => true | _ => false end.
(** A vessel comes before any other frame of its name. *)
Definition vessels_first (fs : list Frame) : Prop :=
  ∀ n, Forall (λ f, is_vessel f = false) (tail (frames_of n fs)).

Lemma frames_of_app n fs fs' : frames_of n (fs ++ fs') = frames_of n fs ++ frames_of n fs'.
Proof. apply filter_app. Qed.

Lemma payloads_app n fs fs' : payloads n (fs ++ fs') = payloads n fs ++ payloads n fs'.
Proof. unfold payloads. by rewrite frames_of_app, fmap_app, join_app. Qed.

Lemma buffered_app n fs fs' : buffered n (fs ++ fs') = foldl retire_step (buffered n fs) (frames_of n fs').
Proof. unfold buffered. by rewrite frames_of_app, foldl_app. Qed.

(** The buffered operations are the payloads. *)
Lemma buffered_payloads n fs : vessels_first fs →
  default [] (ret_ops <$> buffered n fs) = payloads n fs.
Proof.
  intros Hv. specialize (Hv n). unfold buffered, payloads.
  destruct (frames_of n fs) as [|f l]; [done|]. simpl in Hv |- *.
  assert (Hf : default [] (ret_ops <$> retire_step None f) = frame_ops f) by (by destruct f).
  revert Hf. generalize (frame_ops f) as done_. generalize (retire_step None f) as r.
  induction Hv as [|g l Hg Hv IH]; intros r done_ Hf; simpl; [by rewrite app_nil_r|].
  rewrite (IH _ (done_ ++ frame_ops g)); [by rewrite <- app_assoc|].
  destruct g; try done; simpl; destruct r; simpl in *; by subst.
Qed.

(** Frames of other names. *)
Lemma frames_of_other n fs : Forall (λ f, frame_name f ≠ n) fs → frames_of n fs = [].
Proof.
  unfold frames_of. induction 1 as [|f l Hf Hl IH]; [done|]. by rewrite filter_cons_False.
Qed.
Lemma frames_of_named n fs : Forall (λ f, frame_name f = n) fs → frames_of n fs = fs.
Proof.
  unfold frames_of. induction 1 as [|f l Hf Hl IH]; [done|]. rewrite filter_cons_True by done. by rewrite IH.
Qed.

Lemma payloads_ops n name ps :
  payloads n (FOp name <$> ps) = if decide (name = n) then ps else [].
Proof.
  unfold payloads. case_decide as Hn.
  - rewrite frames_of_named by (apply Forall_fmap, Forall_true; done). clear. induction ps; [done|]. simpl. by f_equal.
  - rewrite frames_of_other by (apply Forall_fmap, Forall_true; done). done.
Qed.

Lemma vessels_first_app fs fs' : vessels_first fs → Forall (λ f, is_vessel f = false) fs' → vessels_first (fs ++ fs').
Proof.
  intros Hv Hf n. specialize (Hv n). rewrite frames_of_app.
  assert (Hn : Forall (λ f, is_vessel f = false) (frames_of n fs')).
  { apply Forall_forall. intros f [_ Hin]%list_elem_of_filter. rewrite Forall_forall in Hf. by apply Hf. }
  destruct (frames_of n fs) as [|f l]; simpl in *; [|by apply Forall_app_2].
  by destruct Hn; simpl.
Qed.

(** ** The invariant *)

Section invariant.
Context {M : Type} `{DurableStateMachineLaws M} {ST : Type} `{JournalStorageLaws ST}.
Context (logName : string) (grainId : GrainId).
(** The machine a name stands for, empty. *)
Context (fresh : string → M) (Hfresh : ∀ n, reset (fresh n) = fresh n).
Abbreviation Mgr := (@Manager M).
Implicit Types g : Mgr.
Abbreviation the_log st := (js_read logName grainId st).

Definition frame_ok (f : Frame) : Prop := Forall accepts (frame_ops f).
Record log_ok (fs : list Frame) : Prop := {
  lo_frames : Forall frame_ok fs;
  lo_vessels : vessels_first fs }.
Definition stored (st : ST) (fs : list Frame) : Prop := all_or_error frame_entry fs = inr (entries (the_log st)).

Lemma envelope_carried f : frame_ok f → carried (LogEnvelope f).
Proof using Type*.
  unfold frame_ok. intros Hf. assert (Hc : Forall carried (frame_ops f))
    by (eapply Forall_impl; [exact Hf|]; apply dsm_accepts_carried). clear Hf.
  assert (Hs : ∀ s, jm_get T (match LogEnvelope f with Obj ms => ms | _ => [] end) ≠ Some (Str s))
    by (intros s; by destruct f).
  destruct f as [m p|m p|m c ops]; simpl in *; apply carried_obj; try done;
    repeat first [apply Forall_nil_2|apply Forall_cons_2]; simpl; try (by split; [|apply carried_str]).
  - split; [done|]. by inversion Hc.
  - split; [done|]. by inversion Hc.
  - split; [done|]. apply carried_obj; [done|]. repeat first [apply Forall_nil_2|apply Forall_cons_2]; [done|].
    split; [done|]. apply carried_arr. eapply Forall_impl; [exact Hc|]. apply carried_slot.
Qed.

Lemma frame_back f : frame_of (LogEnvelope f) = f.
Proof. by destruct f. Qed.

(** Good frames are written, and read back as they are. *)
Lemma frame_entry_ok f : frame_ok f → ∃ w, frame_entry f = inr w ∧ deserializeValue w = inr (LogEnvelope f).
Proof using Type*. intros Hf. by apply carried_back, envelope_carried. Qed.

Lemma frames_entries fs : Forall frame_ok fs → ∃ ws, all_or_error frame_entry fs = inr ws ∧ length ws = length fs.
Proof using Type*.
  induction 1 as [|f fs Hf Hfs (ws & IH & Hl)]; simpl; [by exists []|].
  destruct (frame_entry_ok f Hf) as (w & -> & _). simpl. rewrite IH. exists (w :: ws). simpl. by rewrite Hl.
Qed.

Lemma all_or_error_app {A B E} (f : A → E + B) l l' ys ys' :
  all_or_error f l = inr ys → all_or_error f l' = inr ys' → all_or_error f (l ++ l') = inr (ys ++ ys').
Proof.
  revert ys. induction l as [|x l IH]; intros ys Hl Hl'; simpl in *; [by injection Hl as <-|].
  apply bind_inv in Hl as (y & -> & Hl). simpl in *. apply bind_inv in Hl as (ys1 & Hl & Hy). injection Hy as <-.
  by rewrite (IH ys1).
Qed.

Lemma all_or_error_fmap {A B C E} (f : B → E + C) (h : A → B) l :
  all_or_error (λ x, f (h x)) l = all_or_error f (h <$> l).
Proof. induction l as [|x l IH]; [done|]. simpl. by rewrite IH. Qed.

(** What the manager holds: consistent machines of their kind, and records for
    other names only. *)
Record manager_ok g : Prop := {
  mo_machines : jm_ok (machines g);
  mo_consistent : ∀ n m, jm_get n (machines g) = Some m → consistent m ∧ reset m = fresh n;
  mo_retiring : jm_ok (retiring g);
  mo_ops : ∀ n r, jm_get n (retiring g) = Some r → jm_get n (machines g) = None ∧ Forall accepts (ret_ops r) }.

(** Memory is what the log says. *)
Definition machine_matches (fs : list Frame) g (n : string) : Prop :=
  match jm_get n (machines g) with
  | Some m => m ≡ apply_all (payloads n fs) (fresh n)
  | None => jm_get n (retiring g) = buffered n fs
  end.
Definition synced (fs : list Frame) g : Prop := ∀ n, machine_matches fs g n.

Record Inv (st : ST) g (fs : list Frame) : Prop := {
  iv_log : log_ok fs;
  iv_stored : stored st fs;
  iv_manager : manager_ok g;
  iv_version : ∀ u, version g = Some u → ∃ u', seg_version (the_log st) = Some u' ∧ u <= u';
  iv_synced : version g = seg_version (the_log st) → synced fs g }.

(** *** Replaying *)

Lemma apply_all_app ps ps' (m : M) : apply_all (ps ++ ps') m = apply_all ps' (apply_all ps m).
Proof. apply foldl_app. Qed.

Lemma apply_all_consistent ps (m : M) : consistent m → Forall accepts ps →
  consistent (apply_all ps m) ∧ reset (apply_all ps m) = reset m.
Proof.
  intros Hm Hps. split; [by apply replayed_consistent|by apply replayed_reset].
Qed.

#[local] Instance apply_all_proper : Proper ((=) ==> (≡) ==> (≡)) (apply_all (M := M)).
Proof. intros ps _ <- m m' Hm. by apply replayed_proper. Qed.

Lemma jm_get_fmap {A B} (h : string → A → B) n (l : list (string * A)) :
  jm_get n ((λ '(k, a), (k, h k a)) <$> l) = h n <$> jm_get n l.
Proof.
  induction l as [|[k a] l IH]; [done|]. simpl. destruct (decide (k = n)) as [->|]; [done|exact IH].
Qed.
Lemma jm_ok_fmap {A B} (h : string → A → B) (l : list (string * A)) :
  jm_ok l → jm_ok ((λ '(k, a), (k, h k a)) <$> l).
Proof.
  unfold jm_ok, jm_keys. rewrite <- list_fmap_compose. intros Hl.
  replace (fst ∘ (λ '(k, a), (k, h k a)) <$> l) with l.*1; [done|].
  clear Hl. induction l as [|[k a] l IH]; [done|]. simpl. by f_equal.
Qed.

Lemma replay_frame_step fs f g :
  frame_ok f → manager_ok g → synced fs g →
  manager_ok (replay_frame g f) ∧ synced (fs ++ [f]) (replay_frame g f) ∧
  version (replay_frame g f) = version g ∧
  ∀ n, is_Some (jm_get n (machines (replay_frame g f))) ↔ is_Some (jm_get n (machines g)).
Proof using Type*.
  intros Hf [Hm Hc Hr Ho] Hs. unfold replay_frame. remember (frame_name f) as name eqn:Hnf.
  assert (Hother : ∀ n, n ≠ name → payloads n (fs ++ [f]) = payloads n fs ∧ buffered n (fs ++ [f]) = buffered n fs).
  { intros n Hn. rewrite payloads_app, buffered_app. unfold payloads at 2.
    rewrite !(frames_of_other n [f]) by (apply Forall_singleton; congruence). simpl. by rewrite app_nil_r. }
  assert (Hself : frames_of name [f] = [f]) by (apply frames_of_named, Forall_singleton; done).
  assert (Hpay : payloads name [f] = frame_ops f) by (unfold payloads; rewrite Hself; simpl; by rewrite app_nil_r).
  assert (Hsn := Hs name). unfold machine_matches in Hsn.
  destruct (jm_get name (machines g)) as [m|] eqn:Hname.
  - destruct (Hc name m Hname) as [Hcm Hrm]. destruct (apply_all_consistent (frame_ops f) m Hcm Hf) as [Hcm' Hrm'].
    split_and!; simpl; [split; simpl|..].
    + by apply jm_ok_set.
    + intros n m' . rewrite jm_get_set. case_decide as Hn; [|apply Hc]. intros [= <-]. subst n. by rewrite Hrm'.
    + done.
    + intros n r Hnr. destruct (Ho n r Hnr) as [Hn Hacc]. split; [|done]. rewrite jm_get_set. case_decide; congruence.
    + intros n. unfold machine_matches. simpl. rewrite jm_get_set. case_decide as Hn.
      * subst n. rewrite payloads_app, apply_all_app, Hpay. by rewrite <- Hsn.
      * destruct (Hother n) as [-> ->]; [done|]. apply Hs.
    + done.
    + intros n. rewrite jm_get_set. case_decide as Hn; [|done]. subst n. rewrite Hname. split; intros _; by eexists.
  - assert (Hstep : buffered name (fs ++ [f]) = Some (retired f (jm_get name (retiring g))))
      by (by rewrite buffered_app, Hself, Hsn).
    split_and!; simpl; [split; simpl|..]; [done|done|by apply jm_ok_set| | |done|done].
    + intros n r. rewrite jm_get_set. case_decide as Hn; [|apply Ho]. intros [= <-]. subst n. split; [done|].
      assert (Hold : Forall accepts (ret_ops (default (mkRetired [] 0) (jm_get name (retiring g))))).
      { destruct (jm_get name (retiring g)) as [r|] eqn:Hr0; [by apply (Ho name)|constructor]. }
      destruct f; [by apply Forall_app_2|by apply Forall_app_2|done].
    + intros n. unfold machine_matches. simpl. specialize (Hs n). unfold machine_matches in Hs.
      destruct (decide (n = name)) as [->|Hn].
      * rewrite Hname. by rewrite jm_get_set_eq.
      * destruct (Hother n) as [-> ->]; [done|]. by rewrite jm_get_set_ne by done.
Qed.
Lemma replay_entries_spec fs' : ∀ fs ws g,
  all_or_error frame_entry fs' = inr ws → Forall frame_ok fs' → manager_ok g → synced fs g →
  let res := replay_entries ws g in
  res.2 = None ∧ manager_ok res.1 ∧ synced (fs ++ fs') res.1 ∧ version res.1 = version g ∧
  ∀ n, is_Some (jm_get n (machines res.1)) ↔ is_Some (jm_get n (machines g)).
Proof using Type*.
  induction fs' as [|f fs' IH]; intros fs ws g Hws Hok Hg Hs; cbv zeta.
  - injection Hws as <-. rewrite app_nil_r. by split_and!.
  - apply Forall_cons in Hok as [Hf Hok]. simpl in Hws.
    destruct (frame_entry_ok f Hf) as (w & Hw & Hd). rewrite Hw in Hws. simpl in Hws.
    apply bind_inv in Hws as (ws' & Hws & Heq). injection Heq as <-. simpl. rewrite Hd, frame_back.
    destruct (replay_frame_step fs f g Hf Hg Hs) as (Hg1 & Hs1 & Hv1 & Hn1).
    destruct (IH (fs ++ [f]) ws' _ Hws Hok Hg1 Hs1) as (He & Hg2 & Hs2 & Hv2 & Hn2).
    rewrite <- app_assoc in Hs2. split_and!; [done..|by rewrite Hv2|]. intros n. by rewrite Hn2.
Qed.

(** A replay of a well-formed log succeeds, and memory is what the log says. *)
Lemma replay_spec st g fs : log_ok fs → stored st fs → jm_ok (machines g) →
  (∀ n m, jm_get n (machines g) = Some m → reset m = fresh n) →
  let res := replay logName grainId st g in
  res.2 = None ∧ Inv st res.1 fs ∧ version res.1 = seg_version (the_log st) ∧
  ∀ n, is_Some (jm_get n (machines res.1)) ↔ is_Some (jm_get n (machines g)).
Proof using Type*.
  intros [Hok Hves] Hst Hm Hkind. cbv zeta. unfold replay. cbv zeta.
  set (g0 := set_machines _ _).
  assert (Hg0 : manager_ok g0).
  { split; simpl; [by apply jm_ok_fmap| |apply jm_ok_nil|by intros n r ?].
    intros n m. rewrite jm_get_fmap. intros (m0 & Hm0 & ->)%fmap_Some_1.
    split; [apply dsm_consistent_reset|]. rewrite dsm_reset_reset. by apply Hkind. }
  assert (Hs0 : synced [] g0).
  { intros n. unfold machine_matches. simpl. rewrite jm_get_fmap.
    destruct (jm_get n (machines g)) as [m|] eqn:Hn; simpl; [|done]. by rewrite (Hkind n m Hn). }
  destruct (replay_entries_spec fs [] (entries (the_log st)) g0 Hst Hok Hg0 Hs0) as (He & Hg & Hs & Hv & Hn).
  simpl in Hs. split_and!; [done| |done|].
  - split; [by split|done|done| |done]. intros u. rewrite Hv. simpl. intros ->. exists u. split; [done|lia].
  - intros n. rewrite Hn. simpl. rewrite jm_get_fmap. by rewrite fmap_is_Some.
Qed.

(** *** Writing *)

(** A conditional write leaves the log alone or puts the new frames. *)
Lemma faulty_spec fault (write : ST → option (ST * Z)) new v st :
  wrote logName grainId new v st (write st) →
  let '(st', res) := faulty fault write st in
  match res with
  | inr u => fault = NoFault ∧ v = seg_version (the_log st) ∧ the_log st' = mkSegment new (Some u) ∧
             (∀ u0, v = Some u0 → u0 < u)
  | inl e => st' = st ∨
             fault = FailAfter ∧ v = seg_version (the_log st) ∧
             ∃ u, the_log st' = mkSegment new (Some u) ∧ (∀ u0, v = Some u0 → u0 < u)
  end.
Proof.
  intros Hw. unfold faulty, wrote in *. destruct fault; [|by left|]; destruct (write st) as [[st' u]|]; try by left.
  - destruct Hw as (Hv & Hl & Hu). by split_and!.
  - destruct Hw as (Hv & Hl & Hu). right. split_and!; [done..|]. by exists u.
Qed.

(** A log that somebody else wrote last. *)
Lemma Inv_overtaken st st' g fs fs' u :
  Inv st g fs → log_ok fs' → stored st' fs' → seg_version (the_log st') = Some u →
  (∀ u0, seg_version (the_log st) = Some u0 → u0 < u) → Inv st' g fs'.
Proof.
  intros [_ _ Hmo Hbound _] Hl Hst Hv Hlt. split; [done..| |].
  - intros u0 Hu0. destruct (Hbound u0 Hu0) as (u1 & Hu1 & Hle). exists u. split; [done|]. specialize (Hlt u1 Hu1). lia.
  - intros Heq. rewrite Hv in Heq. destruct (Hbound u Heq) as (u1 & Hu1 & Hle). specialize (Hlt u1 Hu1). lia.
Qed.

(** *** Compaction *)

(** The frame of each entry of a map, seen under one name. *)
Lemma frames_of_map {A} (h : string → A → Frame) n (l : list (string * A)) :
  (∀ k a, frame_name (h k a) = k) → jm_ok l →
  frames_of n ((λ '(k, a), h k a) <$> l) = match jm_get n l with Some a => [h n a] | None => [] end.
Proof.
  intros Hh. unfold jm_ok, jm_keys. induction l as [|[k a] l IH]; intros Hl; [done|].
  apply NoDup_cons in Hl as [Hk Hl]. unfold frames_of in *. rewrite fmap_cons, filter_cons, Hh. simpl.
  destruct (decide (k = n)) as [->|Hn]; [|by apply IH].
  rewrite IH by done. assert (jm_get n l = None) as -> by (by apply jm_get_None). done.
Qed.

Definition step_retired (grace : Z) (r : RetirementRecord) : option RetirementRecord :=
  let count := compactionsSinceOrphaned r + 1 in
  if bool_decide (grace <= count) then None else Some (mkRetired (ret_ops r) count).

Lemma nextRetiring_map g : jm_ok (retiring g) →
  jm_ok (nextRetiring g) ∧
  ∀ n, jm_get n (nextRetiring g) = jm_get n (retiring g) ≫= step_retired (retirementGraceCompactions g).
Proof.
  unfold nextRetiring, jm_ok, jm_keys. generalize (retirementGraceCompactions g) as grace. intros grace.
  induction (retiring g) as [|[k r] l IH]; intros Hl; [done|]. apply NoDup_cons in Hl as [Hk Hl].
  destruct (IH Hl) as [IH1 IH2]. set (l' := omap _ l) in *. simpl. unfold step_retired at 1.
  assert (Hnot : jm_get k l' = None).
  { rewrite IH2. assert (jm_get k l = None) as -> by (by apply jm_get_None). done. }
  case_bool_decide as Hg; fold l'.
  - split; [done|]. intros n. rewrite IH2. destruct (decide (k = n)) as [<-|]; [|done].
    simpl. unfold step_retired. rewrite bool_decide_true by done. rewrite <- IH2. done.
  - split.
    + apply NoDup_cons. split; [|done]. by apply jm_get_None in Hnot.
    + intros n. simpl. destruct (decide (k = n)) as [<-|]; [|apply IH2].
      simpl. unfold step_retired. by rewrite bool_decide_false.
Qed.

Lemma compaction_frames_of g n : manager_ok g →
  frames_of n (compaction_frames g) =
  match jm_get n (machines g), jm_get n (retiring g) ≫= step_retired (retirementGraceCompactions g) with
  | Some m, _ => [FSnap n (snapshot m)]
  | None, Some r => [FVessel n (compactionsSinceOrphaned r) (ret_ops r)]
  | None, None => []
  end.
Proof.
  intros [Hm Hc Hr Ho]. destruct (nextRetiring_map g Hr) as [Hn Hget]. unfold compaction_frames.
  rewrite frames_of_app, !frames_of_map by done. rewrite Hget.
  destruct (jm_get n (machines g)) as [m|] eqn:Hmn; [|by destruct (_ ≫= _)].
  destruct (jm_get n (retiring g)) as [r|] eqn:Hrn; [|done]. destruct (Ho n r Hrn). congruence.
Qed.

Lemma compaction_ok g : manager_ok g → log_ok (compaction_frames g).
Proof using Type*.
  intros Hg. split.
  - destruct Hg as [Hm Hc Hr Ho]. apply Forall_app_2; apply Forall_fmap, Forall_forall.
    + intros [n m] Hin. apply (jm_elem_get _ _ _ Hm) in Hin. destruct (Hc n m Hin) as [Hcm _].
      apply Forall_singleton. by apply dsm_snapshot.
    + intros [n r] Hin. destruct (nextRetiring_map g Hr) as [Hn Hget].
      apply (jm_elem_get _ _ _ Hn) in Hin. rewrite Hget in Hin. apply bind_Some in Hin as (r' & Hr' & Hstep).
      unfold step_retired in Hstep. case_bool_decide; [done|]. injection Hstep as <-. by apply (Ho n r').
  - intros n. rewrite compaction_frames_of by done.
    destruct (jm_get n (machines g)); [by constructor|]. destruct (_ ≫= _); by constructor.
Qed.

(** Memory as the log of a compaction has it. *)
Lemma compaction_synced g v k : manager_ok g →
  synced (compaction_frames g) (set_retiring (λ _, nextRetiring g) (set_log v k g)).
Proof using Type*.
  intros Hg n. unfold machine_matches. simpl. unfold payloads, buffered. rewrite compaction_frames_of by done.
  destruct Hg as [Hm Hc Hr Ho]. destruct (nextRetiring_map g Hr) as [_ Hget]. rewrite Hget.
  destruct (jm_get n (machines g)) as [m|] eqn:Hmn.
  - simpl. destruct (Hc n m Hmn) as [Hcm Hrm]. destruct (dsm_snapshot m Hcm) as [_ Hs]. rewrite Hrm in Hs. by symmetry.
  - destruct (_ ≫= _) as [r|] eqn:Hstep; [|done]. simpl. by destruct r.
Qed.

(** The machines in memory are those of a log. *)
Definition remembered (fs : list Frame) g : Prop :=
  ∀ n m, jm_get n (machines g) = Some m → m ≡ apply_all (payloads n fs) (fresh n).

Lemma synced_remembered fs g : synced fs g → remembered fs g.
Proof. intros Hs n m Hm. specialize (Hs n). unfold machine_matches in Hs. by rewrite Hm in Hs. Qed.

Lemma compaction_remembered g : manager_ok g → remembered (compaction_frames g) g.
Proof using Type*. intros Hg. exact (synced_remembered _ _ (compaction_synced g None 0 Hg)). Qed.

Lemma compact_inv fault st g fs :
  Inv st g fs →
  let '(st', g', err) := compact logName grainId fault st g in
  machines g' = machines g ∧ snapshotThreshold g' = snapshotThreshold g ∧
  retirementGraceCompactions g' = retirementGraceCompactions g ∧
  ((the_log st' = the_log st ∧ g' = g ∧ is_Some err ∧ Inv st' g' fs) ∨
   (Inv st' g' (compaction_frames g) ∧ version g = seg_version (the_log st) ∧
    (err = None ↔ version g' = seg_version (the_log st')))).
Proof using Type*.
  intros Hinv. assert (Hg := iv_manager _ _ _ Hinv). unfold compact.
  destruct (frames_entries (compaction_frames g)) as (ws & Hws & Hlen); [by apply compaction_ok|]. rewrite Hws.
  pose proof (faulty_spec fault (js_replace logName grainId ws (version g)) ws (version g) st
    (js_replace_law logName grainId ws (version g) st)) as Hf.
  destruct (faulty fault _ st) as [st' [e|v]].
  - split_and!; [done..|]. destruct Hf as [->|(-> & Hv & u & Hl & Hu)]; [by left; split_and!|right].
    assert (Hst : stored st' (compaction_frames g)) by (unfold stored; by rewrite Hl).
    split_and!; [|done|].
    + eapply (Inv_overtaken st); [done|by apply compaction_ok|done|by rewrite Hl|]. intros u0 Hu0. apply Hu. congruence.
    + split; [done|]. rewrite Hl. simpl. intros Hvu. specialize (Hu u Hvu). lia.
  - destruct Hf as (-> & Hv & Hl & Hu). split_and!; [done..|]. right. split_and!; [|done|by rewrite Hl].
    assert (Hst : stored st' (compaction_frames g)) by (unfold stored; by rewrite Hl).
    split; [by apply compaction_ok|done| | |intros _; exact (compaction_synced g (Some v) _ Hg)].
    + destruct Hg as [Hm Hc Hr Ho]. destruct (nextRetiring_map g Hr) as [Hn Hget].
      split; simpl; [done..|]. intros n r. rewrite Hget. intros (r' & Hr' & Hstep)%bind_Some.
      unfold step_retired in Hstep. case_bool_decide; [done|]. injection Hstep as <-. by apply (Ho n r').
    + simpl. intros u [= <-]. rewrite Hl. exists v. split; [done|lia].
Qed.
(** *** The operations *)

Lemma ops_log_ok fs name ps : log_ok fs → Forall accepts ps → log_ok (fs ++ (FOp name <$> ps)).
Proof.
  intros [Hf Hv] Hps. split.
  - apply Forall_app_2; [done|]. apply Forall_fmap. eapply Forall_impl; [exact Hps|]. intros p Hp.
    by apply Forall_singleton.
  - apply vessels_first_app; [done|]. by apply Forall_fmap, Forall_true.
Qed.

(** Memory and the log take the same operations. *)
Lemma ops_synced fs g name ps m v k :
  manager_ok g → synced fs g → jm_get name (machines g) = Some m → Forall accepts ps →
  let g' := set_machines (jm_set name (apply_all ps m)) (set_log v k g) in
  manager_ok g' ∧ synced (fs ++ (FOp name <$> ps)) g'.
Proof using Type*.
  intros [Hm Hc Hr Ho] Hs Hname Hps. destruct (Hc name m Hname) as [Hcm Hrm].
  destruct (apply_all_consistent ps m Hcm Hps) as [Hcm' Hrm']. split; [split; simpl|].
  - by apply jm_ok_set.
  - intros n m'. rewrite jm_get_set. case_decide as Hn; [|apply Hc]. intros [= <-]. subst n. by rewrite Hrm'.
  - done.
  - intros n r Hnr. destruct (Ho n r Hnr) as [Hn Hacc]. split; [|done]. rewrite jm_get_set. case_decide; congruence.
  - intros n. specialize (Hs n). unfold machine_matches in *. simpl. rewrite jm_get_set, payloads_app, payloads_ops.
    destruct (decide (name = n)) as [->|Hn].
    + rewrite Hname in Hs. by rewrite apply_all_app, <- Hs.
    + rewrite app_nil_r, buffered_app, frames_of_other by (apply Forall_fmap, Forall_true; done). done.
Qed.

(** What [appendRange] does: refused, it leaves memory alone, and the log too
    unless the store failed after the write; granted, memory and log have the
    payloads, whether or not the compaction that follows succeeds. *)
Lemma appendRange_inv name ps fault fault' st g fs :
  Inv st g fs → Forall accepts ps → ps ≠ [] →
  let '(st', g', err) := appendRange logName grainId name ps fault fault' st g in
  ∃ fs', Inv st' g' fs' ∧
  match err with
  | Some _ =>
      g' = g ∧
      (fs' = fs ∧ the_log st' = the_log st ∨
       fs' = fs ++ (FOp name <$> ps) ∧ fault = FailAfter ∧ is_Some (jm_get name (machines g)) ∧
       version g = seg_version (the_log st) ∧ version g ≠ seg_version (the_log st'))
  | None =>
      ∃ m g1, jm_get name (machines g) = Some m ∧ version g = seg_version (the_log st) ∧
        machines g1 = jm_set name (apply_all ps m) (machines g) ∧ retiring g1 = retiring g ∧
        retirementGraceCompactions g1 = retirementGraceCompactions g ∧
        machines g' = machines g1 ∧ retirementGraceCompactions g' = retirementGraceCompactions g ∧
        manager_ok g1 ∧ (fs' = fs ++ (FOp name <$> ps) ∨ fs' = compaction_frames g1) ∧ remembered fs' g'
  end.
Proof using Type*.
  intros Hinv Hps Hne. assert (Hg := iv_manager _ _ _ Hinv). unfold appendRange.
  destruct (jm_get name (machines g)) as [m|] eqn:Hm; [|exists fs; split; [done|]; split; [done|by left]].
  rewrite bool_decide_false by done. rewrite (all_or_error_fmap frame_entry (FOp name)).
  destruct (frames_entries (FOp name <$> ps)) as (ws & Hws & _).
  { apply Forall_fmap. eapply Forall_impl; [exact Hps|]. intros p Hp. by apply Forall_singleton. }
  rewrite Hws.
  pose proof (faulty_spec fault (js_append logName grainId ws (version g)) (entries (the_log st) ++ ws) (version g) st
    (js_append_law logName grainId ws (version g) st)) as Hf.
  assert (Hst : ∀ st', entries (the_log st') = entries (the_log st) ++ ws → stored st' (fs ++ (FOp name <$> ps))).
  { intros st' He. unfold stored. rewrite He. apply all_or_error_app; [apply Hinv|done]. }
  assert (Hlog := ops_log_ok fs name ps (iv_log _ _ _ Hinv) Hps).
  destruct (faulty fault _ st) as [st' [e|v]].
  - destruct Hf as [->|(-> & Hv & u & Hl & Hu)]; [exists fs; split; [done|]; split; [done|by left]|].
    exists (fs ++ (FOp name <$> ps)). split.
    + eapply (Inv_overtaken st); [done..|by apply Hst; rewrite Hl|by rewrite Hl|]. intros u0 Hu0. apply Hu. congruence.
    + split; [done|]. right. split_and!; [done..|by exists m|done|]. rewrite Hl. simpl. intros Hvu. specialize (Hu u Hvu). lia.
  - destruct Hf as (-> & Hv & Hl & Hu). cbv zeta. set (k := (liveEntryCount g + _)).
    destruct (ops_synced fs g name ps m (Some v) k Hg (iv_synced _ _ _ Hinv Hv) Hm Hps) as [Hg1 Hs1].
    set (g1 := set_machines _ _) in *.
    assert (Hinv1 : Inv st' g1 (fs ++ (FOp name <$> ps))).
    { split; [done|by apply Hst; rewrite Hl|done| |done]. intros u [= <-]. rewrite Hl. exists v. split; [done|lia]. }
    case_bool_decide as Hthr; [|exists (fs ++ (FOp name <$> ps)); split; [done|]].
    + pose proof (compact_inv fault' st' g1 _ Hinv1) as Hcomp.
      destruct (compact logName grainId fault' st' g1) as [[st2 g2] err]. destruct Hcomp as (Hm2 & _ & Hgr2 & Hcase).
      destruct Hcase as [(_ & -> & _ & Hinv2)|(Hinv2 & _ & _)].
      * exists (fs ++ (FOp name <$> ps)). split; [done|]. exists m, g1. split_and!; try done; [by left|by apply synced_remembered].
      * exists (compaction_frames g1). split; [done|]. exists m, g1. split_and!; try done; [by right|].
        intros n m'. rewrite Hm2. by apply compaction_remembered.
    + exists m, g1. split_and!; try done; [by left|by apply synced_remembered].
Qed.

(** An activation whose version is not the stored one writes nothing. *)
Lemma overtaken_refused st g :
  version g ≠ seg_version (the_log st) →
  (∀ name ps f f', ps ≠ [] → ∃ e, appendRange logName grainId name ps f f' st g = (st, g, Some e)) ∧
  (∀ f, ∃ e, compact logName grainId f st g = (st, g, Some e)).
Proof using Type*.
  intros Hv.
  assert (Hf : ∀ f es write, wrote logName grainId es (version g) st (write st) →
    ∃ e, faulty f write st = (st, inl e)).
  { intros f es write Hw. unfold faulty. destruct f; [|by eexists|];
      (destruct (write st) as [[st' v]|]; [by destruct Hw as [? _]|by eexists]). }
  split.
  - intros name ps f f' Hne. unfold appendRange. destruct (jm_get name (machines g)); [|by eexists].
    rewrite bool_decide_false by done. destruct (all_or_error _ _) as [|es]; [by eexists|].
    destruct (Hf f _ _ (js_append_law logName grainId es (version g) st)) as [e ->]. by eexists.
  - intros f. unfold compact. destruct (all_or_error _ _) as [|es]; [by eexists|].
    destruct (Hf f _ _ (js_replace_law logName grainId es (version g) st)) as [e ->]. by eexists.
Qed.

Lemma clear_inv fault st g fs :
  Inv st g fs → fault ≠ FailAfter →
  let '(st', g', err) := clear logName grainId fault st g in
  Inv st' g' (match fault with NoFault => [] | _ => fs end).
Proof using Type*.
  intros Hinv Hf. destruct fault; [|exact Hinv|done]. simpl. destruct (iv_manager _ _ _ Hinv) as [Hm Hc Hr Ho].
  split; simpl.
  - split; [constructor|]. intros n. constructor.
  - unfold stored. by rewrite js_clear_law.
  - split; simpl; [by apply jm_ok_fmap| |apply jm_ok_nil|by intros n r ?].
    intros n m. rewrite jm_get_fmap. intros (m0 & Hm0 & ->)%fmap_Some_1.
    split; [apply dsm_consistent_reset|]. rewrite dsm_reset_reset. by apply (Hc n).
  - done.
  - intros _ n. unfold machine_matches. simpl. rewrite jm_get_fmap.
    destruct (jm_get n (machines g)) as [m|] eqn:Hn; simpl; [|done]. by destruct (Hc n m Hn) as [_ ->].
Qed.
(** *** Executions *)

(** Payloads and foreign frames are those of the structures, and no deletion of
    the log takes effect without being acknowledged. *)
Definition op_ok (o : JOp) : Prop :=
  match o with
  | OActivate _ _ names => NoDup names
  | OAppend _ ps _ _ => Forall accepts ps
  | OCompact _ => True
  | OClear f => f ≠ FailAfter
  | OForeignAppend fs _ => Forall frame_ok fs ∧ Forall (λ f, is_vessel f = false) fs
  | OForeignReplace fs _ => log_ok fs
  end.

Abbreviation astep := (jstep logName grainId fresh).

Lemma register_all_spec names g : NoDup names → (∀ n, n ∈ names → jm_get n (machines g) = None) →
  jm_ok (machines g) →
  ∃ g', register_all fresh names g = inr g' ∧ jm_ok (machines g') ∧
    ∀ n, jm_get n (machines g') = if decide (n ∈ names) then Some (fresh n) else jm_get n (machines g).
Proof.
  revert g. induction names as [|n names IH]; intros g Hnd Hno Hok; simpl.
  - by exists g.
  - apply NoDup_cons in Hnd as [Hn Hnd]. unfold register, jm_has. rewrite (Hno n) by left.
    rewrite bool_decide_false by (intros [? ?]; done). simpl.
    destruct (IH (set_machines (jm_set n (fresh n)) g) Hnd) as (g' & Hr & Hok' & Hg').
    + intros n' Hn'. simpl. rewrite jm_get_set_ne by (intros ->; done). apply Hno. by right.
    + by apply jm_ok_set.
    + exists g'. split_and!; [done..|]. intros n'. rewrite Hg'. cbn [machines set_machines]. rewrite jm_get_set.
      destruct (decide (n' ∈ names)) as [Hin|Hin]; [by rewrite decide_True by by right|].
      destruct (decide (n = n')) as [->|Hne]; [by rewrite decide_True by left|].
      rewrite decide_False; [done|]. by intros [?|?]%elem_of_cons.
Qed.

Lemma activate_spec threshold grace names st fs : NoDup names → log_ok fs → stored st fs →
  let res := activate logName grainId fresh threshold grace names st in
  res.2 = None ∧ Inv st res.1 fs ∧ version res.1 = seg_version (the_log st) ∧
  ∀ n, is_Some (jm_get n (machines res.1)) ↔ n ∈ names.
Proof using Type*.
  intros Hnd Hlog Hst. cbv zeta. unfold activate.
  destruct (register_all_spec names (new_manager threshold grace) Hnd ltac:(done) (NoDup_nil_2)) as (g & -> & Hok & Hget).
  destruct (replay_spec st g fs Hlog Hst Hok) as (He & Hinv & Hv & Hn).
  - intros n m. rewrite Hget. case_decide; [|done]. by intros [= <-].
  - split_and!; [done..|]. intros n. rewrite Hn, Hget. case_decide; split; try done; by intros [? ?].
Qed.

Lemma foreign_inv st g fs fs' new v (write : list JournalEntry → option (ST * Z)) :
  Inv st g fs → log_ok fs' → Forall frame_ok new →
  (∀ es, all_or_error frame_entry new = inr es →
     ∃ es', wrote logName grainId es' v st (write es) ∧ all_or_error frame_entry fs' = inr es') →
  ∃ fs'', Inv (foreign write new st) g fs''.
Proof using Type*.
  intros Hinv Hlog Hnew Hw. unfold foreign. destruct (frames_entries new Hnew) as (es & Hes & _). rewrite Hes.
  destruct (Hw es Hes) as (es' & Hwr & Hes'). unfold wrote in Hwr.
  destruct (write es) as [[st' u]|]; [|by exists fs]. destruct Hwr as (Hv & Hl & Hu).
  exists fs'. eapply (Inv_overtaken st); [done..|by unfold stored; rewrite Hl|by rewrite Hl|].
  intros u0 Hu0. apply Hu. congruence.
Qed.

Lemma jstep_inv s o fs : Inv s.1 s.2 fs → op_ok o → ∃ fs', Inv (astep s o).1 (astep s o).2 fs'.
Proof using Type*.
  destruct s as [st g]. simpl. intros Hinv Hok. destruct o as [thr gr names|name ps f f'|f|f|new v|new v]; simpl in *.
  - exists fs. by apply activate_spec; [|apply Hinv..].
  - destruct (decide (ps = [])) as [->|Hne].
    + exists fs. unfold appendRange. by destruct (jm_get name (machines g)).
    + pose proof (appendRange_inv name ps f f' st g fs Hinv Hok Hne) as Ha.
      destruct (appendRange logName grainId name ps f f' st g) as [[st' g'] err]. destruct Ha as (fs' & Hi & _). by exists fs'.
  - pose proof (compact_inv f st g fs Hinv) as Hc.
    destruct (compact logName grainId f st g) as [[st' g'] err]. destruct Hc as (_ & _ & _ & [(_ & _ & _ & Hi)|(Hi & _)]); eauto.
  - pose proof (clear_inv f st g fs Hinv Hok) as Hc.
    destruct (clear logName grainId f st g) as [[st' g'] err]. eauto.
  - destruct Hok as [Hnew Hv]. eapply (foreign_inv st g fs (fs ++ new)); [done| |done|].
    + destruct (iv_log _ _ _ Hinv). split; [by apply Forall_app_2|by apply vessels_first_app].
    + intros es Hes. exists (entries (the_log st) ++ es). split; [apply js_append_law|].
      apply all_or_error_app; [apply Hinv|done].
  - eapply (foreign_inv st g fs new); [done|done|apply Hok|]. intros es Hes. exists es. split; [apply js_replace_law|done].
Qed.

Lemma jrun_inv ops : ∀ s fs, Inv s.1 s.2 fs → Forall op_ok ops →
  ∃ fs', Inv (jrun logName grainId fresh s ops).1 (jrun logName grainId fresh s ops).2 fs'.
Proof using Type*.
  induction ops as [|o ops IH]; intros s fs Hinv Hok; simpl; [by exists fs|].
  apply Forall_cons in Hok as [Ho Hok]. destruct (jstep_inv s o fs Hinv Ho) as (fs' & Hinv'). by eapply IH.
Qed.

(** A fresh manager over any well-formed log. *)
Lemma Inv_start threshold grace st fs : log_ok fs → stored st fs → Inv st (new_manager threshold grace) fs.
Proof using Type*.
  intros Hlog Hst. split; [done..| |done|].
  - split; simpl; [constructor|done|constructor|done].
  - simpl. intros Hv. assert (He := js_absent_law logName grainId st (eq_sym Hv)).
    assert (fs = []) as ->; [|by intros n].
    unfold stored in Hst. rewrite He in Hst. destruct fs as [|f fs]; [done|]. simpl in Hst.
    apply bind_inv in Hst as (y & _ & Hst). by apply bind_inv in Hst as (ys & _ & Hst).
Qed.

Definition reachable (s : ST * Mgr) : Prop :=
  ∃ threshold grace st fs ops, log_ok fs ∧ stored st fs ∧ Forall op_ok ops ∧
    s = jrun logName grainId fresh (st, new_manager threshold grace) ops.

Lemma journal_reachable_inv s : reachable s → ∃ fs, Inv s.1 s.2 fs.
Proof using Type*.
  intros (thr & gr & st & fs & ops & Hlog & Hst & Hops & ->).
  by eapply jrun_inv; [apply Inv_start|].
Qed.

(** The next activation of the grain, whatever structures it registers. *)
Definition recovers (st : ST) (n : string) (m : M) : Prop :=
  ∀ threshold grace names, NoDup names → n ∈ names →
    let '(g, err) := activate logName grainId fresh threshold grace names st in
    err = None ∧ ∃ m', jm_get n (machines g) = Some m' ∧ m' ≡ m.

Lemma recovers_log st g fs n m : Inv st g fs → m ≡ apply_all (payloads n fs) (fresh n) → recovers st n m.
Proof using Type*.
  intros Hinv Hm threshold grace names Hnd Hn.
  destruct (activate_spec threshold grace names st fs Hnd (iv_log _ _ _ Hinv) (iv_stored _ _ _ Hinv)) as (He & Hi & Hv & Hg).
  destruct (activate logName grainId fresh threshold grace names st) as [g' err]. simpl in *. split; [done|].
  destruct (proj2 (Hg n) Hn) as [m' Hm']. exists m'. split; [done|].
  pose proof (synced_remembered _ _ (iv_synced _ _ _ Hi Hv) n m' Hm') as Hr. by rewrite Hr, Hm.
Qed.
(** *** Structures that are not registered *)

Lemma compaction_buffered g n : manager_ok g → jm_get n (machines g) = None →
  buffered n (compaction_frames g) = jm_get n (retiring g) ≫= step_retired (retirementGraceCompactions g).
Proof.
  intros Hg Hn. unfold buffered. rewrite compaction_frames_of, Hn by done.
  destruct (jm_get n (retiring g) ≫= _) as [[ops c]|]; done.
Qed.

(** The writes of an activation. *)
Definition own_write (o : JOp) : Prop :=
  match o with OAppend _ ps _ _ => Forall accepts ps | OCompact _ => True | _ => False end.

Lemma own_write_buffered s o fs n :
  Inv s.1 s.2 fs → own_write o → jm_get n (machines s.2) = None →
  let s' := astep s o in
  ∃ fs', Inv s'.1 s'.2 fs' ∧ jm_get n (machines s'.2) = None ∧
    retirementGraceCompactions s'.2 = retirementGraceCompactions s.2 ∧
    (buffered n fs' = buffered n fs ∨
     buffered n fs' = buffered n fs ≫= step_retired (retirementGraceCompactions s.2)).
Proof using Type*.
  destruct s as [st g]. simpl. intros Hinv Hown Hn.
  assert (Hret : version g = seg_version (the_log st) → jm_get n (retiring g) = buffered n fs).
  { intros Hv. pose proof (iv_synced _ _ _ Hinv Hv n) as Hs. unfold machine_matches in Hs. by rewrite Hn in Hs. }
  destruct o as [| name ps f f'|f| | |]; try done; simpl in *.
  - destruct (decide (ps = [])) as [->|Hne].
    { exists fs. unfold appendRange. destruct (jm_get name (machines g)); split_and!; try done; by left. }
    pose proof (appendRange_inv name ps f f' st g fs Hinv Hown Hne) as Ha.
    destruct (appendRange logName grainId name ps f f' st g) as [[st' g'] err]. destruct Ha as (fs' & Hinv' & Ha). simpl.
    assert (Happ : name ≠ n → buffered n (fs ++ (FOp name <$> ps)) = buffered n fs).
    { intros Hne'. by rewrite buffered_app, frames_of_other by (apply Forall_fmap, Forall_true; done). }
    exists fs'. destruct err as [e|].
    + destruct Ha as (-> & Hlog). split_and!; [done..|]. left. destruct Hlog as [(-> & _)|(-> & _ & [m Hm] & _)]; [done|].
      apply Happ. congruence.
    + destruct Ha as (m & g1 & Hm & Hv & Hm1 & Hr1 & Hgr1 & Hm' & Hgr' & Hg1 & Hfs & _).
      assert (Hne' : name ≠ n) by congruence.
      assert (Hn1 : jm_get n (machines g1) = None) by (by rewrite Hm1, jm_get_set_ne).
      split_and!; [done|by rewrite Hm'|done|]. destruct Hfs as [->| ->]; [left; by apply Happ|right].
      by rewrite compaction_buffered, Hr1, Hgr1, (Hret Hv).
  - pose proof (compact_inv f st g fs Hinv) as Hc.
    destruct (compact logName grainId f st g) as [[st' g'] err]. destruct Hc as (Hm & _ & Hgr & Hc). simpl.
    destruct Hc as [(_ & -> & _ & Hi)|(Hi & Hv & _)]; [exists fs|exists (compaction_frames g)]; rewrite ?Hm, ?Hgr;
      split_and!; try done; [by left|right].
    by rewrite compaction_buffered, (Hret Hv) by (done || apply Hinv).
Qed.

(** A compaction that nothing disturbs succeeds. *)
Lemma compact_succeeds st g fs : Inv st g fs → version g = seg_version (the_log st) →
  let '(st', g', err) := compact logName grainId NoFault st g in
  err = None ∧ Inv st' g' (compaction_frames g) ∧ version g' = seg_version (the_log st').
Proof using Type*.
  intros Hinv Hv. pose proof (compact_inv NoFault st g fs Hinv) as Hc.
  assert (Herr : (compact logName grainId NoFault st g).2 = None).
  { unfold compact. destruct (frames_entries (compaction_frames g)) as (ws & -> & _); [by apply compaction_ok, Hinv|].
    unfold faulty. pose proof (js_replace_law logName grainId ws (version g) st) as Hw. unfold wrote in Hw.
    by destruct (js_replace logName grainId ws (version g) st) as [[st' u]|]. }
  destruct (compact logName grainId NoFault st g) as [[st' g'] err]. simpl in Herr. subst err.
  destruct Hc as (_ & _ & _ & [(_ & _ & [? ?] & _)|(Hi & _ & He)]); [done|]. split_and!; [done..|]. by apply He.
Qed.

(** The record after some compactions: kept while its count is below the grace. *)
Definition aged (grace : Z) (k : nat) (r : RetirementRecord) : option RetirementRecord :=
  if decide (k = 0%nat ∨ compactionsSinceOrphaned r + Z.of_nat k < grace)
  then Some (mkRetired (ret_ops r) (compactionsSinceOrphaned r + Z.of_nat k)) else None.

Lemma aged_zero grace r : aged grace 0 r = Some r.
Proof. unfold aged. rewrite decide_True by (by left). destruct r. simpl. do 2 f_equal. lia. Qed.

Lemma aged_step grace k r : aged grace k r ≫= step_retired grace = aged grace (S k) r.
Proof.
  unfold aged. destruct (decide (k = 0%nat ∨ _)) as [Hk|Hk]; simpl; [unfold step_retired; simpl|].
  - case_bool_decide; case_decide as Hd; [|done| |]; try lia. do 2 f_equal. lia.
  - rewrite decide_False; [done|]. lia.
Qed.

Lemma own_writes_buffered ops : ∀ s fs n r k,
  Inv s.1 s.2 fs → Forall own_write ops → jm_get n (machines s.2) = None →
  buffered n fs = aged (retirementGraceCompactions s.2) k r →
  let s' := jrun logName grainId fresh s ops in
  ∃ fs' j, Inv s'.1 s'.2 fs' ∧ (j <= length ops)%nat ∧
    buffered n fs' = aged (retirementGraceCompactions s.2) (k + j) r.
Proof using Type*.
  induction ops as [|o ops IH]; intros s fs n r k Hinv Hown Hn Hb; simpl.
  - exists fs, 0%nat. split_and!; [done|lia|]. by rewrite Nat.add_0_r.
  - apply Forall_cons in Hown as [Ho Hown].
    destruct (own_write_buffered s o fs n Hinv Ho Hn) as (fs1 & Hinv1 & Hn1 & Hg1 & Hb1).
    rewrite <- Hg1. destruct Hb1 as [Hb1|Hb1].
    + rewrite Hb, <- Hg1 in Hb1. destruct (IH _ fs1 n r k Hinv1 Hown Hn1 Hb1) as (fs2 & j & Hi & Hj & Hb2).
      exists fs2, j. split_and!; [done|lia|done].
    + rewrite Hb, aged_step, <- Hg1 in Hb1. destruct (IH _ fs1 n r (S k) Hinv1 Hown Hn1 Hb1) as (fs2 & j & Hi & Hj & Hb2).
      exists fs2, (S j). split_and!; [done|lia|]. by rewrite Nat.add_succ_r.
Qed.

Lemma compactions_buffered j : ∀ s fs n r k,
  Inv s.1 s.2 fs → version s.2 = seg_version (the_log s.1) → jm_get n (machines s.2) = None →
  buffered n fs = aged (retirementGraceCompactions s.2) k r →
  let s' := jrun logName grainId fresh s (replicate j (OCompact NoFault)) in
  ∃ fs', Inv s'.1 s'.2 fs' ∧ buffered n fs' = aged (retirementGraceCompactions s.2) (k + j) r.
Proof using Type*.
  induction j as [|j IH]; intros s fs n r k Hinv Hv Hn Hb; simpl.
  - exists fs. split; [done|]. by rewrite Nat.add_0_r.
  - destruct s as [st g]. simpl in *. pose proof (compact_succeeds st g fs Hinv Hv) as Hc.
    pose proof (compact_inv NoFault st g fs Hinv) as Hm.
    destruct (compact logName grainId NoFault st g) as [[st' g'] err]. destruct Hc as (-> & Hi & Hv').
    destruct Hm as (Hm & _ & Hgr & _). simpl.
    destruct (IH (st', g') (compaction_frames g) n r (S k)) as (fs' & Hi' & Hb'); simpl; [done|done|by rewrite Hm| |].
    + rewrite Hgr, <- aged_step, <- Hb, compaction_buffered by (done || apply Hinv). f_equal.
      pose proof (iv_synced _ _ _ Hinv Hv n) as Hs. unfold machine_matches in Hs. by rewrite Hn in Hs.
    + exists fs'. split; [done|]. by rewrite Nat.add_succ_r, <- Hgr.
Qed.

(** What a later activation makes of a record. *)
Lemma recovers_record st g fs n o : Inv st g fs → buffered n fs = o →
  recovers st n (apply_all (default [] (ret_ops <$> o)) (fresh n)).
Proof using Type*.
  intros Hinv <-. eapply recovers_log; [done|]. by rewrite buffered_payloads by apply Hinv.
Qed.

(** ** The theorems *)

(** C18: Memory can be lost at any time. Start over any well-formed log and let
    an activation's appends, compactions and acknowledged deletions, failures of the
    store before and after a write takes effect, reactivations and the appends and
    compactions of other activations interleave, all of them of payloads the
    structures accept (those the text of the codec gives back as they are): while
    the activation's version is the stored one, the next activation, whichever
    structures it registers, rebuilds each of them as this one holds it. Two things
    are excluded ([op_ok]), because versions start over with a deletion: a deletion
    by another activation, and one of its own that takes effect and then fails
    ([Runs.stale_writer_after_clear] evaluates what the code does after one). *)
Theorem journal_recovers s n m :
  reachable s → version s.2 = seg_version (the_log s.1) → jm_get n (machines s.2) = Some m →
  recovers s.1 n m.
Proof using Type*.
  intros (fs & Hinv)%journal_reachable_inv Hv Hm. eapply recovers_log; [done|].
  exact (synced_remembered _ _ (iv_synced _ _ _ Hinv Hv) n m Hm).
Qed.

(** C19: [appendRange] is all or nothing, and its answer can be trusted, for
    payloads the structures accept (those the text of the codec gives back as they
    are) and at any state that [journal_recovers] speaks of: reached without a
    deletion of the log that the activation does not know of. Granted, the structure
    has the payloads and the log rebuilds all of memory, even if the compaction that
    follows fails on either side of the store. Refused, memory is untouched, and so
    is the log; unless the store failed after the write: then the log has the
    payloads, and every further append and compaction of this activation is refused
    and changes nothing, until another hand changes the log. *)
Theorem append_all_or_nothing s name ps f f' :
  reachable s → Forall accepts ps → ps ≠ [] →
  let '(st', g', err) := appendRange logName grainId name ps f f' s.1 s.2 in
  match err with
  | None =>
      ∃ m, jm_get name (machines s.2) = Some m ∧ jm_get name (machines g') = Some (apply_all ps m) ∧
        ∀ n m', jm_get n (machines g') = Some m' → recovers st' n m'
  | Some _ =>
      g' = s.2 ∧
      (the_log st' = the_log s.1 ∨
       f = FailAfter ∧
       (∀ m, jm_get name (machines s.2) = Some m → recovers st' name (apply_all ps m)) ∧
       (∀ name' ps' f1 f2, ps' ≠ [] →
          ∃ e, appendRange logName grainId name' ps' f1 f2 st' g' = (st', g', Some e)) ∧
       (∀ f1, ∃ e, compact logName grainId f1 st' g' = (st', g', Some e)))
  end.
Proof using Type*.
  intros (fs & Hinv)%journal_reachable_inv Hps Hne. destruct s as [st g]. simpl in *.
  pose proof (appendRange_inv name ps f f' st g fs Hinv Hps Hne) as Ha.
  destruct (appendRange logName grainId name ps f f' st g) as [[st' g'] err]. destruct Ha as (fs' & Hinv' & Ha).
  destruct err as [e|].
  - destruct Ha as (-> & [(_ & Hl)|(-> & -> & _ & Hv & Hv')]); split; try done; [by left|right].
    destruct (overtaken_refused st' g Hv') as [Hra Hrc]. split_and!; [done| |exact Hra|exact Hrc].
    intros m Hm. eapply recovers_log; [done|].
    rewrite payloads_app, payloads_ops, decide_True, apply_all_app by done.
    by rewrite (synced_remembered _ _ (iv_synced _ _ _ Hinv Hv) name m Hm).
  - destruct Ha as (m & g1 & Hm & _ & Hm1 & _ & _ & Hm' & _ & _ & _ & Hrem). exists m.
    split_and!; [done|by rewrite Hm', Hm1, jm_get_set_eq|]. intros n m' Hn. by eapply recovers_log; [|apply Hrem].
Qed.

(** Data of a structure that is not registered outlives it for the grace
    period and no longer. Let an activation hold a record of such a structure.
    Whatever it appends and compacts, with whatever faults, takes some number [k]
    of compactions to the log: if the record's count plus [k] is below the grace,
    or [k] is 0, an activation that registers the structure again finds every
    operation of it, otherwise it finds it empty; and of compactions that do not
    fail each one counts. *)
Theorem retired_until_grace s n r ops :
  reachable s → version s.2 = seg_version (the_log s.1) →
  jm_get n (machines s.2) = None → jm_get n (retiring s.2) = Some r → Forall own_write ops →
  let survivor k := apply_all (default [] (ret_ops <$> aged (retirementGraceCompactions s.2) k r)) (fresh n) in
  (∃ k, (k <= length ops)%nat ∧ recovers (jrun logName grainId fresh s ops).1 n (survivor k)) ∧
  ∀ j, recovers (jrun logName grainId fresh s (replicate j (OCompact NoFault))).1 n (survivor j).
Proof using Type*.
  intros (fs & Hinv)%journal_reachable_inv Hv Hn Hr Hown survivor.
  assert (Hb : buffered n fs = aged (retirementGraceCompactions s.2) 0 r).
  { rewrite aged_zero, <- Hr. pose proof (iv_synced _ _ _ Hinv Hv n) as Hs. unfold machine_matches in Hs. by rewrite Hn in Hs. }
  split.
  - destruct (own_writes_buffered ops s fs n r 0 Hinv Hown Hn Hb) as (fs' & k & Hi & Hk & Hb').
    exists k. split; [done|]. by eapply recovers_record.
  - intros j. destruct (compactions_buffered j s fs n r 0 Hinv Hv Hn Hb) as (fs' & Hi & Hb').
    by eapply recovers_record.
Qed.
End invariant.

(** ** Runs *)
Module Runs.
Abbreviation ST := (gmap string MemoryJournalStorage.Log).
Definition log : string := "durable".
Definition grain : GrainId := mkGrainId "counter" (KString "c").
Definition empty_machine (n : string) : Machine := if String.eqb n "queue" then MQueue [] else MDictionary [].
Definition blank : ST * @Manager Machine := (∅, new_manager None None).
Definition run := jrun (ST := ST) log grain empty_machine blank.

Definition put (k : string) (z : Z) : value := op "set" [("k", Str k); ("v", Num (NInt z))].
Lemma put_ok k z : well_formed (put k z).
Proof.
  apply (op_set_ok _ (Num (NInt z))); try done. repeat first [apply Forall_nil_2|apply Forall_cons_2]; done.
Qed.
Definition enq (s : string) : value := op "enq" [("v", Str s)].
Lemma enq_ok s : well_formed (enq s).
Proof. apply well_formed_op; [done..|]. repeat first [apply Forall_nil_2|apply Forall_cons_2]; done. Qed.

Lemma fresh_machines n : reset (empty_machine n) = empty_machine n.
Proof. unfold empty_machine. by destruct (String.eqb n "queue"). Qed.

Lemma reachable_run ops : Forall (op_ok (M := Machine)) ops →
  reachable (M := Machine) (ST := ST) log grain empty_machine (run ops).
Proof.
  intros Hops. exists None, None, ∅, [], ops. split_and!; [|done..].
  split; [constructor|]. intros n. constructor.
Qed.

(** Two structures, a lost write, a compaction. *)
Definition ops : list JOp :=
  [OActivate None None ["map"; "queue"]; OAppend "map" [put "a" 1; put "b" 2] NoFault NoFault;
   OAppend "queue" [enq "x"] NoFault NoFault; OCompact FailBefore; OAppend "queue" [enq "y"] NoFault NoFault].
Lemma ops_ok : Forall (op_ok (M := Machine)) ops.
Proof.
  repeat first [apply Forall_nil_2|apply Forall_cons_2]; simpl; try done;
    repeat first [apply Forall_nil_2|apply Forall_cons_2]; try apply put_ok; try apply enq_ok.
  apply (bool_decide_unpack _). by vm_compute.
Qed.
Lemma ops_run : version (run ops).2 = Some 3 ∧ seg_version (MemoryJournalStorage.read log grain (run ops).1) = Some 3 ∧
  jm_get "queue" (machines (run ops).2) = Some (MQueue [Str "x"; Str "y"]).
Proof. by vm_compute. Qed.

Lemma journal_recovers_witness :
  recovers (ST := ST) log grain empty_machine (run ops).1 "queue" (MQueue [Str "x"; Str "y"]).
Proof.
  refine (journal_recovers (ST := ST) log grain empty_machine fresh_machines (run ops) "queue" _ (reachable_run ops ops_ok) _ _).
  - exact (eq_trans (proj1 ops_run) (eq_sym (proj1 (proj2 ops_run)))).
  - exact (proj2 (proj2 ops_run)).
Defined.

Lemma append_all_or_nothing_witness :
  let '(st', g', err) := appendRange (ST := ST) log grain "queue" [enq "z"] FailAfter NoFault (run ops).1 (run ops).2 in
  is_Some err ∧ jm_get "queue" (machines g') = Some (MQueue [Str "x"; Str "y"]).
Proof.
  pose proof (append_all_or_nothing (ST := ST) log grain empty_machine fresh_machines (run ops) "queue" [enq "z"] FailAfter NoFault
    (reachable_run ops ops_ok) (Forall_cons_2 _ _ _ (enq_ok "z") (Forall_nil_2 _)) ltac:(discriminate)) as Ha.
  assert (He : is_Some (appendRange (ST := ST) log grain "queue" [enq "z"] FailAfter NoFault (run ops).1 (run ops).2).2)
    by (vm_compute; eexists; reflexivity).
  destruct (appendRange (ST := ST) log grain "queue" [enq "z"] FailAfter NoFault (run ops).1 (run ops).2) as [[st' g'] err].
  simpl in He. destruct err as [e|]; [|destruct He as [? He]; discriminate He]. destruct Ha as [-> _].
  split; [exact He|exact (proj2 (proj2 ops_run))].
Defined.

(** The queue is removed from the grain. *)
Definition removal : list JOp :=
  [OActivate None None ["map"; "queue"]; OAppend "queue" [enq "x"] NoFault NoFault; OActivate None None ["map"]].
Lemma removal_ok : Forall (op_ok (M := Machine)) removal.
Proof.
  repeat first [apply Forall_nil_2|apply Forall_cons_2]; simpl; try done; first
    [by apply Forall_cons_2; [apply enq_ok|apply Forall_nil_2]|by apply (bool_decide_unpack _); vm_compute].
Qed.
Lemma removal_run : version (run removal).2 = Some 1 ∧
  seg_version (MemoryJournalStorage.read log grain (run removal).1) = Some 1 ∧
  jm_get "queue" (machines (run removal).2) = None ∧
  jm_get "queue" (retiring (run removal).2) = Some (mkRetired [enq "x"] 0).
Proof. by vm_compute. Qed.

Lemma retired_until_grace_witness :
  recovers (ST := ST) log grain empty_machine
    (jrun log grain empty_machine (run removal) [OCompact NoFault]).1 "queue" (MQueue [Str "x"]) ∧
  recovers (ST := ST) log grain empty_machine
    (jrun log grain empty_machine (run removal) [OCompact NoFault; OCompact NoFault]).1 "queue" (MQueue []).
Proof.
  destruct removal_run as (Hv & Hs & Hn & Hr).
  destruct (retired_until_grace (ST := ST) log grain empty_machine fresh_machines (run removal) "queue" _ []
    (reachable_run removal removal_ok) (eq_trans Hv (eq_sym Hs)) Hn Hr (Forall_nil_2 _)) as [_ Hj].
  split; [exact (Hj 1%nat)|exact (Hj 2%nat)].
Defined.

(** *** What the journal does not do *)

Definition act (names : list string) (st : ST) : ST * @Manager Machine :=
  (st, (activate log grain empty_machine None None names st).1).
Definition wr (name : string) (p : value) (s : ST * @Manager Machine) : ST * @Manager Machine * option JournalError :=
  appendRange log grain name [p] NoFault NoFault s.1 s.2.
Definition map_of (g : @Manager Machine) : option (list (scalar * value)) :=
  match jm_get "map" (machines g) with Some (MDictionary d) => Some d | _ => None end.

(** A deletion starts the versions over: a write of an activation that has not
    seen it is let through once the new log is as many writes long as the old one
    was, into a log that is not the one it holds. *)
Lemma stale_writer_after_clear :
  let '(st1, a, _) := wr "map" (put "a" 1) (act ["map"] ∅) in
  let b := (act ["map"] st1).2 in
  let '(st2, b, _) := clear log grain NoFault st1 b in
  let '(st3, b, _) := wr "map" (put "b" 2) (st2, b) in
  let '(st4, a, err) := wr "map" (put "c" 3) (st3, a) in
  err = None ∧ map_of a = Some [(SStr "a", Num (NInt 1)); (SStr "c", Num (NInt 3))] ∧
  map_of (act ["map"] st4).2 = Some [(SStr "b", Num (NInt 2)); (SStr "c", Num (NInt 3))].
Proof. by vm_compute. Qed.

(** A structure that comes back and is removed again keeps the count it had, if
    no compaction happened in between. *)
Lemma grace_not_started_over :
  let s := run (removal ++ [OCompact NoFault; OActivate None None ["map"; "queue"]]) in
  jm_get "queue" (machines s.2) = Some (MQueue [Str "x"]) ∧
  jm_get "queue" (machines
    (jrun log grain empty_machine s
       [OActivate None None ["map"]; OCompact NoFault; OActivate None None ["map"; "queue"]]).2) = Some (MQueue []).
Proof. by vm_compute. Qed.
End Runs.
