(* ===== verification/CustomLog.v ===== *)
(** * Event-sourced grains that own their log

    Models [packages/journaling/src/custom-storage-log-view-adaptor-impl.ts]
    (CustomStorageLogViewAdaptorImpl) over the contract of
    [packages/core/src/journaled-grain.ts] (CustomStorageInterface), which is a
    type class with its laws here. The methods of [JournaledGrain] each call the
    method of the adaptor of the same meaning.

    A method runs up to its next await. The storage calls of the confirm loop take
    effect in a step of their own, so that raises, writes of others and clears may
    come before the effect, between it and the answer, or after. [transition] is
    the grain's, and may throw: none. *)
From stdpp Require Import prelude gmap list.
From S2P Require Import Prelude.
Open Scope Z_scope.

(** ** The storage a grain implements *)

Class CustomStorageInterface (State Event ST : Type) := {
  readStateFromStorage : ST → Z * State;
  (** None: it answers false. *)
  applyUpdatesToStorage : list Event → Z → ST → option ST;
  clearStoredState : ST → ST }.

(** Fold events, unless a transition throws. *)
Fixpoint folds {State Event} (transition : State → Event → option State) (s : State) (es : list Event) : option State :=
  match es with
  | [] => Some s
  | e :: es => transition s e ≫= λ s', folds transition s' es
  end.

Lemma folds_app {State Event} (transition : State → Event → option State) s es es' :
  folds transition s (es ++ es') = folds transition s es ≫= λ s', folds transition s' es'.
Proof. revert s. induction es as [|e es IH]; intros s; simpl; [done|]. destruct (transition s e); simpl; auto. Qed.

(** The write is a compare-and-set on the version, which counts the updates. *)
Class CustomStorageLaws (State Event ST : Type) (transition : State → Event → option State)
    `{CustomStorageInterface State Event ST} := {
  apply_refused es v st : (readStateFromStorage st).1 ≠ v → applyUpdatesToStorage es v st = None;
  apply_granted es st : ∃ st', applyUpdatesToStorage es (readStateFromStorage st).1 st = Some st' ∧
    (readStateFromStorage st').1 = (readStateFromStorage st).1 + Z.of_nat (length es) ∧
    ∀ s, folds transition (readStateFromStorage st).2 es = Some s → (readStateFromStorage st').2 = s }.

(** ** The adaptor *)

(** The settling function of a promise is the promise's number. *)
Record PendingEntry (Event : Type) := mkEntry {
  event : Event;
  conditionalPosition : option Z;
  resolve : option nat }.
Arguments mkEntry {Event}.
Arguments event {Event}.
Arguments conditionalPosition {Event}.
Arguments resolve {Event}.

Inductive LoopError := InconsistentStateError | ReadFailed | TransitionThrew.

(** What a caller of [confirmSubmittedEntries], or of [tryAppend] with its
    promise, is answered. *)
Inductive Caller := AConfirm | ATryAppend (r : nat).
Inductive Reply := Confirmed | Rejected (e : LoopError) | Outcome (r : nat).

Section adaptor.
Context {State Event : Type} (transition : State → Event → option State).
Context {ST : Type} `{CustomStorageInterface State Event ST}.
Abbreviation Entry := (PendingEntry Event).
Implicit Types e : PendingEntry Event.

(** Where the confirm loop waits: for the answer to a write of a batch, for a
    read - after writing [written], if that is not empty - or for its [finally]. *)
Inductive Phase :=
  | Writing (batch : list Entry) (attempts lastExpected : Z) (answer : option bool)
  | Reading (attempts : Z) (written : list Entry) (answer : option (option (Z * State)))
  | Ended (error : option LoopError).

Record Adaptor := mkAdaptor {
  cached : State;
  tentative : State;
  version : Z;
  pending : list Entry;
  maxAttempts : Z;
  confirmLoop : option Phase;
  (** Callers that wait for the loop, the promises, calls of [read] by [clearLog]. *)
  joined : list (nat * Caller);
  replies : list (nat * Reply);
  nextCaller : nat;
  outcomes : gmap nat bool;
  nextPromise : nat;
  rereads : nat }.

Definition with_view (v : Z) (c t : State) (a : Adaptor) : Adaptor :=
  mkAdaptor c t v (pending a) (maxAttempts a) (confirmLoop a) (joined a) (replies a) (nextCaller a) (outcomes a)
    (nextPromise a) (rereads a).
Definition with_tentative (t : State) (a : Adaptor) : Adaptor := with_view (version a) (cached a) t a.
Definition with_pending (l : list Entry) (a : Adaptor) : Adaptor :=
  mkAdaptor (cached a) (tentative a) (version a) l (maxAttempts a) (confirmLoop a) (joined a) (replies a) (nextCaller a)
    (outcomes a) (nextPromise a) (rereads a).
Definition with_loop (p : option Phase) (a : Adaptor) : Adaptor :=
  mkAdaptor (cached a) (tentative a) (version a) (pending a) (maxAttempts a) p (joined a) (replies a) (nextCaller a)
    (outcomes a) (nextPromise a) (rereads a).
Definition with_callers (js : list (nat * Caller)) (rs : list (nat * Reply)) (n : nat) (a : Adaptor) : Adaptor :=
  mkAdaptor (cached a) (tentative a) (version a) (pending a) (maxAttempts a) (confirmLoop a) js rs n (outcomes a)
    (nextPromise a) (rereads a).
Definition with_outcomes (o : gmap nat bool) (n : nat) (a : Adaptor) : Adaptor :=
  mkAdaptor (cached a) (tentative a) (version a) (pending a) (maxAttempts a) (confirmLoop a) (joined a) (replies a)
    (nextCaller a) o n (rereads a).
Definition with_rereads (n : nat) (a : Adaptor) : Adaptor :=
  mkAdaptor (cached a) (tentative a) (version a) (pending a) (maxAttempts a) (confirmLoop a) (joined a) (replies a)
    (nextCaller a) (outcomes a) (nextPromise a) n.

Definition DEFAULT_MAX_ATTEMPTS : Z := 5.
Definition new_adaptor (initial : State) (options : option Z) : Adaptor :=
  mkAdaptor initial initial 0 [] (default DEFAULT_MAX_ATTEMPTS options) None [] [] 0 ∅ 0 0.

Definition confirmedView := cached.
Definition tentativeView := tentative.
Definition confirmedVersion := version.
Definition pendingCount (a : Adaptor) : Z := Z.of_nat (length (pending a)).

(** Run on, or false, when a transition throws: the old tentative view stays. *)
Definition recomputeTentative (a : Adaptor) : Adaptor * bool :=
  match folds transition (cached a) (event <$> pending a) with
  | Some t => (with_tentative t a, true)
  | None => (a, false)
  end.

(** [read], of an answer of the storage. *)
Definition install (answer : Z * State) (a : Adaptor) : Adaptor * bool :=
  recomputeTentative (with_view answer.1 answer.2 (tentative a) a).

(** Settling a promise a second time has no effect. *)
Definition settle_one (b : bool) (o : gmap nat bool) e : gmap nat bool :=
  match resolve e with
  | Some r => match o !! r with Some _ => o | None => <[r := b]> o end
  | None => o
  end.
Definition settle (b : bool) (es : list Entry) (a : Adaptor) : Adaptor :=
  with_outcomes (foldl (settle_one b) (outcomes a) es) (nextPromise a) a.

(** ** Raising events *)

Inductive Ev := ERaised e | ELanded e (position : Z) | EDropped e.

Definition push e (a : Adaptor) : Adaptor * bool :=
  let a := with_pending (pending a ++ [e]) a in
  match transition (tentative a) (event e) with
  | Some t => (with_tentative t a, true)
  | None => (a, false)
  end.

(** False when it throws. *)
Definition submit (x : Event) (a : Adaptor) : Adaptor * bool * list Ev :=
  let e := mkEntry x None None in
  let '(a, ok) := push e a in (a, ok, [ERaised e]).
Fixpoint submitRange (xs : list Event) (a : Adaptor) : Adaptor * bool * list Ev :=
  match xs with
  | [] => (a, true, [])
  | x :: xs =>
      let '(a, ok, evs) := submit x a in
      if ok then let '(a, ok, evs') := submitRange xs a in (a, ok, evs ++ evs') else (a, false, evs)
  end.

Fixpoint push_conditional (r : nat) (xs : list Event) (a : Adaptor) : Adaptor * bool * list Ev :=
  match xs with
  | [] => (a, true, [])
  | x :: xs =>
      let e := mkEntry x (Some (version a + Z.of_nat (length (pending a)))) (Some r) in
      let '(a, ok) := push e a in
      if ok then let '(a, ok, evs) := push_conditional r xs a in (a, ok, ERaised e :: evs) else (a, false, [ERaised e])
  end.

(** ** The confirm loop *)

(** The entries kept and the ones dropped. *)
Fixpoint removeStale (v pos : Z) (foundFailedConditionalUpdates : bool) (entries : list Entry) : list Entry * list Entry :=
  match entries with
  | [] => ([], [])
  | e :: es =>
      if bool_decide (conditionalPosition e ≠ None ∧
           (foundFailedConditionalUpdates = true ∨ conditionalPosition e ≠ Some (v + pos)))
      then let '(kept, dropped) := removeStale v (pos + 1) true es in (kept, e :: dropped)
      else let '(kept, dropped) := removeStale v (pos + 1) foundFailedConditionalUpdates es in (e :: kept, dropped)
  end.
Definition removeStaleConditionalUpdates (a : Adaptor) : list Entry * list Entry :=
  removeStale (version a) 0 false (pending a).

(** From the condition of the loop to its next await, or its end. *)
Definition loop_top (attempts : Z) (a : Adaptor) : Adaptor * list Ev :=
  if bool_decide (pending a = []) then (with_loop (Some (Ended None)) a, [])
  else
    let '(kept, dropped) := removeStaleConditionalUpdates a in
    let a := settle false dropped (with_pending kept a) in
    if bool_decide (kept = []) then
      let '(a, ok) := recomputeTentative a in
      (with_loop (Some (Ended (if ok then None else Some TransitionThrew))) a, EDropped <$> dropped)
    else (with_loop (Some (Writing kept (attempts + 1) (version a) None)) a, EDropped <$> dropped).

Definition confirmSubmittedEntries (caller : Caller) (a : Adaptor) : Adaptor * list Ev :=
  let a := with_callers (joined a ++ [(nextCaller a, caller)]) (replies a) (S (nextCaller a)) a in
  match confirmLoop a with
  | None => loop_top 0 a
  | Some _ => (a, [])
  end.

(** The written entries enter the view one by one, up to one that throws. *)
Fixpoint advance (es : list Entry) (v : Z) (c : State) : Z * State * bool :=
  match es with
  | [] => (v, c, true)
  | e :: es =>
      match transition c (event e) with
      | Some c => advance es (v + 1) c
      | None => (v + 1, c, false)
      end
  end.

Definition is_conditional e : bool := bool_decide (conditionalPosition e ≠ None).

(** What follows the answer to a write. *)
Definition write_answered (batch : list Entry) (attempts lastExpected : Z) (applied : bool) (a : Adaptor) : Adaptor * list Ev :=
  if applied then
    let a := with_pending (drop (length batch) (pending a)) a in
    let '(v, c, ok) := advance batch (version a) (cached a) in
    let a := with_view v c (tentative a) a in
    let '(a, ok) := if ok then recomputeTentative a else (a, false) in
    if ok then loop_top 0 (settle true batch a)
    else (with_loop (Some (Reading 0 batch None)) a, [])
  else if bool_decide (maxAttempts a <= attempts) then
    let kept := filter (λ e, is_conditional e = false) (pending a) in
    let dropped := filter (λ e, is_conditional e = true) (pending a) in
    let '(a, ok) := recomputeTentative (with_pending kept (settle false dropped a)) in
    (with_loop (Some (Ended (Some (if ok then InconsistentStateError else TransitionThrew)))) a, EDropped <$> dropped)
  else (with_loop (Some (Reading attempts [] None)) a, []).

Definition read_answered (attempts : Z) (written : list Entry) (answer : option (Z * State)) (a : Adaptor) : Adaptor * list Ev :=
  match answer with
  | None => (with_loop (Some (Ended (Some ReadFailed))) a, [])
  | Some vs =>
      let '(a, ok) := install vs a in
      if ok then loop_top attempts (settle true written a)
      else (with_loop (Some (Ended (Some TransitionThrew))) a, [])
  end.

Definition reply_of (error : option LoopError) (c : nat * Caller) : nat * Reply :=
  (c.1, match c.2, error with
        | AConfirm, None => Confirmed
        | ATryAppend r, None => Outcome r
        | ATryAppend r, Some InconsistentStateError => Outcome r
        | _, Some e => Rejected e
        end).

(** ** Executions

    [ServeWrite]: the storage serves the outstanding write; the fault says
    whether it throws, and on which side of the effect. [Foreign]: another
    activation writes. *)
Inductive Fault := NoFault | FailBefore | FailAfter.
Inductive Op :=
  | OSubmit (xs : list Event)
  | OTryAppend (xs : list Event)
  | OConfirm
  | ServeWrite (f : Fault)
  | WriteReturns
  | ServeRead (fails : bool)
  | ReadReturns
  | LoopFinally
  | OClear (f : Fault)
  | Reread (fails : bool)
  | Foreign (xs : list Event) (expected : Z).

(** The events of a batch at the positions the storage gives them. *)
Definition landed_at (v : Z) (batch : list Entry) : list Ev :=
  imap (λ i e, ELanded e (v + Z.of_nat i)) batch.

Definition serve_write (f : Fault) (batch : list Entry) (expected : Z) (st : ST) : ST * bool * list Ev :=
  match f with
  | FailBefore => (st, false, [])
  | _ =>
      match applyUpdatesToStorage (event <$> batch) expected st with
      | None => (st, false, [])
      | Some st' => (st', match f with NoFault => true | _ => false end, landed_at (readStateFromStorage st).1 batch)
      end
  end.

Definition step (s : ST * Adaptor) (o : Op) : ST * Adaptor * list Ev :=
  let '(st, a) := s in
  match o with
  | OSubmit xs => let '(a, _, evs) := submitRange xs a in (st, a, evs)
  | OTryAppend xs =>
      if bool_decide (xs = []) then (st, a, [])
      else
        let r := nextPromise a in
        let '(a, ok, evs) := push_conditional r xs (with_outcomes (outcomes a) (S r) a) in
        if ok then let '(a, evs') := confirmSubmittedEntries (ATryAppend r) a in (st, a, evs ++ evs')
        else (st, a, evs)
  | OConfirm => let '(a, evs) := confirmSubmittedEntries AConfirm a in (st, a, evs)
  | ServeWrite f =>
      match confirmLoop a with
      | Some (Writing batch attempts lastExpected None) =>
          let '(st, applied, evs) := serve_write f batch lastExpected st in
          (st, with_loop (Some (Writing batch attempts lastExpected (Some applied))) a, evs)
      | _ => (st, a, [])
      end
  | WriteReturns =>
      match confirmLoop a with
      | Some (Writing batch attempts lastExpected (Some applied)) =>
          let '(a, evs) := write_answered batch attempts lastExpected applied a in (st, a, evs)
      | _ => (st, a, [])
      end
  | ServeRead fails =>
      match confirmLoop a with
      | Some (Reading attempts written None) =>
          (st, with_loop (Some (Reading attempts written (Some (if fails then None else Some (readStateFromStorage st))))) a, [])
      | _ => (st, a, [])
      end
  | ReadReturns =>
      match confirmLoop a with
      | Some (Reading attempts written (Some answer)) =>
          let '(a, evs) := read_answered attempts written answer a in (st, a, evs)
      | _ => (st, a, [])
      end
  | LoopFinally =>
      match confirmLoop a with
      | Some (Ended error) =>
          (st, with_callers [] (replies a ++ (reply_of error <$> joined a)) (nextCaller a) (with_loop None a), [])
      | _ => (st, a, [])
      end
  | OClear NoFault =>
      (* [clearLog] up to its [read] *)
      (clearStoredState st, with_rereads (S (rereads a)) (with_pending [] (settle false (pending a) a)), EDropped <$> pending a)
  | OClear f => (match f with FailAfter => clearStoredState st | _ => st end, a, [])
  | Reread fails =>
      match rereads a with
      | O => (st, a, [])
      | S n => (st, if fails then with_rereads n a else (install (readStateFromStorage st) (with_rereads n a)).1, [])
      end
  | Foreign xs expected => (default st (applyUpdatesToStorage xs expected st), a, [])
  end.

Fixpoint run (s : ST * Adaptor) (ops : list Op) : ST * Adaptor * list Ev :=
  match ops with
  | [] => (s.1, s.2, [])
  | o :: ops =>
      let '(st, a, evs) := step s o in
      let '(st, a, evs') := run (st, a) ops in (st, a, evs ++ evs')
  end.

(** The binder's: the adaptor is read before the grain is activated. *)
Definition activated (initial : State) (options : option Z) (st : ST) : ST * Adaptor :=
  (st, (install (readStateFromStorage st) (new_adaptor initial options)).1).
End adaptor.

(** ** What becomes of a raised event *)

Section invariant.
Context {State Event : Type} (transition : State → Event → option State).
Context {ST : Type} `{CustomStorageLaws State Event ST transition}.
Abbreviation Entry := (PendingEntry Event).
Abbreviation Trace := (list (@Ev Event)).
Implicit Types e : PendingEntry Event.
Implicit Types p l : list (PendingEntry Event).
Implicit Types tr : list (@Ev Event).
Implicit Types ph : option (@Phase State Event).
Implicit Types a : @Adaptor State Event.

Definition raised tr : list Entry := omap (λ ev, match ev with ERaised e => Some e | _ => None end) tr.
Definition landed tr : list Entry := omap (λ ev, match ev with ELanded e _ => Some e | _ => None end) tr.
Definition dropped tr : list Entry := omap (λ ev, match ev with EDropped e => Some e | _ => None end) tr.

Lemma raised_app tr tr' : raised (tr ++ tr') = raised tr ++ raised tr'.
Proof. apply omap_app. Qed.
Lemma landed_app tr tr' : landed (tr ++ tr') = landed tr ++ landed tr'.
Proof. apply omap_app. Qed.
Lemma dropped_app tr tr' : dropped (tr ++ tr') = dropped tr ++ dropped tr'.
Proof. apply omap_app. Qed.
Lemma drops_trace l : raised (EDropped <$> l) = [] ∧ landed (EDropped <$> l) = [] ∧ dropped (EDropped <$> l) = l.
Proof. split_and!; (induction l as [|e l IH]; [done|]); [exact IH|exact IH|]. simpl. f_equal. exact IH. Qed.
Lemma landed_trace v l : raised (landed_at v l) = [] ∧ landed (landed_at v l) = l ∧ dropped (landed_at v l) = [].
Proof.
  revert v. induction l as [|e l IH]; intros v; [done|].
  assert (He : landed_at v (e :: l) = ELanded e v :: landed_at (v + 1) l).
  { unfold landed_at. rewrite imap_cons. f_equal; [f_equal; lia|]. apply imap_ext. intros i x _. simpl. f_equal. lia. }
  rewrite He. destruct (IH (v + 1)) as (IH1 & IH2 & IH3). simpl. split_and!; [exact IH1|f_equal; exact IH2|exact IH3].
Qed.

Definition entry_wf e : Prop := conditionalPosition e = None ↔ resolve e = None.

(** The entries of one conditional append are neighbours, at consecutive
    positions. *)
Definition together l : Prop :=
  ∀ i j e e' r, (i <= j)%nat → l !! i = Some e → l !! j = Some e' → resolve e = Some r → resolve e' = Some r →
    (∀ q, conditionalPosition e = Some q → conditionalPosition e' = Some (q + (Z.of_nat j - Z.of_nat i))) ∧
    ∀ k, (i <= k <= j)%nat → ∃ x, l !! k = Some x ∧ resolve x = Some r.
Definition apart l l' : Prop := ∀ e e' r, e ∈ l → e' ∈ l' → resolve e = Some r → resolve e' ≠ Some r.
(** Entries in their place, if the first of them is at [v]. *)
Definition in_place (v : Z) l : Prop :=
  ∀ i e q, l !! i = Some e → conditionalPosition e = Some q → q = v + Z.of_nat i.

Definition unwritten p ph : list Entry :=
  match ph with Some (Writing batch _ _ (Some true)) => drop (length batch) p | _ => p end.
Definition phase_ok p ph tr : Prop :=
  match ph with
  | Some (Writing batch _ lastExpected answer) =>
      (∃ rest, p = batch ++ rest ∧ apart batch rest) ∧ in_place lastExpected batch ∧
      (answer = Some true → ∀ e, e ∈ batch → e ∈ landed tr)
  | Some (Reading _ written _) => ∀ e, e ∈ written → e ∈ landed tr
  | _ => True
  end.

Record Inv p ph (o : gmap nat bool) (n : nat) tr : Prop := {
  i_wf : Forall entry_wf (raised tr);
  i_count : raised tr ≡ₚ landed tr ++ dropped tr ++ unwritten p ph;
  i_pending : ∀ e, e ∈ p → e ∈ raised tr;
  i_nodup : NoDup (filter (λ e, resolve e ≠ None) (raised tr));
  i_fresh : ∀ e r, e ∈ raised tr → resolve e = Some r → (r < n)%nat;
  i_promised : ∀ r, is_Some (o !! r) → (r < n)%nat;
  i_together : together p;
  i_landed_all : ∀ e e' r, e ∈ landed tr → e' ∈ raised tr → resolve e = Some r → resolve e' = Some r → e' ∈ landed tr;
  i_dropped_all : ∀ e e' r, e ∈ dropped tr → e' ∈ raised tr → resolve e = Some r → resolve e' = Some r → e' ∈ dropped tr;
  i_phase : phase_ok p ph tr;
  i_place : ∀ e v q, ELanded e v ∈ tr → conditionalPosition e = Some q → q = v;
  i_true : ∀ r e, o !! r = Some true → e ∈ raised tr → resolve e = Some r → e ∈ landed tr;
  i_false : ∀ r e, o !! r = Some false → e ∈ raised tr → resolve e = Some r → e ∈ dropped tr }.

Lemma removeStale_found v pos l : removeStale v pos true l =
  (filter (λ e, conditionalPosition e = None) l, filter (λ e, conditionalPosition e ≠ None) l).
Proof.
  revert pos. induction l as [|e l IH]; intros pos; [done|]. simpl. rewrite IH, !filter_cons.
  destruct (conditionalPosition e) as [q|] eqn:He.
  - rewrite bool_decide_true by (split; [done|by left]). by rewrite decide_False, decide_True by done.
  - rewrite bool_decide_false by (intros [? _]; done). by rewrite decide_True, decide_False by (try done; intros ?; done).
Qed.

(** Everything up to the first stale entry stays, and the unconditional ones
    after it. *)
Lemma removeStale_spec v pos l : ∃ l1 l2, l = l1 ++ l2 ∧
  removeStale v pos false l =
    (l1 ++ filter (λ e, conditionalPosition e = None) l2, filter (λ e, conditionalPosition e ≠ None) l2) ∧
  in_place (v + pos) l1 ∧
  ∀ e, head l2 = Some e → ∃ q, conditionalPosition e = Some q ∧ q ≠ v + pos + Z.of_nat (length l1).
Proof.
  revert pos. induction l as [|e l IH]; intros pos; simpl; [by exists [], []|].
  case_bool_decide as Hs.
  - exists [], (e :: l). destruct Hs as (Hc & [?|Hq]); [done|]. rewrite removeStale_found. simpl.
    destruct (conditionalPosition e) as [q|] eqn:He; [|done]. split_and!; [done| |by intros [|i]|].
    + by rewrite !filter_cons, decide_False, decide_True by (rewrite ?He; done).
    + intros x [= <-]. exists q. split; [done|]. intros ->. apply Hq. f_equal. lia.
  - destruct (IH (pos + 1)) as (l1 & l2 & -> & -> & Hp & Hh). exists (e :: l1), l2. split_and!; try done.
    + intros [|i] x q Hx Hq; simpl in *.
      * injection Hx as <-. rewrite Hq in Hs. destruct (decide (q = v + pos + Z.of_nat 0)) as [|Hn]; [done|].
        exfalso. apply Hs. split; [done|]. right. intros [= ->]. apply Hn. lia.
      * rewrite (Hp i x q Hx Hq). lia.
    + intros x Hx. destruct (Hh x Hx) as (q & Hq & Hn). exists q. split; [done|]. simpl. lia.
Qed.

Lemma lookup_behind {A} (l l' : list A) i : (l ++ l') !! (length l + i)%nat = l' !! i.
Proof. rewrite lookup_app_r by lia. f_equal. lia. Qed.

Lemma together_prefix l l' : together (l ++ l') → together l.
Proof.
  intros Ht i j e e' r Hij Hi Hj Hr Hr'. pose proof (lookup_lt_Some _ _ _ Hj) as Hlt.
  destruct (Ht i j e e' r Hij) as [Hq Hk]; [by apply lookup_app_l_Some..|done|done|]. split; [done|].
  intros k Hk'. destruct (Hk k Hk') as (x & Hx & ?). exists x. rewrite lookup_app_l in Hx by lia. done.
Qed.
Lemma together_suffix l l' : together (l ++ l') → together l'.
Proof.
  intros Ht i j e e' r Hij Hi Hj Hr Hr'.
  destruct (Ht (length l + i)%nat (length l + j)%nat e e' r) as [Hq Hk]; [lia|by rewrite lookup_behind..|done|done|].
  split.
  - intros q Hc. rewrite (Hq q Hc). f_equal. lia.
  - intros k Hk'. destruct (Hk (length l + k)%nat) as (x & Hx & ?); [lia|]. exists x. by rewrite lookup_behind in Hx.
Qed.
Lemma together_unconditional l l' : together l → (∀ e, e ∈ l' → resolve e = None) → together (l ++ l').
Proof.
  intros Ht Hn i j e e' r Hij Hi Hj Hr Hr'. apply lookup_app_Some in Hj as [Hj|[Hlt Hj]].
  - pose proof (lookup_lt_Some _ _ _ Hj). rewrite lookup_app_l in Hi by lia.
    destruct (Ht i j e e' r Hij Hi Hj Hr Hr') as [Hq Hk]. split; [done|]. intros k Hk'.
    destruct (Hk k Hk') as (x & Hx & ?). exists x. split; [by apply lookup_app_l_Some|done].
  - apply list_elem_of_lookup_2, Hn in Hj. congruence.
Qed.

Lemma wf_unconditional l : Forall entry_wf l → ∀ e, e ∈ filter (λ e, conditionalPosition e = None) l → resolve e = None.
Proof. intros Hwf e [Hc He]%list_elem_of_filter. rewrite Forall_forall in Hwf. by apply Hwf. Qed.

Lemma removeStale_in_place v l : in_place v (removeStale v 0 false l).1.
Proof.
  destruct (removeStale_spec v 0 l) as (l1 & l2 & -> & -> & Hp & _). rewrite Z.add_0_r in Hp.
  intros i e q Hi Hq. apply lookup_app_Some in Hi as [Hi|[_ Hi]]; [by eapply Hp|].
  apply list_elem_of_lookup_2, list_elem_of_filter in Hi as [Hc _]. congruence.
Qed.

(** A conditional append is kept whole, or dropped whole. *)
Lemma removeStale_whole v l : Forall entry_wf l → together l →
  let '(kept, gone) := removeStale v 0 false l in
  l ≡ₚ kept ++ gone ∧ together kept ∧ apart gone kept ∧ in_place v kept.
Proof.
  intros Hwf Ht. pose proof (removeStale_in_place v l) as Hpl.
  destruct (removeStale_spec v 0 l) as (l1 & l2 & -> & Heq & Hp & Hh). rewrite Heq in *. clear Heq. rewrite Z.add_0_r in *.
  apply Forall_app in Hwf as [Hwf1 Hwf2]. pose proof (wf_unconditional l2 Hwf2) as Hu. split_and!.
  - rewrite <- (assoc_L (++)). f_equiv. clear. induction l2 as [|e l IH]; [done|]. rewrite !filter_cons.
    destruct (decide (conditionalPosition e = None)) as [He|He].
    + rewrite decide_False by (intros ?; done). simpl. by f_equiv.
    + rewrite decide_True by done. rewrite <- Permutation_middle. by f_equiv.
  - apply together_unconditional; [by eapply together_prefix|done].
  - intros e e' r He He' Hr Hr'. apply elem_of_app in He' as [He'|He']; [|apply Hu in He'; congruence].
    apply list_elem_of_filter in He as [Hc [j Hj]%list_elem_of_lookup]. apply list_elem_of_lookup in He' as [i Hi].
    pose proof (lookup_lt_Some _ _ _ Hi). destruct l2 as [|h l2]; [done|].
    destruct (Ht i (length l1 + j)%nat e' e r) as [_ Hk]; [lia|by apply lookup_app_l_Some|by rewrite lookup_behind|done..|].
    destruct (Hk (length l1)) as (x & Hx & Hxr); [lia|]. rewrite lookup_app_r, Nat.sub_diag in Hx by lia. injection Hx as <-.
    destruct (Ht i (length l1) e' h r) as [Hq _]; [lia|by apply lookup_app_l_Some|by rewrite lookup_app_r, Nat.sub_diag by lia|done..|].
    rewrite Forall_forall in Hwf1. destruct (conditionalPosition e') as [q|] eqn:Hc';
      [|apply Hwf1 in Hc'; [congruence|by eapply list_elem_of_lookup_2]].
    destruct (Hh h eq_refl) as (q' & Hq' & Hn). rewrite (Hq q eq_refl) in Hq'. injection Hq' as <-.
    rewrite (Hp i e' q Hi Hc') in Hn. lia.
  - done.
Qed.

Lemma settle_lookup b l o r b' : foldl (settle_one b) o l !! r = Some b' →
  o !! r = Some b' ∨ b' = b ∧ ∃ e, e ∈ l ∧ resolve e = Some r.
Proof.
  revert o. induction l as [|e l IH]; intros o; simpl; [by left|]. intros [Ho|(-> & x & Hx & Hr)]%IH;
    [|right; split; [done|]; exists x; split; [by right|done]].
  unfold settle_one in Ho. destruct (resolve e) as [r'|] eqn:He; [|by left]. destruct (o !! r') eqn:Hr'; [by left|].
  destruct (decide (r = r')) as [->|Hne]; [|rewrite lookup_insert_ne in Ho by done; by left].
  rewrite lookup_insert_eq in Ho. injection Ho as <-. right. split; [done|]. exists e. split; [by left|done].
Qed.

(** No conditional entry is in two places. *)
Lemma Inv_disjoint p ph o n tr e r : Inv p ph o n tr → resolve e = Some r →
  (e ∈ landed tr → e ∉ dropped tr ∧ e ∉ unwritten p ph) ∧ (e ∈ dropped tr → e ∉ unwritten p ph).
Proof.
  intros Hi Hr. assert (Hnd : NoDup (filter (λ e, resolve e ≠ None) (landed tr ++ dropped tr ++ unwritten p ph))).
  { rewrite <- (i_count _ _ _ _ _ Hi). apply (i_nodup _ _ _ _ _ Hi). }
  rewrite !filter_app, !NoDup_app in Hnd. destruct Hnd as (_ & H1 & _ & H2 & _).
  assert (Hin : ∀ l, e ∈ filter (λ e, resolve e ≠ None) l ↔ e ∈ l).
  { intros l. rewrite list_elem_of_filter, Hr. split; [by intros [? ?]|by split]. }
  specialize (H1 e). specialize (H2 e). rewrite elem_of_app, !Hin in H1. rewrite !Hin in H2. tauto.
Qed.

Lemma Inv_raised p ph o n tr e : Inv p ph o n tr → e ∈ raised tr ↔ e ∈ landed tr ∨ e ∈ dropped tr ∨ e ∈ unwritten p ph.
Proof. intros Hi. by rewrite (i_count _ _ _ _ _ Hi), !elem_of_app. Qed.

(** *** The moves of an execution *)

Lemma phase_inv p p' ph ph' o n tr : Inv p ph o n tr → unwritten p' ph' = unwritten p ph →
  (∀ e, e ∈ p' → e ∈ p) → together p' → phase_ok p' ph' tr → Inv p' ph' o n tr.
Proof. intros [] Hu Hp Ht Hph. split; auto. by rewrite Hu. Qed.

Lemma settle_true_inv p ph o n tr l : Inv p ph o n tr → (∀ e, e ∈ l → e ∈ landed tr) →
  Inv p ph (foldl (settle_one true) o l) n tr.
Proof.
  intros Hi Hl. assert (Hr := λ e, Inv_raised p ph o n tr e Hi). destruct Hi. split; auto.
  - intros r [b Hb]. apply settle_lookup in Hb as [Hb|(_ & e & He & Her)]; [by eapply i_promised0|].
    eapply i_fresh0; [|exact Her]. apply Hr. left. auto.
  - intros r e [Hb|(_ & x & Hx & Hxr)]%settle_lookup He Her; [by eapply i_true0|]. eapply i_landed_all0; eauto.
  - intros r e [Hb|[? _]]%settle_lookup He Her; [by eapply i_false0|done].
Qed.

Lemma drop_inv p ph o n tr kept gone ph' : Inv p ph o n tr → unwritten p ph = p → p ≡ₚ kept ++ gone →
  together kept → apart gone kept → unwritten kept ph' = kept → phase_ok kept ph' (tr ++ (EDropped <$> gone)) →
  Inv kept ph' (foldl (settle_one false) o gone) n (tr ++ (EDropped <$> gone)).
Proof.
  intros Hi Hu Hp Ht Ha Hu' Hph. assert (Hd := λ e r, Inv_disjoint p ph o n tr e r Hi).
  assert (Hr := λ e, Inv_raised p ph o n tr e Hi). rewrite Hu in *. destruct (drops_trace gone) as (Eq1 & Eq2 & Eq3).
  assert (Hp' : ∀ e, e ∈ p ↔ e ∈ kept ∨ e ∈ gone) by (intros e; by rewrite Hp, elem_of_app).
  assert (Hall : ∀ e e' r, e ∈ gone → e' ∈ raised tr → resolve e = Some r → resolve e' = Some r →
                   e' ∈ dropped tr ++ gone).
  { intros e e' r He He' Her Her'. apply elem_of_app. assert (e ∈ p) by (apply Hp'; by right).
    apply Hr in He' as [He'|[He'|[He'|He']%Hp']]; [|by left| |by right].
    - exfalso. apply (proj2 (proj1 (Hd e r Her) (i_landed_all _ _ _ _ _ Hi e' e r He' ltac:(apply Hr; auto) Her' Her))). done.
    - by destruct (Ha e e' r). }
  destruct Hi. split; rewrite ?raised_app, ?landed_app, ?dropped_app, ?Eq1, ?Eq2, ?Eq3, ?app_nil_r; auto.
  - rewrite Hu', i_count0, Hu, Hp. rewrite <- !(assoc_L (++)). f_equiv. f_equiv. apply Permutation_app_comm.
  - intros e He. apply i_pending0, Hp'. by left.
  - intros r [b Hb]. apply settle_lookup in Hb as [Hb|(_ & e & He & Her)]; [by eapply i_promised0|].
    eapply i_fresh0; [|exact Her]. apply i_pending0, Hp'. by right.
  - intros e e' r [He|He]%elem_of_app He' Her Her'; [apply elem_of_app; left; by eapply i_dropped_all0|by eapply Hall].
  - intros e v q [He|He]%elem_of_app Hq; [by eapply i_place0|]. by apply list_elem_of_fmap in He as (? & ? & _).
  - intros r e [Hb|[? _]]%settle_lookup He Her; [by eapply i_true0|done].
  - intros r e [Hb|(_ & x & Hx & Hxr)]%settle_lookup He Her; [apply elem_of_app; left; by eapply i_false0|by eapply Hall].
Qed.

Lemma land_inv p batch attempts v o n tr : Inv p (Some (Writing batch attempts v None)) o n tr →
  Inv p (Some (Writing batch attempts v (Some true))) o n (tr ++ landed_at v batch).
Proof.
  intros Hi. assert (Hd := λ e r, Inv_disjoint _ _ _ _ _ e r Hi). assert (Hr := λ e, Inv_raised _ _ _ _ _ e Hi).
  destruct (landed_trace v batch) as (Eq1 & Eq2 & Eq3). simpl in *.
  destruct Hi. destruct i_phase0 as ((rest & -> & Ha) & Hp & _).
  split; rewrite ?raised_app, ?landed_app, ?dropped_app, ?Eq1, ?Eq2, ?Eq3, ?app_nil_r; auto.
  - rewrite i_count0. simpl. rewrite drop_app_length. rewrite <- !(assoc_L (++)). f_equiv.
    rewrite !(assoc_L (++)). f_equiv. apply Permutation_app_comm.
  - intros e e' r [He|He]%elem_of_app He' Her Her'; apply elem_of_app; [left; by eapply i_landed_all0|].
    assert (e ∈ batch ++ rest) by (apply elem_of_app; by left).
    apply Hr in He' as [He'|[He'|[He'|He']%elem_of_app]]; [by left| |by right|by destruct (Ha e e' r)].
    exfalso. eapply (proj2 (Hd e r Her)); [|done]. eapply i_dropped_all0; [exact He'|by apply i_pending0|done..].
  - simpl. split_and!; [by exists rest|done|]. intros _ e He. rewrite landed_app, Eq2. apply elem_of_app. by right.
  - intros e u q [He|He]%elem_of_app Hq; [by eapply i_place0|].
    apply elem_of_lookup_imap in He as (i & x & [= <- ->] & Hx). by eapply Hp.
  - intros r e Ho He Her. apply elem_of_app. left. by eapply i_true0.
Qed.

Definition unrelated (r : nat) (ph : option (@Phase State Event)) : Prop :=
  match ph with Some (Writing batch _ _ _) => ∀ e, e ∈ batch → resolve e ≠ Some r | _ => True end.

Lemma unwritten_push p e ph tr : phase_ok p ph tr → unwritten (p ++ [e]) ph = unwritten p ph ++ [e].
Proof.
  destruct ph as [[batch ? ? [[]|]| |]|]; simpl; try done. intros ((rest & -> & _) & _).
  by rewrite <- (assoc_L (++)), !drop_app_length.
Qed.

Lemma push_inv p ph o n tr e : Inv p ph o n tr → entry_wf e → together (p ++ [e]) →
  (∀ r, resolve e = Some r → (r < n)%nat ∧ e ∉ raised tr ∧ o !! r = None ∧ unrelated r ph ∧
    ∀ x, x ∈ landed tr ∨ x ∈ dropped tr → resolve x ≠ Some r) →
  Inv (p ++ [e]) ph o n (tr ++ [ERaised e]).
Proof.
  intros [] Hwf Ht He. assert (Eq1 : raised (tr ++ [ERaised e]) = raised tr ++ [e]) by by rewrite raised_app.
  assert (Eq2 : landed (tr ++ [ERaised e]) = landed tr) by (rewrite landed_app; apply app_nil_r).
  assert (Eq3 : dropped (tr ++ [ERaised e]) = dropped tr) by (rewrite dropped_app; apply app_nil_r).
  split; rewrite ?Eq1, ?Eq2, ?Eq3; auto.
  - apply Forall_app_2; [done|by apply Forall_singleton].
  - rewrite (unwritten_push _ _ _ _ i_phase0), i_count0. by rewrite <- !(assoc_L (++)).
  - intros x [?|?]%elem_of_app; apply elem_of_app; auto.
  - rewrite filter_app. apply NoDup_app. split; [done|]. split; [|apply NoDup_filter, NoDup_singleton].
    intros x [_ Hx]%list_elem_of_filter [Hxr ->%list_elem_of_singleton]%list_elem_of_filter.
    destruct (resolve e) as [r|] eqn:Hr; [|done]. by destruct (He r eq_refl) as (_ & ? & _).
  - intros x r [Hx| ->%list_elem_of_singleton]%elem_of_app Hr; [by eapply i_fresh0|by apply He].
  - intros x x' r Hx [Hx'| ->%list_elem_of_singleton]%elem_of_app Hr Hr'; [by eapply i_landed_all0|].
    exfalso. destruct (He r Hr') as (_ & _ & _ & _ & Hn). by apply (Hn x (or_introl Hx)).
  - intros x x' r Hx [Hx'| ->%list_elem_of_singleton]%elem_of_app Hr Hr'; [by eapply i_dropped_all0|].
    exfalso. destruct (He r Hr') as (_ & _ & _ & _ & Hn). by apply (Hn x (or_intror Hx)).
  - destruct ph as [[batch ? v ans|?|?]|]; simpl in *; try done; rewrite ?Eq2; [|done].
    destruct i_phase0 as ((rest & -> & Ha) & Hp & Hl). split_and!; [|done|done]. exists (rest ++ [e]).
    split; [by rewrite (assoc_L (++))|]. intros x x' r Hx [Hx'| ->%list_elem_of_singleton]%elem_of_app Hr Hr'; [by eapply Ha|].
    destruct (He r Hr') as (_ & _ & _ & Hu & _). by apply (Hu x).
  - intros x v q [Hx|Hx]%elem_of_app Hq; [by eapply i_place0|]. by apply list_elem_of_singleton in Hx.
  - intros r x Ho [Hx| ->%list_elem_of_singleton]%elem_of_app Hr; [by eapply i_true0|].
    destruct (He r Hr) as (_ & _ & ? & _). congruence.
  - intros r x Ho [Hx| ->%list_elem_of_singleton]%elem_of_app Hr; [by eapply i_false0|].
    destruct (He r Hr) as (_ & _ & ? & _). congruence.
Qed.

(** *** Every operation *)

Definition AInv a tr : Prop := Inv (pending a) (confirmLoop a) (outcomes a) (nextPromise a) tr.

Lemma submitRange_inv xs a tr : AInv a tr →
  let '(a', _, evs) := submitRange transition xs a in AInv a' (tr ++ evs).
Proof.
  unfold AInv. revert a tr. induction xs as [|x xs IH]; intros a tr Hi; simpl; [by rewrite app_nil_r|].
  assert (Hp : Inv (pending a ++ [mkEntry x None None]) (confirmLoop a) (outcomes a) (nextPromise a)
                 (tr ++ [ERaised (mkEntry x None None)])).
  { apply push_inv; [done|done| |intros r [=]]. apply together_unconditional; [apply Hi|].
    by intros e ->%list_elem_of_singleton. }
  unfold submit, push. simpl. destruct (transition (tentative a) x) as [t|]; [|done].
  match goal with |- context [submitRange transition xs ?a1] => pose proof (IH a1 _ Hp) as Hr; destruct (submitRange transition xs a1) as [[a' ok] evs] end.
  by rewrite <- (assoc_L (++)) in Hr.
Qed.

(** The entries of the append under way, at the end of the queue. *)
Definition tail_of (r : nat) (v : Z) p : Prop :=
  ∃ p0 s, p = p0 ++ s ∧ (∀ e, e ∈ p0 → resolve e ≠ Some r) ∧
    ∀ i e, s !! i = Some e → resolve e = Some r ∧ conditionalPosition e = Some (v + Z.of_nat (length p0 + i)).

Lemma tail_lookup r v p : tail_of r v p → ∃ k0, (k0 <= length p)%nat ∧ ∀ i e, p !! i = Some e →
  ((i < k0)%nat → resolve e ≠ Some r) ∧
  ((k0 <= i)%nat → resolve e = Some r ∧ conditionalPosition e = Some (v + Z.of_nat i)).
Proof.
  intros (p0 & s & -> & H1 & H2). exists (length p0). split; [rewrite length_app; lia|]. intros i e He. split; intros Hi.
  - rewrite lookup_app_l in He by done. by eapply H1, list_elem_of_lookup_2.
  - rewrite lookup_app_r in He by done. destruct (H2 _ _ He) as [? Hc]. split; [done|]. rewrite Hc. do 2 f_equal. lia.
Qed.

Lemma tail_push r v p e : tail_of r v p → resolve e = Some r → conditionalPosition e = Some (v + Z.of_nat (length p)) →
  tail_of r v (p ++ [e]).
Proof.
  intros (p0 & s & -> & H1 & H2) Hr Hc. exists p0, (s ++ [e]). split_and!; [by rewrite (assoc_L (++))|done|].
  intros i x [Hx|[Hi Hx]]%lookup_app_Some; [by apply H2|]. apply list_lookup_singleton_Some in Hx as [Hx <-]. split; [done|].
  rewrite Hc, length_app. do 2 f_equal. lia.
Qed.

Lemma tail_together r v p e : tail_of r v p → together p → resolve e = Some r →
  conditionalPosition e = Some (v + Z.of_nat (length p)) → together (p ++ [e]).
Proof.
  intros (k0 & Hk0 & Htail)%tail_lookup Ht Hr Hc i j x y r' Hij Hx Hy Hxr Hyr.
  apply lookup_app_Some in Hy as [Hy|[Hj Hy]].
  - pose proof (lookup_lt_Some _ _ _ Hy). rewrite lookup_app_l in Hx by lia.
    destruct (Ht i j x y r' Hij Hx Hy Hxr Hyr) as [Hq Hk]. split; [done|]. intros k Hk'.
    destruct (Hk k Hk') as (z & Hz & ?). exists z. split; [by apply lookup_app_l_Some|done].
  - apply list_lookup_singleton_Some in Hy as [Hy <-]. assert (j = length p) as -> by lia. rewrite Hr in Hyr. injection Hyr as <-.
    apply lookup_app_Some in Hx as [Hx|[Hi Hx]].
    + destruct (Htail i x Hx) as [Hlo Hhi]. destruct (decide (i < k0)%nat) as [Hlt|Hge]; [by apply Hlo in Hlt|].
      destruct Hhi as [_ Hxc]; [lia|]. split.
      * intros q Hq. rewrite Hxc in Hq. injection Hq as <-. rewrite Hc. f_equal. lia.
      * intros k Hk. destruct (decide (k < length p)%nat) as [Hkl|Hkl].
        -- destruct (lookup_lt_is_Some_2 p k Hkl) as [z Hz]. exists z. split; [by apply lookup_app_l_Some|].
           apply (Htail k z Hz). lia.
        -- exists e. split; [|done]. assert (k = length p) as -> by lia. by rewrite lookup_app_r, Nat.sub_diag by done.
    + apply list_lookup_singleton_Some in Hx as [Hx <-]. assert (i = length p) as -> by lia. split.
      * intros q Hq. rewrite Hq. f_equal. lia.
      * intros k Hk. exists e. split; [|done]. assert (k = length p) as -> by lia. by rewrite lookup_app_r, Nat.sub_diag by done.
Qed.

Lemma push_conditional_inv r xs a tr : AInv a tr → tail_of r (version a) (pending a) →
  (∀ e, e ∈ raised tr → resolve e = Some r → e ∈ pending a) →
  (r < nextPromise a)%nat → outcomes a !! r = None → unrelated r (confirmLoop a) →
  (∀ e, e ∈ landed tr ∨ e ∈ dropped tr → resolve e ≠ Some r) →
  let '(a', _, evs) := push_conditional transition r xs a in AInv a' (tr ++ evs).
Proof.
  revert a tr. induction xs as [|x xs IH]; intros a tr Hi Ht Hin Hn Ho Hu Hnew; simpl; [by rewrite app_nil_r|].
  set (e := mkEntry x (Some (version a + Z.of_nat (length (pending a)))) (Some r)).
  assert (Hp : Inv (pending a ++ [e]) (confirmLoop a) (outcomes a) (nextPromise a) (tr ++ [ERaised e])).
  { apply push_inv; [done|by split|by eapply tail_together; [done|apply Hi|..]|]. intros r' [= <-]. split_and!; try done.
    intros He. apply Hin in He; [|done]. apply list_elem_of_lookup in He as [i He].
    destruct (tail_lookup _ _ _ Ht) as (k0 & _ & Htail). destruct (Htail i e He) as [Hlo Hhi].
    destruct (decide (i < k0)%nat) as [Hlt|Hge]; [by apply Hlo in Hlt|]. destruct Hhi as [_ [= Hq]]; [lia|].
    pose proof (lookup_lt_Some _ _ _ He). lia. }
  unfold push. simpl. destruct (transition (tentative a) x) as [t|]; [|done].
  match goal with |- context [push_conditional transition r xs ?a1] =>
    pose proof (IH a1 (tr ++ [ERaised e]) Hp) as Hr; destruct (push_conditional transition r xs a1) as [[a' ok] evs] end.
  rewrite <- (assoc_L (++)) in Hr. apply Hr; simpl; auto.
  - by apply tail_push.
  - intros y Hy Hyr. rewrite raised_app in Hy. apply elem_of_app in Hy as [Hy|Hy]; apply elem_of_app; [left; by apply Hin|by right].
  - intros y Hy. rewrite landed_app, dropped_app in Hy. simpl in Hy. rewrite !app_nil_r in Hy. by apply Hnew.
Qed.

Lemma next_inv p ph o n m tr : Inv p ph o n tr → (n <= m)%nat → Inv p ph o m tr.
Proof. intros [] Hn. split; auto; intros; [pose proof (i_fresh0 _ _ ltac:(done) ltac:(done))|pose proof (i_promised0 _ ltac:(done))]; lia. Qed.

(** A promise just made is nobody's yet. *)
Lemma fresh_promise a tr : AInv a tr → let r := nextPromise a in
  (∀ e, e ∈ raised tr → resolve e ≠ Some r) ∧ outcomes a !! r = None ∧ unrelated r (confirmLoop a) ∧
  (∀ e, e ∈ landed tr ∨ e ∈ dropped tr → resolve e ≠ Some r) ∧ tail_of r (version a) (pending a).
Proof.
  intros Hi r. assert (Hr : ∀ e, e ∈ raised tr → resolve e ≠ Some r).
  { intros e He Her. pose proof (i_fresh _ _ _ _ _ Hi e r He Her). unfold r in *. lia. }
  assert (Hin := λ e, Inv_raised _ _ _ _ _ e Hi). split_and!; [done| | | |].
  - destruct (outcomes a !! r) eqn:Ho; [|done]. assert (r < nextPromise a)%nat by (apply (i_promised _ _ _ _ _ Hi); eauto). unfold r in *. lia.
  - pose proof (i_phase _ _ _ _ _ Hi) as Hph. pose proof (i_pending _ _ _ _ _ Hi) as Hp.
    destruct (confirmLoop a) as [[batch ? ? ?|?|?]|]; simpl in *; try done.
    destruct Hph as ((rest & Hrest & _) & _). intros e He. apply Hr, Hp. rewrite Hrest. apply elem_of_app. by left.
  - intros e He. apply Hr, Hin. tauto.
  - exists (pending a), []. rewrite app_nil_r. split_and!; [done| |done]. intros e He. apply Hr, (i_pending _ _ _ _ _ Hi e He).
Qed.

Lemma recompute_fields a : let a' := (recomputeTentative transition a).1 in
  pending a' = pending a ∧ confirmLoop a' = confirmLoop a ∧ outcomes a' = outcomes a ∧ nextPromise a' = nextPromise a ∧
  version a' = version a ∧ cached a' = cached a ∧ maxAttempts a' = maxAttempts a.
Proof. unfold recomputeTentative. by destruct (folds _ _ _). Qed.

Lemma no_loop p ph o n tr : Inv p ph o n tr → unwritten p ph = p → Inv p None o n tr.
Proof. intros Hi Hu. eapply phase_inv; [done|by rewrite Hu|done|apply Hi|done]. Qed.

Lemma pending_wf p ph o n tr : Inv p ph o n tr → Forall entry_wf p.
Proof. intros []. apply Forall_forall. rewrite Forall_forall in i_wf0. eauto. Qed.

Lemma loop_top_inv attempts a tr : Inv (pending a) None (outcomes a) (nextPromise a) tr →
  let '(a', evs) := loop_top transition attempts a in AInv a' (tr ++ evs).
Proof.
  intros Hi. unfold loop_top. case_bool_decide as Hp; [rewrite app_nil_r; by eapply phase_inv; [..|apply Hi|]|].
  unfold removeStaleConditionalUpdates. pose proof (removeStale_whole (version a) (pending a) (pending_wf _ _ _ _ _ Hi) (i_together _ _ _ _ _ Hi)) as Hw.
  destruct (removeStale (version a) 0 false (pending a)) as [kept gone]. destruct Hw as (Hperm & Ht & Ha & Hpl).
  case_bool_decide as Hk.
  - set (a1 := settle false gone (with_pending kept a)). pose proof (recompute_fields a1) as Hf.
    destruct (recomputeTentative transition a1) as [a2 ok]. simpl in Hf. destruct Hf as (Hf1 & _ & Hf2 & Hf3 & _).
    unfold AInv. simpl. rewrite Hf1, Hf2, Hf3. by eapply drop_inv.
  - unfold AInv. simpl. eapply drop_inv; try done. simpl. split_and!; [|done|done].
    exists []. rewrite app_nil_r. split; [done|]. by intros x y r _ Hy%elem_of_nil.
Qed.

Lemma confirm_inv caller a tr : AInv a tr →
  let '(a', evs) := confirmSubmittedEntries transition caller a in AInv a' (tr ++ evs).
Proof.
  intros Hi. unfold confirmSubmittedEntries. simpl. destruct (confirmLoop a) eqn:Hl; [by rewrite app_nil_r|].
  apply loop_top_inv. simpl. unfold AInv in Hi. by rewrite Hl in Hi.
Qed.

Lemma splice_inv batch rest attempts v o n tr : Inv (batch ++ rest) (Some (Writing batch attempts v (Some true))) o n tr →
  Inv rest None o n tr.
Proof.
  intros Hi. eapply phase_inv; [done| | |by eapply together_suffix, Hi|done].
  - simpl. by rewrite drop_app_length.
  - intros e He. apply elem_of_app. by right.
Qed.

Lemma write_answered_inv batch attempts v b a tr : AInv a tr → confirmLoop a = Some (Writing batch attempts v (Some b)) →
  let '(a', evs) := write_answered transition batch attempts v b a in AInv a' (tr ++ evs).
Proof.
  intros Hi Hl. unfold AInv in Hi. rewrite Hl in Hi.
  pose proof (i_phase _ _ _ _ _ Hi) as ((rest & Hp & Ha) & Hpl & Hb). unfold write_answered. destruct b.
  - assert (Hi' : Inv rest None (outcomes a) (nextPromise a) tr) by (rewrite Hp in Hi; by eapply splice_inv).
    destruct (advance transition batch _ _) as [[u c] ok].
    set (a1 := with_view _ _ _ _). pose proof (recompute_fields a1) as Hf.
    destruct (if ok then recomputeTentative transition a1 else (a1, false)) as [a2 ok'] eqn:He.
    assert (Hf' : pending a2 = rest ∧ outcomes a2 = outcomes a ∧ nextPromise a2 = nextPromise a).
    { assert (pending a1 = rest) as Hp1 by (simpl; by rewrite Hp, drop_app_length).
      destruct ok; [|injection He as <- <-; by split_and!]. rewrite He in Hf. simpl in Hf. destruct Hf as (-> & _ & -> & -> & _). by split_and!. }
    clear He Hf. destruct Hf' as (Hf1 & Hf2 & Hf3). destruct ok'.
    + apply loop_top_inv. simpl. rewrite Hf1, Hf2, Hf3. apply settle_true_inv; [done|]. by apply Hb.
    + rewrite app_nil_r. unfold AInv. simpl. rewrite Hf1, Hf2, Hf3. eapply phase_inv; [done|done|done|apply Hi'|]. simpl. by apply Hb.
  - assert (Hi' : Inv (pending a) None (outcomes a) (nextPromise a) tr) by by eapply no_loop.
    case_bool_decide as Hm.
    + set (a1 := with_pending _ _). pose proof (recompute_fields a1) as Hf.
      destruct (recomputeTentative transition a1) as [a2 ok]. simpl in Hf. destruct Hf as (Hf1 & _ & Hf2 & Hf3 & _).
      unfold AInv. simpl. rewrite Hf1, Hf2, Hf3. pose proof (pending_wf _ _ _ _ _ Hi') as Hwf. rewrite Forall_forall in Hwf.
      assert (Hu : ∀ e, e ∈ filter (λ e, is_conditional e = false) (pending a) → resolve e = None).
      { intros e [Hc He]%list_elem_of_filter. apply Hwf; [done|]. unfold is_conditional in Hc. case_bool_decide; [done|].
        by destruct (conditionalPosition e); [destruct H1|]. }
      eapply drop_inv; try done.
      * clear. induction (pending a) as [|e l IH]; [done|]. rewrite !filter_cons. destruct (is_conditional e); simpl;
          [rewrite <- Permutation_middle|]; by f_equiv.
      * rewrite <- (app_nil_l (filter _ _)). apply together_unconditional; [|done]. by intros i j x y r _ Hx.
      * intros x y r Hx Hy _ Hr. apply Hu in Hy. congruence.
    + rewrite app_nil_r. unfold AInv. simpl. eapply phase_inv; [done|done|done|apply Hi'|]. simpl. by intros e He%elem_of_nil.
Qed.

Lemma read_answered_inv attempts written ans a tr : AInv a tr →
  confirmLoop a = Some (Reading attempts written (Some ans)) →
  let '(a', evs) := read_answered transition attempts written ans a in AInv a' (tr ++ evs).
Proof.
  intros Hi Hl. unfold AInv in Hi. rewrite Hl in Hi. pose proof (i_phase _ _ _ _ _ Hi) as Hw.
  assert (Hi' : Inv (pending a) None (outcomes a) (nextPromise a) tr) by by eapply no_loop.
  unfold read_answered. destruct ans as [vs|]; [|rewrite app_nil_r; by eapply phase_inv; [..|apply Hi'|]].
  unfold install. set (a1 := with_view _ _ _ _). pose proof (recompute_fields a1) as Hf.
  destruct (recomputeTentative transition a1) as [a2 ok]. simpl in Hf. destruct Hf as (Hf1 & _ & Hf2 & Hf3 & _). destruct ok.
  - apply loop_top_inv. simpl. rewrite Hf1, Hf2, Hf3. by apply settle_true_inv.
  - rewrite app_nil_r. unfold AInv. simpl. rewrite Hf1, Hf2, Hf3. by eapply phase_inv; [..|apply Hi'|].
Qed.

#[local] Arguments step : simpl never.

(** A failed write has not taken effect, and the log is not cleared while a write
    is under way. *)
Definition orderly a (o : @Op Event) : Prop :=
  match o, confirmLoop a with
  | ServeWrite FailAfter, _ => False
  | OClear NoFault, Some (Writing _ _ _ _) => False
  | _, _ => True
  end.
Fixpoint orderly_run (s : ST * @Adaptor State Event) (ops : list (@Op Event)) : Prop :=
  match ops with
  | [] => True
  | o :: ops => orderly s.2 o ∧ orderly_run (step transition s o).1 ops
  end.

Lemma serve_write_inv f batch attempts v o n tr p (st : ST) : f ≠ FailAfter →
  Inv p (Some (Writing batch attempts v None)) o n tr →
  let '(_, applied, evs) := serve_write f batch v st in
  Inv p (Some (Writing batch attempts v (Some applied))) o n (tr ++ evs).
Proof using Type*.
  intros Hf Hi. assert (Hno : Inv p (Some (Writing batch attempts v (Some false))) o n (tr ++ [])).
  { rewrite app_nil_r. eapply phase_inv; [done|done|done|apply Hi|]. pose proof (i_phase _ _ _ _ _ Hi) as Hph. simpl in *.
    destruct Hph as (? & ? & _). by split_and!. }
  unfold serve_write. destruct f; [|done|done]. destruct (decide ((readStateFromStorage st).1 = v)) as [<-|Hne].
  - destruct (apply_granted (event <$> batch) st) as (st' & -> & _). by apply land_inv.
  - by rewrite apply_refused.
Qed.

Lemma step_inv (st : ST) a o tr : AInv a tr → orderly a o →
  let '(_, a', evs) := step transition (st, a) o in AInv a' (tr ++ evs).
Proof using Type*.
  intros Hi Ho. destruct o as [xs|xs| |f| |fails| | |f|fails|xs v]; unfold step.
  - pose proof (submitRange_inv xs a tr Hi) as Hr. by destruct (submitRange transition xs a) as [[a' ok] evs].
  - case_bool_decide as Hx; [by rewrite app_nil_r|]. destruct (fresh_promise a tr Hi) as (H1 & H2 & H3 & H4 & H5).
    set (a1 := with_outcomes _ _ _). pose proof (push_conditional_inv (nextPromise a) xs a1 tr) as Hp.
    destruct (push_conditional transition (nextPromise a) xs a1) as [[a' ok] evs].
    assert (Hi' : AInv a' (tr ++ evs)).
    { apply Hp; simpl; try done; [by eapply next_inv; [apply Hi|simpl; lia]| |lia]. intros e He Hr. by destruct (H1 e He). }
    destruct ok; [|done]. pose proof (confirm_inv (ATryAppend (nextPromise a)) a' _ Hi') as Hc.
    destruct (confirmSubmittedEntries transition (ATryAppend (nextPromise a)) a') as [a2 evs']. by rewrite (assoc_L (++)).
  - pose proof (confirm_inv AConfirm a tr Hi) as Hc. by destruct (confirmSubmittedEntries transition AConfirm a).
  - destruct (confirmLoop a) as [[batch att v [b|]| |]|] eqn:Hl; try by rewrite app_nil_r.
    unfold AInv in Hi. rewrite Hl in Hi.
    pose proof (serve_write_inv f batch att v _ _ _ _ st ltac:(intros ->; by simpl in Ho) Hi) as Hs.
    by destruct (serve_write f batch v st) as [[st' applied] evs].
  - destruct (confirmLoop a) as [[batch att v [b|]| |]|] eqn:Hl; try by rewrite app_nil_r.
    pose proof (write_answered_inv batch att v b a tr Hi Hl) as Hw. by destruct (write_answered transition batch att v b a).
  - destruct (confirmLoop a) as [[ |att written [ans|]|]|] eqn:Hl; try by rewrite app_nil_r.
    rewrite app_nil_r. unfold AInv in *. simpl. rewrite Hl in Hi. pose proof (i_phase _ _ _ _ _ Hi). by eapply phase_inv; [done|done|done|apply Hi|].
  - destruct (confirmLoop a) as [[ |att written [ans|]|]|] eqn:Hl; try by rewrite app_nil_r.
    pose proof (read_answered_inv att written ans a tr Hi Hl) as Hw. by destruct (read_answered transition att written ans a).
  - destruct (confirmLoop a) as [[ | |err]|] eqn:Hl; rewrite app_nil_r; try done.
    unfold AInv in *. simpl. rewrite Hl in Hi. by eapply no_loop.
  - destruct f; try by rewrite app_nil_r. unfold AInv, orderly in *. simpl. pose proof (i_phase _ _ _ _ _ Hi) as Hph.
    apply (drop_inv (pending a) (confirmLoop a)); try done.
    + revert Ho. by destruct (confirmLoop a) as [[]|].
    + by intros x y r _ Hy%elem_of_nil.
    + revert Ho. by destruct (confirmLoop a) as [[]|].
    + revert Ho Hph. destruct (confirmLoop a) as [[| |]|]; try done. simpl. intros _ Hph e He. rewrite landed_app. apply elem_of_app. left. by apply Hph.
  - destruct (rereads a); rewrite app_nil_r; [done|]. destruct fails; [done|]. unfold AInv, install in *.
    set (a1 := with_view _ _ _ _). destruct (recompute_fields a1) as (-> & -> & -> & -> & _). done.
  - by rewrite app_nil_r.
Qed.

Lemma run_inv ops : ∀ s tr, AInv s.2 tr → orderly_run s ops →
  let '(_, a', evs) := run transition s ops in AInv a' (tr ++ evs).
Proof using Type*.
  induction ops as [|o ops IH]; intros [st a] tr Hi Ho; simpl; [by rewrite app_nil_r|]. destruct Ho as [Ho Hrest].
  pose proof (step_inv st a o tr Hi Ho) as Hs. simpl in *. destruct (step transition (st, a) o) as [[st1 a1] evs].
  pose proof (IH (st1, a1) _ Hs Hrest) as Hr. simpl in *. destruct (run transition (st1, a1) ops) as [[st2 a2] evs'].
  by rewrite (assoc_L (++)).
Qed.

Lemma start_inv initial options (st : ST) : AInv (activated transition initial options st).2 [].
Proof.
  unfold activated, install, AInv. cbn [snd]. set (a1 := with_view _ _ _ _). destruct (recompute_fields a1) as (-> & -> & -> & -> & _). split; simpl; try done; try (by intros; set_solver).
  - by apply NoDup_nil.
  - intros r [b Hb]. by rewrite lookup_empty in Hb.
Qed.

(** What an append is told is what happened. Let other activations write at
    any time, appends, raises and confirms overlap, reads fail, and writes fail
    before they take effect; the log is cleared, but not during a write. Every
    raised event is then in one place: written once, dropped, or still to be
    written. A conditional append answered true has all its events in the log, each
    at the version it was raised at; answered false, none of them, then or later. *)
Theorem conditional_append_outcome initial options (st : ST) ops :
  orderly_run (activated transition initial options st) ops →
  let '(_, a, tr) := run transition (activated transition initial options st) ops in
  raised tr ≡ₚ landed tr ++ dropped tr ++ unwritten (pending a) (confirmLoop a) ∧
  ∀ r e, e ∈ raised tr → resolve e = Some r →
    match outcomes a !! r with
    | Some true => ∃ q, conditionalPosition e = Some q ∧ ELanded e q ∈ tr
    | Some false => (e ∉ landed tr) ∧ e ∉ unwritten (pending a) (confirmLoop a)
    | None => True
    end.
Proof using Type*.
  intros Ho. pose proof (run_inv ops _ [] (start_inv initial options st) Ho) as Hi.
  destruct (run transition (activated transition initial options st) ops) as [[st' a] tr]. simpl in Hi.
  split; [apply Hi|]. intros r e He Hr. destruct (Inv_disjoint _ _ _ _ _ e r Hi Hr) as [Hd1 Hd2].
  destruct (outcomes a !! r) as [[]|] eqn:Hout; [| |done].
  - pose proof (i_true _ _ _ _ _ Hi r e Hout He Hr) as Hl. apply list_elem_of_omap in Hl as (ev & Hev & Hsome).
    destruct ev as [|x v|]; try done. injection Hsome as ->.
    pose proof (i_wf _ _ _ _ _ Hi) as Hwf. rewrite Forall_forall in Hwf.
    destruct (conditionalPosition e) as [q|] eqn:Hq; [|apply (Hwf e He) in Hq; congruence].
    exists q. split; [done|]. by rewrite (i_place _ _ _ _ _ Hi e v q Hev Hq).
  - pose proof (i_false _ _ _ _ _ Hi r e Hout He Hr) as Hdr. split; [|by apply Hd2]. intros Hl. by destruct (Hd1 Hl).
Qed.
End invariant.

(** ** The view *)

Section view.
Context {State Event : Type} (transition : State → Event → option State).
Context {ST : Type} `{CustomStorageLaws State Event ST transition}.
Context (total : ∀ s x, is_Some (transition s x)).
(** What the storage held at first. *)
Context (base : Z * State).
Implicit Types a : @Adaptor State Event.
Implicit Types log : list Event.
#[local] Arguments step : simpl never.

Lemma folds_total s xs : is_Some (folds transition s xs).
Proof using total. revert s. induction xs as [|x xs IH]; intros s; simpl; [by eexists|]. destruct (total s x) as [s' ->]. apply IH. Qed.

Lemma advance_total (es : list (PendingEntry Event)) v c : ∃ c', folds transition c (event <$> es) = Some c' ∧
  advance transition es v c = (v + Z.of_nat (length es), c', true).
Proof using total.
  revert v c. induction es as [|e es IH]; intros v c; simpl; [exists c; by rewrite Z.add_0_r|].
  destruct (total c (event e)) as [c1 ->]. simpl. destruct (IH (v + 1) c1) as (c' & Hf & Ha). exists c'. split; [exact Hf|].
  rewrite Ha. do 2 f_equal. lia.
Qed.

(** The version and the state after [log]. *)
Definition after log (vs : Z * State) : Prop :=
  vs.1 = base.1 + Z.of_nat (length log) ∧ folds transition base.2 log = Some vs.2.

Lemma after_app log log' vs s : after log vs → folds transition vs.2 log' = Some s →
  after (log ++ log') (vs.1 + Z.of_nat (length log'), s).
Proof. intros [Hv Hs] Hf. split; simpl; [rewrite length_app; lia|]. by rewrite folds_app, Hs. Qed.

Lemma apply_after log (st st' : ST) xs v : after log (readStateFromStorage st) →
  applyUpdatesToStorage xs v st = Some st' → v = (readStateFromStorage st).1 ∧ after (log ++ xs) (readStateFromStorage st').
Proof using Type*.
  intros Hl Ha. destruct (decide ((readStateFromStorage st).1 = v)) as [<-|Hne]; [|by rewrite apply_refused in Ha].
  split; [done|]. destruct (apply_granted xs st) as (st1 & Ha' & Hv & Hs). rewrite Ha in Ha'. injection Ha' as <-.
  destruct (folds_total (readStateFromStorage st).2 xs) as [s Hf]. pose proof (after_app log xs _ s Hl Hf) as Hr.
  destruct (readStateFromStorage st') as [v' s']. simpl in *. by rewrite Hv, (Hs s Hf).
Qed.

Definition tentative_ok a : Prop := folds transition (cached a) (event <$> pending a) = Some (tentative a).

Definition view_phase a (behind : list Event) (seen : Z * State → Prop) : Prop :=
  match confirmLoop a with
  | Some (Writing batch _ lastExpected answer) =>
      version a = lastExpected ∧ (∃ rest, pending a = batch ++ rest) ∧
      (answer = Some true → ∃ behind', behind = (event <$> batch) ++ behind')
  | Some (Reading _ written answer) => written = [] ∧ ∀ r, answer = Some r → ∃ vs, r = Some vs ∧ seen vs
  | _ => tentative_ok a
  end.

Definition VInv (st : ST) a : Prop := ∃ log behind,
  after (log ++ behind) (readStateFromStorage st) ∧ after log (version a, cached a) ∧
  view_phase a behind (λ vs, ∃ l1 l2, log ++ behind = l1 ++ l2 ∧ after l1 vs).

Lemma recompute_total a : ∃ a', recomputeTentative transition a = (a', true) ∧ tentative_ok a' ∧
  cached a' = cached a ∧ pending a' = pending a ∧ version a' = version a.
Proof using total.
  unfold recomputeTentative. destruct (folds_total (cached a) (event <$> pending a)) as [t Ht]. rewrite Ht.
  eexists. by split_and!.
Qed.

Lemma loop_top_view attempts a (st : ST) log behind : after (log ++ behind) (readStateFromStorage st) →
  after log (version a, cached a) → tentative_ok a → VInv st (loop_top transition attempts a).1.
Proof using total.
  intros Hst Hl Ht. unfold loop_top. case_bool_decide as Hp; [by exists log, behind|].
  destruct (removeStaleConditionalUpdates a) as [kept gone]. case_bool_decide as Hk.
  - set (a1 := settle false gone (with_pending kept a)). destruct (recompute_total a1) as (a2 & -> & Ht2 & Hc & _ & Hv).
    exists log, behind. simpl in *. by rewrite Hc, Hv.
  - exists log, behind. split_and!; [done|done|]. unfold view_phase. simpl. split_and!; [done| |done].
    exists []. by rewrite app_nil_r.
Qed.

(** Raises add to the queue and to the tentative view. *)
Record raising a a' : Prop := {
  ra_cached : cached a' = cached a;
  ra_version : version a' = version a;
  ra_loop : confirmLoop a' = confirmLoop a;
  ra_pending : ∃ l, pending a' = pending a ++ l;
  ra_tentative : tentative_ok a → tentative_ok a' }.

Lemma raising_refl a : raising a a.
Proof. split; try done. exists []. by rewrite app_nil_r. Qed.
Lemma raising_trans a a' a'' : raising a a' → raising a' a'' → raising a a''.
Proof.
  intros [H1 H2 H3 [l H4] H5] [H1' H2' H3' [l' H4'] H5']. split; try congruence; [|auto].
  exists (l ++ l'). by rewrite H4', H4, (assoc_L (++)).
Qed.

Lemma push_raising e a : ∃ a', push transition e a = (a', true) ∧ raising a a'.
Proof using total.
  unfold push. simpl. destruct (total (tentative a) (event e)) as [t Ht]. rewrite Ht. eexists. split; [done|].
  split; try done; [by eexists|]. unfold tentative_ok. simpl. intros Hok. rewrite fmap_app, folds_app, Hok. simpl. by rewrite Ht.
Qed.

Lemma submitRange_raising xs a : raising a (submitRange transition xs a).1.1.
Proof using total.
  revert a. induction xs as [|x xs IH]; intros a; [apply raising_refl|]. simpl. unfold submit.
  destruct (push_raising (mkEntry x None None) a) as (a1 & -> & Hr). specialize (IH a1).
  destruct (submitRange transition xs a1) as [[a' ok] evs]. by eapply raising_trans.
Qed.

Lemma push_conditional_raising r xs a : raising a (push_conditional transition r xs a).1.1.
Proof using total.
  revert a. induction xs as [|x xs IH]; intros a; [apply raising_refl|]. simpl.
  match goal with |- context [push transition ?e a] => destruct (push_raising e a) as (a1 & -> & Hr) end. specialize (IH a1).
  destruct (push_conditional transition r xs a1) as [[a' ok] evs]. by eapply raising_trans.
Qed.

Lemma raising_view a a' (st : ST) : raising a a' → VInv st a → VInv st a'.
Proof.
  intros [H1 H2 H3 [l H4] H5] (log & behind & Hst & Hl & Hp). exists log, behind. rewrite H1, H2. split_and!; [done..|].
  unfold view_phase in *. rewrite H3, H2, H4. destruct (confirmLoop a) as [[batch ? ? ?| |]|]; try done; auto.
  destruct Hp as (Hv & [rest ->] & Hb). split_and!; [done| |done]. exists (rest ++ l). by rewrite (assoc_L (++)).
Qed.

Lemma confirm_view caller a (st : ST) : VInv st a → VInv st (confirmSubmittedEntries transition caller a).1.
Proof using total.
  intros (log & behind & Hst & Hl & Hp). unfold confirmSubmittedEntries. simpl. unfold view_phase in Hp.
  destruct (confirmLoop a) as [ph|] eqn:Hph; [|by eapply loop_top_view].
  exists log, behind. split_and!; [done..|]. unfold view_phase. simpl. by rewrite Hph.
Qed.

Lemma write_answered_view batch attempts v b a (st : ST) : VInv st a → confirmLoop a = Some (Writing batch attempts v (Some b)) →
  VInv st (write_answered transition batch attempts v b a).1.
Proof using total.
  intros (log & behind & Hst & Hl & Hp) Hph. unfold view_phase in Hp. rewrite Hph in Hp. destruct Hp as (Hv & [rest Hrest] & Hb).
  unfold write_answered. destruct b.
  - destruct (Hb eq_refl) as [behind' ->]. simpl. rewrite Hrest, drop_app_length.
    destruct (advance_total batch (version a) (cached a)) as (c & Hc & ->).
    set (a1 := with_view _ _ _ _). destruct (recompute_total a1) as (a2 & -> & Ht & Hc2 & _ & Hv2). simpl in *.
    apply (loop_top_view _ _ _ (log ++ (event <$> batch)) behind'); [by rewrite <- (assoc_L (++))| |done].
    simpl. rewrite Hc2, Hv2. pose proof (after_app log (event <$> batch) _ c Hl Hc) as Ha. by rewrite length_fmap in Ha.
  - case_bool_decide as Hm.
    + set (a1 := with_pending _ _). destruct (recompute_total a1) as (a2 & -> & Ht & Hc2 & _ & Hv2). exists log, behind.
      simpl in *. by rewrite Hc2, Hv2.
    + exists log, behind. by split_and!.
Qed.

Lemma read_answered_view attempts written ans a (st : ST) : VInv st a →
  confirmLoop a = Some (Reading attempts written (Some (Some ans))) →
  VInv st (read_answered transition attempts written (Some ans) a).1.
Proof using total.
  intros (log & behind & Hst & Hl & Hp) Hph. unfold view_phase in Hp. rewrite Hph in Hp. destruct Hp as [-> Hs].
  destruct (Hs (Some ans) eq_refl) as (vs & [= <-] & l1 & l2 & Heq & Ha). unfold read_answered, install.
  set (a1 := with_view _ _ _ _). destruct (recompute_total a1) as (a2 & -> & Ht & Hc2 & _ & Hv2). simpl in *.
  apply (loop_top_view _ _ _ l1 l2); [by rewrite <- Heq| |done]. simpl. rewrite Hc2, Hv2. by destruct ans.
Qed.

Definition undisturbed (o : @Op Event) : Prop := match o with OClear _ | Reread _ | ServeRead true => False | _ => True end.

Lemma serve_write_view f batch attempts v a (st : ST) : VInv st a → confirmLoop a = Some (Writing batch attempts v None) →
  let '(st', applied, _) := serve_write f batch v st in
  VInv st' (with_loop (Some (Writing batch attempts v (Some applied))) a).
Proof using Type*.
  intros (log & behind & Hst & Hl & Hp) Hph. unfold view_phase in Hp. rewrite Hph in Hp. destruct Hp as (Hv & Hrest & _).
  assert (Hno : VInv st (with_loop (Some (Writing batch attempts v (Some false))) a)) by (exists log, behind; by split_and!).
  unfold serve_write. destruct (applyUpdatesToStorage (event <$> batch) v st) as [st'|] eqn:Ha; [|by destruct f].
  destruct (apply_after _ _ _ _ _ Hst Ha) as [Hcur Hst'].
  assert (behind = []) as ->.
  { destruct Hst as [Hst _], Hl as [Hl _]. simpl in Hl. rewrite length_app in Hst. destruct behind; [done|]. simpl in *. lia. }
  rewrite app_nil_r in Hst'. destruct f; [|done|]; exists log, (event <$> batch); split_and!; try done; unfold view_phase; simpl;
    split_and!; try done. intros _. exists []. by rewrite app_nil_r.
Qed.

Lemma step_view (st : ST) a o : VInv st a → undisturbed o →
  let '(st', a', _) := step transition (st, a) o in VInv st' a'.
Proof using Type*.
  intros Hi Hu. destruct o as [xs|xs| |f| |fails| | |f|fails|xs v]; unfold step; try done.
  - pose proof (submitRange_raising xs a) as Hr. destruct (submitRange transition xs a) as [[a' ok] evs]. by eapply raising_view.
  - case_bool_decide as Hx; [done|]. set (a1 := with_outcomes _ _ _). assert (Hi1 : VInv st a1) by done.
    pose proof (push_conditional_raising (nextPromise a) xs a1) as Hr.
    destruct (push_conditional transition (nextPromise a) xs a1) as [[a' ok] evs]. apply (raising_view _ _ _ Hr) in Hi1.
    destruct ok; [|done]. pose proof (confirm_view (ATryAppend (nextPromise a)) _ _ Hi1) as Hc. simpl in Hc.
    by destruct (confirmSubmittedEntries transition (ATryAppend (nextPromise a)) a') as [a2 evs'].
  - pose proof (confirm_view AConfirm _ _ Hi) as Hc. by destruct (confirmSubmittedEntries transition AConfirm a).
  - destruct (confirmLoop a) as [[batch att v [b|]| |]|] eqn:Hl; try done.
    pose proof (serve_write_view f batch att v a st Hi Hl) as Hs. by destruct (serve_write f batch v st) as [[st' applied] evs].
  - destruct (confirmLoop a) as [[batch att v [b|]| |]|] eqn:Hl; try done.
    pose proof (write_answered_view batch att v b a st Hi Hl) as Hw. by destruct (write_answered transition batch att v b a).
  - destruct (confirmLoop a) as [[ |att written [ans|]|]|] eqn:Hl; try done. destruct fails; [done|].
    destruct Hi as (log & behind & Hst & Hlog & Hp). unfold view_phase in Hp. rewrite Hl in Hp. destruct Hp as [-> _].
    exists log, behind. split_and!; [done..|]. unfold view_phase. simpl. split; [done|]. intros r [= <-].
    eexists. split; [done|]. exists (log ++ behind), []. by rewrite app_nil_r.
  - destruct (confirmLoop a) as [[ |att written [[ans|]|]|]|] eqn:Hl; try done.
    + pose proof (read_answered_view att written ans a st Hi Hl) as Hw. by destruct (read_answered transition att written (Some ans) a).
    + destruct Hi as (log & behind & _ & _ & Hp). unfold view_phase in Hp. rewrite Hl in Hp. destruct Hp as [_ Hs].
      by destruct (Hs None eq_refl) as (vs & ? & _).
  - destruct (confirmLoop a) as [[ | |err]|] eqn:Hl; try done. destruct Hi as (log & behind & Hst & Hlog & Hp).
    exists log, behind. split_and!; [done..|]. unfold view_phase in *. by rewrite Hl in Hp.
  - destruct (applyUpdatesToStorage xs v st) as [st'|] eqn:Ha; simpl; [|done].
    destruct Hi as (log & behind & Hst & Hlog & Hp). destruct (apply_after _ _ _ _ _ Hst Ha) as [_ Hst'].
    exists log, (behind ++ xs). split_and!; [by rewrite (assoc_L (++))|done|]. unfold view_phase in *.
    destruct (confirmLoop a) as [[batch att u b|att written ans|]|]; try done.
    + destruct Hp as (Hv & Hr & Hb). split_and!; [done|done|]. intros Hb'. destruct (Hb Hb') as [b' ->]. exists (b' ++ xs).
      by rewrite (assoc_L (++)).
    + destruct Hp as [Hw Hs]. split; [done|]. intros r Hr. destruct (Hs r Hr) as (vs & -> & l1 & l2 & Heq & Hl1).
      exists vs. split; [done|]. exists l1, (l2 ++ xs).
      split; [|done]. by rewrite !(assoc_L (++)), Heq.
Qed.

Lemma run_view ops : ∀ (s : ST * Adaptor), VInv s.1 s.2 → Forall undisturbed ops →
  let '(st', a', _) := run transition s ops in VInv st' a'.
Proof using Type*.
  induction ops as [|o ops IH]; intros [st a] Hi Ho; [done|]. inversion Ho as [|? ? Hu Hrest]; subst. simpl.
  pose proof (step_view st a o Hi Hu) as Hs. destruct (step transition (st, a) o) as [[st1 a1] evs].
  pose proof (IH (st1, a1) Hs Hrest) as Hr. by destruct (run transition (st1, a1) ops) as [[st2 a2] evs'].
Qed.

Lemma start_view initial options (st : ST) : readStateFromStorage st = base → VInv st (activated transition initial options st).2.
Proof using total.
  intros Hb. unfold activated, install. cbn [snd]. set (a1 := with_view _ _ _ _).
  destruct (recompute_total a1) as (a2 & Hr & Ht & Hc & _ & Hv). rewrite Hr. simpl. exists [], []. rewrite Hv, Hc. simpl.
  assert (Ha : after [] base) by (split; simpl; [lia|done]). rewrite Hb. split_and!; [done|by destruct base|].
  unfold view_phase. destruct (recompute_fields transition a1) as (_ & Hph & _). rewrite Hr in Hph. simpl in Hph. by rewrite Hph.
Qed.
End view.

Section views.
Context {State Event : Type} (transition : State → Event → option State).
Context {ST : Type} `{CustomStorageLaws State Event ST transition}.
Context (total : ∀ s x, is_Some (transition s x)).

(** The view never shows what is not in the log. However raises, confirms,
    conditional appends, failing writes and the writes of other activations
    interleave, the stored state is the fold of some log over what was stored at
    first, and the confirmed view and version are those of a prefix of that log;
    while no confirm loop writes or reads, the tentative view is the confirmed one
    with exactly the pending events on top. *)
Theorem view_is_prefix_of_log initial options (st : ST) ops :
  Forall undisturbed ops →
  let '(st', a, _) := run transition (activated transition initial options st) ops in
  ∃ log behind, after transition (readStateFromStorage st) (log ++ behind) (readStateFromStorage st') ∧
    after transition (readStateFromStorage st) log (confirmedVersion a, confirmedView a) ∧
    (confirmLoop a = None → folds transition (confirmedView a) (event <$> pending a) = Some (tentativeView a)).
Proof using Type*.
  intros Ho. pose proof (run_view transition total (readStateFromStorage st) ops
    (activated transition initial options st)
    (start_view transition total (readStateFromStorage st) initial options st eq_refl) Ho) as Hi.
  destruct (run transition (activated transition initial options st) ops) as [[st' a] tr].
  destruct Hi as (log & behind & Hst & Hl & Hp). exists log, behind. split_and!; [done..|]. intros Hn.
  unfold view_phase in Hp. by rewrite Hn in Hp.
Qed.

(** *** A confirm that nothing disturbs *)

Definition drain : list (@Op Event) :=
  [ServeWrite NoFault; WriteReturns; ServeRead false; ReadReturns; ServeWrite NoFault; WriteReturns; LoopFinally].

#[local] Arguments step : simpl never.
Implicit Types a : @Adaptor State Event.

(** The callers of the loop, and what does not change while it runs. *)
Definition callers a : list (nat * Caller) * list (nat * Reply) * nat * Z := (joined a, replies a, nextCaller a, maxAttempts a).

Lemma recompute_callers a : callers (recomputeTentative transition a).1 = callers a.
Proof. unfold recomputeTentative. by destruct (folds _ _ _). Qed.

Definition unconditional (l : list (PendingEntry Event)) : list (PendingEntry Event) := filter (λ e, conditionalPosition e = None) l.

(** Where the top of the loop leads. *)
Lemma loop_top_leads attempts a : let kept := (removeStaleConditionalUpdates a).1 in let a' := (loop_top transition attempts a).1 in
  pending a' = kept ∧ callers a' = callers a ∧ version a' = version a ∧
  confirmLoop a' = if decide (kept = []) then Some (Ended None) else Some (Writing kept (attempts + 1) (version a) None).
Proof using total.
  unfold loop_top, removeStaleConditionalUpdates. case_bool_decide as Hp; [by rewrite Hp|].
  destruct (removeStale (version a) 0 false (pending a)) as [kept gone]. simpl. case_bool_decide as Hk.
  - set (a1 := settle false gone (with_pending kept a)). pose proof (recompute_callers a1) as Hc.
    pose proof (recompute_fields transition a1) as (Hf1 & _ & _ & _ & Hf2 & _).
    destruct (recompute_total transition total a1) as (a2 & Hr & _). rewrite Hr in *. simpl in *.
    rewrite decide_True by done. by split_and!.
  - by rewrite decide_False.
Qed.

Lemma run_cons (st : ST) a o ops : (run transition (st, a) (o :: ops)).1 =
  (run transition (step transition (st, a) o).1 ops).1.
Proof. simpl. destruct (step transition (st, a) o) as [[st1 a1] evs]. simpl. by destruct (run transition (st1, a1) ops) as [[st2 a2] evs']. Qed.

Definition finished a a' : Prop := confirmLoop a' = Some (Ended None) ∧ pending a' = [] ∧ callers a' = callers a.

Lemma write_finishes a (st : ST) batch attempts ops : confirmLoop a = Some (Writing batch attempts (readStateFromStorage st).1 None) →
  pending a = batch → ∃ st' a', applyUpdatesToStorage (event <$> batch) (readStateFromStorage st).1 st = Some st' ∧ finished a a' ∧
    (run transition (st, a) (ServeWrite NoFault :: WriteReturns :: ops)).1 = (run transition (st', a') ops).1.
Proof using Type*.
  intros Hl Hp. destruct (apply_granted (event <$> batch) st) as (st' & Ha & _). exists st'. rewrite run_cons. unfold step at 1.
  rewrite Hl. unfold serve_write. rewrite Ha. cbn [fst]. rewrite run_cons. unfold step. cbn [confirmLoop with_loop]. unfold write_answered. cbn [pending with_loop]. rewrite Hp.
  set (a1 := with_pending _ _). destruct (advance_total transition total batch (version a1) (cached a1)) as (c & _ & ->).
  set (a2 := with_view _ _ _ _). destruct (recompute_total transition total a2) as (a3 & Hr & _ & _ & Hp3 & _).
  pose proof (recompute_callers a2) as Hc. rewrite Hr in *. simpl in Hc.
  assert (Hp4 : pending a3 = []) by (rewrite Hp3; simpl; apply drop_all).
  pose proof (loop_top_leads 0 (settle true batch a3)) as (H1 & H2 & _ & H4).
  unfold removeStaleConditionalUpdates in *. simpl in *. rewrite Hp4 in *. simpl in *.
  destruct (loop_top transition 0 (settle true batch a3)) as [a4 evs]. simpl in *. exists a4.
  split_and!; [done| |done]. split_and!; [done|done|]. etrans; [exact H2|exact Hc].
Qed.

Lemma finally_replies a a' (st : ST) : finished a a' → let '(st1, a1, _) := step transition (st, a') LoopFinally in
  st1 = st ∧ confirmLoop a1 = None ∧ pending a1 = [] ∧ joined a1 = [] ∧ replies a1 = replies a ++ (reply_of None <$> joined a).
Proof. intros (Hl & Hp & Hc). unfold step. rewrite Hl. injection Hc as -> -> _ _. by split_and!. Qed.

Lemma unconditional_all l : Forall (λ e, conditionalPosition e = None) l → unconditional l = l.
Proof. unfold unconditional. induction 1 as [|e l He Hl IH]; [done|]. by rewrite filter_cons_True, IH. Qed.

(** Moved away, the log leaves only what is unconditional. *)
Lemma removeStale_moved v v' l : in_place v l → v ≠ v' → (removeStale v' 0 false l).1 = unconditional l.
Proof.
  intros Hp Hv. destruct (removeStale_spec v' 0 l) as (l1 & l2 & -> & Hr & Hp' & _). rewrite Hr. simpl.
  unfold unconditional. rewrite filter_app. f_equal. symmetry. apply unconditional_all, Forall_forall.
  intros e [i Hi]%list_elem_of_lookup. destruct (conditionalPosition e) as [q|] eqn:Hq; [|done].
  pose proof (Hp' i e q Hi Hq). pose proof (Hp i e q (lookup_app_l_Some _ _ _ _ Hi) Hq). lia.
Qed.

Lemma unconditional_kept v l : unconditional (removeStale v 0 false l).1 = unconditional l.
Proof.
  destruct (removeStale_spec v 0 l) as (l1 & l2 & -> & -> & _). unfold unconditional. simpl. rewrite !filter_app. f_equal.
  apply unconditional_all. apply Forall_forall. by intros e [? _]%list_elem_of_filter.
Qed.

(** Steps that await nothing. *)
Lemma run_ended (st : ST) a error o ops : confirmLoop a = Some (Ended error) →
  match o with ServeWrite _ | WriteReturns | ServeRead _ | ReadReturns => True | _ => False end →
  (run transition (st, a) (o :: ops)).1 = (run transition (st, a) ops).1.
Proof. intros Hl Ho. rewrite run_cons. unfold step. rewrite Hl. by destruct o. Qed.

(** A write the log has moved away from, up to the top of the loop. *)
Lemma write_refused a (st : ST) batch v ops : confirmLoop a = Some (Writing batch 1 v None) →
  pending a = batch → (readStateFromStorage st).1 ≠ v → 2 <= maxAttempts a → ∃ a2,
    pending a2 = batch ∧ callers a2 = callers a ∧ version a2 = (readStateFromStorage st).1 ∧
    (run transition (st, a) (ServeWrite NoFault :: WriteReturns :: ServeRead false :: ReadReturns :: ops)).1 =
    (run transition (st, (loop_top transition 1 a2).1) ops).1.
Proof using Type*.
  intros Hl Hp Hv Hmax. rewrite run_cons. unfold step at 1. rewrite Hl. unfold serve_write. rewrite (apply_refused _ _ _ Hv).
  cbn [fst]. rewrite run_cons. unfold step at 1. cbn [confirmLoop with_loop]. unfold write_answered. cbn [maxAttempts with_loop].
  rewrite bool_decide_false by lia. cbn [fst]. rewrite run_cons. unfold step at 1. cbn [confirmLoop with_loop fst].
  rewrite run_cons. unfold step at 1. cbn [confirmLoop with_loop fst]. unfold read_answered, install.
  set (a1 := with_view _ _ _ _). destruct (recompute_total transition total a1) as (a2 & Hr & _ & _ & Hp2 & Hv2).
  pose proof (recompute_callers a1) as Hc. rewrite Hr in *. exists (settle true [] a2).
  split_and!; [by rewrite <- Hp|exact Hc|done|]. by destruct (loop_top transition 1 (settle true [] a2)).
Qed.

(** A confirm that nothing disturbs writes all there is to write. If the log
    is where the adaptor last saw it, one write takes the pending events, but for
    conditional ones that are out of place; if others have moved the log, a second
    write takes exactly the unconditional ones. Nothing stays pending, and the
    callers are answered. *)
Theorem confirm_completes (st : ST) a :
  confirmLoop a = None → 2 <= maxAttempts a →
  let '(st', a', _) := run transition (st, a) (OConfirm :: drain) in
  let writes := if decide (version a = (readStateFromStorage st).1) then (removeStaleConditionalUpdates a).1
                else unconditional (pending a) in
  st' = (if decide (writes = []) then st
         else default st (applyUpdatesToStorage (event <$> writes) (readStateFromStorage st).1 st)) ∧
  confirmLoop a' = None ∧ pending a' = [] ∧
  replies a' = replies a ++ (reply_of None <$> joined a) ++ [(nextCaller a, Confirmed)].
Proof using Type*.
  intros Hl Hmax. destruct (run transition (st, a) (OConfirm :: drain)) as [[st' a'] evs] eqn:Hrun.
  assert (Hr : (run transition (st, a) (OConfirm :: drain)).1 = (st', a')) by by rewrite Hrun. clear Hrun.
  rewrite run_cons in Hr. unfold step at 1, confirmSubmittedEntries in Hr.
  set (a0 := with_callers _ _ _ _) in Hr. change (confirmLoop a0) with (confirmLoop a) in Hr. rewrite Hl in Hr. pose proof (loop_top_leads 0 a0) as (Hp1 & Hc1 & Hv1 & Hl1).
  destruct (loop_top transition 0 a0) as [a1 evs1]. cbn [fst] in Hr, Hp1, Hc1, Hv1, Hl1.
  assert (Hend : ∀ st2 a2, finished a0 a2 → (run transition (st2, a2) [LoopFinally]).1 = (st', a') →
    st' = st2 ∧ confirmLoop a' = None ∧ pending a' = [] ∧ replies a' = replies a ++ (reply_of None <$> joined a) ++ [(nextCaller a, Confirmed)]).
  { intros st2 a2 Hf Hr2. rewrite run_cons in Hr2. pose proof (finally_replies a0 a2 st2 Hf) as Hfin.
    destruct (step transition (st2, a2) LoopFinally) as [[st3 a3] evs3]. simpl in Hr2. injection Hr2 as -> ->.
    destruct Hfin as (-> & ? & ? & _ & Hrep). split_and!; try done. rewrite Hrep. simpl. by rewrite fmap_app. }
  assert (Hdone : ∀ st2 a2 error, confirmLoop a2 = Some (Ended error) →
    (run transition (st2, a2) [ServeWrite NoFault; WriteReturns; LoopFinally]).1 = (run transition (st2, a2) [LoopFinally]).1).
  { intros st2 a2 error He. by do 2 rewrite (run_ended _ _ _ _ _ He) by done. }
  set (kept := (removeStaleConditionalUpdates a).1). change (removeStaleConditionalUpdates a0).1 with kept in *. unfold drain in Hr.
  assert (Hu : unconditional kept = unconditional (pending a)) by apply unconditional_kept.
  destruct (decide (kept = [])) as [Hk|Hk].
  { do 6 rewrite (run_ended _ _ _ _ _ Hl1) in Hr by done.
    destruct (Hend st a1 ltac:(split_and!; congruence) Hr) as (-> & Hrest). split; [|done].
    rewrite Hk in Hu. rewrite decide_True; [done|].
    destruct (decide (version a = _)); [done|by rewrite <- Hu]. }
  destruct (decide (version a = (readStateFromStorage st).1)) as [Hv|Hv].
  - change (version a0) with (version a) in Hl1. rewrite Hv in Hl1.
    destruct (write_finishes a1 st kept _ [ServeRead false; ReadReturns; ServeWrite NoFault; WriteReturns; LoopFinally] Hl1 Hp1)
      as (st2 & a2 & Ha & Hf & Heq). rewrite Heq in Hr. do 4 rewrite (run_ended _ _ _ _ _ (proj1 Hf)) in Hr by done.
    destruct (Hend st2 a2) as (-> & Hrest); [|done|]; [|split; [|done]]; [|by rewrite decide_False, Ha].
    destruct Hf as (? & ? & ?). split_and!; [done|done|congruence].
  - destruct (write_refused a1 st kept (version a) [ServeWrite NoFault; WriteReturns; LoopFinally] Hl1 Hp1)
      as (a2 & Hp2 & Hc2 & Hv2 & Heq); [congruence|injection Hc1 as _ _ _ ->; done|]. rewrite Heq in Hr.
    pose proof (loop_top_leads 1 a2) as (Hp3 & Hc3 & Hv3 & Hl3).
    assert (Hk2 : (removeStaleConditionalUpdates a2).1 = unconditional (pending a)).
    { unfold removeStaleConditionalUpdates. rewrite Hp2, Hv2, <- Hu.
      apply (removeStale_moved (version a)); [apply removeStale_in_place|congruence]. }
    rewrite Hk2, Hv2 in *. destruct (loop_top transition 1 a2) as [a3 evs3]. cbn [fst] in *.
    destruct (decide (unconditional (pending a) = [])) as [Hn|Hn].
    + rewrite (Hdone _ _ _ Hl3) in Hr. apply (Hend st a3); [|done]. split_and!; [done|congruence|congruence].
    + destruct (write_finishes a3 st _ _ [LoopFinally] Hl3 Hp3) as (st2 & a4 & Ha & Hf & Heq'). rewrite Heq' in Hr.
      destruct (Hend st2 a4) as (-> & Hrest); [|done|]; [|split; [by rewrite Ha|done]].
      destruct Hf as (? & ? & ?). split_and!; [done|done|congruence].
Qed.
End views.

(** ** Concrete executions

    A host that keeps a version and the sum of the events. *)
Module Runs.

Definition add (s x : Z) : option Z := Some (s + x).
Definition sum (s : Z) (xs : list Z) : Z := foldl Z.add s xs.

#[export] Instance host : CustomStorageInterface Z Z (Z * Z) := {
  readStateFromStorage st := st;
  applyUpdatesToStorage xs v st :=
    if bool_decide (st.1 = v) then Some (st.1 + Z.of_nat (length xs), sum st.2 xs) else None;
  clearStoredState _ := (0, 0) }.

Lemma folds_add s xs : folds add s xs = Some (sum s xs).
Proof. revert s. induction xs as [|x xs IH]; intros s; [done|]. apply IH. Qed.

#[export] Instance host_laws : CustomStorageLaws Z Z (Z * Z) add.
Proof.
  split; simpl.
  - intros xs v st Hv. by rewrite bool_decide_false.
  - intros xs st. rewrite bool_decide_true by done. eexists. split; [done|]. split; [done|]. simpl.
    intros s. rewrite folds_add. by intros [= <-].
Qed.

Definition begin : (Z * Z) * @Adaptor Z Z := activated add 0 None (0, 0).
Definition play (ops : list (@Op Z)) := run add begin ops.

(** An append that lands, an event raised while it is written, and an append that
    loses to another activation. *)
Definition race : list (@Op Z) :=
  [OTryAppend [5; 6]; OSubmit [1]; ServeWrite NoFault; WriteReturns; ServeWrite NoFault; WriteReturns; LoopFinally;
   OTryAppend [7]; Foreign [100] 3; ServeWrite NoFault; WriteReturns; ServeRead false; ReadReturns; LoopFinally].

Lemma conditional_append_outcome_witness :
  orderly_run add begin race ∧ outcomes (play race).1.2 !! 0%nat = Some true ∧ outcomes (play race).1.2 !! 1%nat = Some false ∧
  (play race).1.1 = (4, 112) ∧
  let '(_, a, tr) := play race in
  raised tr ≡ₚ landed tr ++ dropped tr ++ unwritten (pending a) (confirmLoop a) ∧
  ∀ r e, e ∈ raised tr → resolve e = Some r →
    match outcomes a !! r with
    | Some true => ∃ q, conditionalPosition e = Some q ∧ ELanded e q ∈ tr
    | Some false => (e ∉ landed tr) ∧ e ∉ unwritten (pending a) (confirmLoop a)
    | None => True
    end.
Proof.
  split; [by vm_compute|]. split; [by vm_compute|]. split; [by vm_compute|]. split; [by vm_compute|].
  apply (conditional_append_outcome add 0 None (0, 0) race). by vm_compute.
Defined.

Lemma view_is_prefix_of_log_witness :
  (play (take 9 race)).1.1 = (4, 112) ∧ confirmedVersion (play (take 9 race)).1.2 = 3 ∧
  let '(st', a, _) := play (take 9 race) in
  ∃ log behind, after add (0, 0) (log ++ behind) st' ∧
    after add (0, 0) log (confirmedVersion a, confirmedView a) ∧
    (confirmLoop a = None → folds add (confirmedView a) (event <$> pending a) = Some (tentativeView a)).
Proof.
  split; [by vm_compute|]. split; [by vm_compute|].
  apply (view_is_prefix_of_log add ltac:(intros s x; by eexists) 0 None (0, 0) (take 9 race)). by repeat constructor.
Defined.

(** The log has moved, and there is something to write in spite of that. *)
Definition behind_log : (Z * Z) * @Adaptor Z Z :=
  (play (race ++ [OSubmit [2]; Foreign [100] 4])).1.
Lemma confirm_completes_witness :
  unconditional (pending behind_log.2) = [mkEntry 2 None None] ∧ behind_log.1 = (5, 212) ∧
  confirmLoop behind_log.2 = None ∧ 2 <= maxAttempts behind_log.2 ∧
  let '(st', a', _) := run add (behind_log.1, behind_log.2) (OConfirm :: drain) in
  let writes := if decide (version behind_log.2 = (readStateFromStorage behind_log.1).1)
                then (removeStaleConditionalUpdates behind_log.2).1 else unconditional (pending behind_log.2) in
  st' = (if decide (writes = []) then behind_log.1
         else default behind_log.1 (applyUpdatesToStorage (event <$> writes) (readStateFromStorage behind_log.1).1 behind_log.1)) ∧
  confirmLoop a' = None ∧ pending a' = [] ∧
  replies a' = replies behind_log.2 ++ (reply_of None <$> joined behind_log.2) ++ [(nextCaller behind_log.2, Confirmed)].
Proof.
  split; [by vm_compute|]. split; [by vm_compute|]. assert (Hl : confirmLoop behind_log.2 = None) by by vm_compute.
  assert (Hm : 2 <= maxAttempts behind_log.2) by by vm_compute. split; [exact Hl|]. split; [exact Hm|].
  pose proof (confirm_completes add (λ s x, ex_intro _ _ eq_refl) behind_log.1 behind_log.2 Hl Hm) as Hc. exact Hc.
Defined.

(** A write that takes effect and then throws: the conditional append is told
    that it failed, and its event is in the log. *)
Lemma landed_append_reported_false :
  let '(st, a, _) := play [OTryAppend [5]; ServeWrite FailAfter; WriteReturns; ServeRead false; ReadReturns; LoopFinally] in
  outcomes a !! 0%nat = Some false ∧ st = (1, 5).
Proof. by vm_compute. Qed.

(** A read that fails in the loop rejects the append, and leaves it in the queue:
    the next confirm writes it. *)
Lemma rejected_append_lands_later :
  let '(st, a, _) := play [OTryAppend [5]; ServeWrite FailBefore; WriteReturns; ServeRead true; ReadReturns; LoopFinally;
                           OConfirm; ServeWrite NoFault] in
  replies a = [(0%nat, Rejected ReadFailed)] ∧ st = (1, 5).
Proof. by vm_compute. Qed.

(** A log cleared during a write: the append is told it failed and lands all the
    same, and the event raised after the clear is removed from the queue in its
    place. *)
Lemma clear_during_write :
  let '(st, a, _) := play [OTryAppend [5]; OClear NoFault; OSubmit [7]; ServeWrite NoFault; WriteReturns; LoopFinally] in
  outcomes a !! 0%nat = Some false ∧ st = (1, 5) ∧ pending a = [].
Proof. by vm_compute. Qed.

(** A confirm between the end of a loop and its [finally] joins a loop that will
    not run again: it is told that all is confirmed, and its event is not. *)
Lemma confirm_joins_ended_loop :
  let '(st, a, _) := play [OConfirm; OSubmit [5]; OConfirm; LoopFinally] in
  replies a = [(0%nat, Confirmed); (1%nat, Confirmed)] ∧ st = (0, 0) ∧ event <$> pending a = [5] ∧ confirmLoop a = None.
Proof. by vm_compute. Qed.
End Runs.
