(* ===== verification/JournaledGrain.v ===== *)
(** * Event-sourced grains over the journal

    Models [packages/journaling/src/log-view-adaptor-impl.ts] (LogViewAdaptorImpl)
    as a machine of [Journal]: events and states are values, and what the adaptor
    writes are frames of the grain's log. The initial state and the transition
    function are the grain's. The methods of [JournaledGrain] each call the method
    of the adaptor of the same meaning.

    A method runs up to its next await; an append of the manager, and a replay, is
    one step, between the step that asks for it and the one that goes on after it.
    Events are objects: equality of events is that of their references. *)
From Stdlib Require Import String.
From stdpp Require Import prelude gmap strings list.
From S2P Require Import Prelude JsMap Ids ValueCodec Durable Journal.
Open Scope Z_scope.

Record Ref := mkRef { ref : nat; val : value }.

(** ** The views, a machine of the journal *)

Record LogView := mkView {
  confirmed : value;
  tentative : value;
  confirmedEvents : list value;
  lv_version : Z;
  pending : list Ref;
  (** The pending events and the ones being appended. *)
  unconfirmedCount : Z }.

Section adaptor.
Context (initial : value) (transition : value → value → value).

Definition fold_pending (s : value) (l : list Ref) : value := foldl (λ s r, transition s (val r)) s l.
Definition recompute (m : LogView) : LogView :=
  mkView (confirmed m) (fold_pending (confirmed m) (pending m)) (confirmedEvents m) (lv_version m) (pending m) (unconfirmedCount m).
Definition with_pending (l : list Ref) (n : Z) (m : LogView) : LogView :=
  mkView (confirmed m) (tentative m) (confirmedEvents m) (lv_version m) l n.

Definition fresh_view : LogView := mkView initial initial [] 0 [] 0.

Definition event_frame (e : value) : value := op "event" [("e", e)].
Definition lv_snapshot (m : LogView) : value := op "snap" [("s", confirmed m); ("v", Num (NInt (lv_version m)))].
(** [frame.v ?? 0] *)
Definition frame_version (v : value) : Z := match v with Num (NInt z) => z | _ => 0 end.
Definition lv_apply (frame : value) (m : LogView) : LogView :=
  recompute
    (if op_is "event" frame then
       mkView (transition (confirmed m) (member "e" frame)) (tentative m) (confirmedEvents m ++ [member "e" frame])
         (lv_version m + 1) (pending m) (unconfirmedCount m)
     else
       mkView (member "s" frame) (tentative m) [] (frame_version (member "v" frame)) (pending m) (unconfirmedCount m)).

#[local] Instance view_machine : DurableStateMachine LogView := {
  reset _ := fresh_view;
  apply := lv_apply;
  snapshot := lv_snapshot }.
(** Views alike for whoever reads the log: the events kept since the last
    snapshot and the pending ones are not in it. *)
#[local] Instance view_equiv : Equiv LogView := λ m m', confirmed m = confirmed m' ∧ lv_version m = lv_version m'.

Definition submit (e : Ref) (m : LogView) : LogView :=
  mkView (confirmed m) (transition (tentative m) (val e)) (confirmedEvents m) (lv_version m) (pending m ++ [e]) (unconfirmedCount m + 1).
Definition submitRange (es : list Ref) (m : LogView) : LogView := foldl (λ m e, submit e m) m es.

(** Without the last event of that reference, if there is one. *)
Fixpoint remove_last (r : nat) (l : list Ref) : option (list Ref) :=
  match l with
  | [] => None
  | x :: l =>
      match remove_last r l with
      | Some l' => Some (x :: l')
      | None => if bool_decide (ref x = r) then Some l else None
      end
  end.
Definition withdraw_one (m : LogView) (e : Ref) : LogView :=
  match remove_last (ref e) (pending m) with
  | Some l => with_pending l (unconfirmedCount m - 1) m
  | None => m
  end.
Definition withdraw (es : list Ref) (m : LogView) : LogView := recompute (foldl withdraw_one m es).

(** None when it throws. *)
Definition retrieveLogSegment (fromVersion toVersion : Z) (m : LogView) : option (list value) :=
  let baseVersion := lv_version m - Z.of_nat (length (confirmedEvents m)) in
  if bool_decide (fromVersion < baseVersion ∨ toVersion < fromVersion ∨ lv_version m < toVersion) then None
  else Some (take (Z.to_nat (toVersion - fromVersion)) (drop (Z.to_nat (fromVersion - baseVersion)) (confirmedEvents m))).

(** ** The adaptor at work *)

Context {ST : Type} `{JournalStorage ST}.
Context (logName : string) (grainId : GrainId).

Inductive Phase :=
  | Appending (batch : list Ref)
  | Answered (batch : list Ref) (error : option JournalError)
  | Ended (error : option JournalError).
Inductive Caller := CConfirm | CTry (events : list Ref) (landsAt attempt : Z).
Inductive Reply := RConfirmed | RAppended (b : bool) | RRejected (e : JournalError).

Record Grain := mkGrainState {
  store : ST;
  mgr : @Manager LogView;
  confirmLoop : option Phase;
  joined : list (nat * Caller);
  (** Callers of [tryAppendRange] in [resync], with the error they caught. *)
  resyncing : list (nat * Caller * JournalError);
  replies : list (nat * Reply);
  nextCaller : nat }.

Definition name : string := "journal".
Definition view (s : Grain) : LogView := default fresh_view (jm_get name (machines (mgr s))).
Definition put_view (m : LogView) (g : @Manager LogView) : @Manager LogView := set_machines (jm_set name m) g.
Definition with_store (st : ST) (g : @Manager LogView) (s : Grain) : Grain :=
  mkGrainState st g (confirmLoop s) (joined s) (resyncing s) (replies s) (nextCaller s).
Definition with_view (f : LogView → LogView) (s : Grain) : Grain := with_store (store s) (put_view (f (view s)) (mgr s)) s.
Definition with_loop (p : option Phase) (s : Grain) : Grain :=
  mkGrainState (store s) (mgr s) p (joined s) (resyncing s) (replies s) (nextCaller s).
Definition with_callers (js : list (nat * Caller)) (rs : list (nat * Caller * JournalError)) (ps : list (nat * Reply)) (n : nat)
    (s : Grain) : Grain := mkGrainState (store s) (mgr s) (confirmLoop s) js rs ps n.
Definition reply (id : nat) (r : Reply) (s : Grain) : Grain :=
  with_callers (joined s) (resyncing s) (replies s ++ [(id, r)]) (nextCaller s) s.

(** To the next await of the loop, or its end. *)
Definition loop_top (s : Grain) : Grain :=
  let batch := pending (view s) in
  if bool_decide (batch = []) then with_loop (Some (Ended None)) s
  else with_loop (Some (Appending batch)) (with_view (λ m, with_pending [] (unconfirmedCount m) m) s).

Definition confirmSubmittedEntries (id : nat) (c : Caller) (s : Grain) : Grain :=
  let s := with_callers (joined s ++ [(id, c)]) (resyncing s) (replies s) (nextCaller s) s in
  match confirmLoop s with None => loop_top s | Some _ => s end.

Definition append_returned (batch : list Ref) (error : option JournalError) (s : Grain) : Grain :=
  let n := Z.of_nat (length batch) in
  match error with
  | None => loop_top (with_view (λ m, with_pending (pending m) (unconfirmedCount m - n) m) s)
  | Some InconsistentState =>
      with_loop (Some (Ended error)) (with_view (λ m, recompute (with_pending (pending m) (unconfirmedCount m - n) m)) s)
  | Some _ => with_loop (Some (Ended error)) (with_view (λ m, with_pending (batch ++ pending m) (unconfirmedCount m) m) s)
  end.

Definition tryAppendRange (es : list Ref) (s : Grain) : Grain :=
  let id := nextCaller s in
  let s := with_callers (joined s) (resyncing s) (replies s) (S id) s in
  if bool_decide (es = []) then reply id (RAppended true) s
  else
    let s := with_view (submitRange es) s in
    confirmSubmittedEntries id (CTry es (lv_version (view s) + Z.of_nat (length (pending (view s)))) 1) s.

(** A caller whose loop has ended. *)
Definition loop_answers (error : option JournalError) (s : Grain) (c : nat * Caller) : Grain :=
  match c.2, error with
  | CConfirm, None => reply c.1 RConfirmed s
  | CConfirm, Some e => reply c.1 (RRejected e) s
  | CTry _ _ _, None => reply c.1 (RAppended true) s
  | CTry _ _ _, Some InconsistentState => reply c.1 (RAppended false) s
  | CTry _ _ _, Some e => with_callers (joined s) (resyncing s ++ [(c, e)]) (replies s) (nextCaller s) s
  end.

Definition MAX_APPEND_ATTEMPTS : Z := 5.

(** [resync]: false when it throws. *)
Definition resync (fails : bool) (s : Grain) : Grain * bool :=
  if fails then (s, false)
  else
    let kept := pending (view s) in
    let '(g, error) := replay logName grainId (store s) (mgr s) in
    let s := with_store (store s) g s in
    match error with
    | Some _ => (s, false)
    | None => (with_view (λ m, recompute (with_pending kept (Z.of_nat (length kept)) m)) s, true)
    end.

(** The rest of an attempt of [tryAppendRange] that caught an error. *)
Definition after_error (fails : bool) (id : nat) (c : Caller) (error : JournalError) (s : Grain) : Grain :=
  match c with
  | CConfirm => s
  | CTry es landsAt attempt =>
      let '(s, ok) := resync fails s in
      if negb ok then reply id (RRejected error) (with_view (withdraw es) s)
      else if bool_decide (landsAt <= lv_version (view s)) then reply id (RAppended true) (with_view (withdraw es) s)
      else if bool_decide (MAX_APPEND_ATTEMPTS <= attempt) then reply id (RAppended false) (with_view (withdraw es) s)
      else confirmSubmittedEntries id (CTry es landsAt (attempt + 1)) s
  end.

Inductive Op :=
  | OSubmit (es : list Ref)
  | OTryAppend (es : list Ref)
  | OConfirm
  | ServeAppend (fault fault' : Fault)
  | AppendReturns
  | LoopFinally
  | Resync (i : nat) (fails : bool)
  | OClearLog (fault : Fault)
  | OForeign (frames : list Frame) (expected : option Z).

Definition gstep (s : Grain) (o : Op) : Grain :=
  match o with
  | OSubmit es => with_view (submitRange es) s
  | OTryAppend es => tryAppendRange es s
  | OConfirm =>
      confirmSubmittedEntries (nextCaller s) CConfirm (with_callers (joined s) (resyncing s) (replies s) (S (nextCaller s)) s)
  | ServeAppend f f' =>
      match confirmLoop s with
      | Some (Appending batch) =>
          let '(st, g, error) := appendRange logName grainId name ((λ e, event_frame (val e)) <$> batch) f f' (store s) (mgr s) in
          with_loop (Some (Answered batch error)) (with_store st g s)
      | _ => s
      end
  | AppendReturns =>
      match confirmLoop s with
      | Some (Answered batch error) => append_returned batch error s
      | _ => s
      end
  | LoopFinally =>
      match confirmLoop s with
      | Some (Ended error) =>
          foldl (loop_answers error) (with_callers [] (resyncing s) (replies s) (nextCaller s) (with_loop None s)) (joined s)
      | _ => s
      end
  | Resync i fails =>
      match resyncing s !! i with
      | Some (id, c, error) =>
          after_error fails id c error (with_callers (joined s) (delete i (resyncing s)) (replies s) (nextCaller s) s)
      | None => s
      end
  | OClearLog f =>
      let '(st, g, _) := clear logName grainId f (store s) (mgr s) in with_store st g s
  | OForeign frames v =>
      with_store (foreign (λ es, js_append logName grainId es v (store s)) frames (store s)) (mgr s) s
  end.
Definition grun (s : Grain) (ops : list Op) : Grain := foldl gstep s ops.

(** [bindJournaledGrain]: the adaptor is registered, and the log replayed. *)
Definition bound (threshold : option Z) (st : ST) : Grain * option JournalError :=
  let '(g, error) := activate logName grainId (λ _, fresh_view) threshold None [name] st in
  (mkGrainState st g None [] [] [] 0, error).
End adaptor.

(** ** The laws of the machine *)

Section laws.
Context (initial : value) (transition : value → value → value).
Context (Hinitial : carried initial) (Htransition : ∀ s e, carried s → carried e → carried (transition s e)).
Abbreviation machine := (view_machine initial transition).
#[local] Existing Instance view_machine.
#[local] Existing Instance view_equiv.

Definition lv_accepts (p : value) : Prop :=
  carried p ∧ (if op_is "event" p then carried (member "e" p) else carried (member "s" p)).
Definition lv_consistent (m : LogView) : Prop := carried (confirmed m).

Lemma carried_int z : carried (Num (NInt z)).
Proof. by split_and!. Qed.

Lemma event_accepted e : carried e → lv_accepts (event_frame e).
Proof. intros He. split; [|done]. apply carried_op; [done|]. by apply Forall_singleton. Qed.

#[export] Instance view_laws : @DurableStateMachineLaws LogView machine view_equiv.
Proof using Hinitial Htransition.
  apply (Build_DurableStateMachineLaws _ _ _ lv_accepts lv_consistent); try done.
  - split; [by intros m|by intros m m' []|]. intros m m' m'' [H1 H2] [H3 H4]. split; congruence.
  - intros p _ <- m m' [Hc Hv]. simpl. unfold lv_apply. destruct (op_is "event" p); split; simpl; congruence.
  - by intros p [? _].
  - intros p m [Hp Hm] Hc. unfold lv_consistent in *. simpl. unfold lv_apply. destruct (op_is "event" p); simpl; [by apply Htransition|done].
  - intros m Hc. split; [|done]. split; [|exact Hc]. apply carried_op; [done|].
    apply Forall_cons_2; [by split|]. apply Forall_singleton. split; [done|apply carried_int].
Defined.
End laws.

(** ** Executions *)

Section executions.
Context (initial : value) (transition : value → value → value).
Context (Hinitial : carried initial) (Htransition : ∀ s e, carried s → carried e → carried (transition s e)).
Context {ST : Type} `{JournalStorageLaws ST}.
Context (logName : string) (grainId : GrainId).
#[local] Instance its_machine : DurableStateMachine LogView := view_machine initial transition.
#[local] Instance its_equiv : Equiv LogView := view_equiv.
#[local] Instance its_laws : DurableStateMachineLaws LogView := view_laws initial transition Hinitial Htransition.
Abbreviation fresh := (λ _ : string, fresh_view initial).
Abbreviation the_log st := (js_read logName grainId st).
Abbreviation JInv := (Journal.Inv (ST := ST) logName grainId fresh).
Abbreviation step := (gstep initial transition logName grainId).
Abbreviation the_view := (view initial).
Implicit Types s : @Grain ST.

Lemma fresh_reset (n : string) : reset (fresh n) = fresh n.
Proof. done. Qed.

Definition payload (e : Ref) : value := event_frame (val e).
Definition carried_events (l : list Ref) : Prop := Forall (λ e, carried (val e)) l.

Lemma payloads_accepted l : carried_events l → Forall accepts (payload <$> l).
Proof. intros Hl. apply Forall_fmap. eapply Forall_impl; [exact Hl|]. intros e He.
  exact (event_accepted (val e) He). Qed.

(** The views of an activation, before and after a change that the log does not
    see. *)
Lemma Inv_same_view st g fs m m' : JInv st g fs → jm_get name (machines g) = Some m → m' ≡ m → carried (confirmed m') →
  JInv st (put_view m' g) fs.
Proof using Type*.
  intros [H1 H2 [Hm Hc Hr Ho] H4 H5] Hname He Hcar. split; try done.
  - split; simpl; [by apply jm_ok_set| |done|].
    + intros n m0. rewrite jm_get_set. case_decide; [intros [= <-]; by split|apply Hc].
    + intros n r Hn. destruct (Ho n r Hn) as [Hn' ?]. split; [|done]. rewrite jm_get_set. case_decide as Hd; [|done].
      subst n. unfold name in *. congruence.
  - intros Hv n. specialize (H5 Hv n). unfold machine_matches in *. simpl. rewrite jm_get_set. case_decide as Hd; [|done].
    subst n. rewrite Hname in H5. by rewrite He.
Qed.

Definition phase_carried (p : option Phase) : Prop :=
  match p with Some (Appending batch) | Some (Answered batch _) => batch ≠ [] ∧ carried_events batch | _ => True end.

Record GInv s (fs : list Frame) : Prop := {
  gi_journal : JInv (store s) (mgr s) fs;
  gi_view : is_Some (jm_get name (machines (mgr s)));
  gi_pending : carried_events (pending (the_view s));
  gi_loop : phase_carried (confirmLoop s) }.

Lemma view_with_view f s : the_view (with_view initial f s) = f (the_view s).
Proof. unfold view, with_view, put_view. simpl. by rewrite jm_get_set_eq. Qed.

Definition log_blind (f : LogView → LogView) : Prop :=
  ∀ m, confirmed (f m) = confirmed m ∧ lv_version (f m) = lv_version m.

Lemma with_view_journal f s fs : JInv (store s) (mgr s) fs → is_Some (jm_get name (machines (mgr s))) →
  phase_carried (confirmLoop s) → log_blind f → carried_events (pending (f (the_view s))) → GInv (with_view initial f s) fs.
Proof using Type*.
  intros Hj [m Hm] Hl Hf Hc. destruct (Hf m) as [Hf1 Hf2].
  assert (Hv : the_view s = m) by (unfold view; by rewrite Hm). split; [| |by rewrite view_with_view|done].
  - unfold with_view. rewrite Hv. simpl. eapply Inv_same_view; [done|exact Hm|by split|]. rewrite Hf1.
    destruct Hj as [_ _ [_ Hcon _ _] _ _]. by apply (Hcon name m).
  - unfold with_view, put_view. simpl. rewrite jm_get_set_eq. by eexists.
Qed.

Lemma with_view_inv f s fs : GInv s fs → log_blind f → carried_events (pending (f (the_view s))) →
  GInv (with_view initial f s) fs.
Proof using Type*. intros [] ? ?. by apply with_view_journal. Qed.

Lemma blind_submitRange es : log_blind (submitRange transition es).
Proof. unfold log_blind. induction es as [|e es IH]; intros m; [done|]. apply (IH (submit transition e m)). Qed.
Lemma submitRange_pending es m : pending (submitRange transition es m) = pending m ++ es.
Proof.
  revert m. induction es as [|e es IH]; intros m; simpl; [by rewrite app_nil_r|]. rewrite IH. simpl. by rewrite <- (assoc_L (++)).
Qed.

Lemma remove_last_sub r l l' : remove_last r l = Some l' → ∃ l1 x l2, l = l1 ++ x :: l2 ∧ l' = l1 ++ l2 ∧ ref x = r.
Proof.
  revert l'. induction l as [|x l IH]; intros l'; simpl; [done|]. destruct (remove_last r l) as [l0|].
  - intros [= <-]. destruct (IH l0 eq_refl) as (l1 & y & l2 & -> & -> & Hy). by exists (x :: l1), y, l2.
  - case_bool_decide; [|done]. intros [= <-]. by exists [], x, l.
Qed.

Lemma withdraw_one_sub e m : confirmed (withdraw_one m e) = confirmed m ∧ lv_version (withdraw_one m e) = lv_version m ∧
  ∀ P, Forall P (pending m) → Forall P (pending (withdraw_one m e)).
Proof.
  unfold withdraw_one. destruct (remove_last (ref e) (pending m)) as [l|] eqn:Hl; [|done]. split_and!; [done..|].
  intros P HP. simpl. destruct (remove_last_sub _ _ _ Hl) as (l1 & x & l2 & Heq & -> & _). rewrite Heq in HP.
  apply Forall_app in HP as [H1 H2]. apply Forall_cons in H2 as [_ H2]. by apply Forall_app_2.
Qed.

Lemma withdraw_sub es m : confirmed (withdraw transition es m) = confirmed m ∧ lv_version (withdraw transition es m) = lv_version m ∧
  ∀ P, Forall P (pending m) → Forall P (pending (withdraw transition es m)).
Proof.
  unfold withdraw. simpl. revert m. induction es as [|e es IH]; intros m; [done|]. simpl.
  destruct (IH (withdraw_one m e)) as (H1 & H2 & H3). destruct (withdraw_one_sub e m) as (H4 & H5 & H6).
  split_and!; [congruence..|auto].
Qed.

Lemma withdraw_inv es s fs : GInv s fs → GInv (with_view initial (withdraw transition es) s) fs.
Proof using Type*.
  intros Hi. apply with_view_inv; [done| |].
  - intros m. by destruct (withdraw_sub es m) as (? & ? & _).
  - destruct (withdraw_sub es (the_view s)) as (_ & _ & Hp). apply Hp, Hi.
Qed.

(** Changes of the fields beside the journal. *)
Lemma aside_inv s s' fs : GInv s fs → store s' = store s → mgr s' = mgr s → phase_carried (confirmLoop s') → GInv s' fs.
Proof. intros [] H1 H2 H3. split; unfold view in *; by rewrite ?H1, ?H2. Qed.

Lemma reply_inv id r s fs : GInv s fs → GInv (reply id r s) fs.
Proof. intros Hi. by eapply aside_inv; [..|apply Hi]. Qed.

Lemma grain_loop_top_inv s fs : GInv s fs → GInv (loop_top initial s) fs.
Proof using Type*.
  intros Hi. unfold loop_top. case_bool_decide as Hp; [by eapply aside_inv|].
  eapply aside_inv; [by apply (with_view_inv (λ m, with_pending [] (unconfirmedCount m) m) s fs); [|intros m|constructor]|done|done|].
  split; [done|]. apply Hi.
Qed.

Lemma grain_confirm_inv id c s fs : GInv s fs → GInv (confirmSubmittedEntries initial id c s) fs.
Proof using Type*.
  intros Hi. unfold confirmSubmittedEntries. set (s1 := with_callers _ _ _ _ _).
  assert (Hi1 : GInv s1 fs) by (by eapply aside_inv; [..|apply Hi]). destruct (confirmLoop s1); [done|]. by apply grain_loop_top_inv.
Qed.

Lemma append_returned_inv batch error s fs : GInv s fs → confirmLoop s = Some (Answered batch error) →
  GInv (append_returned initial transition batch error s) fs.
Proof using Type*.
  intros Hi Hl. pose proof (gi_loop _ _ Hi) as Hb. rewrite Hl in Hb. destruct Hb as [Hne Hb]. unfold append_returned.
  assert (Hkeep : ∀ e, GInv (with_loop (Some (Ended e)) (with_view initial (λ m, with_pending (batch ++ pending m) (unconfirmedCount m) m) s)) fs).
  { intros e. eapply aside_inv; [apply (with_view_inv (λ m, with_pending (batch ++ pending m) (unconfirmedCount m) m) s fs Hi); [by intros m|]|done..].
    simpl. apply Forall_app_2; [done|apply Hi]. }
  destruct error as [[]|]; try apply Hkeep.
  - eapply aside_inv; [apply (with_view_inv (λ m, recompute transition (with_pending (pending m) (unconfirmedCount m - Z.of_nat (length batch)) m)) s fs Hi); [by intros m|apply Hi]|done..].
  - apply grain_loop_top_inv. apply with_view_inv; [done|by intros m|apply Hi].
Qed.

Lemma resync_inv fails s fs : GInv s fs → let '(s', ok) := resync initial transition logName grainId fails s in
  GInv s' fs ∧ ok = negb fails ∧ (fails = true → s' = s) ∧
  (fails = false → Journal.version (mgr s') = seg_version (the_log (store s'))) ∧ pending (the_view s') = pending (the_view s) ∧
  store s' = store s ∧ confirmLoop s' = confirmLoop s ∧ joined s' = joined s ∧ resyncing s' = resyncing s ∧ replies s' = replies s.
Proof using Type*.
  intros Hi. unfold resync. destruct fails; [by split_and!|]. pose proof (gi_journal _ _ Hi) as Hj.
  destruct (replay_spec logName grainId fresh fresh_reset (store s) (mgr s) fs) as (He & Hi' & Hv & Hn);
    [apply Hj..|by intros n m _|].
  destruct (replay logName grainId (store s) (mgr s)) as [g error]. simpl in *. subst error.
  set (kept := pending (the_view s)). set (s1 := with_store _ _ _).
  set (f := λ m, recompute transition (with_pending kept (Z.of_nat (length kept)) m)).
  split_and!; try done.
  - apply with_view_journal; [done|by apply Hn, Hi|apply Hi|by intros m|apply Hi].
  - by rewrite view_with_view.
Qed.

Lemma loop_answers_inv error c s fs : GInv s fs → GInv (loop_answers error s c) fs.
Proof.
  intros Hi. unfold loop_answers. destruct c.2, error as [[]|]; try by apply reply_inv. all: by eapply aside_inv; [..|apply Hi].
Qed.

Lemma after_error_inv fails id c error s fs : GInv s fs →
  GInv (after_error initial transition logName grainId fails id c error s) fs.
Proof using Type*.
  intros Hi. destruct c as [|es at_ k]; [done|]. simpl. pose proof (resync_inv fails s fs Hi) as Hr.
  destruct (resync initial transition logName grainId fails s) as [s' ok]. destruct Hr as (Hi' & _).
  destruct ok; simpl; [|by apply reply_inv, withdraw_inv].
  case_bool_decide; [by apply reply_inv, withdraw_inv|]. case_bool_decide; [by apply reply_inv, withdraw_inv|by apply grain_confirm_inv].
Qed.

Lemma grain_submitRange_inv es s fs : GInv s fs → carried_events es → GInv (with_view initial (submitRange transition es) s) fs.
Proof using Type*.
  intros Hi He. apply with_view_inv; [done|apply blind_submitRange|]. rewrite submitRange_pending. apply Forall_app_2; [apply Hi|done].
Qed.

(** Events raised are of the kinds a log carries, frames of others are those of
    such a grain, and no deletion of the log fails after it took effect. *)
Definition grain_op_ok (o : Op) : Prop :=
  match o with
  | OSubmit es | OTryAppend es => carried_events es
  | OClearLog f => f ≠ FailAfter
  | OForeign frames _ => Forall frame_ok frames ∧ Forall (λ f, is_vessel f = false) frames
  | _ => True
  end.

Lemma serve_append_inv batch f f' s fs : GInv s fs → confirmLoop s = Some (Appending batch) →
  ∃ fs', GInv (step s (ServeAppend f f')) fs'.
Proof using Type*.
  intros Hi Hl. unfold gstep. rewrite Hl. pose proof (gi_loop _ _ Hi) as Hb. rewrite Hl in Hb. destruct Hb as [Hne Hb].
  pose proof (appendRange_inv logName grainId fresh fresh_reset name (payload <$> batch) f f' (store s) (mgr s) fs
    (gi_journal _ _ Hi) (payloads_accepted _ Hb) ltac:(by destruct batch)) as Ha. fold payload.
  change (λ e, event_frame (val e)) with payload.
  destruct (appendRange logName grainId name (payload <$> batch) f f' (store s) (mgr s)) as [[st g] error].
  destruct Ha as (fs' & Hj & Hcase). exists fs'. destruct error as [e|].
  - destruct Hcase as [-> _]. split; [done|apply Hi|apply Hi|by split].
  - destruct Hcase as (m & g1 & Hm & _ & Hg1 & _ & _ & Hg & _). split; [done| | |by split]; unfold view; simpl; rewrite Hg, Hg1, jm_get_set_eq.
    + by eexists.
    + simpl. assert (Hp : pending (apply_all (payload <$> batch) m) = pending m).
      { clear. generalize m. induction batch as [|e l IH]; intros m0; [done|]. simpl. by rewrite IH. }
      rewrite Hp. pose proof (gi_pending _ _ Hi) as Hpe. unfold view in Hpe. by rewrite Hm in Hpe.
Qed.

Lemma gstep_inv o s fs : GInv s fs → grain_op_ok o → ∃ fs', GInv (step s o) fs'.
Proof using Type*.
  intros Hi Ho. destruct o as [es|es| |f f'| | |i fails|f|frames v].
  - exists fs. by apply grain_submitRange_inv.
  - exists fs. simpl. unfold tryAppendRange. set (s1 := with_callers _ _ _ _ _).
    assert (Hi1 : GInv s1 fs) by (by eapply aside_inv; [..|apply Hi]). case_bool_decide; [by apply reply_inv|].
    by apply grain_confirm_inv, grain_submitRange_inv.
  - exists fs. apply grain_confirm_inv. by eapply aside_inv; [..|apply Hi].
  - destruct (confirmLoop s) as [[batch| |]|] eqn:Hl; [by eapply serve_append_inv|..]; exists fs; simpl; by rewrite Hl.
  - exists fs. simpl. destruct (confirmLoop s) as [[|batch error|]|] eqn:Hl; try done. by apply append_returned_inv.
  - exists fs. simpl. destruct (confirmLoop s) as [[| |error]|] eqn:Hl; try done.
    set (s1 := with_callers _ _ _ _ _). assert (Hi1 : GInv s1 fs) by (by eapply aside_inv; [apply Hi|..]).
    clearbody s1. generalize (joined s). intros l. revert s1 Hi1. induction l as [|c l IH]; intros s1 Hi1; [done|]. simpl.
    by apply IH, loop_answers_inv.
  - exists fs. simpl. destruct (resyncing s !! i) as [[[id c] error]|]; [|done]. apply after_error_inv. by eapply aside_inv; [..|apply Hi].
  - simpl in *. pose proof (clear_inv logName grainId fresh fresh_reset f (store s) (mgr s) fs (gi_journal _ _ Hi) Ho) as Hc.
    destruct (gi_view _ _ Hi) as [m Hm].
    destruct f; [|exists fs; by eapply aside_inv; [..|apply Hi]|done]. simpl in *. exists []. split; [done| | |apply Hi]; unfold view; simpl;
      rewrite jm_get_fmap, Hm; [by eexists|constructor].
  - simpl in *. destruct Ho as [Hok Hv].
    destruct (jstep_inv logName grainId fresh fresh_reset (store s, mgr s) (OForeignAppend frames v) fs (gi_journal _ _ Hi)) as [fs' Hj]; [by split|].
    exists fs'. split; [done|apply Hi..].
Qed.

Lemma grun_inv ops : ∀ s fs, GInv s fs → Forall grain_op_ok ops → ∃ fs', GInv (grun initial transition logName grainId s ops) fs'.
Proof using Type*.
  induction ops as [|o ops IH]; intros s fs Hi Ho; [by exists fs|]. apply Forall_cons in Ho as [Ho Hrest].
  destruct (gstep_inv o s fs Hi Ho) as [fs' Hi']. by apply (IH _ fs').
Qed.

Lemma apply_all_pending ps (m : LogView) : pending (apply_all ps m) = pending m.
Proof. revert m. induction ps as [|p ps IH]; intros m; [done|]. simpl. rewrite IH. simpl. unfold lv_apply. by destruct (op_is "event" p). Qed.

(** A replay leaves nothing pending. *)
Definition none_pending (g : @Manager LogView) : Prop := ∀ n m, jm_get n (machines g) = Some m → pending m = [].
Lemma replay_pending (st : ST) g : none_pending (replay logName grainId st g).1.
Proof.
  unfold replay. cbv zeta. set (g0 := set_machines _ _).
  assert (Hg0 : none_pending g0).
  { intros n m. unfold g0. simpl. rewrite jm_get_fmap. by intros (m0 & _ & ->)%fmap_Some_1. }
  revert Hg0. generalize g0. generalize (entries (the_log st)). intros es. induction es as [|raw es IH]; intros g1 Hg1; [done|].
  simpl. destruct (deserializeValue raw) as [e|env]; [done|]. apply IH. unfold replay_frame.
  destruct (jm_get (frame_name (frame_of env)) (machines g1)) as [m|] eqn:Hm; [|done].
  intros n m'. simpl. rewrite jm_get_set. case_decide; [|by apply Hg1]. intros [= <-]. rewrite apply_all_pending. by eapply Hg1.
Qed.

Lemma bound_inv threshold (st : ST) fs : log_ok fs → stored logName grainId st fs →
  let '(s, error) := bound initial transition logName grainId threshold st in
  error = None ∧ GInv s fs ∧ Journal.version (mgr s) = seg_version (the_log (store s)).
Proof using Type*.
  intros Hlog Hst. unfold bound.
  destruct (activate_spec logName grainId fresh fresh_reset threshold None [name] st fs) as (He & Hi & Hv & Hn);
    [apply NoDup_singleton|done..|].
  destruct (activate logName grainId fresh threshold None [name] st) as [g error] eqn:Ha. simpl in *. split_and!; [done| |done].
  destruct (proj2 (Hn name)) as [m Hm]; [by left|]. split; [done|by exists m| |done].
  unfold view. simpl. rewrite Hm. simpl.
  assert (Hp : none_pending (activate logName grainId fresh threshold None [name] st).1) by apply replay_pending.
  rewrite Ha in Hp. rewrite (Hp name m Hm). constructor.
Qed.

Abbreviation recovers := (Journal.recovers (ST := ST) logName grainId fresh).

Lemma view_recovers s fs : GInv s fs → Journal.version (mgr s) = seg_version (the_log (store s)) →
  recovers (store s) name (the_view s).
Proof using Type*.
  intros Hi Hv. destruct (gi_view _ _ Hi) as [m Hm]. unfold view. rewrite Hm. simpl.
  eapply recovers_log; [apply fresh_reset|apply (gi_journal _ _ Hi)|].
  pose proof (iv_synced _ _ _ _ _ _ (gi_journal _ _ Hi) Hv name) as Hs. unfold machine_matches in Hs. by rewrite Hm in Hs.
Qed.

(** The confirmed view can be lost with the activation. However raises,
    confirms and conditional appends overlap, appends and replays fail on either
    side, the log is compacted and cleared, and other activations write to it:
    while this activation's version is the stored one, the next activation holds
    the same confirmed state at the same confirmed version, and nothing of what is
    only raised. *)
Theorem confirmed_view_recovers threshold (st : ST) fs ops :
  log_ok fs → stored logName grainId st fs → Forall grain_op_ok ops →
  let s := grun initial transition logName grainId (bound initial transition logName grainId threshold st).1 ops in
  Journal.version (mgr s) = seg_version (the_log (store s)) → recovers (store s) name (the_view s).
Proof using Type*.
  intros Hlog Hst Hops s Hv. pose proof (bound_inv threshold st fs Hlog Hst) as Hb. unfold s in *. clear s.
  destruct (bound initial transition logName grainId threshold st) as [s0 error]. simpl in *. destruct Hb as (_ & Hi & _).
  destruct (grun_inv ops s0 fs Hi Hops) as [fs' Hi']. by eapply view_recovers.
Qed.

(** ** A conditional append that runs alone *)

(** One attempt: the append is served with these faults, and if it fails the log
    is read again, unless that fails too. *)
Definition attempt (f : Fault * Fault * bool) : list Op :=
  [ServeAppend f.1.1 f.1.2; AppendReturns; LoopFinally; Resync 0 f.2].

(** No turn of the adaptor is under way. *)
Record idle s : Prop := {
  id_loop : confirmLoop s = None;
  id_joined : joined s = [];
  id_resyncing : resyncing s = [] }.

Lemma idle_attempt s f : idle s → grun initial transition logName grainId s (attempt f) = s.
Proof. intros [Hl Hj Hr]. unfold attempt, grun. simpl. rewrite Hl. simpl. rewrite Hl. simpl. rewrite Hl. by rewrite Hr. Qed.

Lemma grun_attempts s f fs : grun initial transition logName grainId s (flat_map attempt (f :: fs)) =
  grun initial transition logName grainId (grun initial transition logName grainId s (attempt f)) (flat_map attempt fs).
Proof. unfold grun. cbn [flat_map]. apply foldl_app. Qed.

Lemma idle_attempts s fs : idle s → grun initial transition logName grainId s (flat_map attempt fs) = s.
Proof. intros Hi. induction fs as [|f fs IH]; [done|]. by rewrite grun_attempts, idle_attempt. Qed.

Lemma remove_last_found r l : r ∈ ref <$> l → ∃ l', remove_last r l = Some l' ∧ ref <$> l ≡ₚ r :: (ref <$> l').
Proof.
  induction l as [|x l IH]; [by intros ?%elem_of_nil|]. simpl. intros Hr.
  destruct (remove_last r l) as [l1|] eqn:Hl.
  - destruct (decide (r ∈ ref <$> l)) as [Hin|Hin].
    + destruct (IH Hin) as (l' & [= ->] & Hp). exists (x :: l'). split; [done|]. simpl. rewrite Hp. apply perm_swap.
    + destruct (remove_last_sub _ _ _ Hl) as (a & y & b & -> & _ & <-). destruct Hin. apply list_elem_of_fmap.
      exists y. split; [done|]. apply elem_of_app. right. by left.
  - apply elem_of_cons in Hr as [->|Hr].
    + rewrite bool_decide_true by done. by exists l.
    + destruct (IH Hr) as (l' & ? & _). done.
Qed.

Lemma withdraw_all es m : pending m = es → pending (withdraw transition es m) = [].
Proof.
  intros Hp. assert (Hr : ref <$> pending m ≡ₚ ref <$> es) by by rewrite Hp. clear Hp. unfold withdraw. simpl. revert m Hr.
  induction es as [|e es IH]; intros m Hr; simpl.
  - by apply Permutation_nil_r, fmap_nil_inv in Hr.
  - destruct (remove_last_found (ref e) (pending m)) as (l' & Hl & Hp); [rewrite Hr; by left|].
    apply IH. unfold withdraw_one. rewrite Hl. simpl. apply (Permutation_cons_inv (a := ref e)). by rewrite <- Hp, Hr.
Qed.

(** The state in which attempt [k] of the append starts: its events are in the
    append under way. *)
Record trying (base : LogView) (es : list Ref) (id : nat) (rs : list (nat * Reply)) (k : Z) s (fs : list Frame) : Prop := {
  ty_inv : GInv s fs;
  ty_current : Journal.version (mgr s) = seg_version (the_log (store s));
  ty_view : the_view s ≡ base;
  ty_pending : pending (the_view s) = [];
  ty_loop : confirmLoop s = Some (Appending es);
  ty_joined : joined s = [(id, CTry es (lv_version base + Z.of_nat (length es)) k)];
  ty_resyncing : resyncing s = [];
  ty_replies : replies s = rs }.

(** The view with the events on top. *)
Definition appended (es : list Ref) (m : LogView) : LogView := apply_all (payload <$> es) m.

Lemma appended_view es m : confirmed (appended es m) = fold_pending transition (confirmed m) es ∧
  lv_version (appended es m) = lv_version m + Z.of_nat (length es).
Proof.
  unfold appended, fold_pending. revert m. induction es as [|e es IH]; intros m; simpl; [by rewrite Z.add_0_r|].
  destruct (IH (lv_apply transition (payload e) m)) as [H1 H2]. split; [exact H1|]. etrans; [exact H2|]. simpl. lia.
Qed.

(** The events confirmed last are read back as they were raised. *)
Lemma segment_of_appended es m : Z.of_nat (length (confirmedEvents m)) <= lv_version m →
  retrieveLogSegment (lv_version m) (lv_version m + Z.of_nat (length es)) (appended es m) = Some (val <$> es).
Proof.
  assert (He : confirmedEvents (appended es m) = confirmedEvents m ++ (val <$> es)).
  { unfold appended. revert m. induction es as [|e es IH]; intros m; simpl; [by rewrite app_nil_r|].
    etrans; [exact (IH (lv_apply transition (payload e) m))|]. simpl. by rewrite <- (assoc_L (++)). }
  destruct (appended_view es m) as [_ Hv]. unfold retrieveLogSegment. rewrite He, Hv, length_app, length_fmap. intros Hm.
  rewrite bool_decide_false by lia. f_equal.
  replace (Z.to_nat (lv_version m - _)) with (length (confirmedEvents m)) by lia. rewrite drop_app_length.
  apply take_ge. rewrite length_fmap. lia.
Qed.

(** How an attempt ends. *)
Definition outcome (base : LogView) (es : list Ref) s (r : Reply) : Prop :=
  match r with
  | RConfirmed => False
  | RAppended true => the_view s ≡ appended es base ∧ recovers (store s) name (appended es base)
  | RAppended false => the_view s ≡ base ∧ recovers (store s) name base
  | RRejected _ => the_view s ≡ base ∧ (recovers (store s) name base ∨ recovers (store s) name (appended es base))
  end.

Definition ended (base : LogView) (es : list Ref) (id : nat) (rs : list (nat * Reply)) s : Prop :=
  idle s ∧ pending (the_view s) = [] ∧ ∃ r, replies s = rs ++ [(id, r)] ∧ outcome base es s r.

Lemma serve_unfold batch f f' s : confirmLoop s = Some (Appending batch) → step s (ServeAppend f f') =
  let '(st, g, error) := appendRange logName grainId name (payload <$> batch) f f' (store s) (mgr s) in
  with_loop (Some (Answered batch error)) (with_store st g s).
Proof. intros Hl. unfold gstep. by rewrite Hl. Qed.

(** At the stored version, what fails is the store. *)
Lemma appendRange_error ps f f' (st : ST) g fs : JInv st g fs → Journal.version g = seg_version (the_log st) →
  is_Some (jm_get name (machines g)) → Forall accepts ps →
  ∀ st' g' e, appendRange logName grainId name ps f f' st g = (st', g', Some e) → e = StoreFailed.
Proof using Type*.
  intros Hi Hv [m Hm] Hps st' g' e. unfold appendRange. rewrite Hm. case_bool_decide; [done|].
  rewrite (all_or_error_fmap frame_entry (FOp name)).
  destruct (frames_entries fresh fresh_reset (FOp name <$> ps)) as (ws & -> & _).
  { apply Forall_fmap. eapply Forall_impl; [exact Hps|]. intros p Hp. by apply Forall_singleton. }
  pose proof (js_append_law logName grainId ws (Journal.version g) st) as Hw. unfold faulty.
  destruct f; try (by intros [= _ _ <-]); destruct (js_append logName grainId ws (Journal.version g) st) as [[st1 v]|];
    unfold wrote in Hw; try congruence; cbv zeta.
  - case_bool_decide; [|done]. by destruct (compact logName grainId f' st1 _) as [[? ?] ?].
Qed.

Lemma view_log s fs : GInv s fs → Journal.version (mgr s) = seg_version (the_log (store s)) →
  the_view s ≡ apply_all (payloads name fs) (fresh name).
Proof.
  intros Hi Hv. destruct (gi_view _ _ Hi) as [m Hm]. pose proof (iv_synced _ _ _ _ _ _ (gi_journal _ _ Hi) Hv name) as Hs.
  unfold machine_matches in Hs. rewrite Hm in Hs. unfold view. by rewrite Hm.
Qed.

Lemma appended_equiv es m m' : m ≡ m' → appended es m ≡ appended es m'.
Proof using Type*. intros Hm. by apply replayed_proper. Qed.

(** A log that says more than the view. *)
Lemma appended_log es m fs fs' : m ≡ apply_all (payloads name fs) (fresh name) →
  payloads name fs' = payloads name fs ++ (payload <$> es) → appended es m ≡ apply_all (payloads name fs') (fresh name).
Proof using Type*. intros Hm ->. rewrite apply_all_app. by apply appended_equiv. Qed.

Lemma served base es id rs k s fs f f' : trying base es id rs k s fs →
  let '(st, g, error) := appendRange logName grainId name (payload <$> es) f f' (store s) (mgr s) in
  let s1 := with_store st g s in
  ∃ fs', GInv s1 fs' ∧ pending (the_view s1) = [] ∧
  match error with
  | None => the_view s1 ≡ appended es base ∧ recovers st name (appended es base)
  | Some e => e = StoreFailed ∧ the_view s1 ≡ base ∧
      (payloads name fs' = payloads name fs ∧ Journal.version g = seg_version (the_log st) ∨
       payloads name fs' = payloads name fs ++ (payload <$> es))
  end.
Proof using Type*.
  intros [Hi Hv Hb Hp Hl _ _ _]. pose proof (gi_loop _ _ Hi) as Hc. rewrite Hl in Hc. destruct Hc as [Hne Hc].
  pose proof (appendRange_inv logName grainId fresh fresh_reset name (payload <$> es) f f' (store s) (mgr s) fs
    (gi_journal _ _ Hi) (payloads_accepted _ Hc) ltac:(by destruct es)) as Ha.
  pose proof (appendRange_error (payload <$> es) f f' _ _ fs (gi_journal _ _ Hi) Hv (gi_view _ _ Hi) (payloads_accepted _ Hc)) as He.
  destruct (serve_append_inv es f f' s fs Hi Hl) as [fs0 Hi0]. rewrite (serve_unfold _ _ _ _ Hl) in Hi0.
  destruct (appendRange logName grainId name (payload <$> es) f f' (store s) (mgr s)) as [[st g] error].
  destruct Ha as (fs' & Hj & Ha). assert (Hi' : GInv (with_store st g s) fs').
  { split; [done|apply Hi0|apply Hi0|apply Hi]. }
  exists fs'. split; [done|]. destruct error as [e|].
  - destruct Ha as (-> & Hlog). split; [done|]. split; [by eapply He|]. split; [done|].
    destruct Hlog as [[-> Hs]|(-> & _)]; [left; by rewrite Hs|right]. by rewrite payloads_app, payloads_ops, decide_True.
  - destruct Ha as (m & g1 & Hm & _ & Hg1 & _ & _ & Hg & _ & _ & _ & Hrem). unfold view in *. simpl. rewrite Hm in Hp, Hb. simpl in Hp, Hb.
    assert (Hget : jm_get name (machines g) = Some (apply_all (payload <$> es) m)) by (by rewrite Hg, Hg1, jm_get_set_eq).
    rewrite Hget. simpl. rewrite apply_all_pending. split; [done|]. split; [by apply appended_equiv|].
    eapply recovers_log; [apply fresh_reset|exact Hj|]. etrans; [|exact (Hrem name _ Hget)]. symmetry. by apply appended_equiv.
Qed.

Lemma view_aside s s' : mgr s' = mgr s → the_view s' = the_view s.
Proof. unfold view. by intros ->. Qed.

(** A granted append, up to the answer of its caller. *)
Lemma granted_attempt base es id k s g (st : ST) b : confirmLoop s = Some (Answered es None) → mgr s = g → store s = st →
  pending (the_view s) = [] → joined s = [(id, CTry es (lv_version base + Z.of_nat (length es)) k)] → resyncing s = [] →
  let s' := grun initial transition logName grainId s [AppendReturns; LoopFinally; Resync 0 b] in
  idle s' ∧ store s' = st ∧ replies s' = replies s ++ [(id, RAppended true)] ∧
  pending (the_view s') = [] ∧ the_view s' ≡ the_view s.
Proof.
  intros Hl Hg Hst Hp Hj Hr. unfold grun. cbn [foldl gstep]. rewrite Hl. unfold append_returned.
  set (F := λ m, with_pending (pending m) (unconfirmedCount m - Z.of_nat (length es)) m).
  unfold loop_top. rewrite view_with_view. change (pending (F (the_view s))) with (pending (the_view s)). rewrite Hp.
  rewrite bool_decide_true by done. simpl. rewrite Hj. simpl. rewrite Hr. simpl.
  split_and!; try done; rewrite (view_aside (with_view initial F s)) by done; rewrite view_with_view; [exact Hp|by split].
Qed.

(** A failed append, up to the catch of its caller. *)
Lemma failed_attempt es id c s : confirmLoop s = Some (Answered es (Some StoreFailed)) →
  joined s = [(id, c)] → resyncing s = [] → (∃ es' v k, c = CTry es' v k) → pending (the_view s) = [] →
  let s' := grun initial transition logName grainId s [AppendReturns; LoopFinally] in
  confirmLoop s' = None ∧ joined s' = [] ∧ resyncing s' = [(id, c, StoreFailed)] ∧ replies s' = replies s ∧ store s' = store s ∧
  mgr s' = put_view (with_pending es (unconfirmedCount (the_view s)) (the_view s)) (mgr s).
Proof.
  intros Hl Hj Hr (es' & v & k & ->) Hp. unfold grun. cbn [foldl gstep]. rewrite Hl. unfold append_returned. simpl. rewrite Hj. simpl.
  rewrite Hr, Hp, app_nil_r. done.
Qed.

Lemma view_put m g s : mgr s = put_view m g → the_view s = m.
Proof. unfold view. intros ->. unfold put_view. simpl. by rewrite jm_get_set_eq. Qed.

(** What follows the catch: the append ends, or is tried again. *)
Lemma caught_attempt base es id k s fs fs' b : es ≠ [] → GInv s fs' → confirmLoop s = None → joined s = [] →
  resyncing s = [(id, CTry es (lv_version base + Z.of_nat (length es)) k, StoreFailed)] → pending (the_view s) = es →
  the_view s ≡ base → base ≡ apply_all (payloads name fs) (fresh name) →
  (payloads name fs' = payloads name fs ∧ Journal.version (mgr s) = seg_version (the_log (store s)) ∨
   payloads name fs' = payloads name fs ++ (payload <$> es)) →
  let s' := step s (Resync 0 b) in
  ended base es id (replies s) s' ∨ k < MAX_APPEND_ATTEMPTS ∧ trying base es id (replies s) (k + 1) s' fs'.
Proof using Type*.
  intros Hne Hi Hl Hj Hr Hp Hb Hlog Hcase. simpl. rewrite Hr. simpl. set (s1 := with_callers _ _ _ _ _).
  assert (Hi1 : GInv s1 fs') by (eapply aside_inv; [apply Hi|done|done|apply Hi]).
  pose proof (resync_inv b s1 fs' Hi1) as Hrs.
  destruct (resync initial transition logName grainId b s1) as [s2 ok].
  destruct Hrs as (Hi2 & -> & Hsame & Hcur & Hp2 & Hst2 & Hl2 & Hj2 & Hr2 & Hrep2).
  assert (Hp2' : pending (the_view s2) = es) by (rewrite Hp2; exact Hp).
  assert (Hend : ∀ r, (∀ s', the_view s' ≡ the_view s2 → store s' = store s2 → outcome base es s' r) →
    ended base es id (replies s) (reply id r (with_view initial (withdraw transition es) s2))).
  { intros r Hout. destruct (withdraw_sub es (the_view s2)) as (Hw1 & Hw2 & _).
    assert (Hv : the_view (reply id r (with_view initial (withdraw transition es) s2)) = withdraw transition es (the_view s2)).
    { rewrite (view_aside (with_view initial (withdraw transition es) s2)) by done. apply view_with_view. }
    split; [split; simpl; [by rewrite Hl2|by rewrite Hj2|by rewrite Hr2]|]. split; [rewrite Hv; by apply withdraw_all|].
    exists r. split; [simpl; by rewrite Hrep2|]. apply Hout; [|done]. rewrite Hv. by split. }
  assert (Hold : payloads name fs' = payloads name fs → recovers (store s2) name base).
  { intros Heq. eapply recovers_log; [apply fresh_reset|apply Hi2|]. by rewrite Heq. }
  assert (Hnew : payloads name fs' = payloads name fs ++ (payload <$> es) → recovers (store s2) name (appended es base)).
  { intros Heq. eapply recovers_log; [apply fresh_reset|apply Hi2|]. by eapply appended_log. }
  destruct b; simpl.
  { left. apply Hend. intros s' Hv' Hs'. simpl. rewrite Hs', (Hsame eq_refl) in *. split; [by rewrite Hv'|].
    destruct Hcase as [[Heq _]|Heq]; [left|right]; auto. }
  pose proof (view_log s2 fs' Hi2 (Hcur eq_refl)) as Hv2. destruct (appended_view es base) as [_ Hav].
  destruct Hcase as [[Heq _]|Heq].
  - rewrite Heq, <- Hlog in Hv2. destruct Hv2 as [Hc2 Hver2]. rewrite bool_decide_false by (rewrite Hver2; destruct es; [done|simpl; lia]).
    case_bool_decide as Hk.
    + left. apply Hend. intros s' Hv' Hs'. simpl. rewrite Hs'. split; [rewrite Hv'; by split|auto].
    + right. split; [lia|]. unfold confirmSubmittedEntries. simpl. rewrite Hl2. simpl. rewrite Hl. unfold loop_top.
      set (s3 := with_callers _ _ _ _ s2). rewrite (view_aside s2 s3) by done. rewrite Hp2', bool_decide_false by done.
      set (F := λ m, with_pending [] (unconfirmedCount m) m).
      assert (Hi3 : GInv (with_view initial F s3) fs').
      { apply with_view_inv; [eapply aside_inv; [apply Hi2|done|done|apply Hi2]|by intros m|constructor]. }
      assert (Hcar : carried_events es) by (rewrite <- Hp2'; apply Hi2).
      assert (Hv3 : ∀ p, the_view (with_loop p (with_view initial F s3)) = F (the_view s2)).
      { intros p. rewrite (view_aside (with_view initial F s3)) by done. rewrite view_with_view. by rewrite (view_aside s2 s3). }
      split; try done; [eapply aside_inv; [exact Hi3|done|done|by split]|by apply Hcur|rewrite Hv3; by split|by rewrite Hv3|by simpl; rewrite Hj2; simpl; rewrite Hj].
  - rewrite <- (appended_log es base fs fs' Hlog Heq) in Hv2. destruct Hv2 as [Hc2 Hver2].
    rewrite bool_decide_true by (rewrite Hver2, Hav; lia). left. apply Hend. intros s' Hv' Hs'. simpl. rewrite Hs'.
    split; [rewrite Hv'; by split|auto].
Qed.

Lemma attempt_step base es id rs k s fs f : trying base es id rs k s fs →
  let s' := grun initial transition logName grainId s (attempt f) in
  ended base es id rs s' ∨ k < MAX_APPEND_ATTEMPTS ∧ ∃ fs', trying base es id rs (k + 1) s' fs'.
Proof using Type*.
  intros Ht. pose proof (served base es id rs k s fs f.1.1 f.1.2 Ht) as Hs. destruct Ht as [Hi Hv Hb Hp Hl Hj Hr Hrep].
  pose proof (gi_loop _ _ Hi) as Hc. rewrite Hl in Hc. destruct Hc as [Hne Hc].
  unfold attempt. unfold grun. cbn [foldl]. rewrite (serve_unfold _ _ _ _ Hl).
  destruct (appendRange logName grainId name (payload <$> es) f.1.1 f.1.2 (store s) (mgr s)) as [[st g] error].
  cbv zeta in Hs. destruct Hs as (fs' & Hi' & Hp' & Hs). set (s1 := with_loop _ _). destruct error as [e|].
  - destruct Hs as (-> & Hv' & Hcase).
    destruct (failed_attempt es id _ s1 eq_refl Hj Hr ltac:(by eexists _, _, _) Hp') as (Hl3 & Hj3 & Hr3 & Hrep3 & Hst3 & Hg3).
    change (replies s1) with (replies s) in Hrep3. rewrite Hrep in Hrep3. unfold grun in *. cbn [foldl] in *. set (s3 := gstep _ _ _ _ (gstep _ _ _ _ s1 AppendReturns) LoopFinally) in *.
    set (F := λ m, with_pending es (unconfirmedCount m) m).
    assert (Hi3 : GInv s3 fs').
    { eapply aside_inv; [apply (with_view_inv F (with_store st g s) fs' Hi'); [by intros m|exact Hc]|done|done|by rewrite Hl3]. }
    destruct (caught_attempt base es id k s3 fs fs' f.2 Hne Hi3 Hl3 Hj3 Hr3) as [He|[Hk He]].
    + by rewrite (view_put _ _ _ Hg3).
    + rewrite (view_put _ _ _ Hg3). exact Hv'.
    + by rewrite <- (view_log s fs Hi Hv), Hb.
    + rewrite Hst3, Hg3. exact Hcase.
    + left. by rewrite Hrep3 in He.
    + right. split; [done|]. exists fs'. by rewrite Hrep3 in He.
  - left. destruct Hs as [Hv' Hrec].
    destruct (granted_attempt base es id k s1 g st f.2 eq_refl eq_refl eq_refl Hp' Hj Hr) as (Hid & Hst & Hrep' & Hp'' & Hv'').
    unfold grun in *. cbn [foldl] in *. split; [done|]. split; [done|]. exists (RAppended true).
    split; [rewrite Hrep'; simpl; by rewrite Hrep|]. split; [etrans; [exact Hv''|exact Hv']|by rewrite Hst].
Qed.

Lemma attempts_end base es id rs faults : ∀ k s fs, trying base es id rs k s fs → k <= MAX_APPEND_ATTEMPTS →
  MAX_APPEND_ATTEMPTS < k + Z.of_nat (length faults) →
  ended base es id rs (grun initial transition logName grainId s (flat_map attempt faults)).
Proof using Type*.
  induction faults as [|f faults IH]; intros k s fs Ht Hk Hlen; simpl in Hlen; [lia|]. rewrite grun_attempts.
  destruct (attempt_step base es id rs k s fs f Ht) as [He|(Hlt & fs' & Ht')].
  - rewrite idle_attempts; [done|apply He].
  - eapply IH; [done|lia|lia].
Qed.

(** What a conditional append that runs alone is told is what happened.
    Starting from an idle adaptor with nothing pending, at the stored version, and
    whatever fails before or after it takes effect in each of its attempts and in
    the replays between them, it ends within five attempts, leaves nothing
    pending, and is answered true just if the confirmed view has all its events
    and any later activation has them too; false if neither has any; and it throws
    only if a replay failed, when its events are all in the log or none. *)
Theorem try_append_alone threshold (st : ST) fs ops es faults :
  log_ok fs → stored logName grainId st fs → Forall grain_op_ok ops →
  let s := grun initial transition logName grainId (bound initial transition logName grainId threshold st).1 ops in
  idle s → Journal.version (mgr s) = seg_version (the_log (store s)) → pending (the_view s) = [] →
  es ≠ [] → carried_events es → MAX_APPEND_ATTEMPTS <= Z.of_nat (length faults) →
  ended (the_view s) es (nextCaller s) (replies s)
    (grun initial transition logName grainId s (OTryAppend es :: flat_map attempt faults)).
Proof using Type*.
  intros Hlog Hst Hops s [Hl Hj Hr] Hv Hp Hne Hc Hlen. pose proof (bound_inv threshold st fs Hlog Hst) as Hb.
  destruct (bound initial transition logName grainId threshold st) as [s0 error]. simpl in s. destruct Hb as (_ & Hi0 & _).
  destruct (grun_inv ops s0 fs Hi0 Hops) as [fs1 Hi]. fold s in Hi. clearbody s.
  change (grun initial transition logName grainId s (OTryAppend es :: flat_map attempt faults)) with
    (grun initial transition logName grainId (step s (OTryAppend es)) (flat_map attempt faults)).
  apply (attempts_end _ _ _ _ _ 1 _ fs1); [|done|unfold MAX_APPEND_ATTEMPTS in *; lia].
  simpl. unfold tryAppendRange. rewrite bool_decide_false by done. set (s1 := with_callers _ _ _ _ s).
  assert (Hi1 : GInv s1 fs1) by (eapply aside_inv; [apply Hi|done|done|apply Hi]).
  pose proof (grain_submitRange_inv es s1 fs1 Hi1 Hc) as Hi2. set (s2 := with_view _ _ s1) in *.
  assert (Hv2 : the_view s2 = submitRange transition es (the_view s)) by (unfold s2; by rewrite view_with_view).
  assert (Hp2 : pending (the_view s2) = es) by (by rewrite Hv2, submitRange_pending, Hp).
  destruct (blind_submitRange es (the_view s)) as [Hb1 Hb2].
  unfold confirmSubmittedEntries. simpl. rewrite Hl. unfold loop_top. set (s3 := with_callers _ _ _ _ s2).
  rewrite (view_aside s2 s3), Hp2, bool_decide_false by done. set (F := λ m, with_pending [] (unconfirmedCount m) m).
  assert (Hv3 : ∀ p, the_view (with_loop p (with_view initial F s3)) = F (the_view s2)).
  { intros p. rewrite (view_aside (with_view initial F s3)) by done. rewrite view_with_view. by rewrite (view_aside s2 s3). }
  split; try done.
  - eapply aside_inv; [apply (with_view_inv F s3 fs1)|done|done|by split]; [|by intros m|constructor].
    eapply aside_inv; [exact Hi2|done|done|exact (gi_loop _ _ Hi2)].
  - rewrite Hv3, Hv2. by split.
  - by rewrite Hv3.
  - simpl. by rewrite Hj, Hp2, Hv2, Hb2.
Qed.
End executions.

(** ** Concrete executions

    A grain whose state is a number and whose events are added to it. *)
Module Runs.
Definition grain : GrainId := mkGrainId "account" (KString "a").
Abbreviation ST := MemoryJournalStorage.t.
Definition int_of (v : value) : Z := match v with Num (NInt z) => z | _ => 0 end.
Definition zero : value := Num (NInt 0).
Definition add (s e : value) : value := Num (NInt (int_of s + int_of e)).

Lemma zero_carried : carried zero.
Proof. apply carried_int. Qed.
Lemma add_carried s e : carried s → carried e → carried (add s e).
Proof. intros _ _. apply carried_int. Qed.

Definition ev (r : nat) (z : Z) : Ref := mkRef r (Num (NInt z)).
Abbreviation play ops := (grun zero add "log" grain (bound zero add "log" grain (Some 3) (∅ : ST)).1 ops).
Definition shown (s : @Grain ST) : Z * Z * list nat := (int_of (confirmed (view zero s)), lv_version (view zero s), ref <$> pending (view zero s)).

Lemma evs_carried l : carried_events ((λ '(r, z), ev r z) <$> l).
Proof. apply Forall_fmap, Forall_true. intros [r z]. apply carried_int. Qed.

(** Raises around an append, a failed one, and one that compacts the log. *)
Definition busy_run : list Op :=
  [OSubmit [ev 0 1]; OConfirm; OSubmit [ev 1 2; ev 2 3]; ServeAppend NoFault NoFault; AppendReturns;
   ServeAppend FailBefore NoFault; AppendReturns; LoopFinally; OConfirm; ServeAppend NoFault NoFault; AppendReturns; LoopFinally].

Lemma busy_ok : Forall (grain_op_ok zero add zero_carried add_carried) busy_run.
Proof.
  repeat (apply Forall_cons_2; [first [exact (evs_carried [(0%nat, 1)])|exact (evs_carried [(1%nat, 2); (2%nat, 3)])|exact I]|]).
  constructor.
Qed.

#[local] Existing Instance view_machine.
#[local] Existing Instance view_equiv.

Lemma empty_log_ok : @log_ok LogView _ _ (view_laws zero add zero_carried add_carried) [].
Proof. constructor; [constructor|intros n; constructor]. Qed.
Lemma empty_stored : stored "log" grain (∅ : ST) [].
Proof. by vm_compute. Qed.

Lemma confirmed_view_recovers_witness :
  shown (play busy_run) = (6, 3, []) ∧
  Journal.version (mgr (play busy_run)) = seg_version (js_read "log" grain (store (play busy_run))) ∧
  Journal.recovers (H := view_machine zero add) "log" grain (λ _, fresh_view zero) (store (play busy_run)) name (view zero (play busy_run)).
Proof.
  split; [by vm_compute|]. assert (Hv : Journal.version (mgr (play busy_run)) = seg_version (js_read "log" grain (store (play busy_run)))) by by vm_compute.
  split; [exact Hv|].
  pose proof (confirmed_view_recovers zero add zero_carried add_carried "log" grain (Some 3) (∅ : ST) [] busy_run
    empty_log_ok empty_stored busy_ok Hv) as Hr. exact Hr.
Defined.

(** The second attempt is written, and its answer lost. *)
Definition faults : list (Fault * Fault * bool) :=
  [(FailBefore, NoFault, false); (FailAfter, NoFault, false); (NoFault, NoFault, false); (NoFault, NoFault, true); (NoFault, NoFault, true)].

Lemma try_append_alone_witness :
  shown (grun zero add "log" grain (play busy_run) (OTryAppend [ev 3 4; ev 4 5] :: flat_map attempt faults)) = (15, 5, []) ∧
  ended zero add "log" grain (view zero (play busy_run)) [ev 3 4; ev 4 5] (nextCaller (play busy_run)) (replies (play busy_run))
    (grun zero add "log" grain (play busy_run) (OTryAppend [ev 3 4; ev 4 5] :: flat_map attempt faults)).
Proof.
  split; [by vm_compute|].
  assert (Hid : idle (play busy_run)) by (by split; vm_compute).
  assert (Hv : Journal.version (mgr (play busy_run)) = seg_version (js_read "log" grain (store (play busy_run)))) by by vm_compute.
  assert (Hp : pending (view zero (play busy_run)) = []) by by vm_compute.
  pose proof (try_append_alone zero add zero_carried add_carried "log" grain (Some 3) (∅ : ST) [] busy_run [ev 3 4; ev 4 5] faults
    empty_log_ok empty_stored busy_ok Hid Hv Hp ltac:(done) (evs_carried [(3%nat, 4); (4%nat, 5)]) ltac:(by vm_compute)) as Ht.
  exact Ht.
Defined.

(** An append raised while another one is under way: the version it waits for
    does not count the events on their way, so that after a failed write the
    replay reports it written. It never is. *)
Lemma append_reported_true_is_lost :
  let s := play [OSubmit [ev 0 1]; OConfirm; OTryAppend [ev 1 2]; ServeAppend NoFault NoFault; AppendReturns;
                 ServeAppend FailBefore NoFault; AppendReturns; LoopFinally; Resync 0 false] in
  replies s = [(0%nat, RRejected StoreFailed); (1%nat, RAppended true)] ∧ shown s = (1, 1, []).
Proof. by vm_compute. Qed.

(** The events that were pending before a conditional append are written with it;
    when the answer to that write is lost they stay pending, and are written
    again. *)
Lemma pending_events_written_twice :
  let s := play [OSubmit [ev 0 1]; OTryAppend [ev 1 10]; ServeAppend FailAfter NoFault; AppendReturns; LoopFinally; Resync 0 false] in
  shown s = (11, 2, [0%nat]) ∧
  shown (grun zero add "log" grain s [OConfirm; ServeAppend NoFault NoFault; AppendReturns; LoopFinally]) = (12, 3, []).
Proof. by vm_compute. Qed.

(** A confirm does not read the log again: after a write whose answer was lost,
    the next confirm drops the events, which are in the log, from the view. *)
Lemma confirm_does_not_reread :
  let s := play [OSubmit [ev 0 1]; OConfirm; ServeAppend FailAfter NoFault; AppendReturns; LoopFinally;
                 OConfirm; ServeAppend NoFault NoFault; AppendReturns; LoopFinally] in
  replies s = [(0%nat, RRejected StoreFailed); (1%nat, RRejected InconsistentState)] ∧ shown s = (0, 0, []) ∧
  length (entries (js_read "log" grain (store s))) = 1%nat.
Proof. by vm_compute. Qed.
End Runs.
