(* ===== verification/Repartition.v ===== *)
(** * The activation repartitioner

    Models [packages/runtime/src/placement/repartitioning/activation-repartitioner.ts]
    (ActivationRepartitioner) over the heap of [Heap] and the sketch of
    [Frequent], and [edge.ts]. The vertices of an exchange are shared by two heaps
    and by each other's adjacency lists: they live in a store, by their key. The
    answers of peers, the clock and the outcomes of migrations are inputs. *)
From Stdlib Require Import String.
From stdpp Require Import prelude gmap strings list sorting.
From S2P Require Import Prelude JsMap Ids Heap Frequent.
Open Scope Z_scope.

(** ** Edges *)

Record EdgeVertex := mkVertex { ev_id : GrainId; ev_silo : SiloAddress; ev_isMigratable : bool }.
Record Edge := mkEdge { e_source : EdgeVertex; e_target : EdgeVertex }.
Definition flipEdge (e : Edge) : Edge := mkEdge (e_target e) (e_source e).
Definition getKey (e : Edge) : Z := edge_key (ev_id (e_source e), ev_id (e_target e)).

(** ** Candidates *)

Record CandidateVertex := mkCandidate {
  cv_id : GrainId;
  accumulatedTransferScore : Z;
  connectedVertices : list (GrainId * Z) }.

Inductive Direction := localToLocal | localToRemote | remoteToLocal.
#[export] Instance Direction_eq_dec : EqDecision Direction.
Proof. solve_decision. Defined.
Record VertexEdge := mkVertexEdge {
  ve_sourceId : GrainId; ve_targetId : GrainId; ve_isMigratable : bool;
  ve_partnerSilo : SiloAddress; ve_direction : Direction; ve_weight : Z }.

Section repartitioner.
Context (local : SiloAddress) (maxEdgeCount : nat) (isMigratable : GrainId → bool).

(** [push] of [getMigrationCandidates] *)
Definition push (v : VertexEdge) (result : list (string * list VertexEdge)) : list (string * list VertexEdge) :=
  if ve_isMigratable v then
    let key := GrainId_toString (ve_sourceId v) in
    jm_set key (default [] (jm_get key result) ++ [v]) result
  else result.

(** One round of its loop: an edge between two local grains counts for both. *)
Definition candidate_edges (result : list (string * list VertexEdge)) (c : @Counter Edge) : list (string * list VertexEdge) :=
  let e := element c in
  let s := e_source e in
  let t := e_target e in
  if bool_decide (count c = 0) then result
  else
    let isSourceLocal := SiloAddress_equals (ev_silo s) local in
    let isTargetLocal := SiloAddress_equals (ev_silo t) local in
    if isSourceLocal && isTargetLocal then
      push (mkVertexEdge (ev_id t) (ev_id s) (ev_isMigratable t) local localToLocal (count c))
        (push (mkVertexEdge (ev_id s) (ev_id t) (ev_isMigratable s) local localToLocal (count c)) result)
    else if isSourceLocal then
      push (mkVertexEdge (ev_id s) (ev_id t) (ev_isMigratable s) (ev_silo t) localToRemote (count c)) result
    else if isTargetLocal then
      push (mkVertexEdge (ev_id t) (ev_id s) (ev_isMigratable t) (ev_silo s) remoteToLocal (count c)) result
    else result.
Definition getMigrationCandidates (edgeWeights : @FrequentItems Edge) : list (string * list VertexEdge) :=
  foldl candidate_edges [] (heap edgeWeights).

(** The scores a grain's edges add up to: local, and with the other silo. *)
Definition edge_scores (otherSilo : SiloAddress) (grainEdges : list VertexEdge) : Z * Z :=
  foldl (λ acc e,
    if decide (ve_direction e = localToLocal) then (acc.1 + ve_weight e, acc.2)
    else if SiloAddress_equals (ve_partnerSilo e) otherSilo then (acc.1, acc.2 + ve_weight e)
    else acc) (0, 0) grainEdges.
Definition candidate_for (otherSilo : SiloAddress) (grainEdges : list VertexEdge) : option CandidateVertex :=
  let '(accLocalScore, accRemoteScore) := edge_scores otherSilo grainEdges in
  if bool_decide (accRemoteScore <= accLocalScore) then None
  else
    first ← head grainEdges;
    Some (mkCandidate (ve_sourceId first) (accRemoteScore - accLocalScore)
            ((λ e, (ve_targetId e, ve_weight e)) <$> grainEdges)).
Definition getCandidatesForSilo (migrationCandidates : list (string * list VertexEdge)) (otherSilo : SiloAddress)
    : list CandidateVertex :=
  omap (candidate_for otherSilo) (jm_values migrationCandidates).

Definition transfer_score (candidates : list CandidateVertex) : Z :=
  foldl (λ sum c, sum + accumulatedTransferScore c) 0 candidates.
(** Best first. *)
Definition createCandidateSets (migrationCandidates : list (string * list VertexEdge)) (silos : list SiloAddress)
    : list (SiloAddress * list CandidateVertex) :=
  sort_by (λ a b, bool_decide (transfer_score b.2 < transfer_score a.2))
    ((λ silo, (silo, getCandidatesForSilo migrationCandidates silo)) <$> silos).
End repartitioner.

(** ** The vertices of an exchange *)

Inductive Location := unknown | atLocal | atRemote.
#[export] Instance Location_eq_dec : EqDecision Location.
Proof. solve_decision. Defined.

(** [CandidateVertexHeapElement]; its [heapIndex] is kept by the heap. *)
Record Vertex := mkElement {
  v_id : GrainId; v_location : Location; v_score : Z; v_connected : list (string * Z) }.
Abbreviation Store := (gmap string Vertex).

Definition set_location (l : Location) (v : Vertex) : Vertex := mkElement (v_id v) l (v_score v) (v_connected v).
Definition add_score (d : Z) (v : Vertex) : Vertex := mkElement (v_id v) (v_location v) (v_score v + d) (v_connected v).
Definition connect (k : string) (w : Z) (v : Vertex) : Vertex :=
  mkElement (v_id v) (v_location v) (v_score v) (v_connected v ++ [(k, w)]).

Definition score (vs : Store) (k : string) : Z := default 0 (v_score <$> vs !! k).
Definition compareTo (vs : Store) (a b : string) : Z := score vs a - score vs b.

Definition key_of (c : CandidateVertex) : string := GrainId_toString (cv_id c).
Definition getOrAdd (vs : Store) (c : CandidateVertex) : Store :=
  match vs !! key_of c with
  | Some _ => vs
  | None => <[key_of c := mkElement (cv_id c) unknown (accumulatedTransferScore c) []]> vs
  end.
(** One round of the loop of [createVertex]. *)
Definition connect_to (sourceIndex : gmap string CandidateVertex) (key : string) (vs : Store) (connected : GrainId * Z) : Store :=
  match sourceIndex !! GrainId_toString connected.1 with
  | Some source => alter (connect (key_of source) connected.2) key (getOrAdd vs source)
  | None => vs
  end.
Definition createVertex (sourceIndex : gmap string CandidateVertex) (vs : Store) (c : CandidateVertex) : Store :=
  foldl (connect_to sourceIndex (key_of c)) (getOrAdd vs c) (connectedVertices c).

Definition index_candidates (local remote : list CandidateVertex) : gmap string CandidateVertex :=
  foldl (λ m c, <[key_of c := c]> m) ∅ (local ++ remote).
Definition place_local (idx : gmap string CandidateVertex) (acc : Store * list string) (c : CandidateVertex) : Store * list string :=
  let vs := createVertex idx acc.1 c in
  (alter (set_location atLocal) (key_of c) vs, acc.2 ++ [key_of c]).
(** A vertex that is local already stays so. *)
Definition place_remote (idx : gmap string CandidateVertex) (acc : Store * list string) (c : CandidateVertex) : Store * list string :=
  let vs := createVertex idx acc.1 c in
  if decide ((v_location <$> vs !! key_of c) = Some unknown)
  then (alter (set_location atRemote) (key_of c) vs, acc.2 ++ [key_of c]) else (vs, acc.2).

(** ** The exchange *)

Record Exchange := mkExchange {
  vertices : Store;
  localHeap : @MaxHeap string _ _;
  remoteHeap : @MaxHeap string _ _;
  giving : list GrainId;
  accepting : list GrainId;
  localActivations : Z;
  remoteActivations : Z;
  imbalance : Z }.

Definition createCandidateHeaps (local remote : list CandidateVertex) : Store * @MaxHeap string _ _ * @MaxHeap string _ _ :=
  let idx := index_candidates local remote in
  let '(vs, localList) := foldl (place_local idx) (∅, []) local in
  let '(vs, remoteList) := foldl (place_remote idx) (vs, []) remote in
  (vs, new_heap (compareTo vs) localList, new_heap (compareTo vs) remoteList).

Definition start_exchange (local remote : list CandidateVertex) (localActivations remoteActivations : Z) : Exchange :=
  let '(vs, lh, rh) := createCandidateHeaps local remote in
  mkExchange vs lh rh [] [] localActivations remoteActivations (Z.abs (localActivations - remoteActivations)).

Section exchange.
Context (isSatisfiedBy : Z → bool).

Definition anticipated (x : Exchange) (d : Z) : Z := Z.abs (localActivations x + d - (remoteActivations x - d)).
(** Whether moving one activation, [d] to the local side, is acceptable. *)
Definition acceptable (x : Exchange) (d : Z) : bool :=
  bool_decide (anticipated x d < imbalance x) || isSatisfiedBy (anticipated x d).

(** [tryMigrateCore]: the heap it pops from afterwards, and the vertex chosen. *)
Definition tryMigrateCore (x : Exchange) (source : @MaxHeap string _ _) (d : Z) : @MaxHeap string _ _ * option string :=
  if acceptable x d then
    match pop (compareTo (vertices x)) source with
    | None => (source, None)
    | Some (k, source') => (source', if bool_decide (score (vertices x) k <= 0) then None else Some k)
    end
  else (source, None).

(** What the move of a vertex does to one it is connected to: [toRemote] says
    where it went, and a neighbour there is drawn less to follow. *)
Definition neighbour (toRemote : bool) (x : Exchange) (edge : string * Z) : Exchange :=
  let '(k, w) := edge in
  match v_location <$> vertices x !! k with
  | Some atLocal =>
      let vs := alter (add_score (if toRemote then w else - w)) k (vertices x) in
      let h := if toRemote then onIncreaseElementPriority (compareTo vs) k (localHeap x)
               else onDecreaseElementPriority (compareTo vs) k (localHeap x) in
      mkExchange vs h (remoteHeap x) (giving x) (accepting x) (localActivations x) (remoteActivations x) (imbalance x)
  | Some atRemote =>
      let vs := alter (add_score (if toRemote then - w else w)) k (vertices x) in
      let h := if toRemote then onDecreaseElementPriority (compareTo vs) k (remoteHeap x)
               else onIncreaseElementPriority (compareTo vs) k (remoteHeap x) in
      mkExchange vs (localHeap x) h (giving x) (accepting x) (localActivations x) (remoteActivations x) (imbalance x)
  | _ => x
  end.

(** [tryLocalToRemote] and [tryRemoteToLocal] *)
Definition try_move (toRemote : bool) (x : Exchange) : Exchange * bool :=
  let d := if toRemote then -1 else 1 in
  let '(h, chosen) := tryMigrateCore x (if toRemote then localHeap x else remoteHeap x) d in
  let lh := if toRemote then h else localHeap x in
  let rh := if toRemote then remoteHeap x else h in
  match chosen ≫= λ k, (λ v, (k, v)) <$> vertices x !! k with
  | None =>
      (mkExchange (vertices x) lh rh (giving x) (accepting x) (localActivations x) (remoteActivations x) (imbalance x), false)
  | Some (k, v) =>
      let x1 := mkExchange (vertices x) lh rh
                  (if toRemote then giving x ++ [v_id v] else giving x)
                  (if toRemote then accepting x else accepting x ++ [v_id v])
                  (localActivations x + d) (remoteActivations x - d) (anticipated x d) in
      let x2 := foldl (neighbour toRemote) x1 (v_connected v) in
      (mkExchange (alter (set_location (if toRemote then atRemote else atLocal)) k (vertices x2))
         (localHeap x2) (remoteHeap x2) (giving x2) (accepting x2)
         (localActivations x2) (remoteActivations x2) (imbalance x2), true)
  end.

Definition top_score (vs : Store) (h : @MaxHeap string _ _) : Z := default 0 (score vs <$> firstOrDefault h).
Definition preferLocalFirst (x : Exchange) : bool :=
  let localScore := top_score (vertices x) (localHeap x) in
  let remoteScore := top_score (vertices x) (remoteHeap x) in
  bool_decide (remoteScore < localScore) ||
  (bool_decide (localScore = remoteScore) && bool_decide (remoteActivations x < localActivations x)).

(** One round of the loop. *)
Definition exchange_round (x : Exchange) : Exchange * bool :=
  let toRemote := preferLocalFirst x in
  let '(x, migrated) := try_move toRemote x in
  if migrated then (x, true) else try_move (negb toRemote) x.

(** The loop; whether it ended within the fuel. *)
Fixpoint exchange_loop (fuel : nat) (x : Exchange) : Exchange * bool :=
  match fuel with
  | O => (x, false)
  | S n => let '(x, migrated) := exchange_round x in if migrated then exchange_loop n x else (x, true)
  end.
(** A vertex is popped in every round but the last. *)
Definition exchange_fuel (x : Exchange) : nat := S (heap_size (localHeap x) + heap_size (remoteHeap x)).
Definition run_exchange (x : Exchange) : Exchange := (exchange_loop (exchange_fuel x) x).1.
End exchange.

(** ** The component *)

Record Repartitioner := mkRepartitioner {
  edgeWeights : @FrequentItems Edge;
  activationCountOffset : Z;
  lastExchangeAt : option Z }.

Inductive ResponseType := success | exchangedRecently | mutualExchangeAttempt.
Record AcceptExchangeRequest := mkRequest {
  sendingSilo : SiloAddress; exchangeSet : list CandidateVertex; activationCountSnapshot : Z }.
Record AcceptExchangeResponse := mkResponse {
  res_type : ResponseType; acceptedGrainIds : list GrainId; givenGrainIds : list GrainId }.

Section component.
Context (local : SiloAddress) (maxEdgeCount : nat) (recoveryPeriodMs : Z).
Context (isMigratable : GrainId → bool) (isSatisfiedBy : Z → bool).

Definition new_repartitioner : Repartitioner := mkRepartitioner (new_items maxEdgeCount) 0 None.
Definition set_edges f (r : Repartitioner) : Repartitioner :=
  mkRepartitioner (f (edgeWeights r)) (activationCountOffset r) (lastExchangeAt r).

(** None where the sketch throws. *)
Definition record_edge (e : Edge) (r : Repartitioner) : option Repartitioner :=
  (λ s, set_edges (λ _, s) r) <$> add getKey maxEdgeCount e (edgeWeights r).
Definition recordLocalEdge (sender : option GrainId) (target : GrainId) (targetSilo : SiloAddress) (r : Repartitioner)
    : option Repartitioner :=
  match sender with
  | None => Some r
  | Some sender =>
      if GrainId_equals sender target then Some r
      else if negb (isMigratable sender) && negb (isMigratable target) then Some r
      else record_edge (mkEdge (mkVertex sender local (isMigratable sender))
                               (mkVertex target targetSilo (isMigratable target))) r
  end.
Definition recordRemoteEdge (sender : GrainId) (senderSilo : SiloAddress) (target : GrainId) (r : Repartitioner)
    : option Repartitioner :=
  if GrainId_equals sender target then Some r
  else if negb (isMigratable sender) && negb (isMigratable target) then Some r
  else record_edge (mkEdge (mkVertex sender senderSilo (isMigratable sender))
                           (mkVertex target local (isMigratable target))) r.

Definition resetCounters (r : Repartitioner) : Repartitioner := set_edges clearCore r.
Definition setActivationCountOffset (offset : Z) (r : Repartitioner) : Repartitioner :=
  mkRepartitioner (edgeWeights r) offset (lastExchangeAt r).
Definition getGrainCallFrequencies (r : Repartitioner) : list (Edge * Z) :=
  (λ c, (element c, count c)) <$> heap (edgeWeights r).
Definition getLocalActivationCount (activationCount : Z) (r : Repartitioner) : Z :=
  activationCount + activationCountOffset r.

(** [acceptExchangeRequest] up to its migrations: the refusal, or what is given
    and what is accepted. *)
Definition accept_begin (now activationCount : Z) (request : AcceptExchangeRequest) (r : Repartitioner)
    : AcceptExchangeResponse + list GrainId * list GrainId :=
  if match lastExchangeAt r with Some t => bool_decide (now - t < recoveryPeriodMs) | None => false end
  then inl (mkResponse exchangedRecently [] [])
  else
    let candidates := getMigrationCandidates local (edgeWeights r) in
    let localSet := getCandidatesForSilo candidates (sendingSilo request) in
    let x := run_exchange isSatisfiedBy
               (start_exchange localSet (exchangeSet request) (getLocalActivationCount activationCount r)
                  (activationCountSnapshot request)) in
    inr (giving x, accepting x).

(** [finalizeProtocol] after its migrations: the edges of grains that moved go. *)
Definition touches (affected : list string) (c : @Counter Edge) : bool :=
  bool_decide (GrainId_toString (ev_id (e_source (element c))) ∈ affected) ||
  bool_decide (GrainId_toString (ev_id (e_target (element c))) ∈ affected).
Definition finalizeProtocol (giving accepting : list GrainId) (r : Repartitioner) : Repartitioner :=
  let affected := GrainId_toString <$> (giving ++ accepting) in
  let toRemove := filter (λ c, touches affected c = true) (heap (edgeWeights r)) in
  set_edges (λ s, foldl (λ s c, (removeCore getKey (getKey (element c)) s).1) s toRemove) r.
Definition accept_end (giving accepting : list GrainId) (now : Z) (r : Repartitioner)
    : Repartitioner * AcceptExchangeResponse :=
  let r := finalizeProtocol giving accepting r in
  (mkRepartitioner (edgeWeights r) (activationCountOffset r) (Some now), mkResponse success accepting giving).

(** [triggerExchangeRequest]: the silos asked, in order, given what each answers
    - none for a failure - and the exchange agreed on. *)
Fixpoint trigger_loop (sets : list (SiloAddress * list CandidateVertex)) (answer : SiloAddress → option AcceptExchangeResponse)
    : option (SiloAddress * list GrainId * list GrainId) :=
  match sets with
  | [] => None
  | (silo, offered) :: sets' =>
      if bool_decide (length offered = 0%nat) then trigger_loop sets' answer
      else
        match answer silo with
        | None => trigger_loop sets' answer
        | Some response =>
            match res_type response with
            | success => Some (silo, acceptedGrainIds response, givenGrainIds response)
            | mutualExchangeAttempt => None
            | exchangedRecently => trigger_loop sets' answer
            end
        end
  end.
Definition triggerExchangeRequest (activeSilos : list SiloAddress) (answer : SiloAddress → option AcceptExchangeResponse)
    (r : Repartitioner) : option (SiloAddress * list GrainId * list GrainId) :=
  let silos := filter (λ s, SiloAddress_equals s local = false) activeSilos in
  if bool_decide (length silos = 0%nat) then None
  else trigger_loop (createCandidateSets (getMigrationCandidates local (edgeWeights r)) silos) answer.
End component.

(** ** Heaps over changing scores *)

#[export] Instance compareTo_comparison vs : Comparison (compareTo vs).
Proof. split; unfold compareTo; intros; lia. Qed.

Lemma heap_good_ext (c c' : string → string → Z) h :
  (∀ a b, c a b = c' a b) → heap_good c h → heap_good c' h.
Proof.
  intros He [Hw Ho]. split; [done|]. intros j x y Hj Hr Hk Hx Hy. specialize (Ho j x y Hj Hr Hk Hx Hy).
  unfold ahead_by in *. by rewrite <- He.
Qed.

Lemma heap_elements (h : @MaxHeap string _ _) k : heap_wf h → heapIndex h !! k = None ↔ k ∉ unorderedElements h.
Proof.
  intros [Hs Hnd Hix]. unfold unorderedElements. split.
  - intros Hn (j & Hj)%list_elem_of_lookup. apply lookup_take_Some in Hj as [Hj Hlt].
    assert (heapIndex h !! k = Some j) by (apply Hix; eauto). congruence.
  - intros Hk. destruct (heapIndex h !! k) as [j|] eqn:Hj; [|done]. apply Hix in Hj as (Hlt & y & Hy & <-).
    destruct Hk. apply (list_elem_of_lookup_2 _ j). by rewrite lookup_take_lt.
Qed.

Lemma heap_size_elements (h : @MaxHeap string _ _) : heap_wf h → length (unorderedElements h) = heap_size h.
Proof. intros [Hs _ _]. unfold unorderedElements. rewrite length_take. lia. Qed.

Lemma score_alter d k vs j : score (alter (add_score d) k vs) j =
  score vs j + (if decide (j = k ∧ is_Some (vs !! k)) then d else 0).
Proof.
  unfold score. destruct (decide (j = k)) as [->|Hne].
  - rewrite lookup_alter_eq. destruct (vs !! k) as [v|] eqn:Hv; simpl.
    + rewrite decide_True by (split; [done|by eexists]). done.
    + rewrite decide_False by (by intros [_ [? ?]]). done.
  - rewrite lookup_alter_ne by done. rewrite decide_False by naive_solver. lia.
Qed.

(** A score that rises, or falls, and everything it is compared with. *)
Lemma alter_raised d k vs : 0 <= d → raised k (compareTo vs) (compareTo (alter (add_score d) k vs)).
Proof.
  intros Hd. split.
  - intros x y Hx Hy. unfold ahead_by, compareTo. rewrite !score_alter, !decide_False by naive_solver. apply bool_decide_ext. lia.
  - intros y Hy%bool_decide_eq_false. apply bool_decide_eq_false. unfold compareTo in *. rewrite !score_alter.
    destruct (decide (k = k ∧ _)) as [Hk|Hk]; destruct (decide (y = k ∧ _)) as [Hyk|Hyk]; try lia.
    destruct Hk. by split; [|apply Hyk].
Qed.
Lemma alter_lowered d k vs : d <= 0 → lowered k (compareTo vs) (compareTo (alter (add_score d) k vs)).
Proof.
  intros Hd. split.
  - intros x y Hx Hy. unfold ahead_by, compareTo. rewrite !score_alter, !decide_False by naive_solver. apply bool_decide_ext. lia.
  - intros y Hy%bool_decide_eq_false. apply bool_decide_eq_false. unfold compareTo in *. rewrite !score_alter.
    destruct (decide (k = k ∧ _)) as [Hk|Hk]; destruct (decide (y = k ∧ _)) as [Hyk|Hyk]; try lia.
    destruct Hk. by split; [|apply Hyk].
Qed.

(** ** The invariant of an exchange *)

Definition loc (x : Exchange) (k : string) : option Location := v_location <$> vertices x !! k.
Definition nonneg_weights (l : list (string * Z)) : Prop := Forall (λ e, 0 <= e.2) l.

(** Both heaps are in order, each vertex of a heap is on its side, and a vertex
    is stored under the text of its id. *)
Record x_wf (x : Exchange) : Prop := {
  xw_local : heap_good (compareTo (vertices x)) (localHeap x);
  xw_remote : heap_good (compareTo (vertices x)) (remoteHeap x);
  xw_atLocal : ∀ k, k ∈ unorderedElements (localHeap x) → loc x k = Some atLocal;
  xw_atRemote : ∀ k, k ∈ unorderedElements (remoteHeap x) → loc x k = Some atRemote;
  xw_vertex : ∀ k v, vertices x !! k = Some v → GrainId_toString (v_id v) = k ∧ nonneg_weights (v_connected v) }.

(** Two states that differ in scores only. *)
Record rescored (x x' : Exchange) : Prop := {
  rs_local : unorderedElements (localHeap x') ≡ₚ unorderedElements (localHeap x);
  rs_remote : unorderedElements (remoteHeap x') ≡ₚ unorderedElements (remoteHeap x);
  rs_vertex : ∀ k, (λ v, (v_id v, v_location v, v_connected v)) <$> vertices x' !! k =
                   (λ v, (v_id v, v_location v, v_connected v)) <$> vertices x !! k;
  rs_giving : giving x' = giving x;
  rs_accepting : accepting x' = accepting x;
  rs_localActivations : localActivations x' = localActivations x;
  rs_remoteActivations : remoteActivations x' = remoteActivations x;
  rs_imbalance : imbalance x' = imbalance x }.

Lemma rescored_refl x : rescored x x.
Proof. by split. Qed.
Lemma rescored_trans x y z : rescored x y → rescored y z → rescored x z.
Proof.
  intros [a1 a2 a3 a4 a5 a6 a7 a8] [b1 b2 b3 b4 b5 b6 b7 b8]. split; try congruence; by etrans.
Qed.
Lemma rescored_loc x x' k : rescored x x' → loc x' k = loc x k.
Proof.
  intros Hr. pose proof (rs_vertex _ _ Hr k) as Hv. unfold loc.
  destruct (vertices x' !! k), (vertices x !! k); simpl in *; congruence.
Qed.

(** The comparison after a score changed, for the heap that does not have the
    vertex. *)
Lemma other_heap d k vs h : heap_good (compareTo vs) h → k ∉ unorderedElements h →
  heap_good (compareTo (alter (add_score d) k vs)) h.
Proof.
  intros Hg Hk. eapply absent_ordered; [done|by apply heap_elements; [apply Hg|]|].
  destruct (decide (0 <= d)) as [Hd|Hd]; [by apply alter_raised|apply alter_lowered; lia].
Qed.

Lemma rescore_wf x x' k d :
  x_wf x → rescored x x' → vertices x' = alter (add_score d) k (vertices x) →
  heap_good (compareTo (vertices x')) (localHeap x') → heap_good (compareTo (vertices x')) (remoteHeap x') → x_wf x'.
Proof.
  intros [H1 H2 H3 H4 H5] Hr Hv Hl Hrm. split; try done.
  - intros j. rewrite (rs_local _ _ Hr), (rescored_loc _ _ _ Hr). apply H3.
  - intros j. rewrite (rs_remote _ _ Hr), (rescored_loc _ _ _ Hr). apply H4.
  - intros j v Hj. rewrite Hv in Hj. destruct (decide (j = k)) as [->|Hne].
    + rewrite lookup_alter_eq in Hj. apply fmap_Some_1 in Hj as (v0 & Hv0 & ->). by apply (H5 k v0).
    + rewrite lookup_alter_ne in Hj by done. by apply H5.
Qed.

Lemma alter_shape d k (vs : Store) j :
  (λ v, (v_id v, v_location v, v_connected v)) <$> alter (add_score d) k vs !! j =
  (λ v, (v_id v, v_location v, v_connected v)) <$> vs !! j.
Proof.
  destruct (decide (j = k)) as [->|Hne]; [|by rewrite lookup_alter_ne].
  rewrite lookup_alter_eq. by destruct (vs !! k).
Qed.

Lemma neighbour_wf toRemote x e : x_wf x → 0 <= e.2 →
  x_wf (neighbour toRemote x e) ∧ rescored x (neighbour toRemote x e).
Proof.
  destruct e as [k w]. simpl. intros Hx Hw. assert (Hx' := Hx). destruct Hx' as [Hl Hr Hal Har Hvx].
  assert (Hloc : v_location <$> vertices x !! k = loc x k) by done. rewrite Hloc.
  destruct (loc x k) as [[]|] eqn:Hk; try by split; [|apply rescored_refl].
  - assert (Hnr : k ∉ unorderedElements (remoteHeap x)) by (intros Hin; apply Har in Hin; congruence).
    set (d := if toRemote then w else - w). set (vs := alter (add_score d) k (vertices x)).
    set (h := if toRemote then _ else _).
    assert (Hh : heap_good (compareTo vs) h ∧ unorderedElements h ≡ₚ unorderedElements (localHeap x)).
    { unfold h, vs, d. destruct toRemote.
      - eapply onIncrease_good; [..|exact Hl]; try apply _. by apply alter_raised.
      - eapply onDecrease_good; [..|exact Hl]; try apply _. apply alter_lowered. lia. }
    destruct Hh as [Hh Hp].
    assert (Hrs : rescored x (mkExchange vs h (remoteHeap x) (giving x) (accepting x) (localActivations x)
        (remoteActivations x) (imbalance x))) by (split; try done; intros j; apply alter_shape).
    split; [|exact Hrs]. eapply (rescore_wf x _ k d); try done. by apply other_heap.
  - assert (Hnl : k ∉ unorderedElements (localHeap x)) by (intros Hin; apply Hal in Hin; congruence).
    set (d := if toRemote then - w else w). set (vs := alter (add_score d) k (vertices x)).
    set (h := if toRemote then _ else _).
    assert (Hh : heap_good (compareTo vs) h ∧ unorderedElements h ≡ₚ unorderedElements (remoteHeap x)).
    { unfold h, vs, d. destruct toRemote.
      - eapply onDecrease_good; [..|exact Hr]; try apply _. apply alter_lowered. lia.
      - eapply onIncrease_good; [..|exact Hr]; try apply _. by apply alter_raised. }
    destruct Hh as [Hh Hp].
    assert (Hrs : rescored x (mkExchange vs (localHeap x) h (giving x) (accepting x) (localActivations x)
        (remoteActivations x) (imbalance x))) by (split; try done; intros j; apply alter_shape).
    split; [|exact Hrs]. eapply (rescore_wf x _ k d); try done. by apply other_heap.
Qed.

Lemma neighbours_wf toRemote l : ∀ x, x_wf x → nonneg_weights l →
  x_wf (foldl (neighbour toRemote) x l) ∧ rescored x (foldl (neighbour toRemote) x l).
Proof.
  induction l as [|e l IH]; intros x Hx Hl; simpl; [by split; [|apply rescored_refl]|].
  apply Forall_cons in Hl as [He Hl]. destruct (neighbour_wf toRemote x e Hx He) as [Hx1 Hr1].
  destruct (IH _ Hx1 Hl) as [Hx2 Hr2]. split; [done|]. by eapply rescored_trans.
Qed.

(** ** One move *)

Section moves.
Context (isSatisfiedBy : Z → bool).
Abbreviation accept := (acceptable isSatisfiedBy).

Definition source_heap (toRemote : bool) (x : Exchange) : @MaxHeap string _ _ := if toRemote then localHeap x else remoteHeap x.
Definition other_side (toRemote : bool) (x : Exchange) : @MaxHeap string _ _ := if toRemote then remoteHeap x else localHeap x.
Definition shift (toRemote : bool) : Z := if toRemote then -1 else 1.

(** Nothing is left to move this way: it is not acceptable, or no vertex gains. *)
Definition exhausted (toRemote : bool) (x : Exchange) : Prop :=
  accept x (shift toRemote) = false ∨
  ∀ k, k ∈ unorderedElements (source_heap toRemote x) → score (vertices x) k <= 0.

(** The vertex moved has the greatest score of its side, and gains. *)
Record moved (toRemote : bool) (x x' : Exchange) (k : string) (v : Vertex) : Prop := {
  mv_vertex : vertices x !! k = Some v;
  mv_acceptable : accept x (shift toRemote) = true;
  mv_gain : 0 < score (vertices x) k;
  mv_greatest : ∀ j, j ∈ unorderedElements (source_heap toRemote x) → score (vertices x) j <= score (vertices x) k;
  mv_source : unorderedElements (source_heap toRemote x) ≡ₚ k :: unorderedElements (source_heap toRemote x');
  mv_other : unorderedElements (other_side toRemote x') ≡ₚ unorderedElements (other_side toRemote x);
  mv_giving : giving x' = if toRemote then giving x ++ [v_id v] else giving x;
  mv_accepting : accepting x' = if toRemote then accepting x else accepting x ++ [v_id v];
  mv_localActivations : localActivations x' = localActivations x + shift toRemote;
  mv_remoteActivations : remoteActivations x' = remoteActivations x - shift toRemote;
  mv_imbalance : imbalance x' = anticipated x (shift toRemote) }.

(** A state with the vertices of another and no more in its heaps. *)
Record drained (toRemote : bool) (x x' : Exchange) : Prop := {
  dr_vertices : vertices x' = vertices x;
  dr_source : ∃ l, unorderedElements (source_heap toRemote x) ≡ₚ l ++ unorderedElements (source_heap toRemote x');
  dr_other : other_side toRemote x' = other_side toRemote x;
  dr_giving : giving x' = giving x;
  dr_accepting : accepting x' = accepting x;
  dr_localActivations : localActivations x' = localActivations x;
  dr_remoteActivations : remoteActivations x' = remoteActivations x;
  dr_imbalance : imbalance x' = imbalance x }.

Lemma source_good toRemote x : x_wf x → heap_good (compareTo (vertices x)) (source_heap toRemote x).
Proof. intros [H1 H2 _ _ _]. by destruct toRemote. Qed.

(** The state with another source heap. *)
Definition with_source (toRemote : bool) (x : Exchange) (h : @MaxHeap string _ _) : Exchange :=
  mkExchange (vertices x) (if toRemote then h else localHeap x) (if toRemote then remoteHeap x else h)
    (giving x) (accepting x) (localActivations x) (remoteActivations x) (imbalance x).

Lemma with_source_wf toRemote x h l : x_wf x → heap_good (compareTo (vertices x)) h →
  unorderedElements (source_heap toRemote x) ≡ₚ l ++ unorderedElements h → x_wf (with_source toRemote x h).
Proof.
  intros [H1 H2 H3 H4 H5] Hg Hp. destruct toRemote; split; simpl in *; try done; intros k Hk;
    [apply H3|apply H4]; rewrite Hp; apply elem_of_app; by right.
Qed.

Lemma score_relocated l k vs j : score (alter (set_location l) k vs) j = score vs j.
Proof.
  unfold score. destruct (decide (j = k)) as [->|]; [|by rewrite lookup_alter_ne].
  rewrite lookup_alter_eq. by destruct (vs !! k).
Qed.

Definition relocate (l : Location) (k : string) (x : Exchange) : Exchange :=
  mkExchange (alter (set_location l) k (vertices x)) (localHeap x) (remoteHeap x) (giving x) (accepting x)
    (localActivations x) (remoteActivations x) (imbalance x).

Lemma relocate_wf l k x : x_wf x → k ∉ unorderedElements (localHeap x) → k ∉ unorderedElements (remoteHeap x) →
  x_wf (relocate l k x).
Proof.
  intros [H1 H2 H3 H4 H5] Hl Hr.
  assert (Hc : ∀ a b, compareTo (vertices x) a b = compareTo (vertices (relocate l k x)) a b)
    by (intros a b; unfold compareTo, relocate; simpl; by rewrite !score_relocated).
  split; simpl.
  - by eapply heap_good_ext.
  - by eapply heap_good_ext.
  - intros j Hj. unfold loc. simpl. rewrite lookup_alter_ne by (intros ->; done). by apply H3.
  - intros j Hj. unfold loc. simpl. rewrite lookup_alter_ne by (intros ->; done). by apply H4.
  - intros j v. destruct (decide (j = k)) as [->|Hne]; [rewrite lookup_alter_eq|rewrite lookup_alter_ne by done; apply H5].
    intros (v0 & Hv0 & ->)%fmap_Some_1. by apply (H5 k v0).
Qed.

Lemma try_move_spec toRemote x : x_wf x →
  let '(x', migrated) := try_move isSatisfiedBy toRemote x in
  x_wf x' ∧
  if migrated then ∃ k v, moved toRemote x x' k v else drained toRemote x x' ∧ exhausted toRemote x'.
Proof.
  intros Hx. unfold try_move, tryMigrateCore. fold (source_heap toRemote x). fold (shift toRemote).
  assert (Hid : with_source toRemote x (source_heap toRemote x) = x) by (by destruct toRemote, x).
  assert (Hnone : ∀ h, x_wf (with_source toRemote x h) →
    (∃ l, unorderedElements (source_heap toRemote x) ≡ₚ l ++ unorderedElements h) →
    exhausted toRemote (with_source toRemote x h) →
    x_wf (with_source toRemote x h) ∧ drained toRemote x (with_source toRemote x h) ∧ exhausted toRemote (with_source toRemote x h)).
  { intros h Hw Hl He. split_and!; [done| |done]. by destruct toRemote; split. }
  destruct (accept x (shift toRemote)) eqn:Hacc; simpl.
  2: { apply (Hnone (source_heap toRemote x)); [by rewrite Hid|by exists []|left; by rewrite Hid]. }
  pose proof (pop_spec (compareTo (vertices x)) (source_heap toRemote x) _ (source_good toRemote x Hx)) as Hpop.
  destruct (pop _ _) as [[k h]|]; simpl.
  2: { apply (Hnone (source_heap toRemote x)); [by rewrite Hid|by exists []|right; rewrite Hid, Hpop; intros k Hk].
       by apply not_elem_of_nil in Hk. }
  destruct Hpop as (Hperm & Hg & Hmax).
  assert (Hws := with_source_wf toRemote x h [k] Hx Hg Hperm).
  assert (Hks : k ∈ unorderedElements (source_heap toRemote x)) by (rewrite Hperm; by left).
  assert (Hk : is_Some (vertices x !! k)).
  { assert (is_Some (loc x k)) as Hl by (destruct toRemote; [rewrite (xw_atLocal _ Hx)|rewrite (xw_atRemote _ Hx)]; done).
    by apply fmap_is_Some in Hl. }
  case_bool_decide as Hsc; simpl.
  { apply (Hnone h); [done|by exists [k]|]. right. intros j Hj.
    assert (Hjs : j ∈ unorderedElements (source_heap toRemote x)).
    { rewrite Hperm. right. by destruct toRemote. }
    specialize (Hmax j Hjs). unfold compareTo in Hmax. simpl. lia. }
  destruct Hk as [v Hv]. rewrite Hv. simpl.
  set (x1 := mkExchange (vertices x) _ _ _ _ _ _ _).
  assert (Hx1 : x_wf x1).
  { destruct Hws as [W1 W2 W3 W4 W5]. exact (Build_x_wf x1 W1 W2 W3 W4 W5). }
  destruct (neighbours_wf toRemote (v_connected v) x1 Hx1) as [Hx2 Hr]; [by apply (xw_vertex _ Hx k)|].
  set (x2 := foldl _ x1 _) in *.
  assert (Hnot : k ∉ unorderedElements h).
  { assert (NoDup (k :: unorderedElements h)) as [? _]%NoDup_cons; [|done]. rewrite <- Hperm. apply source_good, Hx. }
  assert (Hnoto : k ∉ unorderedElements (other_side toRemote x)).
  { intros Ho. destruct toRemote; simpl in *.
    - pose proof (xw_atLocal _ Hx k Hks). pose proof (xw_atRemote _ Hx k Ho). congruence.
    - pose proof (xw_atRemote _ Hx k Hks). pose proof (xw_atLocal _ Hx k Ho). congruence. }
  assert (Hsides : unorderedElements (source_heap toRemote x2) ≡ₚ unorderedElements h ∧
    unorderedElements (other_side toRemote x2) ≡ₚ unorderedElements (other_side toRemote x)).
  { pose proof (rs_local _ _ Hr) as E1. pose proof (rs_remote _ _ Hr) as E2. unfold x1 in E1, E2. simpl in E1, E2.
    by destruct toRemote. }
  destruct Hsides as [Hsrc Hoth]. split.
  - apply (relocate_wf (if toRemote then atRemote else atLocal) k x2 Hx2);
      (destruct toRemote; simpl in *; rewrite ?Hsrc, ?Hoth; assumption).
  - exists k, v. split; try done.
    + lia.
    + intros j Hj. specialize (Hmax j Hj). unfold compareTo in Hmax. lia.
    + destruct toRemote; simpl in *; by rewrite Hperm, Hsrc.
    + simpl. rewrite (rs_giving _ _ Hr). by destruct toRemote.
    + simpl. rewrite (rs_accepting _ _ Hr). by destruct toRemote.
    + simpl. by rewrite (rs_localActivations _ _ Hr).
    + simpl. by rewrite (rs_remoteActivations _ _ Hr).
    + simpl. by rewrite (rs_imbalance _ _ Hr).
Qed.

(** ** The loop *)

Lemma try_move_stays toRemote x : x_wf x → (try_move isSatisfiedBy toRemote x).2 = false →
  drained toRemote x (try_move isSatisfiedBy toRemote x).1 ∧ exhausted toRemote (try_move isSatisfiedBy toRemote x).1.
Proof. intros Hx. pose proof (try_move_spec toRemote x Hx) as H. destruct (try_move _ _ x) as [x' []]; naive_solver. Qed.

(** What the rounds from [x0] to [x] did: the grains given and accepted, once
    each, and the vertices that left the heaps unmoved. *)
Record progress (x0 x : Exchange) (given accepted : list GrainId) : Prop := {
  pr_local : ∃ left, unorderedElements (localHeap x0) ≡ₚ
    (GrainId_toString <$> given) ++ left ++ unorderedElements (localHeap x);
  pr_remote : ∃ left, unorderedElements (remoteHeap x0) ≡ₚ
    (GrainId_toString <$> accepted) ++ left ++ unorderedElements (remoteHeap x);
  pr_giving : giving x = giving x0 ++ given;
  pr_accepting : accepting x = accepting x0 ++ accepted;
  pr_localActivations : localActivations x = localActivations x0 + Z.of_nat (length accepted) - Z.of_nat (length given);
  pr_remoteActivations : remoteActivations x = remoteActivations x0 + Z.of_nat (length given) - Z.of_nat (length accepted);
  pr_imbalance : imbalance x0 = Z.abs (localActivations x0 - remoteActivations x0) →
    imbalance x = Z.abs (localActivations x - remoteActivations x);
  pr_tolerated : ∃ t, imbalance x <= t ∧ (t = imbalance x0 ∨ isSatisfiedBy t = true) }.

Lemma progress_refl x : progress x x [] [].
Proof.
  split; rewrite ?app_nil_r; simpl; try done; try lia; try (exists []; done).
  exists (imbalance x). split; [lia|by left].
Qed.

Lemma progress_trans x y z g a g' a' : progress x y g a → progress y z g' a' → progress x z (g ++ g') (a ++ a').
Proof.
  intros [(l1 & A1) (l2 & A2) A3 A4 A5 A6 A7 (t & A8 & A9)] [(m1 & B1) (m2 & B2) B3 B4 B5 B6 B7 (u & B8 & B9)].
  split; rewrite ?fmap_app, ?length_app; try lia; try naive_solver.
  - exists (l1 ++ m1). rewrite A1, B1. solve_Permutation.
  - exists (l2 ++ m2). rewrite A2, B2. solve_Permutation.
  - by rewrite B3, A3, app_assoc.
  - by rewrite B4, A4, app_assoc.
  - destruct B9 as [->|B9]; [|exists u; split; [done|by right]]. exists t. split; [lia|done].
Qed.

Lemma drained_progress toRemote x x' : drained toRemote x x' → progress x x' [] [].
Proof.
  intros [D1 (l & D2) D3 D4 D5 D6 D7 D8]. destruct toRemote; simpl in *;
    (split; rewrite ?app_nil_r, ?D3, ?D4, ?D5, ?D6, ?D7, ?D8; simpl; try done; try lia; try (by exists l);
     first [by exists []|exists (imbalance x); split; [lia|by left]]).
Qed.

Lemma moved_progress toRemote x x' k v : x_wf x → moved toRemote x x' k v →
  progress x x' (if toRemote then [v_id v] else []) (if toRemote then [] else [v_id v]).
Proof.
  intros Hx [M1 M2 M3 M4 M5 M6 M7 M8 M9 M10 M11]. pose proof (xw_vertex _ Hx k v M1) as [Hk _].
  assert (Ht : ∃ t, imbalance x' <= t ∧ (t = imbalance x ∨ isSatisfiedBy t = true)).
  { unfold acceptable in M2. rewrite <- M11 in M2. apply orb_true_iff in M2 as [M2%bool_decide_eq_true|M2].
    - exists (imbalance x). split; [lia|by left].
    - exists (imbalance x'). split; [lia|by right]. }
  subst k. destruct toRemote; simpl in *;
    (split; simpl; try done; try lia; rewrite ?app_nil_r; try done;
     first [exists []; simpl; by rewrite M5|exists []; simpl; by rewrite M6|unfold anticipated in M11; simpl in *; intros; lia]).
Qed.

(** The vertices still in a heap. *)
Definition candidates_left (x : Exchange) : nat :=
  length (unorderedElements (localHeap x)) + length (unorderedElements (remoteHeap x)).

Lemma candidates_left_fuel x : x_wf x → exchange_fuel x = S (candidates_left x).
Proof.
  intros [[H1 _] [H2 _] _ _ _]. unfold exchange_fuel, candidates_left. by rewrite !heap_size_elements.
Qed.

Lemma progress_left x y g a : progress x y g a → (candidates_left y + length g + length a <= candidates_left x)%nat.
Proof.
  intros [(l1 & A1) (l2 & A2) _ _ _ _ _ _]. unfold candidates_left.
  rewrite A1, A2, !length_app, !length_fmap. lia.
Qed.

(** Nothing is left to move either way. *)
Definition stuck (x : Exchange) : Prop := ∀ toRemote, exhausted toRemote x.

Lemma drained_exhausted toRemote x x' : drained (negb toRemote) x x' → exhausted toRemote x → exhausted toRemote x'.
Proof.
  intros [D1 _ D3 _ _ D6 D7 D8] He.
  assert (Ha : accept x' (shift toRemote) = accept x (shift toRemote)).
  { unfold acceptable, anticipated. by rewrite D6, D7, D8. }
  assert (Hs : source_heap toRemote x' = source_heap toRemote x) by by destruct toRemote.
  unfold exhausted. by rewrite Ha, Hs, D1.
Qed.

Lemma exchange_round_spec x : x_wf x →
  let '(x', migrated) := exchange_round isSatisfiedBy x in
  x_wf x' ∧ ∃ g a, progress x x' g a ∧ if migrated then (candidates_left x' < candidates_left x)%nat else stuck x'.
Proof.
  intros Hx. unfold exchange_round. set (d := preferLocalFirst x). clearbody d.
  assert (Hstep : ∀ d x, x_wf x → ∀ x', try_move isSatisfiedBy d x = (x', true) →
    x_wf x' ∧ ∃ g a, progress x x' g a ∧ (0 < length g + length a)%nat).
  { clear. intros d x Hx x' Heq. pose proof (try_move_spec d x Hx) as H. rewrite Heq in H.
    destruct H as (Hx' & k & v & Hm). split; [done|]. eexists _, _. split; [by eapply moved_progress|]. by destruct d; simpl; lia. }
  destruct (try_move isSatisfiedBy d x) as [x1 []] eqn:E1; simpl.
  - destruct (Hstep _ _ Hx _ E1) as (Hx1 & g & a & Hp & Hl). split; [done|]. exists g, a. split; [done|].
    apply progress_left in Hp. lia.
  - pose proof (try_move_spec d x Hx) as H1. rewrite E1 in H1. destruct H1 as (Hx1 & Hd1 & He1).
    destruct (try_move isSatisfiedBy (negb d) x1) as [x2 []] eqn:E2; simpl.
    + destruct (Hstep _ _ Hx1 _ E2) as (Hx2 & g & a & Hp & Hl). split; [done|].
      assert (Hp' := progress_trans _ _ _ _ _ _ _ (drained_progress _ _ _ Hd1) Hp). simpl in Hp'.
      exists g, a. split; [done|]. apply progress_left in Hp'. lia.
    + pose proof (try_move_spec (negb d) x1 Hx1) as H2. rewrite E2 in H2. destruct H2 as (Hx2 & Hd2 & He2).
      split; [done|]. exists [], []. split.
      { apply (progress_trans x x1 x2 [] [] [] []); by eapply drained_progress. }
      intros d'. destruct (decide (d' = d)) as [->|Hne]; [by eapply drained_exhausted|].
      assert (d' = negb d) as -> by (by destruct d', d). done.
Qed.

Lemma exchange_loop_spec fuel : ∀ x, x_wf x → (candidates_left x < fuel)%nat →
  let '(x', ended) := exchange_loop isSatisfiedBy fuel x in
  ended = true ∧ x_wf x' ∧ stuck x' ∧ ∃ g a, progress x x' g a.
Proof.
  induction fuel as [|fuel IH]; intros x Hx Hf; [lia|]. simpl.
  pose proof (exchange_round_spec x Hx) as H. destruct (exchange_round _ x) as [x1 []];
    destruct H as (Hx1 & g & a & Hp & Hr).
  - specialize (IH x1 Hx1 ltac:(lia)). destruct (exchange_loop _ fuel x1) as [x2 e].
    destruct IH as (He & Hx2 & Hs & g' & a' & Hp'). split_and!; try done. exists (g ++ g'), (a ++ a').
    by eapply progress_trans.
  - split_and!; try done. by exists g, a.
Qed.
End moves.

(** ** The heaps an exchange starts with *)

Definition loc_of (vs : Store) (k : string) : Location := default unknown (v_location <$> vs !! k).
Definition vertices_ok (vs : Store) : Prop :=
  ∀ k v, vs !! k = Some v → GrainId_toString (v_id v) = k ∧ nonneg_weights (v_connected v).
Definition candidate_ok (c : CandidateVertex) : Prop := Forall (λ e, 0 <= e.2) (connectedVertices c).

(** A store that has more vertices and connections than another. *)
Record extends (vs vs' : Store) : Prop := {
  ex_loc : ∀ k, loc_of vs' k = loc_of vs k;
  ex_keeps : ∀ k, is_Some (vs !! k) → is_Some (vs' !! k);
  ex_ok : vertices_ok vs → vertices_ok vs' }.

Lemma extends_refl vs : extends vs vs.
Proof. by split. Qed.
Lemma extends_trans a b c : extends a b → extends b c → extends a c.
Proof. intros [A1 A2 A3] [B1 B2 B3]. split; auto. intros k. by rewrite B1. Qed.

Lemma getOrAdd_extends vs c : extends vs (getOrAdd vs c) ∧ is_Some (getOrAdd vs c !! key_of c).
Proof.
  unfold getOrAdd. destruct (vs !! key_of c) as [v|] eqn:Hv; [split; [apply extends_refl|by eexists]|].
  split; [|rewrite lookup_insert_eq; by eexists]. split.
  - intros k. unfold loc_of. destruct (decide (k = key_of c)) as [->|Hne];
      [by rewrite lookup_insert_eq, Hv|by rewrite lookup_insert_ne].
  - intros k Hk. rewrite lookup_insert_is_Some'. by right.
  - intros Hok k v. rewrite lookup_insert_Some. intros [[<- <-]|[_ Hk]]; [split; [reflexivity|apply Forall_nil_2]|by apply Hok].
Qed.

Lemma connect_extends vs k key w : 0 <= w → extends vs (alter (connect key w) k vs).
Proof.
  intros Hw. split.
  - intros j. unfold loc_of. destruct (decide (j = k)) as [->|Hne]; [|by rewrite lookup_alter_ne].
    rewrite lookup_alter_eq. by destruct (vs !! k).
  - intros j. destruct (decide (j = k)) as [->|Hne]; [rewrite lookup_alter_eq|by rewrite lookup_alter_ne].
    by rewrite fmap_is_Some.
  - intros Hok j v. destruct (decide (j = k)) as [->|Hne]; [rewrite lookup_alter_eq|rewrite lookup_alter_ne by done; apply Hok].
    intros (v0 & Hv0 & ->)%fmap_Some_1. destruct (Hok k v0 Hv0) as [H1 H2]. split; [done|].
    apply Forall_app. split; [done|]. by apply Forall_singleton.
Qed.

Lemma createVertex_extends idx vs c : candidate_ok c →
  extends vs (createVertex idx vs c) ∧ is_Some (createVertex idx vs c !! key_of c).
Proof.
  unfold createVertex, candidate_ok. destruct (getOrAdd_extends vs c) as [He Hs]. revert He Hs.
  generalize (getOrAdd vs c). induction (connectedVertices c) as [|e l IH]; intros vs1 He Hs Hok; simpl; [done|].
  apply Forall_cons in Hok as [Hw Hok]. apply IH; [| |done].
  - eapply extends_trans; [exact He|]. unfold connect_to. destruct (idx !! _) as [s|]; [|apply extends_refl].
    eapply extends_trans; [apply getOrAdd_extends|by apply connect_extends].
  - unfold connect_to. destruct (idx !! _) as [s|]; [|done].
    apply connect_extends; [done|]. by apply getOrAdd_extends.
Qed.

Lemma relocated_ok l k vs : vertices_ok vs → vertices_ok (alter (set_location l) k vs).
Proof.
  intros Hok j v. destruct (decide (j = k)) as [->|Hne]; [rewrite lookup_alter_eq|rewrite lookup_alter_ne by done; apply Hok].
  intros (v0 & Hv0 & ->)%fmap_Some_1. by apply (Hok k v0).
Qed.
Lemma relocated_loc l k vs j : is_Some (vs !! k) →
  loc_of (alter (set_location l) k vs) j = if decide (j = k) then l else loc_of vs j.
Proof.
  intros [v Hv]. unfold loc_of. case_decide as Hj; [subst j|by rewrite lookup_alter_ne].
  by rewrite lookup_alter_eq, Hv.
Qed.

Lemma place_local_spec idx cs : ∀ vs keys, Forall candidate_ok cs → vertices_ok vs →
  let '(vs', keys') := foldl (place_local idx) (vs, keys) cs in
  vertices_ok vs' ∧ keys' = keys ++ (key_of <$> cs) ∧
  ∀ k, loc_of vs' k = if decide (k ∈ key_of <$> cs) then atLocal else loc_of vs k.
Proof.
  induction cs as [|c cs IH]; intros vs keys Hcs Hok; cbn [foldl]; [|rewrite fmap_cons].
  { split_and!; [done|by rewrite app_nil_r|]. intros k. case_decide as Hk; [by apply elem_of_nil in Hk|done]. }
  apply Forall_cons in Hcs as [Hc Hcs]. destruct (createVertex_extends idx vs c Hc) as [[E1 E2 E3] Hs].
  set (vs1 := alter (set_location atLocal) (key_of c) (createVertex idx vs c)). specialize (IH vs1 (keys ++ [key_of c]) Hcs (relocated_ok _ _ _ (E3 Hok))).
  change (place_local idx (vs, keys) c) with (vs1, keys ++ [key_of c]). destruct (foldl _ _ cs) as [vs' keys']. destruct IH as (I1 & I2 & I3).
  split_and!; [done|by rewrite I2, <- app_assoc|]. intros k. rewrite I3. unfold vs1. rewrite relocated_loc, E1 by done.
  repeat case_decide; try done; set_solver.
Qed.

Lemma place_remote_spec idx cs : ∀ vs keys, Forall candidate_ok cs → vertices_ok vs →
  let '(vs', keys') := foldl (place_remote idx) (vs, keys) cs in
  ∃ placed, vertices_ok vs' ∧ keys' = keys ++ placed ∧ NoDup placed ∧
  (∀ k, k ∈ placed ↔ k ∈ key_of <$> cs ∧ loc_of vs k = unknown) ∧
  ∀ k, loc_of vs' k = if decide (k ∈ placed) then atRemote else loc_of vs k.
Proof.
  induction cs as [|c cs IH]; intros vs keys Hcs Hok; cbn [foldl]; [|rewrite fmap_cons].
  { exists []. split_and!; [done|by rewrite app_nil_r|apply NoDup_nil_2| |].
    - intros k. rewrite fmap_nil, elem_of_nil. naive_solver.
    - done. }
  apply Forall_cons in Hcs as [Hc Hcs]. destruct (createVertex_extends idx vs c Hc) as [[E1 E2 E3] Hs].
  unfold place_remote at 2. simpl. assert (Hs' := Hs). destruct Hs' as [v Hv]. rewrite Hv. simpl.
  assert (Hl : loc_of vs (key_of c) = v_location v) by (rewrite <- E1; unfold loc_of; by rewrite Hv).
  case_decide as Hu; [assert (v_location v = unknown) as Hu' by congruence|assert (v_location v ≠ unknown) as Hu' by congruence].
  - set (vs1 := alter (set_location atRemote) (key_of c) (createVertex idx vs c)). specialize (IH vs1 (keys ++ [key_of c]) Hcs (relocated_ok _ _ _ (E3 Hok))).
    destruct (foldl _ _ cs) as [vs' keys']. destruct IH as (placed & I1 & I2 & I3 & I4 & I5).
    assert (Hloc : ∀ k, loc_of vs1 k = if decide (k = key_of c) then atRemote else loc_of vs k)
      by (intros k; unfold vs1; by rewrite relocated_loc, E1).
    exists (key_of c :: placed). split_and!; [done|by rewrite I2, <- app_assoc| | |].
    + apply NoDup_cons. split; [|done]. rewrite I4, Hloc, decide_True by done. naive_solver.
    + intros k. rewrite !elem_of_cons, I4, Hloc. case_decide; naive_solver congruence.
    + intros k. rewrite I5, Hloc. repeat case_decide; try done; set_solver.
  - specialize (IH (createVertex idx vs c) keys Hcs (E3 Hok)). destruct (foldl _ _ cs) as [vs' keys'].
    destruct IH as (placed & I1 & I2 & I3 & I4 & I5). exists placed. split_and!; try done.
    + intros k. rewrite elem_of_cons, I4, E1. naive_solver congruence.
    + intros k. by rewrite I5, E1.
Qed.

Lemma start_exchange_spec local remote la ra :
  NoDup (key_of <$> local) → Forall candidate_ok local → Forall candidate_ok remote →
  let x := start_exchange local remote la ra in
  x_wf x ∧ unorderedElements (localHeap x) ≡ₚ key_of <$> local ∧ NoDup (unorderedElements (remoteHeap x)) ∧
  (∀ k, k ∈ unorderedElements (remoteHeap x) ↔ k ∈ key_of <$> remote ∧ k ∉ key_of <$> local) ∧
  giving x = [] ∧ accepting x = [] ∧ localActivations x = la ∧ remoteActivations x = ra ∧ imbalance x = Z.abs (la - ra).
Proof.
  intros Hnd Hl Hr x. subst x. unfold start_exchange, createCandidateHeaps. cbv zeta. set (idx := index_candidates local remote).
  pose proof (place_local_spec idx local ∅ [] Hl) as H1. destruct (foldl (place_local idx) _ local) as [vs1 ll].
  destruct H1 as (A1 & -> & A3); [by intros k v ?|]. simpl in A3.
  pose proof (place_remote_spec idx remote vs1 [] Hr A1) as H2. destruct (foldl (place_remote idx) _ remote) as [vs rl].
  destruct H2 as (placed & B1 & -> & B3 & B4 & B5). cbn [app].
  assert (Hloc1 : ∀ k, loc_of vs1 k = if decide (k ∈ key_of <$> local) then atLocal else unknown) by done.
  destruct (new_heap_spec (compareTo vs) (key_of <$> local)) as [C1 C2]; [apply _|done|].
  destruct (new_heap_spec (compareTo vs) placed) as [D1 D2]; [apply _|done|].
  assert (Hplaced : ∀ k, k ∈ placed ↔ k ∈ key_of <$> remote ∧ k ∉ key_of <$> local).
  { intros k. rewrite B4, Hloc1. case_decide; naive_solver. }
  assert (Hloc : ∀ k l, loc_of vs k = l → l ≠ unknown → v_location <$> vs !! k = Some l).
  { intros k l <-. unfold loc_of. by destruct (vs !! k). }
  simpl. split_and!; try done; [|by rewrite D2|by intros k; rewrite D2].
  split; simpl; try done; intros k Hk; apply Hloc; try done.
  - rewrite C2 in Hk. rewrite B5, decide_False, Hloc1; [by rewrite decide_True|]. rewrite Hplaced. naive_solver.
  - rewrite D2 in Hk. by rewrite B5, decide_True.
Qed.

(** ** The candidates *)

Definition edges_ok (k : string) (es : list VertexEdge) : Prop :=
  es ≠ [] ∧ Forall (λ e, GrainId_toString (ve_sourceId e) = k ∧ 0 <= ve_weight e) es.
Definition candidates_ok (m : list (string * list VertexEdge)) : Prop :=
  jm_ok m ∧ ∀ k es, jm_get k m = Some es → edges_ok k es.

Lemma push_ok v m : 0 <= ve_weight v → candidates_ok m → candidates_ok (push v m).
Proof.
  intros Hw [Hm He]. unfold push. destruct (ve_isMigratable v); [|done]. split; [by apply jm_ok_set|].
  intros k es. rewrite jm_get_set. case_decide as Hk; [|apply He]. subst k. intros [= <-]. split.
  - by destruct (default [] _).
  - apply Forall_app. split; [|by apply Forall_singleton].
    destruct (jm_get _ m) as [es|] eqn:Hes; [|apply Forall_nil_2]. by apply He.
Qed.

Lemma getMigrationCandidates_ok local (edges : @FrequentItems Edge) :
  Forall (λ c, 0 <= count c) (heap edges) → candidates_ok (getMigrationCandidates local edges).
Proof.
  unfold getMigrationCandidates. assert (H0 : candidates_ok []) by (split; [apply jm_ok_nil|done]). revert H0.
  generalize (@nil (string * list VertexEdge)).
  induction (heap edges) as [|c l IH]; intros m Hm Hc; [done|]. apply Forall_cons in Hc as [Hc Hl].
  cbn [foldl]. apply IH; [|done]. unfold candidate_edges. cbv zeta. case_bool_decide; [done|].
  destruct (SiloAddress_equals _ local), (SiloAddress_equals _ local); simpl; by repeat apply push_ok.
Qed.

Lemma candidate_for_ok other k es c : edges_ok k es → candidate_for other es = Some c →
  key_of c = k ∧ candidate_ok c ∧ 0 < accumulatedTransferScore c.
Proof.
  intros [Hne Hall]. unfold candidate_for. destruct (edge_scores other es) as [l r].
  case_bool_decide as Hle; [done|]. destruct es as [|e es]; [done|]. cbn [head mbind option_bind]. intros [= <-].
  split_and!; [by apply Forall_cons in Hall as [[? _] _]| |simpl; lia].
  change (Forall (λ p : GrainId * Z, 0 <= p.2) ((λ e, (ve_targetId e, ve_weight e)) <$> e :: es)). apply Forall_fmap. eapply Forall_impl; [exact Hall|].
  by intros e' [_ ?].
Qed.

Lemma getCandidatesForSilo_ok m other : candidates_ok m →
  NoDup (key_of <$> getCandidatesForSilo m other) ∧
  Forall (λ c, candidate_ok c ∧ 0 < accumulatedTransferScore c) (getCandidatesForSilo m other).
Proof.
  unfold getCandidatesForSilo, candidates_ok, jm_ok, jm_values, jm_keys.
  induction m as [|[k es] m IH]; intros [Hm He]; [by split; [apply NoDup_nil_2|apply Forall_nil_2]|].
  rewrite fmap_cons in Hm. apply NoDup_cons in Hm as [Hk Hm]. simpl in Hk.
  destruct IH as [I1 I2].
  { split; [done|]. intros k' es' Hg. apply He. simpl. rewrite decide_False; [done|]. intros ->.
    apply jm_get_Some_elem in Hg. apply Hk. apply list_elem_of_fmap. by exists (k', es'). }
  assert (Hsub : ∀ k', k' ∈ key_of <$> omap (candidate_for other) m.*2 → k' ∈ m.*1).
  { intros k' (c & -> & (es' & ((k0, es0) & Hes & Hin)%list_elem_of_fmap & Hc)%list_elem_of_omap)%list_elem_of_fmap.
    simpl in Hes. subst es'. apply (jm_elem_get _ _ _ Hm) in Hin as Hg.
    assert (jm_get k0 ((k, es) :: m) = Some es0) as Hg'.
    { simpl. rewrite decide_False; [done|]. intros ->. apply Hk. apply list_elem_of_fmap. by exists (k0, es0). }
    destruct (candidate_for_ok _ _ _ _ (He _ _ Hg') Hc) as [<- _]. apply list_elem_of_fmap. by exists (key_of c, es0). }
  specialize (He k es ltac:(simpl; by rewrite decide_True)). rewrite fmap_cons. cbn [snd].
  change (omap (candidate_for other) (es :: m.*2)) with
    (match candidate_for other es with Some c => c :: omap (candidate_for other) m.*2 | None => omap (candidate_for other) m.*2 end).
  destruct (candidate_for other es) as [c|] eqn:Hc; [|done].
  destruct (candidate_for_ok _ _ _ _ He Hc) as (Hck & H1 & H2). rewrite fmap_cons. split.
  - apply NoDup_cons. split; [|done]. rewrite Hck. intros Hin. by apply Hk, Hsub.
  - by apply Forall_cons.
Qed.

(** ** Pruning *)

Lemma touches_ext aff (a b : @Counter Edge) : element a = element b → touches aff a = touches aff b.
Proof. unfold touches. by intros ->. Qed.

Lemma prune_spec maxEdgeCount hist l : ∀ s, items_wf getKey maxEdgeCount hist s →
  let s' := foldl (λ s c, (removeCore getKey (getKey (element c)) s).1) s l in
  items_wf getKey maxEdgeCount hist s' ∧
  ∀ c, c ∈ heap s' ↔ c ∈ heap s ∧ ∀ r, r ∈ l → counter_key getKey c ≠ counter_key getKey r.
Proof.
  induction l as [|r l IH]; intros s Hw; simpl; [split; [done|]; set_solver|].
  destruct (IH _ (remove_wf getKey maxEdgeCount hist (getKey (element r)) s Hw)) as [I1 I2]. split; [done|].
  intros c. rewrite I2, (remove_elements getKey maxEdgeCount hist) by done.
  split; [intros [[? ?] ?]; split; [done|]; intros r' [->|?]%elem_of_cons; auto|].
  intros [? Hr]. split_and!; [done|apply (Hr r); by left|]. intros r' ?. apply Hr. by right.
Qed.

Lemma finalize_spec maxEdgeCount hist giving accepting r : items_wf getKey maxEdgeCount hist (edgeWeights r) →
  let r' := finalizeProtocol giving accepting r in
  items_wf getKey maxEdgeCount hist (edgeWeights r') ∧
  ∀ c, c ∈ heap (edgeWeights r') ↔ c ∈ heap (edgeWeights r) ∧ touches (GrainId_toString <$> (giving ++ accepting)) c = false.
Proof.
  intros Hw. unfold finalizeProtocol. cbv zeta. set (aff := GrainId_toString <$> _).
  destruct (prune_spec maxEdgeCount hist (filter (λ c, touches aff c = true) (heap (edgeWeights r))) _ Hw) as [P1 P2].
  split; [done|]. intros c. simpl. rewrite P2. split; intros [Hc Ht]; (split; [done|]).
  - apply not_true_iff_false. intros Htc. apply (Ht c); [|done]. by apply list_elem_of_filter.
  - intros c' [Ht' Hc']%list_elem_of_filter Hk.
    assert (c = c') as ->; [|congruence].
    pose proof (iw_nodup _ _ _ _ Hw) as Hnd.
    apply list_elem_of_lookup in Hc as [i Hi]. apply list_elem_of_lookup in Hc' as [j Hj].
    assert (i = j) as ->; [|congruence].
    eapply (NoDup_lookup _ _ _ (counter_key getKey c)); [exact Hnd|..]; rewrite list_lookup_fmap; [by rewrite Hi|by rewrite Hj; simpl; f_equal].
Qed.

(** ** What an exchange agrees on *)

Section contract.
Context (local : SiloAddress) (maxEdgeCount : nat) (recoveryPeriodMs : Z) (isSatisfiedBy : Z → bool).

Lemma wf_candidates hist r other : items_wf getKey maxEdgeCount hist (edgeWeights r) →
  let localSet := getCandidatesForSilo (getMigrationCandidates local (edgeWeights r)) other in
  NoDup (key_of <$> localSet) ∧ Forall candidate_ok localSet.
Proof.
  intros Hw. destruct (getCandidatesForSilo_ok (getMigrationCandidates local (edgeWeights r)) other) as [H1 H2].
  - apply getMigrationCandidates_ok. apply Forall_forall. intros c Hc. pose proof (iw_counts _ _ _ _ Hw c Hc). lia.
  - split; [done|]. eapply Forall_impl; [exact H2|]. by intros c [? _].
Qed.

(** Whether a request comes within the recovery period of the last exchange. *)
Definition too_soon (now : Z) (r : Repartitioner) : Prop :=
  match lastExchangeAt r with Some t => now - t < recoveryPeriodMs | None => False end.

(** C20: A silo asked for an exchange outside its recovery period always settles
    on one: the search ends, neither direction having a grain left that gains by
    moving within the tolerated imbalance. What it gives are candidates of its
    own, what it accepts are grains offered that are none of its own candidates,
    no grain twice; and afterwards the difference of the two activation counts is
    at most what it was, or at most an imbalance the rule tolerates. *)
Theorem exchange_contract hist now n request r :
  items_wf getKey maxEdgeCount hist (edgeWeights r) → Forall candidate_ok (exchangeSet request) → ¬ too_soon now r →
  let localSet := getCandidatesForSilo (getMigrationCandidates local (edgeWeights r)) (sendingSilo request) in
  let here := getLocalActivationCount n r in
  let there := activationCountSnapshot request in
  let x0 := start_exchange localSet (exchangeSet request) here there in
  let '(x, ended) := exchange_loop isSatisfiedBy (exchange_fuel x0) x0 in
  accept_begin local recoveryPeriodMs isSatisfiedBy now n request r = inr (giving x, accepting x) ∧
  ended = true ∧ stuck isSatisfiedBy x ∧
  NoDup (GrainId_toString <$> giving x ++ accepting x) ∧
  (∀ k, k ∈ GrainId_toString <$> giving x → k ∈ key_of <$> localSet) ∧
  (∀ k, k ∈ GrainId_toString <$> accepting x → k ∈ key_of <$> exchangeSet request ∧ k ∉ key_of <$> localSet) ∧
  localActivations x = here + Z.of_nat (length (accepting x)) - Z.of_nat (length (giving x)) ∧
  remoteActivations x = there + Z.of_nat (length (giving x)) - Z.of_nat (length (accepting x)) ∧
  ∃ t, Z.abs (localActivations x - remoteActivations x) <= t ∧ (t = Z.abs (here - there) ∨ isSatisfiedBy t = true).
Proof.
  intros Hw Hreq Hsoon localSet here there x0. destruct (wf_candidates hist r (sendingSilo request) Hw) as [Hnd Hok].
  fold localSet in Hnd, Hok.
  destruct (start_exchange_spec localSet (exchangeSet request) here there Hnd Hok Hreq)
    as (Hx0 & Hl0 & Hrn & Hr0 & Hg0 & Ha0 & Hla & Hra & Him). fold x0 in Hx0, Hl0, Hrn, Hr0, Hg0, Ha0, Hla, Hra, Him.
  pose proof (exchange_loop_spec isSatisfiedBy (exchange_fuel x0) x0 Hx0) as Hloop.
  assert (Hrun : run_exchange isSatisfiedBy x0 = (exchange_loop isSatisfiedBy (exchange_fuel x0) x0).1) by done.
  rewrite candidates_left_fuel in Hloop at 1 by done. specialize (Hloop ltac:(lia)).
  destruct (exchange_loop _ _ x0) as [x ended]. destruct Hloop as (-> & Hx & Hs & g & a & Hp).
  assert (Hb : accept_begin local recoveryPeriodMs isSatisfiedBy now n request r = inr (giving x, accepting x)).
  { unfold accept_begin. replace (match lastExchangeAt r with Some t => _ | None => _ end) with false.
    - cbv zeta. fold localSet here there x0. by rewrite Hrun.
    - unfold too_soon in Hsoon. destruct (lastExchangeAt r); [|done]. symmetry. by apply bool_decide_eq_false. }
  destruct Hp as [(l1 & P1) (l2 & P2) P3 P4 P5 P6 P7 P8]. rewrite Hg0 in P3. rewrite Ha0 in P4. simpl in P3, P4. subst g a.
  rewrite Hl0 in P1.
  assert (Hgl : ∀ k, k ∈ GrainId_toString <$> giving x → k ∈ key_of <$> localSet).
  { intros k Hk. rewrite P1. apply elem_of_app. by left. }
  assert (Har : ∀ k, k ∈ GrainId_toString <$> accepting x → k ∈ key_of <$> exchangeSet request ∧ k ∉ key_of <$> localSet).
  { intros k Hk. apply Hr0. rewrite P2. apply elem_of_app. by left. }
  split_and!; try done; try lia.
  - rewrite fmap_app. apply NoDup_app. split_and!.
    + rewrite P1 in Hnd. by apply NoDup_app in Hnd as [? _].
    + intros k Hk Hk'. by apply Har in Hk' as [_ []]; apply Hgl.
    + rewrite P2 in Hrn. by apply NoDup_app in Hrn as [? _].
  - rewrite Hla, Hra in P7. rewrite <- (P7 Him). destruct P8 as (t & Ht & Ho). exists t. by rewrite Him in Ho.
Qed.

(** An exchange, once agreed, leaves no trace of the grains that moved and
    forgets nothing else: of the edges tracked before exactly those that touch no
    given or accepted grain are tracked afterwards, with their counts; the sketch
    is well formed, and a request within the recovery period is turned away with
    nothing given or accepted. *)
Theorem exchange_prunes hist giving accepting now r :
  items_wf getKey maxEdgeCount hist (edgeWeights r) →
  let '(r', response) := accept_end giving accepting now r in
  response = mkResponse success accepting giving ∧
  items_wf getKey maxEdgeCount hist (edgeWeights r') ∧
  (∀ c, c ∈ heap (edgeWeights r') ↔
    c ∈ heap (edgeWeights r) ∧
    ∀ g, g ∈ giving ++ accepting →
      GrainId_toString g ≠ GrainId_toString (ev_id (e_source (element c))) ∧
      GrainId_toString g ≠ GrainId_toString (ev_id (e_target (element c)))) ∧
  ∀ now' n request, now' < now + recoveryPeriodMs →
    accept_begin local recoveryPeriodMs isSatisfiedBy now' n request r' = inl (mkResponse exchangedRecently [] []).
Proof.
  intros Hw. unfold accept_end. cbv zeta. destruct (finalize_spec maxEdgeCount hist giving accepting r Hw) as [F1 F2].
  cbn [edgeWeights]. split_and!; [done|done| |].
  - intros c. rewrite F2. apply and_iff_compat_l. unfold touches. rewrite orb_false_iff, !bool_decide_eq_false, !list_elem_of_fmap.
    split; [intros [H1 H2] g Hg; split; intros He; [apply H1|apply H2]; by exists g|].
    intros H. split; intros (g & He & Hg); destruct (H g Hg); congruence.
  - intros now' n request Hn. unfold accept_begin. simpl. by rewrite bool_decide_true by lia.
Qed.
End contract.

(** ** Runs *)
Module Runs.
Definition siloA : SiloAddress := mkSilo "a" "ua" "a:1".
Definition siloB : SiloAddress := mkSilo "b" "ub" "b:1".
Definition grain (n : Z) : GrainId := mkGrainId "Cart" (KInt n).
(** Grain 1 of silo a calls grain 11 of silo b, which calls grain 2 of silo a. *)
Definition edges : list Edge :=
  let a n := mkVertex (grain n) siloA true in
  let b n := mkVertex (grain n) siloB true in
  [mkEdge (a 1) (b 11); mkEdge (a 1) (b 11); mkEdge (b 12) (a 2)].
Definition sketch_ops : list (@FOp Edge) := Frequent.Add <$> edges.
Definition request : AcceptExchangeRequest :=
  mkRequest siloB [mkCandidate (grain 11) 2 [(grain 1, 2)]; mkCandidate (grain 12) 1 [(grain 2, 1)]] 4.
Definition tolerates (d : Z) : bool := bool_decide (d <= 1).

Lemma requested : Forall candidate_ok (exchangeSet request).
Proof. repeat (apply Forall_cons; split; [apply Forall_singleton; simpl; lia|]). apply Forall_nil_2. Qed.
Definition busy_silo : option Repartitioner :=
  (λ s, mkRepartitioner s 0 None) <$> frun getKey 8 (new_items 8) sketch_ops.
Definition idle : Repartitioner := new_repartitioner 8.

Lemma busy_silo_wf : ∃ r, busy_silo = Some r ∧ items_wf getKey 8 (added getKey sketch_ops) (edgeWeights r) ∧ lastExchangeAt r = None.
Proof.
  destruct (frun_wf getKey 8 sketch_ops ltac:(lia) (λ _, 0) (new_items 8) (new_wf _ _ _)) as (s & Hs & Hw); [done|].
  exists (mkRepartitioner s 0 None). split; [unfold busy_silo; by rewrite Hs|]. split; [|done].
  eapply items_wf_mono, Hw. intros k. simpl. lia.
Qed.

Lemma exchange_contract_witness :
  ∃ r, busy_silo = Some r ∧
    accept_begin siloA 100 tolerates 0 5 request r = inr ([grain 1], [grain 12]) ∧
    NoDup (GrainId_toString <$> [grain 1] ++ [grain 12]).
Proof.
  destruct busy_silo_wf as (r & Hr & Hw & Hl). exists r. split; [exact Hr|].
  assert (Hb : (λ r, accept_begin siloA 100 tolerates 0 5 request r) <$> busy_silo = Some (inr ([grain 1], [grain 12])))
    by (vm_compute; reflexivity).
  rewrite Hr in Hb. apply (inj Some) in Hb. simpl in Hb.
  assert (Hs : ¬ too_soon 100 0 r) by (unfold too_soon; rewrite Hl; exact id).
  pose proof (exchange_contract siloA 8 100 tolerates _ 0 5 request r Hw requested Hs) as H. cbv zeta in H.
  destruct (exchange_loop _ _ _) as [x e]. destruct H as (H1 & _ & _ & H2 & _).
  rewrite Hb in H1. injection H1 as E1 E2. rewrite <- E1, <- E2 in H2. split; [exact Hb|exact H2].
Defined.

(** Afterwards no edge is left: each touches grain 1 or grain 12. *)
Lemma all_pruned : (λ r, heap (edgeWeights (accept_end [grain 1] [grain 12] 7 r).1)) <$> busy_silo = Some [].
Proof. by vm_compute. Qed.

Lemma exchange_prunes_witness :
  ∃ r, busy_silo = Some r ∧ length (heap (edgeWeights r)) = 2%nat ∧
    ∀ c, c ∈ heap (edgeWeights r) →
      ¬ ∀ g, g ∈ [grain 1] ++ [grain 12] → GrainId_toString g ≠ GrainId_toString (ev_id (e_source (element c))) ∧
                                          GrainId_toString g ≠ GrainId_toString (ev_id (e_target (element c))).
Proof.
  destruct busy_silo_wf as (r & Hr & Hw & _). exists r. split; [exact Hr|].
  assert (Hlen : (λ r, length (heap (edgeWeights r))) <$> busy_silo = Some 2%nat) by (vm_compute; reflexivity).
  pose proof all_pruned as Hnil. rewrite Hr in Hlen, Hnil. injection Hlen as Hlen. apply (inj Some) in Hnil.
  split; [exact Hlen|].
  pose proof (exchange_prunes siloA 8 100 tolerates _ [grain 1] [grain 12] 7 r Hw) as H. cbv beta in Hnil.
  destruct (accept_end _ _ 7 r) as [r' response]. destruct H as (_ & _ & Hc & _). cbn [fst] in Hnil.
  intros c Hin Hno. apply (not_elem_of_nil c). rewrite <- Hnil. apply Hc. exact (conj Hin Hno).
Defined.

(** A remote copy of a local candidate is ignored only after its connections have
    been added to the local vertex, which then has them twice; the other end has
    them once. *)
Definition pair : list CandidateVertex := [mkCandidate (grain 1) 3 [(grain 2, 3)]; mkCandidate (grain 2) 3 [(grain 1, 3)]].
Lemma remote_copy_connects_twice :
  let '(vs, _, rh) := createCandidateHeaps pair [mkCandidate (grain 1) 3 [(grain 2, 3)]] in
  unorderedElements rh = [] ∧ v_connected <$> vs !! GrainId_toString (grain 1) =
    Some [(GrainId_toString (grain 2), 3); (GrainId_toString (grain 2), 3)] ∧
  v_connected <$> vs !! GrainId_toString (grain 2) = Some [(GrainId_toString (grain 1), 3)].
Proof. by vm_compute. Qed.
End Runs.
