(* ===== verification/JobModel.v ===== *)
(** * Durable jobs: shards, queues and the shard store

    Models [packages/durable-jobs/src/job-model.ts], [memory-job-shard-store.ts]
    with the interface of [job-shard-store.ts], the limiter of
    [shard-executor.ts] and the claim budgets of [local-durable-job-manager.ts].
    The payload a handler gets is a type of its own. Times are milliseconds; the
    one division of the claim budget is done in the binary64 of the language. *)
From Stdlib Require Import String SpecFloat.
From stdpp Require Import prelude gmap strings list sorting.
From S2P Require Import Prelude JsMap Ids.
Open Scope Z_scope.

(** ** Binary64 *)

Definition to_number (z : Z) : spec_float := binary_normalize 53 1024 z 0 false.
Definition divide : spec_float → spec_float → spec_float := SFdiv 53 1024.
Definition times : spec_float → spec_float → spec_float := SFmul 53 1024.
(** [Math.trunc] of a finite number. *)
Definition trunc (x : spec_float) : Z :=
  match x with
  | S754_finite negative m e =>
      let a := if decide (0 <= e) then Z.shiftl (Zpos m) e else Z.shiftr (Zpos m) (- e) in
      if negative then - a else a
  | _ => 0
  end.

(** ** Shards and budgets *)

(** None where it throws. *)
Definition shardKeyFor (dueTimeMs shardDurationMs : Z) : option Z :=
  if bool_decide (shardDurationMs <= 0) then None else Some (dueTimeMs / shardDurationMs).
Definition shardStartMs (shardKey shardDurationMs : Z) : Z := shardKey * shardDurationMs.

Definition defaultShouldRetry (dequeueCount : Z) : option Duration :=
  if bool_decide (5 <= dequeueCount) then None
  else Some (mkDuration None (Some (2 ^ dequeueCount)) None None None).

Definition claimBudget (pendingUnclaimed budget : Z) : Z :=
  if bool_decide (budget <= 0) then 0 else Z.min (Z.max 0 pendingUnclaimed) budget.

Definition UNLIMITED_CLAIM_BUDGET : Z := 2 ^ 53 - 1.
Definition computeClaimBudget (rampUpDurationMs initialBudget maxBudget elapsedMs totalClaimedShards : Z) : Z :=
  if bool_decide (rampUpDurationMs <= 0) then UNLIMITED_CLAIM_BUDGET
  else if bool_decide (rampUpDurationMs <= elapsedMs) then UNLIMITED_CLAIM_BUDGET
  else
    let fraction := divide (to_number elapsedMs) (to_number rampUpDurationMs) in
    let budget := initialBudget + trunc (times fraction (to_number (maxBudget - initialBudget))) in
    Z.max 0 (budget - totalClaimedShards).

(** ** The limiter of a silo *)

Record Limiter := mkLimiter { limit_max : Z; inUse : Z }.
Definition saturated (l : Limiter) : bool := bool_decide (limit_max l - inUse l <= 0).
Definition tryAcquire (l : Limiter) : option Limiter :=
  if bool_decide (limit_max l <= inUse l) then None else Some (mkLimiter (limit_max l) (inUse l + 1)).
Definition Limiter_release (l : Limiter) : Limiter :=
  if bool_decide (0 < inUse l) then mkLimiter (limit_max l) (inUse l - 1) else l.

Section jobs.
Context {M : Type}.

Record DurableJob := mkJob {
  job_id : string; job_name : string; dueTime : Z; job_target : GrainId; job_shard : Z; metadata : M }.

(** ** The queue of a shard *)

Record QueuedJob := mkQueued { q_id : string; dueMs : Z; dequeueCount : Z; payload : DurableJob }.
Definition set_dueMs (d : Z) (j : QueuedJob) : QueuedJob := mkQueued (q_id j) d (dequeueCount j) (payload j).
Definition set_dequeueCount (n : Z) (j : QueuedJob) : QueuedJob := mkQueued (q_id j) (dueMs j) n (payload j).

Record JobQueue := mkQueue { q_jobs : list (string * QueuedJob); liveIds : gset string }.
Definition empty_queue : JobQueue := mkQueue [] ∅.
Definition queue_size (q : JobQueue) : nat := length (q_jobs q).

Definition queue_add (j : QueuedJob) (q : JobQueue) : JobQueue :=
  mkQueue (jm_set (q_id j) j (q_jobs q)) ({[q_id j]} ∪ liveIds q).
Definition queue_cancel (id : string) (q : JobQueue) : JobQueue * bool :=
  (mkQueue (jm_delete id (q_jobs q)) (liveIds q ∖ {[id]}), jm_has id (q_jobs q)).
Definition earlier (acc : option Z) (j : QueuedJob) : option Z :=
  match acc with
  | None => Some (dueMs j)
  | Some e => if bool_decide (dueMs j < e) then Some (dueMs j) else acc
  end.
Definition nextDueMs (q : JobQueue) : option Z := foldl earlier None (jm_values (q_jobs q)).
Definition due_before (a b : QueuedJob) : bool := bool_decide (dueMs a < dueMs b).
Definition dequeueDue (nowMs : Z) (q : JobQueue) : JobQueue * list QueuedJob :=
  let due := sort_by due_before (filter (λ j, dueMs j <= nowMs) (jm_values (q_jobs q))) in
  (mkQueue (foldl (λ m j, jm_delete (q_id j) m) (q_jobs q) due) (liveIds q), due).
Definition retryLater (j : QueuedJob) (delay : Duration) (nowMs : Z) (q : JobQueue) : JobQueue :=
  if bool_decide (q_id j ∈ liveIds q)
  then mkQueue (jm_set (q_id j) (set_dueMs (nowMs + durationToMs delay) j) (q_jobs q)) (liveIds q)
  else q.

(** ** The shard store *)

Record ShardRecord := mkShard {
  shardKey : Z; owner : option string; adoptedCount : Z; poisoned : bool }.
Record Entry := mkEntry {
  e_job : DurableJob; e_dequeueCount : Z; e_dueTime : Z; e_runId : option string; e_completed : option bool }.
Record ShardState := mkState { record : ShardRecord; s_jobs : list (string * Entry) }.
(** The shards in the order in which they were first named. *)
Abbreviation Store := (list (Z * ShardState)).

Definition fresh_shard (k : Z) : ShardState := mkState (mkShard k None 0 false) [].
Definition shard (k : Z) (st : Store) : ShardState := default (fresh_shard k) (jm_get k st).
Definition set_jobs (f : list (string * Entry) → list (string * Entry)) (s : ShardState) : ShardState :=
  mkState (record s) (f (s_jobs s)).
(** [this.shards.get(shardKey)?.]: nothing when the shard is unknown. *)
Definition on_shard (k : Z) (f : ShardState → ShardState) (st : Store) : Store :=
  match jm_get k st with Some s => jm_set k (f s) st | None => st end.
Definition on_entry (k : Z) (id : string) (f : Entry → Entry) : Store → Store :=
  on_shard k (set_jobs (λ jobs, match jm_get id jobs with Some e => jm_set id (f e) jobs | None => jobs end)).

Definition persistAdd (j : DurableJob) (st : Store) : Store :=
  jm_set (job_shard j) (set_jobs (jm_set (job_id j) (mkEntry j 0 (dueTime j) None None)) (shard (job_shard j) st)) st.
Definition persistRemove (k : Z) (id : string) : Store → Store := on_shard k (set_jobs (jm_delete id)).
Definition persistRetry (k : Z) (id : string) (due count : Z) : Store → Store :=
  on_entry k id (λ e, mkEntry (e_job e) count due (e_runId e) (e_completed e)).
Definition persistRunStart (k : Z) (id runId : string) : Store → Store :=
  on_entry k id (λ e, mkEntry (e_job e) (e_dequeueCount e) (e_dueTime e) (Some runId) (Some false)).
Definition persistRunComplete (k : Z) (id runId : string) : Store → Store :=
  on_entry k id (λ e, if bool_decide (e_runId e = Some runId)
    then mkEntry (e_job e) (e_dequeueCount e) (e_dueTime e) (e_runId e) (Some true) else e).
Definition readJobs (k : Z) (st : Store) : list Entry :=
  match jm_get k st with Some s => jm_values (s_jobs s) | None => [] end.
Definition listShards (st : Store) : list ShardRecord :=
  record <$> filter (λ s, length (s_jobs s) ≠ 0%nat) (jm_values st).

Definition set_record (r : ShardRecord) (s : ShardState) : ShardState := mkState r (s_jobs s).
Definition with_owner (o : option string) (r : ShardRecord) : ShardRecord :=
  mkShard (shardKey r) o (adoptedCount r) (poisoned r).
(** [claimShard]; asking for a shard names it. *)
Definition claimShard (k : Z) (me : string) (adoptFromDead : list string) (maxAdoptedCount : Z) (st : Store)
    : Store * option ShardRecord :=
  let s := shard k st in
  let r := record s in
  let put r := jm_set k (set_record r s) st in
  if poisoned r then (put r, None)
  else if bool_decide (owner r = Some me) then (put r, Some r)
  else
    let unowned := bool_decide (owner r = None) in
    let ownerDead := match owner r with Some o => bool_decide (o ∈ adoptFromDead) | None => false end in
    if negb unowned && negb ownerDead then (put r, None)
    else
      let r := if ownerDead then mkShard (shardKey r) (owner r) (adoptedCount r + 1) (poisoned r) else r in
      if ownerDead && bool_decide (maxAdoptedCount < adoptedCount r)
      then (put (mkShard (shardKey r) None (adoptedCount r) true), None)
      else (put (with_owner (Some me) r), Some (with_owner (Some me) r)).
Definition releaseShard (k : Z) (me : string) : Store → Store :=
  on_shard k (λ s, if bool_decide (owner (record s) = Some me) then set_record (with_owner None (record s)) s else s).

(** ** The earliest job *)

Lemma nextDueMs_spec q :
  match nextDueMs q with
  | None => q_jobs q = []
  | Some d => (∃ j, j ∈ jm_values (q_jobs q) ∧ dueMs j = d) ∧ ∀ j, j ∈ jm_values (q_jobs q) → d <= dueMs j
  end.
Proof.
  unfold nextDueMs. assert (Hgen : ∀ l acc, match foldl earlier acc l with
    | None => acc = None ∧ l = []
    | Some d => (acc = Some d ∨ ∃ j, j ∈ l ∧ dueMs j = d) ∧ (∀ a, acc = Some a → d <= a) ∧ ∀ j, j ∈ l → d <= dueMs j end).
  { induction l as [|j l IH]; intros acc; simpl.
    - destruct acc; [|done]. split_and!; [by left|naive_solver lia|by intros j ?%not_elem_of_nil].
    - specialize (IH (earlier acc j)). destruct (foldl earlier _ l) as [d|].
      + destruct IH as (H1 & H2 & H3).
        assert (He : ∃ e, earlier acc j = Some e ∧ e <= dueMs j ∧ (∀ a, acc = Some a → e <= a) ∧ (acc = Some e ∨ e = dueMs j)).
        { unfold earlier. destruct acc as [a|]; [case_bool_decide|]; eexists; (split; [done|]);
            split_and!; try naive_solver lia; first [by left|by right]. }
        destruct He as (e & He & Hej & Ha & Hor). specialize (H2 e He). split_and!.
        * destruct H1 as [H1|(j' & Hj' & Hd)]; [|right; exists j'; split; [by right|done]].
          rewrite He in H1. injection H1 as ->. destruct Hor as [H0| ->]; [by left|right; exists j; split; [by left|done]].
        * intros a Hacc. specialize (Ha a Hacc). lia.
        * intros j' [->|Hj']%elem_of_cons; [lia|by apply H3].
      + destruct IH as [H1 _]. unfold earlier in H1. destruct acc; [case_bool_decide|]; done. }
  specialize (Hgen (jm_values (q_jobs q)) None). destruct (foldl _ _ _) as [d|].
  - destruct Hgen as ([H0|H0] & _ & ?); [done|done].
  - destruct Hgen as [_ Hn]. by apply fmap_nil_inv in Hn.
Qed.

Lemma nextDueMs_sub q q' d : (∀ j, j ∈ jm_values (q_jobs q') → j ∈ jm_values (q_jobs q)) →
  nextDueMs q' = Some d → ∃ e, nextDueMs q = Some e ∧ e <= d.
Proof.
  intros Hsub Hd. pose proof (nextDueMs_spec q') as H'. rewrite Hd in H'. destruct H' as [(j & Hj & <-) _].
  pose proof (nextDueMs_spec q) as H. destruct (nextDueMs q) as [e|]; [exists e; split; [done|]; by apply H, Hsub|].
  apply Hsub in Hj. rewrite H in Hj. by apply not_elem_of_nil in Hj.
Qed.

(** ** Who owns a shard *)

Definition owner_of (k : Z) (st : Store) : option string := s ← jm_get k st; owner (record s).
(** No shard twice, each under its key. *)
Definition store_ok (st : Store) : Prop := jm_ok st ∧ ∀ k s, jm_get k st = Some s → shardKey (record s) = k.

Lemma shard_key k st : store_ok st → shardKey (record (shard k st)) = k.
Proof. intros [_ Hk]. unfold shard. destruct (jm_get k st) as [s|] eqn:Hs; [by apply Hk|done]. Qed.
Lemma shard_owner k st : owner (record (shard k st)) = owner_of k st.
Proof. unfold shard, owner_of. by destruct (jm_get k st). Qed.

Lemma put_shard_ok k s st : store_ok st → shardKey (record s) = k → store_ok (jm_set k s st).
Proof.
  intros [Hok Hk] Hs. split; [by apply jm_ok_set|]. intros k' s'. rewrite jm_get_set.
  case_decide as He; [intros [= <-]; congruence|apply Hk].
Qed.
Lemma put_shard_owner k k' s st :
  owner_of k' (jm_set k s st) = if decide (k = k') then owner (record s) else owner_of k' st.
Proof. unfold owner_of. rewrite jm_get_set. by case_decide. Qed.

(** A change of the jobs of a shard, or of an entry, leaves its record alone. *)
Lemma on_shard_jobs_ok k f st : store_ok st → store_ok (on_shard k (set_jobs f) st).
Proof.
  intros H. unfold on_shard. destruct (jm_get k st) as [s|] eqn:Hs; [|done].
  apply put_shard_ok; [done|]. exact (proj2 H _ _ Hs).
Qed.
Lemma on_shard_jobs_owner k k' f st : owner_of k' (on_shard k (set_jobs f) st) = owner_of k' st.
Proof.
  unfold on_shard. destruct (jm_get k st) as [s|] eqn:Hs; [|done]. rewrite put_shard_owner.
  case_decide; [subst k'|done]. unfold owner_of. by rewrite Hs.
Qed.
Lemma persistAdd_ok j st : store_ok st → store_ok (persistAdd j st).
Proof. intros H. apply put_shard_ok; [done|]. by apply shard_key. Qed.
Lemma persistAdd_owner j k st : owner_of k (persistAdd j st) = owner_of k st.
Proof. unfold persistAdd. rewrite put_shard_owner. case_decide; [subst k|done]. apply shard_owner. Qed.

Lemma releaseShard_ok k me st : store_ok st → store_ok (releaseShard k me st).
Proof.
  intros H. unfold releaseShard, on_shard. destruct (jm_get k st) as [s|] eqn:Hs; [|done].
  apply put_shard_ok; [done|]. apply (proj2 H) in Hs. by case_bool_decide.
Qed.
Lemma releaseShard_owner k k' me o st : o ≠ me → owner_of k' st = Some o → owner_of k' (releaseShard k me st) = Some o.
Proof.
  intros Hne Ho. unfold releaseShard, on_shard. destruct (jm_get k st) as [s|] eqn:Hs; [|done].
  rewrite put_shard_owner. case_decide as Hk; [subst k'|done]. unfold owner_of in Ho. rewrite Hs in Ho. simpl in Ho.
  rewrite bool_decide_false; [done|]. congruence.
Qed.

(** A claim that succeeds makes the silo the owner, and none takes a shard from
    the silo itself or from a silo that is not said to be dead. *)
Lemma claimShard_spec k me dead maxAdopted st : store_ok st →
  let '(st', res) := claimShard k me dead maxAdopted st in
  store_ok st' ∧ (is_Some res → owner_of k st' = Some me) ∧
  ∀ k' o, owner_of k' st = Some o → o = me ∨ o ∉ dead → owner_of k' st' = Some o.
Proof.
  intros H. unfold claimShard. set (s := shard k st).
  assert (Hk : shardKey (record s) = k) by by apply shard_key.
  assert (Hput : ∀ r, shardKey r = k → store_ok (jm_set k (set_record r s) st)) by (intros r Hr; by apply put_shard_ok).
  assert (Hsame : ∀ k' o, owner_of k' st = Some o → owner_of k' (jm_set k (set_record (record s) s) st) = Some o).
  { intros k' o Ho. rewrite put_shard_owner. case_decide; [subst k'|done]. simpl. unfold s. by rewrite shard_owner. }
  assert (Hs : owner (record s) = owner_of k st) by apply shard_owner.
  destruct (poisoned (record s)); [split_and!; [by apply Hput|by intros [? ?]|naive_solver]|].
  case_bool_decide as Hme.
  { split_and!; [by apply Hput| |naive_solver]. intros _. apply Hsame. congruence. }
  set (ownerDead := match owner (record s) with Some o => _ | None => _ end).
  destruct (negb (bool_decide (owner (record s) = None)) && negb ownerDead) eqn:Hfree;
    [split_and!; [by apply Hput|by intros [? ?]|naive_solver]|].
  assert (Hlose : ∀ o, owner_of k st = Some o → o = me ∨ o ∉ dead → False).
  { intros o Ho Hor. rewrite Ho in Hs. unfold ownerDead in Hfree. rewrite Hs in Hfree. simpl in Hfree.
    destruct Hor as [->|Hd]; [congruence|]. by rewrite bool_decide_false in Hfree by done. }
  assert (Hother : ∀ r k' o, owner_of k' st = Some o → o = me ∨ o ∉ dead → owner_of k' (jm_set k (set_record r s) st) = Some o).
  { intros r k' o Ho Hor. rewrite put_shard_owner. case_decide; [|done]. subst k'. by destruct (Hlose o Ho Hor). }
  set (r := if ownerDead then _ else _). assert (Hr : shardKey r = k) by (by destruct ownerDead).
  destruct (ownerDead && _); (split_and!; [by apply Hput| |intros k' o; by apply Hother]).
  - by intros [? ?].
  - intros _. rewrite put_shard_owner. by rewrite decide_True.
Qed.

Lemma listShards_owner r st : store_ok st → r ∈ listShards st → owner_of (shardKey r) st = owner r.
Proof.
  intros [Hok Hk] (s & -> & [_ ((k & s') & -> & Hin)%list_elem_of_fmap]%list_elem_of_filter)%list_elem_of_fmap.
  simpl. apply (jm_elem_get _ _ _ Hok) in Hin. rewrite (Hk _ _ Hin). unfold owner_of. by rewrite Hin.
Qed.

Lemma listShards_key r st : store_ok st → r ∈ listShards st → is_Some (jm_get (shardKey r) st).
Proof.
  intros [Hok Hk] (s & -> & [_ ((k & s') & -> & Hin)%list_elem_of_fmap]%list_elem_of_filter)%list_elem_of_fmap.
  simpl. apply (jm_elem_get _ _ _ Hok) in Hin. rewrite (Hk _ _ Hin). by eexists.
Qed.

End jobs.
