(* ===== verification/JobExecutor.v ===== *)
(** * The executor of a shard of durable jobs

    Models [packages/durable-jobs/src/shard-executor.ts] (ShardExecutor). A
    function is what runs between two awaits. A call of the store takes effect
    when it is made, if it works, and a failed call is caught; the promise settles
    in a later step. Runs in flight are kept with the await they stand at. *)
From Stdlib Require Import String.
From stdpp Require Import prelude gmap strings list sorting.
From S2P Require Import Prelude JsMap Ids JobModel.
Open Scope Z_scope.

Record ShardExecutorOptions := mkOptions {
  maxConcurrentJobsPerSilo : Z; slowStartInitialConcurrency : Z; slowStartGrowthFactor : Z;
  slowStartIntervalMs : Z; overloadBackoffMs : Z; shouldRetry : Z → option Duration }.

(** How a call of the store ends: it works, or it is rejected before or after it
    takes effect. *)
Inductive Fault := Works | FailsBefore | FailsAfter.

Section executor.
Context {M : Type}.
Abbreviation Store := (list (Z * @ShardState M)).
Abbreviation Job := (@DurableJob M).
Abbreviation Queued := (@QueuedJob M).

Definition takes_effect (f : Fault) : bool := match f with FailsBefore => false | _ => true end.
(** A call whose rejection is caught. *)
Definition caught (f : Fault) (op : Store → Store) (st : Store) : Store := if takes_effect f then op st else st.
(** A call whose result is awaited; none where it is rejected. *)
Definition called {A} (f : Fault) (op : Store → Store * A) (st : Store) : Store * option A :=
  let '(st', a) := op st in
  (if takes_effect f then st' else st, match f with Works => Some a | _ => None end).

(** ** State *)

(** The await a run stands at: the marker of its start, the handler, the marker of
    its completion, the removal of the job, or the end. *)
Inductive RunPhase := Starting | Invoked | Completing | Removing | Ending.
Record Run := mkRun { r_job : Queued; r_durable : Job; r_runId : string; r_phase : RunPhase }.
Definition attempt (r : Run) : Z := dequeueCount (r_job r) + 1.
Definition at_phase (p : RunPhase) (r : Run) : Run := mkRun (r_job r) (r_durable r) (r_runId r) p.

Inductive JobResult := Completed | PollAfter (delay : Duration) | Failed.

Record Executor := mkExecutor {
  x_key : Z; queue : @JobQueue M; x_jobs : list (string * Job); concurrency : Z;
  pollHandle : option Z; x_stopped : bool; running : Z; inFlight : list Run; startedAtMs : Z }.

Definition set_queue (q : @JobQueue M) (x : Executor) : Executor :=
  mkExecutor (x_key x) q (x_jobs x) (concurrency x) (pollHandle x) (x_stopped x) (running x) (inFlight x) (startedAtMs x).
Definition set_jobs_map (m : list (string * Job)) (x : Executor) : Executor :=
  mkExecutor (x_key x) (queue x) m (concurrency x) (pollHandle x) (x_stopped x) (running x) (inFlight x) (startedAtMs x).
Definition set_concurrency (c : Z) (x : Executor) : Executor :=
  mkExecutor (x_key x) (queue x) (x_jobs x) c (pollHandle x) (x_stopped x) (running x) (inFlight x) (startedAtMs x).
Definition set_poll (t : option Z) (x : Executor) : Executor :=
  mkExecutor (x_key x) (queue x) (x_jobs x) (concurrency x) t (x_stopped x) (running x) (inFlight x) (startedAtMs x).
Definition set_running (n : Z) (x : Executor) : Executor :=
  mkExecutor (x_key x) (queue x) (x_jobs x) (concurrency x) (pollHandle x) (x_stopped x) n (inFlight x) (startedAtMs x).
Definition set_inFlight (l : list Run) (x : Executor) : Executor :=
  mkExecutor (x_key x) (queue x) (x_jobs x) (concurrency x) (pollHandle x) (x_stopped x) (running x) l (startedAtMs x).
Definition set_x_stopped (x : Executor) : Executor :=
  mkExecutor (x_key x) (queue x) (x_jobs x) (concurrency x) (pollHandle x) true (running x) (inFlight x) (startedAtMs x).

Context (options : ShardExecutorOptions).

Definition new_executor (k now : Z) : Executor :=
  mkExecutor k empty_queue [] (Z.max 1 (slowStartInitialConcurrency options)) None false 0 [] now.

(** ** Polling *)

Definition schedulePoll (now : Z) (x : Executor) : Executor :=
  if x_stopped x then x
  else set_poll ((λ next, now + Z.max 0 (next - now)) <$> nextDueMs (queue x)) x.

Definition elapsedIntervals (now : Z) (x : Executor) : Z :=
  Z.max 0 ((now - startedAtMs x) / slowStartIntervalMs options).
Definition slowStartCeiling (now : Z) (x : Executor) : Z :=
  if bool_decide (slowStartIntervalMs options <= 0) then maxConcurrentJobsPerSilo options
  else
    let grown := slowStartInitialConcurrency options * slowStartGrowthFactor options ^ elapsedIntervals now x in
    Z.min (maxConcurrentJobsPerSilo options) (Z.max 1 grown).

Definition scheduleSaturatedPoll (now : Z) (x : Executor) : Executor :=
  if x_stopped x then x
  else
    let delay :=
      if bool_decide (concurrency x < maxConcurrentJobsPerSilo options) && bool_decide (0 < slowStartIntervalMs options) then
        let nextBoundaryMs := startedAtMs x + (elapsedIntervals now x + 1) * slowStartIntervalMs options in
        Z.max 1 (nextBoundaryMs - now)
      else Z.max 1 (overloadBackoffMs options) in
    set_poll (Some (now + delay)) x.

(** The [finally] of a run, without its place among the runs in flight. *)
Definition end_run (now : Z) (l : Limiter) (x : Executor) : Limiter * Executor :=
  (Limiter_release l, schedulePoll now (set_running (running x - 1) x)).

(** [runOne] up to its first await; a job cancelled since it was dequeued ends at
    once. The id of the run is fresh. *)
Definition runOne (now : Z) (f : Fault) (runId : string) (j : Queued) (l : Limiter) (st : Store) (x : Executor)
    : Limiter * Store * Executor :=
  let x := set_running (running x + 1) x in
  match jm_get (q_id j) (x_jobs x) with
  | None => let '(l, x) := end_run now l x in (l, st, x)
  | Some durable =>
      (l, caught f (persistRunStart (x_key x) (job_id durable) runId) st,
       set_inFlight (inFlight x ++ [mkRun j durable runId Starting]) x)
  end.

Record Poll := mkPoll { p_limiter : Limiter; p_store : Store; p_executor : Executor; admitted : nat; blocked : bool }.
(** One round of the loop of [poll]; what happens to its run's calls, by job. *)
Definition poll_round (now : Z) (f : string → Fault) (runId : string → string) (p : Poll) (j : Queued) : Poll :=
  let x := p_executor p in
  match (if bool_decide (concurrency x <= running x) then None else tryAcquire (p_limiter p)) with
  | None => mkPoll (p_limiter p) (p_store p) (set_queue (queue_add (set_dueMs now j) (queue x)) x) (admitted p) true
  | Some l =>
      let '(l, st, x) := runOne now (f (q_id j)) (runId (q_id j)) j l (p_store p) x in
      mkPoll l st x (S (admitted p)) (blocked p)
  end.

(** [poll], of the timer that fired. *)
Definition poll (now : Z) (overloaded : bool) (f : string → Fault) (runId : string → string)
    (l : Limiter) (st : Store) (x : Executor) : Limiter * Store * Executor :=
  let x := set_poll None x in
  if x_stopped x then (l, st, x)
  else if overloaded then (l, st, set_poll (Some (now + overloadBackoffMs options)) x)
  else
    let x := set_concurrency (Z.max (concurrency x) (slowStartCeiling now x)) x in
    let '(q, due) := dequeueDue now (queue x) in
    let p := foldl (poll_round now f runId) (mkPoll l st (set_queue q x) 0 false) due in
    let x := if bool_decide (admitted p = 0%nat) && blocked p then scheduleSaturatedPoll now (p_executor p)
             else schedulePoll now (p_executor p) in
    (p_limiter p, p_store p, x).

(** ** Operations *)

(** The loop of [load] over the jobs it read, until it awaits the removal of one
    that has completed; the jobs still to load are none at the end. *)
Fixpoint load_jobs (now : Z) (f : Fault) (es : list (@Entry M)) (st : Store) (x : Executor)
    : Store * Executor * option (list (@Entry M)) :=
  match es with
  | [] => (st, schedulePoll now x, None)
  | e :: es' =>
      if bool_decide (e_completed e = Some true)
      then (caught f (persistRemove (x_key x) (job_id (e_job e))) st, x, Some es')
      else
        let x := set_jobs_map (jm_set (job_id (e_job e)) (e_job e) (x_jobs x)) x in
        load_jobs now f es' st
          (set_queue (queue_add (mkQueued (job_id (e_job e)) (e_dueTime e) (e_dequeueCount e) (e_job e)) (queue x)) x)
  end.

Definition enqueue (now : Z) (j : Job) (x : Executor) : Executor :=
  let x := set_jobs_map (jm_set (job_id j) j (x_jobs x)) x in
  schedulePoll now (set_queue (queue_add (mkQueued (job_id j) (dueTime j) 0 j) (queue x)) x).

Definition cancel (f : Fault) (id : string) (st : Store) (x : Executor) : Store * Executor * bool :=
  let '(q, removed) := queue_cancel id (queue x) in
  (caught f (persistRemove (x_key x) id) st, set_jobs_map (jm_delete id (x_jobs x)) (set_queue q x), removed).

(** [stop], up to the wait for the runs in flight. *)
Definition stop_executor (x : Executor) : Executor := set_poll None (set_x_stopped x).

Definition reschedule (now : Z) (f : Fault) (j : Queued) (delay : Duration) (st : Store) (x : Executor) : Store * Executor :=
  (caught f (persistRetry (x_key x) (q_id j) (now + durationToMs delay) (dequeueCount j)) st,
   schedulePoll now (set_queue (retryLater j delay now (queue x)) x)).

(** [applyResult], up to its first await. *)
Definition applyResult (now : Z) (f : Fault) (res : JobResult) (r : Run) (st : Store) (x : Executor)
    : Store * Executor * RunPhase :=
  let j := r_job r in
  let id := q_id j in
  match res with
  | Completed => (caught f (persistRunComplete (x_key x) id (r_runId r)) st, x, Completing)
  | PollAfter delay => let '(st, x) := reschedule now f j delay st x in (st, x, Ending)
  | Failed =>
      match shouldRetry options (attempt r) with
      | None => (caught f (persistRemove (x_key x) id) st, set_jobs_map (jm_delete id (x_jobs x)) x, Removing)
      | Some backoff => let '(st, x) := reschedule now f (set_dequeueCount (attempt r) j) backoff st x in (st, x, Ending)
      end
  end.

(** What a handler is given. *)
Record JobRunContext := mkContext { c_job : Job; c_dequeueCount : Z; c_runId : string }.

(** The run [i] goes on from where it stands; what its handler is given when that
    is called, and the run is over where none is left of it. *)
Definition resume_run (now : Z) (f : Fault) (res : JobResult) (i : nat) (l : Limiter) (st : Store) (x : Executor)
    : Limiter * Store * Executor * list JobRunContext :=
  match inFlight x !! i with
  | None => (l, st, x, [])
  | Some r =>
      let to p x := set_inFlight (<[i := at_phase p r]> (inFlight x)) x in
      match r_phase r with
      | Starting => (l, st, to Invoked x, [mkContext (r_durable r) (attempt r) (r_runId r)])
      | Invoked => let '(st, x, p) := applyResult now f res r st x in (l, st, to p x, [])
      | Completing =>
          (l, caught f (persistRemove (x_key x) (q_id (r_job r))) st,
           to Removing (set_jobs_map (jm_delete (q_id (r_job r)) (x_jobs x)) x), [])
      | Removing => (l, st, to Ending x, [])
      | Ending =>
          let '(l, x) := end_run now l (set_inFlight (delete i (inFlight x)) x) in (l, st, x, [])
      end
  end.
(** ** The timer *)

(** The longest the executor sleeps over a job that is due. *)
Definition slack : Z := Z.max 1 (Z.max (slowStartIntervalMs options) (overloadBackoffMs options)).
(** A running executor with a job queued has a timer set, for no later than
    [slack] after the job is due. *)
Definition armed (now : Z) (x : Executor) : Prop :=
  x_stopped x = false → ∀ d, nextDueMs (queue x) = Some d → ∃ t, pollHandle x = Some t ∧ t <= Z.max now d + slack.

Lemma armed_later now now' x : now <= now' → armed now x → armed now' x.
Proof. intros Hn Ha Hs d Hd. destruct (Ha Hs d Hd) as (t & Ht & Hle). exists t. split; [done|lia]. Qed.

Lemma schedulePoll_armed now x : armed now (schedulePoll now x).
Proof.
  unfold schedulePoll, armed, slack. destruct (x_stopped x) eqn:Hs; [congruence|]. simpl. intros _ d ->. simpl.
  eexists. split; [done|]. lia.
Qed.

Lemma saturated_armed now x : startedAtMs x <= now → armed now (scheduleSaturatedPoll now x).
Proof.
  intros Hst. unfold scheduleSaturatedPoll, armed, slack. destruct (x_stopped x) eqn:Hs; [congruence|].
  simpl. intros _ d _. eexists. split; [done|].
  destruct (bool_decide (concurrency x < _) && bool_decide (0 < slowStartIntervalMs options)) eqn:Hb; [|lia].
  apply andb_true_iff in Hb as [_ Hi%bool_decide_eq_true]. unfold elapsedIntervals.
  pose proof (Z.div_pos (now - startedAtMs x) (slowStartIntervalMs options) ltac:(lia) ltac:(lia)).
  pose proof (Z.mul_div_le (now - startedAtMs x) (slowStartIntervalMs options) ltac:(lia)). lia.
Qed.

(** ** What a step keeps *)

Definition flying (x : Executor) : Z := Z.of_nat (length (inFlight x)).
Record x_ok (now : Z) (x : Executor) : Prop := {
  xo_running : running x = flying x;
  xo_started : startedAtMs x <= now;
  xo_stopped : x_stopped x = true → pollHandle x = None }.

(** The records of the shards stay, and the store in shape. *)
Definition same_owners (st st' : Store) : Prop :=
  (store_ok st → store_ok st') ∧ ∀ k, owner_of k st' = owner_of k st.
Lemma same_owners_refl st : same_owners st st.
Proof. by split. Qed.
Lemma same_owners_trans a b c : same_owners a b → same_owners b c → same_owners a c.
Proof. intros [A1 A2] [B1 B2]. split; [auto|]. intros k. by rewrite B2. Qed.
Lemma caught_same f op st : same_owners st (op st) → same_owners st (caught f op st).
Proof. intros H. unfold caught. by destruct (takes_effect f). Qed.
Lemma entry_same k id g st : same_owners st (on_entry k id g st).
Proof. split; [apply on_shard_jobs_ok|intros; apply on_shard_jobs_owner]. Qed.
Lemma remove_same k id st : same_owners st (persistRemove k id st).
Proof. split; [apply on_shard_jobs_ok|intros; apply on_shard_jobs_owner]. Qed.

Record exec_step (now : Z) (l : Limiter) (st : Store) (x : Executor) (l' : Limiter) (st' : Store) (x' : Executor) : Prop := {
  es_key : x_key x' = x_key x;
  es_stopped : x_stopped x' = x_stopped x;
  es_limit : limit_max l' = limit_max l;
  es_slots : inUse l' - flying x' = inUse l - flying x;
  es_bound : inUse l' <= Z.max (inUse l) (limit_max l);
  es_ok : x_ok now x';
  es_drain : x_stopped x = true → (length (inFlight x') <= length (inFlight x))%nat;
  es_store : same_owners st st' }.

Lemma exec_step_trans now l st x l1 st1 x1 l2 st2 x2 :
  exec_step now l st x l1 st1 x1 → exec_step now l1 st1 x1 l2 st2 x2 → exec_step now l st x l2 st2 x2.
Proof.
  intros [A1 A2 A3 A4 A5 A6 A7 A8] [B1 B2 B3 B4 B5 B6 B7 B8]. split; try congruence; try done; try lia.
  - intros Hs. etrans; [apply B7; congruence|by apply A7].
  - by eapply same_owners_trans.
Qed.

(** A change that touches neither the runs nor whether the executor is stopped. *)
Lemma quiet_step now l st st' x x' : x_ok now x →
  x_key x' = x_key x → x_stopped x' = x_stopped x → startedAtMs x' = startedAtMs x →
  running x' = running x → length (inFlight x') = length (inFlight x) → (x_stopped x = true → pollHandle x' = pollHandle x) →
  same_owners st st' → exec_step now l st x l st' x'.
Proof.
  intros [O1 O2 O3] Hk Hs Ha Hr Hi Hp Hst. split; unfold flying; try rewrite Hi; try done; try lia.
  unfold flying in O1. split; unfold flying; try rewrite Hi; try lia. rewrite Hs. intros Hst'. rewrite Hp by done. by apply O3.
Qed.
Ltac quiet := apply quiet_step; simpl;
  first [done|congruence|apply same_owners_refl|apply length_insert|apply caught_same, entry_same|apply caught_same, remove_same|idtac].

Lemma schedulePoll_quiet now x :
  x_key (schedulePoll now x) = x_key x ∧ x_stopped (schedulePoll now x) = x_stopped x ∧
  startedAtMs (schedulePoll now x) = startedAtMs x ∧ running (schedulePoll now x) = running x ∧
  inFlight (schedulePoll now x) = inFlight x ∧ queue (schedulePoll now x) = queue x ∧
  (x_stopped x = true → pollHandle (schedulePoll now x) = pollHandle x).
Proof. unfold schedulePoll. destruct (x_stopped x) eqn:Hs; split_and!; simpl; congruence. Qed.
Lemma saturated_quiet now x :
  x_key (scheduleSaturatedPoll now x) = x_key x ∧ x_stopped (scheduleSaturatedPoll now x) = x_stopped x ∧
  startedAtMs (scheduleSaturatedPoll now x) = startedAtMs x ∧ running (scheduleSaturatedPoll now x) = running x ∧
  inFlight (scheduleSaturatedPoll now x) = inFlight x ∧
  (x_stopped x = true → pollHandle (scheduleSaturatedPoll now x) = pollHandle x).
Proof. unfold scheduleSaturatedPoll. destruct (x_stopped x) eqn:Hs; split_and!; simpl; congruence. Qed.

Lemma schedulePoll_step now l st st' x : x_ok now x → same_owners st st' → exec_step now l st x l st' (schedulePoll now x).
Proof. intros Hx Hst. destruct (schedulePoll_quiet now x) as (?&?&?&?&?&?&?). by quiet. Qed.

(** The end of a run whose slot is still taken. *)
Lemma end_run_step now l x y :
  x_key y = x_key x → x_stopped y = x_stopped x → startedAtMs y = startedAtMs x → pollHandle y = pollHandle x →
  x_ok now x → running y = flying y + 1 → 0 < inUse l →
  (length (inFlight y) <= length (inFlight x))%nat →
  let '(l', x') := end_run now l y in
  limit_max l' = limit_max l ∧ inUse l' = inUse l - 1 ∧ x_key x' = x_key x ∧ x_stopped x' = x_stopped x ∧
  inFlight x' = inFlight y ∧ x_ok now x' ∧ armed now x'.
Proof.
  intros Hk Hs Ha Hp [O1 O2 O3] Hr Hu Hlen. unfold end_run, Limiter_release. rewrite bool_decide_true by done.
  set (y' := set_running (running y - 1) y). destruct (schedulePoll_quiet now y') as (Q1&Q2&Q3&Q4&Q5&Q6&Q7).
  rewrite Q1, Q2, Q5. split_and!; try done; [|apply schedulePoll_armed].
  split; unfold flying; rewrite ?Q5, ?Q4, ?Q3, ?Q2; simpl; unfold flying in Hr; try lia.
  rewrite Hs. intros Hst. rewrite Q7 by (simpl; congruence). simpl. rewrite Hp. by apply O3.
Qed.

Lemma runOne_step now f runId j l st x :
  x_ok now x → flying x < inUse l → inUse l <= limit_max l → x_stopped x = false →
  let '(l', st', x') := runOne now f runId j l st x in
  exec_step now (mkLimiter (limit_max l) (inUse l - 1)) st x l' st' x'.
Proof.
  intros Hx Hfl Hb Hns. assert (Hx0 := Hx). destruct Hx0 as [O1 O2 O3]. unfold runOne. cbv zeta.
  destruct (jm_get _ _) as [d|].
  - assert (Hlen : flying (set_inFlight (inFlight x ++ [mkRun j d runId Starting]) (set_running (running x + 1) x)) = flying x + 1)
      by (unfold flying; simpl; rewrite length_app; simpl; lia).
    split; try done; try rewrite Hlen; simpl; try lia; [|congruence|by apply caught_same, entry_same].
    split; [rewrite Hlen; simpl; lia|done|simpl; congruence].
  - pose proof (end_run_step now l x (set_running (running x + 1) x) eq_refl eq_refl eq_refl eq_refl Hx) as H.
    unfold flying in *. specialize (H ltac:(simpl; lia) ltac:(lia) (Nat.le_refl _)). destruct (end_run _ _ _) as [l' x'].
    destruct H as (H1 & H2 & H3 & H4 & H5 & H6 & _). simpl in H5.
    split; try done; unfold flying; rewrite ?H5; simpl; try lia.
Qed.

Lemma poll_round_step now f runId p j :
  x_ok now (p_executor p) → flying (p_executor p) <= inUse (p_limiter p) → x_stopped (p_executor p) = false →
  let p' := poll_round now f runId p j in
  exec_step now (p_limiter p) (p_store p) (p_executor p) (p_limiter p') (p_store p') (p_executor p').
Proof.
  intros Hx Hfl Hns. cbv zeta. unfold poll_round. cbv zeta. destruct (if bool_decide _ then None else _) as [l|] eqn:Ht.
  - case_bool_decide; [done|]. unfold tryAcquire in Ht. case_bool_decide as Hm; [done|]. injection Ht as <-.
    pose proof (runOne_step now (f (q_id j)) (runId (q_id j)) j
      (mkLimiter (limit_max (p_limiter p)) (inUse (p_limiter p) + 1)) (p_store p) _ Hx) as Hone.
    simpl in Hone. specialize (Hone ltac:(lia) ltac:(lia) Hns). destruct (runOne _ _ _ _ _ _ _) as [[l st] x]. simpl.
    replace (p_limiter p) with (mkLimiter (limit_max (p_limiter p)) (inUse (p_limiter p) + 1 - 1)); [done|].
    destruct (p_limiter p). simpl. f_equal. lia.
  - by quiet.
Qed.

Lemma poll_rounds_step now f runId js : ∀ p,
  x_ok now (p_executor p) → flying (p_executor p) <= inUse (p_limiter p) → x_stopped (p_executor p) = false →
  let p' := foldl (poll_round now f runId) p js in
  exec_step now (p_limiter p) (p_store p) (p_executor p) (p_limiter p') (p_store p') (p_executor p').
Proof.
  induction js as [|j js IH]; intros p Hx Hfl Hns; simpl; [by quiet|].
  assert (Hj := poll_round_step now f runId p j Hx Hfl Hns). cbv zeta in Hj.
  eapply exec_step_trans; [exact Hj|]. destruct Hj as [J1 J2 J3 J4 J5 J6 J7 J8]. apply IH; [done|lia|congruence].
Qed.

Lemma poll_step now ov f runId l st x : x_ok now x → flying x <= inUse l →
  let '(l', st', x') := poll now ov f runId l st x in exec_step now l st x l' st' x' ∧ armed now x'.
Proof.
  intros Hx Hfl. assert (Hx0 := Hx). destruct Hx0 as [O1 O2 O3]. unfold poll. cbv zeta.
  destruct (x_stopped (set_poll None x)) eqn:Hs; simpl in Hs.
  { split; [|intros Hn; simpl in Hn; congruence].
    quiet. intros _. by rewrite O3. }
  destruct ov.
  { split; [by quiet|].
    intros _ d _. simpl. eexists. split; [done|]. unfold slack. lia. }
  destruct (dequeueDue _ _) as [q due]. set (x1 := set_queue q _).
  assert (H1 : exec_step now l st x l st x1)
    by quiet.
  assert (H1' := H1). destruct H1' as [J1 J2 J3 J4 J5 J6 J7 J8].
  pose proof (poll_rounds_step now f runId due (mkPoll l st x1 0 false) J6 ltac:(simpl; lia) ltac:(simpl; congruence)) as H2.
  cbv zeta in H2. set (p := foldl _ _ due) in *. simpl in H2. assert (Hst := es_ok _ _ _ _ _ _ _ H2).
  assert (Hp : exec_step now l st x (p_limiter p) (p_store p) (p_executor p)) by (eapply exec_step_trans; eassumption).
  destruct (bool_decide _ && _).
  - split; [|apply saturated_armed, Hst]. eapply exec_step_trans; [exact Hp|].
    destruct (saturated_quiet now (p_executor p)) as (?&?&?&?&?&?). quiet.
  - split; [|apply schedulePoll_armed]. eapply exec_step_trans; [exact Hp|]. apply schedulePoll_step; [done|apply same_owners_refl].
Qed.

Lemma reschedule_step now f j d st x l : x_ok now x →
  let '(st', x') := reschedule now f j d st x in exec_step now l st x l st' x' ∧ armed now x' ∧ inFlight x' = inFlight x.
Proof.
  intros Hx. unfold reschedule. set (x1 := set_queue _ x). destruct (schedulePoll_quiet now x1) as (?&?&?&?&Hi&?&?).
  split_and!; [|apply schedulePoll_armed|by rewrite Hi]. quiet. by rewrite Hi.
Qed.

Lemma applyResult_step now f res r st x l : x_ok now x →
  let '(st', x', p) := applyResult now f res r st x in
  exec_step now l st x l st' x' ∧ (armed now x → armed now x') ∧ inFlight x' = inFlight x.
Proof.
  intros Hx. unfold applyResult. destruct res as [|d|].
  - split_and!; [|done|done]. quiet.
  - pose proof (reschedule_step now f (r_job r) d st x l Hx) as H. destruct (reschedule _ _ _ _ _ _). naive_solver.
  - destruct (shouldRetry options _) as [b|].
    + pose proof (reschedule_step now f (set_dequeueCount (attempt r) (r_job r)) b st x l Hx) as H.
      destruct (reschedule _ _ _ _ _ _). naive_solver.
    + split_and!; [|done|done]. quiet.
Qed.

Lemma resume_run_step now f res i l st x : x_ok now x → flying x <= inUse l →
  let '(l', st', x', cs) := resume_run now f res i l st x in exec_step now l st x l' st' x' ∧ (armed now x → armed now x').
Proof.
  intros Hx Hfl. unfold resume_run. destruct (inFlight x !! i) as [r|] eqn:Hi; [|split; [quiet|done]].
  destruct (r_phase r); cbv zeta; try (split; [quiet|done]).
  - pose proof (applyResult_step now f res r st x l Hx) as H. destruct (applyResult _ _ _ _ _ _) as [[st' x'] p].
    destruct H as (H1 & H2 & H3). split; [|done]. eapply exec_step_trans; [exact H1|]. quiet. by apply H1.
  - set (y := set_inFlight (delete i (inFlight x)) x).
    assert (Hlen : flying y = flying x - 1 ∧ 0 < flying x).
    { unfold flying, y. simpl. rewrite length_delete by by eexists. apply lookup_lt_Some in Hi. lia. }
    assert (Hx0 := Hx). destruct Hx0 as [O1 O2 O3].
    pose proof (end_run_step now l x y eq_refl eq_refl eq_refl eq_refl Hx ltac:(simpl; lia) ltac:(lia)) as H.
    unfold flying in Hlen. specialize (H ltac:(lia)). destruct (end_run _ _ _) as [l' x'].
    destruct H as (H1 & H2 & H3 & H4 & H5 & H6 & H7). split; [|done].
    split; try done; unfold flying; rewrite ?H5; try lia.
Qed.

Lemma load_jobs_step now f es : ∀ st x l, x_ok now x →
  let '(st', x', rest) := load_jobs now f es st x in
  exec_step now l st x l st' x' ∧ (rest = None → armed now x').
Proof.
  induction es as [|e es IH]; intros st x l Hx; simpl.
  { split; [apply schedulePoll_step; [done|apply same_owners_refl]|intros _; apply schedulePoll_armed]. }
  case_bool_decide.
  - split; [|done]. quiet.
  - set (x1 := set_queue _ _).
    assert (H1 : exec_step now l st x l st x1) by quiet.
    specialize (IH st x1 l (es_ok _ _ _ _ _ _ _ H1)). destruct (load_jobs _ _ _ _ _) as [[st' x'] rest].
    destruct IH as [IH1 IH2]. split; [|done]. by eapply exec_step_trans.
Qed.

Lemma enqueue_step now j l st x : x_ok now x →
  exec_step now l st x l st (enqueue now j x) ∧ armed now (enqueue now j x).
Proof.
  intros Hx. unfold enqueue. set (x1 := set_queue _ _). destruct (schedulePoll_quiet now x1) as (?&?&?&?&Hi&?&?).
  split; [|apply schedulePoll_armed]. quiet. by rewrite Hi.
Qed.

Lemma cancel_step now f id l st x : x_ok now x →
  let '(st', x', _) := cancel f id st x in exec_step now l st x l st' x' ∧ (armed now x → armed now x').
Proof.
  intros Hx. unfold cancel, queue_cancel. split.
  - quiet.
  - intros Ha Hs d Hd. simpl in *.
    destruct (nextDueMs_sub (queue x) (mkQueue (jm_delete id (q_jobs (queue x))) (liveIds (queue x) ∖ {[id]})) d) as (e & He & Hle);
      [intros j; apply jm_elem_values_delete|done|].
    destruct (Ha Hs e He) as (t & Ht & Htle). exists t. split; [done|lia].
Qed.

Lemma stop_step now st l x : x_ok now x →
  x_key (stop_executor x) = x_key x ∧ x_stopped (stop_executor x) = true ∧ inFlight (stop_executor x) = inFlight x ∧
  x_ok now (stop_executor x) ∧ armed now (stop_executor x) ∧ same_owners st st ∧ limit_max l = limit_max l.
Proof. intros [O1 O2 O3]. split_and!; try done. Qed.
End executor.
