(* ===== verification/JobManager.v ===== *)
(** * The durable-job manager of a silo

    Models [packages/durable-jobs/src/local-durable-job-manager.ts]
    (LocalDurableJobManager) over the executors of [JobExecutor] and the shard
    store of [JobModel], which it shares with the other silos. An operation is a
    call of the manager, the continuation of a method after an await, a timer that
    fires, or a change other silos make to the store; executions are any
    sequences of operations. A call of the store takes effect when it is made, and
    its fault says whether it is rejected. *)
From Stdlib Require Import String.
From stdpp Require Import prelude gmap strings list sorting.
From S2P Require Import Prelude JsMap Ids JobModel JobExecutor.
Open Scope Z_scope.

Record ManagerOptions := mkManagerOptions {
  executorOptions : ShardExecutorOptions;
  shardDurationMs : Z; maxAdopted : Z; claimRampUpBudget : Z;
  shardClaimInitialBudget : Z; shardClaimMaxBudget : Z; shardClaimRampUpDurationMs : Z;
  periodicShardCheckMs : Z;
  (** Whether an overload signal, and a way to forward jobs, are configured. *)
  hasOverloadSignal : bool; forwardsJobs : bool }.

Section manager.
Context {M : Type} (me : string) (options : ManagerOptions).
Abbreviation Store := (list (Z * @ShardState M)).
Abbreviation Job := (@DurableJob M).
Abbreviation Exec := (@Executor M).

(** ** State *)

(** Who waits for [ensureOwned], [claimAndStart] or [startExecutor]: a job that is
    scheduled or was forwarded here, or the two loops of a reconciliation, with
    what is left of them and the active silos of its membership view. *)
Inductive Kont :=
  | KSchedule (job : Job)
  | KReceive (job : Job)
  | KResume (rest shards : list ShardRecord) (active : list string)
  | KClaim (rest : list ShardRecord) (active : list string).

(** The methods in progress, by the await they stand at. *)
Inductive Task :=
  | Adding (result : option unit) (job : Job)
  | Claiming (k : Z) (result : option (option ShardRecord)) (κ : Kont)
  | HandingBack (κ : Kont)
  | LoadingJobs (eid : nat) (result : option (list (@Entry M))) (κ : Kont)
  | Returning (result : option nat) (κ : Kont)
  | FindingOwner (result : option (list ShardRecord)) (job : Job)
  | Listing (result : option (list ShardRecord)) (active : list string)
  | Relisting (result : option (list ShardRecord))
  | Dropping (eid : nat) (rest ownedNow : list Z)
  | AwaitingReconciled (ticket : nat)
  | Draining (eid : nat) (k : Z) (rest : list Z)
  | Releasing (rest : list Z).

(** Executors are objects; [executors] names the registered ones. The chain of
    reconciliations is how many were queued, started and done. *)
Record Manager := mkManager {
  objects : list Exec; executors : list (Z * nat); limiter : Limiter;
  activeRingKeys : list string; joinedAtMs : Z; claimedSinceJoin : Z; checkHandle : option Z;
  stopped : bool; tasks : list Task;
  rc_queued : nat; rc_started : nat; rc_done : nat; stop_returned : bool }.
Record World := mkWorld { clock : Z; store : Store; mgr : Manager }.

Definition new_manager (now : Z) (active : list string) : Manager :=
  mkManager [] [] (mkLimiter (maxConcurrentJobsPerSilo (executorOptions options)) 0) active now 0 None false [] 0 0 0 false.

Definition set_objects (l : list Exec) (m : Manager) : Manager :=
  mkManager l (executors m) (limiter m) (activeRingKeys m) (joinedAtMs m) (claimedSinceJoin m) (checkHandle m)
    (stopped m) (tasks m) (rc_queued m) (rc_started m) (rc_done m) (stop_returned m).
Definition set_executors (l : list (Z * nat)) (m : Manager) : Manager :=
  mkManager (objects m) l (limiter m) (activeRingKeys m) (joinedAtMs m) (claimedSinceJoin m) (checkHandle m)
    (stopped m) (tasks m) (rc_queued m) (rc_started m) (rc_done m) (stop_returned m).
Definition set_limiter (l : Limiter) (m : Manager) : Manager :=
  mkManager (objects m) (executors m) l (activeRingKeys m) (joinedAtMs m) (claimedSinceJoin m) (checkHandle m)
    (stopped m) (tasks m) (rc_queued m) (rc_started m) (rc_done m) (stop_returned m).
Definition set_active (l : list string) (m : Manager) : Manager :=
  mkManager (objects m) (executors m) (limiter m) l (joinedAtMs m) (claimedSinceJoin m) (checkHandle m)
    (stopped m) (tasks m) (rc_queued m) (rc_started m) (rc_done m) (stop_returned m).
Definition set_claimed (n : Z) (m : Manager) : Manager :=
  mkManager (objects m) (executors m) (limiter m) (activeRingKeys m) (joinedAtMs m) n (checkHandle m)
    (stopped m) (tasks m) (rc_queued m) (rc_started m) (rc_done m) (stop_returned m).
Definition set_check (t : option Z) (m : Manager) : Manager :=
  mkManager (objects m) (executors m) (limiter m) (activeRingKeys m) (joinedAtMs m) (claimedSinceJoin m) t
    (stopped m) (tasks m) (rc_queued m) (rc_started m) (rc_done m) (stop_returned m).
Definition set_stopped (m : Manager) : Manager :=
  mkManager (objects m) (executors m) (limiter m) (activeRingKeys m) (joinedAtMs m) (claimedSinceJoin m) (checkHandle m)
    true (tasks m) (rc_queued m) (rc_started m) (rc_done m) (stop_returned m).
Definition set_tasks (l : list Task) (m : Manager) : Manager :=
  mkManager (objects m) (executors m) (limiter m) (activeRingKeys m) (joinedAtMs m) (claimedSinceJoin m) (checkHandle m)
    (stopped m) l (rc_queued m) (rc_started m) (rc_done m) (stop_returned m).
Definition set_chain (queued started done : nat) (m : Manager) : Manager :=
  mkManager (objects m) (executors m) (limiter m) (activeRingKeys m) (joinedAtMs m) (claimedSinceJoin m) (checkHandle m)
    (stopped m) (tasks m) queued started done (stop_returned m).
Definition set_returned (m : Manager) : Manager :=
  mkManager (objects m) (executors m) (limiter m) (activeRingKeys m) (joinedAtMs m) (claimedSinceJoin m) (checkHandle m)
    (stopped m) (tasks m) (rc_queued m) (rc_started m) (rc_done m) true.

Definition on_mgr (f : Manager → Manager) (w : World) : World := mkWorld (clock w) (store w) (f (mgr w)).
Definition on_store (f : Store → Store) (w : World) : World := mkWorld (clock w) (f (store w)) (mgr w).
Definition wait (t : Task) : World → World := on_mgr (λ m, set_tasks (tasks m ++ [t]) m).

(** A call of the store that is awaited by [task]. *)
Definition await {A} (f : Fault) (op : Store → Store * A) (task : option A → Task) (w : World) : World :=
  let '(st, r) := called f op (store w) in wait (task r) (mkWorld (clock w) st (mgr w)).
Definition reading {A} (op : Store → A) (st : Store) : Store * A := (st, op st).

(** An operation on the executor object [eid]. *)
Definition put_executor (eid : nat) (l : Limiter) (st : Store) (x : Exec) (w : World) : World :=
  mkWorld (clock w) st (set_limiter l (set_objects (<[eid := x]> (objects (mgr w))) (mgr w))).
Definition on_executor (eid : nat) (f : Exec → Exec) (w : World) : World :=
  match objects (mgr w) !! eid with
  | Some x => put_executor eid (limiter (mgr w)) (store w) (f x) w
  | None => w
  end.

(** ** Ownership *)

(** [startExecutor] up to the jobs it reads *)
Definition startExecutor (f : Fault) (k : Z) (κ : Kont) (w : World) : World :=
  let m := mgr w in
  match jm_get k (executors m) with
  | Some eid => wait (Returning (Some eid) κ) w
  | None =>
      if stopped m then wait (Returning None κ) w
      else
        let eid := length (objects m) in
        let m := set_executors (jm_set k eid (executors m))
                   (set_objects (objects m ++ [new_executor (executorOptions options) k (clock w)]) m) in
        await f (reading (readJobs k)) (λ r, LoadingJobs eid r κ) (mkWorld (clock w) (store w) m)
  end.

Definition claimAndStart (f : Fault) (k : Z) (deadOwners : list string) (κ : Kont) (w : World) : World :=
  await f (claimShard k me deadOwners (maxAdopted options)) (λ r, Claiming k r κ) w.

Definition ensureOwned (f : Fault) (k : Z) (κ : Kont) (w : World) : World :=
  match jm_get k (executors (mgr w)) with
  | Some eid => wait (Returning (Some eid) κ) w
  | None => if stopped (mgr w) then wait (Returning None κ) w else claimAndStart f k [] κ w
  end.

Definition claimBudgetForThisStep (claimableCount : Z) (w : World) : Z :=
  if bool_decide (shardClaimRampUpDurationMs options <= 0) then claimBudget claimableCount (claimRampUpBudget options)
  else
    let budget := computeClaimBudget (shardClaimRampUpDurationMs options) (shardClaimInitialBudget options)
                    (shardClaimMaxBudget options) (clock w - joinedAtMs (mgr w)) (claimedSinceJoin (mgr w)) in
    if bool_decide (budget = UNLIMITED_CLAIM_BUDGET) then claimableCount else Z.min claimableCount budget.

(** ** Reconciliation *)

Definition scheduleCheck (w : World) : World :=
  on_mgr (set_check (if stopped (mgr w) || bool_decide (periodicShardCheckMs options <= 0) then None
                     else Some (clock w + periodicShardCheckMs options))) w.
(** The end of a reconciliation, however it ends. *)
Definition reconciled (w : World) : World :=
  let w := scheduleCheck w in
  on_mgr (λ m, set_chain (rc_queued m) (rc_started m) (S (rc_done m)) m) w.

Definition enqueueReconcile (m : Manager) : Manager := set_chain (S (rc_queued m)) (rc_started m) (rc_done m) m.
Definition refreshOwnership (active : list string) (m : Manager) : Manager :=
  enqueueReconcile (if stopped m then m else set_active active m).

(** [reconcileNow], when the one before is done *)
Definition reconcileNow (f : Fault) (w : World) : World :=
  let m := mgr w in
  if bool_decide (rc_started m = rc_done m) && bool_decide (rc_started m < rc_queued m)%nat then
    let w := on_mgr (set_chain (rc_queued m) (S (rc_started m)) (rc_done m)) w in
    if stopped m then on_mgr (set_chain (rc_queued m) (S (rc_started m)) (S (rc_done m))) w
    else await f (reading listShards) (λ r, Listing r (activeRingKeys m)) w
  else w.

Definition claimable (active : list string) (s : ShardRecord) : bool :=
  negb (poisoned s) && negb (bool_decide (owner s = Some me)) &&
  match owner s with None => true | Some o => negb (bool_decide (o ∈ active)) end.
Definition dead_owner (active : list string) (s : ShardRecord) : list string :=
  match owner s with Some o => if bool_decide (o ∈ active) then [] else [o] | None => [] end.

(** The loop that claims, the last part of a reconciliation, and the loop that
    resumes the silo's own shards, each up to its next await. *)
Definition claim_loop (f : Fault) (rest : list ShardRecord) (active : list string) (w : World) : World :=
  match rest with
  | [] => await f (reading listShards) Relisting w
  | s :: rest' =>
      if stopped (mgr w) then reconciled w
      else claimAndStart f (shardKey s) (dead_owner active s) (KClaim rest' active) w
  end.
Definition claim_available (f : Fault) (shards : list ShardRecord) (active : list string) (w : World) : World :=
  let available := filter (λ s, claimable active s = true) shards in
  let toClaim := claimBudgetForThisStep (Z.of_nat (length available)) w in
  claim_loop f (take (Z.to_nat toClaim) available) active w.
Fixpoint resume_loop (f : Fault) (rest shards : list ShardRecord) (active : list string) (w : World) : World :=
  match rest with
  | [] => claim_available f shards active w
  | s :: rest' =>
      if stopped (mgr w) then reconciled w
      else if bool_decide (owner s = Some me) && negb (jm_has (shardKey s) (executors (mgr w)))
      then startExecutor f (shardKey s) (KResume rest' shards active) w
      else resume_loop f rest' shards active w
  end.

(** [stopExecutor] up to its wait; the object to wait for. *)
Definition stopExecutor (k : Z) (w : World) : World * option nat :=
  match jm_get k (executors (mgr w)) with
  | None => (w, None)
  | Some eid => (on_executor eid stop_executor (on_mgr (λ m, set_executors (jm_delete k (executors m)) m) w), Some eid)
  end.
Fixpoint drop_loop (rest ownedNow : list Z) (w : World) : World :=
  match rest with
  | [] => reconciled w
  | k :: rest' =>
      if bool_decide (k ∈ ownedNow) then drop_loop rest' ownedNow w
      else
        match stopExecutor k w with
        | (w, Some eid) => wait (Dropping eid rest' ownedNow) w
        | (w, None) => drop_loop rest' ownedNow w
        end
  end.

(** ** Stopping *)

Definition stop (w : World) : World :=
  let w := on_mgr (λ m, set_check None (set_stopped m)) w in
  wait (AwaitingReconciled (rc_queued (mgr w))) w.
(** The loop of [stop]; an executor that is gone is released all the same. *)
Definition stop_loop (f : Fault) (rest : list Z) (w : World) : World :=
  match rest with
  | [] => on_mgr set_returned w
  | k :: rest' =>
      match stopExecutor k w with
      | (w, Some eid) => wait (Draining eid k rest') w
      | (w, None) => wait (Releasing rest') (on_store (caught f (releaseShard k me)) w)
      end
  end.

(** ** Jobs *)

Definition scheduleJob (f : Fault) (id name : string) (due : Z) (target : GrainId) (data : M) (w : World) : World :=
  match shardKeyFor due (shardDurationMs options) with
  | None => w
  | Some k =>
      let job := mkJob id name due target k data in
      await f (λ st, (persistAdd job st, ())) (λ r, Adding r job) w
  end.
Definition receiveForwardedJob (f : Fault) (job : Job) (w : World) : World := ensureOwned f (job_shard job) (KReceive job) w.
Definition cancelJob (f : Fault) (id : string) (k : Z) (w : World) : World :=
  match jm_get k (executors (mgr w)) ≫= λ eid, (λ x, (eid, x)) <$> objects (mgr w) !! eid with
  | Some (eid, x) =>
      let '(st, x, _) := cancel f id (store w) x in put_executor eid (limiter (mgr w)) st x w
  | None => on_store (caught f (persistRemove k id)) w
  end.

(** Where a job is forwarded to. *)
Definition forward_target (job : Job) (shards : list ShardRecord) : option string :=
  s ← head (filter (λ s, shardKey s = job_shard job) shards);
  o ← owner s;
  if bool_decide (o = me) then None else Some o.

(** What becomes of a result of [ensureOwned], [claimAndStart] or [startExecutor]. *)
Definition continue (f : Fault) (result : option nat) (κ : Kont) (w : World) : World :=
  match κ with
  | KSchedule job =>
      match result with
      | Some eid => on_executor eid (enqueue (clock w) job) w
      | None => if forwardsJobs options then await f (reading listShards) (λ r, FindingOwner r job) w else w
      end
  | KReceive job => match result with Some eid => on_executor eid (enqueue (clock w) job) w | None => w end
  | KResume rest shards active => resume_loop f rest shards active w
  | KClaim rest active =>
      let w := match result with Some _ => on_mgr (λ m, set_claimed (claimedSinceJoin m + 1) m) w | None => w end in
      claim_loop f rest active w
  end.
(** A rejection ends the method, and the reconciliation with it. *)
Definition reject (κ : Kont) (w : World) : World :=
  match κ with KSchedule _ | KReceive _ => w | KResume _ _ _ | KClaim _ _ => reconciled w end.

(** ** Operations *)

(** What is seen of an operation: a handler called, a job forwarded. *)
Inductive Event := Invoke (eid : nat) (c : @JobRunContext M) | Forward (to : string) (job : Job).

(** The continuation of the task [t], which is removed. *)
Definition resume_task (f : Fault) (t : Task) (w : World) : World * list Event :=
  match t with
  | Adding None _ => (w, [])
  | Adding (Some _) job => (ensureOwned f (job_shard job) (KSchedule job) w, [])
  | Claiming _ None κ => (reject κ w, [])
  | Claiming _ (Some None) κ => (wait (Returning None κ) w, [])
  | Claiming k (Some (Some _)) κ =>
      if stopped (mgr w) then (wait (HandingBack κ) (on_store (caught f (releaseShard k me)) w), [])
      else (startExecutor f k κ w, [])
  | HandingBack κ => (wait (Returning None κ) w, [])
  | LoadingJobs _ None κ => (reject κ w, [])
  | LoadingJobs eid (Some es) κ =>
      match objects (mgr w) !! eid with
      | None => (w, [])
      | Some x =>
          let '(st, x, rest) := load_jobs (clock w) f es (store w) x in
          let w := put_executor eid (limiter (mgr w)) st x w in
          (match rest with
           | Some es' => wait (LoadingJobs eid (Some es') κ) w
           | None => wait (Returning (Some eid) κ) w
           end, [])
      end
  | Returning result κ => (continue f result κ w, [])
  | FindingOwner None _ => (w, [])
  | FindingOwner (Some shards) job =>
      (w, match forward_target job shards with Some o => [Forward o job] | None => [] end)
  | Listing None _ => (reconciled w, [])
  | Listing (Some shards) active => (resume_loop f shards shards active w, [])
  | Relisting None => (reconciled w, [])
  | Relisting (Some shards) =>
      let ownedNow := shardKey <$> filter (λ s, owner s = Some me) shards in
      (drop_loop (jm_keys (executors (mgr w))) ownedNow w, [])
  | Dropping _ rest ownedNow => (drop_loop rest ownedNow w, [])
  | AwaitingReconciled _ => (stop_loop f (jm_keys (executors (mgr w))) w, [])
  | Draining _ k rest => (wait (Releasing rest) (on_store (caught f (releaseShard k me)) w), [])
  | Releasing rest => (stop_loop f rest w, [])
  end.
(** Whether what the task awaits has settled. *)
Definition settled (w : World) (t : Task) : bool :=
  match t with
  | Dropping eid _ _ | Draining eid _ _ =>
      match objects (mgr w) !! eid with Some x => bool_decide (length (inFlight x) = 0%nat) | None => true end
  | AwaitingReconciled ticket => bool_decide (ticket <= rc_done (mgr w))%nat
  | _ => true
  end.

Inductive Op :=
  | Advance (d : nat)
  | Schedule (f : Fault) (id name : string) (due : Z) (target : GrainId) (data : M)
  | Receive (f : Fault) (job : Job)
  | Cancel (f : Fault) (id : string) (k : Z)
  | Refresh (active : list string)
  | Check
  | Reconcile (f : Fault)
  | Stop
  | Resume (f : Fault) (i : nat)
  | PollTimer (eid : nat) (signal : bool) (f : string → Fault) (runId : string → string)
  | ResumeRun (eid : nat) (i : nat) (f : Fault) (res : JobResult)
  | Others (st : Store).

Definition due_now (t : option Z) (w : World) : bool :=
  match t with Some t => bool_decide (t <= clock w) | None => false end.

Definition exec (w : World) (o : Op) : World * list Event :=
  let m := mgr w in
  match o with
  | Advance d => (mkWorld (clock w + Z.of_nat d) (store w) m, [])
  | Schedule f id name due target data => (scheduleJob f id name due target data w, [])
  | Receive f job => (receiveForwardedJob f job w, [])
  | Cancel f id k => (cancelJob f id k w, [])
  | Refresh active => (on_mgr (refreshOwnership active) w, [])
  | Check => (if due_now (checkHandle m) w then on_mgr (λ m, enqueueReconcile (set_check None m)) w else w, [])
  | Reconcile f => (reconcileNow f w, [])
  | Stop => (stop w, [])
  | Resume f i =>
      match tasks m !! i with
      | Some t => if settled w t then resume_task f t (on_mgr (set_tasks (delete i (tasks m))) w) else (w, [])
      | None => (w, [])
      end
  | PollTimer eid signal f runId =>
      match objects m !! eid with
      | Some x =>
          if due_now (pollHandle x) w then
            let overloaded := if hasOverloadSignal options then signal else saturated (limiter m) in
            let '(l, st, x) := poll (executorOptions options) (clock w) overloaded f runId (limiter m) (store w) x in
            (put_executor eid l st x w, [])
          else (w, [])
      | None => (w, [])
      end
  | ResumeRun eid i f res =>
      match objects m !! eid with
      | Some x =>
          let '(l, st, x, cs) := resume_run (executorOptions options) (clock w) f res i (limiter m) (store w) x in
          (put_executor eid l st x w, Invoke eid <$> cs)
      | None => (w, [])
      end
  | Others st => (mkWorld (clock w) st m, [])
  end.

(** ** The invariant *)

Abbreviation slack_of := (slack (executorOptions options)).
Definition flights (l : list Exec) : Z := foldr (λ x n, flying x + n) 0 l.
Definition owned (k : Z) (w : World) : Prop := owner_of k (store w) = Some me.
Definition idle (m : Manager) : Prop := rc_started m = rc_done m.

Definition kont_of (t : Task) : option Kont :=
  match t with Claiming _ _ κ | HandingBack κ | LoadingJobs _ _ κ | Returning _ κ => Some κ | _ => None end.
(** The part of a reconciliation, the executor a task loads, and the one it waits for. *)
Definition reconciles (t : Task) : bool :=
  match t with
  | Listing _ _ | Relisting _ | Dropping _ _ _ => true
  | _ => match kont_of t with Some (KResume _ _ _) | Some (KClaim _ _) => true | _ => false end
  end.
Definition kont_reconciles (κ : Kont) : bool := match κ with KResume _ _ _ | KClaim _ _ => true | _ => false end.
Definition loads (t : Task) : option nat := match t with LoadingJobs eid (Some _) _ => Some eid | _ => None end.
Definition waits_on (eid : nat) (t : Task) : Prop :=
  match t with Dropping e _ _ | Draining e _ _ => e = eid | _ => False end.
Definition recs (l : list Task) : nat := length (filter (λ t, reconciles t = true) l).
Definition one (b : bool) : nat := if b then 1%nat else 0%nat.

(** Shards that were listed as this silo's own still are. *)
Definition still_owned (w : World) (l : list ShardRecord) : Prop :=
  stopped (mgr w) = false → ∀ s, s ∈ l → owner s = Some me → owned (shardKey s) w.
Definition kont_ok (w : World) (κ : Kont) : Prop :=
  match κ with KResume rest _ _ => still_owned w rest | _ => True end.
(** A part of [stop] after the reconciliations: it knows every executor that is left. *)
Definition stopping (w : World) (rest : list Z) : Prop :=
  stopped (mgr w) = true ∧ idle (mgr w) ∧ ∀ k, k ∈ jm_keys (executors (mgr w)) → k ∈ rest.
Definition task_ok (w : World) (t : Task) : Prop :=
  (match kont_of t with Some κ => kont_ok w κ | None => True end) ∧
  match t with
  | Claiming k (Some (Some _)) _ => stopped (mgr w) = false → owned k w
  | Listing (Some shards) _ => still_owned w shards
  | LoadingJobs eid _ _ => is_Some (objects (mgr w) !! eid)
  | Draining _ _ rest | Releasing rest => stopping w rest
  | AwaitingReconciled n => stopped (mgr w) = true ∧ (¬ idle (mgr w) → (rc_done (mgr w) < n)%nat)
  | _ => True
  end.

(** [busy]: reconciliations whose code is running now; [ex]: the executor being
    loaded now. *)
Record Inv (busy : nat) (ex : option nat) (w : World) : Prop := {
  i_limit : limit_max (limiter (mgr w)) = maxConcurrentJobsPerSilo (executorOptions options);
  i_slots : inUse (limiter (mgr w)) = flights (objects (mgr w));
  i_bound : inUse (limiter (mgr w)) <= Z.max 0 (maxConcurrentJobsPerSilo (executorOptions options));
  i_objects : ∀ eid x, objects (mgr w) !! eid = Some x → x_ok (clock w) x ∧
    (armed (executorOptions options) (clock w) x ∨ ex = Some eid ∨ ∃ t, t ∈ tasks (mgr w) ∧ loads t = Some eid);
  i_registry : jm_ok (executors (mgr w)) ∧
    ∀ k eid, jm_get k (executors (mgr w)) = Some eid → ∃ x, objects (mgr w) !! eid = Some x ∧ x_key x = k;
  i_retired : ∀ eid x, objects (mgr w) !! eid = Some x → jm_get (x_key x) (executors (mgr w)) = Some eid ∨
    (x_stopped x = true ∧ (inFlight x = [] ∨ ∃ t, t ∈ tasks (mgr w) ∧ waits_on eid t));
  i_store : store_ok (store w);
  i_owned : stopped (mgr w) = false → ∀ x, x ∈ objects (mgr w) → owned (x_key x) w;
  i_tasks : ∀ t, t ∈ tasks (mgr w) → task_ok w t;
  i_chain : (rc_started (mgr w) <= rc_queued (mgr w))%nat ∧
    (recs (tasks (mgr w)) + busy + rc_done (mgr w) = rc_started (mgr w))%nat ∧ (recs (tasks (mgr w)) + busy <= 1)%nat;
  i_returned : stop_returned (mgr w) = true → stopped (mgr w) = true ∧ idle (mgr w) ∧ executors (mgr w) = [] }.

Lemma recs_app l t : recs (l ++ [t]) = (recs l + one (reconciles t))%nat.
Proof. unfold recs, one. rewrite filter_app, length_app. f_equal. rewrite filter_cons. by destruct (reconciles t). Qed.
Lemma recs_delete l i t : l !! i = Some t → recs l = (recs (delete i l) + one (reconciles t))%nat.
Proof.
  intros Hi. unfold recs, one. rewrite (delete_Permutation l i t Hi) at 1. rewrite filter_cons.
  destruct (reconciles t); simpl; lia.
Qed.

(** What a step may do to what the tasks rely on. *)
Record advances (w w' : World) : Prop := {
  ad_stopped : stopped (mgr w) = true → stopped (mgr w') = true;
  ad_owned : stopped (mgr w') = false → ∀ k, owned k w → owned k w';
  ad_objects : (length (objects (mgr w)) <= length (objects (mgr w')))%nat;
  ad_keys : stopped (mgr w) = true → ∀ k, k ∈ jm_keys (executors (mgr w')) → k ∈ jm_keys (executors (mgr w));
  ad_idle : stopped (mgr w) = true → idle (mgr w) → idle (mgr w');
  ad_done : stopped (mgr w) = true → ¬ idle (mgr w') → ¬ idle (mgr w) ∧ rc_done (mgr w') = rc_done (mgr w) }.

Lemma advances_refl w : advances w w.
Proof. by split. Qed.
Lemma still_owned_advances w w' l : advances w w' → still_owned w l → still_owned w' l.
Proof.
  intros [A1 A2 _ _ _ _] H Hs s Hin Ho. apply A2; [done|]. apply H; [|done..].
  destruct (stopped (mgr w)) eqn:E; [|done]. specialize (A1 eq_refl). congruence.
Qed.
Lemma stopping_advances w w' l : advances w w' → stopping w l → stopping w' l.
Proof. intros [A1 _ _ A4 A5 _] (H1 & H2 & H3). split_and!; [auto|auto|]. intros k Hk. by apply H3, A4. Qed.
Lemma task_ok_advances w w' t : advances w w' → task_ok w t → task_ok w' t.
Proof.
  intros Ha [Hk Ht]. assert (Hunst : stopped (mgr w') = false → stopped (mgr w) = false).
  { intros Hs. destruct (stopped (mgr w)) eqn:E; [|done]. pose proof (ad_stopped _ _ Ha E). congruence. }
  split.
  - destruct (kont_of t) as [[]|]; try done. by eapply still_owned_advances.
  - destruct t as [| k [[]|] κ | | eid r κ | | | [l|] a | | | n | eid k rest | rest]; try done.
    + intros Hs. eapply ad_owned; eauto.
    + apply lookup_lt_is_Some in Ht. apply lookup_lt_is_Some. pose proof (ad_objects _ _ Ha). lia.
    + by eapply still_owned_advances.
    + destruct Ht as [Hs Hd]. split; [by eapply ad_stopped|]. intros Hi.
      destruct (ad_done _ _ Ha Hs Hi) as [Hi' ->]. by apply Hd.
    + by eapply stopping_advances.
    + by eapply stopping_advances.
Qed.

Lemma inv_wait busy ex t w : Inv (busy + one (reconciles t)) ex w → task_ok w t → Inv busy ex (wait t w).
Proof.
  intros [] Ht. assert (Ha : advances w (wait t w)) by by split.
  split; simpl; try done.
  - intros eid x Hx. destruct (i_objects0 eid x Hx) as (H1 & H2). split; [done|].
    destruct H2 as [H2|[H2|(t' & H2 & H3)]]; [by left|by right; left|right; right]. exists t'. split; [|done]. apply elem_of_app. by left.
  - intros eid x Hx. destruct (i_retired0 eid x Hx) as [H|(H1 & H2)]; [by left|right; split; [done|]].
    destruct H2 as [H2|(t' & H2 & H3)]; [by left|right; exists t'; split; [|done]; apply elem_of_app; by left].
  - intros t' Hin. apply (task_ok_advances w); [done|]. apply elem_of_app in Hin as [Hin| ->%list_elem_of_singleton]; auto.
  - rewrite recs_app. lia.
Qed.

(** A change outside the executors, the tasks and the registry. *)
Lemma inv_same busy busy' ex w w' :
  Inv busy ex w → advances w w' → clock w' = clock w →
  objects (mgr w') = objects (mgr w) → limiter (mgr w') = limiter (mgr w) →
  executors (mgr w') = executors (mgr w) → tasks (mgr w') = tasks (mgr w) → store_ok (store w') →
  (rc_started (mgr w') <= rc_queued (mgr w'))%nat ∧
    (recs (tasks (mgr w)) + busy' + rc_done (mgr w') = rc_started (mgr w'))%nat ∧ (recs (tasks (mgr w)) + busy' <= 1)%nat →
  (stop_returned (mgr w') = true → stop_returned (mgr w) = true) → Inv busy' ex w'.
Proof.
  intros [] Ha Hc Ho Hl He Ht Hst Hch Hret.
  assert (Hun : stopped (mgr w') = false → stopped (mgr w) = false).
  { intros Hs. destruct (stopped (mgr w)) eqn:E; [|done]. pose proof (ad_stopped _ _ Ha E). congruence. }
  split; rewrite ?Hc, ?Ho, ?Hl, ?He, ?Ht; try done.
  - intros Hs x Hx. apply (ad_owned _ _ Ha); auto.
  - intros t Hin. apply (task_ok_advances w); auto.
  - intros Hr. destruct (i_returned0 (Hret Hr)) as (R1 & R2 & R3). split_and!; [by apply (ad_stopped _ _ Ha)|by apply (ad_idle _ _ Ha)|done].
Qed.

Lemma inv_store busy ex w st : Inv busy ex w → store_ok st →
  (stopped (mgr w) = false → ∀ k, owner_of k (store w) = Some me → owner_of k st = Some me) →
  Inv busy ex (mkWorld (clock w) st (mgr w)).
Proof.
  intros Hinv Hst Ho. eapply inv_same; [exact Hinv|..]; try done; first [by split|apply Hinv].
Qed.

Lemma inv_await {A} busy ex f (op : Store → Store * A) task w :
  Inv (busy + one (reconciles (task None))) ex w →
  (∀ r, reconciles (task r) = reconciles (task None)) →
  store_ok (op (store w)).1 →
  (stopped (mgr w) = false → ∀ k, owner_of k (store w) = Some me → owner_of k (op (store w)).1 = Some me) →
  (∀ r st, advances w (mkWorld (clock w) st (mgr w)) → (f = Works → st = (op (store w)).1 ∧ r = Some (op (store w)).2) →
     (f ≠ Works → r = None) → task_ok (mkWorld (clock w) st (mgr w)) (task r)) →
  Inv busy ex (await f op task w).
Proof.
  intros Hinv Hrec Hst Ho Ht. unfold await, called. destruct (op (store w)) as [st1 a] eqn:Hop. simpl in Hst, Ho.
  set (st2 := if takes_effect f then st1 else store w). set (r := match f with Works => Some a | _ => None end).
  assert (Hst2 : store_ok st2) by (unfold st2; destruct (takes_effect f); [done|apply Hinv]).
  assert (Ho2 : stopped (mgr w) = false → ∀ k, owner_of k (store w) = Some me → owner_of k st2 = Some me)
    by (unfold st2; destruct (takes_effect f); [done|auto]).
  apply inv_wait; [rewrite Hrec; by apply inv_store|]. apply Ht.
  - by split.
  - intros ->. done.
  - unfold r. by destruct f.
Qed.

(** ** Executors *)

Lemma flights_insert l eid x x' : l !! eid = Some x → flights (<[eid := x']> l) = flights l - flying x + flying x'.
Proof.
  revert eid. induction l as [|y l IH]; intros [|eid] Hx; simpl in *; try done; [injection Hx as ->; lia|].
  rewrite IH by done. lia.
Qed.
Lemma flights_room l eid x : l !! eid = Some x → flying x <= flights l.
Proof.
  assert (Hnn : ∀ l, 0 <= flights l) by (clear; induction l as [|y l IH]; simpl; unfold flying in *; lia).
  revert eid. induction l as [|y l IH]; intros [|eid] Hx; simpl in *; try done.
  - injection Hx as ->. specialize (Hnn l). lia.
  - specialize (IH eid Hx). unfold flying in *. lia.
Qed.
Lemma inv_room busy ex w eid x : Inv busy ex w → objects (mgr w) !! eid = Some x → flying x <= inUse (limiter (mgr w)).
Proof. intros [] Hx. rewrite i_slots0. by eapply flights_room. Qed.
Lemma inv_x_ok busy ex w eid x : Inv busy ex w → objects (mgr w) !! eid = Some x → x_ok (clock w) x.
Proof. intros [] Hx. by destruct (i_objects0 eid x Hx). Qed.

Lemma flights_app l x : flights (l ++ [x]) = flights l + flying x.
Proof. induction l as [|y l IH]; simpl; [lia|]. rewrite IH. lia. Qed.

Lemma inv_put busy ex ex' w eid x l st x' :
  Inv busy ex w → objects (mgr w) !! eid = Some x →
  exec_step (clock w) (limiter (mgr w)) (store w) x l st x' →
  armed (executorOptions options) (clock w) x' ∨ ex' = Some eid ∨ (∃ t, t ∈ tasks (mgr w) ∧ loads t = Some eid) →
  (∀ e, ex = Some e → e = eid ∨ ex' = Some e) →
  Inv busy ex' (put_executor eid l st x' w).
Proof.
  intros [] Hx [E1 E2 E3 E4 E5 E6 E7 [E8 E9]] Harm Hex.
  assert (Ha : advances w (put_executor eid l st x' w)).
  { split; simpl; try done; [|by rewrite length_insert]. intros _ k. unfold owned. simpl. by rewrite E9. }
  assert (Hlk : ∀ e y, objects (mgr (put_executor eid l st x' w)) !! e = Some y →
    (e = eid ∧ y = x') ∨ (e ≠ eid ∧ objects (mgr w) !! e = Some y)).
  { intros e y. simpl. intros [(<- & <- & _)|[? ?]]%list_lookup_insert_Some; [by left|by right]. }
  split; simpl; try done.
  - congruence.
  - rewrite (flights_insert _ _ x) by done. lia.
  - rewrite i_limit0 in E5. lia.
  - intros e y [(-> & ->)|[Hne Hy]]%Hlk; [by split|]. destruct (i_objects0 e y Hy) as (H1 & H2). split; [done|].
    destruct H2 as [H2|[H2|H2]]; [by left| |by right; right]. destruct (Hex e H2) as [?|?]; [done|by right; left].
  - destruct i_registry0 as [R1 R2]. split; [done|]. intros k e He. destruct (R2 k e He) as (y & Hy & Hk).
    destruct (decide (e = eid)) as [->|Hne].
    + exists x'. rewrite list_lookup_insert_eq by by eapply lookup_lt_Some. split; [done|congruence].
    + exists y. by rewrite list_lookup_insert_ne.
  - intros e y [(-> & ->)|[Hne Hy]]%Hlk; [|by apply i_retired0]. rewrite E1, E2.
    destruct (i_retired0 eid x Hx) as [H|(H1 & H2)]; [by left|right; split; [done|]].
    destruct H2 as [H2|H2]; [left|by right]. specialize (E7 H1). rewrite H2 in E7. by destruct (inFlight x'); [|simpl in E7; lia].
  - auto.
  - intros Hs y (e & He)%list_elem_of_lookup. unfold owned. simpl. rewrite E9. apply Hlk in He as [(-> & ->)|[Hne Hy]].
    + rewrite E1. by apply (i_owned0 Hs), (list_elem_of_lookup_2 _ eid).
    + by apply (i_owned0 Hs), (list_elem_of_lookup_2 _ e).
  - intros t Hin. apply (task_ok_advances w); auto.
Qed.

Lemma inv_enqueue busy ex w eid job : Inv busy ex w → Inv busy ex (on_executor eid (enqueue (clock w) job) w).
Proof.
  intros Hinv. unfold on_executor. destruct (objects (mgr w) !! eid) as [x|] eqn:Hx; [|done].
  destruct (enqueue_step (executorOptions options) (clock w) job (limiter (mgr w)) (store w) x (inv_x_ok _ _ _ _ _ Hinv Hx)) as [H1 H2].
  eapply inv_put; [exact Hinv|exact Hx|exact H1|by left|]. intros e He. by right.
Qed.

(** A new executor of a shard that is owned *)
Lemma inv_new busy ex w k :
  Inv busy ex w → stopped (mgr w) = false → jm_get k (executors (mgr w)) = None → owned k w →
  let m := mgr w in
  let w' := mkWorld (clock w) (store w)
    (set_executors (jm_set k (length (objects m)) (executors m))
       (set_objects (objects m ++ [new_executor (executorOptions options) k (clock w)]) m)) in
  Inv busy ex w' ∧ advances w w'.
Proof.
  intros [] Hs Hk Ho m w'. subst m. set (x0 := new_executor (executorOptions options) k (clock w) : Exec).
  assert (Ha : advances w w').
  { split; simpl; try done; [rewrite length_app; simpl; lia|]. intros Hs'. congruence. }
  assert (Hlk : ∀ e y, objects (mgr w') !! e = Some y → objects (mgr w) !! e = Some y ∨ (e = length (objects (mgr w)) ∧ y = x0)).
  { intros e y. simpl. intros [[_ Hy]|[He Hy]]%lookup_snoc_Some; [by left|right; split; [exact He|by symmetry]]. }
  split; [|done]. split; simpl; try done.
  - rewrite flights_app. unfold flying, x0, new_executor. simpl. lia.
  - intros e y [Hy|[-> ->]]%Hlk; [by apply i_objects0|]. split; [split; simpl; [done|lia|done]|]. left. by intros _ d ?.
  - destruct i_registry0 as [R1 R2]. split; [by apply jm_ok_set|]. intros k' e. rewrite jm_get_set.
    case_decide as Hkk; [subst k'; intros [= <-]; exists x0|intros He; destruct (R2 k' e He) as (y & Hy & Hky); exists y].
    + by rewrite lookup_app_r, Nat.sub_diag.
    + split; [|done]. by apply lookup_app_l_Some.
  - intros e y [Hy|[-> ->]]%Hlk; [|left; simpl; apply jm_get_set_eq]. destruct (i_retired0 e y Hy) as [H|H]; [left|by right].
    rewrite jm_get_set_ne; [done|]. intros ->. congruence.
  - intros _ y [Hin| ->%list_elem_of_singleton]%elem_of_app; [by apply (i_owned0 Hs)|done].
  - intros t Hin. apply (task_ok_advances w); auto.
  - intros Hr. destruct (i_returned0 Hr) as [? _]. congruence.
Qed.

Lemma inv_startExecutor busy ex f k κ w :
  Inv (busy + one (kont_reconciles κ)) ex w → kont_ok w κ → (stopped (mgr w) = false → owned k w) →
  Inv busy ex (startExecutor f k κ w).
Proof.
  intros Hinv Hκ Ho. unfold startExecutor. cbv zeta.
  destruct (jm_get k (executors (mgr w))) as [eid|] eqn:Hk; [by apply inv_wait|].
  destruct (stopped (mgr w)) eqn:Hs; [by apply inv_wait|].
  destruct (inv_new _ _ _ k Hinv Hs Hk (Ho eq_refl)) as [Hinv' Ha]. cbv zeta in Hinv', Ha.
  apply inv_await; [exact Hinv'|done|apply Hinv'|done|]. intros r st Ha2 _ _. split; simpl.
  - destruct κ; try done. eapply still_owned_advances; [exact Ha2|]. by eapply still_owned_advances.
  - apply lookup_lt_is_Some. rewrite length_app. simpl. lia.
Qed.

Lemma inv_claimAndStart busy ex f k dead κ w :
  Inv (busy + one (kont_reconciles κ)) ex w → kont_ok w κ → Inv busy ex (claimAndStart f k dead κ w).
Proof.
  intros Hinv Hκ. unfold claimAndStart.
  pose proof (claimShard_spec k me dead (maxAdopted options) (store w) (i_store _ _ _ Hinv)) as Hc.
  destruct (claimShard k me dead (maxAdopted options) (store w)) as [st res] eqn:Hcl. destruct Hc as (C1 & C2 & C3).
  apply inv_await; [exact Hinv|done|by rewrite Hcl|rewrite Hcl; intros _ k' Hk'; by apply (C3 k' me); auto|].
  rewrite Hcl. intros r st' Ha Hw Hnw. split; simpl.
  - destruct κ; try done. by eapply still_owned_advances.
  - destruct r as [[r|]|]; try done. intros _. destruct f; [|by specialize (Hnw ltac:(done))..].
    destruct (Hw eq_refl) as [-> [= <-]]. unfold owned. simpl. by apply C2.
Qed.

Lemma inv_ensureOwned busy ex f k κ w :
  Inv (busy + one (kont_reconciles κ)) ex w → kont_ok w κ → Inv busy ex (ensureOwned f k κ w).
Proof.
  intros Hinv Hκ. unfold ensureOwned. destruct (jm_get _ _); [by apply inv_wait|].
  destruct (stopped (mgr w)); [by apply inv_wait|by apply inv_claimAndStart].
Qed.

(** ** Reconciliation and stopping *)

Lemma inv_flags busy ex w f : Inv busy ex w →
  (∀ m, objects (f m) = objects m ∧ executors (f m) = executors m ∧ limiter (f m) = limiter m ∧
        stopped (f m) = stopped m ∧ tasks (f m) = tasks m ∧ stop_returned (f m) = stop_returned m ∧
        rc_started (f m) = rc_started m ∧ rc_done (f m) = rc_done m ∧ (rc_queued m <= rc_queued (f m))%nat) →
  Inv busy ex (on_mgr f w).
Proof.
  intros Hinv Hf. destruct (Hf (mgr w)) as (F1 & F2 & F3 & F4 & F5 & F6 & F7 & F8 & F9).
  eapply (inv_same busy busy ex w); simpl; try done; [|apply Hinv| |by rewrite F6].
  - split; simpl; rewrite ?F4, ?F1, ?F2; unfold idle; simpl; rewrite ?F7, ?F8; done.
  - pose proof (i_chain _ _ _ Hinv). rewrite F7, F8. lia.
Qed.

Lemma inv_scheduleCheck busy ex w : Inv busy ex w → Inv busy ex (scheduleCheck w).
Proof. intros Hinv. by apply inv_flags. Qed.

Lemma inv_reconciled ex w : Inv 1 ex w → Inv 0 ex (reconciled w).
Proof.
  intros Hinv%inv_scheduleCheck. unfold reconciled. generalize dependent (scheduleCheck w). clear w. intros w Hinv.
  pose proof (i_chain _ _ _ Hinv) as Hch.
  eapply (inv_same 1 0 ex w); simpl; try done; [|apply Hinv|lia].
  split; simpl; unfold idle; simpl; try done; lia.
Qed.

Lemma inv_claim_loop ex f rest active w : Inv 1 ex w → Inv 0 ex (claim_loop f rest active w).
Proof.
  intros Hinv. destruct rest as [|s rest]; simpl.
  - apply inv_await; try done; apply Hinv.
  - destruct (stopped (mgr w)); [by apply inv_reconciled|by apply inv_claimAndStart].
Qed.

Lemma inv_resume_loop ex f rest shards active w : Inv 1 ex w → still_owned w rest →
  Inv 0 ex (resume_loop f rest shards active w).
Proof.
  intros Hinv. induction rest as [|s rest IH]; intros Hso; simpl; [by apply inv_claim_loop|].
  assert (Hso' : still_owned w rest) by (intros Hs s' Hin; apply Hso; [done|by right]).
  destruct (stopped (mgr w)) eqn:Hs; [by apply inv_reconciled|].
  destruct (bool_decide (owner s = Some me)) eqn:Ho; simpl; [|by apply IH].
  destruct (negb _); [|by apply IH]. apply bool_decide_eq_true in Ho.
  apply inv_startExecutor; [done|done|]. intros _. apply (Hso Hs s); [by left|done].
Qed.

Lemma inv_stop_wait busy ex w k eid t :
  Inv (busy + one (reconciles t)) ex w → jm_get k (executors (mgr w)) = Some eid → waits_on eid t →
  (match t with Draining _ _ rest => stopping (stopExecutor k w).1 rest | _ => True end) →
  Inv busy ex (wait t (stopExecutor k w).1).
Proof.
  intros [] Hk Hw. destruct i_registry0 as [R1 R2]. destruct (R2 k eid Hk) as (x & Hx & Hxk).
  unfold stopExecutor. rewrite Hk. simpl. unfold on_executor. simpl. rewrite Hx. intros Ht.
  set (x' := stop_executor x).
  destruct (i_objects0 eid x Hx) as [Hok _].
  destruct (stop_step (executorOptions options) (clock w) (store w) (limiter (mgr w)) x Hok) as (S1 & S2 & S3 & S4 & S5 & _).
  fold x' in S1, S2, S3, S4, S5. set (w' := wait t _).
  assert (Hkeys : ∀ j, j ∈ jm_keys (jm_delete k (executors (mgr w))) → j ∈ jm_keys (executors (mgr w))).
  { intros j ((j' & e) & -> & [_ Hin]%list_elem_of_filter)%list_elem_of_fmap. apply list_elem_of_fmap. by exists (j', e). }
  assert (Ha : advances w w') by (split; simpl; try done; by rewrite length_insert).
  assert (Hlk : ∀ e y, objects (mgr w') !! e = Some y → (e = eid ∧ y = x') ∨ (e ≠ eid ∧ objects (mgr w) !! e = Some y)).
  { intros e y. simpl. intros [(<- & <- & _)|[? ?]]%list_lookup_insert_Some; [by left|by right]. }
  assert (Htail : ∀ u, u ∈ tasks (mgr w) → u ∈ tasks (mgr w')) by (intros u Hu; simpl; apply elem_of_app; by left).
  assert (Hself : t ∈ tasks (mgr w')) by (simpl; apply elem_of_app; right; by apply list_elem_of_singleton).
  split; simpl; try done.
  - rewrite (flights_insert _ _ x) by done. unfold flying. rewrite S3. unfold flying in *. lia.
  - intros e y [(-> & ->)|[Hne Hy]]%Hlk; [split; [done|by left]|]. destruct (i_objects0 e y Hy) as (H1 & H2). split; [done|].
    destruct H2 as [H2|[H2|(u & H2 & H3)]]; [by left|by right; left|right; right; exists u; split; [by apply Htail|done]].
  - split; [by apply jm_ok_delete|]. intros j e. rewrite jm_get_delete. case_decide as Hj; [done|]. intros He.
    destruct (R2 j e He) as (y & Hy & Hyk). exists y. rewrite list_lookup_insert_ne; [done|]. intros <-. congruence.
  - intros e y [(-> & ->)|[Hne Hy]]%Hlk; [right; split; [done|]; right; by exists t|].
    destruct (i_retired0 e y Hy) as [H|(H1 & H2)].
    + left. rewrite jm_get_delete. case_decide as Hj; [congruence|done].
    + right. split; [done|]. destruct H2 as [H2|(u & H2 & H3)]; [by left|right; exists u; split; [by apply Htail|done]].
  - intros Hs y (e & He)%list_elem_of_lookup. apply Hlk in He as [(-> & ->)|[Hne Hy]].
    + rewrite S1. by apply (i_owned0 Hs), (list_elem_of_lookup_2 _ eid).
    + by apply (i_owned0 Hs), (list_elem_of_lookup_2 _ e).
  - intros u [Hin| ->%list_elem_of_singleton]%elem_of_app; [by apply (task_ok_advances w); auto|].
    destruct t as [| | | | | | | |eid' rest' ow| |eid' k' rest'|]; try done.
  - rewrite recs_app. lia.
  - intros Hr. destruct (i_returned0 Hr) as (H1 & H2 & H3). by rewrite H3 in Hk.
Qed.

Lemma stopExecutor_none k w : jm_get k (executors (mgr w)) = None → stopExecutor k w = (w, None).
Proof. intros Hk. unfold stopExecutor. by rewrite Hk. Qed.
Lemma stopExecutor_some k w eid : jm_get k (executors (mgr w)) = Some eid → (stopExecutor k w).2 = Some eid.
Proof. intros Hk. unfold stopExecutor. by rewrite Hk. Qed.

Lemma inv_drop_loop ex rest ownedNow w : Inv 1 ex w → Inv 0 ex (drop_loop rest ownedNow w).
Proof.
  intros Hinv. induction rest as [|k rest IH]; simpl; [by apply inv_reconciled|]. case_bool_decide; [done|].
  destruct (jm_get k (executors (mgr w))) as [eid|] eqn:Hk; [|by rewrite stopExecutor_none].
  pose proof (stopExecutor_some k w eid Hk) as H2. pose proof (inv_stop_wait 0 ex w k eid (Dropping eid rest ownedNow) Hinv Hk eq_refl I) as H1.
  destruct (stopExecutor k w) as [w1 o]. simpl in *. by subst o.
Qed.

Lemma inv_stop ex w : Inv 0 ex w → Inv 0 ex (stop w).
Proof.
  intros Hinv. unfold stop. apply inv_wait; [|split; [done|]; simpl; split; [done|]].
  - pose proof (i_chain _ _ _ Hinv) as Hch.
    eapply (inv_same 0 0 ex w); simpl; try done. apply Hinv.
  - pose proof (i_chain _ _ _ Hinv) as Hch. unfold idle. simpl. lia.
Qed.

Lemma inv_stop_loop ex f rest w : Inv 0 ex w → stopping w rest → Inv 0 ex (stop_loop f rest w).
Proof.
  intros Hinv (Hs & Hi & Hk). destruct rest as [|k rest]; simpl.
  - assert (He : executors (mgr w) = []).
    { destruct (executors (mgr w)) as [|[k e] l] eqn:E; [done|]. exfalso. apply (not_elem_of_nil k), Hk. by left. }
    destruct Hinv. split; simpl; try done.
  - destruct (jm_get k (executors (mgr w))) as [eid|] eqn:Hg.
    + assert (Hst : stopping (stopExecutor k w).1 rest).
      { unfold stopExecutor. rewrite Hg. simpl. unfold on_executor. simpl.
        assert (Hd : ∀ j, j ∈ jm_keys (jm_delete k (executors (mgr w))) → j ∈ rest).
        { intros j Hj. assert (j ∈ jm_keys (executors (mgr w)) ∧ j ≠ k) as [Hj1 Hj2].
          { apply list_elem_of_fmap in Hj as ((j' & e) & -> & [Hne Hin]%list_elem_of_filter). split; [|done].
            apply list_elem_of_fmap. by exists (j', e). }
          apply Hk in Hj1. by apply elem_of_cons in Hj1 as [?|?]. }
        by destruct (objects (mgr w) !! eid). }
      pose proof (stopExecutor_some k w eid Hg) as H2.
      assert (H1 : Inv 0 ex (wait (Draining eid k rest) (stopExecutor k w).1)).
      { by apply (inv_stop_wait 0 ex w k eid (Draining eid k rest)). }
      destruct (stopExecutor k w) as [w1 o]. simpl in *. by subst o.
    + rewrite stopExecutor_none by done. apply inv_wait.
      * unfold on_store. apply inv_store; [done| |congruence].
        unfold caught. destruct (takes_effect f); [apply releaseShard_ok|]; apply Hinv.
      * split; [done|]. split_and!; [done|done|]. intros j Hj. simpl in Hj. specialize (Hk j Hj).
        apply elem_of_cons in Hk as [->|?]; [|done]. apply jm_get_None in Hg. done.
Qed.

(** ** Steps *)

Lemma inv_untask w i t : Inv 0 None w → tasks (mgr w) !! i = Some t → settled w t = true →
  let w' := on_mgr (set_tasks (delete i (tasks (mgr w)))) w in
  Inv (one (reconciles t)) (loads t) w' ∧ task_ok w' t ∧
  (match t with AwaitingReconciled _ => stopped (mgr w) = true ∧ idle (mgr w) | _ => True end).
Proof.
  intros [] Hi Hset w'. assert (Ha : advances w w') by by split.
  assert (Hin : t ∈ tasks (mgr w)) by by eapply list_elem_of_lookup_2.
  assert (Hsub : ∀ u, u ∈ delete i (tasks (mgr w)) → u ∈ tasks (mgr w)) by (intros u Hu; rewrite (delete_Permutation _ _ _ Hi); by right).
  assert (Hother : ∀ u, u ∈ tasks (mgr w) → u = t ∨ u ∈ delete i (tasks (mgr w))).
  { intros u Hu. rewrite (delete_Permutation _ _ _ Hi) in Hu. by apply elem_of_cons in Hu. }
  split_and!; [|by apply (task_ok_advances w); auto|].
  - split; simpl; try done.
    + intros eid x Hx. destruct (i_objects0 eid x Hx) as (H1 & H2). split; [done|].
      destruct H2 as [H2|[H2|(u & H2 & H3)]]; [by left|done|]. apply Hother in H2 as [->|H2]; [by right; left|right; right; by exists u].
    + intros eid x Hx. destruct (i_retired0 eid x Hx) as [H|(H1 & H2)]; [by left|right; split; [done|]].
      destruct H2 as [H2|(u & H2 & H3)]; [by left|]. apply Hother in H2 as [->|H2]; [|right; by exists u].
      left. destruct t; try done; simpl in H3; subst; simpl in Hset; rewrite Hx in Hset; apply bool_decide_eq_true in Hset;
        by apply nil_length_inv.
    + intros u Hu. apply (task_ok_advances w); auto.
    + rewrite (recs_delete _ _ _ Hi) in i_chain0. lia.
  - destruct t; try done. destruct (i_tasks0 _ Hin) as [_ [Hs Hn]]. split; [done|]. simpl in Hset.
    apply bool_decide_eq_true in Hset. destruct (decide (idle (mgr w))) as [?|Hni]; [done|]. specialize (Hn Hni). lia.
Qed.

Lemma inv_continue ex f result κ w : Inv (one (kont_reconciles κ)) ex w → kont_ok w κ → Inv 0 ex (continue f result κ w).
Proof.
  intros Hinv Hκ. destruct κ as [job|job|rest shards active|rest active]; simpl in *.
  - destruct result as [eid|]; [by apply inv_enqueue|]. destruct (forwardsJobs options); [|done].
    apply inv_await; try done. apply Hinv.
  - destruct result as [eid|]; [by apply inv_enqueue|done].
  - by apply inv_resume_loop.
  - apply inv_claim_loop. destruct result; [by apply inv_flags|done].
Qed.

Lemma inv_reject ex κ w : Inv (one (kont_reconciles κ)) ex w → Inv 0 ex (reject κ w).
Proof. intros Hinv. destruct κ; simpl in *; try done; by apply inv_reconciled. Qed.

Lemma inv_release busy ex f k w : Inv busy ex w → stopped (mgr w) = true → Inv busy ex (on_store (caught f (releaseShard k me)) w).
Proof.
  intros Hinv Hs. apply inv_store; [done| |congruence].
  unfold caught. destruct (takes_effect f); [apply releaseShard_ok|]; apply Hinv.
Qed.

Lemma task_kont_reconciles t κ : kont_of t = Some κ → reconciles t = kont_reconciles κ.
Proof. by destruct t as [|? ? []|[]|? ? []|? []| | | | | | |]; simpl; intros [= <-]. Qed.

(** The executor that is being loaded *)
Lemma inv_load f eid es κ w :
  Inv (one (kont_reconciles κ)) (Some eid) w → kont_ok w κ → is_Some (objects (mgr w) !! eid) →
  Inv 0 None (resume_task f (LoadingJobs eid (Some es) κ) w).1.
Proof.
  intros Hinv Hκ [x Hx]. simpl. rewrite Hx.
  pose proof (load_jobs_step (executorOptions options) (clock w) f es (store w) x (limiter (mgr w)) (inv_x_ok _ _ _ _ _ Hinv Hx)) as H.
  destruct (load_jobs (clock w) f es (store w) x) as [[st x'] rest]. destruct H as [H1 H2]. simpl.
  set (w1 := put_executor eid (limiter (mgr w)) st x' w).
  assert (Hput : ∀ ex', armed (executorOptions options) (clock w) x' ∨ ex' = Some eid → Inv (one (kont_reconciles κ)) ex' w1).
  { intros ex' Hor. eapply inv_put; [exact Hinv|exact Hx|exact H1|destruct Hor; auto|]. intros e [= ->]. by left. }
  assert (Hadv : advances w w1).
  { split; simpl; try done; [|by rewrite length_insert]. intros _ j Hj. unfold owned. simpl. by rewrite (proj2 (es_store _ _ _ _ _ _ _ H1)). }
  assert (Hκ1 : kont_ok w1 κ) by (destruct κ; try done; by eapply still_owned_advances).
  destruct rest as [es'|].
  - assert (Hinv1 := Hput (Some eid) ltac:(by right)).
    assert (Hw : Inv 0 (Some eid) (wait (LoadingJobs eid (Some es') κ) w1)).
    { apply inv_wait; [done|]. split; [done|]. simpl. apply lookup_lt_is_Some. rewrite length_insert. by eapply lookup_lt_Some. }
    destruct Hw. split; try done. intros e y Hy. destruct (i_objects0 e y Hy) as (G1 & G2). split; [done|].
    destruct G2 as [G2|[[= ->]|G2]]; [by left| |by right; right]. right. right. exists (LoadingJobs e (Some es') κ).
    split; [|done]. simpl. apply elem_of_app. right. by apply list_elem_of_singleton.
  - apply inv_wait; [|by split]. apply Hput. left. by apply H2.
Qed.

Lemma inv_resume_task f t w i : Inv 0 None w → tasks (mgr w) !! i = Some t → settled w t = true →
  Inv 0 None (resume_task f t (on_mgr (set_tasks (delete i (tasks (mgr w)))) w)).1.
Proof.
  intros Hinv Hi Hset. destruct (inv_untask w i t Hinv Hi Hset) as (Hu & Ht & Hstop). clear Hinv Hset Hi.
  assert (Hs0 : stopped (mgr (on_mgr (set_tasks (delete i (tasks (mgr w)))) w)) = stopped (mgr w)) by done.
  assert (Hi0 : idle (mgr w) → idle (mgr (on_mgr (set_tasks (delete i (tasks (mgr w)))) w))) by done.
  rewrite <- Hs0 in Hstop. clear Hs0. generalize dependent (on_mgr (set_tasks (delete i (tasks (mgr w)))) w).
  intros w1 Hu [Hk Ht] Hstop Hi0. destruct t as [[|] job|k [[r|]|] κ|κ|eid [es|] κ|res κ|[]|[shards|] active|[shards|]|eid rest ow|n|eid k rest|rest];
    try rewrite (task_kont_reconciles _ κ eq_refl) in Hu; simpl in *.
  - by apply inv_ensureOwned.
  - done.
  - destruct (stopped (mgr w1)) eqn:Hs; simpl.
    + apply inv_wait; [by apply inv_release|]. split; [|done]. simpl. destruct κ; try done. intros ?. simpl in *. congruence.
    + apply inv_startExecutor; [done|done|auto].
  - by apply inv_wait.
  - by apply inv_reject.
  - by apply inv_wait.
  - by apply (inv_load f eid es κ w1).
  - by apply inv_reject.
  - by apply inv_continue.
  - done.
  - done.
  - by apply inv_resume_loop.
  - by apply inv_reconciled.
  - by apply inv_drop_loop.
  - by apply inv_reconciled.
  - by apply inv_drop_loop.
  - destruct Hstop as [Hs Hid]. apply inv_stop_loop; [done|]. split_and!; [done|by apply Hi0|done].
  - destruct Ht as (T1 & T2 & T3). apply inv_wait; [by apply inv_release|]. by split.
  - by apply inv_stop_loop.
Qed.

(** The rely on the other silos: they keep the store in shape and take no shard
    from this silo, unless it has begun to stop. *)
Definition fair (w : World) (o : Op) : Prop :=
  match o with
  | Others st => store_ok st ∧
      (stopped (mgr w) = false → ∀ k, owner_of k (store w) = Some me → owner_of k st = Some me)
  | _ => True
  end.

Lemma inv_exec w o : Inv 0 None w → fair w o → Inv 0 None (exec w o).1.
Proof.
  intros Hinv Hfair. destruct o as [d|f id name due target data|f job|f id k|active| |f| |f i|eid sig f runId|eid i f res|st]; simpl.
  - destruct Hinv. split; try done. intros eid x Hx. destruct (i_objects0 eid x Hx) as ([X1 X2 X3] & H2). split; [split; simpl; try done; lia|].
    destruct H2 as [H2|H2]; [left|by right]. eapply armed_later; [|exact H2]. simpl. lia.
  - unfold scheduleJob. destruct (shardKeyFor _ _) as [k|]; [|done]. apply inv_await; try done; simpl.
    + apply persistAdd_ok, Hinv.
    + intros _ k' Hk'. by rewrite persistAdd_owner.
  - by apply inv_ensureOwned.
  - unfold cancelJob. destruct (jm_get k (executors (mgr w))) as [eid|]; simpl.
    + destruct (objects (mgr w) !! eid) as [x|] eqn:Hx; simpl.
      * destruct (i_objects _ _ _ Hinv eid x Hx) as [Hok Harm].
        pose proof (cancel_step (executorOptions options) (clock w) f id (limiter (mgr w)) (store w) x Hok) as H.
        unfold cancel, queue_cancel in H. destruct H as [H1 H2].
        eapply inv_put; [exact Hinv|exact Hx|exact H1| |done].
        destruct Harm as [?|[?|?]]; [left; auto|done|by right; right].
      * apply inv_store; [done|..]; unfold caught; destruct (takes_effect f); try apply Hinv; try done;
          [by apply remove_same, Hinv|intros _ j Hj; by rewrite (proj2 (remove_same k id (store w)))].
    + apply inv_store; [done|..]; unfold caught; destruct (takes_effect f); try apply Hinv; try done;
        [by apply remove_same, Hinv|intros _ j Hj; by rewrite (proj2 (remove_same k id (store w)))].
  - apply inv_flags; [done|]. intros m. unfold refreshOwnership. destruct (stopped m) eqn:Hsm; simpl; split_and!; try done; lia.
  - destruct (due_now _ _); [|done]. apply inv_flags; [done|]. intros m. simpl. split_and!; try done; lia.
  - unfold reconcileNow. destruct (bool_decide _ && _) eqn:Hb; [|done].
    apply andb_true_iff in Hb as [Hb1%bool_decide_eq_true Hb2%bool_decide_eq_true].
    pose proof (i_chain _ _ _ Hinv) as Hch. destruct (stopped (mgr w)) eqn:Hs; simpl.
    + eapply (inv_same 0 0 None w); simpl; try done; [|apply Hinv|lia]. split; simpl; unfold idle; simpl; try done; lia.
    + apply inv_await; try done; simpl.
      * eapply (inv_same 0 1 None w); simpl; try done; [|apply Hinv|lia]. split; simpl; try done; congruence.
      * apply Hinv.
      * intros r st _ Hw Hnw. split; [done|]. simpl. destruct r as [shards|]; [|done]. intros _ s Hin Ho. unfold owned. simpl.
        destruct f; [|by specialize (Hnw ltac:(done))..]. destruct (Hw eq_refl) as [-> [= ->]].
        by rewrite (listShards_owner s (store w)) by (try done; apply Hinv).
  - by apply inv_stop.
  - destruct (tasks (mgr w) !! i) as [t|] eqn:Hi; [|done]. destruct (settled w t) eqn:Hset; [|done]. by apply inv_resume_task.
  - destruct (objects (mgr w) !! eid) as [x|] eqn:Hx; [|done]. destruct (due_now _ _); [|done].
    set (ov := if hasOverloadSignal options then sig else saturated (limiter (mgr w))).
    pose proof (poll_step (executorOptions options) (clock w) ov f runId (limiter (mgr w)) (store w) x
      (inv_x_ok _ _ _ _ _ Hinv Hx) (inv_room _ _ _ _ _ Hinv Hx)) as H.
    destruct (poll _ _ _ _ _ _ _ _) as [[l st] x']. destruct H as [H1 H2]. eapply inv_put; try done. by left.
  - destruct (objects (mgr w) !! eid) as [x|] eqn:Hx; [|done].
    destruct (i_objects _ _ _ Hinv eid x Hx) as [Hok Harm].
    pose proof (resume_run_step (executorOptions options) (clock w) f res i (limiter (mgr w)) (store w) x Hok
      (inv_room _ _ _ _ _ Hinv Hx)) as H.
    destruct (resume_run _ _ _ _ _ _ _ _) as [[[l st] x'] cs]. destruct H as [H1 H2]. simpl. eapply inv_put; try done.
    destruct Harm as [?|[?|?]]; [left; auto|done|by right; right].
  - destruct Hfair as [F1 F2]. by apply inv_store.
Qed.

Lemma inv_new_manager now active st : store_ok st → 0 <= maxConcurrentJobsPerSilo (executorOptions options) →
  Inv 0 None (mkWorld now st (new_manager now active)).
Proof.
  intros Hst Hmax. split; simpl; try done; try lia.
  - split; [apply jm_ok_nil|done].
  - by intros _ x ?%not_elem_of_nil.
  - by intros t ?%not_elem_of_nil.
Qed.

(** The states of a silo among others that keep to the rely. *)
Inductive reachable : World → Prop :=
  | reach_start now active st : store_ok st → reachable (mkWorld now st (new_manager now active))
  | reach_step w o : reachable w → fair w o → reachable (exec w o).1.

Lemma jobs_reachable_inv w : 0 <= maxConcurrentJobsPerSilo (executorOptions options) → reachable w → Inv 0 None w.
Proof. intros Hmax. induction 1; [by apply inv_new_manager|by apply inv_exec]. Qed.

(** A silo never runs more durable jobs at a time than it is configured to:
    at every reachable state, whatever the store calls, handlers, clocks and other
    silos do, the slots in use are exactly the runs in flight of all its
    executors, also of those it no longer registers, and at most
    [maxConcurrentJobsPerSilo]. *)
Theorem job_slots_bounded w : 0 <= maxConcurrentJobsPerSilo (executorOptions options) → reachable w →
  inUse (limiter (mgr w)) = flights (objects (mgr w)) ∧
  flights (objects (mgr w)) <= maxConcurrentJobsPerSilo (executorOptions options) ∧
  ∀ x, x ∈ objects (mgr w) → running x = Z.of_nat (length (inFlight x)).
Proof.
  intros Hmax Hr. destruct (jobs_reachable_inv w Hmax Hr). split_and!; [done|lia|].
  intros x (eid & Hx)%list_elem_of_lookup. by destruct (i_objects0 eid x Hx) as [[? _ _] _].
Qed.

(** No job is forgotten in a queue: at every reachable state an executor that
    has not been stopped and has a job queued has a timer set, for no later than
    [slack] after the job is due or after now, if it is due already; or it is
    still loading its shard, which sets the timer. *)
Theorem queued_jobs_watched w eid x d : 0 <= maxConcurrentJobsPerSilo (executorOptions options) → reachable w →
  objects (mgr w) !! eid = Some x → x_stopped x = false → nextDueMs (queue x) = Some d →
  (∃ t, pollHandle x = Some t ∧ t <= Z.max (clock w) d + slack_of) ∨
  ∃ es κ, LoadingJobs eid (Some es) κ ∈ tasks (mgr w).
Proof.
  intros Hmax Hr Hx Hs Hd. destruct (jobs_reachable_inv w Hmax Hr). destruct (i_objects0 eid x Hx) as [_ [H|[?|(t & Ht & Hl)]]]; [left; by apply H|done|].
  right. destruct t as [| | |e [es|] κ| | | | | | | | ]; try done. injection Hl as ->. by exists es, κ.
Qed.

(** Every call of [stop] has returned. *)
Definition stop_done (m : Manager) : Prop :=
  stop_returned m = true ∧
  ∀ t, t ∈ tasks m → match t with AwaitingReconciled _ | Draining _ _ _ | Releasing _ => False | _ => True end.

(** A silo that has stopped runs nothing: once [stop] has returned no executor
    is registered, every executor there ever was is stopped, without a timer and
    without a run in flight, no reconciliation is in progress, and whatever
    happens next no handler is called. *)
Theorem stop_drains w : 0 <= maxConcurrentJobsPerSilo (executorOptions options) → reachable w → stop_done (mgr w) →
  executors (mgr w) = [] ∧ recs (tasks (mgr w)) = 0%nat ∧
  (∀ x, x ∈ objects (mgr w) → x_stopped x = true ∧ pollHandle x = None ∧ inFlight x = []) ∧
  ∀ o, (exec w o).2 = [] ∨ ∃ to job, (exec w o).2 = [Forward to job].
Proof.
  intros Hmax Hr [Hret Hno]. destruct (jobs_reachable_inv w Hmax Hr).
  destruct (i_returned0 Hret) as (Hs & Hid & He). assert (Hrec : recs (tasks (mgr w)) = 0%nat) by (unfold idle in Hid; lia).
  assert (Hx : ∀ x, x ∈ objects (mgr w) → x_stopped x = true ∧ pollHandle x = None ∧ inFlight x = []).
  { intros x (eid & Hx)%list_elem_of_lookup. destruct (i_objects0 eid x Hx) as [[_ _ O3] _].
    destruct (i_retired0 eid x Hx) as [H|(H1 & [H2|(t & H2 & H3)])]; [by rewrite He in H|by split_and!; auto|].
    exfalso. destruct t as [| | | | | | | |e rest ow| |e k rest|]; try done; [|by apply (Hno _ H2)].
    apply list_elem_of_lookup in H2 as [i Hi]. apply recs_delete in Hi. simpl in Hi. lia. }
  split_and!; try done. intros o.
  assert (Hstep : ∀ f t w1, (resume_task f t w1).2 = [] ∨ ∃ to job, (resume_task f t w1).2 = [Forward to job]).
  { intros f t w1. destruct t as [[|] job|k [[r|]|] κ|κ|eid [es|] κ|res κ|[]|[shards|] active|[shards|]|eid rest ow|n|eid k rest|rest];
      simpl; try (by left).
    - destruct (stopped (mgr w1)); by left.
    - destruct (objects (mgr w1) !! eid); [|by left]. destruct (load_jobs _ _ _ _ _) as [[? ?] ?]. by left.
    - destruct (forward_target _ _) as [to|]; [right; by eexists _, _|by left]. }
  destruct o as [d|f id name due target data|f job|f id k|active| |f| |f i|eid sig f runId|eid i f res|st]; simpl; try (by left).
  - destruct (tasks (mgr w) !! i) as [t|]; [|by left]. destruct (settled w t); [apply Hstep|by left].
  - destruct (objects (mgr w) !! eid); [|by left]. destruct (due_now _ _); [|by left].
    destruct (poll _ _ _ _ _ _ _ _) as [[? ?] ?]. by left.
  - destruct (objects (mgr w) !! eid) as [x|] eqn:Hxe; [|by left]. left.
    destruct (Hx x ltac:(by eapply list_elem_of_lookup_2)) as (_ & _ & Hf). unfold resume_run. by rewrite Hf.
Qed.

(** ** What this silo does to the others *)

Definition task_views (t : Task) : list (list string) :=
  match t with
  | Listing _ active => [active]
  | _ => match kont_of t with Some (KResume _ _ active) | Some (KClaim _ active) => [active] | _ => [] end
  end.
Definition kont_views (κ : Kont) : list (list string) :=
  match κ with KResume _ _ active | KClaim _ active => [active] | _ => [] end.
(** Every membership view this silo still works with has the silo [o]. *)
Definition seen (o : string) (w : World) : Prop :=
  o ∈ activeRingKeys (mgr w) ∧ ∀ t, t ∈ tasks (mgr w) → ∀ v, v ∈ task_views t → o ∈ v.
(** The step keeps it so, and takes no shard from it. *)
Definition spares (o : string) (w w' : World) : Prop :=
  seen o w → seen o w' ∧ ∀ k, owner_of k (store w) = Some o → owner_of k (store w') = Some o.
(** Time stands still, and what has stopped stays so. *)
Definition steady (w w' : World) : Prop :=
  clock w' = clock w ∧ (stopped (mgr w) = true → stopped (mgr w') = true).
Definition respects (o : string) (w w' : World) : Prop := steady w w' ∧ spares o w w'.

Lemma steady_trans a b c : steady a b → steady b c → steady a c.
Proof. intros [A1 A2] [B1 B2]. split; [congruence|auto]. Qed.
Lemma steady_await {A} f (op : Store → Store * A) task w : steady w (await f op task w).
Proof. unfold await, called. by destruct (op (store w)). Qed.
Lemma steady_start f k κ w : steady w (startExecutor f k κ w).
Proof.
  unfold startExecutor. cbv zeta. destruct (jm_get _ _); [done|]. destruct (stopped _) eqn:Hs; [done|].
  eapply steady_trans; [|apply steady_await]. done.
Qed.
Lemma steady_reconciled w : steady w (reconciled w).
Proof. done. Qed.
Lemma steady_claim_loop f rest active w : steady w (claim_loop f rest active w).
Proof. destruct rest; [apply steady_await|]. simpl. destruct (stopped _); [done|apply steady_await]. Qed.
Lemma steady_resume_loop f rest shards active w : steady w (resume_loop f rest shards active w).
Proof.
  induction rest as [|s rest IH]; simpl; [apply steady_claim_loop|]. destruct (stopped _); [done|].
  destruct (_ && _); [apply steady_start|done].
Qed.
Lemma steady_on_executor eid f w : steady w (on_executor eid f w).
Proof. unfold on_executor. by destruct (objects _ !! eid). Qed.
Lemma steady_stopExecutor k w : steady w (stopExecutor k w).1.
Proof. unfold stopExecutor. destruct (jm_get _ _); [|done]. eapply steady_trans; [|apply steady_on_executor]. done. Qed.
Lemma steady_drop_loop rest ownedNow w : steady w (drop_loop rest ownedNow w).
Proof.
  revert w. induction rest as [|k rest IH]; intros w; simpl; [done|]. case_bool_decide; [done|].
  pose proof (steady_stopExecutor k w) as Hs. destruct (stopExecutor k w) as [w1 [eid|]]; [done|by eapply steady_trans].
Qed.
Lemma steady_stop_loop f rest w : steady w (stop_loop f rest w).
Proof.
  destruct rest as [|k rest]; simpl; [done|]. pose proof (steady_stopExecutor k w) as Hs.
  by destruct (stopExecutor k w) as [w1 [eid|]].
Qed.
Lemma steady_resume_task f t w : steady w (resume_task f t w).1.
Proof.
  destruct t as [[|] job|k [[r|]|] κ|κ|eid [es|] κ|res κ|[]|[shards|] active|[shards|]|eid rest ow|n|eid k rest|rest]; simpl; try done.
  - unfold ensureOwned. destruct (jm_get _ _); [done|]. destruct (stopped _); [done|apply steady_await].
  - destruct (stopped _); [done|apply steady_start].
  - by destruct κ.
  - destruct (objects _ !! eid); [|done]. by destruct (load_jobs _ _ _ _ _) as [[? ?] []].
  - by destruct κ.
  - destruct κ; simpl; [destruct res; [apply steady_on_executor|destruct (forwardsJobs options); [apply steady_await|done]]|
      destruct res; [apply steady_on_executor|done]|apply steady_resume_loop|].
    destruct res; [|apply steady_claim_loop]. eapply steady_trans; [|apply steady_claim_loop]. done.
  - apply steady_resume_loop.
  - apply steady_drop_loop.
  - apply steady_drop_loop.
  - apply steady_stop_loop.
  - apply steady_stop_loop.
Qed.

Section respects.
Context (o : string) (Hne : o ≠ me).

Lemma respects_trans a b c : respects o a b → respects o b c → respects o a c.
Proof.
  intros [[C1 P1] H1] [[C2 P2] H2]. split; [split; [congruence|auto]|]. intros Hs. destruct (H1 Hs) as [S1 K1].
  destruct (H2 S1) as [S2 K2]. split; [done|]. auto.
Qed.
Lemma respects_flags f w : activeRingKeys (f (mgr w)) = activeRingKeys (mgr w) → tasks (f (mgr w)) = tasks (mgr w) →
  (stopped (mgr w) = true → stopped (f (mgr w)) = true) → respects o w (on_mgr f w).
Proof. intros Ha Ht Hst. split; [done|]. intros [S1 S2]. split; [|done]. split; simpl; [by rewrite Ha|by rewrite Ht]. Qed.
Lemma respects_store w st : (∀ k, owner_of k (store w) = Some o → owner_of k st = Some o) →
  respects o w (mkWorld (clock w) st (mgr w)).
Proof. intros Hk. split; [done|]. intros Hs. by split. Qed.
Lemma respects_wait t w : (∀ v, v ∈ task_views t → o ∈ v) → respects o w (wait t w).
Proof.
  intros Ht. split; [done|]. intros [S1 S2]. split; [|done]. split; [done|]. intros u. simpl.
  intros [Hu| ->%list_elem_of_singleton]%elem_of_app; [by apply S2|done].
Qed.
Lemma respects_await {A} f (op : Store → Store * A) task w :
  (∀ k, owner_of k (store w) = Some o → owner_of k (op (store w)).1 = Some o) →
  (∀ r v, v ∈ task_views (task r) → o ∈ v) → respects o w (await f op task w).
Proof.
  intros Hk Ht. unfold await, called. destruct (op (store w)) as [st a]. eapply respects_trans; [|apply respects_wait, Ht].
  apply respects_store. destruct (takes_effect f); [done|auto].
Qed.
Lemma respects_caught f op w : (∀ st k, owner_of k st = Some o → owner_of k (op st) = Some o) → respects o w (on_store (caught f op) w).
Proof. intros Hk. apply respects_store. unfold caught. destruct (takes_effect f); auto. Qed.
Lemma respects_release f k w : respects o w (on_store (caught f (releaseShard k me)) w).
Proof. apply respects_caught. intros st j. by apply releaseShard_owner. Qed.
Lemma respects_put eid l st x w : same_owners (store w) st → respects o w (put_executor eid l st x w).
Proof. intros [_ Hs]. split; [done|]. intros [S1 S2]. split; [done|]. intros k. simpl. by rewrite Hs. Qed.
Lemma respects_on_executor eid f w : respects o w (on_executor eid f w).
Proof.
  unfold on_executor. destruct (objects (mgr w) !! eid); [apply respects_put, same_owners_refl|by split; [|intros ?]].
Qed.
Lemma respects_refl w : respects o w w.
Proof. by split; [|intros ?]. Qed.
Hint Resolve respects_refl respects_on_executor respects_release respects_put : core.

Lemma respects_startExecutor f k κ w : (∀ v, v ∈ kont_views κ → o ∈ v) → respects o w (startExecutor f k κ w).
Proof.
  intros Hκ. assert (Hv : ∀ r v, v ∈ task_views (Returning r κ) → o ∈ v) by (intros r v; by destruct κ; apply Hκ).
  unfold startExecutor. cbv zeta. destruct (jm_get _ _); [by apply respects_wait|]. destruct (stopped _); [by apply respects_wait|].
  eapply respects_trans; [|apply respects_await; [done|]]; [by split; [|intros ?]|]. intros r v. destruct κ; apply Hκ.
Qed.
Lemma respects_claimAndStart f k dead κ w : store_ok (store w) → o ∉ dead → (∀ v, v ∈ kont_views κ → o ∈ v) →
  respects o w (claimAndStart f k dead κ w).
Proof.
  intros Hst Hd Hκ. apply respects_await.
  - intros j Hj. pose proof (claimShard_spec k me dead (maxAdopted options) (store w) Hst) as H.
    destruct (claimShard _ _ _ _ _) as [st r]. destruct H as (_ & _ & H). apply H; auto.
  - intros r v. destruct κ; apply Hκ.
Qed.
Lemma respects_ensureOwned f k κ w : store_ok (store w) → (∀ v, v ∈ kont_views κ → o ∈ v) → respects o w (ensureOwned f k κ w).
Proof.
  intros Hst Hκ. assert (Hv : ∀ r v, v ∈ task_views (Returning r κ) → o ∈ v) by (intros r v; by destruct κ; apply Hκ).
  unfold ensureOwned. destruct (jm_get _ _); [by apply respects_wait|]. destruct (stopped _); [by apply respects_wait|].
  apply respects_claimAndStart; [done| |done]. apply not_elem_of_nil.
Qed.
Lemma respects_reconciled w : respects o w (reconciled w).
Proof. unfold reconciled, scheduleCheck. eapply respects_trans; apply respects_flags; done. Qed.

Lemma dead_owner_seen active s : o ∈ active → o ∉ dead_owner active s.
Proof.
  intros Ho. unfold dead_owner. destruct (owner s) as [o'|]; [case_bool_decide|]; try apply not_elem_of_nil.
  intros ->%list_elem_of_singleton. done.
Qed.
Lemma respects_claim_loop f rest active w : store_ok (store w) → o ∈ active → respects o w (claim_loop f rest active w).
Proof.
  intros Hst Ho. destruct rest as [|s rest]; simpl; [apply respects_await; [done|by intros r v ?%not_elem_of_nil]|].
  destruct (stopped _); [apply respects_reconciled|]. apply respects_claimAndStart; [done|by apply dead_owner_seen|].
  by intros v ->%list_elem_of_singleton.
Qed.
Lemma respects_resume_loop f rest shards active w : store_ok (store w) → o ∈ active →
  respects o w (resume_loop f rest shards active w).
Proof.
  intros Hst Ho. induction rest as [|s rest IH]; simpl; [by apply respects_claim_loop|].
  destruct (stopped _); [apply respects_reconciled|]. destruct (_ && _); [|done]. apply respects_startExecutor.
  by intros v ->%list_elem_of_singleton.
Qed.
Lemma respects_stopExecutor k w : respects o w (stopExecutor k w).1.
Proof.
  unfold stopExecutor. destruct (jm_get _ _); simpl; [|done]. eapply respects_trans; [|apply respects_on_executor]. by apply respects_flags.
Qed.
Lemma respects_drop_loop rest ownedNow w : respects o w (drop_loop rest ownedNow w).
Proof.
  revert w. induction rest as [|k rest IH]; intros w; simpl; [apply respects_reconciled|]. case_bool_decide; [done|].
  pose proof (respects_stopExecutor k w) as Hs. destruct (stopExecutor k w) as [w1 [eid|]]; simpl in Hs.
  - eapply respects_trans; [exact Hs|]. apply respects_wait. by intros v ?%not_elem_of_nil.
  - by eapply respects_trans.
Qed.
Lemma respects_stop_loop f rest w : respects o w (stop_loop f rest w).
Proof.
  destruct rest as [|k rest]; simpl; [by apply respects_flags|].
  pose proof (respects_stopExecutor k w) as H. destruct (stopExecutor k w) as [w1 [eid|]]; simpl in H;
    (eapply respects_trans; [exact H|]).
  - apply respects_wait. by intros v ?%not_elem_of_nil.
  - eapply respects_trans; [apply respects_release|]. apply respects_wait. by intros v ?%not_elem_of_nil.
Qed.

Lemma respects_continue f result κ w : store_ok (store w) → (∀ v, v ∈ kont_views κ → o ∈ v) → respects o w (continue f result κ w).
Proof.
  intros Hst Hκ. destruct κ as [job|job|rest shards active|rest active]; simpl.
  - destruct result; [done|]. destruct (forwardsJobs options); [|done]. apply respects_await; [done|]. by intros r v ?%not_elem_of_nil.
  - by destruct result.
  - apply respects_resume_loop; [done|]. apply Hκ. by left.
  - assert (Ho : o ∈ active) by (apply Hκ; by left).
    destruct result; [|by apply respects_claim_loop]. eapply respects_trans; [|by apply respects_claim_loop]. by apply respects_flags.
Qed.
Lemma respects_reject κ w : respects o w (reject κ w).
Proof. destruct κ; try done; apply respects_reconciled. Qed.

Lemma respects_resume_task f t w : store_ok (store w) → (∀ v, v ∈ task_views t → o ∈ v) → (∀ eid x, objects (mgr w) !! eid = Some x → x_ok (clock w) x) →
  respects o w (resume_task f t w).1.
Proof.
  intros Hst Hv Hx.
  assert (Hκ : ∀ κ, kont_of t = Some κ → ∀ v, v ∈ kont_views κ → o ∈ v).
  { intros κ Hk v Hin. apply Hv. destruct t; simpl in Hk; try done; injection Hk as ->; by destruct κ. }
  assert (Hret : ∀ κ, kont_of t = Some κ → ∀ r, respects o w (wait (Returning r κ) w)).
  { intros κ Hk r. apply respects_wait. intros v Hin. apply (Hκ κ Hk). by destruct κ. }
  destruct t as [[|] job|k [[r|]|] κ|κ|eid [es|] κ|res κ|[]|[shards|] active|[shards|]|eid rest ow|n|eid k rest|rest]; simpl; try done.
  - apply respects_ensureOwned; [done|]. by intros v ?%not_elem_of_nil.
  - destruct (stopped _); simpl; [|by apply respects_startExecutor, Hκ].
    eapply respects_trans; [apply respects_release|]. apply respects_wait. intros v Hin. apply (Hκ κ eq_refl). by destruct κ.
  - by apply Hret.
  - apply respects_reject.
  - by apply Hret.
  - destruct (objects (mgr w) !! eid) as [x|] eqn:Hxe; [|done].
    pose proof (load_jobs_step (executorOptions options) (clock w) f es (store w) x (limiter (mgr w)) (Hx _ _ Hxe)) as H.
    destruct (load_jobs _ _ _ _ _) as [[st x'] r]. destruct H as [H _].
    assert (Hp : respects o w (put_executor eid (limiter (mgr w)) st x' w)) by apply respects_put, H.
    destruct r; (eapply respects_trans; [exact Hp|]); apply respects_wait; intros v Hin; apply (Hκ κ eq_refl); by destruct κ.
  - apply respects_reject.
  - by apply respects_continue, Hκ.
  - apply respects_resume_loop; [done|]. apply Hv. by left.
  - apply respects_drop_loop.
  - apply respects_drop_loop.
  - apply respects_stop_loop.
  - eapply respects_trans; [apply respects_release|]. apply respects_wait. by intros v ?%not_elem_of_nil.
  - apply respects_stop_loop.
Qed.

Lemma respects_exec w op : Inv 0 None w →
  match op with Advance _ | Others _ => False | Refresh active => o ∈ active | _ => True end → respects o w (exec w op).1.
Proof.
  intros Hinv Hop. assert (Hst := i_store _ _ _ Hinv). assert (Hx := λ e x, inv_x_ok _ _ w e x Hinv).
  destruct op as [d|f id name due target data|f job|f id k|active| |f| |f i|eid sig f runId|eid i f res|st]; simpl; try done.
  - unfold scheduleJob. destruct (shardKeyFor _ _); [|done].
    apply respects_await; [intros j Hj; simpl; by rewrite persistAdd_owner|]. by intros r v ?%not_elem_of_nil.
  - apply respects_ensureOwned; [done|]. by intros v ?%not_elem_of_nil.
  - unfold cancelJob. assert (Hc : ∀ w, respects o w (on_store (caught f (persistRemove k id)) w)).
    { intros w'. apply respects_caught. intros st j. by rewrite (proj2 (remove_same k id st)). }
    destruct (jm_get _ _) as [eid|]; simpl; [|done]. destruct (objects (mgr w) !! eid) as [x|]; [|done]. apply respects_put.
    apply caught_same, remove_same.
  - unfold respects, steady, spares, seen. simpl. unfold refreshOwnership.
    destruct (stopped (mgr w)) eqn:Hs; simpl; (split; [by split; [|congruence]|]); intros [S1 S2]; (split; [by split|done]).
  - destruct (due_now _ _); [|done]. by apply respects_flags.
  - unfold reconcileNow. destruct (_ && _); [|done]. destruct (stopped (mgr w)) eqn:Hs; simpl.
    + split; [done|]. intros [S1 S2]. split; [by split|done].
    + split; [done|]. intros Hseen. set (w1 := on_mgr (set_chain _ _ _) w).
      assert (H1 : seen o w1) by done. refine (proj2 (respects_await f _ _ w1 _ _) H1); [done|].
      intros r v ->%list_elem_of_singleton. apply Hseen.
  - unfold stop. set (w1 := on_mgr _ w). refine (respects_trans w w1 _ _ _); [by apply respects_flags|]. apply respects_wait. by intros v ?%not_elem_of_nil.
  - destruct (tasks (mgr w) !! i) as [t|] eqn:Hi; [|done]. destruct (settled w t) eqn:Hset; [|done].
    assert (Hin : t ∈ tasks (mgr w)) by by eapply list_elem_of_lookup_2.
    set (w1 := on_mgr _ w).
    assert (H1 : respects o w w1).
    { split; [done|]. intros [S1 S2]. split; [|done]. split; [done|]. simpl. intros u Hu. apply S2.
      rewrite (delete_Permutation _ _ _ Hi). by right. }
    split; [destruct H1 as [[C1 P1] _]; destruct (steady_resume_task f t w1) as [C2 P2]; split; [congruence|auto]|].
    intros Hseen. destruct (proj2 H1 Hseen) as [Hseen1 Hk1].
    assert (H2 : respects o w1 (resume_task f t w1).1) by (apply respects_resume_task; [done|by apply Hseen|done]).
    destruct (proj2 H2 Hseen1) as [Hseen2 Hk2]. split; [done|]. intros k Hk. by apply Hk2, Hk1.
  - destruct (objects (mgr w) !! eid) as [x|] eqn:Hxe; [|done]. destruct (due_now _ _); [|done].
    pose proof (poll_step (executorOptions options) (clock w) (if hasOverloadSignal options then sig else saturated (limiter (mgr w)))
      f runId (limiter (mgr w)) (store w) x (Hx _ _ Hxe) (inv_room _ _ _ _ _ Hinv Hxe)) as H.
    destruct (poll _ _ _ _ _ _ _ _) as [[l st] x']. apply respects_put, H.
  - destruct (objects (mgr w) !! eid) as [x|] eqn:Hxe; [|done].
    pose proof (resume_run_step (executorOptions options) (clock w) f res i (limiter (mgr w)) (store w) x (Hx _ _ Hxe)
      (inv_room _ _ _ _ _ Hinv Hxe)) as H.
    destruct (resume_run _ _ _ _ _ _ _ _) as [[[l st] x'] cs]. apply respects_put, H.
Qed.
End respects.
End manager.
