(* ===== verification/JobCluster.v ===== *)
(** * Durable jobs in a cluster

    Several silos, each with the manager of [JobManager]
    ([packages/durable-jobs/src/local-durable-job-manager.ts]), over one shard
    store; what a run leaves behind ([shard-executor.ts]); and runs of both. *)
From Stdlib Require Import String.
From stdpp Require Import prelude gmap strings list sorting.
From S2P Require Import Prelude JsMap Ids JobModel JobExecutor JobManager.
Open Scope Z_scope.

Section cluster.
Context {M : Type} (options : ManagerOptions).
Abbreviation Store := (list (Z * @ShardState M)).
Abbreviation Mgr := (@Manager M).

(** Silos by their ring keys; one that has crashed takes no more steps. *)
Record Cluster := mkCluster {
  c_clock : Z; c_store : Store; silos : list (string * Mgr); crashed : gset string }.

Inductive ClusterOp := Tick (d : nat) | Crash (i : nat) | Step (i : nat) (o : @Op M).

Definition world_of (c : Cluster) (m : Mgr) : @World M := mkWorld (c_clock c) (c_store c) m.
Definition cexec (c : Cluster) (o : ClusterOp) : Cluster :=
  match o with
  | Tick d => mkCluster (c_clock c + Z.of_nat d) (c_store c) (silos c) (crashed c)
  | Crash i =>
      match silos c !! i with
      | Some (name, _) => mkCluster (c_clock c) (c_store c) (silos c) ({[name]} ∪ crashed c)
      | None => c
      end
  | Step i o =>
      match silos c !! i with
      | Some (name, m) =>
          if bool_decide (name ∈ crashed c) then c
          else
            let w := (exec name options (world_of c m) o).1 in
            mkCluster (c_clock c) (store w) (<[i := (name, mgr w)]> (silos c)) (crashed c)
      | None => c
      end
  end.

(** A silo is alive until it crashes or begins to stop. *)
Definition alive (c : Cluster) (name : string) : Prop :=
  name ∉ crashed c ∧ ∃ m, (name, m) ∈ silos c ∧ stopped m = false.
(** What the membership promises: a view given to a manager has every silo that is
    alive. Time passes for all silos at once, and only the silos change the store. *)
Definition allowed (c : Cluster) (o : ClusterOp) : Prop :=
  match o with
  | Step i (Refresh active) => ∀ name, alive c name → name ∈ active
  | Step i (Advance _) | Step i (Others _) => False
  | _ => True
  end.

Inductive creachable : Cluster → Prop :=
  | creach_start now names active st : NoDup names → names ⊆ active → store_ok st →
      creachable (mkCluster now st ((λ n, (n, new_manager options now active)) <$> names) ∅)
  | creach_step c o : creachable c → allowed c o → creachable (cexec c o).

Record CInv (c : Cluster) : Prop := {
  ci_names : NoDup ((silos c).*1);
  ci_inv : ∀ name m, (name, m) ∈ silos c → name ∉ crashed c → Inv name options 0 None (world_of c m);
  ci_seen : ∀ name m other, (name, m) ∈ silos c → name ∉ crashed c → other ≠ name → alive c other → seen other (world_of c m) }.

Lemma elem_of_update {A} (l : list A) i x y z : l !! i = Some x → z ∈ <[i := y]> l → z = y ∨ z ∈ l.
Proof.
  intros Hx (j & Hj)%list_elem_of_lookup. apply list_lookup_insert_Some in Hj as [(_ & <- & _)|[_ Hj]]; [by left|right].
  by eapply list_elem_of_lookup_2.
Qed.

Lemma silo_index c i name m m' : NoDup ((silos c).*1) → silos c !! i = Some (name, m) → (name, m') ∈ silos c → m' = m.
Proof.
  intros Hnd Hi (j & Hj)%list_elem_of_lookup.
  assert (i = j) as ->; [|congruence]. eapply (NoDup_lookup _ _ _ name); [exact Hnd|..]; rewrite list_lookup_fmap;
    [by rewrite Hi|by rewrite Hj].
Qed.

Lemma creach_steps c o name m i : CInv c → silos c !! i = Some (name, m) → name ∉ crashed c → allowed c (Step i o) →
  let w' := (exec name options (world_of c m) o).1 in
  steady (world_of c m) w' ∧ ∀ other, other ≠ name → alive c other → spares other (world_of c m) w'.
Proof.
  intros [Hnd Hinv Hseen] Hi Hcr Hal w'. assert (Hmi : (name, m) ∈ silos c) by by eapply list_elem_of_lookup_2.
  assert (Hw := Hinv _ _ Hmi Hcr).
  assert (Hop : ∀ other, match o with Refresh active => other ∈ active | _ => True end →
    match o with Advance _ | Others _ => False | Refresh active => other ∈ active | _ => True end) by (intros other; by destruct o).
  split.
  - assert (∃ other, other ≠ name) as [other Hne] by (exists ("x" +:+ name)%string; intros He; apply (f_equal String.length) in He; by apply Nat.neq_succ_diag_l in He).
    pose proof (respects_exec name options other Hne _ o Hw) as Hr. clear Hop. unfold w'. clear w'. destruct o; try (by apply Hr).
    unfold steady. simpl. unfold refreshOwnership. by destruct (stopped m) eqn:Hs; split; simpl.
  - intros other Hne Ha. apply (respects_exec name options other Hne _ _ Hw), Hop. destruct o; try done. by apply Hal.
Qed.

Lemma cinv_step c o : CInv c → allowed c o → CInv (cexec c o).
Proof.
  intros HC Hal. assert (HC' := HC). destruct HC' as [Hnd Hinv Hseen]. destruct o as [d|i|i o]; simpl.
  - split; simpl; [done| |done]. intros name m Hin Hc. exact (inv_exec name options _ (Advance d) (Hinv name m Hin Hc) I).
  - destruct (silos c !! i) as [[name m]|]; [|done]. split; simpl; [done|..].
    + intros n' m' Hin Hc. apply (Hinv n' m'); [done|]. set_solver.
    + intros n' m' o' Hin Hc Hon [Ho1 Ho2]. apply (Hseen n' m'); [done|set_solver|done|]. split; [set_solver|done].
  - destruct (silos c !! i) as [[name m]|] eqn:Hi; [|done]. case_bool_decide as Hcr; [done|].
    assert (Hmi : (name, m) ∈ silos c) by by eapply list_elem_of_lookup_2.
    assert (Hw := Hinv _ _ Hmi Hcr).
    assert (Hfair : fair name (world_of c m) o) by (destruct o; done).
    assert (Hw' := inv_exec name options _ o Hw Hfair).
    destruct (creach_steps c o name m i HC Hi Hcr Hal) as [[Hclock Hstop] Hspare].
    set (w' := (exec name options (world_of c m) o).1) in *. simpl in Hclock, Hstop.
    set (c' := mkCluster _ _ _ _).
    assert (Hself : world_of c' (mgr w') = w') by (unfold world_of, c'; simpl; rewrite <- Hclock; by destruct w').
    assert (Hin' : ∀ n' m', (n', m') ∈ silos c' → (n' = name ∧ m' = mgr w') ∨ (n' ≠ name ∧ (n', m') ∈ silos c)).
    { intros n' m' (j & Hj)%list_elem_of_lookup. apply list_lookup_insert_Some in Hj as [(_ & [= <- <-] & _)|[Hji Hj]]; [by left|right].
      split; [|by eapply list_elem_of_lookup_2]. intros ->. destruct Hji.
      eapply (NoDup_lookup _ _ _ name); [exact Hnd|..]; rewrite list_lookup_fmap; [by rewrite Hi|by rewrite Hj]. }
    assert (Halive : ∀ other, alive c' other → alive c other).
    { intros other [H1 (m' & [[-> ->]|[Hne Hin]]%Hin' & H3)]; (split; [done|]).
      - exists m. split; [done|]. destruct (stopped m); [by rewrite Hstop in H3|done].
      - by exists m'. }
    split.
    + unfold c'. simpl. rewrite list_fmap_insert, list_insert_id; [done|]. by rewrite list_lookup_fmap, Hi.
    + intros n' m' [[-> ->]|[Hne Hin]]%Hin' Hc; [by rewrite Hself|].
      assert (Hn := Hinv n' m' Hin Hc).
      pose proof (inv_store n' options 0 None (world_of c m') (store w') Hn (i_store _ _ _ _ _ Hw')) as H.
      unfold world_of in *. simpl in *. apply H. intros Hs k Hk.
      assert (Ha : alive c n') by (split; [done|]; by exists m').
      destruct (Hspare n' Hne Ha) as [_ Hsp]; [by apply (Hseen name m n')|]. by apply Hsp.
    + intros n' m' other [[-> ->]|[Hne Hin]]%Hin' Hc Hon Ho.
      * rewrite Hself. by apply (Hspare other Hon (Halive other Ho)), (Hseen name m other), Halive.
      * by apply (Hseen n' m' other Hin Hc Hon), Halive.
Qed.

Lemma creachable_inv c : 0 <= maxConcurrentJobsPerSilo (executorOptions options) → creachable c → CInv c.
Proof.
  intros Hmax. induction 1 as [now names active st Hnd Hsub Hst|c o Hr IH Hal]; [|by apply cinv_step]. split; simpl.
  - rewrite <- list_fmap_compose. simpl. by rewrite list_fmap_id.
  - intros name m (n & [= -> ->] & Hn)%list_elem_of_fmap _. by apply inv_new_manager.
  - intros name m other (n & [= -> ->] & Hn)%list_elem_of_fmap _ Hne [_ (m' & (n' & [= -> ->] & Hn')%list_elem_of_fmap & _)].
    split; [by apply Hsub|]. by intros t ?%not_elem_of_nil.
Qed.

(** C21: No shard is run twice at a time: whatever the silos of a cluster do, in
    whatever order, and whichever of them crash, as long as membership views omit
    only silos that have crashed or begun to stop, a shard that a silo that is
    alive has an executor for is recorded in the store as its own, so no two silos
    that are alive have executors for the same shard. *)
Theorem shard_single_runner c i j a b ma mb x y :
  0 <= maxConcurrentJobsPerSilo (executorOptions options) → creachable c →
  silos c !! i = Some (a, ma) → silos c !! j = Some (b, mb) → i ≠ j →
  alive c a → alive c b → x ∈ objects ma → y ∈ objects mb →
  owner_of (x_key x) (c_store c) = Some a ∧ owner_of (x_key y) (c_store c) = Some b ∧ x_key x ≠ x_key y.
Proof.
  intros Hmax Hr Hi Hj Hij [Ha1 (ma' & Ha2 & Ha3)] [Hb1 (mb' & Hb2 & Hb3)] Hx Hy.
  destruct (creachable_inv c Hmax Hr) as [Hnd Hinv _].
  rewrite (silo_index c i a ma ma' Hnd Hi Ha2) in Ha3. rewrite (silo_index c j b mb mb' Hnd Hj Hb2) in Hb3.
  assert (Hne : a ≠ b).
  { intros ->. apply Hij. eapply (NoDup_lookup _ _ _ b); [exact Hnd|..]; rewrite list_lookup_fmap; [by rewrite Hi|by rewrite Hj]. }
  assert (Ho : ∀ k n m z, silos c !! k = Some (n, m) → n ∉ crashed c → stopped m = false → z ∈ objects m →
    owner_of (x_key z) (c_store c) = Some n).
  { intros k n m z Hk Hc Hs Hz. refine (i_owned _ _ _ _ _ (Hinv n m _ Hc) Hs z Hz). by eapply list_elem_of_lookup_2. }
  assert (H1 := Ho i a ma x Hi Ha1 Ha3 Hx). assert (H2 := Ho j b mb y Hj Hb1 Hb3 Hy). split_and!; [done|done|congruence].
Qed.

(** ** What a run leaves behind *)

Context (x_options : ShardExecutorOptions).

Definition stored (k : Z) (id : string) (st : Store) : option (@Entry M) := s ← jm_get k st; jm_get id (s_jobs s).

Lemma on_entry_stored k id f st e : stored k id st = Some e → stored k id (on_entry k id f st) = Some (f e).
Proof.
  unfold stored, on_entry, on_shard. destruct (jm_get k st) as [s|]; [|done]. simpl. intros He.
  rewrite jm_get_set_eq. simpl. by rewrite He, jm_get_set_eq.
Qed.
Lemma persistRemove_stored k id st : stored k id (persistRemove k id st) = None.
Proof.
  unfold stored, persistRemove, on_shard. destruct (jm_get k st) as [s|] eqn:Hs; [|by rewrite Hs].
  rewrite jm_get_set_eq. simpl. by rewrite jm_get_delete_eq.
Qed.

(** The job is queued again for [due], and so is it in the store. *)
Definition rescheduled (due count : Z) (f : Fault) (r : @Run M) (e : @Entry M) (x x' : @Executor M) (st' : Store) : Prop :=
  let id := q_id (r_job r) in
  (if decide (id ∈ liveIds (queue x))
   then jm_get id (q_jobs (queue x')) = Some (mkQueued id due count (payload (r_job r)))
   else queue x' = queue x) ∧
  (takes_effect f = true → stored (x_key x) id st' = Some (mkEntry (e_job e) count due (e_runId e) (e_completed e))).

Lemma reschedule_rescheduled now f r j delay st x e :
  stored (x_key x) (q_id (r_job r)) st = Some e → q_id j = q_id (r_job r) → payload j = payload (r_job r) →
  let '(st', x') := reschedule now f j delay st x in
  rescheduled (now + durationToMs delay) (dequeueCount j) f r e x x' st'.
Proof.
  intros He Hid Hp. unfold reschedule, rescheduled, retryLater. rewrite Hid. split.
  - destruct (schedulePoll_quiet now (set_queue (if bool_decide (q_id (r_job r) ∈ liveIds (queue x)) then
      mkQueue (jm_set (q_id (r_job r)) (set_dueMs (now + durationToMs delay) j) (q_jobs (queue x))) (liveIds (queue x))
      else queue x) x)) as (_ & _ & _ & _ & _ & -> & _). simpl.
    case_decide as Hl; [rewrite bool_decide_true by done|by rewrite bool_decide_false].
    simpl. rewrite jm_get_set_eq. unfold set_dueMs. by rewrite Hid, Hp.
  - intros Hf. unfold caught. rewrite Hf. unfold persistRetry. by rewrite (on_entry_stored _ _ _ _ e).
Qed.

(** What the result of a handler does, on every branch and whatever becomes
    of the calls of the store. A completed job is marked so before anything else,
    by its own run only. A job to be polled again is queued for [delay] after the
    handler ended with its attempts unchanged; a failed one, while the retry
    policy grants a delay, for that delay with the attempt counted; unless it has
    been cancelled meanwhile, when the queue stays as it is. A failed job without
    a delay is dropped, in memory and in the store. *)
Theorem run_outcome now l st x i r f res e :
  inFlight x !! i = Some r → r_phase r = Invoked → stored (x_key x) (q_id (r_job r)) st = Some e →
  let id := q_id (r_job r) in
  let '(l', st', x', calls) := resume_run x_options now f res i l st x in
  l' = l ∧ calls = [] ∧
  match res with
  | Completed =>
      queue x' = queue x ∧
      (takes_effect f = true → stored (x_key x) id st' =
        Some (if bool_decide (e_runId e = Some (r_runId r))
              then mkEntry (e_job e) (e_dequeueCount e) (e_dueTime e) (e_runId e) (Some true) else e))
  | PollAfter delay => rescheduled (now + durationToMs delay) (dequeueCount (r_job r)) f r e x x' st'
  | Failed =>
      match shouldRetry x_options (attempt r) with
      | Some backoff => rescheduled (now + durationToMs backoff) (attempt r) f r e x x' st'
      | None => queue x' = queue x ∧ jm_get id (x_jobs x') = None ∧ (takes_effect f = true → stored (x_key x) id st' = None)
      end
  end.
Proof.
  intros Hi Hph He id. subst id. unfold resume_run. rewrite Hi, Hph. cbv zeta. unfold applyResult. destruct res as [|d|].
  - split_and!; [done|done|done|]. intros Hf. unfold caught. rewrite Hf. unfold persistRunComplete. by rewrite (on_entry_stored _ _ _ _ e).
  - pose proof (reschedule_rescheduled now f r (r_job r) d st x e He eq_refl eq_refl) as H.
    destruct (reschedule _ _ _ _ _ _) as [st' x']. by split_and!.
  - destruct (shouldRetry x_options (attempt r)) as [b|].
    + pose proof (reschedule_rescheduled now f r (set_dequeueCount (attempt r) (r_job r)) b st x e He eq_refl eq_refl) as H.
      destruct (reschedule _ _ _ _ _ _) as [st' x']. by split_and!.
    + split_and!; [done|done|done|simpl; apply jm_get_delete_eq|]. intros Hf. unfold caught. rewrite Hf. apply persistRemove_stored.
Qed.

(** A job marked completed is not loaded again, by whichever silo. *)
Lemma tombstone_not_loaded now f (es : list (@Entry M)) id : ∀ st x,
  (∀ e, e ∈ es → job_id (e_job e) = id → e_completed e = Some true) →
  let '(st', x', rest) := load_jobs now f es st x in
  jm_get id (q_jobs (queue x')) = jm_get id (q_jobs (queue x)) ∧
  ∀ es', rest = Some es' → ∀ e, e ∈ es' → e ∈ es.
Proof.
  induction es as [|e es IH]; intros st x Hall; simpl.
  { destruct (schedulePoll_quiet now x) as (_ & _ & _ & _ & _ & -> & _). done. }
  case_bool_decide as Hc; [split; [done|]; intros es' [= <-] e' ?; by right|].
  specialize (IH st (set_queue (queue_add (mkQueued (job_id (e_job e)) (e_dueTime e) (e_dequeueCount e) (e_job e)) (queue x))
    (set_jobs_map (jm_set (job_id (e_job e)) (e_job e) (x_jobs x)) x)) ltac:(intros e' ? ?; apply Hall; [by right|done])).
  simpl in IH. destruct (load_jobs _ _ _ _ _) as [[st' x'] rest]. destruct IH as [-> IH2]. split; [|intros es' Hr e' ?; right; by eapply IH2].
  apply jm_get_set_ne. intros Hid. apply Hc, Hall; [by left|done].
Qed.
End cluster.

(** ** Runs *)
Module Runs.
Definition x_options : ShardExecutorOptions := mkOptions 2 1 2 1000 500 defaultShouldRetry.
Definition options : ManagerOptions := mkManagerOptions x_options 1000 3 4 2 20 0 600000 false true.
Abbreviation op := (@Op unit).
Abbreviation world := (@World unit).
Definition cart : GrainId := mkGrainId "Cart" (KInt 7).
Definition start (st : list (Z * @ShardState unit)) : world := mkWorld 0 st (new_manager options 0 ["a"; "b"]).
Definition play (me : string) (w : world) (ops : list op) : world := foldl (λ w o, (exec me options w o).1) w ops.
Definition calls (me : string) (w : world) (o : op) : list Z :=
  omap (λ e, match e with Invoke _ c => Some (c_dequeueCount c) | _ => None end) (exec me options w o).2.
(** Whatever awaits first goes on. *)
Definition next : op := Resume Works 0.

Lemma play_app me w l l' : play me w (l ++ l') = play me (play me w l) l'.
Proof. apply foldl_app. Qed.
Definition own (o : op) : bool := match o with Others _ => false | _ => true end.
Lemma play_reachable me l : ∀ w, reachable me options w → forallb own l = true → reachable me options (play me w l).
Proof.
  induction l as [|o l IH]; intros w Hw Hl; [done|]. apply andb_true_iff in Hl as [Ho Hl].
  apply IH; [|done]. constructor; [done|]. by destruct o.
Qed.

(** A job for 500 is scheduled, runs at its time and fails, and is queued for two
    seconds later. *)
Definition scheduled : list op := [Schedule Works "j1" "mail" 500 cart (); next; next; next; next; next].
Definition ran : list op :=
  scheduled ++ [Advance 500; PollTimer 0 false (λ _, Works) (λ id, id +:+ "-1")%string;
    ResumeRun 0 0 Works Failed; ResumeRun 0 0 Works Failed; ResumeRun 0 0 Works Failed].
Definition queued (w : world) : list (Z * Z) :=
  (λ j, (dueMs j, dequeueCount j)) <$> (objects (mgr w) ≫= λ x, jm_values (q_jobs (queue x))).
Lemma retried_later : queued (play "a" (start []) ran) = [(2500, 1)] ∧ (pollHandle <$> objects (mgr (play "a" (start []) ran))) = [Some 2500].
Proof. by vm_compute. Qed.

Lemma start_reachable : reachable "a" options (start []).
Proof. apply reach_start. split; [apply jm_ok_nil|done]. Qed.
Lemma max_nonneg : 0 <= maxConcurrentJobsPerSilo (executorOptions options).
Proof. simpl. lia. Qed.

Definition running_now : list op := take 8 ran.
Lemma running_reachable : reachable "a" options (play "a" (start []) running_now).
Proof. apply play_reachable; [apply start_reachable|reflexivity]. Qed.

Lemma job_slots_bounded_witness :
  inUse (limiter (mgr (play "a" (start []) running_now))) = 1 ∧
  flights (objects (mgr (play "a" (start []) running_now))) <= 2.
Proof.
  split; [vm_compute; reflexivity|].
  exact (proj1 (proj2 (job_slots_bounded "a" options _ max_nonneg running_reachable))).
Defined.

Lemma queued_jobs_watched_witness :
  ∃ w x, w = play "a" (start []) ran ∧ objects (mgr w) !! 0%nat = Some x ∧ nextDueMs (queue x) = Some 2500 ∧
    ((∃ t, pollHandle x = Some t ∧ t <= 3500) ∨ ∃ es κ, LoadingJobs 0 (Some es) κ ∈ tasks (mgr w)).
Proof.
  destruct (objects (mgr (play "a" (start []) ran)) !! 0%nat) as [x|] eqn:Hx; [|vm_compute in Hx; discriminate Hx].
  exists (play "a" (start []) ran), x. split; [reflexivity|]. split; [exact Hx|].
  assert (Hd : nextDueMs ∘ queue <$> objects (mgr (play "a" (start []) ran)) !! 0%nat = Some (Some 2500)) by (vm_compute; reflexivity).
  assert (Hs : x_stopped <$> objects (mgr (play "a" (start []) ran)) !! 0%nat = Some false) by (vm_compute; reflexivity).
  rewrite Hx in Hd, Hs. injection Hd as Hd. injection Hs as Hs. split; [exact Hd|].
  assert (Hr : reachable "a" options (play "a" (start []) ran)) by (apply play_reachable; [apply start_reachable|reflexivity]).
  pose proof (queued_jobs_watched "a" options _ 0 x 2500 max_nonneg Hr Hx Hs Hd) as [(t & Ht & Hle)|H]; [left|right; exact H].
  exists t. split; [exact Ht|]. eapply Z.le_trans; [exact Hle|]. vm_compute. discriminate.
Defined.

Definition stopped_run : list op := scheduled ++ [Stop; next; next; next].
Lemma stop_drains_witness :
  let w := play "a" (start []) stopped_run in
  executors (mgr w) = [] ∧ owner_of 0 (store w) = None ∧ ∀ x, x ∈ objects (mgr w) → inFlight x = [].
Proof.
  assert (Hr : reachable "a" options (play "a" (start []) stopped_run)) by (apply play_reachable; [apply start_reachable|reflexivity]).
  assert (Hd : stop_done (mgr (play "a" (start []) stopped_run))).
  { split; [vm_compute; reflexivity|]. intros t Ht. vm_compute in Ht. destruct (not_elem_of_nil _ Ht). }
  destruct (stop_drains "a" options _ max_nonneg Hr Hd) as (H1 & _ & H3 & _).
  split; [exact H1|]. split; [vm_compute; reflexivity|]. intros x Hx. exact (proj2 (proj2 (H3 x Hx))).
Defined.

(** Two silos, each with a job for a shard of its own *)
Definition cplay (c : @Cluster unit) (ops : list (@ClusterOp unit)) : @Cluster unit := foldl (cexec options) c ops.
Definition pair : @Cluster unit := mkCluster 0 [] ((λ n, (n, new_manager options 0 ["a"; "b"])) <$> ["a"; "b"]) ∅.
Definition two_shards : list (@ClusterOp unit) :=
  (Step 0 <$> scheduled) ++ [Step 1 (Schedule Works "j2" "mail" 1500 cart ()); Step 1 next; Step 1 next; Step 1 next; Step 1 next].
Lemma cplay_reachable l : ∀ c, creachable options c →
  forallb (λ o, match o with Step _ (Refresh _) | Step _ (Advance _) | Step _ (Others _) => false | _ => true end) l = true →
  creachable options (cplay c l).
Proof.
  induction l as [|o l IH]; intros c Hc Hl; [done|]. apply andb_true_iff in Hl as [Ho Hl].
  apply IH; [|done]. constructor; [done|]. destruct o as [| |i o]; try done. by destruct o.
Qed.
Lemma two_shards_reachable : creachable options (cplay pair two_shards).
Proof.
  apply cplay_reachable.
  - apply creach_start; [apply (bool_decide_unpack _); vm_compute; exact I|done|split; [apply jm_ok_nil|done]].
  - reflexivity.
Qed.

Lemma shard_single_runner_witness :
  ∃ ma mb x y, silos (cplay pair two_shards) !! 0%nat = Some ("a", ma) ∧ silos (cplay pair two_shards) !! 1%nat = Some ("b", mb) ∧
    x ∈ objects ma ∧ y ∈ objects mb ∧ x_key x ≠ x_key y.
Proof.
  set (c := cplay pair two_shards).
  destruct (silos c !! 0%nat) as [[a ma]|] eqn:Ha; [|vm_compute in Ha; discriminate Ha].
  destruct (silos c !! 1%nat) as [[b mb]|] eqn:Hb; [|vm_compute in Hb; discriminate Hb].
  assert (Hna : fst <$> silos c !! 0%nat = Some "a") by (vm_compute; reflexivity).
  assert (Hnb : fst <$> silos c !! 1%nat = Some "b") by (vm_compute; reflexivity).
  assert (Hsa : (λ p, stopped p.2) <$> silos c !! 0%nat = Some false) by (vm_compute; reflexivity).
  assert (Hsb : (λ p, stopped p.2) <$> silos c !! 1%nat = Some false) by (vm_compute; reflexivity).
  assert (Hla : (λ p, length (objects p.2)) <$> silos c !! 0%nat = Some 1%nat) by (vm_compute; reflexivity).
  assert (Hlb : (λ p, length (objects p.2)) <$> silos c !! 1%nat = Some 1%nat) by (vm_compute; reflexivity).
  rewrite Ha in Hna, Hsa, Hla. rewrite Hb in Hnb, Hsb, Hlb. injection Hna as ->. injection Hnb as ->.
  injection Hsa as Hsa. injection Hsb as Hsb. injection Hla as Hla. injection Hlb as Hlb.
  destruct (objects ma) as [|x l] eqn:Hoa; [discriminate Hla|]. destruct (objects mb) as [|y l'] eqn:Hob; [discriminate Hlb|].
  assert (Hcr : ∀ n, n ∉ crashed c) by (intros n; apply not_elem_of_empty).
  exists ma, mb, x, y. split; [reflexivity|]. split; [reflexivity|].
  assert (Hx : x ∈ objects ma) by (rewrite Hoa; left). assert (Hy : y ∈ objects mb) by (rewrite Hob; left).
  split; [exact Hx|]. split; [exact Hy|].
  refine (proj2 (proj2 (shard_single_runner options c 0 1 "a" "b" ma mb x y max_nonneg two_shards_reachable Ha Hb _ _ _ Hx Hy))).
  - discriminate.
  - split; [apply Hcr|]. exists ma. split; [exact (list_elem_of_lookup_2 _ _ _ Ha)|exact Hsa].
  - split; [apply Hcr|]. exists mb. split; [exact (list_elem_of_lookup_2 _ _ _ Hb)|exact Hsb].
Defined.

(** The failed run of [ran], once more *)
Definition job1 : @DurableJob unit := mkJob "j1" "mail" 500 cart 0 ().
Definition run1 : @Run unit := mkRun (mkQueued "j1" 500 0 job1) job1 "j1-1" Invoked.
Definition x1 : @Executor unit :=
  mkExecutor 0 (mkQueue [] {["j1"]}) [("j1", job1)] 1 None false 1 [run1] 0.
Definition st1 : list (Z * @ShardState unit) :=
  [(0, mkState (mkShard 0 (Some "a") 0 false) [("j1", mkEntry job1 0 500 (Some "j1-1") (Some false))])].
Lemma run_outcome_witness :
  let '(l', st', x', _) := resume_run x_options 700 Works Failed 0 (mkLimiter 2 1) st1 x1 in
  jm_get "j1" (q_jobs (queue x')) = Some (mkQueued "j1" 2700 1 job1) ∧ stored 0 "j1" st' = Some (mkEntry job1 1 2700 (Some "j1-1") (Some false)).
Proof.
  pose proof (run_outcome x_options 700 (mkLimiter 2 1) st1 x1 0 run1 Works Failed _ eq_refl eq_refl eq_refl) as H.
  cbv zeta in H. destruct (resume_run _ _ _ _ _ _ _ _) as [[[l' st'] x'] cs]. destruct H as (_ & _ & H1 & H2).
  simpl in H1. rewrite decide_True in H1; [|by apply elem_of_singleton]. split; [exact H1|exact (H2 eq_refl)].
Defined.

(** A shard whose jobs could not be read when its executor was started is never
    loaded: later reconciliations find the executor registered. Here they run
    three times, and the job, long due, lies in the store. *)
Definition orphan : list (Z * @ShardState unit) := persistAdd job1 [].
Definition check_again : list op := [Advance (Z.to_nat 600000); Check; Reconcile Works; next; next].
Definition unread : list op :=
  [Refresh ["a"]; Reconcile Works; next; Resume FailsBefore 0; next] ++ check_again ++ check_again ++ check_again.
Lemma unread_shard_never_loaded :
  let w := play "a" (start orphan) unread in
  jm_keys (executors (mgr w)) = [0] ∧ queued w = [] ∧ pollHandle <$> objects (mgr w) = [None] ∧
  is_Some (stored 0 "j1" (store w)) ∧ clock w = 1800000 ∧ rc_done (mgr w) = 4%nat.
Proof. vm_compute. split_and!; try reflexivity. by eexists. Qed.

(** Two claims of one shard are under way when the silo stops: the second, as it
    returns, hands the shard back while the first one's executor still runs a job,
    and another silo takes the shard with that job in it. *)
Definition handed_back : list op :=
  [Schedule Works "j1" "mail" 500 cart (); Schedule Works "j2" "mail" 900 cart (); next; next; next;
   Resume Works 1; Resume Works 1; Advance 500; PollTimer 0 false (λ _, Works) (λ id, id +:+ "-1")%string;
   Stop; Resume Works 1; next].
Lemma shard_handed_back_while_running :
  let w := play "a" (start []) handed_back in
  (length ∘ inFlight <$> objects (mgr w)) = [1%nat] ∧ owner_of 0 (store w) = None ∧
  is_Some (claimShard 0 "b" [] 3 (store w)).2 ∧ is_Some (stored 0 "j1" (store w)).
Proof. vm_compute. split_and!; try reflexivity; by eexists. Qed.

(** A job is scheduled into an owned shard without jobs between the second listing
    of a reconciliation and its result: the executor it was queued in is dropped,
    and the job waits in the store for the next reconciliation. *)
Definition dropped : list op :=
  scheduled ++ [Cancel Works "j1" 0; Refresh ["a"; "b"]; Reconcile Works; next;
    Schedule Works "j3" "mail" 900 cart (); Resume Works 1; Resume Works 1; next].
Lemma executor_dropped_with_job :
  let w := play "a" (start []) dropped in
  executors (mgr w) = [] ∧ queued w = [(900, 0)] ∧ pollHandle <$> objects (mgr w) = [None] ∧
  owner_of 0 (store w) = Some "a" ∧ is_Some (stored 0 "j3" (store w)).
Proof. vm_compute. split_and!; try reflexivity; by eexists. Qed.
End Runs.
