(* ===== verification/StreamDelivery.v ===== *)
(** * Delivery of a stream event to its subscribers

    Models [packages/core/src/async-executor-with-retries.ts],
    [packages/streams/src/fan-out-delivery.ts] (FanOutDelivery),
    [implicit-subscriptions.ts] and the resolution of subscribers of
    [pulling-stream-provider-core.ts] (fanOut).

    Time is an integer. What a subscriber answers to each attempt, and after how
    long, is arbitrary; so is the moment at which the agent's signal aborts.
    Subscribers are served concurrently and do not interact, so that each is
    followed by itself. *)
From Stdlib Require Import Ascii String.
From stdpp Require Import prelude strings list.
From S2P Require Import Prelude Ids.
Open Scope Z_scope.

(** ** Retries *)

Inductive RetryOutcome (T E : Type) := RSuccess (value : T) | RError (error : E).
Arguments RSuccess {T E}.
Arguments RError {T E}.

Definition INFINITE_RETRIES : Z := -1.

Section retries.
Context {S T E : Type} (maxRetries : Z) (action : nat → S → S * RetryOutcome T E)
  (shouldRetry : nat → RetryOutcome T E → S → bool) (backoff : nat → option Z) (sleep : Z → S → S).

(** None when the fuel runs out. *)
Fixpoint execute_from (fuel attempt : nat) (s : S) : option (S * RetryOutcome T E) :=
  match fuel with
  | O => None
  | Datatypes.S fuel =>
      let '(s, outcome) := action attempt s in
      let callsMade := Z.of_nat attempt + 1 in
      let withinBudget := bool_decide (maxRetries = INFINITE_RETRIES ∨ callsMade < maxRetries) in
      if withinBudget && shouldRetry attempt outcome s then
        let s := match backoff attempt with
                 | Some delayMs => if bool_decide (0 < delayMs) then sleep delayMs s else s
                 | None => s
                 end in
        execute_from fuel (Datatypes.S attempt) s
      else Some (s, outcome)
  end.
Definition executeWithRetries (fuel : nat) (s : S) : option (S * RetryOutcome T E) := execute_from fuel 0 s.
End retries.

(** ** One subscriber *)

Inductive DeliveryError :=
  | RecoverableStreamDeliveryError (resumeToken : Z)
  | GrainCallAbortedError
  | GrainCallTimeoutError
  | OnNextFailed.

Definition DEFAULT_MAX_EVENT_DELIVERY_TIME_MS : Z := 60000.
Definition DEFAULT_DELIVERY_RESPONSE_TIMEOUT_MS : Z := 30000.
Definition defaultBackoff (attempt : Z) : Z := Z.min (50 * 2 ^ attempt) 5000.

(** Of the failure handler, only how long it takes: if ever. *)
Record FanOutDelivery := mkFanOut {
  maxEventDeliveryTimeMs : Z;
  deliveryResponseTimeoutMs : Z;
  retryBackoffMs : Z → Z;
  failureHandler : option (option Z) }.
Definition new_fan_out (maxTime timeout : option Z) (backoff : option (Z → Z)) (handler : option (option Z)) : FanOutDelivery :=
  mkFanOut (default DEFAULT_MAX_EVENT_DELIVERY_TIME_MS maxTime) (default DEFAULT_DELIVERY_RESPONSE_TIMEOUT_MS timeout)
    (default defaultBackoff backoff) handler.

(** An answer of [deliver]: after how long, if ever, and which. *)
Record Response := mkResponse { latency : option Z; answer : option DeliveryError }.

Section delivery.
Context (f : FanOutDelivery) (abortAt : option Z).

Definition aborted (now : Z) : bool :=
  match abortAt with Some t => bool_decide (t <= now) | None => false end.

(** The earlier of two moments; none is never. *)
Definition soonest (a b : option Z) : option Z :=
  match a, b with Some x, Some y => Some (Z.min x y) | Some x, None => Some x | None, b => b end.

(** [attempt]: the call, its deadline and the abort race. *)
Definition attempt (r : Response) (now : Z) : Z * RetryOutcome unit DeliveryError :=
  if aborted now then (now, RError GrainCallAbortedError)
  else
    let settles := (λ d, now + d) <$> latency r in
    let timeout := now + deliveryResponseTimeoutMs f in
    let cut := match abortAt with Some t => Z.min t timeout | None => timeout end in
    let cutBy := match abortAt with
                 | Some t => if bool_decide (t < timeout) then GrainCallAbortedError else GrainCallTimeoutError
                 | None => GrainCallTimeoutError
                 end in
    match settles with
    | Some t => if bool_decide (t <= cut) then (t, match answer r with None => RSuccess () | Some e => RError e end)
                else (cut, RError cutBy)
    | None => (cut, RError cutBy)
    end.

Definition is_recoverable (e : DeliveryError) : bool :=
  match e with RecoverableStreamDeliveryError _ => true | _ => false end.

(** The sleep between attempts ends when the signal aborts. *)
Definition abortable_sleep (delayMs now : Z) : Z :=
  match abortAt with
  | Some t => if bool_decide (t <= now) then now else Z.min t (now + delayMs)
  | None => now + delayMs
  end.

(** How the delivery to one subscriber settles. *)
Inductive Settled :=
  | Delivered
  | Skipped (error : DeliveryError)
  | Rewind (resumeToken : Z)
  | Abandoned.

Definition deliver_with_retries (responses : nat → Response) (deadline : Z) (fuel : nat) (now : Z)
    : option (Z * RetryOutcome unit DeliveryError) :=
  executeWithRetries INFINITE_RETRIES (λ k now, attempt (responses k) now)
    (λ _ outcome now, match outcome with
                      | RError e => negb (is_recoverable e) && negb (aborted now) && bool_decide (now < deadline)
                      | RSuccess _ => false
                      end)
    (λ k, Some (retryBackoffMs f (Z.of_nat k + 1))) abortable_sleep fuel now.

(** With the moment it settles, if it does. *)
Definition deliverToOne (responses : nat → Response) (fuel : nat) (now : Z) : option (option Z * Settled) :=
  match deliver_with_retries responses (now + maxEventDeliveryTimeMs f) fuel now with
  | None => None
  | Some (now, RSuccess _) => Some (Some now, Delivered)
  | Some (now, RError (RecoverableStreamDeliveryError t)) => Some (Some now, Rewind t)
  | Some (now, RError e) =>
      if aborted now then Some (Some now, Abandoned)
      else Some (match failureHandler f with
                 | None => Some now
                 | Some takes => (λ d, now + d) <$> takes
                 end, Skipped e)
  end.

(** ** All subscribers *)

Inductive Fate := AllServed | RewindTo (resumeToken : Z) | FanOutAborted | NeverSettles.

Fixpoint earliest (rs : list Settled) : option Z :=
  match rs with
  | [] => None
  | Rewind t :: rs => match earliest rs with Some t' => Some (Z.min t t') | None => Some t end
  | _ :: rs => earliest rs
  end.

(** What follows [Promise.allSettled], at the moment the last one settles. *)
Definition all_settled (rs : list (option Z * Settled)) (start : Z) : Fate :=
  match mapM (M := option) fst rs with
  | None => NeverSettles
  | Some ends =>
      if aborted (foldr Z.max start ends) then FanOutAborted
      else match earliest rs.*2 with Some t => RewindTo t | None => AllServed end
  end.

Definition deliverToAll (subscribers : list (nat → Response)) (fuel : nat) (now : Z) : option Fate :=
  (λ rs, all_settled rs now) <$> mapM (λ responses, deliverToOne responses fuel now) subscribers.
End delivery.

(** ** Who subscribes *)

(** [streamKey] up to its first slash, and the rest. *)
Definition implicitSubscriberIds (streamKey : string) (typesFor : string → list string) : list GrainId :=
  match split_first "/"%char streamKey with
  | None => []
  | Some (namespace, key) => (λ type, mkGrainId type (KString key)) <$> typesFor namespace
  end.

Fixpoint dedupe_subscribers (seen : list string) (subscribers : list GrainId) : list GrainId :=
  match subscribers with
  | [] => []
  | subscriber :: rest =>
      let id := GrainId_toString subscriber in
      if bool_decide (id ∈ seen) then dedupe_subscribers seen rest
      else subscriber :: dedupe_subscribers (id :: seen) rest
  end.
Definition resolve_subscribers (explicit : list GrainId) (streamKey : string) (typesFor : string → list string) : list GrainId :=
  dedupe_subscribers [] (explicit ++ implicitSubscriberIds streamKey typesFor).

(** ** A delivery ends *)

Section bounds.
Context (f : FanOutDelivery) (abortAt : option Z) (B : Z).
Context (Htimeout : 0 <= deliveryResponseTimeoutMs f) (Hmax : 0 <= maxEventDeliveryTimeMs f)
  (Hbackoff : ∀ k, 1 <= k → 1 <= retryBackoffMs f k <= B).

Definition latencies_ok (responses : nat → Response) : Prop := ∀ k d, latency (responses k) = Some d → 0 <= d.

(** What an attempt says, and how long it takes. *)
Lemma attempt_spec r now : (∀ d, latency r = Some d → 0 <= d) →
  let '(now', outcome) := attempt f abortAt r now in
  now <= now' <= now + deliveryResponseTimeoutMs f ∧
  match outcome with
  | RSuccess _ => answer r = None
  | RError (RecoverableStreamDeliveryError t) => answer r = Some (RecoverableStreamDeliveryError t)
  | RError _ => True
  end.
Proof using Htimeout.
  intros Hd. unfold attempt, aborted. destruct abortAt as [t|].
  - case_bool_decide as Ha; [lia|]. destruct (latency r) as [d|]; simpl.
    + specialize (Hd d eq_refl). case_bool_decide as Hs; [destruct (answer r) as [[]|]; simpl; split; (lia || done)|].
      case_bool_decide; simpl; split; (lia || done).
    + case_bool_decide; simpl; split; (lia || done).
  - destruct (latency r) as [d|]; simpl; [|lia]. specialize (Hd d eq_refl).
    case_bool_decide as Hs; [destruct (answer r) as [[]|]; simpl; split; (lia || done)|simpl; lia].
Qed.

Lemma abortable_sleep_spec d now : 1 <= d → aborted abortAt now = false →
  now + 1 <= abortable_sleep abortAt d now <= now + d.
Proof. unfold aborted, abortable_sleep. destruct abortAt as [t|]; [|lia]. intros Hd Ha. case_bool_decide; [done|]. lia. Qed.

(** How the retries of a subscriber end. *)
Definition retries_end (responses : nat → Response) (deadline now : Z) (outcome : RetryOutcome unit DeliveryError) : Prop :=
  match outcome with
  | RSuccess _ => ∃ k, answer (responses k) = None
  | RError (RecoverableStreamDeliveryError t) => ∃ k, answer (responses k) = Some (RecoverableStreamDeliveryError t)
  | RError _ => aborted abortAt now = true ∨ deadline <= now
  end.

Lemma retries_bounded responses deadline fuel k now : latencies_ok responses →
  now <= deadline + B → 1 <= Z.of_nat fuel → deadline - now + 1 <= Z.of_nat fuel →
  ∃ now' outcome,
    execute_from INFINITE_RETRIES (λ k now, attempt f abortAt (responses k) now)
      (λ _ outcome now, match outcome with
                        | RError e => negb (is_recoverable e) && negb (aborted abortAt now) && bool_decide (now < deadline)
                        | RSuccess _ => false
                        end)
      (λ k, Some (retryBackoffMs f (Z.of_nat k + 1))) (abortable_sleep abortAt) fuel k now = Some (now', outcome) ∧
    now <= now' <= deadline + B + deliveryResponseTimeoutMs f ∧ retries_end responses deadline now' outcome.
Proof using Htimeout Hbackoff.
  intros Hl. revert k now. induction fuel as [|fuel IH]; intros k now Hn H1 Hf; [lia|]. simpl.
  pose proof (attempt_spec (responses k) now (Hl k)) as Ha. destruct (attempt f abortAt (responses k) now) as [now1 outcome].
  destruct Ha as [Hnow Hout]. simpl. destruct outcome as [[]|e].
  - exists now1, (RSuccess ()). split; [done|]. split; [lia|]. by exists k.
  - destruct (is_recoverable e) eqn:Hrec; simpl.
    { destruct e; try done. eexists _, _. split; [done|]. split; [lia|]. by exists k. }
    destruct (aborted abortAt now1) eqn:Hab; simpl.
    { eexists _, _. split; [done|]. split; [lia|]. unfold retries_end. rewrite Hab. destruct e; (done || by left). }
    case_bool_decide as Hd; simpl.
    2: { eexists _, _. split; [done|]. split; [lia|]. unfold retries_end. destruct e; (done || right; lia). }
    destruct (Hbackoff (Z.of_nat k + 1)) as [Hb1 Hb2]; [lia|]. rewrite bool_decide_true by lia.
    destruct (abortable_sleep_spec (retryBackoffMs f (Z.of_nat k + 1)) now1 Hb1 Hab) as [Hs1 Hs2].
    destruct (IH (S k) (abortable_sleep abortAt (retryBackoffMs f (Z.of_nat k + 1)) now1)) as (now' & out & He & Ht & Hr); [lia..|].
    exists now', out. split; [exact He|]. split; [lia|done].
Qed.
End bounds.

Section contract.
Context (f : FanOutDelivery) (abortAt : option Z) (B : Z).
Context (Htimeout : 0 <= deliveryResponseTimeoutMs f) (Hmax : 0 <= maxEventDeliveryTimeMs f)
  (Hbackoff : ∀ k, 1 <= k → 1 <= retryBackoffMs f k <= B).

(** The failure handler takes some time, or hangs. *)
Definition handler_hangs : Prop := failureHandler f = Some None.
Definition handler_latency_ok : Prop := ∀ d, failureHandler f = Some (Some d) → 0 <= d.

(** What may be said of a subscriber, from its answers, when its delivery
    settles; it does not when the handler that reports its skip hangs. *)
Definition settled_ok (responses : nat → Response) (now : Z) (r : option Z * Settled) : Prop :=
  match r.2 with
  | Delivered => is_Some r.1 ∧ ∃ k, answer (responses k) = None
  | Rewind t => is_Some r.1 ∧ ∃ k, answer (responses k) = Some (RecoverableStreamDeliveryError t)
  | Skipped _ => match r.1 with
                 | Some at_ => now + maxEventDeliveryTimeMs f <= at_
                 | None => handler_hangs
                 end
  | Abandoned => ∃ at_, r.1 = Some at_ ∧ aborted abortAt at_ = true
  end.

Lemma deliverToOne_spec responses fuel now : latencies_ok responses → handler_latency_ok →
  maxEventDeliveryTimeMs f + 2 <= Z.of_nat fuel →
  ∃ r, deliverToOne f abortAt responses fuel now = Some r ∧ settled_ok responses now r.
Proof using Type*.
  intros Hl Hh Hf. unfold deliverToOne, deliver_with_retries, executeWithRetries.
  assert (HB : 1 <= B) by (destruct (Hbackoff 1); lia).
  destruct (retries_bounded f abortAt B Htimeout Hbackoff responses (now + maxEventDeliveryTimeMs f) fuel 0 now Hl)
    as (now' & outcome & -> & Hn & Ho); [lia..|].
  destruct outcome as [[]|e]; [eexists; split; [done|]; by split; [eexists|exact Ho]|].
  assert (Hother : (aborted abortAt now' = true ∨ now + maxEventDeliveryTimeMs f <= now') →
    ∃ r, (if aborted abortAt now' then Some (Some now', Abandoned)
          else Some (match failureHandler f with None => Some now' | Some takes => (λ d, now' + d) <$> takes end, Skipped e)) = Some r ∧
      settled_ok responses now r).
  { intros Hor. destruct (aborted abortAt now') eqn:Ha; eexists; (split; [done|]).
    - by exists now'.
    - destruct Hor as [?|Hd]; [done|]. unfold settled_ok, handler_hangs, handler_latency_ok in *. simpl.
      destruct (failureHandler f) as [[d|]|]; simpl; [specialize (Hh d eq_refl); lia|done|done]. }
  destruct e; simpl in Ho; try by apply Hother. eexists. split; [done|]. by split; [eexists|exact Ho].
Qed.

Lemma earliest_None rs : earliest rs = None → ∀ t, Rewind t ∉ rs.
Proof.
  induction rs as [|r rs IH]; simpl; intros He t Hin; [by apply elem_of_nil in Hin|].
  apply elem_of_cons in Hin as [<-|Hin]; [by destruct (earliest rs)|].
  destruct r; try by eapply IH. by destruct (earliest rs).
Qed.

Lemma earliest_Some rs t : earliest rs = Some t → Rewind t ∈ rs ∧ ∀ t', Rewind t' ∈ rs → t <= t'.
Proof.
  revert t. induction rs as [|r rs IH]; simpl; intros t He; [done|].
  assert (Hskip : earliest rs = Some t → (∀ t', r ≠ Rewind t') → Rewind t ∈ r :: rs ∧ ∀ t', Rewind t' ∈ r :: rs → t <= t').
  { intros Hr Hne. destruct (IH t Hr) as [H1 H2]. split; [by right|]. intros t' [Heq|Hin]%elem_of_cons; [by destruct (Hne t')|by apply H2]. }
  destruct r as [|e|t0|]; try by apply Hskip. destruct (earliest rs) as [t1|] eqn:Hr.
  - injection He as <-. destruct (IH t1 eq_refl) as [H1 H2]. split.
    + destruct (Z.min_spec t0 t1) as [[_ ->]|[_ ->]]; [by left|by right].
    + intros t' [[= ->]|Hin]%elem_of_cons; [lia|]. specialize (H2 t' Hin). lia.
  - injection He as <-. split; [by left|]. intros t' [[= ->]|Hin]%elem_of_cons; [lia|]. by apply earliest_None in Hin.
Qed.

Lemma settled_times rs ends : mapM (M := option) fst rs = Some ends →
  ∀ (r : option Z * Settled) at_, r ∈ rs → r.1 = Some at_ → at_ ∈ ends.
Proof.
  intros He r at_ Hr Ha. apply mapM_Some_1 in He. apply list_elem_of_lookup in Hr as [i Hi].
  destruct (Forall2_lookup_l _ _ _ _ _ He Hi) as (y & Hy & Heq). apply list_elem_of_lookup_2 in Hy.
  rewrite Ha in Heq. by injection Heq as ->.
Qed.

(** Of deliveries that end as they may, only a skip stays open. *)
Lemma never_settles rs now : (∀ r, r ∈ rs → ∃ responses, settled_ok responses now r) →
  mapM (M := option) fst rs = None → handler_hangs ∧ ∃ e, (None, Skipped e) ∈ rs.
Proof.
  intros Hrs (r & Hr & Hn)%mapM_None%Exists_exists. destruct (Hrs r Hr) as [x Hs]. destruct r as [o k]. simpl in Hn. subst o.
  unfold settled_ok in Hs. simpl in Hs. destruct k as [|e|t|]; [by destruct Hs as [[] _]| |by destruct Hs as [[] _]|by destruct Hs as (? & ? & _)].
  split; [done|]. by exists e.
Qed.

Lemma max_end start ends at_ : at_ ∈ ends → at_ <= foldr Z.max start ends.
Proof. induction ends as [|e ends IH]; [by intros ?%elem_of_nil|]. simpl. intros [->|Hin%IH]%elem_of_cons; lia. Qed.

Lemma aborted_later t t' : t <= t' → aborted abortAt t = true → aborted abortAt t' = true.
Proof. unfold aborted. destruct abortAt; [|done]. intros Hle Ha%bool_decide_eq_true_1. apply bool_decide_eq_true_2. lia. Qed.

(** C25: Every fan-out of an event ends unless the failure handler hangs, and it
    says what it did. Let the timeouts be nonnegative and each backoff positive and
    bounded. Subscribers may hang, fail at any attempt or ask to rewind, and the
    agent's signal may abort at any moment: a budget of attempts that only depends on
    the time budget is enough for the attempts of all to end. If the fan-out is said
    to have served all, each subscriber accepted the event or used up its time
    budget; if it asks to rewind, it is to the earliest position a subscriber asked
    for; if it is aborted, the signal was; and it never settles only if the handler
    hangs that some subscriber's skip is reported to, which the code awaits without a
    deadline. *)
Theorem fan_out_contract subscribers now fuel :
  Forall latencies_ok subscribers → handler_latency_ok → maxEventDeliveryTimeMs f + 2 <= Z.of_nat fuel →
  ∃ rs fate, Forall2 (λ responses r, deliverToOne f abortAt responses fuel now = Some r ∧ settled_ok responses now r) subscribers rs ∧
    deliverToAll f abortAt subscribers fuel now = Some fate ∧
    match fate with
    | AllServed => Forall (λ r, r.2 = Delivered ∨ ∃ e, r.2 = Skipped e) rs
    | RewindTo t => Rewind t ∈ rs.*2 ∧ ∀ t', Rewind t' ∈ rs.*2 → t <= t'
    | FanOutAborted => is_Some abortAt
    | NeverSettles => handler_hangs ∧ ∃ e, (None, Skipped e) ∈ rs
    end.
Proof using Type*.
  intros Hl Hh Hf.
  assert (Hrs : ∃ rs, Forall2 (λ responses r, deliverToOne f abortAt responses fuel now = Some r ∧ settled_ok responses now r) subscribers rs).
  { induction Hl as [|r l Hr Hl (rs & IH)]; [by exists []|]. destruct (deliverToOne_spec r fuel now Hr Hh Hf) as (x & Hx & Hok).
    exists (x :: rs). by constructor. }
  destruct Hrs as [rs Hrs]. exists rs, (all_settled abortAt rs now). split; [done|]. unfold deliverToAll. split.
  { assert (mapM (λ responses, deliverToOne f abortAt responses fuel now) subscribers = Some rs) as ->; [|done].
    apply mapM_Some. eapply Forall2_impl; [exact Hrs|]. by intros x r [? _]. }
  assert (Hr2 : ∀ r, r ∈ rs → ∃ responses, settled_ok responses now r).
  { intros r [i Hi]%list_elem_of_lookup. destruct (Forall2_lookup_r _ _ _ _ _ Hrs Hi) as (x & _ & _ & Hs). by exists x. }
  unfold all_settled. destruct (mapM fst rs) as [ends|] eqn:He; [|by apply (never_settles rs now)].
  destruct (aborted abortAt (foldr Z.max now ends)) eqn:Ha; [unfold aborted in Ha; by destruct abortAt|].
  destruct (earliest rs.*2) as [t|] eqn:Hear; [by apply earliest_Some|].
  apply Forall_forall. intros r Hr. destruct (Hr2 r Hr) as [x Hs]. unfold settled_ok in Hs.
  destruct (r.2) as [|e|t|] eqn:Hk; [by left|right; by eexists| |].
  - destruct (earliest_None _ Hear t). rewrite <- Hk. by apply list_elem_of_fmap_2.
  - destruct Hs as (at_ & Hat & Hab).
    by rewrite (aborted_later at_ _ (max_end now ends at_ (settled_times rs ends He r at_ Hr Hat)) Hab) in Ha.
Qed.
End contract.

(** ** Subscribers, once each *)

Lemma dedupe_spec l : ∀ seen, NoDup (GrainId_toString <$> dedupe_subscribers seen l) ∧
  (∀ id, id ∈ GrainId_toString <$> dedupe_subscribers seen l ↔ id ∈ (GrainId_toString <$> l) ∧ id ∉ seen).
Proof.
  induction l as [|g l IH]; intros seen; simpl.
  - split; [constructor|]. intros id. rewrite elem_of_nil. tauto.
  - case_bool_decide as Hs.
    + destruct (IH seen) as [H1 H2]. split; [done|]. intros id. rewrite H2, elem_of_cons. split; [tauto|].
      intros [[->|?] Hn]; [done|tauto].
    + destruct (IH (GrainId_toString g :: seen)) as [H1 H2]. simpl. split.
      * constructor; [|done]. rewrite H2, elem_of_cons. tauto.
      * intros id. rewrite !elem_of_cons, H2, elem_of_cons. destruct (decide (id = GrainId_toString g)) as [->|Hne]; tauto.
Qed.

(** Each explicit and each implicit subscriber is served, and none twice. *)
Lemma resolve_subscribers_spec explicit streamKey typesFor :
  NoDup (GrainId_toString <$> resolve_subscribers explicit streamKey typesFor) ∧
  ∀ id, id ∈ GrainId_toString <$> resolve_subscribers explicit streamKey typesFor ↔
    id ∈ GrainId_toString <$> explicit ∨ id ∈ GrainId_toString <$> implicitSubscriberIds streamKey typesFor.
Proof.
  destruct (dedupe_spec (explicit ++ implicitSubscriberIds streamKey typesFor) []) as [H1 H2]. split; [done|].
  intros id. rewrite (H2 id), fmap_app, elem_of_app, elem_of_nil. tauto.
Qed.

(** ** Concrete deliveries *)
Module Runs.
Definition options : FanOutDelivery := new_fan_out None None None None.
Definition accepts : nat → Response := λ _, mkResponse (Some 5) None.
Definition hangs : nat → Response := λ _, mkResponse None None.
Definition fails_twice : nat → Response := λ k, if (k <? 2)%nat then mkResponse (Some 1) (Some OnNextFailed) else mkResponse (Some 1) None.
Definition rewinds (t : Z) : nat → Response := λ _, mkResponse (Some 3) (Some (RecoverableStreamDeliveryError t)).

Lemma default_backoff_bounds k : 1 <= k → 1 <= defaultBackoff k <= 5000.
Proof. intros Hk. unfold defaultBackoff. pose proof (Z.pow_pos_nonneg 2 k). lia. Qed.

Definition fuel : nat := Z.to_nat 60002.

Lemma fan_out_contract_witness :
  deliverToAll options None [accepts; fails_twice; hangs] 20 0 = Some AllServed ∧
  deliverToAll options None [accepts; rewinds 7; rewinds 4] 20 0 = Some (RewindTo 4) ∧
  deliverToAll options (Some 100) [accepts; hangs] 20 0 = Some FanOutAborted ∧
  ∃ rs fate, Forall2 (λ responses r, deliverToOne options None responses fuel 0 = Some r ∧ settled_ok options None responses 0 r)
      [accepts; fails_twice; hangs] rs ∧
    deliverToAll options None [accepts; fails_twice; hangs] fuel 0 = Some fate ∧
    match fate with
    | AllServed => Forall (λ r, r.2 = Delivered ∨ ∃ e, r.2 = Skipped e) rs
    | RewindTo t => Rewind t ∈ rs.*2 ∧ ∀ t', Rewind t' ∈ rs.*2 → t <= t'
    | FanOutAborted => is_Some (None : option Z)
    | NeverSettles => handler_hangs options ∧ ∃ e, (None, Skipped e) ∈ rs
    end.
Proof.
  split; [by vm_compute|]. split; [by vm_compute|]. split; [by vm_compute|].
  apply (fan_out_contract options None 5000 ltac:(by vm_compute) ltac:(by vm_compute) default_backoff_bounds
    [accepts; fails_twice; hangs] 0 fuel).
  - repeat (apply Forall_cons_2; [intros k d; try (by intros [= <-])|]); [|constructor].
    unfold fails_twice. destruct (k <? 2)%nat; by intros [= <-].
  - by intros d [=].
  - unfold fuel. rewrite Z2Nat.id; by vm_compute.
Defined.

(** A failure handler that never returns: the fan-out never settles, although
    the subscriber it reports is to be skipped, and the signal aborts. *)
Lemma hung_handler_blocks_delivery :
  deliverToAll (new_fan_out None None None (Some None)) (Some 1000000) [accepts; hangs] 20 0 = Some NeverSettles.
Proof. by vm_compute. Qed.
End Runs.
