(* ===== verification/StreamAgent.v ===== *)
(** * Pulling agents of a stream provider

    Models [packages/streams/src/queue-pulling-agent.ts] (QueuePullingAgent and the
    contract PullableQueue, here a type class with its laws),
    [generator-stream-queue.ts], an instance, [queue-ownership.ts] and the agents of
    [pulling-stream-provider-core.ts] (PullingStreamProviderCore).

    Any number of agents, of any silos, work on one queue: the agent of the silo
    that owns it, and those that are being stopped. A step is what an agent does
    between two awaits; a call of the queue takes effect in the step that goes on
    after it, or on failure before or after it took effect. What the fan-out of an
    event answers is arbitrary: [StreamDelivery] says what it stands for. *)
From Stdlib Require Import String Sorted.
From stdpp Require Import prelude gmap strings list.
From S2P Require Import Prelude Ids HashRing StreamDelivery.
Open Scope Z_scope.

(** ** Queues *)

Record QueueEntry := mkEntry { token : Z; streamKey : string; event : string }.

Class PullableQueue (Q : Type) := {
  getCursor : Q → Z;
  readAfter : Z → nat → Q → Q * list QueueEntry;
  commit : Z → Q → Q;
  seek : Z → Q → Q }.

Definition ascending (l : list QueueEntry) : Prop := StronglySorted (λ x y, token x < token y) l.

(** The entries of a queue are numbered from 1, a read returns the ones after a
    cursor, and only commits and seeks move the committed cursor. *)
Class PullableQueueLaws (Q : Type) `{PullableQueue Q} := {
  q_entries : Q → list QueueEntry;
  pq_ascending q : ascending (q_entries q) ∧ Forall (λ e, 1 <= token e) (q_entries q);
  pq_read c n q : 0 <= c → (readAfter c n q).2 = take n (filter (λ e, c < token e) (q_entries q));
  pq_read_entries c n q : q_entries (readAfter c n q).1 = q_entries q ∧ getCursor (readAfter c n q).1 = getCursor q;
  pq_commit c q : q_entries (commit c q) = q_entries q ∧
    (getCursor (commit c q) = c ∨ getCursor (commit c q) = getCursor q ∧ c <= getCursor q);
  pq_seek c q : q_entries (seek c q) = q_entries q ∧ getCursor (seek c q) = c }.

(** ** The generator's queue *)
Module GeneratorStreamQueue.
Record t := mk {
  streamNamespace : string;
  eventsInStream : Z;
  streamKey : option string;
  committed : Z;
  (** The next random id. *)
  uuid : string }.

Definition key (q : t) : string :=
  default (streamNamespace q +:+ "/" +:+ uuid q)%string (streamKey q).
Definition generate (q : t) (tok : Z) : QueueEntry :=
  mkEntry tok (key q) (if bool_decide (tok = eventsInStream q) then "report" else "fill").
Definition readAfter (cursor : Z) (count : nat) (q : t) : t * list QueueEntry :=
  let last := Z.min (cursor + Z.of_nat count) (eventsInStream q) in
  (mk (streamNamespace q) (eventsInStream q) (Some (key q)) (committed q) (uuid q),
   (λ i, generate q (cursor + 1 + Z.of_nat i)) <$> seq 0 (Z.to_nat (last - cursor))).
Definition set_committed (c : Z) (q : t) : t := mk (streamNamespace q) (eventsInStream q) (streamKey q) c (uuid q).
Definition reconfigure (namespace : string) (events : Z) (uuid : string) (q : t) : t := mk namespace events None 0 uuid.

#[global] Instance queue : PullableQueue t := {
  getCursor := committed;
  readAfter := readAfter;
  commit := set_committed;
  seek := set_committed }.

Definition entries (q : t) : list QueueEntry :=
  (λ i, generate q (1 + Z.of_nat i)) <$> seq 0 (Z.to_nat (eventsInStream q)).
End GeneratorStreamQueue.

(** ** The agent *)

(** Where its pump waits. *)
Inductive Pump :=
  | GettingCursor
  | Reading (cursor : Z)
  | Delivering (entry : QueueEntry) (rest : list QueueEntry)
  | Committing (entry : QueueEntry) (rest : list QueueEntry)
  | Seeking (resumeToken : Z).

Record QueuePullingAgent := mkAgent {
  batchSize : nat;
  timer : bool;
  cursor : option Z;
  running : bool;
  pump : option Pump;
  (** Whether [inflight] is the pump under way; another one returns at once. *)
  inflight : bool;
  (** Calls of [start] that were not ignored, of [stop] that wait, and that
      returned since the last start. *)
  starts : nat;
  stopping : nat;
  stopped : nat }.

Definition DEFAULT_BATCH_SIZE : nat := 128.
Definition new_agent (options : option nat) : QueuePullingAgent :=
  mkAgent (default DEFAULT_BATCH_SIZE options) false None false None false 0 0 0.

Definition with_timer (b : bool) (a : QueuePullingAgent) : QueuePullingAgent :=
  mkAgent (batchSize a) b (cursor a) (running a) (pump a) (inflight a) (starts a) (stopping a) (stopped a).
Definition with_cursor (c : option Z) (a : QueuePullingAgent) : QueuePullingAgent :=
  mkAgent (batchSize a) (timer a) c (running a) (pump a) (inflight a) (starts a) (stopping a) (stopped a).
Definition with_pump (p : option Pump) (a : QueuePullingAgent) : QueuePullingAgent :=
  mkAgent (batchSize a) (timer a) (cursor a) (running a) p (inflight a) (starts a) (stopping a) (stopped a).
Definition with_inflight (b : bool) (a : QueuePullingAgent) : QueuePullingAgent :=
  mkAgent (batchSize a) (timer a) (cursor a) (running a) (pump a) b (starts a) (stopping a) (stopped a).
Definition with_running (b : bool) (n : nat) (a : QueuePullingAgent) : QueuePullingAgent :=
  mkAgent (batchSize a) (timer a) (cursor a) b (pump a) (inflight a) n (stopping a) (stopped a).
Definition with_stops (n m : nat) (a : QueuePullingAgent) : QueuePullingAgent :=
  mkAgent (batchSize a) (timer a) (cursor a) (running a) (pump a) (inflight a) (starts a) n m.

(** [schedule] *)
Definition schedule (a : QueuePullingAgent) : QueuePullingAgent :=
  if running a then with_timer true a else a.
Definition start (a : QueuePullingAgent) : QueuePullingAgent :=
  if running a then a else schedule (with_stops (stopping a) 0 (with_running true (S (starts a)) a)).
(** [stop], and its return if nothing is in flight. *)
Definition stop (a : QueuePullingAgent) : QueuePullingAgent :=
  let a := with_timer false (with_running false (starts a) a) in
  if inflight a && bool_decide (pump a ≠ None) then with_stops (S (stopping a)) (stopped a) a
  else with_stops (stopping a) (S (stopped a)) a.
Definition resetCursor (a : QueuePullingAgent) : QueuePullingAgent := with_cursor None a.

(** The [finally] of the pump; then the calls of [stop] that waited return. *)
Definition pump_ends (a : QueuePullingAgent) : QueuePullingAgent :=
  let a := schedule (with_pump None a) in
  with_stops 0 (stopped a + stopping a) a.

(** The loop over the entries, to its next await. *)
Definition pump_next (entries : list QueueEntry) (a : QueuePullingAgent) : QueuePullingAgent :=
  match entries with
  | [] => pump_ends a
  | e :: rest => if running a then with_pump (Some (Delivering e rest)) a else pump_ends a
  end.

Definition timer_fires (a : QueuePullingAgent) : QueuePullingAgent :=
  let a := with_timer false a in
  match pump a with
  | Some _ => with_inflight false a
  | None =>
      if running a then
        with_inflight true (with_pump (Some (match cursor a with None => GettingCursor | Some c => Reading c end)) a)
      else with_inflight false a
  end.

(** ** Steps *)

Inductive Fault := NoFault | FailBefore | FailAfter.
Inductive Label :=
  | Start
  | Stop
  | ResetCursor
  | TimerFires
  | CursorReturns (fails : bool)
  | ReadReturns (fails : bool)
  | DeliverReturns (fate : option Fate)
  | CommitReturns (f : Fault)
  | SeekReturns (f : Fault).

Section steps.
Context {Q : Type} `{PullableQueue Q}.

(** A call of the queue that may fail on either side of its effect. *)
Definition faulty (f : Fault) (op : Q → Q) (q : Q) : Q := match f with FailBefore => q | _ => op q end.

(** What an agent does, with the entry that was delivered if one was. Of the
    ways a delivery is rejected, [None] is any other than the ones of [Fate]. *)
Definition agent_step (l : Label) (q : Q) (a : QueuePullingAgent) : Q * QueuePullingAgent * option QueueEntry :=
  match l, pump a with
  | Start, _ => (q, start a, None)
  | Stop, _ => (q, stop a, None)
  | ResetCursor, _ => (q, resetCursor a, None)
  | TimerFires, _ => if timer a then (q, timer_fires a, None) else (q, a, None)
  | CursorReturns fails, Some GettingCursor =>
      if fails then (q, pump_ends a, None)
      else (q, with_pump (Some (Reading (getCursor q))) (with_cursor (Some (getCursor q)) a), None)
  | ReadReturns fails, Some (Reading c) =>
      if fails then (q, pump_ends a, None)
      else let '(q, entries) := readAfter c (batchSize a) q in (q, pump_next entries a, None)
  | DeliverReturns (Some AllServed), Some (Delivering e rest) =>
      (q, with_pump (Some (Committing e rest)) (with_cursor (Some (token e)) a), Some e)
  | DeliverReturns (Some (RewindTo t)), Some (Delivering e rest) =>
      if running a then (q, with_pump (Some (Seeking t)) a, None) else (q, pump_ends a, None)
  | DeliverReturns (Some NeverSettles), Some (Delivering e rest) => (q, a, None)
  | DeliverReturns _, Some (Delivering e rest) => (q, pump_ends a, None)
  | CommitReturns f, Some (Committing e rest) =>
      (faulty f (commit (token e)) q, match f with NoFault => pump_next rest a | _ => pump_ends a end, None)
  | SeekReturns f, Some (Seeking t) =>
      (faulty f (seek t) q, pump_ends (match f with NoFault => resetCursor a | _ => a end), None)
  | _, _ => (q, a, None)
  end.

(** The queue, the agents there ever were, the entries served so far. *)
Record System := mkSystem { queue : Q; agents : list QueuePullingAgent; served : list Z }.

Definition sys_step (i : nat) (l : Label) (s : System) : System :=
  match agents s !! i with
  | None => s
  | Some a =>
      let '(q, a, e) := agent_step l (queue s) a in
      mkSystem q (<[i := a]> (agents s)) (served s ++ match e with Some e => [token e] | None => [] end)
  end.
End steps.

(** ** The generator keeps the contract *)

Module GeneratorLaws.
Import GeneratorStreamQueue.

Lemma generated_ascending (f : nat → QueueEntry) (n k : nat) : (∀ i j, (i < j)%nat → token (f i) < token (f j)) → ascending (f <$> seq k n).
Proof.
  intros Hf. revert k. induction n as [|n IH]; intros k; [constructor|]. simpl. constructor; [apply IH|].
  apply Forall_fmap, Forall_forall. intros j Hj. apply elem_of_seq in Hj. simpl. apply Hf. lia.
Qed.

Lemma filter_generated q c n k : filter (λ e, c < token e) ((λ i, generate q (1 + Z.of_nat i)) <$> seq k n) =
  (λ i, generate q (1 + Z.of_nat i)) <$> seq (Nat.max k (Z.to_nat c)) (k + n - Nat.max k (Z.to_nat c)).
Proof.
  revert k. induction n as [|n IH]; intros k; simpl.
  - replace (k + 0 - Nat.max k (Z.to_nat c))%nat with 0%nat by lia. done.
  - rewrite filter_cons. simpl. rewrite IH. case_decide as Hc.
    + replace (Nat.max k (Z.to_nat c)) with k by lia. replace (Nat.max (S k) (Z.to_nat c)) with (S k) by lia.
      replace (k + S n - k)%nat with (S n) by lia. replace (S k + n - S k)%nat with n by lia. done.
    + replace (Nat.max k (Z.to_nat c)) with (Z.to_nat c) by lia. replace (Nat.max (S k) (Z.to_nat c)) with (Z.to_nat c) by lia.
      do 2 f_equal. lia.
Qed.

#[global] Instance laws : PullableQueueLaws GeneratorStreamQueue.t.
Proof.
  refine {| q_entries := entries |}; try by (intros; split; [|auto]).
  - intros q. split; [apply generated_ascending; intros i j Hij; simpl; lia|].
    apply Forall_fmap, Forall_forall. intros i _. simpl. lia.
  - intros c n q Hc. unfold entries. rewrite filter_generated. simpl. rewrite <- fmap_take, take_seq.
    replace (Nat.max 0 (Z.to_nat c)) with (Z.to_nat c) by lia.
    assert (Hs : ∀ k, seq (Z.to_nat c) k = Nat.add (Z.to_nat c) <$> seq 0 k) by (intros k; by rewrite fmap_add_seq, Nat.add_0_r).
    rewrite Hs, <- list_fmap_compose.
    replace (Z.to_nat (Z.min _ _ - c)) with (Nat.min n (0 + Z.to_nat (eventsInStream q) - Z.to_nat c)) by lia.
    apply list_fmap_ext. intros i x _. unfold generate, compose. simpl.
    replace (c + 1 + Z.of_nat x) with (1 + Z.of_nat (Z.to_nat c + x)) by lia. done.
Qed.
End GeneratorLaws.

(** ** What is committed was delivered *)

Section invariant.
Context {Q : Type} `{PullableQueueLaws Q}.
Implicit Types s : @System Q.
Implicit Types a : QueuePullingAgent.

Record window s (l : list QueueEntry) : Prop := {
  wd_ascending : ascending l;
  wd_entries : ∀ e, e ∈ l → e ∈ q_entries (queue s);
  wd_behind : ∀ x y, x ∈ q_entries (queue s) → y ∈ l → token x < token y → token x ∈ served s ∨ x ∈ l }.

(** A position of the queue with nothing unserved up to it. *)
Record covered s (c : Z) : Prop := {
  cv_nonneg : 0 <= c;
  cv_known : c = 0 ∨ ∃ e, e ∈ q_entries (queue s) ∧ c <= token e;
  cv_served : ∀ e, e ∈ q_entries (queue s) → token e <= c → token e ∈ served s }.

Definition pump_ok s (p : option Pump) : Prop :=
  match p with
  | Some (Reading c) => covered s c
  | Some (Delivering e rest) => window s (e :: rest)
  | Some (Committing e rest) => covered s (token e) ∧ window s rest
  | Some (Seeking t) => covered s t
  | _ => True
  end.

Record agent_ok s a : Prop := {
  ao_cursor : ∀ c, cursor a = Some c → covered s c;
  ao_pump : pump_ok s (pump a) }.

Record Inv s : Prop := {
  iv_committed : covered s (getCursor (queue s));
  iv_agents : ∀ i a, agents s !! i = Some a → agent_ok s a }.

(** Consumers that ask to rewind name a position before the entry they were
    given, as the checkpoint they resume from is. *)
Definition label_ok (l : Label) a : Prop :=
  match l, pump a with
  | DeliverReturns (Some (RewindTo t)), Some (Delivering e _) => 0 <= t < token e
  | _, _ => True
  end.

Inductive step s : @System Q → Prop :=
  | step_agent i a l : agents s !! i = Some a → label_ok l a → step s (sys_step i l s)
  | step_join options : step s (mkSystem (queue s) (agents s ++ [new_agent options]) (served s))
  | step_publish q es : q_entries q = q_entries (queue s) ++ es → getCursor q = getCursor (queue s) →
      step s (mkSystem q (agents s) (served s)).

Inductive reachable : @System Q → Prop :=
  | reachable_start q sv : covered (mkSystem q [] sv) (getCursor q) → reachable (mkSystem q [] sv)
  | reachable_step s s' : reachable s → step s s' → reachable s'.

(** More is served, or published: what holds goes on to hold. *)
Definition grows s s' : Prop :=
  (∃ es, q_entries (queue s') = q_entries (queue s) ++ es) ∧ ∀ t, t ∈ served s → t ∈ served s'.

Lemma grows_refl s : grows s s.
Proof. split; [exists []; by rewrite app_nil_r|done]. Qed.

Lemma new_entry_later s s' es e x : q_entries (queue s') = q_entries (queue s) ++ es → e ∈ es → x ∈ q_entries (queue s) →
  token x < token e.
Proof.
  intros Heq He Hx. destruct (pq_ascending (queue s')) as [Ha _]. unfold ascending in Ha. rewrite Heq in Ha.
  clear Heq. induction (q_entries (queue s)) as [|y l IH]; [by apply elem_of_nil in Hx|]. inversion Ha as [|? ? Hl Hf]; subst.
  rewrite Forall_forall in Hf. apply elem_of_cons in Hx as [->|Hx]; [|by apply IH]. apply Hf, elem_of_app. by right.
Qed.

Lemma entry_positive (q : Q) e : e ∈ q_entries q → 1 <= token e.
Proof. intros He. destruct (pq_ascending q) as [_ Hf]. rewrite Forall_forall in Hf. by apply Hf. Qed.

Lemma covered_grows s s' c : grows s s' → covered s c → covered s' c.
Proof.
  intros [[es Heq] Hs] [H1 H2 H3]. split; [done| |].
  - destruct H2 as [->|(e & He & Hc)]; [by left|right]. exists e. split; [|done]. rewrite Heq. apply elem_of_app. by left.
  - intros e He Hc. assert (Hpos := entry_positive _ _ He). rewrite Heq in He. apply elem_of_app in He as [He|He]; [by apply Hs, H3|].
    exfalso. destruct H2 as [->|(x & Hx & Hle)]; [lia|]. pose proof (new_entry_later _ _ _ _ _ Heq He Hx). lia.
Qed.

Lemma window_grows s s' l : grows s s' → window s l → window s' l.
Proof.
  intros [[es Heq] Hs] [H1 H2 H3]. split; [done| |].
  - intros e He. rewrite Heq. apply elem_of_app. left. by apply H2.
  - intros x y Hx Hy Hlt. rewrite Heq in Hx. apply elem_of_app in Hx as [Hx|Hx].
    + destruct (H3 x y Hx Hy Hlt) as [?|?]; [left; by apply Hs|by right].
    + pose proof (new_entry_later _ _ _ _ _ Heq Hx (H2 y Hy)). lia.
Qed.

Lemma agent_ok_grows s s' a : grows s s' → agent_ok s a → agent_ok s' a.
Proof.
  intros Hg [H1 H2]. split; [intros c Hc; by eapply covered_grows, H1|].
  destruct (pump a) as [[|c|e rest|e rest|t]|]; simpl in *; try done; [by eapply covered_grows|by eapply window_grows| |by eapply covered_grows].
  destruct H2. split; [by eapply covered_grows|by eapply window_grows].
Qed.

Lemma ascending_order l x y : ascending l → x ∈ l → y ∈ l → token x < token y → ∀ n, y ∈ take n l → x ∈ take n l.
Proof.
  unfold ascending. induction 1 as [|e l Ha IH Hf]; intros Hx Hy Hlt n Hn; [by apply elem_of_nil in Hx|].
  destruct n as [|n]; simpl in Hn; [by apply elem_of_nil in Hn|]. simpl.
  rewrite Forall_forall in Hf. apply elem_of_cons in Hx as [->|Hx]; [by left|right].
  apply elem_of_cons in Hn as [->|Hn]; [specialize (Hf x Hx); lia|]. apply IH; [done| |done|done].
  rewrite <- (take_drop n l). apply elem_of_app. by left.
Qed.

Lemma ascending_take l n : ascending l → ascending (take n l).
Proof.
  unfold ascending. revert n. induction l as [|e l IH]; intros n Ha; [by rewrite take_nil|].
  destruct n as [|n]; [constructor|]. inversion Ha as [|? ? Hl Hf]; subst. constructor; [by apply IH|by apply Forall_take].
Qed.

Lemma ascending_filter l (P : QueueEntry → Prop) `{∀ e, Decision (P e)} : ascending l → ascending (filter P l).
Proof.
  unfold ascending. induction 1 as [|e l Ha IH Hf]; [constructor|]. rewrite filter_cons. case_decide; [|done].
  constructor; [done|]. rewrite Forall_forall in *. intros x [_ Hx]%list_elem_of_filter. by apply Hf.
Qed.

(** The entries a read returns. *)
Lemma window_read s c n : covered s c → window s (take n (filter (λ e, c < token e) (q_entries (queue s)))).
Proof.
  intros Hc. set (l := filter (λ e, c < token e) (q_entries (queue s))).
  assert (Hl : ∀ e, e ∈ l ↔ c < token e ∧ e ∈ q_entries (queue s)) by (intros e; unfold l; by rewrite list_elem_of_filter).
  assert (Ha : ascending l) by (apply ascending_filter, pq_ascending).
  assert (Ht : ∀ e, e ∈ take n l → e ∈ l) by (intros e He; rewrite <- (take_drop n l); apply elem_of_app; by left).
  split; [by apply ascending_take| |].
  - intros e He. by apply (proj1 (Hl e)), Ht.
  - intros x y Hx Hy Hlt. destruct (decide (token x <= c)) as [Hle|Hle]; [left; by apply (cv_served s c)|right].
    apply (ascending_order l x y); auto. apply (proj2 (Hl x)). split; [lia|done].
Qed.
(** The entry a pump delivers is the next one to serve. *)
Lemma covered_served s e rest : window s (e :: rest) → token e ∈ served s → covered s (token e).
Proof.
  intros [Ha Hin Hb] Hs. assert (He : e ∈ q_entries (queue s)) by (apply Hin; by left).
  pose proof (entry_positive _ _ He). split; [lia|right; by exists e|].
  intros x Hx Hle. destruct (decide (token x = token e)) as [->|Hne]; [done|].
  destruct (Hb x e Hx ltac:(by left) ltac:(lia)) as [?|Hxl]; [done|]. exfalso.
  apply elem_of_cons in Hxl as [->|Hxl]; [lia|]. inversion Ha as [|? ? _ Hf]; subst.
  rewrite Forall_forall in Hf. specialize (Hf x Hxl). lia.
Qed.

Lemma window_tail s e rest : window s (e :: rest) → token e ∈ served s → window s rest.
Proof.
  intros [Ha Hin Hb] Hs. inversion Ha; subst. split; [done|intros x Hx; apply Hin; by right|].
  intros x y Hx Hy Hlt. destruct (Hb x y Hx ltac:(by right) Hlt) as [?|Hxl]; [by left|].
  apply elem_of_cons in Hxl as [->|?]; [by left|by right].
Qed.

Lemma window_before s t e rest : window s (e :: rest) → 0 <= t < token e → covered s t.
Proof.
  intros [Ha Hin Hb] Ht. split; [lia|right; exists e; split; [apply Hin; by left|lia]|]. intros x Hx Hle.
  destruct (Hb x e Hx ltac:(by left) ltac:(lia)) as [?|Hxl]; [done|]. exfalso.
  apply elem_of_cons in Hxl as [->|Hxl]; [lia|]. inversion Ha as [|? ? _ Hf]; subst.
  rewrite Forall_forall in Hf. specialize (Hf x Hxl). lia.
Qed.
Definition cursor_ok s a : Prop := ∀ c, cursor a = Some c → covered s c.

Lemma schedule_fields a : cursor (schedule a) = cursor a ∧ pump (schedule a) = pump a.
Proof. unfold schedule. by destruct (running a). Qed.

Lemma pump_ends_ok s a : cursor_ok s a → agent_ok s (pump_ends a).
Proof.
  intros Hc. unfold pump_ends. destruct (schedule_fields (with_pump None a)) as [H1 H2].
  split; simpl; [rewrite H1; apply Hc|by rewrite H2].
Qed.

Lemma pump_next_ok s a entries : cursor_ok s a → window s entries → agent_ok s (pump_next entries a).
Proof.
  intros Hc Hw. unfold pump_next. destruct entries as [|e rest]; [by apply pump_ends_ok|].
  destruct (running a); [|by apply pump_ends_ok]. by split.
Qed.

Lemma start_ok s a : agent_ok s a → agent_ok s (start a).
Proof.
  intros [H1 H2]. unfold start. destruct (running a); [done|].
  destruct (schedule_fields (with_stops (stopping a) 0 (with_running true (S (starts a)) a))) as [E1 E2]. split; [by rewrite E1|by rewrite E2].
Qed.

Lemma stop_ok s a : agent_ok s a → agent_ok s (stop a).
Proof. intros [H1 H2]. unfold stop. by case_match. Qed.

Lemma timer_ok s a : agent_ok s a → agent_ok s (timer_fires a).
Proof.
  intros [H1 H2]. unfold timer_fires. simpl. destruct (pump a) eqn:Hp; [by split; simpl; rewrite ?Hp|].
  destruct (running a); [|by split; simpl; rewrite ?Hp]. split; [done|]. simpl. destruct (cursor a) eqn:Hc; [by apply H1|done].
Qed.

(** A change of the committed cursor alone. *)
Lemma grows_queue s q sv : q_entries q = q_entries (queue s) → grows s (mkSystem q (agents s) (served s ++ sv)).
Proof. intros Hq. split; [exists []; by rewrite app_nil_r|]. intros t Ht. apply elem_of_app. by left. Qed.

Lemma grows_agents s ags : grows s (mkSystem (queue s) ags (served s)).
Proof. split; [exists []; by rewrite app_nil_r|done]. Qed.

(** The outcome of one step: what the queue and the agent are then. *)
Record step_ok s (q : Q) a (sv : list Z) : Prop := {
  so_entries : q_entries q = q_entries (queue s);
  so_committed : covered (mkSystem q (agents s) (served s ++ sv)) (getCursor q);
  so_agent : agent_ok (mkSystem q (agents s) (served s ++ sv)) a }.

Lemma step_ok_silent s (q : Q) a : Inv s → q_entries q = q_entries (queue s) →
  (getCursor q = getCursor (queue s) ∨ covered s (getCursor q)) → agent_ok s a → step_ok s q a [].
Proof.
  intros [Hc _] Hq Hcur Ha. assert (Hg := grows_queue s q [] Hq). split; [done| |by eapply agent_ok_grows].
  eapply covered_grows; [exact Hg|]. destruct Hcur as [->|?]; done.
Qed.

Lemma served_ok s e rest a : Inv s → agent_ok s a → pump a = Some (Delivering e rest) →
  step_ok s (queue s) (with_pump (Some (Committing e rest)) (with_cursor (Some (token e)) a)) [token e].
Proof.
  intros [Hi _] [Hc Hp] Hpump. rewrite Hpump in Hp. simpl in Hp.
  set (s' := mkSystem (queue s) (agents s) (served s ++ [token e])). assert (Hg : grows s s') by by apply grows_queue.
  assert (Hin : token e ∈ served s') by (apply elem_of_app; right; by left).
  assert (Hw : window s' (e :: rest)) by by eapply window_grows.
  assert (Hcov := covered_served _ _ _ Hw Hin). split; [done|by eapply covered_grows|].
  split; simpl; [by intros c [= <-]|]. split; [done|by eapply window_tail].
Qed.
Lemma commit_ok s e rest a f : Inv s → agent_ok s a → pump a = Some (Committing e rest) →
  step_ok s (faulty f (commit (token e)) (queue s)) (match f with NoFault => pump_next rest a | _ => pump_ends a end) [].
Proof.
  intros Hi [Hc Hp] Hpump. rewrite Hpump in Hp. destruct Hp as [Hcov Hw].
  destruct (pq_commit (token e) (queue s)) as [Hq Hcur]. apply step_ok_silent; [done| | |].
  - by destruct f.
  - destruct f; simpl; [|by left|]; destruct Hcur as [->|[-> _]]; [by right|by left|by right|by left].
  - destruct f; [by apply pump_next_ok|by apply pump_ends_ok|by apply pump_ends_ok].
Qed.

Lemma seek_ok s t a f : Inv s → agent_ok s a → pump a = Some (Seeking t) →
  step_ok s (faulty f (seek t) (queue s)) (pump_ends (match f with NoFault => resetCursor a | _ => a end)) [].
Proof.
  intros Hi [Hc Hp] Hpump. rewrite Hpump in Hp. destruct (pq_seek t (queue s)) as [Hq Hcur]. apply step_ok_silent; [done| | |].
  - by destruct f.
  - destruct f; simpl; [|by left|]; rewrite Hcur; by right.
  - apply pump_ends_ok. destruct f; [by intros c|exact Hc|exact Hc].
Qed.

Lemma read_ok s c a : Inv s → agent_ok s a → pump a = Some (Reading c) →
  step_ok s (readAfter c (batchSize a) (queue s)).1 (pump_next (readAfter c (batchSize a) (queue s)).2 a) [].
Proof.
  intros Hi [Hc Hp] Hpump. rewrite Hpump in Hp. simpl in Hp.
  destruct (pq_read_entries c (batchSize a) (queue s)) as [Hq Hcur].
  apply step_ok_silent; [done|done|by left|]. apply pump_next_ok; [done|].
  rewrite pq_read by apply Hp. by apply window_read.
Qed.

Lemma agent_step_ok s a l q a' e : Inv s → agent_ok s a → label_ok l a → agent_step l (queue s) a = (q, a', e) →
  step_ok s q a' (match e with Some e => [token e] | None => [] end).
Proof.
  intros Hi Ha Hl. assert (Hstay : step_ok s (queue s) a []) by (apply step_ok_silent; auto).
  assert (Hends : step_ok s (queue s) (pump_ends a) []) by (apply step_ok_silent; auto; apply pump_ends_ok; exact (ao_cursor _ _ Ha)).
  unfold agent_step. destruct l as [| | | |fails|fails|fate|f|f].
  - intros [= <- <- <-]. apply step_ok_silent; auto. by apply start_ok.
  - intros [= <- <- <-]. apply step_ok_silent; auto. by apply stop_ok.
  - intros [= <- <- <-]. apply step_ok_silent; auto. split; [by intros c|apply Ha].
  - destruct (timer a); intros [= <- <- <-]; [|done]. apply step_ok_silent; auto. by apply timer_ok.
  - destruct (pump a) as [[]|]; try (by intros [= <- <- <-]). destruct fails; intros [= <- <- <-]; [done|].
    apply step_ok_silent; auto. assert (Hc := iv_committed _ Hi). split; simpl; [by intros c [= <-]|done].
  - destruct (pump a) as [[|c| | |]|] eqn:Hp; try (by intros [= <- <- <-]). destruct fails; [by intros [= <- <- <-]|].
    pose proof (read_ok s c a Hi Ha Hp) as Hr. destruct (readAfter c (batchSize a) (queue s)). by intros [= <- <- <-].
  - unfold label_ok in Hl.
    destruct (pump a) as [[| |x rest| |]|] eqn:Hp; try (by destruct fate as [[]|]; intros [= <- <- <-]).
    destruct fate as [[|t| |]|]; try (by intros [= <- <- <-]).
    + intros [= <- <- <-]. by apply served_ok.
    + destruct (running a); intros [= <- <- <-]; [|done]. apply step_ok_silent; auto. split; [apply Ha|]. simpl.
      eapply window_before; [|done]. pose proof (ao_pump _ _ Ha) as Hw. rewrite Hp in Hw. exact Hw.
  - destruct (pump a) as [[| | |x rest|]|] eqn:Hp; try (by intros [= <- <- <-]). intros [= <- <- <-]. by apply commit_ok.
  - destruct (pump a) as [[| | | |t]|] eqn:Hp; try (by intros [= <- <- <-]). intros [= <- <- <-]. by apply seek_ok.
Qed.

Lemma sys_step_inv s i l a : Inv s → agents s !! i = Some a → label_ok l a → Inv (sys_step i l s).
Proof.
  intros Hi Hia Hl. unfold sys_step. rewrite Hia. destruct (agent_step l (queue s) a) as [[q a'] e] eqn:Hstep.
  destruct (agent_step_ok s a l q a' e) as [Hq Hc Ha]; [done|by eapply iv_agents|done|done|].
  assert (Hg := grows_agents (mkSystem q (agents s) (served s ++ match e with Some e => [token e] | None => [] end)) (<[i:=a']> (agents s))).
  split; [by eapply covered_grows|]. simpl. intros j b Hj.
  apply list_lookup_insert_Some in Hj as [(<- & <- & _)|(_ & Hj)]; [by eapply agent_ok_grows|].
  eapply agent_ok_grows; [|by eapply iv_agents]. by apply grows_queue.
Qed.

Lemma new_agent_ok s options : agent_ok s (new_agent options).
Proof. by split. Qed.

Lemma streams_step_inv s s' : Inv s → step s s' → Inv s'.
Proof.
  intros Hi Hs. destruct Hs as [i a l Ha Hl|options|q es Hq Hc].
  - by eapply sys_step_inv.
  - assert (Hg := grows_agents s (agents s ++ [new_agent options])).
    split; [eapply covered_grows; [done|]; exact (iv_committed _ Hi)|]. simpl. intros i a Ha.
    apply lookup_app_Some in Ha as [Ha|[_ Ha]]; [by eapply agent_ok_grows, iv_agents|].
    apply list_lookup_singleton_Some in Ha as [_ <-]. apply new_agent_ok.
  - assert (Hg : grows s (mkSystem q (agents s) (served s))) by (split; [by exists es|done]).
    split; simpl; [rewrite Hc; eapply covered_grows; [done|]; exact (iv_committed _ Hi)|].
    intros i a Ha. eapply agent_ok_grows; [done|]. by eapply iv_agents.
Qed.

Lemma streams_reachable_inv s : reachable s → Inv s.
Proof. induction 1 as [q sv Hc|s s' _ IH Hs]; [by split|by eapply streams_step_inv]. Qed.

(** C22: Whatever the agents of a queue do - the owner's, those being handed over,
    restarted or stopped, several at once - and whichever calls fail on either side
    of their effect, every entry up to the committed cursor was delivered to all its
    subscribers: none is committed past undelivered. And what a pump serves next is
    the first entry that is not served. *)
Theorem at_least_once s : reachable s →
  (∀ e, e ∈ q_entries (queue s) → token e <= getCursor (queue s) → token e ∈ served s) ∧
  (∀ i a e rest, agents s !! i = Some a → pump a = Some (Delivering e rest) →
     ∀ x, x ∈ q_entries (queue s) → token x < token e → token x ∈ served s).
Proof.
  intros Hr. destruct (streams_reachable_inv s Hr) as [Hc Ha]. split; [apply Hc|].
  intros i a e rest Hi Hp x Hx Hlt. destruct (Ha i a Hi) as [_ Hw]. rewrite Hp in Hw.
  assert (Hbe := window_before s (token x) e rest Hw). apply Hbe; [|done|lia]. pose proof (entry_positive _ _ Hx). lia.
Qed.
End invariant.

(** ** An agent goes on polling, and stops *)

Section lifecycle.
Context {Q : Type} `{PullableQueue Q}.

(** What becomes of an agent; the queue is any, at every step. *)
Inductive life : QueuePullingAgent → Prop :=
  | life_new options : life (new_agent options)
  | life_step a l (q : Q) : life a → life (agent_step l q a).1.2.

(** Of an agent that was started once at most. *)
Record first_life (a : QueuePullingAgent) : Prop := {
  fl_timer : timer a = true → running a = true ∧ pump a = None;
  fl_inflight : pump a ≠ None → inflight a = true;
  fl_stopping : (0 < stopping a)%nat → running a = false ∧ pump a ≠ None;
  fl_stopped : (0 < stopped a)%nat → running a = false ∧ pump a = None;
  fl_fresh : starts a = 0%nat → running a = false ∧ pump a = None }.

Record life_ok (a : QueuePullingAgent) : Prop := {
  li_polls : running a = true → timer a = true ∨ pump a ≠ None;
  li_first : (starts a <= 1)%nat → first_life a }.

Lemma pump_ends_life a : life_ok a → pump a ≠ None → life_ok (pump_ends a).
Proof.
  intros [H1 H2] Hp. unfold pump_ends, schedule. simpl. destruct (running a) eqn:Hr; split; simpl; rewrite ?Hr; auto;
    intros [L1 L2 L3 L4 L5]%H2; split; simpl; rewrite ?Hr; try done; try lia; intros Hx.
  - assert (stopped a = 0 ∧ stopping a = 0)%nat as [E1 E2]; [|lia]. rewrite Hr in L3, L4. split.
    + destruct (stopped a); [done|]. destruct L4; [lia|done].
    + destruct (stopping a); [done|]. destruct L3; [lia|done].
  - by destruct (L5 Hx).
  - rewrite Hr in L1. by destruct (L1 Hx).
Qed.

Lemma life_pump a p : life_ok a → pump a ≠ None → life_ok (with_pump (Some p) a).
Proof.
  intros [H1 H2] Hp. split; simpl; [by right|]. intros [L1 L2 L3 L4 L5]%H2. split; simpl; auto.
  - intros Ht. by destruct (L1 Ht).
  - intros Hs. by destruct (L3 Hs).
  - intros Hs. by destruct (L4 Hs).
  - intros Hs. by destruct (L5 Hs).
Qed.

Lemma life_cursor a c : life_ok a → life_ok (with_cursor c a).
Proof. intros [H1 H2]. split; simpl; [done|]. intros [L1 L2 L3 L4 L5]%H2. by split. Qed.

Lemma pump_next_life a es : life_ok a → pump a ≠ None → life_ok (pump_next es a).
Proof.
  intros Ha Hp. unfold pump_next. destruct es; [by apply pump_ends_life|].
  destruct (running a); [by apply life_pump|by apply pump_ends_life].
Qed.

Lemma start_life a : life_ok a → life_ok (start a).
Proof.
  intros [H1 H2]. unfold start. destruct (running a) eqn:Hr; [by split; rewrite ?Hr|]. split; simpl; [by left|].
  intros Hs. destruct (H2 ltac:(lia)) as [L1 L2 L3 L4 L5]. destruct (L5 ltac:(lia)) as [_ Hp].
  split; simpl; auto; try lia. intros Hst. by destruct (L3 Hst).
Qed.

Lemma stop_life a : life_ok a → life_ok (stop a).
Proof.
  intros [H1 H2]. unfold stop. simpl. destruct (inflight a && _) eqn:Hi; split; simpl; try done; intros [L1 L2 L3 L4 L5]%H2.
  - apply andb_prop in Hi as [_ Hp%bool_decide_eq_true_1]. split; simpl; auto; try done.
    + intros Hs. by destruct (L4 Hs).
    + intros Hs. by destruct (L5 Hs).
  - assert (Hp : pump a = None).
    { destruct (pump a) eqn:Hp; [|done]. rewrite (L2 ltac:(done)) in Hi. by rewrite bool_decide_true in Hi. }
    split; simpl; auto; try done. intros Hs. by destruct (L3 Hs).
Qed.

Lemma timer_life a : life_ok a → timer a = true → life_ok (timer_fires a).
Proof.
  intros [H1 H2] Ht. unfold timer_fires. simpl. destruct (pump a) eqn:Hp; [|destruct (running a) eqn:Hr].
  - split; simpl; rewrite ?Hp; [by right|]. intros [L1 _ _ _ _]%H2. destruct (L1 Ht). congruence.
  - split; simpl; [by right|]. intros [L1 L2 L3 L4 L5]%H2. rewrite Hr in *. split; simpl; try done.
    + intros Hs. by destruct (L3 Hs).
    + intros Hs. by destruct (L4 Hs).
    + intros Hs. by destruct (L5 Hs).
  - split; simpl; rewrite ?Hr, ?Hp; [done|]. intros [L1 _ _ _ _]%H2. destruct (L1 Ht). congruence.
Qed.

Lemma agent_step_life a l (q : Q) : life_ok a → life_ok (agent_step l q a).1.2.
Proof.
  intros Ha. unfold agent_step. destruct l as [| | | |fails|fails|fate|f|f].
  - by apply start_life.
  - by apply stop_life.
  - by apply life_cursor.
  - destruct (timer a) eqn:Ht; [by apply timer_life|done].
  - destruct (pump a) as [[]|] eqn:Hp; try done. destruct fails; simpl; [by apply pump_ends_life; rewrite ?Hp|].
    apply life_pump; [by apply life_cursor|]. simpl. by rewrite Hp.
  - destruct (pump a) as [[]|] eqn:Hp; try done. destruct fails; simpl; [by apply pump_ends_life; rewrite ?Hp|].
    destruct (readAfter _ _ q). apply pump_next_life; [done|]. by rewrite Hp.
  - destruct (pump a) as [[]|] eqn:Hp; try by destruct fate as [[]|].
    assert (Hends : life_ok (pump_ends a)) by (apply pump_ends_life; by rewrite ?Hp).
    destruct fate as [[|t| |]|]; try done; simpl; [|destruct (running a); [|done]].
    + apply life_pump; [by apply life_cursor|]. simpl. by rewrite Hp.
    + apply life_pump; [done|]. by rewrite Hp.
  - destruct (pump a) as [[]|] eqn:Hp; try done. simpl.
    destruct f; [by apply pump_next_life; rewrite ?Hp|by apply pump_ends_life; rewrite ?Hp..].
  - destruct (pump a) as [[]|] eqn:Hp; try done. simpl.
    apply pump_ends_life; destruct f; simpl; rewrite ?Hp; try done. by apply life_cursor.
Qed.

Lemma life_is_ok a : life a → life_ok a.
Proof. induction 1 as [options|a l q _ IH]; [|by apply agent_step_life].
  split; simpl; [done|]. intros _. split; simpl; (done || lia). Qed.

(** An agent that runs goes on polling whatever fails: its timer is set, or its
    pump is under way and sets it when it ends. And an agent that was started once
    is at rest when [stop] returns: no timer, no pump, so that the client of its
    queue may be closed. *)
Theorem agent_polls_until_stopped a : life a →
  (running a = true → timer a = true ∨ pump a ≠ None) ∧
  ((starts a <= 1)%nat → (0 < stopped a)%nat → running a = false ∧ timer a = false ∧ pump a = None).
Proof.
  intros [H1 H2]%life_is_ok. split; [done|]. intros [L1 L2 L3 L4 L5]%H2 Hs. destruct (L4 Hs) as [Hr Hp].
  repeat split; [done| |done]. destruct (timer a); [|done]. destruct L1; [done|]. congruence.
Qed.
End lifecycle.

(** ** With nothing failing, all is served *)

Section progress.
Context {Q : Type} `{PullableQueueLaws Q}.
Implicit Types s : @System Q.

Definition sys_run (i : nat) (ls : list Label) (s : @System Q) : @System Q := fold_left (λ s l, sys_step i l s) ls s.
Definition succeeds (l : Label) : Prop :=
  l ∈ [TimerFires; CursorReturns false; ReadReturns false; DeliverReturns (Some AllServed); CommitReturns NoFault].

Record idle (a : QueuePullingAgent) : Prop := { id_running : running a = true; id_timer : timer a = true; id_pump : pump a = None }.

(** After the labels, the agent waits for its next poll, its cursor at [c]. *)
Record polled s (i n : nat) (c : Z) (s' : @System Q) : Prop := {
  po_entries : q_entries (queue s') = q_entries (queue s);
  po_served : ∀ t, t ∈ served s → t ∈ served s';
  po_agent : ∃ a, agents s' !! i = Some a ∧ idle a ∧ batchSize a = n ∧ cursor a = Some c;
  po_committed : c <= getCursor (queue s') }.

Lemma sys_step_eq s i a l q a' e : agents s !! i = Some a → agent_step l (queue s) a = (q, a', e) →
  sys_step i l s = mkSystem q (<[i := a']> (agents s)) (served s ++ match e with Some e => [token e] | None => [] end).
Proof. intros Hi Hs. unfold sys_step. by rewrite Hi, Hs. Qed.

Lemma pump_ends_idle a : running a = true → idle (pump_ends a) ∧ batchSize (pump_ends a) = batchSize a ∧ cursor (pump_ends a) = cursor a.
Proof. intros Hr. unfold pump_ends, schedule. simpl. rewrite Hr. by repeat split. Qed.

(** An entry is delivered and committed, and the loop goes on. *)
Lemma serve_one s i a e rest : agents s !! i = Some a → running a = true → pump a = Some (Delivering e rest) →
  let a' := pump_next rest (with_pump (Some (Committing e rest)) (with_cursor (Some (token e)) a)) in
  let s' := sys_run i [DeliverReturns (Some AllServed); CommitReturns NoFault] s in
  queue s' = commit (token e) (queue s) ∧ agents s' !! i = Some a' ∧ served s' = served s ++ [token e].
Proof.
  intros Hi Hr Hp. assert (Hlen := lookup_lt_Some _ _ _ Hi). simpl.
  rewrite (sys_step_eq s i a _ (queue s) (with_pump (Some (Committing e rest)) (with_cursor (Some (token e)) a)) (Some e)) by (done || (simpl; by rewrite Hp)).
  erewrite sys_step_eq; [|simpl; by apply list_lookup_insert_eq|simpl; done]. simpl.
  split; [done|]. split; [rewrite list_insert_insert_eq; by apply list_lookup_insert_eq|]. by rewrite app_nil_r.
Qed.

Lemma serve_batch i rest : ∀ e s a, agents s !! i = Some a → running a = true → pump a = Some (Delivering e rest) →
  ascending (e :: rest) →
  ∃ ls c, Forall succeeds ls ∧ polled s i (batchSize a) c (sys_run i ls s) ∧
    (∀ x, x ∈ e :: rest → token x ∈ served (sys_run i ls s)) ∧ ∃ x, x ∈ e :: rest ∧ token x = c.
Proof.
  induction rest as [|e' rest IH]; intros e s a Hi Hr Hp Ha;
    set (s1 := sys_run i [DeliverReturns (Some AllServed); CommitReturns NoFault] s);
    destruct (serve_one s i a e _ Hi Hr Hp) as (Hq & Hi1 & Hs); fold s1 in Hq, Hi1, Hs;
    destruct (pq_commit (token e) (queue s)) as [Hqe Hqc];
    assert (Hok : Forall succeeds [DeliverReturns (Some AllServed); CommitReturns NoFault])
      by (repeat constructor; unfold succeeds; set_solver).
  - simpl in Hi1. exists [DeliverReturns (Some AllServed); CommitReturns NoFault], (token e). fold s1.
    set (a1 := with_pump (Some (Committing e [])) (with_cursor (Some (token e)) a)) in *.
    destruct (pump_ends_idle a1 Hr) as (Hid & Hb & Hc). split; [done|]. split; [split|split].
    + by rewrite Hq.
    + intros t Ht. rewrite Hs. apply elem_of_app. by left.
    + by exists (pump_ends a1).
    + rewrite Hq. destruct Hqc as [->|[-> ?]]; lia.
    + intros x ->%list_elem_of_singleton. rewrite Hs. apply elem_of_app. right. by left.
    + exists e. by split; [left|].
  - simpl in Hi1. rewrite Hr in Hi1. inversion Ha as [|? ? Ha' Hf]; subst.
    edestruct (IH e' s1 _ Hi1) as (ls & c & Hls & [Pe Ps Pa Pc] & Hx & x & Hin & Htx); [done..|].
    exists ([DeliverReturns (Some AllServed); CommitReturns NoFault] ++ ls), c.
    unfold sys_run. rewrite fold_left_app. fold (sys_run i [DeliverReturns (Some AllServed); CommitReturns NoFault] s). fold s1.
    fold (sys_run i ls s1). split; [by apply Forall_app|]. split; [split|split].
    + by rewrite Pe, Hq.
    + intros t Ht. apply Ps. rewrite Hs. apply elem_of_app. by left.
    + done.
    + done.
    + intros y [->|Hy]%elem_of_cons; [|by apply Hx]. apply Ps. rewrite Hs. apply elem_of_app. right. by left.
    + exists x. split; [by right|done].
Qed.
(** From its timer to the answer of its read. *)
Lemma poll_read s i a : agents s !! i = Some a → idle a → let c := default (getCursor (queue s)) (cursor a) in
  ∃ ls a1, Forall succeeds ls ∧ running a1 = true ∧ batchSize a1 = batchSize a ∧ cursor a1 = Some c ∧
    sys_run i ls s = mkSystem (readAfter c (batchSize a) (queue s)).1
      (<[i := pump_next (readAfter c (batchSize a) (queue s)).2 a1]> (agents s)) (served s).
Proof.
  intros Hi [Hr Ht Hp] c. assert (Hlen := lookup_lt_Some _ _ _ Hi).
  set (a0 := with_inflight true (with_pump (Some (Reading c)) (with_timer false a))).
  assert (Hread : ∀ s0 a1, queue s0 = queue s → agents s0 = <[i := a1]> (agents s) → served s0 = served s →
    pump a1 = Some (Reading c) → batchSize a1 = batchSize a →
    sys_run i [ReadReturns false] s0 = mkSystem (readAfter c (batchSize a) (queue s)).1
      (<[i := pump_next (readAfter c (batchSize a) (queue s)).2 a1]> (agents s)) (served s)).
  { intros s0 a1 Hq Hg Hs Hp1 Hb1. destruct (readAfter c (batchSize a) (queue s)) as [q es] eqn:Hra. simpl.
    erewrite (sys_step_eq s0 i a1 _ q _ None); [|by rewrite Hg; apply list_lookup_insert_eq|simpl; by rewrite Hp1, Hb1, Hq, Hra].
    by rewrite Hg, Hs, app_nil_r, list_insert_insert_eq. }
  assert (Htimer : ∀ a2, timer_fires a = a2 → sys_step i TimerFires s = mkSystem (queue s) (<[i := a2]> (agents s)) (served s)).
  { intros a2 Ha2. rewrite (sys_step_eq s i a _ (queue s) a2 None) by (done || (simpl; by rewrite Ht, Ha2)). by rewrite app_nil_r. }
  destruct (cursor a) as [c0|] eqn:Hc; simpl in c.
  - exists [TimerFires; ReadReturns false], a0. split; [repeat constructor; unfold succeeds; set_solver|].
    split; [done|]. split; [done|]. split; [exact Hc|].
    change [TimerFires; ReadReturns false] with ([TimerFires] ++ [ReadReturns false]).
    unfold sys_run. rewrite fold_left_app. simpl. rewrite (Htimer a0).
    + by apply (Hread _ a0).
    + unfold timer_fires. simpl. by rewrite Hp, Hr, Hc.
  - exists [TimerFires; CursorReturns false; ReadReturns false], (with_pump (Some (Reading c)) (with_cursor (Some c) a0)).
    split; [repeat constructor; unfold succeeds; set_solver|]. split; [done|]. split; [done|]. split; [done|].
    change [TimerFires; CursorReturns false; ReadReturns false] with ([TimerFires; CursorReturns false] ++ [ReadReturns false]).
    unfold sys_run. rewrite fold_left_app. simpl.
    set (a00 := with_inflight true (with_pump (Some GettingCursor) (with_timer false a))). rewrite (Htimer a00).
    + erewrite (sys_step_eq _ i a00 (CursorReturns false)); [|simpl; by apply list_lookup_insert_eq|done]. simpl. rewrite list_insert_insert_eq, app_nil_r.
      by apply (Hread _ (with_pump (Some (Reading c)) (with_cursor (Some c) a0))).
    + unfold timer_fires. simpl. by rewrite Hp, Hr, Hc.
Qed.

Lemma later_fewer (l : list QueueEntry) y c : y ∈ l → c < token y →
  (length (filter (λ e, (token y < token e)%Z) l) < length (filter (λ e, (c < token e)%Z) l))%nat.
Proof.
  intros Hy Hc. assert (Hle : ∀ l : list QueueEntry,
    (length (filter (λ e, (token y < token e)%Z) l) <= length (filter (λ e, (c < token e)%Z) l))%nat).
  { induction l0 as [|e l0 IH]; [done|]. rewrite !filter_cons. repeat case_decide; simpl; lia. }
  induction Hy as [z l|z x l Hy IH]; rewrite !filter_cons.
  - specialize (Hle l). repeat case_decide; simpl; lia.
  - specialize (IH Hc Hle). repeat case_decide; simpl; lia.
Qed.

Lemma polls_to_end k : ∀ s i a, agents s !! i = Some a → idle a → (1 <= batchSize a)%nat →
  let c := default (getCursor (queue s)) (cursor a) in
  0 <= c → (∀ x, x ∈ q_entries (queue s) → token x <= c → token x ∈ served s) →
  (length (filter (λ e, (c < token e)%Z) (q_entries (queue s))) <= k)%nat →
  ∃ ls, Forall succeeds ls ∧ let s' := sys_run i ls s in
    q_entries (queue s') = q_entries (queue s) ∧
    (∀ e, e ∈ q_entries (queue s) → token e ∈ served s') ∧
    (c <= getCursor (queue s) ∨ (∃ e, e ∈ q_entries (queue s) ∧ c < token e) →
     ∀ e, e ∈ q_entries (queue s) → token e <= getCursor (queue s')).
Proof.
  induction k as [|k IH]; intros s i a Hi Hid Hb c Hc0 Hsv Hk;
    assert (Hl : ∀ e, e ∈ filter (λ e, c < token e) (q_entries (queue s)) ↔ c < token e ∧ e ∈ q_entries (queue s))
      by (intros e; by rewrite list_elem_of_filter).
  - exists []. split; [done|]. simpl. split; [done|].
    assert (Hall : ∀ e, e ∈ q_entries (queue s) → token e <= c).
    { intros e He. destruct (decide (token e <= c)) as [?|Hn]; [done|]. destruct (filter _ _) eqn:Hf; [|simpl in Hk; lia].
      destruct (not_elem_of_nil e). apply Hl. split; [lia|done]. }
    split; [intros e He; apply Hsv; [done|by apply Hall]|]. intros Hle e He.
    destruct Hle as [Hle|(x & Hx & Hcx)]; [specialize (Hall e He)|specialize (Hall x Hx)]; lia.
  - destruct (poll_read s i a Hi Hid) as (ls & a1 & Hls & Hr1 & Hb1 & Hc1 & Hrun). fold c in Hc1, Hrun.
    destruct (pq_read_entries c (batchSize a) (queue s)) as [Hq Hcur]. rewrite (pq_read c _ (queue s) Hc0) in Hrun.
    set (l := filter (λ e, c < token e) (q_entries (queue s))) in *.
    assert (Ha : ascending l) by (apply ascending_filter, pq_ascending).
    destruct (take (batchSize a) l) as [|e rest] eqn:Hbatch.
    { assert (Hl0 : l = []) by (destruct l; [done|]; by destruct (batchSize a); [lia|]).
      apply (IH s i a Hi Hid Hb Hc0 Hsv). fold c l. rewrite Hl0. simpl. lia. }
    assert (Hin : ∀ x, x ∈ e :: rest → x ∈ l) by (intros x Hx; rewrite <- (take_drop (batchSize a) l), Hbatch; apply elem_of_app; by left).
    set (s1 := sys_run i ls s) in *. simpl in Hrun. rewrite Hr1 in Hrun.
    destruct (serve_batch i rest e s1 (with_pump (Some (Delivering e rest)) a1)) as (ls2 & c' & Hls2 & [Pe Ps Pa Pc] & Hx & y & Hy & Htoy).
    { rewrite Hrun. simpl. apply list_lookup_insert_eq. by eapply lookup_lt_Some. }
    { done. } { done. } { rewrite <- Hbatch. by apply ascending_take. }
    destruct Pa as (a' & Hi' & Hid' & Hb' & Hc'). set (s2 := sys_run i ls2 s1) in *.
    assert (Hqe : q_entries (queue s2) = q_entries (queue s)) by (rewrite Pe, Hrun; done).
    assert (Hcc : c < c') by (rewrite <- Htoy; by apply Hl, Hin).
    assert (Hsv' : ∀ x, x ∈ q_entries (queue s2) → token x <= c' → token x ∈ served s2).
    { intros x Hx0 Hle. rewrite Hqe in Hx0. destruct (decide (token x <= c)) as [Hxc|Hxc].
      { apply Ps. rewrite Hrun. by apply Hsv. }
      destruct (decide (token x = token y)) as [->|Hne]; [by apply Hx|]. apply Hx. rewrite <- Hbatch.
      apply (ascending_order l x y Ha); [apply (proj2 (Hl x)); split; [lia|done]|by apply Hin|lia|by rewrite Hbatch]. }
    assert (Hdef : default (getCursor (queue s2)) (cursor a') = c') by (by rewrite Hc').
    destruct (IH s2 i a' Hi' Hid') as (ls3 & Hls3 & E1 & E2 & E3); rewrite ?Hdef, ?Hqe in *; try done.
    { rewrite Hb'. simpl. lia. } { lia. }
    { pose proof (later_fewer _ y c (proj2 (proj1 (Hl y) (Hin y Hy))) ltac:(lia)) as Hlt. rewrite Htoy in Hlt. fold l in Hlt. lia. }
    exists (ls ++ ls2 ++ ls3). split; [by repeat apply Forall_app_2|]. unfold sys_run. rewrite !fold_left_app.
    fold (sys_run i ls s). fold s1. fold (sys_run i ls2 s1). fold s2. fold (sys_run i ls3 s2).
    split; [by rewrite E1|]. split; [done|]. intros _. apply E3. by left.
Qed.

(** C23: Delivery goes on to the end of the queue. An agent between two polls -
    the queue's owner since its first event, a successor that never read the
    cursor, one that failed before - serves every entry of the queue if nothing
    fails from then on, whatever its batches (of one entry at least). It commits
    all of it too, if an entry is left after its cursor or its cursor is not beyond
    the committed one. An agent that has nothing left to read commits nothing more:
    what is committed stays behind it until the next entry, if one of its commits
    failed ([Runs.failed_commit_is_kept_back]) or the late commit of an agent that
    was stopped took the committed cursor back ([Runs.stale_commit_goes_back]). *)
Theorem agent_catches_up s i a : reachable s → agents s !! i = Some a → idle a → (1 <= batchSize a)%nat →
  ∃ ls, Forall succeeds ls ∧ let s' := sys_run i ls s in
    q_entries (queue s') = q_entries (queue s) ∧
    (∀ e, e ∈ q_entries (queue s) → token e ∈ served s') ∧
    (default 0 (cursor a) <= getCursor (queue s) ∨ (∃ e, e ∈ q_entries (queue s) ∧ default 0 (cursor a) < token e) →
     ∀ e, e ∈ q_entries (queue s) → token e <= getCursor (queue s')).
Proof.
  intros Hr Hi Hid Hb. destruct (streams_reachable_inv s Hr) as [Hc Ha]. destruct (Ha i a Hi) as [Hcur _].
  assert (Hcov : covered s (default (getCursor (queue s)) (cursor a))) by (destruct (cursor a) eqn:Hca; [by apply Hcur|done]).
  destruct (polls_to_end _ s i a Hi Hid Hb (cv_nonneg _ _ Hcov) (cv_served _ _ Hcov) (le_n _)) as (ls & Hls & E1 & E2 & E3).
  exists ls. split; [done|]. split; [done|]. split; [done|]. intros Hle. apply E3.
  destruct (cursor a); simpl in *; [exact Hle|by left].
Qed.
End progress.

(** ** Concrete agents *)
Module Runs.

Abbreviation System := (@System GeneratorStreamQueue.t).

Definition generator (events : Z) : GeneratorStreamQueue.t := GeneratorStreamQueue.mk "ticks" events None 0 "u1".
Definition start_state (events : Z) (batches : list nat) : System :=
  mkSystem (generator events) ((λ n, new_agent (Some n)) <$> batches) [].

(** Neither a rewind nor a call the model does not know. *)
Definition plain (l : Label) : bool := match l with DeliverReturns (Some (RewindTo _)) => false | _ => true end.

Lemma start_state_reachable events batches : reachable (start_state events batches).
Proof.
  assert (Hr : ∀ l l', reachable (mkSystem (generator events) ((λ n, new_agent (Some n)) <$> l) []) →
    reachable (mkSystem (generator events) ((λ n, new_agent (Some n)) <$> (l ++ l')) ([] : list Z))).
  { intros l l'. revert l. induction l' as [|n l' IH]; intros l Hl; [by rewrite app_nil_r|].
    rewrite cons_middle, app_assoc. apply IH. eapply reachable_step; [exact Hl|]. rewrite fmap_app. exact (step_join (mkSystem _ _ _) (Some n)). }
  apply (Hr [] batches). constructor. split; simpl; [done|by left|]. intros e He Hle. pose proof (entry_positive _ _ He). lia.
Qed.

Lemma run_reachable (ils : list (nat * Label)) (s : System) : reachable s → forallb (λ il, plain il.2) ils = true →
  reachable (fold_left (λ s il, sys_step il.1 il.2 s) ils s).
Proof.
  revert s. induction ils as [|[i l] ils IH]; intros s Hs; [done|]. simpl. intros [Hp Hps]%andb_prop. apply IH; [|done].
  destruct (agents s !! i) as [a|] eqn:Ha; [|unfold sys_step; by rewrite Ha].
  eapply reachable_step; [exact Hs|]. eapply step_agent; [done|]. unfold label_ok. by destruct l as [| | | | | |[[]|]| |].
Qed.

Definition run (ils : list (nat * Label)) (s : System) : System := fold_left (λ s il, sys_step il.1 il.2 s) ils s.
Definition acts (i : nat) (ls : list Label) : list (nat * Label) := pair i <$> ls.
Definition to_read (i : nat) : list (nat * Label) := acts i [Start; TimerFires; CursorReturns false; ReadReturns false].
Definition serve (i : nat) : list (nat * Label) := acts i [DeliverReturns (Some AllServed); CommitReturns NoFault].

(** The second agent takes over while the first, stopped, still delivers. *)
Definition handover : list (nat * Label) := to_read 0 ++ [(0%nat, Stop)] ++ to_read 1 ++ serve 1.

Lemma at_least_once_witness :
  let s := run handover (start_state 3 [2%nat; 2%nat]) in
  getCursor (queue s) = 1 ∧ served s = [1] ∧
  (∀ e, e ∈ q_entries (queue s) → token e <= getCursor (queue s) → token e ∈ served s) ∧
  (∀ i a e rest, agents s !! i = Some a → pump a = Some (Delivering e rest) →
     ∀ x, x ∈ q_entries (queue s) → token x < token e → token x ∈ served s).
Proof.
  intros s. split; [reflexivity|]. split; [reflexivity|].
  apply (at_least_once s). apply (run_reachable handover); [apply start_state_reachable|reflexivity].
Defined.

Definition once_stopped : QueuePullingAgent :=
  (agent_step (DeliverReturns None) (generator 3) (agent_step Stop (generator 3)
    (agent_step (ReadReturns false) (generator 3) (agent_step (CursorReturns false) (generator 3)
      (agent_step TimerFires (generator 3) (agent_step Start (generator 3) (new_agent None)).1.2).1.2).1.2).1.2).1.2).1.2.

Lemma agent_polls_until_stopped_witness :
  starts once_stopped = 1%nat ∧ stopped once_stopped = 1%nat ∧
  (running once_stopped = true → timer once_stopped = true ∨ pump once_stopped ≠ None) ∧
  ((starts once_stopped <= 1)%nat → (0 < stopped once_stopped)%nat →
    running once_stopped = false ∧ timer once_stopped = false ∧ pump once_stopped = None).
Proof.
  split; [reflexivity|]. split; [reflexivity|]. apply (agent_polls_until_stopped (Q := GeneratorStreamQueue.t) once_stopped).
  unfold once_stopped. do 6 apply life_step. constructor.
Defined.

Lemma agent_catches_up_witness :
  let s := run [(0%nat, Start)] (start_state 5 [2%nat]) in
  ∃ a, agents s !! 0%nat = Some a ∧
  ∃ ls, Forall succeeds ls ∧ let s' := sys_run 0 ls s in
    q_entries (queue s') = q_entries (queue s) ∧
    (∀ e, e ∈ q_entries (queue s) → token e ∈ served s') ∧
    (default 0 (cursor a) <= getCursor (queue s) ∨ (∃ e, e ∈ q_entries (queue s) ∧ default 0 (cursor a) < token e) →
     ∀ e, e ∈ q_entries (queue s) → token e <= getCursor (queue s')).
Proof.
  intros s. exists (start (new_agent (Some 2%nat))). split; [reflexivity|].
  apply (agent_catches_up s 0 (start (new_agent (Some 2%nat)))).
  - apply (run_reachable [(0%nat, Start)]); [apply start_state_reachable|reflexivity].
  - reflexivity.
  - split; reflexivity.
  - simpl. lia.
Defined.

(** The generator's commits are not monotonic: the late commit of an agent that
    was stopped takes back the ones of its successor. *)
Lemma stale_commit_goes_back :
  let s := run (handover ++ serve 1) (start_state 3 [2%nat; 2%nat]) in
  getCursor (queue s) = 2 ∧ getCursor (queue (run (serve 0) s)) = 1.
Proof. by vm_compute. Qed.

(** A commit that fails is not repeated: the next poll goes on from the cached
    cursor, and a successor serves the entry again. *)
Lemma failed_commit_is_kept_back :
  let s := run (to_read 0 ++ acts 0 [DeliverReturns (Some AllServed); CommitReturns FailBefore; TimerFires; ReadReturns false])
    (start_state 1 [2%nat; 2%nat]) in
  getCursor (queue s) = 0 ∧ served s = [1] ∧ served (run (to_read 1 ++ serve 1) s) = [1; 1].
Proof. by vm_compute. Qed.

(** The queue is configured anew, and the cached cursor forgotten, while an entry
    is being delivered: its commit is one of the new stream, whose first entries
    no one serves. *)
Lemma reconfigured_stream_is_skipped :
  let s := run (to_read 0 ++ serve 0) (start_state 4 [4%nat]) in
  let s := mkSystem (GeneratorStreamQueue.reconfigure "fresh" 3 "u2" (queue s)) (agents s) (served s) in
  let s := run (acts 0 [ResetCursor; DeliverReturns (Some AllServed); CommitReturns NoFault;
                              DeliverReturns None; TimerFires; ReadReturns false]) s in
  getCursor (queue s) = 2 ∧
  (a ← agents s !! 0%nat; pump a) = Some (Delivering (mkEntry 3 "fresh/u2" "report") []).
Proof. by vm_compute. Qed.

(** Stopped, started and stopped again around one delivery, the second [stop]
    returns at once: the timer of the restart put a pump that did nothing in the
    place of the one that is under way. *)
Lemma restarted_agent_stops_early :
  let s := run (to_read 0 ++ acts 0 [Stop; Start; TimerFires; Stop]) (start_state 4 [4%nat]) in
  option_map (λ a, (starts a, stopped a)) (agents s !! 0%nat) = Some (2%nat, 1%nat) ∧
  (a ← agents s !! 0%nat; pump a) ≠ None.
Proof. by vm_compute. Qed.

(** A consumer that resumes from after the entry it was given skips entries. *)
Lemma rewind_forward_skips :
  let s := run (to_read 0 ++ acts 0 [DeliverReturns (Some (RewindTo 2)); SeekReturns NoFault]) (start_state 3 [4%nat]) in
  getCursor (queue s) = 2 ∧ served s = [].
Proof. by vm_compute. Qed.
End Runs.
