(* ===== verification/StreamProvider.v ===== *)
(** * The pulling stream provider of a silo

    Models [packages/streams/src/queue-ownership.ts], [pulling-stream-provider-core.ts]
    (PullingStreamProviderCore, PullingStream, PullingSubscription) and
    [stream-producer-registry.ts].

    The silo's agents are those of [StreamAgent], one for each queue whose ring
    point falls in the silo's arcs ([HashRing]); the subscription registry is a
    store the provider is given, here a type class with what its operations
    promise. *)
From Stdlib Require Import String.
From stdpp Require Import prelude gmap strings list.
From S2P Require Import Prelude Ids HashRing StreamDelivery StreamAgent.
Open Scope Z_scope.

(** ** Who owns a queue *)

Definition queueRingHash (providerName : string) (index : nat) : Z :=
  stableHash32 (providerName +:+ ":queue:" +:+ bigint_toString (Z.of_nat index))%string.
Definition ownedQueueIndices (providerName : string) (queueCount : nat) (ranges : list HashRange) : list nat :=
  filter (λ i, isHashInRanges (queueRingHash providerName i) ranges = true) (seq 0 queueCount).

(** ** Options *)

Definition validateQueueCount (queueCount : option Z) : option Z :=
  match queueCount with
  | Some n => if bool_decide (n < 1) then None else Some n
  | None => Some 8
  end.
Definition validatePollIntervalMs (pollIntervalMs : option Z) : option Z :=
  match pollIntervalMs with
  | Some ms => if bool_decide (ms < 0) then None else Some ms
  | None => Some 50
  end.

(** ** The provider *)

Record PullingStreamProviderCore := mkProvider {
  name : string;
  physicalQueueCount : nat;
  pollIntervalMs : Z;
  agents : gmap nat QueuePullingAgent;
  (** The agents that were told to stop and are no longer known here. *)
  dropped : list (nat * QueuePullingAgent);
  stopped : bool }.

(** None: the options are refused. *)
Definition new_provider (name : string) (queues : nat) (poll : option Z) : option PullingStreamProviderCore :=
  ms ← validatePollIntervalMs poll; Some (mkProvider name queues ms ∅ [] false).

Definition startAgentsFor (indices : list nat) (p : PullingStreamProviderCore) : PullingStreamProviderCore :=
  if stopped p then p
  else
    let kept := filter (λ ia : nat * QueuePullingAgent, ia.1 ∈ indices) (agents p) in
    let gone := filter (λ ia : nat * QueuePullingAgent, ia.1 ∉ indices) (agents p) in
    let fresh := list_to_map ((λ i, (i, start (new_agent None))) <$> indices) in
    mkProvider (name p) (physicalQueueCount p) (pollIntervalMs p) (kept ∪ fresh)
      (dropped p ++ map_to_list (stop <$> gone)) false.
Definition refreshOwnership (ranges : list HashRange) (p : PullingStreamProviderCore) : PullingStreamProviderCore :=
  startAgentsFor (ownedQueueIndices (name p) (physicalQueueCount p) ranges) p.
(** [stop]: what is left is to wait for the agents that were running. *)
Definition stop_provider (p : PullingStreamProviderCore) : PullingStreamProviderCore :=
  mkProvider (name p) (physicalQueueCount p) (pollIntervalMs p) ∅ (dropped p ++ map_to_list (stop <$> agents p)) true.

(** An agent takes a step of [StreamAgent], known to the provider or not. *)
Definition agent_moves {Q} `{PullableQueue Q} (i : nat) (l : Label) (q : Q) (p : PullingStreamProviderCore) : PullingStreamProviderCore :=
  mkProvider (name p) (physicalQueueCount p) (pollIntervalMs p) (alter (λ a, (agent_step l q a).1.2) i (agents p)) (dropped p) (stopped p).
Definition dropped_moves {Q} `{PullableQueue Q} (n : nat) (l : Label) (q : Q) (p : PullingStreamProviderCore) : PullingStreamProviderCore :=
  mkProvider (name p) (physicalQueueCount p) (pollIntervalMs p) (agents p)
    (alter (λ ia, (ia.1, (agent_step l q ia.2).1.2)) n (dropped p)) (stopped p).

(** ** Streams *)

Definition stream_key (namespace : string) (key : GrainKey) : string := (namespace +:+ "/" +:+ keyToString key)%string.
Definition queue_of (queueCount : Z) (streamKey : string) : Z := stableHash32 streamKey mod queueCount.

Class SubscriptionRegistry (R : Type) := {
  reg_subscribe : string → GrainId → R → R;
  reg_unsubscribe : string → GrainId → R → R;
  subscribers : string → R → list GrainId }.
Class SubscriptionRegistryLaws (R : Type) `{SubscriptionRegistry R} := {
  sr_subscribe k g r k' g' : g' ∈ subscribers k' (reg_subscribe k g r) ↔ (k' = k ∧ g' = g) ∨ g' ∈ subscribers k' r;
  sr_unsubscribe k g r k' g' : g' ∈ subscribers k' (reg_unsubscribe k g r) ↔ ¬ (k' = k ∧ g' = g) ∧ g' ∈ subscribers k' r }.

(** The activation a stream is bound to. *)
Record StreamActivationBinding := mkBinding { grainId : GrainId; handlers : gmap string string }.
Definition setHandler (k h : string) (b : StreamActivationBinding) : StreamActivationBinding := mkBinding (grainId b) (<[k := h]> (handlers b)).
Definition clearHandler (k : string) (b : StreamActivationBinding) : StreamActivationBinding := mkBinding (grainId b) (delete k (handlers b)).

Section streams.
Context {R : Type} `{SubscriptionRegistry R}.

Inductive StreamError := RequiresGrainActivation.

Definition subscribe (k handler : string) (b : option StreamActivationBinding) (r : R)
    : StreamError + (StreamActivationBinding * R) :=
  match b with
  | None => inl RequiresGrainActivation
  | Some b => inr (setHandler k handler b, reg_subscribe k (grainId b) r)
  end.
(** The handles of the subscriptions: of each, its stream. *)
Definition getSubscriptions (k : string) (b : option StreamActivationBinding) (r : R) : list string :=
  match b with
  | None => []
  | Some b => if existsb (λ g, GrainId_equals g (grainId b)) (subscribers k r) then [k] else []
  end.
Definition resume (k handler : string) (b : StreamActivationBinding) : StreamActivationBinding := setHandler k handler b.
Definition unsubscribe (k : string) (b : StreamActivationBinding) (r : R) : StreamActivationBinding * R :=
  (clearHandler k b, reg_unsubscribe k (grainId b) r).
End streams.

(** ** Producers *)
Module Producers.
Record t := mk { producers : gmap string (gset Z); nextId : Z }.
Definition empty : t := mk ∅ 0.
(** With the handle: its stream and its number. *)
Definition register (streamKey : string) (r : t) : t * (string * Z) :=
  let id := nextId r + 1 in
  (mk (<[streamKey := {[id]} ∪ default ∅ (producers r !! streamKey)]> (producers r)) id, (streamKey, id)).
(** The handle remembers that it unregistered: only its first call gets here. *)
Definition unregister (h : string * Z) (r : t) : t :=
  match producers r !! h.1 with
  | None => r
  | Some ids =>
      let rest := ids ∖ {[h.2]} in
      mk (if bool_decide (rest = ∅) then delete h.1 (producers r) else <[h.1 := rest]> (producers r)) (nextId r)
  end.
Definition producerCount (streamKey : string) (r : t) : nat := from_option size 0%nat (producers r !! streamKey).
End Producers.

(** ** The agents of a silo *)

Section provider.
Context {Q : Type} `{PullableQueue Q}.
Implicit Types p : PullingStreamProviderCore.

(** The provider starts an agent once, and stops it once. *)
Definition own_step (l : Label) : bool := match l with Start | Stop => false | _ => true end.

Inductive provider_step p : PullingStreamProviderCore → Prop :=
  | ps_agents indices : provider_step p (startAgentsFor indices p)
  | ps_refresh ranges : provider_step p (refreshOwnership ranges p)
  | ps_stop : provider_step p (stop_provider p)
  | ps_moves i l (q : Q) : own_step l = true → provider_step p (agent_moves i l q p)
  | ps_dropped n l (q : Q) : own_step l = true → provider_step p (dropped_moves n l q p).

Record provider_ok p : Prop := {
  pr_running : ∀ i a, agents p !! i = Some a → running a = true;
  pr_dropped : ∀ n i a, dropped p !! n = Some (i, a) → running a = false;
  pr_stopped : stopped p = true → agents p = ∅ }.

Lemma stop_running a : running (StreamAgent.stop a) = false.
Proof. unfold StreamAgent.stop. by case_match. Qed.
Lemma start_running a : running (start a) = true.
Proof. unfold start, schedule. destruct (running a) eqn:Hr; [done|]. simpl. done. Qed.

Lemma pump_ends_running a : running (pump_ends a) = running a.
Proof. unfold pump_ends, schedule. simpl. by destruct (running a) eqn:Hr. Qed.
Lemma pump_next_running es a : running (pump_next es a) = running a.
Proof. unfold pump_next. destruct es; [apply pump_ends_running|]. destruct (running a) eqn:Hr; [done|]. by rewrite pump_ends_running. Qed.

Lemma own_step_running l (q : Q) a : own_step l = true → running (agent_step l q a).1.2 = running a.
Proof.
  intros Hl. unfold agent_step. destruct l as [| | | |fails|fails|fate|f|f]; try done.
  - destruct (timer a); [|done]. unfold timer_fires. simpl. destruct (pump a); [done|]. by destruct (running a) eqn:Hr.
  - destruct (pump a) as [[]|]; try done. destruct fails; [apply pump_ends_running|done].
  - destruct (pump a) as [[]|]; try done. destruct fails; [apply pump_ends_running|].
    destruct (readAfter _ _ q). apply pump_next_running.
  - destruct (pump a) as [[]|]; try (by destruct fate as [[]|]). destruct fate as [[|t| |]|]; try done; try apply pump_ends_running.
    destruct (running a) eqn:Hr; [done|]. by transitivity (running a); [apply pump_ends_running|].
  - destruct (pump a) as [[]|]; try done. destruct f; [apply pump_next_running|apply pump_ends_running..].
  - destruct (pump a) as [[]|]; try done. transitivity (running (match f with NoFault => resetCursor a | _ => a end)); [apply pump_ends_running|by destruct f].
Qed.

Lemma fresh_agents (x : QueuePullingAgent) i (l : list nat) :
  (list_to_map ((λ i, (i, x)) <$> l) : gmap nat QueuePullingAgent) !! i = if bool_decide (i ∈ l) then Some x else None.
Proof.
  induction l as [|j l IH]; [done|]. simpl. destruct (decide (j = i)) as [->|Hne].
  - rewrite lookup_insert_eq, bool_decide_true by by left. done.
  - rewrite lookup_insert_ne by done. etransitivity; [apply IH|].
    apply (f_equal (λ b : bool, if b then _ else _)), bool_decide_ext. set_solver.
Qed.

(** Who has an agent once the provider was told its queues. *)
Lemma startAgentsFor_agents indices p i : stopped p = false →
  agents (startAgentsFor indices p) !! i =
    if bool_decide (i ∈ indices) then Some (default (start (new_agent None)) (agents p !! i)) else None.
Proof.
  intros Hs. unfold startAgentsFor. rewrite Hs. simpl. rewrite lookup_union, map_lookup_filter, fresh_agents. case_bool_decide as Hi; destruct (agents p !! i) as [a|] eqn:Ha; simpl; try done.
  - rewrite option_guard_True by done. by simpl.
  - rewrite option_guard_False by (simpl; tauto). done.
Qed.

Lemma stopped_agents_dropped (m : gmap nat QueuePullingAgent) i a : (i, a) ∈ map_to_list (StreamAgent.stop <$> m) → running a = false.
Proof. intros Hin%elem_of_map_to_list. apply lookup_fmap_Some in Hin as (b & <- & _). apply stop_running. Qed.

Lemma provider_step_ok p p' : provider_ok p → provider_step p p' → provider_ok p'.
Proof.
  intros Hok Hs. assert (Hagents : ∀ indices, provider_ok (startAgentsFor indices p)).
  { intros indices. destruct (stopped p) eqn:Hst; [by unfold startAgentsFor; rewrite Hst|]. split.
    - intros i a. rewrite startAgentsFor_agents by done. case_bool_decide; [|done]. intros [= <-].
      destruct (agents p !! i) as [b|] eqn:Hb; [by eapply pr_running|by apply start_running].
    - unfold startAgentsFor. rewrite Hst. simpl. intros n i a [Hn|[_ Hn]]%lookup_app_Some; [by eapply pr_dropped|].
      apply list_elem_of_lookup_2 in Hn. by eapply stopped_agents_dropped.
    - unfold startAgentsFor. by rewrite Hst. }
  destruct Hs as [indices|ranges| |i l q Hl|n l q Hl]; [apply Hagents|apply Hagents|..]; destruct Hok as [H1 H2 H3].
  - split; simpl; [by intros i a|intros n i a [Hn|[_ Hn]]%lookup_app_Some|done]; [by eapply H2|].
    apply list_elem_of_lookup_2 in Hn. by eapply stopped_agents_dropped.
  - split; simpl; [|done|].
    + intros j a Hj. rewrite lookup_alter in Hj. case_decide as Hij; [|by eapply H1].
      destruct (agents p !! i) as [b|] eqn:Hb; [|done]. injection Hj as <-. rewrite own_step_running by done. by eapply H1.
    + intros Hst. rewrite (H3 Hst). apply map_eq. intros j. destruct (decide (i = j)) as [->|Hne]; by simplify_map_eq.
  - split; simpl; [done| |done]. intros m i a Hm. rewrite list_lookup_alter in Hm. case_decide as Hnm; [|by eapply H2].
    destruct (dropped p !! n) as [[j b]|] eqn:Hb; [|done]. injection Hm as <- <-. rewrite own_step_running by done. by eapply H2.
Qed.
Inductive provider_reachable : PullingStreamProviderCore → Prop :=
  | pr_new name queues poll p : new_provider name queues poll = Some p → provider_reachable p
  | pr_step p p' : provider_reachable p → provider_step p p' → provider_reachable p'.

Lemma provider_reachable_ok p : provider_reachable p → provider_ok p.
Proof.
  induction 1 as [nm queues poll p Hp|p p' _ IH Hs]; [|by eapply provider_step_ok].
  unfold new_provider in Hp. destruct (validatePollIntervalMs poll); [|done]. injection Hp as <-. split; simpl; [done| |done].
  intros n i a Hn. by rewrite lookup_nil in Hn.
Qed.

Lemma owned_indices nm count ranges i : i ∈ ownedQueueIndices nm count ranges ↔
  (i < count)%nat ∧ isHashInRanges (queueRingHash nm i) ranges = true.
Proof. unfold ownedQueueIndices. rewrite list_elem_of_filter, elem_of_seq. split; intros [? ?]; (split; [|done]) || split; (done || lia). Qed.

Lemma refreshed_agents ranges p i : provider_ok p → stopped p = false →
  (∃ a, agents (refreshOwnership ranges p) !! i = Some a) ↔
    (i < physicalQueueCount p)%nat ∧ isHashInRanges (queueRingHash (name p) i) ranges = true.
Proof.
  intros Hok Hs. unfold refreshOwnership. rewrite startAgentsFor_agents by done. rewrite <- owned_indices.
  case_bool_decide as Hi; split; try done; [by eexists|by intros [? ?]].
Qed.

(** C24: One silo pulls a queue. Let the silos of a ring adopt the arcs it gives
    them, after whatever each of them did before. Then each physical queue of the
    provider has an agent at exactly one silo, where it runs; and any agent some
    silo had for it before was told to stop. A provider that was stopped starts no
    agent any more, whatever comes late. *)
Theorem queue_pulled_by_one S v nm count (provs : SiloAddress → PullingStreamProviderCore) i :
  (∃ a b, a ∈ nodes (new_ring S v) ∧ b ∈ nodes (new_ring S v) ∧ node_hash a < node_hash b) →
  (∀ s, s ∈ S → provider_reachable (provs s) ∧ name (provs s) = nm ∧ physicalQueueCount (provs s) = count ∧ stopped (provs s) = false) →
  (i < count)%nat →
  let after s := refreshOwnership (rangesFor (new_ring S v) s) (provs s) in
  (∃ s a, s ∈ S ∧ agents (after s) !! i = Some a ∧ running a = true ∧
    ∀ s' b, s' ∈ S → agents (after s') !! i = Some b → s' = s) ∧
  (∀ s n j a, s ∈ S → dropped (after s) !! n = Some (j, a) → running a = false) ∧
  (∀ s p, s ∈ S → rtc provider_step (stop_provider (after s)) p → agents p = ∅).
Proof.
  intros Hab Hp Hi after.
  assert (Hafter : ∀ s, s ∈ S → provider_ok (after s)).
  { intros s Hs. apply (provider_step_ok (provs s)); [by apply provider_reachable_ok, Hp|constructor]. }
  assert (Hown : ∀ s, s ∈ S → (∃ a, agents (after s) !! i = Some a) ↔
    isHashInRanges (queueRingHash nm i) (rangesFor (new_ring S v) s) = true).
  { intros s Hs. destruct (Hp s Hs) as (Hr & Hn & Hc & Hst). unfold after.
    rewrite refreshed_agents by (done || by apply provider_reachable_ok). rewrite Hn, Hc. tauto. }
  split; [|split].
  - destruct (ring_arcs_tile S v (queueRingHash nm i) Hab) as (s & Hs & Hin & Hu).
    destruct (proj2 (Hown s Hs) Hin) as [a Ha]. exists s, a. split; [done|]. split; [done|].
    split; [by eapply pr_running, Ha; apply Hafter|]. intros s' b Hs' Hb. apply Hu, (Hown s' Hs'). by eexists.
  - intros s n j a Hs Hn. by eapply pr_dropped, Hn; apply Hafter.
  - intros s p Hs Hsteps. assert (Hst : provider_ok p ∧ stopped p = true); [|destruct Hst; by apply pr_stopped].
    assert (H0 : provider_ok (stop_provider (after s)) ∧ stopped (stop_provider (after s)) = true)
      by (split; [by eapply provider_step_ok; [apply Hafter|apply ps_stop]|done]).
    revert H0. induction Hsteps as [|x y z Hxy _ IH]; [done|]. intros [Hx Hsx]. apply IH.
    split; [by eapply provider_step_ok|]. destruct Hxy; simpl; try done; unfold refreshOwnership, startAgentsFor; by rewrite Hsx.
Qed.
End provider.

(** ** Subscriptions and producers *)

Section subscriptions.
Context {R : Type} `{SubscriptionRegistryLaws R}.

(** Who subscribed is served each event of the stream, with its handler bound;
    who unsubscribed is not, unless implicitly. *)
Lemma subscribe_then_served k h b (r r' : R) b' typesFor : subscribe k h (Some b) r = inr (b', r') →
  handlers b' !! k = Some h ∧ getSubscriptions k (Some b') r' = [k] ∧
  GrainId_toString (grainId b) ∈ GrainId_toString <$> resolve_subscribers (subscribers k r') k typesFor ∧
  let '(b'', r'') := unsubscribe k b' r' in
  handlers b'' !! k = None ∧ grainId b ∉ subscribers k r''.
Proof.
  intros [= <- <-]. simpl.
  assert (Hin : grainId b ∈ subscribers k (reg_subscribe k (grainId b) r)) by (apply sr_subscribe; by left).
  split; [apply lookup_insert_eq|]. split; [|split; [|split]].
  - rewrite (proj2 (existsb_exists _ _)); [done|]. exists (grainId b). split; [by apply list_elem_of_In|].
    unfold GrainId_equals. by rewrite !bool_decide_true.
  - apply resolve_subscribers_spec. left. by apply list_elem_of_fmap_2.
  - apply lookup_delete_eq.
  - rewrite sr_unsubscribe. tauto.
Qed.
End subscriptions.

Module ProducerFacts.
Import Producers.

(** Numbers are never given twice, and no stream is kept without a producer. *)
Record wf (r : t) : Prop := {
  wf_ids : ∀ k ids id, producers r !! k = Some ids → id ∈ ids → 1 <= id <= nextId r;
  wf_live : ∀ k ids, producers r !! k = Some ids → ids ≠ ∅;
  wf_next : 0 <= nextId r }.

Lemma register_wf k r : wf r → wf (register k r).1.
Proof.
  intros [H1 H2 H3]. split; simpl; [| |lia].
  - intros k' ids id [[<- <-]|[_ Hk]]%lookup_insert_Some Hid; [|specialize (H1 _ _ _ Hk Hid); lia].
    apply elem_of_union in Hid as [->%elem_of_singleton|Hid]; [lia|].
    destruct (producers r !! k) as [ids0|] eqn:Hk; simpl in Hid; [specialize (H1 _ _ _ Hk Hid); lia|set_solver].
  - intros k' ids [[<- <-]|[_ Hk]]%lookup_insert_Some; [set_solver|by eapply H2].
Qed.

Lemma unregister_wf h r : wf r → wf (unregister h r).
Proof.
  intros [H1 H2 H3]. unfold unregister. destruct (producers r !! h.1) as [ids|] eqn:Hh; [|done].
  case_bool_decide as He; split; simpl; try done.
  - intros k ids' id [_ Hk]%lookup_delete_Some. by apply (H1 k).
  - intros k ids' [_ Hk]%lookup_delete_Some. by eapply H2.
  - intros k ids' id [[<- <-]|[_ Hk]]%lookup_insert_Some Hid; [eapply H1; [done|set_solver]|by eapply H1].
  - intros k ids' [[<- <-]|[_ Hk]]%lookup_insert_Some; [done|by eapply H2].
Qed.

(** A registration counts once, and undoing it undoes it. *)
Lemma register_unregister k r : wf r → let '(r', h) := register k r in
  producerCount k r' = S (producerCount k r) ∧ producers (unregister h r') = producers r.
Proof.
  intros Hwf. unfold producerCount, unregister. simpl. rewrite lookup_insert_eq. simpl.
  assert (Hfresh : nextId r + 1 ∉ default ∅ (producers r !! k)).
  { destruct (producers r !! k) as [ids|] eqn:Hk; simpl; [|set_solver]. intros Hin. pose proof (wf_ids _ Hwf _ _ _ Hk Hin). lia. }
  split.
  - rewrite size_union by set_solver. rewrite size_singleton. by destruct (producers r !! k).
  - assert (({[nextId r + 1]} ∪ default ∅ (producers r !! k)) ∖ {[nextId r + 1]} = default ∅ (producers r !! k)) as -> by set_solver.
    destruct (producers r !! k) as [ids|] eqn:Hk; simpl.
    + rewrite bool_decide_false by by eapply wf_live. simpl. rewrite insert_insert_eq. by rewrite insert_id.
    + rewrite bool_decide_true by done. simpl. rewrite delete_insert_id; done.
Qed.
End ProducerFacts.

(** ** Concrete providers *)
Module Runs.
Definition fresh : PullingStreamProviderCore := mkProvider "p" 4 50 ∅ [] false.
Definition two_silos : list SiloAddress := [silo_a; silo_b].

Lemma queue_pulled_by_one_witness :
  ownedQueueIndices "p" 4 (rangesFor (new_ring two_silos 1) silo_a) ++ ownedQueueIndices "p" 4 (rangesFor (new_ring two_silos 1) silo_b)
    ≡ₚ [0; 1; 2; 3]%nat ∧
  let after s := refreshOwnership (rangesFor (new_ring two_silos 1) s) fresh in
  (∃ s a, s ∈ two_silos ∧ agents (after s) !! 0%nat = Some a ∧ running a = true ∧
    ∀ s' b, s' ∈ two_silos → agents (after s') !! 0%nat = Some b → s' = s) ∧
  (∀ s n j a, s ∈ two_silos → dropped (after s) !! n = Some (j, a) → running a = false) ∧
  (∀ s p, s ∈ two_silos → rtc (provider_step (Q := GeneratorStreamQueue.t)) (stop_provider (after s)) p → agents p = ∅).
Proof.
  split; [apply (bool_decide_unpack _); vm_compute; exact I|].
  apply (queue_pulled_by_one (Q := GeneratorStreamQueue.t) two_silos 1 "p" 4 (λ _, fresh) 0).
  - exists (mkNode (stableHash32 "silo-0#0") silo_a), (mkNode (stableHash32 "silo-1#0") silo_b).
    split_and!; [| |vm_compute; reflexivity]; apply elem_of_new_ring; [left|right; left].
  - intros s _. split; [|done]. apply (pr_new "p" 4 None). reflexivity.
  - lia.
Defined.

(** A queue the silo drops and adopts again has two agents at work: [stop] does
    not wait for the one that was dropped. *)
Lemma dropped_agent_outlives_stop :
  let q := StreamAgent.Runs.generator 3 in
  let p := startAgentsFor [0%nat] fresh in
  let p := agent_moves 0 TimerFires q p in
  let p := startAgentsFor [] p in
  let p := stop_provider (startAgentsFor [0%nat] p) in
  agents p = ∅ ∧ option_map (λ ia, (ia.1, stopping ia.2, bool_decide (pump ia.2 = None))) (head (dropped p)) = Some (0%nat, 1%nat, false).
Proof. split; [reflexivity|]. by vm_compute. Qed.

(** Streams of different names share a key, as a slash may occur in both parts:
    they share the queue, the subscribers and the order. *)
Lemma stream_keys_collide :
  stream_key "orders/eu" (KString "7") = stream_key "orders" (KString "eu/7").
Proof. reflexivity. Qed.
End Runs.
