(* ===== verification/MemoryStream.v ===== *)
(** * The in-memory stream provider

    Models [packages/streams/src/memory-stream-provider.ts] (MemoryStream,
    MemorySubscription, MemoryStreamProvider) and
    [memory-subscription-manager.ts].

    A step is what runs between two awaits: a call of the stream, the return of a
    handler, of its [onError], of the fan-out of an event, of a confirmation.
    Events are strings; what handlers answer is arbitrary. *)
From Stdlib Require Import String.
From stdpp Require Import prelude gmap strings list.
From S2P Require Import Prelude Ids StreamDelivery.
Open Scope Z_scope.

(** ** Subscriptions *)

(** Which callbacks a handler has. *)
Record StreamHandler := mkHandler { onNextBatch : bool; onError : bool }.

(** Where the pump of a subscription waits. *)
Inductive Pump := InOnNext | InOnNextBatch (pending : nat) | InOnError.

Record MemorySubscription := mkSub {
  pumping : option Pump;
  handler : option StreamHandler;
  cursor : nat;
  consumerId : option string;
  (** The position it started from, the events its handler took, and whether the
      last call failed. *)
  from : nat;
  taken : list string;
  failed : bool }.

(** [publishBatch] under way: the entries not yet handed to the fan-out. *)
Definition Publishing : Type := list (nat * string).

(** A call of the fan-out: the entry and whom it was delivered to. *)
Definition Notified : Type := nat * list GrainId.

Record MemoryStream := mkStream {
  events : list string;
  subs : list MemorySubscription;
  (** The indices of those that are registered. *)
  subscriptions : list nat;
  publishing : list Publishing;
  notified : list Notified;
  inactivityTimer : option Z;
  (** The moments it was reported inactive. *)
  inactive : list Z }.
Definition new_stream : MemoryStream := mkStream [] [] [] [] [] None [].

Definition with_subs (l : list MemorySubscription) (s : MemoryStream) : MemoryStream :=
  mkStream (events s) l (subscriptions s) (publishing s) (notified s) (inactivityTimer s) (inactive s).
Definition with_pump (p : option Pump) (b : MemorySubscription) : MemorySubscription :=
  mkSub p (handler b) (cursor b) (consumerId b) (from b) (taken b) (failed b).
Definition with_handler (h : StreamHandler) (b : MemorySubscription) : MemorySubscription :=
  mkSub (pumping b) (Some h) (cursor b) (consumerId b) (from b) (taken b) (failed b).
Definition with_failed (f : bool) (b : MemorySubscription) : MemorySubscription :=
  mkSub (pumping b) (handler b) (cursor b) (consumerId b) (from b) (taken b) f.
Definition advance (es : list string) (b : MemorySubscription) : MemorySubscription :=
  mkSub (pumping b) (handler b) (cursor b + length es) (consumerId b) (from b) (taken b ++ es) (failed b).

(** The loop of [deliverTo], to its next await. *)
Definition pump_loop (evs : list string) (b : MemorySubscription) : MemorySubscription :=
  match handler b with
  | Some h =>
      if bool_decide (cursor b < length evs)%nat then
        with_failed false (with_pump (Some (if onNextBatch h then InOnNextBatch (length evs - cursor b) else InOnNext)) b)
      else with_pump None b
  | None => with_pump None b
  end.
Definition deliverTo (evs : list string) (b : MemorySubscription) : MemorySubscription :=
  match pumping b, handler b with
  | None, Some _ => pump_loop evs b
  | _, _ => b
  end.

(** A handler returns, with what it was given if it took it, or throws. *)
Definition handler_returns (evs : list string) (throws : bool) (b : MemorySubscription) : MemorySubscription :=
  let given := match pumping b with
               | Some InOnNext => Some 1%nat
               | Some (InOnNextBatch n) => Some n
               | _ => None
               end in
  match given with
  | None => b
  | Some n =>
      if throws then
        let b := with_failed true b in
        match handler b with
        | Some h => with_pump (if onError h then Some InOnError else None) b
        | None => with_pump None b
        end
      else pump_loop evs (advance (take n (drop (cursor b) evs)) b)
  end.
(** [onError] returns or throws: the pump ends. *)
Definition on_error_returns (b : MemorySubscription) : MemorySubscription :=
  match pumping b with Some InOnError => with_pump None b | _ => b end.

(** ** The subscription manager, of one stream *)

Record ManagedSubscription := mkManaged { subscriptionId : string; grainId : GrainId; confirming : bool }.
Definition Manager : Type := list ManagedSubscription.

(** Up to the await of the confirmation. *)
Definition addSubscription (id : string) (g : GrainId) (m : Manager) : Manager := m ++ [mkManaged id g true].
(** Its answer; None when it rejects. *)
Definition confirmation_returns (id : string) (accepted : option bool) (m : Manager) : Manager :=
  match accepted with
  | Some false => filter (λ x, subscriptionId x ≠ id) m
  | _ => (λ x, if bool_decide (subscriptionId x = id) then mkManaged id (grainId x) false else x) <$> m
  end.
Definition removeSubscription_managed (id : string) (m : Manager) : Manager := filter (λ x, subscriptionId x ≠ id) m.
Definition subscribersFor (m : Manager) : list GrainId := grainId <$> m.

(** ** The stream *)

Section stream.
Context (streamKey : string) (typesFor : string → list string) (shouldDeliver : option (string → bool))
  (streamInactivityPeriodMs : option Z).

(** [fanOut]: whom it delivers to. *)
Definition fan_out_to (m : Manager) (event : string) : list GrainId :=
  if match shouldDeliver with Some f => negb (f event) | None => false end then []
  else dedupe_subscribers [] (implicitSubscriberIds streamKey typesFor ++ subscribersFor m).

(** The loop of [publishBatch] over the entries, to its next await. *)
Definition notify_next (m : Manager) (p : Publishing) : Publishing * list Notified :=
  match p with
  | [] => ([], [])
  | (t, e) :: rest => (rest, [(t, fan_out_to m e)])
  end.

Definition armInactivityTimer (now : Z) (s : MemoryStream) : MemoryStream :=
  match streamInactivityPeriodMs with
  | None => s
  | Some ms => mkStream (events s) (subs s) (subscriptions s) (publishing s) (notified s) (Some (now + ms)) (inactive s)
  end.
Definition timer_fires (now : Z) (s : MemoryStream) : MemoryStream :=
  match inactivityTimer s with
  | Some t => if bool_decide (t <= now) then
                mkStream (events s) (subs s) (subscriptions s) (publishing s) (notified s) None (inactive s ++ [now])
              else s
  | None => s
  end.
Definition dispose (s : MemoryStream) : MemoryStream :=
  mkStream (events s) (subs s) (subscriptions s) (publishing s) (notified s) None (inactive s).

(** The entries of [l], numbered from [n]. *)
Definition numbered (n : nat) (l : list string) : list (nat * string) := zip (seq n (length l)) l.

Definition publishBatch (now : Z) (m : Manager) (es : list string) (s : MemoryStream) : MemoryStream :=
  let s := armInactivityTimer now s in
  let evs := events s ++ es in
  let l := imap (λ i b, if bool_decide (i ∈ subscriptions s) then deliverTo evs b else b) (subs s) in
  let '(rest, n) := notify_next m (numbered (length (events s)) es) in
  mkStream evs l (subscriptions s) (publishing s ++ [rest]) (notified s ++ n) (inactivityTimer s) (inactive s).
Definition publish (now : Z) (m : Manager) (e : string) : MemoryStream → MemoryStream := publishBatch now m [e].
(** The fan-out of an entry settles, and that of the next one begins. *)
Definition notification_returns (i : nat) (m : Manager) (s : MemoryStream) : MemoryStream :=
  match publishing s !! i with
  | None => s
  | Some p =>
      let '(rest, n) := notify_next m p in
      mkStream (events s) (subs s) (subscriptions s) (<[i := rest]> (publishing s)) (notified s ++ n) (inactivityTimer s) (inactive s)
  end.

Definition subscribe (h : StreamHandler) (startToken : option nat) (consumer : option string) (s : MemoryStream) : MemoryStream :=
  let c := default (length (events s)) startToken in
  let b := deliverTo (events s) (mkSub None (Some h) c consumer c [] false) in
  mkStream (events s) (subs s ++ [b]) (subscriptions s ++ [length (subs s)]) (publishing s) (notified s) (inactivityTimer s) (inactive s).
Definition getSubscriptions (consumer : option string) (s : MemoryStream) : list nat :=
  match consumer with
  | None => subscriptions s
  | Some c => filter (λ i, (b ← subs s !! i; consumerId b) = Some c) (subscriptions s)
  end.
Definition removeSubscription (i : nat) (s : MemoryStream) : MemoryStream :=
  mkStream (events s) (subs s) (filter (λ j, j ≠ i) (subscriptions s)) (publishing s) (notified s) (inactivityTimer s) (inactive s).
Definition resume (i : nat) (h : StreamHandler) (s : MemoryStream) : MemoryStream :=
  with_subs (alter (λ b, deliverTo (events s) (with_handler h b)) i (subs s)) s.

Inductive Label :=
  | Publish (now : Z) (es : list string)
  | Subscribe (h : StreamHandler) (startToken : option nat) (consumer : option string)
  | Resume (i : nat) (h : StreamHandler)
  | Unsubscribe (i : nat)
  | HandlerReturns (i : nat) (throws : bool)
  | OnErrorReturns (i : nat)
  | NotificationReturns (i : nat)
  | TimerFires (now : Z)
  | Dispose
  | Manage (f : Manager → Manager).

Definition step (l : Label) (sm : MemoryStream * Manager) : MemoryStream * Manager :=
  let '(s, m) := sm in
  match l with
  | Publish now es => (publishBatch now m es s, m)
  | Subscribe h t c => (subscribe h t c s, m)
  | Resume i h => (resume i h s, m)
  | Unsubscribe i => (removeSubscription i s, m)
  | HandlerReturns i throws => (with_subs (alter (handler_returns (events s) throws) i (subs s)) s, m)
  | OnErrorReturns i => (with_subs (alter on_error_returns i (subs s)) s, m)
  | NotificationReturns i => (notification_returns i m s, m)
  | TimerFires now => (timer_fires now s, m)
  | Dispose => (dispose s, m)
  | Manage f => (s, f m)
  end.
Definition run (ls : list Label) (sm : MemoryStream * Manager) : MemoryStream * Manager := fold_left (λ sm l, step l sm) ls sm.
End stream.

(** ** The provider *)

Record MemoryStreamProvider := mkMemoryProvider { name : string; streams : gmap string MemoryStream }.
(** None: the name is refused. *)
Definition new_memory_provider (name : string) : option MemoryStreamProvider :=
  if bool_decide (name = EmptyString) then None else Some (mkMemoryProvider name ∅).
Definition getStream (namespace : string) (key : GrainKey) (p : MemoryStreamProvider) : MemoryStreamProvider * MemoryStream :=
  let mapKey := (namespace +:+ "/" +:+ keyToString key)%string in
  match streams p !! mapKey with
  | Some s => (p, s)
  | None => (mkMemoryProvider (name p) (<[mapKey := new_stream]> (streams p)), new_stream)
  end.
Definition stop (p : MemoryStreamProvider) : MemoryStreamProvider := mkMemoryProvider (name p) (dispose <$> streams p).

(** ** What a subscription takes *)

(** What it took is what lies between the position it started from and its
    cursor. *)
Record sub_at (evs : list string) (b : MemorySubscription) : Prop := {
  so_from : (from b <= cursor b)%nat;
  so_bound : (cursor b = from b ∨ cursor b <= length evs)%nat;
  so_taken : taken b = take (cursor b - from b) (drop (from b) evs);
  so_handler : handler b ≠ None }.
Definition pump_ok (evs : list string) (b : MemorySubscription) : Prop :=
  match pumping b with
  | Some InOnNext => (cursor b < length evs)%nat
  | Some (InOnNextBatch n) => (0 < n ∧ cursor b + n <= length evs)%nat
  | Some InOnError => failed b = true
  | None => True
  end.
Definition sub_ok (evs : list string) (b : MemorySubscription) : Prop := sub_at evs b ∧ pump_ok evs b.
(** It waits for events, or for someone to resume it after a failure. *)
Definition awake (evs : list string) (b : MemorySubscription) : Prop :=
  pumping b = None → (length evs <= cursor b)%nat ∨ failed b = true.

Lemma sub_ok_grows evs es b : sub_ok evs b → sub_ok (evs ++ es) b.
Proof.
  unfold sub_ok, pump_ok. intros [[H1 H2 H3 H4] H5]. split; [split; try done|]; rewrite ?length_app; [lia| |].
  - rewrite H3. destruct H2 as [->|H2]; [by rewrite Nat.sub_diag|].
    destruct (decide (from b <= length evs)%nat) as [Hf|Hf]; [|lia].
    rewrite drop_app_le by done. rewrite take_app_le; [done|]. rewrite length_drop. lia.
  - destruct (pumping b) as [[| |]|]; (lia || done).
Qed.

Lemma pump_loop_ok evs b : sub_at evs b → sub_ok evs (pump_loop evs b) ∧ awake evs (pump_loop evs b).
Proof.
  unfold sub_ok, pump_ok, pump_loop, awake. intros [H1 H2 H3 H4]. destruct (handler b) as [h|] eqn:Hh; [|done].
  case_bool_decide as Hc; simpl; (split; [split; [split; simpl; rewrite ?Hh; done|]|]); try done.
  - destruct (onNextBatch h); lia.
  - intros _. left. lia.
Qed.

Lemma deliverTo_ok evs b : sub_ok evs b → sub_ok evs (deliverTo evs b) ∧ awake evs (deliverTo evs b).
Proof.
  intros Hb. unfold deliverTo. destruct (pumping b) eqn:Hp; [split; [done|]; intros H; congruence|].
  destruct (handler b) eqn:Hh; [by apply pump_loop_ok, Hb|]. by destruct (so_handler _ _ (proj1 Hb)).
Qed.

Lemma take_advance {A} (l : list A) f c n : (f <= c)%nat → (c + n <= length l)%nat →
  take (c - f) (drop f l) ++ take n (drop c l) = take (c + n - f) (drop f l).
Proof.
  intros Hf Hc. replace (c + n - f)%nat with ((c - f) + n)%nat by lia. rewrite <- take_take_drop. f_equal.
  rewrite drop_drop. do 2 f_equal. lia.
Qed.

Lemma advance_at evs b n : sub_at evs b → (cursor b + n <= length evs)%nat →
  sub_at evs (advance (take n (drop (cursor b) evs)) b).
Proof.
  intros [H1 H2 H3 H4] Hc. assert (Hlen : length (take n (drop (cursor b) evs)) = n) by (rewrite length_take, length_drop; lia).
  split; simpl; rewrite ?Hlen; [lia|lia| |done]. rewrite H3. by apply take_advance.
Qed.

Lemma handler_returns_ok evs throws b : sub_ok evs b →
  sub_ok evs (handler_returns evs throws b) ∧ (awake evs b → awake evs (handler_returns evs throws b)).
Proof.
  intros [Hat Hpu]. unfold handler_returns. unfold pump_ok in Hpu.
  assert (Hgiven : ∀ n, (cursor b + n <= length evs)%nat →
    let b' := if throws then
                match handler b with
                | Some h => with_pump (if onError h then Some InOnError else None) (with_failed true b)
                | None => with_pump None (with_failed true b)
                end
              else pump_loop evs (advance (take n (drop (cursor b) evs)) b) in
    sub_ok evs b' ∧ (awake evs b → awake evs b')).
  { intros n Hc. destruct throws; [|by split; [|intros _]; apply pump_loop_ok, advance_at]. simpl. destruct Hat as [H1 H2 H3 H4].
    destruct (handler b) as [h|] eqn:Hh; [|done].
    split; [split; [split; simpl; rewrite ?Hh; done|unfold pump_ok; simpl; by destruct (onError h)]|]. intros _ _. by right. }
  destruct (pumping b) as [[|n|]|] eqn:Hp; [by apply Hgiven; lia|by apply Hgiven; lia|..].
  { split; [split; [done|unfold pump_ok; by rewrite Hp]|done]. }
  split; [split; [done|unfold pump_ok; by rewrite Hp]|done].
Qed.

Lemma on_error_ok evs b : sub_ok evs b → sub_ok evs (on_error_returns b) ∧ (awake evs b → awake evs (on_error_returns b)).
Proof.
  intros [[H1 H2 H3 H4] Hpu]. unfold on_error_returns, pump_ok in *. destruct (pumping b) as [[| |]|] eqn:Hp;
    try (by split; [split; [|unfold pump_ok; rewrite Hp]|]).
  split; [by split|]. intros _ _. by right.
Qed.

Lemma with_handler_ok evs h b : sub_ok evs b → sub_ok evs (with_handler h b).
Proof. intros [[H1 H2 H3 H4] Hpu]. by split. Qed.

(** ** The stream *)

Section invariant.
Context (streamKey : string) (typesFor : string → list string) (shouldDeliver : option (string → bool)) (period : option Z).
Abbreviation step := (step streamKey typesFor shouldDeliver period).
Abbreviation run := (run streamKey typesFor shouldDeliver period).

Record stream_ok (s : MemoryStream) : Prop := {
  st_subs : ∀ i b, subs s !! i = Some b → sub_ok (events s) b;
  st_awake : ∀ i b, i ∈ subscriptions s → subs s !! i = Some b → awake (events s) b;
  st_known : ∀ i, i ∈ subscriptions s → (i < length (subs s))%nat;
  (** Each entry is handed to the fan-out, or will be by its publish. *)
  st_notified : (notified s).*1 ++ (concat (publishing s)).*1 ≡ₚ seq 0 (length (events s));
  st_recipients : Forall (λ n : Notified, NoDup (GrainId_toString <$> n.2)) (notified s) }.

Lemma numbered_fst n l : (numbered n l).*1 = seq n (length l).
Proof. unfold numbered. rewrite fst_zip; [done|]. by rewrite length_seq. Qed.

Lemma fan_out_nodup m e : NoDup (GrainId_toString <$> fan_out_to streamKey typesFor shouldDeliver m e).
Proof. unfold fan_out_to. destruct (match shouldDeliver with Some f => negb (f e) | None => false end); [constructor|]. apply dedupe_spec. Qed.

Lemma notify_next_spec m p rest n : notify_next streamKey typesFor shouldDeliver m p = (rest, n) →
  p.*1 = n.*1 ++ rest.*1 ∧ Forall (λ n : Notified, NoDup (GrainId_toString <$> n.2)) n.
Proof.
  unfold notify_next. destruct p as [|[t e] p]; intros [= <- <-]; [by split|]. split; [done|].
  constructor; [apply fan_out_nodup|constructor].
Qed.

Lemma publish_ok now m es s : stream_ok s → stream_ok (publishBatch streamKey typesFor shouldDeliver period now m es s).
Proof.
  intros Hs. assert (Ha : stream_ok (armInactivityTimer period now s)) by (unfold armInactivityTimer; destruct period; [by destruct Hs|done]).
  unfold publishBatch. set (s0 := armInactivityTimer period now s) in *. clearbody s0. clear Hs s. destruct Ha as [H1 H2 H3 H4 H5].
  destruct (notify_next _ _ _ m (numbered (length (events s0)) es)) as [rest n] eqn:Hn.
  destruct (notify_next_spec _ _ _ _ Hn) as [Hn1 Hn2]. rewrite numbered_fst in Hn1. split; simpl.
  - intros i b Hi. rewrite list_lookup_imap in Hi. apply fmap_Some in Hi as (b0 & Hb0 & ->).
    assert (Hg := sub_ok_grows _ es _ (H1 i b0 Hb0)). case_bool_decide; [by apply deliverTo_ok|done].
  - intros i b Hreg Hi. rewrite list_lookup_imap in Hi. apply fmap_Some in Hi as (b0 & Hb0 & ->).
    rewrite bool_decide_true by done. apply deliverTo_ok, sub_ok_grows. by eapply H1.
  - intros i Hi. rewrite length_imap. by apply H3.
  - rewrite length_app, seq_app, <- H4, concat_app, !fmap_app. simpl. rewrite app_nil_r, Hn1. solve_Permutation.
  - by apply Forall_app.
Qed.

(** A step of one subscription that keeps it awake, or wakes it. *)
Lemma with_subs_ok f i s : stream_ok s →
  (∀ b, sub_ok (events s) b → sub_ok (events s) (f b)) →
  (∀ b, sub_ok (events s) b → awake (events s) b → awake (events s) (f b)) →
  stream_ok (with_subs (alter f i (subs s)) s).
Proof.
  intros [H1 H2 H3 H4 H5] Hf Ha. assert (Hi : ∀ j b, alter f i (subs s) !! j = Some b →
    (j = i ∧ ∃ b0, subs s !! i = Some b0 ∧ b = f b0) ∨ (j ≠ i ∧ subs s !! j = Some b)).
  { intros j b Hj. rewrite list_lookup_alter in Hj. case_decide as Hij; [|by right]. subst j. left. split; [done|].
    destruct (subs s !! i) as [b0|] eqn:Hb0; [|done]. injection Hj as <-. by exists b0. }
  split; simpl; try done.
  - intros j b [(-> & b0 & Hb0 & ->)|[_ Hj]]%Hi; [by eapply Hf, H1|by eapply H1].
  - intros j b Hreg [(-> & b0 & Hb0 & ->)|[_ Hj]]%Hi; [|by eapply H2]. eapply Ha; [by eapply H1|by eapply H2].
  - intros j Hj. rewrite length_alter. by apply H3.
Qed.

Lemma subscribe_ok h t c s : stream_ok s → stream_ok (subscribe h t c s).
Proof.
  intros [H1 H2 H3 H4 H5]. unfold subscribe. set (b0 := mkSub None (Some h) (default (length (events s)) t) c _ [] false).
  destruct (deliverTo_ok (events s) b0) as [Hb Haw].
  { split; [|done]. split; simpl; [lia|by left| |done]. by rewrite Nat.sub_diag. }
  split; simpl; try done.
  - intros i b [Hi|[_ Hi]]%lookup_app_Some; [by eapply H1|]. by apply list_lookup_singleton_Some in Hi as [_ <-].
  - intros i b [Hreg|Hreg%list_elem_of_singleton]%elem_of_app Hi.
    + rewrite lookup_app_l in Hi by by apply H3. by eapply H2.
    + subst i. rewrite lookup_app_r, Nat.sub_diag in Hi by lia. by injection Hi as <-.
  - intros i [Hreg%H3|Hreg%list_elem_of_singleton]%elem_of_app; rewrite length_app; simpl; lia.
Qed.

Lemma notification_ok i m s : stream_ok s → stream_ok (notification_returns streamKey typesFor shouldDeliver i m s).
Proof.
  intros [H1 H2 H3 H4 H5]. unfold notification_returns. destruct (publishing s !! i) as [p|] eqn:Hp; [|by split].
  destruct (notify_next _ _ _ m p) as [rest n] eqn:Hn. destruct (notify_next_spec _ _ _ _ Hn) as [Hn1 Hn2].
  split; simpl; try done; [|by apply Forall_app].
  rewrite <- H4. rewrite <- (take_drop_middle _ _ _ Hp) at 2. rewrite insert_take_drop by by eapply lookup_lt_Some.
  rewrite !concat_app. simpl. rewrite !fmap_app, Hn1. solve_Permutation.
Qed.

Lemma step_ok l s m : stream_ok s → stream_ok (step l (s, m)).1.
Proof.
  intros Hs. destruct l as [now es|h t c|i h|i|i throws|i|i|now| |f]; simpl.
  - by apply publish_ok.
  - by apply subscribe_ok.
  - apply with_subs_ok; [done|..]; intros b Hb; [by apply deliverTo_ok, with_handler_ok|].
    intros _. by apply deliverTo_ok, with_handler_ok.
  - destruct Hs as [H1 H2 H3 H4 H5]. split; simpl; try done; [intros j b|intros j]; intros [_ Hj]%list_elem_of_filter; auto.
    intros Hb. by eapply H2.
  - apply with_subs_ok; [done|..]; intros b Hb; [by apply handler_returns_ok|]. by apply handler_returns_ok.
  - apply with_subs_ok; [done|..]; intros b Hb; [by apply on_error_ok|]. by apply on_error_ok.
  - by apply notification_ok.
  - unfold timer_fires. destruct (inactivityTimer s); [|done]. case_bool_decide; [by destruct Hs|done].
  - by destruct Hs.
  - done.
Qed.

Lemma run_ok ls sm : stream_ok sm.1 → stream_ok (run ls sm).1.
Proof.
  revert sm. induction ls as [|l ls IH]; intros [s m] Hs; [done|]. simpl. apply IH. by apply step_ok.
Qed.

Lemma new_stream_ok : stream_ok new_stream.
Proof. split; simpl; [by intros i b; rewrite lookup_nil| |set_solver|done|constructor]. intros i b. by rewrite lookup_nil. Qed.

(** Answers of a handler that takes what it is given. *)
Fixpoint takes (k : nat) (evs : list string) (b : MemorySubscription) : MemorySubscription :=
  match k with O => b | S k => takes k evs (handler_returns evs false b) end.

Lemma pump_loop_fields evs b : cursor (pump_loop evs b) = cursor b ∧ (failed b = false → failed (pump_loop evs b) = false).
Proof. unfold pump_loop. destruct (handler b); [|done]. by case_bool_decide. Qed.

Lemma takes_to_end evs k : ∀ b, sub_ok evs b → awake evs b → failed b = false → (length evs - cursor b <= k)%nat →
  ∃ j, pumping (takes j evs b) = None ∧ (length evs <= cursor (takes j evs b))%nat.
Proof.
  induction k as [|k IH]; intros b Hb Ha Hf Hk.
  - destruct (pumping b) as [p|] eqn:Hp.
    + exfalso. destruct Hb as [_ Hpu]. unfold pump_ok in Hpu. rewrite Hp in Hpu. destruct p; (lia || congruence).
    + exists 0%nat. split; [done|simpl; lia].
  - destruct (pumping b) as [p|] eqn:Hp; [|exists 0%nat; split; [done|]; destruct (Ha Hp); [done|congruence]].
    destruct (handler_returns_ok evs false b Hb) as [Hb' Ha'].
    assert (Hlt : (cursor b < cursor (handler_returns evs false b))%nat ∧ failed (handler_returns evs false b) = false).
    { assert (Hgo : ∀ n, (0 < n)%nat → (cursor b + n <= length evs)%nat →
        let b' := pump_loop evs (advance (take n (drop (cursor b) evs)) b) in (cursor b < cursor b')%nat ∧ failed b' = false).
      { intros n Hn Hc b'. destruct (pump_loop_fields evs (advance (take n (drop (cursor b) evs)) b)) as [E1 E2].
        unfold b'. rewrite E1. split; [simpl; rewrite length_take, length_drop; lia|by apply E2]. }
      destruct Hb as [_ Hpu]. unfold pump_ok in Hpu. unfold handler_returns. rewrite Hp in *.
      destruct p as [|n|]; [by apply Hgo; lia|by apply Hgo; lia|congruence]. }
    destruct (IH (handler_returns evs false b) Hb' (Ha' Ha)) as (j & Hj); [apply Hlt|lia|]. by exists (S j).
Qed.

(** In-process delivery is in order, without gaps or repetitions of what a
    handler took. Whatever is published, subscribed, resumed or removed while
    handlers run and fail: a subscription took exactly the events from the
    position it started at up to its cursor; a registered one whose pump is at
    rest has taken all, or its last call failed; and one that did not fail has
    taken all once its handler answers. Each entry is handed once to the fan-out,
    by the publish it is of, and none of its recipients is served twice. *)
Theorem memory_stream_in_order ls :
  let s := (run ls (new_stream, [])).1 in
  (∀ i b, subs s !! i = Some b → taken b = take (cursor b - from b) (drop (from b) (events s)) ∧ (from b <= cursor b)%nat) ∧
  (∀ i b, i ∈ subscriptions s → subs s !! i = Some b →
     (pumping b = None → (length (events s) <= cursor b)%nat ∨ failed b = true) ∧
     (failed b = false → ∃ j, pumping (takes j (events s) b) = None ∧ (length (events s) <= cursor (takes j (events s) b))%nat)) ∧
  (notified s).*1 ++ (concat (publishing s)).*1 ≡ₚ seq 0 (length (events s)) ∧
  Forall (λ n : Notified, NoDup (GrainId_toString <$> n.2)) (notified s).
Proof.
  intros s. destruct (run_ok ls (new_stream, []) new_stream_ok) as [H1 H2 H3 H4 H5]. fold s in H1, H2, H3, H4, H5.
  split; [|split; [|by split]].
  - intros i b Hb. destruct (H1 i b Hb) as [[? ? ? ?] _]. by split.
  - intros i b Hreg Hb. split; [by eapply H2|]. intros Hf. eapply takes_to_end; [by eapply H1|by eapply H2|done|done].
Qed.
End invariant.

(** ** Concrete streams *)
Module Runs.
Definition one_by_one : StreamHandler := mkHandler false true.
Definition batched : StreamHandler := mkHandler true false.
Abbreviation go ls := (run "orders/7" (λ _, ["Audit"%string]) None (Some 10) ls (new_stream, [])).

Lemma delivers_sample :
  let s := (go [Subscribe one_by_one None None; Subscribe batched (Some 0%nat) None; Publish 0 ["a"; "b"]%string;
                HandlerReturns 0 false; Publish 5 ["c"]%string; HandlerReturns 1 false; HandlerReturns 1 false;
                HandlerReturns 0 true; NotificationReturns 0; TimerFires 12; TimerFires 15]).1 in
  map taken (subs s) = [["a"]; ["a"; "b"; "c"]]%string ∧
  map (λ n : Notified, (n.1, map GrainId_toString n.2)) (notified s) = [(0, ["Audit/7"]); (2, ["Audit/7"]); (1, ["Audit/7"])]%nat%string ∧
  inactive s = [15].
Proof. by vm_compute. Qed.

(** An event that is published while a failed subscription awaits its [onError]
    is not delivered when that returns: it waits for the next publish. *)
Lemma publish_during_on_error_waits :
  let s := (go [Subscribe one_by_one None None; Publish 0 ["a"]%string; HandlerReturns 0 true;
                Publish 1 ["b"]%string; OnErrorReturns 0]).1 in
  ∃ b, subs s = [b] ∧ pumping b = None ∧ cursor b = 0%nat ∧ subscriptions s = [0%nat].
Proof. eexists. vm_compute. by repeat split. Qed.

(** A subscription that was removed goes on while its pump finds events. *)
Lemma unsubscribed_goes_on :
  let s := (go [Subscribe one_by_one None None; Publish 0 ["a"]%string; Unsubscribe 0; Publish 1 ["b"]%string;
                HandlerReturns 0 false; HandlerReturns 0 false]).1 in
  subscriptions s = [] ∧ map taken (subs s) = [["a"; "b"]%string].
Proof. by vm_compute. Qed.

(** A managed subscription is served before its grain confirmed it, and if it
    declines. *)
Lemma declined_is_served :
  let g := mkGrainId "Hub" (KString "1") in
  let s := go [Manage (addSubscription "s1" g); Publish 0 ["a"]%string; Manage (confirmation_returns "s1" (Some false))] in
  s.2 = [] ∧ (notified s.1).*2 = [[mkGrainId "Audit" (KString "7"); g]].
Proof. by vm_compute. Qed.

(** A confirmation that rejects makes the call reject, and leaves the
    subscription. *)
Lemma rejected_stays_subscribed g :
  subscribersFor (confirmation_returns "s1" None (addSubscription "s1" g [])) = [g].
Proof. reflexivity. Qed.
End Runs.

