(* ===== verification/Reminders.v ===== *)
(** * Reminders

    Models [packages/reminders/src/local-reminder-service.ts]
    (LocalReminderService), [memory-reminder-table.ts] (MemoryReminderTable) and
    the records of [packages/core/src/reminder.ts].

    A silo's service and the table the silos share; instants and durations are
    integers of milliseconds. A method is cut at its awaits: what runs between two
    is one step, a call of the table takes effect in a step of its own, or fails on
    either side of it, and what the code does with the answer is another step. *)
From Stdlib Require Import String.
From stdpp Require Import prelude gmap strings list.
From S2P Require Import Prelude Ids HashRing.
Open Scope Z_scope.

(** ** The table *)

Record ReminderEntry := mkReminder {
  r_grainId : GrainId;
  r_name : string;
  startAt : Z;
  period : Z;
  etag : Z;
  lastFiredAt : option Z }.

Definition with_lastFired (t : Z) (e : ReminderEntry) : ReminderEntry :=
  mkReminder (r_grainId e) (r_name e) (startAt e) (period e) (etag e) (Some t).

Record MemoryReminderTable := mkTable { entries : gmap string ReminderEntry; etagCounter : Z }.
Definition empty_table : MemoryReminderTable := mkTable ∅ 0.

Definition table_key (g : GrainId) (name : string) : string := (GrainId_toString g +:+ name)%string.
Definition upsert (g : GrainId) (name : string) (start period : Z) (t : MemoryReminderTable) : MemoryReminderTable * ReminderEntry :=
  let e := mkReminder g name start period (etagCounter t + 1) None in
  (mkTable (<[table_key g name := e]> (entries t)) (etagCounter t + 1), e).
Definition table_read (g : GrainId) (name : string) (t : MemoryReminderTable) : option ReminderEntry := entries t !! table_key g name.
Definition remove (g : GrainId) (name : string) (tag : Z) (t : MemoryReminderTable) : MemoryReminderTable * bool :=
  match table_read g name t with
  | Some e => if bool_decide (etag e = tag) then (mkTable (delete (table_key g name) (entries t)) (etagCounter t), true) else (t, false)
  | None => (t, false)
  end.
Definition readForGrain (g : GrainId) (t : MemoryReminderTable) : list ReminderEntry :=
  filter (λ e, GrainId_equals (r_grainId e) g = true) (map_to_list (entries t)).*2.
Definition reminder_hash (e : ReminderEntry) : Z := getUniformHashCode (r_grainId e).
Definition readRange (range : HashRange) (t : MemoryReminderTable) : list ReminderEntry :=
  filter (λ e, isHashInRange (reminder_hash e) range.1 range.2 = true) (map_to_list (entries t)).*2.
Definition recordFired (g : GrainId) (name : string) (tag firedAt : Z) (t : MemoryReminderTable) : MemoryReminderTable :=
  match table_read g name t with
  | Some e => if bool_decide (etag e = tag) then mkTable (<[table_key g name := with_lastFired firedAt e]> (entries t)) (etagCounter t) else t
  | None => t
  end.

(** ** The schedule of a silo *)

(** [dueAt] is the instant of the tick, [timerAt] the one of its timer. *)
Record Scheduled := mkScheduled { s_entry : ReminderEntry; dueAt : Z; timerAt : Z; sequence : Z }.

(** What a method under way waits for. *)
Inductive Op :=
  | Upserting (g : GrainId) (name : string) (start period : Z)
  | Upserted (e : ReminderEntry)
  | UnregisterReading (g : GrainId) (name : string)
  | UnregisterRemoving (g : GrainId) (name : string) (found : option Z)
  | Cancelling (g : GrainId) (name : string)
  | Reconciling (readSequence : Z) (todo : list HashRange) (owned : gmap string ReminderEntry) (refresh : bool)
  | RecordingFired (e : ReminderEntry) (firedAt : Z)
  | CleaningUp (e : ReminderEntry)
  | Done.

Record Fired := mkFired { f_entry : ReminderEntry; f_due : Z; f_at : Z }.

Record LocalReminderService := mkService {
  scheduled : gmap string Scheduled;
  ranges : list HashRange;
  refreshHandle : bool;
  refreshIntervalMs : Z;
  minimumPeriodMs : Z;
  localSequence : Z;
  ops : list Op;
  (** The ticks delivered. *)
  fired : list Fired }.

Definition DEFAULT_MINIMUM_PERIOD_MS : Z := 60000.
Definition new_service (ranges : list HashRange) (refreshIntervalMs : Z) (minimumPeriod : option Z) : LocalReminderService :=
  mkService ∅ ranges false refreshIntervalMs (default DEFAULT_MINIMUM_PERIOD_MS minimumPeriod) 0 [] [].

Definition with_schedule (m : gmap string Scheduled) (n : Z) (s : LocalReminderService) : LocalReminderService :=
  mkService m (ranges s) (refreshHandle s) (refreshIntervalMs s) (minimumPeriodMs s) n (ops s) (fired s).
Definition with_ops (l : list Op) (s : LocalReminderService) : LocalReminderService :=
  mkService (scheduled s) (ranges s) (refreshHandle s) (refreshIntervalMs s) (minimumPeriodMs s) (localSequence s) l (fired s).
Definition with_refresh (b : bool) (s : LocalReminderService) : LocalReminderService :=
  mkService (scheduled s) (ranges s) b (refreshIntervalMs s) (minimumPeriodMs s) (localSequence s) (ops s) (fired s).
Definition with_ranges (r : list HashRange) (s : LocalReminderService) : LocalReminderService :=
  mkService (scheduled s) r (refreshHandle s) (refreshIntervalMs s) (minimumPeriodMs s) (localSequence s) (ops s) (fired s).
Definition with_fired (f : Fired) (s : LocalReminderService) : LocalReminderService :=
  mkService (scheduled s) (ranges s) (refreshHandle s) (refreshIntervalMs s) (minimumPeriodMs s) (localSequence s) (ops s) (fired s ++ [f]).

(** [key] *)
Definition reminder_key (g : GrainId) (name : string) : string := (GrainId_toString g +:+ " " +:+ name)%string.
Definition key_of (e : ReminderEntry) : string := reminder_key (r_grainId e) (r_name e).

Definition owns (g : GrainId) (s : LocalReminderService) : bool := isHashInRanges (getUniformHashCode g) (ranges s).

(** Rounded up. *)
Definition ceil_div (a b : Z) : Z := - ((- a) / b).

Definition nextDueAt (now : Z) (e : ReminderEntry) : Z :=
  if bool_decide (period e <= 0) then startAt e
  else
    let periods := Z.max 0 (ceil_div (now - startAt e) (period e)) in
    let periods := match lastFiredAt e with
                   | Some t => Z.max periods ((t - startAt e) / period e + 1)
                   | None => periods
                   end in
    startAt e + periods * period e.

Definition cancel (key : string) (s : LocalReminderService) : LocalReminderService :=
  with_schedule (delete key (scheduled s)) (localSequence s) s.

Definition scheduleEntry (now : Z) (e : ReminderEntry) (firstDueAt : Z) (s : LocalReminderService) : LocalReminderService :=
  with_schedule (<[key_of e := mkScheduled e firstDueAt (Z.max now firstDueAt) (localSequence s + 1)]> (scheduled s))
    (localSequence s + 1) s.

(** ** Reconciling *)

Definition add_owned (l : list ReminderEntry) (m : gmap string ReminderEntry) : gmap string ReminderEntry :=
  foldl (λ m e, <[key_of e := e]> m) m l.

(** What [reconcile] does once all ranges are read. *)
Definition cancel_lost (readSequence : Z) (owned : gmap string ReminderEntry) (s : LocalReminderService) : LocalReminderService :=
  with_schedule (filter (λ kc : string * Scheduled, is_Some (owned !! kc.1) ∨ readSequence <= sequence kc.2) (scheduled s)) (localSequence s) s.
Definition schedule_owned (now readSequence : Z) (s : LocalReminderService) (e : ReminderEntry) : LocalReminderService :=
  match scheduled s !! key_of e with
  | None => scheduleEntry now e (nextDueAt now e) s
  | Some c => if bool_decide (etag (s_entry c) ≠ etag e ∧ sequence c < readSequence) then scheduleEntry now e (nextDueAt now e) s else s
  end.
Definition apply_owned (now readSequence : Z) (owned : gmap string ReminderEntry) (s : LocalReminderService) : LocalReminderService :=
  foldl (schedule_owned now readSequence) (cancel_lost readSequence owned s) (map_to_list owned).*2.

Definition scheduleRefresh (s : LocalReminderService) : LocalReminderService :=
  if bool_decide (refreshIntervalMs s <= 0) then s else with_refresh true s.

Definition start_op (o : Op) (s : LocalReminderService) : LocalReminderService := with_ops (ops s ++ [o]) s.
(** [reconcile] to its first await; [refresh]: [scheduleRefresh] follows it. *)
Definition reconcile (refresh : bool) (s : LocalReminderService) : LocalReminderService :=
  let n := localSequence s + 1 in
  start_op (Reconciling n (ranges s) ∅ refresh) (with_schedule (scheduled s) n s).

(** ** Methods and timers *)

Inductive RegisterError := NegativeDue | NegativePeriod | BelowMinimum.

Definition register (now : Z) (g : GrainId) (name : string) (due per : Z) (s : LocalReminderService) : RegisterError + LocalReminderService :=
  if bool_decide (due < 0) then inl NegativeDue
  else if bool_decide (per < 0) then inl NegativePeriod
  else if bool_decide (per < minimumPeriodMs s) then inl BelowMinimum
  else inr (start_op (Upserting g name (now + due) per) s).
Definition unregister (g : GrainId) (name : string) (s : LocalReminderService) : LocalReminderService :=
  start_op (UnregisterReading g name) s.
Definition refreshOwnership (r : list HashRange) (s : LocalReminderService) : LocalReminderService :=
  reconcile true (with_ranges r s).
Definition stop (s : LocalReminderService) : LocalReminderService := with_schedule ∅ (localSequence s) (with_refresh false s).
Definition refresh_timer (s : LocalReminderService) : LocalReminderService :=
  if refreshHandle s then reconcile false (scheduleRefresh (with_refresh false s)) else s.

Definition fire (now : Z) (key : string) (s : LocalReminderService) : LocalReminderService :=
  match scheduled s !! key with
  | None => s
  | Some c =>
      if bool_decide (now < timerAt c) then s
      else
        let e := s_entry c in
        let s := with_fired (mkFired e (dueAt c) now) s in
        if bool_decide (0 < period e) then
          let ticked := with_lastFired now e in
          let next := nextDueAt now ticked in
          start_op (RecordingFired e now)
            (with_schedule (<[key := mkScheduled ticked next (Z.max now next) (sequence c)]> (scheduled s)) (localSequence s) s)
        else start_op (CleaningUp e) (with_schedule (delete key (scheduled s)) (localSequence s) s)
  end.

Inductive Fault := NoFault | FailBefore | FailAfter.

(** What a method under way does next: the table, the service and what the method
    waits for then. *)
Definition op_step (now : Z) (f : Fault) (o : Op) (t : MemoryReminderTable) (s : LocalReminderService)
    : MemoryReminderTable * LocalReminderService * Op :=
  match o with
  | Upserting g name start per =>
      let '(t', e) := upsert g name start per t in
      match f with
      | NoFault => (t', s, Upserted e)
      | FailBefore => (t, s, Done)
      | FailAfter => (t', s, Done)
      end
  | Upserted e => (t, if owns (r_grainId e) s then scheduleEntry now e (startAt e) s else s, Done)
  | UnregisterReading g name =>
      match f with
      | NoFault => (t, s, UnregisterRemoving g name (etag <$> table_read g name t))
      | _ => (t, s, Done)
      end
  | UnregisterRemoving g name None => (t, cancel (reminder_key g name) s, Done)
  | UnregisterRemoving g name (Some tag) =>
      let t' := (remove g name tag t).1 in
      match f with
      | NoFault => (t', s, Cancelling g name)
      | FailBefore => (t, s, Done)
      | FailAfter => (t', s, Done)
      end
  | Cancelling g name => (t, cancel (reminder_key g name) s, Done)
  | Reconciling n (r :: todo) owned refresh =>
      match f with
      | NoFault => (t, s, Reconciling n todo (add_owned (readRange r t) owned) refresh)
      | _ => (t, if refresh then scheduleRefresh s else s, Done)
      end
  | Reconciling n [] owned refresh =>
      let s := apply_owned now n owned s in
      (t, if refresh then scheduleRefresh s else s, Done)
  | RecordingFired e at_ => (match f with FailBefore => t | _ => recordFired (r_grainId e) (r_name e) (etag e) at_ t end, s, Done)
  | CleaningUp e => (match f with FailBefore => t | _ => (remove (r_grainId e) (r_name e) (etag e) t).1 end, s, Done)
  | Done => (t, s, Done)
  end.

(** ** A cluster *)

Inductive Label :=
  | Register (g : GrainId) (name : string) (due per : Z)
  | Unregister (g : GrainId) (name : string)
  | Refresh (r : list HashRange)
  | RefreshTimer
  | Stop
  | Fire (key : string)
  | Advance (k : nat) (f : Fault).

Definition service_step (now : Z) (l : Label) (t : MemoryReminderTable) (s : LocalReminderService)
    : MemoryReminderTable * LocalReminderService :=
  match l with
  | Register g name due per => (t, match register now g name due per s with inr s' => s' | inl _ => s end)
  | Unregister g name => (t, unregister g name s)
  | Refresh r => (t, refreshOwnership r s)
  | RefreshTimer => (t, refresh_timer s)
  | Stop => (t, stop s)
  | Fire key => (t, fire now key s)
  | Advance k f =>
      match ops s !! k with
      | None => (t, s)
      | Some o => let '(t', s', o') := op_step now f o t s in (t', with_ops (<[k := o']> (ops s')) s')
      end
  end.

Record Cluster := mkCluster { clock : Z; table : MemoryReminderTable; services : list LocalReminderService }.

(** A step of one silo, [d] milliseconds after the last one. *)
Definition cluster_step (d : Z) (i : nat) (l : Label) (w : Cluster) : Cluster :=
  let now := clock w + Z.max 0 d in
  match services w !! i with
  | None => mkCluster now (table w) (services w)
  | Some s => let '(t, s) := service_step now l (table w) s in mkCluster now t (<[i := s]> (services w))
  end.
Definition cluster_run (ls : list (Z * nat * Label)) (w : Cluster) : Cluster :=
  foldl (λ w l, cluster_step l.1.1 l.1.2 l.2 w) w ls.

(** ** The next tick *)

Lemma ceil_div_spec a b : 0 < b → a <= ceil_div a b * b < a + b.
Proof.
  intros Hb. unfold ceil_div. pose proof (Z.div_mod (- a) b ltac:(lia)) as Hd. pose proof (Z.mod_pos_bound (- a) b Hb). nia.
Qed.

(** An instant of the reminder's grid that was not fired and is not past. *)
Definition to_come (now : Z) (e : ReminderEntry) (n : Z) : Prop :=
  0 <= n ∧ now <= startAt e + n * period e ∧ ∀ t, lastFiredAt e = Some t → t < startAt e + n * period e.

Lemma nextDueAt_spec now e : 0 < period e →
  ∃ n, nextDueAt now e = startAt e + n * period e ∧ to_come now e n ∧ ∀ m, to_come now e m → n <= m.
Proof.
  intros Hp. unfold nextDueAt. rewrite bool_decide_false by lia.
  pose proof (ceil_div_spec (now - startAt e) (period e) Hp) as Hc. set (c := ceil_div (now - startAt e) (period e)) in *.
  destruct (lastFiredAt e) as [t|] eqn:Hl.
  - pose proof (Z.div_mod (t - startAt e) (period e) ltac:(lia)) as Hd. pose proof (Z.mod_pos_bound (t - startAt e) (period e) Hp).
    set (q := (t - startAt e) / period e) in *.
    eexists. split; [done|]. split.
    + split; [lia|]. split; [nia|]. intros t' Ht. assert (t' = t) as -> by congruence. nia.
    + intros m (Hm & Hn & Hf). rewrite Hl in Hf. specialize (Hf t eq_refl). assert (c <= m) by nia. assert (q + 1 <= m) by nia. lia.
  - eexists. split; [done|]. split; [split; [lia|]; split; [nia|]; intros t Ht; congruence|].
    intros m (Hm & Hn & _). assert (c <= m) by nia. lia.
Qed.

(** ** The schedule after a reconcile *)

Definition keyed (m : gmap string ReminderEntry) : Prop := ∀ k e, m !! k = Some e → key_of e = k.

(** The keys scheduled after some entries were, and with what: as before, or
    anew, after the sequence [q], in the place of an older one. *)
Definition placed (now n q : Z) (before after : option Scheduled) (e : ReminderEntry) : Prop :=
  ∃ c, after = Some c ∧
    ((before = Some c ∧ (etag (s_entry c) = etag e ∨ n <= sequence c)) ∨
     (s_entry c = e ∧ dueAt c = nextDueAt now e ∧ timerAt c = Z.max now (dueAt c) ∧ q < sequence c ∧
      ∀ c0, before = Some c0 → sequence c0 < n)).

Lemma placed_mono now n q q' before after e : q <= q' → placed now n q' before after e → placed now n q before after e.
Proof. intros Hq (c & Hc & [?|(? & ? & ? & ? & ?)]); exists c; (split; [done|]); [by left|right]. split_and!; (done || lia). Qed.

Lemma schedule_owned_sequence now n s e : localSequence s <= localSequence (schedule_owned now n s e).
Proof. unfold schedule_owned. destruct (scheduled s !! key_of e); [case_bool_decide|]; simpl; lia. Qed.

Lemma schedule_owned_other now n s e k : k ≠ key_of e → scheduled (schedule_owned now n s e) !! k = scheduled s !! k.
Proof.
  intros Hk. unfold schedule_owned, scheduleEntry. destruct (scheduled s !! key_of e); [case_bool_decide; [|done]|];
    simpl; by rewrite lookup_insert_ne.
Qed.

Lemma schedule_owned_own now n s e :
  placed now n (localSequence s) (scheduled s !! key_of e) (scheduled (schedule_owned now n s e) !! key_of e) e.
Proof.
  unfold schedule_owned, placed. destruct (scheduled s !! key_of e) as [c|] eqn:Hc.
  - case_bool_decide as Hd.
    + eexists. split; [simpl; apply lookup_insert_eq|]. right. simpl. split_and!; try done; [lia|]. intros c0 [= <-]. tauto.
    + exists c. split; [done|]. left. split; [done|]. destruct (decide (etag (s_entry c) = etag e)); [by left|right; lia].
  - eexists. split; [simpl; apply lookup_insert_eq|]. right. simpl. split_and!; (done || lia).
Qed.

Lemma schedule_list_lookup now n l : ∀ s k, NoDup (key_of <$> l) →
  match list_find (λ e, key_of e = k) l with
  | Some (_, e) => placed now n (localSequence s) (scheduled s !! k) (scheduled (foldl (schedule_owned now n) s l) !! k) e
  | None => scheduled (foldl (schedule_owned now n) s l) !! k = scheduled s !! k
  end.
Proof.
  induction l as [|e l IH]; intros s k Hnd; [done|]. inversion Hnd as [|? ? Hnin Hnd']; subst. simpl. case_decide as Hk.
  - subst k. specialize (IH (schedule_owned now n s e) (key_of e) Hnd').
    destruct (list_find _ l) as [[i e']|] eqn:Hf.
    + apply list_find_Some in Hf as (Hi & He & _). destruct Hnin. rewrite <- He. apply list_elem_of_fmap_2. by eapply list_elem_of_lookup_2.
    + rewrite IH. apply schedule_owned_own.
  - specialize (IH (schedule_owned now n s e) k Hnd'). rewrite schedule_owned_other in IH by done.
    destruct (list_find _ l) as [[i e']|]; simpl; [|done].
    eapply placed_mono; [apply schedule_owned_sequence|exact IH].
Qed.

Lemma owned_values owned : keyed owned → NoDup (key_of <$> (map_to_list owned).*2) ∧
  ∀ k, (λ x, x.2) <$> list_find (λ e, key_of e = k) (map_to_list owned).*2 = owned !! k.
Proof.
  intros Hk. assert (Hf : key_of <$> (map_to_list owned).*2 = (map_to_list owned).*1).
  { rewrite <- list_fmap_compose. apply list_fmap_ext. intros i [k e] Hi. simpl. apply Hk, elem_of_map_to_list.
    by eapply list_elem_of_lookup_2. }
  split; [rewrite Hf; apply NoDup_fst_map_to_list|]. intros k. destruct (list_find _ _) as [[i e]|] eqn:Hfi; simpl.
  - apply list_find_Some in Hfi as (Hi & <- & _). apply list_lookup_fmap_Some in Hi as ([k' e'] & -> & Hi). simpl.
    apply list_elem_of_lookup_2, elem_of_map_to_list in Hi. by rewrite (Hk _ _ Hi).
  - destruct (owned !! k) as [e|] eqn:He; [|done]. apply list_find_None in Hfi. rewrite Forall_forall in Hfi.
    destruct (Hfi e); [|by apply Hk]. apply list_elem_of_fmap. exists (k, e). split; [done|]. by apply elem_of_map_to_list.
Qed.

(** What a reconcile leaves under each key: an entry it read is scheduled, as it
    was if nothing changed; what it did not read is gone, unless it is newer than
    the read. *)
Lemma apply_owned_lookup now n owned s k : keyed owned →
  match owned !! k with
  | Some e => placed now n (localSequence s) (scheduled s !! k) (scheduled (apply_owned now n owned s) !! k) e
  | None => scheduled (apply_owned now n owned s) !! k =
      match scheduled s !! k with Some c => if bool_decide (n <= sequence c) then Some c else None | None => None end
  end.
Proof.
  intros Hk. destruct (owned_values owned Hk) as [Hnd Hfind]. specialize (Hfind k). unfold apply_owned.
  pose proof (schedule_list_lookup now n (map_to_list owned).*2 (cancel_lost n owned s) k Hnd) as Hl.
  assert (Hc : scheduled (cancel_lost n owned s) !! k =
    match scheduled s !! k with
    | Some c => if bool_decide (is_Some (owned !! k) ∨ n <= sequence c) then Some c else None
    | None => None
    end).
  { simpl. rewrite map_lookup_filter. destruct (scheduled s !! k) as [c|]; [|done]. simpl. case_bool_decide as Hd.
    - by rewrite option_guard_True.
    - by rewrite option_guard_False. }
  destruct (list_find _ _) as [[i e]|]; simpl in Hfind; rewrite <- Hfind in *; rewrite Hc in Hl.
  - destruct (scheduled s !! k) as [c|]; [|done]. rewrite bool_decide_true in Hl; [done|]. left. by eexists.
  - rewrite Hl. destruct (scheduled s !! k) as [c|]; [|done]. apply (f_equal (λ b : bool, if b then _ else _)), bool_decide_ext.
    split; [intros [[? ?]|?]; done|by right].
Qed.

(** ** The invariant of a service *)

Definition on_grid (e : ReminderEntry) (due : Z) : Prop := ∃ n, 0 <= n ∧ due = startAt e + n * period e.

(** A timer: its key, its age, and that a tick it still has to deliver is not
    before one that was, except for the first of a registration. *)
Record slot_ok (log : list Fired) (seq : Z) (k : string) (c : Scheduled) : Prop := {
  sl_key : key_of (s_entry c) = k;
  sl_sequence : sequence c <= seq;
  sl_timer : dueAt c <= timerAt c;
  sl_grid : 0 < period (s_entry c) → on_grid (s_entry c) (dueAt c);
  sl_later : 0 < period (s_entry c) → ∀ f, f ∈ log → key_of (f_entry f) = k →
    dueAt c = startAt (s_entry c) ∨ f_at f <= dueAt c }.

Definition op_ok (seq : Z) (o : Op) : Prop :=
  match o with Reconciling n _ owned _ => keyed owned ∧ n <= seq | _ => True end.

Definition log_ordered (l : list Fired) : Prop := ∀ j k fj fk, (j < k)%nat → l !! j = Some fj → l !! k = Some fk →
  key_of (f_entry fj) = key_of (f_entry fk) → 0 < period (f_entry fk) →
  f_due fk = startAt (f_entry fk) ∨ f_at fj <= f_due fk.

Record service_ok (now : Z) (s : LocalReminderService) : Prop := {
  sv_slots : ∀ k c, scheduled s !! k = Some c → slot_ok (fired s) (localSequence s) k c;
  sv_ops : Forall (op_ok (localSequence s)) (ops s);
  sv_fired : Forall (λ f, f_due f <= f_at f <= now ∧ (0 < period (f_entry f) → on_grid (f_entry f) (f_due f))) (fired s);
  sv_log : log_ordered (fired s) }.

Lemma slot_later log seq seq' k c : seq <= seq' → slot_ok log seq k c → slot_ok log seq' k c.
Proof. intros Hle [H1 H2 H3 H4 H5]. split; try done. lia. Qed.
Lemma op_later seq seq' o : seq <= seq' → op_ok seq o → op_ok seq' o.
Proof. destruct o; try done. simpl. intros Hle [H1 H2]. split; [done|lia]. Qed.

Lemma service_later now now' s : now <= now' → service_ok now s → service_ok now' s.
Proof. intros Hle [H1 H2 H3 H4]. split; try done. eapply Forall_impl; [exact H3|]. intros f [? ?]. split; [lia|done]. Qed.

(** A schedule whose slots are old ones or well formed. *)
Lemma with_schedule_ok now m n s : service_ok now s → localSequence s <= n →
  (∀ k c, m !! k = Some c → scheduled s !! k = Some c ∨ slot_ok (fired s) n k c) → service_ok now (with_schedule m n s).
Proof.
  intros [H1 H2 H3 H4] Hn Hm. split; simpl; try done.
  - intros k c Hc. destruct (Hm k c Hc) as [Hold|Hnew]; [|done]. by eapply slot_later, H1.
  - eapply Forall_impl; [exact H2|]. intros o. by apply op_later.
Qed.

Lemma with_ops_ok now l s : service_ok now s → Forall (op_ok (localSequence s)) l → service_ok now (with_ops l s).
Proof. intros [H1 H2 H3 H4] Hl. by split. Qed.

Lemma start_op_ok now o s : service_ok now s → op_ok (localSequence s) o → service_ok now (start_op o s).
Proof. intros Hs Ho. apply with_ops_ok; [done|]. apply Forall_app. split; [by apply sv_ops with now|by constructor]. Qed.

Lemma with_refresh_ok now b s : service_ok now s → service_ok now (with_refresh b s).
Proof. intros [H1 H2 H3 H4]. by split. Qed.
Lemma with_ranges_ok now r s : service_ok now s → service_ok now (with_ranges r s).
Proof. intros [H1 H2 H3 H4]. by split. Qed.
Lemma scheduleRefresh_ok now s : service_ok now s → service_ok now (scheduleRefresh s).
Proof. intros Hs. unfold scheduleRefresh. case_bool_decide; [done|by apply with_refresh_ok]. Qed.

Lemma cancel_ok now k s : service_ok now s → service_ok now (cancel k s).
Proof. intros Hs. apply with_schedule_ok; [done|lia|]. intros k' c [_ Hc]%lookup_delete_Some. by left. Qed.

(** Instants at which an entry may be scheduled. *)
Definition schedulable (now : Z) (log : list Fired) (e : ReminderEntry) (due : Z) : Prop :=
  0 < period e → on_grid e due ∧ (due = startAt e ∨ now <= due).

Lemma schedulable_slot now s e due seq : service_ok now s → schedulable now (fired s) e due → localSequence s <= seq →
  slot_ok (fired s) seq (key_of e) (mkScheduled e due (Z.max now due) seq).
Proof.
  intros Hs Hd Hseq. split; simpl; [done|lia|lia|by intros [? _]%Hd|].
  intros [_ Hlate]%Hd f Hf _. destruct Hlate as [->|Hle]; [by left|right].
  destruct (proj1 (Forall_forall _ _) (sv_fired _ _ Hs) f Hf) as [? _]. lia.
Qed.

Lemma scheduleEntry_ok now e due s : service_ok now s → schedulable now (fired s) e due → service_ok now (scheduleEntry now e due s).
Proof.
  intros Hs Hd. apply with_schedule_ok; [done|lia|]. intros k c [[<- <-]|[_ Hc]]%lookup_insert_Some; [|by left].
  right. apply (schedulable_slot now s); [done|done|lia].
Qed.

Lemma next_schedulable now log e : schedulable now log e (nextDueAt now e).
Proof.
  intros Hp. destruct (nextDueAt_spec now e Hp) as (n & -> & (Hn & Hnow & _) & _). split; [by exists n|by right].
Qed.
Lemma first_schedulable now log e : schedulable now log e (startAt e).
Proof. intros _. split; [exists 0; split; lia|by left]. Qed.

Lemma schedule_owned_ok now n s e : service_ok now s → service_ok now (schedule_owned now n s e).
Proof.
  intros Hs. unfold schedule_owned. destruct (scheduled s !! key_of e); [case_bool_decide; [|done]|];
    apply scheduleEntry_ok; try done; apply next_schedulable.
Qed.

(** A property of services that cancelling and scheduling keep. *)
Lemma apply_owned_ind (P : LocalReminderService → Prop) now n owned s :
  P (cancel_lost n owned s) → (∀ s e, P s → P (schedule_owned now n s e)) → P (apply_owned now n owned s).
Proof.
  unfold apply_owned. intros Hc Hs. revert Hc. generalize (cancel_lost n owned s).
  induction (map_to_list owned).*2 as [|e l IH]; intros s0 Hs0; [done|]. simpl. by apply IH, Hs.
Qed.

Lemma apply_owned_frame now n owned s :
  ranges (apply_owned now n owned s) = ranges s ∧ ops (apply_owned now n owned s) = ops s ∧
  localSequence s <= localSequence (apply_owned now n owned s).
Proof.
  apply (apply_owned_ind (λ s', ranges s' = ranges s ∧ ops s' = ops s ∧ localSequence s <= localSequence s')); [by simpl|].
  intros s0 e (H1 & H2 & H3). pose proof (schedule_owned_sequence now n s0 e).
  split; [|split; [|lia]]; unfold schedule_owned; destruct (scheduled s0 !! key_of e); try case_bool_decide; done.
Qed.

Lemma apply_owned_ok now n owned s : service_ok now s → service_ok now (apply_owned now n owned s).
Proof.
  intros Hs. apply apply_owned_ind; [|intros; by apply schedule_owned_ok].
  apply with_schedule_ok; [done|lia|]. intros k c [Hk _]%map_lookup_filter_Some. by left.
Qed.

Lemma reconcile_ok now b s : service_ok now s → service_ok now (reconcile b s).
Proof.
  intros Hs. apply start_op_ok; [|split; [by intros k e|simpl; lia]].
  apply with_schedule_ok; [done|lia|]. intros k c. by left.
Qed.

Lemma fire_ok now k s : service_ok now s → service_ok now (fire now k s).
Proof.
  intros Hs. unfold fire. destruct (scheduled s !! k) as [c|] eqn:Hc; [|done]. case_bool_decide as Ht; [done|].
  pose proof (sv_slots _ _ Hs k c Hc) as Hslot. destruct Hslot as [Hk Hseq Htm Hg Hl].
  set (f := mkFired (s_entry c) (dueAt c) now).
  assert (Hlog : Forall (λ f, f_due f <= f_at f <= now ∧ (0 < period (f_entry f) → on_grid (f_entry f) (f_due f))) (fired s ++ [f])).
  { apply Forall_app. split; [by apply sv_fired|]. constructor; [|constructor]. simpl. split; [lia|done]. }
  assert (Hord : log_ordered (fired s ++ [f])).
  { intros j i fj fi Hji Hj Hi Hkey Hp. apply lookup_snoc_Some in Hi as [[Hi Hfi]|[Hi <-]].
    - rewrite lookup_app_l in Hj by lia. by eapply (sv_log _ _ Hs j i).
    - rewrite lookup_app_l in Hj by lia. simpl in *. apply Hl; [done|by eapply list_elem_of_lookup_2|by rewrite Hkey]. }
  (* A slot of another reminder, or one due from now on. *)
  assert (Hother : ∀ k' c' seq, scheduled s !! k' = Some c' → k' ≠ k → localSequence s <= seq → slot_ok (fired s ++ [f]) seq k' c').
  { intros k' c' seq Hc' Hne Hle. destruct (sv_slots _ _ Hs k' c' Hc') as [A1 A2 A3 A4 A5]. split; try done; [lia|].
    intros Hp g [Hg'|Hg'%list_elem_of_singleton]%elem_of_app Hgk; [by apply A5|]. subst g. simpl in Hgk. congruence. }
  destruct Hs as [S1 S2 S3 S4]. case_bool_decide as Hp.
  - apply start_op_ok; [|done]. split; simpl; [|done|done|done].
    intros k' c' [[<- <-]|[Hne Hc']]%lookup_insert_Some; [|apply Hother; [done|by apply not_eq_sym|lia]].
    destruct (nextDueAt_spec now (with_lastFired now (s_entry c)) Hp) as (n & Hn & (Hn0 & Hnow & _) & _).
    split; simpl; [done|done|lia|intros _; by exists n|]. intros _ g Hg' _. right. rewrite Hn. simpl in Hnow |- *.
    destruct (proj1 (Forall_forall _ _) Hlog g Hg') as [? _]. lia.
  - apply start_op_ok; [|done]. split; simpl; [|done|done|done].
    intros k' c' [Hne Hc']%lookup_delete_Some. apply Hother; [done|by apply not_eq_sym|lia].
Qed.

Lemma add_owned_keyed l m : keyed m → keyed (add_owned l m).
Proof.
  revert m. induction l as [|e l IH]; intros m Hm; [done|]. simpl. apply IH. intros k e' [[<- <-]|[_ He]]%lookup_insert_Some; [done|by apply Hm].
Qed.

Lemma op_step_ok now f o t s t' s' o' : service_ok now s → op_ok (localSequence s) o → op_step now f o t s = (t', s', o') →
  service_ok now s' ∧ op_ok (localSequence s') o' ∧ ops s' = ops s.
Proof.
  intros Hs Ho. destruct o as [g name start per|e|g name|g name [tag|]|g name|n [|r todo] owned refresh|e a|e|]; simpl;
    try (intros [= <- <- <-]; by split).
  - destruct f; intros [= <- <- <-]; by split.
  - intros [= <- <- <-]. destruct (owns _ s); [|by split]. split; [|by split].
    apply scheduleEntry_ok; [done|]. apply first_schedulable.
  - destruct f; intros [= <- <- <-]; by split.
  - destruct f; intros [= <- <- <-]; by split.
  - intros [= <- <- <-]. split; [by apply cancel_ok|by split].
  - intros [= <- <- <-]. split; [by apply cancel_ok|by split].
  - intros [= <- <- <-]. pose proof (apply_owned_ok now n owned s Hs) as Ha.
    destruct (apply_owned_frame now n owned s) as (_ & Hops & _).
    destruct refresh; [|by split]. split; [by apply scheduleRefresh_ok|]. split; [done|].
    unfold scheduleRefresh. by case_bool_decide.
  - destruct Ho as [Hk Hn]. destruct f; intros [= <- <- <-]; [split; [done|]; split; [|done]; split; [by apply add_owned_keyed|done]|..];
      (destruct refresh; [|by split]; split; [by apply scheduleRefresh_ok|]; split; [done|]; unfold scheduleRefresh; by case_bool_decide).
Qed.

Lemma service_step_ok now l t s t' s' : service_ok now s → service_step now l t s = (t', s') → service_ok now s'.
Proof.
  intros Hs. destruct l as [g name due per|g name|r| | |k|k f]; simpl.
  - unfold register. repeat case_bool_decide; intros [= <- <-]; try done. by apply start_op_ok.
  - intros [= <- <-]. by apply start_op_ok.
  - intros [= <- <-]. by apply reconcile_ok, with_ranges_ok.
  - intros [= <- <-]. unfold refresh_timer. destruct (refreshHandle s); [|done]. by apply reconcile_ok, scheduleRefresh_ok, with_refresh_ok.
  - intros [= <- <-]. apply with_schedule_ok; [by apply with_refresh_ok|simpl; lia|done].
  - intros [= <- <-]. by apply fire_ok.
  - destruct (ops s !! k) as [o|] eqn:Ho; [|by intros [= <- <-]].
    destruct (op_step now f o t s) as [[t1 s1] o1] eqn:Hstep. intros [= <- <-].
    destruct (op_step_ok now f o t s t1 s1 o1) as (H1 & H2 & H3); [done|by eapply Forall_lookup_1; [apply sv_ops with now|]|done|].
    apply with_ops_ok; [done|]. apply Forall_insert; [|done]. by apply sv_ops with now.
Qed.

Definition cluster_ok (w : Cluster) : Prop := Forall (service_ok (clock w)) (services w).

Lemma cluster_run_ok ls : ∀ w, cluster_ok w → cluster_ok (cluster_run ls w).
Proof.
  induction ls as [|[[d i] l] ls IH]; intros w Hw; [done|]. simpl. apply IH. unfold cluster_step, cluster_ok. simpl.
  set (now := clock w + Z.max 0 d).
  assert (Hnow : Forall (service_ok now) (services w)) by (eapply Forall_impl; [exact Hw|]; intros s; apply service_later; unfold now; lia).
  destruct (services w !! i) as [s|] eqn:Hi; [|done]. destruct (service_step now l (table w) s) as [t s'] eqn:Hstep.
  simpl. apply Forall_insert; [done|]. eapply service_step_ok; [|done]. by eapply Forall_lookup_1.
Qed.

Lemma new_service_ok now r ms min : service_ok now (new_service r ms min).
Proof. split; simpl; [by intros k c|constructor|constructor|]. intros j k fj fk _ Hj. by rewrite lookup_nil in Hj. Qed.

Definition start_cluster (silos : list (list HashRange * Z * option Z)) : Cluster :=
  mkCluster 0 empty_table ((λ x, new_service x.1.1 x.1.2 x.2) <$> silos).

(** Ticks stay on the grid and come in order. Whatever is registered, changed,
    removed, refreshed, fired and stopped at any silos, with calls of the table
    overlapping and failing on either side of their effect: each tick of a periodic
    reminder that a silo delivers is for an instant [startAt + n * period] that has
    come, and, unless it is the first of its registration, for one that is not
    before the last delivery of that reminder by the silo. So lateness does not
    drag the schedule along, and time away is not caught up on. *)
Theorem reminder_ticks_in_order silos ls i s :
  services (cluster_run ls (start_cluster silos)) !! i = Some s →
  (∀ f, f ∈ fired s → f_due f <= f_at f <= clock (cluster_run ls (start_cluster silos)) ∧
     (0 < period (f_entry f) → on_grid (f_entry f) (f_due f))) ∧
  (∀ j k fj fk, (j < k)%nat → fired s !! j = Some fj → fired s !! k = Some fk →
     key_of (f_entry fj) = key_of (f_entry fk) → 0 < period (f_entry fk) →
     f_due fk = startAt (f_entry fk) ∨ f_at fj <= f_due fk).
Proof.
  intros Hi. assert (Hw : cluster_ok (start_cluster silos)).
  { apply Forall_fmap, Forall_forall. intros x _. apply new_service_ok. }
  pose proof (cluster_run_ok ls _ Hw) as Hr. pose proof (proj1 (Forall_lookup _ _) Hr i s Hi) as [_ _ H3 H4].
  split; [|exact H4]. by apply Forall_forall.
Qed.

(** ** One owner

    What a silo's schedule says about the table, while its reconciles read, its own
    registrations overlap them and its timers fire. *)

(** What the table has for a range: the version and the hash of a reminder. *)
Definition wants (r : list HashRange) (t : MemoryReminderTable) (k : string) (tag h : Z) : Prop :=
  ∃ tk e, entries t !! tk = Some e ∧ key_of e = k ∧ etag e = tag ∧ reminder_hash e = h ∧ isHashInRanges h r = true.

(** The reminder a registration under way is for. *)
Definition registering (o : Op) : option string :=
  match o with
  | Upserting g name _ _ => Some (reminder_key g name)
  | Upserted e => Some (key_of e)
  | _ => None
  end.
Definition settled (s : LocalReminderService) : Prop := ∀ o, o ∈ ops s → registering o = None.
(** No two registrations of one reminder are under way. *)
Definition apart (l : list Op) : Prop := ∀ i j oi oj k, l !! i = Some oi → l !! j = Some oj →
  registering oi = Some k → registering oj = Some k → i = j.

(** The table has the version, the schedule not yet. *)
Definition pending (s : LocalReminderService) (k : string) (tag : Z) : Prop :=
  ∃ e, Upserted e ∈ ops s ∧ key_of e = k ∧ etag e = tag.
(** The version is known here, later than a read that began at [n]. *)
Definition later (s : LocalReminderService) (n : Z) (k : string) (tag : Z) : Prop :=
  pending s k tag ∨ ∃ c, scheduled s !! k = Some c ∧ etag (s_entry c) = tag ∧ n <= sequence c.

Lemma add_owned_lookup l : ∀ m k e, add_owned l m !! k = Some e → (e ∈ l ∧ key_of e = k) ∨ m !! k = Some e.
Proof.
  induction l as [|x l IH]; intros m k e; [by right|]. simpl. intros [[Hin Hk]|[[<- <-]|[_ Hm]]%lookup_insert_Some]%IH.
  - left. split; [by right|done].
  - left. split; [by left|done].
  - by right.
Qed.

Lemma add_owned_has l : ∀ m k, (∃ e, e ∈ l ∧ key_of e = k) ∨ is_Some (m !! k) → is_Some (add_owned l m !! k).
Proof.
  induction l as [|x l IH]; intros m k; simpl; [intros [(e & He & _)|?]; [by apply elem_of_nil in He|done]|].
  intros [(e & [->|He]%elem_of_cons & Hk)|Hm]; apply IH.
  - right. rewrite Hk, lookup_insert_eq. by eexists.
  - left. by exists e.
  - right. destruct (decide (key_of x = k)) as [->|Hne]; [rewrite lookup_insert_eq; by eexists|by rewrite lookup_insert_ne].
Qed.

Lemma elem_of_readRange e r t : e ∈ readRange r t ↔ (∃ k, entries t !! k = Some e) ∧ isHashInRange (reminder_hash e) r.1 r.2 = true.
Proof.
  unfold readRange. rewrite list_elem_of_filter, list_elem_of_fmap. split.
  - intros [Hh ([k e'] & -> & Hin%elem_of_map_to_list)]. split; [by exists k|done].
  - intros [[k Hk] Hh]. split; [done|]. exists (k, e). split; [done|]. by apply elem_of_map_to_list.
Qed.

Section service_window.
Context (known : GrainId → string → Prop) (r : list HashRange) (base : Z).

(** The methods that may be under way. *)
Definition window_op (s : LocalReminderService) (W : string → Z → Z → Prop) (o : Op) : Prop :=
  match o with
  | Upserting g name _ _ => known g name ∧ isHashInRanges (getUniformHashCode g) r = true
  | Upserted e => W (key_of e) (etag e) (reminder_hash e)
  | Reconciling n todo owned _ =>
      base < n ∧ (∀ h, isHashInRanges h todo = true → isHashInRanges h r = true) ∧
      (∀ k e, owned !! k = Some e → ∃ tag h, W k tag h ∧ (etag e = tag ∨ later s n k tag)) ∧
      (∀ k tag h, W k tag h → isHashInRanges h todo = true ∨ is_Some (owned !! k) ∨ later s n k tag)
  | RecordingFired _ _ | Done => True
  | _ => False
  end.

Record window_ok (W : string → Z → Z → Prop) (s : LocalReminderService) : Prop := {
  wi_ranges : ranges s = r;
  wi_ops : Forall (window_op s W) (ops s);
  wi_apart : apart (ops s);
  wi_base : base <= localSequence s;
  wi_slots : ∀ k c, scheduled s !! k = Some c → base < sequence c →
    ∃ tag h, W k tag h ∧ (etag (s_entry c) = tag ∨ pending s k tag) }.

(** The schedule is the table's. *)
Record synced (W : string → Z → Z → Prop) (s : LocalReminderService) : Prop := {
  sy_slots : ∀ k c, scheduled s !! k = Some c → ∃ tag h, W k tag h ∧ (etag (s_entry c) = tag ∨ pending s k tag);
  sy_all : ∀ k tag h, W k tag h → pending s k tag ∨ ∃ c, scheduled s !! k = Some c ∧ etag (s_entry c) = tag }.

(** A step that keeps what the silo knows: what was pending or scheduled since
    some read still is, whatever else there is was there before. *)
Record keeps (s s' : LocalReminderService) : Prop := {
  kp_ranges : ranges s' = ranges s;
  kp_sequence : localSequence s <= localSequence s';
  kp_pending : ∀ k tag, pending s k tag → pending s' k tag;
  kp_slots : ∀ k c, scheduled s !! k = Some c →
    ∃ c', scheduled s' !! k = Some c' ∧ etag (s_entry c') = etag (s_entry c) ∧ sequence c' = sequence c;
  kp_old : ∀ k c', scheduled s' !! k = Some c' →
    ∃ c, scheduled s !! k = Some c ∧ etag (s_entry c') = etag (s_entry c) ∧ sequence c' = sequence c }.

Lemma keeps_later s s' n k tag : keeps s s' → later s n k tag → later s' n k tag.
Proof.
  intros [_ _ Hp Hs _] [Hl|(c & Hc & Ht & Hn)]; [left; by apply Hp|right].
  destruct (Hs k c Hc) as (c' & Hc' & Ht' & Hq). exists c'. split; [done|]. split; [congruence|lia].
Qed.

Lemma window_op_mono W s s' o : (∀ n k tag h, W k tag h → later s n k tag → later s' n k tag) →
  window_op s W o → window_op s' W o.
Proof.
  intros Hl. destruct o; try done. simpl. intros (H1 & H2 & H3 & H4). split_and!; [done|done| |].
  - intros k e Hk. destruct (H3 k e Hk) as (tag & h & HW & [?|?]); exists tag, h; (split; [done|]); [by left|right; by eapply Hl].
  - intros k tag h HW. destruct (H4 k tag h HW) as [?|[?|?]]; [by left|right; by left|right; right; by eapply Hl].
Qed.

Lemma keeps_window W s s' : window_ok W s → keeps s s' →
  Forall (λ o, o ∈ ops s ∨ window_op s' W o) (ops s') → apart (ops s') → window_ok W s'.
Proof.
  intros [H1 H2 H3 H4 H5] Hk Hops Hnd. assert (Hl := λ n k tag, keeps_later s s' n k tag Hk). destruct Hk as [K1 K2 K3 K4 K5].
  split; [congruence| |done|lia|].
  - eapply Forall_impl; [exact Hops|]. intros o [Ho|Ho]; [|done]. eapply window_op_mono; [|by eapply Forall_forall in H2].
    intros n k tag h _. by apply Hl.
  - intros k c' Hc' Hb. destruct (K5 k c' Hc') as (c & Hc & Ht & Hq). destruct (H5 k c Hc ltac:(lia)) as (tag & h & HW & Hor).
    exists tag, h. split; [done|]. destruct Hor as [?|?]; [left; congruence|right; by apply K3].
Qed.

Lemma keeps_synced W s s' : synced W s → keeps s s' → synced W s'.
Proof.
  intros [H1 H2] [_ _ K3 K4 K5]. split.
  - intros k c' Hc'. destruct (K5 k c' Hc') as (c & Hc & Ht & _). destruct (H1 k c Hc) as (tag & h & HW & Hor).
    exists tag, h. split; [done|]. destruct Hor as [?|?]; [left; congruence|right; by apply K3].
  - intros k tag h HW. destruct (H2 k tag h HW) as [?|(c & Hc & Ht)]; [left; by apply K3|right].
    destruct (K4 k c Hc) as (c' & Hc' & Ht' & _). exists c'. split; [done|congruence].
Qed.

(** *** Steps that keep what the silo knows *)

Lemma pending_insert s k o l x tag : ops s !! k = Some o → (∀ e, o ≠ Upserted e) →
  pending s x tag → pending (with_ops (<[k := l]> (ops s)) s) x tag.
Proof.
  intros Hk Ho (e & [i Hi]%list_elem_of_lookup & Hx & Ht). exists e. split; [|done].
  apply list_elem_of_lookup. exists i. simpl. rewrite list_lookup_insert_ne; [done|]. intros ->. destruct (Ho e). congruence.
Qed.

Lemma apart_insert l k o o' : apart l → l !! k = Some o → (registering o' = None ∨ registering o' = registering o) →
  apart (<[k := o']> l).
Proof.
  intros Ha Hk Hr.
  assert (Hget : ∀ i x key, <[k := o']> l !! i = Some x → registering x = Some key →
    ∃ y, l !! i = Some y ∧ registering y = Some key).
  { intros i x key [(<- & <- & _)|[_ Hi]]%list_lookup_insert_Some Hx; [|by exists x].
    destruct Hr as [Hr|Hr]; [congruence|]. exists o. split; [done|congruence]. }
  intros i j oi oj key Hi Hj Hri Hrj. destruct (Hget i oi key Hi Hri) as (x & Hx & Hxk), (Hget j oj key Hj Hrj) as (y & Hy & Hyk).
  by eapply Ha.
Qed.

Lemma apart_snoc l o : apart l → (∀ k x, registering o = Some k → x ∈ l → registering x ≠ Some k) → apart (l ++ [o]).
Proof.
  intros Ha Ho i j oi oj k [[Hi Hoi]|[Hi <-]]%lookup_snoc_Some [[Hj Hoj]|[Hj <-]]%lookup_snoc_Some Hri Hrj; [by eapply Ha| | |lia].
  - destruct (Ho k oi Hrj); [by eapply list_elem_of_lookup_2|done].
  - destruct (Ho k oj Hri); [by eapply list_elem_of_lookup_2|done].
Qed.

Lemma keeps_advance s k o o' : ops s !! k = Some o → (∀ e, o ≠ Upserted e) → keeps s (with_ops (<[k := o']> (ops s)) s).
Proof. intros Hk Ho. split; simpl; try done; [intros; by eapply pending_insert|eauto..]. Qed.

Lemma window_advance W s k o o' : window_ok W s → ops s !! k = Some o → (∀ e, o ≠ Upserted e) →
  (registering o' = None ∨ registering o' = registering o) → window_op (with_ops (<[k := o']> (ops s)) s) W o' →
  window_ok W (with_ops (<[k := o']> (ops s)) s).
Proof.
  intros Hs Hk Ho Hr Hw. eapply keeps_window; [exact Hs|by eapply keeps_advance| |].
  - simpl. apply Forall_forall. intros x [i Hi]%list_elem_of_lookup.
    apply list_lookup_insert_Some in Hi as [(_ & <- & _)|[_ Hi]]; [by right|left; by eapply list_elem_of_lookup_2].
  - eapply apart_insert; [by apply Hs|done|done].
Qed.

Lemma keeps_start s o n b : localSequence s <= n →
  keeps s (start_op o (with_schedule (scheduled s) n (with_refresh b s))).
Proof.
  intros Hn. split; simpl; try done; [|eauto..].
  intros k tag (e & He & Hk). exists e. split; [|done]. simpl. apply elem_of_app. by left.
Qed.

Lemma window_start_op W s o n b : window_ok W s → localSequence s <= n →
  let s' := start_op o (with_schedule (scheduled s) n (with_refresh b s)) in
  window_op s' W o → (∀ k x, registering o = Some k → x ∈ ops s → registering x ≠ Some k) → window_ok W s'.
Proof.
  intros Hs Hn s' Ho Hr. eapply keeps_window; [exact Hs|by apply keeps_start| |].
  - simpl. apply Forall_app. split; [apply Forall_forall; intros x Hx; by left|]. constructor; [by right|done].
  - simpl. apply apart_snoc; [by apply Hs|done].
Qed.

(** *** A reconcile takes effect *)

Section applying.
Context (W : string → Z → Z → Prop).
Context (Wfun : ∀ k tag h tag' h', W k tag h → W k tag' h' → tag = tag' ∧ h = h').
Context (now n : Z) (owned : gmap string ReminderEntry) (s : LocalReminderService).
Context (Hs : window_ok W s) (Hkeyed : keyed owned) (Hn : base < n)
  (Howned : ∀ k e, owned !! k = Some e → ∃ tag h, W k tag h ∧ (etag e = tag ∨ later s n k tag))
  (Hall : ∀ k tag h, W k tag h → is_Some (owned !! k) ∨ later s n k tag).

Let s' := apply_owned now n owned s.

Lemma apply_pending k tag : pending s' k tag ↔ pending s k tag.
Proof using Type. unfold pending, s'. destruct (apply_owned_frame now n owned s) as (_ & -> & _). done. Qed.

(** A slot that was newer than the read holds what the table has. *)
Lemma newer_slot k c tag h : scheduled s !! k = Some c → n <= sequence c → W k tag h →
  etag (s_entry c) = tag ∨ pending s k tag.
Proof using Wfun Hs Hn.
  intros Hc Hq HW. destruct (wi_slots _ _ Hs k c Hc ltac:(lia)) as (tag' & h' & HW' & Hor).
  destruct (Wfun _ _ _ _ _ HW HW') as [-> ->]. done.
Qed.

(** An entry that was read: its slot holds what the table has. *)
Lemma applied_entry k e : owned !! k = Some e → ∃ c tag h, scheduled s' !! k = Some c ∧ W k tag h ∧
  (etag (s_entry c) = tag ∨ pending s k tag).
Proof using Wfun Hs Hkeyed Hn Howned.
  intros He. destruct (Howned k e He) as (tag & h & HW & Hor).
  pose proof (apply_owned_lookup now n owned s k Hkeyed) as Ha. rewrite He in Ha. destruct Ha as (c & Hc & Hcase).
  exists c, tag, h. split; [done|]. split; [done|]. destruct Hcase as [[Hb [Htag|Hq]]|(-> & _ & _ & _ & Hold)].
  - destruct Hor as [?|[?|(c' & Hc' & Ht & _)]]; [left; congruence|by right|left; congruence].
  - by apply (newer_slot k c tag h).
  - destruct Hor as [?|[?|(c' & Hc' & Ht & Hle)]]; [by left|by right|]. specialize (Hold c' Hc'). lia.
Qed.

Lemma applied_synced : synced W s'.
Proof using Wfun Hs Hkeyed Hn Howned Hall.
  split.
  - intros k c Hc. destruct (owned !! k) as [e|] eqn:He.
    + destruct (applied_entry k e He) as (c' & tag & h & Hc' & HW & Hor). assert (c' = c) as -> by congruence.
      exists tag, h. split; [done|]. destruct Hor as [?|?]; [by left|right; by apply apply_pending].
    + pose proof (apply_owned_lookup now n owned s k Hkeyed) as Ha. rewrite He in Ha. unfold s' in Hc. rewrite Ha in Hc.
      destruct (scheduled s !! k) as [c0|] eqn:Hc0; [|done]. case_bool_decide as Hq; [|done]. injection Hc as ->.
      destruct (wi_slots _ _ Hs k c Hc0 ltac:(lia)) as (tag & h & HW & Hor). exists tag, h. split; [done|].
      destruct Hor as [?|?]; [by left|right; by apply apply_pending].
  - intros k tag h HW. destruct (owned !! k) as [e|] eqn:He.
    + destruct (applied_entry k e He) as (c & tag' & h' & Hc & HW' & Hor). destruct (Wfun _ _ _ _ _ HW HW') as [-> ->].
      destruct Hor as [?|?]; [right; by exists c|left; by apply apply_pending].
    + destruct (Hall k tag h HW) as [[? ?]|[Hp|(c & Hc & Ht & Hq)]]; [congruence|left; by apply apply_pending|right].
      exists c. split; [|done]. pose proof (apply_owned_lookup now n owned s k Hkeyed) as Ha. rewrite He, Hc in Ha.
      by rewrite bool_decide_true in Ha.
Qed.

(** What other reconciles under way rely on. *)
Lemma applied_later m k tag h : base < m → m <= localSequence s → W k tag h → later s m k tag → later s' m k tag.
Proof using Wfun Hs Hkeyed Hn Howned Hall.
  intros Hb Hm HW [Hp|(c & Hc & Ht & Hq)]; [left; by apply apply_pending|].
  pose proof (apply_owned_lookup now n owned s k Hkeyed) as Ha. destruct (owned !! k) as [e|] eqn:He.
  - destruct Ha as (c' & Hc' & [[Hsame _]|(_ & _ & _ & Hseq & _)]).
    + right. exists c'. split; [done|]. assert (c' = c) as -> by congruence. done.
    + destruct (sy_all _ _ applied_synced k tag h HW) as [?|(c2 & Hc2 & Ht2)]; [by left|right].
      exists c2. split; [done|]. split; [done|]. assert (c2 = c') as -> by (unfold s' in Hc2; congruence). lia.
  - destruct (sy_all _ _ applied_synced k tag h HW) as [?|(c2 & Hc2 & Ht2)]; [by left|right].
    exists c2. split; [done|]. split; [done|]. unfold s' in Hc2. rewrite Ha, Hc in Hc2. case_bool_decide; [|done].
    by injection Hc2 as <-.
Qed.

Lemma applied_window : Forall (op_ok (localSequence s)) (ops s) → window_ok W s'.
Proof using Wfun Hs Hkeyed Hn Howned Hall.
  intros Hop. destruct (apply_owned_frame now n owned s) as (Hr & Ho & Hq). pose proof Hs as [H1 H2 H3 H4 H5]. split.
  - unfold s'. congruence.
  - unfold s'. rewrite Ho. fold s'. apply Forall_forall. intros o Hin.
    rewrite Forall_forall in H2, Hop. specialize (H2 o Hin). specialize (Hop o Hin). destruct o; try done.
    simpl in H2, Hop |- *. destruct H2 as (A1 & A2 & A3 & A4), Hop as [_ B2]. split_and!; [done|done| |].
    + intros k e Hk. destruct (A3 k e Hk) as (tag & h & HW & [?|?]); exists tag, h; (split; [done|]); [by left|right].
      by eapply applied_later.
    + intros k tag h HW. destruct (A4 k tag h HW) as [?|[?|?]]; [by left|right; by left|right; right].
      by eapply applied_later.
  - unfold s'. by rewrite Ho.
  - unfold s'. lia.
  - intros k c Hc _. destruct (sy_slots _ _ applied_synced k c Hc) as (tag & h & HW & Hor). exists tag, h. done.
Qed.
End applying.

(** *** A reconcile reads a range *)

Lemma read_window t s k n x todo owned b :
  keyed owned → window_ok (wants r t) s → ops s !! k = Some (Reconciling n (x :: todo) owned b) →
  window_ok (wants r t) (with_ops (<[k := Reconciling n todo (add_owned (readRange x t) owned) b]> (ops s)) s).
Proof.
  intros Hkeyed Hs Hk. eapply window_advance; [done|done|done|by left|].
  assert (Hkp := keeps_advance s k _ (Reconciling n todo (add_owned (readRange x t) owned) b) Hk ltac:(done)).
  pose proof (proj1 (Forall_forall _ _) (wi_ops _ _ Hs) _ (list_elem_of_lookup_2 _ _ _ Hk)) as (H1 & H2 & H3 & H4).
  destruct x as [x1 x2]. simpl in H2, H4. simpl. split_and!; [done| | |].
  - intros h Hh. apply H2. rewrite Hh. apply orb_true_r.
  - intros key e [[Hin Hkey]|Ho]%add_owned_lookup.
    + apply elem_of_readRange in Hin as [[tk Htk] Hr]. simpl in Hr. exists (etag e), (reminder_hash e). split; [|by left].
      exists tk, e. split_and!; try done. apply H2. by rewrite Hr.
    + destruct (H3 key e Ho) as (tag & h & HW & [?|?]); exists tag, h; (split; [done|]); [by left|right; by eapply keeps_later].
  - intros key tag h HW. destruct (H4 key tag h HW) as [[Hh|Hh]%orb_prop|[Ho|Hl]].
    + right; left. apply add_owned_has. left. destruct HW as (tk & e & He & Hkey & _ & Hhash & _). exists e. split; [|done].
      apply elem_of_readRange. split; [by exists tk|]. simpl. by rewrite Hhash.
    + by left.
    + right; left. apply add_owned_has. by right.
    + right; right. by eapply keeps_later.
Qed.

(** *** A registration *)

Lemma upsert_window W W' s k g name start per e :
  window_ok W s → ops s !! k = Some (Upserting g name start per) → key_of e = reminder_key g name →
  W' (key_of e) (etag e) (reminder_hash e) →
  (∀ x tag h, W' x tag h → (x = key_of e ∧ tag = etag e) ∨ (x ≠ key_of e ∧ W x tag h)) →
  (∀ x tag h, W x tag h → x ≠ key_of e → W' x tag h) →
  let s' := with_ops (<[k := Upserted e]> (ops s)) s in
  window_ok W' s' ∧ (synced W s → synced W' s').
Proof.
  intros Hs Hk Hkey Hnew Hfrom Hkeep s'.
  assert (Hkp : keeps s s') by by eapply keeps_advance.
  assert (Hlen := lookup_lt_Some _ _ _ Hk).
  assert (Hpend : pending s' (key_of e) (etag e)).
  { exists e. split; [|done]. apply list_elem_of_lookup. exists k. by apply list_lookup_insert_eq. }
  assert (Hmove : ∀ x c, (∃ tag h, W x tag h ∧ (etag (s_entry c) = tag ∨ pending s x tag)) →
    ∃ tag h, W' x tag h ∧ (etag (s_entry c) = tag ∨ pending s' x tag)).
  { intros x c (tag & h & HW & Hor). destruct (decide (x = key_of e)) as [->|Hne].
    - exists (etag e), (reminder_hash e). split; [done|by right].
    - exists tag, h. split; [by apply Hkeep|]. destruct Hor as [?|?]; [by left|right; by eapply kp_pending]. }
  split.
  - destruct Hs as [H1 H2 H3 H4 H5]. split; [done| | |done|].
    + simpl. apply Forall_forall. intros o [i Hi]%list_elem_of_lookup.
      apply list_lookup_insert_Some in Hi as [(_ & <- & _)|[Hik Hi]]; [done|].
      pose proof (proj1 (Forall_forall _ _) H2 _ (list_elem_of_lookup_2 _ _ _ Hi)) as Ho. destruct o; try done.
      * simpl in Ho |- *. apply Hkeep; [done|]. intros Heq. destruct Hik. apply (H3 k i _ _ (reminder_key g name) Hk Hi); simpl; congruence.
      * simpl in Ho |- *. destruct Ho as (A1 & A2 & A3 & A4). split_and!; [done|done| |].
        -- intros x e0 Hx. destruct (A3 x e0 Hx) as (tag & h & HW & Hor). destruct (decide (x = key_of e)) as [->|Hne].
           ++ exists (etag e), (reminder_hash e). split; [done|]. right. by left.
           ++ exists tag, h. split; [by apply Hkeep|]. destruct Hor as [?|?]; [by left|right; by eapply keeps_later].
        -- intros x tag h [[-> ->]|[Hne HW]]%Hfrom; [right; right; by left|].
           destruct (A4 x tag h HW) as [?|[?|?]]; [by left|right; by left|right; right; by eapply keeps_later].
    + simpl. eapply apart_insert; [done|exact Hk|]. right. simpl. by rewrite Hkey.
    + intros x c Hc Hb. apply Hmove. by apply (H5 x c).
  - intros [Y1 Y2]. split.
    + intros x c Hc. apply Hmove. by apply (Y1 x c).
    + intros x tag h [[-> ->]|[Hne HW]]%Hfrom; [by left|]. destruct (Y2 x tag h HW) as [?|?]; [left; by eapply kp_pending|by right].
Qed.

Lemma registered_window W s k e now : (∀ x tag h tag' h', W x tag h → W x tag' h' → tag = tag' ∧ h = h') →
  Forall (op_ok (localSequence s)) (ops s) →
  window_ok W s → ops s !! k = Some (Upserted e) →
  let s' := with_ops (<[k := Done]> (ops s)) (scheduleEntry now e (startAt e) s) in
  window_ok W s' ∧ (synced W s → synced W s').
Proof.
  intros Wfun Hop Hs Hk s'. pose proof Hs as [H1 H2 H3 H4 H5].
  pose proof (proj1 (Forall_forall _ _) H2 _ (list_elem_of_lookup_2 _ _ _ Hk)) as HW. simpl in HW.
  set (c := mkScheduled e (startAt e) (Z.max now (startAt e)) (localSequence s + 1)).
  assert (Hslot : scheduled s' !! key_of e = Some c) by apply lookup_insert_eq.
  assert (Hother : ∀ x, x ≠ key_of e → scheduled s' !! x = scheduled s !! x)
    by (intros x Hx; simpl; by rewrite lookup_insert_ne).
  assert (Hpend : ∀ x tag, pending s x tag → pending s' x tag ∨ x = key_of e).
  { intros x tag (e' & [i Hi]%list_elem_of_lookup & Hx & Ht). destruct (decide (i = k)) as [->|Hne]; [right; congruence|left].
    exists e'. split; [|done]. apply list_elem_of_lookup. exists i. simpl. by rewrite list_lookup_insert_ne. }
  assert (Hlater : ∀ m x tag h, m <= localSequence s → W x tag h → later s m x tag → later s' m x tag).
  { intros m x tag h Hm HWx Hl. destruct (decide (x = key_of e)) as [->|Hne].
    - right. exists c. split; [done|]. destruct (Wfun _ _ _ _ _ HW HWx) as [<- _]. split; [done|]. simpl. lia.
    - destruct Hl as [[?|?]%Hpend|(c0 & Hc0 & ?)]; [by left|done|right]. exists c0. by rewrite Hother. }
  assert (Hmove : ∀ x tag h c0, W x tag h → etag (s_entry c0) = tag ∨ pending s x tag → x ≠ key_of e →
    etag (s_entry c0) = tag ∨ pending s' x tag).
  { intros x tag h c0 _ [?|[?|?]%Hpend] Hne; [by left|by right|done]. }
  split.
  - split; [done| | |simpl; lia|].
    + simpl. apply Forall_forall. intros o [i Hi]%list_elem_of_lookup.
      apply list_lookup_insert_Some in Hi as [(_ & <- & _)|[Hik Hi]]; [done|].
      apply list_elem_of_lookup_2 in Hi. rewrite Forall_forall in H2, Hop. specialize (H2 o Hi). specialize (Hop o Hi).
      destruct o; try done. simpl in H2, Hop |- *. destruct H2 as (A1 & A2 & A3 & A4), Hop as [_ B2]. split_and!; [done|done| |].
      * intros x e0 Hx. destruct (A3 x e0 Hx) as (tag & h & HWx & [?|?]); exists tag, h; (split; [done|]); [by left|right; by eapply Hlater].
      * intros x tag h HWx. destruct (A4 x tag h HWx) as [?|[?|?]]; [by left|right; by left|right; right; by eapply Hlater].
    + simpl. eapply apart_insert; [done|exact Hk|by left].
    + intros x c0 Hc0 Hb. destruct (decide (x = key_of e)) as [->|Hne].
      * exists (etag e), (reminder_hash e). split; [done|]. left. rewrite Hslot in Hc0. by injection Hc0 as <-.
      * rewrite Hother in Hc0 by done. destruct (H5 x c0 Hc0 Hb) as (tag & h & HWx & Hor). exists tag, h. split; [done|]. by eapply Hmove.
  - intros [Y1 Y2]. split.
    + intros x c0 Hc0. destruct (decide (x = key_of e)) as [->|Hne].
      * exists (etag e), (reminder_hash e). split; [done|]. left. rewrite Hslot in Hc0. by injection Hc0 as <-.
      * rewrite Hother in Hc0 by done. destruct (Y1 x c0 Hc0) as (tag & h & HWx & Hor). exists tag, h. split; [done|]. by eapply Hmove.
    + intros x tag h HWx. destruct (decide (x = key_of e)) as [->|Hne].
      * right. exists c. split; [done|]. by destruct (Wfun _ _ _ _ _ HW HWx) as [<- _].
      * destruct (Y2 x tag h HWx) as [[?|?]%Hpend|(c0 & Hc0 & Ht)]; [by left|done|right]. exists c0. by rewrite Hother.
Qed.
End service_window.

(** *** The table the silos share *)

(** Reminders that the keys of the table and of the schedules tell apart. *)
Definition keys_apart (known : GrainId → string → Prop) : Prop := ∀ g n g' n', known g n → known g' n' →
  table_key g n = table_key g' n' ∨ reminder_key g n = reminder_key g' n' → g = g' ∧ n = n'.
Definition table_ok (known : GrainId → string → Prop) (t : MemoryReminderTable) : Prop := ∀ tk e, entries t !! tk = Some e →
  tk = table_key (r_grainId e) (r_name e) ∧ known (r_grainId e) (r_name e).

Section tables.
Context (known : GrainId → string → Prop) (Hapart : keys_apart known).

Lemma table_same t tk e tk' e' : table_ok known t → entries t !! tk = Some e → entries t !! tk' = Some e' →
  key_of e = key_of e' → tk = tk' ∧ e = e'.
Proof using Hapart.
  intros Ht He He' Hkey. destruct (Ht _ _ He) as [-> Hk], (Ht _ _ He') as [-> Hk'].
  destruct (Hapart _ _ _ _ Hk Hk' (or_intror Hkey)) as [Hg Hn]. rewrite Hg, Hn in *. split; [done|congruence].
Qed.

Lemma wants_fun r t k tag h tag' h' : table_ok known t → wants r t k tag h → wants r t k tag' h' → tag = tag' ∧ h = h'.
Proof using Hapart.
  intros Ht (tk & e & He & Hk & <- & <- & _) (tk' & e' & He' & Hk' & <- & <- & _).
  destruct (table_same t tk e tk' e' Ht He He' ltac:(congruence)) as [_ ->]. done.
Qed.

Lemma recordFired_table g name tag at_ t : table_ok known t →
  table_ok known (recordFired g name tag at_ t) ∧
  ∀ r k tg h, wants r (recordFired g name tag at_ t) k tg h ↔ wants r t k tg h.
Proof using Type.
  intros Ht. unfold recordFired, table_read. destruct (entries t !! table_key g name) as [e|] eqn:He; [|done].
  case_bool_decide; [|done]. split.
  - intros tk e' He'. simpl in He'. apply lookup_insert_Some in He' as [[<- <-]|[_ He']]; [by apply (Ht _ e)|by apply Ht].
  - intros r k tg h. split.
    + intros (tk & e' & He' & Hk & Hrest). simpl in He'. apply lookup_insert_Some in He' as [[<- <-]|[_ He']]; [|by exists tk, e'].
      exists (table_key g name), e. by split.
    + intros (tk & e' & He' & Hk & Hrest). destruct (decide (tk = table_key g name)) as [->|Hne].
      * assert (e' = e) as -> by congruence. exists (table_key g name), (with_lastFired at_ e).
        split; [apply lookup_insert_eq|]. by split.
      * exists tk, e'. split; [simpl; by rewrite lookup_insert_ne|]. by split.
Qed.

Lemma upsert_table g name start per t : table_ok known t → known g name →
  let t' := (upsert g name start per t).1 in
  table_ok known t' ∧
  ∀ r x tag h, wants r t' x tag h ↔
    (x = reminder_key g name ∧ tag = etagCounter t + 1 ∧ h = getUniformHashCode g ∧ isHashInRanges h r = true) ∨
    (x ≠ reminder_key g name ∧ wants r t x tag h).
Proof using Hapart.
  intros Ht Hkn t'. set (e := mkReminder g name start per (etagCounter t + 1) None).
  assert (Hold : ∀ tk e', entries t !! tk = Some e' → tk = table_key g name ↔ key_of e' = reminder_key g name).
  { intros tk e' He'. destruct (Ht _ _ He') as [-> Hk]. split.
    - intros Heq. by destruct (Hapart _ _ _ _ Hk Hkn (or_introl Heq)) as [<- <-].
    - intros Heq. by destruct (Hapart _ _ _ _ Hk Hkn (or_intror Heq)) as [<- <-]. }
  split.
  - intros tk e' He'. simpl in He'. apply lookup_insert_Some in He' as [[<- <-]|[_ He']]; [done|by apply Ht].
  - intros r x tag h. split.
    + intros (tk & e' & He' & <- & <- & <- & Hr). simpl in He'. apply lookup_insert_Some in He' as [[<- <-]|[Hne He']]; [by left|right].
      split; [|by exists tk, e']. intros Heq. destruct Hne. symmetry. by apply (Hold tk e').
    + intros [(-> & -> & -> & Hr)|[Hne (tk & e' & He' & <- & <- & <- & Hr)]].
      * exists (table_key g name), e. split; [apply lookup_insert_eq|]. done.
      * exists tk, e'. split; [|done]. simpl. rewrite lookup_insert_ne; [done|]. intros Heq. destruct Hne. by apply (Hold tk e').
Qed.
End tables.

(** *** One step of a silo *)

(** What may happen at a silo while the silos take up the table: refreshes of its
    arcs and of its timer, registrations of reminders that hash to it, of one
    reminder one after the other; ticks of periodic reminders; and calls of the
    table that fail, except that no registration fails after its effect. *)
Definition admitted (known : GrainId → string → Prop) (r : list HashRange) (l : Label) (s : LocalReminderService) : Prop :=
  match l with
  | Register g name _ _ => known g name ∧ isHashInRanges (getUniformHashCode g) r = true ∧
      ∀ o, o ∈ ops s → registering o ≠ Some (reminder_key g name)
  | Refresh r' => r' = r
  | RefreshTimer => True
  | Fire key => ∀ c, scheduled s !! key = Some c → 0 < period (s_entry c)
  | Advance k f => f = FailAfter → ∀ g name start per, ops s !! k ≠ Some (Upserting g name start per)
  | Unregister _ _ | Stop => False
  end.

(** The step ends a reconcile that read all its ranges. *)
Definition finishes (l : Label) (s : LocalReminderService) : bool :=
  match l with
  | Advance k _ => match ops s !! k with Some (Reconciling _ [] _ _) => true | _ => false end
  | _ => false
  end.

Section steps.
Context (known : GrainId → string → Prop) (Hapart : keys_apart known) (r : list HashRange) (base : Z).
Abbreviation wok := (window_ok known r base).

Lemma wok_ext W W' s : (∀ k tag h, W k tag h ↔ W' k tag h) → wok W s → wok W' s.
Proof.
  intros HW [H1 H2 H3 H4 H5]. split; try done.
  - eapply Forall_impl; [exact H2|]. intros o Ho. destruct o; try done; simpl in *; [by apply HW|].
    destruct Ho as (A1 & A2 & A3 & A4). split_and!; [done|done| |].
    + intros k e Hk. destruct (A3 k e Hk) as (tag & h & Hw & Hor). exists tag, h. by rewrite <- HW.
    + intros k tag h Hw. by apply (A4 k tag h), HW.
  - intros k c Hc Hb. destruct (H5 k c Hc Hb) as (tag & h & Hw & Hor). exists tag, h. by rewrite <- HW.
Qed.
Lemma synced_ext W W' s : (∀ k tag h, W k tag h ↔ W' k tag h) → synced W s → synced W' s.
Proof.
  intros HW [H1 H2]. split.
  - intros k c Hc. destruct (H1 k c Hc) as (tag & h & Hw & Hor). exists tag, h. by rewrite <- HW.
  - intros k tag h Hw. by apply (H2 k tag h), HW.
Qed.

(** The flag of the refresh timer plays no part. *)
Lemma keeps_refresh b s : keeps s (with_refresh b s).
Proof. split; simpl; [done|lia|by intros k tag|eauto..]. Qed.
Lemma wok_refresh W b s : wok W s → wok W (with_refresh b s).
Proof.
  intros Hs. eapply keeps_window; [exact Hs|apply keeps_refresh| |by apply Hs].
  apply Forall_forall. intros o Ho. by left.
Qed.
Lemma scheduleRefresh_eq s : ∃ b, scheduleRefresh s = with_refresh b s.
Proof. unfold scheduleRefresh. case_bool_decide; [exists (refreshHandle s); by destruct s|by exists true]. Qed.
Lemma same_refresh s : with_schedule (scheduled s) (localSequence s) (with_refresh (refreshHandle s) s) = s.
Proof. by destruct s. Qed.

Lemma reconcile_wok t b f s : wok (wants r t) s →
  wok (wants r t) (reconcile f (with_refresh b s)) ∧ (synced (wants r t) s → synced (wants r t) (reconcile f (with_refresh b s))).
Proof.
  intros Hs. unfold reconcile. simpl. set (n := localSequence s + 1).
  change (with_schedule (scheduled s) n (with_refresh b s)) with (with_schedule (scheduled s) n (with_refresh b s)).
  assert (Hn : localSequence s <= n) by lia. split.
  - apply window_start_op; [done|done| |done]. simpl. rewrite (wi_ranges _ _ _ _ _ Hs).
    pose proof (wi_base _ _ _ _ _ Hs). split_and!; [lia|done|done|]. intros k tag h (tk & e & _ & _ & _ & _ & Hr). by left.
  - intros Hy. eapply keeps_synced; [done|]. by apply keeps_start.
Qed.

(** A method that goes on, or ends, and neither is nor becomes a registration. *)
Lemma advance_wok W s k o o' : wok W s → ops s !! k = Some o → (∀ e, o ≠ Upserted e) →
  (registering o' = None ∨ registering o' = registering o) →
  window_op known r base (with_ops (<[k := o']> (ops s)) s) W o' →
  wok W (with_ops (<[k := o']> (ops s)) s) ∧ (synced W s → synced W (with_ops (<[k := o']> (ops s)) s)).
Proof.
  intros Hs Hk Ho Hr Hw. split; [by eapply window_advance|]. intros Hy. eapply keeps_synced; [done|]. by eapply keeps_advance.
Qed.

Lemma fire_wok W now key s : wok W s → (∀ c, scheduled s !! key = Some c → 0 < period (s_entry c)) →
  wok W (fire now key s) ∧ (synced W s → synced W (fire now key s)).
Proof.
  intros Hs Hp. unfold fire. destruct (scheduled s !! key) as [c|] eqn:Hc; [|done]. case_bool_decide; [done|].
  rewrite bool_decide_true by by apply Hp.
  match goal with |- wok W ?x ∧ _ => assert (Hk : keeps s x) end.
  { split; simpl; [done|lia| | |].
    - intros k tag (e & He & Hx). exists e. split; [|done]. simpl. apply elem_of_app. by left.
    - intros k c' Hc'. destruct (decide (k = key)) as [->|Hne]; [rewrite lookup_insert_eq|rewrite lookup_insert_ne by done; eauto].
      assert (c' = c) as -> by congruence. by eexists.
    - intros k c' [[<- <-]|[_ Hc']]%lookup_insert_Some; [by exists c|eauto]. }
  split; [|intros Hy; by eapply keeps_synced]. eapply keeps_window; [exact Hs|exact Hk| |].
  - simpl. apply Forall_app. split; [apply Forall_forall; intros o Ho; by left|]. constructor; [by right|done].
  - simpl. apply apart_snoc; [by apply Hs|done].
Qed.

Definition elsewhere (t t' : MemoryReminderTable) : Prop :=
  ∀ r', (∀ h, isHashInRanges h r = true → isHashInRanges h r' = false) → ∀ k tag h, wants r' t' k tag h ↔ wants r' t k tag h.

Lemma window_op_step now f k o t s t' s' o' : table_ok known t → service_ok now s → wok (wants r t) s →
  ops s !! k = Some o → (f = FailAfter → ∀ g name start per, o ≠ Upserting g name start per) →
  op_step now f o t s = (t', s', o') →
  let s2 := with_ops (<[k := o']> (ops s')) s' in
  table_ok known t' ∧ elsewhere t t' ∧ wok (wants r t') s2 ∧
  (synced (wants r t) s ∨ match o with Reconciling _ [] _ _ => True | _ => False end → synced (wants r t') s2).
Proof using Hapart.
  intros Ht Hok Hs Hk Hf Hstep s2. assert (Hin := list_elem_of_lookup_2 _ _ _ Hk).
  assert (Wfun := wants_fun known Hapart r t). assert (Hop := sv_ops _ _ Hok).
  pose proof (proj1 (Forall_forall _ _) (wi_ops _ _ _ _ _ Hs) _ Hin) as Ho.
  destruct o as [g name start per|e|g name|g name tag|g name|n todo owned b|e a|e|]; try done; simpl in Hstep.
  - (* the table answers a registration *)
    destruct Ho as [Hkn Hh]. destruct f; [| |by destruct (Hf eq_refl g name start per)].
    + injection Hstep as <- <- <-. destruct (upsert_table known Hapart g name start per t Ht Hkn) as [Ht' HW].
      simpl in Ht', HW. set (e := mkReminder g name start per (etagCounter t + 1) None) in *.
      split; [done|]. split.
      { intros r' Hdis x tag h. rewrite HW. split; [|].
        - intros [(_ & _ & -> & Hr)|[_ ?]]; [by rewrite (Hdis _ Hh) in Hr|done].
        - intros Hw. right. split; [|done]. intros ->. destruct Hw as (tk & e' & He' & Hkey & _ & <- & Hr).
          destruct (Ht _ _ He') as [_ Hkn']. destruct (Hapart _ _ _ _ Hkn' Hkn (or_intror Hkey)) as [Hg _].
          unfold reminder_hash in Hr. rewrite Hg, (Hdis _ Hh) in Hr. done. }
      destruct (upsert_window known r base (wants r t) (wants r (mkTable (<[table_key g name := e]> (entries t)) (etagCounter t + 1))) s k g name start per e) as [R1 R2]; try done.
      * apply HW. left. done.
      * intros x tag h [(-> & -> & _)|[? ?]]%HW; [by left|by right].
      * intros x tag h Hw Hx. apply HW. by right.
      * split; [done|]. intros [?|[]]. by apply R2.
    + injection Hstep as <- <- <-. split; [done|]. split; [done|].
      destruct (advance_wok (wants r t) s k _ Done Hs Hk) as [R1 R2]; [done|by left|done|].
      split; [done|]. intros [?|[]]. by apply R2.
  - (* it is scheduled *)
    injection Hstep as <- <- <-. split; [done|]. split; [done|].
    assert (Hown : owns (r_grainId e) s = true).
    { unfold owns. rewrite (wi_ranges _ _ _ _ _ Hs). by destruct Ho as (tk & e' & He' & _ & _ & Hh & Hr). }
    unfold s2. rewrite Hown. destruct (registered_window known r base (wants r t) s k e now) as [R1 R2]; try done.
    { intros x tag h tag' h'. by apply Wfun. }
    split; [done|]. intros [?|[]]. by apply R2.
  - (* a reconcile reads a range, or takes effect *)
    destruct (proj1 (Forall_forall _ _) Hop _ Hin) as [Hkeyed Hn].
    destruct todo as [|x todo].
    + injection Hstep as <- <- <-. split; [done|]. split; [done|]. destruct Ho as (H1 & _ & H3 & H4).
      assert (H4' : ∀ k tag h, wants r t k tag h → is_Some (owned !! k) ∨ later s n k tag).
      { intros x tag h Hw. by destruct (H4 x tag h Hw) as [?|?]. }
      assert (Wf : ∀ k tag h tag' h', wants r t k tag h → wants r t k tag' h' → tag = tag' ∧ h = h')
        by (intros x tag h tag' h'; by apply Wfun).
      pose proof (applied_window known r base (wants r t) Wf now n owned s Hs Hkeyed H1 H3 H4' Hop) as Hw.
      pose proof (applied_synced known r base (wants r t) Wf now n owned s Hs Hkeyed H1 H3 H4') as Hy.
      destruct (apply_owned_frame now n owned s) as (_ & Hops & _). set (sa := apply_owned now n owned s) in *.
      assert (Hb : ∃ b', (if b then scheduleRefresh sa else sa) = with_refresh b' sa).
      { destruct b; [apply scheduleRefresh_eq|]. exists (refreshHandle sa). by destruct sa. }
      destruct Hb as [b' Hb]. unfold s2. rewrite Hb.
      destruct (advance_wok (wants r t) (with_refresh b' sa) k (Reconciling n [] owned b) Done) as [R1 R2];
        [by apply wok_refresh|simpl; by rewrite Hops|done|by left|done|].
      split; [done|]. intros _. apply R2. eapply keeps_synced; [exact Hy|apply keeps_refresh].
    + assert (Hfail : ∀ b', let s3 := with_refresh b' s in wok (wants r t) (with_ops (<[k := Done]> (ops s3)) s3) ∧
        (synced (wants r t) s → synced (wants r t) (with_ops (<[k := Done]> (ops s3)) s3))).
      { intros b' s3. destruct (advance_wok (wants r t) s3 k (Reconciling n (x :: todo) owned b) Done) as [R1 R2];
          [by apply wok_refresh|done|done|by left|done|]. split; [done|]. intros Hy. apply R2.
        eapply keeps_synced; [exact Hy|apply keeps_refresh]. }
      assert (Hb : ∃ b', (if b then scheduleRefresh s else s) = with_refresh b' s).
      { destruct b; [apply scheduleRefresh_eq|]. exists (refreshHandle s). by destruct s. }
      destruct Hb as [b' Hb]. destruct f; injection Hstep as <- <- <-; (split; [done|]; split; [done|]).
      * split; [by apply (read_window known r base t s k n x todo owned b)|]. intros [Hy|[]].
        eapply keeps_synced; [exact Hy|by eapply keeps_advance].
      * unfold s2. rewrite Hb. destruct (Hfail b') as [R1 R2]. split; [done|]. intros [?|[]]. by apply R2.
      * unfold s2. rewrite Hb. destruct (Hfail b') as [R1 R2]. split; [done|]. intros [?|[]]. by apply R2.
  - (* a tick is recorded *)
    destruct (recordFired_table known (r_grainId e) (r_name e) (etag e) a t Ht) as [Ht' HW].
    destruct (advance_wok (wants r t) s k _ Done Hs Hk) as [R1 R2]; [done|by left|done|].
    assert (Hsame : t' = t ∨ t' = recordFired (r_grainId e) (r_name e) (etag e) a t)
      by (destruct f; injection Hstep as <- _ _; [by right|by left|by right]).
    assert (s' = s ∧ o' = Done) as [-> ->] by (destruct f; by injection Hstep as _ <- <-).
    destruct Hsame as [->| ->].
    + split; [done|]. split; [done|]. split; [done|]. intros [?|[]]. by apply R2.
    + split; [done|]. split; [intros r' _ x tag h; apply HW|].
      split; [eapply wok_ext; [|exact R1]; intros; symmetry; apply HW|].
      intros [Hy|[]]. eapply synced_ext; [intros; symmetry; apply HW|by apply R2].
  - injection Hstep as <- <- <-. split; [done|]. split; [done|].
    destruct (advance_wok (wants r t) s k _ Done Hs Hk) as [R1 R2]; [done|by left|done|].
    split; [done|]. intros [?|[]]. by apply R2.
Qed.

Lemma window_service_step now l t s t' s' : table_ok known t → service_ok now s → wok (wants r t) s →
  admitted known r l s → service_step now l t s = (t', s') →
  table_ok known t' ∧ elsewhere t t' ∧ wok (wants r t') s' ∧
  (synced (wants r t) s ∨ finishes l s = true → synced (wants r t') s').
Proof using Hapart.
  intros Ht Hok Hs Hadm Hstep.
  assert (Hq : wok (wants r t) s' ∧ (synced (wants r t) s → synced (wants r t) s') → t' = t → finishes l s = false →
    table_ok known t' ∧ elsewhere t t' ∧ wok (wants r t') s' ∧ (synced (wants r t) s ∨ finishes l s = true → synced (wants r t') s')).
  { intros [R1 R2] -> Hfin. split; [done|]. split; [done|]. split; [done|]. intros [?|?]; [by apply R2|congruence]. }
  destruct l as [g name due per|g name|r'| | |key|k f]; try done; simpl in Hstep, Hadm.
  - injection Hstep as <- <-. apply Hq; [|done|done]. destruct Hadm as (Hkn & Hh & Hnew).
    unfold register. repeat (case_bool_decide; [done|]). rewrite <- (same_refresh s) at 1 3. split.
    + apply window_start_op; [done|lia|done|]. intros k x [= <-] Hx. by apply Hnew.
    + intros Hy. eapply keeps_synced; [exact Hy|]. apply keeps_start. lia.
  - injection Hstep as <- <-. apply Hq; [|done|done]. subst r'. unfold refreshOwnership.
    replace (with_ranges r s) with (with_refresh (refreshHandle s) s); [by apply reconcile_wok|].
    destruct s. simpl. by rewrite <- (wi_ranges _ _ _ _ _ Hs).
  - injection Hstep as <- <-. apply Hq; [|done|done]. unfold refresh_timer. destruct (refreshHandle s); [|done].
    destruct (scheduleRefresh_eq (with_refresh false s)) as [b ->].
    change (with_refresh b (with_refresh false s)) with (with_refresh b s). by apply reconcile_wok.
  - injection Hstep as <- <-. apply Hq; [|done|done]. by apply fire_wok.
  - destruct (ops s !! k) as [o|] eqn:Hk.
    + unfold finishes. rewrite Hk. destruct (op_step now f o t s) as [[t1 s1] o1] eqn:Hop. injection Hstep as <- <-.
      destruct (window_op_step now f k o t s t1 s1 o1) as (R1 & R2 & R3 & R4); try done.
      { intros Hf g name start per ->. by destruct (Hadm Hf g name start per). }
      split_and!; try done. intros [?|Hfin]; apply R4; [by left|right]. by destruct o as [| | | | |? [] | | |].
    + injection Hstep as <- <-. apply Hq; [done|done|]. simpl. by rewrite Hk.
Qed.
End steps.

(** *** The silos of a ring *)

Section ring_window.
Context (S : list SiloAddress) (v : nat) (known : GrainId → string → Prop) (w0 : Cluster).

(** The arcs of the [i]-th silo. *)
Definition arcs (i : nat) : list HashRange :=
  match S !! i with Some a => rangesFor (new_ring S v) a | None => [] end.

(** The silos have adopted their arcs, and what they did before has ended, but for
    ticks being recorded; their schedules may say anything. *)
Record adopted : Prop := {
  ad_length : length (services w0) = length S;
  ad_table : table_ok known (table w0);
  ad_services : ∀ i s, services w0 !! i = Some s → service_ok (clock w0) s ∧ ranges s = arcs i ∧
    Forall (λ o, match o with RecordingFired _ _ | Done => True | _ => False end) (ops s) }.

(** What may happen from then on, in any order, with the silos that have
    completed a refresh since. *)
Inductive window : Cluster → gset nat → Prop :=
  | window_here : window w0 ∅
  | window_step w D d i l : window w D →
      (∀ s, services w !! i = Some s → admitted known (arcs i) l s) →
      window (cluster_step d i l w)
        (if match services w !! i with Some s => finishes l s | None => false end then {[i]} ∪ D else D).

Context (HS : NoDup S) (Hapart : keys_apart known)
  (Hring : ∃ a b, a ∈ nodes (new_ring S v) ∧ b ∈ nodes (new_ring S v) ∧ node_hash a < node_hash b).

Lemma arcs_tile h : ∃ i, (i < length S)%nat ∧ isHashInRanges h (arcs i) = true ∧
  ∀ j, isHashInRanges h (arcs j) = true → j = i.
Proof using HS Hring.
  destruct (ring_arcs_tile S v h Hring) as (a & Ha & Hin & Hu). apply list_elem_of_lookup in Ha as [i Hi].
  exists i. split; [by eapply lookup_lt_Some|]. split; [unfold arcs; by rewrite Hi|].
  intros j Hj. unfold arcs in Hj. destruct (S !! j) as [b|] eqn:Hb; [|done]. apply Hu in Hj as ->. by eapply NoDup_lookup.
Qed.

Definition base_of (i : nat) : Z := default 0 (localSequence <$> services w0 !! i).

Record window_inv (w : Cluster) (D : gset nat) : Prop := {
  wv_length : length (services w) = length S;
  wv_table : table_ok known (table w);
  wv_services : ∀ i s, services w !! i = Some s → service_ok (clock w) s ∧
    window_ok known (arcs i) (base_of i) (wants (arcs i) (table w)) s ∧
    (i ∈ D → synced (wants (arcs i) (table w)) s) }.

Lemma adopted_inv : adopted → window_inv w0 ∅.
Proof.
  intros [H1 H2 H3]. split; [done|done|]. intros i s Hi. destruct (H3 i s Hi) as (Hok & Hr & Hops).
  split; [done|]. split; [|set_solver]. unfold base_of. rewrite Hi. simpl. split; [done| | |done|].
  - eapply Forall_impl; [exact Hops|]. by intros [].
  - intros a b oa ob k Ha Hb Hra Hrb. pose proof (proj1 (Forall_lookup _ _) Hops a oa Ha) as Ho. by destruct oa.
  - intros k c Hc Hb. pose proof (sl_sequence _ _ _ _ (sv_slots _ _ Hok k c Hc)). lia.
Qed.

Lemma window_step_inv w D d i l : window_inv w D → (∀ s, services w !! i = Some s → admitted known (arcs i) l s) →
  window_inv (cluster_step d i l w)
    (if match services w !! i with Some s => finishes l s | None => false end then {[i]} ∪ D else D).
Proof using HS Hapart Hring.
  intros [H1 H2 H3] Hadm. unfold cluster_step. set (now := clock w + Z.max 0 d).
  assert (Hlater : ∀ s, service_ok (clock w) s → service_ok now s) by (intros s; apply service_later; unfold now; lia).
  destruct (services w !! i) as [s|] eqn:Hi.
  2: { split; [done|done|]. intros j sj Hj. destruct (H3 j sj Hj) as (A1 & A2 & A3). split; [by apply Hlater|done]. }
  destruct (H3 i s Hi) as (Hok & Hw & Hy). destruct (service_step now l (table w) s) as [t' s'] eqn:Hstep.
  destruct (window_service_step known Hapart (arcs i) (base_of i) now l (table w) s t' s' H2 (Hlater s Hok) Hw (Hadm s eq_refl) Hstep)
    as (R1 & R2 & R3 & R4).
  split; simpl; [by rewrite length_insert|done|]. intros j sj Hj.
  apply list_lookup_insert_Some in Hj as [(<- & <- & _)|[Hne Hj]].
  - split; [eapply service_step_ok; [by apply Hlater|exact Hstep]|]. split; [done|]. intros Hin. apply R4.
    destruct (finishes l s); [by right|left]. by apply Hy.
  - destruct (H3 j sj Hj) as (A1 & A2 & A3). split; [by apply Hlater|].
    assert (HW : ∀ k tag h, wants (arcs j) (table w) k tag h ↔ wants (arcs j) t' k tag h).
    { intros k tag h. symmetry. apply R2. intros x Hx. destruct (isHashInRanges x (arcs j)) eqn:Hxj; [|done].
      destruct (arcs_tile x) as (m & _ & _ & Hu). destruct Hne. by rewrite (Hu _ Hx), (Hu _ Hxj). }
    split; [by eapply wok_ext|]. intros Hin. eapply synced_ext; [exact HW|]. apply A3.
    destruct (finishes l s); set_solver.
Qed.

Lemma window_invariant w D : adopted → window w D → window_inv w D.
Proof using HS Hapart Hring.
  intros Ha. induction 1 as [|w D d i l Hw IH Hadm]; [by apply adopted_inv|by apply window_step_inv].
Qed.
End ring_window.

(** C26: A reminder is scheduled at one silo. Let the silos of a ring with nodes at two
    hashes at least have adopted the arcs it gives them (a ring of one node gives none,
    [HashRing.single_node_arc_empty]), with what they did before at its end; their schedules may
    say anything. Let reminders have keys that the table and the schedules tell apart
    (the code joins a grain id and a name into one text: [Runs.table_keys_collide]).
    From then on let, in any order and with the table shared: silos begin refreshes
    and read the table range by range, with calls that may fail; reminders be
    registered at the silo their grain hashes to, also while refreshes there are
    under way, one registration of a reminder after the other and without one that
    fails after it took effect; periodic reminders tick. Once every silo has
    completed a refresh begun since, whatever others are under way, and no
    registration is: each reminder of the table is scheduled at exactly one silo, in
    the version the table has, and nothing else is scheduled anywhere. Left out are
    what the code gets wrong or leaves to a later refresh: a removal, or a one-shot
    tick, that overlaps the read of a refresh ([Runs.removed_reminder_fires],
    [Runs.one_shot_fires_twice]), a refresh begun under earlier arcs
    ([Runs.old_arcs_come_back]), a stop, and a registration at a silo that does not
    own the reminder. *)
Theorem reminder_scheduled_once S v known w0 w D :
  NoDup S → keys_apart known →
  (∃ a b, a ∈ nodes (new_ring S v) ∧ b ∈ nodes (new_ring S v) ∧ node_hash a < node_hash b) →
  adopted S v known w0 → window S v known w0 w D →
  (∀ i, (i < length S)%nat → i ∈ D) → (∀ i s, services w !! i = Some s → settled s) →
  (∀ tk e, entries (table w) !! tk = Some e →
     ∃ i s c, services w !! i = Some s ∧ scheduled s !! key_of e = Some c ∧ etag (s_entry c) = etag e ∧
       ∀ i' s', services w !! i' = Some s' → is_Some (scheduled s' !! key_of e) → i' = i) ∧
  (∀ i s key c, services w !! i = Some s → scheduled s !! key = Some c →
     ∃ tk e, entries (table w) !! tk = Some e ∧ key_of e = key ∧ etag (s_entry c) = etag e).
Proof.
  intros HS Hapart Hring Ha Hw HD Hset.
  destruct (window_invariant S v known w0 HS Hapart Hring w D Ha Hw) as [Hlen Htab Hsv].
  assert (Hno : ∀ i s k tag, services w !! i = Some s → ¬ pending s k tag).
  { intros i s k tag Hi (e & He & _). by specialize (Hset i s Hi _ He). }
  assert (Hslot : ∀ i s key c, services w !! i = Some s → scheduled s !! key = Some c →
    ∃ tk e, entries (table w) !! tk = Some e ∧ key_of e = key ∧ etag (s_entry c) = etag e ∧
      isHashInRanges (reminder_hash e) (arcs S v i) = true).
  { intros i s key c Hi Hc. destruct (Hsv i s Hi) as (_ & _ & Hy).
    assert (Hin : i ∈ D) by (apply HD; rewrite <- Hlen; by eapply lookup_lt_Some).
    destruct (sy_slots _ _ (Hy Hin) key c Hc) as (tag & h & (tk & e & He & Hk & Ht & Hh & Hr) & [Hc2|Hp]); [|by eapply Hno in Hp].
    exists tk, e. split_and!; try done; [congruence|by rewrite Hh]. }
  split.
  - intros tk e He. destruct (arcs_tile S v HS Hring (reminder_hash e)) as (i & Hi & Hr & Hu).
    destruct (lookup_lt_is_Some_2 (services w) i ltac:(lia)) as [s Hs]. destruct (Hsv i s Hs) as (_ & _ & Hy).
    destruct (sy_all _ _ (Hy (HD i Hi)) (key_of e) (etag e) (reminder_hash e)) as [Hp|(c & Hc & Ht)];
      [by exists tk, e|by eapply Hno in Hp|].
    exists i, s, c. split_and!; try done. intros i' s' Hs' [c' Hc'].
    destruct (Hslot i' s' _ c' Hs' Hc') as (tk' & e' & He' & Hk' & _ & Hr').
    destruct (table_same known Hapart (table w) tk' e' tk e Htab He' He Hk') as [_ ->]. by apply Hu.
  - intros i s key c Hi Hc. destruct (Hslot i s key c Hi Hc) as (tk & e & He & Hk & Ht & _). by exists tk, e.
Qed.

(** ** Concrete services *)
Module Runs.
Definition g : GrainId := mkGrainId "Cart" (KString "1").
Definition everything : list HashRange := [(0, 2 ^ 32)].
Definition one_silo : Cluster := start_cluster [(everything, 0, Some 0)].

(** The steps of silo 0, all at once, and some time later. *)
Definition acts (ls : list Label) : list (Z * nat * Label) := (λ l, (0, 0%nat, l)) <$> ls.
Definition wait (d : Z) : list (Z * nat * Label) := [(d, 7%nat, Stop)].
Definition registered (due per : Z) : list (Z * nat * Label) := acts [Register g "tick" due per; Advance 0 NoFault; Advance 0 NoFault].
Definition fired_at (w : Cluster) : list (Z * Z) := concat (map (λ s, map (λ f, (f_due f, f_at f)) (fired s)) (services w)).
Definition timers (w : Cluster) : list Z := concat (map (λ s, map (λ kc : string * Scheduled, timerAt kc.2) (map_to_list (scheduled s))) (services w)).

Definition key : string := reminder_key g "tick".

(** Late by more than a period, the ticks between are left out. *)
Definition late : list (Z * nat * Label) :=
  registered 10 100 ++ wait 10 ++ acts [Fire key] ++ wait 250 ++ acts [Fire key] ++ wait 50 ++ acts [Fire key].

Lemma late_ticks : fired_at (cluster_run late one_silo) = [(10, 10); (110, 260); (310, 310)] ∧ timers (cluster_run late one_silo) = [410].
Proof. by vm_compute. Qed.

Definition late_service : LocalReminderService :=
  default (new_service [] 0 None) (services (cluster_run late one_silo) !! 0%nat).

Lemma reminder_ticks_in_order_witness :
  length (fired late_service) = 3%nat ∧
  (∀ f, f ∈ fired late_service → f_due f <= f_at f <= clock (cluster_run late one_silo) ∧
     (0 < period (f_entry f) → on_grid (f_entry f) (f_due f))) ∧
  (∀ j k fj fk, (j < k)%nat → fired late_service !! j = Some fj → fired late_service !! k = Some fk →
     key_of (f_entry fj) = key_of (f_entry fk) → 0 < period (f_entry fk) →
     f_due fk = startAt (f_entry fk) ∨ f_at fj <= f_due fk).
Proof.
  split; [by vm_compute|].
  exact (reminder_ticks_in_order [(everything, 0, Some 0)] late 0 late_service eq_refl).
Defined.

Definition one_entry : MemoryReminderTable := (upsert g "tick" 10 100 empty_table).1.

(** Two silos take up a table while the one that owns the reminder registers it
    again, between the read of its refresh and the end of it. *)
Definition pair : list SiloAddress := [silo_a; silo_b].
Definition arcs_of (i : nat) : list HashRange := arcs pair 1 i.
Definition adopting : Cluster :=
  mkCluster 0 one_entry [new_service (arcs_of 0) 0 (Some 0); new_service (arcs_of 1) 0 (Some 0)].
Definition overlap : list (Z * nat * Label) :=
  [(0, 1%nat, Refresh (arcs_of 1)); (1, 1%nat, Advance 0 NoFault); (1, 1%nat, Register g "tick" 20 50);
   (1, 1%nat, Advance 1 NoFault); (1, 0%nat, Refresh (arcs_of 0)); (1, 1%nat, Advance 1 NoFault); (1, 1%nat, Advance 0 NoFault);
   (1, 0%nat, Advance 0 NoFault); (0, 0%nat, Advance 0 NoFault)].
Definition adopted_world : Cluster := cluster_run overlap adopting.
Definition only_tick (id : GrainId) (name : string) : Prop := id = g ∧ name = "tick"%string.

Lemma only_tick_apart : keys_apart only_tick.
Proof. by intros ? ? ? ? [-> ->] [-> ->] _. Qed.
Lemma adopting_adopted : adopted pair 1 only_tick adopting.
Proof.
  split; [done| |].
  - intros tk e He. unfold adopting, one_entry in He. simpl in He.
    apply lookup_insert_Some in He as [[<- <-]|[_ He]]; [done|by rewrite lookup_empty in He].
  - intros [|[|i]] s Hs; [injection Hs as <-..|done]; (split; [apply new_service_ok|split; [done|constructor]]).
Qed.
Lemma pair_ring : ∃ a b, a ∈ nodes (new_ring pair 1) ∧ b ∈ nodes (new_ring pair 1) ∧ node_hash a < node_hash b.
Proof.
  exists (mkNode (stableHash32 "silo-0#0") silo_a), (mkNode (stableHash32 "silo-1#0") silo_b).
  split_and!; [| |vm_compute; reflexivity]; apply elem_of_new_ring; [left|right; left].
Qed.

Lemma overlap_window : ∃ D, window pair 1 only_tick adopting adopted_world D ∧ 0%nat ∈ D ∧ 1%nat ∈ D.
Proof.
  eexists. split; [unfold adopted_world, cluster_run, overlap; simpl foldl|].
  - do 9 (eapply window_step; [|intros s Hs; vm_compute in Hs; injection Hs as <-; cbn [admitted];
      first [done|split_and!; [done|by vm_compute|intros o Ho; by apply list_elem_of_singleton in Ho as ->]]]).
    apply window_here.
  - vm_compute. split; [|]; set_solver.
Qed.

Lemma reminder_scheduled_once_witness :
  (map (λ s, map (λ kc : string * Scheduled, (etag (s_entry kc.2), dueAt kc.2)) (map_to_list (scheduled s))) (services adopted_world)
     = [[]; [(2, 22)]]) ∧
  (∀ tk e, entries (table adopted_world) !! tk = Some e →
     ∃ i s c, services adopted_world !! i = Some s ∧ scheduled s !! key_of e = Some c ∧ etag (s_entry c) = etag e ∧
       ∀ i' s', services adopted_world !! i' = Some s' → is_Some (scheduled s' !! key_of e) → i' = i) ∧
  (∀ i s key c, services adopted_world !! i = Some s → scheduled s !! key = Some c →
     ∃ tk e, entries (table adopted_world) !! tk = Some e ∧ key_of e = key ∧ etag (s_entry c) = etag e).
Proof.
  split; [by vm_compute|]. destruct overlap_window as (D & Hw & H0 & H1).
  apply (reminder_scheduled_once pair 1 only_tick adopting adopted_world D).
  - apply (bool_decide_unpack _). by vm_compute.
  - exact only_tick_apart.
  - exact pair_ring.
  - exact adopting_adopted.
  - exact Hw.
  - intros [|[|i]] Hi; [exact H0|exact H1|simpl in Hi; lia].
  - intros [|[|i]] s Hs; vm_compute in Hs; [injection Hs as <-..|done];
      intros o Ho; repeat (apply elem_of_cons in Ho as [->|Ho]; [reflexivity|]); by apply elem_of_nil in Ho.
Defined.

(** A refresh that began under earlier arcs ends after the one that adopted the
    new ones: the reminders that moved away are scheduled here again. *)
Lemma old_arcs_come_back :
  let w := cluster_run (registered 10 100 ++ acts [Refresh everything; Advance 1 NoFault; Refresh []; Advance 2 NoFault]) one_silo in
  timers w = [] ∧ timers (cluster_run (acts [Advance 1 NoFault]) w) = [10].
Proof. by vm_compute. Qed.

(** A reconcile whose read began before a reminder was removed schedules it
    again: it fires though it is in no table. *)
Lemma removed_reminder_fires :
  let w := cluster_run (registered 10 100 ++ acts [Refresh everything; Advance 1 NoFault;
             Unregister g "tick"; Advance 2 NoFault; Advance 2 NoFault; Advance 2 NoFault; Advance 1 NoFault] ++ wait 10 ++ acts [Fire key]) one_silo in
  fired_at w = [(10, 10)] ∧ entries (table w) = ∅ ∧ timers w = [110].
Proof. by vm_compute. Qed.

(** The same way a one-shot reminder that just fired fires again. *)
Lemma one_shot_fires_twice :
  let w := cluster_run (registered 10 0 ++ wait 10 ++ acts [Refresh everything; Advance 1 NoFault; Fire key; Advance 2 NoFault;
             Advance 1 NoFault; Fire key]) one_silo in
  fired_at w = [(10, 10); (10, 10)].
Proof. by vm_compute. Qed.

(** A registration whose table write answers late repeats a first tick that a
    reconcile already had delivered. *)
Lemma first_tick_twice :
  let w := cluster_run (acts [Register g "tick" 0 100; Advance 0 NoFault; Refresh everything; Advance 1 NoFault; Advance 1 NoFault;
             Fire key; Advance 0 NoFault; Fire key]) one_silo in
  fired_at w = [(0, 0); (0, 0)].
Proof. by vm_compute. Qed.

(** A service that was stopped while a reconcile was under way schedules its
    reminders again, and refreshes for ever. *)
Lemma stopped_service_goes_on :
  let w := cluster_run (registered 10 100 ++ acts [Refresh everything; Advance 1 NoFault; Stop; Advance 1 NoFault])
    (start_cluster [(everything, 5, Some 0)]) in
  timers w = [10] ∧ map refreshHandle (services w) = [true].
Proof. by vm_compute. Qed.

(** Reminders of two grains share an entry of the in-memory table. *)
Lemma table_keys_collide :
  table_key (mkGrainId "Cart" (KString "1")) "0tick" = table_key (mkGrainId "Cart" (KString "10")) "tick".
Proof. reflexivity. Qed.

(** With the default minimum no one-shot reminder can be registered. *)
Lemma one_shot_refused now due ranges ms : 0 <= due →
  register now g "tick" due 0 (new_service ranges ms None) = inl BelowMinimum.
Proof. intros Hd. unfold register. by rewrite (bool_decide_false (due < 0)) by lia. Qed.
End Runs.
