(* ===== verification/Membership.v ===== *)
(** * Membership views

    Models [packages/core/src/membership.ts], the view derived from Kubernetes
    ([packages/clustering-k8s/src/endpoint-slice.ts], [kubernetes-membership.ts])
    and the static one of [packages/runtime/src/static-membership.ts]. What the
    watch reports is an input. *)
From Stdlib Require Import String.
From stdpp Require Import prelude gmap strings list.
From S2P Require Import Prelude JsMap Ids HashRing.
Open Scope Z_scope.

(** ** Snapshots *)

Inductive SiloStatus := Joining | Active | Draining | Dead.
#[export] Instance SiloStatus_eq_dec : EqDecision SiloStatus.
Proof. solve_decision. Defined.

Record SiloMember := mkMember { address : SiloAddress; status : SiloStatus; metadata : option (gmap string string) }.
Record MembershipSnapshot := mkSnapshot { version : Z; silos : list SiloMember }.

Definition activeSilos (s : MembershipSnapshot) : list SiloAddress :=
  address <$> filter (λ m, status m = Active) (silos s).
Definition memberSilos (s : MembershipSnapshot) : list SiloAddress :=
  address <$> filter (λ m, status m ≠ Dead) (silos s).

(** ** Endpoint slices *)

Record EndpointSliceEndpoint := mkEndpoint {
  ep_addresses : list string;
  ep_ready : option bool;
  ep_name : option string;
  ep_uid : option string;
  ep_metadata : option (list (string * string)) }.
Record EndpointSlice := mkSlice { endpoints : list EndpointSliceEndpoint; ports : list (option string * option Z) }.

Definition pickPort (ports : list (option string * option Z)) (portName : option string) : option Z :=
  match ports with
  | [] => None
  | first :: _ =>
      let named := match portName with
                   | Some name => '(_, p) ← list_find (λ p, p.1 = Some name) ports; p.2
                   | None => None
                   end in
      match named with Some p => Some p | None => first.2 end
  end.

Definition member_of (port : Z) (e : EndpointSliceEndpoint) : option SiloMember :=
  match head (ep_addresses e), ep_name e, ep_uid e with
  | Some a, Some name, Some uid =>
      Some (mkMember (mkSilo name uid (a +:+ ":" +:+ bigint_toString port)%string)
              (if bool_decide (ep_ready e = Some true) then Active else Draining) None)
  | _, _, _ => None
  end.
Definition siloMembersFromSlices (slices : list EndpointSlice) (portName : option string) : list SiloMember :=
  slices ≫= λ s, match pickPort (ports s) portName with None => [] | Some port => omap (member_of port) (endpoints s) end.

(** The labels under a prefix, without it. *)
Definition strip_prefix (pre : string) (kv : string * string) : option (string * string) :=
  if String.prefix pre kv.1 then Some (substring (String.length pre) (String.length kv.1) kv.1, kv.2) else None.
Definition metadataFromSlices (slices : list EndpointSlice) (labelPrefix : option string) : gmap string (gmap string string) :=
  match labelPrefix with
  | None => ∅
  | Some pre =>
      foldl (λ m e, match ep_uid e, ep_metadata e with
                    | Some uid, Some labels =>
                        let matched := omap (strip_prefix pre) labels in
                        if bool_decide (matched = []) then m else <[uid := list_to_map (reverse matched)]> m
                    | _, _ => m
                    end) ∅ (slices ≫= endpoints)
  end.

(** ** The Kubernetes view of a silo *)

Definition incarnation (s : SiloAddress) : string := (podName s +:+ "#" +:+ podUid s)%string.

Definition dedupeMembers (local : SiloAddress) (members : list SiloMember) : list SiloMember :=
  let seen := foldl (λ m x, jm_set (incarnation (address x)) x m) [] members in
  (λ m, if SiloAddress_equals (address m) local then mkMember (address m) Active (metadata m) else m) <$> jm_values seen.

Record KubernetesMembershipOptions := mkOptions { portName : option string; metadataLabelPrefix : option string }.

(** A view, and the readers of [updates] that wait for the next one: each by a
    number; with the snapshots each was given. *)
Record MembershipService := mkMembership {
  snapshot : MembershipSnapshot;
  waiters : list nat;
  delivered : list (nat * MembershipSnapshot) }.

Definition publish (members : list SiloMember) (s : MembershipService) : MembershipService :=
  let v := mkSnapshot (version (snapshot s) + 1) members in
  mkMembership v [] (delivered s ++ ((λ w, (w, v)) <$> waiters s)).
(** [updates]: its next step. *)
Definition next_update (reader : nat) (s : MembershipService) : MembershipService :=
  mkMembership (snapshot s) (waiters s ++ [reader]) (delivered s).

Definition kubernetes_members (local : SiloAddress) (o : KubernetesMembershipOptions) (slices : list EndpointSlice) : list SiloMember :=
  let members := dedupeMembers local (mkMember local Active None :: siloMembersFromSlices slices (portName o)) in
  let meta := metadataFromSlices slices (metadataLabelPrefix o) in
  (λ m, match meta !! podUid (address m) with
        | Some labels => mkMember (address m) (status m) (Some labels)
        | None => m
        end) <$> members.
Definition new_kubernetes : MembershipService := mkMembership (mkSnapshot 0 []) [] [].
Definition onSlices (local : SiloAddress) (o : KubernetesMembershipOptions) (slices : list EndpointSlice) : MembershipService → MembershipService :=
  publish (kubernetes_members local o slices).

(** ** The static view *)

Section static.
Context (metadata_of : SiloAddress → option (gmap string string)).

Definition member (s : SiloAddress) (st : SiloStatus) : SiloMember := mkMember s st (metadata_of s).
Definition new_static (initial : list SiloAddress) : MembershipService :=
  mkMembership (mkSnapshot 1 ((λ s, member s Active) <$> initial)) [] [].
Definition setSilos (l : list SiloAddress) : MembershipService → MembershipService := publish ((λ s, member s Active) <$> l).
Definition addSilo (s : SiloAddress) (st : SiloStatus) (meta : option (gmap string string)) (m : MembershipService) : MembershipService :=
  if existsb (λ x, SiloAddress_equals (address x) s) (silos (snapshot m)) then m
  else publish (silos (snapshot m) ++ [match meta with Some d => mkMember s st (Some d) | None => member s st end]) m.
Definition removeSilo (s : SiloAddress) (m : MembershipService) : MembershipService :=
  publish (filter (λ x, SiloAddress_equals (address x) s = false) (silos (snapshot m))) m.
Definition setStatus (s : SiloAddress) (st : SiloStatus) (m : MembershipService) : MembershipService :=
  publish ((λ x, if SiloAddress_equals (address x) s then mkMember (address x) st (metadata x) else x) <$> silos (snapshot m)) m.
End static.

(** ** Views agree *)

Lemma SiloAddress_equals_spec a b : SiloAddress_equals a b = true ↔ a = b.
Proof. apply SiloAddress_equals_iff. Qed.

(** The silos a watch reports ready. *)
Definition ready_silos (o : KubernetesMembershipOptions) (slices : list EndpointSlice) : list SiloAddress :=
  address <$> filter (λ m, status m = Active) (siloMembersFromSlices slices (portName o)).

(** Of one incarnation the watch reports one address and one readiness. *)
Definition slices_consistent (o : KubernetesMembershipOptions) (slices : list EndpointSlice) : Prop :=
  ∀ a b, a ∈ siloMembersFromSlices slices (portName o) → b ∈ siloMembersFromSlices slices (portName o) →
    incarnation (address a) = incarnation (address b) → a = b.

Lemma seen_spec l : ∀ m, jm_ok m → (∀ k x, jm_get k m = Some x → k = incarnation (address x)) →
  let m' := foldl (λ m x, jm_set (incarnation (address x)) x m) m l in
  jm_ok m' ∧ (∀ k x, jm_get k m' = Some x → k = incarnation (address x)) ∧
  ∀ x, (x ∈ jm_values m' → x ∈ l ∨ x ∈ jm_values m) ∧
    (jm_get (incarnation (address x)) m' = None → x ∉ l ∧ jm_get (incarnation (address x)) m = None).
Proof.
  induction l as [|y l IH]; intros m Hok Hk; simpl.
  - split; [done|]. split; [done|]. intros x. split; [by right|]. intros Hn. split; [by apply not_elem_of_nil|done].
  - destruct (IH (jm_set (incarnation (address y)) y m)) as (H1 & H2 & H3); [by apply jm_ok_set| |].
    { intros k x. rewrite jm_get_set. case_decide; [by intros [= <-]|apply Hk]. }
    split; [done|]. split; [done|]. intros x. destruct (H3 x) as [H4 H5]. split.
    + intros [Hx|Hx]%H4; [left; by right|]. apply jm_elem_values_set in Hx as [->|Hx]; [left; by left|by right].
    + intros [Hx Hn]%H5. rewrite jm_get_set in Hn. case_decide as Hd; [done|]. split; [|done].
      intros [->|?]%elem_of_cons; [by apply Hd|done].
Qed.

Lemma member_of_metadata slices o m : m ∈ siloMembersFromSlices slices o → metadata m = None.
Proof.
  intros (s & Hm & _)%list_elem_of_bind. destruct (pickPort (ports s) o); [|by apply elem_of_nil in Hm].
  apply list_elem_of_omap in Hm as (e & _ & He). unfold member_of in He.
  destruct (head _), (ep_name e), (ep_uid e); try done. by injection He as <-.
Qed.

Lemma kubernetes_active_spec local o slices : slices_consistent o slices → local ∈ ready_silos o slices →
  NoDup (activeSilos (snapshot (onSlices local o slices new_kubernetes))) ∧
  ∀ x, x ∈ activeSilos (snapshot (onSlices local o slices new_kubernetes)) ↔ x ∈ ready_silos o slices.
Proof.
  intros Hc Hl. set (M := mkMember local Active None :: siloMembersFromSlices slices (portName o)).
  assert (Hlm : mkMember local Active None ∈ siloMembersFromSlices slices (portName o)).
  { apply list_elem_of_fmap in Hl as ([a st md] & -> & [Hst Hm]%list_elem_of_filter). simpl in *. subst st.
    pose proof (member_of_metadata _ _ _ Hm) as Hmd. simpl in Hmd. by subst md. }
  assert (HM : ∀ x, x ∈ M ↔ x ∈ siloMembersFromSlices slices (portName o)).
  { intros x. unfold M. rewrite elem_of_cons. split; [by intros [->|?]|by right]. }
  destruct (seen_spec M [] jm_ok_nil ltac:(done)) as (Hok & Hkey & Hvals).
  set (seen := foldl _ [] M) in *.
  assert (Hin : ∀ x, x ∈ jm_values seen ↔ x ∈ siloMembersFromSlices slices (portName o)).
  { intros x. split; [intros [Hx|Hx]%Hvals; [by apply HM|by apply elem_of_nil in Hx]|]. intros Hx.
    destruct (jm_get (incarnation (address x)) seen) as [y|] eqn:Hy; [|by destruct (proj2 (Hvals x) Hy) as [Hn _]; destruct Hn; apply HM].
    assert (y ∈ jm_values seen) as Hyv by (apply (list_elem_of_fmap_2 snd _ _ (jm_get_Some_elem _ _ _ Hy))).
    pose proof (Hkey _ _ Hy) as Hinc. destruct (proj1 (Hvals y) Hyv) as [HyM|Hn]; [|by apply elem_of_nil in Hn].
    rewrite (Hc x y); [done|done|by apply HM|done]. }
  (* What the view says of each of them. *)
  set (f := λ m : SiloMember, let m := if SiloAddress_equals (address m) local then mkMember (address m) Active (metadata m) else m in
    match metadataFromSlices slices (metadataLabelPrefix o) !! podUid (address m) with
    | Some labels => mkMember (address m) (status m) (Some labels) | None => m end).
  assert (Hview : silos (snapshot (onSlices local o slices new_kubernetes)) = f <$> jm_values seen).
  { simpl. unfold kubernetes_members, dedupeMembers. fold M. fold seen. rewrite <- list_fmap_compose. done. }
  assert (Hf : ∀ m, m ∈ jm_values seen → address (f m) = address m ∧ status (f m) = status m).
  { intros m Hm%Hin. unfold f. destruct (SiloAddress_equals (address m) local) eqn:He; cbn [address status metadata];
      [|by destruct (_ !! podUid (address m))].
    apply SiloAddress_equals_spec in He. assert (m = mkMember local Active None) as -> by (apply Hc; [done|done|by rewrite He]).
    simpl. by destruct (_ !! podUid local). }
  unfold activeSilos. rewrite Hview. split.
  - assert (Hnd : NoDup (incarnation <$> (address <$> (f <$> jm_values seen)))).
    { assert (incarnation <$> (address <$> (f <$> jm_values seen)) = jm_keys seen) as ->; [|exact Hok].
      rewrite <- !list_fmap_compose. unfold jm_keys, jm_values. rewrite <- list_fmap_compose. apply list_fmap_ext.
      intros i [k m] Hi. simpl. apply list_elem_of_lookup_2 in Hi. destruct (Hf m) as [-> _];
        [by apply (list_elem_of_fmap_2 snd _ _ Hi)|]. symmetry. apply Hkey. by apply jm_elem_get. }
    apply NoDup_fmap_1 with (f := incarnation). eapply sublist_NoDup; [exact Hnd|].
    apply fmap_sublist, fmap_sublist, sublist_filter.
  - intros x. unfold ready_silos. rewrite !list_elem_of_fmap. split.
    + intros (m & -> & [Hst Hm]%list_elem_of_filter). apply list_elem_of_fmap in Hm as (m0 & -> & Hm0).
      destruct (Hf m0 Hm0) as [H1 H2]. exists m0. split; [done|]. apply list_elem_of_filter. split; [congruence|by apply Hin].
    + intros (m & -> & [Hst Hm%Hin]%list_elem_of_filter). destruct (Hf m Hm) as [H1 H2]. exists (f m). split; [done|].
      apply list_elem_of_filter. split; [congruence|]. by apply list_elem_of_fmap_2.
Qed.

(** Silos that watch the same slices, and are ready in them, agree on who is
    active and so on the owner of every hash, without a word between them. *)
Theorem same_slices_same_owner a b o o' slices v hash :
  portName o = portName o' → slices_consistent o slices → a ∈ ready_silos o slices → b ∈ ready_silos o slices →
  let view l o := snapshot (onSlices l o slices new_kubernetes) in
  activeSilos (view a o) ≡ₚ activeSilos (view b o') ∧
  owner (new_ring (activeSilos (view a o)) v) hash = owner (new_ring (activeSilos (view b o')) v) hash ∧
  rangesFor (new_ring (activeSilos (view a o)) v) a = rangesFor (new_ring (activeSilos (view b o')) v) a.
Proof.
  intros Hport Hc Ha Hb view.
  assert (Hc' : slices_consistent o' slices) by (unfold slices_consistent; by rewrite <- Hport).
  assert (Hr : ready_silos o' slices = ready_silos o slices) by (unfold ready_silos; by rewrite Hport).
  destruct (kubernetes_active_spec a o slices Hc Ha) as [N1 E1].
  destruct (kubernetes_active_spec b o' slices Hc') as [N2 E2]; [by rewrite Hr|].
  assert (Hp : activeSilos (view a o) ≡ₚ activeSilos (view b o')).
  { apply NoDup_Permutation; [done|done|]. intros x. unfold view. rewrite E1, E2. by rewrite Hr. }
  assert (Hn : nodes (new_ring (activeSilos (view a o)) v) = nodes (new_ring (activeSilos (view b o')) v)).
  { simpl. apply sort_nodes_perm. by rewrite Hp. }
  split; [done|]. split; [by unfold owner, firstAtOrAfter; rewrite Hn|by unfold rangesFor; rewrite Hn].
Qed.

(** ** Concrete views *)
Module Runs.
Definition pod (name uid addr : string) (ready : bool) : EndpointSliceEndpoint :=
  mkEndpoint [addr] (Some ready) (Some name) (Some uid) None.
Definition options : KubernetesMembershipOptions := mkOptions (Some "silo"%string) None.
Definition slices : list EndpointSlice :=
  [mkSlice [pod "s-0" "u0" "10.0.0.1" true; pod "s-1" "u1" "10.0.0.2" true; pod "s-2" "u2" "10.0.0.3" false]
    [(Some "http"%string, Some 80); (Some "silo"%string, Some 11111)]].
Definition s0 : SiloAddress := mkSilo "s-0" "u0" "10.0.0.1:11111".
Definition s1 : SiloAddress := mkSilo "s-1" "u1" "10.0.0.2:11111".

Lemma same_slices_same_owner_witness :
  let view l o := snapshot (onSlices l o slices new_kubernetes) in
  activeSilos (view s0 options) = [s0; s1] ∧
  activeSilos (view s0 options) ≡ₚ activeSilos (view s1 options) ∧
  owner (new_ring (activeSilos (view s0 options)) 2) 7 = owner (new_ring (activeSilos (view s1 options)) 2) 7 ∧
  rangesFor (new_ring (activeSilos (view s0 options)) 2) s0 = rangesFor (new_ring (activeSilos (view s1 options)) 2) s0.
Proof.
  split; [reflexivity|]. apply (same_slices_same_owner s0 s1 options options slices 2 7).
  - reflexivity.
  - assert (H : siloMembersFromSlices slices (portName options) =
      [mkMember s0 Active None; mkMember s1 Active None; mkMember (mkSilo "s-2" "u2" "10.0.0.3:11111") Draining None]) by reflexivity.
    intros a b Ha Hb. rewrite H in Ha, Hb.
    repeat (apply elem_of_cons in Ha as [->|Ha]; [repeat (apply elem_of_cons in Hb as [->|Hb]; [done|]); by apply elem_of_nil in Hb|]).
    by apply elem_of_nil in Ha.
  - apply (bool_decide_unpack _). vm_compute. exact I.
  - apply (bool_decide_unpack _). vm_compute. exact I.
Defined.

(** A view that is published while a reader of [updates] works on the last one is
    not given to it. *)
Lemma update_missed :
  let m := publish [mkMember s1 Active None] (publish [mkMember s0 Active None] (next_update 0 new_kubernetes)) in
  let m := next_update 0 m in
  map (λ d, version d.2) (delivered m) = [1] ∧ version (snapshot m) = 2 ∧ waiters m = [0%nat].
Proof. by vm_compute. Qed.

(** The local silo is replaced in its own view by what the watch says of its
    pod, if that has another address. *)
Lemma local_replaced :
  let local := mkSilo "s-0" "u0" "127.0.0.1:11111" in
  let v := snapshot (onSlices local options [mkSlice [pod "s-0" "u0" "10.0.0.1" false] [(None, Some 11111)]] new_kubernetes) in
  activeSilos v = [] ∧ local ∉ memberSilos v.
Proof. split; [reflexivity|]. apply (bool_decide_unpack _). vm_compute. exact I. Qed.

(** A silo that is not ready has itself in its ring, and its peers have not. *)
Lemma draining_silo_disagrees :
  let s2 := mkSilo "s-2" "u2" "10.0.0.3:11111" in
  activeSilos (snapshot (onSlices s2 options slices new_kubernetes)) = [s2; s0; s1] ∧
  activeSilos (snapshot (onSlices s0 options slices new_kubernetes)) = [s0; s1].
Proof. by vm_compute. Qed.
End Runs.
