(* ===== verification/EndpointWatch.v ===== *)
(** * The watch of endpoint slices

    Models [packages/clustering-k8s/src/watched-endpoints.ts] (the class
    [WatchedEndpoints]) and [kubernetes-endpoint-watch.ts] (the class
    [KubernetesEndpointWatch]), under the Kubernetes membership of [Membership].

    The API server is what the code relies on: a history of changes to named slices,
    whose length is the resource version. A list is answered with the state at the
    moment it is served and that version; a watch from a version hands on the changes
    after it, in order and each once, until it closes. *)
From Stdlib Require Import String.
From stdpp Require Import prelude gmap strings list.
From S2P Require Import Prelude JsMap Ids HashRing Membership.
Open Scope Z_scope.

(** ** Slices of the API server *)

Record RawEndpoint := mkRawEndpoint {
  raw_addresses : option (list string);
  raw_ready : option bool;
  raw_name : option string;
  raw_uid : option string;
  raw_metadata : option (list (string * string)) }.
Record RawEndpointSlice := mkRaw {
  resource : option string;
  raw_endpoints : option (list RawEndpoint);
  raw_ports : option (list (option string * option Z)) }.

Definition to_endpoint (e : RawEndpoint) : EndpointSliceEndpoint :=
  mkEndpoint (default [] (raw_addresses e)) (raw_ready e) (raw_name e) (raw_uid e) (raw_metadata e).
(** A slice without endpoints or ports is read as one with none. *)
Definition toEndpointSlice (r : RawEndpointSlice) : EndpointSlice :=
  mkSlice (to_endpoint <$> default [] (raw_endpoints r)) (default [] (raw_ports r)).

(** A change: of the slice of a name, or its removal. *)
Definition Change := (string * option RawEndpointSlice)%type.
Definition named (name : string) (r : RawEndpointSlice) : RawEndpointSlice := mkRaw (Some name) (raw_endpoints r) (raw_ports r).
Definition apply_change (m : list (string * RawEndpointSlice)) (c : Change) : list (string * RawEndpointSlice) :=
  match c.2 with Some r => jm_set c.1 (named c.1 r) m | None => jm_delete c.1 m end.
(** The slices of the server at a version. *)
Definition server_at (v : nat) (history : list Change) : list (string * RawEndpointSlice) := foldl apply_change [] (take v history).

(** ** The watch of one silo *)

Inductive WatchEventType := ADDED | MODIFIED | DELETED.

(** With its subscriber, the membership of the silo. *)
Record WatchedEndpoints := mkWatched { slices : list (string * EndpointSlice); view : MembershipService }.

Record Watcher := mkWatcher {
  endpoints_of : WatchedEndpoints;
  running : bool;
  consecutiveFailures : nat;
  (** Calls of [list] in flight: once served, with the version. *)
  lists : list (option nat);
  (** Open watches: the version each has got to, or None once it was stopped. The last
      one is that of [stopWatch]. *)
  watches : list (option nat);
  (** The delays of the timers that will list again. *)
  timers : list Z }.
Definition new_watcher : Watcher := mkWatcher (mkWatched [] new_kubernetes) false 0 [] [] [].

Section watch.
(** The order the server lists slices in. *)
Context (arrange : list (string * RawEndpointSlice) → list (string * RawEndpointSlice)).
Context (reconnectMs maxReconnectMs : Z) (options : KubernetesMembershipOptions).

Definition emit (local : SiloAddress) (m : list (string * EndpointSlice)) (w : WatchedEndpoints) : WatchedEndpoints :=
  mkWatched m (onSlices local options (jm_values m) (view w)).
Definition apply (local : SiloAddress) (type : WatchEventType) (name : string) (slice : option EndpointSlice) (w : WatchedEndpoints) : WatchedEndpoints :=
  match type, slice with
  | DELETED, _ => emit local (jm_delete name (slices w)) w
  | _, Some s => emit local (jm_set name s (slices w)) w
  | _, None => emit local (slices w) w
  end.
Definition reset (local : SiloAddress) (m : list (string * EndpointSlice)) (w : WatchedEndpoints) : WatchedEndpoints :=
  emit local (foldl (λ acc e, jm_set e.1 e.2 acc) [] m) w.

(** By name, those that have one. *)
Definition collect (items : list RawEndpointSlice) : list (string * EndpointSlice) :=
  foldl (λ acc r, match resource r with Some name => jm_set name (toEndpointSlice r) acc | None => acc end) [] items.
(** An event of the watch; what it says of a change. *)
Definition onEvent (local : SiloAddress) (type : WatchEventType) (r : RawEndpointSlice) (w : WatchedEndpoints) : WatchedEndpoints :=
  match resource r with
  | None => w
  | Some name => apply local type name (match type with DELETED => None | _ => Some (toEndpointSlice r) end) w
  end.
Definition event_of (known : list (string * RawEndpointSlice)) (c : Change) : WatchEventType * RawEndpointSlice :=
  match c.2 with
  | Some r => (if jm_has c.1 known then MODIFIED else ADDED, named c.1 r)
  | None => (DELETED, mkRaw (Some c.1) None None)
  end.

Definition nextReconnectDelay (failures : nat) (jitter : Z) : Z :=
  let delay := Z.min (reconnectMs * 2 ^ Z.of_nat (failures - 1)) maxReconnectMs in
  delay + Z.max 0 (Z.min jitter delay).

Definition with_endpoints (e : WatchedEndpoints) (w : Watcher) : Watcher := mkWatcher e (running w) (consecutiveFailures w) (lists w) (watches w) (timers w).
Definition with_failures (n : nat) (w : Watcher) : Watcher := mkWatcher (endpoints_of w) (running w) n (lists w) (watches w) (timers w).
Definition with_lists (l : list (option nat)) (w : Watcher) : Watcher := mkWatcher (endpoints_of w) (running w) (consecutiveFailures w) l (watches w) (timers w).
Definition with_watches (l : list (option nat)) (w : Watcher) : Watcher := mkWatcher (endpoints_of w) (running w) (consecutiveFailures w) (lists w) l (timers w).
Definition with_timers (l : list Z) (w : Watcher) : Watcher := mkWatcher (endpoints_of w) (running w) (consecutiveFailures w) (lists w) (watches w) l.
Definition with_running (b : bool) (w : Watcher) : Watcher := mkWatcher (endpoints_of w) b (consecutiveFailures w) (lists w) (watches w) (timers w).

(** [relistAndWatch], to its await. *)
Definition relistAndWatch (w : Watcher) : Watcher := with_lists (lists w ++ [None]) w.
Definition rearm (jitter : Z) (w : Watcher) : Watcher :=
  if running w then with_timers (timers w ++ [nextReconnectDelay (consecutiveFailures w) jitter]) w else w.

Inductive Op :=
  | Start
  | Stop
  | ListServed (i : nat)
  | ListReturns (i : nat)
  | ListFails (i : nat) (jitter : Z)
  | Event (i : nat)
  | Closes (i : nat) (err : bool) (jitter : Z)
  | TimerFires (i : nat).

Definition stop_last (l : list (option nat)) : list (option nat) :=
  match last l with Some _ => take (length l - 1) l ++ [None] | None => l end.

Definition watch_step (history : list Change) (local : SiloAddress) (o : Op) (w : Watcher) : Watcher :=
  match o with
  | Start => relistAndWatch (with_running true w)
  | Stop => with_watches (stop_last (watches w)) (with_running false w)
  | ListServed i => match lists w !! i with Some None => with_lists (<[i := Some (length history)]> (lists w)) w | _ => w end
  | ListReturns i =>
      match lists w !! i with
      | Some (Some v) =>
          let w := with_lists (delete i (lists w)) w in
          let w := with_endpoints (reset local (collect (arrange (server_at v history)).*2) (endpoints_of w)) w in
          if running w then with_failures 0 (with_watches (watches w ++ [Some v]) w) else w
      | _ => w
      end
  | ListFails i jitter =>
      match lists w !! i with
      | Some _ => rearm jitter (with_failures (S (consecutiveFailures w)) (with_lists (delete i (lists w)) w))
      | None => w
      end
  | Event i =>
      match watches w !! i with
      | Some (Some v) =>
          match history !! v with
          | Some c => let '(type, r) := event_of (server_at v history) c in
              with_watches (<[i := Some (S v)]> (watches w)) (with_endpoints (onEvent local type r (endpoints_of w)) w)
          | None => w
          end
      | _ => w
      end
  | Closes i err jitter =>
      match watches w !! i with
      | Some _ => rearm jitter (with_failures (if err then S (consecutiveFailures w) else 0) (with_watches (delete i (watches w)) w))
      | None => w
      end
  | TimerFires i => match timers w !! i with Some _ => relistAndWatch (with_timers (delete i (timers w)) w) | None => w end
  end.
Definition watch_run (history : list Change) (local : SiloAddress) (w : Watcher) (ops : list Op) : Watcher := foldl (λ w o, watch_step history local o w) w ops.

(** ** The cluster *)

(** The silos that watch one API server. *)
Record Cluster := mkCluster { history : list Change; watchers : list (SiloAddress * Watcher) }.
Definition cluster_step (k : nat) (o : Op) (s : Cluster) : Cluster :=
  match watchers s !! k with
  | Some (local, w) => mkCluster (history s) (<[k := (local, watch_step (history s) local o w)]> (watchers s))
  | None => s
  end.

(** A watch is started when nothing of an earlier run of it is left. *)
Definition op_ok (o : Op) (w : Watcher) : Prop :=
  match o with Start => running w = false ∧ lists w = [] ∧ watches w = [] ∧ timers w = [] | _ => True end.
Inductive step (s : Cluster) : Cluster → Prop :=
  | step_server c : step s (mkCluster (history s ++ [c]) (watchers s))
  | step_watch k local w o : watchers s !! k = Some (local, w) → op_ok o w → step s (cluster_step k o s).
Inductive reachable : Cluster → Prop :=
  | reachable_new silos : reachable (mkCluster [] ((λ s, (s, new_watcher)) <$> silos))
  | reachable_step s s' : reachable s → step s s' → reachable s'.

(** What brings a watch that runs up to date: its timer fires, its list is answered,
    and its watch hands on what changed since. *)
Definition catch_up (history : list Change) (w : Watcher) : list Op :=
  match lists w, watches w, timers w with
  | [], [Some v], _ => replicate (length history - v) (Event 0)
  | [None], _, _ => [ListServed 0; ListReturns 0]
  | [Some v], _, _ => ListReturns 0 :: replicate (length history - v) (Event 0)
  | [], [], [_] => [TimerFires 0; ListServed 0; ListReturns 0]
  | _, _, _ => []
  end.
End watch.

(** ** What the server holds *)

Definition held (m : list (string * RawEndpointSlice)) : Prop := jm_ok m ∧ ∀ name r, jm_get name m = Some r → resource r = Some name.
Lemma change_held m c : held m → held (apply_change m c).
Proof.
  intros [H1 H2]. unfold apply_change. destruct (c.2) as [r|].
  - split; [by apply jm_ok_set|]. intros name r'. rewrite jm_get_set. case_decide as E; [|apply H2]. intros [= <-]. simpl. by rewrite E.
  - split; [by apply jm_ok_delete|]. intros name r'. rewrite jm_get_delete. case_decide; [done|apply H2].
Qed.
Lemma server_held v history : held (server_at v history).
Proof.
  unfold server_at. assert (H : ∀ l m, held m → held (foldl apply_change m l)); [|apply H; by split; [apply jm_ok_nil|]].
  induction l as [|c l IH]; intros m Hm; [done|]. apply IH. by apply change_held.
Qed.
Lemma server_next v history c : history !! v = Some c → server_at (S v) history = apply_change (server_at v history) c.
Proof. intros Hc. unfold server_at. by rewrite (take_S_r _ _ c), foldl_app. Qed.
Lemma server_grows v history c : (v <= length history)%nat → server_at v (history ++ [c]) = server_at v history.
Proof. intros Hv. unfold server_at. by rewrite take_app_le. Qed.

(** The slices a silo holds are those of the server, by name. *)
Definition mirrors (m : list (string * EndpointSlice)) (s : list (string * RawEndpointSlice)) : Prop :=
  jm_ok m ∧ ∀ name, jm_get name m = toEndpointSlice <$> jm_get name s.

Lemma collect_spec items : ∀ acc, jm_ok acc → NoDup items.*1 → (∀ e, e ∈ items → resource e.2 = Some e.1) →
  let m := foldl (λ acc r, match resource r with Some name => jm_set name (toEndpointSlice r) acc | None => acc end) acc items.*2 in
  jm_ok m ∧ ∀ name, jm_get name m = match jm_get name items with Some r => Some (toEndpointSlice r) | None => jm_get name acc end.
Proof.
  induction items as [|[k r] items IH]; intros acc Ha Hn Hr; [done|]. apply NoDup_cons in Hn as [Hk Hn]. simpl. pose proof (Hr (k, r) ltac:(left)) as Er. simpl in Er. rewrite Er.
  destruct (IH (jm_set k (toEndpointSlice r) acc)) as [H1 H2]; [by apply jm_ok_set|done|intros e He; apply Hr; by right|]. split; [done|]. intros name. rewrite H2, jm_get_set.
  destruct (decide (k = name)) as [->|Hne]; [|done]. apply jm_get_None in Hk. simpl in Hk. by rewrite Hk.
Qed.

Lemma jm_get_perm {V} (m m' : list (string * V)) k : jm_ok m → m ≡ₚ m' → jm_get k m = jm_get k m'.
Proof.
  intros Hok Hp. assert (Hok' : jm_ok m') by (unfold jm_ok, jm_keys in *; by rewrite <- Hp). destruct (jm_get k m) as [v|] eqn:E.
  - symmetry. apply jm_elem_get; [done|]. rewrite <- Hp. by apply jm_get_Some_elem.
  - symmetry. apply jm_get_None. apply jm_get_None in E. unfold jm_keys in *. by rewrite <- Hp.
Qed.
Lemma list_mirrors items s : held s → items ≡ₚ s → mirrors (collect items.*2) s.
Proof.
  intros [H1 H2] Hp. assert (Hok : NoDup items.*1) by (unfold jm_ok, jm_keys in H1; by rewrite Hp).
  destruct (collect_spec items [] jm_ok_nil Hok) as [A B].
  { intros [k r] He. simpl. apply H2. apply jm_elem_get; [done|]. by rewrite <- Hp. }
  split; [done|]. intros name. unfold collect. rewrite B. rewrite (jm_get_perm s items) by (done || by symmetry). by destruct (jm_get name items).
Qed.
Lemma reset_same (m : list (string * EndpointSlice)) : jm_ok m → foldl (λ acc e, jm_set e.1 e.2 acc) [] m = m.
Proof.
  intros Hm. assert (H : ∀ acc, NoDup (acc ++ m).*1 → foldl (λ acc e, jm_set e.1 e.2 acc) acc m = acc ++ m); [|by apply H].
  clear Hm. induction m as [|[k v] m IH]; intros acc Hn; [by rewrite app_nil_r|]. simpl.
  assert (E : jm_set k v acc = acc ++ [(k, v)]).
  { rewrite fmap_app in Hn. apply NoDup_app in Hn as (_ & Hd & _). assert (Hk : k ∉ acc.*1) by (intros Hk; by apply (Hd k Hk); left). clear -Hk.
    induction acc as [|[k' v'] acc IH]; [done|]. simpl in *. apply not_elem_of_cons in Hk as [Hne Hk]. rewrite decide_False by done. by rewrite IH. }
  rewrite E, IH; rewrite <- (assoc (++)); done.
Qed.

Section mirror.
Context (options : KubernetesMembershipOptions).

Lemma event_mirrors local history v c w : history !! v = Some c → mirrors (slices w) (server_at v history) →
  let '(type, r) := event_of (server_at v history) c in
  onEvent options local type r w = emit options local (slices (onEvent options local type r w)) w ∧ mirrors (slices (onEvent options local type r w)) (server_at (S v) history).
Proof.
  intros Hc [H1 H2]. rewrite (server_next v history c Hc). unfold event_of, apply_change, onEvent, apply. destruct c as [name [r|]]; simpl.
  - destruct (jm_has name (server_at v history)); simpl; (split; [done|]); (split; [by apply jm_ok_set|]); intros k; rewrite !jm_get_set; by case_decide.
  - split; [done|]. split; [by apply jm_ok_delete|]. intros k. rewrite !jm_get_delete. by case_decide.
Qed.
End mirror.

(** ** One watch *)

Section one.
Context (arrange : list (string * RawEndpointSlice) → list (string * RawEndpointSlice)) (Harrange : ∀ l, arrange l ≡ₚ l).
Context (reconnectMs maxReconnectMs : Z) (Hms : 0 <= reconnectMs <= maxReconnectMs) (options : KubernetesMembershipOptions).
Notation watch_step := (watch_step arrange reconnectMs maxReconnectMs options).
Notation watch_run := (watch_run arrange reconnectMs maxReconnectMs options).

Definition emitted (local : SiloAddress) (e : WatchedEndpoints) : Prop := silos (snapshot (view e)) = kubernetes_members local options (jm_values (slices e)).

(** Where the one loop of a watch is, its slices being those of version [v]. *)
Definition phase (history : list Change) (local : SiloAddress) (v : nat) (w : Watcher) : Prop :=
  match lists w, watches w, timers w with
  | [], [], [] => running w = false
  | [None], [], [] => True
  | [Some v'], [], [] => (v <= v' <= length history)%nat
  | [], [Some pos], [] => running w = true ∧ pos = v ∧ consecutiveFailures w = 0%nat ∧ emitted local (endpoints_of w)
  | [], [None], [] => running w = false
  | [], [], [d] => reconnectMs <= d <= 2 * maxReconnectMs
  | _, _, _ => False
  end.
Definition watcher_at (history : list Change) (local : SiloAddress) (v : nat) (w : Watcher) : Prop :=
  (v <= length history)%nat ∧ mirrors (slices (endpoints_of w)) (server_at v history) ∧ phase history local v w.

Lemma delay_bounds n jitter : reconnectMs <= nextReconnectDelay reconnectMs maxReconnectMs n jitter <= 2 * maxReconnectMs.
Proof.
  unfold nextReconnectDelay. assert (H : 1 <= 2 ^ Z.of_nat (n - 1)) by (pose proof (Z.pow_pos_nonneg 2 (Z.of_nat (n - 1))); lia).
  assert (reconnectMs <= reconnectMs * 2 ^ Z.of_nat (n - 1)) by nia. lia.
Qed.

Lemma emitted_emit local m e : emitted local (emit options local m e).
Proof. done. Qed.

Lemma list_returns_ok history local v w : held (server_at v history) → let e := reset options local (collect (arrange (server_at v history)).*2) (endpoints_of w) in
  mirrors (slices e) (server_at v history) ∧ emitted local e.
Proof.
  intros Hh. simpl. pose proof (list_mirrors (arrange (server_at v history)) (server_at v history) Hh (Harrange _)) as [H1 H2]. unfold reset. rewrite reset_same by done. done.
Qed.

(** The phases there are. *)
Ltac phases ls ws ts :=
  destruct ls as [|[?|] [|? ?]]; destruct ws as [|[?|] [|? ?]]; destruct ts as [|? [|? ?]]; try done.

Lemma watch_step_ok history local v w o : watcher_at history local v w → op_ok o w → ∃ v', (v <= v')%nat ∧ watcher_at history local v' (watch_step history local o w).
Proof.
  intros (Hv & Hm & Hp) Ho. unfold phase in Hp. destruct w as [e r f ls ws ts]. simpl in *.
  assert (Hsame : ∀ w', lists w' = ls → watches w' = ws → timers w' = ts → running w' = r → consecutiveFailures w' = f → endpoints_of w' = e → ∃ v', (v <= v')%nat ∧ watcher_at history local v' w').
  { (intros w' E1 E2 E3 E4 E5 E6; exists v; split; [done|]; split; [done|]; rewrite E6; split; [done|]; unfold phase; by rewrite E1, E2, E3, E4, E5, E6). }
  destruct o as [| |i|i|i j|i|i err j|i]; cbn [EndpointWatch.watch_step lists watches timers].
  - simpl in Ho. destruct Ho as (-> & -> & -> & ->). by exists v.
  - exists v. split; [done|]. split; [done|]. split; [done|]. unfold phase. simpl. phases ls ws ts; done.
  - destruct i as [|i]; phases ls ws ts; simpl; try (by apply Hsame). exists v. split; [done|]. split; [done|]. split; [done|]. unfold phase. simpl. lia.
  - destruct i as [|i]; phases ls ws ts; simpl; try (by apply Hsame). exists n. split; [lia|].
    destruct (list_returns_ok history local n (mkWatcher e r f [Some n] [] []) (server_held _ _)) as [A B]. simpl in A, B.
    destruct r; (split; [lia|]); (split; [exact A|]); unfold phase; simpl; [|done]. by split_and!.
  - destruct i as [|i]; phases ls ws ts; simpl; try (by apply Hsame); exists v; (split; [done|]);
      unfold rearm; destruct r; simpl; (split; [done|]); (split; [done|]); unfold phase; simpl; try done; apply delay_bounds.
  - destruct i as [|i]; phases ls ws ts; simpl; try (by apply Hsame). destruct Hp as (-> & -> & Hf & He). destruct (history !! v) as [c|] eqn:Hc; [|by apply Hsame].
    pose proof (event_mirrors options local history v c e Hc Hm) as Hev. destruct (event_of (server_at v history) c) as [type raw]. destruct Hev as [E1 E2].
    exists (S v). split; [lia|]. split; [simpl; by apply lookup_lt_Some in Hc|]. split; [done|]. unfold phase. simpl. split_and!; try done. by rewrite E1.
  - destruct i as [|i]; phases ls ws ts; simpl; try (by apply Hsame); exists v; (split; [done|]);
      unfold rearm; destruct r; simpl; (split; [done|]); (split; [done|]); unfold phase; simpl; try done; apply delay_bounds.
  - destruct i as [|i]; phases ls ws ts; simpl; try (by apply Hsame). by exists v.
Qed.

Lemma watcher_grows history c local v w : watcher_at history local v w → watcher_at (history ++ [c]) local v w.
Proof.
  intros (Hv & Hm & Hp). split; [rewrite length_app; lia|]. split; [by rewrite server_grows|]. unfold phase in *. destruct w as [e r f ls ws ts]. simpl in *.
  phases ls ws ts. rewrite length_app. lia.
Qed.

(** *** Catching up *)

Lemma phase_watch history local v w pos : phase history local v w → watches w = [Some pos] → pos = v ∧ running w = true ∧ consecutiveFailures w = 0%nat ∧ emitted local (endpoints_of w).
Proof. unfold phase. destruct w as [e r f ls ws ts]. simpl. intros Hp ->. destruct ls as [|[?|] [|? ?]], ts as [|? [|? ?]]; try done. naive_solver. Qed.

Lemma event_at history local v w : watcher_at history local v w → watches w = [Some v] → (v < length history)%nat →
  let w' := watch_step history local (Event 0) w in watcher_at history local (S v) w' ∧ watches w' = [Some (S v)].
Proof.
  intros Hw Hs Hv. destruct (watch_step_ok history local v w (Event 0) Hw I) as (v' & _ & Hw'). apply lookup_lt_is_Some in Hv as [c Hc].
  assert (E : watches (watch_step history local (Event 0) w) = [Some (S v)]).
  { cbn [EndpointWatch.watch_step]. rewrite Hs. simpl. rewrite Hc. destruct (event_of (server_at v history) c). done. }
  split; [|done]. assert (v' = S v) as <-; [|done]. destruct Hw' as (_ & _ & Hp). by destruct (phase_watch _ _ _ _ _ Hp E) as [-> _].
Qed.
Lemma events_at history local n : ∀ v w, watcher_at history local v w → watches w = [Some v] → (v + n = length history)%nat →
  let w' := watch_run history local w (replicate n (Event 0)) in watcher_at history local (length history) w' ∧ watches w' = [Some (length history)].
Proof.
  induction n as [|n IH]; intros v w Hw Hs Hn; [rewrite Nat.add_0_r in Hn; by subst v|]. destruct (event_at history local v w Hw Hs) as [A B]; [lia|].
  exact (IH (S v) _ A B ltac:(lia)).
Qed.

Lemma returned_at history local v v' w : watcher_at history local v w → lists w = [Some v'] → running w = true →
  let w' := watch_step history local (ListReturns 0) w in watcher_at history local v' w' ∧ watches w' = [Some v'].
Proof.
  intros Hw Hl Hr. destruct (watch_step_ok history local v w (ListReturns 0) Hw I) as (v2 & _ & Hw'). destruct Hw as (_ & _ & Hp). unfold phase in Hp. rewrite Hl in Hp.
  destruct (watches w) as [|] eqn:Es; [|done]. destruct (timers w) eqn:Et; [|done].
  assert (E : watches (watch_step history local (ListReturns 0) w) = [Some v']) by (cbn [EndpointWatch.watch_step]; rewrite Hl; simpl; rewrite Hr; simpl; by rewrite Es).
  split; [|done]. assert (v2 = v') as <-; [|done]. destruct Hw' as (_ & _ & Hp'). by destruct (phase_watch _ _ _ _ _ Hp' E) as [-> _].
Qed.

Lemma caught_up history local v w : watcher_at history local v w → running w = true →
  let w' := watch_run history local w (catch_up history w) in watcher_at history local (length history) w' ∧ watches w' = [Some (length history)].
Proof.
  intros Hw Hr. pose proof Hw as (Hv & _ & Hp). unfold phase in Hp. unfold catch_up.
  assert (Hserve : ∀ w, watcher_at history local v w → running w = true → lists w = [None] → let w' := watch_run history local w [ListServed 0; ListReturns 0] in watcher_at history local (length history) w' ∧ watches w' = [Some (length history)]).
  { intros w0 H0 Hr0 Hl. set (w1 := watch_step history local (ListServed 0) w0). assert (E1 : lists w1 = [Some (length history)]) by (unfold w1; cbn [EndpointWatch.watch_step]; by rewrite Hl).
    assert (E2 : running w1 = true) by (unfold w1; cbn [EndpointWatch.watch_step]; by rewrite Hl). destruct (watch_step_ok history local v w0 (ListServed 0) H0 I) as (v1 & _ & H1). exact (returned_at history local v1 _ w1 H1 E1 E2). }
  destruct (lists w) as [|[v'|] [|? ?]] eqn:El; destruct (watches w) as [|[pos|] [|? ?]] eqn:Es; destruct (timers w) as [|d [|? ?]] eqn:Et; try done; try congruence.
  - set (w1 := watch_step history local (TimerFires 0) w). destruct (watch_step_ok history local v w (TimerFires 0) Hw I) as (v1 & _ & H1).
    assert (E1 : lists w1 = [None]) by (unfold w1; cbn [EndpointWatch.watch_step]; rewrite Et; simpl; by rewrite El). assert (E2 : running w1 = true) by (unfold w1; cbn [EndpointWatch.watch_step]; by rewrite Et).
    assert (E3 : endpoints_of w1 = endpoints_of w) by (unfold w1; cbn [EndpointWatch.watch_step]; by rewrite Et). apply (Hserve w1); [|done|done]. split; [done|]. split; [by rewrite E3; apply Hw|].
    destruct H1 as (_ & _ & H1). fold w1 in H1. revert H1. unfold phase. rewrite E1. done.
  - destruct Hp as (_ & -> & _). apply (events_at history local _ v); [done|done|lia].
  - destruct (returned_at history local v v' w Hw El Hr) as [A B]. apply (events_at history local (length history - v') v'); [exact A|exact B|lia].
  - by apply Hserve.
Qed.
End one.

(** ** The silos of a cluster *)

(** What the server holds now, as a silo reads it. *)
Definition server_slices (history : list Change) : list EndpointSlice := toEndpointSlice <$> (server_at (length history) history).*2.

Lemma mirrors_perm m s : held s → mirrors m s → jm_values m ≡ₚ toEndpointSlice <$> s.*2.
Proof.
  intros [Hs _] [Hm Hg]. assert (H : m ≡ₚ (λ e : string * RawEndpointSlice, (e.1, toEndpointSlice e.2)) <$> s).
  - apply NoDup_Permutation.
    + apply (NoDup_fmap_1 fst). exact Hm.
    + apply (NoDup_fmap_1 fst). rewrite <- list_fmap_compose. exact Hs.
    + intros [k x]. rewrite list_elem_of_fmap. split.
      * intros Hin. apply jm_elem_get in Hin; [|done]. rewrite Hg in Hin. apply fmap_Some in Hin as (r & Hr & ->). exists (k, r). split; [done|]. by apply jm_get_Some_elem.
      * intros ([k' r] & [= -> ->] & Hin). apply jm_get_Some_elem. rewrite Hg. rewrite (jm_elem_get _ _ _ Hs Hin). done.
  - unfold jm_values. rewrite H, <- !list_fmap_compose. done.
Qed.
Lemma ready_perm o l l' : l ≡ₚ l' → ready_silos o l ≡ₚ ready_silos o l' ∧ siloMembersFromSlices l (portName o) ≡ₚ siloMembersFromSlices l' (portName o).
Proof. intros H. assert (E : siloMembersFromSlices l (portName o) ≡ₚ siloMembersFromSlices l' (portName o)) by (unfold siloMembersFromSlices; by rewrite H). split; [|done]. unfold ready_silos. by rewrite E. Qed.

Section cluster.
Context (arrange : list (string * RawEndpointSlice) → list (string * RawEndpointSlice)) (Harrange : ∀ l, arrange l ≡ₚ l).
Context (reconnectMs maxReconnectMs : Z) (Hms : 0 <= reconnectMs <= maxReconnectMs) (options : KubernetesMembershipOptions).

Lemma reachable_watchers s : reachable arrange reconnectMs maxReconnectMs options s →
  ∀ k local w, watchers s !! k = Some (local, w) → ∃ v, watcher_at reconnectMs maxReconnectMs options (history s) local v w.
Proof.
  induction 1 as [silos|s s' Hs IH Hstep]; intros k local w Hk.
  - simpl in Hk. apply list_lookup_fmap_Some in Hk as (x & [= -> ->] & _). exists 0%nat. split; [done|]. split; [by split; [apply jm_ok_nil|]|done].
  - destruct Hstep as [c|k' local' w' o Hk' Ho].
    + destruct (IH k local w Hk) as [v Hv]. exists v. by apply watcher_grows.
    + unfold cluster_step in Hk |- *. rewrite Hk' in Hk |- *. simpl in *. destruct (decide (k = k')) as [->|Hne].
      * rewrite list_lookup_insert_eq in Hk by by eapply lookup_lt_Some. injection Hk as <- <-. destruct (IH k' local' w' Hk') as [v Hv].
        destruct (watch_step_ok arrange Harrange reconnectMs maxReconnectMs Hms options (history s) local' v w' o Hv Ho) as (v' & _ & Hv'). by exists v'.
      * rewrite list_lookup_insert_ne in Hk by done. by apply (IH k).
Qed.

(** The ring's nodes of equal views. *)
Lemma active_of local w slices : emitted options local w → jm_values (EndpointWatch.slices w) = slices →
  activeSilos (snapshot (view w)) = activeSilos (snapshot (onSlices local options slices new_kubernetes)).
Proof. intros He <-. unfold activeSilos. rewrite He. done. Qed.

(** C39: whatever the silos of a cluster do, but for starting a watch while a list, a
    watch or a timer of an earlier run of it is left ([op_ok], which a watch that is
    started once keeps to; without it [Runs.restarted_watch_goes_back]): each holds, at
    any time, the slices of the API server at one version, which only goes forward; a
    watch that runs has exactly one call of list, one open watch or one timer; and a
    timer's delay is at least the base delay and at most twice the ceiling, which is
    not below the base. *)
Theorem watch_mirrors_server s k local w : reachable arrange reconnectMs maxReconnectMs options s → watchers s !! k = Some (local, w) →
  ∃ v, (v <= length (history s))%nat ∧ mirrors (slices (endpoints_of w)) (server_at v (history s)) ∧
  (running w = true → length (lists w) + length (watches w) + length (timers w) = 1)%nat ∧
  Forall (λ d, reconnectMs <= d <= 2 * maxReconnectMs) (timers w) ∧
  ∀ o, op_ok o w → ∃ v', (v <= v' <= length (history s))%nat ∧
    mirrors (slices (endpoints_of (watch_step arrange reconnectMs maxReconnectMs options (history s) local o w))) (server_at v' (history s)).
Proof.
  intros Hs Hk. destruct (reachable_watchers s Hs k local w Hk) as (v & Hv). pose proof Hv as (Hle & Hm & Hp). exists v. split; [done|]. split; [done|].
  assert (H : (running w = true → length (lists w) + length (watches w) + length (timers w) = 1)%nat ∧ Forall (λ d, reconnectMs <= d <= 2 * maxReconnectMs) (timers w)).
  { unfold phase in Hp. destruct (lists w) as [|[?|] [|? ?]], (watches w) as [|[?|] [|? ?]], (timers w) as [|? [|? ?]]; try done; (split; [intros; done || congruence|]); repeat constructor; lia. }
  destruct H as [H1 H2]. split; [done|]. split; [done|]. intros o Ho.
  destruct (watch_step_ok arrange Harrange reconnectMs maxReconnectMs Hms options (history s) local v w o Hv Ho) as (v' & Hvv & Hv'). exists v'. destruct Hv' as (? & ? & _). by split.
Qed.

(** C38: once their watches have caught up with an API server whose slices report of
    each incarnation of a pod one address and one readiness ([slices_consistent]), any
    two silos that it reports ready see the same active silos, and agree on the owner
    of every hash and on each other's ranges, whatever each saw before, whichever calls
    failed, and in whatever order the server lists. No watch is started while something
    of an earlier run of it is left ([op_ok]). Reports of one incarnation that differ,
    or a ready one at another address than the silo's own, are left out: the later
    slice wins, and what is later is each silo's own ([Runs.duplicates_split],
    [Membership.Runs.local_replaced]). *)
Theorem watching_silos_agree s j k a wa b wb vnodes hash : reachable arrange reconnectMs maxReconnectMs options s →
  watchers s !! j = Some (a, wa) → watchers s !! k = Some (b, wb) → running wa = true → running wb = true →
  slices_consistent options (server_slices (history s)) → a ∈ ready_silos options (server_slices (history s)) → b ∈ ready_silos options (server_slices (history s)) →
  let caught local w := watch_run arrange reconnectMs maxReconnectMs options (history s) local w (catch_up (history s) w) in
  let silos local w := activeSilos (snapshot (view (endpoints_of (caught local w)))) in
  silos a wa ≡ₚ silos b wb ∧ (∀ x, x ∈ silos a wa ↔ x ∈ ready_silos options (server_slices (history s))) ∧
  owner (new_ring (silos a wa) vnodes) hash = owner (new_ring (silos b wb) vnodes) hash ∧
  ∀ x, rangesFor (new_ring (silos a wa) vnodes) x = rangesFor (new_ring (silos b wb) vnodes) x.
Proof.
  intros Hs Hj Hk Hra Hrb Hc Ha Hb caught act.
  assert (H : ∀ i local w, watchers s !! i = Some (local, w) → running w = true → local ∈ ready_silos options (server_slices (history s)) →
    NoDup (act local w) ∧ ∀ x, x ∈ act local w ↔ x ∈ ready_silos options (server_slices (history s))).
  { intros i local w Hi Hr Hl. destruct (reachable_watchers s Hs i local w Hi) as (v & Hv).
    destruct (caught_up arrange Harrange reconnectMs maxReconnectMs Hms options (history s) local v w Hv Hr) as [Hat Hop]. fold (caught local w) in Hat, Hop.
    destruct Hat as (_ & Hm & Hp). assert (He : emitted options local (endpoints_of (caught local w))) by (by eapply phase_watch in Hp as (_ & _ & _ & He)).
    pose proof (mirrors_perm _ _ (server_held _ _) Hm) as Hperm. fold (server_slices (history s)) in Hperm. destruct (ready_perm options _ _ Hperm) as [Hready Hmem].
    unfold act. rewrite (active_of local _ _ He eq_refl). destruct (kubernetes_active_spec local options (jm_values (slices (endpoints_of (caught local w))))) as [N E].
    - intros x y Hx Hy. rewrite Hmem in Hx, Hy. by apply Hc.
    - by rewrite Hready.
    - split; [done|]. intros x. rewrite E. by rewrite Hready. }
  destruct (H j a wa Hj Hra Ha) as [N1 E1]. destruct (H k b wb Hk Hrb Hb) as [N2 E2].
  assert (Hp : act a wa ≡ₚ act b wb) by (apply NoDup_Permutation; [done|done|]; intros x; by rewrite E1, E2).
  assert (Hn : nodes (new_ring (act a wa) vnodes) = nodes (new_ring (act b wb) vnodes)) by (simpl; apply sort_nodes_perm; by rewrite Hp).
  split; [done|]. split; [done|]. split; [unfold owner, firstAtOrAfter; by rewrite Hn|]. intros x. unfold rangesFor. by rewrite Hn.
Qed.
End cluster.

(** ** Concrete runs *)

Module Runs.
Definition pod (name uid addr : string) (ready : bool) : RawEndpoint := mkRawEndpoint (Some [addr]) (Some ready) (Some name) (Some uid) None.
Definition slice (pods : list RawEndpoint) : RawEndpointSlice := mkRaw None (Some pods) (Some [(None, Some 11111)]).
Definition opts : KubernetesMembershipOptions := mkOptions None None.
Definition s0 : SiloAddress := mkSilo "s-0" "u0" "10.0.0.1:11111".
Definition s1 : SiloAddress := mkSilo "s-1" "u1" "10.0.0.2:11111".
Definition c0 : Cluster := mkCluster [] [(s0, new_watcher); (s1, new_watcher)].
Definition cstep := cluster_step (λ l, reverse l) 1000 30000 opts.
Definition server (c : Change) (s : Cluster) : Cluster := mkCluster (history s ++ [c]) (watchers s).
Definition c1 : Cluster := server ("x", Some (slice [pod "s-0" "u0" "10.0.0.1" true])) (cstep 0 (ListReturns 0) (cstep 0 (ListServed 0) (cstep 0 Start c0))).
Definition c2 : Cluster := server ("y", Some (slice [pod "s-1" "u1" "10.0.0.2" false])) (cstep 0 (Closes 0 true 0) (cstep 0 (Event 0) c1)).
Definition c3 : Cluster := server ("y", Some (slice [pod "s-1" "u1" "10.0.0.2" true])) (cstep 1 (ListServed 0) (cstep 1 Start c2)).

Lemma cstep_reachable k o s local w : reachable (λ l, reverse l) 1000 30000 opts s → watchers s !! k = Some (local, w) → op_ok o w → reachable (λ l, reverse l) 1000 30000 opts (cstep k o s).
Proof. intros Hs Hk Ho. eapply reachable_step; [done|]. by eapply step_watch. Qed.
Lemma server_reachable c s : reachable (λ l, reverse l) 1000 30000 opts s → reachable (λ l, reverse l) 1000 30000 opts (server c s).
Proof. intros Hs. eapply reachable_step; [done|]. apply step_server. Qed.
Lemma c3_reachable : reachable (λ l, reverse l) 1000 30000 opts c3.
Proof.
  assert (H0 : reachable (λ l, reverse l) 1000 30000 opts c0) by exact (reachable_new _ _ _ _ [s0; s1]).
  unfold c3, c2, c1. repeat (apply server_reachable || (eapply cstep_reachable; [|vm_compute; reflexivity|by vm_compute])). exact H0.
Qed.

Definition w0 : Watcher := (default (s0, new_watcher) (watchers c3 !! 0%nat)).2.
Definition w1 : Watcher := (default (s1, new_watcher) (watchers c3 !! 1%nat)).2.

Lemma watch_mirrors_server_witness :
  running w0 = true ∧ timers w0 = [1000] ∧ jm_keys (slices (endpoints_of w0)) = ["x"%string] ∧
  ∃ v, (v <= length (history c3))%nat ∧ mirrors (slices (endpoints_of w0)) (server_at v (history c3)).
Proof.
  split; [vm_compute; reflexivity|]. split; [vm_compute; reflexivity|]. split; [vm_compute; reflexivity|].
  destruct (watch_mirrors_server (λ l, reverse l) (λ l, reverse_Permutation l) 1000 30000 ltac:(lia) opts c3 0 s0 w0 c3_reachable) as (v & H1 & H2 & _); [vm_compute; reflexivity|].
  exists v. split; [exact H1|exact H2].
Defined.

Lemma watching_silos_agree_witness :
  let caught local w := watch_run (λ l, reverse l) 1000 30000 opts (history c3) local w (catch_up (history c3) w) in
  let silos local w := activeSilos (snapshot (view (endpoints_of (caught local w)))) in
  silos s0 w0 = [s0; s1] ∧ silos s0 w0 ≡ₚ silos s1 w1 ∧ owner (new_ring (silos s0 w0) 2) 7 = owner (new_ring (silos s1 w1) 2) 7.
Proof.
  split; [vm_compute; reflexivity|].
  assert (Hm : siloMembersFromSlices (server_slices (history c3)) None = [mkMember s0 Active None; mkMember s1 Active None]) by reflexivity.
  destruct (watching_silos_agree (λ l, reverse l) (λ l, reverse_Permutation l) 1000 30000 ltac:(lia) opts c3 0 1 s0 w0 s1 w1 2 7 c3_reachable) as (H1 & _ & H2 & _).
  - vm_compute; reflexivity.
  - vm_compute; reflexivity.
  - vm_compute; reflexivity.
  - vm_compute; reflexivity.
  - intros x y Hx Hy. cbn [portName opts] in Hx, Hy. rewrite Hm in Hx, Hy.
    repeat (apply elem_of_cons in Hx as [->|Hx]; [repeat (apply elem_of_cons in Hy as [->|Hy]; [done|]); by apply elem_of_nil in Hy|]). by apply elem_of_nil in Hx.
  - refine (bool_decide_unpack _ _). vm_compute. exact I.
  - refine (bool_decide_unpack _ _). vm_compute. exact I.
  - split; [exact H1|exact H2].
Defined.

Notation run := (watch_run (λ l, reverse l) 1000 30000 opts).
(** A watch that fails again and again never waits longer than the base delay: each
    list that succeeds in between, and opens the next watch, sets the failures back. *)
Lemma failing_watch_base_delay :
  let fail := [Closes 0 true 0; TimerFires 0; ListServed 0; ListReturns 0] in
  timers (run [] s0 new_watcher ([Start; ListServed 0; ListReturns 0] ++ fail ++ fail ++ fail ++ [Closes 0 true 0])) = [1000].
Proof. by vm_compute. Qed.
Lemma failing_list_backs_off :
  timers (run [] s0 new_watcher [Start; ListFails 0 0; TimerFires 0; ListFails 0 0; TimerFires 0; ListFails 0 0]) = [4000].
Proof. by vm_compute. Qed.

(** An incarnation that two slices report, ready in one and not in the other: the silo
    that saw them come and the one that lists them at once disagree. *)
Lemma duplicates_split :
  let h := [("x", Some (slice [pod "s-2" "u2" "10.0.0.3" true])); ("y", Some (slice [pod "s-2" "u2" "10.0.0.3" false]))] in
  let silos w := activeSilos (snapshot (view (endpoints_of w))) in
  let wa := run h s0 (run [] s0 new_watcher [Start; ListServed 0; ListReturns 0]) [Event 0; Event 0] in
  let wb := run h s1 new_watcher [Start; ListServed 0; ListReturns 0] in
  silos wa = [s0] ∧ silos wb = [s1; mkSilo "s-2" "u2" "10.0.0.3:11111"].
Proof. by vm_compute. Qed.

(** A watch stopped and started again while its last list is in flight runs twice, and
    what the older one hands on late overwrites what the newer one has seen. *)
Lemma restarted_watch_goes_back :
  let h := [("x", Some (slice [pod "s-0" "u0" "10.0.0.1" true])); ("x", None)] in
  let w := run (take 1 h) s0 new_watcher [Start; ListServed 0; Stop; Start] in
  let w := run h s0 w [ListServed 1; ListReturns 1; ListReturns 0] in
  length (watches w) = 2%nat ∧ jm_keys (slices (endpoints_of w)) = ["x"%string] ∧ server_at 2 h = [].
Proof. by vm_compute. Qed.
End Runs.
