(* ===== verification/RangeRecovery.v ===== *)
(** * View changes and range recovery

    Models the directory side of [packages/runtime/src/cluster-node.ts]: a view
    change ([updateView]), the entries handed off and retained, the pulls by which
    a silo recovers the ranges it inherits, their acknowledgements and re-arms,
    and the directory operations that wait for them ([applyDirectoryOp]).

    The partition is that of [Directory], the ring that of [HashRing], the views
    are those of [Membership]. Of the catalog, a node knows the addresses of its
    live activations. A call to a peer is sent, served, and answered in steps of
    their own; time and what fails are inputs. *)
From Stdlib Require Import String.
From stdpp Require Import prelude gmap strings list.
From S2P Require Import Prelude JsMap Ids HashRing Directory Membership.
Open Scope Z_scope.

(** ** State *)

Record RecoveryPass := mkPass {
  pass_id : nat;
  pass_version : Z;
  (** The ring [previousOwner] looks in. *)
  previousRing : ConsistentHashRing;
  (** By the source's ring key, the number of its pull. *)
  pulls : list (string * nat);
  outstanding : Z }.
Record RecoveryReArm := mkReArm { ra_source : SiloAddress; ra_ring : ConsistentHashRing; attempts : nat; since : Z; ra_timer : bool }.

(** A pull that was sent. *)
Record Pull := mkPull { pull_source : SiloAddress; pull_pass : nat; pull_version : Z; pull_ring : ConsistentHashRing; pull_settled : bool }.

Record Node := mkNode {
  local : SiloAddress;
  current : MembershipSnapshot;
  ring : ConsistentHashRing;
  appliedVersion : Z;
  partition : list (string * GrainAddress);
  handoffSnapshot : list (string * (GrainAddress * Z));
  (** The addresses of the live activations that are not stateless workers. *)
  localDirectoryAddresses : list GrainAddress;
  recovery : option RecoveryPass;
  sent : list Pull;
  (** By the source's ring key, its re-arm; a timer keeps one that was removed. *)
  reArms : list (string * nat);
  reArmed : list RecoveryReArm;
  passes : nat;
  recoveryAdopted : Z;
  recoveryExhausted : Z }.

Definition with_partition (p : list (string * GrainAddress)) (n : Node) : Node :=
  mkNode (local n) (current n) (ring n) (appliedVersion n) p (handoffSnapshot n) (localDirectoryAddresses n) (recovery n)
    (sent n) (reArms n) (reArmed n) (passes n) (recoveryAdopted n) (recoveryExhausted n).
Definition with_handoff (h : list (string * (GrainAddress * Z))) (n : Node) : Node :=
  mkNode (local n) (current n) (ring n) (appliedVersion n) (partition n) h (localDirectoryAddresses n) (recovery n)
    (sent n) (reArms n) (reArmed n) (passes n) (recoveryAdopted n) (recoveryExhausted n).
Definition with_ring (r : ConsistentHashRing) (v : Z) (n : Node) : Node :=
  mkNode (local n) (current n) r v (partition n) (handoffSnapshot n) (localDirectoryAddresses n) (recovery n)
    (sent n) (reArms n) (reArmed n) (passes n) (recoveryAdopted n) (recoveryExhausted n).
Definition with_recovery (p : option RecoveryPass) (l : list Pull) (k : nat) (n : Node) : Node :=
  mkNode (local n) (current n) (ring n) (appliedVersion n) (partition n) (handoffSnapshot n) (localDirectoryAddresses n) p
    l (reArms n) (reArmed n) k (recoveryAdopted n) (recoveryExhausted n).
Definition with_reArms (r : list (string * nat)) (l : list RecoveryReArm) (n : Node) : Node :=
  mkNode (local n) (current n) (ring n) (appliedVersion n) (partition n) (handoffSnapshot n) (localDirectoryAddresses n) (recovery n)
    (sent n) r l (passes n) (recoveryAdopted n) (recoveryExhausted n).
Definition with_counts (a e : Z) (n : Node) : Node :=
  mkNode (local n) (current n) (ring n) (appliedVersion n) (partition n) (handoffSnapshot n) (localDirectoryAddresses n) (recovery n)
    (sent n) (reArms n) (reArmed n) (passes n) a e.
Definition with_current (s : MembershipSnapshot) (n : Node) : Node :=
  mkNode (local n) s (ring n) (appliedVersion n) (partition n) (handoffSnapshot n) (localDirectoryAddresses n) (recovery n)
    (sent n) (reArms n) (reArmed n) (passes n) (recoveryAdopted n) (recoveryExhausted n).
Definition with_activations (l : list GrainAddress) (n : Node) : Node :=
  mkNode (local n) (current n) (ring n) (appliedVersion n) (partition n) (handoffSnapshot n) l (recovery n)
    (sent n) (reArms n) (reArmed n) (passes n) (recoveryAdopted n) (recoveryExhausted n).

(** ** Rings and views *)

Definition key_of (a : GrainAddress) : string := GrainId_toString (addr_grainId a).
(** The partition's [isSiloLive]. *)
Definition isSiloLive (n : Node) (s : SiloAddress) : bool := existsb (λ x, SiloAddress_equals x s) (memberSilos (current n)).
Definition buildRing (n : Node) : ConsistentHashRing := new_ring (activeSilos (current n)) DEFAULT_VNODES.
Definition buildRingWithoutLocal (n : Node) : ConsistentHashRing :=
  new_ring (filter (λ s, SiloAddress_equals s (local n) = false) (activeSilos (current n))) DEFAULT_VNODES.
Definition owned_by (r : ConsistentHashRing) (s : SiloAddress) (g : GrainId) : bool :=
  match ownerOf r g with Some o => SiloAddress_equals o s | None => false end.
Definition ownsNow (n : Node) (g : GrainId) : bool := owned_by (ring n) (local n) g.
Definition isLocalActive (n : Node) : bool := existsb (λ s, SiloAddress_equals s (local n)) (activeSilos (current n)).
Definition recoverySources (n : Node) : list SiloAddress :=
  filter (λ s, SiloAddress_equals s (local n) = false) (memberSilos (current n)).
Definition previousOwner (r : ConsistentHashRing) (g : GrainId) : option SiloAddress :=
  if isEmpty r then None else ownerOf r g.

(** ** Retained entries *)

Definition adopt (entries : list GrainAddress) (n : Node) : Node :=
  with_partition (Partition.acceptHandoff (isSiloLive n) (partition n) entries (λ e, ownsNow n (addr_grainId e))) n.

Definition pruneHandoffSnapshot (retentionMs now : Z) (present : list string) (n : Node) : Node :=
  with_handoff (filter (λ kv : string * (GrainAddress * Z), ringKey (addr_silo kv.2.1) ∈ present ∧ now - kv.2.2 <= retentionMs)
    (handoffSnapshot n)) n.

Definition retain (now : Z) (entries : list GrainAddress) (h : list (string * (GrainAddress * Z))) : list (string * (GrainAddress * Z)) :=
  foldl (λ h e, jm_set (key_of e) (e, now) h) h entries.

Definition reclaimOwnedHandoffs (n : Node) : Node :=
  if isEmpty (ring n) then n
  else
    let reclaimed := filter (λ kv : string * (GrainAddress * Z), ownsNow n (addr_grainId kv.2.1) = true) (handoffSnapshot n) in
    let n := adopt ((λ kv, kv.2.1) <$> reclaimed) n in
    with_handoff (foldl (λ h kv, jm_delete (key_of kv.2.1) h) (handoffSnapshot n) reclaimed) n.

Definition reclaimOwnActivations (n : Node) : Node :=
  if isEmpty (ring n) then n
  else adopt (filter (λ a, ownsNow n (addr_grainId a) = true) (localDirectoryAddresses n)) n.

(** ** Recovery passes *)

Definition openRecovery (version : Z) (prev : ConsistentHashRing) (n : Node) : Node :=
  with_recovery (Some (mkPass (passes n) version prev [] 0)) (sent n) (S (passes n)) n.
(** A pull into the pass in force. *)
Definition addPull (source : SiloAddress) (n : Node) : Node :=
  match recovery n with
  | None => n
  | Some p =>
      let p' := mkPass (pass_id p) (pass_version p) (previousRing p) (jm_set (ringKey source) (length (sent n)) (pulls p)) (outstanding p + 1) in
      with_recovery (Some p') (sent n ++ [mkPull source (pass_id p) (pass_version p) (previousRing p) false]) (passes n) n
  end.
Definition beginRecovery (sources : list SiloAddress) (version : Z) (prev : ConsistentHashRing) (n : Node) : Node :=
  match sources with
  | [] => n
  | _ => foldl (λ n s, addPull s n) (openRecovery version prev n) sources
  end.

(** A pull settles: the pass clears with its last one. *)
Definition settled (pid : nat) (n : Node) : Node :=
  match sent n !! pid with
  | None => n
  | Some pl =>
      let sent' := <[pid := mkPull (pull_source pl) (pull_pass pl) (pull_version pl) (pull_ring pl) true]> (sent n) in
      let pass' := match recovery n with
                   | Some p =>
                       if bool_decide (pass_id p = pull_pass pl) then
                         if bool_decide (outstanding p - 1 = 0) then None
                         else Some (mkPass (pass_id p) (pass_version p) (previousRing p) (pulls p) (outstanding p - 1))
                       else Some p
                   | None => None
                   end in
      with_recovery pass' sent' (passes n) n
  end.

(** The answer to a pull: what is acknowledged to the source, and the node. *)
Definition pull_answered (pid : nat) (entries : list GrainAddress) (n : Node) : list GrainAddress * Node :=
  match sent n !! pid with
  | None => ([], n)
  | Some pl =>
      if pull_settled pl then ([], n)
      else
        let n := with_reArms (jm_delete (ringKey (pull_source pl)) (reArms n)) (reArmed n) n in
        let adopted := filter (λ e, ownsNow n (addr_grainId e) = true) entries in
        let n := adopt entries n in
        let n := with_counts (recoveryAdopted n + Z.of_nat (length adopted)) (recoveryExhausted n) n in
        (adopted, settled pid n)
  end.

Definition scheduleRecoveryReArm (now : Z) (source : SiloAddress) (prev : ConsistentHashRing) (n : Node) : Node :=
  let '(k, old) := match jm_get (ringKey source) (reArms n) with
                   | Some k => (k, default (mkReArm source prev 0 now false) (reArmed n !! k))
                   | None => (length (reArmed n), mkReArm source prev 0 now false)
                   end in
  let r := mkReArm (ra_source old) prev (S (attempts old)) (since old) true in
  with_reArms (jm_set (ringKey source) k (reArms n)) (if bool_decide (k = length (reArmed n)) then reArmed n ++ [r] else <[k := r]> (reArmed n)) n.
(** The budget of a pull ran out. *)
Definition onRecoveryExhausted (now : Z) (pid : nat) (n : Node) : Node :=
  match sent n !! pid with
  | None => n
  | Some pl =>
      if pull_settled pl then n
      else
        let n := with_counts (recoveryAdopted n) (recoveryExhausted n + 1) n in
        settled pid (scheduleRecoveryReArm now (pull_source pl) (pull_ring pl) n)
  end.

(** The timer of a re-arm. *)
Definition retryRecovery (retentionMs now : Z) (k : nat) (n : Node) : Node :=
  match reArmed n !! k with
  | None => n
  | Some r =>
      if negb (ra_timer r) then n
      else
        let n := with_reArms (reArms n) (<[k := mkReArm (ra_source r) (ra_ring r) (attempts r) (since r) false]> (reArmed n)) n in
        if negb (existsb (λ s, SiloAddress_equals s (ra_source r)) (memberSilos (current n))) || bool_decide (retentionMs < now - since r)
        then with_reArms (jm_delete (ringKey (ra_source r)) (reArms n)) (reArmed n) n
        else
          let n := match recovery n with Some _ => n | None => openRecovery (appliedVersion n) (ra_ring r) n end in
          addPull (ra_source r) n
  end.

(** ** View changes *)

Definition classify (present : list string) (newRing : ConsistentHashRing) (n : Node) (e : GrainAddress) : Partition.Decision3 :=
  if bool_decide (ringKey (addr_silo e) ∉ present) then Partition.Drop
  else if owned_by newRing (local n) (addr_grainId e) then Partition.Keep else Partition.Handoff.

(** The drain throws at the first entry whose owner an empty ring is asked for. *)
Fixpoint drain_empty_ring (present : list string) (p : list (string * GrainAddress)) : list (string * GrainAddress) :=
  match p with
  | [] => []
  | (k, e) :: p' => if bool_decide (ringKey (addr_silo e) ∉ present) then drain_empty_ring present p' else p
  end.

(** What follows the drain. *)
Definition install_view (retentionMs now : Z) (present : list string) (newRing : ConsistentHashRing) (handedOff : list GrainAddress) (n : Node) : Node :=
  let oldRing := ring n in
  let live := ringKey <$> activeSilos (current n) in
  let n := with_handoff (retain now handedOff (handoffSnapshot n)) n in
  let n := pruneHandoffSnapshot retentionMs now present n in
  let wasActive := existsb (λ s, SiloAddress_equals s (local n)) (HashRing.silos oldRing) in
  let n := with_ring newRing (version (current n)) n in
  let peerLeftRing := existsb (λ s, bool_decide (ringKey s ∉ live)) (HashRing.silos oldRing) in
  if bool_decide (ringKey (local n) ∈ live) then
    let n := reclaimOwnedHandoffs n in
    let n := if peerLeftRing then reclaimOwnActivations n else n in
    if negb wasActive || peerLeftRing then beginRecovery (recoverySources n) (version (current n)) oldRing n else n
  else n.

(** [updateView]; false when it throws. *)
Definition updateView (retentionMs now : Z) (n : Node) : Node * bool :=
  let newRing := buildRing n in
  let present := ringKey <$> memberSilos (current n) in
  if isEmpty newRing then
    let left := drain_empty_ring present (partition n) in
    let n := with_partition left n in
    if bool_decide (left = []) then (install_view retentionMs now present newRing [] n, true) else (n, false)
  else
    let '(kept, handedOff) := Partition.drain (partition n) (classify present newRing n) in
    (install_view retentionMs now present newRing handedOff (with_partition kept n), true).

(** The join recovery of [start]. *)
Definition join_recovery (n : Node) : Node :=
  if bool_decide (recoverySources n ≠ []) && isLocalActive n && bool_decide (1 < appliedVersion n)
  then beginRecovery (recoverySources n) (appliedVersion n) (buildRingWithoutLocal n) n else n.

(** [stop]: the re-arms it knows. *)
Definition stop_recovery (n : Node) : Node :=
  with_reArms [] (imap (λ k r, if bool_decide (k ∈ (reArms n).*2) then mkReArm (ra_source r) (ra_ring r) (attempts r) (since r) false else r) (reArmed n)) n.

(** ** What a node serves *)

Definition serveRecover (retentionMs now : Z) (requester : SiloAddress) (n : Node) : Node * list GrainAddress :=
  let n := pruneHandoffSnapshot retentionMs now (ringKey <$> memberSilos (current n)) n in
  let handedOff := (λ kv, kv.2.1) <$> handoffSnapshot n in
  if isEmpty (ring n) then (n, handedOff)
  else (n, handedOff ++ filter (λ a, owned_by (ring n) requester (addr_grainId a) = true) (localDirectoryAddresses n)).

Definition ackServedRecovery (addrs : list GrainAddress) (n : Node) : Node :=
  with_handoff (foldl (λ h a, match jm_get (key_of a) h with
                              | Some held => if grainAddressEquals held.1 a then jm_delete (key_of a) h else h
                              | None => h
                              end) (handoffSnapshot n) addrs) n.

(** The pulls an owned operation waits for. *)
Definition awaitRecovered (g : GrainId) (n : Node) : list nat :=
  match recovery n with
  | None => []
  | Some p =>
      match previousOwner (previousRing p) g with
      | None => []
      | Some o => match jm_get (ringKey o) (pulls p) with Some pid => [pid] | None => (pulls p).*2 end
      end
  end.
Definition may_go_on (waits : list nat) (n : Node) : bool :=
  forallb (λ pid, match sent n !! pid with Some pl => pull_settled pl | None => true end) waits.

(** ** Directory operations *)

Inductive DirectoryOp :=
  | OpLookup (g : GrainId)
  | OpRegister (addr : GrainAddress) (previous : option GrainAddress)
  | OpUnregister (addr : GrainAddress).
Definition op_grain (o : DirectoryOp) : GrainId :=
  match o with OpLookup g => g | OpRegister a _ => addr_grainId a | OpUnregister a => addr_grainId a end.

Inductive OpResult := Served (r : option GrainAddress) | StaleView.

(** An operation of a peer, of the view version it names, or of the silo itself. *)
Inductive OpState :=
  | Arrived (v : Z) (o : DirectoryOp)
  | WaitingPulls (v : Z) (o : DirectoryOp) (waits : list nat)
  | LocalWaiting (o : DirectoryOp) (waits : list nat)
  | Answered (r : OpResult).

Definition access (o : DirectoryOp) (n : Node) : Node * OpResult :=
  match o with
  | OpLookup g => (n, Served (Partition.lookup (isSiloLive n) (partition n) g))
  | OpRegister a prev => let '(p, w) := Partition.register (isSiloLive n) (partition n) a prev in (with_partition p n, Served (Some w))
  | OpUnregister a => (with_partition (Partition.unregister (partition n) a) n, Served None)
  end.
Definition requireOwned (g : GrainId) (n : Node) : bool := negb (isEmpty (ring n)) && ownsNow n g.

(** [awaitView], while the view it waits for is not there: nothing happens. *)
Definition awaitView (retentionMs now v : Z) (n : Node) : Node * bool :=
  if bool_decide (v <= appliedVersion n) then (n, true)
  else if bool_decide (v <= version (current n)) then
    let '(n, ok) := updateView retentionMs now n in (n, ok && bool_decide (v <= appliedVersion n))
  else (n, false).

(** [applyDirectoryOp] and the owned side of [route], to their next await. *)
Definition op_step (retentionMs now : Z) (st : OpState) (n : Node) : Node * OpState :=
  match st with
  | Arrived v o =>
      let '(n, ok) := awaitView retentionMs now v n in
      if negb ok then (n, st)
      else if bool_decide (v < appliedVersion n) && negb (requireOwned (op_grain o) n) then (n, Answered StaleView)
      else (n, WaitingPulls v o (awaitRecovered (op_grain o) n))
  | WaitingPulls v o waits =>
      if negb (may_go_on waits n) then (n, st)
      else if bool_decide (v < appliedVersion n) && negb (requireOwned (op_grain o) n) then (n, Answered StaleView)
      else let '(n, r) := access o n in (n, Answered r)
  | LocalWaiting o waits =>
      if negb (may_go_on waits n) then (n, st)
      else if requireOwned (op_grain o) n then let '(n, r) := access o n in (n, Answered r)
      else (n, Answered StaleView)
  | Answered r => (n, st)
  end.
Definition local_op (o : DirectoryOp) (n : Node) : OpState := LocalWaiting o (awaitRecovered (op_grain o) n).

(** ** A cluster *)

Record Silo := mkSilo' { node : Node; ops : list OpState }.
(** With the answers to pulls and the acknowledgements that are under way. *)
Record Cluster := mkCluster {
  clock : Z;
  silos : list Silo;
  answers : list (nat * nat * nat * list GrainAddress);
  acks : list (nat * list GrainAddress) }.

Inductive Label :=
  | ViewChanges (v : Z)
  | UpdateView
  | Join
  | Stop
  | Activations (l : list GrainAddress)
  | ServePull (pid source : nat)
  | PullFails (pid : nat)
  | AnswerArrives (k : nat)
  | AckArrives (k : nat)
  | RetryTimer (k : nat)
  | OpArrives (v : Z) (o : DirectoryOp)
  | LocalOp (o : DirectoryOp)
  | OpAdvances (k : nat).

Section cluster.
(** The views of the one membership authority, by version. *)
Context (view_of : Z → MembershipSnapshot) (retentionMs : Z).

Definition ring_of (v : Z) : ConsistentHashRing := new_ring (activeSilos (view_of v)) DEFAULT_VNODES.

Definition set_node (i : nat) (f : Node → Node) (w : Cluster) : Cluster :=
  mkCluster (clock w) (alter (λ s, mkSilo' (f (node s)) (ops s)) i (silos w)) (answers w) (acks w).
Definition add_op (i : nat) (o : OpState) (w : Cluster) : Cluster :=
  mkCluster (clock w) (alter (λ s, mkSilo' (node s) (ops s ++ [o])) i (silos w)) (answers w) (acks w).

Definition cluster_step (i : nat) (l : Label) (w : Cluster) : Cluster :=
  let now := clock w in
  match silos w !! i with
  | None => w
  | Some (mkSilo' n os) =>
      match l with
      | ViewChanges v => if bool_decide (version (current n) <= v) then set_node i (with_current (view_of v)) w else w
      | UpdateView => set_node i (λ n, (updateView retentionMs now n).1) w
      | Join => set_node i join_recovery w
      | Stop => set_node i stop_recovery w
      | Activations l => set_node i (with_activations l) w
      | ServePull pid j =>
          match sent n !! pid, silos w !! j with
          | Some pl, Some (mkSilo' m _) =>
              if bool_decide (pull_source pl = local m) then
                let '(m, ok) := awaitView retentionMs now (pull_version pl) m in
                if ok then
                  let '(m, entries) := serveRecover retentionMs now (local n) m in
                  let w := set_node j (λ _, m) w in
                  mkCluster now (silos w) (answers w ++ [(i, pid, j, entries)]) (acks w)
                else set_node j (λ _, m) w
              else w
          | _, _ => w
          end
      | PullFails pid => set_node i (onRecoveryExhausted now pid) w
      | AnswerArrives k =>
          match answers w !! k with
          | Some (i', pid, j, entries) =>
              if bool_decide (i' = i) then
                let '(adopted, n) := pull_answered pid entries n in
                let w := set_node i (λ _, n) w in
                mkCluster now (silos w) (answers w) (if bool_decide (adopted = []) then acks w else acks w ++ [(j, adopted)])
              else w
          | None => w
          end
      | AckArrives k =>
          match acks w !! k with
          | Some (j, addrs) => if bool_decide (j = i) then set_node i (ackServedRecovery addrs) w else w
          | None => w
          end
      | RetryTimer k => set_node i (retryRecovery retentionMs now k) w
      | OpArrives v o => if owned_by (ring_of v) (local n) (op_grain o) then add_op i (Arrived v o) w else w
      | LocalOp o => add_op i (local_op o n) w
      | OpAdvances k =>
          match os !! k with
          | Some st =>
              let '(n, st) := op_step retentionMs now st n in
              mkCluster now (<[i := mkSilo' n (<[k := st]> os)]> (silos w)) (answers w) (acks w)
          | None => w
          end
      end
  end.

(** Time passes before each step. *)
Definition cluster_run (ls : list (Z * nat * Label)) (w : Cluster) : Cluster :=
  foldl (λ w l, cluster_step l.1.2 l.2 (mkCluster (clock w + Z.max 0 l.1.1) (silos w) (answers w) (acks w))) w ls.

Definition new_node (s : SiloAddress) (v : Z) : Node :=
  mkNode s (view_of v) (ring_of v) (version (view_of v)) [] [] [] None [] [] [] 0 0 0.
Definition start_cluster (v : Z) (l : list SiloAddress) : Cluster :=
  mkCluster 0 ((λ s, mkSilo' (new_node s v) []) <$> l) [] [].
End cluster.

(** ** A partition holds what its ring gives it *)

Section owned.
Context (view_of : Z → MembershipSnapshot) (retentionMs : Z).
Context (Hversion : ∀ v, version (view_of v) = v).

Record node_ok (n : Node) : Prop := {
  nk_wf : Partition.wf (partition n);
  nk_owned : ∀ k a, jm_get k (partition n) = Some a → ownsNow n (addr_grainId a) = true;
  nk_current : current n = view_of (version (current n));
  nk_ring : ring n = ring_of view_of (appliedVersion n);
  nk_applied : appliedVersion n <= version (current n) }.

(** What touches neither the views nor the partition. *)
Definition same_dir (n n' : Node) : Prop :=
  local n' = local n ∧ current n' = current n ∧ ring n' = ring n ∧ appliedVersion n' = appliedVersion n ∧ partition n' = partition n.

Lemma same_dir_refl n : same_dir n n.
Proof. done. Qed.
Lemma same_dir_trans a b c : same_dir a b → same_dir b c → same_dir a c.
Proof. unfold same_dir. intros (A1 & A2 & A3 & A4 & A5) (B1 & B2 & B3 & B4 & B5). repeat split; congruence. Qed.
Lemma same_dir_ok n n' : same_dir n n' → node_ok n → node_ok n'.
Proof.
  intros (A1 & A2 & A3 & A4 & A5) [H1 H2 H3 H4 H5]. split; try congruence.
  intros k a. rewrite A5. unfold ownsNow. rewrite A1, A3. apply H2.
Qed.

Lemma addPull_same s n : same_dir n (addPull s n).
Proof. unfold addPull. by destruct (recovery n). Qed.
Lemma beginRecovery_same l v r n : same_dir n (beginRecovery l v r n).
Proof.
  unfold beginRecovery. destruct l as [|s l]; [done|]. assert (H0 : same_dir n (openRecovery v r n)) by done. revert H0.
  generalize (openRecovery v r n). induction (s :: l) as [|x xs IH]; intros m Hm; [done|]. simpl. apply IH.
  eapply same_dir_trans; [done|apply addPull_same].
Qed.
Lemma settled_same pid n : same_dir n (settled pid n).
Proof. unfold settled. by destruct (sent n !! pid). Qed.
Lemma reArm_same now s r n : same_dir n (scheduleRecoveryReArm now s r n).
Proof. unfold scheduleRecoveryReArm. destruct (match jm_get (ringKey s) (reArms n) with Some k => _ | None => _ end) as [k old]. done. Qed.
Lemma exhausted_same now pid n : same_dir n (onRecoveryExhausted now pid n).
Proof.
  unfold onRecoveryExhausted. destruct (sent n !! pid) as [pl|]; [|done]. destruct (pull_settled pl); [done|].
  eapply same_dir_trans; [|apply settled_same]. eapply same_dir_trans; [|apply reArm_same]. done.
Qed.
Lemma retry_same now k n : same_dir n (retryRecovery retentionMs now k n).
Proof.
  unfold retryRecovery. destruct (reArmed n !! k) as [r|]; [|done]. destruct (ra_timer r); [|done]. simpl.
  destruct (negb _ || _); [done|]. simpl. destruct (recovery n); (eapply same_dir_trans; [|apply addPull_same]); done.
Qed.
Lemma serveRecover_same now s n : same_dir n (serveRecover retentionMs now s n).1.
Proof. unfold serveRecover. simpl. by destruct (isEmpty (ring n)). Qed.

(** Adopting what the ring gives. *)
Lemma accept_owned n entries : ∀ p, Partition.wf p → (∀ k a, jm_get k p = Some a → ownsNow n (addr_grainId a) = true) →
  let p' := Partition.acceptHandoff (isSiloLive n) p entries (λ e, ownsNow n (addr_grainId e)) in
  Partition.wf p' ∧ ∀ k a, jm_get k p' = Some a → ownsNow n (addr_grainId a) = true.
Proof.
  induction entries as [|e entries IH]; intros p Hwf Ho; [done|]. simpl. apply IH.
  - destruct (ownsNow n (addr_grainId e)); [by apply Partition.wf_register|done].
  - destruct (ownsNow n (addr_grainId e)) eqn:He; [|done]. intros k a. unfold Partition.register.
    repeat case_match; simpl; try apply Ho; rewrite jm_get_set; case_decide; try apply Ho; by intros [= <-].
Qed.

Lemma adopt_ok entries n : node_ok n → node_ok (adopt entries n).
Proof. intros [H1 H2 H3 H4 H5]. destruct (accept_owned n entries (partition n) H1 H2). by split. Qed.

Lemma pull_answered_ok pid entries n : node_ok n → node_ok (pull_answered pid entries n).2.
Proof.
  intros Hn. unfold pull_answered. destruct (sent n !! pid) as [pl|]; [|done]. destruct (pull_settled pl); [done|]. simpl.
  eapply same_dir_ok; [apply settled_same|]. eapply same_dir_ok; [|apply (adopt_ok entries), Hn]. done.
Qed.

Lemma reclaimOwnedHandoffs_ok n : node_ok n → node_ok (reclaimOwnedHandoffs n).
Proof. intros Hn. unfold reclaimOwnedHandoffs. destruct (isEmpty (ring n)); [done|]. eapply same_dir_ok; [|apply adopt_ok, Hn]. done. Qed.
Lemma reclaimOwnActivations_ok n : node_ok n → node_ok (reclaimOwnActivations n).
Proof. intros Hn. unfold reclaimOwnActivations. destruct (isEmpty (ring n)); [done|]. by apply adopt_ok. Qed.

(** What a view change keeps of the old partition suits the new ring. *)
Lemma install_view_ok now present r handedOff n : Partition.wf (partition n) →
  (∀ k a, jm_get k (partition n) = Some a → owned_by r (local n) (addr_grainId a) = true) →
  current n = view_of (version (current n)) → r = ring_of view_of (version (current n)) →
  node_ok (install_view retentionMs now present r handedOff n) ∧
  appliedVersion (install_view retentionMs now present r handedOff n) = version (current n) ∧
  local (install_view retentionMs now present r handedOff n) = local n.
Proof.
  intros Hwf Ho Hc Hr. unfold install_view.
  set (n1 := with_ring r (version (current _)) _). assert (H1 : node_ok n1) by (split; simpl; done).
  assert (Hf : current n1 = current n ∧ appliedVersion n1 = version (current n) ∧ local n1 = local n) by done.
  clearbody n1. clear Hwf Ho. destruct Hf as (F1 & F2 & F3).
  assert (Hrec : node_ok (reclaimOwnedHandoffs n1) ∧ appliedVersion (reclaimOwnedHandoffs n1) = version (current n) ∧ local (reclaimOwnedHandoffs n1) = local n).
  { split; [by apply reclaimOwnedHandoffs_ok|]. unfold reclaimOwnedHandoffs. by destruct (isEmpty (ring n1)). }
  case_bool_decide; [|done]. generalize dependent (reclaimOwnedHandoffs n1). intros n2 (K1 & K2 & K3).
  set (b := existsb (λ s, bool_decide (ringKey s ∉ _)) (HashRing.silos (ring n))). set (n3 := if b then reclaimOwnActivations n2 else n2).
  assert (Hn3 : node_ok n3 ∧ appliedVersion n3 = version (current n) ∧ local n3 = local n).
  { unfold n3. destruct b; [|done]. split; [by apply reclaimOwnActivations_ok|]. unfold reclaimOwnActivations. by destruct (isEmpty (ring n2)). }
  clearbody n3. destruct Hn3 as (J1 & J2 & J3). destruct (negb (existsb _ _) || b); [|done].
  pose proof (beginRecovery_same (recoverySources n3) (version (current n3)) (ring n) n3) as Hs.
  split; [by eapply same_dir_ok|]. destruct Hs as (S1 & _ & _ & S4 & _). split; congruence.
Qed.

Lemma updateView_ok now n : node_ok n → node_ok (updateView retentionMs now n).1 ∧ local (updateView retentionMs now n).1 = local n ∧
  appliedVersion n <= appliedVersion (updateView retentionMs now n).1.
Proof.
  intros Hn. pose proof Hn as [H1 H2 H3 H4 H5].
  assert (Hring : buildRing n = ring_of view_of (version (current n))) by (unfold buildRing, ring_of; by rewrite <- H3).
  unfold updateView. destruct (isEmpty (buildRing n)) eqn:He.
  - assert (Hsuf : ∀ present p, Partition.wf p → Partition.wf (drain_empty_ring present p) ∧
      ∀ k a, jm_get k (drain_empty_ring present p) = Some a → jm_get k p = Some a).
    { intros present p. induction p as [|[k0 e] p IH]; intros Hwf; [done|]. simpl. case_bool_decide; [|done].
      pose proof Hwf as [Hok Hkeys]. inversion Hok as [|? ? Hnin Hok']; subst.
      assert (Hsub : ∀ k a, jm_get k p = Some a → jm_get k ((k0, e) :: p) = Some a).
      { intros k a Hk. apply jm_elem_get; [done|]. right. by apply jm_get_Some_elem. }
      destruct IH as [I1 I2]; [split; [done|]; intros k a Hk; by apply Hkeys, Hsub|]. split; [done|]. intros k a Hk. by apply Hsub, I2. }
    destruct (Hsuf (ringKey <$> memberSilos (current n)) (partition n) H1) as [S1 S2]. case_bool_decide as Hl; cbn [fst].
    + edestruct (install_view_ok now) as (K1 & K2 & K3); [| | | |split; [exact K1|split; [exact K3|rewrite K2; simpl; lia]]]; simpl.
      * done.
      * rewrite Hl. by intros k a Hk.
      * done.
      * done.
    + split; [|by split]. split; simpl; try done. intros k a Hk. by eapply H2, S2.
  - destruct (Partition.drain (partition n) _) as [kept handedOff] eqn:Hd. rewrite Partition.drain_filter in Hd. injection Hd as <- <-.
    cbn [fst]. edestruct (install_view_ok now) as (K1 & K2 & K3); [| | | |split; [exact K1|split; [exact K3|rewrite K2; simpl; lia]]]; simpl.
    + by apply Partition.wf_filter.
    + intros k a. rewrite jm_get_filter by apply H1. destruct (jm_get k (partition n)) as [b|]; [|done]. simpl.
      case_decide as Hk; [|done]. intros [= <-]. revert Hk. unfold classify. case_bool_decide; [done|].
      by destruct (owned_by _ _ _).
    + done.
    + done.
Qed.
(** An operation of a peer went to the owner of its grain in the view it names. *)
Definition op_ok (n : Node) (st : OpState) : Prop :=
  match st with
  | Arrived v o => owned_by (ring_of view_of v) (local n) (op_grain o) = true
  | WaitingPulls v o _ => owned_by (ring_of view_of v) (local n) (op_grain o) = true ∧ v <= appliedVersion n
  | _ => True
  end.
Lemma dir_op_later n n' st : local n' = local n → appliedVersion n <= appliedVersion n' → op_ok n st → op_ok n' st.
Proof. intros Hl Ha. destruct st as [v o|v o w|o w|r]; simpl; rewrite ?Hl; try done. intros [? ?]. split; [done|lia]. Qed.

Lemma access_ok o n : node_ok n → ownsNow n (op_grain o) = true →
  node_ok (access o n).1 ∧ local (access o n).1 = local n ∧ appliedVersion (access o n).1 = appliedVersion n.
Proof.
  intros [H1 H2 H3 H4 H5] Ho. destruct o as [g|a prev|a]; simpl in *; [done| |].
  - destruct (Partition.register (isSiloLive n) (partition n) a prev) as [p w] eqn:Hr. simpl. split; [|done].
    pose proof (Partition.wf_register (isSiloLive n) (partition n) a prev H1) as Hw. rewrite Hr in Hw. split; simpl; try done.
    intros k b Hb. assert (Hp : p = partition n ∨ p = jm_set (key_of a) a (partition n)).
    { unfold Partition.register in Hr. repeat case_match; injection Hr as <- _; auto. }
    destruct Hp as [->| ->]; [by eapply H2|]. rewrite jm_get_set in Hb. case_decide; [by injection Hb as <-|by eapply H2].
  - split; [|done]. split; simpl; try done; [by apply Partition.wf_unregister|]. intros k b Hb.
    unfold Partition.unregister in Hb. repeat case_match; try (by eapply H2).
    rewrite jm_get_delete in Hb. case_decide; [done|by eapply H2].
Qed.

Lemma awaitView_ok now v n n' ok : node_ok n → awaitView retentionMs now v n = (n', ok) →
  node_ok n' ∧ local n' = local n ∧ appliedVersion n <= appliedVersion n' ∧ (ok = true → v <= appliedVersion n').
Proof.
  intros Hn. unfold awaitView. case_bool_decide; [intros [= <- <-]; repeat split; (done || apply Hn || lia)|].
  case_bool_decide; [|intros [= <- <-]; repeat split; (done || apply Hn || lia)].
  destruct (updateView_ok now n Hn) as (K1 & K2 & K3). destruct (updateView retentionMs now n) as [m b]. simpl in *.
  intros [= <- <-]. split; [done|]. split; [done|]. split; [done|]. intros [_ Hv%bool_decide_eq_true_1]%andb_prop. done.
Qed.

Lemma dir_op_step_ok now st n n' st' : node_ok n → op_ok n st → op_step retentionMs now st n = (n', st') →
  node_ok n' ∧ op_ok n' st' ∧ local n' = local n ∧ appliedVersion n <= appliedVersion n'.
Proof.
  intros Hn Ho. destruct st as [v o|v o waits|o waits|r]; simpl.
  - destruct (awaitView retentionMs now v n) as [m ok] eqn:Ha. destruct (awaitView_ok now v n m ok Hn Ha) as (K1 & K2 & K3 & K4).
    simpl in Ho. destruct ok; simpl; [|intros [= <- <-]; repeat split; (done || by apply K1 || simpl; by rewrite K2)].
    destruct (bool_decide _ && _); intros [= <- <-]; (split; [done|]; split; [|done]); [done|]. simpl. rewrite K2. split; [done|by apply K4].
  - destruct (negb (may_go_on waits n)); [intros [= <- <-]; split; [done|]; split; [done|]; split; [done|lia]|].
    destruct (bool_decide (v < appliedVersion n) && _) eqn:Hb; [intros [= <- <-]; split; [done|]; split; [done|]; split; [done|lia]|].
    destruct Ho as [Hv Hle]. assert (Hown : ownsNow n (op_grain o) = true).
    { apply andb_false_iff in Hb as [Hb|Hb].
      - apply bool_decide_eq_false in Hb. assert (v = appliedVersion n) as -> by lia. unfold ownsNow. by rewrite (nk_ring _ Hn).
      - apply negb_false_iff, andb_prop in Hb as [_ Hb]. done. }
    destruct (access_ok o n Hn Hown) as (K1 & K2 & K3). destruct (access o n) as [m r]. simpl in *. intros [= <- <-].
    split; [done|]. split; [done|]. split; [done|lia].
  - destruct (negb (may_go_on waits n)); [intros [= <- <-]; split; [done|]; split; [done|]; split; [done|lia]|].
    destruct (requireOwned (op_grain o) n) eqn:Hr; [|intros [= <- <-]; split; [done|]; split; [done|]; split; [done|lia]].
    apply andb_prop in Hr as [_ Hown]. destruct (access_ok o n Hn Hown) as (K1 & K2 & K3). destruct (access o n) as [m r]. simpl in *.
    intros [= <- <-]. split; [done|]. split; [done|]. split; [done|lia].
  - intros [= <- <-]. split; [done|]. split; [done|]. split; [done|lia].
Qed.

Definition silo_ok (s : Silo) : Prop := node_ok (node s) ∧ Forall (op_ok (node s)) (ops s).
Definition cluster_ok (w : Cluster) : Prop := Forall silo_ok (silos w).

(** A node that moves on under the operations of its silo. *)
Lemma silo_moves s n : silo_ok s → node_ok n → local n = local (node s) → appliedVersion (node s) <= appliedVersion n →
  silo_ok (mkSilo' n (ops s)).
Proof. intros [_ Ho] Hn Hl Ha. split; [done|]. eapply Forall_impl; [exact Ho|]. intros st. by apply dir_op_later. Qed.

Lemma set_node_ok i f w : cluster_ok w →
  (∀ s, silos w !! i = Some s → silo_ok s → node_ok (f (node s)) ∧ local (f (node s)) = local (node s) ∧ appliedVersion (node s) <= appliedVersion (f (node s))) →
  cluster_ok (set_node i f w).
Proof.
  intros Hw Hf. apply Forall_lookup. simpl. intros j s Hj. rewrite list_lookup_alter in Hj. case_decide as Hij; [|by eapply Forall_lookup_1].
  destruct (silos w !! i) as [s0|] eqn:Hs; [|done]. injection Hj as <-. assert (Hs0 : silo_ok s0) by by eapply Forall_lookup_1.
  destruct (Hf s0 eq_refl Hs0) as (K1 & K2 & K3). by apply silo_moves.
Qed.

Lemma set_node_same i f w : cluster_ok w → (∀ n, same_dir n (f n)) → cluster_ok (set_node i f w).
Proof.
  intros Hw Hf. apply set_node_ok; [done|]. intros s _ [Hn _]. destruct (Hf (node s)) as (S1 & S2 & S3 & S4 & S5).
  split; [by eapply same_dir_ok|]. split; [done|lia].
Qed.

Lemma add_op_ok i o w : cluster_ok w → (∀ s, silos w !! i = Some s → op_ok (node s) o) → cluster_ok (add_op i o w).
Proof.
  intros Hw Ho. apply Forall_lookup. simpl. intros j s Hj. rewrite list_lookup_alter in Hj. case_decide as Hij; [|by eapply Forall_lookup_1].
  destruct (silos w !! i) as [s0|] eqn:Hs; [|done]. injection Hj as <-. destruct (proj1 (Forall_lookup _ _) Hw i s0 Hs) as [K1 K2].
  split; [done|]. simpl. apply Forall_app. split; [done|]. constructor; [by apply Ho|constructor].
Qed.
Lemma cluster_step_ok i l w : cluster_ok w → cluster_ok (cluster_step view_of retentionMs i l w).
Proof.
  intros Hw. unfold cluster_step. destruct (silos w !! i) as [[n os]|] eqn:Hi; [|done].
  assert (Hni : node_ok n ∧ Forall (op_ok n) os) by exact (proj1 (Forall_lookup _ _) Hw i _ Hi).
  assert (Hat : ∀ s, silos w !! i = Some s → node s = n) by (intros s Hs; rewrite Hi in Hs; by injection Hs as <-).
  destruct l as [v| | | |l|pid j|pid|k|k|k|v o|o|k].
  - case_bool_decide as Hv; [|done]. apply set_node_ok; [done|]. intros s Hs [[H1 H2 H3 H4 H5] _]. rewrite (Hat s Hs) in *.
    split; [|split; [done|simpl; lia]]. split; simpl; try done; [by rewrite Hversion|rewrite Hversion; lia].
  - apply set_node_ok; [done|]. intros s Hs [Hn _]. by apply updateView_ok.
  - apply set_node_same; [done|]. intros m. unfold join_recovery. destruct (_ && _); [apply beginRecovery_same|done].
  - by apply set_node_same.
  - by apply set_node_same.
  - destruct (sent n !! pid) as [pl|]; [|done]. destruct (silos w !! j) as [[m os']|] eqn:Hj; [|done]. case_bool_decide; [|done].
    assert (Hmj : node_ok m ∧ Forall (op_ok m) os') by exact (proj1 (Forall_lookup _ _) Hw j _ Hj).
    destruct (awaitView retentionMs (clock w) (pull_version pl) m) as [m1 ok] eqn:Ha.
    destruct (awaitView_ok _ _ _ _ _ (proj1 Hmj) Ha) as (K1 & K2 & K3 & _).
    assert (Hatj : ∀ s, silos w !! j = Some s → node s = m) by (intros s Hs; rewrite Hj in Hs; by injection Hs as <-).
    destruct ok; [|apply set_node_ok; [done|]; intros s Hs _; by rewrite (Hatj s Hs)].
    pose proof (serveRecover_same (clock w) (local n) m1) as Hsame. destruct (serveRecover retentionMs (clock w) (local n) m1) as [m2 es].
    simpl in Hsame. destruct Hsame as (S1 & S2 & S3 & S4 & S5).
    apply (set_node_ok j (λ _, m2)); [done|]. intros s Hs _. rewrite (Hatj s Hs).
    split; [by eapply same_dir_ok|]. split; [congruence|lia].
  - apply set_node_same; [done|]. intros m. apply exhausted_same.
  - destruct (answers w !! k) as [[[[i' pid] j] es]|]; [|done]. case_bool_decide; [|done].
    pose proof (pull_answered_ok pid es n (proj1 Hni)) as Hp.
    assert (Hloc : local (pull_answered pid es n).2 = local n ∧ appliedVersion (pull_answered pid es n).2 = appliedVersion n).
    { unfold pull_answered. destruct (sent n !! pid) as [pl|]; [|done]. destruct (pull_settled pl); [done|]. cbn [snd].
      match goal with |- context [settled pid ?m] => destruct (settled_same pid m) as (S1 & _ & _ & S4 & _); rewrite S1, S4 end. done. }
    destruct (pull_answered pid es n) as [adopted n']. simpl in Hp, Hloc.
    apply (set_node_ok i (λ _, n')); [done|]. intros s Hs _. rewrite (Hat s Hs). destruct Hloc as [-> ->]. split; [done|]. split; [done|lia].
  - destruct (acks w !! k) as [[j addrs]|]; [|done]. case_bool_decide; [|done]. by apply set_node_same.
  - apply set_node_same; [done|]. intros m. apply retry_same.
  - destruct (owned_by _ _ _) eqn:Ho; [|done]. apply add_op_ok; [done|]. intros s Hs. simpl. by rewrite (Hat s Hs).
  - by apply add_op_ok.
  - destruct (os !! k) as [st|] eqn:Hk; [|done]. destruct (op_step retentionMs (clock w) st n) as [n' st'] eqn:Hstep.
    destruct Hni as [Hn Hos]. destruct (dir_op_step_ok (clock w) st n n' st' Hn) as (K1 & K2 & K3 & K4); [by eapply Forall_lookup_1|done|].
    unfold cluster_ok. simpl. apply Forall_insert; [done|]. split; [done|]. simpl. apply Forall_insert; [|done].
    eapply Forall_impl; [exact Hos|]. intros x. by apply dir_op_later.
Qed.

Lemma nodes_run_ok ls : ∀ w, cluster_ok w → cluster_ok (cluster_run view_of retentionMs ls w).
Proof. induction ls as [|[[d i] l] ls IH]; intros w Hw; [done|]. simpl. by apply IH, cluster_step_ok. Qed.

Lemma start_cluster_ok v l : cluster_ok (start_cluster view_of v l).
Proof.
  apply Forall_fmap, Forall_forall. intros s _. split; [|constructor].
  split; simpl; [split; [apply jm_ok_nil|done]|done|by rewrite Hversion|by rewrite Hversion|lia].
Qed.

(** A partition holds only what its ring gives it. While views change under
    the silos of one membership authority, each taking them up when it does, and
    while registrations, lookups, pulls, adoptions, acknowledgements and retries
    run in any order, late, twice or not at all: every entry of a silo's partition
    is one the ring in force there assigns to that silo. No entry is left where no
    lookup goes. *)
Theorem partition_owned_by_ring v l ls i s k a :
  silos (cluster_run view_of retentionMs ls (start_cluster view_of v l)) !! i = Some s →
  jm_get k (partition (node s)) = Some a →
  ownerOf (ring (node s)) (addr_grainId a) = Some (local (node s)) ∧ k = key_of a ∧
  ring (node s) = ring_of view_of (appliedVersion (node s)).
Proof.
  intros Hs Ha. pose proof (nodes_run_ok ls _ (start_cluster_ok v l)) as Hok.
  destruct (proj1 (Forall_lookup _ _) Hok i s Hs) as [[[_ Hkeys] H2 _ H4 _] _].
  pose proof (H2 k a Ha) as Ho. unfold ownsNow, owned_by in Ho. destruct (ownerOf (ring (node s)) (addr_grainId a)) as [o|]; [|done].
  apply SiloAddress_equals_iff in Ho as ->. split; [done|]. split; [by apply Hkeys|done].
Qed.
End owned.

(** ** An inherited range is found *)

Section inherited.
Context (retentionMs : Z).

Definition finds (n : Node) (g : GrainId) : Prop := is_Some (Partition.lookup (isSiloLive n) (partition n) g).

Lemma register_finds isLive p e : isLive (addr_silo e) = true →
  is_Some (Partition.lookup isLive (Partition.register isLive p e None).1 (addr_grainId e)).
Proof.
  intros Hl. unfold Partition.lookup. pose proof (Partition.register_get isLive p e None) as Hg.
  assert (Hw : isLive (addr_silo (Partition.register isLive p e None).2) = true).
  { unfold Partition.register. destruct (jm_get _ p) as [x|] eqn:Hx; [|done]. destruct (isLive (addr_silo x)) eqn:Hlx; done. }
  rewrite Hg, Hw. by eexists.
Qed.

Lemma accept_finds isLive own e entries : ∀ p, e ∈ entries → own e = true → isLive (addr_silo e) = true →
  is_Some (Partition.lookup isLive (Partition.acceptHandoff isLive p entries own) (addr_grainId e)).
Proof.
  assert (Hkeep : ∀ l p, is_Some (Partition.lookup isLive p (addr_grainId e)) →
    is_Some (Partition.lookup isLive (Partition.acceptHandoff isLive p l own) (addr_grainId e))).
  { intros l p [x Hx]. unfold Partition.lookup in *. destruct (jm_get _ p) as [y|] eqn:Hy; [|done].
    destruct (isLive (addr_silo y)) eqn:Hly; [|done]. rewrite (Partition.accept_keeps_live isLive p l own _ y Hy Hly), Hly. by eexists. }
  induction entries as [|x entries IH]; intros p Hin Ho Hl; [by apply elem_of_nil in Hin|]. simpl.
  apply elem_of_cons in Hin as [<-|Hin]; [|by apply IH]. rewrite Ho. by apply Hkeep, register_finds.
Qed.

Lemma adopt_finds entries n e : e ∈ entries → ownsNow n (addr_grainId e) = true → isSiloLive n (addr_silo e) = true →
  finds (adopt entries n) (addr_grainId e).
Proof. intros. by apply (accept_finds (isSiloLive n) (λ e, ownsNow n (addr_grainId e))). Qed.

Lemma pull_answered_finds pid entries n pl e : sent n !! pid = Some pl → pull_settled pl = false →
  e ∈ entries → ownsNow n (addr_grainId e) = true → isSiloLive n (addr_silo e) = true →
  finds (pull_answered pid entries n).2 (addr_grainId e).
Proof.
  intros Hp Hs He Ho Hl. unfold pull_answered. rewrite Hp, Hs. cbn [snd].
  match goal with |- context [settled pid ?m] => destruct (settled_same pid m) as (_ & S2 & _ & _ & S5) end.
  unfold finds, isSiloLive. rewrite S2, S5. by apply (adopt_finds entries (with_reArms (jm_delete (ringKey (pull_source pl)) (reArms n)) (reArmed n) n)).
Qed.

Lemma accept_from isLive own entries k a : ∀ p, jm_get k (Partition.acceptHandoff isLive p entries own) = Some a →
  a ∈ entries ∨ jm_get k p = Some a.
Proof.
  induction entries as [|x entries IH]; intros p; simpl; [by right|]. intros [Hin|Hg]%IH; [left; by right|].
  destruct (own x); [|by right]. revert Hg. unfold Partition.register. repeat case_match; simpl; try (by right);
    rewrite jm_get_set; case_decide; try (by right); intros [= <-]; left; by left.
Qed.
(** What the lookup of an answered grain returns. *)
Lemma found_from pid entries n pl e a : sent n !! pid = Some pl → pull_settled pl = false →
  Partition.lookup (isSiloLive (pull_answered pid entries n).2) (partition (pull_answered pid entries n).2) (addr_grainId e) = Some a →
  isSiloLive n (addr_silo a) = true ∧ (a ∈ entries ∨ jm_get (key_of e) (partition n) = Some a).
Proof.
  intros Hp Hs. unfold pull_answered. rewrite Hp, Hs. cbn [snd].
  match goal with |- context [settled pid ?m] => destruct (settled_same pid m) as (_ & S2 & _ & _ & S5) end.
  unfold isSiloLive at 1. rewrite S2, S5. unfold Partition.lookup. destruct (jm_get _ _) as [y|] eqn:Hy; [|done].
  change (existsb _ _) with (isSiloLive n (addr_silo y)). destruct (isSiloLive n (addr_silo y)) eqn:Hl; [|done].
  intros [= <-]. split; [done|]. by apply accept_from in Hy.
Qed.

(** What is handed off is retained. *)
Lemma retain_get now entries h e : e ∈ entries → (∀ x, x ∈ entries → key_of x = key_of e → x = e) →
  jm_get (key_of e) (retain now entries h) = Some (e, now).
Proof.
  unfold retain. intros He Hu. assert (Hstay : ∀ l h, (∀ x, x ∈ l → x ∈ entries) → jm_get (key_of e) h = Some (e, now) →
    jm_get (key_of e) (foldl (λ h e, jm_set (key_of e) (e, now) h) h l) = Some (e, now)).
  { induction l as [|x l IH]; intros h0 Hl Hh; [done|]. simpl. apply IH; [intros y Hy; apply Hl; by right|].
    rewrite jm_get_set. case_decide as Hk; [|done]. by rewrite (Hu x (Hl x ltac:(by left)) Hk). }
  assert (Hgo : ∀ l h, (∀ x, x ∈ l → x ∈ entries) → e ∈ l →
    jm_get (key_of e) (foldl (λ h e, jm_set (key_of e) (e, now) h) h l) = Some (e, now)).
  { induction l as [|x l IH]; intros h0 Hl Hin; [by apply elem_of_nil in Hin|]. simpl.
    apply elem_of_cons in Hin as [<-|Hin]; [apply Hstay; [intros y Hy; apply Hl; by right|apply jm_get_set_eq]|].
    apply IH; [intros y Hy; apply Hl; by right|done]. }
  by apply Hgo.
Qed.

(** The entries of a map of retained entries are under their own keys. *)
Definition handoff_ok (h : list (string * (GrainAddress * Z))) : Prop :=
  jm_ok h ∧ ∀ k x, jm_get k h = Some x → k = key_of x.1.

Lemma handoff_ok_set e t h : handoff_ok h → handoff_ok (jm_set (key_of e) (e, t) h).
Proof.
  intros [H1 H2]. split; [by apply jm_ok_set|]. intros k x. rewrite jm_get_set. case_decide as Hk; [|apply H2]. intros [= <-]. by subst.
Qed.
Lemma handoff_ok_filter (P : string * (GrainAddress * Z) → Prop) `{∀ x, Decision (P x)} h : handoff_ok h → handoff_ok (filter P h).
Proof.
  intros [H1 H2]. split; [by apply jm_ok_filter|]. intros k x. rewrite jm_get_filter by done.
  destruct (jm_get k h) as [y|] eqn:Hy; [|done]. simpl. case_decide; [|done]. intros [= <-]. by apply H2.
Qed.
Lemma retain_ok now entries : ∀ h, handoff_ok h → handoff_ok (retain now entries h).
Proof. unfold retain. induction entries as [|e l IH]; intros h Hh; [done|]. simpl. by apply IH, handoff_ok_set. Qed.

(** Reclaiming takes out only what the node owns. *)
Lemma reclaim_keeps n e t : handoff_ok (handoffSnapshot n) → jm_get (key_of e) (handoffSnapshot n) = Some (e, t) →
  ownsNow n (addr_grainId e) = false → jm_get (key_of e) (handoffSnapshot (reclaimOwnedHandoffs n)) = Some (e, t).
Proof.
  intros [H1 H2] Hg Ho. unfold reclaimOwnedHandoffs. destruct (isEmpty (ring n)); [done|]. simpl.
  assert (Hl : ∀ kv, kv ∈ filter (λ kv : string * (GrainAddress * Z), ownsNow n (addr_grainId kv.2.1) = true) (handoffSnapshot n) → key_of kv.2.1 ≠ key_of e).
  { intros [k x] [Hx Hin]%list_elem_of_filter Hk. simpl in *. apply jm_elem_get in Hin; [|done]. pose proof (H2 _ _ Hin) as Hkx.
    rewrite Hkx, Hk, Hg in Hin. injection Hin as <-. simpl in Hx. congruence. }
  revert Hl Hg. generalize (handoffSnapshot n) at 2 3. clear. generalize (filter (λ kv : string * (GrainAddress * Z), ownsNow n (addr_grainId kv.2.1) = true) (handoffSnapshot n)).
  intros l. induction l as [|kv l IH]; intros h Hl Hg; [done|]. simpl. apply IH; [intros x Hx; apply Hl; by right|].
  rewrite jm_get_delete, decide_False; [done|]. intros Hk. by apply (Hl kv ltac:(by left)).
Qed.

Lemma beginRecovery_retained l v r : ∀ n, handoffSnapshot (beginRecovery l v r n) = handoffSnapshot n.
Proof.
  intros n. unfold beginRecovery. destruct l as [|s l]; [done|]. change (handoffSnapshot n) with (handoffSnapshot (openRecovery v r n)).
  generalize (openRecovery v r n). induction (s :: l) as [|x xs IH]; intros m; [done|]. simpl. rewrite IH. unfold addPull. by destruct (recovery m).
Qed.

(** An entry a silo does not own stays where it is retained through a view change. *)
Lemma install_keeps_retained now present r handedOff n e t :
  handoff_ok (handoffSnapshot n) →
  jm_get (key_of e) (retain now handedOff (handoffSnapshot n)) = Some (e, t) →
  ringKey (addr_silo e) ∈ present → now - t <= retentionMs → owned_by r (local n) (addr_grainId e) = false →
  jm_get (key_of e) (handoffSnapshot (install_view retentionMs now present r handedOff n)) = Some (e, t).
Proof.
  intros Hok Hg Hp Ht Ho. pose proof (retain_ok now handedOff _ Hok) as Hrok.
  unfold install_view. set (n1 := with_ring r _ _).
  assert (H1 : handoff_ok (handoffSnapshot n1) ∧ jm_get (key_of e) (handoffSnapshot n1) = Some (e, t) ∧ ownsNow n1 (addr_grainId e) = false).
  { unfold n1. simpl. split; [by apply handoff_ok_filter|]. split; [|done]. rewrite jm_get_filter by apply Hrok. rewrite Hg. simpl. by rewrite decide_True. }
  clearbody n1. destruct H1 as (H1 & H2 & H3). case_bool_decide; [|done]. pose proof (reclaim_keeps n1 e t H1 H2 H3) as H4.
  generalize dependent (reclaimOwnedHandoffs n1). intros n2 H4. set (b := existsb (λ s, bool_decide (ringKey s ∉ _)) (HashRing.silos (ring n))). set (n3 := if b then reclaimOwnActivations n2 else n2).
  assert (Hn3 : handoffSnapshot n3 = handoffSnapshot n2).
  { unfold n3, reclaimOwnActivations. destruct b; [|done]. by destruct (isEmpty (ring n2)). }
  destruct (negb (existsb _ _) || b); [rewrite beginRecovery_retained|]; by rewrite Hn3.
Qed.

Lemma install_same now present r handedOff n :
  let n' := install_view retentionMs now present r handedOff n in
  current n' = current n ∧ ring n' = r ∧ local n' = local n ∧ localDirectoryAddresses n' = localDirectoryAddresses n.
Proof.
  assert (Hb : ∀ l v x m, localDirectoryAddresses (beginRecovery l v x m) = localDirectoryAddresses m).
  { intros l v x m. unfold beginRecovery. destruct l as [|s l]; [done|]. change (localDirectoryAddresses m) with (localDirectoryAddresses (openRecovery v x m)).
    generalize (openRecovery v x m). induction (s :: l) as [|y ys IH]; intros o; [done|]. simpl. rewrite IH. unfold addPull. by destruct (recovery o). }
  unfold install_view. set (n1 := with_ring r _ _).
  assert (H1 : current n1 = current n ∧ ring n1 = r ∧ local n1 = local n ∧ localDirectoryAddresses n1 = localDirectoryAddresses n) by done.
  clearbody n1. case_bool_decide; [|done].
  assert (H2 : current (reclaimOwnedHandoffs n1) = current n ∧ ring (reclaimOwnedHandoffs n1) = r ∧ local (reclaimOwnedHandoffs n1) = local n ∧
    localDirectoryAddresses (reclaimOwnedHandoffs n1) = localDirectoryAddresses n).
  { unfold reclaimOwnedHandoffs. by destruct (isEmpty (ring n1)). }
  generalize dependent (reclaimOwnedHandoffs n1). intros n2 H2. set (b := existsb (λ s, bool_decide (ringKey s ∉ _)) (HashRing.silos (ring n))). set (n3 := if b then reclaimOwnActivations n2 else n2).
  assert (H3 : current n3 = current n ∧ ring n3 = r ∧ local n3 = local n ∧ localDirectoryAddresses n3 = localDirectoryAddresses n).
  { unfold n3, reclaimOwnActivations. destruct b; [|done]. by destruct (isEmpty (ring n2)). }
  clearbody n3. destruct (negb (existsb _ _) || b); [|done]. destruct (beginRecovery_same (recoverySources n3) (version (current n3)) (ring n) n3) as (S1 & S2 & S3 & _).
  rewrite S1, S2, S3, Hb. done.
Qed.

(** Where an old owner has a grain: in its partition, or as an activation of its own. *)
Definition knows (n : Node) (requester : SiloAddress) (e : GrainAddress) : Prop :=
  jm_get (key_of e) (partition n) = Some e ∨ (e ∈ localDirectoryAddresses n ∧ owned_by (buildRing n) requester (addr_grainId e) = true).

Lemma isSiloLive_present n s : isSiloLive n s = true → ringKey s ∈ ringKey <$> memberSilos (current n).
Proof.
  unfold isSiloLive. intros (x & Hin%list_elem_of_In & Hx%SiloAddress_equals_iff)%existsb_exists. subst. by apply list_elem_of_fmap_2.
Qed.
Lemma served_retained now requester n e t : jm_get (key_of e) (handoffSnapshot n) = Some (e, t) →
  isSiloLive n (addr_silo e) = true → now - t <= retentionMs → e ∈ (serveRecover retentionMs now requester n).2.
Proof.
  intros Hg Hl%isSiloLive_present Ht. unfold serveRecover. cbn [snd].
  assert (Hf : e ∈ (λ kv, kv.2.1) <$> handoffSnapshot (pruneHandoffSnapshot retentionMs now (ringKey <$> memberSilos (current n)) n)).
  { apply list_elem_of_fmap. exists (key_of e, (e, t)). split; [done|]. apply list_elem_of_filter. split; [by simpl|]. by apply jm_get_Some_elem. }
  destruct (isEmpty _); [done|]. apply elem_of_app. by left.
Qed.
Lemma served_activation now requester n e : isEmpty (ring n) = false → e ∈ localDirectoryAddresses n →
  owned_by (ring n) requester (addr_grainId e) = true → e ∈ (serveRecover retentionMs now requester n).2.
Proof.
  intros Hne Hin Ho. unfold serveRecover. simpl. rewrite Hne. cbn [snd]. apply elem_of_app. right. by apply list_elem_of_filter.
Qed.

Lemma pull_serves now now' requester n e :
  Partition.wf (partition n) → handoff_ok (handoffSnapshot n) → isEmpty (buildRing n) = false →
  knows n requester e → owned_by (buildRing n) (local n) (addr_grainId e) = false →
  isSiloLive n (addr_silo e) = true → now' - now <= retentionMs → now <= now' →
  e ∈ (serveRecover retentionMs now' requester (updateView retentionMs now n).1).2.
Proof.
  intros Hwf Hok Hne Hk Ho Hl Ht Hnow. pose proof Hwf as [Hpok Hkeys].
  assert (Hp : ringKey (addr_silo e) ∈ ringKey <$> memberSilos (current n)) by by apply isSiloLive_present.
  unfold updateView. rewrite Hne. destruct (Partition.drain (partition n) _) as [kept handedOff] eqn:Hd. rewrite Partition.drain_filter in Hd. injection Hd as <- <-.
  cbn [fst]. match goal with |- context [install_view _ _ ?p ?r ?h ?m] => set (m0 := m); set (h0 := h) end.
  destruct (install_same now (ringKey <$> memberSilos (current n)) (buildRing n) h0 m0) as (S1 & S2 & S3 & S4).
  destruct Hk as [Hk|[Hin Hq]].
  - assert (Hg : jm_get (key_of e) (retain now h0 (handoffSnapshot n)) = Some (e, now)).
    { apply retain_get.
      - unfold h0. apply list_elem_of_filter. split; [unfold classify; rewrite bool_decide_false by (intros Hx; by apply Hx); by rewrite Ho|].
        apply list_elem_of_fmap. exists (key_of e, e). split; [done|]. by apply jm_get_Some_elem.
      - intros x [_ Hx]%list_elem_of_filter Hke. apply list_elem_of_fmap in Hx as [[k y] [-> Hy]]. simpl in *. apply jm_elem_get in Hy; [|done].
        pose proof (Hkeys _ _ Hy) as Hky. rewrite Hky in Hy. fold (key_of y) in Hy. rewrite Hke in Hy. congruence. }
    assert (Hi : jm_get (key_of e) (handoffSnapshot (install_view retentionMs now (ringKey <$> memberSilos (current n)) (buildRing n) h0 m0)) = Some (e, now)).
    { apply install_keeps_retained; [done|done|done|lia|done]. }
    apply (served_retained _ _ _ _ now); [done| |done]. unfold isSiloLive. by rewrite S1.
  - apply served_activation; [by rewrite S2|by rewrite S4|by rewrite S2].
Qed.

(** C27: A grain of an inherited range is found again. When a view change takes a
    range from one silo to another, and the old owner has a grain of that range,
    registered with it on a live silo or running on it, then what it serves the
    new owner's pull within the retention window names that grain; and once the
    answer is in, the new owner's lookup finds the grain on a live silo, at an
    address the old owner gave or one it had already. *)
Theorem inherited_range_found now now' pid pl m n e :
  Partition.wf (partition m) → handoff_ok (handoffSnapshot m) → isEmpty (buildRing m) = false →
  knows m (local n) e → owned_by (buildRing m) (local m) (addr_grainId e) = false →
  isSiloLive m (addr_silo e) = true → now <= now' → now' - now <= retentionMs →
  sent n !! pid = Some pl → pull_settled pl = false →
  ownsNow n (addr_grainId e) = true → isSiloLive n (addr_silo e) = true →
  let entries := (serveRecover retentionMs now' (local n) (updateView retentionMs now m).1).2 in
  let n' := (pull_answered pid entries n).2 in
  e ∈ entries ∧
  ∃ a, Partition.lookup (isSiloLive n') (partition n') (addr_grainId e) = Some a ∧ isSiloLive n (addr_silo a) = true ∧
    (a ∈ entries ∨ jm_get (key_of e) (partition n) = Some a).
Proof.
  intros Hwf Hok Hne Hk Ho Hl Hnow Ht Hp Hs Hown Hln entries n'.
  assert (He : e ∈ entries) by by apply pull_serves. split; [done|].
  destruct (pull_answered_finds pid entries n pl e Hp Hs He Hown Hln) as [a Ha]. fold n' in Ha. exists a. split; [done|].
  by apply (found_from pid entries n pl e).
Qed.
End inherited.

(** ** Operations wait for the previous owner *)

Section waits.
Context (retentionMs : Z).

(** The pull of each source of a pass is under way. *)
Definition pulling (n : Node) (s : SiloAddress) : Prop :=
  ∃ p pid pl, recovery n = Some p ∧ jm_get (ringKey s) (pulls p) = Some pid ∧ sent n !! pid = Some pl ∧
    ringKey (pull_source pl) = ringKey s ∧ pull_settled pl = false.

Lemma addPull_pulling s x n p : recovery n = Some p → s = x ∨ pulling n s → pulling (addPull x n) s.
Proof.
  intros Hp H. unfold addPull, pulling. rewrite Hp. eexists _. simpl.
  destruct (decide (ringKey x = ringKey s)) as [Hk|Hk].
  - exists (length (sent n)), (mkPull x (pass_id p) (pass_version p) (previousRing p) false). split; [done|]. simpl. rewrite jm_get_set, decide_True by done.
    split; [done|]. split; [|done]. by rewrite lookup_app_r, Nat.sub_diag by lia.
  - destruct H as [->|(p' & pid & pl & H1 & H2 & H3 & H4)]; [done|]. rewrite Hp in H1. injection H1 as <-.
    exists pid, pl. split; [done|]. simpl. rewrite jm_get_set, decide_False by done. split; [done|]. split; [|done].
    by apply lookup_app_l_Some.
Qed.

Lemma addPulls_pulling l : ∀ n p, recovery n = Some p →
  (∃ p', recovery (foldl (λ n s, addPull s n) n l) = Some p' ∧ previousRing p' = previousRing p) ∧
  ∀ s, s ∈ l ∨ pulling n s → pulling (foldl (λ n s, addPull s n) n l) s.
Proof.
  induction l as [|x l IH]; intros n p Hp; simpl.
  - split; [by exists p|]. intros s [Hs|Hs]; [by apply elem_of_nil in Hs|done].
  - assert (Hx : ∃ q, recovery (addPull x n) = Some q ∧ previousRing q = previousRing p) by (unfold addPull; rewrite Hp; by eexists).
    destruct Hx as (q & Hq & Hr). destruct (IH _ q Hq) as [(p' & H1 & H2) H3]. split; [exists p'; split; congruence|].
    intros s [[->|Hs]%elem_of_cons|Hs]; apply H3; [right|by left|right]; (eapply addPull_pulling; [done|]); [by left|by right].
Qed.

Lemma beginRecovery_pulling l v r n s : s ∈ l →
  pulling (beginRecovery l v r n) s ∧ ∃ p, recovery (beginRecovery l v r n) = Some p ∧ previousRing p = r.
Proof.
  intros Hs. unfold beginRecovery. destruct l as [|x l]; [by apply elem_of_nil in Hs|].
  destruct (addPulls_pulling (x :: l) (openRecovery v r n) _ eq_refl) as [H1 H2]. split; [by apply H2; left|done].
Qed.

Lemma pulling_waits n s g p r : pulling n s → recovery n = Some p → previousOwner (previousRing p) g = Some s →
  ∃ pid pl, awaitRecovered g n = [pid] ∧ sent n !! pid = Some pl ∧ ringKey (pull_source pl) = ringKey s ∧
    op_step retentionMs r (local_op (OpLookup g) n) n = (n, local_op (OpLookup g) n).
Proof.
  intros (p' & pid & pl & H1 & H2 & H3 & H4 & H5) Hp Ho. rewrite Hp in H1. injection H1 as <-.
  exists pid, pl. assert (Ha : awaitRecovered g n = [pid]) by (unfold awaitRecovered; rewrite Hp, Ho; by rewrite H2).
  split; [done|]. split; [done|]. split; [done|]. unfold local_op. simpl. rewrite Ha. simpl. rewrite H3, H5. done.
Qed.

(** A range is not read before it is recovered. When a view change makes a
    silo a member of the ring, or takes a peer from the ring it stays in, a lookup
    of a grain whose range had another owner still in the view waits: for that
    owner's pull, for no other, and without an answer while the pull is under way. *)
Theorem lookup_waits_for_previous_owner now now' n g o :
  isEmpty (buildRing n) = false → isEmpty (ring n) = false →
  ringKey (local n) ∈ ringKey <$> activeSilos (current n) →
  local n ∉ HashRing.silos (ring n) ∨ (∃ x, x ∈ HashRing.silos (ring n) ∧ ringKey x ∉ ringKey <$> activeSilos (current n)) →
  ownerOf (ring n) g = Some o → o ∈ recoverySources n →
  let n' := (updateView retentionMs now n).1 in
  ∃ pid pl, awaitRecovered g n' = [pid] ∧ sent n' !! pid = Some pl ∧ ringKey (pull_source pl) = ringKey o ∧
    op_step retentionMs now' (local_op (OpLookup g) n') n' = (n', local_op (OpLookup g) n').
Proof.
  intros Hne Hold Hact Hgate Ho Hsrc n'.
  assert (Hn' : ∃ m, local m = local n ∧ current m = current n ∧ n' = beginRecovery (recoverySources n) (version (current n)) (ring n) m).
  { unfold n', updateView. rewrite Hne. destruct (Partition.drain _ _) as [kept handedOff]. cbn [fst]. unfold install_view.
    set (n1 := with_ring _ _ _). assert (H1 : local n1 = local n ∧ current n1 = current n) by done. clearbody n1. rewrite (proj1 H1).
    rewrite bool_decide_true by done.
    assert (H2 : local (reclaimOwnedHandoffs n1) = local n ∧ current (reclaimOwnedHandoffs n1) = current n).
    { unfold reclaimOwnedHandoffs. by destruct (isEmpty (ring n1)). }
    generalize dependent (reclaimOwnedHandoffs n1). intros n2 H2.
    set (b := existsb (λ s, bool_decide (ringKey s ∉ _)) _). set (n3 := if b then reclaimOwnActivations n2 else n2).
    assert (H3 : local n3 = local n ∧ current n3 = current n).
    { unfold n3, reclaimOwnActivations. destruct b; [|done]. by destruct (isEmpty (ring n2)). }
    clearbody n3. assert (Hb : negb (existsb (λ s, SiloAddress_equals s (local n)) (HashRing.silos (ring n))) || b = true).
    { apply orb_true_iff. destruct Hgate as [Hl|(x & Hx & Hk)].
      - left. apply negb_true_iff, not_true_iff_false. intros (x & Hx%list_elem_of_In & He%SiloAddress_equals_iff)%existsb_exists. by subst.
      - right. unfold b. apply existsb_exists. exists x. split; [by apply list_elem_of_In|]. by apply bool_decide_eq_true. }
    match goal with |- context [if ?c then _ else _] => change c with (negb (existsb (λ s, SiloAddress_equals s (local n)) (HashRing.silos (ring n))) || b) end.
    rewrite Hb. exists n3. destruct H3 as [H3 H4]. split; [done|]. split; [done|]. unfold recoverySources. simpl. by rewrite H3, H4. }
  destruct Hn' as (m & _ & _ & ->). destruct (beginRecovery_pulling (recoverySources n) (version (current n)) (ring n) m o Hsrc) as [H1 (p & H2 & H3)].
  eapply pulling_waits; [done|done|]. rewrite H3. unfold previousOwner. by rewrite Hold.
Qed.
End waits.

(** ** Runs *)

Module Runs.
Definition A : SiloAddress := mkSilo "silo-a" "u1" "10.0.0.1:1".
Definition B : SiloAddress := mkSilo "silo-b" "u1" "10.0.0.2:1".
Definition D : SiloAddress := mkSilo "silo-c" "u1" "10.0.0.3:1".
(** The same pod, restarted. *)
Definition D' : SiloAddress := mkSilo "silo-c" "u2" "10.0.0.4:1".
Definition act (l : list SiloAddress) : list SiloMember := (λ s, mkMember s Active None) <$> l.
Definition view_of (v : Z) : MembershipSnapshot :=
  mkSnapshot v (act (if bool_decide (v = 3) then [A; B; D] else if bool_decide (v = 5) then [A; B; D'] else [A; B])).
Definition g : GrainId := mkGrainId "t" (KString "5").
Definition e : GrainAddress := mkAddress g A "act-1".

Lemma view_versions v : version (view_of v) = v.
Proof. done. Qed.

(** The grain is registered with [B], the third silo joins, takes the range and pulls its entry. *)
Definition joins : list (Z * nat * Label) :=
  [(1, 1%nat, OpArrives 2 (OpRegister e None)); (1, 1%nat, OpAdvances 0); (1, 1%nat, OpAdvances 0);
   (1, 2%nat, ViewChanges 3); (1, 2%nat, UpdateView); (1, 1%nat, ViewChanges 3); (1, 1%nat, UpdateView);
   (1, 2%nat, ServePull 1 1); (1, 2%nat, AnswerArrives 0)].
Notation after ls := (cluster_run view_of 60000 ls (start_cluster view_of 2 [A; B; D])).

Lemma partition_owned_by_ring_witness :
  ∃ s, silos (after joins) !! 2%nat = Some s ∧ jm_get (key_of e) (partition (node s)) = Some e ∧
    ownerOf (ring (node s)) g = Some (local (node s)) ∧ key_of e = key_of e ∧ ring (node s) = ring_of view_of (appliedVersion (node s)).
Proof.
  assert (Hs : ∃ s, silos (after joins) !! 2%nat = Some s ∧ jm_get (key_of e) (partition (node s)) = Some e)
    by (vm_compute; eexists; split; reflexivity).
  destruct Hs as (s & Hs & He). exists s. split; [exact Hs|]. split; [exact He|].
  exact (partition_owned_by_ring view_of 60000 view_versions 2 [A; B; D] joins 2 s (key_of e) e Hs He).
Defined.

(** [B] with the grain registered, told of the third silo; and that silo, which has sent its pulls. *)
Definition n_b : Node := with_current (view_of 3) (with_partition [(key_of e, e)] (new_node view_of B 2)).
Definition n_c : Node := (updateView 60000 2 (with_current (view_of 3) (new_node view_of D 2))).1.

Lemma n_b_wf : Partition.wf (partition n_b).
Proof.
  split; [repeat constructor; by apply not_elem_of_nil|]. intros k a. unfold n_b. simpl. case_decide as Hk; [|done]. intros [= <-]. by rewrite <- Hk.
Qed.

Lemma inherited_range_found_witness :
  let entries := (serveRecover 60000 5 (local n_c) (updateView 60000 3 n_b).1).2 in
  let n' := (pull_answered 1 entries n_c).2 in
  e ∈ entries ∧
  ∃ a, Partition.lookup (isSiloLive n') (partition n') g = Some a ∧ isSiloLive n_c (addr_silo a) = true ∧
    (a ∈ entries ∨ jm_get (key_of e) (partition n_c) = Some a).
Proof.
  refine (inherited_range_found 60000 3 5 1 (mkPull B 0 3 (ring_of view_of 2) false) n_b n_c e n_b_wf _ _ _ _ _ _ _ _ _ _ _).
  - split; [apply jm_ok_nil|done].
  - vm_compute. reflexivity.
  - left. vm_compute. reflexivity.
  - vm_compute. reflexivity.
  - vm_compute. reflexivity.
  - lia.
  - lia.
  - vm_compute. reflexivity.
  - reflexivity.
  - vm_compute. reflexivity.
  - vm_compute. reflexivity.
Defined.

Lemma lookup_waits_for_previous_owner_witness :
  let n := with_current (view_of 3) (new_node view_of D 2) in
  let n' := (updateView 60000 2 n).1 in
  ∃ pid pl, awaitRecovered g n' = [pid] ∧ sent n' !! pid = Some pl ∧ ringKey (pull_source pl) = ringKey B ∧
    op_step 60000 7 (local_op (OpLookup g) n') n' = (n', local_op (OpLookup g) n').
Proof.
  intros n. refine (lookup_waits_for_previous_owner 60000 2 7 n g B _ _ _ _ _ _).
  - vm_compute. reflexivity.
  - vm_compute. reflexivity.
  - apply (bool_decide_unpack _). vm_compute. exact I.
  - left. apply (bool_decide_unpack _). vm_compute. exact I.
  - vm_compute. reflexivity.
  - apply (bool_decide_unpack _). vm_compute. exact I.
Defined.

(** A view without an active silo: [updateView] throws at the first entry, and the view is not applied. *)
Definition nobody : MembershipSnapshot := mkSnapshot 3 [mkMember A Draining None; mkMember B Draining None].
Theorem empty_view_not_applied :
  let '(n, ok) := updateView 60000 2 (with_current nobody (with_partition [(key_of e, e)] (new_node view_of B 2))) in
  ok = false ∧ appliedVersion n = 2 ∧ version (current n) = 3.
Proof. vm_compute. split; [reflexivity|split; reflexivity]. Qed.

(** The third silo pulls the entry and leaves; the range comes back to [B] and departs
    again, to the restarted third silo; then the acknowledgement of the first pull
    arrives, and the entry [B] retains for the restarted silo is gone. *)
Definition departs_again : list (Z * nat * Label) :=
  joins ++ [(1, 1%nat, ViewChanges 4); (1, 1%nat, UpdateView); (1, 1%nat, ViewChanges 5); (1, 1%nat, UpdateView)].
Definition retained (w : Cluster) (i : nat) : option GrainAddress :=
  s ← silos w !! i; fst <$> jm_get (key_of e) (handoffSnapshot (node s)).
Theorem late_ack_deletes_newer_handoff :
  retained (after departs_again) 1 = Some e ∧
  retained (after (departs_again ++ [(1, 1%nat, AckArrives 0)])) 1 = None.
Proof. vm_compute. split; reflexivity. Qed.

(** A pull that runs out of its budget after the node stopped is re-armed, with a timer. *)
Theorem stopped_node_rearms :
  (ra_timer <$> reArmed (onRecoveryExhausted 9 1 (stop_recovery n_c))) = [true].
Proof. vm_compute. reflexivity. Qed.

(** The third silo is restarted under its pod name, when [A] runs a grain of its range.
    The ring it takes for the one before it joined gives the range to [B], which answers
    that it has nothing; the lookup is answered without [A], and misses. *)
Definition n_c' : Node := join_recovery (new_node view_of D' 5).
Theorem restarted_owner_misses_survivor :
  let n_a := with_activations [e] (new_node view_of A 5) in
  let st := local_op (OpLookup g) n_c' in
  let n1 := (pull_answered 1 (serveRecover 60000 5 D' (new_node view_of B 5)).2 n_c').2 in
  (op_step 60000 6 st n1).2 = Answered (Served None) ∧
  (serveRecover 60000 5 D' n_a).2 = [e].
Proof. vm_compute. split; reflexivity. Qed.
End Runs.
