(* ===== verification/Messaging.v ===== *)
(** * Outstanding calls and pooled connections

    Models [packages/messaging/src/correlation-table.ts] (the class
    [CorrelationTable]), [connection-manager.ts] (the class [ConnectionManager])
    and the envelope of [message.ts].

    A promise is a number into the list of those handed out; settling one that is
    settled does nothing. A timer is known by the promise it rejects. Of a
    connection, the transport is an input: a dial opens or fails, an open
    connection is lost. *)
From Stdlib Require Import String.
From stdpp Require Import prelude gmap strings list.
From S2P Require Import Prelude JsMap Ids.
Open Scope Z_scope.

(** ** Messages *)

Inductive Direction := Request | Response | OneWay.
#[export] Instance Direction_eq_dec : EqDecision Direction.
Proof. solve_decision. Defined.
Inductive ResponseKind := Success | Error | Rejection.
#[export] Instance ResponseKind_eq_dec : EqDecision ResponseKind.
Proof. solve_decision. Defined.

(** The fields that route a message and say how long it counts. *)
Record Message := mkMessage {
  correlationId : Z;
  direction : Direction;
  targetGrain : GrainId;
  sendingSilo : option SiloAddress;
  sendingGrain : option GrainId;
  interfaceId : Z;
  interfaceVersion : option Z;
  method : string;
  responseKind : option ResponseKind;
  deadlineInMs : option Z;
  timeToLiveMs : option Z;
  body : string }.

Definition responseTo (request : Message) (kind : ResponseKind) (b : string) (sender : option SiloAddress) : Message :=
  mkMessage (correlationId request) Response (targetGrain request) sender None (interfaceId request) (interfaceVersion request)
    (method request) (Some kind) None None b.

(** ** Errors *)

Inductive CallFailure :=
  | GrainCallTimeoutError (msg : string)
  | OtherError (msg : string).

(** ** The correlation table *)

Inductive Outcome := Resolved (m : Message) | Rejected (e : CallFailure).

Record Pending := mkPending { promise : nat; timer : bool; peer : option string }.
Record CorrelationTable := mkTable {
  pending : list (string * Pending);
  (** By number: the id a promise is for, and what it came to. *)
  promises : list (Z * option Outcome);
  (** By promise: its key, when it is due, and the time it was given. *)
  timers : list (nat * (string * (Z * Z))) }.

Definition new_table : CorrelationTable := mkTable [] [] [].
Definition id_key (correlationId : Z) : string := bigint_toString correlationId.

Definition timeout_error (key : string) (ms : Z) : CallFailure :=
  GrainCallTimeoutError ("grain call " +:+ key +:+ " timed out after " +:+ bigint_toString ms +:+ "ms")%string.

Definition register (now : Z) (id : Z) (timeoutMs : option Z) (p : option string) (t : CorrelationTable) : CorrelationTable * nat :=
  let n := length (promises t) in
  (mkTable (jm_set (id_key id) (mkPending n (bool_decide (is_Some timeoutMs)) p) (pending t))
     (promises t ++ [(id, None)])
     (match timeoutMs with Some ms => timers t ++ [(n, (id_key id, (now + ms, ms)))] | None => timers t end), n).

Definition settle_promise (o : Outcome) (x : Z * option Outcome) : Z * option Outcome :=
  match x.2 with Some _ => x | None => (x.1, Some o) end.
Definition clearTimer (e : Pending) (t : CorrelationTable) : CorrelationTable :=
  if timer e then mkTable (pending t) (promises t) (filter (λ x : nat * (string * (Z * Z)), x.1 ≠ promise e) (timers t)) else t.
(** What [complete], [fail] and [rejectFor] do with an entry. *)
Definition settle_entry (key : string) (e : Pending) (o : Outcome) (t : CorrelationTable) : CorrelationTable :=
  let t := clearTimer e (mkTable (jm_delete key (pending t)) (promises t) (timers t)) in
  mkTable (pending t) (alter (settle_promise o) (promise e) (promises t)) (timers t).

Definition complete (m : Message) (t : CorrelationTable) : CorrelationTable * bool :=
  match jm_get (id_key (correlationId m)) (pending t) with
  | None => (t, false)
  | Some e => (settle_entry (id_key (correlationId m)) e (Resolved m) t, true)
  end.
Definition fail (id : Z) (err : CallFailure) (t : CorrelationTable) : CorrelationTable * bool :=
  match jm_get (id_key id) (pending t) with
  | None => (t, false)
  | Some e => (settle_entry (id_key id) e (Rejected err) t, true)
  end.
Definition rejectAll (err : CallFailure) (t : CorrelationTable) : CorrelationTable :=
  let t := foldl (λ t kv, let t := clearTimer kv.2 t in
                          mkTable (pending t) (alter (settle_promise (Rejected err)) (promise kv.2) (promises t)) (timers t)) t (pending t) in
  mkTable [] (promises t) (timers t).
Definition rejectFor (p : string) (err : CallFailure) (t : CorrelationTable) : CorrelationTable :=
  foldl (λ t kv, if bool_decide (peer kv.2 = Some p) then settle_entry kv.1 kv.2 (Rejected err) t else t) t (pending t).

(** The deadline of a promise. *)
Definition timer_fires (now : Z) (p : nat) (t : CorrelationTable) : CorrelationTable :=
  match jm_get p (timers t) with
  | Some (key, (due, ms)) =>
      if bool_decide (due <= now) then
        mkTable (jm_delete key (pending t)) (alter (settle_promise (Rejected (timeout_error key ms))) p (promises t))
          (filter (λ x : nat * (string * (Z * Z)), x.1 ≠ p) (timers t))
      else t
  | None => t
  end.

Inductive TableOp :=
  | Register (id : Z) (timeoutMs : option Z) (p : option string)
  | Complete (m : Message)
  | FailOne (id : Z) (e : CallFailure)
  | RejectAll (e : CallFailure)
  | RejectFor (p : string) (e : CallFailure)
  | TimerFires (p : nat).

Definition table_step (now : Z) (o : TableOp) (t : CorrelationTable) : CorrelationTable :=
  match o with
  | Register id ms p => (register now id ms p t).1
  | Complete m => (complete m t).1
  | FailOne id e => (fail id e t).1
  | RejectAll e => rejectAll e t
  | RejectFor p e => rejectFor p e t
  | TimerFires p => timer_fires now p t
  end.
Definition table_run (ops : list (Z * TableOp)) : CorrelationTable := foldl (λ t o, table_step o.1 o.2 t) new_table ops.

(** *** What it promises *)

Record table_ok (t : CorrelationTable) : Prop := {
  tk_keys : jm_ok (pending t);
  tk_pending : ∀ k e, jm_get k (pending t) = Some e → ∃ i, promises t !! promise e = Some (i, None) ∧ k = id_key i;
  tk_open : ∀ p i, promises t !! p = Some (i, None) → ∃ e, jm_get (id_key i) (pending t) = Some e ∧ promise e = p;
  tk_ids : NoDup (promises t).*1;
  tk_reply : ∀ p i m, promises t !! p = Some (i, Some (Resolved m)) → correlationId m = i;
  tk_timers : ∀ p k due, (p, (k, due)) ∈ timers t → ∃ e, jm_get k (pending t) = Some e ∧ promise e = p ∧ timer e = true;
  tk_one : NoDup (timers t).*1 }.

Lemma id_key_inj a b : id_key a = id_key b → a = b.
Proof. apply bigint_toString_inj. Qed.

Lemma ids_determine t p q i o o' : table_ok t → promises t !! p = Some (i, o) → promises t !! q = Some (i, o') → p = q.
Proof.
  intros Hok Hp Hq. eapply NoDup_lookup; [exact (tk_ids t Hok)| |]; rewrite list_lookup_fmap; [by rewrite Hp|by rewrite Hq].
Qed.

(** Settling one entry, whatever is done about its timer. *)
Lemma settle_ok t k e o ts :
  table_ok t → jm_get k (pending t) = Some e →
  (∀ m, o = Resolved m → k = id_key (correlationId m)) →
  (∀ x, x ∈ ts → x ∈ timers t ∧ x.1 ≠ promise e) → NoDup ts.*1 →
  table_ok (mkTable (jm_delete k (pending t)) (alter (settle_promise o) (promise e) (promises t)) ts).
Proof.
  intros Hok Hk Ho Hts Hnd. pose proof Hok as [H1 H2 H3 H4 H5 H6 H7]. destruct (H2 k e Hk) as (i & Hi & ->).
  assert (Hids : (alter (settle_promise o) (promise e) (promises t)).*1 = (promises t).*1).
  { apply list_eq. intros j. rewrite !list_lookup_fmap, list_lookup_alter. case_decide as Hj; [|done]. subst j. rewrite Hi. done. }
  assert (Hother : ∀ p i', promises t !! p = Some (i', None) → p ≠ promise e → id_key i ≠ id_key i').
  { intros p i' Hp Hne Hii%id_key_inj. subst i'. apply Hne. by eapply ids_determine. }
  split; simpl.
  - by apply jm_ok_delete.
  - intros k' e'. rewrite jm_get_delete. case_decide as Hkk; [done|]. intros He'. destruct (H2 k' e' He') as (i' & Hi' & ->).
    exists i'. split; [|done]. rewrite list_lookup_alter, decide_False; [done|]. intros Hp. rewrite <- Hp, Hi in Hi'. injection Hi' as <-. done.
  - intros p i'. rewrite list_lookup_alter. case_decide as Hp; [subst p; by rewrite Hi|]. intros Hp'.
    destruct (H3 p i' Hp') as (e' & He' & Hpe). exists e'. split; [|done]. rewrite jm_get_delete, decide_False; [done|].
    eapply Hother; [exact Hp'|by intros ->].
  - by rewrite Hids.
  - intros p i' m. rewrite list_lookup_alter. case_decide as Hp; [|apply H5]. subst p. rewrite Hi. simpl. intros [= <- Hm].
    symmetry. apply id_key_inj. by apply Ho.
  - intros p k' due [Hin Hne]%Hts. destruct (H6 p k' due Hin) as (e' & He' & Hpe & Ht). exists e'. split; [|done].
    rewrite jm_get_delete, decide_False; [done|]. intros Hkk. rewrite <- Hkk, Hk in He'. injection He' as <-. done.
  - done.
Qed.

(** The timer of an entry without one is not there. *)
Lemma no_timer t k e : table_ok t → jm_get k (pending t) = Some e → timer e = false → ∀ x, x ∈ timers t → x.1 ≠ promise e.
Proof.
  intros Hok Hk Ht [p [k' due]] Hx Hp. destruct (tk_timers t Hok _ _ _ Hx) as (e' & He' & Hpe & Ht'). simpl in Hp.
  destruct (tk_pending t Hok _ _ Hk) as (i & Hi & ->). destruct (tk_pending t Hok _ _ He') as (i' & Hi' & ->).
  rewrite Hpe, Hp, Hi in Hi'. injection Hi' as <-. rewrite Hk in He'. injection He' as <-. congruence.
Qed.
Lemma timers_without (P : nat * (string * (Z * Z)) → Prop) `{∀ x, Decision (P x)} l : NoDup l.*1 → NoDup (filter P l).*1.
Proof. intros Hl. eapply sublist_NoDup; [exact Hl|]. apply fmap_sublist, sublist_filter. Qed.

Lemma settle_entry_ok t k e o : table_ok t → jm_get k (pending t) = Some e → (∀ m, o = Resolved m → k = id_key (correlationId m)) →
  table_ok (settle_entry k e o t).
Proof.
  intros Hok Hk Ho. unfold settle_entry, clearTimer. destruct (timer e) eqn:Ht; simpl; (apply settle_ok; [done|done|done| |]).
  - intros x [Hne Hin]%list_elem_of_filter. done.
  - apply timers_without, Hok.
  - intros x Hx. split; [done|]. by eapply no_timer.
  - apply Hok.
Qed.

Lemma register_ok now id ms p t : table_ok t → id ∉ (promises t).*1 → table_ok (register now id ms p t).1.
Proof.
  intros Hok Hid. pose proof Hok as [H1 H2 H3 H4 H5 H6 H7].
  assert (Hfree : jm_get (id_key id) (pending t) = None).
  { destruct (jm_get _ _) as [e|] eqn:He; [|done]. destruct (H2 _ _ He) as (i & Hi & Hii%id_key_inj). subst i. destruct Hid.
    change id with (id, @None Outcome).1. apply list_elem_of_fmap_2. by eapply list_elem_of_lookup_2. }
  assert (Hin : ∀ p i o, promises t !! p = Some (i, o) → id_key id ≠ id_key i).
  { intros q i o Hq Hii%id_key_inj. subst i. destruct Hid. change id with (id, o).1. apply list_elem_of_fmap_2. by eapply list_elem_of_lookup_2. }
  unfold register. simpl. split; simpl.
  - by apply jm_ok_set.
  - intros k e. rewrite jm_get_set. case_decide as Hk.
    + intros [= <-]. exists id. simpl. split; [|done]. rewrite lookup_app_r, Nat.sub_diag by lia. done.
    + intros He. destruct (H2 k e He) as (i & Hi & ->). exists i. split; [|done]. by apply lookup_app_l_Some.
  - intros q i [Hq|[Hlen Hq]]%lookup_app_Some.
    + destruct (H3 q i Hq) as (e & He & Hpe). exists e. split; [|done]. rewrite jm_get_set, decide_False; [done|]. by eapply Hin.
    + apply list_lookup_singleton_Some in Hq as [Hq [= <-]]. eexists. rewrite jm_get_set_eq. split; [done|]. simpl. lia.
  - rewrite fmap_app. apply NoDup_app. split; [done|]. split; [|by apply NoDup_singleton]. intros x Hx ->%list_elem_of_singleton. done.
  - intros q i m [Hq|[Hlen Hq]]%lookup_app_Some; [by eapply H5|]. apply list_lookup_singleton_Some in Hq as [_ Hq]. discriminate Hq.
  - assert (Hold : ∀ q k due, (q, (k, due)) ∈ timers t → ∃ e, jm_get k (jm_set (id_key id) (mkPending (length (promises t)) (bool_decide (is_Some ms)) p) (pending t)) = Some e ∧ promise e = q ∧ timer e = true).
    { intros q k due Hq. destruct (H6 q k due Hq) as (e & He & Hpe & Ht). exists e. split; [|done]. rewrite jm_get_set, decide_False; [done|].
      destruct (H2 k e He) as (i & Hi & ->). by eapply Hin. }
    intros q k due. destruct ms as [ms|]; [|apply Hold]. intros [Hq|Hq]%elem_of_app; [by eapply Hold|].
    apply list_elem_of_singleton in Hq. injection Hq as -> -> ->. eexists. rewrite jm_get_set_eq. done.
  - destruct ms as [ms|]; [|done]. rewrite fmap_app. apply NoDup_app. split; [done|]. split; [|by apply NoDup_singleton].
    intros q Hq Hx%list_elem_of_singleton. apply list_elem_of_fmap in Hq as ([q' [k due]] & -> & Hq). simpl in Hx.
    destruct (H6 _ _ _ Hq) as (e & He & Hpe & _). destruct (H2 _ _ He) as (i & Hi & _). apply lookup_lt_Some in Hi. lia.
Qed.

Lemma timer_fires_ok now p t : table_ok t → table_ok (timer_fires now p t).
Proof.
  intros Hok. unfold timer_fires. destruct (jm_get p (timers t)) as [[k [due ms]]|] eqn:Hp; [|done]. case_bool_decide; [|done].
  apply jm_get_Some_elem in Hp. destruct (tk_timers t Hok _ _ _ Hp) as (e & He & <- & Ht).
  apply settle_ok; [done|done|done| |].
  - intros x [Hne Hin]%list_elem_of_filter. done.
  - apply timers_without, Hok.
Qed.

(** Several entries settled one after the other. *)
Definition settle_all (err : CallFailure) (l : list (string * Pending)) (t : CorrelationTable) : CorrelationTable :=
  foldl (λ t kv, settle_entry kv.1 kv.2 (Rejected err) t) t l.

Lemma settle_all_ok err l : ∀ t, table_ok t → NoDup l.*1 → (∀ k e, (k, e) ∈ l → jm_get k (pending t) = Some e) →
  table_ok (settle_all err l t) ∧ ∀ k, jm_get k (pending (settle_all err l t)) = if decide (k ∈ l.*1) then None else jm_get k (pending t).
Proof.
  induction l as [|[k e] l IH]; intros t Hok Hnd Hl; [done|]. apply NoDup_cons in Hnd as [Hk Hnd]. unfold settle_all. simpl.
  assert (Hp : ∀ o, pending (settle_entry k e o t) = jm_delete k (pending t)) by (intros o; unfold settle_entry, clearTimer; by destruct (timer e)).
  destruct (IH (settle_entry k e (Rejected err) t)) as [I1 I2].
  - apply settle_entry_ok; [done|apply Hl; by left|done].
  - done.
  - intros k' e' Hin. rewrite Hp, jm_get_delete, decide_False; [apply Hl; by right|]. intros <-. apply Hk.
    exact (list_elem_of_fmap_2 fst _ _ Hin).
  - split; [exact I1|]. intros k'. unfold settle_all in I2. rewrite I2, Hp, jm_get_delete. simpl.
    destruct (decide (k' ∈ l.*1)) as [Hin|Hin]; [by rewrite decide_True by (apply elem_of_cons; by right)|].
    destruct (decide (k = k')) as [<-|Hne]; [by rewrite decide_True by (apply elem_of_cons; by left)|]. rewrite decide_False; [done|]. by intros [?|?]%elem_of_cons.
Qed.

Lemma rejectFor_settles p err t : rejectFor p err t = settle_all err (filter (λ kv : string * Pending, peer kv.2 = Some p) (pending t)) t.
Proof.
  unfold rejectFor, settle_all. enough (Hgo : ∀ l u, foldl (λ t kv, if bool_decide (peer kv.2 = Some p) then settle_entry kv.1 kv.2 (Rejected err) t else t) u l =
    foldl (λ t (kv : string * Pending), settle_entry kv.1 kv.2 (Rejected err) t) u (filter (λ kv : string * Pending, peer kv.2 = Some p) l)) by apply Hgo.
  induction l as [|kv l IH]; intros u; [done|]. simpl. rewrite filter_cons. case_bool_decide as Hp.
  - rewrite decide_True by done. simpl. by rewrite IH.
  - rewrite decide_False by done. by rewrite IH.
Qed.

Lemma rejectAll_settles err t : jm_ok (pending t) → rejectAll err t = settle_all err (pending t) t.
Proof.
  intros Hok. unfold rejectAll. set (f := λ (t : CorrelationTable) (kv : string * Pending), _).
  assert (Hgo : ∀ l t t', promises t = promises t' → timers t = timers t' →
    promises (foldl f t l) = promises (settle_all err l t') ∧ timers (foldl f t l) = timers (settle_all err l t') ∧
    pending (settle_all err l t') = filter (λ kv : string * Pending, kv.1 ∉ l.*1) (pending t')).
  { induction l as [|[k e] l IH]; intros u u' Hp Ht; simpl.
    - split; [done|]. split; [done|]. induction (pending u') as [|x l IH]; [done|]. rewrite filter_cons_True by apply not_elem_of_nil. by rewrite <- IH.
    - destruct (IH (f u (k, e)) (settle_entry k e (Rejected err) u')) as (I1 & I2 & I3).
      + unfold f, settle_entry, clearTimer. simpl. destruct (timer e); simpl; by rewrite Hp.
      + unfold f, settle_entry, clearTimer. simpl. destruct (timer e); simpl; by rewrite Ht.
      + split; [exact I1|]. split; [exact I2|]. unfold settle_all in *. rewrite I3.
        assert (Hd : pending (settle_entry k e (Rejected err) u') = jm_delete k (pending u')) by (unfold settle_entry, clearTimer; by destruct (timer e)).
        rewrite Hd. unfold jm_delete. rewrite list_filter_filter. apply list_filter_iff. intros [k' e']. simpl. rewrite not_elem_of_cons. naive_solver. }
  destruct (Hgo (pending t) t t eq_refl eq_refl) as (H1 & H2 & H3). destruct (settle_all err (pending t) t) as [pe pr ti]. simpl in *.
  rewrite H1, H2. f_equal. rewrite H3. symmetry. destruct (filter _ (pending t)) as [|x l] eqn:Hf; [done|].
  assert (Hx : x ∈ filter (λ kv : string * Pending, kv.1 ∉ (pending t).*1) (pending t)) by (rewrite Hf; left).
  apply list_elem_of_filter in Hx as [Hn Hx]. destruct Hn. by apply list_elem_of_fmap_2.
Qed.

Lemma pending_elem t k e : table_ok t → (k, e) ∈ pending t → jm_get k (pending t) = Some e.
Proof. intros Hok. apply jm_elem_get, Hok. Qed.

Lemma rejectFor_ok p err t : table_ok t → table_ok (rejectFor p err t) ∧ ∀ k e, jm_get k (pending (rejectFor p err t)) = Some e → peer e ≠ Some p.
Proof.
  intros Hok. rewrite rejectFor_settles. destruct (settle_all_ok err (filter (λ kv : string * Pending, peer kv.2 = Some p) (pending t)) t) as [H1 H2]; [done| | |].
  - eapply sublist_NoDup; [exact (tk_keys t Hok)|]. apply fmap_sublist, sublist_filter.
  - intros k e [_ Hin]%list_elem_of_filter. by apply pending_elem.
  - split; [done|]. intros k e He Hp. rewrite H2 in He. case_decide as Hin; [done|]. apply Hin. change k with (k, e).1. apply list_elem_of_fmap_2.
    apply list_elem_of_filter. split; [done|]. by apply jm_get_Some_elem.
Qed.

Lemma rejectAll_ok err t : table_ok t → table_ok (rejectAll err t) ∧ ∀ p i, promises (rejectAll err t) !! p ≠ Some (i, None).
Proof.
  intros Hok. assert (H1 : table_ok (rejectAll err t)).
  { rewrite rejectAll_settles by apply Hok. apply settle_all_ok; [done|apply Hok|]. intros k e. by apply pending_elem. }
  split; [done|]. intros p i Hp. destruct (tk_open _ H1 _ _ Hp) as (e & He & _). done.
Qed.

Lemma complete_ok m t : table_ok t → table_ok (complete m t).1.
Proof.
  intros Hok. unfold complete. destruct (jm_get _ _) as [e|] eqn:He; [|done]. simpl. apply settle_entry_ok; [done|done|].
  by intros m' [= <-].
Qed.
Lemma fail_ok id err t : table_ok t → table_ok (fail id err t).1.
Proof. intros Hok. unfold fail. destruct (jm_get _ _) as [e|] eqn:He; [|done]. simpl. by apply settle_entry_ok. Qed.

Definition registered (o : Z * TableOp) : option Z := match o.2 with Register id _ _ => Some id | _ => None end.

(** What a step leaves of the promises: each with its id, and with its outcome once it has one. *)
Definition kept (l l' : list (Z * option Outcome)) : Prop := ∀ p i o, l !! p = Some (i, o) → ∃ o', l' !! p = Some (i, o') ∧ (is_Some o → o' = o).
Lemma kept_refl l : kept l l.
Proof. intros p i o H. by exists o. Qed.
Lemma kept_trans l1 l2 l3 : kept l1 l2 → kept l2 l3 → kept l1 l3.
Proof.
  intros H1 H2 p i o Hp. destruct (H1 p i o Hp) as (o1 & Hp1 & E1). destruct (H2 p i o1 Hp1) as (o2 & Hp2 & E2). exists o2. split; [done|].
  intros Ho. rewrite <- (E1 Ho) in Ho |- *. by apply E2.
Qed.
Lemma kept_settle o p l : kept l (alter (settle_promise o) p l).
Proof.
  intros q i x Hq. rewrite list_lookup_alter. case_decide as Hpq; [|by exists x]. subst q. rewrite Hq. simpl.
  destruct x as [y|]; [by exists (Some y)|]. exists (Some o). split; [done|]. by intros [? [=]].
Qed.
Lemma settle_entry_kept k e o t : kept (promises t) (promises (settle_entry k e o t)).
Proof. unfold settle_entry, clearTimer. destruct (timer e); apply kept_settle. Qed.
Lemma settle_all_kept err l : ∀ t, kept (promises t) (promises (settle_all err l t)).
Proof.
  induction l as [|kv l IH]; intros t; [apply kept_refl|]. eapply kept_trans; [apply settle_entry_kept|apply IH].
Qed.
Lemma table_step_kept now o t : table_ok t → kept (promises t) (promises (table_step now o t)).
Proof.
  intros Hok. destruct o as [id ms p|m|id e|e|p e|p]; cbn [table_step].
  - intros q i x Hq. exists x. split; [|done]. by apply lookup_app_l_Some.
  - unfold complete. destruct (jm_get _ _); [apply settle_entry_kept|apply kept_refl].
  - unfold fail. destruct (jm_get _ _); [apply settle_entry_kept|apply kept_refl].
  - rewrite rejectAll_settles by apply Hok. apply settle_all_kept.
  - rewrite rejectFor_settles. apply settle_all_kept.
  - unfold timer_fires. destruct (jm_get p (timers t)) as [[k [due ms]]|]; [|apply kept_refl]. case_bool_decide; [apply kept_settle|apply kept_refl].
Qed.

Lemma ids_settle p o (l : list (Z * option Outcome)) : (alter (settle_promise o) p l).*1 = l.*1.
Proof.
  apply list_eq. intros j. rewrite !list_lookup_fmap, list_lookup_alter. case_decide; [|done]. subst.
  destruct (l !! j) as [[i [x|]]|]; done.
Qed.
Lemma settle_all_ids err l : ∀ t, (promises (settle_all err l t)).*1 = (promises t).*1.
Proof.
  induction l as [|kv l IH]; intros t; [done|]. unfold settle_all in *. simpl. rewrite IH. unfold settle_entry, clearTimer. destruct (timer kv.2); simpl; apply ids_settle.
Qed.
Lemma settle_entry_ids k e o t : (promises (settle_entry k e o t)).*1 = (promises t).*1.
Proof. unfold settle_entry, clearTimer. destruct (timer e); simpl; apply ids_settle. Qed.
Lemma table_step_ids now o t : table_ok t →
  (promises (table_step now o t)).*1 = (promises t).*1 ++ option_list (registered (now, o)).
Proof.
  intros Hok. destruct o as [id ms p|m|id e|e|p e|p]; cbn [table_step registered snd option_list]; rewrite ?app_nil_r.
  - unfold register. simpl. by rewrite fmap_app.
  - unfold complete. destruct (jm_get _ _); [apply settle_entry_ids|done].
  - unfold fail. destruct (jm_get _ _); [apply settle_entry_ids|done].
  - rewrite rejectAll_settles by apply Hok. apply settle_all_ids.
  - rewrite rejectFor_settles. apply settle_all_ids.
  - unfold timer_fires. destruct (jm_get p (timers t)) as [[k [due ms]]|]; [|done]. case_bool_decide; [apply ids_settle|done].
Qed.

Lemma table_step_ok now o t : table_ok t → (∀ id, registered (now, o) = Some id → id ∉ (promises t).*1) → table_ok (table_step now o t).
Proof.
  intros Hok Hid. destruct o as [id ms p|m|id e|e|p e|p]; simpl.
  - apply register_ok; [done|by apply Hid].
  - by apply complete_ok.
  - by apply fail_ok.
  - by apply rejectAll_ok.
  - by apply rejectFor_ok.
  - by apply timer_fires_ok.
Qed.

Lemma new_table_ok : table_ok new_table.
Proof. split; simpl; try done; [apply jm_ok_nil|constructor|intros p k due H; by apply elem_of_nil in H|constructor]. Qed.

Lemma table_run_snoc ops o : table_run (ops ++ [o]) = table_step o.1 o.2 (table_run ops).
Proof. unfold table_run. by rewrite foldl_app. Qed.

Lemma table_run_ok ops : NoDup (omap registered ops) → table_ok (table_run ops) ∧ (promises (table_run ops)).*1 = omap registered ops.
Proof.
  induction ops as [|[now o] ops IH] using rev_ind; intros Hnd; [split; [apply new_table_ok|done]|].
  rewrite omap_app in Hnd |- *. pose proof Hnd as (Hnd1 & Hdis & _)%NoDup_app. destruct (IH Hnd1) as [I1 I2].
  rewrite table_run_snoc. cbn [fst snd]. split.
  - apply table_step_ok; [done|]. intros id Hid. rewrite I2. intros Hin. apply (Hdis id Hin). simpl. rewrite Hid. left.
  - rewrite table_step_ids by done. rewrite I2. simpl. by destruct (registered (now, o)).
Qed.

(** C28: Every call is settled once, by its own response or by its failure. However
    registrations under fresh ids, responses, failures, lost connections and
    timeouts follow each other: a promise is unsettled exactly while the table holds
    its entry; one that is resolved got the response that carries its id; only an
    unsettled one has a timer; what it came to never changes; after [rejectAll] none
    is unsettled, after [rejectFor] none of that peer. *)
Theorem correlation_contract ops rest p i o :
  NoDup (omap registered (ops ++ rest)) →
  let t := table_run ops in
  promises t !! p = Some (i, o) →
  (o = None ↔ ∃ e, jm_get (id_key i) (pending t) = Some e ∧ promise e = p) ∧
  (∀ m, o = Some (Resolved m) → correlationId m = i) ∧
  (∀ k due, (p, (k, due)) ∈ timers t → o = None ∧ k = id_key i) ∧
  (∀ x, o = Some x → promises (table_run (ops ++ rest)) !! p = Some (i, Some x)) ∧
  (∀ err, is_Some ((promises (rejectAll err t) !! p) ≫= snd)) ∧
  (∀ q err e, jm_get (id_key i) (pending (rejectFor q err t)) = Some e → peer e ≠ Some q).
Proof.
  intros Hnd t Hp. assert (Hnd1 : NoDup (omap registered ops)) by (rewrite omap_app in Hnd; by apply NoDup_app in Hnd as (? & _)).
  destruct (table_run_ok ops Hnd1) as [Hok _]. fold t in Hok. split; [|split; [|split; [|split; [|split]]]].
  - split; [intros ->; by apply (tk_open t Hok)|]. intros (e & He & Hpe). destruct (tk_pending t Hok _ _ He) as (i' & Hi' & _).
    rewrite Hpe, Hp in Hi'. by injection Hi'.
  - intros m ->. by apply (tk_reply t Hok p).
  - intros k due Hin. destruct (tk_timers t Hok _ _ _ Hin) as (e & He & Hpe & _). destruct (tk_pending t Hok _ _ He) as (i' & Hi' & ->).
    rewrite Hpe, Hp in Hi'. by injection Hi' as <- <-.
  - intros x ->. assert (Hk : kept (promises t) (promises (table_run (ops ++ rest)))).
    { clear Hp. induction rest as [|[now a] rest IH] using rev_ind; [rewrite app_nil_r; apply kept_refl|].
      rewrite app_assoc in Hnd |- *. rewrite omap_app in Hnd. apply NoDup_app in Hnd as (Hnd & _). specialize (IH Hnd).
      eapply kept_trans; [exact IH|]. rewrite table_run_snoc. apply table_step_kept. by apply table_run_ok. }
    destruct (Hk p i _ Hp) as (o' & Ho' & E). rewrite Ho'. by rewrite E.
  - intros err. destruct (rejectAll_ok err t Hok) as [_ Hr]. destruct (table_step_kept 0 (RejectAll err) t Hok p i o Hp) as (o' & Ho' & _).
    cbn [table_step] in Ho'. rewrite Ho'. cbn. destruct o' as [x|]; [by eexists|]. by apply Hr in Ho'.
  - intros q err e. by apply rejectFor_ok.
Qed.

(** ** Pooled connections *)

Inductive DialState := Dialing | Opened | Failed | Lost.
#[export] Instance DialState_eq_dec : EqDecision DialState.
Proof. solve_decision. Defined.
(** A dial: the promise the pool keeps. Closing: a [drop] or [closeAll] took it. *)
Record Dial := mkDial { dial_key : string; dial_state : DialState; closing : bool }.
Record ConnectionManager := mkManager {
  connections : list (string * nat);
  dials : list Dial;
  (** What [onConnectionLost] was told. *)
  lost : list string }.
Definition new_manager : ConnectionManager := mkManager [] [] [].

Definition get (to : SiloAddress) (c : ConnectionManager) : ConnectionManager * nat :=
  let key := endpoint to in
  match jm_get key (connections c) with
  | Some d => (c, d)
  | None =>
      let d := length (dials c) in
      (mkManager (jm_set key d (connections c)) (dials c ++ [mkDial key Dialing false]) (lost c), d)
  end.

Definition set_state (s : DialState) (x : Dial) : Dial := mkDial (dial_key x) s (closing x).
Definition set_closing (x : Dial) : Dial := mkDial (dial_key x) (dial_state x) true.

Definition dial_opens (d : nat) (c : ConnectionManager) : ConnectionManager :=
  match dials c !! d with
  | Some (mkDial _ Dialing _) => mkManager (connections c) (alter (set_state Opened) d (dials c)) (lost c)
  | _ => c
  end.
(** The [catch] of a dial: it deletes the entry of its key, whichever it is. *)
Definition dial_fails (d : nat) (c : ConnectionManager) : ConnectionManager :=
  match dials c !! d with
  | Some (mkDial key Dialing _) => mkManager (jm_delete key (connections c)) (alter (set_state Failed) d (dials c)) (lost c)
  | _ => c
  end.
(** [onClose] of an open connection. *)
Definition conn_lost (d : nat) (c : ConnectionManager) : ConnectionManager :=
  match dials c !! d with
  | Some (mkDial key Opened _) =>
      mkManager (if bool_decide (jm_get key (connections c) = Some d) then jm_delete key (connections c) else connections c)
        (alter (set_state Lost) d (dials c)) (lost c ++ [key])
  | _ => c
  end.
Definition drop (to : SiloAddress) (c : ConnectionManager) : ConnectionManager :=
  let key := endpoint to in
  mkManager (jm_delete key (connections c))
    (match jm_get key (connections c) with Some d => alter set_closing d (dials c) | None => dials c end) (lost c).
Definition closeAll (c : ConnectionManager) : ConnectionManager :=
  mkManager [] (foldl (λ l d, alter set_closing d l) (dials c) (jm_values (connections c))) (lost c).

Inductive PoolOp := Get (to : SiloAddress) | DialOpens (d : nat) | DialFails (d : nat) | ConnLost (d : nat) | Drop (to : SiloAddress) | CloseAll.
Definition pool_step (o : PoolOp) (c : ConnectionManager) : ConnectionManager :=
  match o with
  | Get to => (get to c).1
  | DialOpens d => dial_opens d c
  | DialFails d => dial_fails d c
  | ConnLost d => conn_lost d c
  | Drop to => drop to c
  | CloseAll => closeAll c
  end.
Definition pool_run (ops : list PoolOp) : ConnectionManager := foldl (λ c o, pool_step o c) new_manager ops.

Definition usable (x : Dial) : Prop := (dial_state x = Dialing ∨ dial_state x = Opened) ∧ closing x = false.
Record pool_ok (c : ConnectionManager) : Prop := {
  pk_keys : jm_ok (connections c);
  pk_pooled : ∀ k d, jm_get k (connections c) = Some d → ∃ x, dials c !! d = Some x ∧ dial_key x = k ∧ usable x }.

(** A dial that leaves the pool and changes. *)
Lemma unpool_ok f key d c l :
  pool_ok c → (∃ x, dials c !! d = Some x ∧ dial_key x = key) →
  pool_ok (mkManager (jm_delete key (connections c)) (alter f d (dials c)) l).
Proof.
  intros [H1 H2] (x & Hx & Hk). split; simpl; [by apply jm_ok_delete|]. intros k d'. rewrite jm_get_delete. case_decide as Hkk; [done|]. intros Hd'.
  destruct (H2 k d' Hd') as (y & Hy & Hyk & Hu). exists y. split; [|done]. rewrite list_lookup_alter, decide_False; [done|]. intros <-.
  rewrite Hx in Hy. injection Hy as <-. congruence.
Qed.

Lemma get_ok to c : pool_ok c →
  pool_ok (get to c).1 ∧ ∃ x, dials (get to c).1 !! (get to c).2 = Some x ∧ dial_key x = endpoint to ∧ usable x.
Proof.
  intros [H1 H2]. unfold get. destruct (jm_get _ _) as [d|] eqn:Hd; [split; [done|by apply H2]|]. cbn [fst snd]. split.
  - split; simpl; [by apply jm_ok_set|]. intros k d'. rewrite jm_get_set. case_decide as Hk.
    + intros [= <-]. exists (mkDial k Dialing false). rewrite lookup_app_r, Nat.sub_diag by lia. subst k. split; [done|]. split; [done|]. split; [by left|done].
    + intros Hd'. destruct (H2 k d' Hd') as (x & Hx & Hr). exists x. split; [|done]. by apply lookup_app_l_Some.
  - simpl. eexists. rewrite lookup_app_r, Nat.sub_diag by lia. split; [done|]. split; [done|]. split; [by left|done].
Qed.

Lemma pool_step_ok o c : pool_ok c → pool_ok (pool_step o c).
Proof.
  intros Hok. pose proof Hok as [H1 H2]. destruct o as [to|d|d|d|to|]; simpl.
  - by apply get_ok.
  - unfold dial_opens. destruct (dials c !! d) as [[key [] cl]|] eqn:Hd; try done. split; simpl; [done|]. intros k d' Hd'.
    destruct (H2 k d' Hd') as (x & Hx & Hk & Hs & Hc). rewrite list_lookup_alter. case_decide as Hdd; [|by exists x].
    subst d'. rewrite Hx. eexists. split; [done|]. split; [done|]. split; [by right|done].
  - unfold dial_fails. destruct (dials c !! d) as [[key [] cl]|] eqn:Hd; try done. apply unpool_ok; [done|by eexists].
  - unfold conn_lost. destruct (dials c !! d) as [[key [] cl]|] eqn:Hd; try done. case_bool_decide as Hp; [apply unpool_ok; [done|by eexists]|].
    split; simpl; [done|]. intros k d' Hd'. destruct (H2 k d' Hd') as (x & Hx & Hk & Hu). exists x. split; [|done].
    rewrite list_lookup_alter, decide_False; [done|]. intros <-. rewrite Hd in Hx. injection Hx as <-. by subst k.
  - unfold drop. destruct (jm_get (endpoint to) (connections c)) as [d|] eqn:Hd.
    + apply unpool_ok; [done|]. destruct (H2 _ _ Hd) as (x & Hx & Hk & _). by exists x.
    + split; simpl; [by apply jm_ok_delete|]. intros k d'. rewrite jm_get_delete. case_decide; [done|apply H2].
  - split; simpl; [apply jm_ok_nil|done].
Qed.

Lemma pool_run_ok ops : pool_ok (pool_run ops).
Proof.
  unfold pool_run. assert (H0 : pool_ok new_manager) by (split; [apply jm_ok_nil|done]). revert H0. generalize new_manager.
  induction ops as [|o ops IH]; intros c Hc; [done|]. simpl. by apply IH, pool_step_ok.
Qed.

(** A call gets a usable connection to its peer. Whatever was dialled, failed,
    lost and dropped before, what [get] returns is a dial to the endpoint that was
    asked for, under way or open, which did not fail, was not lost and was not
    dropped; asked again with nothing in between, it is the same. *)
Theorem pool_gives_usable ops to :
  let c := pool_run ops in
  let '(c', d) := get to c in
  (∃ x, dials c' !! d = Some x ∧ dial_key x = endpoint to ∧ (dial_state x = Dialing ∨ dial_state x = Opened) ∧ closing x = false) ∧
  get to c' = (c', d) ∧ (length (dials c') <= S (length (dials c)))%nat.
Proof.
  intros c. pose proof (get_ok to c (pool_run_ok ops)) as [_ Hx]. destruct (get to c) as [c' d] eqn:Hg. split; [exact Hx|].
  unfold get in Hg |- *. destruct (jm_get (endpoint to) (connections c)) as [d'|] eqn:Hd; injection Hg as <- <-; simpl.
  - rewrite Hd. split; [done|lia].
  - rewrite jm_get_set_eq. split; [done|]. rewrite length_app. simpl. lia.
Qed.

(** ** Runs *)

Module Runs.
Definition peer_a : SiloAddress := mkSilo "a" "u" "h:1".
Definition reply (id : Z) : Message := mkMessage id Response (mkGrainId "t" (KString "k")) None None 1 None "m" (Some Success) None None "".

Definition table_ops : list (Z * TableOp) :=
  [(0, Register 1 (Some 100) (Some "h:1"%string)); (1, Register 2 (Some 100) None); (2, Complete (reply 2)); (200, TimerFires 1)].
Lemma correlation_contract_witness :
  let t := table_run table_ops in
  promises t !! 1%nat = Some (2, Some (Resolved (reply 2))) ∧
  promises (table_run (table_ops ++ [(300, TimerFires 0); (301, Complete (reply 2))])) !! 1%nat = Some (2, Some (Resolved (reply 2))).
Proof.
  assert (Hnd : NoDup (omap registered (table_ops ++ [(300, TimerFires 0); (301, Complete (reply 2))])))
    by (apply (bool_decide_unpack _); vm_compute; exact I).
  assert (Hp : promises (table_run table_ops) !! 1%nat = Some (2, Some (Resolved (reply 2)))) by (vm_compute; reflexivity).
  split; [exact Hp|].
  destruct (correlation_contract table_ops [(300, TimerFires 0); (301, Complete (reply 2))] 1 2 _ Hnd Hp) as (_ & _ & _ & Hs & _).
  apply Hs. reflexivity.
Defined.

(** A dial that fails after it was dropped evicts the dial that replaced it. That
    one opens, is in no pool, and [closeAll] does not close it. *)
Theorem stale_failure_evicts :
  let c := pool_run [Get peer_a; Drop peer_a; Get peer_a; DialFails 0; DialOpens 1; CloseAll] in
  connections c = [] ∧ (dial_state <$> dials c) = [Failed; Opened] ∧ (closing <$> dials c) = [true; false].
Proof. vm_compute. split; [reflexivity|split; reflexivity]. Qed.

(** The timer of an id that was registered again ends the new call's entry, and leaves its promise unsettled. *)
Theorem reused_id_strands :
  let t := table_run [(0, Register 1 (Some 10) None); (5, Register 1 None None); (10, TimerFires 0)] in
  pending t = [] ∧ (promises t !! 1%nat) = Some (1, None).
Proof. vm_compute. split; reflexivity. Qed.
End Runs.
