(* ===== verification/Client.v ===== *)
(** * The external client

    Models [packages/client/src/gateway-manager.ts] (the class [GatewayManager])
    and the calls of [client-node.ts] ([ClientNode.invoke], [sendAndAwait],
    [onMessage]): many calls over one pool of connections and one correlation
    table, both of [Messaging].

    A call is cut at its awaits. The network is an input: what a dial comes to,
    whether a send throws, which messages arrive, what the gateway provider
    returns, and how long everything takes. The clock does not go back and stands
    still while the client runs. *)
From Stdlib Require Import String.
From stdpp Require Import prelude gmap strings list.
From S2P Require Import Prelude JsMap Ids Messaging.
Open Scope Z_scope.

(** ** Gateways *)

Record GatewayManager := mkGateways { live : list SiloAddress; counter : Z }.
Definition refresh (l : list SiloAddress) (g : GatewayManager) : GatewayManager := mkGateways l (counter g).
Definition next (g : GatewayManager) : GatewayManager * option SiloAddress :=
  match live g with
  | [] => (g, None)
  | l => (mkGateways l (counter g + 1), l !! Z.to_nat (counter g mod Z.of_nat (length l)))
  end.
Definition markAsDead (s : SiloAddress) (g : GatewayManager) : GatewayManager :=
  mkGateways (filter (λ x, endpoint x ≠ endpoint s) (live g)) (counter g).

(** ** Calls *)

Definition MINIMUM_INTERCONNECT_DELAY_MS : Z := 100.
Definition MAX_INTERCONNECT_DELAY_MS : Z := 2000.

(** What a call asks for; no arguments if they cannot be serialized. *)
Record ClientRequest := mkRequest {
  target : GrainId;
  oneWay : bool;
  sender : option GrainId;
  req_interface : Z;
  req_method : string;
  req_deadline : option Z;
  args : option string }.

Inductive Result := Returned (m : Message) | Sent | Threw (e : CallFailure).
(** Where a call waits. *)
Inductive Phase :=
  | Delaying (until : Z)
  | Refreshing
  | Connecting (gateway : SiloAddress) (d : nat)
  | Awaiting (gateway : SiloAddress) (p : nat)
  | Closing (gateway : SiloAddress)
  | Done (r : Result).

Record Call := mkCall {
  request : ClientRequest;
  (** When it was issued. *)
  started : Z;
  deadline : Z;
  refreshed : bool;
  lastError : option CallFailure;
  backoffMs : Z;
  hadFailure : bool;
  attempts : Z;
  phase : Phase }.

Record ClientNode := mkClient {
  callTimeoutMs : Z;
  localAddress : SiloAddress;
  gateways : GatewayManager;
  pool : ConnectionManager;
  correlation : CorrelationTable;
  (** The counter of [nextCorrelationId]. *)
  lastId : Z;
  calls : list Call;
  (** What was put on the wire: for which call, to which gateway. *)
  wire : list (nat * SiloAddress * Message) }.

Definition with_gateways (g : GatewayManager) (c : ClientNode) : ClientNode :=
  mkClient (callTimeoutMs c) (localAddress c) g (pool c) (correlation c) (lastId c) (calls c) (wire c).
Definition with_pool (p : ConnectionManager) (c : ClientNode) : ClientNode :=
  mkClient (callTimeoutMs c) (localAddress c) (gateways c) p (correlation c) (lastId c) (calls c) (wire c).
Definition with_table (t : CorrelationTable) (c : ClientNode) : ClientNode :=
  mkClient (callTimeoutMs c) (localAddress c) (gateways c) (pool c) t (lastId c) (calls c) (wire c).
Definition with_id (i : Z) (c : ClientNode) : ClientNode :=
  mkClient (callTimeoutMs c) (localAddress c) (gateways c) (pool c) (correlation c) i (calls c) (wire c).
Definition with_call (k : nat) (x : Call) (c : ClientNode) : ClientNode :=
  mkClient (callTimeoutMs c) (localAddress c) (gateways c) (pool c) (correlation c) (lastId c) (<[k := x]> (calls c)) (wire c).
Definition put_on_wire (k : nat) (g : SiloAddress) (m : Message) (c : ClientNode) : ClientNode :=
  mkClient (callTimeoutMs c) (localAddress c) (gateways c) (pool c) (correlation c) (lastId c) (calls c) (wire c ++ [(k, g, m)]).

Definition at_phase (p : Phase) (x : Call) : Call :=
  mkCall (request x) (started x) (deadline x) (refreshed x) (lastError x) (backoffMs x) (hadFailure x) (attempts x) p.

Definition timeoutError (c : ClientNode) (x : Call) : CallFailure :=
  GrainCallTimeoutError ("grain call timed out after " +:+ bigint_toString (callTimeoutMs c) +:+ "ms (" +:+ bigint_toString (attempts x) +:+
    " attempt" +:+ (if bool_decide (attempts x = 1) then "" else "s") +:+ " made)")%string.

(** An attempt on the gateway that was chosen. *)
Definition attempt (k : nat) (gateway : option SiloAddress) (x : Call) (c : ClientNode) : ClientNode :=
  match gateway with
  | None => with_call k (at_phase (Done (Threw (default (OtherError "no gateway available to route the call") (lastError x)))) x) c
  | Some g =>
      let '(p, d) := get g (pool c) in
      with_call k (mkCall (request x) (started x) (deadline x) (refreshed x) (lastError x) (backoffMs x) (hadFailure x) (attempts x + 1)
                     (Connecting g d)) (with_pool p c)
  end.

(** Past the wait between attempts. *)
Definition choose (now : Z) (k : nat) (x : Call) (c : ClientNode) : ClientNode :=
  if bool_decide (deadline x - now <= 0) then with_call k (at_phase (Done (Threw (timeoutError c x))) x) c
  else
    let '(g, gateway) := next (gateways c) in
    let c := with_gateways g c in
    match gateway with
    | None => if refreshed x then attempt k None x c else with_call k (at_phase Refreshing x) c
    | Some _ => attempt k gateway x c
    end.
(** The top of the loop. *)
Definition loop_top (now : Z) (k : nat) (x : Call) (c : ClientNode) : ClientNode :=
  if hadFailure x then
    let remaining := deadline x - now in
    if bool_decide (remaining <= 0) then with_call k (at_phase (Done (Threw (timeoutError c x))) x) c
    else with_call k (at_phase (Delaying (now + Z.min (backoffMs x) remaining)) x) c
  else choose now k x c.

(** The catch of an attempt, to the await of [drop]. *)
Definition caught (now : Z) (k : nat) (g : SiloAddress) (e : CallFailure) (x : Call) (c : ClientNode) : ClientNode :=
  if bool_decide (deadline x <= now) then with_call k (at_phase (Done (Threw (timeoutError c x))) x) c
  else
    let c := with_pool (drop g (pool c)) (with_gateways (markAsDead g (gateways c)) c) in
    with_call k (mkCall (request x) (started x) (deadline x) (refreshed x) (Some e) (backoffMs x) true (attempts x) (Closing g)) c.

Definition request_message (now id : Z) (b : string) (x : Call) (c : ClientNode) : Message :=
  let r := request x in
  mkMessage id (if oneWay r then OneWay else Request) (target r) (Some (localAddress c)) (sender r) (req_interface r) None (req_method r) None
    ((λ d, d - now) <$> req_deadline r) (if oneWay r then None else Some (deadline x - now)) b.

(** [sendAndAwait]: the promise of the reply, or the error of the send. *)
Definition sendAndAwait (now : Z) (k : nat) (g : SiloAddress) (m : Message) (timeoutMs : Z) (sendThrows : option CallFailure) (c : ClientNode) :
    ClientNode * (nat + CallFailure) :=
  let '(t, p) := register now (correlationId m) (Some timeoutMs) None (correlation c) in
  match sendThrows with
  | None => (put_on_wire k g m (with_table t c), inl p)
  | Some e => (with_table (fail (correlationId m) e t).1 c, inr e)
  end.

(** The connection is there. *)
Definition connected (now : Z) (k : nat) (g : SiloAddress) (sendThrows : option CallFailure) (x : Call) (c : ClientNode) : ClientNode :=
  let id := lastId c + 1 in
  let c := with_id id c in
  match args (request x) with
  | None => caught now k g (OtherError "not serializable") x c
  | Some b =>
      let m := request_message now id b x c in
      if oneWay (request x) then
        match sendThrows with
        | None => with_call k (at_phase (Done Sent) x) (put_on_wire k g m c)
        | Some e => caught now k g e x c
        end
      else if bool_decide (deadline x - now <= 0) then caught now k g (timeoutError c x) x c
      else
        match sendAndAwait now k g m (deadline x - now) sendThrows c with
        | (c, inl p) => with_call k (at_phase (Awaiting g p) x) c
        | (c, inr e) => caught now k g e x c
        end
  end.

(** [invoke], to its first await. *)
Definition invoke (now : Z) (r : ClientRequest) (c : ClientNode) : ClientNode :=
  let k := length (calls c) in
  let x := mkCall r now (now + callTimeoutMs c) false None MINIMUM_INTERCONNECT_DELAY_MS false 0 Refreshing in
  loop_top now k x (mkClient (callTimeoutMs c) (localAddress c) (gateways c) (pool c) (correlation c) (lastId c) (calls c ++ [x]) (wire c)).

(** What resumes a call: with the gateways the provider gave, and whether its send throws. *)
Definition resume (now : Z) (listed : CallFailure + list SiloAddress) (dialError : CallFailure) (sendThrows : option CallFailure) (k : nat) (c : ClientNode) : ClientNode :=
  match calls c !! k with
  | None => c
  | Some x =>
      match phase x with
      | Delaying until =>
          if bool_decide (until <= now) then
            choose now k (mkCall (request x) (started x) (deadline x) (refreshed x) (lastError x) (Z.min (backoffMs x * 2) MAX_INTERCONNECT_DELAY_MS)
                            (hadFailure x) (attempts x) (phase x)) c
          else c
      | Refreshing =>
          match listed with
          | inl e => with_call k (at_phase (Done (Threw e)) x) c
          | inr l =>
              let '(g, gateway) := next (refresh l (gateways c)) in
              attempt k gateway (mkCall (request x) (started x) (deadline x) true (lastError x) (backoffMs x) (hadFailure x) (attempts x) (phase x))
                (with_gateways g c)
          end
      | Connecting g d =>
          match dial_state <$> dials (pool c) !! d with
          | Some Failed => caught now k g dialError x c
          | Some Opened | Some Lost => connected now k g sendThrows x c
          | _ => c
          end
      | Awaiting g p =>
          match promises (correlation c) !! p with
          | Some (_, Some (Resolved m)) => with_call k (at_phase (Done (Returned m)) x) c
          | Some (_, Some (Rejected e)) => caught now k g e x c
          | _ => c
          end
      | Closing g => loop_top now k x c
      | Done _ => c
      end
  end.

(** [onMessage]: a response; the calls of hosted objects are another matter. *)
Definition onMessage (m : Message) (c : ClientNode) : ClientNode :=
  if bool_decide (direction m = Response) then with_table (complete m (correlation c)).1 c else c.

(** [connect], past its refresh: one dial, whatever comes of it. *)
Definition connect_client (l : list SiloAddress) (c : ClientNode) : ClientNode :=
  let '(g, gateway) := next (refresh l (gateways c)) in
  let c := with_gateways g c in
  match gateway with Some s => with_pool (get s (pool c)).1 c | None => c end.
Definition close_client (c : ClientNode) : ClientNode := with_pool (closeAll (pool c)) c.

Inductive Label :=
  | ConnectClient (l : list SiloAddress)
  | Invoke (r : ClientRequest)
  | Resume (k : nat) (listed : CallFailure + list SiloAddress) (dialError : CallFailure) (sendThrows : option CallFailure)
  | Arrives (m : Message)
  | Timer (p : nat)
  | DialOpens' (d : nat)
  | DialFails' (d : nat)
  | ConnLost' (d : nat)
  | CloseClient.

Definition client_step (now : Z) (l : Label) (c : ClientNode) : ClientNode :=
  match l with
  | ConnectClient l => connect_client l c
  | Invoke r => invoke now r c
  | Resume k listed de st => resume now listed de st k c
  | Arrives m => onMessage m c
  | Timer p => with_table (timer_fires now p (correlation c)) c
  | DialOpens' d => with_pool (dial_opens d (pool c)) c
  | DialFails' d => with_pool (dial_fails d (pool c)) c
  | ConnLost' d => with_pool (conn_lost d (pool c)) c
  | CloseClient => close_client c
  end.

(** A client and its clock; time passes before each step. *)
Definition client_run (timeoutMs : Z) (self : SiloAddress) (ls : list (Z * Label)) : Z * ClientNode :=
  foldl (λ s l, let now := s.1 + Z.max 0 l.1 in (now, client_step now l.2 s.2))
    (0, mkClient timeoutMs self (mkGateways [] 0) new_manager new_table 0 [] []) ls.

(** ** The table under the client *)

(** What a step leaves of each promise: its outcome once it has one, its timer while
    it has none; it is rejected by that timer only. *)
Definition evolves (now : Z) (t t' : CorrelationTable) : Prop :=
  ∀ p i o, promises t !! p = Some (i, o) → ∃ o', promises t' !! p = Some (i, o') ∧ (is_Some o → o' = o) ∧
    (o = None → ∀ k due ms, (p, (k, (due, ms))) ∈ timers t →
       match o' with None => (p, (k, (due, ms))) ∈ timers t' | Some (Rejected _) => due <= now | Some (Resolved _) => True end).

Lemma evolves_refl now t : evolves now t t.
Proof. intros p i o Hp. exists o. split; [done|]. split; [done|]. by intros ->. Qed.

Lemma evolves_trans now t1 t2 t3 : evolves now t1 t2 → evolves now t2 t3 → evolves now t1 t3.
Proof.
  intros H1 H2 p i o Hp. destruct (H1 p i o Hp) as (o1 & Hp1 & E1 & T1). destruct (H2 p i o1 Hp1) as (o2 & Hp2 & E2 & T2).
  exists o2. split; [done|]. split; [intros Ho; rewrite <- (E1 Ho) in Ho |- *; by apply E2|].
  intros -> k due ms Hin. specialize (T1 eq_refl k due ms Hin). destruct o1 as [x|]; [by rewrite (E2 ltac:(by eexists))|by apply T2].
Qed.

Lemma settle_entry_evolves now t k e o : table_ok t → jm_get k (pending t) = Some e → (∀ x, o ≠ Rejected x) → evolves now t (settle_entry k e o t).
Proof.
  intros Hok Hk Ho p i x Hp. unfold settle_entry, clearTimer. destruct (tk_pending t Hok _ _ Hk) as (i' & Hi' & _).
  destruct (decide (promise e = p)) as [Hpe|Hne].
  - subst p. rewrite Hp in Hi'. injection Hi' as <- ->. exists (Some o).
    split; [destruct (timer e); simpl; rewrite list_lookup_alter, decide_True, Hp by done; done|]. split; [by intros [? [=]]|].
    intros _ k' due ms _. destruct o as [m|e']; [done|]. by destruct (Ho e').
  - exists x. split; [destruct (timer e); simpl; by rewrite list_lookup_alter, decide_False|]. split; [done|].
    intros -> k' due ms Hin. destruct (timer e); simpl; [|done]. apply list_elem_of_filter. split; [|done]. simpl. congruence.
Qed.

Lemma complete_evolves now m t : table_ok t → evolves now t (complete m t).1.
Proof.
  intros Hok. unfold complete. destruct (jm_get _ _) as [e|] eqn:He; [|apply evolves_refl]. by apply settle_entry_evolves.
Qed.

Lemma timer_fires_evolves now p t : table_ok t → evolves now t (timer_fires now p t).
Proof.
  intros Hok. unfold timer_fires. destruct (jm_get p (timers t)) as [[k [due ms]]|] eqn:Hp; [|apply evolves_refl].
  case_bool_decide as Hdue; [|apply evolves_refl]. intros q i x Hq. simpl. rewrite list_lookup_alter. case_decide as Hpq.
  - subst q. rewrite Hq. simpl. destruct x as [y|]; [by exists (Some y)|]. eexists. split; [done|]. split; [by intros [? [=]]|].
    intros _ k' due' ms' Hin. simpl. apply (jm_elem_get _ _ _ (tk_one t Hok)) in Hin. rewrite Hp in Hin. by injection Hin as <- <- <-.
  - exists x. split; [done|]. split; [done|]. intros -> k' due' ms' Hin. apply list_elem_of_filter. split; [|done]. simpl. congruence.
Qed.

Lemma register_evolves now' now id ms p t : evolves now' t (register now id ms p t).1.
Proof.
  intros q i x Hq. exists x. split; [by apply lookup_app_l_Some|]. split; [done|]. intros -> k due w Hin. simpl.
  destruct ms; [|done]. apply elem_of_app. by left.
Qed.

(** A send that throws: its promise is settled, and no other. *)
Lemma failed_send_evolves now id ms p e t : table_ok t → id ∉ (promises t).*1 →
  let t' := (fail id e (register now id ms p t).1).1 in table_ok t' ∧ evolves now t t'.
Proof.
  intros Hok Hid t'. pose proof (register_ok now id ms p t Hok Hid) as Hr. split; [by apply fail_ok|].
  unfold t', fail. assert (Hg : jm_get (id_key id) (pending (register now id ms p t).1) = Some (mkPending (length (promises t)) (bool_decide (is_Some ms)) p))
    by (simpl; apply jm_get_set_eq). rewrite Hg. cbn [fst].
  intros q i x Hq. pose proof (lookup_lt_Some _ _ _ Hq) as Hlt. destruct (register_evolves now now id ms p t q i x Hq) as (x' & Hq' & E & T).
  exists x'. unfold settle_entry, clearTimer. cbn [timer promise]. split.
  { destruct (bool_decide (is_Some ms)); cbn [promises pending timers]; rewrite list_lookup_alter, decide_False; (done || lia). }
  split; [done|]. intros -> k due w Hin. specialize (T eq_refl k due w Hin). destruct x' as [y|]; [done|].
  destruct (bool_decide (is_Some ms)); cbn [promises pending timers]; [|done]. apply list_elem_of_filter. split; [simpl; lia|done].
Qed.

(** ** What holds of a call *)

Definition sent_by (k : nat) (c : ClientNode) : list (nat * SiloAddress * Message) := filter (λ w, w.1.1 = k) (wire c).

(** Attempt after attempt, at least the least delay apart. *)
Definition paced (now : Z) (c : ClientNode) (x : Call) (n : Z) : Prop :=
  MINIMUM_INTERCONNECT_DELAY_MS * n < callTimeoutMs c ∧ started x + MINIMUM_INTERCONNECT_DELAY_MS * n <= now ∧ 0 <= n.

Definition phase_ok (now : Z) (c : ClientNode) (k : nat) (x : Call) : Prop :=
  match phase x with
  | Delaying until => sent_by k c = [] ∧ hadFailure x = true ∧ paced now c x (attempts x - 1) ∧
      Z.min (started x + MINIMUM_INTERCONNECT_DELAY_MS * attempts x) (deadline x) <= until ∧ until <= deadline x
  | Refreshing => sent_by k c = [] ∧ paced now c x (attempts x)
  | Connecting _ _ => sent_by k c = [] ∧ paced now c x (attempts x - 1)
  | Awaiting _ p => paced now c x (attempts x - 1) ∧ ∃ g m o, sent_by k c = [(k, g, m)] ∧ promises (correlation c) !! p = Some (correlationId m, o) ∧
      (o = None → ∃ ms, (p, (id_key (correlationId m), (deadline x, ms))) ∈ timers (correlation c)) ∧ (∀ e, o = Some (Rejected e) → deadline x <= now)
  | Closing _ => sent_by k c = [] ∧ hadFailure x = true ∧ paced now c x (attempts x - 1)
  | Done r => (attempts x = 0 ∨ paced now c x (attempts x - 1)) ∧
      match r with
      | Returned m => ∃ g q, sent_by k c = [(k, g, q)] ∧ correlationId q = correlationId m
      | Sent => ∃ g q, sent_by k c = [(k, g, q)] ∧ oneWay (request x) = true
      | Threw _ => (length (sent_by k c) <= 1)%nat
      end
  end.
Record call_ok (now : Z) (c : ClientNode) (k : nat) (x : Call) : Prop := {
  ck_deadline : deadline x = started x + callTimeoutMs c;
  ck_started : started x <= now;
  ck_backoff : MINIMUM_INTERCONNECT_DELAY_MS <= backoffMs x;
  ck_phase : phase_ok now c k x }.

Record client_ok (now : Z) (c : ClientNode) : Prop := {
  ok_table : table_ok (correlation c);
  ok_ids : ∀ i, i ∈ (promises (correlation c)).*1 → i <= lastId c;
  ok_wire : ∀ w, w ∈ wire c → (w.1.1 < length (calls c))%nat;
  ok_calls : ∀ k x, calls c !! k = Some x → call_ok now c k x }.

(** The client moves on under a call. *)
Lemma call_ok_later now now' c c' k x : now <= now' → callTimeoutMs c' = callTimeoutMs c → evolves now' (correlation c) (correlation c') →
  sent_by k c' = sent_by k c → table_ok (correlation c) → call_ok now c k x → call_ok now' c' k x.
Proof.
  intros Hn Ht He Hs Htab [H1 H2 H3 H4]. split; [by rewrite Ht|lia|done|].
  assert (Hp : ∀ n, paced now c x n → paced now' c' x n) by (unfold paced; rewrite Ht; intros n (? & ? & ?); repeat split; [done|lia|done]).
  revert H4. unfold phase_ok. rewrite Hs. destruct (phase x) as [u| |g d|g p|g|r]; try (intros H4; naive_solver).
  intros (Hpc & g' & m & o & Hm & Hpr & Hopen & Hrej). split; [by apply Hp|]. destruct (He p _ o Hpr) as (o' & Hpr' & Ho' & Htm).
  exists g', m, o'. split; [done|]. split; [done|]. split.
  - intros ->. destruct o as [y|]; [by discriminate (Ho' ltac:(by eexists))|]. destruct (Hopen eq_refl) as (ms & Hin). exists ms.
    by apply (Htm eq_refl _ _ _ Hin).
  - intros e ->. destruct o as [y|].
    + specialize (Ho' ltac:(by eexists)). injection Ho' as <-. specialize (Hrej e eq_refl). lia.
    + destruct (Hopen eq_refl) as (ms & Hin). by apply (Htm eq_refl _ _ _ Hin).
Qed.

(** ** The steps of a call *)

(** The client after something was done for call [k]. *)
Record moved (now : Z) (k : nat) (c c' : ClientNode) : Prop := {
  mv_timeout : callTimeoutMs c' = callTimeoutMs c;
  mv_table : table_ok (correlation c');
  mv_evolves : evolves now (correlation c) (correlation c');
  mv_ids : ∀ i, i ∈ (promises (correlation c')).*1 → i <= lastId c';
  mv_wire : ∃ ws, wire c' = wire c ++ ws ∧ ∀ w, w ∈ ws → w.1.1 = k;
  mv_calls : ∀ j, j ≠ k → calls c' !! j = calls c !! j;
  mv_length : length (calls c') = length (calls c) }.

Lemma moved_refl now k c : table_ok (correlation c) → (∀ i, i ∈ (promises (correlation c)).*1 → i <= lastId c) → moved now k c c.
Proof. intros H1 H2. split; try done; [apply evolves_refl|]. exists []. rewrite app_nil_r. split; [done|]. intros w Hw. by apply elem_of_nil in Hw. Qed.
Lemma moved_trans now k c1 c2 c3 : moved now k c1 c2 → moved now k c2 c3 → moved now k c1 c3.
Proof.
  intros [A1 A2 A3 A4 (w1 & A5 & A5') A6 A7] [B1 B2 B3 B4 (w2 & B5 & B5') B6 B7]. split; try congruence; try done.
  - by eapply evolves_trans.
  - exists (w1 ++ w2). rewrite B5, A5, app_assoc. split; [done|]. intros w [Hw|Hw]%elem_of_app; auto.
  - intros j Hj. rewrite B6, A6; done.
Qed.

(** A step that neither sends nor touches the table. *)
Lemma moved_call now k x c : table_ok (correlation c) → (∀ i, i ∈ (promises (correlation c)).*1 → i <= lastId c) → moved now k c (with_call k x c).
Proof.
  intros H1 H2. split; try done; simpl; [apply evolves_refl| | |by apply length_insert].
  - exists []. rewrite app_nil_r. split; [done|]. intros w Hw. by apply elem_of_nil in Hw.
  - intros j Hj. by apply list_lookup_insert_ne.
Qed.

Lemma sent_other now k j c c' : moved now k c c' → j ≠ k → sent_by j c' = sent_by j c.
Proof.
  intros [_ _ _ _ (ws & Hw & Hk) _ _] Hj. unfold sent_by. rewrite Hw, filter_app.
  assert (filter (λ w : nat * SiloAddress * Message, w.1.1 = j) ws = []) as ->; [|apply app_nil_r].
  clear Hw. induction ws as [|w ws IH]; [done|]. rewrite filter_cons_False; [apply IH; intros y Hy; apply Hk; by right|].
  rewrite (Hk w); [congruence|by left].
Qed.

(** The client stays well if the call that moves does. *)
Lemma client_moves now k c c' x : client_ok now c → moved now k c c' → calls c' !! k = Some x → call_ok now c' k x → client_ok now c'.
Proof.
  intros [H1 H2 H3 H4] Hm Hk Hx. pose proof Hm as [M1 M2 M3 M4 (ws & M5 & M5') M6 M7]. split; [done|done| |].
  - intros w. rewrite M5, M7. intros [Hw|Hw]%elem_of_app; [by apply H3|]. rewrite (M5' w Hw), <- M7. by eapply lookup_lt_Some.
  - intros j y Hj. destruct (decide (j = k)) as [->|Hne]; [rewrite Hk in Hj; by injection Hj as <-|]. rewrite M6 in Hj by done.
    eapply call_ok_later; [reflexivity|done|done|by eapply sent_other|done|by apply H4].
Qed.

(** What a call was before it resumed. *)
Record resuming (now : Z) (k : nat) (x : Call) (c : ClientNode) : Prop := {
  rs_table : table_ok (correlation c);
  rs_ids : ∀ i, i ∈ (promises (correlation c)).*1 → i <= lastId c;
  rs_length : (k < length (calls c))%nat;
  rs_deadline : deadline x = started x + callTimeoutMs c;
  rs_started : started x <= now;
  rs_backoff : MINIMUM_INTERCONNECT_DELAY_MS <= backoffMs x }.
(** A function of the loop leaves call [k] in order, and nothing else out of order. *)
Definition carries (now : Z) (k : nat) (c c' : ClientNode) : Prop :=
  moved now k c c' ∧ ∃ x, calls c' !! k = Some x ∧ call_ok now c' k x.

Lemma carries_call now k x y c : resuming now k x c → deadline y = deadline x → started y = started x → MINIMUM_INTERCONNECT_DELAY_MS <= backoffMs y →
  phase_ok now c k y → carries now k c (with_call k y c).
Proof.
  intros [H1 H2 H3 H4 H5 H6] Hd Hs Hb Hp. split; [by apply moved_call|]. exists y. simpl. split; [by apply list_lookup_insert_eq|].
  split; simpl; [congruence|congruence|done|]. revert Hp. unfold phase_ok. by destruct (phase y).
Qed.
Lemma carries_after now k c c1 c' : moved now k c c1 → carries now k c1 c' → carries now k c c'.
Proof. intros H1 [H2 H3]. split; [by eapply moved_trans|done]. Qed.

(** Changes of the gateways and the pool are nothing to the calls. *)
Definition same_calls (c c' : ClientNode) : Prop :=
  callTimeoutMs c' = callTimeoutMs c ∧ correlation c' = correlation c ∧ lastId c' = lastId c ∧ calls c' = calls c ∧ wire c' = wire c.
Lemma same_calls_moved now k c c' : table_ok (correlation c) → (∀ i, i ∈ (promises (correlation c)).*1 → i <= lastId c) → same_calls c c' → moved now k c c'.
Proof.
  intros H1 H2 (E1 & E2 & E3 & E4 & E5). split; rewrite ?E2, ?E3, ?E4, ?E5; try done; [apply evolves_refl|].
  exists []. rewrite app_nil_r. split; [done|]. intros w Hw. by apply elem_of_nil in Hw.
Qed.
Lemma same_calls_resuming now k x c c' : same_calls c c' → resuming now k x c → resuming now k x c'.
Proof. intros (E1 & E2 & E3 & E4 & E5) [H1 H2 H3 H4 H5 H6]. split; rewrite ?E1, ?E2, ?E3, ?E4; done. Qed.

Lemma paced_less now c x n : 0 < n → paced now c x n → paced now c x (n - 1).
Proof. unfold paced, MINIMUM_INTERCONNECT_DELAY_MS. intros Hn (H1 & H2 & H3). repeat split; lia. Qed.
Lemma paced_done now c x n : paced now c x n → n = 0 ∨ paced now c x (n - 1).
Proof. intros H. destruct (decide (n = 0)); [by left|]. right. apply paced_less; [|done]. destruct H as (_ & _ & ?). lia. Qed.

Lemma attempt_carries now k gateway x c : resuming now k x c → sent_by k c = [] → paced now c x (attempts x) → carries now k c (attempt k gateway x c).
Proof.
  intros Hr Hs Hp. unfold attempt. destruct gateway as [g|].
  - destruct (get g (pool c)) as [p d]. eapply carries_after.
    { apply (same_calls_moved now k c (with_pool p c)); [apply Hr|apply Hr|done]. }
    eapply (carries_call _ _ x); [by apply (same_calls_resuming _ _ _ c)|done|done|apply Hr|]. unfold phase_ok. simpl.
    split; [done|]. rewrite Z.add_simpl_r. done.
  - eapply (carries_call _ _ x); [done|done|done|apply Hr|]. unfold phase_ok. simpl. rewrite Hs. split; [by apply paced_done|simpl; lia].
Qed.

Lemma choose_carries now k x c : resuming now k x c → sent_by k c = [] →
  (attempts x = 0 ∧ started x <= now ∨ paced now c x (attempts x - 1) ∧ Z.min (started x + MINIMUM_INTERCONNECT_DELAY_MS * attempts x) (deadline x) <= now ∧ 1 <= attempts x) →
  carries now k c (choose now k x c).
Proof.
  intros Hr Hs Hp. unfold choose. case_bool_decide as Hd.
  - eapply (carries_call _ _ x); [done|done|done|apply Hr|]. unfold phase_ok. simpl. rewrite Hs. split; [|simpl; lia]. destruct Hp as [[? _]|[? _]]; auto.
  - assert (Hpace : paced now c x (attempts x)).
    { pose proof (rs_deadline _ _ _ _ Hr) as Hdl. unfold paced, MINIMUM_INTERCONNECT_DELAY_MS in *. destruct Hp as [[-> ?]|(? & ? & ?)]; repeat split; lia. }
    destruct (next (gateways c)) as [g gateway]. assert (Hsame : same_calls c (with_gateways g c)) by done.
    eapply carries_after; [apply (same_calls_moved now k c (with_gateways g c)); [apply Hr|apply Hr|done]|].
    destruct gateway as [s|]; [by apply attempt_carries; [apply (same_calls_resuming _ _ _ c)| |]|].
    destruct (refreshed x); [by apply attempt_carries; [apply (same_calls_resuming _ _ _ c)| |]|].
    eapply (carries_call _ _ x); [by apply (same_calls_resuming _ _ _ c)|done|done|apply Hr|]. unfold phase_ok. simpl. done.
Qed.

Lemma caught_carries now k g e x c : resuming now k x c →
  (sent_by k c = [] ∨ deadline x <= now ∧ (length (sent_by k c) <= 1)%nat) → paced now c x (attempts x - 1) → carries now k c (caught now k g e x c).
Proof.
  intros Hr Hs Hp. unfold caught. case_bool_decide as Hd.
  - eapply (carries_call _ _ x); [done|done|done|apply Hr|]. unfold phase_ok. simpl. split; [by right|]. destruct Hs as [->|[_ ?]]; [simpl; lia|done].
  - destruct Hs as [Hs|[? _]]; [|done]. eapply carries_after; [apply (same_calls_moved now k c (with_pool (drop g (pool c)) (with_gateways (markAsDead g (gateways c)) c))); [apply Hr|apply Hr|done]|].
    eapply (carries_call _ _ x); [by apply (same_calls_resuming _ _ _ c)|done|done|apply Hr|]. unfold phase_ok. simpl. done.
Qed.

Lemma loop_top_carries now k x c : resuming now k x c → sent_by k c = [] → hadFailure x = true → paced now c x (attempts x - 1) →
  carries now k c (loop_top now k x c).
Proof.
  intros Hr Hs Hf Hp. unfold loop_top. rewrite Hf. case_bool_decide as Hd; (eapply (carries_call _ _ x); [done|done|done|apply Hr|]); unfold phase_ok; simpl.
  - rewrite Hs. split; [by right|simpl; lia].
  - split; [done|]. split; [done|]. split; [done|]. pose proof (rs_backoff _ _ _ _ Hr) as Hb. unfold paced, MINIMUM_INTERCONNECT_DELAY_MS in *. lia.
Qed.

Lemma sent_put k g m c : sent_by k (put_on_wire k g m c) = sent_by k c ++ [(k, g, m)].
Proof. unfold sent_by. simpl. rewrite filter_app. f_equal. by rewrite filter_cons_True. Qed.

Lemma moved_put now k g m c : table_ok (correlation c) → (∀ i, i ∈ (promises (correlation c)).*1 → i <= lastId c) → moved now k c (put_on_wire k g m c).
Proof.
  intros H1 H2. split; try done; [apply evolves_refl|]. exists [(k, g, m)]. split; [done|]. by intros w ->%list_elem_of_singleton.
Qed.

Lemma moved_table now k t c : table_ok t → evolves now (correlation c) t → (∀ i, i ∈ (promises t).*1 → i <= lastId c) → moved now k c (with_table t c).
Proof. intros H1 H2 H3. split; try done. exists []. rewrite app_nil_r. split; [done|]. intros w Hw. by apply elem_of_nil in Hw. Qed.

Lemma moved_resuming now k x c c' : moved now k c c' → resuming now k x c → resuming now k x c'.
Proof. intros [M1 M2 M3 M4 M5 M6 M7] [H1 H2 H3 H4 H5 H6]. split; try done; [by rewrite M7|by rewrite M1]. Qed.

Lemma connected_carries now k g st x c : resuming now k x c → sent_by k c = [] → paced now c x (attempts x - 1) → carries now k c (connected now k g st x c).
Proof.
  intros Hr Hs Hp. unfold connected. set (id := lastId c + 1). set (c1 := with_id id c).
  assert (M1 : moved now k c c1).
  { split; try done; [apply Hr|apply evolves_refl| |].
    - simpl. intros i Hi. pose proof (rs_ids _ _ _ _ Hr i Hi). unfold id. lia.
    - exists []. rewrite app_nil_r. split; [done|]. intros w Hw. by apply elem_of_nil in Hw. }
  assert (Hfresh : id ∉ (promises (correlation c1)).*1).
  { intros Hi. pose proof (rs_ids _ _ _ _ Hr id Hi). unfold id in *. lia. }
  pose proof (moved_resuming _ _ x _ _ M1 Hr) as Hr1. assert (Hs1 : sent_by k c1 = []) by exact Hs. assert (Hp1 : paced now c1 x (attempts x - 1)) by exact Hp.
  assert (Hid : id = lastId c1) by done. clearbody c1. clearbody id. apply (carries_after _ _ _ _ _ M1). clear Hr Hs Hp M1 c.
  destruct (args (request x)) as [b|]; [|apply caught_carries; auto].
  set (m := request_message now id b x c1). destruct (oneWay (request x)) eqn:How.
  - destruct st as [e|]; [apply caught_carries; auto|].
    eapply carries_after; [apply (moved_put now k g m); apply Hr1|]. eapply (carries_call _ _ x); [|done|done|apply Hr1|].
    + eapply moved_resuming; [apply moved_put; apply Hr1|done].
    + unfold phase_ok. simpl. split; [by right|]. exists g, m. rewrite sent_put, Hs1. done.
  - case_bool_decide as Hd; [apply caught_carries; auto|]. unfold sendAndAwait.
    assert (Hc : correlationId m = id) by done. destruct st as [e|].
    + destruct (failed_send_evolves now id (Some (deadline x - now)) None e (correlation c1) ltac:(apply Hr1) Hfresh) as [F1 F2].
      rewrite Hc. cbn [register fst snd] in F1, F2 |- *.
      assert (M2 : moved now k c1 (with_table (fail id e (register now id (Some (deadline x - now)) None (correlation c1)).1).1 c1)).
      { apply moved_table; [done|done|]. intros i. unfold fail. destruct (jm_get _ _); cbn [fst]; rewrite ?settle_entry_ids; unfold register; simpl;
          rewrite fmap_app; (intros [Hi|Hi%list_elem_of_singleton]%elem_of_app; [by apply Hr1|simpl in Hi; lia]). }
      eapply carries_after; [exact M2|]. apply caught_carries; [by eapply moved_resuming|left; exact Hs1|exact Hp1].
    + cbn [register]. rewrite Hc. set (t := mkTable _ _ _).
      assert (Ht : t = (register now id (Some (deadline x - now)) None (correlation c1)).1) by done.
      assert (M2 : moved now k c1 (with_table t c1)).
      { apply moved_table; [rewrite Ht; apply register_ok; [apply Hr1|done]|rewrite Ht; apply register_evolves|].
        intros i. simpl. rewrite fmap_app. intros [Hi|Hi%list_elem_of_singleton]%elem_of_app; [by apply Hr1|]. simpl in Hi. lia. }
      assert (Htab : table_ok (correlation (with_table t c1)) ∧ ∀ i, i ∈ (promises (correlation (with_table t c1))).*1 → i <= lastId (with_table t c1))
        by (split; apply M2).
      assert (M3 : moved now k c1 (put_on_wire k g m (with_table t c1))) by (eapply moved_trans; [exact M2|]; apply moved_put; apply Htab).
      eapply carries_after; [exact M3|]. eapply (carries_call _ _ x); [by eapply moved_resuming|done|done|apply Hr1|].
      unfold phase_ok. simpl. split; [exact Hp1|]. exists g, m, None. rewrite sent_put. split; [unfold sent_by in *; simpl; by rewrite Hs1|].
      split; [rewrite lookup_app_r, Nat.sub_diag by lia; by rewrite Hc|]. split; [|done]. intros _. exists (deadline x - now). apply elem_of_app. right.
      apply list_elem_of_singleton. rewrite Hc. f_equal. f_equal. f_equal. lia.
Qed.

Lemma resuming_of now k x c : client_ok now c → calls c !! k = Some x → resuming now k x c.
Proof.
  intros Hok Hk. destruct (ok_calls _ _ Hok k x Hk) as [H1 H2 H3 _]. split; try done; [apply Hok|apply Hok|by eapply lookup_lt_Some].
Qed.
Lemma carried now k c c' : client_ok now c → carries now k c c' → client_ok now c'.
Proof. intros Hok [Hm (x & Hx & Hc)]. by eapply client_moves. Qed.

Lemma resume_ok now listed de st k c : client_ok now c → client_ok now (resume now listed de st k c).
Proof.
  intros Hok. unfold resume. destruct (calls c !! k) as [x|] eqn:Hk; [|done]. pose proof (resuming_of _ _ _ _ Hok Hk) as Hr.
  pose proof (ck_phase _ _ _ _ (ok_calls _ _ Hok k x Hk)) as Hph. unfold phase_ok in Hph. destruct (phase x) as [u| |g d|g p|g|r] eqn:Hx.
  - case_bool_decide as Hu; [|done]. destruct Hph as (Hs & Hf & Hp & Hmin & _). apply (carried now k c); [done|]. apply choose_carries; simpl.
    + destruct Hr as [R1 R2 R3 R4 R5 R6]. split; simpl; try done. unfold MINIMUM_INTERCONNECT_DELAY_MS, MAX_INTERCONNECT_DELAY_MS in *. lia.
    + done.
    + right. destruct Hp as (P1 & P2 & P3). unfold paced. simpl. repeat split; try done; lia.
  - destruct Hph as [Hs Hp]. apply (carried now k c); [done|]. destruct listed as [e|l].
    + eapply (carries_call _ _ x); [done|done|done|apply Hr|]. unfold phase_ok. simpl. rewrite Hs. split; [by apply paced_done|simpl; lia].
    + destruct (next (refresh l (gateways c))) as [gs gateway]. eapply carries_after; [apply (same_calls_moved now k c (with_gateways gs c)); [apply Hr|apply Hr|done]|].
      apply attempt_carries; [|done|done]. apply (same_calls_resuming now k _ c); [done|]. destruct Hr as [R1 R2 R3 R4 R5 R6]. by split.
  - destruct Hph as [Hs Hp]. destruct (dial_state <$> dials (pool c) !! d) as [[]|]; try done; apply (carried now k c); try done.
    + by apply connected_carries.
    + apply caught_carries; auto.
    + by apply connected_carries.
  - destruct Hph as (Hp & g' & m & o & Hs & Hpr & Hopen & Hrej). rewrite Hpr. destruct o as [[m'|e]|]; [| |done].
    + apply (carried now k c); [done|]. eapply (carries_call _ _ x); [done|done|done|apply Hr|]. unfold phase_ok. simpl.
      split; [by right|]. exists g', m. split; [done|]. symmetry. by eapply (tk_reply _ (ok_table _ _ Hok)).
    + apply (carried now k c); [done|]. apply caught_carries; [done| |done]. right. split; [by eapply Hrej|]. rewrite Hs. simpl. lia.
  - destruct Hph as (Hs & Hf & Hp). apply (carried now k c); [done|]. by apply loop_top_carries.
  - done.
Qed.

Lemma client_ok_later now now' c : now <= now' → client_ok now c → client_ok now' c.
Proof.
  intros Hn [H1 H2 H3 H4]. split; try done. intros k x Hk. eapply call_ok_later; [exact Hn|done|apply evolves_refl|done|done|by apply H4].
Qed.
Lemma client_ok_same now c c' : client_ok now c → same_calls c c' → client_ok now c'.
Proof.
  intros [H1 H2 H3 H4] (E1 & E2 & E3 & E4 & E5). split; rewrite ?E2, ?E3, ?E4, ?E5; try done. intros k x Hk.
  eapply call_ok_later; [reflexivity|done|rewrite E2; apply evolves_refl|unfold sent_by; by rewrite E5|done|by apply H4].
Qed.
Lemma client_ok_table now c t : client_ok now c → table_ok t → evolves now (correlation c) t → (promises t).*1 = (promises (correlation c)).*1 →
  client_ok now (with_table t c).
Proof.
  intros [H1 H2 H3 H4] Ht He Hi. split; simpl; try done; [by rewrite Hi|]. intros k x Hk. apply (call_ok_later now now c); [lia|done|done|done|done|by apply H4].
Qed.

Lemma invoke_ok now r c : client_ok now c → client_ok now (invoke now r c).
Proof.
  intros Hok. unfold invoke. set (k := length (calls c)). set (x := mkCall r now _ false None _ false 0 Refreshing). set (c1 := mkClient _ _ _ _ _ _ _ _).
  assert (Hr : resuming now k x c1).
  { split; simpl; try done; [apply Hok|apply Hok|rewrite length_app; simpl; unfold k; lia]. }
  assert (Hs : sent_by k c1 = []).
  { unfold sent_by. simpl. destruct (filter _ _) as [|w l] eqn:Hf; [done|]. assert (Hw : w ∈ filter (λ w, w.1.1 = k) (wire c)) by (rewrite Hf; left).
    apply list_elem_of_filter in Hw as [Hwk Hw]. apply (ok_wire _ _ Hok) in Hw. unfold k in Hwk. lia. }
  assert (Hold : ∀ j y, j ≠ k → calls c1 !! j = Some y → call_ok now c1 j y).
  { intros j y Hj Hy. simpl in Hy. apply lookup_app_Some in Hy as [Hy|[Hlen Hy]].
    - apply (call_ok_later now now c); [lia|done|apply evolves_refl|done|apply Hok|by apply (ok_calls _ _ Hok)].
    - apply list_lookup_singleton_Some in Hy as [Hy _]. unfold k in Hj. lia. }
  destruct (choose_carries now k x c1 Hr Hs ltac:(left; split; [done|simpl; lia])) as [Hm (y & Hy & Hcy)].
  change (loop_top now k x c1) with (choose now k x c1). pose proof Hm as [M1 M2 M3 M4 (ws & M5 & M5') M6 M7]. split; [done|done| |].
  - intros w. rewrite M5, M7. simpl. rewrite length_app. simpl. intros [Hw|Hw]%elem_of_app; [apply (ok_wire _ _ Hok) in Hw; lia|].
    rewrite (M5' w Hw). unfold k. lia.
  - intros j z Hj. destruct (decide (j = k)) as [->|Hne]; [rewrite Hy in Hj; by injection Hj as <-|]. rewrite M6 in Hj by done.
    eapply call_ok_later; [reflexivity|done|done|by eapply sent_other|apply Hok|by apply Hold].
Qed.

Lemma client_step_ok now l c : client_ok now c → client_ok now (client_step now l c).
Proof.
  intros Hok. destruct l as [l|r|k listed de st|m|p|d|d|d|]; cbn [client_step].
  - apply (client_ok_same now c); [done|]. unfold connect_client. destruct (next _) as [g [s|]]; done.
  - by apply invoke_ok.
  - by apply resume_ok.
  - unfold onMessage. case_bool_decide; [|done]. apply client_ok_table; [done|apply complete_ok, Hok|apply complete_evolves, Hok|].
    unfold complete. destruct (jm_get _ _); [apply settle_entry_ids|done].
  - apply client_ok_table; [done|apply timer_fires_ok, Hok|apply timer_fires_evolves, Hok|].
    unfold timer_fires. destruct (jm_get p _) as [[k [due ms]]|]; [|done]. case_bool_decide; [apply ids_settle|done].
  - by apply (client_ok_same now c).
  - by apply (client_ok_same now c).
  - by apply (client_ok_same now c).
  - by apply (client_ok_same now c).
Qed.

Lemma caught_timeout now k g e x c : callTimeoutMs (caught now k g e x c) = callTimeoutMs c.
Proof. unfold caught. by case_bool_decide. Qed.
Lemma attempt_timeout k g x c : callTimeoutMs (attempt k g x c) = callTimeoutMs c.
Proof. unfold attempt. destruct g as [s|]; [|done]. by destruct (get s (pool c)). Qed.
Lemma choose_timeout now k x c : callTimeoutMs (choose now k x c) = callTimeoutMs c.
Proof.
  unfold choose. case_bool_decide; [done|]. destruct (next (gateways c)) as [g [s|]]; [by rewrite attempt_timeout|]. by destruct (refreshed x); rewrite ?attempt_timeout.
Qed.
Lemma client_step_timeout now l c : callTimeoutMs (client_step now l c) = callTimeoutMs c.
Proof.
  destruct l as [l|r|k listed de st|m|p|d|d|d|]; cbn [client_step]; try done.
  - unfold connect_client. by destruct (next _) as [g [s|]].
  - unfold invoke, loop_top. simpl. by rewrite choose_timeout.
  - unfold resume. destruct (calls c !! k) as [x|]; [|done]. destruct (phase x) as [u| |g d|g p|g|r]; [| | | | |done].
    + case_bool_decide; [|done]. apply choose_timeout.
    + destruct listed; [done|]. destruct (next _). by rewrite attempt_timeout.
    + destruct (dial_state <$> dials (pool c) !! d) as [[]|]; try done; [|apply caught_timeout|]; unfold connected, sendAndAwait; simpl;
        (destruct (args (request x)); [|by rewrite caught_timeout]); (destruct (oneWay (request x)); [destruct st; by rewrite ?caught_timeout|]);
        (case_bool_decide; [by rewrite caught_timeout|]); destruct st; by rewrite ?caught_timeout.
    + destruct (promises (correlation c) !! p) as [[i [[]|]]|]; try done. apply caught_timeout.
    + unfold loop_top. destruct (hadFailure x); [by case_bool_decide|apply choose_timeout].
  - unfold onMessage. by case_bool_decide.
Qed.

Lemma client_run_ok timeoutMs self ls : let '(now, c) := client_run timeoutMs self ls in client_ok now c ∧ callTimeoutMs c = timeoutMs.
Proof.
  unfold client_run. set (s0 := (0, mkClient timeoutMs self (mkGateways [] 0) new_manager new_table 0 [] [])).
  assert (H0 : client_ok s0.1 s0.2).
  { split; simpl; [apply new_table_ok|intros i Hi; by apply elem_of_nil in Hi|intros w Hw; by apply elem_of_nil in Hw|done]. }
  induction ls as [|[dt l] ls IH] using rev_ind; [done|].
  rewrite foldl_app. cbn [foldl fst snd]. destruct (foldl _ s0 ls) as [now c]. destruct IH as [I1 I2]. split.
  - apply client_step_ok. apply (client_ok_later now); [simpl; lia|done].
  - by rewrite client_step_timeout.
Qed.

(** ** What a call comes to *)

(** C29: A call is sent once. Whatever fails and however calls share connections:
    no call puts its request on the wire twice, over all its attempts, and what a
    call returns is a response with the id of the one request it sent. *)
Theorem request_sent_once timeoutMs self ls k x :
  let '(now, c) := client_run timeoutMs self ls in
  calls c !! k = Some x →
  (length (sent_by k c) <= 1)%nat ∧
  (∀ m, phase x = Done (Returned m) → ∃ g q, sent_by k c = [(k, g, q)] ∧ correlationId q = correlationId m) ∧
  (phase x = Done Sent → ∃ g q, sent_by k c = [(k, g, q)] ∧ oneWay (request x) = true).
Proof.
  pose proof (client_run_ok timeoutMs self ls) as Hok. destruct (client_run timeoutMs self ls) as [now c]. destruct Hok as [Hok _].
  intros Hk. pose proof (ck_phase _ _ _ _ (ok_calls _ _ Hok k x Hk)) as Hph. unfold phase_ok in Hph. split; [|split].
  - destruct (phase x) as [u| |g d|g p|g|[m| |e]]; try (destruct Hph as [Hs _]; rewrite Hs; simpl; lia).
    + destruct Hph as (_ & g' & m & o & Hs & _). rewrite Hs. simpl. lia.
    + destruct Hph as (_ & g' & q & Hs & _). rewrite Hs. simpl. lia.
    + destruct Hph as (_ & g' & q & Hs & _). rewrite Hs. simpl. lia.
    + by destruct Hph.
  - intros m Hm. rewrite Hm in Hph. by destruct Hph.
  - intros Hm. rewrite Hm in Hph. by destruct Hph.
Qed.

(** Attempts are bounded by the budget. A call makes its attempts at least the
    least delay apart, and so no more of them than fit in its time budget, whatever
    the gateways do and however the backoff grows. *)
Theorem attempts_fit_budget timeoutMs self ls k x :
  let '(now, c) := client_run timeoutMs self ls in
  calls c !! k = Some x →
  attempts x = 0 ∨
  MINIMUM_INTERCONNECT_DELAY_MS * (attempts x - 1) < timeoutMs ∧
  started x + MINIMUM_INTERCONNECT_DELAY_MS * (attempts x - 1) <= now.
Proof.
  pose proof (client_run_ok timeoutMs self ls) as Hok. destruct (client_run timeoutMs self ls) as [now c]. destruct Hok as [Hok <-].
  intros Hk. pose proof (ck_phase _ _ _ _ (ok_calls _ _ Hok k x Hk)) as Hph.
  assert (Hp : attempts x = 0 ∨ paced now c x (attempts x - 1)).
  { unfold phase_ok in Hph. destruct (phase x) as [u| |g d|g p|g|r]; try (right; naive_solver); [|by destruct Hph].
    destruct Hph as [_ Hp]. by apply paced_done. }
  destruct Hp as [Hp|(H1 & H2 & _)]; [by left|by right].
Qed.

(** *** The end of a call *)

Definition is_done (x : Call) : Prop := match phase x with Done _ => True | _ => False end.
(** What it waits for has happened; the timer of a reply is not waited for. *)
Definition awaited (x : Call) (c : ClientNode) : Prop :=
  match phase x with
  | Connecting _ d => ∃ s, dial_state <$> dials (pool c) !! d = Some s ∧ s ≠ Dialing
  | _ => True
  end.
Definition after_timer (now : Z) (x : Call) (c : ClientNode) : ClientNode :=
  match phase x with Awaiting _ p => client_step now (Timer p) c | _ => c end.

Lemma done_call k (P : Call → Prop) y c : (k < length (calls c))%nat → is_done y → ∃ z, calls (with_call k y c) !! k = Some z ∧ (is_done z ∨ P z).
Proof. intros Hk Hy. exists y. split; [by apply list_lookup_insert_eq|by left]. Qed.

Lemma caught_late now k g e x c (P : Call → Prop) : (k < length (calls c))%nat → deadline x <= now → ∃ z, calls (caught now k g e x c) !! k = Some z ∧ (is_done z ∨ P z).
Proof. intros Hk Hd. unfold caught. rewrite bool_decide_true by done. by apply (done_call _ (λ y, _)). Qed.

Lemma connected_late now k g st x c (P : Call → Prop) : (k < length (calls c))%nat → deadline x <= now →
  ∃ z, calls (connected now k g st x c) !! k = Some z ∧ (is_done z ∨ P z).
Proof.
  intros Hk Hd. unfold connected. destruct (args (request x)); [|by apply (caught_late _ _ _ _ _ _ (λ y, _))]. destruct (oneWay (request x)).
  - destruct st; [by apply (caught_late _ _ _ _ _ _ (λ y, _))|by apply (done_call _ (λ y, _))].
  - rewrite bool_decide_true by lia. by apply (caught_late _ _ _ _ _ _ (λ y, _)).
Qed.

(** A call ends with its budget. Once the time budget of a call has passed, the
    next time it resumes is the last, or, if it was waiting for the list of
    gateways, the one before the last; the timer of its reply lets it resume. Only
    a dial that comes to nothing holds it longer. *)
Theorem call_ends_at_deadline timeoutMs self ls k x listed dialError st :
  let '(now, c) := client_run timeoutMs self ls in
  calls c !! k = Some x → ¬ is_done x → deadline x <= now → awaited x c →
  ∃ y, calls (resume now listed dialError st k (after_timer now x c)) !! k = Some y ∧
    (is_done y ∨ phase x = Refreshing ∧ ∃ g d, phase y = Connecting g d).
Proof.
  pose proof (client_run_ok timeoutMs self ls) as Hok. destruct (client_run timeoutMs self ls) as [now c]. destruct Hok as [Hok _].
  intros Hk Hnd Hd Haw. pose proof (ck_phase _ _ _ _ (ok_calls _ _ Hok k x Hk)) as Hph. pose proof (lookup_lt_Some _ _ _ Hk) as Hlen.
  unfold is_done in Hnd. unfold resume, after_timer, awaited, phase_ok in *.
  destruct (phase x) as [u| |g d|g p|g|r] eqn:Hx; rewrite ?Hk, ?Hx; [| | | | |by destruct Hnd].
  - destruct Hph as (_ & _ & _ & _ & Hu). rewrite bool_decide_true by lia. unfold choose. simpl. rewrite bool_decide_true by lia. by apply (done_call _ (λ y, _)).
  - destruct listed as [e|l]; [by apply (done_call _ (λ y, _))|]. destruct (next (refresh l (gateways c))) as [gs [s|]]; simpl; [|by apply (done_call _ (λ y, _))].
    destruct (get s (pool c)) as [p d]. eexists. split; [by apply list_lookup_insert_eq|]. right. split; [done|]. by eexists _, _.
  - destruct Haw as (s & -> & Hs). destruct s; [done|by apply (connected_late _ _ _ _ _ _ (λ y, _))|by apply (caught_late _ _ _ _ _ _ (λ y, _))|by apply (connected_late _ _ _ _ _ _ (λ y, _))].
  - destruct Hph as (_ & g' & m & o & _ & Hpr & Hopen & _). cbn [client_step calls correlation with_table]. rewrite Hk, Hx.
    destruct (timer_fires_evolves now p (correlation c) (ok_table _ _ Hok) p _ o Hpr) as (o' & Hpr' & Ho' & Htm). rewrite Hpr'.
    destruct o' as [[m'|e]|]; [by apply (done_call _ (λ y, _))|by apply (caught_late _ _ _ _ _ _ (λ y, _))|].
    exfalso. destruct o as [y|]; [by discriminate (Ho' ltac:(by eexists))|]. destruct (Hopen eq_refl) as (ms & Hin).
    apply (jm_elem_get _ _ _ (tk_one _ (ok_table _ _ Hok))) in Hin. unfold timer_fires in Hpr'. rewrite Hin, bool_decide_true in Hpr' by done.
    simpl in Hpr'. rewrite list_lookup_alter, decide_True, Hpr in Hpr' by done. done.
  - unfold loop_top. destruct Hph as (_ & -> & _). rewrite bool_decide_true by lia. by apply (done_call _ (λ y, _)).
Qed.

(** ** Runs *)

Module Runs.
Definition A : SiloAddress := mkSilo "gw-a" "u" "10.0.0.1:1".
Definition B : SiloAddress := mkSilo "gw-b" "u" "10.0.0.2:1".
Definition me : SiloAddress := mkSilo "client" "c" "client:c".
Definition call (a : option string) : ClientRequest := mkRequest (mkGrainId "t" (KString "k")) false None 1 "m" None a.
Definition reply (id : Z) : Message := mkMessage id Response (mkGrainId "t" (KString "k")) None None 1 None "m" (Some Success) None None "".
Definition resumes (k : nat) : Label := Resume k (inr []) (OtherError "dial") None.

(** One call, sent over the connection that [connect] dialled. *)
Definition asked : list (Z * Label) := [(0, ConnectClient [A; B]); (0, ConnectClient [A]); (1, Invoke (call (Some "x"%string))); (1, DialOpens' 0); (1, resumes 0)].
Definition answered : list (Z * Label) := asked ++ [(5, Arrives (reply 1)); (0, resumes 0)].

Lemma request_sent_once_witness :
  ∃ x, calls (client_run 1000 me answered).2 !! 0%nat = Some x ∧ phase x = Done (Returned (reply 1)) ∧
    (length (sent_by 0 (client_run 1000 me answered).2) <= 1)%nat ∧
    ∃ g q, sent_by 0 (client_run 1000 me answered).2 = [(0%nat, g, q)] ∧ correlationId q = 1.
Proof.
  assert (Hx : ∃ x, calls (client_run 1000 me answered).2 !! 0%nat = Some x ∧ phase x = Done (Returned (reply 1))) by (vm_compute; eexists; split; reflexivity).
  destruct Hx as (x & Hk & Hx). exists x. split; [exact Hk|]. split; [exact Hx|].
  pose proof (request_sent_once 1000 me answered 0 x) as T. destruct (client_run 1000 me answered) as [now c]. simpl in *.
  destruct (T Hk) as (T1 & T2 & _). split; [exact T1|]. exact (T2 (reply 1) Hx).
Defined.

(** Three attempts on gateways that cannot be dialled. *)
Definition fails_over : list (Z * Label) :=
  [(0, ConnectClient [A]); (1, DialFails' 0); (0, Invoke (call (Some "x"%string))); (1, DialFails' 1); (0, resumes 0); (0, resumes 0); (100, resumes 0);
   (1, Resume 0 (inr [A; B]) (OtherError "dial") None)].
Lemma attempts_fit_budget_witness :
  ∃ x, calls (client_run 1000 me fails_over).2 !! 0%nat = Some x ∧ attempts x = 2 ∧
    (attempts x = 0 ∨ MINIMUM_INTERCONNECT_DELAY_MS * (attempts x - 1) < 1000 ∧
       started x + MINIMUM_INTERCONNECT_DELAY_MS * (attempts x - 1) <= (client_run 1000 me fails_over).1).
Proof.
  assert (Hx : ∃ x, calls (client_run 1000 me fails_over).2 !! 0%nat = Some x ∧ attempts x = 2) by (vm_compute; eexists; split; reflexivity).
  destruct Hx as (x & Hk & Hx). exists x. split; [exact Hk|]. split; [exact Hx|].
  pose proof (attempts_fit_budget 1000 me fails_over 0 x) as T. destruct (client_run 1000 me fails_over) as [now c]. exact (T Hk).
Defined.

(** The reply does not come. *)
Definition unanswered : list (Z * Label) := asked ++ [(5000, ConnectClient [A])].
Lemma call_ends_at_deadline_witness :
  ∃ x, calls (client_run 1000 me unanswered).2 !! 0%nat = Some x ∧ phase x = Awaiting A 0 ∧
    ∃ y, calls (resume (client_run 1000 me unanswered).1 (inr []) (OtherError "dial") None 0 (after_timer (client_run 1000 me unanswered).1 x (client_run 1000 me unanswered).2)) !! 0%nat = Some y ∧
      (is_done y ∨ phase x = Refreshing ∧ ∃ g d, phase y = Connecting g d).
Proof.
  assert (Hx : ∃ x, calls (client_run 1000 me unanswered).2 !! 0%nat = Some x ∧ phase x = Awaiting A 0 ∧ deadline x = 1001 ∧ (client_run 1000 me unanswered).1 = 5003)
    by (vm_compute; eexists; repeat split; reflexivity).
  destruct Hx as (x & Hk & Hx & Hd & Hn). exists x. split; [exact Hk|]. split; [exact Hx|].
  pose proof (call_ends_at_deadline 1000 me unanswered 0 x (inr []) (OtherError "dial") None) as T. destruct (client_run 1000 me unanswered) as [now c]. simpl in *.
  apply (T Hk).
  - unfold is_done. rewrite Hx. by intros [].
  - lia.
  - unfold awaited. by rewrite Hx.
Defined.

Definition phases (ls : list (Z * Label)) : list Phase := phase <$> calls (client_run 1000 me ls).2.

(** A gateway that does not answer stays in rotation: the reply's deadline is the
    whole budget, so that the call ends instead of trying the next gateway. *)
Theorem silent_gateway_stays :
  let ls := asked ++ [(1000, Timer 0); (0, resumes 0)] in
  phases ls = [Done (Threw (GrainCallTimeoutError "grain call timed out after 1000ms (1 attempt made)"))] ∧
  live (gateways (client_run 1000 me ls).2) = [A].
Proof. vm_compute. split; reflexivity. Qed.

(** A call whose connection is lost goes on waiting for its reply. *)
Theorem lost_connection_not_told :
  phases (asked ++ [(1, ConnLost' 0); (500, resumes 0)]) = [Awaiting A 0].
Proof. vm_compute. reflexivity. Qed.

(** A dial that comes to nothing holds a call past its budget. *)
Theorem hung_dial_outlasts_budget :
  phases [(0, ConnectClient [A]); (0, Invoke (call (Some "x"%string))); (100000, resumes 0)] = [Connecting A 0].
Proof. vm_compute. reflexivity. Qed.

(** Arguments that cannot be serialized count as an unreachable gateway: one after
    the other is marked dead, and the connection of another call is closed. *)
Theorem unserializable_kills_gateways :
  let ls := asked ++ [(1, Invoke (call None)); (0, resumes 1)] in
  let c := (client_run 1000 me ls).2 in
  live (gateways c) = [] ∧ (closing <$> dials (pool c)) = [true] ∧ phases ls = [Awaiting A 0; Closing A].
Proof. vm_compute. split; [reflexivity|split; reflexivity]. Qed.
End Runs.
