(* ===== verification/Persistence.v ===== *)
(** * Persistent state

    Models [packages/persistence/src/persistent-state-impl.ts] (the class
    [PersistentStateImpl]), [reducer-state-impl.ts] ([ReducerStateImpl]) and
    [memory-grain-storage.ts] (the class [MemoryGrainStorage]): the states of
    grains over one store, whose writes are conditional on the etag last read.

    Values are a parameter. A stored value is a clone of the grain's, so that
    values can be immutable here. A storage call takes effect at once; what the
    state does after its await is a step of its own, and the grain may run in
    between. *)
From Stdlib Require Import String.
From stdpp Require Import prelude gmap strings list.
From S2P Require Import Prelude JsMap Ids.
Open Scope Z_scope.

Section persistence.
Context {V : Type} (defaultValue : V).

(** ** The store *)

Record StateHolder := mkHolder { value : V; etag : option string; exists_ : bool }.
Record MemoryGrainStorage := mkStorage { records : list (string * (V * string)); etagCounter : Z }.

Definition record_key (stateName : string) (g : GrainId) : string := (GrainId_toString g +:+ "/" +:+ stateName)%string.

Record InconsistentStateError := mkInconsistent { expectedEtag : option string; storedEtag : option string }.

Definition isConflict (stored : option (V * string)) (expected : option string) : bool :=
  match stored with
  | Some r => bool_decide (Some r.2 ≠ expected)
  | None => match expected with Some e => bool_decide (e ≠ ""%string) | None => false end
  end.

Definition storage_read (key : string) (h : StateHolder) (s : MemoryGrainStorage) : StateHolder :=
  match jm_get key (records s) with
  | None => mkHolder (value h) None false
  | Some (v, e) => mkHolder v (Some e) true
  end.
Definition storage_write (key : string) (h : StateHolder) (s : MemoryGrainStorage) : InconsistentStateError + (MemoryGrainStorage * StateHolder) :=
  let stored := jm_get key (records s) in
  if isConflict stored (etag h) then inl (mkInconsistent (etag h) (snd <$> stored))
  else
    let n := etagCounter s + 1 in
    let e := bigint_toString n in
    inr (mkStorage (jm_set key (value h, e) (records s)) n, mkHolder (value h) (Some e) true).
Definition storage_clear (key : string) (h : StateHolder) (s : MemoryGrainStorage) : InconsistentStateError + (MemoryGrainStorage * StateHolder) :=
  let stored := jm_get key (records s) in
  if isConflict stored (etag h) then inl (mkInconsistent (etag h) (snd <$> stored))
  else inr (mkStorage (jm_delete key (records s)) (etagCounter s), mkHolder (value h) None false).

(** ** The states of grains *)

(** What a state does once its storage call returned. *)
Inductive After := AfterRead | AfterClear.
Record PersistentState := mkState { stateName : string; grainId : GrainId; holder : StateHolder; after : list After }.
Definition new_state (name : string) (g : GrainId) : PersistentState := mkState name g (mkHolder defaultValue None false) [].
Definition state_key (p : PersistentState) : string := record_key (stateName p) (grainId p).
Definition with_holder (h : StateHolder) (p : PersistentState) : PersistentState := mkState (stateName p) (grainId p) h (after p).
Definition with_after (l : list After) (p : PersistentState) : PersistentState := mkState (stateName p) (grainId p) (holder p) l.

Definition set_value (v : V) (p : PersistentState) : PersistentState :=
  with_holder (mkHolder v (etag (holder p)) (exists_ (holder p))) p.

Definition finish (a : After) (p : PersistentState) : PersistentState :=
  match a with
  | AfterRead => if exists_ (holder p) then p else set_value defaultValue p
  | AfterClear => set_value defaultValue p
  end.

(** A migration bag: the entry of one state, under its migration key. *)
Definition migrationKey (p : PersistentState) : string := ("persistentState:" +:+ stateName p)%string.
Definition onDehydrate (p : PersistentState) : string * StateHolder := (migrationKey p, holder p).
Definition onRehydrate (bag : string * StateHolder) (p : PersistentState) : PersistentState :=
  if bool_decide (bag.1 = migrationKey p) then with_holder bag.2 p else p.

(** [ReducerStateImpl.raise]. *)
Definition raise {E : Type} (reduce : V → E → V) (e : E) (p : PersistentState) : PersistentState := set_value (reduce (value (holder p)) e) p.

(** ** Many states over one store *)

(** With each state, and each bag, the record its last successful call left it with:
    what it knows of the store. With the store, every version it ever wrote. *)
Record World := mkWorld {
  store : MemoryGrainStorage;
  states : list (PersistentState * option (V * string));
  bags : list (GrainId * (string * StateHolder) * option (V * string));
  versions : list (string * V) }.

Inductive Op :=
  | NewState (name : string) (g : GrainId)
  | SetValue (i : nat) (v : V)
  | Read (i : nat)
  | Write (i : nat)
  | Clear (i : nat)
  | Finish (i : nat)
  | Dehydrate (i : nat)
  | Rehydrate (i b : nat).

Definition with_state (i : nat) (p : PersistentState) (seen : option (V * string)) (w : World) : World :=
  mkWorld (store w) (<[i := (p, seen)]> (states w)) (bags w) (versions w).
Definition with_store (s : MemoryGrainStorage) (w : World) : World := mkWorld s (states w) (bags w) (versions w).

Definition world_step (o : Op) (w : World) : World :=
  match o with
  | NewState name g => mkWorld (store w) (states w ++ [(new_state name g, None)]) (bags w) (versions w)
  | SetValue i v => match states w !! i with Some (p, seen) => with_state i (set_value v p) seen w | None => w end
  | Read i =>
      match states w !! i with
      | Some (p, _) =>
          with_state i (with_after (after p ++ [AfterRead]) (with_holder (storage_read (state_key p) (holder p) (store w)) p))
            (jm_get (state_key p) (records (store w))) w
      | None => w
      end
  | Write i =>
      match states w !! i with
      | Some (p, _) =>
          match storage_write (state_key p) (holder p) (store w) with
          | inl _ => w
          | inr (s, h) =>
              let w := with_state i (with_holder h p) (jm_get (state_key p) (records s)) (with_store s w) in
              mkWorld (store w) (states w) (bags w) (versions w ++ [(state_key p, value h)])
          end
      | None => w
      end
  | Clear i =>
      match states w !! i with
      | Some (p, _) =>
          match storage_clear (state_key p) (holder p) (store w) with
          | inl _ => w
          | inr (s, h) => with_state i (with_after (after p ++ [AfterClear]) (with_holder h p)) None (with_store s w)
          end
      | None => w
      end
  | Finish i =>
      match states w !! i with
      | Some (p, seen) => match after p with a :: l => with_state i (finish a (with_after l p)) seen w | [] => w end
      | None => w
      end
  | Dehydrate i =>
      match states w !! i with
      | Some (p, seen) => mkWorld (store w) (states w) (bags w ++ [(grainId p, onDehydrate p, seen)]) (versions w)
      | None => w
      end
  | Rehydrate i b =>
      match states w !! i, bags w !! b with
      | Some (p, seen), Some (g, bag, bseen) =>
          if bool_decide (g = grainId p) then with_state i (onRehydrate bag p) (if bool_decide (bag.1 = migrationKey p) then bseen else seen) w else w
      | _, _ => w
      end
  end.
Definition world_run (ops : list Op) : World := foldl (λ w o, world_step o w) (mkWorld (mkStorage [] 0) [] [] []) ops.

(** ** What a state knows *)

(** A version of a record: its etag is the number of its write. *)
Definition version_ok (vs : list (string * V)) (key : string) (r : V * string) : Prop :=
  ∃ n : nat, vs !! n = Some (key, r.1) ∧ r.2 = bigint_toString (Z.of_nat n + 1).
Definition seen_ok (vs : list (string * V)) (key : string) (h : StateHolder) (seen : option (V * string)) : Prop :=
  etag h = snd <$> seen ∧ exists_ h = bool_decide (is_Some seen) ∧ ∀ r, seen = Some r → version_ok vs key r.

Record world_ok (w : World) : Prop := {
  wk_keys : jm_ok (records (store w));
  wk_counter : etagCounter (store w) = Z.of_nat (length (versions w));
  wk_records : ∀ k r, jm_get k (records (store w)) = Some r → version_ok (versions w) k r;
  wk_states : ∀ i p seen, states w !! i = Some (p, seen) → seen_ok (versions w) (state_key p) (holder p) seen;
  wk_bags : ∀ b g bag seen, bags w !! b = Some (g, bag, seen) → ∃ name, bag.1 = ("persistentState:" +:+ name)%string ∧
    seen_ok (versions w) (record_key name g) bag.2 seen }.

Lemma bigint_toString_nonempty a : bigint_toString a ≠ ""%string.
Proof. intros H. pose proof (int_of_bigint_toString a) as Ha. by rewrite H in Ha. Qed.

(** The store and a state agree on the etag when they agree on the record. *)
Lemma conflict_iff vs key h seen stored : seen_ok vs key h seen → (∀ r, stored = Some r → version_ok vs key r) →
  isConflict stored (etag h) = false ↔ stored = seen.
Proof.
  intros (He & _ & Hs) Hr. unfold isConflict. rewrite He. destruct stored as [[v e]|], seen as [[v' e']|]; cbn [fmap option_fmap option_map snd].
  - rewrite bool_decide_eq_false. split.
    + intros Hee%dec_stable. injection Hee as <-. destruct (Hr _ eq_refl) as (n & Hn & En). destruct (Hs _ eq_refl) as (m & Hm & Em). simpl in *.
      rewrite En in Em. apply bigint_toString_inj in Em. assert (n = m) as <- by lia. rewrite Hn in Hm. by injection Hm as <-.
    + intros [= <- <-]. naive_solver.
  - rewrite bool_decide_eq_false. split; [intros H%dec_stable; done|done].
  - rewrite bool_decide_eq_false. split; [|done]. intros Hne%dec_stable. destruct (Hs _ eq_refl) as (m & _ & Em). simpl in *. rewrite Em in Hne.
    by apply bigint_toString_nonempty in Hne.
  - done.
Qed.

Lemma version_later vs x key r : version_ok vs key r → version_ok (vs ++ [x]) key r.
Proof. intros (n & Hn & He). exists n. split; [by apply lookup_app_l_Some|done]. Qed.
Lemma seen_later vs x key h seen : seen_ok vs key h seen → seen_ok (vs ++ [x]) key h seen.
Proof. intros (H1 & H2 & H3). split; [done|]. split; [done|]. intros r Hr. by apply version_later, H3. Qed.

(** A state that changes, over a store and versions that do not. *)
Lemma with_state_ok i p p0 seen seen0 w : world_ok w → states w !! i = Some (p0, seen0) → seen_ok (versions w) (state_key p) (holder p) seen →
  world_ok (with_state i p seen w).
Proof.
  intros [H1 H2 H3 H4 H5] Hi Hp. split; simpl; try done. intros j q s. rewrite list_lookup_insert_Some.
  intros [(<- & [= <- <-] & _)|[_ Hj]]; [done|by eapply H4].
Qed.

Lemma world_step_ok o w : world_ok w → world_ok (world_step o w).
Proof.
  intros Hok. pose proof Hok as [H1 H2 H3 H4 H5]. destruct o as [name g|i v|i|i|i|i|i|i b]; simpl.
  - split; simpl; try done. intros i p seen [Hi|[_ Hi]]%lookup_app_Some; [by eapply H4|]. apply list_lookup_singleton_Some in Hi as [_ [= <- <-]].
    split; [done|]. split; [done|]. done.
  - destruct (states w !! i) as [[p seen]|] eqn:Hi; [|done]. eapply with_state_ok; [done|done|]. by apply (H4 i p seen).
  - destruct (states w !! i) as [[p seen]|] eqn:Hi; [|done]. eapply with_state_ok; [done|done|]. unfold storage_read. simpl.
    destruct (jm_get _ _) as [[v e]|] eqn:Hr; simpl; (split; [done|]); (split; [done|]); [|done]. intros r [= <-]. by apply H3.
  - destruct (states w !! i) as [[p seen]|] eqn:Hi; [|done]. unfold storage_write. destruct (isConflict _ _); [done|]. rewrite H2.
    assert (Hnew : version_ok (versions w ++ [(state_key p, value (holder p))]) (state_key p) (value (holder p), bigint_toString (Z.of_nat (length (versions w)) + 1))).
    { exists (length (versions w)). split; [by rewrite lookup_app_r, Nat.sub_diag by lia|done]. }
    split; simpl.
    + by apply jm_ok_set.
    + rewrite length_app. simpl. lia.
    + intros k r. rewrite jm_get_set. case_decide as Hk; [intros [= <-]; by subst|]. intros Hr. by apply version_later, H3.
    + intros j q s. rewrite list_lookup_insert_Some. intros [(<- & [= <- <-] & _)|[_ Hj]]; [|by eapply seen_later, H4].
      rewrite jm_get_set_eq. split; [done|]. split; [done|]. intros r [= <-]. exact Hnew.
    + intros b g bag s Hb. destruct (H5 b g bag s Hb) as (name & Hn & Hs). exists name. split; [done|]. by apply seen_later.
  - destruct (states w !! i) as [[p seen]|] eqn:Hi; [|done]. unfold storage_clear. destruct (isConflict _ _); [done|].
    split; simpl; try done.
    + by apply jm_ok_delete.
    + intros k r. rewrite jm_get_delete. case_decide; [done|apply H3].
    + intros j q s. rewrite list_lookup_insert_Some. intros [(<- & [= <- <-] & _)|[_ Hj]]; [|by eapply H4]. split; [done|]. by split.
  - destruct (states w !! i) as [[p seen]|] eqn:Hi; [|done]. destruct (after p) as [|a l]; [done|]. eapply with_state_ok; [done|done|].
    pose proof (H4 i p seen Hi) as Hs. destruct a; simpl; [|exact Hs]. by destruct (exists_ (holder p)) eqn:He.
  - destruct (states w !! i) as [[p seen]|] eqn:Hi; [|done]. split; simpl; try done. intros b g bag s [Hb|[_ Hb]]%lookup_app_Some; [by eapply H5|].
    apply list_lookup_singleton_Some in Hb as [_ [= <- <- <-]]. exists (stateName p). split; [done|]. by apply (H4 i p seen).
  - destruct (states w !! i) as [[p seen]|] eqn:Hi; [|done]. destruct (bags w !! b) as [[[g bag] bseen]|] eqn:Hb; [|done].
    case_bool_decide as Hg; [|done]. subst g. eapply with_state_ok; [done|done|]. unfold onRehydrate. case_bool_decide as Hk; [|by apply (H4 i p seen)].
    destruct (H5 b _ bag bseen Hb) as (name & Hn & Hs). assert (name = stateName p) as ->.
    { rewrite Hn in Hk. unfold migrationKey in Hk. by injection Hk. }
    exact Hs.
Qed.

Lemma world_run_ok ops : world_ok (world_run ops).
Proof.
  unfold world_run. assert (H0 : world_ok (mkWorld (mkStorage [] 0) [] [] [])) by (split; simpl; [apply jm_ok_nil|done..]).
  revert H0. generalize (mkWorld (mkStorage [] 0) [] [] []). induction ops as [|o ops IH]; intros w Hw; [done|]. simpl. by apply IH, world_step_ok.
Qed.
(** C30: No update is lost. Whichever states of whichever grains read, write, clear,
    migrate and are set over one store, with whatever in between: a write of a state
    succeeds exactly when the record is the one its last successful call left it
    with, or still missing as it was then; it replaces that record and no other, and
    otherwise it changes nothing and reports both etags. The same goes for a clear. *)
Theorem write_is_conditional ops i p seen :
  states (world_run ops) !! i = Some (p, seen) →
  let s := store (world_run ops) in
  let key := state_key p in
  let stored := jm_get key (records s) in
  (stored = seen → ∃ s' h e, storage_write key (holder p) s = inr (s', h) ∧ h = mkHolder (value (holder p)) (Some e) true ∧
     ∀ k, jm_get k (records s') = if decide (key = k) then Some (value (holder p), e) else jm_get k (records s)) ∧
  (stored = seen → ∃ s' h, storage_clear key (holder p) s = inr (s', h) ∧ h = mkHolder (value (holder p)) None false ∧
     ∀ k, jm_get k (records s') = if decide (key = k) then None else jm_get k (records s)) ∧
  (stored ≠ seen → storage_write key (holder p) s = inl (mkInconsistent (etag (holder p)) (snd <$> stored)) ∧
     storage_clear key (holder p) s = inl (mkInconsistent (etag (holder p)) (snd <$> stored))).
Proof.
  intros Hi s key stored. pose proof (world_run_ok ops) as Hok.
  pose proof (conflict_iff _ _ _ _ stored (wk_states _ Hok i p seen Hi) (wk_records _ Hok (state_key p))) as Hc.
  unfold storage_write, storage_clear. fold stored. destruct (isConflict stored (etag (holder p))).
  - assert (stored ≠ seen) as Hne by (intros H; by apply Hc in H). split; [done|]. split; [done|]. by split.
  - assert (stored = seen) as Heq by by apply Hc. split; [|split; [|done]].
    + intros _. eexists _, _, _. split; [done|]. split; [done|]. intros k. simpl. apply jm_get_set.
    + intros _. eexists _, _. split; [done|]. split; [done|]. intros k. simpl. by rewrite jm_get_delete.
Qed.

(** What is written is read back. After a write that succeeded, a read of that
    record gives any state the written value, the new etag and existence, as they
    are for the writer; a read of a missing record leaves no value of before it, once
    it has finished; and a migrated state is on its target what it was at its source. *)
Theorem written_state_read_back key h s s' h' other p q :
  storage_write key h s = inr (s', h') → stateName q = stateName p →
  storage_read key other s' = h' ∧ value h' = value h ∧ exists_ h' = true ∧
  holder (onRehydrate (onDehydrate p) q) = holder p ∧
  ∀ s0, jm_get (state_key q) (records s0) = None →
    holder (finish AfterRead (with_holder (storage_read (state_key q) (holder q) s0) q)) = mkHolder defaultValue None false.
Proof.
  unfold storage_write. destruct (isConflict _ _); [done|]. intros [= <- <-] Hn. split; [|split; [done|split; [done|split]]].
  - unfold storage_read. simpl. by rewrite jm_get_set_eq.
  - unfold onRehydrate, onDehydrate, migrationKey. cbn [fst snd]. rewrite Hn, bool_decide_true by reflexivity. reflexivity.
  - intros s0 Hs. unfold storage_read. by rewrite Hs.
Qed.
End persistence.

(** ** Runs *)

Module Runs.
Definition g : GrainId := mkGrainId "cart" (KString "1").
Definition ops : list (@Op Z) := [NewState "profile" g; NewState "profile" g; Read 0; Finish 0; Read 1; Finish 1; SetValue 0 5; Write 0; SetValue 1 7; Write 1].

(** Two activations of one grain: the second to write has not seen the first's write. *)
Lemma write_is_conditional_witness :
  ∃ p seen, states (world_run 0 ops) !! 1%nat = Some (p, seen) ∧ value (holder p) = 7 ∧
    storage_write (state_key p) (holder p) (store (world_run 0 ops)) = inl (mkInconsistent None (Some "1"%string)).
Proof.
  assert (Hx : ∃ p, states (world_run 0 ops) !! 1%nat = Some (p, None) ∧ value (holder p) = 7 ∧ etag (holder p) = None ∧
    jm_get (state_key p) (records (store (world_run 0 ops))) = Some (5, "1"%string)) by (vm_compute; eexists; repeat split; reflexivity).
  destruct Hx as (p & Hi & Hv & He & Hr). exists p, None. split; [exact Hi|]. split; [exact Hv|].
  destruct (write_is_conditional 0 ops 1 p None Hi) as (_ & _ & T). destruct T as [T _]; [by rewrite Hr|].
  rewrite T, He, Hr. reflexivity.
Defined.

Definition h : @StateHolder Z := mkHolder 5 None false.
Definition other : @StateHolder Z := mkHolder 9 (Some "4"%string) true.
Lemma written_state_read_back_witness :
  ∃ s' h', storage_write "k" h (mkStorage [] 0) = inr (s', h') ∧ storage_read "k" other s' = h' ∧ value h' = 5 ∧ exists_ h' = true.
Proof.
  eexists _, _. split; [reflexivity|].
  destruct (written_state_read_back 0 "k" h (mkStorage [] 0) _ _ other (new_state 0 "profile" g) (new_state 0 "profile" g) eq_refl eq_refl) as (T1 & T2 & T3 & _).
  split; [exact T1|]. split; [exact T2|exact T3].
Defined.

(** A grain key with a slash: the states of two grains are one record. *)
Theorem keys_collide :
  record_key "b/c" (mkGrainId "cart" (KString "a")) = record_key "c" (mkGrainId "cart" (KString "a/b")).
Proof. reflexivity. Qed.

(** A value that is set while a clear is awaited is overwritten when it returns. *)
Theorem clear_overwrites_set :
  (value ∘ holder ∘ fst) <$> states (world_run 0 [NewState "profile" g; Read 0; Finish 0; Clear 0; SetValue 0 8; Finish 0]) = [0].
Proof. vm_compute. reflexivity. Qed.
End Runs.
