(* ===== verification/BatchWorker.v ===== *)
(** * Batch worker

    Models [packages/core/src/batch-worker.ts] (the class [BatchWorker]). A work
    cycle is a number into the list of those created. Its work starts in a later
    microtask, ends some time after, and the check looks for more work once it has;
    the time of every step is its position in the run. *)
From Stdlib Require Import String.
From stdpp Require Import prelude gmap strings list.
From S2P Require Import Prelude JsMap.
Open Scope Z_scope.

Inductive Cycle := Queued | Running (from : nat) | Ended (from : nat) | Checked (from : nat).
(** What a caller waits for: nothing, a cycle, or the next one, once it starts. *)
Inductive Wait := WaitNothing | WaitCycle (k : nat) | WaitNext (n : nat).

Record BatchWorker := mkWorker {
  cycles : list Cycle;
  currentWorkCycle : option nat;
  moreWork : bool;
  (** The promises of next cycles: the cycle each adopted. *)
  nexts : list (option nat);
  nextWorkCycle : option nat }.
Definition new_worker : BatchWorker := mkWorker [] None false [] None.

Definition start (w : BatchWorker) : BatchWorker :=
  mkWorker (cycles w ++ [Queued]) (Some (length (cycles w))) (moreWork w) (nexts w) (nextWorkCycle w).
Definition set_more (w : BatchWorker) : BatchWorker := mkWorker (cycles w) (currentWorkCycle w) true (nexts w) (nextWorkCycle w).

Definition notify (w : BatchWorker) : BatchWorker :=
  match currentWorkCycle w with Some _ => set_more w | None => start w end.
Definition checkForMoreWork (w : BatchWorker) : BatchWorker :=
  if negb (moreWork w) then mkWorker (cycles w) None (moreWork w) (nexts w) (nextWorkCycle w)
  else
    let signal := nextWorkCycle w in
    let w := mkWorker (cycles w) (currentWorkCycle w) false (nexts w) None in
    let w := start w in
    mkWorker (cycles w) (currentWorkCycle w) (moreWork w)
      (match signal with Some n => <[n := currentWorkCycle w]> (nexts w) | None => nexts w end) (nextWorkCycle w).
Definition isIdle (w : BatchWorker) : bool := bool_decide (currentWorkCycle w = None).
Definition next_promise (w : BatchWorker) : BatchWorker * Wait :=
  match nextWorkCycle w with
  | Some n => (w, WaitNext n)
  | None => (mkWorker (cycles w) (currentWorkCycle w) (moreWork w) (nexts w ++ [None]) (Some (length (nexts w))), WaitNext (length (nexts w)))
  end.
Definition waitForCurrentWorkToBeServiced (w : BatchWorker) : BatchWorker * Wait :=
  if negb (moreWork w) then (w, match currentWorkCycle w with Some k => WaitCycle k | None => WaitNothing end)
  else next_promise w.
Definition notifyAndWaitForWorkToBeServiced (w : BatchWorker) : BatchWorker * Wait :=
  match currentWorkCycle w with
  | Some _ => next_promise (set_more w)
  | None => let w' := start w in (w', WaitCycle (length (cycles w)))
  end.

(** The current cycle moves on: its work starts, ends, and is followed by the check. *)
Definition advance (now : nat) (w : BatchWorker) : BatchWorker :=
  match currentWorkCycle w with
  | None => w
  | Some k =>
      match cycles w !! k with
      | Some Queued => mkWorker (<[k := Running now]> (cycles w)) (currentWorkCycle w) (moreWork w) (nexts w) (nextWorkCycle w)
      | Some (Running t) => mkWorker (<[k := Ended t]> (cycles w)) (currentWorkCycle w) (moreWork w) (nexts w) (nextWorkCycle w)
      | Some (Ended t) => checkForMoreWork (mkWorker (<[k := Checked t]> (cycles w)) (currentWorkCycle w) (moreWork w) (nexts w) (nextWorkCycle w))
      | _ => w
      end
  end.

Inductive Op := Notify | Await | NotifyAndAwait | Advance.
(** With the time of the last notify, and the waits with the time of the last notify before each. *)
Record Trace := mkTrace { worker : BatchWorker; now : nat; notified : option nat; waits : list (Wait * option nat) }.
Definition trace_step (o : Op) (s : Trace) : Trace :=
  let n := S (now s) in
  match o with
  | Notify => mkTrace (notify (worker s)) n (Some n) (waits s)
  | Await => let '(w, x) := waitForCurrentWorkToBeServiced (worker s) in mkTrace w n (notified s) (waits s ++ [(x, notified s)])
  | NotifyAndAwait => let '(w, x) := notifyAndWaitForWorkToBeServiced (worker s) in mkTrace w n (Some n) (waits s ++ [(x, Some n)])
  | Advance => mkTrace (advance n (worker s)) n (notified s) (waits s)
  end.
Definition trace_run (ops : list Op) : Trace := foldl (λ s o, trace_step o s) (mkTrace new_worker 0 None []) ops.

(** A cycle whose work starts after the notify. *)
Definition after (t : option nat) (c : Cycle) : Prop :=
  match t with
  | None => True
  | Some t => match c with Queued => True | Running f | Ended f | Checked f => (t < f)%nat end
  end.
Definition over (c : Cycle) : Prop := match c with Checked _ => True | _ => False end.

(** What a wait that was issued after a notify stands for. *)
Definition wait_ok (w : BatchWorker) (x : Wait) (t : option nat) : Prop :=
  match x with
  | WaitNothing => t = None ∨ ∃ k c, cycles w !! k = Some c ∧ after t c ∧ over c
  | WaitCycle k => ∃ c, cycles w !! k = Some c ∧ after t c
  | WaitNext n => nexts w !! n = Some None ∨ ∃ k c, nexts w !! n = Some (Some k) ∧ cycles w !! k = Some c ∧ after t c
  end.

Record trace_ok (s : Trace) : Prop := {
  tr_others : ∀ k c, cycles (worker s) !! k = Some c → currentWorkCycle (worker s) ≠ Some k → over c;
  tr_current : ∀ k, currentWorkCycle (worker s) = Some k → ∃ c, cycles (worker s) !! k = Some c ∧ ¬ over c ∧ S k = length (cycles (worker s));
  (** The last notify is served by the current cycle, by the one after it, or was. *)
  tr_served : match currentWorkCycle (worker s) with
    | Some k => moreWork (worker s) = true ∨ ∃ c, cycles (worker s) !! k = Some c ∧ after (notified s) c
    | None => moreWork (worker s) = false ∧ (notified s = None ∨ ∃ k c, cycles (worker s) !! k = Some c ∧ after (notified s) c)
    end;
  tr_time : ∀ t, notified s = Some t → (t <= now s)%nat;
  tr_next : ∀ n, nextWorkCycle (worker s) = Some n → nexts (worker s) !! n = Some None ∧ moreWork (worker s) = true ∧ is_Some (currentWorkCycle (worker s));
  tr_nexts : ∀ n, nexts (worker s) !! n = Some None → nextWorkCycle (worker s) = Some n;
  tr_waits : ∀ x t, (x, t) ∈ waits s →
    (∀ u, t = Some u → (u <= now s)%nat) ∧ wait_ok (worker s) x t }.

(** How the cycles and the promises move on. *)
Definition cycles_later (n : nat) (l l' : list Cycle) : Prop := ∀ k c, l !! k = Some c → ∃ c', l' !! k = Some c' ∧
  (over c → over c') ∧ ∀ t, (∀ u, t = Some u → (u < n)%nat) → after t c → after t c'.
Definition nexts_later (l l' : list (option nat)) (cs : list Cycle) : Prop := ∀ n o, l !! n = Some o →
  l' !! n = Some o ∨ ∃ k, o = None ∧ l' !! n = Some (Some k) ∧ cs !! k = Some Queued.

Lemma cycles_later_refl n l : cycles_later n l l.
Proof. intros k c Hk. by exists c. Qed.
Lemma cycles_later_app n l c : cycles_later n l (l ++ [c]).
Proof. intros k x Hk. exists x. split; [by apply lookup_app_l_Some|done]. Qed.
Lemma cycles_later_trans n l1 l2 l3 : cycles_later n l1 l2 → cycles_later n l2 l3 → cycles_later n l1 l3.
Proof.
  intros H1 H2 k c Hk. destruct (H1 k c Hk) as (c1 & Hk1 & O1 & A1). destruct (H2 k c1 Hk1) as (c2 & Hk2 & O2 & A2).
  exists c2. split; [done|]. split; [by auto|]. intros t Ht Ha. by apply A2, A1.
Qed.
Lemma cycles_later_insert n l k c c' : l !! k = Some c → (over c → over c') → (∀ t, (∀ u, t = Some u → (u < n)%nat) → after t c → after t c') →
  cycles_later n l (<[k := c']> l).
Proof.
  intros Hk Ho Ha j x Hj. destruct (decide (j = k)) as [->|Hne].
  - rewrite Hk in Hj. injection Hj as <-. exists c'. split; [|done]. apply list_lookup_insert_eq. by eapply lookup_lt_Some.
  - exists x. split; [by rewrite list_lookup_insert_ne|done].
Qed.
Lemma nexts_later_refl l cs : nexts_later l l cs.
Proof. intros n o H. by left. Qed.

Lemma wait_later n x t (w w' : BatchWorker) : cycles_later n (cycles w) (cycles w') → nexts_later (nexts w) (nexts w') (cycles w') →
  (∀ u, t = Some u → (u < n)%nat) →
  wait_ok w x t →
  wait_ok w' x t.
Proof.
  intros Hc Hn Ht. unfold wait_ok. destruct x as [|k|m].
  - intros [?|(k & c & Hk & Ha & Ho)]; [by left|]. right. destruct (Hc k c Hk) as (c' & Hk' & O & A). exists k, c'. naive_solver.
  - intros (c & Hk & Ha). destruct (Hc k c Hk) as (c' & Hk' & O & A). exists c'. naive_solver.
  - intros [Hm|(k & c & Hm & Hk & Ha)].
    + destruct (Hn m None Hm) as [?|(k & _ & Hm' & Hk)]; [by left|]. right. exists k, Queued. split; [done|]. split; [done|]. by destruct t.
    + right. destruct (Hn m _ Hm) as [Hm'|(? & ? & _)]; [|done]. destruct (Hc k c Hk) as (c' & Hk' & O & A). exists k, c'. naive_solver.
Qed.

Lemma waits_later s w' n' ws : trace_ok s → cycles_later (S (now s)) (cycles (worker s)) (cycles w') → nexts_later (nexts (worker s)) (nexts w') (cycles w') →
  (∀ x t, (x, t) ∈ ws → (∀ u, t = Some u → (u <= S (now s))%nat) ∧
  wait_ok w' x t) →
  n' = waits s ++ ws →
  ∀ x t, (x, t) ∈ n' → (∀ u, t = Some u → (u <= S (now s))%nat) ∧
  wait_ok w' x t.
Proof.
  intros Hok Hc Hn Hws -> x t [Hin|Hin]%elem_of_app; [|by apply Hws]. destruct (tr_waits s Hok x t Hin) as [Ht Hx].
  split; [intros u Hu; specialize (Ht u Hu); lia|]. apply (wait_later (S (now s)) x t (worker s) w'); [done|done| |done].
  intros u Hu. specialize (Ht u Hu). lia.
Qed.

Lemma new_wait x t (w : BatchWorker) n : (∀ u, t = Some u → (u <= n)%nat) →
  wait_ok w x t →
  ∀ x' t', (x', t') ∈ [(x, t)] → (∀ u, t' = Some u → (u <= n)%nat) ∧
  wait_ok w x' t'.
Proof. intros H1 H2 x' t' Hin%list_elem_of_singleton. by injection Hin as -> ->. Qed.

Lemma next_promise_ok s w n : trace_ok s → cycles w = cycles (worker s) → currentWorkCycle w = currentWorkCycle (worker s) → nexts w = nexts (worker s) →
  nextWorkCycle w = nextWorkCycle (worker s) → moreWork w = true → is_Some (currentWorkCycle w) →
  (n = notified s ∨ n = Some (S (now s))) →
  let '(w', x) := next_promise w in trace_ok (mkTrace w' (S (now s)) n (waits s ++ [(x, n)])).
Proof.
  intros Hok E1 E2 E3 E4 Hm Hc Hn. pose proof Hok as [H1 H2 H3 H4 H5 H6 H7].
  assert (Ht : ∀ u, n = Some u → (u <= S (now s))%nat) by (intros u ->; destruct Hn as [Hn|Hn]; [specialize (H4 u (eq_sym Hn)); lia|injection Hn as ->; lia]).
  unfold next_promise. rewrite E4. destruct (nextWorkCycle (worker s)) as [m|] eqn:Hnext.
  - destruct (H5 m eq_refl) as (Hm1 & _ & _). split; cbn [worker now notified waits].
    + rewrite E1, E2. exact H1.
    + rewrite E1, E2. exact H2.
    + destruct Hc as [k Hk]. rewrite Hk. by left.
    + exact Ht.
    + rewrite E4, E3. intros m' [= <-]. done.
    + rewrite E3, E4. intros m' Hm'. by rewrite <- (H6 m' Hm').
    + eapply (waits_later s w); [done|rewrite E1; apply cycles_later_refl|rewrite E3; apply nexts_later_refl| |done]. apply new_wait; [done|]. left. by rewrite E3.
  - split; cbn [worker now notified waits cycles currentWorkCycle moreWork nexts nextWorkCycle].
    + rewrite E1, E2. exact H1.
    + rewrite E1, E2. exact H2.
    + destruct Hc as [k Hk]. rewrite Hk. by left.
    + exact Ht.
    + intros m' [= <-]. split; [by rewrite lookup_app_r, Nat.sub_diag by lia|done].
    + rewrite E3. intros m' [Hm'|[Hlen Hm']]%lookup_app_Some; [by apply H6 in Hm'|]. apply list_lookup_singleton_Some in Hm' as [Hm' _]. f_equal. lia.
    + eapply (waits_later s (mkWorker _ _ _ _ _)); [done|simpl; rewrite E1; apply cycles_later_refl| | |done].
      * intros j o Hj. left. simpl. rewrite E3. by apply lookup_app_l_Some.
      * apply new_wait; [done|]. left. simpl. by rewrite lookup_app_r, Nat.sub_diag by lia.
Qed.

Lemma start_cycle_ok s : trace_ok s → currentWorkCycle (worker s) = None →
  trace_ok (mkTrace (start (worker s)) (S (now s)) (Some (S (now s))) (waits s)) ∧
  cycles_later (S (now s)) (cycles (worker s)) (cycles (start (worker s))).
Proof.
  intros Hok Hc. pose proof Hok as [H1 H2 H3 H4 H5 H6 H7]. split; [|apply cycles_later_app]. rewrite Hc in H3. split; cbn [worker now notified waits start cycles currentWorkCycle moreWork nexts nextWorkCycle].
  - intros k c [Hk|[Hlen Hk]]%lookup_app_Some Hne; [apply (H1 k c Hk); by rewrite Hc|]. apply list_lookup_singleton_Some in Hk as [Hk _]. destruct Hne. f_equal. lia.
  - intros k [= <-]. exists Queued. split; [by rewrite lookup_app_r, Nat.sub_diag by lia|]. split; [by intros []|]. rewrite length_app. simpl. lia.
  - right. exists Queued. split; [by rewrite lookup_app_r, Nat.sub_diag by lia|done].
  - intros t [= <-]. done.
  - intros n Hn. destruct (H5 n Hn) as (_ & _ & [k Hk]). congruence.
  - exact H6.
  - eapply (waits_later s (start (worker s)) _ []); [done|apply cycles_later_app|apply nexts_later_refl| |by rewrite app_nil_r].
    intros x t Hin. by apply elem_of_nil in Hin.
Qed.

Lemma advance_ok s : trace_ok s → trace_ok (mkTrace (advance (S (now s)) (worker s)) (S (now s)) (notified s) (waits s)).
Proof.
  intros Hok. pose proof Hok as [H1 H2 H3 H4 H5 H6 H7]. unfold advance.
  assert (Hsame : trace_ok (mkTrace (worker s) (S (now s)) (notified s) (waits s))).
  { split; try done; cbn [worker now notified waits]; [intros t Ht; specialize (H4 t Ht); lia|]. intros x t Hin. destruct (H7 x t Hin) as [Ht Hx]. split; [|done].
    intros u Hu. specialize (Ht u Hu). lia. }
  destruct (currentWorkCycle (worker s)) as [k|] eqn:Hc; [|exact Hsame]. destruct (H2 k eq_refl) as (c & Hk & Hno & Hlast). rewrite Hk.
  (* A cycle that goes on without the check. *)
  assert (Hmove : ∀ c', ¬ over c' → (∀ t, (∀ u, t = Some u → (u < S (now s))%nat) → after t c → after t c') →
    trace_ok (mkTrace (mkWorker (<[k := c']> (cycles (worker s))) (currentWorkCycle (worker s)) (moreWork (worker s)) (nexts (worker s)) (nextWorkCycle (worker s))) (S (now s)) (notified s) (waits s))).
  { intros c' Hno' Ha. assert (Hlen : (k < length (cycles (worker s)))%nat) by lia.
    split; cbn [worker now notified waits cycles currentWorkCycle moreWork nexts nextWorkCycle]; rewrite ?Hc.
    - intros j x Hj Hne. rewrite list_lookup_insert_ne in Hj by congruence. by apply (H1 j x).
    - intros j [= <-]. exists c'. rewrite length_insert. split; [by apply list_lookup_insert_eq|done].
    - destruct H3 as [?|(x & Hx & Hax)]; [by left|]. right. exists c'. split; [by apply list_lookup_insert_eq|]. rewrite Hk in Hx. injection Hx as <-.
      apply Ha; [|done]. intros u Hu. specialize (H4 u Hu). lia.
    - intros t Ht. specialize (H4 t Ht). lia.
    - exact H5.
    - exact H6.
    - eapply (waits_later s (mkWorker _ _ _ _ _) _ []); [done| |apply nexts_later_refl| |by rewrite app_nil_r].
      + apply (cycles_later_insert _ _ k c c'); [done|by intros ?|done].
      + intros x t Hin. by apply elem_of_nil in Hin. }
  destruct c as [|f|f|f].
  - rewrite <- Hc. apply Hmove; [by intros []|]. intros [t|] Ht _; [|done]. by apply Ht.
  - rewrite <- Hc. apply Hmove; [by intros []|]. by intros [t|] Ht.
  - assert (Hlen : (k < length (cycles (worker s)))%nat) by lia. set (cs := <[k := Checked f]> (cycles (worker s))).
    assert (Hcs : cycles_later (S (now s)) (cycles (worker s)) cs) by (apply (cycles_later_insert _ _ k (Ended f)); done).
    assert (Hover : ∀ j x, cs !! j = Some x → over x).
    { intros j x Hj. destruct (decide (j = k)) as [->|Hne]; [unfold cs in Hj; rewrite list_lookup_insert_eq in Hj by done; by injection Hj as <-|].
      unfold cs in Hj. rewrite list_lookup_insert_ne in Hj by done. apply (H1 j x Hj). congruence. }
    unfold checkForMoreWork. cbn [moreWork]. destruct (moreWork (worker s)) eqn:Hm; cbn [negb].
    + unfold start. cbn [worker now notified waits cycles currentWorkCycle moreWork nexts nextWorkCycle].
      split; cbn [worker now notified waits cycles currentWorkCycle moreWork nexts nextWorkCycle].
      * intros j x [Hj|[Hl Hj]]%lookup_app_Some Hne; [by eapply Hover|]. apply list_lookup_singleton_Some in Hj as [Hj _]. destruct Hne. f_equal. lia.
      * intros j [= <-]. exists Queued. split; [by rewrite lookup_app_r, Nat.sub_diag by lia|]. split; [by intros []|]. rewrite length_app. simpl. lia.
      * right. exists Queued. split; [by rewrite lookup_app_r, Nat.sub_diag by lia|]. by destruct (notified s).
      * intros t Ht. specialize (H4 t Ht). lia.
      * done.
      * intros n Hn. destruct (nextWorkCycle (worker s)) as [m|] eqn:Hnext; [|by apply H6 in Hn].
        destruct (decide (n = m)) as [->|Hne].
        { rewrite list_lookup_insert_eq in Hn; [done|]. destruct (H5 m eq_refl) as (Hmm & _). by eapply lookup_lt_Some. }
        rewrite list_lookup_insert_ne in Hn by done. apply H6 in Hn. congruence.
      * eapply (waits_later s (mkWorker _ _ _ _ _) _ []); [done| | | |by rewrite app_nil_r]; cbn [cycles nexts].
        { eapply cycles_later_trans; [exact Hcs|apply cycles_later_app]. }
        { intros n o Hn. destruct (nextWorkCycle (worker s)) as [m|] eqn:Hnext; [|by left]. destruct (H5 m eq_refl) as (Hmm & _).
          destruct (decide (n = m)) as [->|Hne]; [|left; by rewrite list_lookup_insert_ne]. right. rewrite Hmm in Hn. injection Hn as <-.
          exists (length cs). split; [done|]. split; [apply list_lookup_insert_eq; by eapply lookup_lt_Some|]. by rewrite lookup_app_r, Nat.sub_diag by lia. }
        { intros x t Hin. by apply elem_of_nil in Hin. }
    + split; cbn [worker now notified waits cycles currentWorkCycle moreWork nexts nextWorkCycle].
      * intros j x Hj _. by eapply Hover.
      * done.
      * split; [done|]. right. destruct H3 as [?|(x & Hx & Ha)]; [done|]. rewrite Hk in Hx. injection Hx as <-. exists k, (Checked f).
        split; [by apply list_lookup_insert_eq|done].
      * intros t Ht. specialize (H4 t Ht). lia.
      * intros n Hn. by destruct (H5 n Hn) as (_ & ? & _).
      * exact H6.
      * eapply (waits_later s (mkWorker _ _ _ _ _) _ []); [done|exact Hcs|apply nexts_later_refl| |by rewrite app_nil_r].
        intros x t Hin. by apply elem_of_nil in Hin.
  - by destruct Hno.
Qed.

Lemma trace_step_ok o s : trace_ok s → trace_ok (trace_step o s).
Proof.
  intros Hok. pose proof Hok as [H1 H2 H3 H4 H5 H6 H7]. destruct o; cbn [trace_step].
  - unfold notify. destruct (currentWorkCycle (worker s)) as [k|] eqn:Hc; [|by apply start_cycle_ok].
    split; cbn [worker now notified waits set_more cycles currentWorkCycle moreWork nexts nextWorkCycle]; rewrite ?Hc; try done; [by left|by intros t [= <-]| |].
    + intros n Hn. destruct (H5 n Hn) as (? & _ & _). done.
    + eapply (waits_later s (set_more (worker s)) _ []); [done|apply cycles_later_refl|apply nexts_later_refl| |by rewrite app_nil_r]. intros x t Hin. by apply elem_of_nil in Hin.
  - unfold waitForCurrentWorkToBeServiced. destruct (moreWork (worker s)) eqn:Hm; cbn [negb].
    + assert (Hc : is_Some (currentWorkCycle (worker s))) by (destruct (currentWorkCycle (worker s)); [done|destruct H3; congruence]).
      pose proof (next_promise_ok s (worker s) (notified s) Hok eq_refl eq_refl eq_refl eq_refl Hm Hc (or_introl eq_refl)) as Hn.
      by destruct (next_promise (worker s)).
    + split; cbn [worker now notified waits]; [exact H1|exact H2|by rewrite Hm|intros t Ht; specialize (H4 t Ht); lia|by rewrite Hm|exact H6|].
      eapply (waits_later s (worker s)); [done|apply cycles_later_refl|apply nexts_later_refl| |done]. apply new_wait; [intros u Hu; specialize (H4 u Hu); lia|].
      destruct (currentWorkCycle (worker s)) as [k|] eqn:Hc; simpl.
      * destruct H3 as [?|H3]; [congruence|done].
      * destruct H3 as [_ [?|(k & c & Hk & Ha)]]; [by left|]. right. exists k, c. split; [done|]. split; [done|]. by apply (H1 k c Hk).
  - unfold notifyAndWaitForWorkToBeServiced. destruct (currentWorkCycle (worker s)) as [k|] eqn:Hc.
    + pose proof (next_promise_ok s (set_more (worker s)) (Some (S (now s))) Hok eq_refl eq_refl eq_refl eq_refl eq_refl ltac:(simpl; rewrite Hc; by eexists) (or_intror eq_refl)) as Hn.
      by destruct (next_promise (set_more (worker s))).
    + destruct (start_cycle_ok s Hok Hc) as [[S1 S2 S3 S4 S5 S6 S7] Hl]. split; try done; cbn [worker now notified waits] in *.
      eapply (waits_later s (start (worker s))); [done|done|apply nexts_later_refl| |done]. apply new_wait; [by intros u [= <-]|].
      exists Queued. split; [|done]. simpl. by rewrite lookup_app_r, Nat.sub_diag by lia.
  - by apply advance_ok.
Qed.

Lemma trace_run_ok ops : trace_ok (trace_run ops).
Proof.
  unfold trace_run. assert (H0 : trace_ok (mkTrace new_worker 0 None [])).
  { split; simpl; try done; [split; [done|by left]|]. intros x t Hin. by apply elem_of_nil in Hin. }
  revert H0. generalize (mkTrace new_worker 0 None []). induction ops as [|o ops IH]; intros s Hs; [done|]. simpl. by apply IH, trace_step_ok.
Qed.

(** How many steps the worker still takes. *)
Definition rank (w : BatchWorker) : nat :=
  match currentWorkCycle w with
  | None => 0
  | Some k => (match cycles w !! k with Some Queued => 3 | Some (Running _) => 2 | Some (Ended _) => 1 | _ => 0 end + if moreWork w then 3 else 0)%nat
  end.
Lemma rank_bound w : (rank w <= 6)%nat.
Proof. unfold rank. destruct (currentWorkCycle w) as [k|]; [|lia]. destruct (cycles w !! k) as [[]|], (moreWork w); lia. Qed.
Lemma rank_idle s : trace_ok s → (rank (worker s) <= 0)%nat → currentWorkCycle (worker s) = None.
Proof.
  intros Hok. unfold rank. destruct (currentWorkCycle (worker s)) as [k|] eqn:Hc; [|done]. destruct (tr_current s Hok k Hc) as (c & Hk & Hno & _).
  rewrite Hk. destruct c, (moreWork (worker s)); try lia; by destruct Hno.
Qed.
Lemma rank_advance s : trace_ok s → (rank (worker (trace_step Advance s)) <= rank (worker s) - 1)%nat.
Proof.
  intros Hok. cbn [trace_step worker]. unfold advance, rank at 2. destruct (currentWorkCycle (worker s)) as [k|] eqn:Hc; [|unfold rank; rewrite Hc; lia].
  destruct (tr_current s Hok k Hc) as (c & Hk & Hno & Hlen). rewrite Hk. assert (Hlt : (k < length (cycles (worker s)))%nat) by lia.
  destruct c as [|f|f|f]; [| | |by destruct Hno].
  - unfold rank. cbn [currentWorkCycle cycles moreWork]. rewrite ?Hc, list_lookup_insert_eq by done. lia.
  - unfold rank. cbn [currentWorkCycle cycles moreWork]. rewrite ?Hc, list_lookup_insert_eq by done. lia.
  - unfold checkForMoreWork. cbn [moreWork]. destruct (moreWork (worker s)); cbn [negb]; unfold rank, start;
      cbn [currentWorkCycle cycles moreWork nexts nextWorkCycle]; [|lia]. rewrite lookup_app_r, Nat.sub_diag by lia. simpl. lia.
Qed.

(** Queued work is serviced. However notifies, waits and work cycles follow each
    other: at most one cycle is not over; the last notify has a cycle whose work
    started after it, or one is current or to follow the current; and what a caller
    waits for is a cycle whose work starts after every notify before the wait, the
    promise of one that is still to be created while there is more work, or nothing,
    when such a cycle is over already. With nothing notified meanwhile, the worker is
    idle once two cycles have run. *)
Theorem work_is_serviced ops :
  let s := trace_run ops in
  let w := worker s in
  (∀ j k c d, cycles w !! j = Some c → cycles w !! k = Some d → ¬ over c → ¬ over d → j = k) ∧
  (notified s = None ∨ (moreWork w = true ∧ is_Some (currentWorkCycle w)) ∨ ∃ k c, cycles w !! k = Some c ∧ after (notified s) c) ∧
  (∀ x t, (x, t) ∈ waits s → wait_ok w x t) ∧
  (∀ n, nexts w !! n = Some None → moreWork w = true ∧ is_Some (currentWorkCycle w)) ∧
  isIdle (worker (trace_run (ops ++ [Advance; Advance; Advance; Advance; Advance; Advance]))) = true.
Proof.
  intros s w. pose proof (trace_run_ok ops) as Hok. fold s in Hok. pose proof Hok as [H1 H2 H3 H4 H5 H6 H7].
  split; [|split; [|split; [|split]]].
  - intros j k c d Hj Hk Hc Hd. destruct (decide (currentWorkCycle w = Some j)) as [E1|E1]; [|by destruct Hc; eapply H1].
    destruct (decide (currentWorkCycle w = Some k)) as [E2|E2]; [congruence|]. by destruct Hd; eapply H1.
  - fold w in H3. destruct (currentWorkCycle w) as [k|]; [|destruct H3 as [_ [?|?]]; auto]. destruct H3 as [?|(c & Hk & Ha)]; [right; left; by split|].
    right; right. by exists k, c.
  - intros x t Hin. by apply (H7 x t).
  - intros n Hn. by destruct (H5 n (H6 n Hn)) as (_ & ? & ?).
  - assert (Hd : ∀ n ops', (rank (worker (trace_run ops')) <= n)%nat → isIdle (worker (trace_run (ops' ++ replicate n Advance))) = true).
    { induction n as [|n IH]; intros ops' Hr.
      - simpl. rewrite app_nil_r. apply bool_decide_eq_true. apply (rank_idle _ (trace_run_ok ops')). lia.
      - rewrite replicate_S, cons_middle, app_assoc. apply IH. unfold trace_run. rewrite foldl_app.
        change (foldl _ _ ops') with (trace_run ops'). cbn [foldl]. pose proof (rank_advance _ (trace_run_ok ops')). lia. }
    apply (Hd 6%nat). apply rank_bound.
Qed.
