(* ===== verification/ObserverManager.v ===== *)
(** * Observers

    Models [packages/core/src/observer-manager.ts] (the class [ObserverManager]).
    Maps and their entries are kept by reference: a copy of a map shares the
    entries. A notification is a walk over the map that was in force when it began,
    cut at the awaits of its callback. *)
From Stdlib Require Import String.
From stdpp Require Import prelude gmap strings list.
From S2P Require Import Prelude JsMap.
Open Scope Z_scope.

Section observers.
Context {Id Obs : Type} `{EqDecision Id}.

Record ObserverEntry := mkEntry { observer : Obs; lastSeenMs : Z }.
(** A notification: its map, as a reference, and what it was when it began. *)
Record Walk := mkWalk {
  snapshot : nat;
  began_with : list (Id * nat);
  walk_now : Z;
  predicate : Obs → bool;
  pos : nat;
  defunct : list Id;
  (** The observer whose callback is awaited. *)
  awaiting : option Id;
  notified : list (Id * Obs);
  finished : bool }.
Record ObserverManager := mkObservers {
  heap : list ObserverEntry;
  maps : list (list (Id * nat));
  entries : nat;
  numReaders : Z;
  readSnapshotEntries : option nat;
  expirationDuration : Z;
  walks : list Walk }.

Definition new_manager (d : Z) : ObserverManager := mkObservers [] [[]] 0 0 None d [].
Definition current_map (m : ObserverManager) : list (Id * nat) := default [] (maps m !! entries m).
Definition count (m : ObserverManager) : nat := length (current_map m).

(** The map to write: a copy of it, if a walk goes over it. *)
Definition getWritableEntries (m : ObserverManager) : ObserverManager :=
  if bool_decide (0 < numReaders m ∧ readSnapshotEntries m = Some (entries m)) then
    mkObservers (heap m) (maps m ++ [current_map m]) (length (maps m)) (numReaders m) (readSnapshotEntries m) (expirationDuration m) (walks m)
  else m.
Definition write (f : list (Id * nat) → list (Id * nat)) (m : ObserverManager) : ObserverManager :=
  mkObservers (heap m) (alter f (entries m) (maps m)) (entries m) (numReaders m) (readSnapshotEntries m) (expirationDuration m) (walks m).
Definition with_heap (h : list ObserverEntry) (m : ObserverManager) : ObserverManager :=
  mkObservers h (maps m) (entries m) (numReaders m) (readSnapshotEntries m) (expirationDuration m) (walks m).

Definition subscribe (now : Z) (id : Id) (o : Obs) (m : ObserverManager) : ObserverManager :=
  let m := getWritableEntries m in
  match jm_get id (current_map m) with
  | Some r => with_heap (<[r := mkEntry o now]> (heap m)) m
  | None => write (jm_set id (length (heap m))) (with_heap (heap m ++ [mkEntry o now]) m)
  end.
Definition unsubscribe (id : Id) (m : ObserverManager) : ObserverManager := write (jm_delete id) (getWritableEntries m).
Definition clear (m : ObserverManager) : ObserverManager := write (λ _, []) (getWritableEntries m).
Definition removeDefunct (ids : list Id) (m : ObserverManager) : ObserverManager :=
  match ids with
  | [] => m
  | _ => write (λ l, foldl (λ l id, jm_delete id l) l ids) (getWritableEntries m)
  end.
Definition isExpired (m : ObserverManager) (now : Z) (e : ObserverEntry) : bool := bool_decide (lastSeenMs e + expirationDuration m < now).

Definition with_readers (n : Z) (r : option nat) (m : ObserverManager) : ObserverManager :=
  mkObservers (heap m) (maps m) (entries m) n r (expirationDuration m) (walks m).
Definition createReadSnapshot (m : ObserverManager) : ObserverManager := with_readers (numReaders m + 1) (Some (entries m)) m.
Definition releaseReader (m : ObserverManager) : ObserverManager :=
  with_readers (numReaders m - 1) (if bool_decide (numReaders m - 1 = 0) then None else readSnapshotEntries m) m.

(** Within one turn: the snapshot is taken and released before anything else runs. *)
Definition clearExpired (now : Z) (m : ObserverManager) : ObserverManager :=
  let m := createReadSnapshot m in
  let ids := omap (λ ir, match heap m !! ir.2 with Some e => if isExpired m now e then Some ir.1 else None | None => None end) (current_map m) in
  removeDefunct ids (releaseReader m).

Definition set_walk (k : nat) (x : Walk) (m : ObserverManager) : ObserverManager :=
  mkObservers (heap m) (maps m) (entries m) (numReaders m) (readSnapshotEntries m) (expirationDuration m) (<[k := x]> (walks m)).

(** [notify] begins: its snapshot. *)
Definition notify_begins (now : Z) (pred : Obs → bool) (m : ObserverManager) : ObserverManager :=
  let m := createReadSnapshot m in
  mkObservers (heap m) (maps m) (entries m) (numReaders m) (readSnapshotEntries m) (expirationDuration m)
    (walks m ++ [mkWalk (entries m) (current_map m) now pred 0 [] None [] false]).

(** One round of its loop, to the callback's await or the next round; past the last entry it ends. *)
Definition notify_round (k : nat) (m : ObserverManager) : ObserverManager :=
  match walks m !! k with
  | None => m
  | Some x =>
      if finished x || bool_decide (awaiting x ≠ None) then m
      else
        match default [] (maps m !! snapshot x) !! pos x with
        | None => removeDefunct (defunct x)
                    (releaseReader (set_walk k (mkWalk (snapshot x) (began_with x) (walk_now x) (predicate x) (pos x) (defunct x) None (notified x) true) m))
        | Some (id, r) =>
            match heap m !! r with
            | None => m
            | Some e =>
                if isExpired m (walk_now x) e then
                  set_walk k (mkWalk (snapshot x) (began_with x) (walk_now x) (predicate x) (S (pos x)) (defunct x ++ [id]) None (notified x) false) m
                else if negb (predicate x (observer e)) then
                  set_walk k (mkWalk (snapshot x) (began_with x) (walk_now x) (predicate x) (S (pos x)) (defunct x) None (notified x) false) m
                else
                  set_walk k (mkWalk (snapshot x) (began_with x) (walk_now x) (predicate x) (S (pos x)) (defunct x) (Some id) (notified x ++ [(id, observer e)]) false) m
            end
        end
  end.
(** The callback settles. *)
Definition notify_settles (k : nat) (ok : bool) (m : ObserverManager) : ObserverManager :=
  match walks m !! k with
  | Some x =>
      match awaiting x with
      | Some id => set_walk k (mkWalk (snapshot x) (began_with x) (walk_now x) (predicate x) (pos x) (if ok then defunct x else defunct x ++ [id]) None (notified x) (finished x)) m
      | None => m
      end
  | None => m
  end.

Inductive Op :=
  | Subscribe (now : Z) (id : Id) (o : Obs)
  | Unsubscribe (id : Id)
  | ClearAll
  | ClearExpired (now : Z)
  | NotifyBegins (now : Z) (pred : Obs → bool)
  | NotifyRound (k : nat)
  | NotifySettles (k : nat) (ok : bool).
Definition observers_step (o : Op) (m : ObserverManager) : ObserverManager :=
  match o with
  | Subscribe now id o => subscribe now id o m
  | Unsubscribe id => unsubscribe id m
  | ClearAll => clear m
  | ClearExpired now => clearExpired now m
  | NotifyBegins now pred => notify_begins now pred m
  | NotifyRound k => notify_round k m
  | NotifySettles k ok => notify_settles k ok m
  end.
Definition observers_run (d : Z) (ops : list Op) : ObserverManager := foldl (λ m o, observers_step o m) (new_manager d) ops.

(** *** Walks go over the map they began with *)

Definition open (x : Walk) : Prop := finished x = false.
#[local] Instance open_dec x : Decision (open x) := decide (finished x = false).
Record observers_ok (m : ObserverManager) : Prop := {
  ob_entries : (entries m < length (maps m))%nat;
  ob_readers : numReaders m = Z.of_nat (length (filter open (walks m)));
  ob_walks : ∀ x, x ∈ walks m → open x → maps m !! snapshot x = Some (began_with x) ∧
    (snapshot x = entries m → readSnapshotEntries m = Some (entries m));
  ob_notified : ∀ x, x ∈ walks m → (notified x).*1 `sublist_of` (take (pos x) (began_with x)).*1 ∧
    defunct x ⊆ (began_with x).*1 ∧ (∀ id, awaiting x = Some id → id ∈ (began_with x).*1) }.

Lemma open_reader m x : observers_ok m → x ∈ walks m → open x → 0 < numReaders m.
Proof.
  intros Hok Hx Ho. rewrite (ob_readers m Hok). assert (Hin : x ∈ filter open (walks m)) by by apply list_elem_of_filter.
  destruct (filter open (walks m)); [by apply elem_of_nil in Hin|]. simpl. lia.
Qed.

(** After it was made writable, no walk goes over the current map. *)
Lemma writable_ok m : observers_ok m → observers_ok (getWritableEntries m) ∧
  (∀ x, x ∈ walks m → open x → snapshot x ≠ entries (getWritableEntries m)) ∧ walks (getWritableEntries m) = walks m ∧
  heap (getWritableEntries m) = heap m ∧ current_map (getWritableEntries m) = current_map m.
Proof.
  intros Hok. pose proof Hok as [H1 H2 H3 H4]. unfold getWritableEntries. case_bool_decide as Hc.
  - assert (Hsnap : ∀ x, x ∈ walks m → open x → snapshot x ≠ length (maps m)).
    { intros x Hx Ho Hl. destruct (H3 x Hx Ho) as [Hm _]. apply lookup_lt_Some in Hm. lia. }
    split; [|split; [done|split; [done|split; [done|]]]].
    + split; simpl; [rewrite length_app; simpl; lia|done| |done]. intros x Hx Ho. destruct (H3 x Hx Ho) as [Hm _].
      split; [by apply lookup_app_l_Some|]. intros Hl. by destruct (Hsnap x).
    + unfold current_map. simpl. by rewrite lookup_app_r, Nat.sub_diag by lia.
  - split; [done|]. split; [|done]. intros x Hx Ho Hs. destruct Hc. split; [by eapply open_reader|]. by apply (H3 x).
Qed.

Lemma write_ok f m : observers_ok m → (∀ x, x ∈ walks m → open x → snapshot x ≠ entries m) → observers_ok (write f m).
Proof.
  intros [H1 H2 H3 H4] Hf. split; simpl; [by rewrite length_alter|done| |done]. intros x Hx Ho. destruct (H3 x Hx Ho) as [Hm Hr]. split; [|done].
  rewrite list_lookup_alter, decide_False; [done|]. intros He. by apply (Hf x Hx Ho).
Qed.
Lemma heap_ok h m : observers_ok m → observers_ok (with_heap h m).
Proof. intros [H1 H2 H3 H4]. by split. Qed.

Lemma removeDefunct_ok ids m : observers_ok m → observers_ok (removeDefunct ids m).
Proof.
  intros Hok. unfold removeDefunct. destruct ids; [done|]. destruct (writable_ok m Hok) as (W1 & W2 & W3 & _). apply write_ok; [done|]. by rewrite W3.
Qed.

Lemma filter_insert_open k x y (l : list Walk) : l !! k = Some x → length (filter open (<[k := y]> l)) =
  (length (filter open l) - (if decide (open x) then 1 else 0) + (if decide (open y) then 1 else 0))%nat.
Proof.
  revert k. induction l as [|z l IH]; intros [|k] Hk; try done; simpl in Hk.
  - injection Hk as ->. simpl. rewrite !filter_cons. destruct (decide (open x)), (decide (open y)); simpl; lia.
  - simpl. rewrite !filter_cons. specialize (IH k Hk). assert (Hle : open x → (1 <= length (filter open l))%nat).
    { intros Ho. assert (Hin : x ∈ filter open l) by (apply list_elem_of_filter; split; [done|by eapply list_elem_of_lookup_2]).
      destruct (filter open l); [by apply elem_of_nil in Hin|simpl; lia]. }
    destruct (decide (open z)); simpl; rewrite IH; destruct (decide (open x)); try lia. specialize (Hle o0). lia.
Qed.

Lemma set_walk_ok k x y m : observers_ok m → walks m !! k = Some x → open x → open y → snapshot y = snapshot x → began_with y = began_with x →
  ((notified y).*1 `sublist_of` (take (pos y) (began_with y)).*1 ∧ defunct y ⊆ (began_with y).*1 ∧ (∀ id, awaiting y = Some id → id ∈ (began_with y).*1)) →
  observers_ok (set_walk k y m).
Proof.
  intros [H1 H2 H3 H4] Hk Hx Hy Hs Hb Hn. assert (Hin : ∀ z, z ∈ <[k := y]> (walks m) → z = y ∨ z ∈ walks m).
  { intros z (j & Hj)%list_elem_of_lookup. apply list_lookup_insert_Some in Hj as [(_ & -> & _)|[_ Hj]]; [by left|right; by eapply list_elem_of_lookup_2]. }
  split; simpl; [done| | |].
  - rewrite H2, (filter_insert_open k x y) by done. rewrite !decide_True by done. assert (Hf : x ∈ filter open (walks m)).
    { apply list_elem_of_filter. split; [done|by eapply list_elem_of_lookup_2]. }
    destruct (filter open (walks m)); [by apply elem_of_nil in Hf|]. simpl. lia.
  - intros z [->|Hz]%Hin Ho; [|by apply H3]. rewrite Hs, Hb. apply H3; [by eapply list_elem_of_lookup_2|done].
  - intros z [->|Hz]%Hin; [done|by apply H4].
Qed.

Lemma finish_walk_ok k x y m : observers_ok m → walks m !! k = Some x → open x → ¬ open y → 
  ((notified y).*1 `sublist_of` (take (pos y) (began_with y)).*1 ∧ defunct y ⊆ (began_with y).*1 ∧ (∀ id, awaiting y = Some id → id ∈ (began_with y).*1)) →
  observers_ok (releaseReader (set_walk k y m)).
Proof.
  intros Hok Hk Hx Hy Hn. pose proof Hok as [H1 H2 H3 H4].
  assert (Hin : ∀ z, z ∈ <[k := y]> (walks m) → z = y ∨ z ∈ walks m).
  { intros z (j & Hj)%list_elem_of_lookup. apply list_lookup_insert_Some in Hj as [(_ & -> & _)|[_ Hj]]; [by left|right; by eapply list_elem_of_lookup_2]. }
  assert (Hcnt : numReaders m - 1 = Z.of_nat (length (filter open (<[k := y]> (walks m))))).
  { rewrite H2, (filter_insert_open k x y) by done. rewrite decide_True, decide_False by done. assert (Hf : x ∈ filter open (walks m)).
    { apply list_elem_of_filter. split; [done|by eapply list_elem_of_lookup_2]. }
    destruct (filter open (walks m)); [by apply elem_of_nil in Hf|]. simpl. lia. }
  split; simpl; [done|exact Hcnt| |].
  - intros z Hz Ho. destruct (Hin z Hz) as [->|Hzm]; [done|]. destruct (H3 z Hzm Ho) as [Hm Hr]. split; [done|]. intros Hs.
    rewrite bool_decide_false; [by apply Hr|]. rewrite Hcnt. assert (Hf : z ∈ filter open (<[k := y]> (walks m))) by by apply list_elem_of_filter.
    destruct (filter open (<[k := y]> (walks m))); [by apply elem_of_nil in Hf|]. simpl. lia.
  - intros z [->|Hz]%Hin; [done|by apply H4].
Qed.

Lemma notify_round_ok k m : observers_ok m → observers_ok (notify_round k m).
Proof.
  intros Hok. unfold notify_round. destruct (walks m !! k) as [x|] eqn:Hk; [|done]. destruct (finished x || _) eqn:Hf; [done|].
  apply orb_false_iff in Hf as [Hfin _]. assert (Hx : open x) by done. assert (Hin : x ∈ walks m) by by eapply list_elem_of_lookup_2.
  destruct (ob_walks m Hok x Hin Hx) as [Hm _]. destruct (ob_notified m Hok x Hin) as (N1 & N2 & N3). rewrite Hm. simpl.
  destruct (began_with x !! pos x) as [[id r]|] eqn:Hp.
  - assert (Hid : id ∈ (began_with x).*1) by (apply list_elem_of_fmap; exists (id, r); split; [done|by eapply list_elem_of_lookup_2]).
    assert (Htake : (take (S (pos x)) (began_with x)).*1 = (take (pos x) (began_with x)).*1 ++ [id]) by (by rewrite (take_S_r _ _ _ Hp), fmap_app).
    destruct (heap m !! r) as [e|]; [|done]. destruct (isExpired m (walk_now x) e); [|destruct (negb _)]; (eapply set_walk_ok; [done|done|done|done|done|done|]); simpl;
      rewrite Htake; (split; [|split]).
    + by apply sublist_inserts_r.
    + intros i [Hi|Hi]%elem_of_app; [by apply N2|]. by apply list_elem_of_singleton in Hi as ->.
    + done.
    + by apply sublist_inserts_r.
    + done.
    + done.
    + rewrite fmap_app. by apply sublist_app.
    + done.
    + by intros i [= <-].
  - apply removeDefunct_ok. eapply finish_walk_ok; [done|done|done|done|]. simpl. done.
Qed.

Lemma notify_settles_ok k ok m : observers_ok m → observers_ok (notify_settles k ok m).
Proof.
  intros Hok. unfold notify_settles. destruct (walks m !! k) as [x|] eqn:Hk; [|done]. destruct (awaiting x) as [id|] eqn:Ha; [|done].
  assert (Hin : x ∈ walks m) by by eapply list_elem_of_lookup_2. destruct (ob_notified m Hok x Hin) as (N1 & N2 & N3).
  set (y := mkWalk _ _ _ _ _ _ _ _ _). assert (Hn : (notified y).*1 `sublist_of` (take (pos y) (began_with y)).*1 ∧ defunct y ⊆ (began_with y).*1 ∧ (∀ id, awaiting y = Some id → id ∈ (began_with y).*1)).
  { simpl. split; [done|]. split; [|done]. destruct ok; [done|]. intros i [Hi|Hi]%elem_of_app; [by apply N2|]. apply list_elem_of_singleton in Hi as ->. by apply N3. }
  destruct (decide (open x)) as [Ho|Ho]; [by eapply set_walk_ok|]. pose proof Hok as [H1 H2 H3 H4].
  assert (Hinn : ∀ z, z ∈ <[k := y]> (walks m) → z = y ∨ z ∈ walks m).
  { intros z (j & Hj)%list_elem_of_lookup. apply list_lookup_insert_Some in Hj as [(_ & -> & _)|[_ Hj]]; [by left|right; by eapply list_elem_of_lookup_2]. }
  split; simpl; [done| | |].
  - rewrite H2, (filter_insert_open k x y) by done. rewrite !decide_False by done. f_equal. lia.
  - intros z [->|Hz]%Hinn Hz'; [done|by apply H3].
  - intros z [->|Hz]%Hinn; [done|by apply H4].
Qed.

Lemma snapshot_ok m x : observers_ok m → snapshot x = entries m → began_with x = current_map m → notified x = [] → defunct x = [] → awaiting x = None → open x →
  observers_ok (mkObservers (heap m) (maps m) (entries m) (numReaders m + 1) (Some (entries m)) (expirationDuration m) (walks m ++ [x])).
Proof.
  intros Hok Hs Hb Hn Hd Ha Ho. pose proof Hok as [H1 H2 H3 H4]. split; simpl; [done| | |].
  - rewrite H2, filter_app, length_app. rewrite (filter_cons_True _ x []) by done. simpl. lia.
  - intros z [Hz|Hz]%elem_of_app Hz'; [by destruct (H3 z Hz Hz')|]. apply list_elem_of_singleton in Hz as ->. split; [|done].
    rewrite Hs, Hb. unfold current_map. destruct (lookup_lt_is_Some_2 _ _ H1) as [l Hl]. by rewrite Hl.
  - intros z [Hz|Hz]%elem_of_app; [by apply H4|]. apply list_elem_of_singleton in Hz as ->. rewrite Hn, Hd, Ha. split; [apply sublist_nil_l|]. split; [|done].
    intros i Hi. by apply elem_of_nil in Hi.
Qed.

Lemma observers_step_ok o m : observers_ok m → observers_ok (observers_step o m).
Proof.
  intros Hok. destruct (writable_ok m Hok) as (W1 & W2 & W3 & W4 & W5). destruct o as [now id o|id| |now|now pred|k|k ok]; cbn [observers_step].
  - unfold subscribe. destruct (jm_get id _); [by apply heap_ok|]. apply write_ok; [by apply heap_ok|]. cbn [with_heap walks entries]. by rewrite W3.
  - apply write_ok; [done|]. by rewrite W3.
  - apply write_ok; [done|]. by rewrite W3.
  - unfold clearExpired. apply removeDefunct_ok. pose proof Hok as [H1 H2 H3 H4]. unfold createReadSnapshot, releaseReader, with_readers. simpl.
    rewrite Z.add_simpl_r. split; simpl; [done|done| |done]. intros x Hx Ho. destruct (H3 x Hx Ho) as [Hm Hr]. split; [done|]. intros Hs.
    pose proof (open_reader m x Hok Hx Ho). by rewrite bool_decide_false by lia.
  - by apply (snapshot_ok m (mkWalk (entries m) (current_map m) now pred 0 [] None [] false)).
  - by apply notify_round_ok.
  - by apply notify_settles_ok.
Qed.

Lemma observers_run_ok d ops : observers_ok (observers_run d ops).
Proof.
  unfold observers_run. assert (H0 : observers_ok (new_manager d)).
  { split; simpl; [lia|done| |]; intros x Hx; by apply elem_of_nil in Hx. }
  revert H0. generalize (new_manager d). induction ops as [|o ops IH]; intros m Hm; [done|]. simpl. by apply IH, observers_step_ok.
Qed.

(** A notification goes over the observers of its start. Whatever is subscribed,
    unsubscribed, cleared, expired and notified meanwhile, by this notification or
    by others: its map stays, until it is finished, the one it began with; it
    notifies ids of that map in their order, each place at most once; and it drops
    only ids of that map. *)
Theorem notify_over_snapshot d ops x :
  let m := observers_run d ops in
  x ∈ walks m →
  (finished x = false → maps m !! snapshot x = Some (began_with x)) ∧
  (notified x).*1 `sublist_of` (take (pos x) (began_with x)).*1 ∧ defunct x ⊆ (began_with x).*1.
Proof.
  intros m Hx. pose proof (observers_run_ok d ops) as Hok. fold m in Hok. destruct (ob_notified m Hok x Hx) as (N1 & N2 & _).
  split; [intros Ho; by apply (ob_walks m Hok x Hx Ho)|by split].
Qed.
End observers.

(** ** Runs *)

Module Runs.
Definition notifies_all : nat → bool := λ _, true.
(** Two observers; the second is replaced while the first is notified. *)
Definition begun : list (@Op string nat) :=
  [Subscribe 0 "a"%string 1%nat; Subscribe 0 "b"%string 2%nat; NotifyBegins 10 notifies_all; NotifyRound 0].
Definition replaced : list (@Op string nat) := begun ++ [Subscribe 10 "b"%string 20%nat; Unsubscribe "a"%string; NotifySettles 0 true; NotifyRound 0].

Lemma notify_over_snapshot_witness :
  ∃ x, x ∈ walks (observers_run 100 replaced) ∧ notified x = [("a"%string, 1%nat); ("b"%string, 20%nat)] ∧
    (notified x).*1 `sublist_of` (take (pos x) (began_with x)).*1 ∧ defunct x ⊆ (began_with x).*1.
Proof.
  assert (H : ∃ x, walks (observers_run 100 replaced) = [x] ∧ notified x = [("a"%string, 1%nat); ("b"%string, 20%nat)]) by (vm_compute; eexists; split; reflexivity).
  destruct H as (x & Hw & Hn). exists x. assert (Hx : x ∈ walks (observers_run 100 replaced)) by (rewrite Hw; left).
  split; [exact Hx|]. split; [exact Hn|]. exact (proj2 (notify_over_snapshot 100 replaced x Hx)).
Defined.

(** An observer that is subscribed in the place of another during a notification is
    given it, although it was not subscribed when the notification began. *)
Theorem replacement_is_notified : (notified <$> walks (observers_run 100 replaced)) = [[("a"%string, 1%nat); ("b"%string, 20%nat)]].
Proof. vm_compute. reflexivity. Qed.

(** An id whose notification failed is subscribed again while another observer is
    notified: the end of the notification removes the new subscription. *)
Theorem renewed_subscription_removed :
  let m := observers_run 100 (begun ++ [NotifySettles 0 false; NotifyRound 0; Subscribe 12 "a"%string 7%nat; NotifySettles 0 true; NotifyRound 0]) in
  (fst <$> current_map m) = ["b"%string].
Proof. vm_compute. reflexivity. Qed.
End Runs.
