(* ===== verification/LeaseProvider.v ===== *)
(** * Leases

    Models [packages/core/src/lease-provider.ts] (the class [InMemoryLeaseProvider]).
    A lease is known by its token, which the host mints fresh: here a number. *)
From Stdlib Require Import String.
From stdpp Require Import prelude gmap strings list.
From S2P Require Import Prelude JsMap.
Open Scope Z_scope.

Record Lease := mkLease { expiredUtcMs : Z; token : Z }.
Record LeaseProvider := mkProvider { leases : list (string * Lease); minted : Z }.
Record AcquiredLease := mkAcquired { resourceKey : string; durationMs : Z; acquired_token : option Z; startTimeUtcMs : Z }.
Inductive ResponseCode := OK | LeaseNotAvailable | InvalidToken.
#[export] Instance ResponseCode_eq_dec : EqDecision ResponseCode.
Proof. solve_decision. Defined.

Definition leaseKey (category resource : string) : string := (category +:+ String (Ascii.ascii_of_nat 0) resource)%string.

Definition mint (now : Z) (key resource : string) (duration : Z) (p : LeaseProvider) : LeaseProvider * (AcquiredLease * ResponseCode) :=
  let t := minted p + 1 in
  (mkProvider (jm_set key (mkLease (now + duration) t) (leases p)) t, (mkAcquired resource duration (Some t) now, OK)).
Definition refused (resource : string) (c : ResponseCode) (p : LeaseProvider) : LeaseProvider * (AcquiredLease * ResponseCode) :=
  (p, (mkAcquired resource 0 None 0, c)).

Definition acquireOne (now : Z) (category resource : string) (duration : Z) (p : LeaseProvider) : LeaseProvider * (AcquiredLease * ResponseCode) :=
  let key := leaseKey category resource in
  match jm_get key (leases p) with
  | Some l => if bool_decide (now <= expiredUtcMs l) then refused resource LeaseNotAvailable p else mint now key resource duration p
  | None => mint now key resource duration p
  end.
Definition renewOne (now : Z) (category : string) (a : AcquiredLease) (p : LeaseProvider) : LeaseProvider * (AcquiredLease * ResponseCode) :=
  let key := leaseKey category (resourceKey a) in
  match jm_get key (leases p) with
  | Some l => if bool_decide (Some (token l) = acquired_token a) then mint now key (resourceKey a) (durationMs a) p else refused (resourceKey a) InvalidToken p
  | None => refused (resourceKey a) InvalidToken p
  end.
Definition releaseOne (category : string) (a : AcquiredLease) (p : LeaseProvider) : LeaseProvider :=
  let key := leaseKey category (resourceKey a) in
  match jm_get key (leases p) with
  | Some l => if bool_decide (Some (token l) = acquired_token a) then mkProvider (jm_delete key (leases p)) (minted p) else p
  | None => p
  end.

(** What the callers were granted, and whether they gave it up by renewing or releasing it. *)
Record Grant := mkGrant { granted_key : string; granted_token : Z; until : Z; given_up : bool }.
#[export] Instance Grant_eq_dec : EqDecision Grant.
Proof. solve_decision. Defined.
Record System := mkSystem { clock : Z; provider : LeaseProvider; grants : list Grant }.
Inductive Op := Acquire (dt : Z) (category resource : string) (duration : Z) | Renew (dt : Z) (category : string) (a : AcquiredLease) | Release (dt : Z) (category : string) (a : AcquiredLease).

Definition relinquish (key : string) (t : option Z) (l : list Grant) : list Grant :=
  (λ g, if bool_decide (granted_key g = key ∧ Some (granted_token g) = t) then mkGrant (granted_key g) (granted_token g) (until g) true else g) <$> l.
Definition granted (key : string) (r : AcquiredLease * ResponseCode) : list Grant :=
  match r with
  | (mkAcquired _ d (Some t) at_, OK) => [mkGrant key t (at_ + d) false]
  | _ => []
  end.
Definition system_step (o : Op) (s : System) : System :=
  match o with
  | Acquire dt c r d => let now := clock s + Z.max 0 dt in let '(p, x) := acquireOne now c r d (provider s) in
      mkSystem now p (grants s ++ granted (leaseKey c r) x)
  | Renew dt c a => let now := clock s + Z.max 0 dt in let '(p, x) := renewOne now c a (provider s) in
      mkSystem now p (relinquish (leaseKey c (resourceKey a)) (acquired_token a) (grants s) ++ granted (leaseKey c (resourceKey a)) x)
  | Release dt c a => let now := clock s + Z.max 0 dt in
      mkSystem now (releaseOne c a (provider s)) (relinquish (leaseKey c (resourceKey a)) (acquired_token a) (grants s))
  end.
Definition system_run (ops : list Op) : System := foldl (λ s o, system_step o s) (mkSystem 0 (mkProvider [] 0) []) ops.

(** A lease its holder can rely on. *)
Definition held (now : Z) (g : Grant) : Prop := given_up g = false ∧ now <= until g.

Record system_ok (s : System) : Prop := {
  sy_held : ∀ g, g ∈ grants s → held (clock s) g → jm_get (granted_key g) (leases (provider s)) = Some (mkLease (until g) (granted_token g));
  sy_minted : ∀ g, g ∈ grants s → granted_token g <= minted (provider s);
  sy_leases : ∀ k l, jm_get k (leases (provider s)) = Some l → token l <= minted (provider s);
  sy_once : NoDup (granted_token <$> grants s) }.

Lemma relinquish_elem key t l g : g ∈ relinquish key t l → given_up g = false → g ∈ l ∧ ¬ (granted_key g = key ∧ Some (granted_token g) = t).
Proof.
  intros (x & -> & Hx)%list_elem_of_fmap. case_bool_decide as Hk; [done|]. by intros _.
Qed.
Lemma relinquish_tokens key t l : granted_token <$> relinquish key t l = granted_token <$> l.
Proof. unfold relinquish. rewrite <- list_fmap_compose. apply list_fmap_ext. intros i g _. simpl. by case_bool_decide. Qed.
Lemma relinquish_token key t l g : g ∈ relinquish key t l → granted_token g ∈ granted_token <$> l.
Proof. intros Hg. rewrite <- (relinquish_tokens key t l). by apply list_elem_of_fmap_2. Qed.

(** A fresh lease in the place of one that nobody relies on. *)
Lemma mint_ok now key res d p l : clock (mkSystem now p l) = now →
  (∀ g, g ∈ l → held now g → granted_key g ≠ key ∧ jm_get (granted_key g) (leases p) = Some (mkLease (until g) (granted_token g))) →
  (∀ g, g ∈ l → granted_token g <= minted p) → (∀ k x, jm_get k (leases p) = Some x → token x <= minted p) → NoDup (granted_token <$> l) →
  let '(p', x) := mint now key res d p in system_ok (mkSystem now p' (l ++ granted key x)).
Proof.
  intros _ H1 H2 H3 H4. unfold mint. split; simpl.
  - intros g [Hg|Hg]%elem_of_app Hh.
    + destruct (H1 g Hg Hh) as [Hk He]. rewrite jm_get_set, decide_False by congruence. done.
    + apply list_elem_of_singleton in Hg as ->. simpl. by rewrite jm_get_set_eq.
  - intros g [Hg|Hg]%elem_of_app; [specialize (H2 g Hg); lia|]. apply list_elem_of_singleton in Hg as ->. simpl. lia.
  - intros k x. rewrite jm_get_set. case_decide; [intros [= <-]; simpl; lia|]. intros Hx. specialize (H3 k x Hx). lia.
  - rewrite fmap_app. apply NoDup_app. split; [done|]. split; [|by apply NoDup_singleton]. intros t Ht. apply list_elem_of_fmap in Ht as (g & -> & Hg).
    simpl. intros Hx%list_elem_of_singleton. specialize (H2 g Hg). lia.
Qed.

Lemma later_held now now' g : now <= now' → held now' g → held now g.
Proof. intros Hn [H1 H2]. split; [done|lia]. Qed.

Lemma system_step_ok o s : system_ok s → system_ok (system_step o s).
Proof.
  intros [H1 H2 H3 H4]. destruct o as [dt c r d|dt c a|dt c a]; cbn [system_step]; set (now := clock s + Z.max 0 dt); assert (Hnow : clock s <= now) by (unfold now; lia).
  - assert (Hrest : ∀ g, g ∈ grants s → held now g → jm_get (granted_key g) (leases (provider s)) = Some (mkLease (until g) (granted_token g)))
      by (intros g Hg Hh; apply H1; [done|by eapply later_held]).
    unfold acquireOne. destruct (jm_get (leaseKey c r) (leases (provider s))) as [l|] eqn:Hl.
    + case_bool_decide as He; [unfold refused; simpl; rewrite app_nil_r; by split|]. apply mint_ok; [done| |done|done|done].
      intros g Hg Hh. split; [|by apply Hrest]. intros Hk. pose proof (Hrest g Hg Hh) as Hgl. rewrite Hk, Hl in Hgl. injection Hgl as ->.
      destruct Hh as [_ Hu]. simpl in He. lia.
    + apply mint_ok; [done| |done|done|done]. intros g Hg Hh. split; [|by apply Hrest]. intros Hk. pose proof (Hrest g Hg Hh) as Hgl. by rewrite Hk, Hl in Hgl.
  - set (key := leaseKey c (resourceKey a)).
    assert (Hrest : ∀ g, g ∈ relinquish key (acquired_token a) (grants s) → held now g →
      jm_get (granted_key g) (leases (provider s)) = Some (mkLease (until g) (granted_token g)) ∧ ¬ (granted_key g = key ∧ Some (granted_token g) = acquired_token a)).
    { intros g Hg Hh. destruct (relinquish_elem _ _ _ _ Hg (proj1 Hh)) as [Hgl Hn]. split; [|done]. apply H1; [done|by eapply later_held]. }
    assert (Hmin : ∀ g, g ∈ relinquish key (acquired_token a) (grants s) → granted_token g <= minted (provider s)).
    { intros g Hg%relinquish_token. apply list_elem_of_fmap in Hg as (g' & -> & Hg'). by apply H2. }
    unfold renewOne. fold key. destruct (jm_get key (leases (provider s))) as [l|] eqn:Hl.
    + case_bool_decide as Ht.
      * apply mint_ok; [done| |done|done|by rewrite relinquish_tokens]. intros g Hg Hh. destruct (Hrest g Hg Hh) as [Hr Hn]. split; [|done].
        intros Hk. apply Hn. split; [done|]. rewrite Hk, Hl in Hr. injection Hr as ->. exact Ht.
      * unfold refused. simpl. rewrite app_nil_r. split; simpl; [|done|done|by rewrite relinquish_tokens]. intros g Hg Hh. by apply Hrest.
    + unfold refused. simpl. rewrite app_nil_r. split; simpl; [|done|done|by rewrite relinquish_tokens]. intros g Hg Hh. by apply Hrest.
  - set (key := leaseKey c (resourceKey a)).
    assert (Hrest : ∀ g, g ∈ relinquish key (acquired_token a) (grants s) → held now g →
      jm_get (granted_key g) (leases (provider s)) = Some (mkLease (until g) (granted_token g)) ∧ ¬ (granted_key g = key ∧ Some (granted_token g) = acquired_token a)).
    { intros g Hg Hh. destruct (relinquish_elem _ _ _ _ Hg (proj1 Hh)) as [Hgl Hn]. split; [|done]. apply H1; [done|by eapply later_held]. }
    assert (Hmin : ∀ g, g ∈ relinquish key (acquired_token a) (grants s) → granted_token g <= minted (provider s)).
    { intros g Hg%relinquish_token. apply list_elem_of_fmap in Hg as (g' & -> & Hg'). by apply H2. }
    unfold releaseOne. fold key. destruct (jm_get key (leases (provider s))) as [l|] eqn:Hl.
    + case_bool_decide as Ht.
      * split; simpl; [|done| |by rewrite relinquish_tokens].
        -- intros g Hg Hh. destruct (Hrest g Hg Hh) as [Hr Hn]. rewrite jm_get_delete, decide_False; [done|]. intros Hk. apply Hn. split; [done|].
           rewrite <- Hk, Hl in Hr. injection Hr as ->. exact Ht.
        -- intros k x. rewrite jm_get_delete. case_decide; [done|apply H3].
      * split; simpl; [|done|done|by rewrite relinquish_tokens]. intros g Hg Hh. by apply Hrest.
    + split; simpl; [|done|done|by rewrite relinquish_tokens]. intros g Hg Hh. by apply Hrest.
Qed.

(** A resource is leased to one holder. Whatever is acquired, renewed and
    released, with tokens of any age: of one resource at most one granted lease is
    unexpired and was not given up by its own holder's renewal or release; it is the
    one in the table, and while it lasts nobody else acquires the resource. *)
Theorem lease_exclusive ops g h now c r d :
  let s := system_run ops in
  g ∈ grants s → h ∈ grants s → held (clock s) g → held (clock s) h → granted_key g = granted_key h →
  g = h ∧ (clock s <= now → held now g → leaseKey c r = granted_key g → (acquireOne now c r d (provider s)).2.2 = LeaseNotAvailable).
Proof.
  intros s Hg Hh Hhg Hhh Hk. assert (Hok : system_ok s).
  { unfold s, system_run. assert (H0 : system_ok (mkSystem 0 (mkProvider [] 0) [])) by (split; simpl; [intros x Hx; by apply elem_of_nil in Hx|intros x Hx; by apply elem_of_nil in Hx|done|constructor]).
    revert H0. generalize (mkSystem 0 (mkProvider [] 0) []). clear. induction ops as [|o ops IH]; intros s Hs; [done|]. simpl. by apply IH, system_step_ok. }
  pose proof (sy_held _ Hok g Hg Hhg) as E1. split.
  - pose proof (sy_held _ Hok h Hh Hhh) as E2. rewrite Hk, E2 in E1. injection E1 as Eu Et.
    destruct g as [gk gt gu gg], h as [hk ht hu hg]. destruct Hhg as [Hg1 _], Hhh as [Hh1 _]. simpl in *. by subst.
  - intros _ [_ Hu] Hkey. unfold acquireOne. rewrite Hkey, E1. simpl. by rewrite bool_decide_true.
Qed.

(** ** Runs *)

Module Runs.
Definition ops : list Op := [Acquire 0 "queues" "q1" 100; Acquire 10 "queues" "q1" 100; Renew 50 "queues" (mkAcquired "q1" 100 (Some 1) 0); Renew 1 "queues" (mkAcquired "q1" 100 (Some 1) 0)].
Lemma lease_exclusive_witness :
  ∃ g, g ∈ grants (system_run ops) ∧ granted_token g = 2 ∧ held (clock (system_run ops)) g ∧
    (acquireOne 100 "queues" "q1" 5 (provider (system_run ops))).2.2 = LeaseNotAvailable.
Proof.
  exists (mkGrant (leaseKey "queues" "q1") 2 160 false).
  assert (Hg : mkGrant (leaseKey "queues" "q1") 2 160 false ∈ grants (system_run ops)) by (apply (bool_decide_unpack _); vm_compute; exact I).
  assert (Hh : held (clock (system_run ops)) (mkGrant (leaseKey "queues" "q1") 2 160 false)) by (split; [reflexivity|vm_compute; discriminate]).
  split; [exact Hg|]. split; [reflexivity|]. split; [exact Hh|].
  destruct (lease_exclusive ops _ _ 100 "queues" "q1" 5 Hg Hg Hh Hh eq_refl) as [_ T]. apply T.
  - vm_compute. discriminate.
  - split; [reflexivity|vm_compute; discriminate].
  - reflexivity.
Defined.
End Runs.
