(* ===== verification/CancelWalk.v ===== *)
(** * Cancellation values in arguments

    Models [packages/core/src/cancellation-value-walk.ts]: the rewriting of the
    cancellation values that an argument of a grain call reaches, which both ends of
    a call run.

    Objects live in a heap and are named by their place in it, so that identity,
    sharing and cycles are those of the code. What a cancellation value is replaced
    by is the caller's: a function of the heap that may add to it. *)
From Stdlib Require Import String.
From stdpp Require Import prelude strings list relations.
From S2P Require Import Prelude JsMap.

(** Primitives: [NaN], which differs from itself, and the others by their text. *)
Inductive Prim := Undefined | Null | NaN | Other (s : string).
Inductive Val := VPrim (p : Prim) | VRef (r : nat).
#[export] Instance Prim_eq_dec : EqDecision Prim.
Proof. solve_decision. Defined.
#[export] Instance Val_eq_dec : EqDecision Val.
Proof. solve_decision. Defined.

(** [===]. *)
Definition strict_eq (a b : Val) : bool :=
  match a with VPrim NaN => false | _ => bool_decide (a = b) end.

Inductive Proto := ObjectPrototype | NullPrototype | OtherPrototype (r : nat).
#[export] Instance Proto_eq_dec : EqDecision Proto.
Proof. solve_decision. Defined.

(** Class instances and references to grains are opaque. *)
Inductive Obj :=
  | Signal (x : nat) | Token (x : nat) | Placeholder (x : nat)
  | Opaque (x : nat)
  | Array (l : list Val)
  | MapObj (l : list (Val * Val))
  | SetObj (l : list Val)
  | Plain (p : Proto) (l : list (string * Val)).

Definition is_cancellation (o : Obj) : bool :=
  match o with Signal _ | Token _ | Placeholder _ => true | _ => false end.
Definition isWalkableContainer (o : Obj) : bool :=
  match o with
  | Array _ | MapObj _ | SetObj _ => true
  | Plain ObjectPrototype _ | Plain NullPrototype _ => true
  | _ => false
  end.

(** [out[key] = value] on a plain object: the key [__proto__] sets the prototype. *)
Definition assign (k : string) (v : Val) (o : Obj) : Obj :=
  match o with
  | Plain p l =>
      if bool_decide (k = "__proto__"%string ∧ p ≠ NullPrototype) then
        match v with
        | VRef r => Plain (OtherPrototype r) l
        | VPrim Null => Plain NullPrototype l
        | VPrim _ => o
        end
      else Plain p (jm_set k v l)
  | _ => o
  end.
Definition set_add (v : Val) (l : list Val) : list Val := if decide (v ∈ l) then l else l ++ [v].

(** An entry of a container: under a key of a map, of an object, or none. *)
Inductive Key := KNone | KVal (v : Val) | KName (s : string).
Definition add (o : Obj) (e : Key * Val) : Obj :=
  match o, e.1 with
  | Array l, _ => Array (l ++ [e.2])
  | SetObj l, _ => SetObj (set_add e.2 l)
  | MapObj l, KVal k => MapObj (jm_set k e.2 l)
  | Plain _ _, KName k => assign k e.2 o
  | _, _ => o
  end.
Definition entries_of (o : Obj) : list (Key * Val) :=
  match o with
  | Array l | SetObj l => pair KNone <$> l
  | MapObj l => prod_map KVal id <$> l
  | Plain _ l => prod_map KName id <$> l
  | _ => []
  end.
Definition fresh_of (o : Obj) : Obj :=
  match o with
  | Array _ => Array []
  | MapObj _ => MapObj []
  | SetObj _ => SetObj []
  | Plain _ _ => Plain ObjectPrototype []
  | _ => o
  end.

(** What one walk carries; with, for the record, every container it went into and
    the path it was on there, from the container back to the argument. *)
Record WalkContext := mkContext { heap : list Obj; active : list nat; memo : list (nat * Val); entered : list (nat * list nat) }.
Definition with_heap (h : list Obj) (s : WalkContext) : WalkContext := mkContext h (active s) (memo s) (entered s).

Section walk.
Variable replace : list Obj → nat → list Obj * Val.

(** The loop of the four containers: the copy is begun at the first entry that
    changes, with the entries before it. *)
Fixpoint walk_loop (walk : Val → WalkContext → option (WalkContext * Val)) (fresh : Obj)
    (before l : list (Key * Val)) (out : option Obj) (s : WalkContext) : option (WalkContext * option Obj) :=
  match l with
  | [] => Some (s, out)
  | e :: l =>
      r ← walk e.2 s;
      let out := if negb (strict_eq r.2 e.2) && bool_decide (out = None) then Some (foldl add fresh before) else out in
      walk_loop walk fresh (before ++ [e]) l ((λ o, add o (e.1, r.2)) <$> out) r.1
  end.

Definition alloc (r : nat) (res : WalkContext * option Obj) : WalkContext * Val :=
  match res.2 with
  | Some o => (with_heap (heap res.1 ++ [o]) res.1, VRef (length (heap res.1)))
  | None => (res.1, VRef r)
  end.

Definition walkArray walk r (l : list Val) (s : WalkContext) : option (WalkContext * Val) :=
  alloc r <$> walk_loop walk (Array []) [] (pair KNone <$> l) None s.
Definition walkMap walk r (l : list (Val * Val)) (s : WalkContext) : option (WalkContext * Val) :=
  alloc r <$> walk_loop walk (MapObj []) [] (prod_map KVal id <$> l) None s.
Definition walkSet walk r (l : list Val) (s : WalkContext) : option (WalkContext * Val) :=
  alloc r <$> walk_loop walk (SetObj []) [] (pair KNone <$> l) None s.
Definition walkObject walk r (l : list (string * Val)) (s : WalkContext) : option (WalkContext * Val) :=
  alloc r <$> walk_loop walk (Plain ObjectPrototype []) [] (prod_map KName id <$> l) None s.

(** The fuel bounds the depth; a walk without enough of it has no result. *)
Fixpoint walk (fuel : nat) (v : Val) (s : WalkContext) : option (WalkContext * Val) :=
  match v with
  | VPrim _ => Some (s, v)
  | VRef r =>
      match heap s !! r with
      | None => Some (s, v)
      | Some o =>
          if is_cancellation o then
            let '(h, w) := replace (heap s) r in Some (with_heap h s, w)
          else if negb (isWalkableContainer o) then Some (s, v)
          else
            match jm_get r (memo s) with
            | Some w => Some (s, w)
            | None =>
                if bool_decide (r ∈ active s) then Some (s, v)
                else
                  match fuel with
                  | O => None
                  | S fuel =>
                      let s := mkContext (heap s) (r :: active s) (memo s) (entered s ++ [(r, r :: active s)]) in
                      res ← match o with
                        | Array l => walkArray (walk fuel) r l s
                        | MapObj l => walkMap (walk fuel) r l s
                        | SetObj l => walkSet (walk fuel) r l s
                        | Plain _ l => walkObject (walk fuel) r l s
                        | _ => None
                        end;
                      let s := res.1 in
                      Some (mkContext (heap s) (filter (.≠ r) (active s)) (jm_set r res.2 (memo s)) (entered s), res.2)
                  end
            end
      end
  end.

Definition mapCancellationValues (h : list Obj) (v : Val) : option (WalkContext * Val) :=
  walk (length h) v (mkContext h [] [] []).

(** ** What the result is *)

Definition children (o : Obj) : list Val := (entries_of o).*2.
(** A container with other values in the place of its own. *)
Definition rebuilt (o : Obj) (ws : list Val) : Obj := foldl add (fresh_of o) (zip (entries_of o).*1 ws).

Definition val_in (h : list Obj) (v : Val) : Prop := match v with VRef r => (r < length h)%nat | VPrim _ => True end.
Definition closed (h : list Obj) : Prop := ∀ r o v, h !! r = Some o → v ∈ children o → val_in h v.

Section image.
Variable h0 : list Obj.
Variable root : Val.

Definition child (a r : nat) : Prop := ∃ o, h0 !! a = Some o ∧ isWalkableContainer o = true ∧ VRef r ∈ children o.

(** A path by which a container is reached from the argument. *)
Fixpoint path_to (r : nat) (p : list nat) : Prop :=
  match p with
  | [] => False
  | [a] => a = r ∧ root = VRef r
  | a :: (b :: _) as q => a = r ∧ a ∉ q ∧ child b a ∧ path_to b q
  end.

(** What a value became, found on a path: primitives and opaque objects stay, a
    cancellation value is what it was replaced by at some time, a container on
    that path stays, as the reference closes a cycle, and any other is its one
    result. *)
Definition image (p : list nat) (s : WalkContext) (v w : Val) : Prop :=
  match v with
  | VPrim _ => w = v
  | VRef r =>
      ∃ o, h0 !! r = Some o ∧
        if is_cancellation o then ∃ h1 h2, h0 `prefix_of` h1 ∧ replace h1 r = (h2, w) ∧ h2 `prefix_of` heap s
        else if isWalkableContainer o then if decide (r ∈ p) then w = v else jm_get r (memo s) = Some w
        else w = v
  end.

(** The result of a container, entered by a path that goes on from the one its
    parent was entered by: the images of its values, found on that path, in their
    places, in a new object or, if they are its values, itself. *)
Definition result (s : WalkContext) (r : nat) (w : Val) : Prop :=
  ∃ p o ws, path_to r p ∧ (∀ a q, (a :: q) `suffix_of` p → (a, a :: q) ∈ entered s) ∧ h0 !! r = Some o ∧ Forall2 (image p s) (children o) ws ∧
    ((w = VRef r ∧ ws = children o) ∨
     ∃ r', w = VRef r' ∧ (length h0 <= r')%nat ∧ heap s !! r' = Some (rebuilt o ws)).

Record good (s : WalkContext) : Prop := {
  go_heap : h0 `prefix_of` heap s;
  go_active : NoDup (active s);
  go_range : ∀ r, r ∈ active s → (r < length h0)%nat;
  go_open : ∀ r, r ∈ active s → jm_get r (memo s) = None;
  go_path : match active s with [] => True | r :: _ => path_to r (active s) end;
  go_under : ∀ a q, (a :: q) `suffix_of` active s → (a, a :: q) ∈ entered s;
  go_once : NoDup (entered s).*1;
  go_entered : ∀ r, r ∈ (entered s).*1 ↔ r ∈ active s ∨ is_Some (jm_get r (memo s));
  go_memo : ∀ r w, jm_get r (memo s) = Some w → result s r w }.

Definition grows (s s' : WalkContext) : Prop :=
  heap s `prefix_of` heap s' ∧ active s' = active s ∧ entered s `prefix_of` entered s' ∧ (∀ r w, jm_get r (memo s) = Some w → jm_get r (memo s') = Some w).

Hypothesis replace_extends : ∀ h r, h `prefix_of` (replace h r).1.
Hypothesis h0_closed : closed h0.

Lemma walk_grows_refl s : grows s s.
Proof. by split_and!. Qed.
Lemma walk_grows_trans s1 s2 s3 : grows s1 s2 → grows s2 s3 → grows s1 s3.
Proof. intros (A1 & A2 & A3 & A4) (B1 & B2 & B3 & B4). split_and!; [by etrans|by rewrite B2|by etrans|by auto]. Qed.

Lemma image_grows p s s' v w : heap s `prefix_of` heap s' → (∀ r w, jm_get r (memo s) = Some w → jm_get r (memo s') = Some w) →
  image p s v w → image p s' v w.
Proof.
  intros Hh Hm. destruct v as [x|r]; [done|]. intros (o & Ho & Hw). exists o. split; [done|]. destruct (is_cancellation o).
  - destruct Hw as (h1 & h2 & H1 & H2 & H3). exists h1, h2. split_and!; [done..|by etrans].
  - destruct (isWalkableContainer o); [|done]. case_decide; [done|]. by apply Hm.
Qed.
Lemma images_grow p s s' vs ws : grows s s' → Forall2 (image p s) vs ws → Forall2 (image p s') vs ws.
Proof. intros (Hh & _ & _ & Hm) Hf. eapply Forall2_impl; [exact Hf|]. intros v w. by apply image_grows. Qed.
Lemma result_grows s s' r w : heap s `prefix_of` heap s' → entered s `prefix_of` entered s' →
  (∀ r w, jm_get r (memo s) = Some w → jm_get r (memo s') = Some w) →
  result s r w → result s' r w.
Proof.
  intros Hh [k He] Hm (p & o & ws & Hp & Hu & Ho & Hf & Hw). exists p, o, ws. split; [done|].
  split; [intros a q Hq; rewrite He; apply elem_of_app; left; by apply Hu|]. split; [done|]. split.
  - eapply Forall2_impl; [exact Hf|]. intros v x. by apply image_grows.
  - destruct Hw as [?|(r' & H1 & H2 & H3)]; [by left|]. right. exists r'. split_and!; [done..|]. by eapply prefix_lookup_Some.
Qed.

Lemma delete_absent (r : nat) (l : list nat) : r ∉ l → filter (.≠ r) l = l.
Proof.
  induction l as [|a l IH]; [done|]. intros [Hra Hr]%not_elem_of_cons. rewrite filter_cons_True by done. by rewrite IH.
Qed.

(** A reference that a walk may be at: the argument, or of the container it is in. *)
Definition found (s : WalkContext) (v : Val) : Prop :=
  match active s with [] => v = root | a :: _ => ∀ r, v = VRef r → child a r end.
Lemma path_push r s : found s (VRef r) → (∀ q, q ∈ active s → q ≠ r) →
  match active s with [] => True | q :: _ => path_to q (active s) end → path_to r (r :: active s).
Proof.
  unfold found. destruct (active s) as [|a q]; [done|]. intros Hf Hr Hp. split; [done|]. split; [intros Hin; by apply (Hr r)|].
  split; [by apply Hf|done].
Qed.

(** A walk that keeps its context in order and gives the images of values. *)
Definition walks (w : Val → WalkContext → option (WalkContext * Val)) (n : nat) : Prop :=
  ∀ v s, good s → val_in h0 v → found s v → (length h0 <= n + length (active s))%nat →
  ∃ s' x, w v s = Some (s', x) ∧ good s' ∧ grows s s' ∧ image (active s) s' v x.

Lemma strict_eq_true a b : strict_eq a b = true → a = b.
Proof. unfold strict_eq. destruct a as [[]|]; try done; apply bool_decide_eq_true. Qed.

Lemma walk_loop_spec w n fresh l before out s : walks w n → good s →
  (∀ v, v ∈ l.*2 → val_in h0 v ∧ found s v) → (length h0 <= n + length (active s))%nat →
  ∃ s' out' ws, walk_loop w fresh before l out s = Some (s', out') ∧ good s' ∧ grows s s' ∧ Forall2 (image (active s) s') l.*2 ws ∧
    match out with
    | Some o => out' = Some (foldl add o (zip l.*1 ws))
    | None => (out' = None ∧ ws = l.*2) ∨ out' = Some (foldl add fresh (before ++ zip l.*1 ws))
    end.
Proof.
  intros Hw. revert before out s. induction l as [|[k v] l IH]; intros before out s Hs Hl Hn.
  - exists s, out, []. split; [done|]. split; [done|]. split; [apply walk_grows_refl|]. split; [constructor|]. destruct out; [done|by left].
  - destruct (Hl v) as [Hv Hp]; [left|]. destruct (Hw v s Hs Hv Hp Hn) as (s1 & x & Hx & Hs1 & Hg1 & Hi1). cbn [walk_loop snd]. rewrite Hx.
    cbn [mbind option_bind fst snd]. set (o1 := if _ : bool then _ else out).
    pose proof Hg1 as (_ & Ea & _).
    destruct (IH (before ++ [(k, v)]) ((λ o, add o (k, x)) <$> o1) s1 Hs1) as (s2 & out' & ws & E & Hs2 & Hg2 & Hf & Hout).
    { intros u Hu. unfold found. rewrite Ea. apply Hl. by right. }
    { by rewrite Ea. }
    exists s2, out', (x :: ws). split; [exact E|]. split; [done|]. split; [by eapply walk_grows_trans|]. split.
    { rewrite Ea in Hf. constructor; [|done]. destruct Hg2 as (G1 & _ & _ & G3). by eapply image_grows. }
    unfold o1 in Hout. destruct out as [o|].
    + rewrite (bool_decide_false (Some o = None)), andb_false_r in Hout by done. exact Hout.
    + rewrite (bool_decide_true (None = None)), andb_true_r in Hout by done. destruct (strict_eq x v) eqn:Ex; simpl in Hout.
      * apply strict_eq_true in Ex as ->. destruct Hout as [[-> ->]|Hout]; [by left|right; rewrite Hout]. by rewrite <- app_assoc.
      * right. rewrite Hout. simpl. by rewrite foldl_app.
Qed.

Lemma container_walk (o : Obj) fuel r s : isWalkableContainer o = true →
  match o with
  | Array l => walkArray (walk fuel) r l s
  | MapObj l => walkMap (walk fuel) r l s
  | SetObj l => walkSet (walk fuel) r l s
  | Plain _ l => walkObject (walk fuel) r l s
  | _ => None
  end = alloc r <$> walk_loop (walk fuel) (fresh_of o) [] (entries_of o) None s.
Proof. by destruct o. Qed.

(** A walk into a container, with its entries walked. *)
Lemma enter_spec fuel r o s : walks (walk fuel) fuel → good s → h0 !! r = Some o → isWalkableContainer o = true →
  r ∉ active s → jm_get r (memo s) = None → found s (VRef r) → (length h0 <= S fuel + length (active s))%nat →
  ∃ s1 x, (alloc r <$> walk_loop (walk fuel) (fresh_of o) [] (entries_of o) None (mkContext (heap s) (r :: active s) (memo s) (entered s ++ [(r, r :: active s)]))) = Some (s1, x) ∧
    good s1 ∧ heap s `prefix_of` heap s1 ∧ entered s `prefix_of` entered s1 ∧ active s1 = r :: active s ∧ (∀ q y, jm_get q (memo s) = Some y → jm_get q (memo s1) = Some y) ∧
    result s1 r x.
Proof.
  intros Hw Hs Ho Hc Hr Hm Hp Hn. destruct Hs as [G1 G2 G3 G4 Gp Gu G5 G6 G7]. pose proof (lookup_lt_Some _ _ _ Ho) as Hlt.
  set (s0 := mkContext _ _ _ _). assert (Hs0 : good s0).
  { split; simpl.
    - done.
    - by constructor.
    - intros q [->|Hq]%elem_of_cons; [done|by apply G3].
    - intros q [->|Hq]%elem_of_cons; [done|by apply G4].
    - apply path_push; [done| |done]. by intros q Hq ->.
    - intros a q [E|Hq]%suffix_cons_inv; apply elem_of_app; [injection E as -> ->; right; left|left; by apply Gu].
    - rewrite fmap_app. apply NoDup_app. split; [done|]. split; [|by apply NoDup_singleton]. intros q Hq ->%list_elem_of_singleton.
      apply G6 in Hq as [Hin|[y Hy]]; [done|by simpl in Hy; rewrite Hm in Hy].
    - intros q. rewrite fmap_app, elem_of_app, elem_of_cons, G6. simpl. rewrite list_elem_of_singleton. naive_solver.
    - intros q y Hq. apply (result_grows s); [done|by eexists|done|by apply G7]. }
  destruct (walk_loop_spec _ _ (fresh_of o) (entries_of o) [] None s0 Hw Hs0) as (s1 & out & ws & -> & Hs1 & (B1 & B2 & Be & B3) & Hf & Hout).
  - intros v Hv. split; [by eapply h0_closed|]. intros q ->. by exists o.
  - simpl. lia.
  - assert (Hp1 : path_to r (active s1) ∧ ∀ a q, (a :: q) `suffix_of` active s1 → (a, a :: q) ∈ entered s1).
    { pose proof (go_path _ Hs1) as Hp1. pose proof (go_under _ Hs1) as Hu1. rewrite B2 in Hp1, Hu1 |- *. by split. }
    destruct Hp1 as [Hp1 Hu1]. rewrite <- B2 in Hf. assert (Hes : entered s `prefix_of` entered s1) by (etrans; [|exact Be]; by eexists).
    simpl in B1, B2, B3. simpl. destruct Hout as [[Hout Hws]|Hout]; subst out; unfold alloc; cbn [fst snd].
    + exists s1, (VRef r). split_and!; try done. exists (active s1), o, ws. split; [done|]. split; [done|]. split; [done|]. split; [done|]. left. by split.
    + set (s2 := with_heap _ s1). assert (Hpre : heap s1 `prefix_of` heap s2) by by apply prefix_app_r.
      assert (Hmm : ∀ q y, jm_get q (memo s1) = Some y → jm_get q (memo s2) = Some y) by done.
      exists s2, (VRef (length (heap s1))). split; [done|]. split.
      { destruct Hs1 as [K1 K2 K3 K4 Kp Ku K5 K6 K7]. split; try done; [by etrans|]. intros q y Hq. eapply result_grows; [done|done|done|by apply K7]. }
      split; [by etrans|]. split; [done|]. split; [done|]. split; [done|]. exists (active s1), o, ws. split; [done|]. split; [done|]. split; [done|]. split.
      * eapply images_grow; [|exact Hf]. by split_and!.
      * right. exists (length (heap s1)). split; [done|]. split; [|unfold s2; simpl; by rewrite lookup_app_r, Nat.sub_diag by lia].
        etrans; [by apply prefix_length, G1|]. by apply prefix_length.
Qed.

Lemma walk_spec fuel : walks (walk fuel) fuel.
Proof.
  induction fuel as [fuel IH] using (well_founded_induction lt_wf). intros v s Hs Hv Hp Hn. pose proof Hs as [G1 G2 G3 G4 Gp Gu G5 G6 G7]. destruct v as [p|r].
  { exists s, (VPrim p). split; [by destruct fuel|]. split; [done|]. split; [apply walk_grows_refl|done]. }
  destruct (lookup_lt_is_Some_2 _ _ Hv) as [o Ho]. pose proof (prefix_lookup_Some _ _ _ _ Ho G1) as Hso.
  assert (Hwalk : walk fuel (VRef r) s = walk fuel (VRef r) s) by done. revert Hwalk. generalize (walk fuel (VRef r) s) at 2 3. intros res Hwalk.
  assert (Hunf : res = (if is_cancellation o then let '(h, w) := replace (heap s) r in Some (with_heap h s, w)
    else if negb (isWalkableContainer o) then Some (s, VRef r) else match jm_get r (memo s) with Some w => Some (s, w) | None =>
      if bool_decide (r ∈ active s) then Some (s, VRef r) else match fuel with O => None | S fuel =>
        res ← alloc r <$> walk_loop (walk fuel) (fresh_of o) [] (entries_of o) None (mkContext (heap s) (r :: active s) (memo s) (entered s ++ [(r, r :: active s)]));
        Some (mkContext (heap res.1) (filter (.≠ r) (active res.1)) (jm_set r res.2 (memo res.1)) (entered res.1), res.2) end end)).
  { rewrite <- Hwalk. destruct fuel as [|fuel]; cbn [walk]; rewrite Hso; [done|]. destruct (is_cancellation o); [done|].
    destruct (isWalkableContainer o) eqn:Hc; [|done]. simpl. by rewrite (container_walk o) by done. }
  rewrite Hunf. clear res Hwalk Hunf.
  destruct (is_cancellation o) eqn:Hcan.
  { destruct (replace (heap s) r) as [h w] eqn:Hrep. pose proof (replace_extends (heap s) r) as Hext. rewrite Hrep in Hext. simpl in Hext.
    exists (with_heap h s), w. split; [done|]. split.
    { split; try done; [by etrans|]. intros q y Hq. eapply result_grows; [done|done|done|by apply G7]. }
    split; [by split_and!|]. exists o. split; [done|]. rewrite Hcan. by exists (heap s), h. }
  destruct (isWalkableContainer o) eqn:Hc; cbn [negb].
  2: { exists s, (VRef r). split; [done|]. split; [done|]. split; [apply walk_grows_refl|]. exists o. by rewrite Hcan, Hc. }
  destruct (jm_get r (memo s)) as [w|] eqn:Hm.
  { exists s, w. split; [done|]. split; [done|]. split; [apply walk_grows_refl|]. exists o. rewrite Hcan, Hc. split; [done|]. rewrite decide_False; [done|]. intros Hin. rewrite (G4 r Hin) in Hm. done. }
  case_bool_decide as Hr.
  { exists s, (VRef r). split; [done|]. split; [done|]. split; [apply walk_grows_refl|]. exists o. rewrite Hcan, Hc. split; [done|]. by rewrite decide_True. }
  assert (Hle : (S (length (active s)) <= length h0)%nat).
  { change (S (length (active s))) with (length (r :: active s)). rewrite <- (length_seq (length h0) 0). apply submseteq_length, NoDup_submseteq; [by constructor|].
    intros q [->|Hq]%elem_of_cons; apply elem_of_seq; [simpl in Hv; lia|]. specialize (G3 q Hq). lia. }
  destruct fuel as [|fuel]; [lia|].
  destruct (enter_spec fuel r o s (IH fuel ltac:(lia)) Hs Ho Hc Hr Hm Hp Hn) as (s1 & x & -> & Hs1 & A1 & Ae & A2 & A3 & A4).
  cbn [mbind option_bind fst snd]. set (s2 := mkContext _ _ _ _). exists s2, x. split; [done|].
  destruct Hs1 as [K1 K2 K3 K4 Kp Ku K5 K6 K7].
  assert (Hact : active s2 = active s).
  { simpl. rewrite A2, filter_cons_False by naive_solver. by apply delete_absent. }
  assert (Hmm : ∀ q y, jm_get q (memo s1) = Some y → jm_get q (memo s2) = Some y).
  { intros q y Hq. simpl. rewrite jm_get_set_ne; [done|]. intros <-. rewrite (K4 r) in Hq; [done|]. rewrite A2. left. }
  split.
  { split; rewrite ?Hact; try done.
    - intros q Hq. simpl. rewrite jm_get_set_ne by (by intros ->). apply K4. rewrite A2. by right.
    - intros a q Hq. simpl. apply Ku. rewrite A2. by apply suffix_cons_r.
    - intros q. simpl. rewrite K6, A2, elem_of_cons, jm_get_set. case_decide as Hrq; [subst; naive_solver|]. split; [|naive_solver]. intros [[?|?]|?]; naive_solver.
    - intros q y. simpl. rewrite jm_get_set. case_decide as Hrq; [subst q; intros [= <-]; exact (result_grows s1 s2 r x ltac:(simpl; reflexivity) ltac:(simpl; reflexivity) Hmm A4)|].
      intros Hq. exact (result_grows s1 s2 q y ltac:(simpl; reflexivity) ltac:(simpl; reflexivity) Hmm (K7 q y Hq)). }
  split; [split_and!; [done|done|done|by auto]|]. exists o. split; [done|]. rewrite Hcan, Hc, decide_False by done. simpl. by rewrite jm_get_set_eq.
Qed.
End image.
End walk.

(** ** What a copy holds *)

Lemma length_children (o : Obj) : length (children o) = length (entries_of o).
Proof. unfold children. by rewrite length_fmap. Qed.

Lemma push_all l ws : foldl add (Array l) (zip (pair KNone <$> ws).*1 ws) = Array (l ++ ws).
Proof.
  revert l. induction ws as [|w ws IH]; intros l; simpl; [by rewrite app_nil_r|]. by rewrite IH, <- app_assoc.
Qed.

Lemma set_absent {K V} `{EqDecision K} (k : K) (v : V) m : k ∉ m.*1 → jm_set k v m = m ++ [(k, v)].
Proof.
  induction m as [|[k' v'] m IH]; [done|]. intros [H1 H2]%not_elem_of_cons. simpl in *. rewrite decide_False by congruence. by rewrite IH.
Qed.

Lemma assign_all p (ks : list string) : ∀ m ws, length ws = length ks → NoDup (m.*1 ++ ks) → "__proto__"%string ∉ ks →
  foldl add (Plain p m) (zip (KName <$> ks) ws) = Plain p (m ++ zip ks ws).
Proof.
  induction ks as [|k ks IH]; intros m ws Hlen Hnd Hp; destruct ws as [|w ws]; try done; [by rewrite app_nil_r|].
  apply not_elem_of_cons in Hp as [Hk Hp]. cbn [foldl fmap list_fmap zip]. injection Hlen as Hlen. apply NoDup_app in Hnd as (H1 & H2 & H3). apply NoDup_cons in H3 as [H3 H4].
  simpl. rewrite bool_decide_false by naive_solver. rewrite set_absent by (intros Hin; apply (H2 k Hin); left). rewrite (IH (m ++ [(k, w)]) ws); [by rewrite <- app_assoc|done| |done].
  rewrite fmap_app, <- app_assoc. simpl. apply NoDup_app. split; [done|]. split; [done|by constructor].
Qed.

Lemma store_all (ks : list Val) : ∀ m ws, length ws = length ks → NoDup (m.*1 ++ ks) →
  foldl add (MapObj m) (zip (KVal <$> ks) ws) = MapObj (m ++ zip ks ws).
Proof.
  induction ks as [|k ks IH]; intros m ws Hlen Hnd; destruct ws as [|w ws]; try done; [by rewrite app_nil_r|].
  cbn [foldl fmap list_fmap zip]. injection Hlen as Hlen. apply NoDup_app in Hnd as (H1 & H2 & H3). apply NoDup_cons in H3 as [H3 H4].
  simpl. rewrite set_absent by (intros Hin; apply (H2 k Hin); left). rewrite (IH (m ++ [(k, w)]) ws); [by rewrite <- app_assoc|done|].
  rewrite fmap_app, <- app_assoc. simpl. apply NoDup_app. split; [done|]. split; [done|by constructor].
Qed.

(** Values in the places of a container's own: the entries of a copy. *)
Lemma rebuilt_shape o ws : length ws = length (children o) →
  match o with
  | Array _ => rebuilt o ws = Array ws
  | MapObj l => NoDup l.*1 → rebuilt o ws = MapObj (zip l.*1 ws)
  | SetObj _ => rebuilt o ws = SetObj (foldl (λ l w, set_add w l) [] ws)
  | Plain _ l => NoDup l.*1 → "__proto__"%string ∉ l.*1 → rebuilt o ws = Plain ObjectPrototype (zip l.*1 ws)
  | _ => True
  end.
Proof.
  rewrite length_children. destruct o as [| | | |l|l|l|p l]; try done; cbn [entries_of]; rewrite length_fmap; intros Hlen; unfold rebuilt; cbn [entries_of fresh_of].
  - rewrite <- (push_all [] ws : _ = Array ws). f_equal. f_equal. rewrite <- !list_fmap_compose. clear -Hlen. revert ws Hlen.
    induction l as [|a l IH]; intros [|w ws]; try done. intros [= Hlen]. simpl. f_equal. by apply IH.
  - intros Hnd. assert (E : (prod_map KVal id <$> l).*1 = KVal <$> l.*1) by (rewrite <- !list_fmap_compose; by apply list_fmap_ext). rewrite E.
    apply (store_all _ [] ws); [by rewrite length_fmap|done].
  - assert (E : ∀ a, foldl add (SetObj a) (zip (pair KNone <$> l).*1 ws) = SetObj (foldl (λ l w, set_add w l) a ws)); [|by rewrite E].
    clear -Hlen. revert ws Hlen. induction l as [|b l IH]; intros [|w ws]; try done. intros [= Hlen] a. simpl. by apply IH.
  - intros Hnd Hp. assert (E : (prod_map KName id <$> l).*1 = KName <$> l.*1) by (rewrite <- !list_fmap_compose; by apply list_fmap_ext). rewrite E.
    apply (assign_all _ _ [] ws); [by rewrite length_fmap|done|done].
Qed.

Lemma good_start replace h v : good replace h v (mkContext h [] [] []).
Proof.
  split; simpl; try done; try constructor.
  - intros r Hr. by apply elem_of_nil in Hr.
  - intros a q Hq%suffix_nil_inv. done.
  - intros Hr. by apply elem_of_nil in Hr.
  - by intros [Hr%elem_of_nil|[? ?]].
Qed.
Lemma walk_ends replace h v : (∀ h r, h `prefix_of` (replace h r).1) → closed h → val_in h v →
  ∃ s w, mapCancellationValues replace h v = Some (s, w) ∧ good replace h v s ∧ image replace h [] s v w.
Proof.
  intros Hrep Hcl Hv. destruct (walk_spec replace h v Hrep Hcl (length h) v (mkContext h [] [] []) (good_start replace h v) Hv) as (s & w & Hw & Hg & _ & Hi); simpl; [done|lia|].
  by exists s, w.
Qed.

(** C31: A walk rewrites every cancellation value that an argument reaches. Of any
    arguments, shared and cyclic ones too: the walk ends and goes into each container
    once at most, by one path from the argument; what the caller passed is not
    written; and the result stands for the argument: a cancellation value is what it
    was replaced by, and every reference to a container is one reference to its
    result, which holds the results of its values in their places. Only a reference
    from a container to one on the path it was entered by, itself included, stays;
    each such reference does, and the argument itself is no such reference. What
    replaces a value may make objects but writes none that is there. *)
Theorem walk_rewrites replace h v : (∀ h r, h `prefix_of` (replace h r).1) → closed h → val_in h v →
  ∃ s w, mapCancellationValues replace h v = Some (s, w) ∧ h `prefix_of` heap s ∧ NoDup (entered s).*1 ∧
    image replace h [] s v w ∧ ∀ r x, jm_get r (memo s) = Some x → result replace h v s r x.
Proof. intros Hrep Hcl Hv. destruct (walk_ends replace h v Hrep Hcl Hv) as (s & w & Hw & [] & Hi). by exists s, w. Qed.

(** ** Arguments without cancellation values *)

Section untouched.
Variable replace : list Obj → nat → list Obj * Val.
Variable h : list Obj.
Variable P : nat → Prop.

(** A set of objects, closed under the values of its containers, without
    cancellation values and without [NaN]. *)
Definition plain_args : Prop := ∀ r, P r → ∃ o, h !! r = Some o ∧ is_cancellation o = false ∧
  (isWalkableContainer o = true → ∀ c, c ∈ children o → c ≠ VPrim NaN ∧ ∀ r', c = VRef r' → P r').
Hypothesis HP : plain_args.

Definition unwritten (s : WalkContext) : Prop := heap s = h ∧ ∀ r x, jm_get r (memo s) = Some x → x = VRef r.
Definition keeps (w : Val → WalkContext → option (WalkContext * Val)) : Prop := ∀ v s s' x, unwritten s → (∀ r, v = VRef r → P r) →
  w v s = Some (s', x) → x = v ∧ unwritten s'.

Lemma strict_eq_refl v : v ≠ VPrim NaN → strict_eq v v = true.
Proof. intros Hv. unfold strict_eq. destruct v as [[]|]; try done; by apply bool_decide_eq_true. Qed.

Lemma loop_keeps w fresh l before s s' out : keeps w → unwritten s → (∀ c, c ∈ l.*2 → c ≠ VPrim NaN ∧ ∀ r', c = VRef r' → P r') →
  walk_loop w fresh before l None s = Some (s', out) → out = None ∧ unwritten s'.
Proof.
  intros Hw. revert before s. induction l as [|[k v] l IH]; intros before s Hs Hl; [by intros [= <- <-]|].
  cbn [walk_loop snd]. destruct (w v s) as [[s1 x]|] eqn:E; [|done]. destruct (Hl v) as [Hn Hr]; [left|].
  destruct (Hw v s s1 x Hs Hr E) as [-> Hs1]. simpl. rewrite strict_eq_refl by done. simpl. intros H. eapply IH; [exact Hs1| |exact H]. intros c Hc. apply Hl. by right.
Qed.

Lemma walk_keeps fuel : keeps (walk replace fuel).
Proof.
  induction fuel as [fuel IH] using (well_founded_induction lt_wf). intros v s s' x [Hh Hm] Hv. destruct v as [p|r]; [destruct fuel; simpl; by intros [= <- <-]|].
  destruct (HP r (Hv r eq_refl)) as (o & Ho & Hc & Hch).
  assert (Hunf : walk replace fuel (VRef r) s = (if negb (isWalkableContainer o) then Some (s, VRef r) else match jm_get r (memo s) with Some w => Some (s, w) | None =>
      if bool_decide (r ∈ active s) then Some (s, VRef r) else match fuel with O => None | S fuel =>
        res ← alloc r <$> walk_loop (walk replace fuel) (fresh_of o) [] (entries_of o) None (mkContext (heap s) (r :: active s) (memo s) (entered s ++ [(r, r :: active s)]));
        Some (mkContext (heap res.1) (filter (.≠ r) (active res.1)) (jm_set r res.2 (memo res.1)) (entered res.1), res.2) end end)).
  { destruct fuel as [|fuel]; cbn [walk]; rewrite Hh, Ho, Hc; [done|]. destruct (isWalkableContainer o) eqn:Hco; [|done]. simpl. by rewrite (container_walk _ o) by done. }
  rewrite Hunf. destruct (isWalkableContainer o) eqn:Hco; cbn [negb]; [|by intros [= <- <-]].
  destruct (jm_get r (memo s)) as [w|] eqn:Hmr; [intros [= <- <-]; split; [by apply Hm|done]|]. case_bool_decide; [by intros [= <- <-]|].
  destruct fuel as [|fuel]; [done|]. destruct (walk_loop _ _ _ _ _ _) as [[s1 out]|] eqn:E; [|done].
  apply loop_keeps in E as [-> [H1 H2]]; [|by apply IH; lia|by split|exact (Hch eq_refl)]. simpl. intros [= <- <-]. split; [done|]. split; [done|].
  intros q y. simpl. rewrite jm_get_set. case_decide; [intros [= <-]; by f_equal|apply H2].
Qed.
End untouched.

(** An argument without cancellation values is passed as it is. If none is
    reached, and no [NaN]: the walk gives the argument itself, and makes no object. *)
Theorem walk_keeps_untouched replace h v P : (∀ h r, h `prefix_of` (replace h r).1) → closed h → val_in h v →
  plain_args h P → (∀ r, v = VRef r → P r) →
  ∃ s, mapCancellationValues replace h v = Some (s, v) ∧ heap s = h.
Proof.
  intros Hrep Hcl Hv HP Hr. destruct (walk_ends replace h v Hrep Hcl Hv) as (s & w & Hw & _).
  assert (H0 : unwritten h (mkContext h [] [] [])) by by split.
  destruct (walk_keeps replace h P HP (length h) v (mkContext h [] [] []) s w H0 Hr Hw) as [-> [Hh _]]. by exists s.
Qed.

(** ** Runs *)

Module Runs.
(** Signals become tokens of the same number. *)
Definition to_token (h : list Obj) (r : nat) : list Obj * Val :=
  match h !! r with Some (Signal x) => (h ++ [Token x], VRef (length h)) | _ => (h, VRef r) end.
Lemma to_token_extends h r : h `prefix_of` (to_token h r).1.
Proof. unfold to_token. destruct (h !! r) as [[]|]; simpl; try done. by apply prefix_app_r. Qed.

(** A record that holds a request with a signal twice. *)
Definition shared : list Obj :=
  [Signal 7; Plain ObjectPrototype [("signal"%string, VRef 0); ("n"%string, VPrim (Other "1"))]; Array [VRef 1; VPrim Null; VRef 1]; Plain ObjectPrototype [("m"%string, VPrim Undefined)];
   Array [VRef 2; VRef 3]].
Lemma shared_closed : closed shared.
Proof.
  intros r o v Hr Hv. do 5 (destruct r as [|r]; [injection Hr as <-; revert v Hv; apply Forall_forall; repeat constructor; simpl; lia|]). done.
Qed.

Lemma walk_rewrites_witness :
  ∃ s w, mapCancellationValues to_token shared (VRef 4) = Some (s, w) ∧
    heap s = shared ++ [Token 7; Plain ObjectPrototype [("signal"%string, VRef 5); ("n"%string, VPrim (Other "1"))]; Array [VRef 6; VPrim Null; VRef 6]; Array [VRef 7; VRef 3]] ∧
    w = VRef 8 ∧ image to_token shared [] s (VRef 4) w.
Proof.
  assert (E : ∃ s w, mapCancellationValues to_token shared (VRef 4) = Some (s, w) ∧
    heap s = shared ++ [Token 7; Plain ObjectPrototype [("signal"%string, VRef 5); ("n"%string, VPrim (Other "1"))]; Array [VRef 6; VPrim Null; VRef 6]; Array [VRef 7; VRef 3]] ∧
    w = VRef 8) by (vm_compute; eexists _, _; repeat split; reflexivity).
  destruct E as (s & w & E & Eh & Ew).
  destruct (walk_rewrites to_token shared (VRef 4) to_token_extends shared_closed) as (s' & w' & E' & _ & _ & Hi & _); [simpl; lia|].
  rewrite E in E'. injection E' as <- <-. exists s, w. split; [exact E|]. split; [exact Eh|]. split; [exact Ew|exact Hi].
Defined.

Lemma walk_keeps_untouched_witness :
  ∃ s, mapCancellationValues to_token shared (VRef 3) = Some (s, VRef 3) ∧ heap s = shared.
Proof.
  apply (walk_keeps_untouched to_token shared (VRef 3) (λ r, r = 3%nat) to_token_extends shared_closed).
  - simpl. lia.
  - intros r ->. eexists. split; [reflexivity|]. split; [reflexivity|]. intros _ c Hc. apply list_elem_of_singleton in Hc as ->. split; [discriminate|done].
  - intros r [= <-]. reflexivity.
Defined.

(** A container with [NaN] is copied, although nothing in it changes. *)
Theorem nan_copied :
  (λ r, (heap r.1, r.2)) <$> mapCancellationValues to_token [Array [VPrim NaN]] (VRef 0) = Some ([Array [VPrim NaN]; Array [VPrim NaN]], VRef 1).
Proof. vm_compute. reflexivity. Qed.

(** A record that refers to itself: its copy has the signal replaced, and refers to
    the record that was passed. *)
Theorem self_reference_stays :
  (λ r, (drop 2 (heap r.1), r.2)) <$> mapCancellationValues to_token [Signal 7; Plain ObjectPrototype [("signal"%string, VRef 0); ("self"%string, VRef 1)]] (VRef 1) =
  Some ([Token 7; Plain ObjectPrototype [("signal"%string, VRef 2); ("self"%string, VRef 1)]], VRef 3).
Proof. vm_compute. reflexivity. Qed.

(** Two records that refer to each other, both passed: what the second one became
    inside the walk of the first is its result, and keeps the first with its signal. *)
Definition cyclic : list Obj :=
  [Signal 7; Plain ObjectPrototype [("other"%string, VRef 2); ("signal"%string, VRef 0)]; Plain ObjectPrototype [("other"%string, VRef 1); ("signal"%string, VRef 0)]; Array [VRef 1; VRef 2]].
Theorem cycle_keeps_signal :
  (λ r, (drop 4 (heap r.1), r.2)) <$> mapCancellationValues to_token cyclic (VRef 3) =
  Some ([Token 7; Plain ObjectPrototype [("other"%string, VRef 1); ("signal"%string, VRef 4)]; Token 7; Plain ObjectPrototype [("other"%string, VRef 5); ("signal"%string, VRef 6)]; Array [VRef 7; VRef 5]], VRef 8).
Proof. vm_compute. reflexivity. Qed.

(** An own property [__proto__] is lost by a copy, which it becomes the prototype of. *)
Theorem proto_becomes_prototype :
  (λ r, (drop 3 (heap r.1), r.2)) <$> mapCancellationValues to_token [Signal 7; Plain ObjectPrototype []; Plain ObjectPrototype [("__proto__"%string, VRef 1); ("signal"%string, VRef 0)]] (VRef 2) =
  Some ([Token 7; Plain (OtherPrototype 1) [("signal"%string, VRef 3)]], VRef 4).
Proof. vm_compute. reflexivity. Qed.
End Runs.
