(* ===== verification/Cancellation.v ===== *)
(** * Cancellation tokens

    Models [packages/core/src/grain-cancellation-token.ts] (the class
    [GrainCancellationTokenSource] and where a token's targets are recorded),
    [packages/runtime/src/cancellation-extension.ts] (the class
    [CancellationSourcesExtension]), the tokens that stand for signals in
    [grain-factory.ts] ([tokenForSignal]) and their binding in [activation.ts]
    ([bindCancellationValue]): one system of sources, activations, calls on their
    way and cancellations on their way.

    Signals are numbers into the list of those made, each with what owns it. A token
    id is the number of its source. A grain is the string of its id, by which the
    code tells targets apart. Callbacks that grains register are not modelled.

    Two simplifications bound what the theorems say. An extension stays with its
    grain: in the code it goes with the activation, so that a grain that deactivates
    forgets the tokens it was bound to, and workers of one id have one each. And a
    cancellation on its way arrives: in the code it is a call, which can fail and is
    not made again. *)
From Stdlib Require Import String.
From stdpp Require Import prelude gmap strings list.
From S2P Require Import Prelude JsMap.

Inductive Owner := User | SourceOf (k : nat) | ExtensionOf (g : string) (k : nat).
#[export] Instance Owner_eq_dec : EqDecision Owner.
Proof. solve_decision. Defined.

Record Source := mkSource { tokenSignal : nat; controller : nat; targets : list string }.
Record Extension := mkExtension {
  controllers : list (nat * nat);
  forwardedTargets : list (nat * list string);
  cancelled : list nat }.
Definition new_extension : Extension := mkExtension [] [] [].

(** Who holds a token: its source's side, or an activation it was bound at. *)
Inductive TokenHolder := OfSource (k : nat) | OfExtension (g : string) (k : nat).
Definition holder_token (u : TokenHolder) : nat := match u with OfSource k | OfExtension _ k => k end.

(** A call on its way with a token: whether it was cancelled when it was encoded. *)
Record Call := mkCall { call_holder : TokenHolder; call_target : string; call_cancelled : option bool }.
Definition call_token (c : Call) : nat := holder_token (call_holder c).

Record System := mkSystem {
  signals : list (Owner * bool);
  sources : list Source;
  signalTokens : list (nat * nat);
  extensions : list (string * Extension);
  cancels : list (string * nat);
  calls : list Call }.

Definition with_signals l (s : System) := mkSystem l (sources s) (signalTokens s) (extensions s) (cancels s) (calls s).
Definition with_sources l (s : System) := mkSystem (signals s) l (signalTokens s) (extensions s) (cancels s) (calls s).
Definition with_tokens l (s : System) := mkSystem (signals s) (sources s) l (extensions s) (cancels s) (calls s).
Definition with_extensions l (s : System) := mkSystem (signals s) (sources s) (signalTokens s) l (cancels s) (calls s).
Definition with_cancels l (s : System) := mkSystem (signals s) (sources s) (signalTokens s) (extensions s) l (calls s).
Definition with_calls l (s : System) := mkSystem (signals s) (sources s) (signalTokens s) (extensions s) (cancels s) l.

Definition aborted (x : nat) (s : System) : bool := match signals s !! x with Some (_, b) => b | None => false end.
Definition mark (x : nat) (s : System) : System := with_signals (alter (λ ob, (ob.1, true)) x (signals s)) s.
Definition send_cancels (k : nat) (gs : list string) (s : System) : System := with_cancels (cancels s ++ ((λ g, (g, k)) <$> gs)) s.

(** [GrainCancellationTokenSource.cancel]. *)
Definition cancel_with (abort : nat → System → System) (k : nat) (s : System) : System :=
  match sources s !! k with
  | Some c => send_cancels k (targets c) (abort (controller c) s)
  | None => s
  end.
(** A signal aborts once, and with it the source of the token that stands for it. The
    fuel bounds the chain of such sources. *)
Fixpoint abort (fuel : nat) (x : nat) (s : System) : System :=
  if aborted x s then s
  else
    let s := mark x s in
    match fuel with
    | O => s
    | S fuel => match jm_get x (signalTokens s) with Some k => cancel_with (abort fuel) k s | None => s end
    end.
Definition abort_signal (x : nat) (s : System) : System := abort (length (signals s)) x s.
Definition cancel (k : nat) (s : System) : System := cancel_with abort_signal k s.

Definition new_signal (o : Owner) (s : System) : System * nat := (with_signals (signals s ++ [(o, false)]) s, length (signals s)).
Definition new_source (origin : option nat) (s : System) : System * nat :=
  let k := length (sources s) in
  let '(s, c) := new_signal (SourceOf k) s in
  (with_sources (sources s ++ [mkSource (default c origin) c []]) s, k).

(** [GrainFactory.tokenForSignal]. *)
Definition tokenForSignal (x : nat) (s : System) : System * nat :=
  match jm_get x (signalTokens s) with
  | Some k => (s, k)
  | None =>
      let '(s, k) := new_source (Some x) s in
      let s := if aborted x s then cancel k s else s in
      (with_tokens (jm_set x k (signalTokens s)) s, k)
  end.

Definition extension (g : string) (s : System) : Extension := default new_extension (jm_get g (extensions s)).
Definition put_extension (g : string) (e : Extension) (s : System) : System := with_extensions (jm_set g e (extensions s)) s.

Definition getOrCreateController (g : string) (k : nat) (s : System) : System * nat :=
  match jm_get k (controllers (extension g s)) with
  | Some x => (s, x)
  | None =>
      let '(s, x) := new_signal (ExtensionOf g k) s in
      let e := extension g s in
      (put_extension g (mkExtension (jm_set k x (controllers e)) (forwardedTargets e) (cancelled e)) s, x)
  end.

Definition add_target (g : string) (l : list string) : list string := if decide (g ∈ l) then l else l ++ [g].
Definition recordTarget (g : string) (c : Source) : Source := mkSource (tokenSignal c) (controller c) (add_target g (targets c)).
Definition forwarded (k : nat) (e : Extension) : list string := default [] (jm_get k (forwardedTargets e)).
Definition recordForwardTarget (k : nat) (g : string) (e : Extension) : Extension :=
  mkExtension (controllers e) (jm_set k (add_target g (forwarded k e)) (forwardedTargets e)) (cancelled e).
Definition recordCancellationTarget (u : TokenHolder) (g : string) (s : System) : System :=
  match u with
  | OfSource k => with_sources (alter (recordTarget g) k (sources s)) s
  | OfExtension a k => put_extension a (recordForwardTarget k g (extension a s)) s
  end.

Definition cancelRemoteToken (g : string) (k : nat) (s : System) : System :=
  let e := extension g s in
  if bool_decide (k ∈ cancelled e) then s
  else
    let s := put_extension g (mkExtension (controllers e) (forwardedTargets e) (cancelled e ++ [k])) s in
    let '(s, x) := getOrCreateController g k s in
    let s := abort_signal x s in
    send_cancels k (forwarded k (extension g s)) s.

Definition bindCancellationValue (g : string) (k : nat) (was_cancelled : bool) (s : System) : System :=
  let '(s, x) := getOrCreateController g k s in
  if was_cancelled then abort_signal x s else s.

(** The signal of a holder's token. *)
Definition holder_signal (u : TokenHolder) (s : System) : option nat :=
  match u with
  | OfSource k => tokenSignal <$> sources s !! k
  | OfExtension g k => jm_get k (controllers (extension g s))
  end.

(** ** The system *)

(** Callers abort their own signals and cancel their own sources. A call is begun
    with a signal or with a token that its sender holds, is encoded later, and
    arrives later. Calls between grains of one silo pass the token itself: they are
    begun, and never encoded. *)
Inductive Op :=
  | NewSignal
  | AbortSignal (x : nat)
  | NewSource
  | Cancel (k : nat)
  | SendSignal (x : nat) (g : string)
  | SendToken (u : TokenHolder) (g : string)
  | Encode (i : nat)
  | Arrive (i : nat)
  | DeliverCancel (i : nat).

Definition begin_call (u : TokenHolder) (g : string) (s : System) : System :=
  let s := recordCancellationTarget u g s in with_calls (calls s ++ [mkCall u g None]) s.

Definition system_step (o : Op) (s : System) : System :=
  match o with
  | NewSignal => (new_signal User s).1
  | AbortSignal x => match signals s !! x with Some (User, _) => abort_signal x s | _ => s end
  | NewSource => (new_source None s).1
  | Cancel k => match sources s !! k with Some c => if bool_decide (tokenSignal c = controller c) then cancel k s else s | None => s end
  | SendSignal x g => match signals s !! x with Some _ => let '(s, k) := tokenForSignal x s in begin_call (OfSource k) g s | None => s end
  | SendToken u g => match holder_signal u s with Some _ => begin_call u g s | None => s end
  | Encode i =>
      match calls s !! i with
      | Some (mkCall u g None) =>
          match holder_signal u s with Some x => with_calls (<[i := mkCall u g (Some (aborted x s))]> (calls s)) s | None => s end
      | _ => s
      end
  | Arrive i =>
      match calls s !! i with
      | Some (mkCall u g (Some b)) => bindCancellationValue g (holder_token u) b (with_calls (delete i (calls s)) s)
      | _ => s
      end
  | DeliverCancel i =>
      match cancels s !! i with
      | Some (g, k) => cancelRemoteToken g k (with_cancels (delete i (cancels s)) s)
      | None => s
      end
  end.
Definition new_system : System := mkSystem [] [] [] [] [] [].
Definition system_run (ops : list Op) : System := foldl (λ s o, system_step o s) new_system ops.

(** ** A cancellation is on its way to whoever needs it *)

Definition cancelled_at (s : System) (k : nat) (g : string) : Prop := k ∈ cancelled (extension g s).
Definition controller_at (s : System) (k : nat) (g : string) (x : nat) : Prop := jm_get k (controllers (extension g s)) = Some x.
Definition forwards (s : System) (k : nat) (u g : string) : Prop := g ∈ forwarded k (extension u s).

(** A grain that the token's cancellation will be sent to: it is on its way there, or
    follows from the source's targets and the activations that forwarded the token. *)
Inductive promised (s : System) (k : nat) : string → Prop :=
  | promised_sent g : (g, k) ∈ cancels s → promised s k g
  | promised_target c g : sources s !! k = Some c → aborted (controller c) s = false → g ∈ targets c → promised s k g
  | promised_forward u g : ¬ cancelled_at s k u → forwards s k u g → promised s k u → promised s k g.

(** What one step leaves of the promises; but for those [P] that it still has to
    keep: of a source, or of an activation. *)
Record later (P : nat → option string → Prop) (s s' : System) : Prop := {
  la_sent : ∀ g k, (g, k) ∈ cancels s → (g, k) ∈ cancels s' ∨ cancelled_at s' k g;
  la_target : ∀ k c g, ¬ P k None → sources s !! k = Some c → aborted (controller c) s = false → g ∈ targets c →
    (∃ c', sources s' !! k = Some c' ∧ aborted (controller c') s' = false ∧ g ∈ targets c') ∨ (g, k) ∈ cancels s' ∨ cancelled_at s' k g;
  la_forward : ∀ k u g, ¬ P k (Some u) → ¬ cancelled_at s k u → forwards s k u g → (¬ cancelled_at s' k u ∧ forwards s' k u g) ∨ (g, k) ∈ cancels s' ∨ cancelled_at s' k g;
  la_cancelled : ∀ k g, cancelled_at s k g → cancelled_at s' k g;
  la_aborted : ∀ x, aborted x s = true → aborted x s' = true;
  la_source : ∀ k c, sources s !! k = Some c → ∃ c', sources s' !! k = Some c' ∧ tokenSignal c' = tokenSignal c ∧ controller c' = controller c;
  la_controller : ∀ k g x, controller_at s k g x → controller_at s' k g x }.

Definition none : nat → option string → Prop := λ _ _, False.

Lemma later_refl P s : later P s s.
Proof. split; try tauto; [|by eauto]. intros k c g _ Hk Ha Hg. left. by exists c. Qed.

Lemma later_trans P s1 s2 s3 : later P s1 s2 → later P s2 s3 → later P s1 s3.
Proof.
  intros [A1 A2 A3 A4 A5 A6 A7] [B1 B2 B3 B4 B5 B6 B7]. split.
  - intros g k Hg. destruct (A1 g k Hg); [by apply B1|right; by apply B4].
  - intros k c g Hk Hc Ha Hg. destruct (A2 k c g Hk Hc Ha Hg) as [(c' & H1 & H2 & H3)|[H|H]]; [by eapply B2|right; by apply B1|right; right; by apply B4].
  - intros k u g HP Hu Hg. destruct (A3 k u g HP Hu Hg) as [[H1 H2]|[H|H]]; [by apply B3|right; by apply B1|right; right; by apply B4].
  - auto.
  - auto.
  - intros k c Hc. destruct (A6 k c Hc) as (c' & Hc' & E1 & E2). destruct (B6 k c' Hc') as (c'' & Hc'' & E3 & E4). exists c''. split_and!; [done|congruence..].
  - auto.
Qed.

Lemma promised_later s s' k g : later none s s' → promised s k g → promised s' k g ∨ cancelled_at s' k g.
Proof.
  intros [A1 A2 A3 A4 A5 A6 A7]. induction 1 as [g Hg|c g Hc Ha Hg|u g Hu Hg _ IH].
  - destruct (A1 g k Hg); [left; by apply promised_sent|by right].
  - destruct (A2 k c g) as [(c' & H1 & H2 & H3)|[H|H]]; [by intros []|done..|left; by eapply promised_target|left; by apply promised_sent|by right].
  - destruct (A3 k u g) as [[H1 H2]|[H|H]]; [by intros []|done|done| |left; by apply promised_sent|by right]. destruct IH as [IH|IH]; [|done]. left. by eapply promised_forward.
Qed.

(** ** The state of the system *)

Definition signal_owner (x : nat) (s : System) : option Owner := fst <$> signals s !! x.

Record wf (s : System) : Prop := {
  wf_controller : ∀ k c, sources s !! k = Some c → signal_owner (controller c) s = Some (SourceOf k) ∧ is_Some (signal_owner (tokenSignal c) s) ∧ (tokenSignal c <= controller c)%nat;
  wf_token : ∀ x k, jm_get x (signalTokens s) = Some k → ∃ c, sources s !! k = Some c ∧ tokenSignal c = x ∧ (x < controller c)%nat;
  wf_linked : ∀ k c, sources s !! k = Some c → tokenSignal c ≠ controller c → jm_get (tokenSignal c) (signalTokens s) = Some k;
  wf_extension : ∀ k g x, controller_at s k g x → signal_owner x s = Some (ExtensionOf g k) }.

(** A source is cancelled when the signal of its token is; but for those [P] that are
    being cancelled. *)
Definition mirrored (P : Source → Prop) (s : System) : Prop := ∀ k c, sources s !! k = Some c →
  (aborted (tokenSignal c) s = true → aborted (controller c) s = true ∨ P c).
Definition mirrors (P : Source → Prop) (s : System) : Prop := ∀ k c, sources s !! k = Some c →
  (aborted (controller c) s = true ∨ P c → aborted (tokenSignal c) s = true).

Definition same_but_signals (s s' : System) : Prop :=
  sources s' = sources s ∧ signalTokens s' = signalTokens s ∧ extensions s' = extensions s ∧ calls s' = calls s ∧
  length (signals s') = length (signals s) ∧ (∀ x, signal_owner x s' = signal_owner x s).

Lemma same_refl s : same_but_signals s s.
Proof. by split_and!. Qed.
Lemma same_trans s1 s2 s3 : same_but_signals s1 s2 → same_but_signals s2 s3 → same_but_signals s1 s3.
Proof. intros (A1 & A2 & A3 & A4 & A5 & A6) (B1 & B2 & B3 & B4 & B5 & B6). split_and!; [congruence..|]. intros x. by rewrite B6. Qed.
Lemma same_wf s s' : same_but_signals s s' → wf s → wf s'.
Proof.
  intros (A1 & A2 & A3 & A4 & A5 & A6) [W1 W2 W3 W4]. unfold controller_at, extension in *. split; rewrite ?A1, ?A2; unfold controller_at, extension; rewrite ?A3; intros.
  - rewrite !A6. by apply W1.
  - by apply W2.
  - by apply W3.
  - rewrite A6. by apply W4.
Qed.

Lemma owner_mark x y s : signal_owner y (mark x s) = signal_owner y s.
Proof.
  unfold signal_owner, mark. simpl. destruct (decide (x = y)) as [->|Hne]; [|by rewrite list_lookup_alter_ne]. rewrite list_lookup_alter_eq. by destruct (signals s !! y).
Qed.
Lemma aborted_mark x y s : aborted y (mark x s) = aborted y s || bool_decide (x = y ∧ is_Some (signal_owner x s)).
Proof.
  unfold aborted, signal_owner, mark. simpl. destruct (decide (x = y)) as [->|Hne].
  - rewrite list_lookup_alter_eq. destruct (signals s !! y) as [[o b]|]; simpl.
    + rewrite bool_decide_true by (split; [done|by eexists]). by rewrite orb_true_r.
    + by rewrite bool_decide_false by (by intros [_ [? ?]]).
  - rewrite list_lookup_alter_ne by done. rewrite bool_decide_false by (by intros [? _]). by rewrite orb_false_r.
Qed.
Lemma mark_same x s : same_but_signals s (mark x s).
Proof. split_and!; try done; [apply length_alter|]. intros y. apply owner_mark. Qed.

Lemma send_later P k gs s : later P s (send_cancels k gs s).
Proof.
  split; try done.
  - intros g k' Hg. left. simpl. apply elem_of_app. by left.
  - intros k' c g _ Hk Ha Hg. left. by exists c.
  - intros k' u g _ Hu Hg. by left.
  - intros k' c Hc. by exists c.
Qed.

(** What an abort leaves: nothing else than the sources that depend on it changed. *)
Record aborts (P : nat → option string → Prop) (x : nat) (s s' : System) : Prop := {
  ab_same : same_but_signals s s';
  ab_later : later P s s';
  ab_marked : aborted x s' = true;
  ab_mirrored : mirrored (λ _, False) s';
  ab_mirrors : mirrors (λ _, False) s';
  ab_only : ∀ y, aborted y s' = true → aborted y s = true ∨ y = x ∨ ∃ k, signal_owner y s = Some (SourceOf k);
  ab_sent : ∀ g k, (g, k) ∈ cancels s' → (g, k) ∈ cancels s ∨ ∃ c, sources s !! k = Some c ∧ aborted (controller c) s' = true }.

Definition of_controller (x : nat) (s : System) : nat → option string → Prop := λ k o, o = None ∧ ∃ c, sources s !! k = Some c ∧ controller c = x.

Lemma later_weaken P s s' : later none s s' → later P s s'.
Proof.
  intros [A1 A2 A3 A4 A5 A6 A7]. split; try done; [intros k c g _; apply A2; by intros []|intros k u g _; apply A3; by intros []].
Qed.

Lemma mark_later x s : later (of_controller x s) s (mark x s).
Proof.
  split; try done.
  - intros g k Hg. by left.
  - intros k c g Hk Hc Ha Hg. left. exists c. split; [done|]. split; [|done]. rewrite aborted_mark, Ha. simpl. apply bool_decide_eq_false.
    intros [E _]. apply Hk. split; [done|]. by exists c.
  - intros k u g _ Hu Hg. by left.
  - intros y Hy. by rewrite aborted_mark, Hy.
  - intros k c Hc. by exists c.
Qed.

Lemma one_controller s k k' c c' : wf s → sources s !! k = Some c → sources s !! k' = Some c' → controller c = controller c' → k = k'.
Proof.
  intros Hwf Hk Hk' E. destruct (wf_controller s Hwf k c Hk) as (O & _), (wf_controller s Hwf k' c' Hk') as (O' & _). rewrite E, O' in O. by injection O.
Qed.

(** Once its controller is aborted, a source tells its targets. *)
Lemma tell_targets k c s s' : wf s → sources s !! k = Some c → sources s' = sources s → later (of_controller (controller c) s) s s' →
  later none s (send_cancels k (targets c) s').
Proof.
  intros Hwf Hk Es Hl. pose proof (later_trans _ _ _ _ Hl (send_later _ k (targets c) s')) as [A1 A2 A3 A4 A5 A6 A7]. split; try done; [|intros k' u g _; apply A3; by intros []].
  intros k' c' g _ Hk' Ha Hg. destruct (decide (k' = k)) as [->|Hne].
  - right. left. rewrite Hk in Hk'. injection Hk' as <-. simpl. apply elem_of_app. right. by apply (list_elem_of_fmap_2 (λ g, (g, k))).
  - apply (A2 k' c' g); [|done..]. intros (_ & c'' & Hc'' & E). rewrite Hk' in Hc''. injection Hc'' as <-. apply Hne. by apply (one_controller s k' k c' c).
Qed.

(** What is known before an abort of [x]: it is on its way for the source of [x]. *)
Record abortable (x : nat) (s : System) : Prop := {
  ab_wf : wf s;
  ab_owner : is_Some (signal_owner x s);
  ab_others : mirrored (λ c, controller c = x) s;
  ab_behind : mirrors (λ c, controller c = x ∧ tokenSignal c ≠ x) s }.

Lemma marked x s : abortable x s → ∀ y, aborted y (mark x s) = true ↔ aborted y s = true ∨ y = x.
Proof. intros [_ Hx _ _] y. rewrite aborted_mark, orb_true_iff, bool_decide_eq_true. naive_solver. Qed.

Lemma marked_behind x s : abortable x s → mirrors (λ _, False) (mark x s).
Proof.
  intros Hab k c Hk [Ha|[]]. pose proof (marked x s Hab) as Hm. revert Ha. rewrite !Hm. intros [Ha|Ha]; [left; apply (ab_behind x s Hab k c Hk); by left|].
  destruct (decide (tokenSignal c = x)) as [?|Hn]; [by right|]. left. apply (ab_behind x s Hab k c Hk). right. by split.
Qed.

(** Once [x] is aborted, so is, after it, the source of the token that stands for it. *)
Lemma abortable_linked x s k c : abortable x s → jm_get x (signalTokens s) = Some k → sources s !! k = Some c → abortable (controller c) (mark x s).
Proof.
  intros Hab Hlink Hc. pose proof Hab as [Hwf Hx H1 H2]. destruct (wf_token s Hwf x k Hlink) as (c1 & Hc1 & Et & Hlt). rewrite Hc in Hc1. injection Hc1 as <-.
  split; [by eapply same_wf, Hwf; apply mark_same| | |].
  - rewrite owner_mark. destruct (wf_controller s Hwf k c Hc) as (-> & _). by eexists.
  - intros k' c' Hk' Ha. apply (marked x s Hab) in Ha as [Ha|Ha].
    + destruct (H1 k' c' Hk' Ha) as [?|?]; left; apply (marked x s Hab); naive_solver.
    + destruct (decide (tokenSignal c' = controller c')) as [E|E]; [left; apply (marked x s Hab); right; congruence|]. right.
      pose proof (wf_linked s Hwf k' c' Hk' E) as Hl. rewrite Ha, Hlink in Hl. injection Hl as ->. change (sources (mark x s)) with (sources s) in Hk'. congruence.
  - intros k' c' Hk' [Ha|[Ha _]]; [apply (marked_behind x s Hab k' c' Hk'); by left|]. assert (k' = k) as -> by by apply (one_controller s k' k c' c).
    change (sources (mark x s)) with (sources s) in Hk'. rewrite Hc in Hk'. injection Hk' as <-. apply (marked x s Hab). by right.
Qed.

Lemma abort_spec fuel : ∀ x s, abortable x s → (length (signals s) <= fuel + x)%nat → aborts (of_controller x s) x s (abort fuel x s).
Proof.
  induction fuel as [|fuel IH]; intros x s Hab Hlen; pose proof Hab as [Hwf Hx Hm1 Hm2].
  all: assert (Hlt : (x < length (signals s))%nat) by (destruct Hx as [o Hx]; unfold signal_owner in Hx; apply fmap_Some in Hx as (ob & Hx & _); by eapply lookup_lt_Some).
  { lia. }
  cbn [abort]. destruct (aborted x s) eqn:Hax.
  { split; [apply same_refl|apply later_refl|done| | |by left|by left].
    - intros k c Hk Ha. destruct (Hm1 k c Hk Ha) as [?|<-]; by left.
    - intros k c Hk [Ha|[]]. apply (Hm2 k c Hk). by left. }
  pose proof (mark_same x s) as Hsame. pose proof (same_wf _ _ Hsame Hwf) as Hwf1. pose proof (mark_later x s) as Hlat. pose proof (marked x s Hab) as Hmx.
  pose proof (marked_behind x s Hab) as Hback.
  change (signalTokens (mark x s)) with (signalTokens s). destruct (jm_get x (signalTokens s)) as [k1|] eqn:Hlink.
  2: { split; [done|done|by apply Hmx; right| |done|intros y Hy%Hmx; naive_solver|by left].
    intros k c Hk Ha. left. apply Hmx. apply Hmx in Ha as [Ha|Ha]; [destruct (Hm1 k c Hk Ha); naive_solver|].
    destruct (decide (tokenSignal c = controller c)) as [E|E]; [right; congruence|]. pose proof (wf_linked s Hwf k c Hk E). congruence. }
  destruct (wf_token s Hwf x k1 Hlink) as (c1 & Hc1 & Et & Hlt1). unfold cancel_with. change (sources (mark x s)) with (sources s). rewrite Hc1.
  destruct (wf_controller s Hwf k1 c1 Hc1) as (Oy & _ & _). pose proof (abortable_linked x s k1 c1 Hab Hlink Hc1) as Hab1.
  set (s1 := mark x s) in *. set (y := controller c1) in *.
  destruct (IH y s1 Hab1) as [B1 B2 B3 B4 B5 B6 B7]; [destruct Hsame as (_ & _ & _ & _ & El & _); rewrite El; lia|]. pose proof (same_trans _ _ _ Hsame B1) as Hsame2.
  split.
  - done.
  - eapply later_trans; [exact Hlat|]. apply later_weaken. apply (tell_targets k1 c1 s1); [done|done|by destruct B1|done].
  - apply (la_aborted _ _ _ B2 x). apply Hmx. by right.
  - exact B4.
  - exact B5.
  - intros z Hz. destruct (B6 z Hz) as [Hz'|[->|(k & Hk)]].
    + apply Hmx in Hz' as [?|?]; naive_solver.
    + right. right. by exists k1.
    + right. right. exists k. destruct Hsame as (_ & _ & _ & _ & _ & Ho). by rewrite <- Ho.
  - intros g k. simpl. intros [Hg|Hg]%elem_of_app.
    + destruct (B7 g k Hg) as [?|?]; [by left|by right].
    + right. apply list_elem_of_fmap in Hg as (g' & [= -> ->] & _). exists c1. by split.
Qed.

(** An abort from outside: of a signal that is no source's own. *)
Lemma outside_abortable x s o : wf s → signal_owner x s = Some o → (∀ k, o ≠ SourceOf k) → mirrored (λ _, False) s → mirrors (λ _, False) s → abortable x s.
Proof.
  intros Hwf Ho Hk Hm1 Hm2. split; [done|by eexists| |].
  - intros k c Hc Ha. destruct (Hm1 k c Hc Ha); [by left|done].
  - intros k c Hc [Ha|[Ha _]]; [apply (Hm2 k c Hc); by left|]. destruct (wf_controller s Hwf k c Hc) as (O & _). rewrite Ha, Ho in O. injection O as O. by destruct (Hk k).
Qed.
Lemma abort_signal_spec x s o : wf s → signal_owner x s = Some o → (∀ k, o ≠ SourceOf k) → mirrored (λ _, False) s → mirrors (λ _, False) s →
  aborts none x s (abort_signal x s).
Proof.
  intros Hwf Ho Hk Hm1 Hm2. assert (Hno : ∀ k c, sources s !! k = Some c → controller c ≠ x).
  { intros k c Hc E. destruct (wf_controller s Hwf k c Hc) as (O & _). rewrite E, Ho in O. injection O as O. by apply (Hk k). }
  destruct (abort_spec (length (signals s)) x s) as [A1 A2 A3 A4 A5 A6 A7]; [by eapply outside_abortable|lia|]. split; try done. destruct A2 as [L1 L2 L3 L4 L5 L6 L7]. split; try done; [|intros k u g _; apply L3; by intros []].
  intros k c g _. apply L2. intros (_ & c' & Hc' & E). by apply (Hno k c').
Qed.

(** A source is cancelled by its owner, or because its token's signal is aborted. *)
Lemma cancel_spec k c s : wf s → sources s !! k = Some c → tokenSignal c = controller c ∨ aborted (tokenSignal c) s = true →
  mirrored (λ c', controller c' = controller c) s → mirrors (λ _, False) s → aborts none (controller c) s (cancel k s).
Proof.
  intros Hwf Hc Ht Hm1 Hm2. destruct (wf_controller s Hwf k c Hc) as (O & _). unfold cancel, cancel_with. rewrite Hc.
  assert (Hab : abortable (controller c) s).
  { split; [done|by eexists|done|]. intros k' c' Hc' [Ha|[Ha Hn]]; [apply (Hm2 k' c' Hc'); by left|]. assert (k' = k) as -> by by apply (one_controller s k' k c' c).
    rewrite Hc in Hc'. injection Hc' as <-. naive_solver. }
  destruct (abort_spec (length (signals s)) (controller c) s Hab) as [A1 A2 A3 A4 A5 A6 A7]; [lia|]. split; try done.
  - apply (tell_targets k c s); [done|done|by destruct A1|done].
  - intros g k'. simpl. intros [Hg|Hg]%elem_of_app; [by apply A7|]. right. apply list_elem_of_fmap in Hg as (g' & [= -> ->] & _). by exists c.
Qed.

(** *** The invariant *)

Definition token_aborted (s : System) (k : nat) : Prop := ∃ c, sources s !! k = Some c ∧ aborted (tokenSignal c) s = true.
Definition done (s : System) (k : nat) (g : string) : Prop := ∃ x, controller_at s k g x ∧ aborted x s = true.

Record static (s : System) : Prop := {
  st_wf : wf s;
  st_mirrored : mirrored (λ _, False) s;
  st_mirrors : mirrors (λ _, False) s;
  st_safe : ∀ k g x, controller_at s k g x → aborted x s = true → token_aborted s k;
  st_sent : ∀ g k, (g, k) ∈ cancels s → token_aborted s k }.

Definition call_ok (s : System) (c : Call) : Prop := ∃ x, holder_signal (call_holder c) s = Some x ∧
  match call_cancelled c with
  | None => aborted x s = true ∨ promised s (call_token c) (call_target c) ∨ done s (call_token c) (call_target c)
  | Some true => token_aborted s (call_token c)
  | Some false => promised s (call_token c) (call_target c) ∨ done s (call_token c) (call_target c)
  end.

Record dynamic (s : System) : Prop := {
  dy_bound : ∀ k g x, controller_at s k g x → aborted x s = true ∨ promised s k g;
  dy_cancelled : ∀ k g, cancelled_at s k g → done s k g;
  dy_calls : ∀ c, c ∈ calls s → call_ok s c }.

Lemma token_later P s s' k : later P s s' → token_aborted s k → token_aborted s' k.
Proof. intros Hl (c & Hc & Ha). destruct (la_source _ _ _ Hl k c Hc) as (c' & Hc' & E & _). exists c'. split; [done|]. rewrite E. by apply (la_aborted _ _ _ Hl). Qed.
Lemma done_later P s s' k g : later P s s' → done s k g → done s' k g.
Proof. intros Hl (x & Hx & Ha). exists x. split; [by apply (la_controller _ _ _ Hl)|by apply (la_aborted _ _ _ Hl)]. Qed.
Lemma holder_later P s s' u x : later P s s' → holder_signal u s = Some x → holder_signal u s' = Some x.
Proof.
  intros Hl. destruct u as [k|g k]; simpl; [|apply (la_controller _ _ _ Hl)]. intros (c & Hc & ->)%fmap_Some.
  destruct (la_source _ _ _ Hl k c Hc) as (c' & -> & E & _). simpl. by rewrite E.
Qed.

Lemma call_later s s' c : later none s s' → (∀ k g, cancelled_at s' k g → done s' k g) → call_ok s c → call_ok s' c.
Proof.
  intros Hl Hc' (x & Hu & Hcc). exists x. split; [by eapply holder_later|].
  assert (Hneed : ∀ k g, promised s k g ∨ done s k g → promised s' k g ∨ done s' k g).
  { intros k g [H|?]; [|right; by eapply done_later]. destruct (promised_later s s' k g Hl H) as [?|?]; [by left|right; by apply Hc']. }
  destruct (call_cancelled c) as [[]|]; [by eapply token_later|by apply Hneed|]. destruct Hcc as [Ha|Hcc]; [left; by apply (la_aborted _ _ _ Hl)|right; by apply Hneed].
Qed.

Lemma dynamic_later s s' : dynamic s → later none s s' →
  (∀ k g, cancelled_at s' k g → cancelled_at s k g ∨ done s' k g) →
  (∀ k g x, controller_at s' k g x → controller_at s k g x ∨ aborted x s' = true ∨ promised s' k g) →
  (∀ c, c ∈ calls s' → c ∈ calls s ∨ call_ok s' c) → dynamic s'.
Proof.
  intros [D1 D2 D3] Hl Hc Hx Hcalls. assert (Hc' : ∀ k g, cancelled_at s' k g → done s' k g).
  { intros k g H. destruct (Hc k g H) as [H'|H']; [|done]. eapply done_later; [done|by apply D2]. }
  split; [|done|].
  - intros k g x H. destruct (Hx k g x H) as [H'|H']; [|done]. destruct (D1 k g x H') as [Ha|Hq]; [left; by apply (la_aborted _ _ _ Hl)|].
    destruct (promised_later s s' k g Hl Hq) as [?|Hcan]; [by right|]. destruct (Hc' k g Hcan) as (x' & Hx' & Ha). left.
    unfold controller_at in H, Hx'. rewrite H in Hx'. by injection Hx' as ->.
  - intros c H. destruct (Hcalls c H) as [H'|H']; [|done]. eapply call_later; [exact Hl|exact Hc'|by apply D3].
Qed.

(** *** New signals, and what is known of them *)

Lemma aborted_new o b y s : aborted y (with_signals (signals s ++ [(o, b)]) s) = if decide (y = length (signals s)) then b else aborted y s.
Proof.
  unfold aborted. simpl. case_decide as E; [subst y; by rewrite lookup_app_r, Nat.sub_diag by lia|].
  destruct (decide (y < length (signals s))%nat) as [Hlt|Hge]; [by rewrite lookup_app_l|].
  rewrite !lookup_ge_None_2; [done|lia|]. rewrite length_app. simpl. lia.
Qed.
Lemma owner_new o b y s : signal_owner y (with_signals (signals s ++ [(o, b)]) s) = if decide (y = length (signals s)) then Some o else signal_owner y s.
Proof.
  unfold signal_owner. simpl. case_decide as E; [subst y; by rewrite lookup_app_r, Nat.sub_diag by lia|].
  destruct (decide (y < length (signals s))%nat) as [Hlt|Hge]; [by rewrite lookup_app_l|].
  rewrite !lookup_ge_None_2; [done|lia|]. rewrite length_app. simpl. lia.
Qed.
Lemma owner_lt y s o : signal_owner y s = Some o → (y < length (signals s))%nat.
Proof. unfold signal_owner. intros (ob & H & _)%fmap_Some. by eapply lookup_lt_Some. Qed.
Lemma aborted_owner y s : aborted y s = true → is_Some (signal_owner y s).
Proof. unfold aborted, signal_owner. destruct (signals s !! y); [by eexists|done]. Qed.
Lemma aborted_lt y s : aborted y s = true → (y < length (signals s))%nat.
Proof. intros [o Ho]%aborted_owner. by eapply owner_lt. Qed.

(** A step that only adds signals, sources without targets and links. *)
Lemma grown_later s s' : extensions s' = extensions s → cancels s' = cancels s → (∀ y, signal_owner y s ≠ None → aborted y s' = aborted y s) →
  sources s `prefix_of` sources s' → (∀ k c, sources s !! k = Some c → is_Some (signal_owner (controller c) s)) → later none s s'.
Proof.
  intros Ee Ec Ha [l Es] Ho. unfold cancelled_at, forwards, controller_at, extension in *.
  split; unfold cancelled_at, forwards, controller_at, extension; rewrite ?Ee, ?Ec; try done; try (by intros; left).
  - intros k c g _ Hk Hn Hg. left. exists c. rewrite Es, lookup_app_l by by eapply lookup_lt_Some. split; [done|]. split; [|done]. rewrite Ha; [done|].
    destruct (Ho k c Hk) as [o ->]. done.
  - intros y Hy. rewrite Ha; [done|]. destruct (aborted_owner y s Hy) as [o ->]. done.
  - intros k c Hk. exists c. by rewrite Es, lookup_app_l by by eapply lookup_lt_Some.
Qed.

Lemma static_controller s k c : static s → sources s !! k = Some c → signal_owner (controller c) s = Some (SourceOf k) ∧ (controller c < length (signals s))%nat ∧ (tokenSignal c < length (signals s))%nat.
Proof.
  intros Hs Hk. destruct (wf_controller s (st_wf s Hs) k c Hk) as (O & [o Ot] & _). split; [done|]. split; by eapply owner_lt.
Qed.
Lemma extension_lt s k g x : static s → controller_at s k g x → signal_owner x s = Some (ExtensionOf g k) ∧ (x < length (signals s))%nat.
Proof. intros Hs Hx. pose proof (wf_extension s (st_wf s Hs) k g x Hx) as Ho. split; [done|by eapply owner_lt]. Qed.

(** A new source of a token for the signal [origin], or for its own. *)
Definition added_source (origin : option nat) (b : bool) (s : System) : System :=
  let k := length (sources s) in let c := length (signals s) in
  mkSystem (signals s ++ [(SourceOf k, b)]) (sources s ++ [mkSource (default c origin) c []])
    (match origin with Some x => jm_set x k (signalTokens s) | None => signalTokens s end) (extensions s) (cancels s) (calls s).

Lemma added_source_ok origin b s : static s → (∀ x, origin = Some x → (x < length (signals s))%nat ∧ jm_get x (signalTokens s) = None ∧ aborted x s = b) →
  (origin = None → b = false) → static (added_source origin b s) ∧ later none s (added_source origin b s).
Proof.
  intros Hs Ho Hb. set (s' := added_source origin b s).
  assert (Ha : ∀ y, aborted y s' = if decide (y = length (signals s)) then b else aborted y s) by (intros y; apply (aborted_new (SourceOf (length (sources s))) b y s)).
  assert (Hw : ∀ y, signal_owner y s' = if decide (y = length (signals s)) then Some (SourceOf (length (sources s))) else signal_owner y s) by (intros y; apply (owner_new (SourceOf (length (sources s))) b y s)).
  assert (Hl : later none s s').
  { apply grown_later; try done; [|by apply prefix_app_r|intros k c Hk; destruct (static_controller s k c Hs Hk) as (-> & _); by eexists].
    intros y Hy. rewrite Ha, decide_False; [done|]. intros ->. unfold signal_owner in Hy. by rewrite lookup_ge_None_2 in Hy by lia. }
  split; [|done].
  assert (Hsrc : ∀ k c, sources s' !! k = Some c → (sources s !! k = Some c ∧ controller c ≠ length (signals s) ∧ tokenSignal c ≠ length (signals s)) ∨
    (k = length (sources s) ∧ c = mkSource (default (length (signals s)) origin) (length (signals s)) [])).
  { intros k c [Hk|[Hk Hc]]%lookup_app_Some; [left|right].
    - split; [done|]. destruct (static_controller s k c Hs Hk) as (_ & H1 & H2). lia.
    - apply list_lookup_singleton_Some in Hc as [Hc <-]. split; [lia|done]. }
  split.
  - split.
    + intros k c Hk. destruct (Hsrc k c Hk) as [(Hk' & N1 & N2)|[-> ->]].
      * rewrite !Hw, !decide_False by done. by apply (wf_controller s (st_wf s Hs)).
      * simpl. rewrite !Hw. rewrite decide_True by done. split; [done|]. destruct origin as [x|]; simpl; [|split; [rewrite decide_True by done; by eexists|lia]].
        destruct (Ho x eq_refl) as (Hx & _). rewrite decide_False by lia. split; [|lia]. unfold signal_owner. destruct (lookup_lt_is_Some_2 _ _ Hx) as [ob ->]. by eexists.
    + intros x k. unfold s'. simpl. assert (Hold : jm_get x (signalTokens s) = Some k → ∃ c, (sources s ++ [mkSource (default (length (signals s)) origin) (length (signals s)) []]) !! k = Some c ∧ tokenSignal c = x ∧ (x < controller c)%nat).
      { intros Hk. destruct (wf_token s (st_wf s Hs) x k Hk) as (c & Hc & ?). exists c. split; [|done]. by apply lookup_app_l_Some. }
      destruct origin as [x0|]; [|done]. rewrite jm_get_set. case_decide as E; [|done]. subst x0. intros [= <-]. destruct (Ho x eq_refl) as (Hx & _).
      exists (mkSource x (length (signals s)) []). split; [by rewrite lookup_app_r, Nat.sub_diag by lia|]. by split.
    + intros k c Hk Hne. destruct (Hsrc k c Hk) as [(Hk' & N1 & N2)|[-> ->]]; unfold s'; simpl in *.
      * pose proof (wf_linked s (st_wf s Hs) k c Hk' Hne) as Hj. destruct origin as [x0|]; [|done]. rewrite jm_get_set_ne; [done|]. intros ->.
        destruct (Ho (tokenSignal c) eq_refl) as (_ & Hx & _). congruence.
      * destruct origin as [x0|]; simpl in *; [|done]. apply jm_get_set_eq.
    + intros k g x Hx. destruct (extension_lt s k g x Hs Hx) as [Hx' Hlt]. rewrite Hw, decide_False by lia. done.
  - intros k c Hk. destruct (Hsrc k c Hk) as [(Hk' & N1 & N2)|[-> ->]].
    + rewrite !Ha, !decide_False by done. by apply (st_mirrored s Hs k c).
    + simpl. rewrite !Ha. rewrite (decide_True (P := length (signals s) = _)) by done. destruct origin as [x|]; simpl; [|rewrite decide_True by done; by left].
      destruct (Ho x eq_refl) as (Hx & _ & <-). rewrite decide_False by lia. by left.
  - intros k c Hk. destruct (Hsrc k c Hk) as [(Hk' & N1 & N2)|[-> ->]].
    + rewrite !Ha, !decide_False by done. by apply (st_mirrors s Hs k c).
    + simpl. rewrite !Ha. rewrite (decide_True (P := length (signals s) = _)) by done. destruct origin as [x|]; simpl; [|rewrite decide_True by done; by intros [?|[]]].
      destruct (Ho x eq_refl) as (Hx & _ & <-). rewrite decide_False by lia. by intros [?|[]].
  - intros k g x Hx. destruct (extension_lt s k g x Hs Hx) as [_ Hlt]. rewrite Ha, decide_False by lia. intros Hax.
    eapply token_later; [exact Hl|]. by eapply (st_safe s Hs k g x).
  - intros g k Hg. eapply token_later; [exact Hl|]. by eapply (st_sent s Hs).
Qed.

Lemma tokenForSignal_eq x s : static s → (x < length (signals s))%nat → jm_get x (signalTokens s) = None →
  tokenForSignal x s = (added_source (Some x) (aborted x s) s, length (sources s)).
Proof.
  intros Hs Hx Hj. unfold tokenForSignal. rewrite Hj. unfold new_source, new_signal. cbn [default]. set (y := length (signals s)).
  assert (Hax : aborted x (with_sources (sources s ++ [mkSource x y []]) (with_signals (signals s ++ [(SourceOf (length (sources s)), false)]) s)) = aborted x s).
  { pose proof (aborted_new (SourceOf (length (sources s))) false x s) as E. rewrite decide_False in E by lia. exact E. }
  simpl in Hax |- *. rewrite Hax. destruct (aborted x s) eqn:Ea; [|done].
  unfold cancel, cancel_with. cbn [sources with_sources]. rewrite lookup_app_r, Nat.sub_diag by lia. simpl.
  unfold abort_signal. cbn [signals with_sources with_signals]. rewrite length_app. simpl. rewrite Nat.add_1_r. cbn [abort].
  assert (Hy : aborted y (with_sources (sources s ++ [mkSource x y []]) (with_signals (signals s ++ [(SourceOf (length (sources s)), false)]) s)) = false).
  { pose proof (aborted_new (SourceOf (length (sources s))) false y s) as E. rewrite decide_True in E by done. exact E. }
  rewrite Hy. change (signalTokens (mark y _)) with (signalTokens s). assert (Hyn : jm_get y (signalTokens s) = None).
  { destruct (jm_get y (signalTokens s)) as [k|] eqn:E; [|done]. destruct (wf_token s (st_wf s Hs) y k E) as (c & Hc & _ & Hlt).
    destruct (static_controller s k c Hs Hc) as (_ & H & _). unfold y in *. lia. }
  rewrite Hyn. unfold added_source, send_cancels, mark, with_tokens, with_cancels, with_signals, with_sources. simpl. f_equal. f_equal; [|by rewrite app_nil_r].
  rewrite alter_app_r_alt by (unfold y; lia). unfold y. by rewrite Nat.sub_diag.
Qed.

(** *** The steps keep the invariant *)

Lemma extension_put g g' e s : extension g' (put_extension g e s) = if decide (g = g') then e else extension g' s.
Proof. unfold extension, put_extension. simpl. rewrite jm_get_set. by case_decide. Qed.

Lemma getOrCreate_spec g k s : static s → let '(s', x) := getOrCreateController g k s in
  controller_at s' k g x ∧ static s' ∧ later none s s' ∧
  (∀ k' g' y, controller_at s' k' g' y → controller_at s k' g' y ∨ (k' = k ∧ g' = g)) ∧
  (∀ k' g', cancelled_at s' k' g' ↔ cancelled_at s k' g') ∧ calls s' = calls s ∧ cancels s' = cancels s ∧
  (∀ u, forwarded k (extension u s') = forwarded k (extension u s)).
Proof.
  intros Hs. unfold getOrCreateController. destruct (jm_get k (controllers (extension g s))) as [x|] eqn:Hx.
  { split_and!; try done; [apply later_refl|by intros; left]. }
  unfold new_signal. set (x := length (signals s)). set (s1 := with_signals _ s). set (s' := put_extension g _ s1).
  assert (Hext : ∀ u, extension u s' = if decide (g = u) then mkExtension (jm_set k x (controllers (extension g s))) (forwardedTargets (extension g s)) (cancelled (extension g s)) else extension u s).
  { intros u. unfold s'. rewrite extension_put. by case_decide. }
  assert (Ha : ∀ y, aborted y s' = if decide (y = x) then false else aborted y s) by (intros y; apply (aborted_new (ExtensionOf g k) false y s)).
  assert (Hw : ∀ y, signal_owner y s' = if decide (y = x) then Some (ExtensionOf g k) else signal_owner y s) by (intros y; apply (owner_new (ExtensionOf g k) false y s)).
  assert (Hcan : ∀ k' g', cancelled_at s' k' g' ↔ cancelled_at s k' g').
  { intros k' g'. unfold cancelled_at. rewrite Hext. case_decide; [by subst|done]. }
  assert (Hfw : ∀ k' u, forwarded k' (extension u s') = forwarded k' (extension u s)).
  { intros k' u. rewrite Hext. case_decide; [by subst|done]. }
  assert (Hct : ∀ k' g' y, controller_at s' k' g' y ↔ controller_at s k' g' y ∨ (k' = k ∧ g' = g ∧ y = x)).
  { intros k' g' y. unfold controller_at. rewrite Hext. case_decide as E; [subst g'|naive_solver]. simpl. rewrite jm_get_set. case_decide as E'; [subst k'|naive_solver].
    rewrite Hx. naive_solver. }
  assert (Hlt : ∀ k c, sources s !! k = Some c → controller c ≠ x ∧ tokenSignal c ≠ x).
  { intros k' c Hc. destruct (static_controller s k' c Hs Hc) as (_ & H1 & H2). unfold x. lia. }
  assert (Hl : later none s s').
  { split; try done.
    - intros g' k' Hg. by left.
    - intros k' c g' _ Hc Hn Hg. left. exists c. split; [done|]. split; [|done]. rewrite Ha, decide_False; [done|]. by apply (Hlt k').
    - intros k' u g' _ Hu Hg. left. rewrite Hcan. split; [done|]. unfold forwards. by rewrite Hfw.
    - intros k' g'. by rewrite Hcan.
    - intros y Hy. rewrite Ha, decide_False; [done|]. intros ->. apply aborted_lt in Hy. unfold x in Hy. lia.
    - intros k' c Hc. by exists c.
    - intros k' g' y Hy. apply Hct. by left. }
  split; [apply Hct; by right|]. split; [|split; [exact Hl|]].
  - split.
    + split.
      * intros k' c Hc. destruct (Hlt k' c Hc) as [N1 N2]. rewrite !Hw, !decide_False by done. by apply (wf_controller s (st_wf s Hs)).
      * apply (wf_token s (st_wf s Hs)).
      * apply (wf_linked s (st_wf s Hs)).
      * intros k' g' y [Hy|(-> & -> & ->)]%Hct; [|by rewrite Hw, decide_True]. destruct (extension_lt s k' g' y Hs Hy) as [Ho Hl']. rewrite Hw, decide_False; [done|unfold x; lia].
    + intros k' c Hc. destruct (Hlt k' c Hc) as [N1 N2]. rewrite !Ha, !decide_False by done. by apply (st_mirrored s Hs k' c).
    + intros k' c Hc. destruct (Hlt k' c Hc) as [N1 N2]. rewrite !Ha, !decide_False by done. by apply (st_mirrors s Hs k' c).
    + intros k' g' y [Hy|(-> & -> & ->)]%Hct; [|by rewrite Ha, decide_True]. destruct (extension_lt s k' g' y Hs Hy) as [Ho Hl']. rewrite Ha, decide_False by (unfold x; lia).
      intros Hay. eapply token_later; [exact Hl|]. by eapply (st_safe s Hs k' g').
    + intros g' k' Hg. eapply token_later; [exact Hl|]. by eapply (st_sent s Hs).
  - split_and!; [|done..|by apply Hfw]. intros k' g' y [Hy|(-> & -> & _)]%Hct; [by left|by right].
Qed.

(** Aborting the controller of an activation whose token's signal is aborted. *)
Lemma abort_controller s k g x : static s → controller_at s k g x → token_aborted s k → let s' := abort_signal x s in
  static s' ∧ later none s s' ∧ aborted x s' = true ∧ extensions s' = extensions s ∧ calls s' = calls s.
Proof.
  intros Hs Hx Ht s'. pose proof (wf_extension s (st_wf s Hs) k g x Hx) as Ho.
  destruct (abort_signal_spec x s _ (st_wf s Hs) Ho) as [A1 A2 A3 A4 A5 A6 A7]; [done|apply (st_mirrored s Hs)|apply (st_mirrors s Hs)|].
  pose proof A1 as (E1 & E2 & E3 & E4 & E5 & E6).
  split; [|done]. split; [by eapply same_wf, st_wf|done|done| |].
  - intros k' g' y Hy Ha. unfold controller_at, extension in Hy. fold s' in E3. rewrite E3 in Hy. destruct (A6 y Ha) as [Ha'|[->|(k'' & Hk)]].
    + eapply token_later; [exact A2|]. by eapply (st_safe s Hs k' g' y).
    + pose proof (wf_extension s (st_wf s Hs) k' g' x Hy) as Ho'. rewrite Ho in Ho'. injection Ho' as <- <-. by eapply token_later.
    + by rewrite (wf_extension s (st_wf s Hs) k' g' y Hy) in Hk.
  - intros g' k' Hg. destruct (A7 g' k' Hg) as [Hg'|(c & Hc & Ha)]; [eapply token_later; [exact A2|]; by eapply (st_sent s Hs)|].
    assert (Hc' : sources s' !! k' = Some c) by (unfold s'; by rewrite E1). exists c. split; [done|]. apply (A5 k' c Hc'). by left.
Qed.

(** Changing what an activation forwards, and what is on its way. *)
Lemma static_put P s s' : signals s' = signals s → (∀ k c, sources s' !! k = Some c → ∃ c', sources s !! k = Some c' ∧ tokenSignal c' = tokenSignal c ∧ controller c' = controller c) →
  signalTokens s' = signalTokens s → (∀ k g x, controller_at s' k g x → controller_at s k g x) → later P s s' →
  (∀ g k, (g, k) ∈ cancels s' → (g, k) ∈ cancels s ∨ token_aborted s k) → static s → static s'.
Proof.
  intros E1 Hsrc E3 Hct Hl Hsent Hs. assert (Ha : ∀ y, aborted y s' = aborted y s) by (intros y; unfold aborted; by rewrite E1).
  assert (Hw : ∀ y, signal_owner y s' = signal_owner y s) by (intros y; unfold signal_owner; by rewrite E1).
  split.
  - split.
    + intros k c Hc. destruct (Hsrc k c Hc) as (c' & Hc' & T1 & T2). rewrite !Hw, <- T1, <- T2. by apply (wf_controller s (st_wf s Hs)).
    + intros x k. rewrite E3. intros Hk. destruct (wf_token s (st_wf s Hs) x k Hk) as (c & Hc & T1 & T2).
      destruct (la_source _ _ _ Hl k c Hc) as (c' & Hc' & T3 & T4). exists c'. split; [done|]. by rewrite T3, T4.
    + intros k c Hc Hne. destruct (Hsrc k c Hc) as (c' & Hc' & T1 & T2). rewrite E3, <- T1. apply (wf_linked s (st_wf s Hs) k c'); [done|congruence].
    + intros k g x Hx. rewrite Hw. apply (wf_extension s (st_wf s Hs)). by apply Hct.
  - intros k c Hc. destruct (Hsrc k c Hc) as (c' & Hc' & T1 & T2). rewrite !Ha, <- T1, <- T2. by apply (st_mirrored s Hs k c').
  - intros k c Hc. destruct (Hsrc k c Hc) as (c' & Hc' & T1 & T2). rewrite !Ha, <- T1, <- T2. by apply (st_mirrors s Hs k c').
  - intros k g x Hx Hax. eapply token_later; [exact Hl|]. apply (st_safe s Hs k g x); [by apply Hct|by rewrite <- Ha].
  - intros g k Hg. eapply token_later; [exact Hl|]. destruct (Hsent g k Hg); [by eapply (st_sent s Hs)|done].
Qed.

Lemma add_target_elem g g' l : g' ∈ add_target g l ↔ g' = g ∨ g' ∈ l.
Proof. unfold add_target. case_decide; [naive_solver|]. rewrite elem_of_app, list_elem_of_singleton. naive_solver. Qed.

Lemma forwarded_record k k' g e : forwarded k' (recordForwardTarget k g e) = if decide (k = k') then add_target g (forwarded k e) else forwarded k' e.
Proof. unfold forwarded, recordForwardTarget. simpl. rewrite jm_get_set. by case_decide. Qed.

Lemma record_spec u g s x : static s → holder_signal u s = Some x → let s' := recordCancellationTarget u g s in
  static s' ∧ later none s s' ∧ (∀ k a, cancelled_at s' k a ↔ cancelled_at s k a) ∧ (∀ k a y, controller_at s' k a y → controller_at s k a y) ∧
  calls s' = calls s ∧ signals s' = signals s ∧
  match u with OfSource k => ∃ c, sources s' !! k = Some c ∧ tokenSignal c = x ∧ g ∈ targets c | OfExtension a k => forwards s' k a g end.
Proof.
  intros Hs Hu s'. destruct u as [k|a k]; simpl in Hu.
  - apply fmap_Some in Hu as (c & Hc & ->).
    assert (Hsrc : ∀ k' c', sources s' !! k' = Some c' → ∃ c0, sources s !! k' = Some c0 ∧ tokenSignal c0 = tokenSignal c' ∧ controller c0 = controller c').
    { intros k' c'. unfold s'. simpl. destruct (decide (k = k')) as [<-|Hne]; [|rewrite list_lookup_alter_ne by done; by exists c'].
      rewrite list_lookup_alter_eq, Hc. intros [= <-]. by exists c. }
    assert (Hsrc' : ∀ k' c', sources s !! k' = Some c' → ∃ c0, sources s' !! k' = Some c0 ∧ tokenSignal c0 = tokenSignal c' ∧ controller c0 = controller c' ∧ ∀ h, h ∈ targets c' → h ∈ targets c0).
    { intros k' c' Hk'. unfold s'. simpl. destruct (decide (k = k')) as [<-|Hne]; [|rewrite list_lookup_alter_ne by done; by exists c'].
      rewrite list_lookup_alter_eq, Hk'. exists (recordTarget g c'). split_and!; try done. intros h Hh. simpl. apply add_target_elem. by right. }
    assert (Hl : later none s s').
    { split; try done; try (by intros; left).
      - intros k' c' h _ Hk' Ha Hh. left. destruct (Hsrc' k' c' Hk') as (c0 & H0 & _ & E & Ht). exists c0. split; [done|]. split; [by rewrite E|by apply Ht].
      - intros k' c' Hk'. destruct (Hsrc' k' c' Hk') as (c0 & H0 & E1 & E2 & _). by exists c0. }
    split; [apply (static_put none s s'); try done; by left|]. split; [done|]. split; [done|]. split; [done|]. split; [done|]. split; [done|].
    exists (recordTarget g c). unfold s'. simpl. rewrite list_lookup_alter_eq, Hc. split_and!; try done. apply add_target_elem. by left.
  - assert (Hext : ∀ b, extension b s' = if decide (a = b) then recordForwardTarget k g (extension a s) else extension b s) by (intros b; apply extension_put).
    assert (Hcan : ∀ k' b, cancelled_at s' k' b ↔ cancelled_at s k' b) by (intros k' b; unfold cancelled_at; rewrite Hext; case_decide; [by subst|done]).
    assert (Hct : ∀ k' b y, controller_at s' k' b y ↔ controller_at s k' b y) by (intros k' b y; unfold controller_at; rewrite Hext; case_decide; [by subst|done]).
    assert (Hl : later none s s').
    { split; try done; try (by intros; left).
      - intros k' c' h _ Hk' Ha Hh. left. by exists c'.
      - intros k' b h _ Hb Hh. left. rewrite Hcan. split; [done|]. unfold forwards in *. rewrite Hext. case_decide as E; [subst b|done].
        rewrite forwarded_record. case_decide; [subst k'; apply add_target_elem; by right|done].
      - intros k' b. by rewrite Hcan.
      - intros k' c' Hk'. by exists c'.
      - intros k' b y. by rewrite Hct. }
    split; [apply (static_put none s s'); try done; [by intros k' c' Hk'; exists c'|intros k' b y; apply Hct|by left]|].
    split; [done|]. split; [done|]. split; [intros k' b y; apply Hct|]. split; [done|]. split; [done|].
    unfold forwards. rewrite Hext, decide_True, forwarded_record, decide_True by done. apply add_target_elem. by left.
Qed.

Definition sys_ok (s : System) : Prop := static s ∧ dynamic s.

Lemma dynamic_same s s' : dynamic s → later none s s' → extensions s' = extensions s → calls s' = calls s → dynamic s'.
Proof.
  intros Hd Hl Ee Ec. apply (dynamic_later s s' Hd Hl); unfold cancelled_at, controller_at, extension; rewrite ?Ee, ?Ec; by left.
Qed.

Lemma static_aborts x s s' : static s → aborts none x s s' → (∀ g k, signal_owner x s ≠ Some (ExtensionOf g k)) → static s'.
Proof.
  intros Hs [A1 A2 A3 A4 A5 A6 A7] Hno. pose proof A1 as (E1 & E2 & E3 & E4 & E5 & E6). split; [by eapply same_wf, st_wf|done|done| |].
  - intros k g y Hy Ha. unfold controller_at, extension in Hy. rewrite E3 in Hy. pose proof (wf_extension s (st_wf s Hs) k g y Hy) as Ho.
    destruct (A6 y Ha) as [Ha'|[->|(k' & Hk)]]; [|by destruct (Hno g k)|congruence]. eapply token_later; [exact A2|]. by eapply (st_safe s Hs k g y).
  - intros g k Hg. destruct (A7 g k Hg) as [Hg'|(c & Hc & Ha)]; [eapply token_later; [exact A2|]; by eapply (st_sent s Hs)|].
    assert (Hc' : sources s' !! k = Some c) by by rewrite E1. exists c. split; [done|]. apply (A5 k c Hc'). by left.
Qed.

Lemma new_signal_ok s : static s → static (new_signal User s).1 ∧ later none s (new_signal User s).1.
Proof.
  intros Hs. set (s' := (new_signal User s).1).
  assert (Ha : ∀ y, aborted y s' = if decide (y = length (signals s)) then false else aborted y s) by (intros y; apply (aborted_new User false y s)).
  assert (Hw : ∀ y o, signal_owner y s = Some o → signal_owner y s' = Some o).
  { intros y o Ho. pose proof (owner_new User false y s) as E. rewrite decide_False in E by (apply owner_lt in Ho; lia). change (signal_owner y s' = signal_owner y s) in E. by rewrite E. }
  assert (Ha' : ∀ y, signal_owner y s ≠ None → aborted y s' = aborted y s).
  { intros y Hy. rewrite Ha, decide_False; [done|]. intros ->. unfold signal_owner in Hy. by rewrite lookup_ge_None_2 in Hy by lia. }
  assert (Hl : later none s s').
  { apply grown_later; try done. intros k c Hk. destruct (static_controller s k c Hs Hk) as (-> & _). by eexists. }
  assert (Hcs : ∀ k c, sources s !! k = Some c → signal_owner (controller c) s ≠ None ∧ signal_owner (tokenSignal c) s ≠ None).
  { intros k c Hk. destruct (wf_controller s (st_wf s Hs) k c Hk) as (-> & [o ->] & _). done. }
  split; [|done]. split.
  - split; try apply (st_wf s Hs).
    + intros k c Hk. destruct (wf_controller s (st_wf s Hs) k c Hk) as (O & [o Ot] & Hle). split; [by apply Hw|]. split; [|done]. exists o. by apply Hw.
    + intros k g x Hx. apply Hw. by apply (wf_extension s (st_wf s Hs)).
  - intros k c Hk. destruct (Hcs k c Hk). rewrite !Ha' by done. by apply (st_mirrored s Hs k c).
  - intros k c Hk. destruct (Hcs k c Hk). rewrite !Ha' by done. by apply (st_mirrors s Hs k c).
  - intros k g x Hx. rewrite Ha' by (by rewrite (wf_extension s (st_wf s Hs) k g x Hx)). intros Hax. eapply token_later; [exact Hl|]. by eapply (st_safe s Hs k g x).
  - intros g k Hg. eapply token_later; [exact Hl|]. by eapply (st_sent s Hs).
Qed.

Lemma calls_later P l s : later P s (with_calls l s).
Proof.
  split; try done; try (by intros; left); [|by intros k c Hc; exists c]. intros k c g _ Hk Ha Hg. left. by exists c.
Qed.
Lemma static_calls l s : static s → static (with_calls l s).
Proof. apply (static_put none); try done; [by intros k c Hc; exists c|apply calls_later|by left]. Qed.

(** Replacing the calls under way by others that are in order. *)
Lemma calls_ok l s : sys_ok s → (∀ c, c ∈ l → c ∈ calls s ∨ call_ok s c) → sys_ok (with_calls l s).
Proof.
  intros [Hs Hd] Hl. split; [by apply static_calls|]. apply (dynamic_later s); [done|apply calls_later|by left|by left|]. intros c Hc.
  destruct (Hl c Hc) as [?|?]; [by left|right]. apply (call_later s); [apply calls_later| |done]. intros k g Hk. by apply (dy_cancelled s Hd k g).
Qed.

Lemma begin_call_ok u g s x : sys_ok s → holder_signal u s = Some x → sys_ok (begin_call u g s).
Proof.
  intros [Hs Hd] Hu. destruct (record_spec u g s x Hs Hu) as (Hs1 & Hl & Hcan & Hct & Ec & _ & Hrec). unfold begin_call. set (s1 := recordCancellationTarget u g s) in *.
  assert (Hd1 : dynamic s1).
  { apply (dynamic_later s); [done|done|intros k a; rewrite Hcan; by left|intros k a y Hy; left; by apply Hct|rewrite Ec; by left]. }
  apply calls_ok; [by split|]. intros c [Hc|Hc]%elem_of_app; [by left|right]. apply list_elem_of_singleton in Hc as ->.
  exists x. split; [by eapply holder_later|]. destruct (aborted x s1) eqn:Ha; [by left|]. right. left. unfold call_token. simpl. destruct u as [k|a k]; simpl.
  - destruct Hrec as (c & Hc & <- & Hg). eapply promised_target; [exact Hc| |exact Hg]. apply not_true_iff_false. intros Hcc.
    rewrite (st_mirrors s1 Hs1 k c Hc (or_introl Hcc)) in Ha. done.
  - assert (Hx : controller_at s1 k a x) by (by apply (holder_later none s s1 (OfExtension a k) x)).
    assert (Hno : ¬ cancelled_at s1 k a).
    { intros H. destruct (dy_cancelled s1 Hd1 k a H) as (x' & Hx' & Ha'). unfold controller_at in Hx, Hx'. rewrite Hx in Hx'. injection Hx' as <-. congruence. }
    apply (promised_forward s1 k a g Hno Hrec). destruct (dy_bound s1 Hd1 k a x Hx); [congruence|done].
Qed.

Lemma elem_of_delete_or {A} (x : A) i (l : list A) : x ∈ l → x ∈ delete i l ∨ l !! i = Some x.
Proof.
  revert i. induction l as [|a l IH]; intros i Hx; [by apply elem_of_nil in Hx|]. destruct i as [|i]; simpl.
  - apply elem_of_cons in Hx as [->|Hx]; [by right|by left].
  - apply elem_of_cons in Hx as [->|Hx]; [left; left|]. destruct (IH i Hx); [left; by right|by right].
Qed.
Lemma elem_of_delete_in {A} (x : A) i (l : list A) : x ∈ delete i l → x ∈ l.
Proof.
  revert i. induction l as [|a l IH]; intros [|i]; simpl; [done|done|by right|]. intros [->|Hx]%elem_of_cons; [left|right; by eapply IH].
Qed.

Lemma arrive_ok i u g b s : sys_ok s → calls s !! i = Some (mkCall u g (Some b)) → sys_ok (bindCancellationValue g (holder_token u) b (with_calls (delete i (calls s)) s)).
Proof.
  intros Hok Hi. pose proof Hok as [_ Hd]. destruct (dy_calls s Hd _ ltac:(by eapply list_elem_of_lookup_2)) as (x0 & _ & Hcc). cbn [call_cancelled] in Hcc.
  unfold call_token in Hcc. cbn [call_holder call_target] in Hcc. set (k := holder_token u) in *.
  assert (Hok1 : sys_ok (with_calls (delete i (calls s)) s)) by (apply calls_ok; [done|]; intros c Hc; left; by eapply elem_of_delete_in).
  pose proof (calls_later none (delete i (calls s)) s) as Hl0. set (s1 := with_calls _ s) in *. destruct Hok1 as [Hs1 Hd1].
  unfold bindCancellationValue. pose proof (getOrCreate_spec g k s1 Hs1) as H. destruct (getOrCreateController g k s1) as [s2 x].
  destruct H as (Hx & Hs2 & Hl & Hct & Hcan & Ec & _ & _). destruct b.
  - destruct (abort_controller s2 k g x Hs2 Hx) as (Hs3 & Hl3 & Ha & Ee & Ec3); [eapply token_later; [exact Hl|]; by eapply token_later|]. split; [done|].
    apply (dynamic_later s1); [done|by eapply later_trans| | |rewrite Ec3, Ec; by left].
    + intros k' a. unfold cancelled_at, extension. rewrite Ee. intros Hc. left. by apply Hcan.
    + intros k' a y. unfold controller_at, extension. rewrite Ee. intros Hy. destruct (Hct k' a y Hy) as [?|[-> ->]]; [by left|]. right. left.
      unfold controller_at in Hx. unfold controller_at, extension in Hx. rewrite Hx in Hy. by injection Hy as <-.
  - split; [done|]. apply (dynamic_later s1); [done|done|intros k' a Hc; left; by apply Hcan| |rewrite Ec; by left].
    intros k' a y Hy. destruct (Hct k' a y Hy) as [?|[-> ->]]; [by left|]. right.
    assert (Hdone : done s1 k g → aborted y s2 = true).
    { intros (x' & Hx' & Ha'). apply (la_controller _ _ _ Hl) in Hx'. unfold controller_at in *. rewrite Hy in Hx'. injection Hx' as <-. by apply (la_aborted _ _ _ Hl). }
    destruct Hcc as [Hp|Hdn].
    + destruct (promised_later s s2 k g (later_trans _ _ _ _ Hl0 Hl) Hp) as [?|Hcan2]; [by right|]. left. apply Hdone, (dy_cancelled s1 Hd1). by apply Hcan.
    + left. by apply Hdone.
Qed.

(** The cancellation that is delivered: its grain passes it on. *)
Definition being_told (k : nat) (g : string) : nat → option string → Prop := λ k' o, k' = k ∧ o = Some g.

Lemma tell_forwards k g s s' : later (being_told k g) s s' → (∀ h, forwards s k g h → h ∈ forwarded k (extension g s')) →
  later none s (send_cancels k (forwarded k (extension g s')) s').
Proof.
  intros Hl Hf. pose proof (later_trans _ _ _ _ Hl (send_later _ k (forwarded k (extension g s')) s')) as [A1 A2 A3 A4 A5 A6 A7]. split; try done.
  - intros k' c h _. apply A2. by intros [_ ?].
  - intros k' u h _ Hu Hh. destruct (decide (k' = k ∧ u = g)) as [[-> ->]|Hne].
    + right. left. simpl. apply elem_of_app. right. apply (list_elem_of_fmap_2 (λ g, (g, k))). by apply Hf.
    + apply A3; [|done..]. intros [-> [= ->]]. by apply Hne.
Qed.

Lemma cancel_delivered_ok i g k s : sys_ok s → cancels s !! i = Some (g, k) → sys_ok (cancelRemoteToken g k (with_cancels (delete i (cancels s)) s)).
Proof.
  intros [Hs Hd] Hi. assert (Hin : (g, k) ∈ cancels s) by by eapply list_elem_of_lookup_2. pose proof (st_sent s Hs g k Hin) as Htok.
  unfold cancelRemoteToken. set (s1 := with_cancels _ s). change (extension g s1) with (extension g s). case_bool_decide as Hcan.
  - assert (Hl : later none s s1).
    { split; try done; try (by intros; left); [|intros k' c h _ Hk Ha Hh; left; by exists c|by intros k' c Hc; exists c].
      intros g' k' Hg. destruct (elem_of_delete_or (g', k') i _ Hg) as [?|E]; [by left|right]. rewrite Hi in E. by injection E as <- <-. }
    split; [|by apply (dynamic_same s)]. apply (static_put none s s1); try done; [by intros k' c Hc; exists c|]. intros g' k' Hg. left. exact (elem_of_delete_in _ _ _ Hg).
  - set (s2 := put_extension g _ s1).
    assert (Hext : ∀ a, extension a s2 = if decide (g = a) then mkExtension (controllers (extension g s)) (forwardedTargets (extension g s)) (cancelled (extension g s) ++ [k]) else extension a s).
    { intros a. unfold s2. rewrite extension_put. by case_decide. }
    assert (Hc2 : ∀ k' a, cancelled_at s2 k' a ↔ cancelled_at s k' a ∨ (k' = k ∧ a = g)).
    { intros k' a. unfold cancelled_at. rewrite Hext. case_decide as E; [subst a; simpl; rewrite elem_of_app, list_elem_of_singleton; naive_solver|naive_solver]. }
    assert (Hct2 : ∀ k' a x, controller_at s2 k' a x ↔ controller_at s k' a x) by (intros k' a x; unfold controller_at; rewrite Hext; case_decide; [by subst|done]).
    assert (Hf2 : ∀ k' u, forwarded k' (extension u s2) = forwarded k' (extension u s)) by (intros k' u; rewrite Hext; case_decide; [by subst|done]).
    assert (Hl2 : later (being_told k g) s s2).
    { split.
      - intros g' k' Hg. destruct (elem_of_delete_or (g', k') i _ Hg) as [?|E]; [by left|right]. rewrite Hi in E. injection E as <- <-. apply Hc2. by right.
      - intros k' c h _ Hk Ha Hh. left. by exists c.
      - intros k' u h Hn Hu Hh. left. split; [rewrite Hc2; intros [?|[-> ->]]; [done|by apply Hn]|]. unfold forwards. by rewrite Hf2.
      - intros k' a Ha. apply Hc2. by left.
      - done.
      - intros k' c Hc. by exists c.
      - intros k' a x. by rewrite Hct2. }
    assert (Hs2 : static s2).
    { apply (static_put (being_told k g) s s2); try done; [by intros k' c Hc; exists c|intros k' a x; by rewrite Hct2|]. intros g' k' Hg. left. exact (elem_of_delete_in _ _ _ Hg). }
    pose proof (getOrCreate_spec g k s2 Hs2) as H. destruct (getOrCreateController g k s2) as [s3 x]. destruct H as (Hx & Hs3 & Hl3 & Hct3 & Hc3 & Ecalls & _ & Hf3).
    destruct (abort_controller s3 k g x Hs3 Hx) as (Hs4 & Hl4 & Ha & Ee & Ec4).
    { eapply token_later; [exact Hl3|]. by eapply token_later. }
    set (s4 := abort_signal x s3) in *. assert (Hl : later (being_told k g) s s4).
    { eapply later_trans; [exact Hl2|]. apply later_weaken. by eapply later_trans. }
    assert (Hl5 : later none s (send_cancels k (forwarded k (extension g s4)) s4)).
    { apply tell_forwards; [done|]. intros h Hh. unfold extension. rewrite Ee. fold (extension g s3). rewrite Hf3, Hf2. exact Hh. }
    split.
    + apply (static_put none s4); try done; [by intros k' c Hc; exists c|apply send_later|]. intros g' k'. simpl. intros [?|Hg]%elem_of_app; [by left|right].
      apply list_elem_of_fmap in Hg as (g0 & [= -> ->] & _). by eapply token_later.
    + assert (Hdone : done (send_cancels k (forwarded k (extension g s4)) s4) k g).
      { exists x. split; [|exact Ha]. unfold controller_at, extension. simpl. rewrite Ee. exact Hx. }
      apply (dynamic_later s); [done|done| | |].
      * intros k' a. unfold cancelled_at, extension. simpl. rewrite Ee. intros Hk. apply Hc3, Hc2 in Hk as [?|[-> ->]]; [by left|by right].
      * intros k' a y. unfold controller_at at 1, extension at 1. simpl. rewrite Ee. intros Hy. destruct (Hct3 k' a y Hy) as [H|[-> ->]]; [left; by apply Hct2|]. right. left.
        unfold controller_at, extension in Hx. rewrite Hx in Hy. by injection Hy as <-.
      * intros c. simpl. rewrite Ec4, Ecalls. by left.
Qed.

Lemma cancellation_step_ok o s : sys_ok s → sys_ok (system_step o s).
Proof.
  intros Hok. pose proof Hok as [Hs Hd]. destruct o as [|x| |k|x g|u g|i|i|i]; cbn [system_step].
  - destruct (new_signal_ok s Hs) as [H1 H2]. split; [done|by apply (dynamic_same s)].
  - destruct (signals s !! x) as [[[] b]|] eqn:Hx; try done. assert (Ho : signal_owner x s = Some User) by (unfold signal_owner; by rewrite Hx).
    pose proof (abort_signal_spec x s User (st_wf s Hs) Ho ltac:(done) (st_mirrored s Hs) (st_mirrors s Hs)) as Hab.
    split; [apply (static_aborts x s); [done|done|]; intros; by rewrite Ho|]. destruct Hab as [(E1 & E2 & E3 & E4 & _) Hl _ _ _ _ _]. by apply (dynamic_same s).
  - destruct (added_source_ok None false s Hs) as [H1 H2]; [done|done|]. change ((new_source None s).1) with (added_source None false s). split; [done|by apply (dynamic_same s)].
  - destruct (sources s !! k) as [c|] eqn:Hc; [|done]. case_bool_decide as He; [|done]. destruct (static_controller s k c Hs Hc) as (Ho & _).
    assert (Hab : aborts none (controller c) s (cancel k s)).
    { apply (cancel_spec k c s (st_wf s Hs) Hc); [by left| |apply (st_mirrors s Hs)]. intros k' c' Hc' Ha. destruct (st_mirrored s Hs k' c' Hc' Ha); [by left|done]. }
    split; [apply (static_aborts (controller c) s); [done|done|]; intros; by rewrite Ho|]. destruct Hab as [(E1 & E2 & E3 & E4 & _) Hl _ _ _ _ _]. by apply (dynamic_same s).
  - destruct (signals s !! x) as [ob|] eqn:Hx; [|done]. destruct (jm_get x (signalTokens s)) as [k|] eqn:Hj.
    + unfold tokenForSignal. rewrite Hj. destruct (wf_token s (st_wf s Hs) x k Hj) as (c & Hc & <- & _). apply (begin_call_ok _ _ _ (tokenSignal c)); [done|]. simpl. by rewrite Hc.
    + assert (Hlt : (x < length (signals s))%nat) by by eapply lookup_lt_Some. rewrite tokenForSignal_eq by done.
      destruct (added_source_ok (Some x) (aborted x s) s Hs) as [H1 H2]; [by intros y [= <-]|done|]. apply (begin_call_ok _ _ _ x).
      * split; [done|by apply (dynamic_same s)].
      * simpl. by rewrite lookup_app_r, Nat.sub_diag by lia.
  - destruct (holder_signal u s) as [x|] eqn:Hu; [|done]. by eapply begin_call_ok.
  - destruct (calls s !! i) as [[u g [b|]]|] eqn:Hi; [done| |done]. destruct (holder_signal u s) as [x|] eqn:Hu; [|done].
    apply calls_ok; [done|]. intros c Hc. apply list_elem_of_lookup in Hc as [j Hj]. apply list_lookup_insert_Some in Hj as [(-> & <- & _)|[_ Hj]]; [|left; by eapply list_elem_of_lookup_2].
    right. destruct (dy_calls s Hd _ ltac:(by eapply list_elem_of_lookup_2)) as (x' & Hu' & Hcc). cbn [call_holder call_cancelled] in *. rewrite Hu in Hu'. injection Hu' as <-.
    exists x. split; [done|]. cbn [call_cancelled]. destruct (aborted x s) eqn:Ha.
    + unfold call_token. cbn [call_holder]. destruct u as [k|a k]; simpl in *; [|by eapply (st_safe s Hs k a x)]. apply fmap_Some in Hu as (c & Hc & ->). by exists c.
    + destruct Hcc as [?|Hcc]; [done|]. exact Hcc.
  - destruct (calls s !! i) as [[u g [b|]]|] eqn:Hi; [|done..]. by eapply arrive_ok.
  - destruct (cancels s !! i) as [[g k]|] eqn:Hi; [|done]. by apply cancel_delivered_ok.
Qed.

Lemma system_run_ok ops : sys_ok (system_run ops).
Proof.
  unfold system_run. assert (H0 : sys_ok new_system).
  { split; split; try done; try (intros ? ? H; by apply elem_of_nil in H). intros c Hc. by apply elem_of_nil in Hc. }
  revert H0. generalize new_system. induction ops as [|o ops IH]; intros s Hs; [done|]. simpl. by apply IH, cancellation_step_ok.
Qed.

(** C32: A cancellation reaches whoever the token was passed to. Whatever signals and
    tokens are passed on by calls, to grains that pass them on in turn and back
    again, before, after and while the cancellation goes about: an activation sees
    its token cancelled only if the token's signal was aborted; and once it was, and
    none of its cancellations is on its way, every activation that the token was
    bound at sees it. That holds of grains that stay activated, one activation each, and
    of cancellations that arrive, as the header says. *)
Theorem cancel_reaches_holders ops k c g x :
  let s := system_run ops in
  sources s !! k = Some c → jm_get k (controllers (extension g s)) = Some x →
  (aborted x s = true → aborted (tokenSignal c) s = true) ∧
  (aborted (tokenSignal c) s = true → (∀ h, (h, k) ∉ cancels s) → aborted x s = true).
Proof.
  intros s Hc Hx. destruct (system_run_ok ops : sys_ok s) as [Hs Hd]. split.
  - intros Ha. destruct (st_safe s Hs k g x Hx Ha) as (c' & Hc' & Ha'). rewrite Hc in Hc'. by injection Hc' as <-.
  - intros Ha Hno. destruct (dy_bound s Hd k g x Hx) as [?|Hp]; [done|]. exfalso. clear Hx.
    induction Hp as [g Hg|c' g Hc' Hn Hg|u g Hu Hf _ IH]; [by apply (Hno g)| |done]. rewrite Hc in Hc'. injection Hc' as <-.
    destruct (st_mirrored s Hs k c Hc Ha); congruence.
Qed.

(** ** Cancellations come to an end *)

Definition unsent (b : nat → bool) (c : Source) : nat := if b (controller c) then 0 else length (targets c).
Definition pending_forwards (e : Extension) : nat :=
  sum_list_with (λ kl, if bool_decide (kl.1 ∈ cancelled e) then 0 else length kl.2) (forwardedTargets e).
(** What is on its way, and what may still be sent. *)
Definition weight (s : System) : nat :=
  length (cancels s) + sum_list_with (unsent (λ x, aborted x s)) (sources s) + sum_list_with (λ ge, pending_forwards ge.2) (extensions s).

Definition owed (x : nat) (l : list Source) : nat := sum_list_with (λ c, if decide (controller c = x) then length (targets c) else 0) l.

Lemma unsent_mark x (b b' : nat → bool) l : (∀ y, b' y = true ↔ b y = true ∨ y = x) → b x = false →
  sum_list_with (unsent b') l + owed x l = sum_list_with (unsent b) l.
Proof.
  intros Hb Hx. unfold owed. induction l as [|c l IH]; [done|]. simpl. unfold unsent at 1 3. pose proof (Hb (controller c)) as Hc. case_decide as E.
  - rewrite E in *. rewrite Hx. destruct (b' x); [lia|]. destruct Hc as [_ Hc]. discriminate Hc. by right.
  - destruct (b' (controller c)), (b (controller c)); lia.
Qed.

Lemma owed_source x l k c : l !! k = Some c → controller c = x → (length (targets c) <= owed x l)%nat.
Proof.
  unfold owed. revert k. induction l as [|c' l IH]; intros [|k]; try done; simpl.
  - intros [= ->] E. rewrite decide_True by done. lia.
  - intros Hk E. specialize (IH k Hk E). lia.
Qed.

Lemma cancels_weight l s : (weight (with_cancels l s) + length (cancels s) = weight s + length l)%nat.
Proof.
  unfold weight. change (sources (with_cancels l s)) with (sources s). change (extensions (with_cancels l s)) with (extensions s).
  change (λ x, aborted x (with_cancels l s)) with (λ x, aborted x s). simpl. lia.
Qed.
Lemma send_weight k gs s : weight (send_cancels k gs s) = (weight s + length gs)%nat.
Proof. pose proof (cancels_weight (cancels s ++ ((λ g, (g, k)) <$> gs)) s) as H. rewrite length_app, length_fmap in H. unfold send_cancels. lia. Qed.

(** An abort turns what its sources owe into what is on its way. *)
Lemma abort_weight fuel : ∀ x s, abortable x s → (length (signals s) <= fuel + x)%nat →
  (weight (abort fuel x s) + (if aborted x s then 0 else owed x (sources s)) <= weight s)%nat.
Proof.
  induction fuel as [|fuel IH]; intros x s Hab Hlen.
  all: assert (Hlt : (x < length (signals s))%nat) by (destruct (ab_owner x s Hab) as [o Hx]; by eapply owner_lt).
  { lia. }
  cbn [abort]. destruct (aborted x s) eqn:Hax; [lia|].
  assert (Hmark : (weight (mark x s) + owed x (sources s) = weight s)%nat).
  { pose proof (unsent_mark x (λ y, aborted y s) (λ y, aborted y (mark x s)) (sources s) (marked x s Hab) Hax) as E. unfold weight. simpl in *. lia. }
  change (signalTokens (mark x s)) with (signalTokens s). destruct (jm_get x (signalTokens s)) as [k|] eqn:Hlink; [|lia].
  destruct (wf_token s (ab_wf x s Hab) x k Hlink) as (c & Hc & Et & Hlt1). unfold cancel_with. change (sources (mark x s)) with (sources s). rewrite Hc.
  pose proof (abortable_linked x s k c Hab Hlink Hc) as Hab1. pose proof (mark_same x s) as (_ & _ & _ & _ & El & _).
  pose proof (IH (controller c) (mark x s) Hab1 ltac:(lia)) as Hw. change (sources (mark x s)) with (sources s) in Hw.
  assert (Hy : aborted (controller c) (mark x s) = false).
  { apply not_true_iff_false. intros Ha. apply (marked x s Hab) in Ha as [Ha|Ha]; [|lia].
    pose proof (ab_behind x s Hab k c Hc (or_introl Ha)). congruence. }
  rewrite Hy in Hw. pose proof (owed_source (controller c) (sources s) k c Hc eq_refl) as Ho. rewrite send_weight. lia.
Qed.

Lemma extensions_weight g e m : (sum_list_with (λ ge : string * Extension, pending_forwards ge.2) (jm_set g e m) + pending_forwards (default new_extension (jm_get g m)) =
  sum_list_with (λ ge : string * Extension, pending_forwards ge.2) m + pending_forwards e)%nat.
Proof.
  induction m as [|[g' e'] m IH]; simpl; [unfold pending_forwards; simpl; lia|]. case_decide; simpl; lia.
Qed.

Lemma cancelled_weight k e : k ∉ cancelled e →
  (pending_forwards (mkExtension (controllers e) (forwardedTargets e) (cancelled e ++ [k])) + length (forwarded k e) <= pending_forwards e)%nat.
Proof.
  intros Hk. unfold pending_forwards, forwarded. simpl. induction (forwardedTargets e) as [|[k' l] m IH]; simpl; [done|].
  case_decide as E; [subst k'|].
  - rewrite (bool_decide_true (k ∈ cancelled e ++ [k])) by set_solver. rewrite bool_decide_false by done. simpl.
    enough (H : (sum_list_with (λ kl : nat * list string, if bool_decide (kl.1 ∈ cancelled e ++ [k]) then 0 else length kl.2) m <=
      sum_list_with (λ kl : nat * list string, if bool_decide (kl.1 ∈ cancelled e) then 0 else length kl.2) m)%nat) by lia.
    clear. induction m as [|[k' l'] m IH]; simpl; [done|]. destruct (bool_decide (k' ∈ cancelled e ++ [k])) eqn:H1, (bool_decide (k' ∈ cancelled e)) eqn:H2; try lia.
    apply bool_decide_eq_false in H1. apply bool_decide_eq_true in H2. set_solver.
  - rewrite (bool_decide_ext (k' ∈ cancelled e ++ [k]) (k' ∈ cancelled e)) by set_solver. simpl in IH. lia.
Qed.

Lemma put_weight g e s : (weight (put_extension g e s) + pending_forwards (extension g s) = weight s + pending_forwards e)%nat.
Proof. unfold weight, put_extension, extension. simpl. pose proof (extensions_weight g e (extensions s)). unfold aborted in *. simpl. lia. Qed.

Lemma getOrCreate_weight g k s : static s → weight (getOrCreateController g k s).1 = weight s.
Proof.
  intros Hs. unfold getOrCreateController. destruct (jm_get k _); [done|]. unfold new_signal. cbn [fst].
  set (s1 := with_signals _ s). pose proof (put_weight g (mkExtension (jm_set k (length (signals s)) (controllers (extension g s1))) (forwardedTargets (extension g s1)) (cancelled (extension g s1))) s1) as Hp.
  assert (E : weight s1 = weight s).
  { unfold weight. simpl. f_equal. f_equal. assert (Hc : ∀ c, c ∈ sources s → aborted (controller c) s1 = aborted (controller c) s).
    { intros c (j & Hj)%list_elem_of_lookup. destruct (static_controller s j c Hs Hj) as (_ & H & _).
      pose proof (aborted_new (ExtensionOf g k) false (controller c) s) as E. rewrite decide_False in E by lia. exact E. }
    revert Hc. generalize (sources s). induction l as [|c l IH]; intros Hc; [done|]. simpl. rewrite IH by (intros; apply Hc; by right). f_equal.
    unfold unsent. by rewrite (Hc c) by left. }
  unfold pending_forwards in *. simpl in Hp. lia.
Qed.

Lemma delivered_weight i g k s : sys_ok s → cancels s !! i = Some (g, k) →
  (weight (cancelRemoteToken g k (with_cancels (delete i (cancels s)) s)) < weight s)%nat.
Proof.
  intros [Hs Hd] Hi. pose proof (lookup_lt_Some _ _ _ Hi) as Hlt. unfold cancelRemoteToken. set (s1 := with_cancels _ s). change (extension g s1) with (extension g s).
  assert (Hw1 : (weight s1 + 1 = weight s)%nat).
  { pose proof (cancels_weight (delete i (cancels s)) s) as H. rewrite length_delete in H by by eexists. unfold s1. lia. }
  case_bool_decide as Hcan; [lia|]. set (s2 := put_extension g _ s1). pose proof (put_weight g (mkExtension (controllers (extension g s)) (forwardedTargets (extension g s)) (cancelled (extension g s) ++ [k])) s1) as Hp.
  fold s2 in Hp. change (extension g s1) with (extension g s) in Hp. pose proof (cancelled_weight k (extension g s) Hcan) as Hcw.
  assert (Hs2 : static s2).
  { assert (Hct : ∀ k' a x, controller_at s2 k' a x ↔ controller_at s k' a x) by (intros k' a x; unfold controller_at, s2; rewrite extension_put; case_decide; [by subst|done]).
    split; try apply Hs; [split; try apply (st_wf s Hs); intros k' a x Hx%Hct; by apply (wf_extension s (st_wf s Hs))|intros k' a x Hx%Hct; by apply (st_safe s Hs k' a x)|].
    intros g' k' Hg. apply (st_sent s Hs g' k'). exact (elem_of_delete_in _ _ _ Hg). }
  pose proof (getOrCreate_spec g k s2 Hs2) as H. pose proof (getOrCreate_weight g k s2 Hs2) as Hw3. destruct (getOrCreateController g k s2) as [s3 x].
  destruct H as (Hx & Hs3 & _ & _ & _ & _ & _ & Hf3). simpl in Hw3.
  destruct (extension_lt s3 k g x Hs3 Hx) as [Ho _].
  pose proof (outside_abortable x s3 _ (st_wf s3 Hs3) Ho ltac:(done) (st_mirrored s3 Hs3) (st_mirrors s3 Hs3)) as Hab.
  pose proof (abort_weight (length (signals s3)) x s3 Hab ltac:(lia)) as Hw4. fold (abort_signal x s3) in Hw4.
  pose proof (abort_signal_spec x s3 _ (st_wf s3 Hs3) Ho ltac:(done) (st_mirrored s3 Hs3) (st_mirrors s3 Hs3)) as [(_ & _ & Ee & _) _ _ _ _ _ _].
  assert (Hf : forwarded k (extension g (abort_signal x s3)) = forwarded k (extension g s)).
  { unfold extension at 1. rewrite Ee. fold (extension g s3). rewrite Hf3. unfold s2. rewrite extension_put, decide_True by done. done. }
  rewrite Hf, send_weight. lia.
Qed.

(** C33: A cancellation ends, also when grains pass tokens round in a circle. From any
    state, after no more deliveries than there are targets to tell, nothing is on
    its way, and every activation that holds a token whose signal was aborted sees it.
    Grains stay activated and each cancellation arrives, as the header says. *)
Theorem cancellations_end ops : let s := system_run ops in ∃ n, (n <= weight s)%nat ∧
  let s' := foldl (λ s o, system_step o s) s (replicate n (DeliverCancel 0)) in
  cancels s' = [] ∧ ∀ k c g x, sources s' !! k = Some c → jm_get k (controllers (extension g s')) = Some x → aborted x s' = aborted (tokenSignal c) s'.
Proof.
  intros s. assert (Hok : sys_ok s) by apply system_run_ok. revert Hok. generalize s. clear ops s.
  intros s. remember (weight s) as w eqn:Ew. revert s Ew. induction (lt_wf w) as [w _ IH]. intros s -> Hok. destruct (cancels s) as [|[g k] l] eqn:Hc.
  - exists 0%nat. split; [lia|]. split; [done|]. intros k c g x Hk Hx. simpl in *. destruct Hok as [Hs Hd]. apply eq_true_iff_eq. split.
    + intros Ha. destruct (st_safe s Hs k g x Hx Ha) as (c' & Hc' & Ha'). rewrite Hk in Hc'. by injection Hc' as <-.
    + intros Ha. destruct (dy_bound s Hd k g x Hx) as [?|Hp]; [done|]. exfalso. clear Hx.
      induction Hp as [g Hg|c' g Hc' Hn Hg|u g Hu Hf _ IHp]; [rewrite Hc in Hg; by apply elem_of_nil in Hg| |done]. rewrite Hk in Hc'. injection Hc' as <-.
      destruct (st_mirrored s Hs k c Hk Ha); congruence.
  - assert (Hi : cancels s !! 0%nat = Some (g, k)) by by rewrite Hc. pose proof (delivered_weight 0 g k s Hok Hi) as Hlt.
    set (s1 := cancelRemoteToken g k (with_cancels (delete 0 (cancels s)) s)) in *.
    destruct (IH (weight s1) Hlt s1 eq_refl) as (n & Hn & Hrest); [by apply cancel_delivered_ok|].
    exists (S n). split; [lia|]. cbn [replicate foldl system_step]. rewrite Hi. exact Hrest.
Qed.

(** ** Runs *)

Module Runs.
Open Scope string_scope.
(** A source's token goes to A, from A to B and from B back to A; the source is
    cancelled; and a signal that C holds is passed on to D. *)
Definition circle : list Op :=
  [NewSource; SendToken (OfSource 0) "A"; Encode 0; Arrive 0; SendToken (OfExtension "A" 0) "B"; Encode 0; Arrive 0; SendToken (OfExtension "B" 0) "A"; Encode 0; Arrive 0;
   SendSignal 2 "D"; Encode 0; Arrive 0].
Definition delivered : list Op := circle ++ [Cancel 0; DeliverCancel 0; DeliverCancel 0; DeliverCancel 0; DeliverCancel 0].

Lemma cancel_reaches_holders_witness : ∃ c x, sources (system_run delivered) !! 1%nat = Some c ∧ jm_get 1%nat (controllers (extension "D" (system_run delivered))) = Some x ∧
  aborted (tokenSignal c) (system_run delivered) = true ∧ aborted x (system_run delivered) = true.
Proof.
  assert (H : ∃ c x, sources (system_run delivered) !! 1%nat = Some c ∧ jm_get 1%nat (controllers (extension "D" (system_run delivered))) = Some x ∧
    aborted (tokenSignal c) (system_run delivered) = true ∧ cancels (system_run delivered) = []) by (vm_compute; eexists _, _; repeat split; reflexivity).
  destruct H as (c & x & Hc & Hx & Ha & He). exists c, x. split; [exact Hc|]. split; [exact Hx|]. split; [exact Ha|].
  apply (proj2 (cancel_reaches_holders delivered 1 c "D" x Hc Hx)); [exact Ha|]. rewrite He. intros h Hh. by apply elem_of_nil in Hh.
Defined.

Example circle_ends : (cancels (system_run (circle ++ [Cancel 0])), cancels (system_run delivered)) = ([("A", 0%nat)], []).
Proof. vm_compute. reflexivity. Qed.
End Runs.
