(* ===== verification/GrainTimer.v ===== *)
(** * Grain timers

    Models [packages/runtime/src/grain-timer-impl.ts] (the class [GrainTimerImpl])
    over the timers of the host. A tick is a turn of the grain: it begins when the
    host's timer fires and settles later, however it ends. Times are in milliseconds;
    due times and periods are rational, as the code truncates them. *)
From Stdlib Require Import String QArith.
From stdpp Require Import prelude gmap strings list.
From S2P Require Import Prelude JsMap.
Open Scope Z_scope.

Definition MAX_SUPPORTED_TIMEOUT_MS : Z := 4294967294.
Definition INFINITE_MS : Z := -1.

Definition Math_trunc (q : Q) : Z := Z.quot (Qnum q) (Zpos (Qden q)).
Definition validateTimeoutMs (ms : Q) : option Z :=
  let truncated := Math_trunc ms in
  if bool_decide (truncated < -1) then None
  else if bool_decide (MAX_SUPPORTED_TIMEOUT_MS < truncated) then None
  else Some truncated.
(** An absent period stays absent; the outer option is the error. *)
Definition validatePeriod (period : option Q) : option (option Z) :=
  match period with None => Some None | Some p => Some <$> validateTimeoutMs p end.

Record GrainTimer := mkTimer {
  handle : option nat;
  disposed : bool;
  firing : bool;
  changed : bool;
  dueMs : Z;
  periodMs : option Z }.

(** The host: its clock, the timers armed with their times, and the ticks so far:
    when each began and settled, and by which it was armed. *)
Record Tick := mkTick { began : Z; settled : option Z }.
Record Host := mkHost { now : Z; armed : list (nat * Z); minted : nat; timer : GrainTimer; ticks : list Tick }.

Definition with_timer (t : GrainTimer) (h : Host) : Host := mkHost (now h) (armed h) (minted h) t (ticks h).
Definition with_handle (x : option nat) (t : GrainTimer) : GrainTimer := mkTimer x (disposed t) (firing t) (changed t) (dueMs t) (periodMs t).

Definition setTimer (delayMs : Z) (h : Host) : Host * nat :=
  (mkHost (now h) (armed h ++ [(minted h, now h + Z.max 0 delayMs)]) (S (minted h)) (timer h) (ticks h), minted h).
Definition clearTimer (x : nat) (h : Host) : Host := mkHost (now h) (jm_delete x (armed h)) (minted h) (timer h) (ticks h).

Definition clearHandle (h : Host) : Host :=
  let h := match handle (timer h) with Some x => clearTimer x h | None => h end in
  with_timer (with_handle None (timer h)) h.
Definition schedule (delayMs : option Z) (h : Host) : Host :=
  match delayMs with
  | None => h
  | Some d => if bool_decide (d = INFINITE_MS) then h else let '(h, x) := setTimer d h in with_timer (with_handle (Some x) (timer h)) h
  end.

Definition new_timer (at_ : Z) (due : Q) (period : option Q) : option Host :=
  d ← validateTimeoutMs due; p ← validatePeriod period;
  Some (schedule (Some d) (mkHost at_ [] 0 (mkTimer None false false false d p) [])).

(** [change]; without an effect where it throws. *)
Definition change (due : Q) (period : option Q) (h : Host) : Host :=
  match validateTimeoutMs due, validatePeriod period with
  | Some d, Some p =>
      let t := timer h in
      if disposed t then h
      else
        let h := with_timer (mkTimer (handle t) (disposed t) (firing t) true d p) h in
        if firing t then h else schedule (Some d) (clearHandle h)
  | _, _ => h
  end.
Definition dispose (h : Host) : Host :=
  let t := timer h in
  clearHandle (with_timer (mkTimer (handle t) true (firing t) (changed t) (dueMs t) (periodMs t)) h).

Definition fire (h : Host) : Host :=
  let t := timer h in
  if disposed t then h
  else mkHost (now h) (armed h) (minted h) (mkTimer None (disposed t) true false (dueMs t) (periodMs t)) (ticks h ++ [mkTick (now h) None]).
(** The turn of the tick settles: its [finally]. *)
Definition settle (h : Host) : Host :=
  let t := timer h in
  let h := mkHost (now h) (armed h) (minted h) (mkTimer (handle t) (disposed t) false (changed t) (dueMs t) (periodMs t))
    ((λ k, mkTick (began k) (match settled k with None => Some (now h) | s => s end)) <$> ticks h) in
  if disposed t then h else schedule (if changed t then Some (dueMs t) else periodMs t) h.

Inductive Op := Pass (dt : Z) | Fires (x : nat) | Settles | Change (due : Q) (period : option Q) | Dispose.
Definition host_step (o : Op) (h : Host) : Host :=
  match o with
  | Pass dt => mkHost (now h + Z.max 0 dt) (armed h) (minted h) (timer h) (ticks h)
  | Fires x => match jm_get x (armed h) with Some at_ => if bool_decide (at_ <= now h) then fire (clearTimer x h) else h | None => h end
  | Settles => if bool_decide (Exists (λ k, settled k = None) (ticks h)) then settle h else h
  | Change due period => change due period h
  | Dispose => dispose h
  end.
Definition host_run (h : Host) (ops : list Op) : Host := foldl (λ h o, host_step o h) h ops.

(** ** One chain of ticks *)

(** Ticks that follow one another: the first at [from] or later, each one after the
    end of the one before it by [g] or more. With the time from which the next may
    begin, unless one is under way. *)
Inductive paced (g from : Z) : list Tick → option Z → Prop :=
  | paced_none : paced g from [] (Some from)
  | paced_begins l f k : paced g from l (Some f) → f <= began k → settled k = None → paced g from (l ++ [k]) None
  | paced_settles l f k e : paced g from l (Some f) → f <= began k → settled k = Some e → began k <= e → paced g from (l ++ [k]) (Some (e + g)).

(** The delay that a host timer was armed with last was none. *)
Definition stopped_by_delay (t : GrainTimer) : Prop := dueMs t = INFINITE_MS ∨ periodMs t = None ∨ periodMs t = Some INFINITE_MS.

Record timer_ok (g from : Z) (tk_next : option Z) (h : Host) : Prop := {
  tk_ticks : paced g from (ticks h) tk_next;
  tk_firing : firing (timer h) = true ↔ tk_next = None;
  tk_past : ∀ k, k ∈ ticks h → began k <= now h;
  tk_now : ∀ f, tk_next = Some f → g = 0 → f <= now h;
  (** At most one timer of the host is armed: the one the handle names. *)
  tk_armed : match handle (timer h) with
    | Some x => ∃ at_ f, armed h = [(x, at_)] ∧ disposed (timer h) = false ∧ tk_next = Some f ∧ f <= at_
    | None => armed h = []
    end;
  tk_idle : handle (timer h) = None → firing (timer h) = false → disposed (timer h) = false → stopped_by_delay (timer h);
  tk_pace : g = 0 ∨ (periodMs (timer h) = Some g ∧ changed (timer h) = false) }.

Lemma paced_settled g from l f : paced g from l f → ∀ k, k ∈ l → f = None ∧ last l = Some k ∨ is_Some (settled k).
Proof.
  induction 1 as [|l f k H IH Hf Hk|l f k e H IH Hf Hk He]; intros k' Hin; [by apply elem_of_nil in Hin| |].
  - apply elem_of_app in Hin as [Hin|Hin]; [destruct (IH k' Hin) as [[? _]|?]; [done|by right]|]. apply list_elem_of_singleton in Hin as ->. left. by rewrite last_snoc.
  - apply elem_of_app in Hin as [Hin|Hin]; [destruct (IH k' Hin) as [[? _]|?]; [done|by right]|]. apply list_elem_of_singleton in Hin as ->. right. by eexists.
Qed.

Definition settle_tick (n : Z) (k : Tick) : Tick := mkTick (began k) (match settled k with None => Some n | s => s end).
Lemma settle_ticks g from l n : paced g from l None → (∀ k, k ∈ l → began k <= n) → paced g from (settle_tick n <$> l) (Some (n + g)).
Proof.
  intros H Hn. inversion H as [|l0 f k H0 Hf Hk|]; subst. rewrite fmap_app.
  assert (E : settle_tick n <$> l0 = l0).
  { rewrite <- (list_fmap_id l0) at 2. apply list_fmap_ext. intros i k' Hk'. destruct (paced_settled _ _ _ _ H0 k') as [[? _]|[e He]]; [by eapply list_elem_of_lookup_2|done|].
    unfold settle_tick. rewrite He. destruct k' as [b s0]. simpl in *. by rewrite He. }
  rewrite E. simpl. apply (paced_settles g from l0 f (settle_tick n k) n); [done|done|unfold settle_tick; by rewrite Hk|]. apply (Hn k). apply elem_of_app. right. left.
Qed.

Lemma clear_one x a (h : Host) : armed h = [(x, a)] → armed (clearTimer x h) = [].
Proof. intros E. unfold clearTimer. simpl. rewrite E. unfold jm_delete. rewrite filter_cons_False; [done|]. simpl. by intros []. Qed.

Lemma clearHandle_armed g from f h : timer_ok g from f h → armed (clearHandle h) = [] ∧ handle (timer (clearHandle h)) = None ∧
  now (clearHandle h) = now h ∧ ticks (clearHandle h) = ticks h ∧ disposed (timer (clearHandle h)) = disposed (timer h) ∧ firing (timer (clearHandle h)) = firing (timer h) ∧
  changed (timer (clearHandle h)) = changed (timer h) ∧ dueMs (timer (clearHandle h)) = dueMs (timer h) ∧ periodMs (timer (clearHandle h)) = periodMs (timer h).
Proof.
  intros [_ _ _ _ Ha _ _]. unfold clearHandle. destruct (handle (timer h)) as [x|].
  - destruct Ha as (a & f' & E & _). pose proof (clear_one x a h E) as E'. by repeat split.
  - by repeat split.
Qed.

(** Arming the next tick of an idle timer. *)
Lemma schedule_ok g from f d h : paced g from (ticks h) (Some f) → (∀ k, k ∈ ticks h → began k <= now h) → (g = 0 → f <= now h) → (∀ d', d = Some d' → d' ≠ INFINITE_MS → f <= now h + Z.max 0 d') →
  armed h = [] → handle (timer h) = None → disposed (timer h) = false → firing (timer h) = false →
  (d = None ∨ d = Some INFINITE_MS → stopped_by_delay (timer h)) → (g = 0 ∨ (periodMs (timer h) = Some g ∧ changed (timer h) = false)) → timer_ok g from (Some f) (schedule d h).
Proof.
  intros Ht Hp Hn Hd Ha Hh Hdis Hf Hs Hg. unfold schedule. destruct d as [d|].
  - case_bool_decide as Hinf.
    + subst d. split; try done; [by rewrite Hf|by intros ? [= <-]|by rewrite Hh|]. intros _ _ _. apply Hs. by right.
    + unfold setTimer. split; simpl; try done; [by rewrite Hf|by intros ? [= <-]|]. rewrite Ha. exists (now h + Z.max 0 d), f. split_and!; try done. by apply Hd.
  - split; try done; [by rewrite Hf|by intros ? [= <-]|by rewrite Hh|]. intros _ _ _. apply Hs. by left.
Qed.

Lemma host_step_ok g from o h : (g = 0 ∨ match o with Change _ _ => False | _ => True end) → 0 <= g →
  (∃ f, timer_ok g from f h) → ∃ f, timer_ok g from f (host_step o h).
Proof.
  intros Hg Hg0 [f Hok]. pose proof Hok as [H1 H2 H3 H4 H5 H6 H7]. destruct o as [dt|x| |due period|]; cbn [host_step].
  - exists f. split; simpl; try done; [intros k Hk; specialize (H3 k Hk); lia|]. intros f' Hf E. specialize (H4 f' Hf E). lia.
  - destruct (jm_get x (armed h)) as [a|] eqn:Hx; [|by exists f]. case_bool_decide as Hdue; [|by exists f].
    destruct (handle (timer h)) as [x'|] eqn:Hh; [|by rewrite H5 in Hx]. destruct H5 as (a' & f' & E & Hdis & -> & Hle). rewrite E in Hx. simpl in Hx. case_decide as Ex; [|done]. subst x'. injection Hx as ->.
    unfold fire. change (timer (clearTimer x h)) with (timer h). rewrite Hdis. exists None. split; simpl; try done.
    + apply (paced_begins g from (ticks h) f'); [done|simpl; lia|done].
    + intros k [Hk|Hk]%elem_of_app; [by apply H3|]. apply list_elem_of_singleton in Hk as ->. simpl. lia.
    + by apply (clear_one x a h E).
    + destruct H7 as [?|[? ?]]; [by left|by right].
  - case_bool_decide as Hex; [|by exists f]. destruct f as [f|].
    { exfalso. apply Exists_exists in Hex as (k & Hk & Hnone). destruct (paced_settled _ _ _ _ H1 k Hk) as [[? _]|[? ?]]; [done|congruence]. }
    pose proof (settle_ticks g from (ticks h) (now h) H1 H3) as Hs. assert (Hfir : firing (timer h) = true) by by apply H2.
    assert (Hh : handle (timer h) = None) by (destruct (handle (timer h)); [by destruct H5 as (? & ? & _ & _ & ? & _)|done]). rewrite Hh in H5.
    assert (Hpast : ∀ k, k ∈ settle_tick (now h) <$> ticks h → began k <= now h) by (intros k (k0 & -> & Hk0)%list_elem_of_fmap; simpl; by apply H3).
    unfold settle. destruct (disposed (timer h)) eqn:Hdis.
    + exists (Some (now h + g)). split; simpl; try done; [intros f [= <-] ->; lia|by rewrite Hh].
    + exists (Some (now h + g)). apply schedule_ok; simpl; try done; [lia| |].
      * intros d. destruct (changed (timer h)) eqn:Hch; intros Hd Hinf; destruct H7 as [->|[Hp Hc]]; try lia; try congruence. rewrite Hd in Hp. injection Hp as ->. lia.
      * destruct (changed (timer h)); unfold stopped_by_delay; simpl; naive_solver.
  - destruct Hg as [->|[]]. unfold change. destruct (validateTimeoutMs due) as [d|]; [|by exists f]. destruct (validatePeriod period) as [p|]; [|by exists f].
    destruct (disposed (timer h)) eqn:Hdis; [by exists f|]. set (h1 := with_timer _ h). destruct (firing (timer h)) eqn:Hf.
    + exists f. assert (Hnone : f = None) by by apply H2. subst f.
      assert (Hh : handle (timer h) = None) by (destruct (handle (timer h)); [by destruct H5 as (? & ? & _ & _ & ? & _)|done]). rewrite Hh in H5.
      split; simpl; try done; [by rewrite Hh|by left].
    + destruct f as [f|]; [|by destruct H2 as [_ H2]; discriminate (H2 eq_refl)]. exists (Some f).
      assert (Hok1 : armed (clearHandle h1) = [] ∧ handle (timer (clearHandle h1)) = None ∧ now (clearHandle h1) = now h ∧ ticks (clearHandle h1) = ticks h ∧
        timer (clearHandle h1) = mkTimer None false false true d p).
      { unfold clearHandle, h1. simpl. destruct (handle (timer h)) as [x|]; [destruct H5 as (a & f' & E & _); pose proof (clear_one x a h E)|]; by repeat split. }
      destruct Hok1 as (E1 & E2 & E3 & E4 & E5). apply schedule_ok; rewrite ?E3, ?E4, ?E5; try done.
      * by apply H4.
      * intros d' _ _. specialize (H4 f eq_refl eq_refl). lia.
      * unfold stopped_by_delay. simpl. naive_solver.
      * by left.
  - exists f. unfold dispose. set (h1 := with_timer _ h).
    assert (Hok1 : armed (clearHandle h1) = [] ∧ now (clearHandle h1) = now h ∧ ticks (clearHandle h1) = ticks h ∧
      timer (clearHandle h1) = mkTimer None true (firing (timer h)) (changed (timer h)) (dueMs (timer h)) (periodMs (timer h))).
    { unfold clearHandle, h1. simpl. destruct (handle (timer h)) as [x|]; [destruct H5 as (a & f' & E & _); pose proof (clear_one x a h E)|]; by repeat split. }
    destruct Hok1 as (E1 & E3 & E4 & E5). split; rewrite ?E3, ?E4, ?E5; try done.
Qed.

Lemma new_timer_ok g at_ due period h : new_timer at_ due period = Some h → (g = 0 ∨ periodMs (timer h) = Some g) →
  ∃ f, timer_ok g at_ f h.
Proof.
  unfold new_timer. destruct (validateTimeoutMs due) as [d|]; [|done]. destruct (validatePeriod period) as [p|]; [|done]. cbn [mbind option_bind]. intros [= <-] Hg.
  exists (Some at_). apply (schedule_ok g at_ at_ (Some d) (mkHost at_ [] 0 (mkTimer None false false false d p) [])); simpl; try done.
  - constructor.
  - intros k Hk. by apply elem_of_nil in Hk.
  - intros d' _ _. lia.
  - unfold stopped_by_delay. simpl. naive_solver.
  - destruct Hg as [?|Hg]; [by left|right]. split; [|done]. revert Hg. simpl. case_bool_decide; done.
Qed.

Lemma host_run_ok g from ops h : (g = 0 ∨ ∀ d p, Change d p ∉ ops) → 0 <= g → (∃ f, timer_ok g from f h) → ∃ f, timer_ok g from f (host_run h ops).
Proof.
  intros Hg Hg0. unfold host_run. revert h. induction ops as [|o ops IH]; intros h Hh; [done|]. simpl. apply IH.
  - destruct Hg as [?|Hg]; [by left|right]. intros d p Hin. apply (Hg d p). by right.
  - apply host_step_ok; [|done|done]. destruct Hg as [?|Hg]; [by left|right]. destruct o; try done. destruct (Hg due period). left.
Qed.

(** The ticks of a timer are one chain. Whatever time passes, however long turns
    take, and whenever the timer is changed, within a tick too, or disposed: a tick
    begins once the one before it has settled; at most one host timer is armed, none
    while a tick is under way, none once the timer is disposed; and a timer that is
    neither armed nor ticking was disposed, or given no delay. *)
Theorem ticks_one_chain at_ due period h ops : new_timer at_ due period = Some h →
  let h' := host_run h ops in
  (∃ f, paced 0 at_ (ticks h') f ∧ (firing (timer h') = true ↔ f = None)) ∧
  (armed h' = [] ∨ (∃ x a, armed h' = [(x, a)]) ∧ firing (timer h') = false ∧ disposed (timer h') = false) ∧
  (armed h' = [] → firing (timer h') = false → disposed (timer h') = false → stopped_by_delay (timer h')).
Proof.
  intros Hnew h'. destruct (host_run_ok 0 at_ ops h) as [f [H1 H2 H3 H4 H5 H6 H7]]; [by left|lia|apply (new_timer_ok 0 _ _ _ _ Hnew); by left|]. fold h' in H1, H2, H3, H4, H5, H6, H7.
  split; [by exists f|]. destruct (handle (timer h')) as [x|] eqn:Hh; [|split; [by left|by auto]].
  destruct H5 as (a & f' & E & Hdis & Hf & _). rewrite E. split; [|done]. right. split; [by exists x, a|]. split; [|done]. apply not_true_iff_false. rewrite H2. congruence.
Qed.

(** A periodic timer keeps its period between ticks: unless it is changed, each
    tick begins the period or more after the one before it settled, and the next one
    is always armed or under way until the timer is disposed. *)
Theorem ticks_keep_period at_ due period h ops p : new_timer at_ due period = Some h → periodMs (timer h) = Some p → 0 <= p → dueMs (timer h) ≠ INFINITE_MS →
  (∀ d q, Change d q ∉ ops) →
  let h' := host_run h ops in
  (∃ f, paced p at_ (ticks h') f) ∧ (armed h' ≠ [] ∨ firing (timer h') = true ∨ disposed (timer h') = true).
Proof.
  intros Hnew Hp Hp0 Hd Hch h'. destruct (host_run_ok p at_ ops h) as [f [H1 H2 H3 H4 H5 H6 H7]]; [by right|done|apply (new_timer_ok p _ _ _ _ Hnew); by right|].
  fold h' in H1, H2, H3, H4, H5, H6, H7. split; [by exists f|]. destruct (disposed (timer h')) eqn:Hdis; [by right; right|]. destruct (firing (timer h')) eqn:Hf; [by right; left|].
  left. intros Ha. destruct (handle (timer h')) as [x|] eqn:Hh; [destruct H5 as (a & f' & E & _); congruence|].
  assert (Hsame : dueMs (timer h') = dueMs (timer h) ∧ periodMs (timer h') = periodMs (timer h)).
  { unfold h', host_run. clear -Hch. revert h. induction ops as [|o ops IH]; intros h; [done|]. simpl. assert (Hch' : ∀ d q, Change d q ∉ ops) by (intros d q Hin; apply (Hch d q); by right).
    destruct (IH Hch' (host_step o h)) as [-> ->]. destruct o as [dt|x| |d q|]; cbn [host_step]; try done.
    - destruct (jm_get x (armed h)); [|done]. case_bool_decide; [|done]. unfold fire. by destruct (disposed _).
    - case_bool_decide; [|done]. unfold settle, schedule. destruct (disposed _); [done|]. destruct (changed _); simpl; [case_bool_decide; done|]. destruct (periodMs (timer h)); [|done]. by case_bool_decide.
    - destruct (Hch d q). left.
    - unfold dispose, clearHandle. simpl. by destruct (handle _). }
  destruct Hsame as [E1 E2]. unfold stopped_by_delay, INFINITE_MS in *. rewrite E1, E2, Hp in H6. destruct (H6 eq_refl eq_refl eq_refl) as [?|[?|[= ?]]]; [done|done|lia].
Qed.

(** ** Runs *)

Module Runs.
(** Every second, from half a second on; a tick takes three seconds, and is changed
    to five seconds within. *)
Definition ops : list Op := [Pass 500; Fires 0; Pass 3000; Fires 0; Change (5000 # 1) (Some (1000 # 1)); Settles; Pass 1000; Fires 1; Pass 4000; Fires 1; Settles].
Definition slow : list Op := [Pass 500; Fires 0; Pass 3000; Settles; Pass 999; Fires 1; Pass 1; Fires 1].
Lemma ticks_one_chain_witness : ∃ h, new_timer 0 (500 # 1) (Some (1000 # 1)) = Some h ∧
  ticks (host_run h ops) = [mkTick 500 (Some 3500); mkTick 8500 (Some 8500)] ∧ armed (host_run h ops) = [(2%nat, 9500)] ∧
  ∃ f, paced 0 0 (ticks (host_run h ops)) f.
Proof.
  destruct (new_timer 0 (500 # 1) (Some (1000 # 1))) as [h|] eqn:E; [|discriminate E]. exists h. split; [reflexivity|].
  destruct (ticks_one_chain 0 (500 # 1) (Some (1000 # 1)) h ops E) as ((f & Hf & _) & _). injection E as E.
  split; [rewrite <- E; vm_compute; reflexivity|]. split; [rewrite <- E; vm_compute; reflexivity|]. exists f. exact Hf.
Defined.
Lemma ticks_keep_period_witness : ∃ h, new_timer 0 (500 # 1) (Some (1000 # 1)) = Some h ∧
  ticks (host_run h slow) = [mkTick 500 (Some 3500); mkTick 4500 None] ∧ ∃ f, paced 1000 0 (ticks (host_run h slow)) f.
Proof.
  destruct (new_timer 0 (500 # 1) (Some (1000 # 1))) as [h|] eqn:E; [|discriminate E]. exists h. split; [reflexivity|].
  assert (H : periodMs (timer h) = Some 1000 ∧ dueMs (timer h) = 500) by (injection E as <-; split; reflexivity).
  destruct (ticks_keep_period 0 (500 # 1) (Some (1000 # 1)) h slow 1000 E) as [Hf _]; [exact (proj1 H)|lia|rewrite (proj2 H); discriminate| |].
  - intros d q Hin. unfold slow in Hin. rewrite !elem_of_cons in Hin. destruct Hin as [H1|[H1|[H1|[H1|[H1|[H1|[H1|[H1|H1]]]]]]]]; try discriminate. by apply elem_of_nil in H1.
  - injection E as E. split; [rewrite <- E; vm_compute; reflexivity|exact Hf].
Defined.
End Runs.
