(* ===== verification/ClientGateway.v ===== *)
(** * Client gateways

    Models [packages/runtime/src/client-directory.ts] (the class [ClientDirectory])
    and the part of [packages/runtime/src/cluster-node.ts] (the class [ClusterNode])
    that holds client connections: their acceptance and loss, the drop of clients
    that stay away, the gossip of which gateway a client is on, the part of
    [updateView] that concerns it, and the routing of calls to clients.

    Connections are numbers into the list of those accepted. The gossip from one silo
    to another goes over one pooled connection: it arrives in the order it was sent,
    unless it is lost. *)
From Stdlib Require Import String.
From stdpp Require Import prelude gmap strings list.
From S2P Require Import Prelude JsMap Ids Membership.
Open Scope Z_scope.

(** ** The directory of clients *)

(** By client and by the gateway's ring key. *)
Definition ClientDirectory := list (string * list (string * SiloAddress)).
Definition client_key (c : GrainId) : string := GrainId_toString c.

Definition register (c : GrainId) (gateway : SiloAddress) (d : ClientDirectory) : ClientDirectory :=
  jm_set (client_key c) (jm_set (ringKey gateway) gateway (default [] (jm_get (client_key c) d))) d.
Definition unregister (c : GrainId) (gateway : SiloAddress) (d : ClientDirectory) : ClientDirectory :=
  match jm_get (client_key c) d with
  | None => d
  | Some gs =>
      let gs := jm_delete (ringKey gateway) gs in
      if bool_decide (gs = []) then jm_delete (client_key c) d else jm_set (client_key c) gs d
  end.
Definition unregisterSilo (gateway : SiloAddress) (d : ClientDirectory) : ClientDirectory :=
  omap (λ e, let gs := jm_delete (ringKey gateway) e.2 in if bool_decide (gs = []) then None else Some (e.1, gs)) d.
Definition lookup_client (c : GrainId) (preferred : option SiloAddress) (d : ClientDirectory) : option SiloAddress :=
  gs ← jm_get (client_key c) d;
  match p ← preferred; jm_get (ringKey p) gs with
  | Some g => Some g
  | None => snd <$> head gs
  end.

(** ** A silo as a gateway *)

Inductive Gossip := GRegister (c : GrainId) (gateway : SiloAddress) | GUnregister (c : GrainId) (gateway : SiloAddress).
Definition apply_gossip (x : Gossip) (d : ClientDirectory) : ClientDirectory :=
  match x with GRegister c g => register c g d | GUnregister c g => unregister c g d end.

Record Gateway := mkGateway {
  directory : ClientDirectory;
  clientConnections : list (string * nat);
  clientConnectionsByEndpoint : list (string * nat);
  clientDisconnectedSince : list (string * Z);
  localClientIds : list (string * GrainId);
  (** The calls sent over a client's connection that were not answered, with it. *)
  outstanding : list (nat * nat);
  (** The active silos of the current view, and those of the ring in force. *)
  active : list SiloAddress;
  ring : list SiloAddress }.
Definition new_gateway (view : list SiloAddress) : Gateway := mkGateway [] [] [] [] [] [] view view.
Definition with_directory (d : ClientDirectory) (g : Gateway) : Gateway :=
  mkGateway d (clientConnections g) (clientConnectionsByEndpoint g) (clientDisconnectedSince g) (localClientIds g) (outstanding g) (active g) (ring g).
Definition with_outstanding (l : list (nat * nat)) (g : Gateway) : Gateway :=
  mkGateway (directory g) (clientConnections g) (clientConnectionsByEndpoint g) (clientDisconnectedSince g) (localClientIds g) l (active g) (ring g).

Record Connection := mkConnection { at_gateway : SiloAddress; of_client : GrainId; endpoint_of : string; is_open : bool }.

(** [onClientAccept], but for its gossip. *)
Definition onClientAccept (local : SiloAddress) (c : GrainId) (endpoint : string) (conn : nat) (g : Gateway) : Gateway :=
  mkGateway (register c local (directory g)) (jm_set (client_key c) conn (clientConnections g)) (jm_set endpoint conn (clientConnectionsByEndpoint g))
    (jm_delete (client_key c) (clientDisconnectedSince g)) (jm_set (client_key c) c (localClientIds g)) (outstanding g) (active g) (ring g).
Definition recordClosedClientConnection (now : Z) (c : GrainId) (endpoint : string) (conn : nat) (g : Gateway) : Gateway :=
  let g := with_outstanding (filter (λ x, x.2 ≠ conn) (outstanding g)) g in
  if bool_decide (jm_get (client_key c) (clientConnections g) = Some conn) then
    mkGateway (directory g) (jm_delete (client_key c) (clientConnections g)) (jm_delete endpoint (clientConnectionsByEndpoint g))
      (jm_set (client_key c) now (clientDisconnectedSince g)) (localClientIds g) (outstanding g) (active g) (ring g)
  else g.

(** One client of the sweep [dropDisconnectedClients]: with what to gossip. *)
Definition drop_client (dropTimeoutMs now : Z) (local : SiloAddress) (gx : Gateway * list Gossip) (e : string * Z) : Gateway * list Gossip :=
  let '(g, x) := gx in
  if bool_decide (now - e.2 < dropTimeoutMs) then (g, x)
  else
    let g := mkGateway (directory g) (clientConnections g) (clientConnectionsByEndpoint g) (jm_delete e.1 (clientDisconnectedSince g)) (localClientIds g) (outstanding g) (active g) (ring g) in
    if jm_has e.1 (clientConnections g) then (g, x)
    else
      let c := jm_get e.1 (localClientIds g) in
      let g := mkGateway (directory g) (clientConnections g) (clientConnectionsByEndpoint g) (clientDisconnectedSince g) (jm_delete e.1 (localClientIds g)) (outstanding g) (active g) (ring g) in
      match c with
      | None => (g, x)
      | Some c => (with_directory (unregister c local (directory g)) g, x ++ [GUnregister c local])
      end.
Definition dropDisconnectedClients (dropTimeoutMs now : Z) (local : SiloAddress) (g : Gateway) : Gateway * list Gossip :=
  foldl (drop_client dropTimeoutMs now local) (g, []) (clientDisconnectedSince g).

Definition otherActiveSilos (local : SiloAddress) (g : Gateway) : list SiloAddress := filter (λ s, s ≠ local) (active g).
(** For every client of this silo, to every peer. *)
Definition republishClientDirectory (local : SiloAddress) (peers : list SiloAddress) (g : Gateway) : list (SiloAddress * Gossip) :=
  c ← (localClientIds g).*2; p ← peers; [(p, GRegister c local)].

(** The part of [updateView] that concerns clients. *)
Definition update_clients (local : SiloAddress) (snapshot : MembershipSnapshot) (g : Gateway) : Gateway * list (SiloAddress * Gossip) :=
  let act := activeSilos snapshot in
  let present := ringKey <$> memberSilos snapshot in
  let oldLive := ringKey <$> ring g in
  let newlyActive := filter (λ s, ringKey s ∉ oldLive ∧ s ≠ local) act in
  let d := foldl (λ d m, if bool_decide (ringKey m ∈ present) then d else unregisterSilo m d) (directory g) (ring g) in
  let g := mkGateway d (clientConnections g) (clientConnectionsByEndpoint g) (clientDisconnectedSince g) (localClientIds g) (outstanding g) act act in
  (g, republishClientDirectory local newlyActive g).

(** [routeToClient]. *)
Inductive Route := NoGateway | Proxy | Remote (s : SiloAddress).
Definition routeToClient (local : SiloAddress) (c : GrainId) (g : Gateway) : Route :=
  match lookup_client c (Some local) (directory g) with
  | None => NoGateway
  | Some s => if bool_decide (s = local) then Proxy else Remote s
  end.
(** [deliverToProxy], [proxyRequestToClient]: the connection the call is sent over;
    without one it is rejected. *)
Definition deliverToProxy (call : nat) (c : GrainId) (g : Gateway) : Gateway * bool :=
  match jm_get (client_key c) (clientConnections g) with
  | Some conn => (with_outstanding (outstanding g ++ [(call, conn)]) g, true)
  | None => (g, false)
  end.

(** ** Gateways and the gossip between them *)

Record World := mkWorld {
  clock : Z;
  connections : list Connection;
  gateways : list (SiloAddress * Gateway);
  (** Gossip on its way: from, to. *)
  flight : list (SiloAddress * SiloAddress * Gossip) }.

Inductive Op :=
  | Connect (s : SiloAddress) (c : GrainId) (endpoint : string)
  | Close (conn : nat)
  | Pass (dt : Z)
  | Sweep (s : SiloAddress)
  | Refresh (s : SiloAddress)
  | UpdateView (s : SiloAddress) (snapshot : MembershipSnapshot)
  | Deliver (from to : SiloAddress)
  | Lose (from to : SiloAddress)
  | CallClient (s : SiloAddress) (call : nat) (c : GrainId)
  | Answer (s : SiloAddress) (call : nat).

Definition put (s : SiloAddress) (g : Gateway) (w : World) : World := mkWorld (clock w) (connections w) (jm_set s g (gateways w)) (flight w).
Definition send (s : SiloAddress) (l : list (SiloAddress * Gossip)) (w : World) : World :=
  mkWorld (clock w) (connections w) (gateways w) (flight w ++ ((λ x, (s, x.1, x.2)) <$> l)).
Definition broadcastClientGossip (s : SiloAddress) (g : Gateway) (x : Gossip) : list (SiloAddress * Gossip) := (λ p, (p, x)) <$> otherActiveSilos s g.

Definition on_channel (from to : SiloAddress) (m : SiloAddress * SiloAddress * Gossip) : Prop := m.1 = (from, to).
#[export] Instance on_channel_dec from to m : Decision (on_channel from to m) := decide (m.1 = (from, to)).
(** The first of what is on its way from one silo to another. *)
Fixpoint take_first (from to : SiloAddress) (l : list (SiloAddress * SiloAddress * Gossip)) : option (Gossip * list (SiloAddress * SiloAddress * Gossip)) :=
  match l with
  | [] => None
  | m :: l => if decide (on_channel from to m) then Some (m.2, l) else (λ r, (r.1, m :: r.2)) <$> take_first from to l
  end.

Section world.
Variable dropTimeoutMs : Z.

Definition gateway_world_step (o : Op) (w : World) : World :=
  match o with
  | Connect s c endpoint =>
      match jm_get s (gateways w) with
      | Some g =>
          let g := onClientAccept s c endpoint (length (connections w)) g in
          send s (broadcastClientGossip s g (GRegister c s)) (put s g (mkWorld (clock w) (connections w ++ [mkConnection s c endpoint true]) (gateways w) (flight w)))
      | None => w
      end
  | Close conn =>
      match connections w !! conn with
      | Some (mkConnection s c e true) =>
          match jm_get s (gateways w) with
          | Some g => put s (recordClosedClientConnection (clock w) c e conn g) (mkWorld (clock w) (<[conn := mkConnection s c e false]> (connections w)) (gateways w) (flight w))
          | None => w
          end
      | _ => w
      end
  | Pass dt => mkWorld (clock w + Z.max 0 dt) (connections w) (gateways w) (flight w)
  | Sweep s =>
      match jm_get s (gateways w) with
      | Some g => let '(g, xs) := dropDisconnectedClients dropTimeoutMs (clock w) s g in send s (xs ≫= broadcastClientGossip s g) (put s g w)
      | None => w
      end
  | Refresh s => match jm_get s (gateways w) with Some g => send s (republishClientDirectory s (otherActiveSilos s g) g) w | None => w end
  | UpdateView s snapshot =>
      match jm_get s (gateways w) with Some g => let '(g, l) := update_clients s snapshot g in send s l (put s g w) | None => w end
  | Deliver from to =>
      match take_first from to (flight w), jm_get to (gateways w) with
      | Some (x, l), Some g => put to (with_directory (apply_gossip x (directory g)) g) (mkWorld (clock w) (connections w) (gateways w) l)
      | _, _ => w
      end
  | Lose from to => match take_first from to (flight w) with Some (_, l) => mkWorld (clock w) (connections w) (gateways w) l | None => w end
  | CallClient s call c => match jm_get s (gateways w) with Some g => put s (deliverToProxy call c g).1 w | None => w end
  | Answer s call => match jm_get s (gateways w) with Some g => put s (with_outstanding (filter (λ x, x.1 ≠ call) (outstanding g)) g) w | None => w end
  end.
Definition gateway_world_run (w : World) (ops : list Op) : World := foldl (λ w o, gateway_world_step o w) w ops.
(** Silos that start in one view. *)
Definition new_world (view : list SiloAddress) : World := mkWorld 0 [] ((λ s, (s, new_gateway view)) <$> view) [].
End world.

(** ** Entries of the directory *)

Definition listed (d : ClientDirectory) (k r : string) : option SiloAddress := gs ← jm_get k d; jm_get r gs.

Lemma listed_register c g d k r : listed (register c g d) k r = if decide (client_key c = k ∧ ringKey g = r) then Some g else listed d k r.
Proof.
  unfold listed, register. rewrite jm_get_set. case_decide as Hk; [subst k|by rewrite decide_False by naive_solver]. simpl. rewrite jm_get_set.
  case_decide as Hr; [by rewrite decide_True|rewrite decide_False by naive_solver]. by destruct (jm_get (client_key c) d).
Qed.

Lemma listed_unregister c g d k r : listed (unregister c g d) k r = if decide (client_key c = k ∧ ringKey g = r) then None else listed d k r.
Proof.
  unfold listed, unregister. destruct (jm_get (client_key c) d) as [gs|] eqn:Hg; [|destruct (decide (client_key c = k ∧ ringKey g = r)) as [[<- _]|]; [by rewrite Hg|done]].
  assert (Hd : jm_get r (jm_delete (ringKey g) gs) = if decide (ringKey g = r) then None else jm_get r gs) by apply jm_get_delete.
  destruct (decide (client_key c = k)) as [<-|Hk].
  - rewrite Hg. simpl. assert (E : (if decide (client_key c = client_key c ∧ ringKey g = r) then None else jm_get r gs) = jm_get r (jm_delete (ringKey g) gs)).
    { rewrite Hd. destruct (decide (ringKey g = r)); [by rewrite decide_True|by rewrite decide_False by naive_solver]. }
    rewrite E. case_bool_decide as He; [by rewrite jm_get_delete_eq, He|by rewrite jm_get_set_eq].
  - rewrite decide_False by naive_solver. case_bool_decide; [by rewrite jm_get_delete_ne|by rewrite jm_get_set_ne].
Qed.

Lemma unregisterSilo_cons m k gs d : unregisterSilo m ((k, gs) :: d) =
  let gs' := jm_delete (ringKey m) gs in if bool_decide (gs' = []) then unregisterSilo m d else (k, gs') :: unregisterSilo m d.
Proof. unfold unregisterSilo. simpl. by case_bool_decide. Qed.
Lemma keys_unregisterSilo m d k : k ∈ jm_keys (unregisterSilo m d) → k ∈ jm_keys d.
Proof.
  unfold jm_keys, unregisterSilo. intros ([k' gs] & -> & He)%list_elem_of_fmap. apply list_elem_of_omap in He as ([k'' gs'] & Hin & He). simpl in He. case_bool_decide; [done|].
  injection He as <- _. apply list_elem_of_fmap. by exists (k'', gs').
Qed.
Lemma ok_unregisterSilo m d : jm_ok d → jm_ok (unregisterSilo m d).
Proof.
  induction d as [|[k gs] d IH]; [done|]. unfold jm_ok. intros [Hk Hd]%NoDup_cons. rewrite unregisterSilo_cons. simpl. case_bool_decide; [by apply IH|].
  apply NoDup_cons. split; [|by apply IH]. intros Hin. apply Hk. by apply (keys_unregisterSilo m d).
Qed.

Lemma listed_unregisterSilo m d k r : jm_ok d → ringKey m ≠ r → listed (unregisterSilo m d) k r = listed d k r.
Proof.
  intros Hok Hr. unfold listed. induction d as [|[k' gs] d IH]; [done|]. apply NoDup_cons in Hok as [Hk' Hok]. rewrite unregisterSilo_cons. simpl. case_bool_decide as He.
  - rewrite IH by done. case_decide; [subst k'|done]. simpl.
    assert (H : jm_get r (jm_delete (ringKey m) gs) = None) by by rewrite He. rewrite jm_get_delete_ne in H by done. rewrite H.
    apply jm_get_None in Hk'. simpl in Hk'. by rewrite Hk'.
  - simpl. case_decide; [simpl; by rewrite jm_get_delete_ne|by apply IH].
Qed.

(** Entries under their gateways' ring keys. *)
Record dir_ok (d : ClientDirectory) : Prop := {
  di_keys : jm_ok d;
  di_rings : ∀ k gs r g, jm_get k d = Some gs → (r, g) ∈ gs → ringKey g = r;
  di_some : ∀ k, jm_get k d ≠ Some [] }.

Lemma jm_set_elem {K V} `{EqDecision K} (k : K) (v : V) m e : e ∈ jm_set k v m → e = (k, v) ∨ e ∈ m.
Proof.
  induction m as [|[k' v'] m IH]; simpl; [intros ?%list_elem_of_singleton; by left|]. case_decide; intros [->|He]%elem_of_cons.
  - subst. by left.
  - right. by right.
  - right. left.
  - destruct (IH He); [by left|right; by right].
Qed.
Lemma jm_set_not_nil {K V} `{EqDecision K} (k : K) (v : V) m : jm_set k v m ≠ [].
Proof. destruct m as [|[]]; simpl; [done|by case_decide]. Qed.

Lemma dir_register c g d : dir_ok d → dir_ok (register c g d).
Proof.
  intros [H1 H2 H3]. unfold register. split; [by apply jm_ok_set| |].
  - intros k gs r g'. rewrite jm_get_set. case_decide as Hk; [|by apply H2]. intros [= <-] [[= -> ->]|Hin]%jm_set_elem; [done|].
    destruct (jm_get (client_key c) d) as [gs|] eqn:Hg; [by apply (H2 _ _ _ _ Hg)|by apply elem_of_nil in Hin].
  - intros k. rewrite jm_get_set. case_decide; [|by apply H3]. intros [= E]. by apply jm_set_not_nil in E.
Qed.
Lemma dir_unregister c g d : dir_ok d → dir_ok (unregister c g d).
Proof.
  intros [H1 H2 H3]. unfold unregister. destruct (jm_get (client_key c) d) as [gs|] eqn:Hg; [|done]. case_bool_decide as He.
  - split; [by apply jm_ok_delete| |].
    + intros k gs' r g'. rewrite jm_get_delete. case_decide; [done|apply H2].
    + intros k. rewrite jm_get_delete. case_decide; [done|apply H3].
  - split; [by apply jm_ok_set| |].
    + intros k gs' r g'. rewrite jm_get_set. case_decide; [|apply H2]. intros [= <-] Hin. apply list_elem_of_filter in Hin as [_ Hin]. by apply (H2 _ _ _ _ Hg).
    + intros k. rewrite jm_get_set. case_decide; [by intros [= ?]|apply H3].
Qed.
Lemma dir_gossip x d : dir_ok d → dir_ok (apply_gossip x d).
Proof. destruct x; [apply dir_register|apply dir_unregister]. Qed.
Lemma dir_unregisterSilo m d : dir_ok d → dir_ok (unregisterSilo m d).
Proof.
  intros [H1 H2 H3]. assert (Hget : ∀ k gs, jm_get k (unregisterSilo m d) = Some gs → ∃ gs', jm_get k d = Some gs' ∧ gs = jm_delete (ringKey m) gs' ∧ gs ≠ []).
  { intros k gs Hk. apply jm_get_Some_elem in Hk. unfold unregisterSilo in Hk. apply list_elem_of_omap in Hk as ([k' gs'] & Hin & He). simpl in He.
    case_bool_decide; [done|]. injection He as -> <-. exists gs'. split; [by apply jm_elem_get|done]. }
  split; [by apply ok_unregisterSilo| |].
  - intros k gs r g Hk Hin. destruct (Hget k gs Hk) as (gs' & Hk' & -> & _). apply list_elem_of_filter in Hin as [_ Hin]. by apply (H2 _ _ _ _ Hk').
  - intros k Hk. by destruct (Hget k [] Hk) as (? & _ & _ & ?).
Qed.

(** What is looked up is an entry; the preferred one, if it is there. *)
Lemma lookup_client_spec c p d : dir_ok d → match lookup_client c (Some p) d with
  | Some s => listed d (client_key c) (ringKey s) = Some s ∧ (is_Some (listed d (client_key c) (ringKey p)) → listed d (client_key c) (ringKey p) = Some s)
  | None => ∀ r, listed d (client_key c) r = None
  end.
Proof.
  intros [H1 H2 H3]. unfold lookup_client, listed. destruct (jm_get (client_key c) d) as [gs|] eqn:Hg; [|done]. simpl.
  destruct (jm_get (ringKey p) gs) as [s|] eqn:Hp.
  - pose proof (H2 _ _ _ _ Hg (jm_get_Some_elem _ _ _ Hp)) as E. rewrite E. by split.
  - destruct gs as [|[r s] gs]; [by destruct (H3 (client_key c))|]. simpl in *. assert (E : ringKey s = r) by (apply (H2 _ _ r s Hg); left). rewrite E, decide_True by done.
    split; [done|]. intros [? ?]. congruence.
Qed.

(** ** What a gateway holds *)

Definition hosts (s : SiloAddress) (g : Gateway) (k : string) : option SiloAddress := if jm_get k (localClientIds g) then Some s else None.

Record local_ok (s : SiloAddress) (conns : list Connection) (now : Z) (g : Gateway) : Prop := {
  lo_dir : dir_ok (directory g);
  lo_own : ∀ k, listed (directory g) k (ringKey s) = hosts s g k;
  lo_held : ∀ k i, jm_get k (clientConnections g) = Some i → ∃ c e, conns !! i = Some (mkConnection s c e true) ∧ client_key c = k ∧ jm_get k (localClientIds g) ≠ None;
  lo_ids : ∀ k c, jm_get k (localClientIds g) = Some c → client_key c = k ∧ (jm_get k (clientConnections g) ≠ None ∨ jm_get k (clientDisconnectedSince g) ≠ None);
  lo_since : ∀ k t, jm_get k (clientDisconnectedSince g) = Some t → t <= now ∧ jm_get k (clientConnections g) = None;
  lo_since_ok : jm_ok (clientDisconnectedSince g);
  lo_calls : ∀ call i, (call, i) ∈ outstanding g → ∃ c e, conns !! i = Some (mkConnection s c e true);
  lo_ids_ok : jm_ok (localClientIds g) }.

Lemma accept_ok s conns now g c e : local_ok s conns now g → local_ok s (conns ++ [mkConnection s c e true]) now (onClientAccept s c e (length conns) g).
Proof.
  intros [H1 H2 H3 H4 H5 H6 H7 H8]. unfold onClientAccept. split; simpl.
  - by apply dir_register.
  - intros k. rewrite listed_register, H2. unfold hosts. simpl. rewrite jm_get_set. destruct (decide (client_key c = k)) as [E|E]; [by rewrite decide_True|by rewrite decide_False by naive_solver].
  - intros k i. rewrite !jm_get_set. case_decide as E.
    + intros [= <-]. exists c, e. split; [by rewrite lookup_app_r, Nat.sub_diag by lia|]. by split.
    + intros Hi. destruct (H3 k i Hi) as (c' & e' & Hc & ?). exists c', e'. split; [by apply lookup_app_l_Some|done].
  - intros k c'. rewrite !jm_get_set, jm_get_delete. case_decide as E; [intros [= <-]; split; [done|by left]|]. apply H4.
  - intros k t. rewrite jm_get_set, jm_get_delete. case_decide; [done|apply H5].
  - by apply jm_ok_delete.
  - intros call i Hin. destruct (H7 call i Hin) as (c' & e' & Hc). exists c', e'. by apply lookup_app_l_Some.
  - by apply jm_ok_set.
Qed.

(** Connections of other gateways do not matter to one. *)
Lemma local_conns s conns conns' now now' g : local_ok s conns now g → now <= now' →
  (∀ i c e, conns !! i = Some (mkConnection s c e true) → conns' !! i = Some (mkConnection s c e true)) → local_ok s conns' now' g.
Proof.
  intros [H1 H2 H3 H4 H5 H6 H7 H8] Hn Hc. split; try done.
  - intros k i Hi. destruct (H3 k i Hi) as (c & e & Hi' & ?). exists c, e. split; [by apply Hc|done].
  - intros k t Ht. destruct (H5 k t Ht). split; [lia|done].
  - intros call i Hin. destruct (H7 call i Hin) as (c & e & Hi'). exists c, e. by apply Hc.
Qed.

Lemma closed_ok s conns now g c e i : local_ok s conns now g → conns !! i = Some (mkConnection s c e true) →
  local_ok s (<[i := mkConnection s c e false]> conns) now (recordClosedClientConnection now c e i g).
Proof.
  intros [H1 H2 H3 H4 H5 H6 H7 H8] Hi. unfold recordClosedClientConnection.
  assert (Hconn : ∀ j c' e', j ≠ i → conns !! j = Some (mkConnection s c' e' true) → <[i := mkConnection s c e false]> conns !! j = Some (mkConnection s c' e' true)).
  { intros j c' e' Hne Hj. by rewrite list_lookup_insert_ne. }
  assert (Hout : ∀ call j, (call, j) ∈ filter (λ x : nat * nat, x.2 ≠ i) (outstanding g) → ∃ c' e', <[i := mkConnection s c e false]> conns !! j = Some (mkConnection s c' e' true)).
  { intros call j [Hne Hin]%list_elem_of_filter. destruct (H7 call j Hin) as (c' & e' & Hj). exists c', e'. by apply Hconn. }
  assert (Hkey : ∀ k j, jm_get k (clientConnections g) = Some j → j = i → k = client_key c).
  { intros k j Hj ->. destruct (H3 k i Hj) as (c' & e' & Hi' & E & _). rewrite Hi in Hi'. by injection Hi' as -> ->. }
  simpl. case_bool_decide as Hcur; split; simpl; try done.
  - intros k j. rewrite jm_get_delete. case_decide as E; [done|]. intros Hj. destruct (H3 k j Hj) as (c' & e' & Hj' & ?). exists c', e'. split; [|done].
    apply Hconn; [|done]. intros ->. by apply E, eq_sym, (Hkey k i).
  - intros k c' Hc'. destruct (H4 k c' Hc') as [E Ho]. split; [done|]. rewrite jm_get_delete, jm_get_set. case_decide; [by right|done].
  - intros k t. rewrite jm_get_set, jm_get_delete. case_decide; [intros [= <-]; by split|apply H5].
  - by apply jm_ok_set.
  - intros k j Hj. destruct (H3 k j Hj) as (c' & e' & Hj' & ?). exists c', e'. split; [|done]. apply Hconn; [|done]. intros ->.
    apply Hcur. by rewrite <- (Hkey k i Hj eq_refl).
Qed.

(** *** Gossip *)

Definition gossip_gateway (x : Gossip) : SiloAddress := match x with GRegister _ g | GUnregister _ g => g end.
(** What gossip of a gateway does to a client's entry for it. *)
Definition effect (k : string) (o : option SiloAddress) (x : Gossip) : option SiloAddress :=
  match x with
  | GRegister c g => if decide (client_key c = k) then Some g else o
  | GUnregister c _ => if decide (client_key c = k) then None else o
  end.

Lemma listed_gossip x d k : listed (apply_gossip x d) k (ringKey (gossip_gateway x)) = effect k (listed d k (ringKey (gossip_gateway x))) x.
Proof.
  destruct x as [c g|c g]; simpl; rewrite ?listed_register, ?listed_unregister; (destruct (decide (client_key c = k)); [by rewrite decide_True|by rewrite decide_False by naive_solver]).
Qed.
Lemma listed_gossip_other x d k r : ringKey (gossip_gateway x) ≠ r → listed (apply_gossip x d) k r = listed d k r.
Proof. intros Hr. destruct x as [c g|c g]; simpl in *; rewrite ?listed_register, ?listed_unregister; by rewrite decide_False by naive_solver. Qed.

Lemma local_directory s conns now g d : local_ok s conns now g → dir_ok d → (∀ k, listed d k (ringKey s) = listed (directory g) k (ringKey s)) →
  local_ok s conns now (with_directory d g).
Proof. intros [H1 H2 H3 H4 H5 H6 H7 H8] Hd Hl. split; try done. intros k. simpl. by rewrite Hl, H2. Qed.

Lemma local_calls s conns now g l : local_ok s conns now g → (∀ call i, (call, i) ∈ l → (call, i) ∈ outstanding g ∨ ∃ k, jm_get k (clientConnections g) = Some i) →
  local_ok s conns now (with_outstanding l g).
Proof.
  intros [H1 H2 H3 H4 H5 H6 H7 H8] Hl. split; try done. intros call i Hin. destruct (Hl call i Hin) as [Ho|(k & Hk)]; [by eapply H7|].
  destruct (H3 k i Hk) as (c & e & Hi & _). by exists c, e.
Qed.

(** *** The sweep *)

Definition swept (T now : Z) (s : SiloAddress) (conns : list Connection) (g : Gateway) (xs : list Gossip) (r : Gateway * list Gossip) : Prop :=
  local_ok s conns now r.1 ∧ active r.1 = active g ∧ ring r.1 = ring g ∧
  (∀ k, hosts s r.1 k = foldl (effect k) (hosts s g k) (drop (length xs) r.2)) ∧ xs `prefix_of` r.2 ∧ Forall (λ x, gossip_gateway x = s) (drop (length xs) r.2) ∧
  (∀ k, hosts s g k ≠ None → hosts s r.1 k = None → ∃ t, jm_get k (clientDisconnectedSince g) = Some t ∧ T <= now - t) ∧
  (∀ k t, jm_get k (clientDisconnectedSince r.1) = Some t → jm_get k (clientDisconnectedSince g) = Some t) ∧
  (∀ k r', ringKey s ≠ r' → listed (directory r.1) k r' = listed (directory g) k r').

Lemma drop_client_spec T now s conns g xs e : local_ok s conns now g → jm_get e.1 (clientDisconnectedSince g) = Some e.2 →
  swept T now s conns g xs (drop_client T now s (g, xs) e) ∧
  ∀ k, k ≠ e.1 → jm_get k (clientDisconnectedSince (drop_client T now s (g, xs) e).1) = jm_get k (clientDisconnectedSince g).
Proof.
  intros Hok He. pose proof Hok as [H1 H2 H3 H4 H5 H6 H7 H8]. unfold drop_client.
  assert (Hsame : ∀ g', local_ok s conns now g' → active g' = active g → ring g' = ring g → (∀ k, hosts s g' k = hosts s g k) →
    (∀ k t, jm_get k (clientDisconnectedSince g') = Some t → jm_get k (clientDisconnectedSince g) = Some t) → directory g' = directory g → swept T now s conns g xs (g', xs)).
  { intros g' Hg' E1 E2 Eh Es Ed. unfold swept. simpl. rewrite drop_all. split_and!; try done. 2: by rewrite Ed. intros k Hk Hn. rewrite Eh in Hn. congruence. }
  case_bool_decide as Hlt; [split; [by apply Hsame|done]|]. destruct (H5 e.1 e.2 He) as [_ Hno].
  unfold jm_has. simpl. rewrite Hno, bool_decide_false by (by intros [? ?]).
  assert (Hdel : ∀ k, k ≠ e.1 → jm_get k (jm_delete e.1 (clientDisconnectedSince g)) = jm_get k (clientDisconnectedSince g)) by (intros k Hk; by rewrite jm_get_delete_ne).
  assert (Hsub : ∀ k t, jm_get k (jm_delete e.1 (clientDisconnectedSince g)) = Some t → jm_get k (clientDisconnectedSince g) = Some t) by (intros k t; rewrite jm_get_delete; by case_decide).
  assert (Hids : ∀ k c, jm_get k (jm_delete e.1 (localClientIds g)) = Some c → jm_get k (localClientIds g) = Some c ∧ k ≠ e.1).
  { intros k c. rewrite jm_get_delete. case_decide; [done|]. intros Hk. by split. }
  destruct (jm_get e.1 (localClientIds g)) as [c|] eqn:Hc.
  - destruct (H4 e.1 c Hc) as [Ec _]. split; [|done]. unfold swept. cbn [fst snd].
    assert (Hh : ∀ k, hosts s (with_directory (unregister c s (directory g)) (mkGateway (directory g) (clientConnections g) (clientConnectionsByEndpoint g) (jm_delete e.1 (clientDisconnectedSince g)) (jm_delete e.1 (localClientIds g)) (outstanding g) (active g) (ring g))) k = if decide (e.1 = k) then None else hosts s g k).
    { intros k. unfold hosts. simpl. rewrite jm_get_delete. by case_decide. }
    split; [|split; [done|]].
    + split; simpl; try done.
      * by apply dir_unregister.
      * intros k. rewrite listed_unregister. fold (hosts s g k). specialize (Hh k). unfold hosts at 1 in Hh. simpl in Hh. unfold hosts. simpl. rewrite Hh, H2.
        destruct (decide (e.1 = k)) as [E|E]; [rewrite decide_True by (split; [congruence|done])|rewrite decide_False by (intros [? _]; congruence)]; done.
      * intros k i Hi. destruct (H3 k i Hi) as (c' & e' & Hi' & Ek & Hn). exists c', e'. split; [done|]. split; [done|]. rewrite jm_get_delete, decide_False; [done|]. intros <-. congruence.
      * intros k c' Hk. destruct (Hids k c' Hk) as [Hk' Hne]. destruct (H4 k c' Hk') as [Ek Ho]. split; [done|]. by rewrite Hdel.
      * intros k t Ht. apply (H5 k t). by apply Hsub.
      * by apply jm_ok_delete.
      * by apply jm_ok_delete.
    + split; [done|]. rewrite drop_app_length. split; [intros k; rewrite Hh; simpl; by rewrite Ec|]. split; [by apply prefix_app_r|]. split; [by constructor|]. split; [|split; [done|]].
      * intros k Hk. rewrite Hh. case_decide as E; [|done]. intros _. subst k. exists e.2. split; [done|lia].
      * intros k r' Hr. simpl. rewrite listed_unregister. by rewrite decide_False by naive_solver.
  - split; [|done]. apply Hsame; try done.
    + split; simpl; try done.
      * intros k. rewrite H2. unfold hosts. simpl. rewrite jm_get_delete. case_decide as E; [subst k; by rewrite Hc|done].
      * intros k i Hi. destruct (H3 k i Hi) as (c' & e' & Hi' & Ek & Hn). exists c', e'. split; [done|]. split; [done|]. rewrite jm_get_delete, decide_False; [done|]. intros <-. congruence.
      * intros k c' Hk. destruct (Hids k c' Hk) as [Hk' Hne]. destruct (H4 k c' Hk') as [Ek Ho]. split; [done|]. by rewrite Hdel.
      * intros k t Ht. apply (H5 k t). by apply Hsub.
      * by apply jm_ok_delete.
      * by apply jm_ok_delete.
    + intros k. unfold hosts. simpl. rewrite jm_get_delete. case_decide as E; [subst k; by rewrite Hc|done].
Qed.

Lemma sweep_fold T now s conns l : ∀ g xs, local_ok s conns now g → NoDup l.*1 → (∀ e, e ∈ l → jm_get e.1 (clientDisconnectedSince g) = Some e.2) →
  swept T now s conns g xs (foldl (drop_client T now s) (g, xs) l).
Proof.
  induction l as [|e l IH]; intros g xs Hok Hnd Hin.
  - unfold swept. simpl. rewrite drop_all. split_and!; done.
  - cbn [foldl]. destruct (drop_client_spec T now s conns g xs e Hok) as [Hs Hk]; [apply Hin; left|]. destruct (drop_client T now s (g, xs) e) as [g1 xs1]. destruct Hs as (A1 & A2 & A3 & A4 & [ys A5] & A6 & A7 & A8 & A9).
    simpl in *. apply NoDup_cons in Hnd as [Hne Hnd]. destruct (IH g1 xs1 A1 Hnd) as (B1 & B2 & B3 & B4 & [zs B5] & B6 & B7 & B8 & B9).
    { intros e' He'. rewrite Hk; [apply Hin; by right|]. intros E. apply Hne. rewrite <- E. by apply list_elem_of_fmap_2. }
    subst xs1. rewrite B5 in B4, B6. rewrite drop_app_length in A4, A6. rewrite drop_app_length in B4, B6.
    unfold swept. rewrite B5, <- app_assoc, drop_app_length. split_and!; try congruence.
    + intros k. by rewrite B4, A4, foldl_app.
    + by apply prefix_app_r.
    + by apply Forall_app.
    + intros k Hh Hn. destruct (hosts s g1 k) eqn:E; [|by apply A7]. destruct (B7 k) as (t & Ht & Hle); [congruence|done|]. exists t. split; [by apply A8|done].
    + auto.
    + intros k r' Hr. by rewrite B9, A9.
Qed.

Lemma sweep_spec T now s conns g : local_ok s conns now g → swept T now s conns g [] (dropDisconnectedClients T now s g).
Proof.
  intros Hok. apply sweep_fold; [done|apply (lo_since_ok _ _ _ _ Hok)|]. intros [k t] Hin. simpl. apply jm_elem_get; [apply (lo_since_ok _ _ _ _ Hok)|done].
Qed.

(** *** The view *)

Lemma dir_unregister_silos (present : list string) l : ∀ d, dir_ok d →
  dir_ok (foldl (λ d m, if bool_decide (ringKey m ∈ present) then d else unregisterSilo m d) d l) ∧
  ∀ k r, r ∈ present → listed (foldl (λ d m, if bool_decide (ringKey m ∈ present) then d else unregisterSilo m d) d l) k r = listed d k r.
Proof.
  induction l as [|m l IH]; intros d Hd; [done|]. simpl. case_bool_decide as Hm; [by apply IH|]. destruct (IH (unregisterSilo m d)) as [H1 H2]; [by apply dir_unregisterSilo|].
  split; [done|]. intros k r Hr. rewrite H2 by done. apply listed_unregisterSilo; [apply Hd|]. intros E. by rewrite E in Hm.
Qed.

Lemma update_ok s conns now snapshot g : local_ok s conns now g → ringKey s ∈ ringKey <$> memberSilos snapshot → local_ok s conns now (update_clients s snapshot g).1.
Proof.
  intros [H1 H2 H3 H4 H5 H6 H7 H8] Hs. destruct (dir_unregister_silos (ringKey <$> memberSilos snapshot) (ring g) (directory g) H1) as [A B].
  split; simpl; try done. intros k. by rewrite B, H2.
Qed.

Lemma call_ok s conns now g call c : local_ok s conns now g → local_ok s conns now (deliverToProxy call c g).1.
Proof.
  intros Hok. unfold deliverToProxy. destruct (jm_get (client_key c) (clientConnections g)) as [conn|] eqn:Hc; [|done]. apply local_calls; [done|].
  intros call' i [Hi|Hi]%elem_of_app; [by left|]. apply list_elem_of_singleton in Hi. injection Hi as -> ->. right. by exists (client_key c).
Qed.

(** ** The steps of a gateway *)

(** Messages to every one of some peers. *)
Definition to_all (peers : list SiloAddress) (xs : list Gossip) : list (SiloAddress * Gossip) := xs ≫= λ x, (λ p, (p, x)) <$> peers.

Lemma to_all_cons peers x xs : to_all peers (x :: xs) = ((λ p, (p, x)) <$> peers) ++ to_all peers xs.
Proof. done. Qed.
Lemma republish_to_all s peers g : republishClientDirectory s peers g = to_all peers ((λ c, GRegister c s) <$> (localClientIds g).*2).
Proof.
  unfold republishClientDirectory. induction (localClientIds g).*2 as [|c l IH]; [done|]. rewrite fmap_cons, to_all_cons, <- IH, bind_cons.
  assert (E : (peers ≫= λ p, [(p, GRegister c s)]) = (λ p, (p, GRegister c s)) <$> peers); [|by rewrite E].
  clear. induction peers as [|p peers IH]; [done|]. by rewrite bind_cons, fmap_cons, IH.
Qed.
Lemma broadcast_to_all s g xs : xs ≫= broadcastClientGossip s g = to_all (otherActiveSilos s g) xs.
Proof. done. Qed.

Lemma to_all_sent s peers xs : s ∉ peers → Forall (λ x, gossip_gateway x = s) xs → Forall (λ m, gossip_gateway m.2 = s ∧ m.1 ≠ s) (to_all peers xs).
Proof.
  intros Hs Hx. apply Forall_forall. intros m Hm. apply list_elem_of_bind in Hm as (x & Hm & Hin). apply list_elem_of_fmap in Hm as (p & -> & Hp). simpl.
  rewrite Forall_forall in Hx. split; [by apply Hx|]. by intros ->.
Qed.
Lemma not_other s g : s ∉ otherActiveSilos s g.
Proof. intros [? _]%list_elem_of_filter. done. Qed.

(** Registering again whom one hosts changes nothing. *)
Lemma register_again s g k l : (∀ c, c ∈ l → client_key c = k → hosts s g k = Some s) → foldl (effect k) (hosts s g k) ((λ c, GRegister c s) <$> l) = hosts s g k.
Proof.
  induction l as [|c l IH]; intros H; [done|]. simpl. case_decide as E.
  - rewrite <- (H c) by (done || left). apply IH. intros c' Hc'. apply H. by right.
  - apply IH. intros c' Hc'. apply H. by right.
Qed.
Lemma refresh_effect s conns now g k : local_ok s conns now g → foldl (effect k) (hosts s g k) ((λ c, GRegister c s) <$> (localClientIds g).*2) = hosts s g k.
Proof.
  intros Hok. apply register_again. intros c ([k' c'] & -> & Hin)%list_elem_of_fmap E. simpl in E. apply jm_elem_get in Hin; [|apply Hok].
  destruct (lo_ids _ _ _ _ Hok _ _ Hin) as [E' _]. unfold hosts. by rewrite <- E, E', Hin.
Qed.

(** ** The gateways together *)

Record world_ok (w : World) : Prop := {
  wo_local : ∀ s g, jm_get s (gateways w) = Some g → local_ok s (connections w) (clock w) g;
  wo_flight : ∀ from to x, (from, to, x) ∈ flight w → gossip_gateway x = from ∧ from ≠ to ∧ is_Some (jm_get from (gateways w)) }.

Definition op_ok (o : Op) : Prop := match o with UpdateView s snapshot => ringKey s ∈ ringKey <$> memberSilos snapshot | _ => True end.
(** In a view that stays, with gossip that arrives. *)
Definition op_steady (o : Op) : bool := match o with UpdateView _ _ | Lose _ _ => false | _ => true end.

(** A step of one gateway: it becomes [g'] and sends [l]. *)
Record gateway_step (T : Z) (w w' : World) (steady : bool) (s : SiloAddress) (g g' : Gateway) (l : list (SiloAddress * Gossip)) : Prop := {
  gs_from : jm_get s (gateways w) = Some g;
  gs_to : ∀ s', jm_get s' (gateways w') = if decide (s = s') then Some g' else jm_get s' (gateways w);
  gs_sent : flight w' = flight w ++ ((λ x, (s, x.1, x.2)) <$> l);
  gs_local : local_ok s (connections w') (clock w') g';
  gs_clock : clock w <= clock w';
  gs_conns : ∀ s' i c e, s' ≠ s → connections w !! i = Some (mkConnection s' c e true) → connections w' !! i = Some (mkConnection s' c e true);
  gs_gossip : Forall (λ m, gossip_gateway m.2 = s ∧ m.1 ≠ s) l;
  gs_lost : ∀ k, hosts s g k ≠ None → hosts s g' k = None → ∃ t, jm_get k (clientDisconnectedSince g) = Some t ∧ T <= clock w - t;
  gs_steady : steady = true → active g' = active g ∧ (∀ k r, ringKey s ≠ r → listed (directory g') k r = listed (directory g) k r) ∧
    ∃ xs, l = to_all (otherActiveSilos s g) xs ∧ ∀ k, hosts s g' k = foldl (effect k) (hosts s g k) xs }.

(** A step that changes neither whom a gateway hosts nor its directory, and says nothing. *)
Lemma quiet_gateway_step T w w' steady s g g' : jm_get s (gateways w) = Some g → gateways w' = jm_set s g' (gateways w) → flight w' = flight w → local_ok s (connections w') (clock w') g' →
  clock w <= clock w' → (∀ s' i c e, s' ≠ s → connections w !! i = Some (mkConnection s' c e true) → connections w' !! i = Some (mkConnection s' c e true)) →
  localClientIds g' = localClientIds g → directory g' = directory g → active g' = active g → gateway_step T w w' steady s g g' [].
Proof.
  intros H1 H2 H3 H4 H5 H6 Ei Ed Ea. assert (Eh : ∀ k, hosts s g' k = hosts s g k) by (intros k; unfold hosts; by rewrite Ei).
  split; try done.
  - intros s'. by rewrite H2, jm_get_set.
  - by rewrite H3, app_nil_r.
  - intros k Hk Hn. rewrite Eh in Hn. congruence.
  - intros _. split; [done|]. split; [by rewrite Ed|]. exists []. split; [done|]. intros k. by rewrite Eh.
Qed.

Lemma connect_step T w s c e g steady : world_ok w → jm_get s (gateways w) = Some g →
  gateway_step T w (gateway_world_step T (Connect s c e) w) steady s g (onClientAccept s c e (length (connections w)) g) (to_all (otherActiveSilos s g) [GRegister c s]).
Proof.
  intros Hw Hg. cbn [gateway_world_step]. rewrite Hg. split; try done.
  - intros s'. apply jm_get_set.
  - simpl. unfold to_all. simpl. by rewrite app_nil_r.
  - by apply accept_ok, (wo_local _ Hw).
  - intros s' i c' e' _ Hi. by apply lookup_app_l_Some.
  - apply to_all_sent; [apply not_other|by constructor].
  - intros k Hk. unfold hosts in *. simpl. rewrite jm_get_set. by case_decide.
  - intros _. split; [done|]. split.
    + intros k r Hr. simpl. rewrite listed_register. by rewrite decide_False by naive_solver.
    + exists [GRegister c s]. split; [done|]. intros k. unfold hosts. simpl. rewrite jm_get_set. by case_decide.
Qed.

Lemma sweep_step T w s g steady : world_ok w → jm_get s (gateways w) = Some g →
  gateway_step T w (gateway_world_step T (Sweep s) w) steady s g (dropDisconnectedClients T (clock w) s g).1 (to_all (otherActiveSilos s g) (dropDisconnectedClients T (clock w) s g).2).
Proof.
  intros Hw Hg. destruct (sweep_spec T (clock w) s (connections w) g) as (A1 & A2 & A3 & A4 & _ & A6 & A7 & _ & A9); [by apply (wo_local _ Hw)|].
  cbn [gateway_world_step]. rewrite Hg. destruct (dropDisconnectedClients T (clock w) s g) as [g' xs]. cbn [fst snd length drop] in *. rewrite broadcast_to_all.
  assert (E : otherActiveSilos s g' = otherActiveSilos s g) by (unfold otherActiveSilos; by rewrite A2).
  split; try done.
  - intros s'. apply jm_get_set.
  - simpl. by rewrite E.
  - apply to_all_sent; [apply not_other|done].
  - intros _. split; [done|]. split; [done|]. by exists xs.
Qed.

Lemma refresh_step T w s g steady : world_ok w → jm_get s (gateways w) = Some g →
  gateway_step T w (gateway_world_step T (Refresh s) w) steady s g g (to_all (otherActiveSilos s g) ((λ c, GRegister c s) <$> (localClientIds g).*2)).
Proof.
  intros Hw Hg. cbn [gateway_world_step]. rewrite Hg, republish_to_all. split; try done.
  - intros s'. simpl. case_decide; congruence.
  - by apply (wo_local _ Hw).
  - apply to_all_sent; [apply not_other|]. apply Forall_fmap, Forall_forall. by intros c _.
  - intros _. split; [done|]. split; [done|]. eexists. split; [done|]. intros k. symmetry. by apply (refresh_effect s (connections w) (clock w)), (wo_local _ Hw).
Qed.

Lemma update_step T w s snapshot g : world_ok w → jm_get s (gateways w) = Some g → ringKey s ∈ ringKey <$> memberSilos snapshot →
  gateway_step T w (gateway_world_step T (UpdateView s snapshot) w) false s g (update_clients s snapshot g).1 (update_clients s snapshot g).2.
Proof.
  intros Hw Hg Hs. pose proof (update_ok s (connections w) (clock w) snapshot g (wo_local _ Hw s g Hg) Hs) as Hok. cbn [gateway_world_step]. rewrite Hg.
  destruct (update_clients s snapshot g) as [g' l] eqn:E. unfold update_clients in E. injection E as <- <-. split; try done.
  - intros s'. apply jm_get_set.
  - cbn [snd]. rewrite republish_to_all. apply to_all_sent; [|by apply Forall_fmap, Forall_forall].
    intros [[_ Hne] _]%list_elem_of_filter. done.
Qed.

Lemma close_step T w s c e i g steady : world_ok w → jm_get s (gateways w) = Some g → connections w !! i = Some (mkConnection s c e true) →
  gateway_step T w (gateway_world_step T (Close i) w) steady s g (recordClosedClientConnection (clock w) c e i g) [].
Proof.
  intros Hw Hg Hi. cbn [gateway_world_step]. rewrite Hi, Hg. unfold recordClosedClientConnection.
  apply quiet_gateway_step; simpl; try done; try (by case_bool_decide).
  - by apply (closed_ok s (connections w) (clock w) g c e i), Hi; apply (wo_local _ Hw).
  - intros s' j c' e' Hne Hj. rewrite list_lookup_insert_ne; [done|]. intros ->. congruence.
Qed.

Lemma answer_step T w s call g steady : world_ok w → jm_get s (gateways w) = Some g →
  gateway_step T w (gateway_world_step T (Answer s call) w) steady s g (with_outstanding (filter (λ x, x.1 ≠ call) (outstanding g)) g) [].
Proof.
  intros Hw Hg. cbn [gateway_world_step]. rewrite Hg. apply quiet_gateway_step; try done. apply local_calls; [by apply (wo_local _ Hw)|]. intros call' i [_ Hin]%list_elem_of_filter. by left.
Qed.

Lemma call_step T w s call c g steady : world_ok w → jm_get s (gateways w) = Some g →
  gateway_step T w (gateway_world_step T (CallClient s call c) w) steady s g (deliverToProxy call c g).1 [].
Proof.
  intros Hw Hg. cbn [gateway_world_step]. rewrite Hg. apply quiet_gateway_step; try done; try (unfold deliverToProxy; by destruct (jm_get (client_key c) (clientConnections g))).
  by apply call_ok, (wo_local _ Hw).
Qed.

Definition is_gateway_op (o : Op) : bool := match o with Pass _ | Deliver _ _ | Lose _ _ => false | _ => true end.

(** A step is one of a gateway, or nothing happens. *)
Lemma gateway_steps T w o : world_ok w → op_ok o → is_gateway_op o = true → gateway_world_step T o w = w ∨ ∃ s g g' l, gateway_step T w (gateway_world_step T o w) (op_steady o) s g g' l.
Proof.
  intros Hw Ho Hg. destruct o as [s c e|i| |s|s|s snapshot| | |s call c|s call]; try done.
  2: { destruct (connections w !! i) as [[s c e [|]]|] eqn:Hi; [|by left; cbn [gateway_world_step]; rewrite Hi..].
    destruct (jm_get s (gateways w)) as [g|] eqn:Hs; [|left; cbn [gateway_world_step]; by rewrite Hi, Hs]. right. exists s, g, (recordClosedClientConnection (clock w) c e i g), []. by apply close_step. }
  all: destruct (jm_get s (gateways w)) as [g|] eqn:Hs; [right|left; cbn [gateway_world_step]; by rewrite Hs]; exists s, g; do 2 eexists;
    eauto using connect_step, sweep_step, refresh_step, update_step, call_step, answer_step.
Qed.

Lemma step_world_ok T w w' steady s g g' l : world_ok w → gateway_step T w w' steady s g g' l → world_ok w'.
Proof.
  intros Hw H. split.
  - intros s' g1. rewrite (gs_to _ _ _ _ _ _ _ _ H). case_decide as E; [subst s'; intros [= <-]; apply (gs_local _ _ _ _ _ _ _ _ H)|]. intros Hs'.
    apply (local_conns s' (connections w) _ (clock w)); [by apply (wo_local _ Hw)|apply (gs_clock _ _ _ _ _ _ _ _ H)|]. intros i c e. by apply (gs_conns _ _ _ _ _ _ _ _ H), not_eq_sym.
  - intros from to x. rewrite (gs_sent _ _ _ _ _ _ _ _ H). intros [Hin|Hin]%elem_of_app.
    + destruct (wo_flight _ Hw _ _ _ Hin) as (A & B & C). split_and!; try done. rewrite (gs_to _ _ _ _ _ _ _ _ H). by case_decide.
    + apply list_elem_of_fmap in Hin as ([to' x'] & [= -> -> ->] & Hin). pose proof (gs_gossip _ _ _ _ _ _ _ _ H) as Hx. rewrite Forall_forall in Hx.
      destruct (Hx _ Hin) as [A B]. simpl in *. split_and!; [done|by apply not_eq_sym|]. rewrite (gs_to _ _ _ _ _ _ _ _ H). by rewrite decide_True.
Qed.

(** *** Delivery *)

Lemma take_first_spec from to l : match take_first from to l with
  | Some (x, l') => ∃ a b, l = a ++ (from, to, x) :: b ∧ l' = a ++ b ∧ Forall (λ m, ¬ on_channel from to m) a
  | None => Forall (λ m, ¬ on_channel from to m) l
  end.
Proof.
  induction l as [|m l IH]; [constructor|]. simpl. destruct (decide (on_channel from to m)) as [E|E].
  - exists [], l. destruct m as [[] ?]. unfold on_channel in E. simpl in *. by injection E as -> ->.
  - destruct (take_first from to l) as [[x l']|]; simpl; [|by constructor]. destruct IH as (a & b & -> & -> & Ha). exists (m :: a), b. split_and!; [done..|by constructor].
Qed.

Lemma deliver_world_ok T w from to : world_ok w → (∀ s s', is_Some (jm_get s (gateways w)) → is_Some (jm_get s' (gateways w)) → ringKey s = ringKey s' → s = s') →
  world_ok (gateway_world_step T (Deliver from to) w).
Proof.
  intros Hw Hr. cbn [gateway_world_step]. pose proof (take_first_spec from to (flight w)) as Ht. destruct (take_first from to (flight w)) as [[x l]|]; [|done].
  destruct (jm_get to (gateways w)) as [g|] eqn:Hg; [|done]. destruct Ht as (a & b & E & -> & _).
  assert (Hin : ∀ m, m ∈ a ++ b → m ∈ flight w) by (intros m; rewrite E, !elem_of_app, elem_of_cons; naive_solver).
  destruct (wo_flight _ Hw from to x) as (A & B & C); [rewrite E; set_solver|]. split.
  - intros s' g1. simpl. rewrite jm_get_set. case_decide as Es; [subst s'; intros [= <-]|by apply (wo_local _ Hw)].
    apply local_directory; [by apply (wo_local _ Hw)|apply dir_gossip, (lo_dir _ _ _ _ (wo_local _ Hw _ _ Hg))|]. intros k. apply listed_gossip_other. rewrite A. intros Er. apply B, Hr; [done|by eexists|done].
  - intros f t y Hy. destruct (wo_flight _ Hw f t y) as (A' & B' & C'); [by apply Hin|]. split_and!; try done. simpl. rewrite jm_get_set. by case_decide.
Qed.
Lemma lose_world_ok T w from to : world_ok w → world_ok (gateway_world_step T (Lose from to) w).
Proof.
  intros Hw. cbn [gateway_world_step]. pose proof (take_first_spec from to (flight w)) as Ht. destruct (take_first from to (flight w)) as [[x l]|]; [|done].
  destruct Ht as (a & b & E & -> & _). split; [apply (wo_local _ Hw)|]. intros f t y Hy. apply (wo_flight _ Hw). rewrite E. set_solver.
Qed.
Lemma pass_world_ok T w dt : world_ok w → world_ok (gateway_world_step T (Pass dt) w).
Proof. intros Hw. split; [|apply (wo_flight _ Hw)]. intros s g Hg. apply (local_conns s (connections w) _ (clock w)); [by apply (wo_local _ Hw)|simpl; lia|done]. Qed.

(** The silos of a world are those it starts with. *)
Lemma gateway_world_gateways T o w s : is_Some (jm_get s (gateways (gateway_world_step T o w))) ↔ is_Some (jm_get s (gateways w)).
Proof.
  assert (Hput : ∀ s' g g' (m : list (SiloAddress * Gateway)), jm_get s' m = Some g → is_Some (jm_get s (jm_set s' g' m)) ↔ is_Some (jm_get s m)).
  { intros s' g g' m Hm. rewrite jm_get_set. case_decide; [subst; rewrite Hm; by split; eauto|done]. }
  destruct o; cbn [gateway_world_step]; repeat case_match; try done; simpl; by eapply Hput.
Qed.

Lemma gateway_world_step_ok T w o : world_ok w → op_ok o → (∀ s s', is_Some (jm_get s (gateways w)) → is_Some (jm_get s' (gateways w)) → ringKey s = ringKey s' → s = s') →
  world_ok (gateway_world_step T o w).
Proof.
  intros Hw Ho Hr. destruct (is_gateway_op o) eqn:Hg.
  - destruct (gateway_steps T w o Hw Ho Hg) as [->|(s & g & g' & l & H)]; [done|]. by eapply step_world_ok.
  - destruct o; try done; [by apply pass_world_ok|by apply deliver_world_ok|by apply lose_world_ok].
Qed.

Lemma NoDup_fmap_eq {A B} (f : A → B) (l : list A) x y : NoDup (f <$> l) → x ∈ l → y ∈ l → f x = f y → x = y.
Proof.
  induction l as [|z l IH]; [by intros _ ?%not_elem_of_nil|]. intros [Hz Hl]%NoDup_cons [->|Hx]%elem_of_cons [->|Hy]%elem_of_cons E; [done| | |by apply IH].
  - destruct Hz. rewrite E. by apply list_elem_of_fmap_2.
  - destruct Hz. rewrite <- E. by apply list_elem_of_fmap_2.
Qed.
Lemma new_world_gateways view s : is_Some (jm_get s (gateways (new_world view))) → s ∈ view.
Proof. intros [g Hg]. apply jm_get_Some_elem in Hg. simpl in Hg. apply list_elem_of_fmap in Hg as (s' & [= -> ->] & Hs). done. Qed.
Lemma new_world_ok view : world_ok (new_world view).
Proof.
  split; [|by intros ? ? ? ?%not_elem_of_nil]. intros s g Hg. apply jm_get_Some_elem in Hg. simpl in Hg. apply list_elem_of_fmap in Hg as (s' & [= -> ->] & Hs).
  split; simpl; try done; try apply jm_ok_nil; [|by intros ? ? ?%not_elem_of_nil]. split; [apply jm_ok_nil|done..].
Qed.
Lemma gateway_world_run_ok T view ops w : NoDup (ringKey <$> view) → Forall op_ok ops → (∀ s, is_Some (jm_get s (gateways w)) → s ∈ view) → world_ok w →
  world_ok (gateway_world_run T w ops) ∧ ∀ s, is_Some (jm_get s (gateways (gateway_world_run T w ops))) → s ∈ view.
Proof.
  intros Hn. revert w. induction ops as [|o ops IH]; intros w Ho Hv Hw; [done|]. apply Forall_cons in Ho as [Ho Hos]. apply IH; [done| |].
  - intros s Hs. apply Hv. by eapply gateway_world_gateways.
  - apply gateway_world_step_ok; [done..|]. intros s s' Hs Hs' E. apply (NoDup_fmap_eq ringKey view); auto.
Qed.

(** ** What the gateways know of each other's clients *)

Definition queue (from to : SiloAddress) (l : list (SiloAddress * SiloAddress * Gossip)) : list Gossip := (filter (on_channel from to) l).*2.

Lemma queue_app from to l l' : queue from to (l ++ l') = queue from to l ++ queue from to l'.
Proof. unfold queue. by rewrite filter_app, fmap_app. Qed.
Lemma queue_cons from to m l : queue from to (m :: l) = if decide (m.1 = (from, to)) then m.2 :: queue from to l else queue from to l.
Proof. unfold queue. rewrite filter_cons. unfold decide at 1, on_channel_dec. by destruct (decide (m.1 = (from, to))). Qed.
Lemma queue_sent_one s s' p x peers : NoDup peers → queue s' p ((λ m : SiloAddress * Gossip, (s, m.1, m.2)) <$> ((λ p, (p, x)) <$> peers)) = if decide (s = s' ∧ p ∈ peers) then [x] else [].
Proof.
  induction peers as [|q peers IH]; intros Hn; [by rewrite decide_False by (intros [_ ?%not_elem_of_nil]; done)|]. apply NoDup_cons in Hn as [Hq Hn].
  rewrite !fmap_cons, queue_cons, (IH Hn). cbn [fst snd]. destruct (decide ((s, q) = (s', p))) as [E|E].
  - injection E as -> ->. rewrite decide_False by (intros [_ ?]; done). rewrite decide_True by (split; [done|left]). done.
  - destruct (decide (s = s' ∧ p ∈ peers)) as [[-> Hp]|Hne]; [by rewrite decide_True by (split; [done|by right])|].
    rewrite decide_False; [done|]. intros [-> [->|Hp]%elem_of_cons]; [done|naive_solver].
Qed.
Lemma queue_sent s s' p xs peers : NoDup peers → queue s' p ((λ m : SiloAddress * Gossip, (s, m.1, m.2)) <$> to_all peers xs) = if decide (s = s' ∧ p ∈ peers) then xs else [].
Proof.
  intros Hn. induction xs as [|x xs IH]; [by case_decide|]. rewrite to_all_cons, fmap_app, queue_app, queue_sent_one, IH by done. by case_decide.
Qed.

Record known (view : list SiloAddress) (w : World) : Prop := {
  kn_view : ∀ s g, jm_get s (gateways w) = Some g → active g = view;
  kn_entries : ∀ s g k r, jm_get s (gateways w) = Some g → listed (directory g) k r ≠ None → ∃ s', is_Some (jm_get s' (gateways w)) ∧ ringKey s' = r;
  kn_told : ∀ s p gs gp k, s ≠ p → jm_get s (gateways w) = Some gs → jm_get p (gateways w) = Some gp →
    foldl (effect k) (listed (directory gp) k (ringKey s)) (queue s p (flight w)) = hosts s gs k;
  kn_to : ∀ m, m ∈ flight w → m.1.2 ∈ view }.

Section known.
Context (T : Z) (view : list SiloAddress) (Hview : NoDup (ringKey <$> view)).

Lemma step_known w w' s g g' l : world_ok w → known view w → (∀ s, is_Some (jm_get s (gateways w)) → s ∈ view) → gateway_step T w w' true s g g' l → known view w'.
Proof.
  intros Hw [K1 K2 K3 K4] Hin H. destruct (gs_steady _ _ _ _ _ _ _ _ H eq_refl) as (Ha & Hd & xs & -> & Hh). pose proof (gs_from _ _ _ _ _ _ _ _ H) as Hg. pose proof (gs_to _ _ _ _ _ _ _ _ H) as Hto.
  assert (Hpeer : ∀ p, s ≠ p → is_Some (jm_get p (gateways w)) → p ∈ otherActiveSilos s g).
  { intros p Hne Hp. apply list_elem_of_filter. rewrite (K1 s g Hg). split; [by apply not_eq_sym|by apply Hin]. }
  assert (Hnd : NoDup (otherActiveSilos s g)) by (apply NoDup_filter; rewrite (K1 s g Hg); by eapply NoDup_fmap_1).
  split.
  - intros s' g1. rewrite Hto. case_decide as E; [intros [= <-]; rewrite Ha; by apply (K1 s)|apply K1].
  - intros s' g1 k r. rewrite Hto. case_decide as E.
    + subst s'. intros [= <-] Hl. destruct (decide (ringKey s = r)) as [Er|Er].
      * exists s. split; [|done]. rewrite Hto, decide_True by done. by eexists.
      * rewrite Hd in Hl by done. destruct (K2 s g k r Hg Hl) as (s2 & H2 & <-). exists s2. split; [|done]. rewrite Hto. by case_decide.
    + intros Hs' Hl. destruct (K2 s' g1 k r Hs' Hl) as (s2 & H2 & <-). exists s2. split; [|done]. rewrite Hto. by case_decide.
  - intros s' p gs gp k Hne. rewrite !Hto, (gs_sent _ _ _ _ _ _ _ _ H), queue_app, queue_sent, foldl_app by done. destruct (decide (s = s')) as [<-|Hs].
    + intros [= <-]. rewrite (decide_False (P := s = p)) by done. intros Hp. rewrite (K3 s p g gp k Hne Hg Hp), Hh.
      rewrite decide_True; [done|]. split; [done|]. apply Hpeer; [done|by eexists].
    + rewrite (decide_False (P := s = s' ∧ _)) by naive_solver. simpl. intros Hs'. destruct (decide (s = p)) as [<-|Hp].
      * intros [= <-]. rewrite Hd; [by apply (K3 s' s)|]. intros Er. apply Hs. apply (NoDup_fmap_eq ringKey view); [done|apply Hin; by eexists..|done].
      * intros Hgp. by apply (K3 s' p).
  - intros m. rewrite (gs_sent _ _ _ _ _ _ _ _ H). intros [Hm|Hm]%elem_of_app; [by apply K4|]. apply list_elem_of_fmap in Hm as (m' & -> & Hm). simpl.
    unfold to_all in Hm. apply list_elem_of_bind in Hm as (x & Hm & _). apply list_elem_of_fmap in Hm as (p & -> & Hp). apply list_elem_of_filter in Hp as [_ Hp]. by rewrite (K1 s g Hg) in Hp.
Qed.

Lemma queue_taken from to x a b s p : Forall (λ m, ¬ on_channel from to m) a →
  queue s p (a ++ (from, to, x) :: b) = if decide ((from, to) = (s, p)) then x :: queue s p (a ++ b) else queue s p (a ++ b).
Proof.
  intros Ha. rewrite !queue_app, queue_cons. cbn [fst snd]. destruct (decide ((from, to) = (s, p))) as [E|E]; [|done]. injection E as <- <-.
  assert (En : queue from to a = []); [|by rewrite En]. induction Ha as [|m a Hm Ha IH]; [done|]. rewrite queue_cons, IH. by rewrite decide_False.
Qed.

Lemma deliver_known w from to : world_ok w → known view w → (∀ s, is_Some (jm_get s (gateways w)) → s ∈ view) → known view (gateway_world_step T (Deliver from to) w).
Proof.
  intros Hw [K1 K2 K3 K4] Hin. cbn [gateway_world_step]. pose proof (take_first_spec from to (flight w)) as Ht. destruct (take_first from to (flight w)) as [[x l]|]; [|done].
  destruct (jm_get to (gateways w)) as [g|] eqn:Hg; [|done]. destruct Ht as (a & b & E & -> & Ha).
  destruct (wo_flight _ Hw from to x) as (A & B & C); [rewrite E; set_solver|].
  assert (Hto : ∀ s g', is_Some (jm_get s (jm_set to g' (gateways w))) ↔ is_Some (jm_get s (gateways w))).
  { intros s g'. rewrite jm_get_set. case_decide; [subst; rewrite Hg; by split; eauto|done]. }
  split; simpl.
  - intros s g1. rewrite jm_get_set. case_decide; [intros [= <-]; by apply (K1 to g)|apply K1].
  - intros s g1 k r. rewrite jm_get_set. setoid_rewrite Hto. case_decide as Es; [|apply K2]. intros [= <-]. simpl. intros Hl.
    destruct (decide (ringKey (gossip_gateway x) = r)) as [Er|Er]; [exists from; by rewrite <- A at 2|]. rewrite listed_gossip_other in Hl by done. by apply (K2 to g k r).
  - intros s p gs gp k Hne Hs Hp. assert (Hgs : jm_get s (gateways w) = Some gs ∨ s = to ∧ gs = with_directory (apply_gossip x (directory g)) g).
    { revert Hs. rewrite jm_get_set. case_decide; [intros [= <-]; by right|by left]. }
    assert (Eh : ∃ gs0, jm_get s (gateways w) = Some gs0 ∧ hosts s gs k = hosts s gs0 k) by (destruct Hgs as [?|[-> ->]]; eauto). destruct Eh as (gs0 & Hs0 & ->).
    revert Hp. rewrite jm_get_set. destruct (decide (to = p)) as [<-|Ep].
    + intros [= <-]. rewrite <- (K3 s to gs0 g k Hne Hs0 Hg), E, queue_taken by done. simpl. destruct (decide ((from, to) = (s, to))) as [Es|Es].
      * injection Es as ->. rewrite <- A, listed_gossip. by simpl.
      * rewrite listed_gossip_other; [done|]. rewrite A. intros Er. apply Es. f_equal. apply (NoDup_fmap_eq ringKey view); auto.
    + intros Hp. rewrite <- (K3 s p gs0 gp k Hne Hs0 Hp), E, queue_taken by done. rewrite decide_False by congruence. done.
  - intros m Hm. apply K4. rewrite E. set_solver.
Qed.

Lemma steady_known w o : world_ok w → known view w → (∀ s, is_Some (jm_get s (gateways w)) → s ∈ view) → op_steady o = true → known view (gateway_world_step T o w).
Proof.
  intros Hw Hk Hin Ho. destruct (is_gateway_op o) eqn:Hg.
  - assert (Hok : op_ok o) by by destruct o. destruct (gateway_steps T w o Hw Hok Hg) as [->|(s & g & g' & l & H)]; [done|]. rewrite Ho in H. by eapply step_known.
  - destruct o; try done; [|by apply deliver_known]. by destruct Hk as [K1 K2 K3 K4].
Qed.

Lemma new_gateways s : jm_get s (gateways (new_world view)) = if decide (s ∈ view) then Some (new_gateway view) else None.
Proof.
  simpl. assert (H : ∀ g l, jm_get s ((λ s : SiloAddress, (s, g : Gateway)) <$> l) = if decide (s ∈ l) then Some g else None); [|apply H].
  intros g l. induction l as [|s' l IH]; [by rewrite decide_False by apply not_elem_of_nil|]. rewrite fmap_cons. cbn [jm_get]. rewrite IH. destruct (decide (s' = s)) as [->|Hne].
  - by rewrite decide_True by left.
  - destruct (decide (s ∈ l)); [by rewrite decide_True by by right|]. rewrite decide_False; [done|]. intros [?|?]%elem_of_cons; congruence.
Qed.
Lemma new_known : known view (new_world view).
Proof.
  split.
  - intros s g. rewrite new_gateways. case_decide; [by intros [= <-]|done].
  - intros s g k r. rewrite new_gateways. case_decide; [by intros [= <-]|done].
  - intros s p gs gp k _. rewrite !new_gateways. repeat case_decide; try done. by intros [= <-] [= <-].
  - by intros m ?%not_elem_of_nil.
Qed.

Lemma steady_run ops : ∀ w, Forall (λ o, op_steady o = true) ops → world_ok w → known view w → (∀ s, is_Some (jm_get s (gateways w)) ↔ s ∈ view) →
  world_ok (gateway_world_run T w ops) ∧ known view (gateway_world_run T w ops) ∧ ∀ s, is_Some (jm_get s (gateways (gateway_world_run T w ops))) ↔ s ∈ view.
Proof.
  induction ops as [|o ops IH]; intros w Ho Hw Hk Hin; [done|]. apply Forall_cons in Ho as [Ho Hos]. simpl. apply IH; [done| | |].
  - apply gateway_world_step_ok; [done|by destruct o|]. intros s s' Hs Hs' E. apply (NoDup_fmap_eq ringKey view); [done|by apply Hin..|done].
  - apply steady_known; try done. intros s. apply Hin.
  - intros s. by rewrite gateway_world_gateways.
Qed.

(** All gossip on its way arrives, in its order. *)
Definition deliveries (w : World) : list Op := (λ m : SiloAddress * SiloAddress * Gossip, Deliver m.1.1 m.1.2) <$> flight w.
Lemma delivered w : (∀ s, s ∈ view → is_Some (jm_get s (gateways w))) → (∀ m, m ∈ flight w → m.1.2 ∈ view) → flight (gateway_world_run T w (deliveries w)) = [].
Proof.
  unfold deliveries. remember (flight w) as l eqn:E. revert w E. induction l as [|[[from to] x] l IH]; intros w E Hin Hto; [done|]. cbn [fmap list_fmap foldl gateway_world_run fst snd].
  destruct (Hin to) as [g Hg]; [by apply (Hto (from, to, x)); left|].
  assert (Et : take_first from to (flight w) = Some (x, l)) by (rewrite <- E; simpl; by rewrite decide_True).
  apply IH.
  - cbn [gateway_world_step]. by rewrite Et, Hg.
  - intros s Hs. apply gateway_world_gateways. by apply Hin.
  - intros m Hm. apply Hto. by right.
Qed.
End known.

(** ** Theorems *)

Definition hosting (w : World) (s : SiloAddress) (c : GrainId) : Prop := ∃ g, jm_get s (gateways w) = Some g ∧ jm_get (client_key c) (localClientIds g) ≠ None.

Lemma route_local s conns now g c : local_ok s conns now g → routeToClient s c g = Proxy ↔ jm_get (client_key c) (localClientIds g) ≠ None.
Proof.
  intros Hok. unfold routeToClient. pose proof (lookup_client_spec c s (directory g) (lo_dir _ _ _ _ Hok)) as Hl. pose proof (lo_own _ _ _ _ Hok (client_key c)) as Ho. unfold hosts in Ho.
  destruct (lookup_client c (Some s) (directory g)) as [s'|].
  - destruct Hl as [H1 H2]. case_bool_decide as E.
    + subst s'. rewrite Ho in H1. by destruct (jm_get (client_key c) (localClientIds g)).
    + split; [done|]. intros Hn. destruct (jm_get (client_key c) (localClientIds g)); [|done]. rewrite Ho in H2. destruct E. specialize (H2 ltac:(by eexists)). by injection H2.
  - split; [done|]. rewrite Hl in Ho. by destruct (jm_get (client_key c) (localClientIds g)).
Qed.

Lemma deliver_hosting T from to w s c : hosting (gateway_world_step T (Deliver from to) w) s c ↔ hosting w s c.
Proof.
  unfold hosting. cbn [gateway_world_step]. destruct (take_first from to (flight w)) as [[x l]|]; [|done]. destruct (jm_get to (gateways w)) as [g|] eqn:Hg; [|done].
  simpl. setoid_rewrite jm_get_set. case_decide as E; [subst to|done]. rewrite Hg. split; intros (g' & [= <-] & H); by eexists.
Qed.
Lemma delivered_hosting T w0 s c : ∀ w, hosting (gateway_world_run T w (deliveries w0)) s c ↔ hosting w s c.
Proof. unfold deliveries. induction (flight w0) as [|m l IH]; intros w; [done|]. cbn [fmap list_fmap]. etransitivity; [apply IH|apply deliver_hosting]. Qed.

(** C35: what a gateway holds is sound, whatever connects, closes, is gossiped or lost,
    as long as it stays in its own view: calls to clients wait only on open
    connections (a closed one answers all of its calls), a held connection is open and
    is its client's, and calls for its client go over it; the clients a gateway hosts
    are those its own directory has for it, each connected or known to be away; and a
    client is forgotten only when it has been away for the drop timeout. *)
Theorem gateway_holds_clients T view ops o s g : NoDup (ringKey <$> view) → Forall op_ok (ops ++ [o]) →
  let w := gateway_world_run T (new_world view) ops in
  jm_get s (gateways w) = Some g →
  (∀ call i, (call, i) ∈ outstanding g → ∃ c e, connections w !! i = Some (mkConnection s c e true)) ∧
  (∀ k i, jm_get k (clientConnections g) = Some i → ∃ c e, connections w !! i = Some (mkConnection s c e true) ∧ client_key c = k ∧ routeToClient s c g = Proxy) ∧
  (∀ c, routeToClient s c g = Proxy ↔ jm_get (client_key c) (localClientIds g) ≠ None) ∧
  (∀ k, jm_get k (localClientIds g) ≠ None → jm_get k (clientConnections g) ≠ None ∨ ∃ t, jm_get k (clientDisconnectedSince g) = Some t ∧ t <= clock w) ∧
  (∀ g' k, jm_get s (gateways (gateway_world_step T o w)) = Some g' → jm_get k (localClientIds g) ≠ None → jm_get k (localClientIds g') = None →
     jm_get k (clientConnections g) = None ∧ ∃ t, jm_get k (clientDisconnectedSince g) = Some t ∧ T <= clock w - t).
Proof.
  intros Hn Hops w Hg. apply Forall_app in Hops as [Hops Ho]. apply Forall_inv in Ho.
  destruct (gateway_world_run_ok T view ops (new_world view) Hn Hops (new_world_gateways view) (new_world_ok view)) as [Hw Hin]. pose proof (wo_local _ Hw s g Hg) as Hok.
  split_and!; [apply Hok| | | |].
  - intros k i Hi. destruct (lo_held _ _ _ _ Hok k i Hi) as (c & e & A & <- & B). exists c, e. split_and!; [done..|]. by apply (route_local s _ _ g c Hok).
  - intros c. by apply (route_local s _ _ g c Hok).
  - intros k Hk. destruct (jm_get k (localClientIds g)) as [c|] eqn:Hc; [|done]. destruct (lo_ids _ _ _ _ Hok k c Hc) as [_ [?|Hs]]; [by left|right].
    destruct (jm_get k (clientDisconnectedSince g)) as [t|] eqn:Ht; [|done]. exists t. split; [done|]. apply (lo_since _ _ _ _ Hok k t Ht).
  - intros g' k Hg' Hk Hk'. assert (H : ∃ t, jm_get k (clientDisconnectedSince g) = Some t ∧ T <= clock w - t).
    { destruct (is_gateway_op o) eqn:Ego.
      - destruct (gateway_steps T w o Hw Ho Ego) as [Es|(s1 & g1 & g1' & l & H)]; [rewrite Es in Hg'; congruence|]. rewrite (gs_to _ _ _ _ _ _ _ _ H) in Hg'.
        case_decide; [|congruence]. subst s1. injection Hg' as <-. pose proof (gs_from _ _ _ _ _ _ _ _ H). assert (g1 = g) as -> by congruence.
        apply (gs_lost _ _ _ _ _ _ _ _ H k); unfold hosts; [by destruct (jm_get k (localClientIds g))|by rewrite Hk'].
      - assert (Hsame : localClientIds g' = localClientIds g); [|by rewrite Hsame in Hk']. revert Hg'. destruct o as [| |dt| | | |from to|from to| |]; try done; cbn [gateway_world_step].
        + simpl. rewrite Hg. by intros [= <-].
        + destruct (take_first from to (flight w)) as [[x l]|]; [|rewrite Hg; by intros [= <-]]. destruct (jm_get to (gateways w)) as [g1|] eqn:E; [|rewrite Hg; by intros [= <-]].
          simpl. rewrite jm_get_set. case_decide; [subst to; intros [= <-]; simpl; congruence|]. rewrite Hg. by intros [= <-].
        + destruct (take_first from to (flight w)) as [[x l]|]; simpl; rewrite Hg; by intros [= <-]. }
    split; [|done]. destruct H as (t & Ht & _). apply (lo_since _ _ _ _ Hok k t Ht).
Qed.

(** C34: in a view that stays, once the gossip on its way has arrived, every silo finds
    a client where it is hosted: it proxies the call if it hosts the client itself,
    sends it to a gateway that hosts the client if one does, and rejects it only when
    none does. That is the route: a gateway still rejects the call while the client is
    disconnected, for as long as it is kept ([deliverToProxy]). *)
Theorem clients_are_found T view ops p c gp : NoDup (ringKey <$> view) → Forall (λ o, op_steady o = true) ops →
  let w := gateway_world_run T (new_world view) ops in
  let w' := gateway_world_run T w (deliveries w) in
  jm_get p (gateways w') = Some gp →
  (∀ s, hosting w' s c ↔ hosting w s c) ∧
  match routeToClient p c gp with
  | Proxy => hosting w p c
  | Remote s => s ≠ p ∧ hosting w s c ∧ ¬ hosting w p c
  | NoGateway => ∀ s, ¬ hosting w s c
  end.
Proof.
  intros Hn Hops w w' Hp. destruct (steady_run T view Hn ops (new_world view) Hops (new_world_ok view) (new_known view)) as (Hw & Hk & Hin).
  { intros s. rewrite new_gateways. case_decide; [by split; eauto|]. by split; [intros [g ?]|]. }
  assert (Hd : Forall (λ o, op_steady o = true) (deliveries w)) by (unfold deliveries; by apply Forall_fmap, Forall_forall).
  destruct (steady_run T view Hn (deliveries w) w Hd Hw Hk Hin) as (Hw' & Hk' & _). fold w' in Hw', Hk'.
  assert (Hfl : flight w' = []) by (apply (delivered T view); [intros s; apply Hin|apply Hk]).
  assert (Hh : ∀ s, hosting w' s c ↔ hosting w s c) by (intros s; apply delivered_hosting). split; [done|].
  assert (Hlist : ∀ s gs, jm_get s (gateways w') = Some gs → listed (directory gp) (client_key c) (ringKey s) = hosts s gs (client_key c)).
  { intros s gs Hs. destruct (decide (s = p)) as [->|Hne].
    - assert (gs = gp) as -> by congruence. apply (wo_local _ Hw' p gp Hp).
    - rewrite <- (kn_told _ _ Hk' s p gs gp (client_key c) Hne Hs Hp). by rewrite Hfl. }
  assert (Hlisted : ∀ s, hosting w' s c ↔ is_Some (jm_get s (gateways w')) ∧ listed (directory gp) (client_key c) (ringKey s) = Some s).
  { intros s. split.
    - intros (gs & Hs & Hc). split; [by eexists|]. rewrite (Hlist s gs Hs). unfold hosts. by destruct (jm_get (client_key c) (localClientIds gs)).
    - intros [[gs Hs] Hl]. exists gs. split; [done|]. rewrite (Hlist s gs Hs) in Hl. unfold hosts in Hl. by destruct (jm_get (client_key c) (localClientIds gs)). }
  pose proof (lookup_client_spec c p (directory gp) (lo_dir _ _ _ _ (wo_local _ Hw' p gp Hp))) as Hl. pose proof (route_local p _ _ gp c (wo_local _ Hw' p gp Hp)) as Hr.
  assert (Hown : hosting w p c ↔ jm_get (client_key c) (localClientIds gp) ≠ None).
  { rewrite <- Hh. split; [intros (g & Hg & Hc); congruence|]. intros Hc. by exists gp. }
  destruct (routeToClient p c gp) as [| |s] eqn:Er.
  - intros s Hs. apply Hh, Hlisted in Hs as [_ Hs]. unfold routeToClient in Er. destruct (lookup_client c (Some p) (directory gp)); [by case_bool_decide|]. by rewrite Hl in Hs.
  - by apply Hown, Hr.
  - unfold routeToClient in Er. destruct (lookup_client c (Some p) (directory gp)) as [s'|]; [|done]. case_bool_decide as Es; [done|]. injection Er as ->. split; [done|].
    split; [|intros Hc; apply Hown, Hr in Hc; done]. apply Hh, Hlisted. destruct Hl as [Hl _]. split; [|done].
    destruct (kn_entries _ _ Hk' p gp (client_key c) (ringKey s) Hp) as (s2 & [g2 Hs2] & E); [congruence|]. pose proof (Hlist s2 g2 Hs2) as H2. rewrite E, Hl in H2.
    unfold hosts in H2. destruct (jm_get (client_key c) (localClientIds g2)); [|done]. injection H2 as <-. by eexists.
Qed.

(** ** Concrete runs *)

Module Runs.
Definition silo (i uid : string) : SiloAddress := mkSilo i uid (i +:+ ":11111").
Definition s0 : SiloAddress := silo "s-0" "u0".
Definition s1 : SiloAddress := silo "s-1" "u1".
Definition s2 : SiloAddress := silo "s-2" "u2".
Definition view : list SiloAddress := [s0; s1; s2].
Definition ada : GrainId := clientId "ada".
Definition routes (w : World) (c : GrainId) : list Route := (λ e : SiloAddress * Gateway, routeToClient e.1 c e.2) <$> gateways w.
Definition arrived (w : World) : World := gateway_world_run 60000 w (deliveries w).
(** A client connects to one gateway; its connection is lost with a call on it. *)
Definition ada_connected : World := gateway_world_run 60000 (new_world view) [Connect s1 ada "10.0.0.9:1"; CallClient s1 7 ada].

Lemma gateway_holds_clients_witness :
  outstanding (default (new_gateway []) (jm_get s1 (gateways ada_connected))) = [(7, 0)%nat] ∧
  ∃ c e, connections ada_connected !! 0%nat = Some (mkConnection s1 c e true).
Proof.
  split; [reflexivity|].
  destruct (gateway_holds_clients 60000 view [Connect s1 ada "10.0.0.9:1"; CallClient s1 7 ada] (UpdateView s1 (mkSnapshot 1 [mkMember s1 Active None])) s1
    (default (new_gateway []) (jm_get s1 (gateways ada_connected)))) as (H & _).
  - refine (bool_decide_unpack (NoDup _) _); vm_compute; exact I.
  - repeat constructor.
  - reflexivity.
  - apply (H 7%nat 0%nat). left.
Defined.

Definition moved : list Op := [Connect s1 ada "10.0.0.9:1"; Connect s0 (clientId "bob") "10.0.0.8:1"; Close 0; Pass 60000; Connect s2 ada "10.0.0.9:2"; Sweep s1].
Lemma clients_are_found_witness :
  let w := gateway_world_run 60000 (new_world view) moved in
  routes w ada = [NoGateway; NoGateway; Proxy] ∧ routes (arrived w) ada = [Remote s2; Remote s2; Proxy] ∧ hosting w s2 ada.
Proof.
  split; [vm_compute; reflexivity|]. split; [vm_compute; reflexivity|].
  destruct (clients_are_found 60000 view moved s0 ada (default (new_gateway []) (jm_get s0 (gateways (arrived (gateway_world_run 60000 (new_world view) moved)))))) as (_ & H).
  - refine (bool_decide_unpack (NoDup _) _); vm_compute; exact I.
  - repeat constructor.
  - vm_compute; reflexivity.
  - revert H. vm_compute. intros (_ & H & _). exact H.
Defined.

(** A client that moved to another gateway is still looked up at the old one, the
    first inserted, until that drops it: calls from other silos fail although the
    client is connected. *)
Lemma moved_client_unreachable :
  let w := arrived (gateway_world_run 60000 (new_world view) [Connect s1 ada "10.0.0.9:1"; Close 0; Connect s2 ada "10.0.0.9:2"]) in
  routes w ada = [Remote s1; Proxy; Proxy] ∧
  (λ g, (deliverToProxy 1 ada g).2) <$> (jm_get s1 (gateways w)) = Some false.
Proof. by vm_compute. Qed.

Definition entry (x : option Gateway) (c : GrainId) : option SiloAddress := g ← x; match routeToClient s0 c g with Remote s => Some s | _ => None end.
(** A gateway that drains before it is gone is never forgotten: it left the ring, over
    which the last update looks, before it left the members. *)
Lemma drained_gateway_kept :
  let w := arrived ada_connected in
  let snapshot v st := mkSnapshot v (mkMember s0 Active None :: st) in
  entry (jm_get s0 (gateways (gateway_world_run 60000 w [UpdateView s0 (snapshot 2 [])]))) ada = None ∧
  entry (jm_get s0 (gateways (gateway_world_run 60000 w [UpdateView s0 (snapshot 2 [mkMember s1 Draining None]); UpdateView s0 (snapshot 3 [])]))) ada = Some s1.
Proof. by vm_compute. Qed.

(** A gateway whose pod restarts keeps its ring key: the clients of its earlier life
    stay listed, under its old address. *)
Lemma restarted_gateway_kept :
  let w := arrived ada_connected in
  entry (jm_get s0 (gateways (gateway_world_run 60000 w [UpdateView s0 (mkSnapshot 2 [mkMember s0 Active None; mkMember (silo "s-1" "u9") Active None])]))) ada = Some s1.
Proof. by vm_compute. Qed.

(** Gossip of a gateway that arrives after the gateway was forgotten stays. *)
Lemma late_gossip_kept :
  entry (jm_get s0 (gateways (gateway_world_run 60000 ada_connected [UpdateView s0 (mkSnapshot 2 [mkMember s0 Active None]); Deliver s1 s0]))) ada = Some s1.
Proof. by vm_compute. Qed.
End Runs.
