(* ===== verification/KafkaQueue.v ===== *)
(** * Queues over a Kafka topic

    Models [packages/streams/src/kafka-stream-queue.ts] (the class [KafkaTopicQueues]),
    [kafka-partition-owner.ts] (the class [KafkaPartitionOwner]) and their use in
    [kafka-pulling-stream-provider.ts].

    Kafka is what the code relies on: a partition is a log of records of ascending
    offsets, of which retention deletes the first ones; the consumer hands on, one at a
    time and in order, the records of the partitions that are not paused, from the
    offset it was last moved to. A log here keeps what was deleted, for what was handed
    on of it before; what the consumer does at an offset that was deleted is left to
    Kafka: here it hands on nothing until it is moved. The awaits of
    [acquire] and [seek] are points between steps; the cursor store may fail in them,
    and other silos may move its cursors at any time. *)
From Stdlib Require Import String Sorted.
From stdpp Require Import prelude gmap strings list.
From S2P Require Import Prelude JsMap StreamAgent.
Open Scope Z_scope.

(** ** The queues of a topic *)

Record KafkaRecord := mkRecord { offset : Z; record_key : string; record_value : string }.
(** Cursor 0 stands for nothing committed, so tokens start above it. *)
Definition kafka_entry (r : KafkaRecord) : QueueEntry := mkEntry (offset r + 1) (record_key r) (record_value r).

Record KafkaTopicQueues := mkQueues {
  buffers : gmap nat (list QueueEntry);
  pausedByBackpressure : gset nat;
  acquired : gset nat;
  (** The consumer's: where it reads next, and the partitions it is not paused for. *)
  position : gmap nat Z;
  resumed : gset nat }.
Definition bufferFor (i : nat) (q : KafkaTopicQueues) : list QueueEntry := default [] (buffers q !! i).
Definition position_of (i : nat) (q : KafkaTopicQueues) : Z := default 0 (position q !! i).
(** A consumer that runs, paused for every partition; where it is is Kafka's. *)
Definition new_queues (start : gmap nat Z) : KafkaTopicQueues := mkQueues ∅ ∅ ∅ start ∅.

Fixpoint drop_read (cursor : Z) (l : list QueueEntry) : list QueueEntry :=
  match l with e :: l' => if bool_decide (token e <= cursor) then drop_read cursor l' else l | [] => [] end.

Section queues.
Variable highWaterMark : nat.

Definition onMessage (i : nat) (r : KafkaRecord) (q : KafkaTopicQueues) : KafkaTopicQueues :=
  let buf := bufferFor i q ++ [kafka_entry r] in
  let full := bool_decide (highWaterMark < length buf)%nat && bool_decide (i ∉ pausedByBackpressure q) in
  mkQueues (<[i := buf]> (buffers q)) (if full then {[i]} ∪ pausedByBackpressure q else pausedByBackpressure q) (acquired q) (position q)
    (if full then resumed q ∖ {[i]} else resumed q).
Definition readAfter (i : nat) (cursor : Z) (count : nat) (q : KafkaTopicQueues) : KafkaTopicQueues * list QueueEntry :=
  let buf := drop_read cursor (bufferFor i q) in
  let low := bool_decide (i ∈ pausedByBackpressure q) && bool_decide (2 * length buf <= highWaterMark)%nat in
  (mkQueues (<[i := buf]> (buffers q)) (if low then pausedByBackpressure q ∖ {[i]} else pausedByBackpressure q) (acquired q) (position q)
    (if low then {[i]} ∪ resumed q else resumed q), take count buf).

Definition seekAndResetBuffer (i : nat) (target : Z) (q : KafkaTopicQueues) : KafkaTopicQueues :=
  mkQueues (<[i := []]> (buffers q)) (pausedByBackpressure q) (acquired q) (<[i := target]> (position q)) (resumed q).
Definition resolveStartOffset (earliest cursor : Z) : Z := if bool_decide (cursor < earliest) then earliest else cursor.
(** The last part of [acquire], after its awaits. *)
Definition place (i : nat) (target : Z) (q : KafkaTopicQueues) : KafkaTopicQueues :=
  let q := seekAndResetBuffer i target q in
  mkQueues (buffers q) (pausedByBackpressure q ∖ {[i]}) (acquired q) (position q) ({[i]} ∪ resumed q).
(** The last part of [seek]. *)
Definition seek_place (i : nat) (target : Z) (q : KafkaTopicQueues) : KafkaTopicQueues :=
  let q := seekAndResetBuffer i target q in
  if bool_decide (i ∈ pausedByBackpressure q) then
    mkQueues (buffers q) (pausedByBackpressure q ∖ {[i]}) (acquired q) (position q) ({[i]} ∪ resumed q)
  else q.
Definition with_acquired (s : gset nat) (q : KafkaTopicQueues) : KafkaTopicQueues :=
  mkQueues (buffers q) (pausedByBackpressure q) s (position q) (resumed q).
Definition release (i : nat) (q : KafkaTopicQueues) : KafkaTopicQueues :=
  if bool_decide (i ∈ acquired q) then
    mkQueues (<[i := []]> (buffers q)) (pausedByBackpressure q ∖ {[i]}) (acquired q ∖ {[i]}) (position q) (resumed q ∖ {[i]})
  else q.

(** ** The owner of partitions *)

Record KafkaPartitionOwner := mkOwner { wanted : list nat; owned : list nat; acquiring : list nat; stopped : bool }.

(** Where a call of [acquire] is; the last two, that it settled. *)
Inductive Acquire := GettingCursor | Resolving (cursor : Z) | Placing (target : Z) | Acquired | Failed.
Inductive Seek := Storing | SeekResolving | SeekPlacing (target : Z).

Record World := mkWorld {
  owner : KafkaPartitionOwner;
  queues : KafkaTopicQueues;
  (** Calls of [acquire] in flight, with the attempt. *)
  acquires : list (nat * (nat * Acquire));
  (** Retries that sleep, with the attempt that failed. *)
  sleeps : list (nat * nat);
  (** Calls of [seek] in flight, with the cursor. *)
  seeks : list (nat * Z * Seek);
  (** The queues the provider runs agents for. *)
  agents : list nat;
  cursors : gmap nat Z;
  log : gmap nat (list KafkaRecord);
  earliest : gmap nat Z;
  (** Not in the code: the token up to which a partition's buffer may lack what was
      fetched, by where the consumer was last placed and the cursors read after. *)
  floors : gmap nat Z }.
Definition log_of (i : nat) (w : World) : list KafkaRecord := default [] (log w !! i).
Definition floor_of (i : nat) (w : World) : Z := default 0 (floors w !! i).
(** The first offset that was not deleted. *)
Definition earliest_of (i : nat) (w : World) : Z := default 0 (earliest w !! i).

Definition with_owner (o : KafkaPartitionOwner) (w : World) : World := mkWorld o (queues w) (acquires w) (sleeps w) (seeks w) (agents w) (cursors w) (log w) (earliest w) (floors w).
Definition with_queues (q : KafkaTopicQueues) (w : World) : World := mkWorld (owner w) q (acquires w) (sleeps w) (seeks w) (agents w) (cursors w) (log w) (earliest w) (floors w).
Definition with_acquires (l : list (nat * (nat * Acquire))) (w : World) : World := mkWorld (owner w) (queues w) l (sleeps w) (seeks w) (agents w) (cursors w) (log w) (earliest w) (floors w).
Definition with_sleeps (l : list (nat * nat)) (w : World) : World := mkWorld (owner w) (queues w) (acquires w) l (seeks w) (agents w) (cursors w) (log w) (earliest w) (floors w).
Definition with_seeks (l : list (nat * Z * Seek)) (w : World) : World := mkWorld (owner w) (queues w) (acquires w) (sleeps w) l (agents w) (cursors w) (log w) (earliest w) (floors w).
Definition with_agents (l : list nat) (w : World) : World := mkWorld (owner w) (queues w) (acquires w) (sleeps w) (seeks w) l (cursors w) (log w) (earliest w) (floors w).
Definition with_cursor_at (i : nat) (c : Z) (w : World) : World := mkWorld (owner w) (queues w) (acquires w) (sleeps w) (seeks w) (agents w) (<[i := c]> (cursors w)) (log w) (earliest w) (floors w).
Definition with_floor (i : nat) (f : Z) (w : World) : World := mkWorld (owner w) (queues w) (acquires w) (sleeps w) (seeks w) (agents w) (cursors w) (log w) (earliest w) (<[i := f]> (floors w)).

(** [onOwnedChanged]: the provider runs agents for what is owned, unless it stopped. *)
Definition onOwnedChanged (w : World) : World := if stopped (owner w) then w else with_agents (owned (owner w)) w.
Definition release_at (i : nat) (w : World) : World :=
  with_floor i (if bool_decide (i ∈ acquired (queues w)) then position_of i (queues w) else floor_of i w) (with_queues (release i (queues w)) w).

(** To the first await of [acquire]. *)
Definition beginAcquire (i attempt : nat) (w : World) : World :=
  let o := owner w in
  let w' := with_owner (mkOwner (wanted o) (owned o) (acquiring o ++ [i]) (stopped o)) w in
  if bool_decide (i ∈ acquired (queues w)) then with_acquires (acquires w ++ [(i, (attempt, Acquired))]) w'
  else with_acquires (acquires w ++ [(i, (attempt, GettingCursor))]) (with_queues (with_acquired ({[i]} ∪ acquired (queues w)) (queues w)) w').

(** [new Set]. *)
Definition set_of (l : list nat) : list nat := foldl (λ s x, if bool_decide (x ∈ s) then s else s ++ [x]) [] l.

Definition want_one (w : World) (i : nat) : World :=
  if bool_decide (i ∈ owned (owner w)) || bool_decide (i ∈ acquiring (owner w)) then w else beginAcquire i 0 w.
Definition setWanted (indices : list nat) (w : World) : World :=
  let o := owner w in
  let want := set_of indices in
  let gone := filter (λ i, i ∉ want) (owned o) in
  let w := with_owner (mkOwner want (filter (λ i, i ∈ want) (owned o)) (acquiring o) (stopped o)) w in
  let w := foldl (λ w i, release_at i w) w gone in
  let w := if bool_decide (gone = []) then w else onOwnedChanged w in
  foldl want_one w want.

(** [stop] of the provider. *)
Definition stop_owner (w : World) : World :=
  let o := owner w in with_agents [] (with_owner (mkOwner (wanted o) (owned o) (acquiring o) true) w).

Definition acquire_step (i : nat) (w : World) : World :=
  match jm_get i (acquires w) with
  | None => w
  | Some (attempt, stage) =>
      let set_stage s w := with_acquires (jm_set i (attempt, s) (acquires w)) w in
      let o := owner w in
      let settled w := with_acquires (jm_delete i (acquires w)) (with_owner (mkOwner (wanted o) (owned o) (filter (λ j, j ≠ i) (acquiring o)) (stopped o)) w) in
      let refused := stopped o || bool_decide (i ∉ wanted o) in
      match stage with
      | GettingCursor => set_stage (Resolving (default 0 (cursors w !! i))) w
      | Resolving c => set_stage (Placing (resolveStartOffset (earliest_of i w) c)) w
      | Placing t =>
          if bool_decide (i ∈ acquired (queues w)) then set_stage Acquired (with_floor i t (with_queues (place i t (queues w)) w))
          else set_stage Acquired w
      | Acquired =>
          if refused then release_at i (settled w)
          else
            let w := settled w in
            let o := owner w in
            onOwnedChanged (with_owner (mkOwner (wanted o) (if bool_decide (i ∈ owned o) then owned o else owned o ++ [i]) (acquiring o) (stopped o)) w)
      | Failed => if refused then settled w else with_sleeps (sleeps w ++ [(i, attempt)]) (settled w)
      end
  end.
Definition acquire_fails (i : nat) (w : World) : World :=
  match jm_get i (acquires w) with
  | Some (attempt, (GettingCursor | Resolving _)) =>
      with_acquires (jm_set i (attempt, Failed) (acquires w)) (with_queues (with_acquired (acquired (queues w) ∖ {[i]}) (queues w)) w)
  | _ => w
  end.
(** A sleep ends. *)
Definition wake (k : nat) (w : World) : World :=
  match sleeps w !! k with
  | None => w
  | Some (i, attempt) =>
      let w := with_sleeps (delete k (sleeps w)) w in
      let o := owner w in
      if stopped o || bool_decide (i ∉ wanted o) || bool_decide (i ∈ owned o) || bool_decide (i ∈ acquiring o) then w
      else beginAcquire i (S attempt) w
  end.

Definition seek_step (k : nat) (w : World) : World :=
  match seeks w !! k with
  | None => w
  | Some (i, c, stage) =>
      match stage with
      | Storing =>
          let w := with_cursor_at i c w in
          if bool_decide (i ∈ acquired (queues w)) then with_seeks (<[k := (i, c, SeekResolving)]> (seeks w)) w else with_seeks (delete k (seeks w)) w
      | SeekResolving => with_seeks (<[k := (i, c, SeekPlacing (resolveStartOffset (earliest_of i w) c))]> (seeks w)) w
      | SeekPlacing t =>
          let w := with_seeks (delete k (seeks w)) w in
          if bool_decide (i ∈ acquired (queues w)) then with_floor i t (with_queues (seek_place i t (queues w)) w) else w
      end
  end.

(** Kafka hands on the next record of a partition that is not paused. *)
Definition fetch (i : nat) (w : World) : World :=
  if bool_decide (position_of i (queues w) < earliest_of i w) then w else
  match filter (λ r, position_of i (queues w) <= offset r) (log_of i w) with
  | r :: _ =>
      if bool_decide (i ∈ resumed (queues w)) then
        let q := onMessage i r (queues w) in
        with_queues (mkQueues (buffers q) (pausedByBackpressure q) (acquired q) (<[i := offset r + 1]> (position q)) (resumed q)) w
      else w
  | [] => w
  end.
Definition read (i : nat) (cursor : Z) (count : nat) (w : World) : World * list QueueEntry :=
  let '(q, batch) := readAfter i cursor count (queues w) in
  (with_floor i (Z.max (floor_of i w) (Z.min cursor (position_of i (queues w)))) (with_queues q w), batch).

Inductive Op :=
  | SetWanted (indices : list nat)
  | StopProvider
  | AcquireStep (i : nat)
  | AcquireFails (i : nat)
  | Wake (k : nat)
  | SeekCall (i : nat) (cursor : Z)
  | SeekStep (k : nat)
  | SeekFails (k : nat)
  | Fetch (i : nat)
  | Read (i : nat) (cursor : Z) (count : nat)
  (** By any silo. *)
  | StoreCursor (i : nat) (cursor : Z)
  | Append (i : nat) (r : KafkaRecord)
  | Retain (i : nat) (from : Z).

Definition kafka_step (w : World) (o : Op) : World :=
  match o with
  | SetWanted l => setWanted l w
  | StopProvider => stop_owner w
  | AcquireStep i => acquire_step i w
  | AcquireFails i => acquire_fails i w
  | Wake k => wake k w
  | SeekCall i c => with_seeks (seeks w ++ [(i, c, Storing)]) w
  | SeekStep k => seek_step k w
  | SeekFails k => match seeks w !! k with Some (_, _, (Storing | SeekResolving)) => with_seeks (delete k (seeks w)) w | _ => w end
  | Fetch i => fetch i w
  | Read i c n => (read i c n w).1
  | StoreCursor i c => with_cursor_at i c w
  (* At the end of the partition, which the consumer is not past. *)
  | Append i r =>
      if bool_decide (Forall (λ r', offset r' < offset r) (log_of i w) ∧ position_of i (queues w) <= offset r) then
        mkWorld (owner w) (queues w) (acquires w) (sleeps w) (seeks w) (agents w) (cursors w) (<[i := log_of i w ++ [r]]> (log w)) (earliest w) (floors w)
      else w
  (* The records below an offset are deleted. *)
  | Retain i o => mkWorld (owner w) (queues w) (acquires w) (sleeps w) (seeks w) (agents w) (cursors w) (log w) (<[i := Z.max (earliest_of i w) o]> (earliest w)) (floors w)
  end.
Definition kafka_run (w : World) (ops : list Op) : World := foldl kafka_step w ops.
(** A provider that started. *)
Definition new_world (start : gmap nat Z) (cursors : gmap nat Z) : World :=
  mkWorld (mkOwner [] [] [] false) (new_queues start) [] [] [] [] cursors ∅ ∅ start.
End queues.

(** ** Reading a buffer *)

Definition log_ascending (l : list KafkaRecord) : Prop := StronglySorted (λ x y, offset x < offset y) l.
(** The records a partition's buffer holds: fetched, and not read up to. *)
Definition fetched (lo hi : Z) (l : list KafkaRecord) : list QueueEntry := kafka_entry <$> filter (λ r, lo < offset r + 1 ∧ offset r < hi) l.

Lemma filter_every {A} (P : A → Prop) `{∀ x, Decision (P x)} (l : list A) : (∀ x, x ∈ l → P x) → filter P l = l.
Proof. induction l as [|x l IH]; intros Hl; [done|]. rewrite filter_cons, decide_True by (apply Hl; left). f_equal. apply IH. intros y Hy. apply Hl. by right. Qed.
Lemma filter_no {A} (P : A → Prop) `{∀ x, Decision (P x)} (l : list A) : (∀ x, x ∈ l → ¬ P x) → filter P l = [].
Proof. induction l as [|x l IH]; intros Hl; [done|]. rewrite filter_cons, decide_False by (apply Hl; left). apply IH. intros y Hy. apply Hl. by right. Qed.
Lemma drop_read_filter c l : ascending l → drop_read c l = filter (λ e, c < token e) l.
Proof.
  unfold ascending. induction 1 as [|e l Ha IH Hf]; [done|]. simpl. rewrite filter_cons. case_bool_decide as Hc.
  - rewrite decide_False by lia. done.
  - rewrite decide_True by lia. f_equal. symmetry. apply filter_every. rewrite Forall_forall in Hf. intros x Hx. specialize (Hf x Hx). lia.
Qed.
Lemma ascending_fetched lo hi l : log_ascending l → ascending (fetched lo hi l).
Proof.
  unfold log_ascending, ascending, fetched. induction 1 as [|r l Ha IH Hf]; [constructor|]. rewrite filter_cons. case_decide; [|done]. simpl. constructor; [done|].
  apply Forall_fmap, Forall_forall. intros x [_ Hx]%list_elem_of_filter. rewrite Forall_forall in Hf. specialize (Hf x Hx). simpl. lia.
Qed.
Lemma filter_fmap_kafka (P : QueueEntry → Prop) `{∀ e, Decision (P e)} (l : list KafkaRecord) : filter P (kafka_entry <$> l) = kafka_entry <$> filter (λ r, P (kafka_entry r)) l.
Proof. induction l as [|r l IH]; [done|]. rewrite fmap_cons, !filter_cons, IH. by case_decide. Qed.
Lemma filter_fetched c lo hi l : filter (λ e, c < token e) (fetched lo hi l) = fetched (Z.max lo c) hi l.
Proof.
  unfold fetched. rewrite filter_fmap_kafka. f_equal. rewrite list_filter_filter. apply list_filter_iff. intros r. simpl. lia.
Qed.
Lemma drop_fetched c lo hi l : log_ascending l → drop_read c (fetched lo hi l) = fetched (Z.max lo c) hi l.
Proof. intros Hl. rewrite drop_read_filter by by apply ascending_fetched. apply filter_fetched. Qed.
Lemma fetched_nil lo hi l : hi <= lo → fetched lo hi l = [].
Proof.
  intros H. unfold fetched. rewrite filter_no; [done|]. intros r _. lia.
Qed.
Lemma fetched_min c lo hi l : fetched (Z.max lo c) hi l = fetched (Z.max lo (Z.min c hi)) hi l.
Proof. unfold fetched. f_equal. apply list_filter_iff. intros r. lia. Qed.

(** The next record joins those fetched. *)
Lemma fetched_next lo hi l r l' : log_ascending l → lo <= hi → filter (λ r, hi <= offset r) l = r :: l' → fetched lo (offset r + 1) l = fetched lo hi l ++ [kafka_entry r].
Proof.
  unfold fetched, log_ascending. intros Hl Hlo. induction Hl as [|x l Hl IH Hf]; [done|]. rewrite filter_cons. rewrite Forall_forall in Hf. case_decide as Hx.
  - intros [= -> _]. rewrite !filter_cons. rewrite decide_True by lia. rewrite decide_False by lia. simpl.
    assert (E1 : filter (λ r0, lo < offset r0 + 1 ∧ offset r0 < offset r + 1) l = []).
    { apply filter_no. intros y Hy. specialize (Hf y Hy). lia. }
    assert (E2 : filter (λ r0, lo < offset r0 + 1 ∧ offset r0 < hi) l = []).
    { apply filter_no. intros y Hy. specialize (Hf y Hy). lia. }
    by rewrite E1, E2.
  - intros Hr. assert (Hrin : r ∈ filter (λ r, hi <= offset r) l) by (rewrite Hr; left). apply list_elem_of_filter in Hrin as [Hr1 Hr2].
    specialize (IH Hr). rewrite !filter_cons. rewrite (decide_ext (lo < offset x + 1 ∧ offset x < offset r + 1) (lo < offset x + 1 ∧ offset x < hi)) by lia.
    case_decide; [|done]. rewrite !fmap_cons, IH. done.
Qed.
Lemma fetched_append lo hi l r : hi <= offset r → fetched lo hi (l ++ [r]) = fetched lo hi l.
Proof. intros H. unfold fetched. rewrite filter_app, filter_cons, decide_False by lia. by rewrite app_nil_r. Qed.

(** ** One partition *)

(** What concerns one partition. *)
Record Partition := mkPartition {
  p_buffer : list QueueEntry;
  p_paused : bool;
  p_acquired : bool;
  p_position : Z;
  p_resumed : bool;
  (** Acquired, but not placed yet. *)
  p_pending : bool;
  p_log : list KafkaRecord;
  p_floor : Z }.
Definition pending (i : nat) (w : World) : bool :=
  match jm_get i (acquires w) with Some (_, (GettingCursor | Resolving _ | Placing _)) => true | _ => false end.
Definition partition (i : nat) (w : World) : Partition :=
  let q := queues w in
  mkPartition (bufferFor i q) (bool_decide (i ∈ pausedByBackpressure q)) (bool_decide (i ∈ acquired q)) (position_of i q) (bool_decide (i ∈ resumed q)) (pending i w) (log_of i w) (floor_of i w).

Section partition.
Variable highWaterMark : nat.

Record partition_ok (p : Partition) : Prop := {
  pk_log : log_ascending (p_log p);
  pk_buffer : p_buffer p = fetched (p_floor p) (p_position p) (p_log p);
  pk_floor : p_floor p <= p_position p;
  pk_paused : p_paused p = true → p_acquired p = true ∧ p_pending p = false ∧ (highWaterMark < 2 * length (p_buffer p))%nat;
  pk_resumed : p_resumed p = true ↔ p_acquired p = true ∧ p_pending p = false ∧ p_paused p = false }.

Definition released (p : Partition) : Partition :=
  if p_acquired p then mkPartition [] false false (p_position p) false (p_pending p) (p_log p) (p_position p) else p.
Definition begun (p : Partition) : Partition := mkPartition (p_buffer p) (p_paused p) true (p_position p) (p_resumed p) true (p_log p) (p_floor p).
Definition placed (t : Z) (p : Partition) : Partition := mkPartition [] false true t true false (p_log p) t.
Definition failed (p : Partition) : Partition := mkPartition (p_buffer p) (p_paused p) false (p_position p) (p_resumed p) false (p_log p) (p_floor p).
Definition sought (t : Z) (p : Partition) : Partition := mkPartition [] false (p_acquired p) t (if p_paused p then true else p_resumed p) (p_pending p) (p_log p) t.
Definition received (r : KafkaRecord) (p : Partition) : Partition :=
  let buf := p_buffer p ++ [kafka_entry r] in
  let full := bool_decide (highWaterMark < length buf)%nat && negb (p_paused p) in
  mkPartition buf (full || p_paused p) (p_acquired p) (offset r + 1) (negb full && p_resumed p) (p_pending p) (p_log p) (p_floor p).
Definition was_read (c : Z) (p : Partition) : Partition :=
  let buf := drop_read c (p_buffer p) in
  let low := p_paused p && bool_decide (2 * length buf <= highWaterMark)%nat in
  mkPartition buf (negb low && p_paused p) (p_acquired p) (p_position p) (low || p_resumed p) (p_pending p) (p_log p) (Z.max (p_floor p) (Z.min c (p_position p))).
Definition appended (r : KafkaRecord) (p : Partition) : Partition :=
  mkPartition (p_buffer p) (p_paused p) (p_acquired p) (p_position p) (p_resumed p) (p_pending p) (p_log p ++ [r]) (p_floor p).

Lemma released_ok p : partition_ok p → partition_ok (released p).
Proof.
  intros Hp. unfold released. destruct (p_acquired p) eqn:Ha; [|done]. destruct Hp as [H1 H2 H3 H4 H5]. split; simpl; try done; [by rewrite fetched_nil by lia|]. split; [done|by intros (? & _)].
Qed.
Lemma begun_ok p : partition_ok p → p_acquired p = false → partition_ok (begun p).
Proof.
  intros [H1 H2 H3 H4 H5] Ha. split; simpl; try done.
  - intros Hp. destruct (H4 Hp); congruence.
  - rewrite H5. split; intros (? & ? & ?); congruence.
Qed.
Lemma placed_ok t p : partition_ok p → partition_ok (placed t p).
Proof. intros [H1 H2 H3 H4 H5]. split; simpl; try done. by rewrite fetched_nil by lia. Qed.
Lemma failed_ok p : partition_ok p → p_pending p = true → partition_ok (failed p).
Proof.
  intros [H1 H2 H3 H4 H5] Hp. split; simpl; try done.
  - intros Hb. destruct (H4 Hb) as (_ & ? & _). congruence.
  - rewrite H5. split; intros (? & ? & ?); congruence.
Qed.
Lemma sought_ok t p : partition_ok p → partition_ok (sought t p).
Proof.
  intros [H1 H2 H3 H4 H5]. split; simpl; try done; [by rewrite fetched_nil by lia|]. destruct (p_paused p); [|by rewrite H5].
  destruct (H4 eq_refl) as (? & ? & _). naive_solver.
Qed.
Lemma received_ok r l p : partition_ok p → p_resumed p = true → filter (λ r, p_position p <= offset r) (p_log p) = r :: l → partition_ok (received r p).
Proof.
  intros [H1 H2 H3 H4 H5] Hr Hf. assert (Hge : p_position p <= offset r).
  { assert (Hin : r ∈ filter (λ r, p_position p <= offset r) (p_log p)) by (rewrite Hf; left). by apply list_elem_of_filter in Hin as [? _]. }
  apply H5 in Hr as Hr'. destruct Hr' as (Ha & Hn & Hp). unfold received. rewrite Hp. split; simpl; try done.
  - rewrite (fetched_next _ (p_position p) _ r l) by done. by rewrite H2.
  - lia.
  - rewrite andb_true_r, orb_false_r. intros Hb. apply bool_decide_eq_true in Hb. split_and!; try done. lia.
  - rewrite andb_true_r, orb_false_r, Hr, andb_true_r, negb_true_iff. naive_solver.
Qed.
Lemma was_read_ok c p : partition_ok p → partition_ok (was_read c p).
Proof.
  intros [H1 H2 H3 H4 H5]. unfold was_read. rewrite H2, drop_fetched, fetched_min by done. split; simpl; try done.
  - lia.
  - intros [Hl Hp]%andb_true_iff. destruct (H4 Hp) as (? & ? & _). split_and!; try done. rewrite Hp in Hl. simpl in Hl. apply negb_true_iff, bool_decide_eq_false in Hl. lia.
  - destruct (p_paused p) eqn:Hp; simpl.
    + destruct (H4 eq_refl) as (? & ? & _). destruct (bool_decide _); simpl; [naive_solver|]. rewrite H5. naive_solver.
    + rewrite H5. naive_solver.
Qed.
Lemma appended_ok r p : partition_ok p → Forall (λ r', offset r' < offset r) (p_log p) → p_position p <= offset r → partition_ok (appended r p).
Proof.
  intros [H1 H2 H3 H4 H5] Hf Hle. split; simpl; try done; [|by rewrite H2, fetched_append].
  unfold log_ascending in *. clear -H1 Hf. induction H1 as [|x l H1 IH Hx]; [by repeat constructor|]. apply Forall_cons in Hf as [Hx' Hf]. constructor; [by apply IH|].
  apply Forall_app. by split; [|constructor].
Qed.
End partition.

(** ** The steps, partition by partition *)

Ltac at_partition :=
  unfold partition, bufferFor, position_of, log_of, floor_of, pending; simpl; f_equal;
  rewrite ?lookup_insert_eq, ?lookup_insert_ne, ?jm_get_set_eq, ?jm_get_set_ne by done;
  try done; try (apply bool_decide_ext; set_solver).

Lemma partition_release i j w : partition j (release_at i w) = if decide (i = j) then released (partition j w) else partition j w.
Proof.
  unfold release_at, release, released. simpl. case_decide as E.
  - subst j. case_bool_decide as Ha.
    + at_partition; [rewrite bool_decide_false by set_solver; done..].
    + at_partition.
  - case_bool_decide as Ha; at_partition.
Qed.

Lemma jm_get_app {K V} `{EqDecision K} (k : K) (l l' : list (K * V)) : jm_get k (l ++ l') = match jm_get k l with Some v => Some v | None => jm_get k l' end.
Proof. induction l as [|[k' v] l IH]; [done|]. simpl. by case_decide. Qed.

Lemma partition_begin i j a w : i ∉ acquired (queues w) → jm_get i (acquires w) = None →
  partition j (beginAcquire i a w) = if decide (i = j) then begun (partition j w) else partition j w.
Proof.
  intros Ha Hn. unfold beginAcquire, begun. rewrite (bool_decide_false _ Ha). case_decide as E.
  - subst j. at_partition; [rewrite bool_decide_true by set_solver; done|]. rewrite jm_get_app, Hn. simpl. by rewrite decide_True.
  - at_partition. rewrite jm_get_app. simpl. rewrite decide_False by done. by destruct (jm_get j (acquires w)).
Qed.

Lemma partition_stage i j a s w : is_Some (jm_get i (acquires w)) → (match s with Acquired | Failed => false | _ => true end) = pending i w →
  partition j (with_acquires (jm_set i (a, s) (acquires w)) w) = partition j w.
Proof.
  intros Hs Hp. destruct (decide (i = j)) as [<-|E]; at_partition.
Qed.
Lemma partition_settled i j w w' : queues w' = queues w → log w' = log w → floors w' = floors w → acquires w' = jm_delete i (acquires w) → pending i w = false → partition j w' = partition j w.
Proof.
  intros H1 H2 H3 H4 H5. unfold partition, log_of, floor_of. rewrite H1, H2, H3. f_equal. unfold pending in *. rewrite H4, jm_get_delete. case_decide; [by subst|done].
Qed.
Lemma partition_place i j t a w : i ∈ acquired (queues w) → is_Some (jm_get i (acquires w)) →
  partition j (with_acquires (jm_set i (a, Acquired) (acquires w)) (with_floor i t (with_queues (place i t (queues w)) w))) =
  if decide (i = j) then placed t (partition j w) else partition j w.
Proof.
  intros Ha Hs. unfold place, seekAndResetBuffer, placed. case_decide as E.
  - subst j. at_partition; (rewrite bool_decide_true by set_solver; done) || (rewrite bool_decide_false by set_solver; done).
  - at_partition.
Qed.
Lemma partition_fails i j a w : is_Some (jm_get i (acquires w)) →
  partition j (with_acquires (jm_set i (a, Failed) (acquires w)) (with_queues (with_acquired (acquired (queues w) ∖ {[i]}) (queues w)) w)) =
  if decide (i = j) then failed (partition j w) else partition j w.
Proof.
  intros Hs. unfold failed, with_acquired. case_decide as E.
  - subst j. at_partition. rewrite bool_decide_false by set_solver. done.
  - at_partition.
Qed.
Lemma partition_seek i j t w : partition j (with_floor i t (with_queues (seek_place i t (queues w)) w)) = if decide (i = j) then sought t (partition j w) else partition j w.
Proof.
  unfold seek_place, seekAndResetBuffer, sought. simpl. case_decide as E.
  - subst j. case_bool_decide as Hp.
    + at_partition; (rewrite bool_decide_true by set_solver; done) || (rewrite bool_decide_false by set_solver; done).
    + at_partition. by rewrite bool_decide_false.
  - case_bool_decide as Hp; at_partition.
Qed.
Lemma fetch_deleted H i w : position_of i (queues w) < earliest_of i w → fetch H i w = w.
Proof. intros Hd. unfold fetch. by rewrite bool_decide_true. Qed.
Lemma partition_fetch H i j w : earliest_of i w <= position_of i (queues w) → partition j (fetch H i w) =
  match filter (λ r, position_of i (queues w) <= offset r) (log_of i w) with
  | r :: _ => if decide (i = j ∧ i ∈ resumed (queues w)) then received H r (partition j w) else partition j w
  | [] => partition j w
  end.
Proof.
  intros He. unfold fetch. rewrite bool_decide_false by lia. destruct (filter _ _) as [|r l]; [done|]. case_bool_decide as Hr; [|by rewrite decide_False by naive_solver].
  destruct (decide (i = j)) as [<-|E].
  - rewrite decide_True by done. unfold onMessage, received. simpl. case_bool_decide as Hf; case_bool_decide as Hp; at_partition; simpl; repeat case_bool_decide; set_solver.
  - rewrite decide_False by naive_solver. unfold onMessage. simpl. case_bool_decide as Hf; case_bool_decide as Hp; at_partition.
Qed.
Lemma partition_read H i j c n w : partition j (read H i c n w).1 = if decide (i = j) then was_read H c (partition j w) else partition j w.
Proof.
  unfold read, readAfter, was_read. simpl. case_decide as E.
  - subst j. case_bool_decide as Hp; case_bool_decide as Hf; at_partition; simpl; repeat case_bool_decide; set_solver.
  - case_bool_decide as Hp; case_bool_decide as Hf; at_partition.
Qed.
Lemma read_batch H i c n w : (read H i c n w).2 = take n (drop_read c (bufferFor i (queues w))).
Proof. done. Qed.

(** ** Owner, client and agents together *)

Record owner_ok (rest : list nat) (w : World) : Prop := {
  ow_wanted : NoDup (wanted (owner w));
  ow_nodup : NoDup (owned (owner w));
  ow_sub : ∀ i, i ∈ owned (owner w) → i ∈ wanted (owner w);
  ow_acquires : (acquires w).*1 = acquiring (owner w);
  ow_once : NoDup (acquiring (owner w));
  ow_disj : ∀ i, i ∈ owned (owner w) → i ∉ acquiring (owner w);
  ow_client : ∀ i, i ∈ acquired (queues w) ↔ i ∈ owned (owner w) ∨ ∃ a s, jm_get i (acquires w) = Some (a, s) ∧ s ≠ Failed;
  ow_agents : agents w = if stopped (owner w) then [] else owned (owner w);
  (** But for the rest: what is wanted is owned, or on the way. *)
  ow_live : stopped (owner w) = false → ∀ i, i ∈ wanted (owner w) → i ∈ rest ∨ i ∈ owned (owner w) ∨ i ∈ acquiring (owner w) ∨ i ∈ (sleeps w).*1 }.

Lemma set_of_spec l : NoDup (set_of l) ∧ ∀ i, i ∈ set_of l ↔ i ∈ l.
Proof.
  assert (H : ∀ s, NoDup s → let r := foldl (λ s x, if bool_decide (x ∈ s) then s else s ++ [x]) s l in NoDup r ∧ ∀ i, i ∈ r ↔ i ∈ s ∨ i ∈ l).
  - induction l as [|x l IH]; intros s Hs; [split; [done|]; intros i; rewrite elem_of_nil; naive_solver|]. simpl. case_bool_decide as Hx.
    + destruct (IH s Hs) as [H1 H2]. split; [done|]. intros i. rewrite H2, elem_of_cons. naive_solver.
    + destruct (IH (s ++ [x])) as [H1 H2]; [apply NoDup_app; split; [done|]; split; [set_solver|apply NoDup_singleton]|]. split; [done|]. intros i. rewrite H2. set_solver.
  - destruct (H [] (NoDup_nil_2)) as [H1 H2]. split; [done|]. intros i. unfold set_of. rewrite H2, elem_of_nil. naive_solver.
Qed.

Lemma acquires_key rest w i : owner_ok rest w → is_Some (jm_get i (acquires w)) ↔ i ∈ acquiring (owner w).
Proof.
  intros Hok. rewrite <- (ow_acquires _ _ Hok). split.
  - intros [v Hv]. apply jm_get_Some_elem in Hv. by apply (list_elem_of_fmap_2 fst) in Hv.
  - intros Hi. destruct (jm_get i (acquires w)) as [v|] eqn:E; [by eexists|]. by apply jm_get_None in E.
Qed.
Lemma acquires_none rest w i : owner_ok rest w → i ∉ acquiring (owner w) → jm_get i (acquires w) = None.
Proof. intros Hok Hi. destruct (jm_get i (acquires w)) eqn:E; [|done]. destruct Hi. apply (acquires_key rest w i Hok). by rewrite E. Qed.

Lemma begin_acquired rest w i : owner_ok rest w → i ∉ owned (owner w) → i ∉ acquiring (owner w) →
  i ∉ acquired (queues w) ∧ jm_get i (acquires w) = None.
Proof.
  intros Hok Ho Ha. pose proof (acquires_none rest w i Hok Ha) as Hn. split; [|done]. rewrite (ow_client _ _ Hok), Hn. intros [?|(? & ? & ? & _)]; done.
Qed.
Lemma begin_ok rest w i a : owner_ok (i :: rest) w → i ∉ owned (owner w) → i ∉ acquiring (owner w) → owner_ok rest (beginAcquire i a w).
Proof.
  intros Hok Ho Ha. destruct (begin_acquired _ _ _ Hok Ho Ha) as [Hc Hn]. unfold beginAcquire. rewrite (bool_decide_false _ Hc). destruct Hok as [H1 H2 H3 H4 H5 H6 H7 H8 H9]. split; simpl; try done.
  - by rewrite fmap_app, H4.
  - apply NoDup_app. split; [done|]. split; [set_solver|apply NoDup_singleton].
  - intros j Hj. rewrite not_elem_of_app. split; [by apply H6|]. intros ->%list_elem_of_singleton. done.
  - intros j. rewrite elem_of_union, elem_of_singleton, H7, jm_get_app. simpl. split.
    + intros [->|[?|(a' & s & Hs & ?)]]; [|by left|]; right.
      * exists a, GettingCursor. by rewrite Hn, decide_True.
      * exists a', s. by rewrite Hs.
    + intros [?|(a' & s & Hs & ?)]; [by right; left|]. destruct (jm_get j (acquires w)) as [[a2 s2]|] eqn:E; [right; right; injection Hs as -> ->; by exists a', s|].
      case_decide; [by left|done].
  - intros Hst j Hj. specialize (H9 Hst j Hj). rewrite elem_of_cons in H9. set_solver.
Qed.

Section world.
Variable highWaterMark : nat.

Definition world_ok (rest : list nat) (w : World) : Prop := owner_ok rest w ∧ ∀ i, partition_ok highWaterMark (partition i w).

Lemma begin_world_ok rest w i a : world_ok (i :: rest) w → i ∉ owned (owner w) → i ∉ acquiring (owner w) → world_ok rest (beginAcquire i a w).
Proof.
  intros [Hok Hp] Ho Ha. destruct (begin_acquired _ _ _ Hok Ho Ha) as [Hc Hn]. split; [by apply begin_ok|]. intros j. rewrite partition_begin by done.
  case_decide; [subst j|done]. apply begun_ok; [done|]. simpl. by apply bool_decide_false.
Qed.
Lemma want_world_ok l : ∀ w, world_ok l w → world_ok [] (foldl want_one w l).
Proof.
  induction l as [|i l IH]; intros w Hw; [done|]. simpl. apply IH. unfold want_one. destruct (bool_decide (i ∈ owned (owner w)) || bool_decide (i ∈ acquiring (owner w))) eqn:E.
  - destruct Hw as [[H1 H2 H3 H4 H5 H6 H7 H8 H9] Hp]. split; [|done]. split; try done. intros Hst j Hj. apply orb_true_iff in E. rewrite !bool_decide_eq_true in E.
    destruct (H9 Hst j Hj) as [[->|?]%elem_of_cons|?]; [right; naive_solver|by left|by right].
  - apply orb_false_iff in E as [E1%bool_decide_eq_false E2%bool_decide_eq_false]. by apply begin_world_ok.
Qed.

Lemma release_all l : ∀ w, let w' := foldl (λ w i, release_at i w) w l in
  owner w' = owner w ∧ acquires w' = acquires w ∧ sleeps w' = sleeps w ∧ agents w' = agents w ∧
  (∀ i, i ∈ acquired (queues w') ↔ i ∈ acquired (queues w) ∧ i ∉ l) ∧
  ((∀ i, partition_ok highWaterMark (partition i w)) → ∀ i, partition_ok highWaterMark (partition i w')).
Proof.
  induction l as [|i l IH]; intros w; [split_and!; try done; set_solver|]. destruct (IH (release_at i w)) as (H1 & H2 & H3 & H4 & H5 & H6). simpl in *. split_and!; try done.
  - intros j. rewrite H5, not_elem_of_cons. unfold release. case_bool_decide; simpl; set_solver.
  - intros Hp. apply H6. intros j. rewrite partition_release. case_decide; [|done]. by apply released_ok.
Qed.

Lemma set_wanted_ok indices w : world_ok [] w → world_ok [] (setWanted indices w).
Proof.
  intros [Hok Hp]. unfold setWanted. destruct (set_of_spec indices) as [Hnd Hin]. set (want := set_of indices) in *. set (gone := filter (λ i, i ∉ want) (owned (owner w))).
  set (w1 := with_owner _ w). destruct (release_all gone w1) as (E1 & E2 & E3 & E4 & E5 & E6). set (w2 := foldl (λ w i, release_at i w) w1 gone) in *. apply want_world_ok.
  destruct Hok as [H1 H2 H3 H4 H5 H6 H7 H8 H9].
  assert (Hgone : ∀ i, i ∈ gone ↔ i ∉ want ∧ i ∈ owned (owner w)) by (intros i; unfold gone; by rewrite list_elem_of_filter).
  assert (Hag : let w3 := if bool_decide (gone = []) then w2 else onOwnedChanged w2 in owner w3 = owner w1 ∧ acquires w3 = acquires w ∧ queues w3 = queues w2 ∧ sleeps w3 = sleeps w ∧
    agents w3 = (if stopped (owner w) then [] else filter (λ i, i ∈ want) (owned (owner w))) ∧ ∀ i, partition i w3 = partition i w2).
  { case_bool_decide as Hg.
    - split_and!; try done. rewrite E4. simpl. rewrite H8. destruct (stopped (owner w)); [done|]. symmetry. apply filter_every. intros i Hi.
      destruct (decide (i ∈ want)); [done|]. assert (Hx : i ∈ gone) by by apply (proj2 (Hgone i)). rewrite Hg in Hx. by apply not_elem_of_nil in Hx.
    - unfold onOwnedChanged. rewrite E1. simpl. destruct (stopped (owner w)) eqn:Hst; simpl; rewrite ?Hst; split_and!; try done; rewrite ?E4; simpl; by rewrite ?H8, ?Hst. }
  destruct Hag as (F1 & F2 & F3 & F4 & F5 & F6). set (w3 := if bool_decide (gone = []) then w2 else onOwnedChanged w2) in *. split.
  - split; rewrite ?F1, ?F2, ?F3, ?F4, ?F5; simpl; try done.
    + by apply NoDup_filter.
    + intros i [Hi _]%list_elem_of_filter. done.
    + intros i [_ Hi]%list_elem_of_filter. by apply H6.
    + intros i. rewrite E5, Hgone, list_elem_of_filter. simpl. rewrite H7. split.
      * intros [[Ho|Ha] Hn]; [left|by right]. split; [|done]. destruct (decide (i ∈ want)); [done|]. by destruct Hn.
      * intros [[Hw Ho]|Ha]; [split; [by left|naive_solver]|]. split; [by right|]. intros [_ Ho]. destruct Ha as (a & s & Ha & _). apply (H6 i Ho). rewrite <- H4.
        apply jm_get_Some_elem in Ha. by apply (list_elem_of_fmap_2 fst) in Ha.
    + intros _ i Hi. by left.
  - intros i. rewrite F6. apply E6. done.
Qed.

Lemma owner_frame rest w w' : owner_ok rest w → owner w' = owner w → (acquires w').*1 = (acquires w).*1 → agents w' = agents w → sleeps w' = sleeps w →
  (∀ i, i ∈ acquired (queues w') ↔ i ∈ owned (owner w) ∨ ∃ a s, jm_get i (acquires w') = Some (a, s) ∧ s ≠ Failed) → owner_ok rest w'.
Proof. intros [H1 H2 H3 H4 H5 H6 H7 H8 H9] E1 E2 E3 E4 E5. split; rewrite ?E1, ?E2, ?E3, ?E4; done. Qed.

Lemma stage_keys i a s w : is_Some (jm_get i (acquires w)) → (jm_set i (a, s) (acquires w)).*1 = (acquires w).*1.
Proof. intros [v Hv]. pose proof (jm_set_keys i (a, s) (acquires w)) as H. unfold jm_keys in H. rewrite H, decide_True; [done|]. apply jm_get_Some_elem in Hv. by apply (list_elem_of_fmap_2 fst) in Hv. Qed.

(** A call goes on to its next await, acquired or failed alike. *)
Lemma stage_owner rest w w' i a s s' : owner_ok rest w → jm_get i (acquires w) = Some (a, s) → s ≠ Failed → s' ≠ Failed →
  owner w' = owner w → acquires w' = jm_set i (a, s') (acquires w) → agents w' = agents w → sleeps w' = sleeps w → acquired (queues w') = acquired (queues w) → owner_ok rest w'.
Proof.
  intros Hok Hi Hs Hs' E1 E2 E3 E4 E5. apply (owner_frame rest w); try done; [rewrite E2; apply stage_keys; by rewrite Hi|]. intros j. rewrite E5, E2, (ow_client _ _ Hok), jm_get_set.
  case_decide; [subst j|done]. rewrite Hi. split; (intros [?|_]; [by left|right]); eauto.
Qed.

(** A call that settled is forgotten. *)
Definition settled (i : nat) (w : World) : World :=
  with_acquires (jm_delete i (acquires w)) (with_owner (mkOwner (wanted (owner w)) (owned (owner w)) (filter (λ j, j ≠ i) (acquiring (owner w))) (stopped (owner w))) w).
Lemma settled_keys i (l : list (nat * (nat * Acquire))) : (jm_delete i l).*1 = filter (λ j, j ≠ i) l.*1.
Proof.
  unfold jm_delete. induction l as [|[j v] l IH]; [done|]. rewrite fmap_cons, !filter_cons. simpl. by case_decide; rewrite ?fmap_cons, IH.
Qed.
Lemma settled_get i j w : jm_get j (acquires (settled i w)) = if decide (i = j) then None else jm_get j (acquires w).
Proof. apply jm_get_delete. Qed.
Lemma partition_settled_at i j w : pending i w = false → partition j (settled i w) = partition j w.
Proof. intros Hp. by apply (partition_settled i). Qed.

(** Once it is settled, it is adopted, released or left to a retry. *)
Lemma settled_ok w w' i a s : owner_ok [] w → jm_get i (acquires w) = Some (a, s) →
  wanted (owner w') = wanted (owner w) → acquiring (owner w') = filter (λ j, j ≠ i) (acquiring (owner w)) → stopped (owner w') = stopped (owner w) → acquires w' = jm_delete i (acquires w) →
  NoDup (owned (owner w')) → (∀ j, j ∈ owned (owner w') ↔ j ∈ owned (owner w) ∨ j = i ∧ i ∈ wanted (owner w) ∧ i ∈ acquired (queues w')) →
  (∀ j, j ∈ acquired (queues w') ↔ j ∈ acquired (queues w) ∧ (j = i → i ∈ owned (owner w'))) →
  agents w' = (if stopped (owner w) then [] else owned (owner w')) →
  (stopped (owner w) = false → i ∈ wanted (owner w) → i ∈ owned (owner w') ∨ i ∈ (sleeps w').*1) → (∀ j, j ∈ (sleeps w).*1 → j ∈ (sleeps w').*1) → owner_ok [] w'.
Proof.
  intros Hok Hi E1 E2 E3 E4 Hnd Ho Ha Hag Hl Hs. assert (Hia : i ∈ acquiring (owner w)) by (apply (acquires_key [] w i Hok); by rewrite Hi).
  destruct Hok as [H1 H2 H3 H4 H5 H6 H7 H8 H9]. split; rewrite ?E1, ?E2, ?E3, ?E4; try done.
  - intros j Hj. apply Ho in Hj as [Hj|(-> & ? & _)]; [by apply H3|done].
  - by rewrite settled_keys, H4.
  - by apply NoDup_filter.
  - intros j Hj. rewrite list_elem_of_filter. intros [Hne Hj']. apply Ho in Hj as [Hj|[-> _]]; [by apply (H6 j)|done].
  - intros j. rewrite Ha, H7, jm_get_delete. destruct (decide (i = j)) as [<-|Hne].
    + split; [intros [_ Hx]; left; by apply Hx|]. intros [Hx|(? & ? & ? & _)]; [|done]. split; [|done].
      apply Ho in Hx as [Hx|(_ & _ & Hx)]; [by left|]. apply Ha in Hx as [Hx _]. by apply H7.
    + specialize (Ho j). naive_solver.
  - intros Hst j Hj. destruct (decide (j = i)) as [->|Hne]; [destruct (Hl Hst Hj); naive_solver|].
    destruct (H9 Hst j Hj) as [?|[Hx|[Hx|Hx]]]; [by left|right; left; by apply Ho; left| |right; right; right; by apply Hs].
    right; right; left. by apply list_elem_of_filter.
Qed.

Lemma set_stage_ok w i a s s' : world_ok [] w → jm_get i (acquires w) = Some (a, s) → s ≠ Failed →
  (match s' with Acquired | Failed => false | _ => true end) = pending i w → s' ≠ Failed → world_ok [] (with_acquires (jm_set i (a, s') (acquires w)) w).
Proof.
  intros [Hok Hp] Hi Hs Hs' Hf. split; [by eapply (stage_owner [] w _ i a s s')|]. intros j. rewrite partition_stage; [done|by rewrite Hi|done].
Qed.

Lemma acquire_step_ok i w : world_ok [] w → world_ok [] (acquire_step i w).
Proof.
  intros Hw. pose proof Hw as [Hok Hp]. unfold acquire_step. destruct (jm_get i (acquires w)) as [[a s]|] eqn:Hi; [|done]. fold (settled i w).
  assert (Hown : i ∈ acquiring (owner w)) by (apply (acquires_key [] w i Hok); by rewrite Hi).
  assert (Hno : i ∉ owned (owner w)) by (intros Ho; by apply (ow_disj _ _ Hok i)).
  assert (Hacq : s ≠ Failed → i ∈ acquired (queues w)) by (intros Hs; apply (ow_client _ _ Hok); right; by exists a, s).
  assert (Hpend : pending i w = match s with Acquired | Failed => false | _ => true end) by (unfold pending; rewrite Hi; by destruct s).
  destruct s as [|c|t| |].
  - by eapply set_stage_ok.
  - by eapply set_stage_ok.
  - rewrite bool_decide_true by by apply Hacq. split; [by eapply (stage_owner [] w _ i a (Placing t) Acquired)|]. intros j. cbn [acquires with_floor with_queues]. rewrite partition_place by (rewrite ?Hi; by auto).
    case_decide; [by apply placed_ok|done].
  - specialize (Hacq ltac:(done)). destruct (stopped (owner w) || bool_decide (i ∉ wanted (owner w))) eqn:Hr.
    + split.
      * apply (settled_ok w _ i a Acquired); try done; simpl; try apply Hok.
        -- intros j. split; [by left|]. intros [?|(-> & _ & Hx)]; [done|]. revert Hx. unfold release. rewrite bool_decide_true by done. simpl. set_solver.
        -- intros j. unfold release. rewrite bool_decide_true by done. simpl. set_solver.
        -- intros Hst Hwt. rewrite Hst in Hr. by apply bool_decide_eq_true in Hr.
      * intros j. rewrite partition_release, !partition_settled_at by done. destruct (decide (i = j)); [by apply released_ok|done].
    + apply orb_false_iff in Hr as [Hst Hwt%bool_decide_eq_false]. apply dec_stable in Hwt. unfold onOwnedChanged. simpl. rewrite Hst. rewrite (bool_decide_false _ Hno). split.
      * apply (settled_ok w _ i a Acquired); try done; simpl; try (by rewrite ?Hst).
        -- apply NoDup_app. split; [apply Hok|]. split; [set_solver|apply NoDup_singleton].
        -- intros j. set_solver.
        -- intros j. set_solver.
        -- intros _ _. left. set_solver.
      * intros j. change (partition_ok highWaterMark (partition j (settled i w))). by rewrite partition_settled_at.
  - destruct (stopped (owner w) || bool_decide (i ∉ wanted (owner w))) eqn:Hr.
    + split; [|intros j; by rewrite partition_settled_at]. apply (settled_ok w _ i a Failed); try done; simpl; try apply Hok.
      * intros j. split; [by left|]. intros [?|(-> & _ & Hx)]; [done|]. apply Hok in Hx as [Hx|(a' & s & Hx & Hs)]; [done|]. congruence.
      * intros j. split; [|by intros [? _]]. intros Hj. split; [done|]. intros ->. apply Hok in Hj as [Hx|(a' & s & Hx & Hs)]; [done|]. congruence.
      * intros Hst Hwt. rewrite Hst in Hr. by apply bool_decide_eq_true in Hr.
    + split; [|intros j; change (partition_ok highWaterMark (partition j (settled i w))); by rewrite partition_settled_at].
      apply (settled_ok w _ i a Failed); try done; simpl; try apply Hok.
      * intros j. split; [by left|]. intros [?|(-> & _ & Hx)]; [done|]. apply Hok in Hx as [Hx|(a' & s & Hx & Hs)]; [done|]. congruence.
      * intros j. split; [|by intros [? _]]. intros Hj. split; [done|]. intros ->. apply Hok in Hj as [Hx|(a' & s & Hx & Hs)]; [done|]. congruence.
      * intros _ _. right. rewrite fmap_app. set_solver.
      * intros j Hj. rewrite fmap_app. set_solver.
Qed.

Lemma acquire_fails_ok i w : world_ok [] w → world_ok [] (acquire_fails i w).
Proof.
  intros [Hok Hp]. unfold acquire_fails. destruct (jm_get i (acquires w)) as [[a s]|] eqn:Hi; [|done].
  assert (Hown : i ∈ acquiring (owner w)) by (apply (acquires_key [] w i Hok); by rewrite Hi).
  assert (Hno : i ∉ owned (owner w)) by (intros Ho; by apply (ow_disj _ _ Hok i)).
  assert (H : pending i w = true → world_ok [] (with_acquires (jm_set i (a, Failed) (acquires w)) (with_queues (with_acquired (acquired (queues w) ∖ {[i]}) (queues w)) w))).
  { intros Hpend. split.
    - apply (owner_frame [] w); try done; [simpl; apply stage_keys; by rewrite Hi|]. intros j. simpl. rewrite elem_of_difference, elem_of_singleton, (ow_client _ _ Hok), jm_get_set. split.
      + intros [[?|(a' & s' & ? & ?)] Hne]; [by left|right]. rewrite decide_False by done. by exists a', s'.
      + intros [Ho|(a' & s' & Hx & ?)]; [split; [by left|by intros ->]|]. case_decide; [congruence|]. split; [|done]. right. by exists a', s'.
    - intros j. rewrite partition_fails by by rewrite Hi. case_decide; [subst j; by apply failed_ok|done]. }
  destruct s; try done; apply H; unfold pending; by rewrite Hi.
Qed.

Lemma wake_ok k w : world_ok [] w → world_ok [] (wake k w).
Proof.
  intros [Hok Hp]. unfold wake. destruct (sleeps w !! k) as [[i a]|] eqn:Hk; [|done]. simpl.
  assert (Hdel : ∀ j, j ∈ (sleeps w).*1 → j = i ∨ j ∈ (delete k (sleeps w)).*1).
  { intros j Hj. rewrite (delete_Permutation _ _ _ Hk) in Hj. set_solver. }
  destruct (_ || _ || _ || _) eqn:E.
  - split; [|done]. destruct Hok as [H1 H2 H3 H4 H5 H6 H7 H8 H9]. split; simpl; try done. intros Hst j Hj. destruct (H9 Hst j Hj) as [?|[?|[?|Hs]]]; auto.
    destruct (Hdel j Hs) as [->|?]; [|auto]. rewrite Hst in E. simpl in E. rewrite !orb_true_iff, !bool_decide_eq_true in E. naive_solver.
  - rewrite !orb_false_iff, !bool_decide_eq_false in E. destruct E as [[[Hst Hwt] Ho] Ha]. apply begin_world_ok; [|done..]. split; [|done].
    destruct Hok as [H1 H2 H3 H4 H5 H6 H7 H8 H9]. split; simpl; try done. intros _ j Hj. destruct (H9 Hst j Hj) as [?|[?|[?|Hs]]]; auto; [by apply not_elem_of_nil in H|].
    destruct (Hdel j Hs) as [->|?]; [left; left|auto].
Qed.

(** Steps that only touch one partition. *)
Lemma partition_world_ok w w' : world_ok [] w → owner w' = owner w → acquires w' = acquires w → agents w' = agents w → sleeps w' = sleeps w → acquired (queues w') = acquired (queues w) →
  (∀ i, partition_ok highWaterMark (partition i w')) → world_ok [] w'.
Proof. intros [Hok _] E1 E2 E3 E4 E5 Hp. split; [|done]. apply (owner_frame [] w); try done; [by rewrite E2|]. intros i. rewrite E5, E2. apply Hok. Qed.

Lemma seek_step_ok k w : world_ok [] w → world_ok [] (seek_step k w).
Proof.
  intros Hw. pose proof Hw as [_ Hp]. unfold seek_step. destruct (seeks w !! k) as [[[i c] [| |t]]|] eqn:Hk; [| | |done].
  - case_bool_decide; by apply (partition_world_ok w).
  - by apply (partition_world_ok w).
  - case_bool_decide; [|by apply (partition_world_ok w)]. apply (partition_world_ok w); try done.
    + simpl. unfold seek_place. simpl. by case_bool_decide.
    + intros j. rewrite partition_seek. case_decide; [apply sought_ok|]; exact (Hp j).
Qed.
Lemma fetch_ok i w : world_ok [] w → world_ok [] (fetch highWaterMark i w).
Proof.
  intros Hw. pose proof Hw as [_ Hp]. apply (partition_world_ok w); try done; try (unfold fetch; case_bool_decide; [done|]; destruct (filter _ _); [done|]; by case_bool_decide).
  intros j. destruct (Z.lt_ge_cases (position_of i (queues w)) (earliest_of i w)); [by rewrite fetch_deleted|]. rewrite partition_fetch by done. destruct (filter _ _) as [|r l] eqn:Hr; [done|]. case_decide as Hd; [|done]. destruct Hd as [<- Hres]. eapply received_ok; [done|by apply bool_decide_true|done].
Qed.
Lemma kafka_read_ok i c n w : world_ok [] w → world_ok [] (read highWaterMark i c n w).1.
Proof. intros Hw. pose proof Hw as [_ Hp]. apply (partition_world_ok w); try done. intros j. rewrite partition_read. case_decide; [subst j; by apply was_read_ok|done]. Qed.

Lemma stop_owner_ok w : world_ok [] w → world_ok [] (stop_owner w).
Proof. intros [[H1 H2 H3 H4 H5 H6 H7 H8 H9] Hp]. split; [|done]. by split. Qed.

Lemma kafka_step_ok w o : world_ok [] w → world_ok [] (kafka_step highWaterMark w o).
Proof.
  intros Hw. pose proof Hw as [_ Hp]. destruct o as [l| |i|i|k|i c|k|k|i|i c n|i c|i r|i o]; simpl.
  - by apply set_wanted_ok.
  - by apply stop_owner_ok.
  - by apply acquire_step_ok.
  - by apply acquire_fails_ok.
  - by apply wake_ok.
  - by apply (partition_world_ok w).
  - by apply seek_step_ok.
  - destruct (seeks w !! k) as [[[i c] [| |t]]|]; by apply (partition_world_ok w).
  - by apply fetch_ok.
  - exact (kafka_read_ok i c n w Hw).
  - by apply (partition_world_ok w).
  - case_bool_decide as Hr; [|done]. destruct Hr as [Hr Hle]. apply (partition_world_ok w); try done. intros j. destruct (decide (i = j)) as [<-|Hne].
    + assert (E : partition i (mkWorld (owner w) (queues w) (acquires w) (sleeps w) (seeks w) (agents w) (cursors w) (<[i := log_of i w ++ [r]]> (log w)) (earliest w) (floors w)) = appended r (partition i w)).
      { unfold appended. at_partition. }
      rewrite E. by apply appended_ok.
    + assert (E : partition j (mkWorld (owner w) (queues w) (acquires w) (sleeps w) (seeks w) (agents w) (cursors w) (<[i := log_of i w ++ [r]]> (log w)) (earliest w) (floors w)) = partition j w) by at_partition.
      by rewrite E.
  - by apply (partition_world_ok w).
Qed.

Lemma new_kafka_ok start cs : world_ok [] (new_world start cs).
Proof.
  split.
  - split; try done; try apply NoDup_nil_2; try (by intros i ?%not_elem_of_nil); try (by intros _ i ?%not_elem_of_nil). intros i. simpl. split; [set_solver|]. intros [?%not_elem_of_nil|(? & ? & ? & _)]; done.
  - intros i. split; simpl; [constructor| | |done|].
    + unfold bufferFor, log_of. simpl. by rewrite !lookup_empty.
    + unfold floor_of, position_of. simpl. lia.
    + split; [|by intros (? & _)]. intros Hr. by apply bool_decide_eq_true in Hr.
Qed.
Lemma kafka_run_ok ops : ∀ w, world_ok [] w → world_ok [] (kafka_run highWaterMark w ops).
Proof. induction ops as [|o ops IH]; intros w Hw; [done|]. apply IH. by apply kafka_step_ok. Qed.
End world.

(** ** Polling a partition to its end *)

(** The entries of a log after a cursor. *)
Definition after (c : Z) (l : list KafkaRecord) : list QueueEntry := kafka_entry <$> filter (λ r, c < offset r + 1) l.

Section polls.
Variable highWaterMark : nat.

(** What an agent does with a partition, over and over: Kafka hands on a record if the
    partition is not paused, then the agent reads after the last entry it was given. *)
Definition poll (i n : nat) (wc : World * Z) : World * Z * list QueueEntry :=
  let '(w, batch) := read highWaterMark i wc.2 n (fetch highWaterMark i wc.1) in
  (w, match last batch with Some e => token e | None => wc.2 end, batch).
Fixpoint polls (k i n : nat) (wc : World * Z) : list QueueEntry :=
  match k with O => [] | S k => let '(wc, batch) := poll i n wc in batch ++ polls k i n wc end.

Definition unfetched (p : Partition) : list KafkaRecord := filter (λ r, p_position p <= offset r) (p_log p).
Definition fetch_one (p : Partition) : Partition :=
  match unfetched p with r :: _ => if p_resumed p then received highWaterMark r p else p | [] => p end.
Lemma partition_fetch_one i w : earliest_of i w <= position_of i (queues w) → partition i (fetch highWaterMark i w) = fetch_one (partition i w).
Proof.
  intros He. rewrite partition_fetch by done. unfold fetch_one, unfetched. change (p_position (partition i w)) with (position_of i (queues w)). change (p_log (partition i w)) with (log_of i w).
  destruct (filter _ _); [done|]. change (p_resumed (partition i w)) with (bool_decide (i ∈ resumed (queues w))).
  case_bool_decide as Hr; [by rewrite decide_True|by rewrite decide_False by naive_solver].
Qed.
Lemma fetch_one_ok p : partition_ok highWaterMark p → partition_ok highWaterMark (fetch_one p).
Proof.
  intros Hp. unfold fetch_one. destruct (unfetched p) as [|r l] eqn:Hu; [done|]. destruct (p_resumed p) eqn:Hr; [|done]. by eapply received_ok.
Qed.
Lemma fetch_one_fields p : p_log (fetch_one p) = p_log p ∧ p_acquired (fetch_one p) = p_acquired p ∧ p_pending (fetch_one p) = p_pending p ∧ p_floor (fetch_one p) = p_floor p.
Proof. unfold fetch_one. destruct (unfetched p); [done|]. by destruct (p_resumed p). Qed.

Lemma fetch_one_position p : partition_ok highWaterMark p → p_position p <= p_position (fetch_one p).
Proof.
  intros Hp. unfold fetch_one. destruct (unfetched p) as [|r l] eqn:Hu; [lia|]. destruct (p_resumed p); [|lia]. simpl.
  assert (Hr : r ∈ unfetched p) by (rewrite Hu; left). apply list_elem_of_filter in Hr as [Hr _]. lia.
Qed.

Lemma after_fetched c hi l : log_ascending l → after c l = fetched c hi l ++ (kafka_entry <$> filter (λ r, c < offset r + 1 ∧ hi <= offset r) l).
Proof.
  unfold after, fetched, log_ascending. intros Hl. rewrite <- fmap_app. f_equal. induction Hl as [|r l Hl IH Hf]; [done|]. rewrite Forall_forall in Hf. rewrite !filter_cons.
  destruct (decide (offset r < hi)) as [Hlt|Hge].
  - rewrite (decide_False (P := c < offset r + 1 ∧ hi <= offset r)) by lia. destruct (decide (c < offset r + 1)); [rewrite decide_True by lia; simpl; by f_equal|by rewrite decide_False by lia].
  - rewrite (decide_False (P := c < offset r + 1 ∧ offset r < hi)) by lia. assert (E : filter (λ r, c < offset r + 1 ∧ offset r < hi) l = []) by (apply filter_no; intros y Hy; specialize (Hf y Hy); lia).
    rewrite E in *. simpl in *. destruct (decide (c < offset r + 1)); [rewrite decide_True by lia; by f_equal|by rewrite decide_False by lia].
Qed.
Lemma after_after c c' l : c <= c' → filter (λ e, c' < token e) (after c l) = after c' l.
Proof. intros H. unfold after. rewrite filter_fmap_kafka, list_filter_filter. f_equal. apply list_filter_iff. intros r. simpl. lia. Qed.
Lemma ascending_after c l : log_ascending l → ascending (after c l).
Proof.
  unfold log_ascending, ascending, after. induction 1 as [|r l Ha IH Hf]; [constructor|]. rewrite filter_cons. case_decide; [|done]. simpl. constructor; [done|].
  apply Forall_fmap, Forall_forall. intros x [_ Hx]%list_elem_of_filter. rewrite Forall_forall in Hf. specialize (Hf x Hx). simpl. lia.
Qed.
(** Of an ascending list, what comes after its first part. *)
Lemma ascending_cut b t e : ascending (b ++ t) → last b = Some e → filter (λ x, token e < token x) (b ++ t) = t ∧ Forall (λ x, token e < token x) t.
Proof.
  unfold ascending. intros Ha Hl. apply last_Some in Hl as [b' ->]. rewrite <- app_assoc in *. simpl in *. induction b' as [|x b' IH]; simpl in *.
  - inversion Ha as [|? ? Ha' Hf]; subst. rewrite filter_cons, decide_False by lia. split; [|done]. apply filter_every. rewrite Forall_forall in Hf. exact Hf.
  - inversion Ha as [|? ? Ha' Hf]; subst. destruct (IH Ha') as [IH1 IH2]. rewrite filter_cons, decide_False; [done|]. rewrite Forall_forall in Hf. specialize (Hf e). assert (token x < token e); [apply Hf; set_solver|lia].
Qed.

Definition poll_measure (c : Z) (p : Partition) : nat := (length (after c (p_log p)) + length (unfetched p) + if p_resumed p then 0 else 1)%nat.

Lemma unfetched_next p r l : unfetched p = r :: l → log_ascending (p_log p) → length (filter (λ x, offset r + 1 <= offset x) (p_log p)) = length l.
Proof.
  unfold unfetched. intros Hu Hl. revert Hu. induction Hl as [|x L Hl IH Hf]; [done|]. rewrite Forall_forall in Hf. rewrite filter_cons. case_decide as Hx.
  - intros [= -> <-]. rewrite filter_cons, decide_False by lia. f_equal. rewrite !filter_every; [done| |]; intros y Hy; specialize (Hf y Hy); lia.
  - intros Hu. specialize (IH Hu). assert (Hr : r ∈ filter (λ r, p_position p <= offset r) L) by (rewrite Hu; left). apply list_elem_of_filter in Hr as [_ Hr]. specialize (Hf r Hr).
    rewrite filter_cons, decide_False by lia. done.
Qed.

Lemma fetch_one_measure p : partition_ok highWaterMark p →
  (length (unfetched (fetch_one p)) + (if p_resumed p then if bool_decide (unfetched p = []) then 0 else 1 else 0) = length (unfetched p))%nat ∧
  (p_resumed p = false ∨ unfetched p = [] → fetch_one p = p).
Proof.
  intros Hp. unfold fetch_one. destruct (unfetched p) as [|r l] eqn:Hu; [rewrite Hu; by destruct (p_resumed p)|]. destruct (p_resumed p) eqn:Hr.
  - split; [|by intros [?|?]]. rewrite bool_decide_false by done. unfold unfetched. simpl. rewrite (unfetched_next p r l Hu (pk_log _ _ Hp)). simpl. lia.
  - rewrite Hu. split; [lia|done].
Qed.

Lemma poll_spec p c n : partition_ok highWaterMark p → p_acquired p = true → p_pending p = false → p_floor p <= c → (1 <= n)%nat →
  let p1 := fetch_one p in let b := take n (drop_read c (p_buffer p1)) in let c' := match last b with Some e => token e | None => c end in let p2 := was_read highWaterMark c p1 in
  after c (p_log p) = b ++ after c' (p_log p) ∧ p_floor p2 <= c' ∧ (poll_measure c' p2 < poll_measure c p ∨ poll_measure c' p2 = 0)%nat.
Proof.
  intros Hp Ha Hnp Hfl Hn p1 b c' p2. pose proof (fetch_one_ok p Hp) as Hp1. fold p1 in Hp1. destruct (fetch_one_fields p) as (El & Ea & En & Ef). fold p1 in El, Ea, En, Ef.
  destruct (fetch_one_measure p Hp) as [Hm Hsame]. fold p1 in Hm, Hsame.
  assert (Hbuf : drop_read c (p_buffer p1) = fetched c (p_position p1) (p_log p)).
  { rewrite (pk_buffer _ _ Hp1), drop_fetched by apply Hp1. rewrite El, Ef. by rewrite Z.max_r. }
  pose proof (after_fetched c (p_position p1) (p_log p) (pk_log _ _ Hp)) as Hafter. set (rest := kafka_entry <$> filter _ _) in Hafter.
  assert (Eb : b = take n (fetched c (p_position p1) (p_log p))) by (unfold b; by rewrite Hbuf).
  assert (Hlog2 : p_log p2 = p_log p) by done. assert (Hu2 : unfetched p2 = unfetched p1) by done.
  assert (Hfloor2 : p_floor p2 <= c) by (unfold p2, was_read; simpl; rewrite Ef; lia).
  destruct (last b) as [e|] eqn:Hlast.
  - assert (Hsplit : after c (p_log p) = b ++ (drop n (fetched c (p_position p1) (p_log p)) ++ rest)) by (rewrite Eb, app_assoc, take_drop; exact Hafter).
    pose proof (ascending_after c (p_log p) (pk_log _ _ Hp)) as Has. rewrite Hsplit in Has. destruct (ascending_cut _ _ e Has Hlast) as [Hcut _].
    assert (Hce : c <= token e).
    { assert (He : e ∈ after c (p_log p)) by (rewrite Hsplit; apply last_Some in Hlast as [b' ->]; set_solver). unfold after in He. apply list_elem_of_fmap in He as (r & -> & [? _]%list_elem_of_filter). simpl. lia. }
    assert (Htail : after (token e) (p_log p) = drop n (fetched c (p_position p1) (p_log p)) ++ rest) by (rewrite <- (after_after c (token e)) by done; rewrite Hsplit; exact Hcut).
    unfold c'. rewrite Htail. split; [done|]. split; [lia|]. left. unfold poll_measure. rewrite Hlog2, Hu2, Hsplit, Htail, (length_app b).
    assert (Hlb : (1 <= length b)%nat) by (destruct b; [done|simpl; lia]). destruct (p_resumed p) eqn:Hr.
    + case_bool_decide as Hu; [|by destruct (p_resumed p2); lia]. assert (E2 : p_resumed p2 = true); [|rewrite E2; lia].
      unfold p2, was_read. simpl. rewrite Hsame by by right. rewrite Hr. apply orb_true_r.
    + destruct (p_resumed p2); lia.
  - apply last_None in Hlast. rewrite Hlast in Eb. symmetry in Eb. apply (f_equal length) in Eb as Hlen. rewrite length_take in Hlen. simpl in Hlen.
    assert (Hf0 : fetched c (p_position p1) (p_log p) = []) by (destruct (fetched c (p_position p1) (p_log p)); [done|simpl in Hlen; lia]).
    unfold c'. rewrite Hlast. split; [done|]. split; [done|].
    assert (E2 : p_resumed p2 = true).
    { unfold p2, was_read. cbn [p_resumed]. rewrite Hbuf, Hf0. simpl. rewrite andb_true_r. pose proof (pk_resumed _ _ Hp1) as Hres. rewrite Ea, En in Hres.
      destruct (p_paused p1); [done|]. simpl. by apply Hres. }
    unfold poll_measure. rewrite Hlog2, Hu2, E2. destruct (p_resumed p) eqn:Hr; [|left; lia]. revert Hm. case_bool_decide as Hu; [|left; lia]. intros Hm. right.
    assert (Ep : p1 = p) by (apply Hsame; by right). rewrite Ep, Hu. rewrite Hf0 in Hafter. simpl in Hafter. rewrite Hafter.
    assert (Hrest : rest = []); [|by rewrite Hrest]. unfold rest. rewrite filter_no; [done|]. intros r Hr' [_ Hge]. rewrite Ep in Hge.
    assert (Hx : r ∈ unfetched p) by (unfold unfetched; by apply list_elem_of_filter). rewrite Hu in Hx. by apply not_elem_of_nil in Hx.
Qed.

Lemma polls_spec k : ∀ i n w c, world_ok highWaterMark [] w → i ∈ owned (owner w) → floor_of i w <= c → earliest_of i w <= position_of i (queues w) → (1 <= n)%nat → (poll_measure c (partition i w) <= k)%nat →
  polls k i n (w, c) = after c (log_of i w).
Proof.
  induction k as [|k IH]; intros i n w c Hw Hi Hf He Hn Hk.
  - simpl. unfold poll_measure in Hk. assert (Hl : length (after c (p_log (partition i w))) = 0%nat) by lia. apply nil_length_inv in Hl. by rewrite <- Hl.
  - pose proof Hw as [Hok Hp]. assert (Ha : p_acquired (partition i w) = true) by (simpl; apply bool_decide_true; apply (ow_client _ _ Hok); by left).
    assert (Hnp : p_pending (partition i w) = false) by (simpl; unfold pending; by rewrite (acquires_none [] w i Hok (ow_disj _ _ Hok i Hi))).
    destruct (poll_spec (partition i w) c n (Hp i) Ha Hnp Hf Hn) as (E1 & E2 & E3). change (p_log (partition i w)) with (log_of i w) in E1. rewrite E1.
    cbn [polls]. unfold poll. cbn [fst snd]. set (w1 := fetch highWaterMark i w). pose proof (partition_fetch_one i w He) as Ef. fold w1 in Ef.
    assert (Eb : (read highWaterMark i c n w1).2 = take n (drop_read c (p_buffer (fetch_one (partition i w))))) by by rewrite <- Ef.
    pose proof (partition_read highWaterMark i i c n w1) as Er. rewrite decide_True in Er by done. rewrite Ef in Er.
    pose proof (kafka_read_ok highWaterMark i c n w1 (fetch_ok highWaterMark i w Hw)) as Hw2. destruct (read highWaterMark i c n w1) as [w2 batch] eqn:Hrd. cbn [fst snd] in *. subst batch.
    f_equal. assert (Elog : log_of i w2 = log_of i w) by (change (p_log (partition i w2) = p_log (partition i w)); rewrite Er; simpl; apply fetch_one_fields).
    assert (Epos : earliest_of i w2 <= position_of i (queues w2)).
    { change (position_of i (queues w2)) with (p_position (partition i w2)). rewrite Er. cbn [was_read p_position].
      pose proof (fetch_one_position (partition i w) (Hp i)) as Hq. change (p_position (partition i w)) with (position_of i (queues w)) in Hq.
      assert (Ee : earliest_of i w2 = earliest_of i w); [|lia].
      change w2 with (w2, take n (drop_read c (p_buffer (fetch_one (partition i w))))).1. rewrite <- Hrd. unfold read, w1, fetch. simpl.
      case_bool_decide; [done|]. destruct (filter _ _); [done|]. by case_bool_decide. }
    rewrite <- Elog. apply IH; [done| |by rewrite <- Er in E2|done|done|rewrite Er; lia].
    assert (Eo : owner w2 = owner w); [|by rewrite Eo]. change w2 with (w2, take n (drop_read c (p_buffer (fetch_one (partition i w))))).1. rewrite <- Hrd. unfold read, w1, fetch. simpl.
    case_bool_decide; [done|]. destruct (filter _ _); [done|]. by case_bool_decide.
Qed.
End polls.

(** ** Acquiring what is wanted *)

(** Every call in flight goes on to its end, then every sleep ends, then the calls this
    starts go on to their end. *)
Definition finish (i : nat) (w : World) : World := Nat.iter 4 (acquire_step i) w.
Definition finish_all (w : World) : World := foldl (λ w i, finish i w) w (acquires w).*1.
Definition wake_all (w : World) : World := Nat.iter (length (sleeps w)) (wake 0) w.
Definition settle (w : World) : World := finish_all (wake_all (finish_all w)).

Section settle.
Variable highWaterMark : nat.
Notation world_ok := (world_ok highWaterMark []).

Definition left_of (s : Acquire) : nat := match s with GettingCursor => 4 | Resolving _ => 3 | Placing _ => 2 | Acquired | Failed => 1 end.

Lemma step_left w i a s : world_ok w → jm_get i (acquires w) = Some (a, s) → let w' := acquire_step i w in
  wanted (owner w') = wanted (owner w) ∧ stopped (owner w') = stopped (owner w) ∧ (s ≠ Failed → sleeps w' = sleeps w) ∧
  (∀ j, j ≠ i → jm_get j (acquires w') = jm_get j (acquires w)) ∧
  match s with
  | Acquired | Failed => jm_get i (acquires w') = None
  | _ => ∃ s', s' ≠ Failed ∧ (left_of s' < left_of s)%nat ∧ jm_get i (acquires w') = Some (a, s')
  end.
Proof.
  intros [Hok _] Hi w'. subst w'. unfold acquire_step. rewrite Hi.
  assert (Hne : ∀ j s', j ≠ i → jm_get j (jm_set i (a, s') (acquires w)) = jm_get j (acquires w)) by (intros; by rewrite jm_get_set_ne).
  assert (Hnd : ∀ j, j ≠ i → jm_get j (jm_delete i (acquires w)) = jm_get j (acquires w)) by (intros; by rewrite jm_get_delete_ne).
  destruct s as [|c|t| |]; simpl.
  - split_and!; auto. eexists. rewrite jm_get_set_eq. split; [|split; [|done]]; [done|simpl; lia].
  - split_and!; auto. eexists. rewrite jm_get_set_eq. split; [|split; [|done]]; [done|simpl; lia].
  - case_bool_decide; simpl; split_and!; auto; eexists; rewrite jm_get_set_eq; (split; [|split; [|done]]; [done|simpl; lia]).
  - destruct (_ || _) eqn:E; simpl; [|unfold onOwnedChanged; simpl; apply orb_false_iff in E as [E _]; rewrite E]; simpl; split_and!; auto; by apply jm_get_delete_eq.
  - destruct (_ || _); simpl; split_and!; auto; try done; by apply jm_get_delete_eq.
Qed.

Lemma steps_left n : ∀ w i, world_ok w → (∀ a s, jm_get i (acquires w) = Some (a, s) → (left_of s <= n)%nat) → let w' := Nat.iter n (acquire_step i) w in
  world_ok w' ∧ wanted (owner w') = wanted (owner w) ∧ stopped (owner w') = stopped (owner w) ∧
  (∀ j, j ≠ i → jm_get j (acquires w') = jm_get j (acquires w)) ∧ jm_get i (acquires w') = None ∧
  ((∀ a, jm_get i (acquires w) ≠ Some (a, Failed)) → sleeps w' = sleeps w).
Proof.
  induction n as [|n IH]; intros w i Hw Hl.
  - split_and!; try done. simpl. destruct (jm_get i (acquires w)) as [[a s]|] eqn:E; [|done]. specialize (Hl a s eq_refl). destruct s; simpl in Hl; lia.
  - cbn zeta. rewrite Nat.iter_succ_r. destruct (jm_get i (acquires w)) as [[a s]|] eqn:E.
    + destruct (step_left w i a s Hw E) as (H1 & H2 & H3 & H4 & H5). pose proof (acquire_step_ok highWaterMark i w Hw) as Hw'. destruct (IH (acquire_step i w) i Hw') as (I1 & I2 & I3 & I4 & I5 & I6).
      { intros a' s' Hs'. specialize (Hl a s eq_refl). destruct s; (destruct H5 as (s2 & ? & ? & ?); assert (s' = s2) by congruence; subst; lia) || congruence. }
      split_and!; try done; try congruence.
      * intros j Hj. rewrite I4 by done. by apply H4.
      * intros Hnf. rewrite I6; [apply H3; intros ->; by destruct (Hnf a)|]. intros a' Ha'. destruct s; (destruct H5 as (s2 & ? & ? & ?); congruence) || congruence.
    + assert (Es : acquire_step i w = w) by (unfold acquire_step; by rewrite E). rewrite Es. destruct (IH w i Hw) as (I1 & I2 & I3 & I4 & I5 & I6); [intros a s; by rewrite E|].
      split_and!; try done. intros _. apply I6. intros a. by rewrite E.
Qed.
Lemma finish_spec w i : world_ok w → let w' := finish i w in
  world_ok w' ∧ wanted (owner w') = wanted (owner w) ∧ stopped (owner w') = stopped (owner w) ∧
  (∀ j, j ≠ i → jm_get j (acquires w') = jm_get j (acquires w)) ∧ jm_get i (acquires w') = None ∧
  ((∀ a, jm_get i (acquires w) ≠ Some (a, Failed)) → sleeps w' = sleeps w).
Proof. intros Hw. refine (steps_left 4 w i Hw _). intros a s _. destruct s; simpl; lia. Qed.

Lemma finish_list l : ∀ w, world_ok w → let w' := foldl (λ w i, finish i w) w l in
  world_ok w' ∧ wanted (owner w') = wanted (owner w) ∧ stopped (owner w') = stopped (owner w) ∧
  (∀ j, jm_get j (acquires w') = if decide (j ∈ l) then None else jm_get j (acquires w)) ∧
  ((∀ i a, jm_get i (acquires w) ≠ Some (a, Failed)) → sleeps w' = sleeps w).
Proof.
  induction l as [|i l IH]; intros w Hw; [split_and!; try done; intros j; by rewrite decide_False by apply not_elem_of_nil|]. cbn [foldl].
  destruct (finish_spec w i Hw) as (H1 & H2 & H3 & H4 & H5 & H6). destruct (IH (finish i w) H1) as (I1 & I2 & I3 & I4 & I5). split_and!; try done; try congruence.
  - intros j. rewrite I4. destruct (decide (j ∈ l)); [by rewrite decide_True by by right|]. destruct (decide (j = i)) as [->|Hj]; [rewrite decide_True by left; done|].
    rewrite decide_False by (rewrite elem_of_cons; naive_solver). by apply H4.
  - intros Hnf. rewrite I5; [apply H6; intros a; apply Hnf|]. intros j a. destruct (decide (j = i)) as [->|Hj]; [by rewrite H5|rewrite H4 by done; apply Hnf].
Qed.
Lemma finish_all_spec w : world_ok w → let w' := finish_all w in
  world_ok w' ∧ wanted (owner w') = wanted (owner w) ∧ stopped (owner w') = stopped (owner w) ∧ acquires w' = [] ∧
  ((∀ i a, jm_get i (acquires w) ≠ Some (a, Failed)) → sleeps w' = sleeps w).
Proof.
  intros Hw. destruct (finish_list (acquires w).*1 w Hw) as (H1 & H2 & H3 & H4 & H5). split_and!; try done. fold (finish_all w) in *.
  destruct (acquires (finish_all w)) as [|[j v] l] eqn:E; [done|]. specialize (H4 j). simpl in H4. rewrite decide_True in H4 by done.
  destruct (decide (j ∈ (acquires w).*1)) as [|Hn]; [done|]. apply jm_get_None in Hn. congruence.
Qed.

Lemma wake_all_spec n : ∀ w, world_ok w → length (sleeps w) = n → (∀ i a, jm_get i (acquires w) ≠ Some (a, Failed)) → let w' := Nat.iter n (wake 0) w in
  world_ok w' ∧ wanted (owner w') = wanted (owner w) ∧ stopped (owner w') = stopped (owner w) ∧ sleeps w' = [] ∧ ∀ i a, jm_get i (acquires w') ≠ Some (a, Failed).
Proof.
  induction n as [|n IH]; intros w Hw Hn Hf; [split_and!; try done; by apply nil_length_inv|]. cbn zeta. rewrite Nat.iter_succ_r. pose proof (wake_ok highWaterMark 0 w Hw) as Hw'.
  assert (Hone : wanted (owner (wake 0 w)) = wanted (owner w) ∧ stopped (owner (wake 0 w)) = stopped (owner w) ∧ length (sleeps (wake 0 w)) = n ∧ ∀ i a, jm_get i (acquires (wake 0 w)) ≠ Some (a, Failed)).
  { unfold wake. destruct (sleeps w) as [|[i a] l] eqn:Es; [by rewrite ?Es in Hn|]. rewrite ?Es in Hn. simpl in *. destruct (_ || _ || _ || _); [split_and!; [done|done|simpl; lia|exact Hf]|]. unfold beginAcquire. simpl.
    case_bool_decide; simpl; (split_and!; [done|done|lia|]); intros j b; rewrite jm_get_app; specialize (Hf j b); (destruct (jm_get j (acquires w)); [done|]); simpl; by case_decide. }
  destruct Hone as (E1 & E2 & E3 & E4). destruct (IH (wake 0 w) Hw' E3 E4) as (I1 & I2 & I3 & I4 & I5). split_and!; try done; congruence.
Qed.
End settle.

(** ** Theorems *)

(** C36: whatever partitions come and go, whichever calls fail or overtake each other,
    and wherever other silos move the cursors: a read returns, from the first after its
    cursor on, what was fetched of the partition's log, with nothing left out above the
    place the consumer was put at or was read to; the agents are those of the owned
    partitions, each wanted and acquired; the consumer only runs for acquired
    partitions, and for an owned one it is held back only while there is something to
    read. An agent that goes on polling an owned partition is given every record of
    the log after its cursor, in order and once, on two conditions: its cursor is not
    below the place the consumer was last put at or was read to, as it is after a
    rewind at another silo ([Runs.rewind_elsewhere_not_seen]); and retention has not
    deleted the record the consumer is at, after which it is Kafka's where it goes on.
    Reads are of one entry at least, and no consumer is put past the end of its log. *)
Theorem kafka_partition_served H start cs ops i c n : (1 <= n)%nat → let w := kafka_run H (new_world start cs) ops in
  (read H i c n w).2 = take n (fetched (Z.max (floor_of i w) c) (position_of i (queues w)) (log_of i w)) ∧
  agents w = (if stopped (owner w) then [] else owned (owner w)) ∧
  (i ∈ resumed (queues w) → i ∈ acquired (queues w)) ∧
  (i ∈ owned (owner w) → i ∈ wanted (owner w) ∧ i ∈ acquired (queues w) ∧
    (i ∈ resumed (queues w) ∨ (H < 2 * length (bufferFor i (queues w)))%nat) ∧
    (floor_of i w <= c → earliest_of i w <= position_of i (queues w) → ∃ k, ∀ m, (k <= m)%nat → polls H m i n (w, c) = after c (log_of i w))).
Proof.
  intros Hn w. pose proof (kafka_run_ok H ops _ (new_kafka_ok H start cs)) as Hw. fold w in Hw. pose proof Hw as [Hok Hp]. specialize (Hp i). pose proof Hp as [P1 P2 P3 P4 P5].
  cbn [p_log p_buffer p_floor p_position p_paused p_acquired p_pending p_resumed partition] in P1, P2, P3, P4, P5. split_and!.
  - rewrite read_batch, P2. by rewrite drop_fetched.
  - apply Hok.
  - intros Hr. apply (bool_decide_true (i ∈ resumed (queues w))), P5 in Hr as (Ha & _). by apply bool_decide_eq_true in Ha.
  - intros Hi. assert (Ha : i ∈ acquired (queues w)) by (apply (ow_client _ _ Hok); by left). split_and!; [by apply (ow_sub _ _ Hok)|done| |].
    + destruct (decide (i ∈ pausedByBackpressure (queues w))) as [Hb|Hb]; [right; by apply P4, bool_decide_true|left]. apply (bool_decide_eq_true_1 (i ∈ resumed (queues w))), P5. split_and!; [by apply bool_decide_true| |by apply bool_decide_false].
      unfold pending. by rewrite (acquires_none [] w i Hok (ow_disj _ _ Hok i Hi)).
    + intros Hf He. exists (poll_measure c (partition i w)). intros m Hm. by apply polls_spec.
Qed.

(** C37: the partitions of a silo follow those it wants: from any state of a provider
    that was not stopped, once the calls in flight have ended, however they end, the
    retries have woken up and the calls these start have not failed, what it owns, and
    runs agents for, is what it wants, with no call or retry left. *)
Theorem owned_follows_wanted H start cs ops : let w := kafka_run H (new_world start cs) ops in let w' := settle w in
  stopped (owner w) = false →
  owned (owner w') ≡ₚ wanted (owner w) ∧ agents w' = owned (owner w') ∧ acquires w' = [] ∧ sleeps w' = [] ∧ ∀ i, i ∈ acquired (queues w') ↔ i ∈ wanted (owner w).
Proof.
  intros w w' Hst. pose proof (kafka_run_ok H ops _ (new_kafka_ok H start cs)) as Hw. fold w in Hw.
  destruct (finish_all_spec H w Hw) as (A1 & A2 & A3 & A4 & _). destruct (wake_all_spec H (length (sleeps (finish_all w))) (finish_all w) A1 eq_refl) as (B1 & B2 & B3 & B4 & B5); [by rewrite A4|].
  fold (wake_all (finish_all w)) in *. destruct (finish_all_spec H (wake_all (finish_all w)) B1) as (C1 & C2 & C3 & C4 & C5). fold (settle w) in *. fold w' in C1, C2, C3, C4, C5. specialize (C5 B5). rewrite B4 in C5.
  assert (Hst' : stopped (owner w') = false) by congruence. pose proof C1 as [Hok _]. assert (Hown : ∀ i, i ∈ owned (owner w') ↔ i ∈ wanted (owner w)).
  { intros i. assert (Ew : wanted (owner w') = wanted (owner w)) by congruence. split; [intros Hi; rewrite <- Ew; by apply (ow_sub _ _ Hok)|]. intros Hi. rewrite <- Ew in Hi. destruct (ow_live _ _ Hok Hst' i Hi) as [?|[?|[Ha|Hs]]]; [by apply not_elem_of_nil in H0|done| |].
    - rewrite <- (ow_acquires _ _ Hok), C4 in Ha. by apply not_elem_of_nil in Ha.
    - rewrite C5 in Hs. by apply not_elem_of_nil in Hs. }
  split_and!; try done.
  - apply NoDup_Permutation; [apply Hok|apply (ow_wanted _ _ (proj1 Hw))|exact Hown].
  - by rewrite (ow_agents _ _ Hok), Hst'.
  - intros i. rewrite (ow_client _ _ Hok), C4, Hown. simpl. naive_solver.
Qed.

(** ** Concrete runs *)

Module Runs.
Definition rec (o : Z) : KafkaRecord := mkRecord o "orders/a" "e".
Definition acquire (i : nat) : list Op := [AcquireStep i; AcquireStep i; AcquireStep i; AcquireStep i].
Definition world (ops : list Op) : World := kafka_run 2 (new_world ∅ {[ 0%nat := 1 ]}) ops.
(** Five records of partition 0, the first of them committed; a failed acquisition and
    its retry; the buffer fills. *)
Definition started : list Op :=
  (Append 0 ∘ rec) <$> [0; 1; 2; 3; 4].
Definition owning : list Op := started ++ [SetWanted [0; 3]%nat; AcquireStep 0; AcquireFails 0; AcquireStep 0; Wake 0] ++ acquire 0 ++ [Fetch 0; Fetch 0; Fetch 0; Fetch 0].

Lemma kafka_partition_served_witness :
  owned (owner (world owning)) = [0%nat] ∧ resumed (queues (world owning)) = ∅ ∧ length (bufferFor 0 (queues (world owning))) = 3%nat ∧
  ∃ k, ∀ m, (k <= m)%nat → token <$> polls 2 m 0 2 (world owning, 1) = [2; 3; 4; 5].
Proof.
  split; [vm_compute; reflexivity|]. split; [vm_compute; reflexivity|]. split; [vm_compute; reflexivity|].
  destruct (kafka_partition_served 2 ∅ {[ 0%nat := 1 ]} owning 0 1 2 ltac:(lia)) as (_ & _ & _ & Hw).
  destruct Hw as (_ & _ & _ & Hk); [vm_compute; left|]. destruct Hk as [k Hk]; [vm_compute; discriminate..|]. exists k. intros m Hm. unfold world. rewrite (Hk m Hm). vm_compute. reflexivity.
Defined.

Lemma owned_follows_wanted_witness :
  let ops := owning ++ [SetWanted [3; 5]%nat; AcquireStep 3; AcquireFails 3] in
  owned (owner (settle (world ops))) = [5; 3]%nat ∧ owned (owner (settle (world ops))) ≡ₚ [3; 5]%nat.
Proof.
  split; [vm_compute; reflexivity|].
  destruct (owned_follows_wanted 2 ∅ {[ 0%nat := 1 ]} (owning ++ [SetWanted [3; 5]%nat; AcquireStep 3; AcquireFails 3])) as (Hp & _); [vm_compute; reflexivity|].
  exact Hp.
Defined.

(** A partition dropped while it is being acquired is let go of when that ends. *)
Lemma stale_acquire_released :
  let w := world (started ++ [SetWanted [0]%nat; AcquireStep 0; SetWanted []] ++ acquire 0) in
  owned (owner w) = [] ∧ acquired (queues w) = ∅ ∧ resumed (queues w) = ∅.
Proof. by vm_compute. Qed.

(** A rewind asked for at a silo that does not own the partition moves the committed
    cursor; the owner's consumer stays where it is, and a reader that starts again at
    the cursor is given what follows, not what it asked to see again. *)
Lemma rewind_elsewhere_not_seen :
  let w := world (started ++ [SetWanted [0]%nat] ++ acquire 0 ++ [Fetch 0; Fetch 0; Read 0 3 2; StoreCursor 0 0; Fetch 0]) in
  default 0 (cursors w !! 0%nat) = 0 ∧ (read 2 0 0 2 w).2 = [kafka_entry (rec 3)].
Proof. by vm_compute. Qed.

(** A stopped provider that is given partitions acquires them for nothing. *)
Lemma acquires_after_stop :
  let w := world [SetWanted []; StopProvider; SetWanted [0]%nat] in acquiring (owner w) = [0%nat] ∧ agents w = [].
Proof. by vm_compute. Qed.
End Runs.
