(* ===== verification/Host.v ===== *)
(** * The host of a silo

    Models [packages/hosting/src/health-check.ts] (the class [HealthCheck]),
    [self-probe.ts] (the class [SelfProbeWorker]), [graceful-shutdown.ts] (the class
    [GracefulShutdown]) and, of [silo-host.ts], [stop] and [watchMembership] of the
    class [SiloHost].

    A timer is the time it fires at, and fires then. What a probe answers, and when, is
    arbitrary; so is which hooks fail. *)
From Stdlib Require Import String.
From stdpp Require Import prelude list.
From S2P Require Import Prelude Ids Membership.
Open Scope Z_scope.

(** ** Health *)

Record HealthSignals := mkSignals {
  started : bool;
  draining : bool;
  transportReady : bool;
  membershipHealthy : bool;
  overloaded : bool;
  dispatcherResponsive : bool }.
Definition new_health : HealthSignals := mkSignals false false false false false true.
Definition with_draining (h : HealthSignals) : HealthSignals := mkSignals (started h) true (transportReady h) (membershipHealthy h) (overloaded h) (dispatcherResponsive h).
Definition with_responsive (b : bool) (h : HealthSignals) : HealthSignals := mkSignals (started h) (draining h) (transportReady h) (membershipHealthy h) (overloaded h) b.
Definition ready (h : HealthSignals) : bool :=
  started h && transportReady h && membershipHealthy h && negb (draining h) && negb (overloaded h) && dispatcherResponsive h.

(** ** The self-probe *)

Record SelfProbeWorker := mkProbe {
  now : Z;
  (** The timer of the next tick, and that of the probe under way. *)
  handle : option Z;
  probing : option Z;
  stopped : bool;
  consecutiveMisses : nat;
  health : HealthSignals }.

Section probe.
Context (intervalMs timeoutMs : Z) (missedThreshold : nat).

Definition new_probe (h : HealthSignals) : SelfProbeWorker := mkProbe 0 None None true 0 h.
Definition scheduleNext (w : SelfProbeWorker) : SelfProbeWorker :=
  mkProbe (now w) (Some (now w + intervalMs)) (probing w) (stopped w) (consecutiveMisses w) (health w).
Definition start (w : SelfProbeWorker) : SelfProbeWorker :=
  scheduleNext (mkProbe (now w) (handle w) (probing w) false (consecutiveMisses w) (health w)).
Definition stop (w : SelfProbeWorker) : SelfProbeWorker := mkProbe (now w) None (probing w) true (consecutiveMisses w) (health w).

(** The timer of [scheduleNext] fires: [tick], to the await of [probeOnce]. *)
Definition tick (w : SelfProbeWorker) : SelfProbeWorker :=
  mkProbe (now w) None (if stopped w then probing w else Some (now w + timeoutMs)) (stopped w) (consecutiveMisses w) (health w).
(** The probe is decided; the rest of [tick]. *)
Definition settle (ok : bool) (w : SelfProbeWorker) : SelfProbeWorker :=
  let misses := if ok then 0%nat else S (consecutiveMisses w) in
  let h := if draining (health w) then health w
           else if ok then with_responsive true (health w)
           else if bool_decide (missedThreshold <= misses)%nat then with_responsive false (health w)
           else health w in
  let w := mkProbe (now w) (handle w) None (stopped w) misses h in
  if stopped w then w else scheduleNext w.

Inductive Op :=
  | Start
  | Stop
  | ProbeReturns (ok : bool)
  | Pass (dt : Z)
  | Drain
  | Signals (st tr me ov : bool).

Definition next_due (w : SelfProbeWorker) (t : Z) : Z := Z.min t (Z.min (default t (handle w)) (default t (probing w))).
(** Time goes on, to the next timer at most, which then fires. *)
Definition pass (dt : Z) (w : SelfProbeWorker) : SelfProbeWorker :=
  let t := next_due w (now w + Z.max 0 dt) in
  let w := mkProbe t (handle w) (probing w) (stopped w) (consecutiveMisses w) (health w) in
  if bool_decide (probing w = Some t) then settle false w
  else if bool_decide (handle w = Some t) then tick w
  else w.

Definition probe_step (o : Op) (w : SelfProbeWorker) : SelfProbeWorker :=
  match o with
  | Start => start w
  | Stop => stop w
  | ProbeReturns ok => match probing w with Some _ => settle ok w | None => w end
  | Pass dt => pass dt w
  | Drain => mkProbe (now w) (handle w) (probing w) (stopped w) (consecutiveMisses w) (with_draining (health w))
  | Signals st tr me ov =>
      mkProbe (now w) (handle w) (probing w) (stopped w) (consecutiveMisses w) (mkSignals st (draining (health w)) tr me ov (dispatcherResponsive (health w)))
  end.
Definition probe_run (w : SelfProbeWorker) (ops : list Op) : SelfProbeWorker := foldl (λ w o, probe_step o w) w ops.

(** ** What is always so *)

(** A worker that was stopped is not started before its last probe has ended. *)
Definition op_ok (o : Op) (w : SelfProbeWorker) : bool := match o with Start => stopped w && bool_decide (probing w = None) | _ => true end.
Inductive probe_reachable : SelfProbeWorker → Prop :=
  | probe_new h : dispatcherResponsive h = true → probe_reachable (new_probe h)
  | probe_steps w o : probe_reachable w → op_ok o w = true → probe_reachable (probe_step o w).

Record probe_ok (w : SelfProbeWorker) : Prop := {
  pb_one : stopped w = false → (∃ d, handle w = Some d ∧ probing w = None ∧ now w < d <= now w + intervalMs) ∨ (∃ d, handle w = None ∧ probing w = Some d ∧ now w < d <= now w + timeoutMs);
  pb_stopped : stopped w = true → handle w = None ∧ ∀ d, probing w = Some d → now w < d <= now w + timeoutMs;
  pb_accurate : draining (health w) = false → dispatcherResponsive (health w) = negb (bool_decide (missedThreshold <= consecutiveMisses w)%nat) }.

Hypothesis (Hint : 0 < intervalMs) (Hto : 0 < timeoutMs) (Hthr : (0 < missedThreshold)%nat).

Lemma probe_settle_ok ok w : (stopped w = false → handle w = None) → (stopped w = true → handle w = None) → (draining (health w) = false → dispatcherResponsive (health w) = negb (bool_decide (missedThreshold <= consecutiveMisses w)%nat)) →
  probe_ok (settle ok w).
Proof.
  intros H1 H2 H3. unfold settle. destruct (stopped w) eqn:Es; simpl; rewrite ?Es.
  - split; simpl; [congruence| |].
    + intros _. split; [by apply H2|done].
    + destruct (draining (health w)) eqn:Ed; [intros ?; congruence|]. destruct ok; simpl; [intros _; by rewrite bool_decide_false by lia|].
      intros _. destruct (decide (missedThreshold <= S (consecutiveMisses w))%nat) as [Hm|Hm]; [by rewrite !bool_decide_true by done|].
      rewrite (bool_decide_false _ Hm), (H3 eq_refl). by rewrite bool_decide_false by lia.
  - split; simpl; [|congruence|].
    + intros _. left. exists (now w + intervalMs). split_and!; [done|done|lia|lia].
    + destruct (draining (health w)) eqn:Ed; [intros ?; congruence|]. destruct ok; simpl; [intros _; by rewrite bool_decide_false by lia|].
      intros _. destruct (decide (missedThreshold <= S (consecutiveMisses w))%nat) as [Hm|Hm]; [by rewrite !bool_decide_true by done|].
      rewrite (bool_decide_false _ Hm), (H3 eq_refl). by rewrite bool_decide_false by lia.
Qed.
(** Case analysis on the first test of the goal. *)
Ltac test H :=
  match goal with |- context [bool_decide ?P] => destruct (decide P) as [H|H]; [rewrite (bool_decide_true P) by exact H|rewrite (bool_decide_false P) by exact H] end.

Lemma probe_step_ok o w : probe_ok w → op_ok o w = true → probe_ok (probe_step o w).
Proof.
  intros Hok Ho. pose proof Hok as [H1 H2 H3]. destruct o as [| |ok|dt| |st tr me ov]; simpl in *.
  - apply andb_true_iff in Ho as [Hs Hp%bool_decide_eq_true]. destruct (H2 Hs) as [Hh _]. split; simpl; [|congruence|done]. intros _. left. exists (now w + intervalMs). split_and!; [done|done|lia|lia].
  - split; simpl; [congruence| |done]. intros _. split; [done|]. intros d Hd. destruct (stopped w) eqn:Es; [by apply H2|]. destruct (H1 eq_refl) as [(d' & _ & Hp & _)|(d' & _ & Hp & ?)]; [congruence|]. rewrite Hd in Hp. by injection Hp as ->.
  - destruct (probing w) as [d|] eqn:Hp; [|done]. apply probe_settle_ok; [|intros Hs; apply (H2 Hs)|done]. intros Es. destruct (H1 Es) as [(d' & _ & ? & _)|(d' & ? & _)]; congruence.
  - unfold pass, next_due. cbn [handle probing]. destruct (stopped w) eqn:Es.
    + destruct (H2 eq_refl) as [Hh Hp]. rewrite Hh. simpl. destruct (probing w) as [d|] eqn:Hpr; simpl.
      * specialize (Hp d eq_refl). test Hd.
        -- apply probe_settle_ok; simpl; [by intros _|by intros _|exact H3].
        -- split; simpl; [congruence| |done]. intros _. split; [done|]. intros d' [= <-]. assert (now w + Z.max 0 dt <> d) by (intros ?; apply Hd; f_equal; lia). assert (Z.min (now w + Z.max 0 dt) (Z.min (now w + Z.max 0 dt) d) ≠ d) by (intros E; apply Hd; by rewrite E). lia.
      * split; simpl; [congruence| |done]. by intros _.
    + destruct (H1 eq_refl) as [(d & Hh & Hp & Hd)|(d & Hh & Hp & Hd)]; rewrite Hh, Hp; simpl.
      * test He.
        -- unfold tick. simpl. rewrite ?Es. split; simpl; [|congruence|done]. intros _. right. eexists. split; [done|]. split; [done|]. lia.
        -- split; simpl; [|congruence|done]. intros _. left. exists d. split_and!; try done; [|lia]. assert (Z.min (now w + Z.max 0 dt) (Z.min d (now w + Z.max 0 dt)) ≠ d) by (intros E; apply He; by rewrite E). lia.
      * test He.
        -- apply probe_settle_ok; simpl; [by intros _|by intros _|exact H3].
        -- split; simpl; [|congruence|done]. intros _. right. exists d. split_and!; try done; [|lia]. assert (Z.min (now w + Z.max 0 dt) (Z.min (now w + Z.max 0 dt) d) ≠ d) by (intros E; apply He; by rewrite E). lia.
  - split; simpl; [done|done|]. congruence.
  - split; simpl; done.
Qed.

Lemma probe_reachable_ok w : probe_reachable w → probe_ok w.
Proof.
  induction 1 as [h Hh|w o _ IH Ho]; [|by apply probe_step_ok]. split; simpl; [congruence|by intros _|]. intros _. by rewrite Hh, bool_decide_false by lia.
Qed.

(** *** A dispatcher that does not answer *)

(** The moment by which the threshold is reached, if nothing succeeds. *)
Definition deadline (w : SelfProbeWorker) : Z :=
  match probing w with Some d => d | None => default (now w) (handle w) + timeoutMs end + (Z.of_nat missedThreshold - 1 - Z.of_nat (consecutiveMisses w)) * (intervalMs + timeoutMs).
(** Nothing succeeds, and the silo goes on. *)
Definition hangs (o : Op) : bool := match o with Pass _ | ProbeReturns false | Signals _ _ _ _ => true | _ => false end.

Lemma settle_false w : stopped w = false → draining (health w) = false → handle w = None → ∀ d, probing w = Some d → now w <= d →
  let w' := settle false w in stopped w' = false ∧ draining (health w') = false ∧ deadline w' <= deadline w.
Proof.
  intros Hs Hd Hh d Hp Hle. unfold settle, deadline. rewrite Hd, Hp. simpl. rewrite Hs. simpl. split; [done|]. split; [by case_bool_decide|]. lia.
Qed.

Lemma hang_step o w : probe_ok w → stopped w = false → draining (health w) = false → hangs o = true →
  let w' := probe_step o w in stopped w' = false ∧ draining (health w') = false ∧ deadline w' <= deadline w ∧ probe_ok w'.
Proof.
  intros Hok Hs Hd Ho. assert (Hok' : probe_ok (probe_step o w)) by (apply probe_step_ok; [done|by destruct o]). pose proof Hok as [H1 _ _].
  assert (H : stopped (probe_step o w) = false ∧ draining (health (probe_step o w)) = false ∧ deadline (probe_step o w) <= deadline w); [|naive_solver].
  clear Hok'. destruct o as [| |[]|dt| |st tr me ov]; try done; simpl.
  - destruct (probing w) as [d|] eqn:Hp; [|done]. destruct (H1 Hs) as [(d' & _ & ? & _)|(d' & Hh & Hp' & ?)]; [congruence|]. injection Hp' as <-. apply (settle_false w Hs Hd Hh d Hp). lia.
  - unfold pass, next_due. cbn [handle probing]. destruct (H1 Hs) as [(d & Hh & Hp & Hb)|(d & Hh & Hp & Hb)]; rewrite Hh, Hp; simpl.
    + test He; [|unfold deadline; simpl; by rewrite Hh, Hp]. unfold tick, deadline. simpl. rewrite Hs, Hp, Hh. simpl. injection He as He. split_and!; [done|done|]. lia.
    + test He; [|unfold deadline; simpl; by rewrite Hp]. 
      pose proof (settle_false (mkProbe (Z.min (now w + Z.max 0 dt) (Z.min (now w + Z.max 0 dt) d)) None (Some d) (stopped w) (consecutiveMisses w) (health w)) Hs Hd eq_refl d eq_refl) as Hx.
      simpl in Hx. unfold deadline in Hx |- *. simpl in Hx. rewrite Hp. apply Hx. lia.
Qed.
Lemma hang_run ops : ∀ w, probe_ok w → stopped w = false → draining (health w) = false → forallb hangs ops = true →
  let w' := probe_run w ops in stopped w' = false ∧ draining (health w') = false ∧ deadline w' <= deadline w ∧ probe_ok w'.
Proof.
  induction ops as [|o ops IH]; intros w Hok Hs Hd Ho; [done|]. simpl in Ho. apply andb_true_iff in Ho as [Ho Hos].
  destruct (hang_step o w Hok Hs Hd Ho) as (A & B & C & D). destruct (IH _ D A B Hos) as (A' & B' & C' & D'). split_and!; try done. simpl in *. lia.
Qed.

(** C40: a silo whose dispatcher does not answer leaves service in time: if from some
    moment on no probe succeeds, then once the threshold's number of intervals and
    timeouts has gone by, and until a probe succeeds, it is not ready, whatever else is
    reported; before the threshold is missed in a row it is not held unresponsive. *)
Theorem wedged_silo_leaves_service w ops : probe_reachable w → stopped w = false → draining (health w) = false → forallb hangs ops = true →
  let w' := probe_run w ops in
  (now w + Z.of_nat missedThreshold * (intervalMs + timeoutMs) <= now w' → ready (health w') = false) ∧
  (dispatcherResponsive (health w') = true ↔ (consecutiveMisses w' < missedThreshold)%nat) ∧
  ∀ d, probing w' = Some d → dispatcherResponsive (health (probe_step (ProbeReturns true) w')) = true.
Proof.
  intros Hw Hs Hd Ho w'. pose proof (probe_reachable_ok w Hw) as Hok. destruct (hang_run ops w Hok Hs Hd Ho) as (A & B & C & D). fold w' in A, B, C, D.
  pose proof (pb_accurate _ D B) as Hacc. split_and!.
  - intros Ht. assert (Hm : (missedThreshold <= consecutiveMisses w')%nat).
    { destruct (decide (missedThreshold <= consecutiveMisses w')%nat) as [|Hlt]; [done|]. exfalso.
      assert (Hup : deadline w <= now w + Z.of_nat missedThreshold * (intervalMs + timeoutMs)).
      { unfold deadline. destruct (pb_one _ Hok Hs) as [(d & Hh & Hp & Hb)|(d & Hh & Hp & Hb)]; rewrite Hp, ?Hh; simpl; nia. }
      assert (Hlow : now w' < deadline w').
      { unfold deadline. destruct (pb_one _ D A) as [(d & Hh & Hp & Hb)|(d & Hh & Hp & Hb)]; rewrite Hp, ?Hh; simpl; nia. }
      lia. }
    unfold ready. rewrite Hacc, bool_decide_true by done. simpl. apply andb_false_r.
  - rewrite Hacc, negb_true_iff, bool_decide_eq_false. lia.
  - intros d Hp. simpl. rewrite Hp. unfold settle. rewrite B. destruct (stopped w'); done.
Qed.
End probe.

(** ** Stopping the host *)

Inductive Action :=
  | WatchAborted
  | RebalancerStopped
  | RemindersStopped
  | BeforeDeactivate (hook : nat) (failed : bool)
  | NodeStops (deadlineMs : Z)
  | NodeStopped
  | ProbeStopped
  | ServerClosed
  | StopHook (hook : nat).
(** Where a call of [SiloHost.stop] waits, or how it ended. *)
Inductive Stopping := InHook (i : nat) | InGrace | InNode | InClose | InOnStop (i : nat) | Returned | Rejected.
Record SiloHost := mkHost { signals : HealthSignals; shutdown_draining : bool; actions : list Action; stops : list Stopping }.
Definition new_host (h : HealthSignals) : SiloHost := mkHost h false [] [].

Section host.
Context (graceMs stopBudgetMs : Z) (beforeDeactivate onStop : nat).

Definition log_action (l : list Action) (h : SiloHost) : SiloHost := mkHost (signals h) (shutdown_draining h) (actions h ++ l) (stops h).
Definition set_stop (k : nat) (s : Stopping) (h : SiloHost) : SiloHost := mkHost (signals h) (shutdown_draining h) (actions h) (<[k := s]> (stops h)).
Definition enter_on_stop (k i : nat) (h : SiloHost) : SiloHost := set_stop k (if bool_decide (i < onStop)%nat then InOnStop i else Returned) h.
Definition after_drain (k : nat) (h : SiloHost) : SiloHost := set_stop k InClose (log_action [ProbeStopped] h).
(** [GracefulShutdown.drain], to its first await. *)
Definition enter_drain (k : nat) (h : SiloHost) : SiloHost :=
  if shutdown_draining h then after_drain k h
  else set_stop k InGrace (mkHost (with_draining (signals h)) true (actions h) (stops h)).
Definition enter_hook (k i : nat) (h : SiloHost) : SiloHost :=
  if bool_decide (i < beforeDeactivate)%nat then set_stop k (InHook i) h else enter_drain k h.

Definition stop_called (h : SiloHost) : SiloHost :=
  let h := mkHost (signals h) (shutdown_draining h) (actions h ++ [WatchAborted; RebalancerStopped; RemindersStopped]) (stops h ++ [Returned]) in
  enter_hook (length (stops h) - 1) 0 h.
(** What a call waits for ends, or fails. *)
Definition stop_continues (k : nat) (fails : bool) (h : SiloHost) : SiloHost :=
  match stops h !! k with
  | Some (InHook i) => enter_hook k (S i) (log_action [BeforeDeactivate i fails] h)
  | Some InGrace => set_stop k InNode (log_action [NodeStops (Z.max 0 (stopBudgetMs - graceMs))] h)
  | Some InNode => if fails then set_stop k Rejected h else after_drain k (log_action [NodeStopped] h)
  | Some InClose => enter_on_stop k 0 (log_action [ServerClosed] h)
  | Some (InOnStop i) => if fails then set_stop k Rejected h else enter_on_stop k (S i) (log_action [StopHook i] h)
  | _ => h
  end.

Inductive HostOp := StopCalled | StopContinues (k : nat) (fails : bool) | HealthUpdate (st tr me ov re : bool).
Definition host_step (h : SiloHost) (o : HostOp) : SiloHost :=
  match o with
  | StopCalled => stop_called h
  | StopContinues k fails => stop_continues k fails h
  | HealthUpdate st tr me ov re => mkHost (mkSignals st (draining (signals h)) tr me ov re) (shutdown_draining h) (actions h) (stops h)
  end.
Definition host_run (h : SiloHost) (ops : list HostOp) : SiloHost := foldl host_step h ops.

(** The grace of a drain is past, and the node told to stop, only after the silo has
    left service; and a silo that drains is never ready again. *)
Definition drains (h : SiloHost) : Prop :=
  (shutdown_draining h = true → draining (signals h) = true) ∧
  ∀ k s, stops h !! k = Some s → (s = InGrace ∨ s = InNode) → shutdown_draining h = true.

Lemma drains_set k s h : drains h → (s = InGrace ∨ s = InNode → shutdown_draining h = true) → drains (set_stop k s h).
Proof.
  intros [H1 H2] Hs. split; [done|]. intros k' s' Hk. simpl in *. destruct (decide (k = k')) as [->|Hne]; [|rewrite list_lookup_insert_ne in Hk by done; by eapply H2].
  destruct (decide (k' < length (stops h))%nat); [rewrite list_lookup_insert_eq in Hk by done; by injection Hk as <-|]. rewrite list_insert_ge in Hk by lia. by eapply H2.
Qed.
Lemma drains_log l h : drains h → drains (log_action l h).
Proof. done. Qed.
Lemma drains_after k h : drains h → drains (after_drain k h).
Proof. intros H. apply drains_set; [done|]. by intros [?|?]. Qed.
Lemma drains_enter k h : drains h → drains (enter_drain k h).
Proof.
  intros H. unfold enter_drain. destruct (shutdown_draining h) eqn:E; [by apply drains_after|]. by apply drains_set.
Qed.
Lemma drains_hook k i h : drains h → drains (enter_hook k i h).
Proof. intros H. unfold enter_hook. case_bool_decide; [|by apply drains_enter]. apply drains_set; [done|]. by intros [?|?]. Qed.
Lemma drains_step h o : drains h → drains (host_step h o) ∧ (draining (signals h) = true → draining (signals (host_step h o)) = true).
Proof.
  intros H. assert (Hmono : draining (signals h) = true → draining (signals (host_step h o)) = true).
  { intros Hd. destruct o as [|k fails|]; simpl; [| |done].
    - unfold stop_called, enter_hook, enter_drain. simpl. repeat case_match; simpl; done.
    - unfold stop_continues. destruct (stops h !! k) as [[i| | | |i| |]|]; try done; unfold enter_hook, enter_drain, after_drain, enter_on_stop; simpl; repeat case_match; simpl; done. }
  split; [|done]. destruct o as [|k fails|]; simpl.
  - apply drains_hook. destruct H as [H1 H2]. split; [done|]. intros k s Hk. simpl in *. apply lookup_app_Some in Hk as [Hk|[_ Hk]]; [by eapply H2|].
    destruct (k - length (stops h))%nat; simpl in Hk; [injection Hk as <-; by intros [?|?]|done].
  - unfold stop_continues. destruct (stops h !! k) as [[i| | | |i| |]|] eqn:Hk; try done.
    + by apply drains_hook, drains_log.
    + apply drains_set; [done|]. intros _. destruct H as [_ H2]. eapply H2; [done|by left].
    + destruct fails; [apply drains_set; [done|by intros [?|?]]|by apply drains_after].
    + apply drains_set; [done|]. case_bool_decide; by intros [?|?].
    + destruct fails; apply drains_set; try done; try (by intros [?|?]). case_bool_decide; by intros [?|?].
  - by destruct H as [H1 H2].
Qed.
Lemma drained_never_ready ops : ∀ h, drains h → let h' := host_run h ops in drains h' ∧ (draining (signals h) = true → ready (signals h') = false).
Proof.
  assert (Hr : ∀ s, draining s = true → ready s = false) by (intros s E; unfold ready; rewrite E; simpl; rewrite andb_false_r; by rewrite !andb_false_l).
  assert (H : ∀ ops h, drains h → drains (host_run h ops) ∧ (draining (signals h) = true → draining (signals (host_run h ops)) = true)).
  { clear ops. induction ops as [|o ops IH]; intros h Hd; [done|]. destruct (drains_step h o Hd) as [A B]. destruct (IH _ A) as [A' B']. split; [done|]. intros Hh. by apply B', B. }
  intros h Hd. destruct (H ops h Hd) as [A B]. split; [done|]. intros Hh. by apply Hr, B.
Qed.
End host.

(** ** The watch of membership *)

(** The loop of [watchMembership]: it waits for an update, of which it has taken some,
    or runs the hooks of one. *)
Inductive WatchStage := Waiting | Hooks (left_over : nat).
Record MembershipWatch := mkWatch { service : MembershipService; taken : nat; stage : WatchStage; (** The version of the node's view. *) applied : Z }.
Definition new_watch (m : MembershipService) : MembershipWatch := mkWatch (next_update 0 m) 0 Waiting (version (snapshot m)).

Section watch.
Context (hooks : nat).

Inductive WatchOp := Publishes (members : list SiloMember) | Resumes | HookEnds (fails : bool).
Definition loop_again (w : MembershipWatch) : MembershipWatch := mkWatch (next_update 0 (service w)) (taken w) Waiting (applied w).
Definition watch_step (w : MembershipWatch) (o : WatchOp) : MembershipWatch :=
  match o, stage w with
  | Publishes members, _ => mkWatch (publish members (service w)) (taken w) (stage w) (applied w)
  | Resumes, Waiting =>
      (* An update was delivered: [updateView] takes the current view. *)
      if bool_decide (taken w < length (delivered (service w)))%nat then
        let w := mkWatch (service w) (S (taken w)) (Hooks hooks) (version (snapshot (service w))) in
        match hooks with O => loop_again w | S _ => w end
      else w
  | HookEnds fails, Hooks (S n) => if fails || bool_decide (n = 0)%nat then loop_again w else mkWatch (service w) (taken w) (Hooks n) (applied w)
  | _, _ => w
  end.
Definition watch_run (w : MembershipWatch) (ops : list WatchOp) : MembershipWatch := foldl watch_step w ops.

(** The loop never ends: it waits for an update, has one to take, or runs hooks; and
    while it waits with none to take, it has asked for the next. *)
Definition alive (w : MembershipWatch) : Prop :=
  match stage w with
  | Waiting => length (delivered (service w)) = S (taken w) ∧ waiters (service w) = [] ∨ length (delivered (service w)) = taken w ∧ waiters (service w) = [0%nat]
  | Hooks n => (0 < n)%nat ∧ length (delivered (service w)) = taken w ∧ waiters (service w) = []
  end.
Lemma loop_again_alive w : length (delivered (service w)) = taken w → waiters (service w) = [] → alive (loop_again w).
Proof. intros H1 H2. right. simpl. by rewrite H2. Qed.
Lemma watch_alive w o : alive w → alive (watch_step w o).
Proof.
  unfold alive. intros H. destruct o as [ms| |fails]; destruct w as [m tk [|n] ap]; simpl in *; try done.
  - left. destruct H as [[Hl Hw]|[Hl Hw]]; rewrite Hw; simpl; rewrite length_app; simpl; split; try done; lia.
  - destruct H as (Hn & Ht & Hw). rewrite Hw. simpl. by rewrite app_nil_r.
  - unfold watch_step. simpl. case_bool_decide as Hd; [|done]. destruct H as [[Hl Hw]|[Hl _]]; [|lia]. destruct hooks; [by apply loop_again_alive|]. simpl. split_and!; [lia|done|done].
  - unfold watch_step. simpl. destruct H as (Hn & Ht & Hw). destruct n as [|n]; [lia|]. destruct (fails || bool_decide (n = 0)%nat) eqn:E; [by apply loop_again_alive|]. apply orb_false_iff in E as [_ E%bool_decide_eq_false]. simpl. split_and!; [lia|done|done].
Qed.
Lemma watch_run_alive ops : ∀ w, alive w → alive (watch_run w ops).
Proof. induction ops as [|o ops IH]; intros w Hw; [done|]. apply IH. by apply watch_alive. Qed.
End watch.

(** ** Concrete runs *)

Module Runs.
Definition serving : HealthSignals := mkSignals true false true true false true.
Definition worker : SelfProbeWorker := probe_run 10000 5000 3 (new_probe serving) [Start; Pass 10000; ProbeReturns true; Pass 4000].
Definition pass_time (n : nat) : list Op := replicate n (Pass 10000).

Lemma worker_reachable : probe_reachable 10000 5000 3 worker.
Proof.
  exact (probe_steps _ _ _ _ (Pass 4000) (probe_steps _ _ _ _ (ProbeReturns true) (probe_steps _ _ _ _ (Pass 10000) (probe_steps _ _ _ _ Start (probe_new _ _ _ serving eq_refl) eq_refl) eq_refl) eq_refl) eq_refl).
Qed.
Lemma wedged_silo_leaves_service_witness :
  let w' := probe_run 10000 5000 3 worker (Pass 20000 :: pass_time 6) in
  ready (health worker) = true ∧ now worker = 14000 ∧ now w' = 65000 ∧ ready (health w') = false.
Proof.
  split; [vm_compute; reflexivity|]. split; [vm_compute; reflexivity|]. split; [vm_compute; reflexivity|].
  apply (wedged_silo_leaves_service 10000 5000 3 ltac:(lia) ltac:(lia) ltac:(lia) worker (Pass 20000 :: pass_time 6) worker_reachable).
  - vm_compute; reflexivity.
  - vm_compute; reflexivity.
  - vm_compute; reflexivity.
  - vm_compute; discriminate.
Defined.

(** A worker stopped and started again while a probe is under way ticks twice from
    then on: the end of the old tick arms a timer of its own. *)
Lemma restarted_probe_ticks_twice :
  let w := probe_run 10000 5000 3 (new_probe serving) [Start; Pass 10000; Stop; Start; Pass 1000] in
  handle w = Some 20000 ∧ probing w = Some 15000 ∧
  handle (probe_step 10000 5000 3 (ProbeReturns true) w) = Some 21000.
Proof. by vm_compute. Qed.

(** A host told to stop a second time goes past the drain under way: it closes the
    server and runs the stop hooks, which disconnect the stores, in the grace of the
    first, before the node is told to stop. *)
Lemma second_stop_overtakes :
  actions (host_run 5000 30000 1 1 (new_host serving)
    [StopCalled; StopContinues 0 false; StopCalled; StopContinues 1 false; StopContinues 1 false; StopContinues 1 false; StopContinues 0 false]) =
  [WatchAborted; RebalancerStopped; RemindersStopped; BeforeDeactivate 0 false; WatchAborted; RebalancerStopped; RemindersStopped; BeforeDeactivate 0 false;
   ProbeStopped; ServerClosed; StopHook 0; NodeStops 25000].
Proof. by vm_compute. Qed.
(** A node that fails to stop leaves the probe running, the server open and the stores
    connected. *)
Lemma failed_node_stop_leaves_rest :
  let h := host_run 5000 30000 0 1 (new_host serving) [StopCalled; StopContinues 0 false; StopContinues 0 true] in
  stops h = [Rejected] ∧ actions h = [WatchAborted; RebalancerStopped; RemindersStopped; NodeStops 25000].
Proof. by vm_compute. Qed.

(** A view published while the hooks of the last run is not applied, and the loop
    waits for the next change. *)
Lemma view_missed_during_hooks :
  let m i := mkMember (mkSilo i i i) Active None in
  let w := watch_run 1 (new_watch new_kubernetes) [Publishes [m "a"%string]; Resumes; Publishes [m "a"; m "b"]%string; HookEnds false; Resumes] in
  applied w = 1 ∧ version (snapshot (service w)) = 2 ∧ stage w = Waiting.
Proof. by vm_compute. Qed.
End Runs.
